(* ===== verification/_CoqProject ===== *)
-Q . S2P
Prelude.v
F32.v
Strings.v
Neighbor.v
NeighborQueue.v
QueueInterface.v
DiverseQueue.v
AdjacencyList.v
Config.v
Prune.v
Search.v
OutputBuffer.v
Knn.v
DiverseSearch.v
Paged.v
RangeSearch.v
Filtered.v
FilteredSearch.v
FilteredRange.v
Flat.v
AsyncTools.v
GraphUpdate.v
InplaceDelete.v
Insert.v
MultiInsert.v
Tasks.v
Batch.v
MultiDelete.v
GraphStats.v
InmemBuffer.v
Epoch.v
Freelist.v
InmemNeighbors.v
Store.v
StoreSafety.v
SliceHeap.v
Bytes.v
BitSlice.v
Simd.v
BitKernels.v
BitBlocks.v
BitDistance.v
BitMixed.v
BitMixed8.v
DiskIo.v
DiskHeader.v
DiskLayout.v
DiskGraph.v
DiskRoundtrip.v
DiskCache.v
LabelJson.v
LabelFlatten.v
LabelKeys.v
LabelIndex.v
LabelQuery.v
LabelEncoded.v
LabelSearch.v
LabelDocument.v
RecordValue.v
RecordTraits.v
RecordTypes.v
RecordStore.v
Fsm.v
FsmBlocks.v
FsmProtocol.v
FsmSafety.v
FsmScan.v
FsmNext.v
FsmRecovery.v
