(* ===== verification/Prelude.v ===== *)
(** * A verification library for DiskANN

    DiskANN is a Rust workspace for approximate nearest-neighbor search on a proximity graph.
    Its core is the crate [diskann]: an index ([DiskANNIndex], [diskann/src/graph/index.rs])
    over a data provider (traits of [diskann/src/provider.rs] and [diskann/src/graph/glue.rs])
    that stores vectors and adjacency lists.  A search walks the graph greedily with a bounded
    queue of candidates; an insertion searches for the new vector, prunes what it visited to a
    diverse list of out edges and adds back edges; deletions are repaired by consolidation.
    Around the core are storage backends (in memory, on disk, in the Garnet store, in a B-tree),
    vector kernels and quantizers, filters, benchmarks and tools.  The library covers the core,
    the concurrent in-memory store, the disk format with its readers, the label filters, the
    versioned records, the free-space map of the Garnet backend and the packed integer slices of
    the quantizers.

    ** How the library follows the code

    Shared:
    - [Prelude] (this file): results and panics of Rust, vector operations with their panics, the
      hint database [rust], lemmas on lists.
    - [F32]: the binary32 format, its comparisons and arithmetic, and what is used of binary64.
    - [Strings]: searching and splitting strings, decimal numbers.
    - [Bytes]: byte strings, little-endian words, bit fields.

    Candidates and their queues ([diskann/src/neighbor/]):
    - [Neighbor]: [mod.rs], a candidate and its orderings.
    - [NeighborQueue]: [queue.rs], the candidate queue with its cursor and the vectorised lower
      bound.
    - [QueueInterface]: the trait [NeighborQueue] as a class, the laws that search relies on, and
      the proof that the priority queue satisfies them.
    - [DiverseQueue]: [diverse_priority_queue.rs], a queue that bounds the number of items per
      attribute, as a second instance of that class.

    Graph, configuration and pruning ([diskann/src/graph/]):
    - [AdjacencyList]: [adjacencylist.rs], the membership test of
      [diskann-vector/src/contains/x86_64.rs] and [internal/backedge.rs].
    - [Config]: [config/]: the builder and its validation.
    - [Prune]: [internal/sorted_neighbors.rs], [internal/prune.rs] and [occlude_list] of the
      index.

    Searches ([diskann/src/graph/search/] and [diskann/src/flat/]):
    - [Search]: [scratch.rs], the trait [SearchAccessor] and [search_internal] of the index.
    - [OutputBuffer]: [graph/search_output_buffer.rs] and the buffers of [neighbor/mod.rs].
    - [Knn]: [knn_search.rs], the search records, the post-processing steps of [glue.rs] and the
      scratch pool.
    - [DiverseSearch]: [diverse_search.rs].
    - [Paged]: [paged.rs] and the entry points of the index.
    - [RangeSearch]: [range_search.rs].
    - [Filtered]: the decisions of a filter and the contract of a filtered accessor ([glue.rs]);
      [FilteredSearch]: [inline_filter_search.rs] and [multihop_filter_search.rs];
      [FilteredRange]: [filtered_range_search.rs].
    - [Flat]: [flat/index.rs] and [flat/strategy.rs], exhaustive search.

    Updates ([diskann/src/graph/index.rs]):
    - [AsyncTools]: [diskann/src/utils/async_tools.rs], the distribution of a batch over tasks.
    - [GraphUpdate]: [robust_prune], [robust_prune_list], [robust_prune_with],
      [add_edge_and_prune], [prune_range], [consolidate_vector], [drop_deleted_neighbors] and
      their helpers.
    - [InplaceDelete]: [inplace_delete] with its three candidate methods.
    - [Insert]: [insert].
    - [MultiInsert]: the work per item of [multi_insert] and [aggregate_backedges];
      [Tasks]: tasks that share a work queue, under arbitrary schedules; [Batch]: the whole of
      [multi_insert]; [MultiDelete]: [multi_inplace_delete].
    - [GraphStats]: [count_reachable_nodes] and [get_degree_stats].

    The in-memory provider ([diskann-inmem/src/]):
    - [InmemBuffer]: [num.rs] and [buffer.rs], the raw row store.
    - [Epoch]: [epoch.rs], epoch-based reclamation.
    - [Freelist]: [freelist.rs].
    - [InmemNeighbors]: [neighbors.rs], adjacency lists in one allocation.
    - [Store] and [StoreSafety]: [store.rs] and [tag.rs], the concurrent slot store over all of
      these, and its invariant.

    Quantization ([diskann-quantization/src/]):
    - [SliceHeap]: [algorithms/heap.rs].
    - [BitSlice]: [bits/packing.rs] and [bits/slice.rs].
    - [Simd]: the integer registers of [diskann-wide] ([emulated.rs], [reference.rs]).
    - [BitKernels], [BitMixed], [BitMixed8]: the integer kernels of [bits/distances.rs];
      [BitBlocks] and [BitDistance]: their proofs.

    The disk index ([diskann-disk/src/]):
    - [DiskIo]: [storage/cached_reader.rs] and [cached_writer.rs] over the files of a storage
      provider ([diskann-providers/src/storage/file_storage_provider.rs]).
    - [DiskHeader]: [data_model/graph_header.rs], [graph_metadata.rs], [graph_layout_version.rs].
    - [DiskLayout]: [storage/disk_index_writer.rs].
    - [DiskGraph]: the aligned readers, [disk_sector_graph.rs], [disk_vertex_provider.rs] of
      [search/provider/] and [ensure_vertex_loaded] of [disk_provider.rs].
    - [DiskRoundtrip]: writer and readers together.
    - [DiskCache]: [data_model/cache.rs], [cached_disk_vertex_provider.rs] and
      [disk_vertex_provider_factory.rs].

    Label filters ([diskann-label-filter/src/]):
    - [LabelJson]: [parser/] (filter expressions, their parser from JSON, their evaluation on a
      label) and [attribute.rs].
    - [LabelFlatten]: [utils/flatten_utils.rs], a label as a map from paths to values.
    - [LabelKeys]: [traits/key_codec.rs], the key ranges of [traits/kv_store_traits.rs] and the
      range bounds of [kv_index/generic_index.rs].
    - [LabelIndex]: [traits/posting_list_trait.rs] and the updates of [kv_index/];
      [LabelQuery]: [kv_index/query_evaluator_impl.rs] and [traits/query_evaluator.rs].
    - [LabelEncoded]: [encoded_attribute_provider/], [set/roaring_set_provider.rs] and
      [inline_beta_search/predicate_evaluator.rs]: attributes as numbers.
    - [LabelSearch]: the accessor and the post-processor of [inline_beta_search/], over [Search]
      and [Knn].
    - [LabelDocument]: [encoded_attribute_provider/document_provider.rs].

    Versioned records ([diskann-record/src/]):
    - [RecordValue]: [number.rs], [version.rs], [value.rs], the values of a manifest and their JSON.
    - [RecordTraits]: the traits of [save/] and [load/] with all their implementations.
    - [RecordTypes]: the types that the traits are implemented for, as syntax with its meaning.
    - [RecordStore]: [backend/memory.rs], [backend/disk.rs] and the entry points.

    The free-space map ([diskann-garnet/src/fsm.rs]):
    - [Fsm]: the operations as programs over atomic actions; [FsmBlocks]: the stored blocks as a
      set of ids; [FsmProtocol] and [FsmSafety]: any number of operations interleaved;
      [FsmScan], [FsmNext], [FsmRecovery]: the operations run alone.

    ** Conventions

    A Rust function that may panic returns an [option] ([None] is the panic; an access that the
    source leaves unchecked is also [None] when it is out of bounds), a fallible one a [result].
    Mutable state is passed explicitly; operations on the data provider are written in the
    monad [GM] of [GraphUpdate] (state, errors and panics), those on files in the monad [comp] of
    [DiskIo].  Debug assertions and the overflow checks of a debug build are under a parameter
    [debug]; unless a theorem says otherwise it holds for both values.  [usize] lengths of
    vectors in memory are [nat]; where arithmetic can overflow ([u32] counters, [u16] states,
    doubled list lengths, atomic counters, byte counts, packed sizes, the ids of the free-space
    map) the width is written out.  Distances are binary32 numbers with their rounding and NaN.
    Allocations succeed.

    [async] functions are modelled by their sequential execution, and the tasks of a batch run
    under an arbitrary schedule that switches between items.  The code whose purpose is
    concurrency is modelled by interleavings: the balancer, the registry of epochs, the slot
    store and the free-space map take one atomic access per step, by any number of operations in
    any order.  Memory is sequentially consistent there: the orderings and fences of the source
    are not modelled.  In the free-space map a panic poisons the locks that are held.

    The creation of a prune accessor can fail in the source; here such a failure is an error of
    the first operation on the accessor.  An error of the provider is a value of its error type,
    without the context messages that the source attaches.

    Code outside the modelled files is a parameter: the data provider and its accessors (classes
    [SearchAccessor], [GraphProvider], [InsertProvider], [DeleteProvider], [FilteredAccessor],
    [DistancesUnordered], with laws that state their documented contract), the sorts of the
    standard library (classes [UnstableSort] and [TotalSort], instances by merge sort), the
    iteration order of hash sets and maps ([hash_iter], [map_iter], permutations of the
    elements), the functions [log10] and [powf] of the adaptive list size, the Garnet store
    (class [GarnetStore], whose operations may fail at any time except where [GarnetReliable] is
    assumed), the aligned reader of the disk index (class [AlignedFileReader]), the deserializer
    of the associated data, the numbers and the text layer of [serde_json] (classes [JsonNumber]
    and [JsonText]), the bitmaps of
    [roaring] (class [Roaring]) and the key-value store of the inverted index (class [KvStore]).
    Each class has an instance that satisfies its laws, used in the witnesses.

    ** What the theorems show

    - Candidate queue: an insertion keeps the queue sorted, bounded and complete (what is
      dropped is no closer than what is kept), a run of insertions keeps the closest items, a
      visit returns the closest unvisited item, the vectorised lower bound is the first index
      at or above the distance.  The diverse queue, when distances are distinct, ends with
      the greedy diverse choice.
    - Pruning: RobustPrune terminates and selects a diverse neighborhood (nothing selected is
      occluded by a closer selection; below the degree bound everything left out is occluded);
      the adjacency list built from it is distinct, within the degree and without the vertex.
    - Search: the loop terminates for every lawful queue and accessor, and ends in a local
      optimum: every neighbor of every result was found or is no closer than the full list;
      k-NN search writes, without the start points, the closest of the nodes it reached, and
      reaches the neighbors of its candidates; pages never repeat; the points that a range
      search finds are closed under neighbors in range; filtered searches end and return
      accepted points only, the closest that they reached; flat search is exact.
    - Updates: adding edges, pruning a range, consolidation, insertion and in-place deletion
      keep every adjacency list distinct and within the maximal degree, touch only the lists
      they should, and achieve their purpose (no deleted neighbor left; back edges present where
      there is room; the deleted vertex disconnected where its in-neighbors are looked for).  The reachability count is exact.
    - Batches: back edges are reversed exactly, windows, chunks and partitions cover what they
      should, the balancer hands out every item exactly once under any interleaving, and batched
      insertion and deletion keep the graph well formed under every schedule, with the failures
      that the code drops accounted for.
    - In-memory store: no item is reclaimed while a guard that could have seen it is held, and
      four advances reclaim it otherwise; no slot is read and written at the same time, what a
      reader sees stays until it lets go, no internal check fires, slices of rows are disjoint;
      the adjacency lists refine a map of bounded lists.
    - Packed slices: values are where the layout says, what is set is read back and nothing else
      changes; every kernel on every
      architecture gives the sum over the values modulo [2^32] and reads inside its slices.
    - Disk index: the caches refine plain sequential files; the writer produces exactly the file
      of the abstract graph, in both layouts; every vertex is read back as it was written, through
      every lawful reader; no two nodes overlap; a provider with a cache serves what the provider
      without it serves; the cache is filled breadth first from the medoid up to its limit.
    - Label filters: the parser accepts exactly the expressions within its nesting limit; the
      inverted index refines a map from documents to attributes; a query on it returns the
      documents whose labels the evaluator accepts, as long as the expression has no negation and
      its numbers are within the precision of the keys; the attribute store refines a map from
      vectors to attributes and a translated filter decides what the filter says; the provider of
      documents keeps it consistent with the data provider; a search with an inline filter
      returns only points that satisfy it, by weighed distance.
    - Versioned records: the names of artifacts never collide; every value of every type of the
      crate (but for [f32]), and of the structures built of them, is loaded as it was saved, with
      the artifacts that it wrote, through memory and through a manifest on disk; a save that
      fails leaves the directory of the artifacts as it was.
    - Free-space map: under every interleaving and with a store that fails at any time, no id is
      held by two clients, and at rest the used ids of the store are those that are held; alone,
      the map issues, frees and recovers ids as a set of numbers would.

    Some theorems record where the code departs from its purpose or its comments; the longer
    list is in the manifest.  In the core: removal from the queue misses an item behind one of
    equal distance (and so the diverse queue exceeds its bound per attribute), [retain] leaves
    the cursor behind, the seeds of a paged search are never delivered, range search miscounts
    its work, [add_edge_and_prune] writes the neighbors of another vertex when the vector of the
    source cannot be read, a batched deletion can leave an edge to a deleted vertex.  In the
    backends: a failed read during recovery, or the wrap-around of the counter, makes the
    free-space map issue an id in use; a small block size lets the header of the disk index
    overwrite a node; a batch that names a vertex twice serves wrong lists; the packed size of a
    slice wraps around in a release build.  In the label filters: the parser drops conditions
    next to a logical operator, range queries round fractional bounds and confuse [>] with [>=]
    on floats, a repeated insertion leaves old postings behind, ids beyond 32 bits alias, and
    the status of a deleted document is an error until it is released.  In the records: the
    string [nan] is read back as a number, saturating casts accept numbers out of range, and a save
    that fails removes the temporary manifest of another one.

    ** Bounds and fuel

    Loops that the source bounds by data are structural.  The outer loop of [robust_prune] runs
    with fuel: 491 rounds are enough for every [alpha] from 1 to below [f32::MAX]
    ([alpha_in_range]; each round multiplies by at least 1.2, or reaches [alpha]), whatever
    the distances.
    [search_loop] runs with fuel; as many iterations as the graph has nodes are enough, since
    every iteration visits a node that no earlier one visited; the same bound serves the second
    round of range search.  The reachability count needs one step per start point and edge.
    [sift_down] needs as many iterations as the slice is long, a kernel as many as it has blocks,
    [next_id] one more than the queue of free ids holds, and the breadth-first filling of the
    cache one per node to cache.  Theorems about them say that the functions return, with any
    fuel above the bound.
    The cache block of the disk index (64 MiB in the source) is a parameter; any positive size
    will do.

    ** Not modelled

    Left out because it is numeric (its correctness is a matter of accuracy, not of logic): the
    training and the floating-point distances of the quantizers, the vector distances, linear
    algebra, the sampling of start points.  Left out because it wraps intrinsics or system calls:
    the SIMD back-ends (the emulated registers are their reference), io_uring and Windows I/O,
    the entry points of the Garnet backend.  Left out because it is built on a library outside
    the repository: the B-tree backend.  Left out because it forwards to what is modelled:
    constructors and dispatch of the index, the layers of the in-memory provider, the adapters
    of the disk search, the kernels of 8 by 8 bits, which delegate to the vector distances.
    Benchmarks and tools are drivers of the library.

    Of the label filters the B-tree store (an external library, covered by the laws of
    [KvStore]), the printing of expressions and the JSON-lines reader are left out.
    The round trip of [f32] values through the records is left out: they are rounded to their
    format again, and the text layer does not promise to return the same float. *)

From stdpp Require Export base tactics list sorting gmap.
From Stdlib Require Export ZArith Lia.

(** ** Results: Rust's [Result<A, E>] *)
Inductive result (E A : Type) : Type :=
| Ok (a : A)
| Err (e : E).
Arguments Ok {E A} a.
Arguments Err {E A} e.

(** A Rust computation that may panic is an [option]: [None] is the panic.  A fallible
    computation that may also panic is an [option (result E A)]. *)

Definition result_bind {E A B} (m : result E A) (f : A → result E B) : result E B :=
  match m with Ok a => f a | Err e => Err e end.

Definition map_err {E E' A} (f : E → E') (m : result E A) : result E' A :=
  match m with Ok a => Ok a | Err e => Err (f e) end.

Definition is_ok {E A} (m : result E A) : bool :=
  match m with Ok _ => true | Err _ => false end.

Declare Scope rust_scope.
Delimit Scope rust_scope with rust.
Notation "'let?' x := m 'in' k" := (result_bind m (λ x, k))
  (at level 10, x pattern, m at level 200, k at level 200) : rust_scope.

(** [assert!(b)]: panics unless [b]. *)
Definition rassert (b : bool) : option unit := if b then Some tt else None.

(** Checked subtraction on [usize]: the subtraction of a debug build panics on underflow. *)
Definition usub (a b : nat) : option nat := if b <=? a then Some (a - b) else None.

(** ** Vec operations, with the panics of the standard library *)

(** [Vec::insert]: panics when [i > len]. *)
Definition vec_insert {A} (i : nat) (x : A) (l : list A) : option (list A) :=
  if i <=? length l then Some (take i l ++ x :: drop i l) else None.

(** [Vec::remove]: panics when [i >= len]. *)
Definition vec_remove {A} (i : nat) (l : list A) : option (list A) :=
  if i <? length l then Some (take i l ++ drop (S i) l) else None.

(** [v\[i\] = x]: panics when [i >= len]. *)
Definition vec_set {A} (i : nat) (x : A) (l : list A) : option (list A) :=
  if i <? length l then Some (<[i:=x]> l) else None.

(** [Vec::swap]/[slice::swap]: panics when one of the indices is out of range. *)
Definition vec_swap {A} (i j : nat) (l : list A) : option (list A) :=
  x ← l !! i; y ← l !! j; Some (<[j:=x]> (<[i:=y]> l)).

(** [Vec::swap_remove]: replaces the removed element by the last one. *)
Definition vec_swap_remove {A} (i : nat) (l : list A) : option (list A) :=
  z ← last l;
  if i <? length l then Some (take (pred (length l)) (<[i:=z]> l)) else None.

(** ** Tactics and hints *)

(** Destructs the boolean comparisons on [nat] of the goal into their specifications. *)
Ltac case_nat :=
  match goal with
  | |- context [?a <=? ?b] => destruct (Nat.leb_spec a b)
  | |- context [?a <? ?b] => destruct (Nat.ltb_spec a b)
  | |- context [?a =? ?b] => destruct (Nat.eqb_spec a b)
  end.

Ltac case_nat_in H :=
  match type of H with
  | context [?a <=? ?b] => destruct (Nat.leb_spec a b)
  | context [?a <? ?b] => destruct (Nat.ltb_spec a b)
  | context [?a =? ?b] => destruct (Nat.eqb_spec a b)
  end.

(** Splits a hypothesis [m ≫= f = Some x] of the option monad into its steps. *)
Ltac inv_bind :=
  repeat match goal with
  | H : mbind _ _ = Some _ |- _ =>
      apply bind_Some in H as (? & ? & H); simpl in H
  | H : Some _ = Some _ |- _ => injection H as H; subst
  | H : rassert ?b = Some _ |- _ =>
      let E := fresh "E" in destruct b eqn:E; [clear H | discriminate H]
  end.

Create HintDb rust.
Create Rewrite HintDb rust.
#[export] Hint Rewrite @length_app @length_take @length_drop @length_insert : rust.

Lemma usub_ok a b : b ≤ a → usub a b = Some (a - b).
Proof. intros. unfold usub. case_nat; [done|lia]. Qed.

(** ** Lemmas on lists shared by the components *)

Lemma vec_insert_Some {A} i (x : A) l :
  i ≤ length l → vec_insert i x l = Some (take i l ++ x :: drop i l).
Proof. intros. unfold vec_insert. case_nat; [done|lia]. Qed.

Lemma vec_insert_perm {A} i (x : A) l l' :
  vec_insert i x l = Some l' → l' ≡ₚ x :: l.
Proof.
  unfold vec_insert. case_nat; intros; simplify_eq.
  by rewrite <-Permutation_middle, take_drop.
Qed.

Lemma vec_remove_Some {A} i (l : list A) :
  i < length l → vec_remove i l = Some (take i l ++ drop (S i) l).
Proof. intros. unfold vec_remove. case_nat; [done|lia]. Qed.

Lemma vec_remove_perm {A} i (x : A) l l' :
  l !! i = Some x → vec_remove i l = Some l' → l ≡ₚ x :: l'.
Proof.
  unfold vec_remove. intros Hi. case_nat; intros; simplify_eq.
  rewrite Permutation_middle. by rewrite take_drop_middle.
Qed.

Lemma StronglySorted_lookup {A} (R : relation A) l i j x y :
  StronglySorted R l → i < j → l !! i = Some x → l !! j = Some y → R x y.
Proof.
  intros Hs. revert i j. induction Hs as [|z l Hs IH Hz]; intros i j Hij Hi Hj; [done|].
  destruct j as [|j]; [lia|]. simpl in Hj. destruct i as [|i]; simpl in Hi.
  - simplify_eq. rewrite Forall_lookup in Hz. eauto.
  - apply (IH i j); auto; lia.
Qed.

Lemma StronglySorted_of_lookup {A} (R : relation A) (l : list A) :
  (∀ i j x y, i < j → l !! i = Some x → l !! j = Some y → R x y) → StronglySorted R l.
Proof.
  induction l as [|z l IH]; intros H; constructor.
  - apply IH. intros i j x y ? ??. apply (H (S i) (S j)); auto; lia.
  - rewrite Forall_lookup. intros i x ?. apply (H 0 (S i)); auto; lia.
Qed.

Lemma List_filter_sublist {A} (f : A → bool) l : sublist (List.filter f l) l.
Proof. induction l as [|x l IH]; simpl; [done|]. destruct (f x); by constructor. Qed.

Lemma elem_of_List_filter {A} (f : A → bool) l x : x ∈ List.filter f l ↔ x ∈ l ∧ f x = true.
Proof. by rewrite !list_elem_of_In, List.filter_In. Qed.

Lemma List_filter_perm {A} (f : A → bool) l k : l ≡ₚ k → List.filter f l ≡ₚ List.filter f k.
Proof.
  induction 1; simpl; repeat case_match; try done; [by constructor|apply Permutation_swap|by etrans].
Qed.

Lemma List_filter_ext {A} (f g : A → bool) l :
  (∀ x, x ∈ l → f x = g x) → List.filter f l = List.filter g l.
Proof. intros Hfg. apply List.filter_ext_in. intros x Hx. by apply Hfg, list_elem_of_In. Qed.

Lemma List_filter_comm {A} (f g : A → bool) l :
  List.filter f (List.filter g l) = List.filter g (List.filter f l).
Proof.
  induction l as [|x l IH]; [done|]. simpl.
  destruct (f x) eqn:Ef, (g x) eqn:Eg; simpl; rewrite ?Ef, ?Eg, IH; done.
Qed.

Lemma List_filter_all {A} (f : A → bool) l : (∀ x, x ∈ l → f x = true) → List.filter f l = l.
Proof.
  induction l as [|x l IH]; intros Hf; [done|]. simpl. rewrite Hf by (by left).
  f_equal. apply IH. intros y Hy. apply Hf. by right.
Qed.

Lemma NoDup_List_filter {A} (f : A → bool) l : NoDup l → NoDup (List.filter f l).
Proof. intros Hl. eapply sublist_NoDup; [exact Hl|apply List_filter_sublist]. Qed.

Lemma NoDup_fmap_same {A B} (f : A → B) (l : list A) x y :
  NoDup (f <$> l) → x ∈ l → y ∈ l → f x = f y → x = y.
Proof.
  intros Hnd [i Hi]%list_elem_of_lookup [j Hj]%list_elem_of_lookup E.
  assert (i = j) as ->; [|congruence].
  eapply (NoDup_lookup _ i j (f x) Hnd); rewrite list_lookup_fmap, ?Hi, ?Hj; simpl; congruence.
Qed.

Lemma sublist_fmap {A B} (f : A → B) (l k : list A) : sublist l k → sublist (f <$> l) (f <$> k).
Proof. induction 1; simpl; by constructor. Qed.

Lemma elem_of_sublist {A} (l k : list A) x : sublist k l → x ∈ k → x ∈ l.
Proof. intros Hs Hx. induction Hs; set_solver. Qed.

Lemma StronglySorted_sublist {A} (R : relation A) (l k : list A) :
  sublist k l → StronglySorted R l → StronglySorted R k.
Proof.
  induction 1 as [|x k l Hs IH|x k l Hs IH]; inversion 1; subst;
    [done| |by auto].
  constructor; [by auto|]. rewrite Forall_forall in *.
  intros y Hy. eauto using elem_of_sublist.
Qed.

Lemma StronglySorted_take {A} (R : relation A) n (l : list A) :
  StronglySorted R l → StronglySorted R (take n l).
Proof. apply StronglySorted_sublist, sublist_take. Qed.

Lemma StronglySorted_drop {A} (R : relation A) n (l : list A) :
  StronglySorted R l → StronglySorted R (drop n l).
Proof. apply StronglySorted_sublist, sublist_drop. Qed.

Lemma StronglySorted_app_intro {A} (R : relation A) (l k : list A) :
  StronglySorted R l → StronglySorted R k →
  (∀ x y, x ∈ l → y ∈ k → R x y) → StronglySorted R (l ++ k).
Proof.
  induction 1 as [|x l Hl IH Hx]; intros Hk Hlk; simpl; [done|]. constructor.
  - apply IH; [done|]. intros; apply Hlk; [by right|done].
  - apply Forall_app; split; [done|]. apply Forall_forall.
    intros y ?. apply Hlk; [by left|done].
Qed.

#[export] Hint Resolve StronglySorted_take StronglySorted_drop : rust.
