(* ===== verification/F32.v ===== *)
(** * 32-bit floating point

    Rust's [f32] is the IEEE 754 binary32 format: the [spec_float] of the Standard Library
    at precision 24 and maximal exponent 128, with its round-to-nearest-even operations.
    The code under verification compares distances ([<], [>=], [partial_cmp]) and, in
    pruning, multiplies and divides them; this file gives those operations and shows that
    on values that are not NaN the comparison is a total preorder.  The few operations on [f64]
    that the code uses are here too. *)

From Stdlib Require Import SpecFloat.
From S2P Require Import Prelude.

Definition f32 : Type := spec_float.

Definition f32_prec : Z := 24.
Definition f32_emax : Z := 128.

Definition f32_mul : f32 → f32 → f32 := SFmul f32_prec f32_emax.
Definition f32_div : f32 → f32 → f32 := SFdiv f32_prec f32_emax.
Definition f32_add : f32 → f32 → f32 := SFadd f32_prec f32_emax.
Definition f32_sub : f32 → f32 → f32 := SFsub f32_prec f32_emax.

Definition is_nan (x : f32) : bool :=
  match x with S754_nan => true | _ => false end.

(** [f32::partial_cmp]; [None] exactly when an operand is NaN. *)
Definition partial_cmp (x y : f32) : option comparison := SFcompare x y.

Definition f32_lt (x y : f32) : bool := SFltb x y.
Definition f32_le (x y : f32) : bool := SFleb x y.
Definition f32_gt (x y : f32) : bool := SFltb y x.
Definition f32_ge (x y : f32) : bool := SFleb y x.
Definition f32_eq (x y : f32) : bool := SFeqb x y.

(** The integer [z] as a float, exact below 2^24. *)
Definition f32_of_Z (z : Z) : f32 :=
  match z with
  | Z0 => S754_zero false
  | Zpos p => binary_round f32_prec f32_emax false p 0
  | Zneg p => binary_round f32_prec f32_emax true p 0
  end.

Definition f32_max_value : f32 := SFmax_float f32_prec f32_emax.
Definition f32_zero : f32 := S754_zero false.
Definition f32_infinity : f32 := S754_infinity false.

Definition f32_one : f32 := S754_finite false 8388608 (-23).

Definition is_finite (x : f32) : bool :=
  match x with S754_zero _ | S754_finite _ _ _ => true | _ => false end.

(** [f32::min] and [f32::max]: the other operand when one is NaN. *)
Definition f32_min (x y : f32) : f32 :=
  if is_nan x then y else if is_nan y then x else if f32_lt y x then y else x.

Definition f32_max (x y : f32) : f32 :=
  if is_nan x then y else if is_nan y then x else if f32_lt x y then y else x.

(** The integer part of the magnitude, rounded towards zero or away from it. *)
Definition magnitude_floor (m : positive) (e : Z) : Z :=
  if (0 <=? e)%Z then (Zpos m * 2 ^ e)%Z else (Zpos m / 2 ^ (- e))%Z.

Definition magnitude_ceil (m : positive) (e : Z) : Z :=
  if (0 <=? e)%Z then (Zpos m * 2 ^ e)%Z else (- ((- Zpos m) / 2 ^ (- e)))%Z.

(** [x as usize]: truncates, saturates, and maps NaN and negative values to zero. *)
Definition f32_to_usize (x : f32) : Z :=
  match x with
  | S754_nan | S754_zero _ => 0
  | S754_infinity s => if s then 0 else 2 ^ 64 - 1
  | S754_finite s m e => if s then 0 else Z.min (magnitude_floor m e) (2 ^ 64 - 1)
  end%Z.

(** [f32::ceil] *)
Definition f32_ceil (x : f32) : f32 :=
  match x with
  | S754_finite s m e =>
      if (0 <=? e)%Z then x
      else if s then
        (if (magnitude_floor m e =? 0)%Z then S754_zero true
         else f32_of_Z (- magnitude_floor m e))
      else f32_of_Z (magnitude_ceil m e)
  | _ => x
  end.

(** ** 64-bit floating point: the same at precision 53 and maximal exponent 1024 *)

Definition f64 : Type := spec_float.
Definition f64_prec : Z := 53.
Definition f64_emax : Z := 1024.
Definition f64_mul : f64 → f64 → f64 := SFmul f64_prec f64_emax.
Definition f64_div : f64 → f64 → f64 := SFdiv f64_prec f64_emax.
Definition f64_neg : f64 → f64 := SFopp.
Definition f64_lt (x y : f64) : bool := SFltb x y.
Definition f64_le (x y : f64) : bool := SFleb x y.

(** [n as f64] for an unsigned [n] *)
Definition f64_of_usize (n : nat) : f64 :=
  match Z.of_nat n with Zpos p => binary_round f64_prec f64_emax false p 0 | _ => S754_zero false end.

(** [x as usize]: the conversion does not depend on the format. *)
Definition f64_to_usize (x : f64) : Z := f32_to_usize x.

#[export] Instance f32_eq_dec : EqDecision f32.
Proof. unfold EqDecision, Decision. repeat decide equality. Defined.

(** ** The comparison as a lexicographic order on a key *)

Definition f32_key (x : f32) : Z * Z * Z :=
  match x with
  | S754_nan => (0, 0, 0)
  | S754_zero _ => (0, 0, 0)
  | S754_infinity s => (if s then -2 else 2, 0, 0)
  | S754_finite s m e => if s then (-1, -e, Zneg m) else (1, e, Zpos m)
  end%Z.

Definition key_lt (x y : Z * Z * Z) : Prop :=
  let '(a, b, c) := x in let '(a', b', c') := y in
  (a < a' ∨ a = a' ∧ (b < b' ∨ b = b' ∧ c < c'))%Z.

Lemma SFcompare_key x y :
  is_nan x = false → is_nan y = false →
  match SFcompare x y with
  | Some Lt => key_lt (f32_key x) (f32_key y)
  | Some Eq => f32_key x = f32_key y
  | Some Gt => key_lt (f32_key y) (f32_key x)
  | None => False
  end.
Proof.
  destruct x as [sx|sx| |sx mx ex], y as [sy|sy| |sy my ey]; try discriminate; intros _ _;
    try destruct sx; try destruct sy; simpl; try lia; auto.
  - destruct (Z.compare_spec ex ey); simpl; try lia.
    subst. change Pos.compare_cont with Pos.compare_cont.
    fold (Pos.compare mx my). destruct (Pos.compare_spec mx my); simpl; subst; auto; lia.
  - destruct (Z.compare_spec ex ey); simpl; try lia.
    subst. fold (Pos.compare mx my). destruct (Pos.compare_spec mx my); simpl; subst; auto; lia.
Qed.

Lemma f32_lt_key x y :
  is_nan x = false → is_nan y = false →
  f32_lt x y = true ↔ key_lt (f32_key x) (f32_key y).
Proof.
  intros Hx Hy. unfold f32_lt, SFltb. pose proof (SFcompare_key x y Hx Hy) as H.
  destruct (f32_key x) as [[??]?], (f32_key y) as [[??]?]; unfold key_lt in *.
  destruct (SFcompare x y) as [[]|]; split; intros; simplify_eq; try done; lia.
Qed.

Lemma f32_le_key x y :
  is_nan x = false → is_nan y = false →
  f32_le x y = true ↔ key_lt (f32_key x) (f32_key y) ∨ f32_key x = f32_key y.
Proof.
  intros Hx Hy. unfold f32_le, SFleb. pose proof (SFcompare_key x y Hx Hy) as H.
  destruct (f32_key x) as [[??]?], (f32_key y) as [[??]?]; unfold key_lt in *.
  destruct (SFcompare x y) as [[]|]; split; intros; simplify_eq; try done; try tauto;
    destruct_or?; simplify_eq; try lia.
Qed.

(** NaN compares false with everything. *)
Lemma f32_lt_nan x y : is_nan x || is_nan y = true → f32_lt x y = false.
Proof. destruct x, y; simpl; try done; by destruct s. Qed.

Lemma f32_le_nan x y : is_nan x || is_nan y = true → f32_le x y = false.
Proof. destruct x, y; simpl; try done; by destruct s. Qed.

Lemma f32_le_not_nan x y : f32_le x y = true → is_nan x = false ∧ is_nan y = false.
Proof.
  intros H. destruct (is_nan x || is_nan y) eqn:E.
  - by rewrite f32_le_nan in H.
  - by apply orb_false_iff in E.
Qed.

Lemma f32_lt_not_nan x y : f32_lt x y = true → is_nan x = false ∧ is_nan y = false.
Proof.
  intros H. destruct (is_nan x || is_nan y) eqn:E.
  - by rewrite f32_lt_nan in H.
  - by apply orb_false_iff in E.
Qed.

Lemma f32_le_refl x : is_nan x = false → f32_le x x = true.
Proof. intros. apply f32_le_key; auto. Qed.

Ltac f32_solve :=
  repeat match goal with
  | H : f32_le ?x ?y = true |- _ =>
      let H1 := fresh in let H2 := fresh in
      destruct (f32_le_not_nan _ _ H) as [H1 H2];
      apply f32_le_key in H; [|assumption|assumption]
  | H : f32_lt ?x ?y = true |- _ =>
      let H1 := fresh in let H2 := fresh in
      destruct (f32_lt_not_nan _ _ H) as [H1 H2];
      apply f32_lt_key in H; [|assumption|assumption]
  end;
  try match goal with
  | |- f32_le _ _ = true => apply f32_le_key; [assumption|assumption|]
  | |- f32_lt _ _ = true => apply f32_lt_key; [assumption|assumption|]
  end;
  repeat match goal with
  | H : context [f32_key ?x] |- _ => destruct (f32_key x) as [[??]?]
  | |- context [f32_key ?x] => destruct (f32_key x) as [[??]?]
  end;
  unfold key_lt in *;
  repeat match goal with
  | H : (_, _, _) = (_, _, _) |- _ => injection H as ???; subst
  | H : _ ∨ (_, _, _) = (_, _, _) |- _ => destruct H
  end;
  try lia.

Lemma f32_le_trans x y z : f32_le x y = true → f32_le y z = true → f32_le x z = true.
Proof.
  intros. f32_solve; try (left; lia); right; f_equal; first [f_equal; lia|lia].
Qed.

Lemma f32_lt_trans x y z : f32_lt x y = true → f32_lt y z = true → f32_lt x z = true.
Proof. intros. f32_solve. Qed.

Lemma f32_lt_le x y : f32_lt x y = true → f32_le x y = true.
Proof. intros. f32_solve; left; lia. Qed.

Lemma f32_le_lt_trans x y z : f32_le x y = true → f32_lt y z = true → f32_lt x z = true.
Proof. intros. f32_solve. Qed.

Lemma f32_lt_le_trans x y z : f32_lt x y = true → f32_le y z = true → f32_lt x z = true.
Proof. intros. f32_solve. Qed.

Lemma f32_not_lt x y :
  is_nan x = false → is_nan y = false → f32_lt x y = false ↔ f32_le y x = true.
Proof.
  intros Hx Hy. rewrite <-not_true_iff_false, f32_lt_key, f32_le_key by done.
  destruct (f32_key x) as [[a b] c], (f32_key y) as [[a' b'] c']; simpl. split.
  - intros H. destruct (decide (a = a' ∧ b = b' ∧ c = c')) as [(->&->&->)|]; [by right|].
    left. lia.
  - intros [H|H]; [|injection H as -> -> ->]; lia.
Qed.

Lemma f32_not_le x y :
  is_nan x = false → is_nan y = false → f32_le x y = false ↔ f32_lt y x = true.
Proof.
  intros Hx Hy. pose proof (f32_not_lt y x Hy Hx) as H.
  destruct (f32_lt y x), (f32_le x y); naive_solver.
Qed.

Lemma f32_le_total x y :
  is_nan x = false → is_nan y = false → f32_le x y = true ∨ f32_le y x = true.
Proof.
  intros Hx Hy. destruct (f32_lt y x) eqn:E.
  - right. by apply f32_lt_le.
  - left. by apply f32_not_lt.
Qed.

Lemma f32_lt_irrefl x : f32_lt x x = false.
Proof.
  destruct (is_nan x) eqn:E; [apply f32_lt_nan; by rewrite E|].
  apply f32_not_lt; auto using f32_le_refl.
Qed.

Lemma partial_cmp_None x y : partial_cmp x y = None ↔ is_nan x || is_nan y = true.
Proof.
  destruct (is_nan x || is_nan y) eqn:E.
  - split; [done|]. intros _. destruct x, y; simpl in *; try done; by destruct s.
  - apply orb_false_iff in E as [Hx Hy]. pose proof (SFcompare_key x y Hx Hy).
    unfold partial_cmp. destruct (SFcompare x y); done.
Qed.

Lemma f32_eq_key x y :
  is_nan x = false → is_nan y = false → f32_eq x y = true ↔ f32_key x = f32_key y.
Proof.
  intros Hx Hy. unfold f32_eq, SFeqb. pose proof (SFcompare_key x y Hx Hy) as H.
  destruct (f32_key x) as [[??]?], (f32_key y) as [[??]?]; unfold key_lt in *.
  destruct (SFcompare x y) as [[]|]; split; intros; simplify_eq; try done; lia.
Qed.

Lemma f32_eq_not_nan x y : f32_eq x y = true → is_nan x = false ∧ is_nan y = false.
Proof. unfold f32_eq, SFeqb. destruct x, y; simpl; try done; by destruct s. Qed.

(** Equal floats compare alike. *)
Lemma f32_eq_gt x y z : f32_eq x y = true → f32_gt z x = f32_gt z y.
Proof.
  intros E. destruct (f32_eq_not_nan _ _ E) as [Hx Hy].
  apply f32_eq_key in E; [|done..]. unfold f32_gt.
  change (f32_lt x z = f32_lt y z). destruct (is_nan z) eqn:Hz.
  - by rewrite !f32_lt_nan by (rewrite Hz, orb_true_r; done).
  - apply Bool.eq_true_iff_eq. by rewrite !f32_lt_key, E by done.
Qed.

Lemma f32_gt_max x y a : f32_gt (f32_max x y) a = f32_gt x a || f32_gt y a.
Proof.
  unfold f32_max, f32_gt. change (SFltb a ?z) with (f32_lt a z).
  fold (f32_lt a x) (f32_lt a y). destruct (is_nan x) eqn:Hx.
  { change (f32_lt a y = f32_lt a x || f32_lt a y).
    by rewrite (f32_lt_nan a x) by (rewrite Hx, orb_true_r; done). }
  destruct (is_nan y) eqn:Hy.
  { change (f32_lt a x = f32_lt a x || f32_lt a y).
    rewrite (f32_lt_nan a y) by (rewrite Hy, orb_true_r; done). by rewrite orb_false_r. }
  destruct (f32_lt x y) eqn:Hxy.
  - change (f32_lt a y = f32_lt a x || f32_lt a y).
    destruct (f32_lt a x) eqn:E; [|done]. by rewrite (f32_lt_trans a x y).
  - change (f32_lt a x = f32_lt a x || f32_lt a y).
    destruct (f32_lt a y) eqn:E; [|by rewrite orb_false_r]. rewrite orb_true_r.
    apply f32_not_lt in Hxy; [|done..]. by apply (f32_lt_le_trans a y x).
Qed.

Lemma f32_gt_antimono x a b : f32_le a b = true → f32_gt x a = false → f32_gt x b = false.
Proof.
  unfold f32_gt. change (f32_le a b = true → f32_lt a x = false → f32_lt b x = false).
  intros Hab Ha. destruct (f32_lt b x) eqn:E; [|done].
  by rewrite (f32_le_lt_trans a b x) in Ha.
Qed.

(** Distances as the order of a sorted collection. *)
Definition dist_le (x y : f32) : Prop := f32_le x y = true.

#[export] Instance dist_le_trans : Transitive dist_le.
Proof. intros x y z. apply f32_le_trans. Qed.

#[export] Instance dist_le_dec : RelDecision dist_le.
Proof. intros x y. unfold dist_le. apply _. Defined.

#[export] Hint Resolve f32_le_refl f32_lt_le : rust.
