(* ===== verification/Strings.v ===== *)
(** * Strings

    Byte strings as lists of characters: searching for a character and splitting at one
    ([str::contains], [str::split]), and the decimal numbers of [format!] and [str::parse]. *)

From Stdlib Require Import Ascii.
From stdpp Require Import strings pretty.
From S2P Require Import Prelude.

(** [str::split] at a character: there is always a first piece. *)
Fixpoint str_split (c : Ascii.ascii) (s : string) : list string :=
  match s with
  | EmptyString => [EmptyString]
  | String a s =>
      if Ascii.eqb a c then EmptyString :: str_split c s
      else match str_split c s with
           | [] => [String a EmptyString]
           | p :: ps => String a p :: ps
           end
  end.

Fixpoint str_has (c : ascii) (s : string) : bool :=
  match s with EmptyString => false | String a s => Ascii.eqb a c || str_has c s end.

Lemma str_app_cons a s t : String a s +:+ t = String a (s +:+ t).
Proof. reflexivity. Qed.

Lemma str_app_nil_r s : s +:+ "" = s.
Proof. induction s as [|a s IH]; [done|]. rewrite !str_app_cons. by f_equal. Qed.

Lemma str_has_app c s t : str_has c (s +:+ t) = str_has c s || str_has c t.
Proof. induction s as [|a s IH]; [done|]. rewrite str_app_cons. cbn. by rewrite IH, orb_assoc. Qed.

Lemma str_split_has c d s : str_has d s = false →
  Forall (λ k, str_has d k = false) (str_split c s).
Proof.
  induction s as [|a s IH]; cbn; [by repeat constructor|].
  intros [Ha Hs]%orb_false_iff. specialize (IH Hs). destruct (Ascii.eqb a c); [by constructor|].
  destruct (str_split c s) as [|p ps]; [by repeat constructor; cbn; rewrite Ha|].
  inversion IH; subst. constructor; [|done]. cbn. by rewrite Ha.
Qed.

Lemma str_split_none c s : str_has c s = false → str_split c s = [s].
Proof.
  induction s as [|a s IH]; [done|]. cbn. intros [-> Hs]%orb_false_iff. by rewrite (IH Hs).
Qed.

Lemma str_split_app c s t : str_has c s = false →
  str_split c (s +:+ String c t) = s :: str_split c t.
Proof.
  induction s as [|a s IH].
  - intros _. change ("" +:+ String c t) with (String c t). cbn. by rewrite Ascii.eqb_refl.
  - cbn [str_has]. intros [Ha Hs]%orb_false_iff. rewrite str_app_cons. cbn.
    by rewrite Ha, (IH Hs).
Qed.

(** A piece without the character ends at the first one. *)
Lemma str_app_sep_inj c s s' t t' : str_has c s = false → str_has c s' = false →
  s +:+ String c t = s' +:+ String c t' → s = s' ∧ t = t'.
Proof.
  revert s'. induction s as [|a s IH]; intros [|a' s'] Hs Hs' E; cbn in Hs, Hs'.
  - by injection E.
  - injection E as <- _. by rewrite Ascii.eqb_refl in Hs'.
  - injection E as -> _. by rewrite Ascii.eqb_refl in Hs.
  - apply orb_false_iff in Hs as [_ Hs], Hs' as [_ Hs']. rewrite !str_app_cons in E.
    injection E as -> E. destruct (IH _ Hs Hs' E) as [-> ->]. done.
Qed.

(** ** Decimal numbers *)

Definition digit_value (c : ascii) : option N :=
  let n := N_of_ascii c in
  if ((48 <=? n) && (n <=? 57))%N then Some (n - 48)%N else None.

(** The digits after the value [acc], with the overflow check of each step. *)
Fixpoint parse_digits (bound acc : N) (s : string) : option N :=
  match s with
  | EmptyString => Some acc
  | String c s =>
      d ← digit_value c;
      let acc := (acc * 10 + d)%N in
      if (acc <? bound)%N then parse_digits bound acc s else None
  end.

(** [str::parse] of an unsigned integer type with values below [bound] *)
Definition parse_unsigned (bound : N) (s : string) : option N :=
  match s with
  | EmptyString => None
  | String c s' =>
      if Ascii.eqb c "+" then match s' with EmptyString => None | _ => parse_digits bound 0 s' end
      else parse_digits bound 0 s
  end.

(** Zeros on the left, as [format!] with a width and the flag [0] puts them. *)
Fixpoint zero_pad (n : nat) (s : string) : string :=
  match n with O => s | S n => String "0" (zero_pad n s) end.
Definition format_width (width : nat) (x : N) : string :=
  let s := pretty x in zero_pad (width - String.length s) s.

Lemma digit_pretty x : (x < 10)%N → digit_value (pretty_N_char x) = Some x.
Proof.
  intros Hx. assert (x = 0 ∨ x = 1 ∨ x = 2 ∨ x = 3 ∨ x = 4 ∨ x = 5 ∨ x = 6 ∨ x = 7 ∨ x = 8 ∨ x = 9)%N
    as Hd by lia. by destruct_or! Hd; subst.
Qed.

Lemma parse_pretty_go bound x s : (x < bound)%N →
  parse_digits bound 0 (pretty_N_go x s) = parse_digits bound x s.
Proof.
  revert s. induction (N.lt_wf_0 x) as [x _ IH]; intros s Hx.
  destruct (decide (x = 0)%N) as [->|Hne]; [done|]. rewrite pretty_N_go_step by lia.
  pose proof (N.div_mod' x 10) as Hdm. pose proof (N.mod_lt x 10).
  assert (x `div` 10 < x)%N by (apply N.div_lt; lia). rewrite IH by lia. cbn [parse_digits].
  rewrite digit_pretty by lia. cbn.
  replace (x `div` 10 * 10 + x `mod` 10)%N with x by lia.
  by rewrite (proj2 (N.ltb_lt _ _)) by done.
Qed.

Lemma parse_pretty_digits bound x : (x < bound)%N →
  parse_digits bound 0 (pretty x) = Some x.
Proof.
  intros Hx. unfold pretty, pretty_N. case_decide as E; [|by apply parse_pretty_go].
  subst. by destruct bound.
Qed.

(** Every character is a digit. *)
Fixpoint all_digits (s : string) : bool :=
  match s with
  | EmptyString => true
  | String c s => bool_decide (is_Some (digit_value c)) && all_digits s
  end.

Lemma parse_digits_all bound x s y : parse_digits bound x s = Some y → all_digits s = true.
Proof.
  revert x. induction s as [|c s IH]; intros x; cbn; [done|].
  destruct (digit_value c) as [d|]; cbn; [|done]. destruct (_ <? _)%N; [|done].
  intros Hp. by rewrite (IH _ Hp).
Qed.

Lemma pretty_digits (x : N) : all_digits (pretty x) = true.
Proof. apply (parse_digits_all (x + 1) 0 _ x), parse_pretty_digits. lia. Qed.

Lemma all_digits_has c s : digit_value c = None → all_digits s = true → str_has c s = false.
Proof.
  intros Hc. induction s as [|a s IH]; cbn; [done|]. intros [Ha Hs]%andb_prop.
  rewrite (IH Hs), orb_false_r. apply bool_decide_eq_true in Ha.
  destruct (Ascii.eqb_spec a c) as [->|]; [|done]. rewrite Hc in Ha. by destruct Ha.
Qed.

Lemma pretty_nonempty (x : N) : pretty x ≠ ""%string.
Proof.
  intros E. pose proof (parse_pretty_digits (x + 2) x) as H0. rewrite E in H0. cbn in H0.
  assert (x = 0)%N as -> by (injection H0; lia). done.
Qed.

(** [str::parse] reads what [format!] wrote. *)
Lemma parse_pretty bound x : (x < bound)%N → parse_unsigned bound (pretty x) = Some x.
Proof.
  intros Hx. pose proof (pretty_digits x) as Hd. pose proof (pretty_nonempty x).
  pose proof (parse_pretty_digits bound x Hx) as Hp.
  destruct (pretty x) as [|c s]; [done|]. unfold parse_unsigned.
  destruct (Ascii.eqb_spec c "+") as [->|]; [by vm_compute in Hd|done].
Qed.

Lemma zero_pad_digits n s : all_digits (zero_pad n s) = all_digits s.
Proof. by induction n. Qed.

Lemma parse_zero_pad bound n s : (0 < bound)%N →
  parse_digits bound 0 (zero_pad n s) = parse_digits bound 0 s.
Proof.
  intros Hb. induction n as [|n IH]; [done|]. by destruct bound.
Qed.

Lemma format_width_digits width x : all_digits (format_width width x) = true.
Proof. unfold format_width. by rewrite zero_pad_digits, pretty_digits. Qed.

Lemma format_width_inj width x y : format_width width x = format_width width y → x = y.
Proof.
  intros E. apply (f_equal (parse_digits (x + y + 1) 0)) in E. unfold format_width in E.
  rewrite !parse_zero_pad, !parse_pretty_digits in E by lia. by injection E.
Qed.
