(* ===== verification/Neighbor.v ===== *)
(** * Neighbors and their orderings

    Models [diskann/src/neighbor/mod.rs]: the pair of an id with a distance and the
    comparison functions of its [ord] submodule. *)

From S2P Require Import Prelude F32.

Record Neighbor (I : Type) : Type := mkNeighbor { nbr_id : I; nbr_distance : f32 }.
Arguments mkNeighbor {I} _ _.
Arguments nbr_id {I} _.
Arguments nbr_distance {I} _.

#[export] Instance Neighbor_eq_dec {I} `{EqDecision I} : EqDecision (Neighbor I).
Proof. solve_decision. Defined.

(** [Neighbor::as_tuple] *)
Definition as_tuple {I} (n : Neighbor I) : I * f32 := (nbr_id n, nbr_distance n).

(** [Ordering::then] and [Ordering::reverse] of the standard library. *)
Definition ordering_then (a b : comparison) : comparison :=
  match a with Eq => b | _ => a end.

(** [ord::fast_distance]: by distance, NaN equal to everything. *)
Definition fast_distance {I} (x y : Neighbor I) : comparison :=
  default Eq (partial_cmp (nbr_distance x) (nbr_distance y)).

(** [ord::fast_distance_total]: by distance, then by id. *)
Definition fast_distance_total (x y : Neighbor Z) : comparison :=
  ordering_then (fast_distance x y) (Z.compare (nbr_id x) (nbr_id y)).

(** [ord::reverse] *)
Definition ord_reverse {I} (f : Neighbor I → Neighbor I → comparison) :
    Neighbor I → Neighbor I → comparison :=
  λ x y, CompOpp (f x y).

(** The preorder that [slice::sort_by (fast_distance)] sorts by. *)
Definition nbr_le {I} (x y : Neighbor I) : Prop := dist_le (nbr_distance x) (nbr_distance y).

#[export] Instance nbr_le_trans {I} : Transitive (@nbr_le I).
Proof. intros x y z. unfold nbr_le. apply transitivity. Qed.

Lemma fast_distance_spec {I} (x y : Neighbor I) :
  is_nan (nbr_distance x) = false → is_nan (nbr_distance y) = false →
  match fast_distance x y with
  | Lt => f32_lt (nbr_distance x) (nbr_distance y) = true
  | Eq => f32_le (nbr_distance x) (nbr_distance y) = true ∧
          f32_le (nbr_distance y) (nbr_distance x) = true
  | Gt => f32_lt (nbr_distance y) (nbr_distance x) = true
  end.
Proof.
  intros Hx Hy. unfold fast_distance, partial_cmp.
  pose proof (SFcompare_key _ _ Hx Hy) as H.
  destruct (SpecFloat.SFcompare _ _) as [[]|]; simpl;
    rewrite ?f32_lt_key, ?f32_le_key by done; by auto.
Qed.
