(* ===== verification/NeighborQueue.v ===== *)
(** * The neighbor priority queue

    Models [diskann/src/neighbor/queue.rs]: the queue of candidates of a graph search,
    sorted by distance, with a cursor at the closest candidate that has not been expanded.
    The two parallel vectors of the source ([id_visiteds], [distances]) and its [size],
    [capacity], [cursor], [auto_resizable] and [search_param_l] fields are kept as they
    are, as are the panics ([None]) of its assertions, of [Vec::insert]/[Vec::remove] and of
    the unchecked accesses (undefined behaviour in the source, [None] here).

    - Section [simd]: the vectorised [get_lower_bound], shown equal to a linear scan;
    - Section [operations]: the operations; the debug assertions are under a flag;
    - Section [theory]: the well-formedness invariant, its preservation and the behaviour of
      the operations, and what happens to the cursor. *)

From S2P Require Import Prelude F32 Neighbor.

(** ** The vectorised lower bound *)

(** [f32x8::load_simd]: eight lanes from index [i]; reading past the vector is undefined. *)
Definition load_simd (ds : list f32) (i : nat) : option (list f32) :=
  if i + 8 <=? length ds then Some (take 8 (drop i ds)) else None.

(** [f32x8::load_simd_first]: the first [n] lanes, the others are zero. *)
Definition load_simd_first (ds : list f32) (i n : nat) : option (list f32) :=
  if i + n `min` 8 <=? length ds
  then Some (take (n `min` 8) (drop i ds) ++ replicate (8 - n `min` 8) f32_zero)
  else None.

(** [SIMDPartialOrd::ge_simd]: lane-wise comparison with the splatted target. *)
Definition ge_simd (v : list f32) (target : f32) : list bool :=
  map (λ x, f32_ge x target) v.

(** [SIMDMask::first]: the index of the first lane that is set. *)
Fixpoint mask_first (m : list bool) : option nat :=
  match m with
  | [] => None
  | true :: _ => Some 0
  | false :: m => S <$> mask_first m
  end.

(** The loop that checks 16 items at a time: [inl] is an early return, [inr] the index at
    which the loop stops.  [fuel] bounds the iterations. *)
Fixpoint lower_bound_loop (fuel : nat) (ds : list f32) (size : nat) (target : f32) (index : nat) :
    option (nat + nat) :=
  if index + 16 <=? size then
    match fuel with
    | 0 => None
    | S fuel =>
        v1 ← load_simd ds index;
        let offset1 := mask_first (ge_simd v1 target) in
        v2 ← load_simd ds (index + 8);
        let offset2 := mask_first (ge_simd v2 target) in
        match offset1, offset2 with
        | Some offset, _ => Some (inl (index + offset))
        | None, Some offset => Some (inl (index + 8 + offset))
        | None, None => lower_bound_loop fuel ds size target (index + 16)
        end
    end
  else Some (inr index).

(** [NeighborPriorityQueue::get_lower_bound], on the distances and the size of the queue. *)
Definition get_lower_bound (ds : list f32) (size : nat) (target : f32) : option nat :=
  r ← lower_bound_loop size ds size target 0;
  match r with
  | inl i => Some i
  | inr index =>
      r ← (if index + 8 <=? size then
             v ← load_simd ds index;
             match mask_first (ge_simd v target) with
             | Some offset => Some (inl (index + offset))
             | None => Some (inr (index + 8))
             end
           else Some (inr index));
      match r with
      | inl i => Some i
      | inr index =>
          if index <? size then
            v ← load_simd_first ds index (size - index);
            match mask_first (ge_simd v target) with
            | Some offset => Some (index + offset)
            | None => Some size
            end
          else Some size
      end
  end.

(** ** The queue *)

Record NeighborPriorityQueue (I : Type) : Type := mkQueue {
  q_size : nat;
  q_capacity : nat;
  q_cursor : nat;
  q_id_visiteds : list (I * bool);
  q_distances : list f32;
  q_auto_resizable : bool;
  q_search_param_l : nat;
}.
Arguments mkQueue {I} _ _ _ _ _ _ _.
Arguments q_size {I} _.
Arguments q_capacity {I} _.
Arguments q_cursor {I} _.
Arguments q_id_visiteds {I} _.
Arguments q_distances {I} _.
Arguments q_auto_resizable {I} _.
Arguments q_search_param_l {I} _.

Section operations.
Context {I : Type} `{EqDecision I}.
Implicit Types q : NeighborPriorityQueue I.

(** [NeighborPriorityQueue::new] *)
Definition q_new (search_param_l : nat) : NeighborPriorityQueue I :=
  mkQueue 0 search_param_l 0 [] [] false search_param_l.

(** [NeighborPriorityQueue::auto_resizable_with_search_param_l] *)
Definition q_auto_resizable_with_search_param_l (search_param_l : nat) :
    NeighborPriorityQueue I :=
  mkQueue 0 search_param_l 0 [] [] true search_param_l.

(** [get_unchecked]: the caller must keep [index < size]. *)
Definition q_get_unchecked q (index : nat) : option (Neighbor I) :=
  iv ← q_id_visiteds q !! index;
  d ← q_distances q !! index;
  Some (mkNeighbor iv.1 d).

(** [get]: panics out of range. *)
Definition q_get q (index : nat) : option (Neighbor I) :=
  _ ← rassert (index <? q_size q); q_get_unchecked q index.

(** [dbgassert_unique_insert]: a panic in debug builds when the id is already there. *)
Definition dbgassert_unique_insert (debug : bool) q (id : I) : option unit :=
  if debug then
    rassert (forallb (λ iv, negb (bool_decide (iv.1 = id))) (take (q_size q) (q_id_visiteds q)))
  else Some tt.

(** [reserve]: only the recorded capacity is observable. *)
Definition q_reserve q (additional : nat) : NeighborPriorityQueue I :=
  mkQueue (q_size q) (q_capacity q + additional) (q_cursor q) (q_id_visiteds q)
    (q_distances q) (q_auto_resizable q) (q_search_param_l q).

(** The part of [insert] after the capacity check. *)
Definition q_insert_at q (nbr : Neighbor I) : option (NeighborPriorityQueue I) :=
  insert_idx ← (if 0 <? q_size q
                then get_lower_bound (q_distances q) (q_size q) (nbr_distance nbr)
                else Some 0);
  '(ivs, ds, size) ←
    (if q_size q =? q_capacity q then
       last ← usub (q_size q) 1;
       Some (take last (q_id_visiteds q), take last (q_distances q), last)
     else Some (q_id_visiteds q, q_distances q, q_size q));
  ivs ← vec_insert insert_idx (nbr_id nbr, false) ivs;
  ds ← vec_insert insert_idx (nbr_distance nbr) ds;
  let cursor := if insert_idx <? q_cursor q then insert_idx else q_cursor q in
  Some (mkQueue (size + 1) (q_capacity q) cursor ivs ds (q_auto_resizable q)
          (q_search_param_l q)).

(** [insert] *)
Definition q_insert (debug : bool) q (nbr : Neighbor I) : option (NeighborPriorityQueue I) :=
  if is_nan (nbr_distance nbr) then Some q else
  _ ← dbgassert_unique_insert debug q (nbr_id nbr);
  if q_auto_resizable q then
    if q_size q =? q_capacity q
    then q_insert_at (q_reserve q (1 `max` (q_capacity q / 2))) nbr
    else q_insert_at q nbr
  else
    if q_size q =? q_capacity q then
      last ← usub (q_size q) 1;
      worst ← q_get_unchecked q last;
      if f32_lt (nbr_distance worst) (nbr_distance nbr) then Some q else q_insert_at q nbr
    else q_insert_at q nbr.

(** [drain_best]: [Vec::drain(0..count)] panics when the vector is shorter than [count]. *)
Definition q_drain_best q (count : nat) : option (NeighborPriorityQueue I) :=
  let count := count `min` q_size q in
  _ ← rassert ((count <=? length (q_id_visiteds q)) && (count <=? length (q_distances q)));
  Some (mkQueue (q_size q - count) (q_capacity q) 0 (drop count (q_id_visiteds q))
          (drop count (q_distances q)) (q_auto_resizable q) (q_search_param_l q)).

(** [remove]: the queue after the call and whether something was removed. *)
Definition q_remove q (nbr : Neighbor I) : option (NeighborPriorityQueue I * bool) :=
  if q_size q =? 0 then Some (q, false) else
  index ← get_lower_bound (q_distances q) (q_size q) (nbr_distance nbr);
  if index <? q_size q then
    found ← q_get_unchecked q index;
    if bool_decide (nbr_id found = nbr_id nbr) then
      ivs ← vec_remove index (q_id_visiteds q);
      ds ← vec_remove index (q_distances q);
      let cursor :=
        if (index <? q_cursor q) && (0 <? q_cursor q) then q_cursor q - 1 else q_cursor q in
      Some (mkQueue (q_size q - 1) (q_capacity q) cursor ivs ds (q_auto_resizable q)
              (q_search_param_l q), true)
    else Some (q, false)
  else Some (q, false).

(** [set_visited] *)
Definition q_set_visited q (index : nat) (flag : bool) : option (NeighborPriorityQueue I) :=
  _ ← rassert (index <? q_size q);
  _ ← rassert (q_size q <=? q_capacity q);
  iv ← q_id_visiteds q !! index;
  Some (mkQueue (q_size q) (q_capacity q) (q_cursor q)
          (<[index := (iv.1, flag)]> (q_id_visiteds q)) (q_distances q)
          (q_auto_resizable q) (q_search_param_l q)).

(** [get_visited] *)
Definition q_get_visited q (index : nat) : option bool :=
  _ ← rassert (index <? q_size q); iv ← q_id_visiteds q !! index; Some iv.2.

(** [has_notvisited_node] *)
Definition q_has_notvisited_node q : bool :=
  q_cursor q <? q_search_param_l q `min` q_size q.

(** The [while] loop of [closest_notvisited] that moves the cursor past visited items. *)
Fixpoint advance_cursor (fuel : nat) q (cursor : nat) : option nat :=
  if cursor <? q_size q then
    visited ← q_get_visited q cursor;
    if (visited : bool) then
      match fuel with 0 => None | S fuel => advance_cursor fuel q (cursor + 1) end
    else Some cursor
  else Some cursor.

(** [closest_notvisited]: the queue after the call and the neighbor returned. *)
Definition q_closest_notvisited q :
    option (NeighborPriorityQueue I * option (Neighbor I)) :=
  if q_has_notvisited_node q then
    let current := q_cursor q in
    q' ← q_set_visited q current true;
    cursor ← advance_cursor (q_size q') q' (current + 1);
    let q'' := mkQueue (q_size q') (q_capacity q') cursor (q_id_visiteds q') (q_distances q')
                 (q_auto_resizable q') (q_search_param_l q') in
    n ← q_get_unchecked q'' current;
    Some (q'', Some n)
  else Some (q, None).

(** [reconfigure] *)
Definition q_reconfigure q (search_param_l : nat) : NeighborPriorityQueue I :=
  if search_param_l <? q_size q then
    mkQueue search_param_l search_param_l (q_cursor q `min` search_param_l)
      (take search_param_l (q_id_visiteds q)) (take search_param_l (q_distances q))
      (q_auto_resizable q) search_param_l
  else
    mkQueue (q_size q) search_param_l (q_cursor q) (q_id_visiteds q) (q_distances q)
      (q_auto_resizable q) search_param_l.

(** [clear] *)
Definition q_clear q : NeighborPriorityQueue I :=
  mkQueue 0 (q_capacity q) 0 [] [] (q_auto_resizable q) (q_search_param_l q).

(** [is_full] *)
Definition q_is_full q : bool := negb (q_auto_resizable q) && (q_size q =? q_capacity q).

(** [truncate] *)
Definition q_truncate q (len : nat) : NeighborPriorityQueue I :=
  if len <? q_size q then
    mkQueue len (q_capacity q) 0 (take len (q_id_visiteds q)) (take len (q_distances q))
      (q_auto_resizable q) (q_search_param_l q)
  else q.

(** The compaction loop of [retain]: [read_idx] runs to [size], kept items move to
    [write_idx] and become unvisited. *)
Fixpoint retain_loop (n : nat) (f : Neighbor I → bool) (read_idx write_idx : nat)
    (ivs : list (I * bool)) (ds : list f32) : option (nat * list (I * bool) * list f32) :=
  match n with
  | 0 => Some (write_idx, ivs, ds)
  | S n =>
      iv ← ivs !! read_idx;
      d ← ds !! read_idx;
      if f (mkNeighbor iv.1 d) then
        '(ivs, ds) ← (if write_idx =? read_idx then Some (ivs, ds)
                      else ivs' ← vec_set write_idx iv ivs;
                           ds' ← vec_set write_idx d ds; Some (ivs', ds'));
        iw ← ivs !! write_idx;
        ivs ← vec_set write_idx (iw.1, false) ivs;
        retain_loop n f (read_idx + 1) (write_idx + 1) ivs ds
      else retain_loop n f (read_idx + 1) write_idx ivs ds
  end.

(** [retain] *)
Definition q_retain q (f : Neighbor I → bool) : option (NeighborPriorityQueue I) :=
  if q_size q =? 0 then Some q else
  '(write_idx, ivs, ds) ← retain_loop (q_size q) f 0 0 (q_id_visiteds q) (q_distances q);
  Some (q_truncate (mkQueue (q_size q) (q_capacity q) (q_cursor q) ivs ds
                      (q_auto_resizable q) (q_search_param_l q)) write_idx).

(** [iter]: the neighbors that [BestCandidatesIterator] yields, [get] at each index below
    [min(search_param_l, size)]. *)
Definition q_iter q : option (list (Neighbor I)) :=
  mapM (q_get q) (seq 0 (q_search_param_l q `min` q_size q)).

(** The contents of the queue, closest first. *)
Definition q_contents q : list (Neighbor I) :=
  zip_with (λ iv d, mkNeighbor iv.1 d) (q_id_visiteds q) (q_distances q).

(** The ids of the queue. *)
Definition q_ids q : list I := (q_id_visiteds q).*1.

(** The visited flags of the queue. *)
Definition q_visiteds q : list bool := (q_id_visiteds q).*2.

End operations.

(** ** The lower bound is the first index with a distance at least the target *)

Section lower_bound.
Implicit Types (ds : list f32) (t : f32).

(** The linear scan that [get_lower_bound] implements. *)
Definition lower_bound ds t : nat :=
  default (length ds) (mask_first (ge_simd ds t)).

Lemma mask_first_app m1 m2 :
  mask_first (m1 ++ m2) =
  match mask_first m1 with
  | Some i => Some i
  | None => (λ i, length m1 + i) <$> mask_first m2
  end.
Proof.
  induction m1 as [|[] m1 IH]; simpl; [by destruct (mask_first m2)|done|].
  rewrite IH. destruct (mask_first m1); simpl; [done|]. by destruct (mask_first m2).
Qed.

Lemma mask_first_lt m i : mask_first m = Some i → i < length m.
Proof.
  revert i. induction m as [|[] m IH]; simpl; intros i ?; simplify_eq; [lia|].
  destruct (mask_first m) eqn:?; simplify_eq/=. specialize (IH _ eq_refl). lia.
Qed.

Lemma ge_simd_app ds1 ds2 t : ge_simd (ds1 ++ ds2) t = ge_simd ds1 t ++ ge_simd ds2 t.
Proof. apply map_app. Qed.

Lemma length_ge_simd ds t : length (ge_simd ds t) = length ds.
Proof. apply length_map. Qed.

(** Scanning a window after a prefix without a hit. *)
Lemma scan_window_hit ds t i n o :
  i ≤ length ds → mask_first (ge_simd (take i ds) t) = None →
  mask_first (ge_simd (take n (drop i ds)) t) = Some o →
  mask_first (ge_simd ds t) = Some (i + o).
Proof.
  intros Hi Hp Hw. rewrite <-(take_drop i ds) at 1. rewrite ge_simd_app, mask_first_app, Hp.
  rewrite <-(take_drop n (drop i ds)) at 1. rewrite ge_simd_app, mask_first_app, Hw. simpl.
  by rewrite length_ge_simd, length_take_le.
Qed.

Lemma scan_window_miss ds t i n :
  mask_first (ge_simd (take i ds) t) = None →
  mask_first (ge_simd (take n (drop i ds)) t) = None →
  mask_first (ge_simd (take (i + n) ds) t) = None.
Proof.
  intros Hp Hw. replace (take (i + n) ds) with (take i ds ++ take n (drop i ds)).
  - by rewrite ge_simd_app, mask_first_app, Hp, Hw.
  - by rewrite take_take_drop.
Qed.

Lemma lower_bound_loop_spec fuel ds t index :
  index ≤ length ds → length ds ≤ index + fuel →
  mask_first (ge_simd (take index ds) t) = None →
  ∃ r, lower_bound_loop fuel ds (length ds) t index = Some r ∧
    match r with
    | inl i => mask_first (ge_simd ds t) = Some i
    | inr j => j ≤ length ds < j + 16 ∧ mask_first (ge_simd (take j ds) t) = None
    end.
Proof.
  revert index. induction fuel as [|fuel IH]; intros index Hi Hf Hp; simpl;
    (case_nat; [|eexists; split; [done|]; simpl; split; [lia|done]]); [lia|].
  unfold load_simd. case_nat; [|lia]. simpl. case_nat; [|lia]. simpl.
  destruct (mask_first (ge_simd (take 8 (drop index ds)) t)) as [o|] eqn:E1.
  { eexists; split; [done|]. simpl. by eapply scan_window_hit. }
  pose proof (scan_window_miss ds t index 8 Hp E1) as Hp'.
  destruct (mask_first (ge_simd (take 8 (drop (index + 8) ds)) t)) as [o|] eqn:E2.
  { eexists; split; [done|]. simpl. eapply scan_window_hit; [|done..]; lia. }
  pose proof (scan_window_miss ds t (index + 8) 8 Hp' E2) as Hp''.
  apply IH; [lia|lia|]. by replace (index + 16) with (index + 8 + 8) by lia.
Qed.

(** The zero lanes of the last partial load can only hit at the end of the vector. *)
Lemma mask_first_replicate k z t :
  mask_first (ge_simd (replicate k z) t) = None ∨
  mask_first (ge_simd (replicate k z) t) = Some 0.
Proof.
  destruct (f32_ge z t) eqn:E; destruct k as [|k]; simpl; rewrite ?E; auto.
  left. induction k as [|k IH]; simpl; [done|]. rewrite E. simpl.
  by destruct (mask_first _).
Qed.

Lemma scan_tail ds t i :
  i < length ds → length ds < i + 8 → mask_first (ge_simd (take i ds) t) = None →
  ∃ v, load_simd_first ds i (length ds - i) = Some v ∧
    match mask_first (ge_simd v t) with
    | Some o => i + o
    | None => length ds
    end = lower_bound ds t.
Proof.
  intros Hi Hn Hp. unfold load_simd_first. rewrite Nat.min_l by lia.
  case_nat; [|lia]. eexists; split; [done|].
  rewrite (take_ge (drop i ds)) by (rewrite length_drop; lia).
  unfold lower_bound. rewrite ge_simd_app, mask_first_app.
  destruct (mask_first (ge_simd (drop i ds) t)) as [o|] eqn:E.
  { rewrite (scan_window_hit ds t i (length (drop i ds)) o); [done|lia|done|].
    by rewrite take_ge. }
  assert (mask_first (ge_simd ds t) = None) as ->.
  { pose proof (scan_window_miss ds t i (length (drop i ds)) Hp) as H'.
    rewrite !take_ge in H' by (rewrite ?length_drop; lia). auto. }
  rewrite length_ge_simd, length_drop.
  destruct (mask_first_replicate (8 - (length ds - i)) f32_zero t) as [->| ->];
    simpl; lia.
Qed.

Lemma get_lower_bound_scan ds t :
  get_lower_bound ds (length ds) t = Some (lower_bound ds t).
Proof.
  unfold get_lower_bound.
  destruct (lower_bound_loop_spec (length ds) ds t 0) as (r & -> & Hr); [lia|lia|done|].
  simpl. destruct r as [i|j].
  { unfold lower_bound. by rewrite Hr. }
  destruct Hr as [Hj Hp].
  assert (∀ k, k ≤ length ds < k + 8 → mask_first (ge_simd (take k ds) t) = None →
    (if k <? length ds then
       v ← load_simd_first ds k (length ds - k);
       match mask_first (ge_simd v t) with
       | Some offset => Some (k + offset) | None => Some (length ds) end
     else Some (length ds)) = Some (lower_bound ds t)) as Htail.
  { intros k Hk Hpk. case_nat.
    - destruct (scan_tail ds t k) as (v & -> & <-); [lia..|done|]. simpl.
      by destruct (mask_first (ge_simd v t)).
    - rewrite take_ge in Hpk by lia. unfold lower_bound. by rewrite Hpk. }
  case_nat; [|simpl; apply Htail; [lia|done]].
  unfold load_simd. case_nat; [|lia]. simpl.
  destruct (mask_first (ge_simd (take 8 (drop j ds)) t)) as [o|] eqn:E; simpl.
  - unfold lower_bound. by rewrite (scan_window_hit ds t j 8 o) by (done || lia).
  - apply Htail; [lia|]. by apply scan_window_miss.
Qed.

Lemma lower_bound_le ds t : lower_bound ds t ≤ length ds.
Proof.
  unfold lower_bound. destruct (mask_first _) eqn:E; simpl; [|done].
  apply mask_first_lt in E. rewrite length_ge_simd in E. lia.
Qed.

Lemma mask_first_before m i j b :
  mask_first m = Some i → j < i → m !! j = Some b → b = false.
Proof.
  revert i j. induction m as [|[] m IH]; simpl; intros i j ? Hj Hl; simplify_eq; [lia|].
  destruct (mask_first m) as [k|] eqn:?; simplify_eq/=.
  destruct j as [|j]; simplify_eq/=; [done|]. apply (IH k j); auto; lia.
Qed.

Lemma mask_first_at m i : mask_first m = Some i → m !! i = Some true.
Proof.
  revert i. induction m as [|[] m IH]; simpl; intros i ?; simplify_eq; [done|].
  destruct (mask_first m); simplify_eq/=. by apply IH.
Qed.

Lemma mask_first_None m b : mask_first m = None → b ∈ m → b = false.
Proof.
  induction m as [|[] m IH]; simpl; intros H Hb; [by apply elem_of_nil in Hb|done|].
  destruct (mask_first m); simplify_eq/=. apply elem_of_cons in Hb as [->|Hb]; auto.
Qed.

(** Every distance before the bound is below the target. *)
Lemma lower_bound_before ds t j d :
  j < lower_bound ds t → ds !! j = Some d → f32_ge d t = false.
Proof.
  unfold lower_bound. intros Hj Hd.
  assert (ge_simd ds t !! j = Some (f32_ge d t)) as Hg.
  { unfold ge_simd. by rewrite list_lookup_fmap, Hd. }
  destruct (mask_first _) as [i|] eqn:E; simpl in Hj.
  - by eapply mask_first_before.
  - eapply mask_first_None; [done|]. by eapply list_elem_of_lookup_2.
Qed.

Lemma lower_bound_at ds t d :
  ds !! lower_bound ds t = Some d → f32_ge d t = true.
Proof.
  unfold lower_bound. destruct (mask_first _) as [i|] eqn:E; simpl; intros Hd.
  - apply mask_first_at in E. unfold ge_simd in E. rewrite list_lookup_fmap, Hd in E.
    by simplify_eq/=.
  - apply lookup_lt_Some in Hd. lia.
Qed.

Lemma lower_bound_take ds t k :
  lower_bound ds t ≤ k → k ≤ length ds → lower_bound (take k ds) t = lower_bound ds t.
Proof.
  unfold lower_bound. rewrite <-(take_drop k ds) at 1 2 6 7.
  rewrite ge_simd_app, mask_first_app. intros Hk Hl.
  destruct (mask_first (ge_simd (take k ds) t)) as [i|]; simpl in *; [done|].
  rewrite length_ge_simd, length_take_le, length_app, length_take_le in * by done.
  destruct (mask_first _); simpl in *; rewrite ?length_app, ?length_take_le in * by done; lia.
Qed.

End lower_bound.

(** ** The invariant and the behaviour of the operations *)

Section theory.
Context {I : Type} `{EqDecision I}.
Implicit Types (q : NeighborPriorityQueue I) (n : Neighbor I).

(** The two vectors have [size] entries, at most [capacity], sorted, without NaN. *)
Record q_wf q : Prop := {
  wf_ivs : length (q_id_visiteds q) = q_size q;
  wf_ds : length (q_distances q) = q_size q;
  wf_cap : q_size q ≤ q_capacity q;
  wf_nan : Forall (λ d, is_nan d = false) (q_distances q);
  wf_sorted : StronglySorted dist_le (q_distances q);
}.

(** The cursor is at the first unvisited entry. *)
Record q_cursor_ok q : Prop := {
  cur_le : q_cursor q ≤ q_size q;
  cur_before : ∀ i, i < q_cursor q → q_visiteds q !! i = Some true;
  cur_at : q_cursor q < q_size q → q_visiteds q !! q_cursor q = Some false;
}.

(** Between a [drain_best] and the next visit the cursor may be on a visited item. *)
Record q_cursor_weak q : Prop := {
  cw_le : q_cursor q ≤ q_size q;
  cw_before : ∀ i, i < q_cursor q → q_visiteds q !! i = Some true;
}.

Lemma q_cursor_ok_weak q : q_cursor_ok q → q_cursor_weak q.
Proof. intros []. by split. Qed.

(** A queue into which one can insert: it can grow or has a positive capacity. *)
Definition q_can_insert q : Prop := q_auto_resizable q = true ∨ 0 < q_capacity q.

Lemma q_get_lower_bound q t :
  q_wf q →
  get_lower_bound (q_distances q) (q_size q) t = Some (lower_bound (q_distances q) t).
Proof. intros Hq. rewrite <-(wf_ds q Hq). apply get_lower_bound_scan. Qed.

Lemma length_q_contents q : q_wf q → length (q_contents q) = q_size q.
Proof.
  intros Hq. unfold q_contents. rewrite length_zip_with, wf_ivs, wf_ds by done. lia.
Qed.

Lemma q_contents_lookup q i :
  q_contents q !! i = q_get_unchecked q i.
Proof.
  unfold q_contents, q_get_unchecked. rewrite lookup_zip_with.
  destruct (q_id_visiteds q !! i); simpl; [|done]. by destruct (q_distances q !! i).
Qed.

Lemma fmap_nbr_distance_zip (ivs : list (I * bool)) ds :
  length ivs = length ds →
  nbr_distance <$> zip_with (λ iv d, mkNeighbor iv.1 d) ivs ds = ds.
Proof.
  revert ds. induction ivs as [|iv ivs IH]; intros [|d ds] ?; simplify_eq/=; [done|].
  by rewrite IH.
Qed.

Lemma fmap_nbr_id_zip (ivs : list (I * bool)) ds :
  length ivs = length ds →
  nbr_id <$> zip_with (λ iv d, mkNeighbor iv.1 d) ivs ds = ivs.*1.
Proof.
  revert ds. induction ivs as [|iv ivs IH]; intros [|d ds] ?; simplify_eq/=; [done|].
  by rewrite IH.
Qed.

Lemma q_contents_distances q : q_wf q → nbr_distance <$> q_contents q = q_distances q.
Proof. intros Hq. apply fmap_nbr_distance_zip. by rewrite wf_ivs, wf_ds. Qed.

Lemma q_distances_lookup q i :
  q_wf q → q_distances q !! i = nbr_distance <$> q_contents q !! i.
Proof. intros Hq. by rewrite <-list_lookup_fmap, q_contents_distances. Qed.

Lemma q_contents_ids q : q_wf q → nbr_id <$> q_contents q = q_ids q.
Proof. intros Hq. apply fmap_nbr_id_zip. by rewrite wf_ivs, wf_ds. Qed.

(** The contents of a well-formed queue are sorted by distance. *)
Lemma q_contents_sorted q : q_wf q → StronglySorted nbr_le (q_contents q).
Proof.
  intros Hq. apply StronglySorted_of_lookup. intros i j x y Hij Hx Hy.
  apply (StronglySorted_lookup dist_le (q_distances q) i j); [by apply Hq|done|..];
    rewrite <-q_contents_distances by done; rewrite list_lookup_fmap; by
    rewrite ?Hx, ?Hy.
Qed.

Lemma vec_insert_zip_with {A B C} (f : A → B → C) i a b l k :
  length l = length k → i ≤ length l →
  zip_with f (take i l ++ a :: drop i l) (take i k ++ b :: drop i k) =
  take i (zip_with f l k) ++ f a b :: drop i (zip_with f l k).
Proof.
  intros Hl Hi. rewrite zip_with_app by (rewrite !length_take; lia). simpl.
  by rewrite zip_with_take, zip_with_drop.
Qed.

(** Inserting at the lower bound keeps the distances sorted. *)
Lemma insert_lower_bound_sorted ds t :
  is_nan t = false → Forall (λ d, is_nan d = false) ds → StronglySorted dist_le ds →
  StronglySorted dist_le (take (lower_bound ds t) ds ++ t :: drop (lower_bound ds t) ds).
Proof.
  intros Ht Hn Hs.
  assert (∀ x, x ∈ take (lower_bound ds t) ds → dist_le x t) as Hbefore.
  { intros x Hx. apply list_elem_of_lookup in Hx as [j Hj].
    apply lookup_take_Some in Hj as [Hj Hlt].
    pose proof (lower_bound_before _ _ _ _ Hlt Hj) as Hge. rewrite Forall_lookup in Hn.
    apply f32_lt_le. apply f32_not_le; eauto. }
  assert (∀ x, x ∈ drop (lower_bound ds t) ds → dist_le t x) as Hafter.
  { intros x Hx. apply list_elem_of_lookup in Hx as [j Hj]. rewrite lookup_drop in Hj.
    destruct (ds !! lower_bound ds t) as [d|] eqn:E.
    2: { apply lookup_ge_None in E. apply lookup_lt_Some in Hj. lia. }
    pose proof (lower_bound_at _ _ _ E) as Hd. destruct j as [|j].
    - rewrite Nat.add_0_r in Hj. by simplify_eq.
    - trans d; [done|]. eapply (StronglySorted_lookup dist_le ds); [done| |done|done]. lia. }
  apply StronglySorted_app_intro; [by auto with rust|constructor; [by auto with rust|]|].
  - by apply Forall_forall.
  - intros x y Hx Hy. apply elem_of_cons in Hy as [->|Hy]; [by apply Hbefore|].
    trans t; auto.
Qed.

(** The queue after the last item of a full queue is dropped. *)
Definition q_make_room q : NeighborPriorityQueue I :=
  let k := if q_size q =? q_capacity q then q_size q - 1 else q_size q in
  mkQueue k (q_capacity q) (q_cursor q) (take k (q_id_visiteds q)) (take k (q_distances q))
    (q_auto_resizable q) (q_search_param_l q).

Lemma q_make_room_wf q : q_wf q → q_wf (q_make_room q).
Proof.
  intros [H1 H2 H3 H4 H5]. unfold q_make_room.
  assert ((if q_size q =? q_capacity q then q_size q - 1 else q_size q) ≤ q_size q) as Hk
    by (case_nat; lia).
  split; simpl; rewrite ?length_take; try lia; auto with rust.
  by apply Forall_take.
Qed.

Lemma q_contents_make_room q :
  q_contents (q_make_room q) = take (q_size (q_make_room q)) (q_contents q).
Proof. unfold q_contents. simpl. by rewrite zip_with_take. Qed.

(** The value that [q_insert_at] computes. *)
Definition q_inserted q n : NeighborPriorityQueue I :=
  let q1 := q_make_room q in
  let i := lower_bound (q_distances q) (nbr_distance n) in
  mkQueue (q_size q1 + 1) (q_capacity q) (if i <? q_cursor q then i else q_cursor q)
    (take i (q_id_visiteds q1) ++ (nbr_id n, false) :: drop i (q_id_visiteds q1))
    (take i (q_distances q1) ++ nbr_distance n :: drop i (q_distances q1))
    (q_auto_resizable q) (q_search_param_l q).

Lemma q_insert_at_eq q n :
  q_wf q → 0 < q_capacity q →
  lower_bound (q_distances q) (nbr_distance n) ≤ q_size (q_make_room q) →
  q_insert_at q n = Some (q_inserted q n).
Proof.
  intros Hq Hc Hi. pose proof (q_make_room_wf q Hq) as Hq1. unfold q_insert_at.
  assert ((if 0 <? q_size q
           then get_lower_bound (q_distances q) (q_size q) (nbr_distance n) else Some 0) =
    Some (lower_bound (q_distances q) (nbr_distance n))) as ->.
  { case_nat; [by apply q_get_lower_bound|]. pose proof (wf_ds q Hq).
    destruct (q_distances q); simpl in *; [done|lia]. }
  simpl.
  assert ((if q_size q =? q_capacity q then
             last ← usub (q_size q) 1;
             Some (take last (q_id_visiteds q), take last (q_distances q), last)
           else Some (q_id_visiteds q, q_distances q, q_size q)) =
    Some (q_id_visiteds (q_make_room q), q_distances (q_make_room q), q_size (q_make_room q)))
    as ->.
  { unfold q_make_room. case_nat; simpl.
    - unfold usub. case_nat; [done|lia].
    - by rewrite !take_ge by (rewrite ?wf_ivs, ?wf_ds by done; lia). }
  unfold q_inserted. remember (q_make_room q) as q1 eqn:E. simpl.
  by rewrite !vec_insert_Some by (by rewrite ?(wf_ivs _ Hq1), ?(wf_ds _ Hq1)).
Qed.

Lemma q_inserted_contents q n :
  q_wf q → lower_bound (q_distances q) (nbr_distance n) ≤ q_size (q_make_room q) →
  let i := lower_bound (q_distances q) (nbr_distance n) in
  q_contents (q_inserted q n) =
  take i (q_contents (q_make_room q)) ++ n :: drop i (q_contents (q_make_room q)).
Proof.
  intros Hq Hi i. pose proof (q_make_room_wf q Hq) as Hq1.
  unfold q_contents, q_inserted; cbn [q_id_visiteds q_distances]. fold i.
  rewrite vec_insert_zip_with by (rewrite (wf_ivs _ Hq1), ?(wf_ds _ Hq1); done).
  simpl. by destruct n.
Qed.

Lemma q_inserted_wf q n :
  q_wf q → is_nan (nbr_distance n) = false → 0 < q_capacity q →
  lower_bound (q_distances q) (nbr_distance n) ≤ q_size (q_make_room q) →
  q_wf (q_inserted q n).
Proof.
  intros Hq Hn Hc Hi. pose proof (q_make_room_wf q Hq) as Hq1.
  assert (q_size (q_make_room q) ≤ q_size q ∧ q_size (q_make_room q) < q_capacity q) as [Hle Hlt].
  { pose proof (wf_cap q Hq). unfold q_make_room; simpl. case_nat; lia. }
  assert (lower_bound (q_distances (q_make_room q)) (nbr_distance n) =
          lower_bound (q_distances q) (nbr_distance n)) as Hlb.
  { apply lower_bound_take; [done|]. by rewrite wf_ds. }
  split; cbn [q_inserted q_size q_capacity q_id_visiteds q_distances].
  - rewrite length_app, length_take; cbn [length].
    rewrite length_drop, (wf_ivs _ Hq1). lia.
  - rewrite length_app, length_take; cbn [length].
    rewrite length_drop, (wf_ds _ Hq1). lia.
  - lia.
  - apply Forall_app; split; [apply Forall_take, Hq1|].
    constructor; [done|apply Forall_drop, Hq1].
  - rewrite <-Hlb. apply insert_lower_bound_sorted; [done|apply Hq1..].
Qed.

Lemma q_inserted_cursor_ok q n :
  q_wf q → q_cursor_ok q →
  lower_bound (q_distances q) (nbr_distance n) ≤ q_size (q_make_room q) →
  q_cursor_ok (q_inserted q n).
Proof.
  intros Hq [Hc1 Hc2 Hc3] Hi. pose proof (q_make_room_wf q Hq) as Hq1.
  assert (q_size (q_make_room q) ≤ q_size q) as Hle
    by (unfold q_make_room; simpl; case_nat; lia).
  set (i := lower_bound (q_distances q) (nbr_distance n)) in *.
  assert (q_visiteds (q_inserted q n) =
    take i (take (q_size (q_make_room q)) (q_visiteds q)) ++
    false :: drop i (take (q_size (q_make_room q)) (q_visiteds q))) as Hv.
  { unfold q_visiteds, q_inserted; cbn [q_id_visiteds]. fold i.
    rewrite fmap_app, fmap_cons, fmap_take, fmap_drop. simpl. by rewrite fmap_take. }
  assert (∀ j, j < i → q_visiteds (q_inserted q n) !! j = q_visiteds q !! j) as Hlow.
  { intros j Hj. rewrite Hv, lookup_app_l.
    - by rewrite !lookup_take_lt by lia.
    - rewrite !length_take. unfold q_visiteds. rewrite length_fmap, wf_ivs by done. lia. }
  assert (q_visiteds (q_inserted q n) !! i = Some false) as Hat.
  { rewrite Hv, lookup_app_r; rewrite !length_take; unfold q_visiteds;
      rewrite length_fmap, wf_ivs by done; [|lia].
    by replace (i - _) with 0 by lia. }
  split; cbn [q_inserted q_cursor q_size]; fold i.
  - case_nat; lia.
  - intros j Hj. case_nat_in Hj; rewrite Hlow by lia; apply Hc2; lia.
  - intros Hs. case_nat; [done|]. destruct (decide (i = q_cursor q)) as [<-|]; [done|].
    rewrite Hlow by lia. apply Hc3. lia.
Qed.

(** The items with their visited flags. *)
Definition q_entry (iv : I * bool) (d : f32) : Neighbor I * bool := (mkNeighbor iv.1 d, iv.2).

Definition q_entries q : list (Neighbor I * bool) :=
  zip_with q_entry (q_id_visiteds q) (q_distances q).

Definition count_unvisited (l : list bool) : nat := length (List.filter negb l).

(** The number of visits that are left: the unvisited items, and the item at the cursor when
    the cursor is on a visited one. *)
Definition q_pending q : nat :=
  count_unvisited (q_visiteds q) +
  match q_visiteds q !! q_cursor q with Some true => 1 | _ => 0 end.

Lemma count_unvisited_app l k :
  count_unvisited (l ++ k) = count_unvisited l + count_unvisited k.
Proof. unfold count_unvisited. by rewrite List.filter_app, length_app. Qed.

Lemma count_unvisited_insert_at i l :
  count_unvisited (take i l ++ false :: drop i l) = S (count_unvisited l).
Proof.
  rewrite <-(take_drop i l) at 3. rewrite !count_unvisited_app.
  change (false :: drop i l) with ([false] ++ drop i l).
  rewrite count_unvisited_app. unfold count_unvisited at 2. simpl. lia.
Qed.

Lemma q_inserted_visiteds q n :
  let i := lower_bound (q_distances q) (nbr_distance n) in
  q_visiteds (q_inserted q n) =
  take i (q_visiteds (q_make_room q)) ++ false :: drop i (q_visiteds (q_make_room q)).
Proof.
  intros i. unfold q_visiteds, q_inserted; cbn [q_id_visiteds]. fold i.
  by rewrite fmap_app, fmap_cons, fmap_take, fmap_drop.
Qed.

Lemma q_inserted_visiteds_low q n j :
  q_wf q → lower_bound (q_distances q) (nbr_distance n) ≤ q_size (q_make_room q) →
  j < lower_bound (q_distances q) (nbr_distance n) →
  q_visiteds (q_inserted q n) !! j = q_visiteds q !! j.
Proof.
  intros Hq Hi Hj. pose proof (q_make_room_wf q Hq) as Hq1.
  rewrite q_inserted_visiteds, lookup_app_l.
  - rewrite lookup_take_lt by lia. unfold q_visiteds, q_make_room. simpl.
    rewrite fmap_take. apply lookup_take_lt. unfold q_make_room in Hi. simpl in Hi. lia.
  - rewrite length_take. unfold q_visiteds. rewrite length_fmap, wf_ivs by done. lia.
Qed.

Lemma q_inserted_visiteds_at q n :
  q_wf q → lower_bound (q_distances q) (nbr_distance n) ≤ q_size (q_make_room q) →
  q_visiteds (q_inserted q n) !! lower_bound (q_distances q) (nbr_distance n) = Some false.
Proof.
  intros Hq Hi. pose proof (q_make_room_wf q Hq) as Hq1.
  rewrite q_inserted_visiteds, lookup_app_r; rewrite length_take; unfold q_visiteds;
    rewrite length_fmap, wf_ivs by done; [|lia].
  by replace (_ - _) with 0 by lia.
Qed.

Lemma q_inserted_weak q n :
  q_wf q → q_cursor_weak q →
  lower_bound (q_distances q) (nbr_distance n) ≤ q_size (q_make_room q) →
  q_cursor_weak (q_inserted q n).
Proof.
  intros Hq [Hc1 Hc2] Hi. split; cbn [q_inserted q_cursor q_size].
  - case_nat; [lia|]. unfold q_make_room in *. simpl in *. lia.
  - intros j Hj. case_nat_in Hj; rewrite q_inserted_visiteds_low by (done || lia);
      apply Hc2; lia.
Qed.

Lemma q_inserted_pending q n :
  q_wf q → lower_bound (q_distances q) (nbr_distance n) ≤ q_size (q_make_room q) →
  q_pending (q_inserted q n) ≤ S (q_pending q).
Proof.
  intros Hq Hi. unfold q_pending. rewrite q_inserted_visiteds at 1.
  rewrite count_unvisited_insert_at.
  assert (count_unvisited (q_visiteds (q_make_room q)) ≤ count_unvisited (q_visiteds q)) as Hle.
  { unfold q_visiteds at 1, q_make_room. simpl. rewrite fmap_take. fold (q_visiteds q).
    match goal with |- context [take ?k _] => rewrite <-(take_drop k (q_visiteds q)) at 2 end.
    rewrite count_unvisited_app. lia. }
  assert (match q_visiteds (q_inserted q n) !! q_cursor (q_inserted q n) with
          | Some true => 1 | _ => 0 end ≤
          match q_visiteds q !! q_cursor q with Some true => 1 | _ => 0 end); [|lia].
  assert (q_cursor (q_inserted q n) =
    if lower_bound (q_distances q) (nbr_distance n) <? q_cursor q
    then lower_bound (q_distances q) (nbr_distance n) else q_cursor q) as -> by done.
  case_nat.
  - rewrite q_inserted_visiteds_at by done. lia.
  - destruct (decide (lower_bound (q_distances q) (nbr_distance n) = q_cursor q)) as [<-|].
    + rewrite q_inserted_visiteds_at by done. lia.
    + by rewrite q_inserted_visiteds_low by (done || lia).
Qed.

Lemma q_inserted_entries q n :
  q_wf q → lower_bound (q_distances q) (nbr_distance n) ≤ q_size (q_make_room q) →
  (n, false) :: q_entries q ≡ₚ
    q_entries (q_inserted q n) ++ drop (q_size (q_make_room q)) (q_entries q).
Proof.
  intros Hq Hi. pose proof (q_make_room_wf q Hq) as Hq1.
  assert (q_entries (q_make_room q) = take (q_size (q_make_room q)) (q_entries q)) as He
    by (unfold q_entries; simpl; by rewrite zip_with_take).
  assert (q_entries (q_inserted q n) ≡ₚ (n, false) :: q_entries (q_make_room q)) as ->.
  { unfold q_entries at 1, q_inserted; cbn [q_id_visiteds q_distances].
    rewrite vec_insert_zip_with by (rewrite (wf_ivs _ Hq1), ?(wf_ds _ Hq1); done).
    rewrite <-Permutation_middle, take_drop. unfold q_entry at 1. simpl. by destruct n. }
  rewrite He. simpl. by rewrite take_drop.
Qed.

(** What one insertion does to the contents: one item, no closer than any that stays, leaves
    a full queue, and nothing leaves another queue. *)
Record insert_post q n q' : Prop := {
  ip_wf : q_wf q';
  ip_cursor : q_cursor_ok q → q_cursor_ok q';
  ip_weak : q_cursor_weak q → q_cursor_weak q';
  ip_pending : q_pending q' ≤ S (q_pending q);
  ip_entries : ∃ dropped, (n, false) :: q_entries q ≡ₚ q_entries q' ++ dropped;
  ip_resizable : q_auto_resizable q' = q_auto_resizable q;
  ip_search_l : q_search_param_l q' = q_search_param_l q;
  ip_capacity : q_auto_resizable q = false → q_capacity q' = q_capacity q;
  ip_contents : ∃ dropped,
    n :: q_contents q ≡ₚ q_contents q' ++ dropped ∧
    length dropped = (if q_is_full q then 1 else 0) ∧
    (∀ x y, x ∈ q_contents q' → y ∈ dropped → nbr_le x y);
}.

Lemma dbgassert_unique debug q id :
  (debug = true → id ∉ q_ids q) → dbgassert_unique_insert debug q id = Some tt.
Proof.
  intros Hu. unfold dbgassert_unique_insert. destruct debug; [|done].
  unfold rassert. rewrite (proj2 (forallb_forall _ _)); [done|].
  intros iv Hiv. apply negb_true_iff, bool_decide_eq_false_2. intros <-.
  apply Hu; [done|]. apply list_elem_of_fmap. exists iv. split; [done|].
  apply list_elem_of_In, elem_of_take in Hiv as (j & Hj & _).
  by eapply list_elem_of_lookup_2.
Qed.

Lemma q_inserted_post q n :
  q_wf q → is_nan (nbr_distance n) = false → 0 < q_capacity q →
  (q_size q = q_capacity q → ∃ w, last (q_contents q) = Some w ∧ nbr_le n w) →
  (q_is_full q = (q_size q =? q_capacity q)) →
  q_insert_at q n = Some (q_inserted q n) ∧ insert_post q n (q_inserted q n).
Proof.
  intros Hq Hn Hc Hw Hf.
  set (k := q_size (q_make_room q)).
  assert (q_size q = q_capacity q → k = q_size q - 1) as Hk1
    by (intros; unfold k, q_make_room; simpl; case_nat; lia).
  assert (q_size q ≠ q_capacity q → k = q_size q) as Hk2
    by (intros; unfold k, q_make_room; simpl; case_nat; lia).
  assert (lower_bound (q_distances q) (nbr_distance n) ≤ k) as Hi.
  { pose proof (lower_bound_le (q_distances q) (nbr_distance n)) as Hle.
    rewrite wf_ds in Hle by done.
    destruct (decide (q_size q = q_capacity q)) as [E|]; [|by rewrite Hk2].
    destruct (Hw E) as (w & Hl & Hnw). rewrite Hk1 by done.
    destruct (decide (lower_bound (q_distances q) (nbr_distance n) = q_size q)) as [E'|]; [|lia].
    rewrite last_lookup, length_q_contents in Hl by done.
    assert (q_distances q !! pred (q_size q) = Some (nbr_distance w)) as Hd.
    { by rewrite q_distances_lookup, Hl. }
    apply (lower_bound_before _ (nbr_distance n)) in Hd; [|lia].
    unfold f32_ge, f32_le, nbr_le, dist_le in *. unfold f32_le in Hnw. congruence. }
  pose proof (q_inserted_contents q n Hq Hi) as Hcont. simpl in Hcont.
  rewrite q_contents_make_room in Hcont. fold k in Hcont.
  split; [by apply q_insert_at_eq|].
  split; try done; [by apply q_inserted_wf|intros; by apply q_inserted_cursor_ok
    |intros; by apply q_inserted_weak|by apply q_inserted_pending
    |eexists; by apply q_inserted_entries|].
  exists (drop k (q_contents q)). rewrite Hcont. split_and!.
  - rewrite <-Permutation_middle. simpl. by rewrite take_drop, take_drop.
  - rewrite length_drop, length_q_contents, Hf by done. case_nat; [|lia].
    rewrite Hk1 by done. lia.
  - intros x y Hx Hy.
    assert (y ∈ drop k (q_contents q) → ∀ z, z ∈ take k (q_contents q) → nbr_le z y) as Hs.
    { intros _ z Hz. apply elem_of_take in Hz as (a & Ha & ?).
      apply list_elem_of_lookup in Hy as [b Hb]. rewrite lookup_drop in Hb.
      apply (StronglySorted_lookup nbr_le _ a (k + b) _ _ (q_contents_sorted q Hq)); auto; lia. }
    rewrite <-Permutation_middle, take_drop in Hx.
    apply elem_of_cons in Hx as [->|Hx]; [|by apply Hs].
    destruct (decide (q_size q = q_capacity q)) as [E|].
    + destruct (Hw E) as (w & Hl & Hnw). rewrite last_lookup, length_q_contents in Hl by done.
      apply list_elem_of_lookup in Hy as [b Hb]. rewrite lookup_drop in Hb.
      pose proof (lookup_lt_Some _ _ _ Hb) as Hlt. rewrite length_q_contents in Hlt by done.
      rewrite Hk1 in Hb, Hlt by done. replace (q_size q - 1 + b) with (pred (q_size q)) in Hb by lia.
      by simplify_eq.
    + rewrite Hk2, drop_ge in Hy by (try rewrite length_q_contents; done).
      by apply elem_of_nil in Hy.
Qed.

Lemma q_reserve_wf q k : q_wf q → q_wf (q_reserve q k).
Proof. intros []; split; simpl; auto; lia. Qed.

(** An insertion into a resizable queue. *)
Lemma q_insert_resizable_ok q n :
  q_wf q → is_nan (nbr_distance n) = false → q_auto_resizable q = true →
  ∃ q', (if q_size q =? q_capacity q
         then q_insert_at (q_reserve q (1 `max` (q_capacity q / 2))) n
         else q_insert_at q n) = Some q' ∧ insert_post q n q'.
Proof.
  intros Hq Hn Er. pose proof (wf_cap q Hq) as Hcap. case_nat.
  - assert (q_wf (q_reserve q (1 `max` (q_capacity q / 2)))) as Hr by by apply q_reserve_wf.
    destruct (q_inserted_post (q_reserve q (1 `max` (q_capacity q / 2))) n) as [-> Hp];
      [done|done|simpl; lia|simpl; lia|unfold q_is_full; simpl; rewrite Er; case_nat; [lia|done]|].
    eexists; split; [done|]. destruct Hp as [P1 P2 P2w P2p P2e P3 P4 P5 P6].
    split; [done| | |exact P2p|exact P2e|simpl in *; congruence|done|congruence|].
    + intros [C1 C2 C3]. apply P2. by split.
    + intros [C1 C2]. apply P2w. by split.
    + destruct P6 as (dr & D1 & D2 & D3). exists dr. split_and!; [done| |done].
      rewrite D2. unfold q_is_full. simpl. by rewrite Er.
  - destruct (q_inserted_post q n) as [-> Hp]; [done|done|lia|lia| |by eauto].
    unfold q_is_full. rewrite Er. case_nat; [lia|done].
Qed.

(** [insert] never panics on a well-formed queue that can hold an item, keeps it well
    formed and keeps the closest candidates. *)
Lemma q_insert_ok debug q n :
  q_wf q → q_can_insert q → is_nan (nbr_distance n) = false →
  (debug = true → nbr_id n ∉ q_ids q) →
  ∃ q', q_insert debug q n = Some q' ∧ insert_post q n q'.
Proof.
  intros Hq Hcan Hn Hu. unfold q_insert. rewrite Hn, dbgassert_unique by done.
  cbn [mbind option_bind]. pose proof (wf_cap q Hq) as Hcap.
  destruct (q_auto_resizable q) eqn:Er.
  { by apply q_insert_resizable_ok. }
  destruct Hcan as [Hcan|Hcan]; [congruence|].
  assert (q_is_full q = (q_size q =? q_capacity q)) as Hf by (unfold q_is_full; by rewrite Er).
  case_nat.
  2: { destruct (q_inserted_post q n) as [-> Hp]; [done|done|lia|lia| |by eauto].
       rewrite Hf. symmetry. by apply Nat.eqb_neq. }
  unfold usub. case_nat; [|lia]. simpl.
  destruct (q_contents q !! (q_size q - 1)) as [w|] eqn:Ew.
  2: { apply lookup_ge_None in Ew. rewrite length_q_contents in Ew by done. lia. }
  assert (last (q_contents q) = Some w) as Hl.
  { rewrite last_lookup, length_q_contents by done.
    by replace (pred (q_size q)) with (q_size q - 1) by lia. }
  rewrite <-q_contents_lookup, Ew. simpl.
  assert (is_nan (nbr_distance w) = false) as Hwn.
  { pose proof (wf_nan q Hq) as HF. rewrite Forall_lookup in HF. apply (HF (q_size q - 1)).
    by rewrite q_distances_lookup, Ew. }
  destruct (f32_lt (nbr_distance w) (nbr_distance n)) eqn:Elt.
  - eexists; split; [done|]. split; auto;
      [exists [(n, false)]; by rewrite Permutation_app_comm|].
    exists [n]. split_and!.
    + by rewrite Permutation_app_comm.
    + by rewrite Hf.
    + intros x y Hx Hy. apply list_elem_of_singleton in Hy as ->.
      apply f32_lt_le. apply list_elem_of_lookup in Hx as [a Ha].
      pose proof (lookup_lt_Some _ _ _ Ha) as Hlt. rewrite length_q_contents in Hlt by done.
      destruct (decide (a = q_size q - 1)) as [->|]; [by simplify_eq|].
      eapply f32_le_lt_trans; [|done].
      apply (StronglySorted_lookup nbr_le _ a (q_size q - 1) _ _ (q_contents_sorted q Hq)); auto; lia.
  - destruct (q_inserted_post q n) as [-> Hp]; [done|done|lia| | |by eauto].
    + intros _. exists w. split; [done|]. by apply f32_not_lt.
    + rewrite Hf. symmetry. by apply Nat.eqb_eq.
Qed.

(** ** A run of insertions *)

Fixpoint q_insert_all (debug : bool) q (ns : list (Neighbor I)) :
    option (NeighborPriorityQueue I) :=
  match ns with
  | [] => Some q
  | n :: ns => q' ← q_insert debug q n; q_insert_all debug q' ns
  end.

Lemma q_insert_all_ok ns : ∀ q dropped0 all,
  q_wf q → q_auto_resizable q = false → 0 < q_capacity q →
  Forall (λ n, is_nan (nbr_distance n) = false) ns →
  all ≡ₚ q_contents q ++ dropped0 →
  (∀ x y, x ∈ q_contents q → y ∈ dropped0 → nbr_le x y) →
  (dropped0 ≠ [] → q_size q = q_capacity q) →
  ∃ q' dropped, q_insert_all false q ns = Some q' ∧ q_wf q' ∧
    (q_cursor_ok q → q_cursor_ok q') ∧
    ns ++ all ≡ₚ q_contents q' ++ dropped ∧
    (∀ x y, x ∈ q_contents q' → y ∈ dropped → nbr_le x y) ∧
    q_size q' = q_capacity q `min` (length ns + length all).
Proof.
  induction ns as [|n ns IH]; intros q dr0 all Hq Hr Hc Hn Hall Hdr Hfull; simpl.
  { exists q, dr0. split_and!; try done.
    rewrite Hall, length_app, length_q_contents by done.
    destruct dr0; simpl; [pose proof (wf_cap q Hq); lia|]. rewrite Hfull by done. lia. }
  inversion_clear Hn as [|?? Hn1 Hns].
  destruct (q_insert_ok false q n) as (q1 & -> & [P1 P2 _ _ _ P3 P4 P5 P6]); [done|by right|done|done|].
  destruct P6 as (dr & D1 & D2 & D3). simpl.
  assert (∀ x y, x ∈ q_contents q1 → y ∈ dr ++ dr0 → nbr_le x y) as Hle.
  { intros x y Hx Hy. apply elem_of_app in Hy as [Hy|Hy]; [by apply D3|].
    destruct (decide (dr0 = [])) as [->|Hne]; [by apply elem_of_nil in Hy|].
    unfold q_is_full in D2. rewrite Hr, Hfull, Nat.eqb_refl in D2 by done. simpl in D2.
    destruct dr as [|d []]; simplify_eq/=.
    assert (d ∈ n :: q_contents q) as Hd by (rewrite D1; set_solver).
    apply elem_of_cons in Hd as [->|Hd].
    - apply Hdr; [|done]. rewrite (Permutation_app_comm _ [n]) in D1.
      apply Permutation_cons_inv in D1. by rewrite D1.
    - trans d; [apply D3; set_solver|by apply Hdr]. }
  assert (n :: all ≡ₚ q_contents q1 ++ (dr ++ dr0)) as Hp1.
  { by rewrite Hall, app_comm_cons, D1, (assoc_L (++)). }
  assert (length (n :: q_contents q) = length (q_contents q1 ++ dr)) as Hlen by by rewrite D1.
  cbn [length] in Hlen. rewrite length_app, !length_q_contents, D2 in Hlen by done.
  unfold q_is_full in Hlen. rewrite Hr in Hlen. simpl in Hlen.
  pose proof (wf_cap q Hq). pose proof (wf_cap q1 P1). pose proof (P5 Hr) as Hcap1.
  destruct (IH q1 (dr ++ dr0) (n :: all)) as (q' & dr' & -> & Q1 & Q2 & Q3 & Q4 & Q5);
    [done|congruence|lia|done|done|done| |].
  { intros Hne. case_nat_in Hlen; [lia|]. exfalso. apply Hne.
    destruct dr; simpl in D2; unfold q_is_full in D2; rewrite Hr in D2; simpl in D2.
    - destruct dr0; [done|]. exfalso. pose proof (Hfull ltac:(done)). lia.
    - case_nat_in D2; lia. }
  exists q', dr'. split_and!; auto.
  - by rewrite <-Q3, <-Permutation_middle.
  - rewrite Q5. simpl. lia.
Qed.

(** ** Visiting *)

Lemma q_visited_lookup q i :
  q_wf q → i < q_size q →
  ∃ b, q_visiteds q !! i = Some b ∧ q_get_visited q i = Some b.
Proof.
  intros Hq Hi. unfold q_visiteds, q_get_visited.
  destruct (q_id_visiteds q !! i) as [iv|] eqn:E.
  - exists iv.2. rewrite list_lookup_fmap, E. simpl. split; [done|].
    unfold rassert. case_nat; [done|lia].
  - apply lookup_ge_None in E. rewrite wf_ivs in E by done. lia.
Qed.

Lemma advance_cursor_ok fuel q c :
  q_wf q → c ≤ q_size q → q_size q ≤ c + fuel →
  ∃ c', advance_cursor fuel q c = Some c' ∧ c ≤ c' ≤ q_size q ∧
    (∀ i, c ≤ i < c' → q_visiteds q !! i = Some true) ∧
    (c' < q_size q → q_visiteds q !! c' = Some false).
Proof.
  intros Hq. revert c. induction fuel as [|fuel IH]; intros c Hc Hf; simpl;
    (case_nat; [|exists c; repeat split; (done || lia)]); [lia|].
  destruct (q_visited_lookup q c) as (b & Hb & ->); [done|done|]. simpl. destruct b.
  - destruct (IH (c + 1)) as (c' & -> & Hc' & H1 & H2); [lia|lia|].
    exists c'. repeat split; [lia..| |done]. intros i Hi.
    destruct (decide (i = c)) as [->|]; [done|]. apply H1. lia.
  - exists c. repeat split; [lia..|done].
Qed.

(** The queue in which item [c] became visited and the cursor moved to [c']. *)
Definition q_visited_at q (c c' : nat) (iv : I * bool) : NeighborPriorityQueue I :=
  mkQueue (q_size q) (q_capacity q) c' (<[c := (iv.1, true)]> (q_id_visiteds q))
    (q_distances q) (q_auto_resizable q) (q_search_param_l q).

Lemma q_visiteds_visited_at q c c' iv :
  q_visiteds (q_visited_at q c c' iv) = <[c := true]> (q_visiteds q).
Proof. unfold q_visiteds. simpl. by rewrite list_fmap_insert. Qed.

Lemma q_contents_visited_at q c c' iv :
  q_id_visiteds q !! c = Some iv → q_contents (q_visited_at q c c' iv) = q_contents q.
Proof.
  intros Hiv. apply list_eq. intros i. rewrite !q_contents_lookup.
  unfold q_get_unchecked; simpl. destruct (decide (i = c)) as [->|].
  - rewrite list_lookup_insert_eq by (by eapply lookup_lt_Some). by rewrite Hiv.
  - by rewrite list_lookup_insert_ne.
Qed.

Lemma q_visited_at_wf q c c' iv : q_wf q → q_wf (q_visited_at q c c' iv).
Proof. intros []. split; simpl; rewrite ?length_insert; auto. Qed.

(** [closest_notvisited] with an item to visit. *)
Lemma q_closest_notvisited_ok q :
  q_wf q → q_cursor_weak q → q_has_notvisited_node q = true →
  ∃ n iv c',
    q_contents q !! q_cursor q = Some n ∧ q_id_visiteds q !! q_cursor q = Some iv ∧
    q_closest_notvisited q = Some (q_visited_at q (q_cursor q) c' iv, Some n) ∧
    q_wf (q_visited_at q (q_cursor q) c' iv) ∧
    q_cursor_ok (q_visited_at q (q_cursor q) c' iv).
Proof.
  intros Hq [Hc1 Hc2] Hh. unfold q_closest_notvisited. rewrite Hh.
  unfold q_has_notvisited_node in Hh. apply Nat.ltb_lt in Hh.
  destruct (q_id_visiteds q !! q_cursor q) as [iv|] eqn:Eiv.
  2: { apply lookup_ge_None in Eiv. rewrite wf_ivs in Eiv by done. lia. }
  destruct (q_contents q !! q_cursor q) as [n|] eqn:En.
  2: { apply lookup_ge_None in En. rewrite length_q_contents in En by done. lia. }
  unfold q_set_visited, rassert. pose proof (wf_cap q Hq).
  case_nat; [|lia]. case_nat; [|lia]. rewrite Eiv. cbn [mbind option_bind].
  change (mkQueue (q_size q) (q_capacity q) (q_cursor q)
            (<[q_cursor q := (iv.1, true)]> (q_id_visiteds q)) (q_distances q)
            (q_auto_resizable q) (q_search_param_l q))
    with (q_visited_at q (q_cursor q) (q_cursor q) iv).
  set (q1 := q_visited_at q (q_cursor q) (q_cursor q) iv).
  assert (q_wf q1) as Hq1 by by apply q_visited_at_wf.
  destruct (advance_cursor_ok (q_size q1) q1 (q_cursor q + 1)) as (c' & -> & Hc' & Hv & Hat);
    [done|simpl; lia|simpl; lia|]. cbn [mbind option_bind].
  change (mkQueue _ _ _ _ _ _ _) with (q_visited_at q (q_cursor q) c' iv).
  rewrite <-q_contents_lookup, q_contents_visited_at, En by done.
  exists n, iv, c'. split_and!; try done; [by apply q_visited_at_wf|].
  assert (q_visiteds q1 = <[q_cursor q:=true]> (q_visiteds q)) as Hv1
    by apply q_visiteds_visited_at.
  simpl in Hc'. split; simpl; rewrite ?q_visiteds_visited_at, <-?Hv1; [lia| |by auto].
  intros i Hi. destruct (decide (i < q_cursor q)) as [Hlt|].
  - rewrite Hv1, list_lookup_insert_ne by lia. by apply Hc2.
  - destruct (decide (i = q_cursor q)) as [->|]; [|apply Hv; lia].
    rewrite Hv1. apply list_lookup_insert_eq. unfold q_visiteds.
    rewrite length_fmap, wf_ivs by done. lia.
Qed.

(** ** Removal *)

(** The queue without item [i]. *)
Definition q_removed_at q (i : nat) : NeighborPriorityQueue I :=
  mkQueue (q_size q - 1) (q_capacity q) (if i <? q_cursor q then q_cursor q - 1 else q_cursor q)
    (take i (q_id_visiteds q) ++ drop (S i) (q_id_visiteds q))
    (take i (q_distances q) ++ drop (S i) (q_distances q))
    (q_auto_resizable q) (q_search_param_l q).

Lemma q_remove_eq q n :
  q_wf q →
  let i := lower_bound (q_distances q) (nbr_distance n) in
  q_remove q n =
  match q_contents q !! i with
  | Some m =>
      if bool_decide (nbr_id m = nbr_id n) then Some (q_removed_at q i, true) else Some (q, false)
  | None => Some (q, false)
  end.
Proof.
  intros Hq i. unfold q_remove. destruct (Nat.eqb_spec (q_size q) 0).
  { assert (q_contents q !! i = None) as ->; [|done].
    apply lookup_ge_None. rewrite length_q_contents by done. lia. }
  rewrite q_get_lower_bound by done. cbn [mbind option_bind]. fold i.
  destruct (Nat.ltb_spec i (q_size q)); rewrite q_contents_lookup.
  2: { assert (q_get_unchecked q i = None) as ->; [|done].
       rewrite <-q_contents_lookup. apply lookup_ge_None.
       rewrite length_q_contents by done. lia. }
  destruct (q_get_unchecked q i) as [m|] eqn:Em; cbn [mbind option_bind].
  2: { rewrite <-q_contents_lookup in Em. apply lookup_ge_None in Em.
       rewrite length_q_contents in Em by done. lia. }
  case_bool_decide; [|done].
  rewrite !vec_remove_Some by (rewrite ?wf_ivs, ?wf_ds; done). simpl.
  unfold q_removed_at. destruct (Nat.ltb_spec i (q_cursor q)), (Nat.ltb_spec 0 (q_cursor q));
    simpl; (done || lia).
Qed.

Lemma q_removed_at_wf q i : q_wf q → i < q_size q → q_wf (q_removed_at q i).
Proof.
  intros [H1 H2 H3 H4 H5] Hi. split; simpl; rewrite ?length_app, ?length_take, ?length_drop; try lia.
  - apply Forall_app; auto using Forall_take, Forall_drop.
  - apply (StronglySorted_sublist _ (q_distances q)); [|done].
    rewrite <-delete_take_drop. apply sublist_delete.
Qed.

Lemma q_removed_at_contents q i :
  q_wf q → q_contents (q_removed_at q i) = delete i (q_contents q).
Proof.
  intros Hq. unfold q_contents; simpl. rewrite delete_take_drop.
  rewrite zip_with_app by (rewrite !length_take, wf_ivs, wf_ds; done).
  by rewrite zip_with_take, zip_with_drop.
Qed.

(** ** Retaining *)

Definition unvisit (e : Neighbor I * bool) : Neighbor I * bool := (e.1, false).

Lemma retain_loop_ok f m : ∀ r w ivs ds,
  w ≤ r → length ivs = r + m → length ds = r + m →
  let es := zip_with q_entry ivs ds in
  let kept := List.filter (λ e, f e.1) (drop r es) in
  ∃ ivs' ds', retain_loop m f r w ivs ds = Some (w + length kept, ivs', ds') ∧
    length ivs' = r + m ∧ length ds' = r + m ∧
    sublist (take (w + length kept) ds') (take w ds ++ drop r ds) ∧
    take (w + length kept) (zip_with q_entry ivs' ds') = take w es ++ (unvisit <$> kept).
Proof.
  induction m as [|m IH]; intros r w ivs ds Hw Hi Hd es kept.
  { assert (kept = []) as ->.
    { unfold kept. rewrite drop_ge; [done|]. unfold es. rewrite length_zip_with. lia. }
    simpl. exists ivs, ds. rewrite Nat.add_0_r, app_nil_r. split_and!; [done|lia|lia| |done].
    by apply sublist_inserts_r. }
  destruct (lookup_lt_is_Some_2 ivs r) as [iv Eiv]; [lia|].
  destruct (lookup_lt_is_Some_2 ds r) as [d Ed]; [lia|].
  assert (es !! r = Some (q_entry iv d)) as Ees.
  { unfold es. by rewrite lookup_zip_with, Eiv; simpl; rewrite Ed. }
  unfold kept. rewrite (drop_S _ _ _ Ees). cbn [retain_loop List.filter]. rewrite Eiv, Ed.
  cbn [mbind option_bind q_entry fst]. rewrite (drop_S _ _ _ Ed).
  destruct (f (mkNeighbor iv.1 d)) eqn:Ef.
  2: { destruct (IH (r + 1) w ivs ds) as (ivs' & ds' & E1 & E2 & E3 & E4 & E5); [lia..|].
       fold es in E1, E4, E5. rewrite Nat.add_1_r in *.
       exists ivs', ds'. split_and!; [done|lia|lia| |done].
       etrans; [done|]. by apply sublist_app, sublist_cons. }
  assert (∃ ivs1, (if w =? r then Some (ivs, ds) else
      ivs' ← vec_set w iv ivs; ds' ← vec_set w d ds; Some (ivs', ds'))
      = Some (ivs1, <[w := d]> ds) ∧ ivs1 = <[w := iv]> ivs) as (ivs1 & -> & ->).
  { case_nat; [subst; exists ivs; by rewrite !list_insert_id|].
    unfold vec_set. case_nat; [|lia]. simpl. case_nat; [|lia]. by eexists. }
  cbn [mbind option_bind]. rewrite list_lookup_insert_eq by lia. cbn [mbind option_bind].
  unfold vec_set. rewrite length_insert. case_nat; [|lia]. cbn [mbind option_bind].
  rewrite list_insert_insert_eq.
  destruct (IH (r + 1) (w + 1) (<[w:=(iv.1, false)]> ivs) (<[w:=d]> ds))
    as (ivs' & ds' & E1 & E2 & E3 & E4 & E5); [lia|rewrite length_insert; lia..|].
  assert (zip_with q_entry (<[w:=(iv.1, false)]> ivs) (<[w:=d]> ds) =
    <[w := unvisit (q_entry iv d)]> es) as Hes.
  { symmetry. apply (insert_zip_with q_entry ivs ds w (iv.1, false) d). }
  rewrite Hes, drop_insert_lt in E1, E4, E5 by lia. rewrite (drop_insert_lt ds) in E4 by lia.
  assert (w < length es) by (unfold es; rewrite length_zip_with; lia).
  rewrite !Nat.add_1_r in *.
  rewrite (take_S_r _ _ _ (list_lookup_insert_eq es w _ ltac:(done))), take_insert_ge in E5 by lia.
  rewrite (take_S_r _ _ _ (list_lookup_insert_eq ds w d ltac:(lia))), take_insert_ge in E4 by lia.
  cbn [length]. rewrite !Nat.add_succ_r. cbn [Nat.add] in E1, E4, E5.
  exists ivs', ds'. split_and!; [done|lia|lia| |].
  - etrans; [done|]. by rewrite <-(assoc_L (++)).
  - rewrite E5. by rewrite <-(assoc_L (++)).
Qed.

Lemma zip_entry_contents (ivs : list (I * bool)) ds :
  (zip_with q_entry ivs ds).*1 = zip_with (λ iv d, mkNeighbor iv.1 d) ivs ds.
Proof. revert ds. induction ivs; intros []; f_equal/=; auto. Qed.

Lemma zip_entry_visiteds (ivs : list (I * bool)) ds :
  length ivs = length ds → (zip_with q_entry ivs ds).*2 = ivs.*2.
Proof. revert ds. induction ivs; intros [] ?; simplify_eq/=; f_equal; auto. Qed.

Lemma filter_entries f (es : list (Neighbor I * bool)) :
  (List.filter (λ e, f e.1) es).*1 = List.filter f es.*1.
Proof. induction es as [|e es IH]; simpl; [done|]. destruct (f e.1); f_equal/=; auto. Qed.

Lemma unvisit_entries (es : list (Neighbor I * bool)) : (unvisit <$> es).*1 = es.*1.
Proof. induction es; f_equal/=; auto. Qed.

Lemma sublist_Forall {A} (P : A → Prop) (l k : list A) : sublist k l → Forall P l → Forall P k.
Proof. intros Hs. rewrite !Forall_forall. eauto using elem_of_sublist. Qed.

Lemma q_retain_ok q f :
  q_wf q →
  ∃ q', q_retain q f = Some q' ∧ q_wf q' ∧
    q_contents q' = List.filter f (q_contents q) ∧
    Forall (λ b, b = false) (q_visiteds q') ∧
    q_cursor q' = (if q_size q' <? q_size q then 0 else q_cursor q).
Proof.
  intros Hq. unfold q_retain. case_nat.
  { exists q. pose proof (wf_ivs q Hq) as Hl. rewrite e in Hl. apply nil_length_inv in Hl.
    split_and!; auto.
    - unfold q_contents. by rewrite Hl.
    - unfold q_visiteds. rewrite Hl. constructor.
    - by rewrite Nat.ltb_irrefl. }
  destruct (retain_loop_ok f (q_size q) 0 0 (q_id_visiteds q) (q_distances q))
    as (ivs' & ds' & -> & E2 & E3 & E4 & E5); [done|by rewrite wf_ivs|by rewrite wf_ds|].
  cbn [mbind option_bind]. rewrite !drop_0, !take_0 in *. simpl in E2, E3, E4, E5.
  set (kept := List.filter (λ e, f e.1) (zip_with q_entry (q_id_visiteds q) (q_distances q))) in *.
  assert (length kept ≤ q_size q) as Hk.
  { etrans; [apply List.filter_length_le|]. rewrite length_zip_with, wf_ivs, wf_ds by done. lia. }
  assert (q_truncate (mkQueue (q_size q) (q_capacity q) (q_cursor q) ivs' ds'
      (q_auto_resizable q) (q_search_param_l q)) (0 + length kept) =
    mkQueue (length kept) (q_capacity q)
      (if length kept <? q_size q then 0 else q_cursor q)
      (take (length kept) ivs') (take (length kept) ds')
      (q_auto_resizable q) (q_search_param_l q)) as ->.
  { unfold q_truncate; simpl. case_nat; [done|].
    assert (length kept = q_size q) as -> by lia. by rewrite !take_ge by lia. }
  eexists; split; [done|]. split_and!; [|..|done].
  - destruct Hq. split; simpl; rewrite ?length_take; try lia.
    + by eapply sublist_Forall.
    + by eapply StronglySorted_sublist.
  - unfold q_contents; simpl. rewrite <-!zip_entry_contents, <-zip_with_take, E5.
    rewrite unvisit_entries. apply filter_entries.
  - unfold q_visiteds; simpl.
    rewrite <-(zip_entry_visiteds _ (take (length kept) ds')) by (rewrite !length_take; lia).
    rewrite <-zip_with_take, E5. apply Forall_fmap, Forall_fmap, Forall_true. done.
Qed.

Lemma q_cursor_ok_first q j :
  q_cursor_ok q → q_visiteds q !! j = Some false → q_cursor q ≤ j.
Proof.
  intros Hc Hj. destruct (decide (q_cursor q ≤ j)); [done|].
  rewrite (cur_before q Hc j) in Hj by lia. congruence.
Qed.

End theory.

(** ** Properties *)

Section properties.
Context {I : Type} `{EqDecision I}.
Implicit Types (q : NeighborPriorityQueue I) (n : Neighbor I).

(** The vectorised [get_lower_bound] terminates within its fuel, never reads out of
    bounds and returns what a linear scan returns: the first index whose distance is at least
    the target, or the length of the vector.  The zero lanes of the final partial load do not
    change the result, whatever the sign of the target. *)
Theorem get_lower_bound_correct (ds : list f32) (t : f32) :
  ∃ i, get_lower_bound ds (length ds) t = Some i ∧ i ≤ length ds ∧
    (∀ j d, j < i → ds !! j = Some d → f32_ge d t = false) ∧
    (∀ d, ds !! i = Some d → f32_ge d t = true).
Proof.
  exists (lower_bound ds t). split_and!.
  - apply get_lower_bound_scan.
  - apply lower_bound_le.
  - apply lower_bound_before.
  - apply lower_bound_at.
Qed.

(** C9: on a well-formed queue that can hold an item, [insert] of a neighbor whose distance is
    not NaN (and, in a debug build, whose id is new) does not panic.  It keeps the queue well
    formed (sorted, within capacity, both vectors of one length) and the cursor at the first
    unvisited item.  The contents are the old ones with the new neighbor, less exactly one
    item when the queue was full, and that item is no closer than any that stays. *)
Theorem insert_keeps_closest debug q n :
  q_wf q → q_can_insert q → is_nan (nbr_distance n) = false →
  (debug = true → nbr_id n ∉ q_ids q) →
  ∃ q', q_insert debug q n = Some q' ∧ insert_post q n q'.
Proof. apply q_insert_ok. Qed.

(** Inserting any list of neighbors without NaN into a fresh queue of positive capacity
    [l] yields the [min l (length ns)] closest of them in order of distance: the queue is
    sorted, and everything that was dropped is no closer than everything that was kept. *)
Theorem insert_all_closest (l : nat) (ns : list (Neighbor I)) :
  0 < l → Forall (λ n, is_nan (nbr_distance n) = false) ns →
  ∃ q dropped, q_insert_all false (q_new l) ns = Some q ∧
    StronglySorted nbr_le (q_contents q) ∧
    ns ≡ₚ q_contents q ++ dropped ∧
    length (q_contents q) = l `min` length ns ∧
    (∀ x y, x ∈ q_contents q → y ∈ dropped → nbr_le x y).
Proof.
  intros Hl Hns.
  destruct (q_insert_all_ok ns (q_new l) [] []) as (q & dr & E & Hq & _ & Hp & Hle & Hs);
    try done; [split; simpl; try done; [lia|constructor]|set_solver|].
  exists q, dr. split_and!; auto using q_contents_sorted.
  - by rewrite app_nil_r in Hp.
  - rewrite length_q_contents, Hs by done. simpl. lia.
Qed.

(** [closest_notvisited] on a well-formed queue whose cursor is at the first unvisited
    item does not panic.  When [has_notvisited_node] holds it returns the item at the cursor,
    which was unvisited and precedes (so is no farther than) every other unvisited item; it
    marks exactly that item visited, leaves the contents alone and re-establishes the cursor
    invariant.  Otherwise it returns [None], and then the best [search_l] items are all
    visited. *)
Theorem closest_notvisited_correct q :
  q_wf q → q_cursor_ok q →
  if q_has_notvisited_node q then
    ∃ n q', q_closest_notvisited q = Some (q', Some n) ∧
      q_contents q !! q_cursor q = Some n ∧
      q_visiteds q !! q_cursor q = Some false ∧
      (∀ j, q_visiteds q !! j = Some false → q_cursor q ≤ j) ∧
      q_contents q' = q_contents q ∧
      q_visiteds q' = <[q_cursor q := true]> (q_visiteds q) ∧
      q_wf q' ∧ q_cursor_ok q'
  else
    q_closest_notvisited q = Some (q, None) ∧
    (∀ j, j < q_search_param_l q `min` q_size q → q_visiteds q !! j = Some true).
Proof.
  intros Hq Hc. destruct (q_has_notvisited_node q) eqn:Hh.
  - destruct (q_closest_notvisited_ok q Hq (q_cursor_ok_weak q Hc) Hh) as (n & iv & c' & H1 & H2 & H3 & H4 & H5).
    exists n, (q_visited_at q (q_cursor q) c' iv).
    split_and!; auto using q_contents_visited_at, q_visiteds_visited_at.
    + apply (cur_at q Hc). apply Nat.ltb_lt in Hh. lia.
    + intros j. by apply q_cursor_ok_first.
  - unfold q_closest_notvisited. rewrite Hh. split; [done|]. intros j Hj.
    apply (cur_before q Hc). apply Nat.ltb_ge in Hh. lia.
Qed.

(** [remove] of a neighbor that is in a well-formed queue and is the first one at its
    distance succeeds and deletes exactly that item. *)
Theorem remove_first_at_distance q n i :
  q_wf q → q_contents q !! i = Some n →
  (∀ j m, j < i → q_contents q !! j = Some m →
          f32_lt (nbr_distance m) (nbr_distance n) = true) →
  ∃ q', q_remove q n = Some (q', true) ∧ q_wf q' ∧ q_contents q' = delete i (q_contents q).
Proof.
  intros Hq Hi Hlt.
  assert (i < q_size q) as His
    by (rewrite <-(length_q_contents q) by done; by eapply lookup_lt_Some).
  assert (q_distances q !! i = Some (nbr_distance n)) as Hd
    by (by rewrite q_distances_lookup, Hi).
  assert (is_nan (nbr_distance n) = false) as Hn
    by (pose proof (wf_nan q Hq) as HF; rewrite Forall_lookup in HF; eauto).
  assert (lower_bound (q_distances q) (nbr_distance n) = i) as Hlb.
  { destruct (Nat.lt_trichotomy (lower_bound (q_distances q) (nbr_distance n)) i)
      as [Hl|[Hl|Hl]]; [|done|].
    - destruct (lookup_lt_is_Some_2 (q_contents q)
        (lower_bound (q_distances q) (nbr_distance n))) as [m Hm];
        [rewrite length_q_contents by done; lia|].
      pose proof (Hlt _ _ Hl Hm) as Hm'.
      assert (f32_ge (nbr_distance m) (nbr_distance n) = true) as Hge.
      { apply (lower_bound_at (q_distances q)).
        by rewrite q_distances_lookup, Hm. }
      apply f32_lt_not_nan in Hm' as Hnn. destruct Hnn.
      apply f32_not_lt in Hge; [congruence|done|done].
    - apply (lower_bound_before _ (nbr_distance n)) in Hd; [|done].
      unfold f32_ge in Hd. fold (f32_le (nbr_distance n) (nbr_distance n)) in Hd.
      rewrite f32_le_refl in Hd; done. }
  exists (q_removed_at q i). rewrite (q_remove_eq q n Hq), Hlb, Hi.
  rewrite bool_decide_eq_true_2 by done.
  auto using q_removed_at_wf, q_removed_at_contents.
Qed.

(** [retain] on a well-formed queue does not panic; the contents become the items the
    predicate accepts, in their order, all unvisited, and the queue stays well formed. *)
Theorem retain_filters q f :
  q_wf q →
  ∃ q', q_retain q f = Some q' ∧ q_wf q' ∧
    q_contents q' = List.filter f (q_contents q) ∧
    Forall (λ b, b = false) (q_visiteds q').
Proof. intros Hq. destruct (q_retain_ok q f Hq) as (q' & ? & ? & ? & ? & _). eauto. Qed.

End properties.

(** ** Concrete queues, for the witnesses and the two surprising cases *)

Definition nb (i d : Z) : Neighbor Z := mkNeighbor i (f32_of_Z d).

(** Three items at distances 1, 2, 2, the first two visited. *)
Definition q_demo : NeighborPriorityQueue Z :=
  mkQueue 3 3 2 [(10, true); (11, true); (12, false)]%Z
    [f32_of_Z 1; f32_of_Z 2; f32_of_Z 2] false 3.

Lemma q_demo_wf : q_wf q_demo.
Proof. split; repeat constructor; try done. Defined.

Lemma q_demo_cursor_ok : q_cursor_ok q_demo.
Proof. split; simpl; [lia| |done]. intros [|[|i]] ?; [done..|lia]. Defined.

Lemma insert_keeps_closest_witness :
  ∃ q', q_insert true q_demo (nb 7 2) = Some q' ∧ insert_post q_demo (nb 7 2) q'.
Proof.
  apply insert_keeps_closest; [apply q_demo_wf|right; simpl; lia|reflexivity|].
  intros _. vm_compute. intros H. repeat (inversion H as [|????H']; subst; clear H; rename H' into H).
Defined.

Lemma insert_all_closest_witness :
  ∃ q dropped, q_insert_all false (q_new 2) [nb 1 5; nb 2 3; nb 3 4] = Some q ∧
    StronglySorted nbr_le (q_contents q) ∧
    [nb 1 5; nb 2 3; nb 3 4] ≡ₚ q_contents q ++ dropped ∧
    length (q_contents q) = 2 `min` length [nb 1 5; nb 2 3; nb 3 4] ∧
    (∀ x y, x ∈ q_contents q → y ∈ dropped → nbr_le x y).
Proof. apply insert_all_closest; [lia|]. repeat constructor. Defined.

Lemma closest_notvisited_correct_witness :
  ∃ n q', q_closest_notvisited q_demo = Some (q', Some n) ∧ q_visiteds q' = [true; true; true].
Proof.
  destruct (closest_notvisited_correct q_demo q_demo_wf q_demo_cursor_ok)
    as (n & q' & H1 & _ & _ & _ & _ & H2 & _).
  exists n, q'. split; [exact H1|exact H2].
Defined.

Lemma remove_first_at_distance_witness :
  ∃ q', q_remove q_demo (nb 11 2) = Some (q', true) ∧ q_wf q' ∧
    q_contents q' = delete 1 (q_contents q_demo).
Proof.
  apply remove_first_at_distance; [apply q_demo_wf|reflexivity|].
  intros [|j] m Hj Hm; [|lia]. injection Hm as <-. reflexivity.
Defined.

Lemma retain_filters_witness :
  ∃ q', q_retain q_demo (λ n, bool_decide (nbr_id n = 11%Z)) = Some q' ∧ q_wf q' ∧
    q_contents q' = List.filter (λ n, bool_decide (nbr_id n = 11%Z)) (q_contents q_demo) ∧
    Forall (λ b, b = false) (q_visiteds q').
Proof. apply retain_filters, q_demo_wf. Defined.

(** [remove] only looks at the first item at the distance it is given, so an item that
    ties in distance with an earlier one is not found: the call returns [false] and leaves
    the item in the queue. *)
Theorem remove_misses_tie :
  nb 12 2 ∈ q_contents q_demo ∧ q_remove q_demo (nb 12 2) = Some (q_demo, false).
Proof.
  split; [|reflexivity]. eapply (list_elem_of_lookup_2 _ 2). reflexivity.
Qed.

(** When [retain] keeps every item it marks all of them unvisited but does not move the
    cursor, so items before the cursor are unvisited and [closest_notvisited] skips them. *)
Theorem retain_all_keeps_cursor :
  ∃ q', q_retain q_demo (λ _, true) = Some q' ∧
    q_visiteds q' = [false; false; false] ∧ q_cursor q' = 2 ∧
    ∃ q'', q_closest_notvisited q' = Some (q'', Some (nb 12 2)) ∧
      q_has_notvisited_node q'' = false.
Proof. eexists. repeat split. eexists. by split. Qed.
