(* ===== verification/QueueInterface.v ===== *)
(** * The interface of the candidate queues

    Models the trait [NeighborQueue] of [diskann/src/neighbor/queue.rs], through which graph
    search uses its queue of candidates, and states what search relies on.

    - Class [NeighborQueue]: the operations of the trait;
    - Class [NeighborQueueLaws]: an insertion adds one unvisited item and may drop some, a visit
      marks one item and makes progress, [iter] yields the best items;
    - Class [NeighborQueueClosest]: what is dropped is no closer than what is kept;
    - the instances for [NeighborPriorityQueue]. *)

From S2P Require Import Prelude F32 Neighbor NeighborQueue.

(** [trait NeighborQueue] *)
Class NeighborQueue (I Q : Type) := {
  nq_insert : Q → Neighbor I → option Q;
  nq_get : Q → nat → option (Neighbor I);
  nq_closest_notvisited : Q → option (Q * option (Neighbor I));
  nq_has_notvisited_node : Q → bool;
  nq_size : Q → nat;
  nq_capacity : Q → nat;
  nq_search_l : Q → nat;
  nq_clear : Q → Q;
  nq_iter : Q → option (list (Neighbor I));
}.

(** The laws, on the items of the queue with their visited flags. *)
Class NeighborQueueLaws (I Q : Type) `{NeighborQueue I Q} := {
  nq_ok : Q → Prop;
  nq_entries : Q → list (Neighbor I * bool);
  (** an upper bound on the visits that are left *)
  nq_pending : Q → nat;
  nq_insert_ok : ∀ q n,
    nq_ok q → nbr_id n ∉ nbr_id ∘ fst <$> nq_entries q →
    ∃ q' dropped, nq_insert q n = Some q' ∧ nq_ok q' ∧
      nq_pending q' ≤ S (nq_pending q) ∧ nq_search_l q' = nq_search_l q ∧
      (n, false) :: nq_entries q ≡ₚ nq_entries q' ++ dropped;
  nq_visit_ok : ∀ q,
    nq_ok q → nq_has_notvisited_node q = true →
    ∃ q' n k b, nq_closest_notvisited q = Some (q', Some n) ∧ nq_ok q' ∧
      nq_pending q' < nq_pending q ∧ nq_search_l q' = nq_search_l q ∧
      nq_entries q !! k = Some (n, b) ∧ nq_entries q' = <[k := (n, true)]> (nq_entries q);
  nq_visit_none : ∀ q,
    nq_ok q → nq_has_notvisited_node q = false →
    nq_closest_notvisited q = Some (q, None) ∧
    Forall (λ e, e.2 = true) (take (nq_search_l q) (nq_entries q));
  nq_iter_ok : ∀ q, nq_ok q → nq_iter q = Some (fst <$> take (nq_search_l q) (nq_entries q));
  nq_size_ok : ∀ q, nq_ok q → nq_size q = length (nq_entries q);
}.

(** The queue holds the closest of the items [all]: what is missing has no distance or is no
    closer than what is there, and then the queue is full. *)
Definition closest_of {I} (full : Prop) (kept all : list (Neighbor I)) : Prop :=
  ∃ dropped, all ≡ₚ kept ++ dropped ∧
    ∀ y, y ∈ dropped →
      is_nan (nbr_distance y) = true ∨ (full ∧ ∀ x, x ∈ kept → nbr_le x y).

Class NeighborQueueClosest (I Q : Type) `{NeighborQueueLaws I Q} := {
  nq_full : Q → Prop;
  nq_insert_closest : ∀ q n q' all,
    nq_ok q → nbr_id n ∉ nbr_id ∘ fst <$> nq_entries q → nq_insert q n = Some q' →
    closest_of (nq_full q) (nq_entries q).*1 all →
    closest_of (nq_full q') (nq_entries q').*1 (n :: all);
  nq_visit_full : ∀ q q' o, nq_ok q → nq_closest_notvisited q = Some (q', o) →
    nq_full q → nq_full q';
}.

(** ** The priority queue *)

Section priority_queue.
Context {I : Type} `{!EqDecision I} (debug : bool).
Implicit Types q : NeighborPriorityQueue I.

#[export] Instance priority_queue_ops : NeighborQueue I (NeighborPriorityQueue I) := {|
  nq_insert := q_insert debug;
  nq_get := q_get;
  nq_closest_notvisited := q_closest_notvisited;
  nq_has_notvisited_node := q_has_notvisited_node;
  nq_size := q_size;
  nq_capacity := q_capacity;
  nq_search_l := q_search_param_l;
  nq_clear := q_clear;
  nq_iter := q_iter;
|}.

Record pq_ok q : Prop := {
  pq_wf : q_wf q;
  pq_cursor : q_cursor_weak q;
  pq_can_insert : q_can_insert q;
}.

Lemma q_entries_contents q : (q_entries q).*1 = q_contents q.
Proof.
  unfold q_entries, q_contents. generalize (q_id_visiteds q) (q_distances q).
  induction l as [|iv l IH]; intros [|d ds]; simpl; f_equal; auto.
Qed.

Lemma q_entries_visiteds q : q_wf q → (q_entries q).*2 = q_visiteds q.
Proof.
  intros Hq. unfold q_entries, q_visiteds.
  assert (length (q_id_visiteds q) = length (q_distances q)) as Hl
    by (by rewrite wf_ivs, wf_ds by done).
  revert Hl. generalize (q_id_visiteds q) (q_distances q).
  induction l as [|iv l IH]; intros [|d ds]; simpl; intros ?; f_equal; auto; lia.
Qed.

Lemma q_entries_ids q : q_wf q → nbr_id ∘ fst <$> q_entries q = q_ids q.
Proof. intros Hq. by rewrite list_fmap_compose, q_entries_contents, q_contents_ids. Qed.

Lemma length_q_entries q : q_wf q → length (q_entries q) = q_size q.
Proof. intros Hq. by rewrite <-(length_q_contents q Hq), <-q_entries_contents, length_fmap. Qed.

Lemma q_insert_nan q n : is_nan (nbr_distance n) = true → q_insert debug q n = Some q.
Proof. intros Hn. unfold q_insert. by rewrite Hn. Qed.

Lemma pq_insert_ok q n :
  pq_ok q → nbr_id n ∉ nbr_id ∘ fst <$> q_entries q →
  ∃ q' dropped, q_insert debug q n = Some q' ∧ pq_ok q' ∧
    q_pending q' ≤ S (q_pending q) ∧ q_search_param_l q' = q_search_param_l q ∧
    (n, false) :: q_entries q ≡ₚ q_entries q' ++ dropped.
Proof.
  intros [Hq Hc Hi] Hn. rewrite q_entries_ids in Hn by done.
  destruct (is_nan (nbr_distance n)) eqn:En.
  { exists q, [(n, false)]. rewrite q_insert_nan by done. split_and!; [done|done|lia|done|].
    by rewrite Permutation_app_comm. }
  destruct (q_insert_ok debug q n Hq Hi En) as (q' & Hrun & Hp); [done|].
  pose proof (ip_entries _ _ _ Hp) as [dr Hdr].
  exists q', dr. split_and!; [done| |apply Hp|apply Hp|done].
  split; [apply Hp|by apply Hp|]. unfold q_can_insert in *.
  rewrite (ip_resizable _ _ _ Hp). destruct (q_auto_resizable q) eqn:Er; [by left|].
  right. rewrite (ip_capacity _ _ _ Hp Er). by destruct Hi.
Qed.

Lemma count_unvisited_visit (l : list bool) c (b : bool) :
  l !! c = Some b →
  count_unvisited (<[c := true]> l) + (if b then 0 else 1) = count_unvisited l.
Proof.
  intros Hc. rewrite <-(take_drop_middle l c b Hc) at 2.
  rewrite insert_take_drop by (by eapply lookup_lt_Some).
  rewrite !count_unvisited_app. unfold count_unvisited. destruct b; simpl; lia.
Qed.

Lemma pq_visit_ok q :
  pq_ok q → q_has_notvisited_node q = true →
  ∃ q' n k b, q_closest_notvisited q = Some (q', Some n) ∧ pq_ok q' ∧
    q_pending q' < q_pending q ∧ q_search_param_l q' = q_search_param_l q ∧
    q_entries q !! k = Some (n, b) ∧ q_entries q' = <[k := (n, true)]> (q_entries q).
Proof.
  intros [Hq Hc Hi] Hh.
  destruct (q_closest_notvisited_ok q Hq Hc Hh) as (n & iv & c' & Hn & Hiv & Hrun & Hq' & Hc').
  set (q' := q_visited_at q (q_cursor q) c' iv) in *.
  assert (q_visiteds q !! q_cursor q = Some iv.2) as Hv
    by (unfold q_visiteds; by rewrite list_lookup_fmap, Hiv).
  exists q', n, (q_cursor q), iv.2. split_and!; [done| | |done| |].
  - split; [done|by apply q_cursor_ok_weak|done].
  - unfold q_pending. rewrite Hv. unfold q' at 1. rewrite q_visiteds_visited_at.
    assert (match q_visiteds q' !! q_cursor q' with Some true => 1 | _ => 0 end = 0) as ->.
    { destruct (decide (q_cursor q' < q_size q')) as [Hl|Hl].
      - by rewrite (cur_at _ Hc' Hl).
      - rewrite lookup_ge_None_2; [done|]. unfold q_visiteds. rewrite length_fmap, wf_ivs by done.
        lia. }
    pose proof (count_unvisited_visit _ _ _ Hv). destruct iv.2; lia.
  - unfold q_entries. rewrite lookup_zip_with, Hiv. cbn [mbind option_bind].
    rewrite q_distances_lookup, Hn by done. simpl. unfold q_entry.
    rewrite q_contents_lookup in Hn. unfold q_get_unchecked in Hn. rewrite Hiv in Hn.
    cbn [mbind option_bind] in Hn. destruct (q_distances q !! q_cursor q); by simplify_eq/=.
  - unfold q_entries. apply list_eq. intros i. rewrite lookup_zip_with. simpl.
    rewrite q_contents_lookup in Hn. unfold q_get_unchecked in Hn. rewrite Hiv in Hn.
    cbn [mbind option_bind] in Hn.
    destruct (q_distances q !! q_cursor q) as [d|] eqn:Ed; simplify_eq/=.
    destruct (decide (i = q_cursor q)) as [->|].
    + rewrite !list_lookup_insert_eq; [by rewrite Ed| |by eapply lookup_lt_Some].
      rewrite length_zip_with. apply lookup_lt_Some in Hiv, Ed. lia.
    + rewrite !list_lookup_insert_ne by done. by rewrite lookup_zip_with.
Qed.

Lemma pq_visit_none q :
  pq_ok q → q_has_notvisited_node q = false →
  q_closest_notvisited q = Some (q, None) ∧
  Forall (λ e, e.2 = true) (take (q_search_param_l q) (q_entries q)).
Proof.
  intros [Hq [Hc1 Hc2] Hi] Hh. unfold q_closest_notvisited. rewrite Hh. split; [done|].
  apply Forall_lookup. intros i e He.
  pose proof (lookup_lt_Some _ _ _ He) as Hl. rewrite length_take, length_q_entries in Hl by done.
  apply Nat.ltb_ge in Hh. rewrite lookup_take_lt in He by lia.
  specialize (Hc2 i ltac:(lia)). rewrite <-q_entries_visiteds, list_lookup_fmap, He in Hc2 by done.
  by simplify_eq/=.
Qed.

Lemma q_iter_wf q :
  q_wf q → q_iter q = Some (fst <$> take (q_search_param_l q) (q_entries q)).
Proof.
  intros Hq. unfold q_iter. apply mapM_Some_2.
  rewrite fmap_take, q_entries_contents.
  replace (take (q_search_param_l q) (q_contents q))
    with (take (q_search_param_l q `min` q_size q) (q_contents q)).
  2:{ destruct (decide (q_search_param_l q ≤ q_size q)); [by rewrite Nat.min_l|].
      rewrite Nat.min_r, !take_ge by (rewrite ?length_q_contents by done; lia). done. }
  apply Forall2_lookup. intros i. destruct (decide (i < q_search_param_l q `min` q_size q)).
  - rewrite lookup_seq_lt, lookup_take_lt by lia.
    destruct (lookup_lt_is_Some_2 (q_contents q) i) as [n Hn];
      [rewrite length_q_contents by done; lia|].
    rewrite Hn. constructor. unfold q_get. rewrite (proj2 (Nat.ltb_lt _ _)) by lia. simpl.
    by rewrite <-q_contents_lookup.
  - rewrite lookup_seq_ge, lookup_take_ge by lia. constructor.
Qed.

Lemma pq_iter_ok q :
  pq_ok q → q_iter q = Some (fst <$> take (q_search_param_l q) (q_entries q)).
Proof. intros [Hq _ _]. by apply q_iter_wf. Qed.

#[export] Instance priority_queue_laws : NeighborQueueLaws I (NeighborPriorityQueue I) := {|
  nq_ok := pq_ok;
  nq_entries := q_entries;
  nq_pending := q_pending;
  nq_insert_ok := pq_insert_ok;
  nq_visit_ok := pq_visit_ok;
  nq_visit_none := pq_visit_none;
  nq_iter_ok := pq_iter_ok;
  nq_size_ok q H := eq_sym (length_q_entries q (pq_wf q H));
|}.

Lemma q_is_full_insert q n q' :
  q_wf q → insert_post q n q' → q_is_full q = true → q_is_full q' = true.
Proof.
  intros Hq Hp Hf. unfold q_is_full in Hf. apply andb_true_iff in Hf as [Hr Hs].
  apply negb_true_iff in Hr. apply Nat.eqb_eq in Hs.
  destruct (ip_contents _ _ _ Hp) as (dr & Hdr & Hl & _).
  unfold q_is_full in *. rewrite (ip_resizable _ _ _ Hp), (ip_capacity _ _ _ Hp Hr), Hr. simpl.
  rewrite Hr, (proj2 (Nat.eqb_eq _ _) Hs) in Hl. simpl in Hl.
  apply Permutation_length in Hdr. rewrite length_app in Hdr. cbn [length] in Hdr.
  rewrite !length_q_contents in Hdr by (done || apply Hp). apply Nat.eqb_eq. lia.
Qed.

Lemma pq_insert_closest q n q' all :
  pq_ok q → nbr_id n ∉ nbr_id ∘ fst <$> q_entries q → q_insert debug q n = Some q' →
  closest_of (q_is_full q = true) (q_entries q).*1 all →
  closest_of (q_is_full q' = true) (q_entries q').*1 (n :: all).
Proof.
  intros [Hq Hc Hi] Hn Hrun. rewrite q_entries_ids in Hn by done. rewrite !q_entries_contents.
  intros (dropped & Hall & Hdrop). destruct (is_nan (nbr_distance n)) eqn:En.
  { rewrite q_insert_nan in Hrun by done. simplify_eq. exists (n :: dropped). split.
    - by rewrite Hall, Permutation_middle.
    - intros y [->|Hy]%elem_of_cons; [by left|by apply Hdrop]. }
  destruct (q_insert_ok debug q n Hq Hi En) as (q1 & Hrun1 & Hp); [done|].
  rewrite Hrun in Hrun1. simplify_eq. destruct (ip_contents _ _ _ Hp) as (dr & Hdr & Hl & Hle).
  exists (dr ++ dropped). split; [by rewrite Hall, app_comm_cons, Hdr, (assoc_L (++))|].
  intros y [Hy|Hy]%elem_of_app.
  { right. split; [|intros x Hx; by apply Hle]. eapply q_is_full_insert; eauto.
    destruct (q_is_full q); [done|]. destruct dr; [|done]. by apply elem_of_nil in Hy. }
  destruct (Hdrop y Hy) as [?|[Hf Hkept]]; [by left|right].
  split; [by eapply q_is_full_insert|]. rewrite Hf in Hl. destruct dr as [|d []]; simplify_eq/=.
  intros x Hx.
  assert (x ∈ n :: q_contents q) as Hx' by (rewrite Hdr, elem_of_app; by left).
  apply elem_of_cons in Hx' as [->|Hx']; [|by apply Hkept].
  assert (d ∈ n :: q_contents q) as Hd by (rewrite Hdr, elem_of_app; right; by left).
  apply elem_of_cons in Hd as [->|Hd].
  - rewrite (Permutation_app_comm _ [n]) in Hdr. apply Permutation_cons_inv in Hdr.
    apply Hkept. by rewrite Hdr.
  - trans d; [apply Hle; [done|by left]|by apply Hkept].
Qed.

Lemma pq_visit_full q q' o :
  pq_ok q → q_closest_notvisited q = Some (q', o) → q_is_full q = true → q_is_full q' = true.
Proof.
  intros [Hq Hc _] Hrun Hf. destruct (q_has_notvisited_node q) eqn:Hh.
  - destruct (q_closest_notvisited_ok q Hq Hc Hh) as (n & iv & c' & _ & _ & Hrun' & _).
    rewrite Hrun in Hrun'. by simplify_eq.
  - unfold q_closest_notvisited in Hrun. rewrite Hh in Hrun. by simplify_eq.
Qed.

#[export] Instance priority_queue_closest :
  NeighborQueueClosest I (NeighborPriorityQueue I) := {|
  nq_full q := q_is_full q = true;
  nq_insert_closest := pq_insert_closest;
  nq_visit_full := pq_visit_full;
|}.

(** A fresh queue. *)
Lemma pq_ok_new l : 0 < l → pq_ok (q_new (I := I) l).
Proof.
  intros Hl. split; [split; simpl; try lia; constructor|split; simpl; lia|right; simpl; lia].
Qed.

Lemma pq_ok_resizable l : pq_ok (q_auto_resizable_with_search_param_l (I := I) l).
Proof. split; [split; simpl; try lia; constructor|split; simpl; lia|by left]. Qed.

End priority_queue.
