(* ===== verification/DiverseQueue.v ===== *)
(** * The diverse neighbor queue

    Models [diskann/src/neighbor/diverse_priority_queue.rs]: a queue of the best candidates of
    which only so many may share the value of an attribute.  It keeps a global queue and one
    local queue per attribute value, and moves every change from one to the other.

    - Section [operations]: [DiverseNeighborQueue] and its implementation of [NeighborQueue];
    - Section [laws]: it meets the interface [NeighborQueueLaws] that graph search relies on;
    - Section [exact]: when distances are distinct, it holds the closest candidates under the
      constraint, the abstract specification [diverse_best];
    - when distances tie, the constraint can be violated. *)

From S2P Require Import Prelude F32 Neighbor NeighborQueue QueueInterface.

(** [x * y] on [usize]. *)
Definition usize_mul (x y : nat) : option nat :=
  if (Z.of_nat x * Z.of_nat y <? 2 ^ 64)%Z then Some (x * y) else None.

(** [VectorIdWithAttribute] is a pair. *)
Record DiverseNeighborQueue (I V : Type) `{Countable V} : Type := mkDiverse {
  dq_global : NeighborPriorityQueue (I * V);
  dq_locals : gmap V (NeighborPriorityQueue I);
  dq_results_l : nat;
  dq_results_k : nat;
}.
Arguments mkDiverse {I V _ _} _ _ _ _.
Arguments dq_global {I V _ _} _.
Arguments dq_locals {I V _ _} _.
Arguments dq_results_l {I V _ _} _.
Arguments dq_results_k {I V _ _} _.

Section operations.
Context {I V : Type} `{Countable I} `{Countable V}.
Variables (debug : bool) (attribute : I → option V).
Local Abbreviation D := (DiverseNeighborQueue I V).
Implicit Types (d : D) (nbr : Neighbor I).

(** [new] *)
Definition d_new (l_value k_value diverse_results_k : nat) : option D :=
  p ← usize_mul diverse_results_k l_value;
  Some (mkDiverse (q_new l_value) ∅ (p / k_value) diverse_results_k).

Definition with_attribute (v : V) nbr : Neighbor (I * V) :=
  mkNeighbor (nbr_id nbr, v) (nbr_distance nbr).
Definition without_attribute (n : Neighbor (I * V)) : Neighbor I :=
  mkNeighbor (nbr_id n).1 (nbr_distance n).

(** Case 1 of [insert]: both queues have space. *)
Definition insert_both d (v : V) (local : NeighborPriorityQueue I)
    (global : NeighborPriorityQueue (I * V)) nbr : option D :=
  local ← q_insert debug local nbr;
  global ← q_insert debug global (with_attribute v nbr);
  Some (mkDiverse global (<[v := local]> (dq_locals d)) (dq_results_l d) (dq_results_k d)).

(** Case 2: the local queue is full. *)
Definition insert_local_full d (v : V) (local : NeighborPriorityQueue I) nbr : option D :=
  i ← usub (dq_results_l d) 1;
  worst ← q_get local i;
  if f32_lt (nbr_distance nbr) (nbr_distance worst) then
    '(global, _) ← q_remove (dq_global d) (with_attribute v worst);
    insert_both d v local global nbr
  else Some (mkDiverse (dq_global d) (<[v := local]> (dq_locals d)) (dq_results_l d)
               (dq_results_k d)).

(** Case 3: the local queue has space but the global queue is full. *)
Definition insert_global_full d (v : V) (local : NeighborPriorityQueue I) nbr : option D :=
  i ← usub (q_search_param_l (dq_global d)) 1;
  worst ← q_get (dq_global d) i;
  if f32_lt (nbr_distance nbr) (nbr_distance worst) then
    d ← insert_both d v local (dq_global d) nbr;
    match dq_locals d !! (nbr_id worst).2 with
    | Some local =>
        '(local, _) ← q_remove local (without_attribute worst);
        Some (mkDiverse (dq_global d) (<[(nbr_id worst).2 := local]> (dq_locals d))
                (dq_results_l d) (dq_results_k d))
    | None => Some d
    end
  else Some (mkDiverse (dq_global d) (<[v := local]> (dq_locals d)) (dq_results_l d)
               (dq_results_k d)).

(** [insert]; [local] is the queue of the attribute, created when it is missing. *)
Definition d_insert d nbr : option D :=
  match attribute (nbr_id nbr) with
  | None => Some d
  | Some v =>
      let local := default (q_new (dq_results_l d)) (dq_locals d !! v) in
      let local_full := q_is_full local in
      let global_full := q_is_full (dq_global d) in
      if negb local_full && negb global_full then insert_both d v local (dq_global d) nbr
      else if local_full then insert_local_full d v local nbr
      else insert_global_full d v local nbr
  end.

(** The loop of [post_process] over the local queues. *)
Fixpoint trim_locals (k : nat) (locals : list (V * NeighborPriorityQueue I)) :
    option (gset I * list (V * NeighborPriorityQueue I)) :=
  match locals with
  | [] => Some (∅, [])
  | (v, local) :: locals =>
      '(removed, locals) ← trim_locals k locals;
      if k <? q_size local then
        items ← q_iter local;
        Some (list_to_set (nbr_id <$> drop k items) ∪ removed,
              (v, q_truncate local k) :: locals)
      else Some (removed, (v, local) :: locals)
  end.

(** [post_process]; the order in which the map is traversed does not matter. *)
Definition d_post_process d : option D :=
  '(removed, locals) ← trim_locals (dq_results_k d) (map_to_list (dq_locals d));
  global ←
    (if bool_decide (removed = ∅) then Some (dq_global d)
     else q_retain (dq_global d) (λ n, negb (bool_decide ((nbr_id n).1 ∈ removed))));
  Some (mkDiverse global (list_to_map locals) (dq_results_l d) (dq_results_k d)).

(** [get] *)
Definition d_get d (index : nat) : option (Neighbor I) :=
  without_attribute <$> q_get (dq_global d) index.

(** [closest_notvisited] *)
Definition d_closest_notvisited d : option (D * option (Neighbor I)) :=
  '(global, o) ← q_closest_notvisited (dq_global d);
  Some (mkDiverse global (dq_locals d) (dq_results_l d) (dq_results_k d),
        option_map without_attribute o).

(** [clear] *)
Definition d_clear d : D :=
  mkDiverse (q_clear (dq_global d)) ∅ (dq_results_l d) (dq_results_k d).

(** [iter]: [get] at each index below [min(search_l, size)] *)
Definition d_iter d : option (list (Neighbor I)) :=
  mapM (d_get d) (seq 0 (q_search_param_l (dq_global d) `min` q_size (dq_global d))).

Definition diverse_ops : NeighborQueue I D := {|
  nq_insert := d_insert;
  nq_get := d_get;
  nq_closest_notvisited := d_closest_notvisited;
  nq_has_notvisited_node d := q_has_notvisited_node (dq_global d);
  nq_size d := q_size (dq_global d);
  nq_capacity d := q_capacity (dq_global d);
  nq_search_l d := q_search_param_l (dq_global d);
  nq_clear := d_clear;
  nq_iter := d_iter;
|}.

End operations.

(** ** The interface *)

(** Removing an item, or not finding it, keeps the queue usable. *)
Lemma pq_remove_ok {I} `{EqDecision I} (q : NeighborPriorityQueue I) n :
  pq_ok q →
  ∃ q' b dropped, q_remove q n = Some (q', b) ∧ pq_ok q' ∧ q_pending q' ≤ q_pending q ∧
    q_search_param_l q' = q_search_param_l q ∧ q_capacity q' = q_capacity q ∧
    q_auto_resizable q' = q_auto_resizable q ∧ q_entries q ≡ₚ q_entries q' ++ dropped.
Proof.
  intros [Hq [Hc1 Hc2] Hi]. rewrite q_remove_eq by done.
  set (i := lower_bound (q_distances q) (nbr_distance n)).
  assert (∃ q' b dropped, Some (q, false) = Some (q', b) ∧ pq_ok q' ∧ q_pending q' ≤ q_pending q ∧
    q_search_param_l q' = q_search_param_l q ∧ q_capacity q' = q_capacity q ∧
    q_auto_resizable q' = q_auto_resizable q ∧ q_entries q ≡ₚ q_entries q' ++ dropped) as Hsame.
  { exists q, false, []. rewrite app_nil_r. by split_and!. }
  destruct (q_contents q !! i) as [m|] eqn:Em; [|done]. case_bool_decide; [|done]. clear Hsame.
  assert (i < q_size q) as Hs by (rewrite <-(length_q_contents q Hq); by eapply lookup_lt_Some).
  set (q' := q_removed_at q i).
  assert (q_visiteds q' = delete i (q_visiteds q)) as Hv.
  { unfold q_visiteds, q'. cbn [q_id_visiteds q_removed_at].
    by rewrite fmap_app, fmap_take, fmap_drop, <-delete_take_drop. }
  assert (length (q_visiteds q) = q_size q) as Hlv
    by (unfold q_visiteds; by rewrite length_fmap, wf_ivs).
  assert (∃ e, q_entries q !! i = Some e) as [e He]
    by (apply lookup_lt_is_Some_2; by rewrite length_q_entries).
  exists q', true, [e]. split_and!; try done.
  - split; [by apply q_removed_at_wf| |done]. split; cbn [q' q_cursor q_size q_removed_at].
    + destruct (Nat.ltb_spec i (q_cursor q)); lia.
    + intros j Hj. fold q'. rewrite Hv. destruct (Nat.ltb_spec i (q_cursor q)).
      * destruct (decide (j < i)); [rewrite list_lookup_delete_lt by lia|rewrite list_lookup_delete_ge by lia];
          apply Hc2; lia.
      * rewrite list_lookup_delete_lt by lia. by apply Hc2.
  - unfold q_pending. rewrite Hv. destruct (lookup_lt_is_Some_2 (q_visiteds q) i) as [b Hb]; [lia|].
    assert (count_unvisited (q_visiteds q) =
      count_unvisited (delete i (q_visiteds q)) + (if b then 0 else 1)) as Hcnt.
    { rewrite <-(take_drop_middle _ _ _ Hb) at 1. rewrite delete_take_drop, !count_unvisited_app.
      unfold count_unvisited. destruct b; simpl; lia. }
    cbn [q' q_cursor q_removed_at]. destruct (Nat.ltb_spec i (q_cursor q)).
    + rewrite list_lookup_delete_ge by lia. replace (S (q_cursor q - 1)) with (q_cursor q) by lia. lia.
    + destruct (decide (i = q_cursor q)) as [->|].
      * rewrite Hb. destruct b; destruct (delete (q_cursor q) (q_visiteds q) !! q_cursor q) as [[]|]; lia.
      * rewrite list_lookup_delete_lt by lia. lia.
  - unfold q_entries, q'. cbn [q_id_visiteds q_distances q_removed_at].
    rewrite zip_with_app by (rewrite !length_take, wf_ivs, wf_ds; done).
    rewrite <-zip_with_take, <-zip_with_drop. fold (q_entries q).
    rewrite <-(take_drop_middle _ _ _ He) at 1.
    by rewrite <-Permutation_middle, Permutation_cons_append.
Qed.

(** A queue of fixed capacity [cap], whose cursor is not used. *)
Record fixed_queue {I} (cap : nat) (q : NeighborPriorityQueue I) : Prop := {
  fx_wf : q_wf q;
  fx_cap : q_capacity q = cap;
  fx_fixed : q_auto_resizable q = false;
  fx_search : q_search_param_l q = cap;
}.

Lemma fixed_queue_new {I} cap : fixed_queue cap (q_new (I := I) cap).
Proof. split; [split; simpl; try lia; constructor|done..]. Qed.

(** An insertion, in terms of the contents. *)
Lemma fixed_queue_insert {I} `{EqDecision I} debug cap (q : NeighborPriorityQueue I) n :
  fixed_queue cap q → 0 < cap → (debug = true → nbr_id n ∉ q_ids q) →
  ∃ q' dropped, q_insert debug q n = Some q' ∧ fixed_queue cap q' ∧
    n :: q_contents q ≡ₚ q_contents q' ++ dropped ∧
    (is_nan (nbr_distance n) = false →
     length dropped = (if q_is_full q then 1 else 0) ∧
     ∀ x y, x ∈ q_contents q' → y ∈ dropped → nbr_le x y).
Proof.
  intros [Hq Hcap Hfix Hsl] Hpos Hfresh. destruct (is_nan (nbr_distance n)) eqn:En.
  { exists q, [n]. rewrite q_insert_nan by done. split_and!; try done.
    by rewrite Permutation_app_comm. }
  destruct (q_insert_ok debug q n Hq) as (q' & Hrun & Hp); [right; lia|done|done|].
  destruct (ip_contents _ _ _ Hp) as (dr & Hdr & Hl & Hle). exists q', dr. split_and!; try done.
  split; [apply Hp|by rewrite (ip_capacity _ _ _ Hp)|by rewrite (ip_resizable _ _ _ Hp)|].
  by rewrite (ip_search_l _ _ _ Hp).
Qed.

Lemma fixed_queue_remove {I} `{EqDecision I} cap (q : NeighborPriorityQueue I) n :
  fixed_queue cap q →
  ∃ q' b, q_remove q n = Some (q', b) ∧ fixed_queue cap q' ∧
    sublist (q_contents q') (q_contents q).
Proof.
  intros [Hq Hcap Hfix Hsl]. rewrite q_remove_eq by done.
  destruct (q_contents q !! _) as [m|] eqn:Em; [|by eexists _, _]. case_bool_decide; [|by eexists _, _].
  eexists _, _. split; [done|]. split.
  - split; try done. apply q_removed_at_wf; [done|].
    rewrite <-(length_q_contents q Hq). by eapply lookup_lt_Some.
  - rewrite q_removed_at_contents by done. apply sublist_delete.
Qed.

Section laws.
Context {I V : Type} `{Countable I} `{Countable V}.
Variable attribute : I → option V.
Local Abbreviation D := (DiverseNeighborQueue I V).
Implicit Types (d : D) (n : Neighbor I).

Record d_ok d : Prop := {
  dk_global : pq_ok (dq_global d);
  dk_fixed : fixed_queue (q_search_param_l (dq_global d)) (dq_global d);
  dk_pos : 0 < q_search_param_l (dq_global d);
  dk_l : 0 < dq_results_l d;
  dk_local : ∀ v lq, dq_locals d !! v = Some lq → fixed_queue (dq_results_l d) lq;
}.

Definition strip_entry (e : Neighbor (I * V) * bool) : Neighbor I * bool :=
  (without_attribute e.1, e.2).
Definition d_entries d : list (Neighbor I * bool) := strip_entry <$> q_entries (dq_global d).

Lemma d_entries_fresh d n v :
  nbr_id n ∉ nbr_id ∘ fst <$> d_entries d →
  nbr_id (with_attribute v n) ∉ nbr_id ∘ fst <$> q_entries (dq_global d).
Proof.
  intros Hn Hin. apply Hn. apply list_elem_of_fmap in Hin as (e & He & Hin).
  unfold d_entries. rewrite <-list_fmap_compose. apply list_elem_of_fmap. exists e.
  split; [|done]. simpl in *. by rewrite <-He.
Qed.

Lemma d_ok_local d v : d_ok d → fixed_queue (dq_results_l d) (default (q_new (dq_results_l d)) (dq_locals d !! v)).
Proof.
  intros Hd. destruct (dq_locals d !! v) eqn:E; [by eapply dk_local|apply fixed_queue_new].
Qed.

Lemma d_ok_insert_local d v lq :
  d_ok d → fixed_queue (dq_results_l d) lq →
  d_ok (mkDiverse (dq_global d) (<[v := lq]> (dq_locals d)) (dq_results_l d) (dq_results_k d)).
Proof.
  intros [H1 H2 H3 H4 H5] Hl. split; try done. simpl. intros v' lq'.
  destruct (decide (v = v')) as [->|]; [rewrite lookup_insert_eq|rewrite lookup_insert_ne by done];
    [intros; by simplify_eq|apply H5].
Qed.

(** What an insertion does, as the interface sees it. *)
Definition inserts d n d' : Prop :=
  d_ok d' ∧ q_pending (dq_global d') ≤ S (q_pending (dq_global d)) ∧
  q_search_param_l (dq_global d') = q_search_param_l (dq_global d) ∧
  ∃ dropped, (n, false) :: d_entries d ≡ₚ d_entries d' ++ dropped.

Lemma insert_skip d v lq n :
  d_ok d → fixed_queue (dq_results_l d) lq →
  inserts d n (mkDiverse (dq_global d) (<[v := lq]> (dq_locals d)) (dq_results_l d) (dq_results_k d)).
Proof.
  intros Hd Hl. split_and!; [by apply d_ok_insert_local|simpl; lia|done|].
  exists [(n, false)]. by rewrite Permutation_app_comm.
Qed.

(** [insert_both], after [global] lost some items. *)
Lemma insert_both_ok d v local global n removed :
  d_ok d → fixed_queue (dq_results_l d) local → pq_ok global →
  fixed_queue (q_search_param_l (dq_global d)) global → q_pending global ≤ q_pending (dq_global d) →
  q_entries (dq_global d) ≡ₚ q_entries global ++ removed →
  nbr_id n ∉ nbr_id ∘ fst <$> d_entries d →
  ∃ d', insert_both false d v local global n = Some d' ∧ inserts d n d'.
Proof.
  intros Hd Hl Hg Hfg Hp Hr Hn. unfold insert_both.
  destruct (fixed_queue_insert false _ local n Hl (dk_l d Hd) ltac:(done)) as (l' & _ & -> & Hl' & _).
  cbn [mbind option_bind]. apply (d_entries_fresh d n v) in Hn.
  assert (nbr_id (with_attribute v n) ∉ nbr_id ∘ fst <$> q_entries global) as Hn'.
  { intros Hin. apply Hn. rewrite Hr, fmap_app, elem_of_app. by left. }
  destruct (pq_insert_ok false global (with_attribute v n) Hg Hn') as (g' & dr & Hrun & Hok & Hp' & Hsl & Hperm).
  rewrite Hrun. cbn [mbind option_bind]. eexists. split; [done|].
  destruct (fixed_queue_insert false _ global (with_attribute v n) Hfg (dk_pos d Hd) ltac:(done))
    as (g1 & _ & Hrun1 & Hfg' & _). rewrite Hrun in Hrun1. simplify_eq.
  assert (q_search_param_l g1 = q_search_param_l (dq_global d)) as Hsl' by apply Hfg'.
  pose proof (d_ok_insert_local d v l' Hd Hl') as [_ _ H3 H4 H5].
  split_and!; [|simpl; lia|done|].
  - split; simpl; rewrite ?Hsl'; try done.
  - exists (strip_entry <$> dr ++ removed). unfold d_entries. simpl. rewrite <-fmap_app.
    change ((n, false) :: (strip_entry <$> q_entries (dq_global d))) with
      (([(n, false)] : list (Neighbor I * bool)) ++ (strip_entry <$> q_entries (dq_global d))).
    assert ((n, false) = strip_entry (with_attribute v n, false)) as -> by (by destruct n).
    rewrite Hr, fmap_app, (assoc_L (++) [_]). change ([?x] ++ ?l) with (x :: l).
    rewrite <-fmap_cons, Hperm, <-fmap_app. by rewrite <-(assoc_L (++)).
Qed.

Lemma d_insert_ok d n :
  d_ok d → nbr_id n ∉ nbr_id ∘ fst <$> d_entries d →
  ∃ d', d_insert false attribute d n = Some d' ∧ inserts d n d'.
Proof.
  intros Hd Hn. unfold d_insert. destruct (attribute (nbr_id n)) as [v|].
  2:{ exists d. split; [done|]. split_and!; [done|lia|done|]. exists [(n, false)].
      by rewrite Permutation_app_comm. }
  pose proof (d_ok_local d v Hd) as Hl. set (local := default _ _) in *.
  destruct (dk_fixed d Hd) as [Hgw Hgc Hgf Hgs].
  destruct (q_is_full local) eqn:El; cbn [negb andb].
  - unfold insert_local_full, usub. rewrite (proj2 (Nat.leb_le 1 _) (dk_l d Hd)). cbn [mbind option_bind].
    assert (q_size local = dq_results_l d) as Hsize.
    { unfold q_is_full in El. apply andb_true_iff in El as [_ ->%Nat.eqb_eq]. apply Hl. }
    assert (∃ w, q_get local (dq_results_l d - 1) = Some w) as [w ->].
    { pose proof (dk_l d Hd). unfold q_get. rewrite (proj2 (Nat.ltb_lt _ _)) by lia. cbn.
      rewrite <-q_contents_lookup. apply lookup_lt_is_Some_2.
      rewrite length_q_contents by apply Hl. lia. }
    cbn [mbind option_bind]. destruct (f32_lt _ _); [|by eexists; split; [done|apply insert_skip]].
    destruct (pq_remove_ok (dq_global d) (with_attribute v w) (dk_global d Hd))
      as (g' & b & dr & Hrun & Hok & Hp & Hsl & Hcap & Hfix & Hperm).
    rewrite Hrun. cbn [mbind option_bind].
    eapply insert_both_ok; eauto. split; [apply Hok|by rewrite Hcap|by rewrite Hfix|by rewrite Hsl].
  - destruct (q_is_full (dq_global d)) eqn:Eg; cbn [negb].
    2:{ by apply (insert_both_ok d v local (dq_global d) n [] Hd Hl (dk_global d Hd) (dk_fixed d Hd));
          rewrite ?app_nil_r. }
    unfold insert_global_full, usub. rewrite (proj2 (Nat.leb_le 1 _) (dk_pos d Hd)). cbn [mbind option_bind].
    assert (∃ w, q_get (dq_global d) (q_search_param_l (dq_global d) - 1) = Some w) as [w ->].
    { pose proof (dk_pos d Hd). unfold q_is_full in Eg. apply andb_true_iff in Eg as [_ Eg%Nat.eqb_eq].
      unfold q_get. rewrite (proj2 (Nat.ltb_lt _ _)) by lia. cbn.
      rewrite <-q_contents_lookup. apply lookup_lt_is_Some_2. rewrite length_q_contents by done. lia. }
    cbn [mbind option_bind]. destruct (f32_lt _ _); [|by eexists; split; [done|apply insert_skip]].
    destruct (insert_both_ok d v local (dq_global d) n [] Hd Hl (dk_global d Hd) (dk_fixed d Hd))
      as (d' & -> & Hd' & Hp & Hsl & Hdr); [done|by rewrite app_nil_r|done|].
    cbn [mbind option_bind]. destruct (dq_locals d' !! _) as [lw|] eqn:Elw; [|by exists d'].
    destruct (fixed_queue_remove _ lw (without_attribute w) (dk_local d' Hd' _ _ Elw)) as (lw' & b & -> & Hlw & _).
    cbn [mbind option_bind]. eexists. split; [done|]. split_and!; try done. by apply d_ok_insert_local.
Qed.

(** What an insertion can add to the global queue, and what it leaves alone. *)
Definition adds d n (v : V) d' : Prop :=
  (∀ x, x ∈ q_contents (dq_global d') → x ∈ q_contents (dq_global d) ∨ x = with_attribute v n) ∧
  dq_results_k d' = dq_results_k d.

Lemma insert_both_adds cap d v local global n d' :
  fixed_queue cap global → 0 < cap → sublist (q_contents global) (q_contents (dq_global d)) →
  insert_both false d v local global n = Some d' → adds d n v d'.
Proof.
  intros Hg Hpos Hsub Hrun. unfold insert_both in Hrun.
  apply bind_Some in Hrun as (l' & _ & Hrun). apply bind_Some in Hrun as (g' & Hg' & Hrun). simplify_eq.
  destruct (fixed_queue_insert false cap global (with_attribute v n) Hg Hpos ltac:(done))
    as (g1 & dr & Hg1 & _ & Hp & _). rewrite Hg' in Hg1. simplify_eq. split; [|done].
  intros x Hx. assert (x ∈ with_attribute v n :: q_contents global) as Hx'
    by (rewrite Hp, elem_of_app; by left).
  apply elem_of_cons in Hx' as [?|Hx']; [by right|left]. by eapply elem_of_sublist.
Qed.

Lemma d_insert_adds d n d' :
  d_ok d → d_insert false attribute d n = Some d' →
  match attribute (nbr_id n) with Some v => adds d n v d' | None => d' = d end.
Proof.
  intros Hd. unfold d_insert. destruct (attribute (nbr_id n)) as [v|]; [|by intros; simplify_eq].
  pose proof (dk_fixed d Hd) as Hg. pose proof (dk_pos d Hd) as Hpos.
  assert (adds d n v (mkDiverse (dq_global d) (<[v := default (q_new (dq_results_l d)) (dq_locals d !! v)]>
    (dq_locals d)) (dq_results_l d) (dq_results_k d))) as Hskip by (split; [by left|done]).
  destruct (_ && _); [by eapply insert_both_adds|].
  destruct (q_is_full _); intros Hrun.
  - unfold insert_local_full in Hrun. apply bind_Some in Hrun as (i & _ & Hrun).
    apply bind_Some in Hrun as (w & _ & Hrun). destruct (f32_lt _ _); [|by simplify_eq].
    destruct (fixed_queue_remove _ (dq_global d) (with_attribute v w) Hg) as (g1 & b & Hr & Hg1 & Hsub).
    rewrite Hr in Hrun. cbn [mbind option_bind] in Hrun.
    eapply insert_both_adds; [exact Hg1|exact Hpos|exact Hsub|exact Hrun].
  - unfold insert_global_full in Hrun. apply bind_Some in Hrun as (i & _ & Hrun).
    apply bind_Some in Hrun as (w & _ & Hrun). destruct (f32_lt _ _); [|by simplify_eq].
    apply bind_Some in Hrun as (d1 & Hd1 & Hrun).
    apply (insert_both_adds _ _ _ _ _ _ _ Hg Hpos) in Hd1; [|done].
    destruct (dq_locals d1 !! _); [|by simplify_eq].
    apply bind_Some in Hrun as ([l' b] & _ & Hrun). by simplify_eq.
Qed.

Lemma d_visit_global d q' :
  d_ok d → pq_ok q' → q_search_param_l q' = q_search_param_l (dq_global d) →
  q_capacity q' = q_capacity (dq_global d) → q_auto_resizable q' = q_auto_resizable (dq_global d) →
  d_ok (mkDiverse q' (dq_locals d) (dq_results_l d) (dq_results_k d)).
Proof.
  intros [H1 [H2 H2' H2'' H2'''] H3 H4 H5] Hq Hs Hc Hr. split; simpl; rewrite ?Hs; try done.
  split; [apply Hq|congruence..].
Qed.

Lemma d_visit_ok d :
  d_ok d → q_has_notvisited_node (dq_global d) = true →
  ∃ d' n k b, d_closest_notvisited d = Some (d', Some n) ∧ d_ok d' ∧
    q_pending (dq_global d') < q_pending (dq_global d) ∧
    q_search_param_l (dq_global d') = q_search_param_l (dq_global d) ∧
    d_entries d !! k = Some (n, b) ∧ d_entries d' = <[k := (n, true)]> (d_entries d).
Proof.
  intros Hd Hh. pose proof (dk_global d Hd) as Hg.
  destruct (pq_visit_ok (dq_global d) Hg Hh) as (q' & n & k & b & Hrun & Hok & Hp & Hsl & Hk & He).
  unfold d_closest_notvisited. rewrite Hrun. cbn [mbind option_bind option_map].
  eexists _, _, k, b. split_and!; [done| |done|done| |].
  - destruct (q_closest_notvisited_ok _ (pq_wf _ Hg) (pq_cursor _ Hg) Hh)
      as (m & iv & c' & _ & _ & Hrun' & _). rewrite Hrun in Hrun'. simplify_eq.
    by apply d_visit_global.
  - unfold d_entries. by rewrite list_lookup_fmap, Hk.
  - unfold d_entries. simpl. by rewrite He, list_fmap_insert.
Qed.

Lemma d_visit_none d :
  d_ok d → q_has_notvisited_node (dq_global d) = false →
  d_closest_notvisited d = Some (d, None) ∧
  Forall (λ e, e.2 = true) (take (q_search_param_l (dq_global d)) (d_entries d)).
Proof.
  intros Hd Hh. destruct (pq_visit_none _ (dk_global d Hd) Hh) as [Hrun Hall]. split.
  - unfold d_closest_notvisited. rewrite Hrun. cbn. by destruct d.
  - unfold d_entries. rewrite <-fmap_take. by apply Forall_fmap.
Qed.

Lemma d_iter_wf d :
  q_wf (dq_global d) →
  d_iter d = Some (fst <$> take (q_search_param_l (dq_global d)) (d_entries d)).
Proof.
  intros Hd. pose proof (q_iter_wf _ Hd) as Hit. unfold q_iter in Hit.
  unfold d_iter, d_entries. rewrite <-fmap_take, <-list_fmap_compose.
  apply mapM_Some_2. apply mapM_Some_1 in Hit. apply Forall2_fmap_r in Hit. apply Forall2_fmap_r.
  eapply Forall2_impl; [exact Hit|]. intros i e Hi. cbn in Hi. unfold d_get. by rewrite Hi.
Qed.

Lemma d_iter_ok d :
  d_ok d → d_iter d = Some (fst <$> take (q_search_param_l (dq_global d)) (d_entries d)).
Proof. intros Hd. by apply d_iter_wf, Hd. Qed.

Definition diverse_laws : NeighborQueueLaws I D (H := diverse_ops false attribute).
Proof.
  refine (Build_NeighborQueueLaws I D (diverse_ops false attribute) d_ok d_entries
    (λ d, q_pending (dq_global d)) _ d_visit_ok d_visit_none d_iter_ok _).
  - intros d n Hd Hn. destruct (d_insert_ok d n Hd Hn) as (d' & Hrun & H1 & H2 & H3 & dr & H4).
    by exists d', dr.
  - intros d Hd. unfold d_entries. rewrite length_fmap. symmetry. by apply length_q_entries, Hd.
Defined.

End laws.

(** ** Post-processing *)

Section post_process.
Context {I V : Type} `{Countable I} `{Countable V}.

Lemma fixed_iter cap (q : NeighborPriorityQueue I) :
  fixed_queue cap q → q_iter q = Some (q_contents q).
Proof.
  intros [Hq Hc _ Hs]. rewrite (q_iter_wf q Hq), fmap_take, q_entries_contents, take_ge; [done|].
  rewrite length_q_contents by done. rewrite Hs, <-Hc. apply Hq.
Qed.

Lemma trim_locals_ok k dl (ls : list (V * NeighborPriorityQueue I)) :
  (∀ v lq, (v, lq) ∈ ls → fixed_queue dl lq) →
  ∃ removed ls', trim_locals k ls = Some (removed, ls') ∧
    ∀ i, i ∈ removed ↔ ∃ v lq, (v, lq) ∈ ls ∧ i ∈ nbr_id <$> drop k (q_contents lq).
Proof.
  induction ls as [|[v lq] ls IH]; intros Hls; cbn [trim_locals].
  { eexists _, _. split; [done|]. intros i. split; [set_solver|]. by intros (? & ? & ?%elem_of_nil & _). }
  destruct IH as (rm & ls' & -> & Hrm); [intros v' lq' Hin; apply (Hls v'); by right|].
  cbn [mbind option_bind]. pose proof (Hls v lq ltac:(by left)) as Hq.
  assert (∀ i, (∃ v0 lq0, (v0, lq0) ∈ (v, lq) :: ls ∧ i ∈ nbr_id <$> drop k (q_contents lq0)) ↔
    i ∈ nbr_id <$> drop k (q_contents lq) ∨ i ∈ rm) as Hsplit.
  { intros i. rewrite Hrm. split.
    - intros (v0 & lq0 & [?|Hin]%elem_of_cons & Hi); [simplify_eq; by left|right; eauto].
    - intros [Hi|(v0 & lq0 & Hin & Hi)]; [exists v, lq|exists v0, lq0]; (split; [|done]); [by left|by right]. }
  destruct (Nat.ltb_spec k (q_size lq)) as [Hk|Hk].
  - rewrite (fixed_iter dl) by done. cbn [mbind option_bind]. eexists _, _. split; [done|].
    intros i. rewrite Hsplit, elem_of_union, elem_of_list_to_set. done.
  - eexists _, _. split; [done|]. intros i. rewrite Hsplit.
    rewrite drop_ge by (rewrite length_q_contents by apply Hq; lia). cbn. rewrite elem_of_nil. tauto.
Qed.

Lemma q_retain_search_l {J} (q q' : NeighborPriorityQueue J) f :
  q_retain q f = Some q' → q_search_param_l q' = q_search_param_l q.
Proof.
  unfold q_retain. destruct (_ =? _); [by intros; simplify_eq|]. intros Hr.
  apply bind_Some in Hr as ([[w ivs] ds] & _ & Hr). simplify_eq. unfold q_truncate. by case_match.
Qed.

(** Post-processing removes items from the global queue. *)
Lemma d_post_process_ok (d : DiverseNeighborQueue I V) :
  q_wf (dq_global d) → (∀ v lq, dq_locals d !! v = Some lq → fixed_queue (dq_results_l d) lq) →
  ∃ d' (removed : gset I), d_post_process d = Some d' ∧ q_wf (dq_global d') ∧
    q_contents (dq_global d') =
      List.filter (λ x, negb (bool_decide ((nbr_id x).1 ∈ removed))) (q_contents (dq_global d)) ∧
    q_search_param_l (dq_global d') = q_search_param_l (dq_global d) ∧
    ∀ i, i ∈ removed ↔ ∃ v lq, dq_locals d !! v = Some lq ∧
      i ∈ nbr_id <$> drop (dq_results_k d) (q_contents lq).
Proof.
  intros Hwf Hl. unfold d_post_process.
  destruct (trim_locals_ok (dq_results_k d) (dq_results_l d) (map_to_list (dq_locals d)))
    as (rm & ls' & -> & Hrm); [intros v lq Hin%elem_of_map_to_list; by eapply Hl|].
  cbn [mbind option_bind]. setoid_rewrite elem_of_map_to_list in Hrm.
  destruct (bool_decide_reflect (rm = ∅)) as [->|Hne]; cbn [mbind option_bind].
  - eexists _, ∅. split; [done|]. cbn [dq_global]. split_and!; try done.
    symmetry. apply List_filter_all. intros x _. rewrite bool_decide_false; [done|set_solver].
  - destruct (q_retain_ok (dq_global d) (λ n, negb (bool_decide ((nbr_id n).1 ∈ rm))) Hwf)
      as (g' & Hret & Hg' & Hgc & _). rewrite Hret. cbn [mbind option_bind].
    eexists _, rm. split; [done|]. cbn [dq_global]. split_and!; try done. by eapply q_retain_search_l.
Qed.

End post_process.

(** ** The abstract specification *)

Section spec.
Context {I V : Type} `{Countable V}.
Implicit Types (kept all : list (Neighbor (I * V))) (n x y : Neighbor (I * V)).

Definition value_of n : V := (nbr_id n).2.

(** The neighbors with the attribute value [v]. *)
Definition of_value (v : V) (l : list (Neighbor (I * V))) : list (Neighbor (I * V)) :=
  List.filter (λ n, bool_decide (value_of n = v)) l.

(** [y] does not belong to [kept]: its value is represented by [dl] neighbors that are no
    farther, or [kept] is full of such neighbors. *)
Definition excluded (l dl : nat) kept y : Prop :=
  (length (of_value (value_of y) kept) = dl ∧
   ∀ x, x ∈ kept → value_of x = value_of y → nbr_le x y) ∨
  (length kept = l ∧ ∀ x, x ∈ kept → nbr_le x y).

(** The closest of [all], at most [l] in total and [dl] of each attribute value: what is
    missing could not be added. *)
Definition diverse_best (l dl : nat) kept all : Prop :=
  length kept ≤ l ∧ (∀ v, length (of_value v kept) ≤ dl) ∧
  ∃ dropped, all ≡ₚ kept ++ dropped ∧ ∀ y, y ∈ dropped → excluded l dl kept y.

Lemma of_value_cons v n l :
  of_value v (n :: l) = if decide (value_of n = v) then n :: of_value v l else of_value v l.
Proof. unfold of_value. simpl. by case_decide; [rewrite bool_decide_true|rewrite bool_decide_false]. Qed.

Lemma of_value_perm v l k : l ≡ₚ k → of_value v l ≡ₚ of_value v k.
Proof. apply List_filter_perm. Qed.

Lemma elem_of_of_value v n l : n ∈ of_value v l ↔ n ∈ l ∧ value_of n = v.
Proof. unfold of_value. by rewrite elem_of_List_filter, bool_decide_eq_true. Qed.

Lemma excluded_perm l dl kept kept' y : kept ≡ₚ kept' → excluded l dl kept y → excluded l dl kept' y.
Proof.
  intros Hp [[Hl Hx]|[Hl Hx]]; [left|right]; split.
  - by rewrite <-(of_value_perm _ _ _ Hp).
  - intros x. rewrite <-Hp. apply Hx.
  - by rewrite <-Hp.
  - intros x. rewrite <-Hp. apply Hx.
Qed.

Lemma best_nil l dl : diverse_best l dl [] [].
Proof. split_and!; simpl; [lia|intros; lia|]. exists []. split; [done|]. by intros y Hy%elem_of_nil. Qed.

(** The new neighbor is not added. *)
Lemma best_skip l dl kept all n :
  diverse_best l dl kept all → excluded l dl kept n → diverse_best l dl kept (n :: all).
Proof.
  intros (H1 & H2 & dr & Hdr & Hx) Hn. split_and!; [done|done|]. exists (n :: dr). split.
  - by rewrite Hdr, Permutation_middle.
  - intros y [->|Hy]%elem_of_cons; auto.
Qed.

(** It is added. *)
Lemma best_add l dl kept kept' all n :
  diverse_best l dl kept all → length kept < l → length (of_value (value_of n) kept) < dl →
  kept' ≡ₚ n :: kept → diverse_best l dl kept' (n :: all).
Proof.
  intros (H1 & H2 & dr & Hdr & Hx) Hl Hdl Hk. split_and!.
  - rewrite Hk. simpl. lia.
  - intros v. rewrite (of_value_perm _ _ _ Hk), of_value_cons. case_decide; [subst; simpl; lia|done].
  - exists dr. split; [by rewrite Hdr, Hk|]. intros y Hy. apply (excluded_perm l dl (n :: kept)); [done|].
    destruct (Hx y Hy) as [[Hlen Hy']|[Hlen _]]; [|lia]. left.
    rewrite of_value_cons. case_decide as E; [rewrite <-E in Hlen; lia|]. split; [done|].
    intros x [->|Hxin]%elem_of_cons Hv; [done|by apply Hy'].
Qed.

(** It takes the place of a neighbor [w] with the same value. *)
Lemma best_replace_local l dl kept kept' rest all n w :
  diverse_best l dl kept all → kept ≡ₚ w :: rest → kept' ≡ₚ n :: rest →
  value_of w = value_of n → length (of_value (value_of n) kept) = dl →
  (∀ x, x ∈ kept → value_of x = value_of n → nbr_le x w) → nbr_le n w →
  diverse_best l dl kept' (n :: all).
Proof.
  intros (H1 & H2 & dr & Hdr & Hx) Hw Hk Hv Hlen Hworst Hn.
  assert (length kept' = length kept) as Hl by (by rewrite Hk, Hw).
  assert (∀ v, length (of_value v kept') = length (of_value v kept)) as Hlv.
  { intros v. rewrite (of_value_perm _ _ _ Hk), (of_value_perm v _ _ Hw), !of_value_cons, Hv.
    by case_decide. }
  assert (∀ x, x ∈ kept' → x = n ∨ x ∈ kept) as Hin.
  { intros x. rewrite Hk, Hw, !elem_of_cons. tauto. }
  assert (∀ y, (∀ x, x ∈ kept → value_of x = value_of y → nbr_le x y) → value_of y = value_of n →
    nbr_le n y) as Hny.
  { intros y Hy Hvy. trans w; [done|]. apply Hy; [rewrite Hw; by left|congruence]. }
  split_and!; [lia|by intros v; rewrite Hlv|]. exists (w :: dr). split.
  - rewrite Hdr, Hw, Hk, <-(Permutation_middle (n :: rest)). simpl. apply Permutation_swap.
  - intros y [->|Hy]%elem_of_cons.
    + left. rewrite Hlv, Hv. split; [done|]. intros x [->|Hxi]%Hin Hvx; [done|]. by apply Hworst.
    + destruct (Hx y Hy) as [[Hly Hy']|[Hly Hy']]; [left|right]; rewrite ?Hlv, ?Hl; (split; [done|]).
      * intros x [->|Hxi]%Hin Hvx; [|by apply Hy']. apply Hny; [done|congruence].
      * intros x [->|Hxi]%Hin; [|by apply Hy']. trans w; [done|]. apply Hy'. rewrite Hw. by left.
Qed.

(** It takes the place of the farthest neighbor [w] of a full queue. *)
Lemma best_replace_global l dl kept kept' all n w :
  diverse_best l dl kept all → n :: kept ≡ₚ w :: kept' → w ∈ kept → length kept = l →
  length (of_value (value_of n) kept) < dl → (∀ x, x ∈ kept → nbr_le x w) → nbr_le n w →
  diverse_best l dl kept' (n :: all).
Proof.
  intros (H1 & H2 & dr & Hdr & Hx) Hk Hwin Hlen Hroom Hworst Hn.
  assert (length kept' = l) as Hl by (apply Permutation_length in Hk; simpl in Hk; lia).
  assert (∀ x, x ∈ kept' → x = n ∨ x ∈ kept) as Hin.
  { intros x Hxi. assert (x ∈ n :: kept) as Hc by (rewrite Hk; by right). by apply elem_of_cons. }
  assert (∀ v, of_value v (n :: kept) ≡ₚ of_value v (w :: kept')) as Hlv
    by (intros v; by apply of_value_perm).
  assert (∀ y, nbr_le w y → ∀ x, x ∈ kept' → nbr_le x y) as Hfar.
  { intros y Hwy x [->|Hxi]%Hin; (trans w; [|done]); auto. }
  split_and!; [lia| |].
  - intros v. specialize (Hlv v). rewrite !of_value_cons in Hlv. specialize (H2 v).
    apply Permutation_length in Hlv. repeat case_decide; simpl in Hlv; subst; lia.
  - exists (w :: dr). split; [by rewrite Hdr, app_comm_cons, Hk, <-Permutation_middle|].
    intros y [->|Hy]%elem_of_cons.
    + right. split; [done|]. apply Hfar. by apply Hworst.
    + destruct (Hx y Hy) as [[Hly Hy']|[Hly Hy']].
      2:{ right. split; [done|]. apply Hfar. by apply Hy'. }
      destruct (decide (value_of w = value_of y)) as [Hwv|Hwv].
      { right. split; [done|]. apply Hfar. by apply Hy'. }
      assert (value_of n ≠ value_of y) as Hnv by (intros E; rewrite <-E in Hly; lia).
      left. specialize (Hlv (value_of y)). rewrite !of_value_cons, !decide_False in Hlv by done.
      split; [by rewrite <-Hlv|]. intros x [->|Hxi]%Hin Hv; [done|by apply Hy'].
Qed.

End spec.

(** ** Exactness *)

(** Neighbors with pairwise distinct distances. *)
Definition strict {I} (l : list (Neighbor I)) : Prop :=
  NoDup l ∧ ∀ x y, x ∈ l → y ∈ l → nbr_le x y → nbr_le y x → x = y.

Section queues.
Context {I : Type} `{EqDecision I}.
Implicit Types (q : NeighborPriorityQueue I) (n w x : Neighbor I).

Lemma strict_perm (l k : list (Neighbor I)) : l ≡ₚ k → strict l → strict k.
Proof. intros Hp [Hnd Hs]. split; [by rewrite <-Hp|]. intros x y. rewrite <-Hp. apply Hs. Qed.

Lemma strict_submseteq (l k : list (Neighbor I)) : strict l → k ⊆+ l → strict k.
Proof.
  intros [Hnd Hs] [m Hm]%submseteq_Permutation. split.
  - rewrite Hm in Hnd. by apply NoDup_app in Hnd as [? _].
  - intros x y Hx Hy. apply Hs; rewrite Hm, elem_of_app; by left.
Qed.

Lemma contents_not_nan q n : q_wf q → n ∈ q_contents q → is_nan (nbr_distance n) = false.
Proof.
  intros Hq Hn. pose proof (wf_nan q Hq) as Hnan. rewrite <-q_contents_distances in Hnan by done.
  rewrite Forall_fmap, Forall_forall in Hnan. by apply Hnan.
Qed.

Lemma fixed_full cap q : fixed_queue cap q → q_is_full q = (length (q_contents q) =? cap).
Proof. intros [Hq <- Hf _]. unfold q_is_full. by rewrite Hf, length_q_contents. Qed.

(** The last item of a full queue is its farthest. *)
Lemma fixed_worst cap q :
  fixed_queue cap q → 0 < cap → length (q_contents q) = cap →
  ∃ w, q_get q (cap - 1) = Some w ∧ w ∈ q_contents q ∧ ∀ x, x ∈ q_contents q → nbr_le x w.
Proof.
  intros [Hq Hcap Hf _] Hpos Hlen.
  destruct (lookup_lt_is_Some_2 (q_contents q) (cap - 1)) as [w Hw]; [lia|].
  exists w. split_and!; [|by eapply list_elem_of_lookup_2|].
  - unfold q_get. rewrite length_q_contents in Hlen by done. rewrite (proj2 (Nat.ltb_lt _ _)) by lia.
    cbn. by rewrite <-q_contents_lookup.
  - intros x Hx. apply list_elem_of_lookup in Hx as [i Hi].
    destruct (decide (i = cap - 1)) as [->|].
    + simplify_eq. apply f32_le_refl. apply (contents_not_nan q); [done|by eapply list_elem_of_lookup_2].
    + eapply (StronglySorted_lookup nbr_le (q_contents q) i (cap - 1)); eauto.
      * by apply q_contents_sorted.
      * apply lookup_lt_Some in Hi. lia.
Qed.

Lemma fixed_insert_room debug cap q n :
  fixed_queue cap q → length (q_contents q) < cap → is_nan (nbr_distance n) = false →
  nbr_id n ∉ nbr_id <$> q_contents q →
  ∃ q', q_insert debug q n = Some q' ∧ fixed_queue cap q' ∧ q_contents q' ≡ₚ n :: q_contents q.
Proof.
  intros Hq Hlen Hn Hid. destruct (fixed_queue_insert debug cap q n Hq) as (q' & dr & Hrun & Hq' & Hp & Hdr).
  - lia.
  - intros _. by rewrite <-q_contents_ids by apply Hq.
  - exists q'. split_and!; [done|done|]. destruct (Hdr Hn) as [Hl _].
    rewrite (fixed_full cap q Hq), (proj2 (Nat.eqb_neq _ _)) in Hl by lia.
    apply nil_length_inv in Hl as ->. by rewrite app_nil_r in Hp.
Qed.

Lemma fixed_insert_full debug cap q n w :
  fixed_queue cap q → 0 < cap → length (q_contents q) = cap → is_nan (nbr_distance n) = false →
  nbr_id n ∉ nbr_id <$> q_contents q → strict (n :: q_contents q) →
  w ∈ q_contents q → (∀ x, x ∈ q_contents q → nbr_le x w) →
  f32_lt (nbr_distance n) (nbr_distance w) = true →
  ∃ q', q_insert debug q n = Some q' ∧ fixed_queue cap q' ∧
    n :: q_contents q ≡ₚ w :: q_contents q'.
Proof.
  intros Hq Hpos Hlen Hn Hid [Hnd Hst] Hw Hworst Hlt.
  destruct (fixed_queue_insert debug cap q n Hq Hpos) as (q' & dr & Hrun & Hq' & Hp & Hdr).
  { intros _. by rewrite <-q_contents_ids by apply Hq. }
  exists q'. split_and!; [done|done|]. destruct (Hdr Hn) as [Hl Hle].
  rewrite (fixed_full cap q Hq), (proj2 (Nat.eqb_eq _ _)) in Hl by done.
  destruct dr as [|y []]; simplify_eq/=. rewrite Permutation_app_comm in Hp. simpl in Hp.
  assert (y = w) as ->; [|done].
  assert (y ∈ n :: q_contents q) as Hy by (rewrite Hp; by left).
  assert (nbr_le y w) as Hyw.
  { apply elem_of_cons in Hy as [->|Hy]; [by apply f32_lt_le|by apply Hworst]. }
  apply Hst; [done|by right|done|]. destruct (decide (w = y)) as [->|Hne]; [done|].
  assert (w ∈ y :: q_contents q') as Hw' by (rewrite <-Hp; by right).
  apply elem_of_cons in Hw' as [->|Hw']; [done|]. apply Hle; [done|by left].
Qed.

Lemma fixed_remove_exact cap q n :
  fixed_queue cap q → n ∈ q_contents q → strict (q_contents q) →
  ∃ q', q_remove q n = Some (q', true) ∧ fixed_queue cap q' ∧ q_contents q ≡ₚ n :: q_contents q'.
Proof.
  intros Hq Hn [Hnd Hst]. pose proof (fx_wf _ _ Hq) as Hwf.
  apply list_elem_of_lookup in Hn as [i Hi].
  destruct (remove_first_at_distance q n i Hwf Hi) as (q' & Hrun & _ & Hc).
  { intros j m Hj Hm.
    assert (m ∈ q_contents q ∧ n ∈ q_contents q) as [Hmin Hnin]
      by (split; by eapply list_elem_of_lookup_2).
    destruct (f32_lt (nbr_distance m) (nbr_distance n)) eqn:E; [done|exfalso].
    apply f32_not_lt in E; [|by eapply contents_not_nan..].
    assert (m = n) as ->.
    { apply Hst; try done. eapply (StronglySorted_lookup nbr_le (q_contents q) j i); eauto.
      by apply q_contents_sorted. }
    pose proof (NoDup_lookup _ _ _ _ Hnd Hm Hi). lia. }
  exists q'. split_and!; [done| |].
  - destruct (fixed_queue_remove cap q n Hq) as (q1 & b & Hrun1 & Hq1 & _).
    rewrite Hrun in Hrun1. by simplify_eq.
  - rewrite Hc, delete_take_drop, Permutation_middle. by rewrite take_drop_middle.
Qed.

End queues.

Section exact.
Context {I V : Type} `{Countable I} `{Countable V}.
Variables (debug : bool) (attribute : I → option V).
Local Abbreviation D := (DiverseNeighborQueue I V).
Implicit Types (d : D) (n : Neighbor I) (all : list (Neighbor (I * V))).

(** The local queue [lq] holds the items of [l] with the value [v]. *)
Definition local_of (dl : nat) (lq : NeighborPriorityQueue I) (v : V) (l : list (Neighbor (I * V))) :
    Prop :=
  fixed_queue dl lq ∧ q_contents lq ≡ₚ without_attribute <$> of_value v l.

Definition local_at d (v : V) : NeighborPriorityQueue I :=
  default (q_new (dq_results_l d)) (dq_locals d !! v).

(** The queue holds the best of the neighbors [all] that were inserted. *)
Record exact d all : Prop := {
  ex_l : 0 < dq_results_l d;
  ex_pos : 0 < q_search_param_l (dq_global d);
  ex_global : fixed_queue (q_search_param_l (dq_global d)) (dq_global d);
  ex_best : diverse_best (q_search_param_l (dq_global d)) (dq_results_l d)
    (q_contents (dq_global d)) all;
  ex_local : ∀ v, local_of (dq_results_l d) (local_at d v) v (q_contents (dq_global d));
  ex_strict : strict all;
  ex_ids : NoDup ((λ x, (nbr_id x).1) <$> all);
}.

(** After an operation that does not change the parameters. *)
Definition exact_from d d' all : Prop :=
  exact d' all ∧ q_search_param_l (dq_global d') = q_search_param_l (dq_global d) ∧
  dq_results_l d' = dq_results_l d ∧ dq_results_k d' = dq_results_k d.

Lemma local_of_insert g dl (locals : gmap V (NeighborPriorityQueue I)) lq v l l' k :
  (∀ u, local_of dl (default (q_new dl) (locals !! u)) u l) → local_of dl lq v l' →
  (∀ u, u ≠ v → of_value u l' ≡ₚ of_value u l) →
  ∀ u, local_of dl (local_at (mkDiverse g (<[v := lq]> locals) dl k) u) u l'.
Proof.
  intros Hl Hlq Hu u. unfold local_at. cbn [dq_locals dq_results_l].
  destruct (decide (v = u)) as [->|Hne]; [by rewrite lookup_insert_eq|].
  rewrite lookup_insert_ne by done. destruct (Hl u) as [H1 H2]. split; [done|]. by rewrite H2, Hu.
Qed.

Lemma with_without (v : V) (x : Neighbor (I * V)) :
  value_of x = v → with_attribute v (without_attribute x) = x.
Proof. destruct x as [[i w] d]. by intros <-. Qed.

Lemma strict_local v (l : list (Neighbor (I * V))) :
  strict l → strict (without_attribute <$> of_value v l).
Proof.
  intros [Hnd Hs].
  assert (∀ x y, x ∈ of_value v l → y ∈ of_value v l → without_attribute x = without_attribute y → x = y)
    as Hinj.
  { intros x y [_ Hx]%elem_of_of_value [_ Hy]%elem_of_of_value E.
    by rewrite <-(with_without v x Hx), <-(with_without v y Hy), E. }
  split.
  - apply NoDup_fmap_2_strong; [done|]. by apply NoDup_List_filter.
  - intros x y (x' & -> & Hx')%list_elem_of_fmap (y' & -> & Hy')%list_elem_of_fmap H1 H2.
    f_equal. apply Hs; [by apply elem_of_of_value in Hx' as [? _]|by apply elem_of_of_value in Hy' as [? _]|done|done].
Qed.

(** What the exact queue knows about a new neighbor. *)
Record arrival all n v : Prop := {
  ar_nan : is_nan (nbr_distance n) = false;
  ar_strict : strict (with_attribute v n :: all);
  ar_fresh : ∀ x, x ∈ all → (nbr_id x).1 ≠ nbr_id n;
}.

Lemma exact_contents d all x : exact d all → x ∈ q_contents (dq_global d) → x ∈ all.
Proof. intros [_ _ _ (_ & _ & dr & Hdr & _) _ _ _] Hx. rewrite Hdr, elem_of_app. by left. Qed.

Lemma arrival_strict d all n v :
  exact d all → arrival all n v → strict (with_attribute v n :: q_contents (dq_global d)).
Proof.
  intros [_ _ _ (_ & _ & dr & Hdr & _) _ _ _] [_ Hs _]. eapply strict_submseteq; [exact Hs|].
  rewrite Hdr. apply submseteq_skip, submseteq_inserts_r. done.
Qed.

Lemma arrival_global d all n v :
  exact d all → arrival all n v →
  nbr_id (with_attribute v n) ∉ nbr_id <$> q_contents (dq_global d).
Proof.
  intros Hd Ha Hin. apply list_elem_of_fmap in Hin as (x & Hx & Hin).
  apply (ar_fresh _ _ _ Ha x); [by eapply exact_contents|]. by rewrite <-Hx.
Qed.

Lemma arrival_local d all n v u :
  exact d all → arrival all n v → nbr_id n ∉ nbr_id <$> q_contents (local_at d u).
Proof.
  intros Hd Ha Hin. destruct (ex_local _ _ Hd u) as [_ Hl]. rewrite Hl in Hin.
  apply list_elem_of_fmap in Hin as (x & Hx & (y & -> & [Hy _]%elem_of_of_value)%list_elem_of_fmap).
  by apply (ar_fresh _ _ _ Ha y); [eapply exact_contents|].
Qed.

Lemma arrival_local_strict d all n v :
  exact d all → arrival all n v → strict (n :: q_contents (local_at d v)).
Proof.
  intros Hd Ha. destruct (ex_local _ _ Hd v) as [_ Hl].
  pose proof (strict_local v _ (arrival_strict _ _ _ _ Hd Ha)) as Hs.
  rewrite of_value_cons, decide_True, fmap_cons in Hs by done.
  eapply strict_perm; [|exact Hs]. rewrite Hl. by destruct n.
Qed.

Lemma local_length d all v :
  exact d all → length (q_contents (local_at d v)) = length (of_value v (q_contents (dq_global d))).
Proof. intros Hd. destruct (ex_local _ _ Hd v) as [_ ->]. apply length_fmap. Qed.

Lemma arrival_ids d all n v :
  exact d all → arrival all n v → NoDup ((λ x, (nbr_id x).1) <$> with_attribute v n :: all).
Proof.
  intros Hd Ha. rewrite fmap_cons. apply NoDup_cons. split; [|apply Hd].
  intros Hin. apply list_elem_of_fmap in Hin as (x & Hx & Hin). by apply (ar_fresh _ _ _ Ha x).
Qed.

(** A neighbor that is not added. *)
Lemma exact_skip d all n v :
  exact d all → arrival all n v → excluded (q_search_param_l (dq_global d)) (dq_results_l d) (q_contents (dq_global d))
    (with_attribute v n) →
  exact_from d (mkDiverse (dq_global d) (<[v := local_at d v]> (dq_locals d)) (dq_results_l d)
    (dq_results_k d)) (with_attribute v n :: all).
Proof.
  intros Hd Ha Hex. pose proof Hd as [H1 H2 H3 H4 H5 _ _].
  split; [|done].
  split; cbn [dq_global dq_results_l]; try done; [|..|apply Ha|by eapply arrival_ids].
  - by apply best_skip.
  - by apply (local_of_insert (dq_global d) _ _ _ v (q_contents (dq_global d))).
Qed.

(** Case 1. *)
Lemma exact_insert_both d all n v :
  exact d all → arrival all n v → length (q_contents (local_at d v)) < dq_results_l d →
  length (q_contents (dq_global d)) < q_search_param_l (dq_global d) →
  ∃ d', insert_both debug d v (local_at d v) (dq_global d) n = Some d' ∧
    exact_from d d' (with_attribute v n :: all).
Proof.
  intros Hd Ha Hll Hgl. pose proof Hd as [H1 H2 H3 H4 H5 _ _]. unfold insert_both.
  destruct (fixed_insert_room debug _ (local_at d v) n (proj1 (H5 v)) Hll (ar_nan _ _ _ Ha)
    (arrival_local d all n v v Hd Ha)) as (l' & -> & Hl' & Hlc). cbn [mbind option_bind].
  destruct (fixed_insert_room debug _ (dq_global d) (with_attribute v n) H3 Hgl (ar_nan _ _ _ Ha)
    (arrival_global d all n v Hd Ha)) as (g' & -> & Hg' & Hgc). cbn [mbind option_bind].
  pose proof (fx_search _ _ Hg') as Hs'. eexists. split; [done|].
  split; [|done]. split; cbn [dq_global dq_results_l]; rewrite ?Hs'; try done;
    [|..|apply Ha|by eapply arrival_ids].
  - eapply best_add; [exact H4|done| |exact Hgc]. rewrite <-(local_length d all) by done. done.
  - apply (local_of_insert g' _ _ _ v (q_contents (dq_global d))); [exact H5| |].
    + split; [done|]. rewrite Hlc, (of_value_perm _ _ _ Hgc), of_value_cons, decide_True by done.
      rewrite fmap_cons. destruct (H5 v) as [_ <-]. by destruct n.
    + intros u Hu. by rewrite (of_value_perm _ _ _ Hgc), of_value_cons, decide_False.
Qed.

(** Case 2. *)
Lemma exact_local_full d all n v :
  exact d all → arrival all n v → length (q_contents (local_at d v)) = dq_results_l d →
  ∃ d', insert_local_full debug d v (local_at d v) n = Some d' ∧
    exact_from d d' (with_attribute v n :: all).
Proof.
  intros Hd Ha Hll. pose proof Hd as [H1 H2 H3 H4 H5 _ _]. destruct (H5 v) as [Hlf Hlc].
  unfold insert_local_full, usub. rewrite (proj2 (Nat.leb_le 1 _) H1). cbn [mbind option_bind].
  destruct (fixed_worst _ _ Hlf H1 Hll) as (w & -> & Hw & Hworst). cbn [mbind option_bind].
  assert (∀ x, x ∈ q_contents (dq_global d) → value_of x = v → nbr_le x (with_attribute v w)) as Hwa.
  { intros x Hx Hv. apply (Hworst (without_attribute x)). rewrite Hlc.
    apply list_elem_of_fmap. exists x. split; [done|]. by apply elem_of_of_value. }
  assert (with_attribute v w ∈ q_contents (dq_global d)) as Hwg.
  { rewrite Hlc in Hw. apply list_elem_of_fmap in Hw as (x & -> & [Hx Hv]%elem_of_of_value).
    by rewrite with_without. }
  pose proof (ar_nan _ _ _ Ha) as Hnn.
  pose proof (contents_not_nan _ _ (fx_wf _ _ Hlf) Hw) as Hwn.
  destruct (f32_lt (nbr_distance n) (nbr_distance w)) eqn:Elt.
  2:{ eexists. split; [done|]. apply exact_skip; [done|done|]. left. cbn [value_of with_attribute nbr_id snd].
      rewrite <-(local_length d all v Hd). split; [done|]. intros x Hx Hv.
      trans (with_attribute v w); [by apply Hwa|]. by apply f32_not_lt in Elt. }
  pose proof (arrival_strict d all n v Hd Ha) as Hst.
  destruct (fixed_remove_exact _ (dq_global d) (with_attribute v w) H3 Hwg) as (g1 & -> & Hg1 & Hg1c).
  { eapply strict_submseteq; [exact Hst|]. by apply submseteq_cons. }
  cbn [mbind option_bind]. unfold insert_both.
  destruct (fixed_insert_full debug _ (local_at d v) n w Hlf H1 Hll Hnn (arrival_local d all n v v Hd Ha)
    (arrival_local_strict d all n v Hd Ha) Hw Hworst Elt) as (l' & -> & Hl' & Hl'c). cbn [mbind option_bind].
  destruct (fixed_insert_room debug _ g1 (with_attribute v n) Hg1) as (g' & -> & Hg' & Hgc);
    [|done| |].
  { apply Permutation_length in Hg1c. simpl in Hg1c. destruct H4 as (H4 & _). lia. }
  { intros Hin. apply (arrival_global d all n v Hd Ha). rewrite Hg1c, fmap_cons. by right. }
  cbn [mbind option_bind]. eexists. split; [done|]. pose proof (fx_search _ _ Hg') as Hs'.
  split; [|done]. split; cbn [dq_global dq_results_l]; rewrite ?Hs'; try done;
    [|..|apply Ha|by eapply arrival_ids].
  - eapply best_replace_local; [exact H4|exact Hg1c|exact Hgc|done| |exact Hwa|by apply f32_lt_le].
    cbn [value_of with_attribute nbr_id snd]. by rewrite <-(local_length d all v Hd).
  - apply (local_of_insert g' _ _ _ v (q_contents (dq_global d))); [exact H5| |].
    + split; [done|]. rewrite (of_value_perm _ _ _ Hgc), of_value_cons, decide_True, fmap_cons by done.
      rewrite (of_value_perm _ _ _ Hg1c), of_value_cons, decide_True, fmap_cons in Hlc by done.
      rewrite Hlc in Hl'c. change (without_attribute (with_attribute v w)) with (mkNeighbor (nbr_id w) (nbr_distance w)) in Hl'c.
      destruct w as [wi wd], n as [ni nd]. cbn in Hl'c |- *. rewrite Permutation_swap in Hl'c.
      apply Permutation_cons_inv in Hl'c. by rewrite <-Hl'c.
    + intros u Hu. rewrite (of_value_perm _ _ _ Hgc), (of_value_perm _ _ _ Hg1c), !of_value_cons.
      by rewrite !decide_False.
Qed.

(** Case 3. *)
Lemma exact_global_full d all n v :
  exact d all → arrival all n v → length (q_contents (local_at d v)) < dq_results_l d →
  length (q_contents (dq_global d)) = q_search_param_l (dq_global d) →
  ∃ d', insert_global_full debug d v (local_at d v) n = Some d' ∧
    exact_from d d' (with_attribute v n :: all).
Proof.
  intros Hd Ha Hll Hgl. pose proof Hd as [H1 H2 H3 H4 H5 _ _]. destruct (H5 v) as [Hlf Hlc].
  unfold insert_global_full, usub. rewrite (proj2 (Nat.leb_le 1 _) H2). cbn [mbind option_bind].
  destruct (fixed_worst _ _ H3 H2 Hgl) as (w & -> & Hw & Hworst). cbn [mbind option_bind].
  pose proof (ar_nan _ _ _ Ha) as Hnn. pose proof (contents_not_nan _ _ (fx_wf _ _ H3) Hw) as Hwn.
  destruct (f32_lt (nbr_distance n) (nbr_distance w)) eqn:Elt.
  2:{ eexists. split; [done|]. apply exact_skip; [done|done|]. right. split; [done|]. intros x Hx.
      trans w; [by apply Hworst|]. by apply f32_not_lt in Elt. }
  unfold insert_both.
  destruct (fixed_insert_room debug _ (local_at d v) n Hlf Hll Hnn (arrival_local d all n v v Hd Ha))
    as (l' & -> & Hl' & Hl'c). cbn [mbind option_bind].
  pose proof (arrival_strict d all n v Hd Ha) as Hst.
  destruct (fixed_insert_full debug _ (dq_global d) (with_attribute v n) w H3 H2 Hgl Hnn
    (arrival_global d all n v Hd Ha) Hst Hw Hworst Elt) as (g' & -> & Hg' & Hgc).
  cbn [mbind option_bind dq_locals dq_global dq_results_l dq_results_k].
  assert (∀ u, local_of (dq_results_l d)
    (local_at (mkDiverse g' (<[v := l']> (dq_locals d)) (dq_results_l d) (dq_results_k d)) u) u
    (with_attribute v n :: q_contents (dq_global d))) as Hmid.
  { apply (local_of_insert g' _ _ _ v (q_contents (dq_global d))); [exact H5| |].
    - split; [done|]. rewrite Hl'c, of_value_cons, decide_True, fmap_cons, Hlc by done. by destruct n.
    - intros u Hu. by rewrite of_value_cons, decide_False. }
  destruct (Hmid (value_of w)) as [Hwl Hwlc]. unfold local_at in Hwl, Hwlc. cbn [dq_locals dq_results_l] in Hwl, Hwlc.
  assert (∀ u, local_of (dq_results_l d) (default (q_new (dq_results_l d)) (<[v := l']> (dq_locals d) !! u))
    u (with_attribute v n :: q_contents (dq_global d))) as Hmid' by exact Hmid.
  change ((nbr_id w).2) with (value_of w).
  destruct (<[v := l']> (dq_locals d) !! value_of w) as [lw|] eqn:Elw; cbn [default] in Hwl, Hwlc.
  2:{ exfalso. assert (without_attribute w ∈ q_contents (q_new (I := I) (dq_results_l d))) as Hc.
      { rewrite Hwlc. apply list_elem_of_fmap. exists w. split; [done|]. apply elem_of_of_value.
        split; [by right|done]. }
      by apply elem_of_nil in Hc. }
  assert (without_attribute w ∈ q_contents lw) as Hwin.
  { rewrite Hwlc. apply list_elem_of_fmap. exists w. split; [done|]. apply elem_of_of_value.
    split; [by right|done]. }
  destruct (fixed_remove_exact _ lw (without_attribute w) Hwl Hwin) as (lw' & -> & Hlw' & Hlwc).
  { eapply strict_perm; [symmetry; exact Hwlc|]. by apply strict_local. }
  cbn [mbind option_bind]. eexists. split; [done|]. pose proof (fx_search _ _ Hg') as Hs'.
  split; [|done]. split; cbn [dq_global dq_results_l]; rewrite ?Hs'; try done;
    [|..|apply Ha|by eapply arrival_ids].
  - eapply best_replace_global; [exact H4|exact Hgc|done|done| |done|by apply f32_lt_le].
    cbn [value_of with_attribute nbr_id snd]. by rewrite <-(local_length d all v Hd).
  - apply (local_of_insert g' _ _ _ (value_of w) (with_attribute v n :: q_contents (dq_global d)));
      [exact Hmid'| |].
    + split; [done|]. rewrite Hlwc in Hwlc.
      rewrite (of_value_perm _ _ _ Hgc), of_value_cons, decide_True, fmap_cons in Hwlc by done.
      by apply Permutation_cons_inv in Hwlc.
    + intros u Hu. by rewrite (of_value_perm _ _ _ Hgc), of_value_cons, decide_False.
Qed.

Lemma exact_insert d all n v :
  exact d all → attribute (nbr_id n) = Some v → arrival all n v →
  ∃ d', d_insert debug attribute d n = Some d' ∧
    exact_from d d' (with_attribute v n :: all).
Proof.
  intros Hd Hv Ha. unfold d_insert. rewrite Hv. fold (local_at d v).
  destruct (ex_local _ _ Hd v) as [Hlf _]. pose proof (ex_global _ _ Hd) as Hg.
  rewrite (fixed_full _ _ Hlf), (fixed_full _ _ Hg).
  assert (length (q_contents (local_at d v)) ≤ dq_results_l d) as Hl.
  { destruct Hlf as [Hwf <- _ _]. rewrite length_q_contents by done. apply Hwf. }
  assert (length (q_contents (dq_global d)) ≤ q_search_param_l (dq_global d)) as Hgl
    by apply (ex_best _ _ Hd).
  destruct (Nat.eqb_spec (length (q_contents (local_at d v))) (dq_results_l d)); cbn [negb andb].
  { by apply exact_local_full. }
  destruct (Nat.eqb_spec (length (q_contents (dq_global d))) (q_search_param_l (dq_global d))); cbn [negb].
  - apply exact_global_full; try done. lia.
  - apply exact_insert_both; try done; lia.
Qed.

(** A neighbor without a distance or without an attribute is not a candidate. *)
Definition eligible n : option (Neighbor (I * V)) :=
  if is_nan (nbr_distance n) then None else
  match attribute (nbr_id n) with Some v => Some (with_attribute v n) | None => None end.

Lemma eligible_Some n x :
  eligible n = Some x →
  ∃ v, attribute (nbr_id n) = Some v ∧ x = with_attribute v n ∧ is_nan (nbr_distance n) = false.
Proof.
  unfold eligible. destruct (is_nan _); [done|]. destruct (attribute _) as [v|]; [|done].
  intros. simplify_eq. eauto.
Qed.

Lemma exact_ignore d all n :
  exact d all → eligible n = None →
  ∃ d', d_insert debug attribute d n = Some d' ∧ exact_from d d' all.
Proof.
  intros Hd. unfold eligible, d_insert. destruct (is_nan (nbr_distance n)) eqn:En;
    destruct (attribute (nbr_id n)) as [v|]; intros; simplify_eq; try by exists d.
  fold (local_at d v). pose proof Hd as [H1 H2 H3 H4 H5 _ _].
  assert (exact_from d (mkDiverse (dq_global d) (<[v := local_at d v]> (dq_locals d))
    (dq_results_l d) (dq_results_k d)) all) as Hd'.
  { split; [|done]. split; cbn [dq_global dq_results_l]; try done; try apply Hd.
    by apply (local_of_insert (dq_global d) _ _ _ v (q_contents (dq_global d))). }
  assert (∀ y, f32_lt (nbr_distance n) y = false) as Hlt
    by (intros y; apply f32_lt_nan; by rewrite En).
  destruct (H5 v) as [Hlf _]. rewrite (fixed_full _ _ Hlf), (fixed_full _ _ H3).
  destruct (Nat.eqb_spec (length (q_contents (local_at d v))) (dq_results_l d)) as [E|E]; cbn [negb andb].
  - unfold insert_local_full, usub. rewrite (proj2 (Nat.leb_le 1 _) H1). cbn [mbind option_bind].
    destruct (fixed_worst _ _ Hlf H1 E) as (w & -> & _). cbn [mbind option_bind]. rewrite Hlt. eauto.
  - destruct (Nat.eqb_spec (length (q_contents (dq_global d))) (q_search_param_l (dq_global d)))
      as [E'|E']; cbn [negb].
    + unfold insert_global_full, usub. rewrite (proj2 (Nat.leb_le 1 _) H2). cbn [mbind option_bind].
      destruct (fixed_worst _ _ H3 H2 E') as (w & -> & _). cbn [mbind option_bind]. rewrite Hlt. eauto.
    + unfold insert_both. rewrite !q_insert_nan by done. cbn [mbind option_bind]. eauto.
Qed.

(** Inserting neighbors one by one. *)
Fixpoint d_insert_all d (ns : list (Neighbor I)) : option D :=
  match ns with
  | [] => Some d
  | n :: ns => d ← d_insert debug attribute d n; d_insert_all d ns
  end.

Lemma exact_insert_all ns : ∀ d all,
  exact d all → strict (omap eligible ns ++ all) → NoDup (nbr_id <$> ns) →
  (∀ x n, x ∈ all → n ∈ ns → (nbr_id x).1 ≠ nbr_id n) →
  ∃ d' all', d_insert_all d ns = Some d' ∧ exact_from d d' all' ∧ all' ≡ₚ omap eligible ns ++ all.
Proof.
  induction ns as [|n ns IH]; intros d all Hd Hs Hnd Hf; cbn [d_insert_all].
  { by exists d, all. }
  rewrite fmap_cons in Hnd. apply NoDup_cons in Hnd as [Hn Hnd].
  destruct (eligible n) as [na|] eqn:Ee; cbn [omap list_omap] in Hs |- *; rewrite Ee in Hs |- *.
  - apply eligible_Some in Ee as (v & Ev & -> & En).
    assert (strict (omap eligible ns ++ with_attribute v n :: all)) as Hs'
      by (eapply strict_perm; [apply Permutation_middle|exact Hs]).
    destruct (exact_insert d all n v Hd Ev) as (d1 & -> & Hd1 & S1 & S2 & S3).
    { split; [done| |intros x Hx; by apply Hf; [|left]].
      eapply strict_submseteq; [exact Hs'|]. apply submseteq_inserts_l. done. }
    cbn [mbind option_bind]. destruct (IH d1 _ Hd1 Hs' Hnd) as (d' & all' & -> & (Hd' & S1' & S2' & S3') & Hp).
    { intros x m [->|Hx]%elem_of_cons Hm; [|by apply Hf; [|right]].
      intros E. cbn in E. apply Hn. rewrite E. apply list_elem_of_fmap. eauto. }
    exists d', all'. split_and!; [done|split; [done|]; split_and!; congruence|]. rewrite Hp. symmetry. apply Permutation_middle.
  - destruct (exact_ignore d all n Hd Ee) as (d1 & -> & Hd1 & S1 & S2 & S3). cbn [mbind option_bind].
    destruct (IH d1 all Hd1 Hs Hnd) as (d' & all' & -> & (Hd' & S1' & S2' & S3') & Hp).
    { intros x m Hx Hm. apply Hf; [done|by right]. }
    exists d', all'. split_and!; [done|split; [done|]; split_and!; congruence|done].
Qed.

Lemma exact_new l k dk d :
  0 < l → 0 < dk * l / k → d_new l k dk = Some d → exact d [].
Proof.
  intros Hl Hdl. unfold d_new, usize_mul. destruct (_ <? _)%Z; [|done]. cbn. intros. simplify_eq.
  split; cbn [dq_results_l dq_global q_search_param_l q_new]; try done.
  - apply fixed_queue_new.
  - apply best_nil.
  - intros v. split; [|done]. unfold local_at. cbn. rewrite lookup_empty. apply fixed_queue_new.
  - split; [constructor|]. by intros x y Hx%elem_of_nil.
  - constructor.
Qed.

(** With distinct distances the local queues list their items like the global queue. *)
Lemma local_contents d all v :
  exact d all →
  q_contents (local_at d v) = without_attribute <$> of_value v (q_contents (dq_global d)).
Proof.
  intros Hd. destruct (ex_local _ _ Hd v) as [Hf Hp].
  pose proof (fx_wf _ _ (ex_global _ _ Hd)) as Hwf.
  assert (strict (q_contents (local_at d v))) as [_ Hst].
  { eapply strict_perm; [symmetry; exact Hp|]. apply strict_local.
    eapply strict_submseteq; [apply (ex_strict _ _ Hd)|].
    destruct (ex_best _ _ Hd) as (_ & _ & dr & -> & _). by apply submseteq_inserts_r. }
  apply (StronglySorted_unique_strong nbr_le); [|by apply q_contents_sorted, Hf| |done].
  - intros x y Hx Hy. apply Hst; [done|by rewrite Hp].
  - assert (StronglySorted nbr_le (of_value v (q_contents (dq_global d)))) as Hs.
    { eapply StronglySorted_sublist; [apply List_filter_sublist|by apply q_contents_sorted]. }
    clear Hp Hst. induction Hs as [|x l Hs IH Hx]; [constructor|].
    rewrite fmap_cons. constructor; [done|]. apply Forall_fmap. eapply Forall_impl; [exact Hx|done].
Qed.

Lemma filter_drop_take {A} (f : A → bool) k (l : list A) :
  (∀ i x, l !! i = Some x → f x = (i <? k)) → List.filter f l = take k l.
Proof.
  revert k. induction l as [|x l IH]; intros k Hf; [by rewrite take_nil|]. cbn [List.filter].
  pose proof (Hf 0 x eq_refl) as Hx. destruct k as [|k]; cbn [take] in *; rewrite Hx; cbn.
  - rewrite <-(take_0 l). apply IH. intros i y Hi. by rewrite (Hf (S i) y Hi).
  - f_equal. apply IH. intros i y Hi. by rewrite (Hf (S i) y Hi).
Qed.

(** An item that is dropped from the list of its value is dropped from no other list. *)
Lemma dropped_index d all u v i x y :
  let g := q_contents (dq_global d) in
  exact d all → of_value v g !! i = Some x → (nbr_id x).1 = (nbr_id y).1 →
  y ∈ drop (dq_results_k d) (of_value u g) → dq_results_k d ≤ i.
Proof.
  intros g Hd Hi Hy Hyd.
  assert (x ∈ of_value v g) as Hxin by (by eapply list_elem_of_lookup_2).
  assert (y ∈ of_value u g) as Hyin by (eapply elem_of_sublist; [apply sublist_drop|done]).
  apply elem_of_of_value in Hxin as [Hxg Hxv], Hyin as [Hyg Hyv].
  assert (x = y) as <-.
  { by apply (NoDup_fmap_same _ all x y (ex_ids _ _ Hd)); [eapply exact_contents..|]. }
  assert (u = v) as -> by congruence.
  assert (NoDup (of_value v g)) as Hnd.
  { apply NoDup_List_filter. destruct (ex_strict _ _ Hd) as [Hs _].
    destruct (ex_best _ _ Hd) as (_ & _ & dr & Hdr & _). rewrite Hdr in Hs.
    by apply NoDup_app in Hs as [? _]. }
  apply list_elem_of_lookup in Hyd as [j Hj]. rewrite lookup_drop in Hj.
  rewrite (NoDup_lookup _ _ _ _ Hnd Hi Hj). lia.
Qed.

(** After post-processing, the first [diverse_results_k] of each attribute value are left. *)
Lemma exact_post_process d all :
  exact d all →
  ∃ d', d_post_process d = Some d' ∧ q_wf (dq_global d') ∧
    q_search_param_l (dq_global d') = q_search_param_l (dq_global d) ∧
    sublist (q_contents (dq_global d')) (q_contents (dq_global d)) ∧
    ∀ v, of_value v (q_contents (dq_global d')) =
         take (dq_results_k d) (of_value v (q_contents (dq_global d))).
Proof.
  intros Hd. pose proof (fx_wf _ _ (ex_global _ _ Hd)) as Hwf.
  destruct (d_post_process_ok d Hwf) as (d' & rm & Hrun & Hwf' & Hc & Hsl & Hrm).
  { intros v lq Hin. pose proof (ex_local _ _ Hd v) as [Hf _]. unfold local_at in Hf. by rewrite Hin in Hf. }
  exists d'. split_and!; try done; [rewrite Hc; apply List_filter_sublist|]. intros v. rewrite Hc.
  set (g := q_contents (dq_global d)). unfold of_value at 1. rewrite List_filter_comm.
  fold (of_value v g). apply filter_drop_take. intros i x Hi.
  assert ((nbr_id x).1 ∈ rm ↔ dq_results_k d ≤ i) as Hx.
  2:{ destruct (Nat.ltb_spec i (dq_results_k d)); [rewrite bool_decide_false by (rewrite Hx; lia)|
        rewrite bool_decide_true by (by apply Hx)]; done. }
  assert (∀ u lq, dq_locals d !! u = Some lq →
    nbr_id <$> drop (dq_results_k d) (q_contents lq) =
    (λ x, (nbr_id x).1) <$> drop (dq_results_k d) (of_value u g)) as Hdrop.
  { intros u lq Hin. pose proof (local_contents d all u Hd) as Hlc. unfold local_at in Hlc.
    rewrite Hin in Hlc. cbn in Hlc. by rewrite Hlc, <-fmap_drop, <-list_fmap_compose. }
  rewrite Hrm. split.
  - intros (u & lq & Hin & Hx). rewrite (Hdrop u lq Hin) in Hx.
    apply list_elem_of_fmap in Hx as (y & Hy & Hyd).
    by apply (dropped_index d all u v i x y Hd).
  - intros Hk. destruct (dq_locals d !! v) as [lq|] eqn:Elq.
    + exists v, lq. split; [done|]. rewrite (Hdrop v lq Elq). apply list_elem_of_fmap. exists x.
      split; [done|]. apply list_elem_of_lookup. exists (i - dq_results_k d). rewrite lookup_drop.
      by replace (dq_results_k d + (i - dq_results_k d)) with i by lia.
    + exfalso. pose proof (local_contents d all v Hd) as Hlc. unfold local_at in Hlc.
      rewrite Elq in Hlc. cbn in Hlc. fold g in Hlc. destruct (of_value v g); done.
Qed.

(** C23: the diverse queue refines its specification.  Whatever neighbors with distinct ids are
    inserted, in whatever order, when the distances of the candidates among them are distinct
    the queue holds the closest candidates under the constraint: at most [l] in total and
    [diverse_results_k * l / k] of each attribute value, in order of distance, and no candidate
    that was left out could have been added.  Nothing panics, in debug builds either.
    Post-processing then leaves the [diverse_results_k] closest of each attribute value. *)
Theorem diverse_queue_exact (l k dk : nat) d0 ns :
  d_new l k dk = Some d0 → 0 < k ≤ l → 0 < dk →
  NoDup (nbr_id <$> ns) → strict (omap eligible ns) →
  ∃ d d', d_insert_all d0 ns = Some d ∧ d_post_process d = Some d' ∧
    diverse_best l (dk * l / k) (q_contents (dq_global d)) (omap eligible ns) ∧
    StronglySorted nbr_le (q_contents (dq_global d)) ∧
    sublist (q_contents (dq_global d')) (q_contents (dq_global d)) ∧
    ∀ v, of_value v (q_contents (dq_global d')) = take dk (of_value v (q_contents (dq_global d))).
Proof.
  intros Hnew Hk Hdk Hnd Hs.
  assert (0 < dk * l / k) as Hdl by (apply Nat.div_str_pos; nia).
  destruct (exact_insert_all ns d0 []) as (d & all & Hrun & (Hd & S1 & S2 & S3) & Hp).
  - eapply exact_new; [|exact Hdl|exact Hnew]. lia.
  - by rewrite app_nil_r.
  - done.
  - by intros x n Hx%elem_of_nil.
  - rewrite app_nil_r in Hp. destruct (exact_post_process d all Hd) as (d' & Hpost & _ & _ & Hsub & Hv).
    unfold d_new, usize_mul in Hnew. destruct (_ <? _)%Z; [|done]. cbn in Hnew. simplify_eq.
    cbn in S1, S2, S3. exists d, d'. split_and!; try done.
    + destruct (ex_best _ _ Hd) as (H1 & H2 & dr & Hdr & Hex). rewrite S1, S2 in *.
      split_and!; [done|done|]. exists dr. split; [by rewrite <-Hp|done].
    + by apply q_contents_sorted, (ex_global _ _ Hd).
    + intros v. by rewrite Hv, S3.
Qed.

End exact.

(** ** Concrete queues *)

(** Even and odd ids, two results of each parity. *)
Definition parity (i : Z) : option bool := Some (Z.odd i).

Definition parity_queue : DiverseNeighborQueue Z bool := mkDiverse (q_new 4) ∅ 2 2.

Definition parity_input : list (Neighbor Z) := [nb 0 5; nb 2 3; nb 4 4; nb 1 9; nb 6 1].

Lemma diverse_queue_exact_witness :
  ∃ d d', d_insert_all true parity parity_queue parity_input = Some d ∧
    d_post_process d = Some d' ∧
    (nbr_id <$> q_contents (dq_global d')) = [(6, false); (2, false); (1, true)]%Z.
Proof.
  destruct (diverse_queue_exact true parity 4 4 2 parity_queue parity_input)
    as (d & d' & Hrun & Hpost & _); [reflexivity|lia|lia|..].
  - by apply (bool_decide_unpack _).
  - split; [by apply (bool_decide_unpack _)|]. intros x y Hx%list_elem_of_In Hy%list_elem_of_In.
    vm_compute in Hx, Hy.
    destruct Hx as [<- | [<- | [<- | [<- | [<- | []]]]]],
      Hy as [<- | [<- | [<- | [<- | [<- | []]]]]]; intros H1 H2;
      (reflexivity || (vm_compute in H1; discriminate) || (vm_compute in H2; discriminate)).
  - exists d, d'. split; [exact Hrun|]. split; [exact Hpost|].
    vm_compute in Hrun. injection Hrun as <-. vm_compute in Hpost. injection Hpost as <-. reflexivity.
Defined.

(** When distances tie the constraint is violated.  The eviction from the global queue looks
    the neighbor up by its distance and gives up when another one has the same distance, while
    the local queue drops it: here three results with the same attribute value come out of a
    queue that promises at most two. *)
Theorem diverse_queue_tie :
  ∃ d d', d_insert_all true parity parity_queue [nb 0 2; nb 2 2; nb 4 1] = Some d ∧
    d_post_process d = Some d' ∧ dq_results_k d = 2 ∧
    (nbr_id <$> q_contents (dq_global d')) = [(4, false); (2, false); (0, false)]%Z.
Proof. eexists _, _. split_and!; vm_compute; reflexivity. Qed.
