(* ===== verification/AdjacencyList.v ===== *)
(** * Adjacency lists

    Models [diskann/src/graph/adjacencylist.rs] (the list of out-neighbors of a vertex, whose
    methods keep its items unique), the vectorised membership test it uses
    ([diskann-vector/src/contains/x86_64.rs]) and the small-buffer variant that collects
    backedges during a batch insertion ([diskann/src/graph/internal/backedge.rs]).

    - Section [contains]: [contains_simd_u32]/[contains_simd_u64], block by block;
    - Class [ContainsSimd]: what the adjacency list relies on, with its instances;
    - Section [operations]: the methods of [AdjacencyList] and its [ResizeGuard];
    - Module [Backedge]: [BackedgeBuffer];
    - Section [theory] and the properties. *)

From S2P Require Import Prelude.

(** ** The vectorised membership test *)

Section contains.
Implicit Types (v : list Z) (target : Z).

(** [_mm256_cmpeq]/[_mm_cmpeq] of a block with the splatted target, then [movemask]: one bit
    per lane. *)
Fixpoint movemask (lanes : list bool) : Z :=
  match lanes with
  | [] => 0
  | b :: lanes => (if b then 1 else 0) + 2 * movemask lanes
  end%Z.

(** One load of [w] lanes from the start of the chunk ([None]: a read past its end) and the
    comparison of its mask with zero. *)
Definition compare_lanes (w : nat) v target : option bool :=
  if w <=? length v then
    Some (negb (Z.eqb (movemask (map (λ x, Z.eqb x target) (take w v))) 0))
  else None.

(** [a || b] on computations that may read out of bounds: [b] is evaluated only if [a] is
    false. *)
Definition or_else (a b : option bool) : option bool :=
  x ← a; if (x : bool) then Some true else b.

(** u32: eight lanes per 256-bit register, four per 128-bit register. *)
Definition compare_8_items_u32 v target := compare_lanes 8 v target.
Definition compare_4_items_u32 v target := compare_lanes 4 v target.
Definition compare_16_items_u32 v target :=
  or_else (compare_8_items_u32 v target) (compare_8_items_u32 (drop 8 v) target).
Definition compare_32_items_u32 v target :=
  or_else (compare_16_items_u32 v target) (compare_16_items_u32 (drop 16 v) target).

(** u64: four lanes per 256-bit register, two per 128-bit register. *)
Definition compare_4_items_u64 v target := compare_lanes 4 v target.
Definition compare_2_items_u64 v target := compare_lanes 2 v target.
Definition compare_8_items_u64 v target :=
  or_else (compare_4_items_u64 v target) (compare_4_items_u64 (drop 4 v) target).
Definition compare_16_items_u64 v target :=
  or_else (compare_8_items_u64 v target) (compare_8_items_u64 (drop 8 v) target).
Definition compare_32_items_u64 v target :=
  or_else (compare_16_items_u64 v target) (compare_16_items_u64 (drop 16 v) target).

(** The [while remaining.len() >= 32] loop: [inl] is an early return. *)
Fixpoint contains_loop (compare_32 : list Z → Z → option bool) (fuel : nat) v target :
    option (bool + list Z) :=
  if 32 <=? length v then
    match fuel with
    | 0 => None
    | S fuel =>
        found ← compare_32 v target;
        if (found : bool) then Some (inl true)
        else contains_loop compare_32 fuel (drop 32 v) target
    end
  else Some (inr v).

(** One of the [if remaining.len() >= w] steps that follow. *)
Definition contains_step (w : nat) (compare : list Z → Z → option bool) v target :
    option (bool + list Z) :=
  if w <=? length v then
    found ← compare v target;
    if (found : bool) then Some (inl true) else Some (inr (drop w v))
  else Some (inr v).

(** Continues with the remaining slice unless the step returned. *)
Definition and_then (r : option (bool + list Z)) (k : list Z → option (bool + list Z)) :
    option (bool + list Z) :=
  x ← r; match x with inl b => Some (inl b) | inr v => k v end.

(** The scalar loop over the rest. *)
Definition contains_rest v target : bool := existsb (λ x, Z.eqb x target) v.

Definition contains_finish (r : option (bool + list Z)) target : option bool :=
  x ← r; match x with inl b => Some b | inr v => Some (contains_rest v target) end.

Definition contains_simd_u32 v target : option bool :=
  contains_finish
    (and_then (contains_loop compare_32_items_u32 (length v) v target) (λ v,
     and_then (contains_step 16 compare_16_items_u32 v target) (λ v,
     and_then (contains_step 8 compare_8_items_u32 v target) (λ v,
     contains_step 4 compare_4_items_u32 v target)))) target.

Definition contains_simd_u64 v target : option bool :=
  contains_finish
    (and_then (contains_loop compare_32_items_u64 (length v) v target) (λ v,
     and_then (contains_step 16 compare_16_items_u64 v target) (λ v,
     and_then (contains_step 8 compare_8_items_u64 v target) (λ v,
     and_then (contains_step 4 compare_4_items_u64 v target) (λ v,
     contains_step 2 compare_2_items_u64 v target))))) target.

End contains.

(** What the adjacency list needs of its id type: a membership test. *)
Class ContainsSimd (I : Type) := {
  contains_simd : list I → I → bool;
  contains_simd_spec : ∀ v t, contains_simd v t = true ↔ t ∈ v;
}.

(** ** The adjacency list *)

(** The [edges] vector. *)
Record AdjacencyList (I : Type) : Type := mkAdj { edges : list I }.
Arguments mkAdj {I} _.
Arguments edges {I} _.

Section operations.
Context {I : Type} `{ContainsSimd I}.
Implicit Types (a : AdjacencyList I) (i : I).

Definition al_new : AdjacencyList I := mkAdj [].

(** [last]: the last [count] items, [None] when there are fewer. *)
Definition al_last a (count : nat) : option (list I) :=
  if count <=? length (edges a) then Some (drop (length (edges a) - count) (edges a)) else None.

Definition al_retain (f : I → bool) a : AdjacencyList I := mkAdj (List.filter f (edges a)).

Definition al_clear a : AdjacencyList I := mkAdj [].

Definition al_truncate (len : nat) a : AdjacencyList I := mkAdj (take len (edges a)).

Definition al_contains a i : bool := contains_simd (edges a) i.

Definition al_push a i : AdjacencyList I * bool :=
  if negb (al_contains a i) then (mkAdj (edges a ++ [i]), true) else (a, false).

(** [extend_from_slice]: the iterator [filter(push).count()]. *)
Fixpoint al_extend_from_slice a (items : list I) : AdjacencyList I * nat :=
  match items with
  | [] => (a, 0)
  | i :: items =>
      let '(a, inserted) := al_push a i in
      let '(a, count) := al_extend_from_slice a items in
      (a, if (inserted : bool) then S count else count)
  end.

(** [from_iter_unique]: the iterator is trusted. *)
Definition al_from_iter_unique (items : list I) : AdjacencyList I := mkAdj items.

Definition al_all_unique a : bool :=
  (al_extend_from_slice al_new (edges a)).2 =? length (edges a).

(** [debug_check_uniqueness]: a panic in debug builds. *)
Definition al_debug_check_uniqueness (debug : bool) a : option unit :=
  if debug then rassert (al_all_unique a) else Some tt.

Definition al_overwrite_trusted (debug : bool) a (items : list I) : option (AdjacencyList I) :=
  let a := mkAdj (edges (al_clear a) ++ items) in
  _ ← al_debug_check_uniqueness debug a; Some a.

Definition al_remap_trusted (debug : bool) (f : I → I) a : option (AdjacencyList I) :=
  let a := mkAdj (map f (edges a)) in
  _ ← al_debug_check_uniqueness debug a; Some a.

(** [resize]: the storage that the guard exposes, filled up with the default value. *)
Definition al_resize (dflt : I) (capacity : nat) a : AdjacencyList I :=
  mkAdj (take capacity (edges a) ++ replicate (capacity - length (edges a)) dflt).

(** [ResizeGuard::finish] *)
Definition guard_finish (debug : bool) (at_most : nat) a : option (AdjacencyList I) :=
  let a := al_truncate at_most a in
  _ ← al_debug_check_uniqueness debug a; Some a.

(** [Drop for ResizeGuard]: the guard was not finished. *)
Definition guard_drop a : AdjacencyList I := al_clear a.

End operations.

Section sorted_operations.
Context {I : Type} (R : relation I) `{!EqDecision I, !RelDecision R}.

(** [sort]: [slice::sort_unstable] by the [Ord] instance. *)
Definition al_sort (a : AdjacencyList I) : AdjacencyList I := mkAdj (merge_sort R (edges a)).

(** [Vec::dedup]: removes consecutive repeated elements. *)
Fixpoint dedup (l : list I) : list I :=
  match l with
  | [] => []
  | x :: l =>
      match dedup l with
      | [] => [x]
      | y :: k => if bool_decide (x = y) then y :: k else x :: y :: k
      end
  end.

(** [from_iter_untrusted] *)
Definition al_from_iter_untrusted (items : list I) : AdjacencyList I :=
  mkAdj (dedup (merge_sort R items)).

End sorted_operations.

(** ** The backedge buffer *)

Module Backedge.

(** [Inner]: up to four items inline. *)
Inductive Inner (I : Type) : Type :=
| None_
| One (v : I)
| Two (v0 v1 : I)
| Three (v0 v1 v2 : I)
| Four (v0 v1 v2 v3 : I)
| Many (adj : AdjacencyList I).
Arguments None_ {I}.
Arguments One {I} _.
Arguments Two {I} _ _.
Arguments Three {I} _ _ _.
Arguments Four {I} _ _ _ _.
Arguments Many {I} _.

Section buffer.
Context {I : Type} `{!EqDecision I, !ContainsSimd I}.

Definition neq (x y : I) : bool := negb (bool_decide (x = y)).

(** [BackedgeBuffer::new] *)
Definition buf_new (value : I) : Inner I := One value.

(** [Deref]: the contents as a slice. *)
Definition as_slice (b : Inner I) : list I :=
  match b with
  | None_ => []
  | One v => [v]
  | Two v0 v1 => [v0; v1]
  | Three v0 v1 v2 => [v0; v1; v2]
  | Four v0 v1 v2 v3 => [v0; v1; v2; v3]
  | Many a => edges a
  end.

(** [BackedgeBuffer::push]; the spill to the heap goes through [AdjacencyList::resize] and
    [ResizeGuard::finish], whose uniqueness check panics in debug builds. *)
Definition push (debug : bool) (dflt : I) (b : Inner I) (value : I) : option (Inner I * bool) :=
  match b with
  | None_ => Some (One value, true)
  | One v => if neq v value then Some (Two v value, true) else Some (One v, false)
  | Two v0 v1 =>
      if neq v0 value && neq v1 value then Some (Three v0 v1 value, true)
      else Some (Two v0 v1, false)
  | Three v0 v1 v2 =>
      if neq v0 value && neq v1 value && neq v2 value then Some (Four v0 v1 v2 value, true)
      else Some (Three v0 v1 v2, false)
  | Four v0 v1 v2 v3 =>
      if neq v0 value && neq v1 value && neq v2 value && neq v3 value then
        let list := al_resize dflt 5 al_new in
        let list := mkAdj (<[4:=value]> (<[3:=v3]> (<[2:=v2]> (<[1:=v1]> (<[0:=v0]> (edges list)))))) in
        list ← guard_finish debug 5 list;
        Some (Many list, true)
      else Some (Four v0 v1 v2 v3, false)
  | Many adj => let '(adj, inserted) := al_push adj value in Some (Many adj, inserted)
  end.

End buffer.
End Backedge.

(** ** Theory: the membership test *)

Section contains_theory.
Implicit Types (v : list Z) (target : Z).

Lemma movemask_nonneg l : (0 ≤ movemask l)%Z.
Proof. induction l as [|[] l]; simpl; lia. Qed.

Lemma movemask_zero l : movemask l = 0%Z ↔ Forall (λ b, b = false) l.
Proof.
  induction l as [|b l IH]; simpl; [by split|]. pose proof (movemask_nonneg l).
  rewrite Forall_cons, <-IH. destruct b; split; try intros [? ?]; try intros ?; try done; lia.
Qed.

Lemma contains_rest_spec v target : contains_rest v target = true ↔ target ∈ v.
Proof.
  unfold contains_rest. rewrite existsb_exists. split.
  - intros (x & Hx & ->%Z.eqb_eq). by apply list_elem_of_In.
  - intros Hx. exists target. split; [by apply list_elem_of_In|apply Z.eqb_refl].
Qed.

Lemma compare_lanes_ok w v target :
  w ≤ length v → compare_lanes w v target = Some (contains_rest (take w v) target).
Proof.
  intros Hw. unfold compare_lanes. case_nat; [|lia]. f_equal.
  apply Bool.eq_true_iff_eq. rewrite contains_rest_spec, negb_true_iff, Z.eqb_neq, movemask_zero.
  rewrite Forall_map, Forall_forall. split.
  - intros Hn. destruct (decide (target ∈ take w v)); [done|]. exfalso. apply Hn.
    intros x Hx. apply Z.eqb_neq. by intros ->.
  - intros Hin Hall. specialize (Hall _ Hin). simpl in Hall. by rewrite Z.eqb_refl in Hall.
Qed.

Lemma contains_rest_app v1 v2 target :
  contains_rest (v1 ++ v2) target = contains_rest v1 target || contains_rest v2 target.
Proof. apply existsb_app. Qed.

(** Two adjacent blocks of [w] items. *)
Lemma or_else_blocks w (f : list Z → Z → option bool) v target :
  (∀ v, w ≤ length v → f v target = Some (contains_rest (take w v) target)) →
  w + w ≤ length v →
  or_else (f v target) (f (drop w v) target) = Some (contains_rest (take (w + w) v) target).
Proof.
  intros Hf Hw. unfold or_else. rewrite !Hf by (rewrite ?length_drop; lia). simpl.
  rewrite <-take_take_drop, contains_rest_app. by destruct (contains_rest (take w v) target).
Qed.

Lemma compare_16_u32_ok v t :
  16 ≤ length v → compare_16_items_u32 v t = Some (contains_rest (take 16 v) t).
Proof. apply (or_else_blocks 8). intros. by apply compare_lanes_ok. Qed.

Lemma compare_32_u32_ok v t :
  32 ≤ length v → compare_32_items_u32 v t = Some (contains_rest (take 32 v) t).
Proof. apply (or_else_blocks 16). intros. by apply compare_16_u32_ok. Qed.

Lemma compare_8_u64_ok v t :
  8 ≤ length v → compare_8_items_u64 v t = Some (contains_rest (take 8 v) t).
Proof. apply (or_else_blocks 4). intros. by apply compare_lanes_ok. Qed.

Lemma compare_16_u64_ok v t :
  16 ≤ length v → compare_16_items_u64 v t = Some (contains_rest (take 16 v) t).
Proof. apply (or_else_blocks 8). intros. by apply compare_8_u64_ok. Qed.

Lemma compare_32_u64_ok v t :
  32 ≤ length v → compare_32_items_u64 v t = Some (contains_rest (take 32 v) t).
Proof. apply (or_else_blocks 16). intros. by apply compare_16_u64_ok. Qed.

(** A partial scan is right when it returned [true] for a hit or left a suffix that decides. *)
Definition scan_ok v t (r : bool + list Z) : Prop :=
  match r with
  | inl b => b = true ∧ contains_rest v t = true
  | inr v' => contains_rest v t = contains_rest v' t
  end.

Lemma contains_step_ok w f v t :
  (∀ v, w ≤ length v → f v t = Some (contains_rest (take w v) t)) →
  ∃ r, contains_step w f v t = Some r ∧ scan_ok v t r.
Proof.
  intros Hf. unfold contains_step. case_nat; [|by eexists].
  rewrite Hf by done. simpl.
  assert (contains_rest v t = contains_rest (take w v) t || contains_rest (drop w v) t) as Hv
    by (by rewrite <-contains_rest_app, take_drop).
  destruct (contains_rest (take w v) t); eexists; (split; [done|]); done.
Qed.

Lemma contains_loop_ok f fuel v t :
  (∀ v, 32 ≤ length v → f v t = Some (contains_rest (take 32 v) t)) → length v ≤ fuel →
  ∃ r, contains_loop f fuel v t = Some r ∧ scan_ok v t r.
Proof.
  intros Hf. revert v. induction fuel as [|fuel IH]; intros v Hv.
  { destruct v; simpl in *; [|lia]. eexists. split; [done|]. done. }
  cbn [contains_loop]. destruct (Nat.leb_spec 32 (length v)); [|by eexists].
  rewrite Hf by done. cbn [mbind option_bind].
  assert (contains_rest v t = contains_rest (take 32 v) t || contains_rest (drop 32 v) t) as Hs
    by (by rewrite <-contains_rest_app, take_drop).
  destruct (contains_rest (take 32 v) t) eqn:E.
  - by eexists.
  - destruct (IH (drop 32 v)) as (r & -> & Hr); [rewrite length_drop; lia|].
    exists r. split; [done|]. unfold scan_ok in *. by rewrite Hs.
Qed.

Lemma and_then_ok v t r k :
  (∃ x, r = Some x ∧ scan_ok v t x) →
  (∀ v', contains_rest v t = contains_rest v' t → ∃ x, k v' = Some x ∧ scan_ok v' t x) →
  ∃ x, and_then r k = Some x ∧ scan_ok v t x.
Proof.
  intros (x & -> & Hx) Hk. unfold and_then. simpl. destruct x as [b|v']; [by eexists|].
  simpl in Hx. destruct (Hk v' Hx) as (y & -> & Hy). exists y. split; [done|].
  destruct y; simpl in *; [by rewrite Hx|congruence].
Qed.

Lemma contains_finish_ok v t r :
  (∃ x, r = Some x ∧ scan_ok v t x) → contains_finish r t = Some (contains_rest v t).
Proof.
  intros (x & -> & Hx). unfold contains_finish. simpl.
  destruct x; simpl in *; [destruct Hx as [-> ->]|]; congruence.
Qed.

Lemma contains_simd_u32_ok v t : contains_simd_u32 v t = Some (contains_rest v t).
Proof.
  apply contains_finish_ok.
  apply and_then_ok; [apply contains_loop_ok; [intros; by apply compare_32_u32_ok|done]|].
  intros v1 _. apply and_then_ok; [apply contains_step_ok; intros; by apply compare_16_u32_ok|].
  intros v2 _. apply and_then_ok; [apply contains_step_ok; intros; by apply compare_lanes_ok|].
  intros v3 _. apply contains_step_ok. intros. by apply compare_lanes_ok.
Qed.

Lemma contains_simd_u64_ok v t : contains_simd_u64 v t = Some (contains_rest v t).
Proof.
  apply contains_finish_ok.
  apply and_then_ok; [apply contains_loop_ok; [intros; by apply compare_32_u64_ok|done]|].
  intros v1 _. apply and_then_ok; [apply contains_step_ok; intros; by apply compare_16_u64_ok|].
  intros v2 _. apply and_then_ok; [apply contains_step_ok; intros; by apply compare_8_u64_ok|].
  intros v3 _. apply and_then_ok; [apply contains_step_ok; intros; by apply compare_lanes_ok|].
  intros v4 _. apply contains_step_ok. intros. by apply compare_lanes_ok.
Qed.

End contains_theory.

Lemma contains_u32_spec v t : default false (contains_simd_u32 v t) = true ↔ t ∈ v.
Proof. rewrite contains_simd_u32_ok. apply contains_rest_spec. Qed.

(** The 32-bit ids of the graph. *)
#[export] Instance ContainsSimd_u32 : ContainsSimd Z := {|
  contains_simd v t := default false (contains_simd_u32 v t);
  contains_simd_spec := contains_u32_spec;
|}.

(** ** Theory: uniqueness *)

Section theory.
Context {I : Type} `{!EqDecision I, !ContainsSimd I}.
Implicit Types (a : AdjacencyList I) (i : I).

Lemma al_contains_spec a i : al_contains a i = true ↔ i ∈ edges a.
Proof. apply contains_simd_spec. Qed.

Lemma al_contains_false a i : al_contains a i = false ↔ i ∉ edges a.
Proof. rewrite <-al_contains_spec. destruct (al_contains a i); naive_solver. Qed.

Lemma al_push_cases a i :
  (i ∈ edges a) ∧ al_push a i = (a, false) ∨
  (i ∉ edges a) ∧ al_push a i = (mkAdj (edges a ++ [i]), true).
Proof.
  unfold al_push. destruct (al_contains a i) eqn:E; [left|right]; simpl.
  - by apply al_contains_spec in E.
  - by apply al_contains_false in E.
Qed.

Lemma NoDup_snoc (l : list I) i : NoDup l → i ∉ l → NoDup (l ++ [i]).
Proof.
  intros Hl Hi. apply NoDup_app. split_and!; [done| |apply NoDup_singleton].
  intros x Hx ->%list_elem_of_singleton. done.
Qed.

Lemma al_push_NoDup a i : NoDup (edges a) → NoDup (edges (al_push a i).1).
Proof.
  intros Ha. destruct (al_push_cases a i) as [[? ->]|[? ->]]; simpl; auto using NoDup_snoc.
Qed.

(** [extend_from_slice] appends the new items, once each. *)
Lemma al_extend_ok items : ∀ a,
  ∃ new, al_extend_from_slice a items = (mkAdj (edges a ++ new), length new) ∧
    sublist new items ∧ NoDup new ∧
    (∀ x, x ∈ new ↔ (x ∈ items) ∧ x ∉ edges a).
Proof.
  induction items as [|i items IH]; intros a; simpl.
  { exists []. rewrite app_nil_r. destruct a. split_and!; [done..|constructor|].
    intros x. rewrite !elem_of_nil. tauto. }
  destruct (al_push_cases a i) as [[Hi ->]|[Hi ->]].
  - destruct (IH a) as (new & -> & H1 & H2 & H3). exists new.
    split_and!; auto using sublist_cons. intros x. rewrite H3, elem_of_cons. naive_solver.
  - destruct (IH (mkAdj (edges a ++ [i]))) as (new & -> & H1 & H2 & H3). simpl in *.
    exists (i :: new). split_and!.
    + by rewrite <-(assoc_L (++)).
    + by apply sublist_skip.
    + constructor; [|done]. rewrite H3, elem_of_app, list_elem_of_singleton. tauto.
    + intros x. rewrite !elem_of_cons, H3, elem_of_app, list_elem_of_singleton.
      destruct (decide (x = i)); naive_solver.
Qed.

Lemma al_all_unique_spec a : al_all_unique a = true ↔ NoDup (edges a).
Proof.
  unfold al_all_unique. destruct (al_extend_ok (edges a) al_new) as (new & -> & H1 & H2 & H3).
  simpl in *. rewrite Nat.eqb_eq. split.
  - intros Hl. rewrite (submseteq_length_Permutation new (edges a)) in H2;
      [done|by apply sublist_submseteq|lia].
  - intros Hnd. apply Permutation_length, NoDup_Permutation; [done..|].
    intros x. rewrite H3, elem_of_nil. tauto.
Qed.

(** The methods of the list that need no promise of the caller, as steps. *)
Inductive al_step : AdjacencyList I → AdjacencyList I → Prop :=
| step_push a i : al_step a (al_push a i).1
| step_extend a items : al_step a (al_extend_from_slice a items).1
| step_retain a f : al_step a (al_retain f a)
| step_truncate a len : al_step a (al_truncate len a)
| step_clear a : al_step a (al_clear a)
| step_guard_drop a : al_step a (guard_drop a)
| step_sort R `{!RelDecision R} a : al_step a (al_sort R a)
| step_overwrite_checked a items a' :
    al_overwrite_trusted true a items = Some a' → al_step a a'
| step_remap_checked a f a' : al_remap_trusted true f a = Some a' → al_step a a'
| step_finish_checked a dflt capacity storage at_most a' :
    length storage = length (edges (al_resize dflt capacity a)) →
    guard_finish true at_most (mkAdj storage) = Some a' → al_step a a'.

Inductive al_reachable : AdjacencyList I → Prop :=
| reach_new : al_reachable al_new
| reach_step a a' : al_reachable a → al_step a a' → al_reachable a'.

Lemma debug_check_NoDup a u : al_debug_check_uniqueness true a = Some u → NoDup (edges a).
Proof.
  unfold al_debug_check_uniqueness, rassert.
  destruct (al_all_unique a) eqn:E; [|done]. intros _. by apply al_all_unique_spec.
Qed.

Lemma al_step_NoDup a a' : al_step a a' → NoDup (edges a) → NoDup (edges a').
Proof.
  destruct 1 as [a i|a items|a f|a len|a|a|R ? a|a items a' E|a f a' E|a d c st at_most a' _ E];
    intros Ha; simpl.
  - by apply al_push_NoDup.
  - destruct (al_extend_ok items a) as (new & -> & H1 & H2 & H3). simpl.
    apply NoDup_app. split_and!; [done| |done]. intros x Hx Hn. by apply H3 in Hn as [_ ?].
  - eapply sublist_NoDup; [done|]. apply List_filter_sublist.
  - eapply sublist_NoDup; [done|]. apply sublist_take.
  - constructor.
  - constructor.
  - by rewrite merge_sort_Permutation.
  - unfold al_overwrite_trusted in E. inv_bind. by eapply debug_check_NoDup.
  - unfold al_remap_trusted in E. inv_bind. by eapply debug_check_NoDup.
  - unfold guard_finish in E. inv_bind. by eapply debug_check_NoDup.
Qed.

End theory.

Section dedup_theory.
Context {I : Type} (R : relation I) `{!EqDecision I, !RelDecision R}.

Lemma elem_of_dedup (l : list I) x : x ∈ dedup l ↔ x ∈ l.
Proof.
  induction l as [|y l IH]; simpl; [done|]. destruct (dedup l) as [|z k] eqn:E.
  - rewrite list_elem_of_singleton, elem_of_cons, <-IH, elem_of_nil. tauto.
  - case_bool_decide; subst; rewrite ?(elem_of_cons (z :: k)), ?(elem_of_cons l), <-IH.
    + rewrite elem_of_cons. tauto.
    + tauto.
Qed.

Lemma sublist_dedup (l : list I) : sublist (dedup l) l.
Proof.
  induction l as [|y l IH]; simpl; [done|]. destruct (dedup l) as [|z k].
  - by apply sublist_skip.
  - case_bool_decide; [by apply sublist_cons|by apply sublist_skip].
Qed.

Lemma head_dedup (l : list I) : head (dedup l) = head l.
Proof.
  induction l as [|y l IH]; simpl; [done|]. destruct (dedup l) as [|z k]; [done|].
  by case_bool_decide; subst.
Qed.

Lemma NoDup_dedup `{!AntiSymm (=) R} (l : list I) : StronglySorted R l → NoDup (dedup l).
Proof.
  induction 1 as [|x l Hl IH Hx]; simpl; [constructor|].
  destruct (dedup l) as [|y k] eqn:E; [apply NoDup_singleton|].
  case_bool_decide as Hxy; [done|]. constructor; [|done].
  assert (head l = Some y) as Hh by (by rewrite <-head_dedup, E).
  destruct l as [|y' l]; simplify_eq/=. inversion_clear Hl as [|?? Hl' Hy].
  rewrite Forall_cons in Hx. destruct Hx as [Hxy' _].
  rewrite elem_of_cons. intros [->|Hin]; [done|]. apply Hxy.
  assert (x ∈ y :: l) as Hxl by (apply elem_of_dedup; simpl; rewrite E; by right).
  apply elem_of_cons in Hxl as [->|Hxl]; [done|]. rewrite Forall_forall in Hy.
  apply (anti_symm R); [done|by apply Hy].
Qed.

End dedup_theory.

(** ** The backedge buffer refines the adjacency list *)

Section backedge_theory.
Context {I : Type} `{!EqDecision I, !ContainsSimd I}.
Implicit Types (b : Backedge.Inner I) (v : I).

Lemma neq_spec (x y : I) : Backedge.neq x y = true ↔ x ≠ y.
Proof. unfold Backedge.neq. by rewrite negb_true_iff, bool_decide_eq_false. Qed.

(** The invariant: no repetition. *)
Definition buf_ok b : Prop := NoDup (Backedge.as_slice b).

Lemma al_push_in (l : list I) v : v ∈ l → al_push (mkAdj l) v = (mkAdj l, false).
Proof. intros Hv. by destruct (al_push_cases (mkAdj l) v) as [[? ->]|[? ?]]. Qed.

Lemma al_push_notin (l : list I) v : v ∉ l → al_push (mkAdj l) v = (mkAdj (l ++ [v]), true).
Proof. intros Hv. by destruct (al_push_cases (mkAdj l) v) as [[? ?]|[? ->]]. Qed.

Lemma debug_check_ok debug (l : list I) :
  NoDup l → al_debug_check_uniqueness debug (mkAdj l) = Some tt.
Proof.
  intros Hl. unfold al_debug_check_uniqueness, rassert. destruct debug; [|done].
  by rewrite (proj2 (al_all_unique_spec (mkAdj l)) Hl).
Qed.

(** The comparisons of the inline variants decide membership. *)
Lemma neqs_spec (l : list I) v :
  foldr (λ x (r : bool), Backedge.neq x v && r) true l = true ↔ v ∉ l.
Proof.
  induction l as [|x l IH]; simpl; [split; [intros _; apply not_elem_of_nil|done]|].
  rewrite andb_true_iff, IH, neq_spec, not_elem_of_cons. naive_solver.
Qed.

Lemma buf_push_eq debug dflt b v :
  buf_ok b →
  ∃ b', Backedge.push debug dflt b v =
          Some (b', (al_push (mkAdj (Backedge.as_slice b)) v).2) ∧
        Backedge.as_slice b' = edges (al_push (mkAdj (Backedge.as_slice b)) v).1.
Proof.
  intros Hb. pose proof (neqs_spec (Backedge.as_slice b) v) as Hn.
  destruct (decide (v ∈ Backedge.as_slice b)) as [Hv|Hv].
  - rewrite al_push_in by done.
    assert (foldr (λ x (r : bool), Backedge.neq x v && r) true (Backedge.as_slice b) = false)
      as Hf by (apply not_true_iff_false; tauto).
    destruct b as [|v0|v0 v1|v0 v1 v2|v0 v1 v2 v3|[l]]; simpl in *; rewrite ?andb_true_r in *;
      rewrite <-?andb_assoc; try discriminate Hf; try rewrite Hf; try (by eexists).
    rewrite al_push_in by done. by eexists.
  - assert (NoDup (Backedge.as_slice b ++ [v])) as Hnd by (by apply NoDup_snoc).
    rewrite al_push_notin by done. apply Hn in Hv as Ht.
    destruct b as [|v0|v0 v1|v0 v1 v2|v0 v1 v2 v3|[l]]; simpl in *; rewrite ?andb_true_r in *;
      rewrite <-?andb_assoc; try rewrite Ht; try (by eexists).
    + unfold guard_finish, al_truncate. simpl. rewrite debug_check_ok by done. by eexists.
    + rewrite al_push_notin by done. by eexists.
Qed.

Lemma buf_push_ok debug dflt b v b' inserted :
  buf_ok b → Backedge.push debug dflt b v = Some (b', inserted) → buf_ok b'.
Proof.
  intros Hb E. destruct (buf_push_eq debug dflt b v Hb) as (b'' & E' & Hs).
  rewrite E in E'. simplify_eq. unfold buf_ok. rewrite Hs. by apply al_push_NoDup.
Qed.

(** A run of pushes. *)
Fixpoint buf_push_all (debug : bool) (dflt : I) b (vs : list I) : option (Backedge.Inner I) :=
  match vs with
  | [] => Some b
  | v :: vs => '(b, _) ← Backedge.push debug dflt b v; buf_push_all debug dflt b vs
  end.

Lemma buf_push_all_ok debug dflt vs : ∀ b,
  buf_ok b →
  ∃ b', buf_push_all debug dflt b vs = Some b' ∧ buf_ok b' ∧
    Backedge.as_slice b' = edges (al_extend_from_slice (mkAdj (Backedge.as_slice b)) vs).1.
Proof.
  induction vs as [|v vs IH]; intros b Hb; simpl; [by exists b|].
  destruct (buf_push_eq debug dflt b v Hb) as (b1 & E & Hs). rewrite E. simpl.
  destruct (IH b1) as (b' & -> & Hb' & Hs'); [by eapply buf_push_ok|].
  exists b'. split_and!; [done..|]. rewrite Hs', Hs.
  destruct (al_push (mkAdj (Backedge.as_slice b)) v) as [[l] ins]. simpl.
  by destruct (al_extend_from_slice (mkAdj l) vs).
Qed.

End backedge_theory.

(** ** Properties *)

(** The AVX2 membership test over 32-bit ids agrees with list membership for every slice
    and target: its blocks of 32, 16, 8 and 4 items and the scalar tail cover the slice, no
    load reads past its end, and the loop terminates. *)
Theorem contains_simd_u32_correct (v : list Z) (t : Z) :
  contains_simd_u32 v t = Some (bool_decide (t ∈ v)).
Proof.
  rewrite contains_simd_u32_ok. f_equal. apply Bool.eq_true_iff_eq.
  by rewrite contains_rest_spec, bool_decide_eq_true.
Qed.

Section properties.
Context {I : Type} `{!EqDecision I, !ContainsSimd I}.

(** Every adjacency list reachable from the empty one by the list's own methods (push,
    extend, retain, truncate, clear, sort, a dropped resize guard, and the trusted
    overwrite, remap and guard completion whose debug check passed) has no repeated item. *)
Theorem adjacency_list_unique (a : AdjacencyList I) : al_reachable a → NoDup (edges a).
Proof.
  induction 1 as [|a a' _ IH Hs]; [constructor|]. by apply (al_step_NoDup a).
Qed.

(** [from_iter_untrusted] yields a list without repetition that is sorted and has exactly
    the items of the iterator, for any total order. *)
Lemma from_iter_untrusted_ok (R : relation I)
    `{!RelDecision R, !Transitive R, !Total R, !AntiSymm (=) R} (items : list I) :
  let l := edges (al_from_iter_untrusted R items) in
  NoDup l ∧ StronglySorted R l ∧ (∀ x, x ∈ l ↔ x ∈ items).
Proof.
  simpl. pose proof (StronglySorted_merge_sort R items) as Hs. split_and!.
  - by eapply NoDup_dedup.
  - eapply StronglySorted_sublist; [apply sublist_dedup|done].
  - intros x. by rewrite elem_of_dedup, merge_sort_Permutation.
Qed.

(** The backedge buffer with its four inline slots refines the adjacency list: any run of
    pushes from an empty buffer succeeds in debug and release builds alike and leaves the
    same items, in the same order, as extending an empty adjacency list. *)
Theorem backedge_refines_list (debug : bool) (dflt : I) (vs : list I) :
  ∃ b, buf_push_all debug dflt Backedge.None_ vs = Some b ∧
    Backedge.as_slice b = edges (al_extend_from_slice al_new vs).1 ∧
    NoDup (Backedge.as_slice b).
Proof.
  destruct (buf_push_all_ok debug dflt vs Backedge.None_) as (b & ? & ? & ?);
    [constructor|by eauto].
Qed.

End properties.

Lemma adjacency_list_unique_witness :
  NoDup (edges (al_push (al_extend_from_slice (al_new : AdjacencyList Z) [3; 1; 3]%Z).1 1%Z).1).
Proof.
  apply adjacency_list_unique. eapply reach_step; [|apply step_push].
  eapply reach_step; [|apply step_extend]. constructor.
Defined.

#[export] Instance Zle_total : Total Z.le.
Proof. intros x y. lia. Qed.
#[export] Instance Zle_trans : Transitive Z.le.
Proof. intros x y z. lia. Qed.
#[export] Instance Zle_antisymm : AntiSymm (=) Z.le.
Proof. intros x y. lia. Qed.
