(* ===== verification/Config.v ===== *)
(** * The graph configuration

    Models [diskann/src/graph/config/mod.rs], [config/defaults.rs] and
    [config/experimental.rs]: the builder of the index configuration with its validation, the
    pruning rule [PruneKind] and the choice of intra-batch candidates.  A [NonZeroU32] or
    [NonZeroU16] is an integer; that the validated values fit those types is the theorem
    [try_from_builder_valid]. *)

From Stdlib Require Import SpecFloat String.
From S2P Require Import Prelude F32.
Local Open Scope string_scope.
Local Open Scope Z_scope.

(** ** The pruning rule *)

(** [diskann_vector::distance::Metric] *)
Inductive Metric := Cosine | InnerProduct | L2 | CosineNormalized.

Inductive PruneKind := TriangleInequality | Occluding.

Definition from_metric (m : Metric) : PruneKind :=
  match m with
  | L2 | Cosine | CosineNormalized => TriangleInequality
  | InnerProduct => Occluding
  end.

(** [OCCLUDING_MASK = 0.01f32] *)
Definition OCCLUDING_MASK : f32 := S754_finite false 10737418 (-30).

Definition update_occlude_factor (k : PruneKind)
    (distance_ik distance_jk current_factor current_alpha : f32) : f32 :=
  match k with
  | TriangleInequality =>
      if f32_eq distance_jk f32_zero then f32_max_value
      else f32_max current_factor (f32_div distance_ik distance_jk)
  | Occluding =>
      if f32_lt distance_jk (f32_mul current_alpha distance_ik)
      then f32_add current_alpha OCCLUDING_MASK
      else current_factor
  end.

(** ** Intra-batch candidates *)

Inductive IntraBatchCandidates := IbcNone | IbcMax (max : Z) | IbcAll.

Definition ibc_new (value : Z) : IntraBatchCandidates :=
  if value =? 0 then IbcNone else IbcMax value.

Definition ibc_get (c : IntraBatchCandidates) (batch_size : nat) : nat :=
  match c with
  | IbcNone => 0
  | IbcMax max => Nat.min (Z.to_nat max) batch_size
  | IbcAll => batch_size
  end.

Definition ibc_is_none (c : IntraBatchCandidates) : bool :=
  match c with IbcNone => true | _ => false end.

(** ** Insertion retries (experimental) *)

Record InsertRetry := mkRetry {
  max_retries : Z;
  retry_if_candidates_shorter_than : Z;
  saturate_on_last_attempt : bool;
}.

Definition should_saturate (r : InsertRetry) (attempt : Z) : bool :=
  saturate_on_last_attempt r && (attempt =? max_retries r - 1).

Definition should_retry (r : InsertRetry) (attempt num_candidates : Z) : bool :=
  negb (attempt =? max_retries r - 1) && (num_candidates <? retry_if_candidates_shorter_than r).

(** ** The configuration and its builder *)

Record Config := mkConfig {
  c_pruned_degree : Z;
  c_max_degree : Z;
  c_l_build : Z;
  c_alpha : f32;
  c_prune_kind : PruneKind;
  c_max_occlusion_size : Z;
  c_max_backedges : Z;
  c_max_minibatch_par : Z;
  c_intra_batch_candidates : IntraBatchCandidates;
  c_saturate_after_prune : bool;
  c_experimental_insert_retry : option InsertRetry;
}.

Inductive MaxDegree := MdValue (v : Z) | MdSlack (slack : f32) | MdSame.

Inductive BackedgeSpec := Ratio (r : f32) | Amount (a : Z).

Record Builder := mkBuilder {
  b_pruned_degree : Z;
  b_max_degree : MaxDegree;
  b_l_build : Z;
  b_prune_kind : PruneKind;
  b_alpha : option f32;
  b_max_occlusion_size : option Z;
  b_backedge_spec : option BackedgeSpec;
  b_max_minibatch_par : option Z;
  b_intra_batch_candidates : option IntraBatchCandidates;
  b_saturate_after_prune : option bool;
  b_insert_retry : option InsertRetry;
}.

(** [defaults] *)
Definition MAX_OCCLUSION_SIZE : Z := 750.
Definition GRAPH_SLACK_FACTOR : f32 := S754_finite false 10905190 (-23).
Definition ALPHA : f32 := S754_finite false 10066330 (-23).
Definition MAX_MINIBATCH_PARALLELISM : Z := 1.
Definition INTRA_BATCH_CANDIDATES : IntraBatchCandidates := IbcAll.

(** The bound that a conversion checks: [u32::MAX] or [u16::MAX]. *)
Inductive Max := U32 | U16.

Definition max_value (m : Max) : Z :=
  match m with U32 => 2 ^ 32 - 1 | U16 => 2 ^ 16 - 1 end.

Inductive ConfigErrorInner :=
| EParameter (param : string) (value : Z) (max : Max)
| ESlack (slack : f32)
| EDegrees (max_degree pruned_degree : Z)
| EBackedges (max_backedges pruned_degree : Z)
| EBackedgeRatio (ratio : f32).

(** [TryFromUsize::try_from_usize] with [non_zero_error]. *)
Definition non_zero_error (m : Max) (param : string) (val : Z) : result ConfigErrorInner Z :=
  if max_value m <? val then Err (EParameter param val m)
  else if val =? 0 then Err (EParameter param val m)
  else Ok val.

(** [Builder::new] *)
Definition builder_new (pruned_degree : Z) (max_degree : MaxDegree) (l_build : Z)
    (prune_kind : PruneKind) : Builder :=
  mkBuilder pruned_degree max_degree l_build prune_kind None None None None None None None.

(** The setters of the builder. *)
Section setters.
Variable b : Builder.
Let mk a l o bs p i s r :=
  mkBuilder (b_pruned_degree b) (b_max_degree b) l (b_prune_kind b) a o bs p i s r.

Definition builder_alpha (alpha : f32) : Builder :=
  mk (Some alpha) (b_l_build b) (b_max_occlusion_size b) (b_backedge_spec b)
    (b_max_minibatch_par b) (b_intra_batch_candidates b) (b_saturate_after_prune b)
    (b_insert_retry b).

Definition builder_l_build (size : Z) : Builder :=
  mk (b_alpha b) size (b_max_occlusion_size b) (b_backedge_spec b)
    (b_max_minibatch_par b) (b_intra_batch_candidates b) (b_saturate_after_prune b)
    (b_insert_retry b).

Definition builder_max_occlusion_size (size : Z) : Builder :=
  mk (b_alpha b) (b_l_build b) (Some size) (b_backedge_spec b)
    (b_max_minibatch_par b) (b_intra_batch_candidates b) (b_saturate_after_prune b)
    (b_insert_retry b).

Definition builder_backedge_ratio (ratio : f32) : Builder :=
  mk (b_alpha b) (b_l_build b) (b_max_occlusion_size b) (Some (Ratio ratio))
    (b_max_minibatch_par b) (b_intra_batch_candidates b) (b_saturate_after_prune b)
    (b_insert_retry b).

Definition builder_max_backedges (max : Z) : Builder :=
  mk (b_alpha b) (b_l_build b) (b_max_occlusion_size b) (Some (Amount max))
    (b_max_minibatch_par b) (b_intra_batch_candidates b) (b_saturate_after_prune b)
    (b_insert_retry b).

Definition builder_max_minibatch_par (par : Z) : Builder :=
  mk (b_alpha b) (b_l_build b) (b_max_occlusion_size b) (b_backedge_spec b)
    (Some par) (b_intra_batch_candidates b) (b_saturate_after_prune b) (b_insert_retry b).

Definition builder_intra_batch_candidates (candidates : IntraBatchCandidates) : Builder :=
  mk (b_alpha b) (b_l_build b) (b_max_occlusion_size b) (b_backedge_spec b)
    (b_max_minibatch_par b) (Some candidates) (b_saturate_after_prune b) (b_insert_retry b).

Definition builder_saturate_after_prune (to_saturate : bool) : Builder :=
  mk (b_alpha b) (b_l_build b) (b_max_occlusion_size b) (b_backedge_spec b)
    (b_max_minibatch_par b) (b_intra_batch_candidates b) (Some to_saturate) (b_insert_retry b).

Definition builder_insert_retry (r : InsertRetry) : Builder :=
  mk (b_alpha b) (b_l_build b) (b_max_occlusion_size b) (b_backedge_spec b)
    (b_max_minibatch_par b) (b_intra_batch_candidates b) (b_saturate_after_prune b) (Some r).

End setters.

Local Open Scope rust_scope.

(** The [max_degree] of [try_from_builder]. *)
Definition build_max_degree (pruned_degree : Z) (m : MaxDegree) : result ConfigErrorInner Z :=
  match m with
  | MdValue max => non_zero_error U32 "max_degree" max
  | MdSlack slack =>
      if f32_lt slack f32_one || negb (is_finite slack) then Err (ESlack slack)
      else non_zero_error U32 "max_degree (from slack)"
             (f32_to_usize (f32_mul slack (f32_of_Z pruned_degree)))
  | MdSame => Ok pruned_degree
  end.

(** The [max_backedges] of [try_from_builder]. *)
Definition build_max_backedges (pruned_degree : Z) (s : option BackedgeSpec) :
    result ConfigErrorInner Z :=
  match s with
  | Some (Ratio ratio) =>
      if negb (is_finite ratio) || f32_le ratio f32_zero || f32_gt ratio f32_one
      then Err (EBackedgeRatio ratio)
      else non_zero_error U32 "backedge_ratio (from slack)"
             (f32_to_usize (f32_ceil (f32_mul ratio (f32_of_Z pruned_degree))))
  | Some (Amount amount) => non_zero_error U32 "max_backedges" amount
  | None => Ok pruned_degree
  end.

(** [Config::try_from_builder] *)
Definition try_from_builder (b : Builder) : result ConfigErrorInner Config :=
  let alpha := default ALPHA (b_alpha b) in
  let? pruned_degree := non_zero_error U32 "pruned_degree" (b_pruned_degree b) in
  let? max_degree := build_max_degree pruned_degree (b_max_degree b) in
  if max_degree <? pruned_degree then Err (EDegrees max_degree pruned_degree) else
  let? l_build := non_zero_error U32 "l_build" (b_l_build b) in
  let? max_occlusion_size :=
    match b_max_occlusion_size b with
    | Some max => non_zero_error U16 "max_occlusion_size" max
    | None => Ok MAX_OCCLUSION_SIZE
    end in
  let? max_backedges := build_max_backedges pruned_degree (b_backedge_spec b) in
  if pruned_degree <? max_backedges then Err (EBackedges max_backedges pruned_degree) else
  let? max_minibatch_par :=
    match b_max_minibatch_par b with
    | Some par => non_zero_error U32 "max_minibatch_par" par
    | None => Ok MAX_MINIBATCH_PARALLELISM
    end in
  Ok (mkConfig pruned_degree max_degree l_build alpha (b_prune_kind b) max_occlusion_size
        max_backedges max_minibatch_par
        (default INTRA_BATCH_CANDIDATES (b_intra_batch_candidates b))
        (default false (b_saturate_after_prune b)) (b_insert_retry b)).

(** ** Validity *)

Definition in_range (m : Max) (v : Z) : Prop := 1 ≤ v ≤ max_value m.

(** What the rest of the index relies on. *)
Record config_valid (c : Config) : Prop := {
  cv_pruned : in_range U32 (c_pruned_degree c);
  cv_max : in_range U32 (c_max_degree c);
  cv_slack : c_pruned_degree c ≤ c_max_degree c;
  cv_l_build : in_range U32 (c_l_build c);
  cv_occlusion : in_range U16 (c_max_occlusion_size c);
  cv_backedges : 1 ≤ c_max_backedges c ≤ c_pruned_degree c;
  cv_par : in_range U32 (c_max_minibatch_par c);
}.

(** The arguments of the builder are [usize]. *)
Definition max_degree_usize (m : MaxDegree) : Prop :=
  match m with MdValue v => 0 ≤ v | _ => True end.
Definition backedge_usize (s : option BackedgeSpec) : Prop :=
  match s with Some (Amount a) => 0 ≤ a | _ => True end.
Definition opt_usize (o : option Z) : Prop := match o with Some v => 0 ≤ v | None => True end.

Record builder_usize (b : Builder) : Prop := {
  bu_pruned : 0 ≤ b_pruned_degree b;
  bu_max : max_degree_usize (b_max_degree b);
  bu_l_build : 0 ≤ b_l_build b;
  bu_occlusion : opt_usize (b_max_occlusion_size b);
  bu_backedges : backedge_usize (b_backedge_spec b);
  bu_par : opt_usize (b_max_minibatch_par b);
}.

Lemma result_bind_Ok {E A B} (m : result E A) (f : A → result E B) b :
  result_bind m f = Ok b → ∃ a, m = Ok a ∧ f a = Ok b.
Proof. destruct m; simpl; [eauto|done]. Qed.

Lemma non_zero_error_Ok m p v r :
  0 ≤ v → non_zero_error m p v = Ok r → r = v ∧ in_range m r.
Proof.
  unfold non_zero_error, in_range. intros Hv H.
  destruct (Z.ltb_spec (max_value m) v), (Z.eqb_spec v 0); simplify_eq. lia.
Qed.

Lemma magnitude_floor_nonneg m e : 0 ≤ magnitude_floor m e.
Proof.
  unfold magnitude_floor. destruct (Z.leb_spec 0 e); [|apply Z.div_pos; lia].
  apply Z.mul_nonneg_nonneg; lia.
Qed.

Lemma f32_to_usize_nonneg x : 0 ≤ f32_to_usize x.
Proof.
  destruct x as [s|s| |s m e]; simpl; try lia; destruct s; try lia.
  pose proof (magnitude_floor_nonneg m e). lia.
Qed.

Lemma build_max_degree_Ok p m r :
  in_range U32 p → max_degree_usize m → build_max_degree p m = Ok r → in_range U32 r.
Proof.
  intros Hp Hm H. destruct m as [v|s|]; simpl in *.
  - by apply non_zero_error_Ok in H as [_ ?].
  - destruct (_ || _); [done|].
    apply non_zero_error_Ok in H as [_ ?]; [done|apply f32_to_usize_nonneg].
  - by simplify_eq.
Qed.

Lemma build_max_backedges_Ok p s r :
  in_range U32 p → backedge_usize s → build_max_backedges p s = Ok r → in_range U32 r.
Proof.
  intros Hp Hs H. destruct s as [[ratio|a]|]; simpl in *.
  - destruct (_ || _); [done|].
    apply non_zero_error_Ok in H as [_ ?]; [done|apply f32_to_usize_nonneg].
  - by apply non_zero_error_Ok in H as [_ ?].
  - by simplify_eq.
Qed.

Lemma try_from_builder_Ok b c :
  builder_usize b → try_from_builder b = Ok c →
  config_valid c ∧ c_alpha c = default ALPHA (b_alpha b) ∧
  c_pruned_degree c = b_pruned_degree b ∧ c_l_build c = b_l_build b ∧
  c_prune_kind c = b_prune_kind b.
Proof.
  intros [B1 B2 B3 B4 B5 B6] H. unfold try_from_builder in H.
  apply result_bind_Ok in H as (p & Hp & H).
  apply non_zero_error_Ok in Hp as [-> Hp]; [|done].
  apply result_bind_Ok in H as (md & Hmd & H). apply build_max_degree_Ok in Hmd; [|done..].
  destruct (Z.ltb_spec md (b_pruned_degree b)); [done|].
  apply result_bind_Ok in H as (l & Hl & H). apply non_zero_error_Ok in Hl as [-> Hl]; [|done].
  apply result_bind_Ok in H as (mo & Hmo & H).
  assert (in_range U16 mo).
  { destruct (b_max_occlusion_size b); simpl in B4.
    - by apply non_zero_error_Ok in Hmo as [_ ?].
    - simplify_eq. done. }
  apply result_bind_Ok in H as (mb & Hmb & H). apply build_max_backedges_Ok in Hmb; [|done..].
  destruct (Z.ltb_spec (b_pruned_degree b) mb); [done|].
  apply result_bind_Ok in H as (par & Hpar & H).
  assert (in_range U32 par).
  { destruct (b_max_minibatch_par b); simpl in B6.
    - by apply non_zero_error_Ok in Hpar as [_ ?].
    - simplify_eq. done. }
  simplify_eq. split_and!; try done. split; simpl; auto. unfold in_range in Hmb. lia.
Qed.

(** ** Properties *)

(** C40: every configuration the builder accepts is valid: all sizes are positive and fit their
    [u32] or [u16], the pruned degree is at most the maximum degree and at least the backedge
    bound; and the degree, the build window, the alpha and the pruning rule are the ones that
    were asked for (alpha defaulting to 1.2). *)
Theorem try_from_builder_valid (b : Builder) (c : Config) :
  builder_usize b → try_from_builder b = Ok c →
  config_valid c ∧ c_alpha c = default ALPHA (b_alpha b) ∧
  c_pruned_degree c = b_pruned_degree b ∧ c_l_build c = b_l_build b ∧
  c_prune_kind c = b_prune_kind b.
Proof. apply try_from_builder_Ok. Qed.

Definition demo_builder : Builder :=
  mkBuilder 10 (MdSlack GRAPH_SLACK_FACTOR) 50 TriangleInequality None (Some 100)
    (Some (Ratio (S754_finite false 8388608 (-24)))) None None None None.

Lemma demo_builder_usize : builder_usize demo_builder.
Proof. split; simpl; lia. Qed.

Lemma try_from_builder_valid_witness :
  ∃ c, try_from_builder demo_builder = Ok c ∧ c_max_degree c = 13 ∧ c_max_backedges c = 5 ∧
    config_valid c.
Proof.
  eexists. split; [vm_compute; reflexivity|]. split_and!; [reflexivity..|].
  eapply (try_from_builder_valid demo_builder _ demo_builder_usize). vm_compute. reflexivity.
Defined.

(** What the builder rejects: a zero or oversized pruned degree is the first error
    reported, whatever the other parameters; then a slack factor below one or not finite; and
    a maximum degree below the pruned degree. *)
Theorem try_from_builder_errors (b : Builder) :
  0 ≤ b_pruned_degree b →
  (¬ in_range U32 (b_pruned_degree b) →
     try_from_builder b = Err (EParameter "pruned_degree" (b_pruned_degree b) U32)) ∧
  (∀ slack, in_range U32 (b_pruned_degree b) → b_max_degree b = MdSlack slack →
     f32_lt slack f32_one || negb (is_finite slack) = true →
     try_from_builder b = Err (ESlack slack)) ∧
  (∀ v, in_range U32 (b_pruned_degree b) → b_max_degree b = MdValue v →
     in_range U32 v → v < b_pruned_degree b →
     try_from_builder b = Err (EDegrees v (b_pruned_degree b))).
Proof.
  intros H0. unfold try_from_builder, non_zero_error, in_range, build_max_degree. split_and!.
  - intros Hr. destruct (Z.ltb_spec (max_value U32) (b_pruned_degree b)); [done|].
    destruct (Z.eqb_spec (b_pruned_degree b) 0); [done|]. lia.
  - intros slack Hr -> Hs. destruct (Z.ltb_spec (max_value U32) (b_pruned_degree b)); [lia|].
    destruct (Z.eqb_spec (b_pruned_degree b) 0); [lia|]. simpl. by rewrite Hs.
  - intros v Hr -> Hv Hlt. destruct (Z.ltb_spec (max_value U32) (b_pruned_degree b)); [lia|].
    destruct (Z.eqb_spec (b_pruned_degree b) 0); [lia|]. simpl. unfold non_zero_error.
    destruct (Z.ltb_spec (max_value U32) v); [lia|].
    destruct (Z.eqb_spec v 0); [lia|]. simpl. by destruct (Z.ltb_spec v (b_pruned_degree b)); [|lia].
Qed.

Lemma try_from_builder_errors_witness :
  try_from_builder (builder_new 8 (MdValue 7) 10 Occluding) = Err (EDegrees 7 8).
Proof.
  apply (try_from_builder_errors (builder_new 8 (MdValue 7) 10 Occluding));
    try reflexivity; unfold in_range; simpl; lia.
Defined.
