(* ===== verification/Prune.v ===== *)
(** * Pruning of candidate lists

    Models [diskann/src/graph/internal/sorted_neighbors.rs] (the closest candidates in order),
    [internal/prune.rs] (Vamana's RobustPrune over a candidate list) and [occlude_list] of
    [diskann/src/graph/index.rs], which builds the adjacency list of a vertex from them.

    - Class [UnstableSort]: the two standard-library sorts that [SortedNeighbors::new] calls,
      by their documented contract, with an instance by merge sort;
    - Section [robust_prune]: the algorithm with its per-position states, [u16] fields and all
      its indexing panics;
    - Section [invariant]: the invariant of the states;
    - Section [occlude]: [occlude_list] with its saturation step. *)

From Stdlib Require Import SpecFloat.
From S2P Require Import Prelude F32 Neighbor AdjacencyList Config.

(** ** Sorted candidates *)

Definition no_nan {I} (l : list (Neighbor I)) : Prop :=
  Forall (λ n, is_nan (nbr_distance n) = false) l.

(** [slice::select_nth_unstable_by] and [slice::sort_unstable_by] with [fast_distance].  Their
    results are only specified when the comparison is a total order, that is without NaN. *)
Class UnstableSort (I : Type) := {
  select_nth_unstable : nat → list (Neighbor I) → list (Neighbor I);
  sort_unstable : list (Neighbor I) → list (Neighbor I);
  select_nth_perm : ∀ p l, select_nth_unstable p l ≡ₚ l;
  select_nth_split : ∀ p l i j x y,
    no_nan l → p < length l → i ≤ p ≤ j →
    select_nth_unstable p l !! i = Some x → select_nth_unstable p l !! j = Some y → nbr_le x y;
  sort_perm : ∀ l, sort_unstable l ≡ₚ l;
  sort_sorted : ∀ l, no_nan l → StronglySorted nbr_le (sort_unstable l);
}.

(** [SortedNeighbors::new] *)
Definition sorted_neighbors {I} `{UnstableSort I} (neighbors : list (Neighbor I)) (max : nat) :
    list (Neighbor I) :=
  let neighbors :=
    match max `min` length neighbors with
    | 0 => neighbors
    | S position =>
        let l := select_nth_unstable position neighbors in
        sort_unstable (take position l) ++ drop position l
    end in
  take max neighbors.

(** [SortedNeighbors::map_in] *)
Definition map_in {I J} (f : I → J) (pool : list (Neighbor I)) : list (Neighbor J) :=
  map (λ n, mkNeighbor (f (nbr_id n)) (nbr_distance n)) pool.

(** ** RobustPrune *)

(** [prune::State]; the [u16] fields are natural numbers, wrapped where the code casts. *)
Record State := mkState {
  occlude_factor : f32;
  last_checked : nat;
  neighbor : nat;
}.

(** [State::default()] *)
Definition state_default : State := mkState f32_zero 0 0.

Definition set_occlude_factor (f : f32) (s : State) : State :=
  mkState f (last_checked s) (neighbor s).
Definition set_last_checked (c : nat) (s : State) : State :=
  mkState (occlude_factor s) c (neighbor s).
Definition set_neighbor (n : nat) (s : State) : State :=
  mkState (occlude_factor s) (last_checked s) n.

(** [x += 1] on a [u16]. *)
Definition u16_succ (x : nat) : option nat :=
  if (Z.of_nat x <? 65535)%Z then Some (x + 1) else None.

(** [x as u16] *)
Definition as_u16 (x : nat) : nat := Z.to_nat (Z.of_nat x mod 65536).

Section robust_prune.
Context {V : Type}.
Variables (candidates : list (Neighbor (option V))) (degree : nat) (alpha : f32)
  (prune_kind : PruneKind) (compute_distance : V → V → f32).

(** The inner [while last_checked != found] loop for candidate [i]: the states, the new
    [last_checked] and the new occlude factor. *)
Fixpoint check_loop (fuel : nat) (current_alpha : f32) (i : nat) (neighbor_distance : f32)
    (nb : V) (found : nat) (states : list State) (last : nat) (factor : f32) :
    option (list State * nat * f32) :=
  if last =? found then Some (states, last, factor) else
  match fuel with
  | 0 => None
  | S fuel =>
      s ← states !! last;
      let result_position := neighbor s in
      last ← u16_succ last;
      if i <=? result_position then
        si ← states !! i;
        check_loop fuel current_alpha i neighbor_distance nb found
          (<[i := set_last_checked last si]> states) last factor
      else
        c ← candidates !! result_position;
        let distance :=
          match nbr_id c with Some v => compute_distance nb v | None => f32_max_value end in
        let factor :=
          update_occlude_factor prune_kind neighbor_distance distance factor current_alpha in
        if f32_gt factor current_alpha then Some (states, last, factor)
        else check_loop fuel current_alpha i neighbor_distance nb found states last factor
  end.

(** One candidate of the [for] loop: the states and the number found. *)
Definition prune_candidate (current_alpha : f32) (i : nat) (c : Neighbor (option V))
    (states : list State) (found : nat) : option (list State * nat) :=
  si ← states !! i;
  if f32_gt (occlude_factor si) current_alpha then Some (states, found) else
  match nbr_id c with
  | None => Some (<[i := set_occlude_factor f32_max_value si]> states, found)
  | Some nb =>
      '(states, last, factor) ←
        check_loop found current_alpha i (nbr_distance c) nb found states (last_checked si)
          (occlude_factor si);
      si ← states !! i;
      let si := set_last_checked last si in
      if f32_gt factor current_alpha then
        Some (<[i := set_occlude_factor factor si]> states, found)
      else
        let states := <[i := set_occlude_factor f32_max_value si]> states in
        sf ← states !! found;
        Some (<[found := set_neighbor (as_u16 i) sf]> states, found + 1)
  end.

(** The [for] loop over the candidates from position [i]; it stops at the degree bound. *)
Fixpoint prune_pass (current_alpha : f32) (i : nat) (cs : list (Neighbor (option V)))
    (states : list State) (found : nat) : option (list State * nat) :=
  match cs with
  | [] => Some (states, found)
  | c :: cs =>
      if degree <=? found then Some (states, found) else
      '(states, found) ← prune_candidate current_alpha i c states found;
      prune_pass current_alpha (S i) cs states found
  end.

(** The outer loop over the increasing values of [current_alpha]. *)
Fixpoint prune_outer (fuel : nat) (increment_factor current_alpha : f32)
    (states : list State) (found : nat) : option (list State * nat) :=
  if found <? degree then
    match fuel with
    | 0 => None
    | S fuel =>
        '(states, found) ← prune_pass current_alpha 0 candidates states found;
        if f32_eq current_alpha alpha then Some (states, found)
        else prune_outer fuel increment_factor
               (f32_min (f32_mul current_alpha increment_factor) alpha) states found
    end
  else Some (states, found).

(** [prune::robust_prune]: the states and the number of selected candidates. *)
Definition robust_prune (fuel : nat) (states : list State) : option (list State * nat) :=
  prune_outer fuel (f32_min alpha ALPHA) f32_one states 0.

End robust_prune.

(** ** Building the adjacency list *)

Section occlude_list.
Context {I V : Type} `{!EqDecision I, !ContainsSimd I}.
Variables (cfg : Config) (debug : bool) (compute_distance : V → V → f32) (view : I → option V)
  (exclude : I → bool) (force_saturate : bool) (dflt : I).

(** The saturation loop: fills up to the degree with pool items that are not excluded. *)
Fixpoint saturate (degree : nat) (pool : list (Neighbor I)) (a : AdjacencyList I) :
    AdjacencyList I :=
  match pool with
  | [] => a
  | n :: pool =>
      if degree <=? length (edges a) then a
      else if negb (exclude (nbr_id n)) then saturate degree pool (al_push a (nbr_id n)).1
      else saturate degree pool a
  end.

(** [DiskANNIndex::occlude_list]: the neighbors of the context after the call. *)
Definition occlude_list (fuel : nat) (pool : list (Neighbor I)) (neighbors : AdjacencyList I) :
    option (AdjacencyList I) :=
  _ ← rassert (Z.of_nat (length pool) <=? 65535)%Z;
  match pool with
  | [] => Some (al_clear neighbors)
  | _ =>
      let alpha := c_alpha cfg in
      let degree := Z.to_nat (c_pruned_degree cfg) in
      let states := replicate (length pool) state_default in
      let cache := map_in (λ id, if exclude id then None else view id) pool in
      '(states, found) ←
        robust_prune cache degree alpha (c_prune_kind cfg) compute_distance fuel states;
      let guard := al_resize dflt found neighbors in
      ids ← mapM (λ s : State, nbr_id <$> pool !! neighbor s)
              (take (length (edges guard)) states);
      let storage := ids ++ drop (length ids) (edges guard) in
      neighbors ← guard_finish debug found (mkAdj storage);
      _ ← rassert (negb debug || (length (edges neighbors) <=? degree));
      if force_saturate || (c_saturate_after_prune cfg && f32_gt alpha f32_one)
      then Some (saturate degree pool neighbors)
      else Some neighbors
  end.

End occlude_list.

(** ** Theory: sorted candidates *)

Section sorted_theory.
Context {I : Type} `{!UnstableSort I}.

Lemma no_nan_perm (l k : list (Neighbor I)) : l ≡ₚ k → no_nan l → no_nan k.
Proof. unfold no_nan. by intros ->. Qed.

Lemma sorted_neighbors_ok (l : list (Neighbor I)) max :
  no_nan l →
  StronglySorted nbr_le (sorted_neighbors l max) ∧
  length (sorted_neighbors l max) = max `min` length l ∧
  ∃ dropped, l ≡ₚ sorted_neighbors l max ++ dropped ∧
    (∀ x y, x ∈ sorted_neighbors l max → y ∈ dropped → nbr_le x y).
Proof.
  intros Hn. unfold sorted_neighbors. destruct (max `min` length l) as [|p] eqn:Em.
  { assert (take max l = []) as -> by (apply nil_length_inv; rewrite length_take; lia).
    split_and!; [constructor|done|]. exists l. split; [done|]. intros x y Hx.
    by apply elem_of_nil in Hx. }
  set (s := select_nth_unstable p l).
  assert (s ≡ₚ l) as Hs by apply select_nth_perm.
  assert (length s = length l) as Hls by (by rewrite Hs).
  destruct (lookup_lt_is_Some_2 s p) as [z Hz]; [lia|].
  assert (∀ i j x y, i ≤ p ≤ j → s !! i = Some x → s !! j = Some y → nbr_le x y) as Hsplit
    by (intros; eapply (select_nth_split p l i j); eauto; lia).
  assert (no_nan (take p s)) as Hnt by (apply Forall_take; by rewrite Hs).
  set (t := sort_unstable (take p s)).
  assert (t ≡ₚ take p s) as Ht by apply sort_perm.
  assert (length t = p) as Hlt by (rewrite Ht, length_take; lia).
  assert (take max (t ++ drop p s) = t ++ [z]) as ->.
  { rewrite (drop_S _ _ _ Hz). destruct (decide (max = S p)) as [->|].
    - rewrite take_app, Hlt. replace (S p - p) with 1 by lia. simpl. rewrite take_0.
      by rewrite take_ge by lia.
    - rewrite take_ge; [|rewrite length_app; simpl; rewrite length_drop; lia].
      f_equal. f_equal. apply drop_ge. lia. }
  assert (∀ x, x ∈ t → nbr_le x z) as Htz.
  { intros x Hx. rewrite Ht in Hx. apply elem_of_take in Hx as (i & Hi & ?).
    eapply (Hsplit i p); eauto; lia. }
  split_and!.
  - apply StronglySorted_app_intro; [by apply sort_sorted|repeat constructor|].
    intros x y Hx ->%list_elem_of_singleton. by apply Htz.
  - rewrite length_app. simpl. lia.
  - exists (drop (S p) s). split.
    + rewrite <-Hs at 1. rewrite <-(take_drop p s) at 1. rewrite (drop_S _ _ _ Hz), <-Ht.
      by rewrite <-(assoc_L (++)).
    + intros x y Hx Hy. apply list_elem_of_lookup in Hy as [j Hj]. rewrite lookup_drop in Hj.
      assert (nbr_le z y) as Hzy by (eapply (Hsplit p (S p + j)); eauto; lia).
      apply elem_of_app in Hx as [Hx| ->%list_elem_of_singleton]; [|done].
      trans z; auto.
Qed.

End sorted_theory.

(** An instance: merge sort, with a full sort for the selection. *)
Definition nbr_not_gt {I} (x y : Neighbor I) : Prop :=
  f32_lt (nbr_distance y) (nbr_distance x) = false.

#[export] Instance nbr_not_gt_dec {I} : RelDecision (@nbr_not_gt I).
Proof. intros x y. unfold nbr_not_gt. apply _. Defined.

#[export] Instance nbr_not_gt_total {I} : Total (@nbr_not_gt I).
Proof.
  intros x y. unfold nbr_not_gt.
  destruct (f32_lt (nbr_distance y) (nbr_distance x)) eqn:E; [right|by left].
  destruct (f32_lt (nbr_distance x) (nbr_distance y)) eqn:E'; [|done].
  pose proof (f32_lt_trans _ _ _ E E') as H. by rewrite f32_lt_irrefl in H.
Qed.

Lemma merge_sort_nbr_sorted {I} (l : list (Neighbor I)) :
  no_nan l → StronglySorted nbr_le (merge_sort nbr_not_gt l).
Proof.
  intros Hn. assert (no_nan (merge_sort nbr_not_gt l)) as Hn'
    by (unfold no_nan; by rewrite merge_sort_Permutation).
  apply Sorted_StronglySorted; [apply _|].
  pose proof (Sorted_merge_sort nbr_not_gt l) as Hs.
  induction Hs as [|x k Hk IH Hx]; [constructor|].
  apply Forall_cons in Hn' as [Hnx Hnk]. constructor; [by apply IH|].
  inversion Hx as [|y k' Hxy]; subst; constructor.
  apply Forall_cons in Hnk as [Hny _]. by apply f32_not_lt.
Qed.

#[export] Program Instance UnstableSort_merge {I} : UnstableSort I := {|
  select_nth_unstable _ l := merge_sort nbr_not_gt l;
  sort_unstable l := merge_sort nbr_not_gt l;
|}.
Next Obligation. intros. apply merge_sort_Permutation. Qed.
Next Obligation.
  intros I p l i j x y Hn Hp Hij Hx Hy. destruct (decide (i = j)) as [->|].
  - simplify_eq/=. apply f32_le_refl. pose proof (merge_sort_Permutation nbr_not_gt l) as Hperm.
    assert (x ∈ l) as Hin by (rewrite <-Hperm; by eapply list_elem_of_lookup_2).
    unfold no_nan in Hn. rewrite Forall_forall in Hn. by apply Hn.
  - eapply (StronglySorted_lookup nbr_le (merge_sort nbr_not_gt l) i j); eauto;
      [by apply merge_sort_nbr_sorted|lia].
Qed.
Next Obligation. intros. apply merge_sort_Permutation. Qed.
Next Obligation. intros. by apply merge_sort_nbr_sorted. Qed.

(** ** Theory: RobustPrune *)

(** The values an occlude factor is compared with: from zero to below [f32::MAX]. *)
Definition valid_alpha (a : f32) : Prop :=
  f32_le f32_zero a = true ∧ f32_lt a f32_max_value = true.

Lemma NoDup_bound_lt (l : list nat) i n :
  NoDup l → (∀ j, j ∈ l → j < n) → i < n → i ∉ l → length l < n.
Proof.
  intros Hl Hb Hi Hni.
  assert (length (i :: l) ≤ length (seq 0 n)) as H; [|rewrite length_seq in H; simpl in H; lia].
  apply submseteq_length, NoDup_submseteq; [by constructor|].
  intros j. rewrite elem_of_cons, elem_of_seq. intros [->|Hj]; [lia|]. specialize (Hb j Hj). lia.
Qed.

Section invariant.
Context {V : Type}.
Variables (candidates : list (Neighbor (option V))) (degree : nat) (alpha : f32)
  (prune_kind : PruneKind) (compute_distance : V → V → f32).
Hypothesis Hlen : (Z.of_nat (length candidates) ≤ 65535)%Z.
Implicit Types (states : list State) (sel : list nat).

(** Candidate [j] occludes candidate [i] at [a] under the triangle rule: they coincide or the
    ratio of the distances exceeds [a]. *)
Definition occludes (i j : nat) (a : f32) : bool :=
  match candidates !! i, candidates !! j with
  | Some (mkNeighbor (Some vi) di), Some (mkNeighbor (Some vj) _) =>
      f32_eq (compute_distance vi vj) f32_zero || f32_gt (f32_div di (compute_distance vi vj)) a
  | _, _ => false
  end.

(** The factor of [i] after it was compared with the first [last] selected candidates: it
    exceeds [a] exactly when one of them, closer than [i], occludes it at [a]. *)
Definition factor_ok sel (i last : nat) (factor : f32) : Prop :=
  prune_kind = TriangleInequality →
  ∀ a, valid_alpha a →
    f32_gt factor a = existsb (λ j, (j <? i) && occludes i j a) (take last sel).

(** The states when [sel] has been selected, in this order. *)
Record prune_inv sel states : Prop := {
  pi_length : length states = length candidates;
  pi_neighbor : ∀ k j, sel !! k = Some j → neighbor <$> states !! k = Some j;
  pi_nodup : NoDup sel;
  pi_retrieved : ∀ j, j ∈ sel → ∃ v d, candidates !! j = Some (mkNeighbor (Some v) d);
  pi_last : ∀ i s, states !! i = Some s → last_checked s ≤ length sel;
  pi_selected : ∀ j s, j ∈ sel → states !! j = Some s → occlude_factor s = f32_max_value;
  pi_factor : ∀ i s v d, i ∉ sel → states !! i = Some s →
    candidates !! i = Some (mkNeighbor (Some v) d) →
    factor_ok sel i (last_checked s) (occlude_factor s);
}.

(** No selected candidate is occluded by one that is closer and was selected before it. *)
Definition sel_sound sel (a : f32) : Prop :=
  prune_kind = TriangleInequality →
  ∀ p q j i, p < q → sel !! p = Some j → sel !! q = Some i → j < i → occludes i j a = false.

Lemma pi_bound sel states j : prune_inv sel states → j ∈ sel → j < length candidates.
Proof.
  intros Hi Hj. destruct (pi_retrieved _ _ Hi j Hj) as (v & d & E). by eapply lookup_lt_Some.
Qed.

Lemma pi_found_le sel states : prune_inv sel states → length sel ≤ length candidates.
Proof.
  intros Hi. rewrite <-(length_seq (length candidates) 0).
  apply submseteq_length, NoDup_submseteq; [apply Hi|].
  intros j Hj. apply elem_of_seq. apply (pi_bound _ _ _ Hi) in Hj. lia.
Qed.

Lemma gt_max_value a : valid_alpha a → f32_gt f32_max_value a = true.
Proof. by intros [_ H]. Qed.

Lemma update_factor_ok sel i j last v d vj dj factor ca :
  candidates !! i = Some (mkNeighbor (Some v) d) →
  candidates !! j = Some (mkNeighbor (Some vj) dj) →
  sel !! last = Some j → j < i → factor_ok sel i last factor →
  factor_ok sel i (S last)
    (update_occlude_factor prune_kind d (compute_distance v vj) factor ca).
Proof.
  intros Hi Hj Hl Hlt Hf Hk a Ha. rewrite (take_S_r _ _ _ Hl), existsb_app, <-(Hf Hk a Ha).
  simpl. rewrite orb_false_r, (proj2 (Nat.ltb_lt j i) Hlt). simpl.
  unfold occludes. rewrite Hi, Hj, Hk. simpl.
  destruct (f32_eq (compute_distance v vj) f32_zero) eqn:E; simpl.
  - by rewrite gt_max_value, orb_true_r by done.
  - apply f32_gt_max.
Qed.

Lemma skip_factor_ok sel i j last factor :
  sel !! last = Some j → i ≤ j → factor_ok sel i last factor → factor_ok sel i (S last) factor.
Proof.
  intros Hl Hij Hf Hk a Ha. rewrite (take_S_r _ _ _ Hl), existsb_app, (Hf Hk a Ha). simpl.
  by rewrite (proj2 (Nat.ltb_ge j i) Hij), orb_false_r.
Qed.

(** Changing [last_checked] at a position that is not selected keeps what [check_loop] reads. *)
Definition same_neighbors states states' : Prop :=
  ∀ k, neighbor <$> states' !! k = neighbor <$> states !! k.

Lemma check_loop_ok fuel ca i nb d sel states : ∀ states0 last factor,
  prune_inv sel states → i < length candidates → i ∉ sel →
  candidates !! i = Some (mkNeighbor (Some nb) d) →
  last ≤ length sel → length sel ≤ last + fuel →
  f32_gt factor ca = false → factor_ok sel i last factor →
  (∃ s0 c, states !! i = Some s0 ∧ states0 = <[i := set_last_checked c s0]> states) →
  ∃ states' last' factor',
    check_loop candidates prune_kind compute_distance fuel ca i d nb (length sel) states0 last
      factor = Some (states', last', factor') ∧
    (∃ s0 c, states !! i = Some s0 ∧ states' = <[i := set_last_checked c s0]> states) ∧
    last' ≤ length sel ∧ factor_ok sel i last' factor' ∧
    (f32_gt factor' ca = false → last' = length sel).
Proof.
  induction fuel as [|fuel IH]; intros states0 last factor Hinv Hi Hni Hc Hl Hfu Hg Hf Hst;
    cbn [check_loop]; destruct (Nat.eqb_spec last (length sel)) as [->|Hne];
    [by eauto 10|lia|by eauto 10|].
  destruct (lookup_lt_is_Some_2 sel last) as [j Hj]; [lia|].
  assert (j ∈ sel) as Hjs by (by eapply list_elem_of_lookup_2).
  destruct Hst as (s0 & c & Hs0 & ->).
  assert (∃ s, <[i:=set_last_checked c s0]> states !! last = Some s ∧ neighbor s = j)
    as (s & -> & Hsj).
  { pose proof (pi_neighbor _ _ Hinv last j Hj) as Hn.
    destruct (decide (i = last)) as [<-|].
    - rewrite list_lookup_insert_eq by (by eapply lookup_lt_Some). rewrite Hs0 in Hn.
      simplify_eq/=. by eexists.
    - rewrite list_lookup_insert_ne by done.
      destruct (states !! last) eqn:E; simplify_eq/=. by eexists. }
  cbn [mbind option_bind].
  assert (u16_succ last = Some (S last)) as ->.
  { unfold u16_succ. pose proof (pi_found_le _ _ Hinv).
    destruct (Z.ltb_spec (Z.of_nat last) 65535); [f_equal; lia|lia]. }
  cbn [mbind option_bind]. rewrite Hsj. case_nat.
  - rewrite list_lookup_insert_eq by (by eapply lookup_lt_Some).
    cbn [mbind option_bind]. rewrite list_insert_insert_eq.
    apply IH; auto; [lia..|by eapply skip_factor_ok|]. exists s0, (S last). by split.
  - destruct (pi_retrieved _ _ Hinv j Hjs) as (vj & dj & Ej). rewrite Ej.
    cbn [mbind option_bind nbr_id].
    assert (factor_ok sel i (S last)
      (update_occlude_factor prune_kind d (compute_distance nb vj) factor ca)) as Hf'
      by (eapply update_factor_ok; eauto).
    destruct (f32_gt (update_occlude_factor prune_kind d (compute_distance nb vj) factor ca) ca)
      eqn:Eg.
    + eexists _, (S last), _. split; [done|]. split_and!; [by eauto|lia|done|congruence].
    + apply IH; auto; [lia..|]. by eauto.
Qed.

(** Recording a comparison result for a candidate that is not selected. *)
Lemma prune_inv_update sel states i s f c :
  prune_inv sel states → i ∉ sel → states !! i = Some s → c ≤ length sel →
  (∀ v d, candidates !! i = Some (mkNeighbor (Some v) d) → factor_ok sel i c f) →
  prune_inv sel (<[i := mkState f c (neighbor s)]> states).
Proof.
  intros [Hl Hn Hnd Hr Hla Hs Hf] Hni Hi Hc Hfi. pose proof (lookup_lt_Some _ _ _ Hi).
  split; [by rewrite length_insert| |done|done| | |].
  - intros k j Hk. destruct (decide (k = i)) as [->|].
    + rewrite list_lookup_insert_eq by done. specialize (Hn i j Hk). rewrite Hi in Hn. done.
    + rewrite list_lookup_insert_ne by done. eauto.
  - intros k s' Hk. destruct (decide (k = i)) as [->|].
    + rewrite list_lookup_insert_eq in Hk by done. by simplify_eq/=.
    + rewrite list_lookup_insert_ne in Hk by done. eauto.
  - intros j s' Hj Hk. rewrite list_lookup_insert_ne in Hk by (intros ->; done). eauto.
  - intros k s' v d Hk Hs' Hcd. destruct (decide (k = i)) as [->|].
    + rewrite list_lookup_insert_eq in Hs' by done. simplify_eq/=. eauto.
    + rewrite list_lookup_insert_ne in Hs' by done. eauto.
Qed.

(** Promoting a candidate: its factor becomes [f32::MAX] and its index is written to the next
    result position. *)
Lemma prune_inv_select_at sel states i s v d sf :
  prune_inv sel states → i ∉ sel → candidates !! i = Some (mkNeighbor (Some v) d) →
  states !! i = Some s →
  (<[i := mkState f32_max_value (length sel) (neighbor s)]> states) !! length sel = Some sf →
  prune_inv (sel ++ [i])
    (<[length sel := set_neighbor i sf]>
       (<[i := mkState f32_max_value (length sel) (neighbor s)]> states)).
Proof.
  intros [Hl Hn Hnd Hr Hla Hs Hf] Hni Hi Hsi Hsf. set (st := <[i := _]> states) in *.
  pose proof (lookup_lt_Some _ _ _ Hsf) as Hlt. pose proof (lookup_lt_Some _ _ _ Hsi).
  assert (∀ k s', <[length sel := set_neighbor i sf]> st !! k = Some s' →
    ∃ s0, st !! k = Some s0 ∧ occlude_factor s' = occlude_factor s0 ∧
          last_checked s' = last_checked s0) as Hback0.
  { intros k s' Hk. destruct (decide (k = length sel)) as [->|].
    - rewrite list_lookup_insert_eq in Hk by done. simplify_eq. by exists sf.
    - rewrite list_lookup_insert_ne in Hk by done. by exists s'. }
  assert (st !! i = Some (mkState f32_max_value (length sel) (neighbor s))) as Hsti
    by (unfold st; by rewrite list_lookup_insert_eq).
  assert (∀ k, k ≠ i → st !! k = states !! k) as Hne
    by (intros; unfold st; by rewrite list_lookup_insert_ne).
  split.
  - unfold st. by rewrite !length_insert.
  - intros k j Hk. apply lookup_snoc_Some in Hk as [[Hk Hj]|[-> ->]].
    + rewrite list_lookup_insert_ne by lia. specialize (Hn k j Hj).
      destruct (decide (k = i)) as [->|]; [by rewrite Hsti; rewrite Hsi in Hn|by rewrite Hne].
    + by rewrite list_lookup_insert_eq by done.
  - apply NoDup_app. split_and!; [done| |apply NoDup_singleton].
    intros x Hx ->%list_elem_of_singleton. done.
  - intros j [Hj| ->%list_elem_of_singleton]%elem_of_app; eauto.
  - intros k s' Hk. destruct (Hback0 k s' Hk) as (s0 & H0 & _ & ->). rewrite length_app.
    destruct (decide (k = i)) as [->|]; [rewrite Hsti in H0; simplify_eq/=; lia|].
    rewrite Hne in H0 by done. pose proof (Hla k s0 H0). lia.
  - intros j s' Hj Hk. destruct (Hback0 j s' Hk) as (s0 & H0 & -> & _).
    destruct (decide (j = i)) as [->|]; [by rewrite Hsti in H0; simplify_eq/=|].
    rewrite Hne in H0 by done.
    apply elem_of_app in Hj as [Hj| ->%list_elem_of_singleton]; [eauto|done].
  - intros k s' v' d' Hk Hs' Hcd. destruct (Hback0 k s' Hs') as (s0 & H0 & -> & ->).
    rewrite not_elem_of_app, list_elem_of_singleton in Hk. destruct Hk as [Hk Hki].
    rewrite Hne in H0 by done. intros Hkind a Ha. rewrite take_app_le by eauto.
    exact (Hf k s0 v' d' Hk H0 Hcd Hkind a Ha).
Qed.

(** Candidate [i] is done for the value [a]: it is selected, was not retrieved, or its factor
    exceeds [a]. *)
Definition settled sel states (a : f32) (i : nat) : Prop :=
  i ∈ sel ∨ (∃ d, candidates !! i = Some (mkNeighbor None d)) ∨
  ∃ s, states !! i = Some s ∧ f32_gt (occlude_factor s) a = true.

(** What one step of the [for] loop does to the selection. *)
Record pruned_to (ca : f32) (lo hi : nat) sel states sel' states' : Prop := {
  pt_inv : prune_inv sel' states';
  pt_prefix : ∃ new, sel' = sel ++ new;
  pt_settled : ∀ k, settled sel states ca k → settled sel' states' ca k;
  pt_done : ∀ k, lo ≤ k < hi → settled sel' states' ca k;
  pt_sound : sel_sound sel ca → sel_sound sel' ca;
}.

Lemma sel_sound_snoc sel ca i :
  sel_sound sel ca →
  (prune_kind = TriangleInequality → ∀ j, j ∈ sel → j < i → occludes i j ca = false) →
  sel_sound (sel ++ [i]) ca.
Proof.
  intros Hs Hi Hk p q j k Hpq Hp Hq Hjk.
  apply lookup_snoc_Some in Hq as [[Hq Hq']|[-> ->]].
  - rewrite lookup_app_l in Hp by lia. exact (Hs Hk p q j k Hpq Hp Hq' Hjk).
  - rewrite lookup_app_l in Hp by lia. apply Hi; [done|by eapply list_elem_of_lookup_2|done].
Qed.

Lemma pruned_to_refl ca i sel states :
  prune_inv sel states → settled sel states ca i → pruned_to ca i (S i) sel states sel states.
Proof.
  intros Hinv Hs. split; [done|by exists []; rewrite app_nil_r|done| |done].
  intros k Hk. by replace k with i by lia.
Qed.

(** The factors of the other candidates are kept, so they stay settled. *)
Lemma settled_insert sel states ca i s k :
  states !! i = Some s →
  settled sel states ca k → k ≠ i → ∀ s', settled sel (<[i := s']> states) ca k.
Proof.
  intros Hi [H|[H|(s0 & H & Hg)]] Hne s'; [by left|by right; left|right; right].
  exists s0. by rewrite list_lookup_insert_ne.
Qed.

Lemma pruned_to_update ca i sel states s f c :
  prune_inv sel states → states !! i = Some s →
  prune_inv sel (<[i := mkState f c (neighbor s)]> states) →
  f32_gt f ca = true →
  pruned_to ca i (S i) sel states sel (<[i := mkState f c (neighbor s)]> states).
Proof.
  intros Hinv Hi Hinv' Hg. pose proof (lookup_lt_Some _ _ _ Hi).
  assert (settled sel (<[i := mkState f c (neighbor s)]> states) ca i) as Hset.
  { right; right. eexists. by rewrite list_lookup_insert_eq. }
  split; [done|by exists []; rewrite app_nil_r| | |done].
  - intros k Hk. destruct (decide (k = i)) as [->|]; [done|]. by eapply settled_insert.
  - intros k Hk. by replace k with i by lia.
Qed.

(** Promotion keeps the invariant, settles the candidate, and is sound when the factor shows
    that no selected candidate occludes it. *)
Lemma pruned_to_select ca i sel states s v d f last' sf :
  prune_inv sel states → i ∉ sel → candidates !! i = Some (mkNeighbor (Some v) d) →
  valid_alpha ca → states !! i = Some s →
  f32_gt f ca = false → factor_ok sel i last' f → last' = length sel →
  (<[i := mkState f32_max_value last' (neighbor s)]> states) !! length sel = Some sf →
  pruned_to ca i (S i) sel states (sel ++ [i])
    (<[length sel := set_neighbor i sf]>
       (<[i := mkState f32_max_value last' (neighbor s)]> states)).
Proof.
  intros Hinv Hni Hc Ha Hs Hf Hok -> Hsf. set (st := <[i := _]> states) in *.
  pose proof (lookup_lt_Some _ _ _ Hs). pose proof (lookup_lt_Some _ _ _ Hsf).
  assert (st !! i = Some (mkState f32_max_value (length sel) (neighbor s))) as Hsi
    by (unfold st; by rewrite list_lookup_insert_eq).
  split.
  - by apply (prune_inv_select_at sel states i s v d).
  - by eexists.
  - intros k [Hk|[Hk|(s1 & Hs1 & Hg)]]; [left; set_solver|by right; left|].
    destruct (decide (k = i)) as [->|]; [left; set_solver|]. right; right.
    assert (st !! k = Some s1) as Hk by (unfold st; by rewrite list_lookup_insert_ne).
    destruct (decide (k = length sel)) as [->|].
    + simplify_eq. eexists. by rewrite list_lookup_insert_eq.
    + exists s1. by rewrite list_lookup_insert_ne.
  - intros k Hk. replace k with i by lia. left. set_solver.
  - intros Hso. apply sel_sound_snoc; [done|]. intros Hk j Hj Hji.
    rewrite (Hok Hk ca Ha), firstn_all, <-not_true_iff_false, existsb_exists in Hf.
    destruct (occludes i j ca) eqn:E; [|done]. exfalso. apply Hf. exists j.
    rewrite E, (proj2 (Nat.ltb_lt _ _) Hji). split; [|done]. by apply list_elem_of_In.
Qed.

(** One candidate: no index is out of range, and the invariant is kept. *)
Lemma prune_candidate_ok ca i c sel states :
  valid_alpha ca → prune_inv sel states → candidates !! i = Some c →
  ∃ sel' states',
    prune_candidate candidates prune_kind compute_distance ca i c states (length sel) =
      Some (states', length sel') ∧
    pruned_to ca i (S i) sel states sel' states' ∧ length sel' ≤ S (length sel).
Proof.
  intros Ha Hinv Hc. pose proof (lookup_lt_Some _ _ _ Hc) as Hlt.
  destruct (lookup_lt_is_Some_2 states i) as [s Hs]; [by rewrite (pi_length _ _ Hinv)|].
  unfold prune_candidate. rewrite Hs. cbn [mbind option_bind].
  destruct (f32_gt (occlude_factor s) ca) eqn:Eg.
  { exists sel, states. split_and!; [done| |lia]. apply pruned_to_refl; [done|].
    right; right. by exists s. }
  assert (i ∉ sel) as Hni.
  { intros Hi. rewrite (pi_selected _ _ Hinv i s Hi Hs), gt_max_value in Eg by done. done. }
  destruct c as [[nb|] d]; cbn [nbr_id nbr_distance].
  2:{ exists sel, (<[i := set_occlude_factor f32_max_value s]> states).
      split_and!; [done| |lia]. apply pruned_to_update; auto using gt_max_value.
      apply prune_inv_update; auto; [by eapply pi_last|]. intros. by simplify_eq. }
  destruct (check_loop_ok (length sel) ca i nb d sel states states (last_checked s)
    (occlude_factor s)) as (st' & last' & f' & -> & (s0 & c0 & Hs0 & ->) & Hl' & Hf' & Hdone);
    auto; [by eapply pi_last|lia|by eapply pi_factor| |].
  { exists s, (last_checked s). split; [done|]. rewrite list_insert_id; [done|]. by destruct s. }
  simplify_eq. cbn [mbind option_bind].
  rewrite list_lookup_insert_eq by (by rewrite (pi_length _ _ Hinv)).
  cbn [mbind option_bind]. rewrite !list_insert_insert_eq.
  destruct (f32_gt f' ca) eqn:Ef.
  { exists sel. eexists. split_and!; [done| |lia].
    apply (pruned_to_update ca i sel states s f' last'); auto. by apply prune_inv_update. }
  assert (length sel < length candidates) as Hfl
    by (eapply NoDup_bound_lt; eauto using pi_bound; apply Hinv).
  set (st := <[i := set_occlude_factor f32_max_value _]> states).
  destruct (lookup_lt_is_Some_2 st (length sel)) as [sf Hsf].
  { unfold st. by rewrite length_insert, (pi_length _ _ Hinv). }
  rewrite Hsf. cbn [mbind option_bind].
  assert (as_u16 i = i) as -> by (unfold as_u16; rewrite Z.mod_small by lia; lia).
  exists (sel ++ [i]). eexists. rewrite length_app. simpl. split; [done|]. split; [|lia].
  apply pruned_to_select with (f := f') (s := s) (v := nb) (d := d) (last' := last'); auto.
Qed.

Lemma pruned_to_trans ca lo mid hi sel1 st1 sel2 st2 sel3 st3 :
  pruned_to ca lo mid sel1 st1 sel2 st2 → pruned_to ca mid hi sel2 st2 sel3 st3 →
  pruned_to ca lo hi sel1 st1 sel3 st3.
Proof.
  intros [I1 [n1 ->] S1 D1 O1] [I2 [n2 ->] S2 D2 O2]. split; auto.
  - exists (n1 ++ n2). by rewrite app_assoc.
  - intros k Hk. destruct (decide (k < mid)); [apply S2, D1|apply D2]; lia.
Qed.

(** One pass of the [for] loop. *)
Lemma prune_pass_ok ca cs : ∀ i sel states,
  valid_alpha ca → prune_inv sel states → cs = drop i candidates → length sel ≤ degree →
  ∃ sel' states' hi,
    prune_pass candidates degree prune_kind compute_distance ca i cs states (length sel) =
      Some (states', length sel') ∧
    pruned_to ca i hi sel states sel' states' ∧ length sel' ≤ degree ∧
    (length sel' < degree → length candidates ≤ hi).
Proof.
  induction cs as [|c cs IH]; intros i sel states Ha Hinv Hcs Hd; cbn [prune_pass].
  { exists sel, states, i. split_and!; [done| |done|].
    - split; [done|by exists []; rewrite app_nil_r|done|lia|done].
    - intros _. symmetry in Hcs. apply drop_nil_inv in Hcs. lia. }
  case_nat.
  { exists sel, states, i. split_and!; [done| |done|lia].
    split; [done|by exists []; rewrite app_nil_r|done|lia|done]. }
  assert (candidates !! i = Some c ∧ cs = drop (S i) candidates) as [Hc Hcs'].
  { split.
    - rewrite <-(Nat.add_0_r i), <-lookup_drop, <-Hcs. done.
    - rewrite <-Nat.add_1_r, <-drop_drop, <-Hcs. done. }
  destruct (prune_candidate_ok ca i c sel states) as (sel1 & st1 & -> & Hp1 & Hle); auto.
  cbn [mbind option_bind].
  destruct (IH (S i) sel1 st1) as (sel2 & st2 & hi & E & Hp2 & Hd2 & Hhi);
    [done|apply Hp1|done|lia|].
  exists sel2, st2, hi. split_and!; [exact E|by eapply pruned_to_trans|done|done].
Qed.

Lemma occludes_antimono i j a b :
  f32_le a b = true → occludes i j a = false → occludes i j b = false.
Proof.
  intros Hab. unfold occludes.
  destruct (candidates !! i) as [[[vi|] di]|]; [|done..].
  destruct (candidates !! j) as [[[vj|] dj]|]; [|done..].
  rewrite !orb_false_iff. intros [-> H]. split; [done|]. by eapply f32_gt_antimono.
Qed.

Lemma sel_sound_mono sel a b : f32_le a b = true → sel_sound sel a → sel_sound sel b.
Proof.
  intros Hab Hs Hk p q j i Hpq Hp Hq Hji. eapply occludes_antimono; [done|].
  exact (Hs Hk p q j i Hpq Hp Hq Hji).
Qed.

(** The values of [current_alpha]: they grow from [cur] to [alpha] in at most [n] steps. *)
Definition alpha_next (cur : f32) : f32 := f32_min (f32_mul cur (f32_min alpha ALPHA)) alpha.

Fixpoint alpha_path (n : nat) (cur : f32) : Prop :=
  valid_alpha cur ∧ f32_le cur alpha = true ∧
  (f32_eq cur alpha = true ∨
   match n with
   | 0 => False
   | S n => f32_le cur (alpha_next cur) = true ∧ alpha_path n (alpha_next cur)
   end).

(** The result of the algorithm. *)
Record pruned sel states : Prop := {
  pr_inv : prune_inv sel states;
  pr_degree : length sel ≤ degree;
  pr_sound : sel_sound sel alpha;
  pr_settled : length sel < degree →
    ∀ k, k < length candidates → settled sel states alpha k;
}.

Lemma settled_eq sel states a b k :
  f32_eq a b = true → settled sel states a k → settled sel states b k.
Proof.
  intros Hab [H|[H|(s & H & Hg)]]; [by left|by right; left|right; right].
  exists s. split; [done|]. by rewrite <-(f32_eq_gt a b).
Qed.

Lemma prune_outer_ok n : ∀ fuel cur sel states,
  alpha_path n cur → n < fuel → prune_inv sel states → length sel ≤ degree →
  sel_sound sel cur →
  ∃ sel' states',
    prune_outer candidates degree alpha prune_kind compute_distance fuel (f32_min alpha ALPHA)
      cur states (length sel) = Some (states', length sel') ∧ pruned sel' states'.
Proof.
  induction n as [|n IH]; intros fuel cur sel states (Hv & Hle & Hnext) Hfu Hinv Hd Hso;
    (destruct fuel as [|fuel]; [lia|]); cbn [prune_outer]; case_nat;
    try (exists sel, states; split; [done|split; [done..|by eapply sel_sound_mono|lia]]).
  all: destruct (prune_pass_ok cur candidates 0 sel states)
      as (sel1 & st1 & hi & -> & Hp & Hd1 & Hhi); auto; cbn [mbind option_bind];
    destruct (f32_eq cur alpha) eqn:Eq;
    try (exists sel1, st1; split; [done|]; split; [apply Hp|done| |];
      [eapply sel_sound_mono; [done|]; by apply (pt_sound _ _ _ _ _ _ _ Hp)
      |intros Hlt k Hk; eapply settled_eq; [done|]; apply (pt_done _ _ _ _ _ _ _ Hp);
       specialize (Hhi Hlt); lia]).
  - naive_solver.
  - destruct Hnext as [?|[Hmono Hpath]]; [done|].
    apply (IH fuel (alpha_next cur) sel1 st1); [done|lia|apply Hp|done|].
    eapply sel_sound_mono; [done|]. by apply (pt_sound _ _ _ _ _ _ _ Hp).
Qed.

Lemma prune_inv_default : prune_inv [] (replicate (length candidates) state_default).
Proof.
  split.
  - by rewrite length_replicate.
  - intros k j H. by rewrite lookup_nil in H.
  - constructor.
  - by intros j Hj%elem_of_nil.
  - intros i s Hs. apply lookup_replicate in Hs as [-> _]. simpl. lia.
  - by intros j s Hj%elem_of_nil.
  - intros i s v d _ Hs _ Hk a [Ha0 Ha]. apply lookup_replicate in Hs as [-> _]. simpl.
    destruct (f32_le_not_nan _ _ Ha0). by apply f32_not_lt.
Qed.

End invariant.

(** ** Termination of the outer loop *)

(** From [cur], multiplying by 1.2 grows and reaches infinity within [n] steps. *)
Fixpoint grows (n : nat) (cur : f32) : bool :=
  f32_le f32_zero cur &&
  (f32_eq cur f32_infinity ||
   match n with
   | 0 => false
   | S n => f32_le cur (f32_mul cur ALPHA) && grows n (f32_mul cur ALPHA)
   end).

Lemma grows_one : grows 490 f32_one = true.
Proof. by vm_compute. Qed.

Definition alpha_in_range (alpha : f32) : Prop :=
  f32_le f32_one alpha = true ∧ f32_lt alpha f32_max_value = true.

Lemma f32_min_spec x y :
  is_nan x = false → is_nan y = false →
  f32_min x y = if f32_lt y x then y else x.
Proof. intros Hx Hy. unfold f32_min. by rewrite Hx, Hy. Qed.

Lemma alpha_path_refl alpha n :
  alpha_in_range alpha → alpha_path alpha n alpha.
Proof.
  intros [H1 H2]. destruct (f32_le_not_nan _ _ H1).
  assert (valid_alpha alpha) by (split; [by apply (f32_le_trans _ f32_one)|done]).
  assert (f32_le alpha alpha = true) by (by apply f32_le_refl).
  assert (f32_eq alpha alpha = true) by (by apply f32_eq_key).
  destruct n; simpl; auto.
Qed.

Lemma f32_key_antisym x y :
  f32_le x y = true → f32_le y x = true →
  (match x with S754_finite _ _ _ => true | _ => false end) = true → x = y.
Proof.
  intros Hxy Hyx Hx. destruct (f32_le_not_nan _ _ Hxy) as [Hnx Hny].
  assert (f32_key x = f32_key y) as E.
  { apply f32_le_key in Hxy, Hyx; [|done..]. destruct (f32_key x) as [[??]?], (f32_key y) as [[??]?].
    unfold key_lt in *. destruct Hxy as [Hxy|Hxy]; [|done]. destruct Hyx as [Hyx|Hyx]; [lia|].
    done. }
  destruct x as [[]|[]| |[] m e], y as [[]|[]| |[] m' e']; simplify_eq/=; try done.
  f_equal. lia.
Qed.

Lemma digits2_pos_bounds m :
  (2 ^ (Z.pos (digits2_pos m) - 1) ≤ Z.pos m < 2 ^ Z.pos (digits2_pos m))%Z.
Proof.
  induction m as [m IH|m IH|]; simpl digits2_pos; [| |simpl; lia];
    rewrite Pos2Z.inj_succ; replace (Z.succ (Z.pos (digits2_pos m)) - 1)%Z
      with (Z.succ (Z.pos (digits2_pos m) - 1)) by lia;
    rewrite !Z.pow_succ_r by lia; lia.
Qed.

Lemma digits2_pos_24 m : (8388608 ≤ Z.pos m < 16777216)%Z → digits2_pos m = 24%positive.
Proof.
  intros Hm. pose proof (digits2_pos_bounds m) as [Hl Hu].
  assert (2 ^ (Z.pos (digits2_pos m) - 1) < 2 ^ 24)%Z as H1 by lia.
  apply Z.pow_lt_mono_r_iff in H1; [|lia..].
  assert (2 ^ 23 < 2 ^ Z.pos (digits2_pos m))%Z as H2 by lia.
  apply Z.pow_lt_mono_r_iff in H2; lia.
Qed.

(** Up to 1.2 the first step reaches [alpha]. *)
Lemma mul_one_small alpha :
  alpha_in_range alpha → f32_lt alpha ALPHA = true → f32_mul f32_one alpha = alpha.
Proof.
  intros [H1 _] H2. destruct (f32_le_not_nan _ _ H1) as [_ Hn].
  apply f32_le_key in H1; [|done..]. apply f32_lt_key in H2; [|done..].
  destruct alpha as [s|s| |s m e]; try destruct s; simpl in H1, H2;
    destruct H1 as [H1|H1]; simplify_eq/=; try (exfalso; lia); [|reflexivity].
  assert (e = -23)%Z as -> by lia.
  assert (8388608 ≤ Z.pos m < 16777216)%Z as Hm by lia.
  pose proof (digits2_pos_24 m Hm) as Hd.
  unfold f32_mul, SFmul, f32_one. change (8388608 * m)%positive with (Pos.iter xO m 23).
  unfold binary_round_aux.
  assert (shr_fexp f32_prec f32_emax (Z.pos (Pos.iter xO m 23)) (-23 + -23) loc_Exact =
    ({| shr_m := Z.pos m; shr_r := false; shr_s := false |}, -23)%Z) as ->.
  { unfold shr_fexp, Zdigits2. simpl digits2_pos. rewrite Hd. reflexivity. }
  cbn [shr_m loc_of_shr_record round_nearest_even].
  assert (shr_fexp f32_prec f32_emax (Z.pos m) (-23) loc_Exact =
    ({| shr_m := Z.pos m; shr_r := false; shr_s := false |}, -23)%Z) as ->.
  { unfold shr_fexp, Zdigits2. rewrite Hd. reflexivity. }
  reflexivity.
Qed.

Lemma alpha_path_small alpha n :
  alpha_in_range alpha → f32_lt alpha ALPHA = true → alpha_path alpha (S n) f32_one.
Proof.
  intros Hr Hs. pose proof Hr as [H1 H2]. destruct (f32_le_not_nan _ _ H1).
  assert (alpha_next alpha f32_one = alpha) as Hn.
  { unfold alpha_next. rewrite (f32_min_spec alpha ALPHA) by done.
    destruct (f32_lt ALPHA alpha) eqn:E;
      [by pose proof (f32_lt_trans _ _ _ Hs E) as Hc; rewrite f32_lt_irrefl in Hc|].
    rewrite mul_one_small, f32_min_spec, f32_lt_irrefl by done. done. }
  cbn [alpha_path]. rewrite Hn. split_and!; [done..|]. right. split; [done|].
  by apply alpha_path_refl.
Qed.

(** From 1.2 on the iterates of the factor 1.2 are followed until one exceeds [alpha]. *)
Lemma alpha_path_grows alpha n : ∀ cur,
  alpha_in_range alpha → f32_lt alpha ALPHA = false → f32_le cur alpha = true →
  grows n cur = true → alpha_path alpha n cur.
Proof.
  intros cur Hr Hs. pose proof Hr as [H1 H2]. destruct (f32_le_not_nan _ _ H1) as [_ Hna].
  assert (f32_min alpha ALPHA = ALPHA) as Hm.
  { rewrite f32_min_spec by done. destruct (f32_lt ALPHA alpha) eqn:E; [done|].
    apply f32_not_lt in Hs, E; [|done..]. apply f32_key_antisym; [done..|].
    by destruct alpha as [[]|[]| |[]]. }
  revert cur. induction n as [|n IH]; intros cur Hle; cbn [grows alpha_path];
    rewrite andb_true_iff, orb_true_iff; intros [H0 Hg].
  all: assert (f32_eq cur f32_infinity = false) as Hinf by
    (destruct (f32_eq cur f32_infinity) eqn:E; [|done]; exfalso;
     pose proof (f32_le_lt_trans _ _ _ Hle H2) as Hc; revert E Hc;
     by destruct cur as [[]|[]| |[]]).
  all: assert (valid_alpha cur) by (split; [done|by eapply f32_le_lt_trans]).
  { rewrite Hinf in Hg. by destruct Hg. }
  rewrite Hinf in Hg. destruct Hg as [?|[Hc Hg]%andb_true_iff]; [done|].
  destruct (f32_le_not_nan _ _ Hc) as [_ Hnc]. split_and!; [done..|]. right.
  unfold alpha_next. rewrite Hm, f32_min_spec by done.
  destruct (f32_lt alpha (f32_mul cur ALPHA)) eqn:E.
  - split; [done|]. by apply alpha_path_refl.
  - split; [done|]. apply IH; [|done]. by apply f32_not_lt.
Qed.

(** Within 490 steps [current_alpha] has reached any [alpha] of the range. *)
Lemma alpha_path_exists alpha : alpha_in_range alpha → alpha_path alpha 490 f32_one.
Proof.
  intros Hr. destruct (f32_lt alpha ALPHA) eqn:E.
  - by apply alpha_path_small.
  - apply alpha_path_grows; [done..|apply Hr|apply grows_one].
Qed.

Lemma robust_prune_ok {V} (candidates : list (Neighbor (option V))) degree alpha kind dist fuel :
  (Z.of_nat (length candidates) ≤ 65535)%Z → alpha_in_range alpha → 490 < fuel →
  ∃ sel states,
    robust_prune candidates degree alpha kind dist fuel
      (replicate (length candidates) state_default) = Some (states, length sel) ∧
    pruned candidates degree alpha kind dist sel states.
Proof.
  intros Hl Ha Hf. unfold robust_prune.
  apply (prune_outer_ok candidates degree alpha kind dist Hl 490 fuel f32_one []
    (replicate (length candidates) state_default));
    [by apply alpha_path_exists|done|apply prune_inv_default|simpl; lia|].
  intros _ p q j i _ Hp. by rewrite lookup_nil in Hp.
Qed.

(** The selected candidate indexes as the caller reads them. *)
Definition selected (states : list State) (found : nat) : list nat :=
  neighbor <$> take found states.

Lemma pi_selected_list {V} (candidates : list (Neighbor (option V))) kind dist sel states :
  prune_inv candidates kind dist sel states → selected states (length sel) = sel.
Proof.
  intros Hinv. pose proof (pi_found_le _ _ _ _ _ Hinv). unfold selected.
  apply list_eq. intros k. rewrite list_lookup_fmap.
  destruct (decide (k < length sel)).
  - rewrite lookup_take_lt by done. destruct (lookup_lt_is_Some_2 sel k) as [j Hj]; [done|].
    by rewrite (pi_neighbor _ _ _ _ _ Hinv k j Hj).
  - rewrite lookup_take_ge by lia. symmetry. apply lookup_ge_None. lia.
Qed.

(** A settled candidate that was retrieved and is not selected is occluded by a selected one. *)
Lemma settled_occluded {V} (candidates : list (Neighbor (option V))) kind dist sel states a i v d :
  prune_inv candidates kind dist sel states → valid_alpha a → kind = TriangleInequality →
  settled candidates sel states a i → candidates !! i = Some (mkNeighbor (Some v) d) →
  i ∉ sel → ∃ j, j ∈ sel ∧ j < i ∧ occludes candidates dist i j a = true.
Proof.
  intros Hinv Ha Hk [H|[[d' H]|(s & Hs & Hg)]] Hc Hni; [done|by simplify_eq|].
  rewrite (pi_factor _ _ _ _ _ Hinv i s v d Hni Hs Hc Hk a Ha), existsb_exists in Hg.
  destruct Hg as (j & Hj & [Hji Ho]%andb_true_iff). apply list_elem_of_In in Hj.
  exists j. split_and!; [by eapply elem_of_sublist; [apply sublist_take|]|by apply Nat.ltb_lt|done].
Qed.

(** ** Theory: building the adjacency list *)

Section occlude_theory.
Context {I : Type} `{!EqDecision I, !ContainsSimd I}.
Variables (exclude : I → bool).
Implicit Types (pool : list (Neighbor I)) (a : AdjacencyList I).

Lemma al_push_ext a i :
  ∃ new, edges (al_push a i).1 = edges a ++ new ∧ (∀ x, x ∈ new → x = i) ∧
    i ∈ edges (al_push a i).1 ∧ length (edges (al_push a i).1) ≤ S (length (edges a)).
Proof.
  destruct (al_push_cases a i) as [[Hin ->]|[Hin ->]]; cbn [fst edges].
  - exists []. rewrite app_nil_r. split_and!; [done| |done|lia]. by intros x Hx%elem_of_nil.
  - exists [i]. split_and!; [done|by intros x ->%list_elem_of_singleton| |].
    + apply elem_of_app. right. by left.
    + rewrite length_app. simpl. lia.
Qed.

Lemma saturate_ok degree pool : ∀ a,
  NoDup (edges a) →
  let a' := saturate exclude degree pool a in
  NoDup (edges a') ∧ (length (edges a) ≤ degree → length (edges a') ≤ degree) ∧
  (∃ added, edges a' = edges a ++ added ∧
    ∀ x, x ∈ added → x ∈ nbr_id <$> pool ∧ exclude x = false) ∧
  (degree ≤ length (edges a') ∨
   ∀ x, x ∈ nbr_id <$> pool → exclude x = false → x ∈ edges a').
Proof.
  induction pool as [|n pool IH]; intros a Ha; cbn [saturate].
  { split_and!; [done|done|exists []; split; [by rewrite app_nil_r|by intros x Hx%elem_of_nil]|].
    right. by intros x Hx%elem_of_nil. }
  case_nat.
  { split_and!; [done|done| |by left]. exists []. split; [by rewrite app_nil_r|].
    by intros x Hx%elem_of_nil. }
  destruct (exclude (nbr_id n)) eqn:E; cbn [negb].
  - destruct (IH a Ha) as (H1 & H2 & (added & H3 & H4) & H5). split_and!; [done|done| |].
    + exists added. split; [done|]. intros x Hx. destruct (H4 x Hx). split; [by right|done].
    + destruct H5 as [H5|H5]; [by left|right]. intros x [->|Hx]%elem_of_cons Hex; [congruence|].
      by apply H5.
  - destruct (al_push_ext a (nbr_id n)) as (new & Hnew & Hall & Hin & Hlen).
    destruct (IH (al_push a (nbr_id n)).1) as (H1 & H2 & (added & H3 & H4) & H5);
      [by apply al_push_NoDup|].
    split_and!; [done|intros; apply H2; lia| |].
    + exists (new ++ added). split; [by rewrite H3, Hnew, app_assoc|].
      intros x [Hx|Hx]%elem_of_app; [rewrite (Hall x Hx); split; [by left|done]|].
      destruct (H4 x Hx). split; [by right|done].
    + destruct H5 as [H5|H5]; [by left|right]. intros x [->|Hx]%elem_of_cons Hex; [|by apply H5].
      rewrite H3. apply elem_of_app. by left.
Qed.

(** The ids of selected positions. *)
Lemma selected_ids pool sel :
  (∀ j, j ∈ sel → j < length pool) →
  ∃ ids, mapM (λ j, nbr_id <$> pool !! j) sel = Some ids ∧ length ids = length sel ∧
    (∀ k j, sel !! k = Some j → ids !! k = nbr_id <$> pool !! j) ∧
    (∀ x, x ∈ ids → ∃ j n, j ∈ sel ∧ pool !! j = Some n ∧ nbr_id n = x).
Proof.
  induction sel as [|j sel IH]; intros Hb.
  { exists []. split_and!; [done|done|done|]. by intros x Hx%elem_of_nil. }
  destruct IH as (ids & E & Hl & Hlk & Hin); [intros; apply Hb; by right|].
  destruct (lookup_lt_is_Some_2 pool j) as [n Hn]; [apply Hb; by left|].
  exists (nbr_id n :: ids). cbn. rewrite Hn. cbn. rewrite E. cbn.
  split_and!; [done|by rewrite Hl| |].
  - intros [|k] j' Hk; simplify_eq/=; [by rewrite Hn|by apply Hlk].
  - intros x [->|Hx]%elem_of_cons; [by exists j, n; split; [left|]|].
    destruct (Hin x Hx) as (j' & n' & ? & ? & ?). exists j', n'. split; [by right|done].
Qed.

Lemma selected_ids_NoDup pool sel ids :
  NoDup (nbr_id <$> pool) → NoDup sel →
  (∀ j, j ∈ sel → j < length pool) → length ids = length sel →
  (∀ k j, sel !! k = Some j → ids !! k = nbr_id <$> pool !! j) → NoDup ids.
Proof.
  intros Hp Hs Hb Hlen Hids. apply NoDup_alt. intros k1 k2 x H1 H2.
  pose proof (lookup_lt_Some _ _ _ H1). pose proof (lookup_lt_Some _ _ _ H2).
  destruct (lookup_lt_is_Some_2 sel k1) as [j1 Hj1]; [lia|].
  destruct (lookup_lt_is_Some_2 sel k2) as [j2 Hj2]; [lia|].
  rewrite (Hids _ _ Hj1) in H1. rewrite (Hids _ _ Hj2) in H2.
  rewrite <-list_lookup_fmap in H1, H2.
  pose proof (NoDup_lookup _ _ _ _ Hp H1 H2) as ->. by eapply (NoDup_lookup sel).
Qed.

Lemma mapM_neighbor pool (l : list State) :
  mapM (λ s : State, nbr_id <$> pool !! neighbor s) l =
  mapM (λ j, nbr_id <$> pool !! j) (neighbor <$> l).
Proof. induction l as [|s l IH]; [done|]. cbn in *. by rewrite IH. Qed.

Lemma al_resize_length (dflt : I) n a : length (edges (al_resize dflt n a)) = n.
Proof. unfold al_resize. simpl. rewrite length_app, length_take, length_replicate. lia. Qed.

Context {V : Type}.
Variables (cfg : Config) (debug : bool) (compute_distance : V → V → f32) (view : I → option V)
  (force_saturate : bool) (dflt : I).

Definition saturating : bool :=
  force_saturate || (c_saturate_after_prune cfg && f32_gt (c_alpha cfg) f32_one).

(** The neighbors of a vertex are well formed: distinct, within the degree, from the pool and
    not excluded. *)
Record occluded_to pool a : Prop := {
  oc_nodup : NoDup (edges a);
  oc_degree : length (edges a) ≤ Z.to_nat (c_pruned_degree cfg);
  oc_pool : ∀ x, x ∈ edges a → x ∈ nbr_id <$> pool ∧ exclude x = false;
  oc_view : saturating = false → ∀ x, x ∈ edges a → is_Some (view x);
  oc_saturated : saturating = true →
    Z.to_nat (c_pruned_degree cfg) ≤ length (edges a) ∨
    ∀ x, x ∈ nbr_id <$> pool → exclude x = false → x ∈ edges a;
}.

Lemma occluded_to_saturate pool a :
  NoDup (edges a) → length (edges a) ≤ Z.to_nat (c_pruned_degree cfg) →
  (∀ x, x ∈ edges a → x ∈ nbr_id <$> pool ∧ exclude x = false ∧ is_Some (view x)) →
  occluded_to pool
    (if saturating then saturate exclude (Z.to_nat (c_pruned_degree cfg)) pool a else a).
Proof.
  intros Hn Hd Hin. destruct saturating eqn:Es.
  - destruct (saturate_ok (Z.to_nat (c_pruned_degree cfg)) pool a Hn)
      as (H1 & H2 & (added & H3 & H4) & H5).
    split; [done|by apply H2| |congruence|by intros _].
    rewrite H3. intros x [Hx|Hx]%elem_of_app; [|by apply H4]. naive_solver.
  - split; [done|done|naive_solver|naive_solver|congruence].
Qed.

Lemma occlude_list_ok fuel pool a :
  alpha_in_range (c_alpha cfg) → 490 < fuel → (Z.of_nat (length pool) ≤ 65535)%Z →
  NoDup (nbr_id <$> pool) →
  ∃ a', occlude_list cfg debug compute_distance view exclude force_saturate dflt fuel pool a =
          Some a' ∧ occluded_to pool a'.
Proof.
  intros Ha Hf Hl Hnd. unfold occlude_list.
  rewrite (proj2 (Z.leb_le _ _) Hl). cbn [rassert mbind option_bind].
  destruct (decide (pool = [])) as [->|Hne].
  { exists (al_clear a). split; [done|]. split; simpl; [constructor|lia|..].
    - by intros x Hx%elem_of_nil.
    - by intros _ x Hx%elem_of_nil.
    - intros _. right. by intros x Hx%elem_of_nil. }
  destruct pool as [|n0 pool0] eqn:Ep; [done|]. rewrite <-Ep in *. clear n0 pool0 Ep.
  set (cache := map_in _ pool).
  assert (length cache = length pool) as Hlc by (unfold cache, map_in; apply length_map).
  destruct (robust_prune_ok cache (Z.to_nat (c_pruned_degree cfg)) (c_alpha cfg)
    (c_prune_kind cfg) compute_distance fuel) as (sel & states & Hrun & [Hinv Hdeg _ _]);
    [by rewrite Hlc|done|done|].
  rewrite <-Hlc, Hrun. cbn [mbind option_bind]. rewrite al_resize_length, mapM_neighbor.
  fold (selected states (length sel)). rewrite (pi_selected_list _ _ _ _ _ Hinv).
  assert (∀ j, j ∈ sel → j < length pool) as Hb
    by (intros j Hj; rewrite <-Hlc; by eapply pi_bound).
  destruct (selected_ids pool sel Hb) as (ids & -> & Hil & Hlk & Hin). cbn [mbind option_bind].
  assert (NoDup ids) as Hnids by (eapply selected_ids_NoDup; eauto; apply Hinv).
  unfold guard_finish, al_truncate. cbn [edges].
  rewrite take_app_le by lia. rewrite take_ge by lia.
  rewrite (debug_check_ok debug ids Hnids). cbn [mbind option_bind edges].
  rewrite (proj2 (Nat.leb_le _ _)) by lia. rewrite orb_true_r. cbn [rassert mbind option_bind].
  fold saturating.
  exists (if saturating then saturate exclude (Z.to_nat (c_pruned_degree cfg)) pool (mkAdj ids)
          else mkAdj ids).
  split; [by destruct saturating|]. apply occluded_to_saturate; [done|simpl; lia|].
  intros x Hx. destruct (Hin x Hx) as (j & n & Hj & Hn & <-).
  destruct (pi_retrieved _ _ _ _ _ Hinv j Hj) as (v & d & Hc).
  unfold cache, map_in in Hc. rewrite list_lookup_fmap, Hn in Hc. simplify_eq/=.
  split; [eapply list_elem_of_fmap_2, list_elem_of_lookup_2; exact Hn|].
  by destruct (exclude (nbr_id n)); [|eauto].
Qed.

End occlude_theory.

(** ** The properties *)

(** [SortedNeighbors::new] keeps the [max] closest candidates (all of them when there are
    fewer) in ascending order of distance, and drops only candidates that are at least as far
    as every kept one, for any standard-library sort that meets its documented contract and
    distances that are not NaN. *)
Theorem sorted_neighbors_closest {I} `{!UnstableSort I} (l : list (Neighbor I)) (max : nat) :
  no_nan l →
  StronglySorted nbr_le (sorted_neighbors l max) ∧
  length (sorted_neighbors l max) = max `min` length l ∧
  ∃ dropped, l ≡ₚ sorted_neighbors l max ++ dropped ∧
    (∀ x y, x ∈ sorted_neighbors l max → y ∈ dropped → nbr_le x y).
Proof. apply sorted_neighbors_ok. Qed.

(** C16: [robust_prune] terminates without any out-of-range access or [u16] overflow on at most
    65535 candidates and an [alpha] from 1 to below [f32::MAX] (491 rounds of the outer loop
    are enough for any such [alpha]); it selects at most [degree] candidates, each once, and
    only candidates that were retrieved. *)
Theorem robust_prune_terminates {V} (candidates : list (Neighbor (option V))) (degree : nat)
    (alpha : f32) (kind : PruneKind) (dist : V → V → f32) (fuel : nat) :
  (Z.of_nat (length candidates) ≤ 65535)%Z → alpha_in_range alpha → 490 < fuel →
  ∃ states found,
    robust_prune candidates degree alpha kind dist fuel
      (replicate (length candidates) state_default) = Some (states, found) ∧
    found ≤ degree ∧ length (selected states found) = found ∧ NoDup (selected states found) ∧
    ∀ j, j ∈ selected states found → ∃ v d, candidates !! j = Some (mkNeighbor (Some v) d).
Proof.
  intros Hl Ha Hf.
  destruct (robust_prune_ok candidates degree alpha kind dist fuel Hl Ha Hf)
    as (sel & states & Hrun & [Hinv Hd _ _]).
  exists states, (length sel). rewrite (pi_selected_list _ _ _ _ _ Hinv).
  split_and!; [done|done|done|apply Hinv|apply Hinv].
Qed.

(** C2: Under the triangle-inequality rule [robust_prune] computes Vamana's diverse
    neighborhood: no selected candidate is occluded at [alpha] by a closer one selected before
    it, and when fewer than [degree] are selected, every retrieved candidate that is not
    selected is occluded at [alpha] by a closer selected one. *)
Theorem robust_prune_diverse {V} (candidates : list (Neighbor (option V))) (degree : nat)
    (alpha : f32) (dist : V → V → f32) (fuel : nat) states found :
  (Z.of_nat (length candidates) ≤ 65535)%Z → alpha_in_range alpha → 490 < fuel →
  robust_prune candidates degree alpha TriangleInequality dist fuel
    (replicate (length candidates) state_default) = Some (states, found) →
  (∀ p q j i, p < q → selected states found !! p = Some j → selected states found !! q = Some i →
     j < i → occludes candidates dist i j alpha = false) ∧
  (found < degree → ∀ i v d, candidates !! i = Some (mkNeighbor (Some v) d) →
     i ∉ selected states found →
     ∃ j, j ∈ selected states found ∧ j < i ∧ occludes candidates dist i j alpha = true).
Proof.
  intros Hl Ha Hf Hrun.
  destruct (robust_prune_ok candidates degree alpha TriangleInequality dist fuel Hl Ha Hf)
    as (sel & states' & Hrun' & [Hinv Hd Hso Hset]).
  rewrite Hrun in Hrun'. simplify_eq. rewrite (pi_selected_list _ _ _ _ _ Hinv).
  split; [by apply Hso|]. intros Hlt i v d Hc Hni.
  eapply settled_occluded; eauto; [|by apply Hset; [|eapply lookup_lt_Some]].
  destruct Ha. split; [by apply (f32_le_trans _ f32_one)|done].
Qed.

(** [occlude_list] never panics on a candidate pool of at most 65535 distinct ids (debug
    assertions included), and leaves in the context distinct neighbors, at most
    [pruned_degree] many, all from the pool and none excluded; without saturation every one
    has its vector in the view, and with it the list reaches the degree or holds every
    candidate that is not excluded. *)
Theorem occlude_list_correct {I V} `{!EqDecision I, !ContainsSimd I} (cfg : Config)
    (debug : bool) (dist : V → V → f32) (view : I → option V) (exclude : I → bool)
    (force_saturate : bool) (dflt : I) (fuel : nat) (pool : list (Neighbor I))
    (neighbors : AdjacencyList I) :
  alpha_in_range (c_alpha cfg) → 490 < fuel → (Z.of_nat (length pool) ≤ 65535)%Z →
  NoDup (nbr_id <$> pool) →
  ∃ neighbors',
    occlude_list cfg debug dist view exclude force_saturate dflt fuel pool neighbors =
      Some neighbors' ∧
    occluded_to exclude cfg view force_saturate pool neighbors'.
Proof. apply occlude_list_ok. Qed.

(** ** Witnesses *)

(** One-dimensional points at 1, 2, 4 and 9 from the origin, the third not retrieved. *)
Definition demo_dist (x y : Z) : f32 := f32_of_Z (Z.abs (x - y)).

Definition demo_candidates : list (Neighbor (option Z)) :=
  [mkNeighbor (Some 1%Z) (f32_of_Z 1); mkNeighbor (Some (-2)%Z) (f32_of_Z 2);
   mkNeighbor None (f32_of_Z 4); mkNeighbor (Some 9%Z) (f32_of_Z 9)].

Definition demo_pool : list (Neighbor Z) :=
  [mkNeighbor 9 (f32_of_Z 9); mkNeighbor 1 (f32_of_Z 1); mkNeighbor (-2) (f32_of_Z 2)]%Z.

Lemma sorted_neighbors_closest_witness :
  no_nan demo_pool ∧
  sorted_neighbors demo_pool 2 =
    [mkNeighbor 1 (f32_of_Z 1); mkNeighbor (-2) (f32_of_Z 2)]%Z ∧
  StronglySorted nbr_le (sorted_neighbors demo_pool 2).
Proof.
  assert (no_nan demo_pool) as H by (repeat constructor).
  split; [exact H|]. split; [vm_compute; reflexivity|].
  exact (proj1 (sorted_neighbors_closest demo_pool 2 H)).
Defined.

Lemma alpha_in_range_12 : alpha_in_range ALPHA.
Proof. split; vm_compute; reflexivity. Qed.

Lemma robust_prune_terminates_witness :
  ∃ states found,
    robust_prune demo_candidates 3 ALPHA TriangleInequality demo_dist 500
      (replicate 4 state_default) = Some (states, found) ∧ found ≤ 3.
Proof.
  destruct (robust_prune_terminates demo_candidates 3 ALPHA TriangleInequality demo_dist 500)
    as (states & found & H & Hle & _);
    [simpl; lia|apply alpha_in_range_12|lia|].
  exists states, found. split; [exact H|exact Hle].
Defined.

(** The point 9 is occluded by the point 1 in the first round (the ratio is 9/8) and selected
    at 1.2. *)
Lemma robust_prune_diverse_witness :
  ∃ states,
    robust_prune demo_candidates 3 ALPHA TriangleInequality demo_dist 500
      (replicate 4 state_default) = Some (states, 3) ∧ selected states 3 = [0; 1; 3] ∧
    occludes demo_candidates demo_dist 3 0 ALPHA = false.
Proof.
  eexists. split; [vm_compute; reflexivity|]. split; [vm_compute; reflexivity|].
  refine (proj1 (robust_prune_diverse demo_candidates 3 ALPHA demo_dist 500 _ 3 _ _ _ _)
    0 2 0 3 _ _ _ _);
    [simpl; lia|apply alpha_in_range_12|lia|vm_compute; reflexivity|lia|vm_compute; reflexivity
    |vm_compute; reflexivity|lia].
Defined.

Definition demo_config : Config :=
  mkConfig 2 3 50 ALPHA TriangleInequality 100 2 1 IbcNone true None.

Lemma occlude_list_correct_witness :
  ∃ neighbors',
    occlude_list demo_config true demo_dist (λ x, Some x) (λ x, (x =? 9)%Z) true 0%Z 500
      demo_pool (mkAdj []) = Some neighbors' ∧
    occluded_to (λ x, (x =? 9)%Z) demo_config (λ x, Some x) true demo_pool neighbors'.
Proof.
  apply (occlude_list_correct demo_config true demo_dist (λ x, Some x) (λ x, (x =? 9)%Z) true 0%Z
    500 demo_pool (mkAdj [])); [apply alpha_in_range_12|lia|simpl; lia|].
  apply (bool_decide_unpack _). vm_compute. exact Logic.I.
Defined.
