(* ===== verification/Search.v ===== *)
(** * Greedy beam search on the graph

    Models [SearchScratch] of [diskann/src/graph/search/scratch.rs] and
    [DiskANNIndex::search_internal] of [diskann/src/graph/index.rs], the loop that every graph
    search runs: take the closest unvisited candidates from the queue, expand them through the
    accessor, insert what was found.

    - Class [SearchAccessor] with [SearchAccessorLaws]: the trait of
      [diskann/src/graph/glue.rs] that data providers implement, with its documented contract;
    - Section [search]: scratch space and search loop, over any [NeighborQueue];
    - Section [invariant]: the invariant of the loop, its termination and what it has found. *)

From S2P Require Import Prelude F32 Neighbor NeighborQueue QueueInterface.

(** ** 32-bit counters *)

(** [x += y] on [u32]. *)
Definition u32_add (x y : Z) : option Z := if (x + y <? 2 ^ 32)%Z then Some (x + y)%Z else None.

(** [n as u32] *)
Definition as_u32 (n : nat) : Z := (Z.of_nat n mod 2 ^ 32)%Z.

(** ** The accessor of the data provider *)

(** [trait SearchAccessor].  A callback is modelled by the list of its calls, in order; the
    calls before an error have taken effect.  [expand_beam] is used with the predicate
    [NotInMut] on the set of visited ids, which it updates. *)
Class SearchAccessor (I A E : Type) `{Countable I} := {
  starting_points : A → result E (list I);
  start_point_distances : A → A * list (I * f32) * result E unit;
  expand_beam : A → list I → gset I → A * gset I * list (I * f32) * result E unit;
  terminate_early : A → A * bool;
}.

Section accessor.
Context (I A E : Type) `{Acc : SearchAccessor I A E}.
Variables (dist : I → f32) (adj : I → list I) (nodes : gset I) (starts : list I).

(** The documented contract: a node is reported with its distance, only when the predicate
    accepted it (so once, and not if it was visited), and it is a neighbor of an id of the
    beam; the predicate records what it accepted.  The starting points are distinct. *)
Class SearchAccessorLaws := {
  starting_points_law : ∀ a ps, starting_points a = Ok ps → ps = starts;
  start_law : ∀ a a' calls r, start_point_distances a = (a', calls, r) →
    calls.*2 = dist <$> calls.*1 ∧ NoDup calls.*1 ∧
    (∀ i, i ∈ calls.*1 → i ∈ starts) ∧ (r = Ok tt → ∀ i, i ∈ starts → i ∈ calls.*1);
  starts_nodes : ∀ i, i ∈ starts → i ∈ nodes;
  adj_nodes : ∀ b j, b ∈ nodes → j ∈ adj b → j ∈ nodes;
  expand_law : ∀ a ids vis a' vis' calls r,
    expand_beam a ids vis = (a', vis', calls, r) →
    calls.*2 = dist <$> calls.*1 ∧ NoDup calls.*1 ∧
    (∀ i, i ∈ calls.*1 → i ∉ vis ∧ i ∈ vis') ∧ vis ⊆ vis' ∧
    (∀ i, i ∈ vis' → i ∈ vis ∨ ∃ b, b ∈ ids ∧ i ∈ adj b);
}.

(** No candidate is dropped: every neighbor of the beam is visited, and reported if it is new. *)
Definition accessor_complete : Prop :=
  ∀ a ids vis a' vis' calls, expand_beam a ids vis = (a', vis', calls, Ok tt) →
    (∀ b j, b ∈ ids → j ∈ adj b → j ∈ vis') ∧ (∀ i, i ∈ vis' → i ∈ vis ∨ i ∈ calls.*1).

Definition never_terminates_early : Prop := ∀ a, (terminate_early a).2 = false.

(** The errors of the accessor: what one of its operations returns. *)
Inductive accessor_error (e : E) : Prop :=
| error_starting_points a : starting_points a = Err e → accessor_error e
| error_start_distances a a' calls :
    start_point_distances a = (a', calls, Err e) → accessor_error e
| error_expand a ids vis a' vis' calls :
    expand_beam a ids vis = (a', vis', calls, Err e) → accessor_error e.

End accessor.

#[export] Hint Constructors accessor_error : rust.

(** A run that ends with an error of the accessor. *)
Ltac failed :=
  repeat (refine (ex_intro _ _ _)); split; [reflexivity|]; hnf; by eauto with rust.

(** The same, when nothing was written. *)
Ltac failed_search :=
  repeat (refine (ex_intro _ _ _)); split; [reflexivity|]; split; [by eauto with rust|reflexivity].

Arguments starting_points {I A E _ _ _} _.
Arguments start_point_distances {I A E _ _ _} _.
Arguments expand_beam {I A E _ _ _} _ _ _.
Arguments terminate_early {I A E _ _ _} _.
Arguments starting_points_law {I A E _ _ _ dist adj nodes starts _} _ _ _.
Arguments start_law {I A E _ _ _ dist adj nodes starts _} _ _ _ _ _.
Arguments starts_nodes {I A E _ _ _ dist adj nodes starts _} _ _.
Arguments adj_nodes {I A E _ _ _ dist adj nodes starts _} _ _ _ _.
Arguments expand_law {I A E _ _ _ dist adj nodes starts _} _ _ _ _ _ _ _ _.

(** [SearchAccessor::is_not_start_point]: the closure it returns. *)
Definition is_not_start_point {I A E} `{SearchAccessor I A E} (a : A) : result E (I → bool) :=
  match starting_points a with
  | Ok ps => Ok (λ id, negb (bool_decide (id ∈ ps)))
  | Err e => Err e
  end.

(** [SearchAccessor::num_starting_points] *)
Definition num_starting_points {I A E} `{SearchAccessor I A E} (a : A) : result E nat :=
  match starting_points a with Ok ps => Ok (length ps) | Err e => Err e end.

(** [NotInMut::eval] and [NotInMut::eval_mut]: the set after the call and the verdict. *)
Definition not_in_eval {I} `{Countable I} (set : gset I) (item : I) : bool :=
  negb (bool_decide (item ∈ set)).
Definition not_in_eval_mut {I} `{Countable I} (set : gset I) (item : I) : gset I * bool :=
  ({[ item ]} ∪ set, negb (bool_decide (item ∈ set))).

(** ** Search *)

Record SearchScratch (I Q : Type) `{Countable I} : Type := mkScratch {
  s_best : Q;
  s_visited : gset I;
  s_id_scratch : list I;
  s_beam_nodes : list I;
  s_range_frontier : list I;
  s_in_range : list (Neighbor I);
  s_hops : Z;
  s_cmps : Z;
}.
Arguments mkScratch {I Q _ _} _ _ _ _ _ _ _ _.
Arguments s_best {I Q _ _} _.
Arguments s_visited {I Q _ _} _.
Arguments s_id_scratch {I Q _ _} _.
Arguments s_beam_nodes {I Q _ _} _.
Arguments s_range_frontier {I Q _ _} _.
Arguments s_in_range {I Q _ _} _.
Arguments s_hops {I Q _ _} _.
Arguments s_cmps {I Q _ _} _.

Inductive PriorityQueueConfiguration := Fixed (l : nat) | Resizable (l : nat).

Record InternalSearchStats := mkStats { st_cmps : Z; st_hops : Z; st_second_round : bool }.

(** [SearchStats]; [range_search_second_round] is carried over. *)
Record SearchStats := mkSearchStats {
  ss_cmps : Z; ss_hops : Z; ss_result_count : Z; ss_second_round : bool
}.

(** [InternalSearchStats::finish] *)
Definition stats_finish (s : InternalSearchStats) (result_count : Z) : SearchStats :=
  mkSearchStats (st_cmps s) (st_hops s) result_count (st_second_round s).

Section scratch.
Context {I : Type} `{Countable I}.
Local Abbreviation Scratch := (SearchScratch I (NeighborPriorityQueue I)).

(** [SearchScratch::new]; capacities of hash sets are not observable. *)
Definition scratch_new (nbest : PriorityQueueConfiguration) : Scratch :=
  mkScratch
    match nbest with
    | Fixed capacity => q_new capacity
    | Resizable capacity => q_auto_resizable_with_search_param_l capacity
    end ∅ [] [] [] [] 0 0.

(** [SearchScratch::resize] *)
Definition scratch_resize (s : Scratch) (nbest : nat) : Scratch :=
  mkScratch (q_reconfigure (s_best s) nbest) (s_visited s) (s_id_scratch s) (s_beam_nodes s)
    (s_range_frontier s) (s_in_range s) (s_hops s) (s_cmps s).

(** [SearchScratch::clear] *)
Definition scratch_clear (s : Scratch) : Scratch :=
  mkScratch (q_clear (s_best s)) ∅ [] [] [] [] 0 0.

Record SearchScratchParams := mkParams { p_l_value : nat; p_max_degree : nat; p_num_frozen : nat }.

(** [AsPooled::create] *)
Definition scratch_create (p : SearchScratchParams) : Scratch :=
  scratch_new (Fixed (p_l_value p + p_num_frozen p)).

(** [AsPooled::modify]: a scratch taken from the pool again. *)
Definition scratch_modify (s : Scratch) (p : SearchScratchParams) : Scratch :=
  let s := scratch_clear s in
  if q_auto_resizable (s_best s) then
    mkScratch (q_new (p_l_value p + p_num_frozen p)) (s_visited s) (s_id_scratch s)
      (s_beam_nodes s) (s_range_frontier s) (s_in_range s) (s_hops s) (s_cmps s)
  else
    mkScratch (q_reconfigure (s_best s) (p_l_value p + p_num_frozen p)) (s_visited s)
      (s_id_scratch s) (s_beam_nodes s) (s_range_frontier s) (s_in_range s) (s_hops s) (s_cmps s).

End scratch.

Section search.
Context {I A E Q R : Type} `{Acc : SearchAccessor I A E} `{NQ : NeighborQueue I Q}.
Variable record : R → Neighbor I → Z → Z → R.

Implicit Types s : SearchScratch I Q.

(** The closure of [start_point_distances]. *)
Fixpoint init_calls (calls : list (I * f32)) s : option (SearchScratch I Q) :=
  match calls with
  | [] => Some s
  | (id, distance) :: calls =>
      best ← nq_insert (s_best s) (mkNeighbor id distance);
      cmps ← u32_add (s_cmps s) 1;
      init_calls calls (mkScratch best ({[ id ]} ∪ s_visited s) (s_id_scratch s)
        (s_beam_nodes s) (s_range_frontier s) (s_in_range s) (s_hops s) cmps)
  end.

(** The inner loop that fills the beam: at most [n] more nodes. *)
Fixpoint fill_beam (n : nat) (best : Q) (beam : list I) (hops cmps : Z) (rec : R) :
    option (Q * list I * R) :=
  match n with
  | 0 => Some (best, beam, rec)
  | S n =>
      '(best, closest) ← nq_closest_notvisited best;
      match closest with
      | None => Some (best, beam, rec)
      | Some node =>
          fill_beam n best (beam ++ [nbr_id node]) hops cmps (record rec node hops cmps)
      end
  end.

Fixpoint insert_neighbors (best : Q) (neighbors : list (I * f32)) : option Q :=
  match neighbors with
  | [] => Some best
  | (id, distance) :: neighbors =>
      best ← nq_insert best (mkNeighbor id distance); insert_neighbors best neighbors
  end.

Definition finish s : InternalSearchStats := mkStats (s_cmps s) (s_hops s) false.

(** The [while] loop. *)
Fixpoint search_loop (fuel : nat) (beam_width : nat) (a : A) s (rec : R) :
    option (A * SearchScratch I Q * R * result E InternalSearchStats) :=
  if nq_has_notvisited_node (s_best s) then
    let '(a, stop) := terminate_early a in
    if (stop : bool) then Some (a, s, rec, Ok (finish s)) else
    match fuel with
    | 0 => None
    | S fuel =>
        '(best, beam, rec) ← fill_beam beam_width (s_best s) [] (s_hops s) (s_cmps s) rec;
        let '(a, visited, neighbors, r) := expand_beam a beam (s_visited s) in
        match r with
        | Err e =>
            Some (a, mkScratch best visited (s_id_scratch s) beam (s_range_frontier s)
                       (s_in_range s) (s_hops s) (s_cmps s), rec, Err e)
        | Ok _ =>
            best ← insert_neighbors best neighbors;
            cmps ← u32_add (s_cmps s) (as_u32 (length neighbors));
            hops ← u32_add (s_hops s) (as_u32 (length beam));
            search_loop fuel beam_width a
              (mkScratch best visited (s_id_scratch s) beam (s_range_frontier s) (s_in_range s)
                 hops cmps) rec
        end
    end
  else Some (a, s, rec, Ok (finish s)).

(** [DiskANNIndex::search_internal] *)
Definition search_internal (fuel : nat) (beam_width : option nat) (a : A) s (rec : R) :
    option (A * SearchScratch I Q * R * result E InternalSearchStats) :=
  let beam_width := default 1 beam_width in
  if bool_decide (s_visited s = ∅) then
    let '(a, calls, r) := start_point_distances a in
    s ← init_calls calls s;
    match r with
    | Err e => Some (a, s, rec, Err e)
    | Ok _ => search_loop fuel beam_width a s rec
    end
  else search_loop fuel beam_width a s rec.

End search.

(** ** Theory *)

(** A search fails with an error of the accessor only. *)
Section errors.
Context {I A E Q R : Type} `{Acc : SearchAccessor I A E} `{NQ : NeighborQueue I Q}.
Variable record : R → Neighbor I → Z → Z → R.

Lemma search_loop_error fuel : ∀ bw a (s : SearchScratch I Q) rec a' s' rec' e,
  search_loop record fuel bw a s rec = Some (a', s', rec', Err e) → accessor_error I A E e.
Proof.
  induction fuel as [|fuel IH]; intros bw a s rec a' s' rec' e; cbn [search_loop];
    (destruct (nq_has_notvisited_node (s_best s)); [|done]);
    destruct (terminate_early a) as [a1 []]; try done.
  destruct (fill_beam _ _ _ _ _ _ _) as [[[best beam] rec1]|]; [|done]. cbn [mbind option_bind].
  destruct (expand_beam a1 beam (s_visited s)) as [[[a2 vis] ns] [u|e1]] eqn:Hex;
    [|intros ?; simplify_eq; by eauto with rust].
  destruct (insert_neighbors best _); [|done]. cbn [mbind option_bind].
  destruct (u32_add (s_cmps s) _); [|done]. cbn [mbind option_bind].
  destruct (u32_add (s_hops s) _); [|done]. cbn [mbind option_bind]. apply IH.
Qed.

Lemma search_internal_error fuel bw a (s : SearchScratch I Q) rec a' s' rec' e :
  search_internal record fuel bw a s rec = Some (a', s', rec', Err e) → accessor_error I A E e.
Proof.
  unfold search_internal. case_bool_decide; [|apply search_loop_error].
  destruct (start_point_distances a) as [[a1 calls] [u|e1]] eqn:Hst; (destruct (init_calls _ _); [|done]);
    cbn [mbind option_bind]; [apply search_loop_error|].
  intros ?. simplify_eq. by eauto with rust.
Qed.

End errors.

Lemma u32_add_ok x y : (x + y < 2 ^ 32)%Z → u32_add x y = Some (x + y)%Z.
Proof. intros Hl. unfold u32_add. by rewrite (proj2 (Z.ltb_lt _ _) Hl). Qed.

Lemma as_u32_small n : (Z.of_nat n < 2 ^ 32)%Z → as_u32 n = Z.of_nat n.
Proof. intros Hl. unfold as_u32. apply Z.mod_small. lia. Qed.

Section counting.
Context {I : Type} `{Countable I} {nodes : gset I}.

(** The nodes that were not visited yet. *)
Definition remaining (visited : gset I) : nat := size (nodes ∖ visited).

Lemma remaining_drop (l : list I) (vis vis' : gset I) :
  NoDup l → vis ⊆ vis' → (∀ i, i ∈ l → i ∉ vis ∧ i ∈ vis' ∧ i ∈ nodes) →
  length l + remaining vis' ≤ remaining vis.
Proof.
  intros Hnd Hsub Hl. unfold remaining.
  rewrite <-(size_list_to_set (C := gset I) l) by done.
  rewrite <-size_union by set_solver. apply subseteq_size.
  intros i [Hi|Hi]%elem_of_union; [|set_solver].
  apply elem_of_list_to_set in Hi. destruct (Hl i Hi) as (? & ? & ?). set_solver.
Qed.

End counting.

Section invariant.
Context {I A E Q R : Type} `{Countable I}.
Context `{Acc : !SearchAccessor I A E} `{NQ : !NeighborQueue I Q}.
Context {dist : I → f32} {adj : I → list I} {nodes : gset I} {starts : list I}.
Context `{AL : !SearchAccessorLaws I A E dist adj nodes starts}.
Context `{QL : !NeighborQueueLaws I Q}.
Variable record : R → Neighbor I → Z → Z → R.

(** A property of the queue, of all that was inserted into it and of the search record, kept
    by the operations. *)
Variable rep : Q → list (Neighbor I) → R → Prop.
Hypothesis rep_insert : ∀ q n q' all rec,
  nq_ok q → nbr_id n ∉ nbr_id ∘ fst <$> nq_entries q → nbr_id n ∉ nbr_id <$> all →
  nq_insert q n = Some q' → rep q all rec → rep q' (n :: all) rec.
Hypothesis rep_visit : ∀ q q' n all rec hops cmps,
  nq_ok q → nq_closest_notvisited q = Some (q', Some n) →
  rep q all rec → rep q' all (record rec n hops cmps).

Implicit Types (s : SearchScratch I Q) (all : list (Neighbor I)) (q : Q).

Definition to_nbrs (calls : list (I * f32)) : list (Neighbor I) :=
  (λ p, mkNeighbor p.1 p.2) <$> calls.

Lemma to_nbrs_ids calls : nbr_id <$> to_nbrs calls = calls.*1.
Proof. unfold to_nbrs. rewrite <-list_fmap_compose. by apply list_fmap_ext. Qed.

(** What a queue knows of the items inserted so far. *)
Record queue_inv q all (rec : R) : Prop := {
  qi_ok : nq_ok q;
  qi_rep : rep q all rec;
  qi_contents : ∃ dropped, all ≡ₚ (nq_entries q).*1 ++ dropped;
}.

Lemma queue_inv_ids q all rec i :
  queue_inv q all rec → i ∈ nbr_id ∘ fst <$> nq_entries q → i ∈ nbr_id <$> all.
Proof.
  intros [_ _ [dr Hdr]] Hi. rewrite list_fmap_compose in Hi.
  rewrite Hdr, fmap_app. apply elem_of_app. by left.
Qed.

Lemma insert_neighbors_ok calls rec : ∀ q all,
  queue_inv q all rec → NoDup calls.*1 → (∀ i, i ∈ calls.*1 → i ∉ nbr_id <$> all) →
  ∃ q', insert_neighbors q calls = Some q' ∧
    queue_inv q' (reverse (to_nbrs calls) ++ all) rec ∧
    nq_pending q' ≤ length calls + nq_pending q ∧ nq_search_l q' = nq_search_l q ∧
    (∀ n, (n, true) ∈ nq_entries q' → (n, true) ∈ nq_entries q).
Proof.
  induction calls as [|[i d] calls IH]; intros q all Hq Hnd Hnew; cbn [insert_neighbors].
  { exists q. split_and!; try done. }
  apply NoDup_cons in Hnd as [Hi Hnd].
  assert (i ∉ nbr_id ∘ fst <$> nq_entries q) as Hiq.
  { intros Hin. apply (queue_inv_ids q all rec) in Hin; [|done]. apply (Hnew i); [by left|done]. }
  destruct (nq_insert_ok q (mkNeighbor i d) (qi_ok _ _ _ Hq) Hiq)
    as (q1 & dr & Hrun & Hok & Hpend & Hl & Hperm).
  rewrite Hrun. cbn [mbind option_bind].
  destruct (IH q1 (mkNeighbor i d :: all)) as (q' & -> & Hq' & Hp' & Hl' & Htrue); [|done| |].
  - split; [done|eapply rep_insert; [apply Hq|done| |exact Hrun|apply Hq]; apply Hnew; by left|].
    destruct (qi_contents _ _ _ Hq) as [dr0 Hdr0]. exists (dr.*1 ++ dr0).
    apply (fmap_Permutation fst) in Hperm. rewrite fmap_cons, fmap_app in Hperm. simpl in Hperm.
    by rewrite Hdr0, app_comm_cons, Hperm, (assoc_L (++)).
  - intros j Hj. rewrite fmap_cons, not_elem_of_cons. split; [by intros ->|].
    apply Hnew. by right.
  - exists q'. split_and!; [done| |simpl; lia|congruence|].
    + unfold to_nbrs in *. rewrite fmap_cons, reverse_cons. by rewrite <-(assoc_L (++)).
    + intros n Hn. apply Htrue in Hn.
      assert ((n, true) ∈ (mkNeighbor i d, false) :: nq_entries q) as Hn'
        by (rewrite Hperm, elem_of_app; by left).
      apply elem_of_cons in Hn' as [?|?]; [done|done].
Qed.

Lemma init_calls_eq calls : ∀ s best',
  insert_neighbors (s_best s) calls = Some best' →
  (s_cmps s + Z.of_nat (length calls) < 2 ^ 32)%Z →
  init_calls calls s =
    Some (mkScratch best' (list_to_set calls.*1 ∪ s_visited s) (s_id_scratch s) (s_beam_nodes s)
            (s_range_frontier s) (s_in_range s) (s_hops s)
            (s_cmps s + Z.of_nat (length calls))).
Proof.
  induction calls as [|[i d] calls IH]; intros s best' Hins Hc; cbn [insert_neighbors] in Hins.
  { simplify_eq. simpl. rewrite Z.add_0_r, (left_id_L ∅ (∪)). by destruct s. }
  apply bind_Some in Hins as (q1 & Hq1 & Hins). cbn [init_calls]. rewrite Hq1.
  cbn [mbind option_bind]. rewrite u32_add_ok by (cbn [length] in Hc; lia).
  cbn [mbind option_bind]. cbn [length] in Hc. erewrite IH; [|exact Hins|simpl; lia].
  cbn [s_visited s_id_scratch s_beam_nodes s_range_frontier s_in_range s_hops s_cmps].
  f_equal. f_equal; [cbn; set_solver|cbn [length]; lia].
Qed.

(** Filling the beam visits items and keeps what the queue holds. *)
Lemma fill_beam_ok n : ∀ q beam hops cmps rec all,
  queue_inv q all rec →
  ∃ q' new rec',
    fill_beam record n q beam hops cmps rec = Some (q', beam ++ new, rec') ∧
    queue_inv q' all rec' ∧ (nq_entries q').*1 = (nq_entries q).*1 ∧
    nq_pending q' + length new ≤ nq_pending q ∧ nq_search_l q' = nq_search_l q ∧
    (∀ m, (m, true) ∈ nq_entries q' → (m, true) ∈ nq_entries q ∨ nbr_id m ∈ new) ∧
    (∀ i, i ∈ new → i ∈ nbr_id ∘ fst <$> nq_entries q) ∧
    (nq_has_notvisited_node q = true → 0 < n → 0 < length new).
Proof.
  induction n as [|n IH]; intros q beam hops cmps rec all Hq; cbn [fill_beam].
  { exists q, [], rec. rewrite app_nil_r. split_and!; try done; [simpl; lia|by auto|].
    by intros i Hi%elem_of_nil. }
  destruct (nq_has_notvisited_node q) eqn:Hh.
  2:{ destruct (nq_visit_none q (qi_ok _ _ _ Hq) Hh) as [-> _]. cbn [mbind option_bind].
      exists q, [], rec. rewrite app_nil_r. split_and!; try done; [simpl; lia|by auto|].
      by intros i Hi%elem_of_nil. }
  destruct (nq_visit_ok q (qi_ok _ _ _ Hq) Hh)
    as (q1 & m & k & b & Hrun & Hok & Hpend & Hl & Hk & He).
  rewrite Hrun. cbn [mbind option_bind].
  assert ((nq_entries q1).*1 = (nq_entries q).*1) as Hfst.
  { rewrite He, list_fmap_insert. simpl. apply list_insert_id.
    by rewrite list_lookup_fmap, Hk. }
  assert (queue_inv q1 all (record rec m hops cmps)) as Hq1.
  { split; [done|eapply rep_visit; [apply Hq|exact Hrun|apply Hq]|]. rewrite Hfst. apply Hq. }
  destruct (IH q1 (beam ++ [nbr_id m]) hops cmps (record rec m hops cmps) all Hq1)
    as (q' & new & rec' & -> & Hq' & Hfst' & Hp' & Hl' & Htrue & Hnew & _).
  exists q', (nbr_id m :: new), rec'. split_and!.
  - by rewrite <-(assoc_L (++)).
  - done.
  - congruence.
  - simpl. lia.
  - congruence.
  - intros m' Hm'. destruct (Htrue m' Hm') as [Hin|Hin]; [|right; by right].
    rewrite He in Hin. apply list_elem_of_lookup in Hin as [k' Hk'].
    destruct (decide (k' = k)) as [->|].
    + rewrite list_lookup_insert_eq in Hk' by (by eapply lookup_lt_Some). simplify_eq.
      right. by left.
    + rewrite list_lookup_insert_ne in Hk' by done. left. by eapply list_elem_of_lookup_2.
  - intros i [->|Hi]%elem_of_cons.
    + apply list_elem_of_fmap. exists (m, b). split; [done|]. by eapply list_elem_of_lookup_2.
    + apply Hnew in Hi. rewrite list_fmap_compose, Hfst in Hi. by rewrite list_fmap_compose.
  - simpl. lia.
Qed.

(** The invariant of the search loop: [all] are the neighbors reported so far. *)
Record search_inv (seeds : gset I) s all (rec : R) : Prop := {
  si_queue : queue_inv (s_best s) all rec;
  si_ids : ∀ n, n ∈ all → nbr_id n ∈ s_visited s ∧ nbr_distance n = dist (nbr_id n);
  si_nodup : NoDup (nbr_id <$> all);
  si_nodes : s_visited s ⊆ nodes;
  si_complete : accessor_complete I A E adj →
    ∀ i, i ∈ s_visited s → i ∈ nbr_id <$> all ∨ i ∈ seeds;
  si_expanded : accessor_complete I A E adj →
    ∀ n j, (n, true) ∈ nq_entries (s_best s) → j ∈ adj (nbr_id n) → j ∈ s_visited s;
  si_counters : (0 ≤ s_hops s)%Z ∧ (0 ≤ s_cmps s)%Z;
}.

Lemma calls_dist calls : calls.*2 = dist <$> calls.*1 →
  ∀ n, n ∈ to_nbrs calls → nbr_id n ∈ calls.*1 ∧ nbr_distance n = dist (nbr_id n).
Proof.
  intros Hd n Hn. apply list_elem_of_fmap in Hn as ([i d] & -> & Hin). simpl. split.
  - apply list_elem_of_fmap. by exists (i, d).
  - apply list_elem_of_lookup in Hin as [k Hk].
    assert (calls.*2 !! k = Some d) as H2 by (by rewrite list_lookup_fmap, Hk).
    rewrite Hd, !list_lookup_fmap, Hk in H2. by simplify_eq/=.
Qed.

(** Adding the neighbors that a call reported. *)
Lemma report_ok seeds s all rec rec' calls q vis' hops cmps beam :
  search_inv seeds s all rec →
  queue_inv q (reverse (to_nbrs calls) ++ all) rec' →
  calls.*2 = dist <$> calls.*1 → NoDup calls.*1 →
  (∀ i, i ∈ calls.*1 → i ∉ s_visited s ∧ i ∈ vis') → s_visited s ⊆ vis' → vis' ⊆ nodes →
  (accessor_complete I A E adj → ∀ i, i ∈ vis' → i ∈ s_visited s ∨ i ∈ calls.*1) →
  (accessor_complete I A E adj →
     ∀ n j, (n, true) ∈ nq_entries q → j ∈ adj (nbr_id n) → j ∈ vis') →
  (0 ≤ hops)%Z → (0 ≤ cmps)%Z →
  search_inv seeds (mkScratch q vis' (s_id_scratch s) beam (s_range_frontier s) (s_in_range s)
    hops cmps) (reverse (to_nbrs calls) ++ all) rec'.
Proof.
  intros Hs Hq Hd Hnd Hnew Hsub Hnodes Hcomp Hexp Hh Hc. split; simpl; try done.
  - intros n [Hn|Hn]%elem_of_app.
    + rewrite elem_of_reverse in Hn. destruct (calls_dist calls Hd n Hn) as [Hi ?].
      split; [by apply Hnew|done].
    + destruct (si_ids _ _ _ _ Hs n Hn). split; [by apply Hsub|done].
  - rewrite fmap_app, fmap_reverse, to_nbrs_ids. apply NoDup_app. split_and!.
    + by rewrite reverse_Permutation.
    + intros i Hi Hi'. rewrite elem_of_reverse in Hi.
      apply list_elem_of_fmap in Hi' as (n & -> & Hn).
      by apply (Hnew _ Hi), (si_ids _ _ _ _ Hs n Hn).
    + apply Hs.
  - intros Hac i Hi. rewrite fmap_app, fmap_reverse, to_nbrs_ids, elem_of_app, elem_of_reverse.
    destruct (Hcomp Hac i Hi) as [Hv|Hv]; [|by left; left].
    destruct (si_complete _ _ _ _ Hs Hac i Hv); [by left; right|by right].
Qed.

(** The counters stay within bounds: each visit and each report uses up a unit. *)
Variables (max_hops max_cmps : Z).
Hypothesis max_hops_u32 : (max_hops < 2 ^ 32)%Z.
Hypothesis max_cmps_u32 : (max_cmps < 2 ^ 32)%Z.

Definition budget s : Prop :=
  (s_hops s + Z.of_nat (nq_pending (s_best s) + remaining (nodes := nodes) (s_visited s)) ≤ max_hops)%Z ∧
  (s_cmps s + Z.of_nat (remaining (nodes := nodes) (s_visited s)) ≤ max_cmps)%Z.

(** The outcome of the loop. *)
Definition search_post (seeds : gset I) s all s' (rec' : R) (r : result E InternalSearchStats) :
    Prop :=
  match r with
  | Err e => accessor_error I A E e
  | Ok stats => ∃ added, search_inv seeds s' (added ++ all) rec' ∧ budget s' ∧
      stats = finish s' ∧ s_visited s ⊆ s_visited s' ∧
      nq_search_l (s_best s') = nq_search_l (s_best s) ∧
      (never_terminates_early I A E → nq_has_notvisited_node (s_best s') = false) ∧
      s_range_frontier s' = s_range_frontier s
  end.

Lemma search_post_refl seeds s all rec :
  search_inv seeds s all rec → budget s →
  (never_terminates_early I A E → nq_has_notvisited_node (s_best s) = false) →
  search_post seeds s all s rec (Ok (finish s)).
Proof. intros. exists []. by split_and!. Qed.

Lemma search_post_trans seeds s s1 s' all added rec' r :
  s_visited s ⊆ s_visited s1 → nq_search_l (s_best s1) = nq_search_l (s_best s) →
  s_range_frontier s1 = s_range_frontier s →
  search_post seeds s1 (added ++ all) s' rec' r → search_post seeds s all s' rec' r.
Proof.
  intros Hsub Hl Hfr. destruct r as [st|e]; [|done].
  intros (ad & H1 & H2 & H3 & H4 & H5 & H6 & H7). exists (ad ++ added).
  rewrite <-(assoc_L (++)). split_and!; [done|done|done| |congruence|done|congruence].
  by trans (s_visited s1).
Qed.

Lemma expand_nodes seeds s all rec ids a a' vis' calls r :
  search_inv seeds s all rec → (∀ i, i ∈ ids → i ∈ nodes) →
  expand_beam a ids (s_visited s) = (a', vis', calls, r) → vis' ⊆ nodes.
Proof.
  intros Hs Hids Hex. destruct (expand_law _ _ _ _ _ _ _ Hex) as (_ & _ & _ & _ & Hv).
  intros i Hi. destruct (Hv i Hi) as [Hin|(b & Hb & Hin)].
  - by apply (si_nodes _ _ _ _ Hs).
  - eapply adj_nodes; [apply Hids, Hb|done].
Qed.

(** The loop terminates, panics nowhere and keeps the invariant. *)
Lemma search_loop_ok seeds fuel : ∀ beam_width a s rec all,
  0 < beam_width → search_inv seeds s all rec → budget s →
  nq_pending (s_best s) + remaining (nodes := nodes) (s_visited s) ≤ fuel →
  ∃ a' s' rec' r, search_loop record fuel beam_width a s rec = Some (a', s', rec', r) ∧
    search_post seeds s all s' rec' r.
Proof.
  induction fuel as [|fuel IH]; intros bw a s rec all Hbw Hs [Hbh Hbc] Hf; cbn [search_loop];
    (destruct (nq_has_notvisited_node (s_best s)) eqn:Hh;
     [|eexists _, _, _, _; split; [done|]; by apply search_post_refl]);
    destruct (terminate_early a) as [a1 stop] eqn:Ht;
    (destruct stop; [eexists _, _, _, _; split; [done|];
       apply search_post_refl; [done|done|]; intros Hne; specialize (Hne a); by rewrite Ht in Hne|]).
  { destruct (nq_visit_ok (s_best s) (qi_ok _ _ _ (si_queue _ _ _ _ Hs)) Hh)
      as (q' & n & k & b & _ & _ & Hp & _). lia. }
  destruct (fill_beam_ok bw (s_best s) [] (s_hops s) (s_cmps s) rec all (si_queue _ _ _ _ Hs))
    as (q1 & new & rec' & -> & Hq1 & Hfst & Hp1 & Hl1 & Htrue & Hnew & Hpos).
  cbn [mbind option_bind]. specialize (Hpos Hh Hbw). simpl ([] ++ new).
  destruct (expand_beam a1 new (s_visited s)) as [[[a2 vis'] calls] r] eqn:Hex.
  destruct r as [u|e]; [|by failed]. destruct u.
  destruct (expand_law _ _ _ _ _ _ _ Hex) as (Hd & Hnd & Hcalls & Hsub & _).
  assert (∀ i, i ∈ new → i ∈ nodes) as Hbeam.
  { intros i Hi. apply Hnew in Hi. apply (queue_inv_ids _ all rec) in Hi; [|apply Hs].
    apply list_elem_of_fmap in Hi as (n & -> & Hn). by apply (si_nodes _ _ _ _ Hs), (si_ids _ _ _ _ Hs). }
  pose proof (expand_nodes _ _ _ _ _ _ _ _ _ _ Hs Hbeam Hex) as Hnodes.
  assert (length calls + remaining (nodes := nodes) vis' ≤ remaining (nodes := nodes) (s_visited s)) as Hrem.
  { rewrite <-(length_fmap fst calls). apply remaining_drop; [done|done|].
    intros i Hi. destruct (Hcalls i Hi). split_and!; [done|done|by apply Hnodes]. }
  destruct (insert_neighbors_ok calls rec' q1 all Hq1 Hnd) as (q2 & -> & Hq2 & Hp2 & Hl2 & Htrue2).
  { intros i Hi Hin. apply list_elem_of_fmap in Hin as (n & -> & Hn).
    by apply (Hcalls _ Hi), (si_ids _ _ _ _ Hs n Hn). }
  destruct (si_counters _ _ _ _ Hs) as [Hh0 Hc0]. cbn [mbind option_bind].
  rewrite !as_u32_small by lia. rewrite !u32_add_ok by lia. cbn [mbind option_bind].
  edestruct (IH bw a2 (mkScratch q2 vis' (s_id_scratch s) new (s_range_frontier s)
      (s_in_range s) (s_hops s + Z.of_nat (length new)) (s_cmps s + Z.of_nat (length calls)))
      rec' (reverse (to_nbrs calls) ++ all)) as (a' & s' & rec2 & r & -> & Hpost).
  - done.
  - apply (report_ok seeds s all rec); auto; try lia.
    + intros Hac. by apply (Hac _ _ _ _ _ _ Hex).
    + intros Hac n j Hn Hj. apply Htrue2, Htrue in Hn as [Hn|Hn].
      * by eapply Hsub, (si_expanded _ _ _ _ Hs).
      * by eapply (Hac _ _ _ _ _ _ Hex).
  - split; simpl; lia.
  - simpl. lia.
  - eexists _, _, _, _. split; [done|].
    eapply (search_post_trans _ s); [| | |exact Hpost]; simpl; [done|congruence|done].
Qed.

(** An empty scratch. *)
Lemma search_inv_fresh seeds s rec :
  queue_inv (s_best s) [] rec → nq_entries (s_best s) = [] → s_visited s = ∅ →
  (0 ≤ s_hops s)%Z → (0 ≤ s_cmps s)%Z → search_inv seeds s [] rec.
Proof.
  intros Hq He Hv Hh Hc. split; rewrite ?Hv, ?He; try done.
  - by intros n Hn%elem_of_nil.
  - constructor.
  - by intros _ n j Hn%elem_of_nil.
Qed.

(** [search_internal] on a scratch that was not used yet. *)
Lemma search_internal_fresh fuel beam_width a s rec :
  0 < default 1 beam_width →
  queue_inv (s_best s) [] rec → nq_entries (s_best s) = [] → s_visited s = ∅ →
  (0 ≤ s_hops s)%Z → (0 ≤ s_cmps s)%Z → budget s →
  nq_pending (s_best s) + size nodes ≤ fuel →
  ∃ a' s' rec' r, search_internal record fuel beam_width a s rec = Some (a', s', rec', r) ∧
    match r with
    | Err e => accessor_error I A E e
    | Ok stats => ∃ all, search_inv ∅ s' all rec' ∧ stats = finish s' ∧
        nq_search_l (s_best s') = nq_search_l (s_best s) ∧
        (∀ i, i ∈ starts → i ∈ s_visited s') ∧
        (never_terminates_early I A E → nq_has_notvisited_node (s_best s') = false) ∧
        budget s' ∧ s_range_frontier s' = s_range_frontier s
    end.
Proof.
  intros Hbw Hq He Hv Hh0 Hc0 [Hbh Hbc] Hf. unfold search_internal.
  rewrite bool_decide_eq_true_2 by done.
  assert (remaining (nodes := nodes) (s_visited s) = size nodes) as Hrn
    by (unfold remaining; rewrite Hv; f_equal; set_solver).
  destruct (start_point_distances a) as [[a1 calls] r] eqn:Hst.
  destruct (start_law _ _ _ _ Hst) as (Hd & Hnd & Hstart & Hall).
  destruct (insert_neighbors_ok calls rec (s_best s) [] Hq Hnd) as (q1 & Hins & Hq1 & Hp1 & Hl1 & Ht);
    [by intros i _ Hi%elem_of_nil|].
  assert (length calls + remaining (nodes := nodes) (list_to_set calls.*1) ≤ size nodes) as Hrem.
  { rewrite <-Hrn, <-(length_fmap fst calls). apply remaining_drop; [done|rewrite Hv; set_solver|].
    intros i Hi. rewrite Hv. split_and!; [set_solver|by apply elem_of_list_to_set|].
    by apply starts_nodes, Hstart. }
  rewrite (init_calls_eq calls s q1) by (done || lia). cbn [mbind option_bind].
  destruct r as [u|e]; [|by failed]. destruct u.
  set (s1 := mkScratch _ _ _ _ _ _ _ _).
  assert (s_visited s1 = list_to_set calls.*1) as Hv1 by (simpl; rewrite Hv; set_solver).
  destruct (search_loop_ok ∅ fuel (default 1 beam_width) a1 s1 rec (reverse (to_nbrs calls) ++ []))
    as (a' & s' & rec' & r & -> & Hpost).
  - done.
  - apply (report_ok ∅ s [] rec); auto using search_inv_fresh; try lia; rewrite ?Hv.
    + intros i Hi. split; [set_solver|]. apply elem_of_union. left. by apply elem_of_list_to_set.
    + set_solver.
    + intros i [Hi|Hi]%elem_of_union; [|set_solver]. apply elem_of_list_to_set in Hi.
      by apply starts_nodes, Hstart.
    + intros _ i [Hi|Hi]%elem_of_union; [right|by left]. by apply elem_of_list_to_set in Hi.
    + intros _ n j Hn. apply Ht in Hn. rewrite He in Hn. by apply elem_of_nil in Hn.
  - split; rewrite Hv1; simpl; lia.
  - rewrite Hv1. simpl. lia.
  - eexists _, _, _, _. split; [done|]. destruct r as [st|e]; [|done].
    destruct Hpost as (ad & H1 & H2 & H3 & H4 & H5 & H6 & H7).
    eexists. split_and!; [done|done| | |done|done|done].
    + simpl in H5. congruence.
    + intros i Hi. apply H4. rewrite Hv1. apply elem_of_list_to_set. by apply Hall.
Qed.

End invariant.

(** ** A reference accessor

    The pseudo code that the documentation of [expand_beam] gives: for each neighbor of the
    beam, ask the predicate, and report the neighbor with its distance.  It meets the contract
    and drops nothing. *)

Section reference.
Context {I : Type} `{Countable I}.
Variables (dist : I → f32) (adj : I → list I) (nodes : gset I) (starts : list I).

Fixpoint expand_list (vis : gset I) (ns : list I) : gset I * list (I * f32) :=
  match ns with
  | [] => (vis, [])
  | j :: ns =>
      let '(vis', new) := not_in_eval_mut vis j in
      let '(vis'', calls) := expand_list vis' ns in
      (vis'', if (new : bool) then (j, dist j) :: calls else calls)
  end.

Definition reference_accessor : SearchAccessor I unit unit := {|
  starting_points _ := Ok starts;
  start_point_distances a := (a, (λ i, (i, dist i)) <$> starts, Ok tt);
  expand_beam a ids vis :=
    let '(vis', calls) := expand_list vis (ids ≫= adj) in (a, vis', calls, Ok tt);
  terminate_early a := (a, false);
|}.

Lemma expand_list_ok ns : ∀ vis vis' calls,
  expand_list vis ns = (vis', calls) →
  calls.*2 = dist <$> calls.*1 ∧ NoDup calls.*1 ∧
  (∀ i, i ∈ calls.*1 → i ∉ vis) ∧ (∀ i, i ∈ vis' ↔ i ∈ vis ∨ i ∈ calls.*1) ∧
  (∀ i, i ∈ vis' ↔ i ∈ vis ∨ i ∈ ns).
Proof.
  clear adj nodes starts.
  induction ns as [|j ns IH]; intros vis vis' calls Hex; cbn [expand_list] in Hex.
  { simplify_eq. split_and!; [done|constructor|..]; set_solver. }
  unfold not_in_eval_mut in Hex.
  destruct (expand_list ({[j]} ∪ vis) ns) as [vis2 calls2] eqn:E.
  destruct (IH _ _ _ E) as (Hd & Hnd & Hnew & Hv & Hns).
  destruct (bool_decide_reflect (j ∈ vis)) as [Hj|Hj]; simpl in Hex; simplify_eq.
  - split_and!; [done|done|set_solver|intros i; rewrite Hv; set_solver|].
    intros i. rewrite Hns. set_solver.
  - split_and!; rewrite ?fmap_cons; cbn [fst snd].
    + f_equal. exact Hd.
    + apply NoDup_cons. split; [|done]. intros Hin. apply Hnew in Hin. set_solver.
    + intros i [->|Hi]%elem_of_cons; [done|]. apply Hnew in Hi. set_solver.
    + intros i. rewrite Hv. set_solver.
    + intros i. rewrite Hns. set_solver.
Qed.

Hypothesis starts_distinct : NoDup starts.
Hypothesis starts_in : ∀ i, i ∈ starts → i ∈ nodes.
Hypothesis adj_in : ∀ b j, b ∈ nodes → j ∈ adj b → j ∈ nodes.

Lemma calls_of_ids (l : list I) : ((λ i, (i, dist i)) <$> l).*1 = l.
Proof. induction l as [|i l IH]; [done|]. rewrite !fmap_cons. cbn [fst]. by rewrite IH. Qed.

Lemma reference_laws :
  SearchAccessorLaws I unit unit (Acc := reference_accessor) dist adj nodes starts.
Proof.
  split.
  - intros a ps Hps. by simplify_eq/=.
  - intros a a' calls r Hst. simplify_eq/=. rewrite calls_of_ids. split_and!; try done.
    rewrite <-list_fmap_compose. by apply list_fmap_ext.
  - done.
  - done.
  - intros a ids vis a' vis' calls r Hex. cbn in Hex.
    destruct (expand_list vis (ids ≫= adj)) as [v c] eqn:E. simplify_eq.
    destruct (expand_list_ok _ _ _ _ E) as (Hd & Hnd & Hnew & Hv & Hns). split_and!; try done.
    + intros i Hi. split; [by apply Hnew|]. apply Hv. by right.
    + intros i Hi. apply Hv. by left.
    + intros i Hi. apply Hns in Hi as [Hi|Hi]; [by left|right].
      apply list_elem_of_bind in Hi as (b & Hb & Hi). by exists b.
Qed.

Lemma reference_complete : accessor_complete I unit unit (Acc := reference_accessor) adj.
Proof.
  intros a ids vis a' vis' calls Hex. cbn in Hex.
  destruct (expand_list vis (ids ≫= adj)) as [v c] eqn:E. simplify_eq.
  destruct (expand_list_ok _ _ _ _ E) as (Hd & Hnd & Hnew & Hv & Hns). split.
  - intros b j Hb Hj. apply Hns. right. apply list_elem_of_bind. by exists b.
  - intros i. by apply Hv.
Qed.

End reference.

(** ** The properties *)

Section properties.
Context {I A E Q R : Type} `{Countable I}.
Context `{Acc : !SearchAccessor I A E} `{NQ : !NeighborQueue I Q}.
Context {dist : I → f32} {adj : I → list I} {nodes : gset I} {starts : list I}.
Context `{AL : !SearchAccessorLaws I A E dist adj nodes starts}.
Context `{QL : !NeighborQueueLaws I Q}.
Variable record : R → Neighbor I → Z → Z → R.
Implicit Types s : SearchScratch I Q.

(** A scratch space before the search. *)
Record scratch_fresh s : Prop := {
  sf_ok : nq_ok (s_best s);
  sf_empty : nq_entries (s_best s) = [];
  sf_pending : nq_pending (s_best s) = 0;
  sf_visited : s_visited s = ∅;
  sf_hops : s_hops s = 0%Z;
  sf_cmps : s_cmps s = 0%Z;
}.

Lemma fresh_budget s :
  scratch_fresh s →
  budget (nodes := nodes) (Z.of_nat (size nodes)) (Z.of_nat (size nodes)) s.
Proof.
  intros Hs. unfold budget, remaining. rewrite (sf_pending s Hs), (sf_hops s Hs), (sf_cmps s Hs).
  assert (size (nodes ∖ s_visited s) ≤ size nodes) by (apply subseteq_size; set_solver). lia.
Qed.

Lemma search_internal_total (fuel : nat) (beam_width : option nat) (a : A) s (rec : R) :
  scratch_fresh s → beam_width ≠ Some 0 → (Z.of_nat (size nodes) < 2 ^ 32)%Z →
  size nodes ≤ fuel →
  ∃ a' s' rec' r, search_internal record fuel beam_width a s rec = Some (a', s', rec', r) ∧
    match r with
    | Err e => accessor_error I A E e
    | Ok stats =>
        nq_ok (s_best s') ∧ stats = mkStats (s_cmps s') (s_hops s') false ∧
        NoDup (nbr_id ∘ fst <$> nq_entries (s_best s')) ∧
        (∀ n b, (n, b) ∈ nq_entries (s_best s') →
           nbr_id n ∈ nodes ∧ nbr_distance n = dist (nbr_id n)) ∧
        (0 ≤ s_hops s' ≤ Z.of_nat (size nodes))%Z ∧ (0 ≤ s_cmps s' ≤ Z.of_nat (size nodes))%Z ∧
        s_range_frontier s' = s_range_frontier s
    end.
Proof.
  intros Hs Hbw Hn Hf.
  destruct (search_internal_fresh record (λ _ _ _, True) ltac:(done) ltac:(done)
    (Z.of_nat (size nodes)) (Z.of_nat (size nodes)) Hn Hn fuel beam_width a s rec)
    as (a' & s' & rec' & r & Hrun & Hpost); try apply Hs;
    [destruct beam_width as [[]|]; simpl; (done || lia)| | | |by apply fresh_budget| |].
  - split; [apply Hs|done|]. rewrite (sf_empty s Hs). by exists [].
  - by rewrite (sf_hops s Hs).
  - by rewrite (sf_cmps s Hs).
  - rewrite (sf_pending s Hs). lia.
  - exists a', s', rec', r. split; [done|]. destruct r as [st|e]; [|done].
    destruct Hpost as (all & Hinv & -> & _ & _ & _ & [Hb1 Hb2] & Hfr).
    destruct (si_counters _ _ _ _ _ Hinv).
    split; [apply (si_queue _ _ _ _ _ Hinv)|]. split; [done|].
    destruct (qi_contents _ _ _ _ (si_queue _ _ _ _ _ Hinv)) as [dr Hdr].
    pose proof (si_nodup _ _ _ _ _ Hinv) as Hnd. rewrite Hdr, fmap_app in Hnd.
    split_and!; [| |lia|lia|lia|lia|done].
    + rewrite list_fmap_compose. by apply NoDup_app in Hnd as [? _].
    + intros n b Hin. destruct (si_ids _ _ _ _ _ Hinv n) as [Hid ?].
      { rewrite Hdr, elem_of_app. left. apply list_elem_of_fmap. by exists (n, b). }
      split; [by apply (si_nodes _ _ _ _ _ Hinv)|done].
Qed.

(** C15: Search terminates on every graph with fewer than 2^32 nodes, for every queue and every
    accessor that meet their contracts: with a non-zero beam width the loop runs at most as
    often as there are nodes, no counter overflows and nothing panics.  It fails only with
    an error that the accessor returned; otherwise the candidates in the queue are distinct
    nodes of the graph with their distances to the query. *)
Theorem search_internal_terminates (fuel : nat) (beam_width : option nat) (a : A) s (rec : R) :
  scratch_fresh s → beam_width ≠ Some 0 → (Z.of_nat (size nodes) < 2 ^ 32)%Z →
  size nodes ≤ fuel →
  ∃ a' s' rec' r, search_internal record fuel beam_width a s rec = Some (a', s', rec', r) ∧
    match r with
    | Err e => accessor_error I A E e
    | Ok stats =>
        stats = mkStats (s_cmps s') (s_hops s') false ∧
        NoDup (nbr_id ∘ fst <$> nq_entries (s_best s')) ∧
        ∀ n b, (n, b) ∈ nq_entries (s_best s') →
          nbr_id n ∈ nodes ∧ nbr_distance n = dist (nbr_id n)
    end.
Proof.
  intros Hs Hbw Hn Hf.
  destruct (search_internal_total fuel beam_width a s rec Hs Hbw Hn Hf)
    as (a' & s' & rec' & r & Hrun & Hpost).
  exists a', s', rec', r. split; [done|]. destruct r; [|done].
  by destruct Hpost as (_ & ? & ? & ? & _).
Qed.

Context `{QC : !NeighborQueueClosest I Q}.

(** A node is among the candidates, has no distance, or is no closer than all of a full list of
    candidates. *)
Definition found_or_farther (q : Q) (j : I) : Prop :=
  j ∈ nbr_id ∘ fst <$> nq_entries q ∨ is_nan (dist j) = true ∨
  (nq_full q ∧ ∀ n b, (n, b) ∈ nq_entries q → f32_le (nbr_distance n) (dist j) = true).

Lemma closest_insert (q : Q) n q' all (rec : R) :
  nq_ok q → nbr_id n ∉ nbr_id ∘ fst <$> nq_entries q → nbr_id n ∉ nbr_id <$> all →
  nq_insert q n = Some q' → closest_of (nq_full q) (nq_entries q).*1 all →
  closest_of (nq_full q') (nq_entries q').*1 (n :: all).
Proof. intros ?? _. by apply nq_insert_closest. Qed.

Lemma closest_visit (q : Q) q' m0 all (rec : R) (hops cmps : Z) :
  nq_ok q → nq_closest_notvisited q = Some (q', Some m0) →
  closest_of (nq_full q) (nq_entries q).*1 all → closest_of (nq_full q') (nq_entries q').*1 all.
Proof.
  intros Hq Hrun (dr & Hall & Hdr).
  assert ((nq_entries q').*1 = (nq_entries q).*1) as Hfst.
  { destruct (nq_has_notvisited_node q) eqn:Hh.
    - destruct (nq_visit_ok q Hq Hh) as (q1 & m & k & b & Hrun1 & _ & _ & _ & Hk & He).
      rewrite Hrun in Hrun1. simplify_eq. rewrite He, list_fmap_insert. simpl.
      apply list_insert_id. by rewrite list_lookup_fmap, Hk.
    - destruct (nq_visit_none q Hq Hh) as [Hrun1 _]. rewrite Hrun in Hrun1. by simplify_eq. }
  rewrite Hfst. exists dr. split; [done|]. intros y Hy.
  destruct (Hdr y Hy) as [?|[Hf Hle]]; [by left|right]. split; [|done].
  by eapply nq_visit_full.
Qed.

Lemma closest_found all (q : Q) j :
  closest_of (nq_full q) (nq_entries q).*1 all →
  (∀ n, n ∈ all → nbr_distance n = dist (nbr_id n)) → j ∈ nbr_id <$> all →
  found_or_farther q j.
Proof.
  intros (dr & Hall & Hdr) Hd Hj. apply list_elem_of_fmap in Hj as (n & -> & Hn).
  pose proof (Hd n Hn) as Hnd. rewrite Hall, elem_of_app in Hn. destruct Hn as [Hn|Hn].
  - left. rewrite list_fmap_compose. apply list_elem_of_fmap. by exists n.
  - right. rewrite <-Hnd. destruct (Hdr n Hn) as [?|[Hf Hle]]; [by left|right].
    split; [done|]. intros m b Hm. apply (Hle m), list_elem_of_fmap. by exists (m, b).
Qed.

(** C1: Search ends in a local optimum.  With an accessor that drops no candidate and does not
    stop early, when the search returns [Ok] then every start point and every graph neighbor of
    every result (the best [search_l] candidates) is itself among the candidates, or has a NaN
    distance, or is no closer to the query than any of the candidates, which then fill the
    queue: expanding any result cannot improve the results. *)
Theorem search_internal_local_optimum (fuel : nat) (beam_width : option nat) (a : A) s (rec : R)
    a' s' rec' stats :
  scratch_fresh s → beam_width ≠ Some 0 → (Z.of_nat (size nodes) < 2 ^ 32)%Z →
  size nodes ≤ fuel → accessor_complete I A E adj → never_terminates_early I A E →
  search_internal record fuel beam_width a s rec = Some (a', s', rec', Ok stats) →
  (∀ j, j ∈ starts → found_or_farther (s_best s') j) ∧
  ∃ results, nq_iter (s_best s') = Some results ∧
    ∀ n j, n ∈ results → j ∈ adj (nbr_id n) → found_or_farther (s_best s') j.
Proof.
  intros Hs Hbw Hn Hf Hac Hne Hrun.
  destruct (search_internal_fresh record
    (λ q all _, closest_of (nq_full q) (nq_entries q).*1 all)
    closest_insert closest_visit (Z.of_nat (size nodes)) (Z.of_nat (size nodes)) Hn Hn
    fuel beam_width a s rec)
    as (a1 & s1 & rec1 & r & Hrun1 & Hpost);
    try apply Hs; [destruct beam_width as [[]|]; simpl; (done || lia)| | | |by apply fresh_budget| |].
  - split; [apply Hs| |]; rewrite (sf_empty s Hs); exists []; [|done].
    split; [done|]. by intros y Hy%elem_of_nil.
  - by rewrite (sf_hops s Hs).
  - by rewrite (sf_cmps s Hs).
  - rewrite (sf_pending s Hs). lia.
  - rewrite Hrun in Hrun1. simplify_eq.
    destruct Hpost as (all & Hinv & _ & Hl & Hst & Hdone & _). specialize (Hdone Hne).
    pose proof (si_queue _ _ _ _ _ Hinv) as [Hok Hcl _].
    assert (∀ j, j ∈ s_visited s1 → found_or_farther (s_best s1) j) as Hvis.
    { intros j Hj. apply (closest_found all); [done|by intros m Hm; apply (si_ids _ _ _ _ _ Hinv)|].
      destruct (si_complete _ _ _ _ _ Hinv Hac j Hj); set_solver. }
    split; [by auto|]. eexists. split; [by apply nq_iter_ok|]. intros n j Hin Hj. apply Hvis.
    destruct (nq_visit_none _ Hok Hdone) as [_ Htrue].
    apply list_elem_of_fmap in Hin as ([m b] & -> & Hin). rewrite Forall_forall in Htrue.
    pose proof (Htrue _ Hin) as Hb. simpl in Hb. subst b.
    apply (si_expanded _ _ _ _ _ Hinv Hac m j); [|done].
    eapply elem_of_sublist; [apply sublist_take|done].
Qed.

End properties.

(** ** A path graph for the witnesses: the query is at 0, node [i] at distance [i]. *)

Definition path_adj (i : Z) : list Z := [Z.max 0 (i - 1); Z.min 4 (i + 1)]%Z.
Definition path_dist (i : Z) : f32 := f32_of_Z i.
Definition path_nodes : gset Z := list_to_set [0; 1; 2; 3; 4]%Z.
Definition path_accessor : SearchAccessor Z unit unit :=
  reference_accessor path_dist path_adj [4%Z].

Lemma path_nodes_spec i : i ∈ path_nodes ↔ (0 ≤ i ≤ 4)%Z.
Proof. unfold path_nodes. rewrite elem_of_list_to_set, !elem_of_cons, elem_of_nil. lia. Qed.

Lemma path_laws :
  SearchAccessorLaws Z unit unit (Acc := path_accessor) path_dist path_adj path_nodes [4%Z].
Proof.
  apply reference_laws; [apply NoDup_singleton| |].
  - intros i ->%list_elem_of_singleton. apply path_nodes_spec. lia.
  - intros b j Hb Hj. rewrite path_nodes_spec in *. unfold path_adj in Hj.
    rewrite !elem_of_cons, elem_of_nil in Hj. lia.
Qed.

Definition path_scratch : SearchScratch Z (NeighborPriorityQueue Z) := scratch_new (Fixed 2).

Lemma path_scratch_fresh :
  scratch_fresh (NQ := priority_queue_ops false) (QL := priority_queue_laws false) path_scratch.
Proof. split; try done. apply pq_ok_new. lia. Qed.

Definition path_search : option (unit * SearchScratch Z (NeighborPriorityQueue Z) * unit *
    result unit InternalSearchStats) :=
  search_internal (Acc := path_accessor) (NQ := priority_queue_ops false) (λ _ _ _ _, tt) 5 None tt
    path_scratch tt.

Lemma path_search_result :
  path_search =
  Some (tt, mkScratch (mkQueue 2 2 2 [(0%Z, true); (1%Z, true)] [path_dist 0; path_dist 1] false 2)
              path_nodes [] [0%Z] [] [] 5 5, tt, Ok (mkStats 5 5 false)).
Proof. vm_compute. reflexivity. Qed.

Lemma search_internal_terminates_witness :
  ∃ a' s' rec' r, path_search = Some (a', s', rec', r) ∧ r = Ok (mkStats 5 5 false) ∧
    NoDup (nbr_id ∘ fst <$> q_entries (s_best s')).
Proof.
  destruct (search_internal_terminates (AL := path_laws)
    (QL := priority_queue_laws false) (λ _ _ _ _, tt) 5 None tt path_scratch tt
    path_scratch_fresh) as (a' & s' & rec' & r & Hrun & Hpost);
    [done|vm_compute; reflexivity|vm_compute; lia|].
  exists a', s', rec', r. split; [exact Hrun|].
  fold path_search in Hrun. rewrite path_search_result in Hrun.
  injection Hrun as <- <- <- <-. split; [reflexivity|]. exact (proj1 (proj2 Hpost)).
Defined.

Lemma search_internal_local_optimum_witness :
  ∃ s', path_search = Some (tt, s', tt, Ok (mkStats 5 5 false)) ∧
    found_or_farther (QC := priority_queue_closest false) (dist := path_dist) (s_best s') 4%Z.
Proof.
  eexists. split; [exact path_search_result|].
  apply (proj1 (search_internal_local_optimum (AL := path_laws)
    (QC := priority_queue_closest false) (λ _ _ _ _, tt) 5 None tt path_scratch tt _ _ _ _
    path_scratch_fresh ltac:(done) ltac:(vm_compute; reflexivity) ltac:(vm_compute; lia)
    (reference_complete path_dist path_adj [4%Z]) (λ _, eq_refl) path_search_result)).
  by left.
Defined.
