(* ===== verification/OutputBuffer.v ===== *)
(** * Output buffers of a search

    Models [diskann/src/graph/search_output_buffer.rs] and the two buffers of
    [diskann/src/neighbor/mod.rs]: where a search writes its results.

    - Class [SearchOutputBuffer]: the trait; [SearchOutputBufferLaws]: a buffer is a list of
      the neighbors pushed so far with an optional capacity, [push] and [extend] append to it
      as far as there is room;
    - the instances [IdDistance], [IdDistanceAssociatedData], [BackInserter] and [Vec]. *)

From S2P Require Import Prelude F32 Neighbor.

Inductive BufferState := Available | Full.

(** [BufferState::is_available] and [BufferState::is_full] *)
Definition is_available (s : BufferState) : bool :=
  match s with Available => true | Full => false end.
Definition is_full (s : BufferState) : bool :=
  match s with Available => false | Full => true end.

(** [trait SearchOutputBuffer]; the operations that index slices may panic. *)
Class SearchOutputBuffer (I B : Type) := {
  ob_size_hint : B → option (option nat);
  ob_push : B → Neighbor I → option (B * BufferState);
  ob_current_len : B → nat;
  ob_extend : B → list (Neighbor I) → option (B * nat);
}.

(** The room that is left, when the buffer is bounded. *)
Definition room (capacity : option nat) (len : nat) : option nat :=
  (λ c, c - len) <$> capacity.

Definition take_opt {A} (n : option nat) (l : list A) : list A :=
  match n with Some n => take n l | None => l end.

Class SearchOutputBufferLaws (I B : Type) `{SearchOutputBuffer I B} := {
  ob_ok : B → Prop;
  ob_view : B → list (Neighbor I);
  ob_capacity : B → option nat;
  ob_len_law : ∀ b, ob_ok b → ob_current_len b = length (ob_view b);
  ob_hint_law : ∀ b, ob_ok b →
    ob_size_hint b = Some (room (ob_capacity b) (length (ob_view b)));
  ob_push_law : ∀ b n, ob_ok b →
    ∃ b' st, ob_push b n = Some (b', st) ∧ ob_ok b' ∧ ob_capacity b' = ob_capacity b ∧
      ob_view b' =
        ob_view b ++ take_opt (room (ob_capacity b) (length (ob_view b))) [n] ∧
      (st = Full ↔ room (ob_capacity b) (length (ob_view b')) = Some 0);
  ob_extend_law : ∀ b l, ob_ok b →
    ∃ b', let new := take_opt (room (ob_capacity b) (length (ob_view b))) l in
      ob_extend b l = Some (b', length new) ∧ ob_ok b' ∧ ob_capacity b' = ob_capacity b ∧
      ob_view b' = ob_view b ++ new;
}.

(** ** Two slices: [IdDistance] *)

Record IdDistance (I : Type) := mkIdDistance {
  id_ids : list I;
  id_distances : list f32;
  id_position : nat;
}.
Arguments mkIdDistance {I} _ _ _.
Arguments id_ids {I} _.
Arguments id_distances {I} _.
Arguments id_position {I} _.

Section id_distance.
Context {I : Type}.
Implicit Types b : IdDistance I.

(** [IdDistance::new]: panics when the lengths differ. *)
Definition id_new (ids : list I) (distances : list f32) : option (IdDistance I) :=
  _ ← rassert (length ids =? length distances); Some (mkIdDistance ids distances 0).

(** [capacity] *)
Definition id_capacity b : nat := length (id_ids b).

Definition id_size_hint b : option (option nat) :=
  n ← usub (id_capacity b) (id_position b); Some (Some n).

Definition id_push b (n : Neighbor I) : option (IdDistance I * BufferState) :=
  if id_position b =? id_capacity b then Some (b, Full) else
  let '(id, distance) := as_tuple n in
  ids ← vec_set (id_position b) id (id_ids b);
  distances ← vec_set (id_position b) distance (id_distances b);
  let b := mkIdDistance ids distances (id_position b + 1) in
  Some (b, if id_position b =? id_capacity b then Full else Available).

(** The loop of [extend]: writes at [p], [p + 1], ... while both slices have room. *)
Fixpoint id_fill (p : nat) (ids : list I) (distances : list f32) (l : list (Neighbor I)) :
    list I * list f32 * nat :=
  match l with
  | [] => (ids, distances, 0)
  | n :: l =>
      if (p <? length ids) && (p <? length distances) then
        let '(i_in, d_in) := as_tuple n in
        let '(ids, distances, i) := id_fill (S p) (<[p := i_in]> ids) (<[p := d_in]> distances) l in
        (ids, distances, S i)
      else (ids, distances, 0)
  end.

Definition id_extend b (l : list (Neighbor I)) : option (IdDistance I * nat) :=
  let '(ids, distances, i) := id_fill (id_position b) (id_ids b) (id_distances b) l in
  Some (mkIdDistance ids distances (id_position b + i), i).

#[export] Instance id_distance_buffer : SearchOutputBuffer I (IdDistance I) := {|
  ob_size_hint := id_size_hint;
  ob_push := id_push;
  ob_current_len := id_position;
  ob_extend := id_extend;
|}.

Record id_ok b : Prop := {
  id_ok_len : length (id_ids b) = length (id_distances b);
  id_ok_pos : id_position b ≤ length (id_ids b);
}.

Definition id_view b : list (Neighbor I) :=
  zip_with mkNeighbor (take (id_position b) (id_ids b)) (take (id_position b) (id_distances b)).

Lemma length_id_view b : id_ok b → length (id_view b) = id_position b.
Proof. intros [H1 H2]. unfold id_view. rewrite length_zip_with, !length_take. lia. Qed.

Lemma take_S_insert {A} p (x : A) l : p < length l → take (S p) (<[p := x]> l) = take p l ++ [x].
Proof.
  intros Hp. rewrite (take_S_r _ _ x) by (by apply list_lookup_insert_eq).
  by rewrite take_insert_ge by lia.
Qed.

Lemma id_view_snoc ids ds p i d :
  length ids = length ds → p < length ids →
  id_view (mkIdDistance (<[p := i]> ids) (<[p := d]> ds) (S p)) =
  id_view (mkIdDistance ids ds p) ++ [mkNeighbor i d].
Proof.
  intros Hl Hp. unfold id_view. cbn [id_ids id_distances id_position].
  rewrite !take_S_insert by lia. by rewrite zip_with_app by (rewrite !length_take; lia).
Qed.

Lemma id_fill_ok l : ∀ p ids ds,
  length ids = length ds → p ≤ length ids →
  ∃ ids' ds', id_fill p ids ds l = (ids', ds', length (take (length ids - p) l)) ∧
    length ids' = length ids ∧ length ds' = length ds ∧
    id_view (mkIdDistance ids' ds' (p + length (take (length ids - p) l))) =
      id_view (mkIdDistance ids ds p) ++ take (length ids - p) l.
Proof.
  induction l as [|[i d] l IH]; intros p ids ds Hl Hp; cbn [id_fill].
  { exists ids, ds. rewrite take_nil. cbn [length]. by rewrite Nat.add_0_r, app_nil_r. }
  destruct (Nat.ltb_spec p (length ids)) as [Hlt|Hge]; cbn [andb].
  - rewrite (proj2 (Nat.ltb_lt p (length ds))) by lia. cbn [as_tuple nbr_id nbr_distance].
    destruct (IH (S p) (<[p := i]> ids) (<[p := d]> ds)) as (ids' & ds' & -> & H1 & H2 & H3);
      [by rewrite !length_insert|rewrite length_insert; lia|].
    rewrite !length_insert in *. replace (length ids - p) with (S (length ids - S p)) by lia.
    cbn [take length]. exists ids', ds'. split_and!; [done..|].
    rewrite <-Nat.add_succ_comm, H3, id_view_snoc by done. by rewrite <-(assoc_L (++)).
  - replace (length ids - p) with 0 by lia. cbn [take length].
    exists ids, ds. by rewrite Nat.add_0_r, app_nil_r.
Qed.

Lemma id_extend_ok b l :
  id_ok b →
  ∃ b', let new := take_opt (room (Some (id_capacity b)) (length (id_view b))) l in
    id_extend b l = Some (b', length new) ∧ id_ok b' ∧ id_capacity b' = id_capacity b ∧
    id_view b' = id_view b ++ new.
Proof.
  intros Hb. rewrite length_id_view by done. cbn [room fmap option_fmap option_map take_opt].
  destruct (id_fill_ok l (id_position b) (id_ids b) (id_distances b))
    as (ids' & ds' & Hf & H1 & H2 & H3); [apply Hb|apply Hb|].
  unfold id_extend. rewrite Hf. unfold id_capacity. eexists. split_and!; [done| |done|].
  - split; simpl; [by rewrite H1, H2; apply Hb|]. rewrite H1, length_take. pose proof (id_ok_pos b Hb).
    lia.
  - rewrite H3. by destruct b.
Qed.

Lemma id_push_ok b n :
  id_ok b →
  ∃ b' st, id_push b n = Some (b', st) ∧ id_ok b' ∧ id_capacity b' = id_capacity b ∧
    id_view b' = id_view b ++ take_opt (room (Some (id_capacity b)) (length (id_view b))) [n] ∧
    (st = Full ↔ room (Some (id_capacity b)) (length (id_view b')) = Some 0).
Proof.
  intros Hb. pose proof Hb as [Hl Hp]. rewrite length_id_view by done. unfold id_push, id_capacity.
  cbn [room fmap option_fmap option_map take_opt].
  destruct (Nat.eqb_spec (id_position b) (length (id_ids b))) as [E|E].
  - exists b, Full. rewrite E, Nat.sub_diag. cbn [take]. rewrite app_nil_r, length_id_view by done.
    split_and!; [done..|]. rewrite E, Nat.sub_diag. done.
  - destruct n as [i d]. cbn [as_tuple nbr_id nbr_distance]. unfold vec_set.
    rewrite !(proj2 (Nat.ltb_lt _ _)) by lia. cbn [mbind option_bind id_position id_ids].
    set (b' := mkIdDistance _ _ _).
    assert (id_ok b') as Hb' by (split; simpl; rewrite !length_insert; lia).
    assert (id_view b' = id_view b ++ [mkNeighbor i d]) as Hv.
    { unfold b'. rewrite Nat.add_1_r, id_view_snoc by lia. by destruct b. }
    exists b'. eexists. split_and!; [done|done|simpl; by rewrite length_insert| |].
    + destruct (length (id_ids b) - id_position b) as [|m] eqn:Em; [lia|].
      rewrite Hv. cbn [take]. by rewrite take_nil.
    + rewrite length_id_view by done. simpl. rewrite !length_insert.
      destruct (Nat.eqb_spec (id_position b + 1) (length (id_ids b))); split; intros; try done.
      * f_equal. lia.
      * simplify_eq. lia.
Qed.

#[export] Program Instance id_distance_laws : SearchOutputBufferLaws I (IdDistance I) := {|
  ob_ok := id_ok;
  ob_view := id_view;
  ob_capacity b := Some (id_capacity b);
|}.
Next Obligation. intros b Hb. symmetry. by apply length_id_view. Qed.
Next Obligation.
  intros b Hb. cbn. unfold id_size_hint, usub, id_capacity. rewrite length_id_view by done.
  rewrite (proj2 (Nat.leb_le _ _)) by apply Hb. done.
Qed.
Next Obligation.
  intros b n Hb. destruct (id_push_ok b n Hb) as (b' & st & H1 & H2 & H3 & H4 & H5).
  exists b', st. split_and!; [done|done|by f_equal|done|done].
Qed.
Next Obligation.
  intros b l Hb. destruct (id_extend_ok b l Hb) as (b' & H1 & H2 & H3 & H4).
  exists b'. split_and!; [done|done|by f_equal|done].
Qed.

End id_distance.

(** ** One slice: [BackInserter] *)

Record BackInserter (I : Type) := mkBack { bi_buffer : list (Neighbor I); bi_position : nat }.
Arguments mkBack {I} _ _.
Arguments bi_buffer {I} _.
Arguments bi_position {I} _.

Section back_inserter.
Context {I : Type}.
Implicit Types b : BackInserter I.

Definition bi_new (buffer : list (Neighbor I)) : BackInserter I := mkBack buffer 0.

Definition bi_capacity b : nat := length (bi_buffer b).

Definition bi_size_hint b : option (option nat) :=
  n ← usub (length (bi_buffer b)) (bi_position b); Some (Some n).

Definition bi_push b (n : Neighbor I) : option (BackInserter I * BufferState) :=
  if bi_position b =? length (bi_buffer b) then Some (b, Full) else
  buffer ← vec_set (bi_position b) n (bi_buffer b);
  let b := mkBack buffer (bi_position b + 1) in
  Some (b, if bi_position b =? length (bi_buffer b) then Full else Available).

Fixpoint bi_fill (p : nat) (buffer l : list (Neighbor I)) : list (Neighbor I) * nat :=
  match l with
  | [] => (buffer, 0)
  | n :: l =>
      if p <? length buffer then
        let '(buffer, i) := bi_fill (S p) (<[p := n]> buffer) l in (buffer, S i)
      else (buffer, 0)
  end.

Definition bi_extend b (l : list (Neighbor I)) : option (BackInserter I * nat) :=
  let '(buffer, i) := bi_fill (bi_position b) (bi_buffer b) l in
  Some (mkBack buffer (bi_position b + i), i).

#[export] Instance back_inserter_buffer : SearchOutputBuffer I (BackInserter I) := {|
  ob_size_hint := bi_size_hint;
  ob_push := bi_push;
  ob_current_len := bi_position;
  ob_extend := bi_extend;
|}.

Definition bi_ok b : Prop := bi_position b ≤ length (bi_buffer b).
Definition bi_view b : list (Neighbor I) := take (bi_position b) (bi_buffer b).

Lemma length_bi_view b : bi_ok b → length (bi_view b) = bi_position b.
Proof. unfold bi_ok, bi_view. intros. rewrite length_take. lia. Qed.

Lemma bi_fill_ok l : ∀ p buffer,
  p ≤ length buffer →
  ∃ buffer', bi_fill p buffer l = (buffer', length (take (length buffer - p) l)) ∧
    length buffer' = length buffer ∧
    take (p + length (take (length buffer - p) l)) buffer' =
      take p buffer ++ take (length buffer - p) l.
Proof.
  induction l as [|n l IH]; intros p buffer Hp; cbn [bi_fill].
  { exists buffer. rewrite take_nil. cbn [length]. by rewrite Nat.add_0_r, app_nil_r. }
  destruct (Nat.ltb_spec p (length buffer)) as [Hlt|Hge].
  - destruct (IH (S p) (<[p := n]> buffer)) as (buffer' & -> & H1 & H2);
      [rewrite length_insert; lia|].
    rewrite !length_insert in *. replace (length buffer - p) with (S (length buffer - S p)) by lia.
    cbn [take length]. exists buffer'. split_and!; [done..|].
    rewrite <-Nat.add_succ_comm, H2, take_S_insert by done. by rewrite <-(assoc_L (++)).
  - replace (length buffer - p) with 0 by lia. cbn [take length].
    exists buffer. by rewrite Nat.add_0_r, app_nil_r.
Qed.

#[export] Program Instance back_inserter_laws : SearchOutputBufferLaws I (BackInserter I) := {|
  ob_ok := bi_ok;
  ob_view := bi_view;
  ob_capacity b := Some (bi_capacity b);
|}.
Next Obligation. intros b Hb. symmetry. by apply length_bi_view. Qed.
Next Obligation.
  intros b Hb. cbn. unfold bi_size_hint, usub. rewrite length_bi_view by done.
  by rewrite (proj2 (Nat.leb_le _ _)) by done.
Qed.
Next Obligation.
  intros b n Hb. rewrite length_bi_view by done. cbn [ob_push back_inserter_buffer].
  unfold bi_push, bi_capacity. unfold bi_ok in Hb. cbn [room fmap option_fmap option_map take_opt].
  destruct (Nat.eqb_spec (bi_position b) (length (bi_buffer b))) as [E|E].
  - exists b, Full. rewrite E, Nat.sub_diag. cbn [take]. rewrite app_nil_r, length_bi_view by done.
    split_and!; [done..|]. rewrite E, Nat.sub_diag. done.
  - unfold vec_set. rewrite (proj2 (Nat.ltb_lt _ _)) by lia.
    cbn [mbind option_bind bi_position bi_buffer].
    set (b' := mkBack _ _).
    assert (bi_ok b') as Hb' by (unfold bi_ok; simpl; rewrite length_insert; lia).
    assert (bi_view b' = bi_view b ++ [n]) as Hv.
    { unfold b', bi_view. cbn [bi_position bi_buffer]. rewrite Nat.add_1_r. apply take_S_insert. lia. }
    exists b'. eexists. split_and!; [done|done|simpl; by rewrite length_insert| |].
    + destruct (length (bi_buffer b) - bi_position b) as [|m] eqn:Em; [lia|].
      rewrite Hv. cbn [take]. by rewrite take_nil.
    + rewrite length_bi_view by done. simpl. rewrite !length_insert.
      destruct (Nat.eqb_spec (bi_position b + 1) (length (bi_buffer b))); split; intros; try done.
      * f_equal. lia.
      * simplify_eq. lia.
Qed.
Next Obligation.
  intros b l Hb. rewrite length_bi_view by done. cbn [room fmap option_fmap option_map take_opt].
  destruct (bi_fill_ok l (bi_position b) (bi_buffer b) Hb) as (buffer' & Hf & H1 & H2).
  cbn [ob_extend back_inserter_buffer]. unfold bi_extend. rewrite Hf. unfold bi_capacity.
  eexists. split_and!; [done| |by f_equal|done].
  unfold bi_ok in *. simpl. rewrite H1, length_take. lia.
Qed.

End back_inserter.

(** ** An unbounded vector *)

Section vec_buffer.
Context {I : Type}.

Definition vec_push (b : list (Neighbor I)) (n : Neighbor I) : list (Neighbor I) * BufferState :=
  (b ++ [n], Available).

Definition vec_extend (b l : list (Neighbor I)) : list (Neighbor I) * nat :=
  let before := length b in
  let b := b ++ l in
  (b, length b - before).

#[export] Instance vec_buffer : SearchOutputBuffer I (list (Neighbor I)) := {|
  ob_size_hint _ := Some None;
  ob_push b n := Some (vec_push b n);
  ob_current_len := length;
  ob_extend b l := Some (vec_extend b l);
|}.

#[export] Program Instance vec_laws : SearchOutputBufferLaws I (list (Neighbor I)) := {|
  ob_ok _ := True;
  ob_view b := b;
  ob_capacity _ := None;
|}.
Next Obligation. done. Qed.
Next Obligation. done. Qed.
Next Obligation. intros b n _. eexists _, _. by split_and!. Qed.
Next Obligation.
  intros b l _. eexists. cbn. split_and!; try done. unfold vec_extend. rewrite length_app.
  f_equal. f_equal. lia.
Qed.

End vec_buffer.

(** ** Three slices: [IdDistanceAssociatedData] *)

Record IdDistanceAssociatedData (I A : Type) := mkAssociated {
  ad_pairs : IdDistance I;
  ad_associated : list A;
}.
Arguments mkAssociated {I A} _ _.
Arguments ad_pairs {I A} _.
Arguments ad_associated {I A} _.

Section associated.
Context {I A : Type}.
Implicit Types b : IdDistanceAssociatedData I A.

(** The ids, the distances and the position are those of [ad_pairs]. *)
Definition ad_new (ids : list I) (distances : list f32) (associated : list A) :
    option (IdDistanceAssociatedData I A) :=
  pairs ← id_new ids distances;
  _ ← rassert (length ids =? length associated);
  Some (mkAssociated pairs associated).

Definition ad_capacity b : nat := length (id_ids (ad_pairs b)).

Definition ad_push b (n : Neighbor (I * A)) :
    option (IdDistanceAssociatedData I A * BufferState) :=
  let p := id_position (ad_pairs b) in
  if p =? ad_capacity b then Some (b, Full) else
  let '((id, assoc), distance) := as_tuple n in
  ids ← vec_set p id (id_ids (ad_pairs b));
  distances ← vec_set p distance (id_distances (ad_pairs b));
  associated ← vec_set p assoc (ad_associated b);
  let b := mkAssociated (mkIdDistance ids distances (p + 1)) associated in
  Some (b, if id_position (ad_pairs b) =? ad_capacity b then Full else Available).

Fixpoint ad_fill (p : nat) (ids : list I) (distances : list f32) (associated : list A)
    (l : list (Neighbor (I * A))) : list I * list f32 * list A * nat :=
  match l with
  | [] => (ids, distances, associated, 0)
  | n :: l =>
      if (p <? length ids) && (p <? length distances) && (p <? length associated) then
        let '((id, assoc), dist) := as_tuple n in
        let '(ids, distances, associated, i) :=
          ad_fill (S p) (<[p := id]> ids) (<[p := dist]> distances) (<[p := assoc]> associated) l in
        (ids, distances, associated, S i)
      else (ids, distances, associated, 0)
  end.

Definition ad_extend b (l : list (Neighbor (I * A))) :
    option (IdDistanceAssociatedData I A * nat) :=
  let p := id_position (ad_pairs b) in
  let '(ids, distances, associated, i) :=
    ad_fill p (id_ids (ad_pairs b)) (id_distances (ad_pairs b)) (ad_associated b) l in
  Some (mkAssociated (mkIdDistance ids distances (p + i)) associated, i).

#[export] Instance associated_buffer :
  SearchOutputBuffer (I * A) (IdDistanceAssociatedData I A) := {|
  ob_size_hint b := n ← usub (ad_capacity b) (id_position (ad_pairs b)); Some (Some n);
  ob_push := ad_push;
  ob_current_len b := id_position (ad_pairs b);
  ob_extend := ad_extend;
|}.

Record ad_ok b : Prop := {
  ad_ok_pairs : id_ok (ad_pairs b);
  ad_ok_len : length (ad_associated b) = length (id_ids (ad_pairs b));
}.

Definition with_associated (n : Neighbor I) (a : A) : Neighbor (I * A) :=
  mkNeighbor (nbr_id n, a) (nbr_distance n).

Definition ad_view b : list (Neighbor (I * A)) :=
  zip_with with_associated (id_view (ad_pairs b))
    (take (id_position (ad_pairs b)) (ad_associated b)).

Lemma length_ad_view b : ad_ok b → length (ad_view b) = id_position (ad_pairs b).
Proof.
  intros [H1 H2]. unfold ad_view. rewrite length_zip_with, length_id_view, length_take by done.
  destruct H1. lia.
Qed.

Lemma ad_view_snoc ids ds ass p i d x :
  length ids = length ds → length ass = length ids → p < length ids →
  ad_view (mkAssociated (mkIdDistance (<[p := i]> ids) (<[p := d]> ds) (S p)) (<[p := x]> ass)) =
  ad_view (mkAssociated (mkIdDistance ids ds p) ass) ++ [mkNeighbor (i, x) d].
Proof.
  intros Hl Ha Hp. unfold ad_view. cbn [ad_pairs ad_associated id_position].
  rewrite id_view_snoc, take_S_insert by lia.
  rewrite zip_with_app; [done|]. rewrite length_id_view by (split; simpl; lia).
  rewrite length_take. simpl. lia.
Qed.

Lemma ad_fill_ok l : ∀ p ids ds ass,
  length ids = length ds → length ass = length ids → p ≤ length ids →
  ∃ ids' ds' ass',
    ad_fill p ids ds ass l = (ids', ds', ass', length (take (length ids - p) l)) ∧
    length ids' = length ids ∧ length ds' = length ds ∧ length ass' = length ass ∧
    ad_view (mkAssociated (mkIdDistance ids' ds' (p + length (take (length ids - p) l))) ass') =
      ad_view (mkAssociated (mkIdDistance ids ds p) ass) ++ take (length ids - p) l.
Proof.
  induction l as [|[[i x] d] l IH]; intros p ids ds ass Hl Ha Hp; cbn [ad_fill].
  { exists ids, ds, ass. rewrite take_nil. cbn [length]. by rewrite Nat.add_0_r, app_nil_r. }
  destruct (Nat.ltb_spec p (length ids)) as [Hlt|Hge]; cbn [andb].
  - rewrite !(proj2 (Nat.ltb_lt p _)) by lia. cbn [andb as_tuple nbr_id nbr_distance].
    destruct (IH (S p) (<[p := i]> ids) (<[p := d]> ds) (<[p := x]> ass))
      as (ids' & ds' & ass' & -> & H1 & H2 & H3 & H4); rewrite ?length_insert; [done|done|lia|].
    rewrite !length_insert in *. replace (length ids - p) with (S (length ids - S p)) by lia.
    cbn [take length]. exists ids', ds', ass'. split_and!; [done..|].
    rewrite <-Nat.add_succ_comm, H4, ad_view_snoc by done. by rewrite <-(assoc_L (++)).
  - replace (length ids - p) with 0 by lia. cbn [take length].
    exists ids, ds, ass. by rewrite Nat.add_0_r, app_nil_r.
Qed.

#[export] Program Instance associated_laws :
  SearchOutputBufferLaws (I * A) (IdDistanceAssociatedData I A) := {|
  ob_ok := ad_ok;
  ob_view := ad_view;
  ob_capacity b := Some (ad_capacity b);
|}.
Next Obligation. intros b Hb. symmetry. by apply length_ad_view. Qed.
Next Obligation.
  intros b Hb. cbn. unfold usub, ad_capacity. rewrite length_ad_view by done.
  by rewrite (proj2 (Nat.leb_le _ _)) by apply Hb.
Qed.
Next Obligation.
  intros b [[i x] d] Hb. pose proof Hb as [[Hl Hp] Ha]. rewrite length_ad_view by done.
  cbn [ob_push associated_buffer]. unfold ad_push, ad_capacity.
  cbn [room fmap option_fmap option_map take_opt].
  destruct (Nat.eqb_spec (id_position (ad_pairs b)) (length (id_ids (ad_pairs b)))) as [E|E].
  - exists b, Full. rewrite E, Nat.sub_diag. cbn [take]. rewrite app_nil_r, length_ad_view by done.
    split_and!; [done..|]. rewrite E, Nat.sub_diag. done.
  - cbn [as_tuple nbr_id nbr_distance]. unfold vec_set. rewrite !(proj2 (Nat.ltb_lt _ _)) by lia.
    cbn [mbind option_bind ad_pairs id_position id_ids].
    set (b' := mkAssociated _ _).
    assert (ad_ok b') as Hb' by (split; [split|]; simpl; rewrite !length_insert; lia).
    assert (ad_view b' = ad_view b ++ [mkNeighbor (i, x) d]) as Hv.
    { unfold b'. rewrite Nat.add_1_r, ad_view_snoc by lia. by destruct b as [[]]. }
    exists b'. eexists. split_and!; [done|done|simpl; by rewrite length_insert| |].
    + destruct (length (id_ids (ad_pairs b)) - id_position (ad_pairs b)) as [|m] eqn:Em; [lia|].
      rewrite Hv. cbn [take]. by rewrite take_nil.
    + rewrite length_ad_view by done. simpl. rewrite !length_insert.
      destruct (Nat.eqb_spec (id_position (ad_pairs b) + 1) (length (id_ids (ad_pairs b))));
        split; intros; try done; [f_equal; lia|simplify_eq; lia].
Qed.
Next Obligation.
  intros b l Hb. pose proof Hb as [[Hl Hp] Ha]. rewrite length_ad_view by done.
  cbn [room fmap option_fmap option_map take_opt].
  destruct (ad_fill_ok l (id_position (ad_pairs b)) (id_ids (ad_pairs b))
    (id_distances (ad_pairs b)) (ad_associated b)) as (ids' & ds' & ass' & Hf & H1 & H2 & H3 & H4);
    [done|done|done|].
  cbn [ob_extend associated_buffer]. unfold ad_extend. rewrite Hf. unfold ad_capacity.
  eexists. split_and!; [done| |by f_equal|].
  - split; [split|]; simpl; rewrite ?H1, ?H2, ?H3, ?length_take; lia.
  - rewrite H4. by destruct b as [[]].
Qed.

End associated.

(** ** The properties *)

Section properties.
Context {I B : Type} `{SearchOutputBufferLaws I B}.

(** Pushing until the buffer reports [Full], the loop that post-processors run. *)
Fixpoint push_until_full (b : B) (l : list (Neighbor I)) : option (B * nat) :=
  match l with
  | [] => Some (b, 0)
  | n :: l =>
      '(b, st) ← ob_push b n;
      if is_full st then Some (b, 1)
      else '(b, i) ← push_until_full b l; Some (b, S i)
  end.

(** On every output buffer ([IdDistance], [IdDistanceAssociatedData], [BackInserter],
    [Vec]) that still has room, [extend] and pushing one by one until the buffer reports
    [Full] write the same results: the first of the given neighbors, in order, as many as
    there is room for, and both report their number. *)
Theorem output_buffer_extend_push (b : B) (l : list (Neighbor I)) :
  ob_ok b → room (ob_capacity b) (length (ob_view b)) ≠ Some 0 →
  ∃ b1 b2 new,
    new = take_opt (room (ob_capacity b) (length (ob_view b))) l ∧
    ob_extend b l = Some (b1, length new) ∧ ob_view b1 = ob_view b ++ new ∧ ob_ok b1 ∧
    push_until_full b l = Some (b2, length new) ∧ ob_view b2 = ob_view b ++ new ∧ ob_ok b2.
Proof.
  intros Hb Hroom. destruct (ob_extend_law b l Hb) as (b1 & He & Hok & _ & Hv).
  assert (∃ b2, push_until_full b l =
      Some (b2, length (take_opt (room (ob_capacity b) (length (ob_view b))) l)) ∧
    ob_view b2 = ob_view b ++ take_opt (room (ob_capacity b) (length (ob_view b))) l ∧ ob_ok b2)
    as (b2 & Hp & Hv2 & Hok2); [|by eexists b1, b2, _].
  clear b1 He Hok Hv. revert b Hb Hroom. induction l as [|n l IH]; intros b Hb Hroom.
  { exists b. cbn. destruct (room _ _); cbn; rewrite ?take_nil, app_nil_r; done. }
  destruct (ob_push_law b n Hb) as (b' & st & Hpush & Hok' & Hcap & Hv' & Hst).
  assert (ob_view b' = ob_view b ++ [n]) as Hv1.
  { rewrite Hv'. destruct (room _ _) as [[|m]|]; [done|cbn; by rewrite take_nil|done]. }
  cbn [push_until_full]. rewrite Hpush. cbn [mbind option_bind].
  destruct (ob_capacity b) as [c|] eqn:Ec; cbn [room fmap option_fmap option_map take_opt] in *.
  2:{ destruct st; [|by destruct (proj1 Hst eq_refl)].
      cbn [is_full]. destruct (IH b' Hok') as (b2 & -> & Hv2 & Hok2); rewrite Hcap in *; [done|].
      exists b2. cbn in *. by rewrite Hv2, Hv1, <-(assoc_L (++)). }
  rewrite Hv1, length_app in Hst. cbn [length] in Hst.
  destruct (c - length (ob_view b)) as [|m] eqn:Em; [done|]. cbn [take].
  destruct st; cbn [is_full].
  - destruct (IH b' Hok') as (b2 & Hrun & Hv2 & Hok2); rewrite Hcap, Hv1, length_app in *;
      cbn [length room fmap option_fmap option_map take_opt] in *.
    { intros Heq. by apply Hst in Heq. }
    replace (c - (length (ob_view b) + 1)) with m in * by lia.
    exists b2. rewrite Hrun. cbn. rewrite Hv2, <-(assoc_L (++)). done.
  - destruct Hst as [Hst _]. specialize (Hst eq_refl). simplify_eq.
    assert (m = 0) as -> by lia. exists b'. cbn. done.
Qed.

End properties.

Lemma output_buffer_extend_push_witness :
  ∃ b1 b2 : IdDistance Z,
    id_extend (mkIdDistance [0; 0]%Z [f32_zero; f32_zero] 1) [mkNeighbor 7%Z f32_one; mkNeighbor 8%Z f32_one] =
      Some (b1, 1) ∧ id_view b1 = id_view b2.
Proof.
  destruct (output_buffer_extend_push (mkIdDistance [0; 0]%Z [f32_zero; f32_zero] 1)
    [mkNeighbor 7%Z f32_one; mkNeighbor 8%Z f32_one])
    as (b1 & b2 & new & -> & H1 & H2 & _ & H3 & H4 & _); [split; simpl; lia|done|].
  exists b1, b2. split; [exact H1|]. exact (eq_trans H2 (eq_sym H4)).
Defined.
