(* ===== verification/Knn.v ===== *)
(** * k-nearest-neighbor search

    Models [diskann/src/graph/search/knn_search.rs], [search/record.rs] and the post-processors
    of [diskann/src/graph/glue.rs]: the search that runs [search_internal] on a scratch space of
    the pool and writes its results through a post-processing pipeline to an output buffer. *)

From Stdlib Require Import String.
From S2P Require Import Prelude F32 Neighbor NeighborQueue QueueInterface Search OutputBuffer.

Inductive KnnSearchError := BeamWidthZero | LZero.

Record Knn := mkKnn { k_l_value : nat; k_beam_width : nat }.

(** [Knn::new] *)
Definition knn_new (l_value : nat) (beam_width : option nat) : result KnnSearchError Knn :=
  if l_value =? 0 then Err LZero else
  match beam_width with
  | Some bw => if bw =? 0 then Err BeamWidthZero else Ok (mkKnn l_value bw)
  | None => Ok (mkKnn l_value 1)
  end.

(** [Knn::new_default] *)
Definition knn_new_default (l_value : nat) : result KnnSearchError Knn := knn_new l_value None.

(** ** Search records *)

(** [NoopSearchRecord::record] *)
Definition noop_record {I} (r : unit) (_ : Neighbor I) (_ _ : Z) : unit := r.

(** [VisitedSearchRecord::record] *)
Definition visited_record {I} (r : list (Neighbor I)) (n : Neighbor I) (_ _ : Z) :
    list (Neighbor I) := r ++ [n].

(** [VisitedSearchRecord::ids] *)
Definition visited_ids {I} (r : list (Neighbor I)) : list I := nbr_id <$> r.

Record RecallSearchRecord (I : Type) := mkRecall {
  rc_groundtruth : list I;
  rc_running_recall : nat;
  rc_hops : list Z;
  rc_recall : list nat;
}.
Arguments mkRecall {I} _ _ _ _.
Arguments rc_groundtruth {I} _.
Arguments rc_running_recall {I} _.
Arguments rc_hops {I} _.
Arguments rc_recall {I} _.

(** [RecallSearchRecord::new] *)
Definition recall_new {I} (groundtruth : list I) : RecallSearchRecord I :=
  mkRecall groundtruth 0 [] [].

(** [RecallSearchRecord::push], which is its [record] *)
Definition recall_record {I} `{EqDecision I} (r : RecallSearchRecord I) (n : Neighbor I)
    (hops _ : Z) : RecallSearchRecord I :=
  let running :=
    if bool_decide (nbr_id n ∈ rc_groundtruth r) then rc_running_recall r + 1
    else rc_running_recall r in
  mkRecall (rc_groundtruth r) running (rc_hops r ++ [hops]) (rc_recall r ++ [running]).

(** ** Post-processing and search *)

Section knn.
Context {I A E B : Type} `{Acc : SearchAccessor I A E} `{OB : SearchOutputBuffer I B}.

(** [trait SearchPostProcess] *)
Definition PostProcess : Type :=
  A → list (Neighbor I) → B → option (A * B * result E nat).

(** [CopyIds::post_process] *)
Definition copy_ids : PostProcess := λ a candidates output,
  '(output, count) ← ob_extend output candidates; Some (a, output, Ok count).

(** [FilterStartPoints::post_process_step]; [context] is the message added to an error. *)
Definition filter_start_points (context : E → E) (next : PostProcess) : PostProcess :=
  λ a candidates output,
  match is_not_start_point a with
  | Err e => Some (a, output, Err e)
  | Ok filter =>
      '(a, output, r) ← next a (List.filter (λ n, filter (nbr_id n)) candidates) output;
      Some (a, output, map_err context r)
  end.

(** [Pipeline::post_process] *)
Definition pipeline (head : PostProcess → PostProcess) (tail : PostProcess) : PostProcess :=
  head tail.

(** The scratch pool: a scratch that was used before is modified, a new one created. *)
Definition get_scratch (pooled : option (SearchScratch I (NeighborPriorityQueue I)))
    (p : SearchScratchParams) : SearchScratch I (NeighborPriorityQueue I) :=
  match pooled with Some s => scratch_modify s p | None => scratch_create p end.

(** [DiskANNIndex::search_scratch] *)
Definition search_scratch (pooled : option (SearchScratch I (NeighborPriorityQueue I)))
    (max_degree l additional : nat) : SearchScratch I (NeighborPriorityQueue I) :=
  get_scratch pooled (mkParams l max_degree additional).

(** [RecordedKnn::search], and [Knn::search] with [noop_record]; [accessor] is what the strategy
    returned. *)
Definition knn_search {R} (record : R → Neighbor I → Z → Z → R) (debug : bool) (fuel : nat)
    (max_degree : nat) (params : Knn) (accessor : result E A) (processor : PostProcess)
    (pooled : option (SearchScratch I (NeighborPriorityQueue I))) (rec : R) (output : B) :
    option (B * R * result E SearchStats) :=
  match accessor with
  | Err e => Some (output, rec, Err e)
  | Ok a =>
      match num_starting_points a with
      | Err e => Some (output, rec, Err e)
      | Ok num_start_ids =>
          let scratch := search_scratch pooled max_degree (k_l_value params) num_start_ids in
          '(a, scratch, rec, r) ←
            search_internal (NQ := priority_queue_ops debug) record fuel
              (Some (k_beam_width params)) a scratch rec;
          match r with
          | Err e => Some (output, rec, Err e)
          | Ok stats =>
              candidates ← q_iter (s_best scratch);
              '(a, output, r) ← processor a candidates output;
              match r with
              | Err e => Some (output, rec, Err e)
              | Ok result_count =>
                  Some (output, rec, Ok (stats_finish stats (as_u32 result_count)))
              end
          end
      end
  end.

End knn.

(** ** Theory *)

(** A pooled scratch is as good as a new one. *)
Lemma scratch_modify_create {I} `{Countable I} (s : SearchScratch I (NeighborPriorityQueue I)) p :
  scratch_modify s p = scratch_create p.
Proof.
  unfold scratch_modify, scratch_create, scratch_new, scratch_clear.
  cbn [s_best q_auto_resizable q_clear]. destruct (q_auto_resizable (s_best s)) eqn:Er; [done|].
  unfold q_reconfigure, q_clear. cbn [q_size q_cursor q_id_visiteds q_distances q_auto_resizable].
  rewrite (proj2 (Nat.ltb_ge _ 0)) by lia. by rewrite Er.
Qed.

Lemma get_scratch_eq {I} `{Countable I} (pooled : option (SearchScratch I (NeighborPriorityQueue I)))
    p : get_scratch pooled p = scratch_create p.
Proof. destruct pooled; [apply scratch_modify_create|done]. Qed.

Lemma scratch_create_fresh {I} `{Countable I} debug p :
  0 < p_l_value p + p_num_frozen p →
  scratch_fresh (NQ := priority_queue_ops debug) (QL := priority_queue_laws debug)
    (scratch_create (I := I) p).
Proof. intros Hl. split; try done. by apply pq_ok_new. Qed.

Lemma knn_new_pos l bw params :
  knn_new l bw = Ok params → 0 < k_l_value params ∧ 0 < k_beam_width params.
Proof.
  unfold knn_new. destruct (Nat.eqb_spec l 0); [done|]. destruct bw as [bw|].
  - destruct (Nat.eqb_spec bw 0); [done|]. intros; simplify_eq/=. lia.
  - intros; simplify_eq/=. lia.
Qed.

(** What a search over the priority queue hands to the post-processor. *)
Lemma candidates_ok {I} `{EqDecision I} (debug : bool) (q : NeighborPriorityQueue I) (P : Neighbor I → Prop) :
  nq_ok (NeighborQueueLaws := priority_queue_laws debug) q →
  NoDup (nbr_id ∘ fst <$> nq_entries (NeighborQueueLaws := priority_queue_laws debug) q) →
  (∀ n b, (n, b) ∈ nq_entries (NeighborQueueLaws := priority_queue_laws debug) q → P n) →
  ∃ cands, q_iter q = Some cands ∧ StronglySorted nbr_le cands ∧ NoDup (nbr_id <$> cands) ∧
    ∀ n, n ∈ cands → P n.
Proof.
  intros Hok Hnd Hin. exists (take (q_search_param_l q) (q_contents q)). split_and!.
  - rewrite <-q_entries_contents, <-fmap_take. apply (pq_iter_ok q Hok).
  - apply StronglySorted_take, q_contents_sorted, Hok.
  - eapply sublist_NoDup; [|apply sublist_fmap, sublist_take].
    cbn in Hnd. by rewrite list_fmap_compose, q_entries_contents in Hnd.
  - intros n Hn. apply (elem_of_sublist _ _ _ (sublist_take _ _)) in Hn.
    rewrite <-q_entries_contents in Hn. apply list_elem_of_fmap in Hn as ([m b] & -> & Hm).
    by eapply Hin.
Qed.

(** ** The candidates of a search *)

Section closest.
Context {I : Type} `{Countable I}.
Variables (debug : bool) (cap : nat).
Implicit Types (q : NeighborPriorityQueue I) (ins : list (Neighbor I)).

(** A queue of fixed capacity that holds the closest of what was inserted. *)
Record closest_rep q ins : Prop := {
  cr_closest : closest_of (q_is_full q = true) (q_entries q).*1 ins;
  cr_capacity : q_capacity q = cap;
  cr_fixed : q_auto_resizable q = false;
}.

Lemma closest_rep_insert q n q' ins :
  pq_ok q → nbr_id n ∉ nbr_id ∘ fst <$> q_entries q → nbr_id n ∉ nbr_id <$> ins →
  q_insert debug q n = Some q' → closest_rep q ins → closest_rep q' (n :: ins).
Proof.
  intros Hq Hn Hins Hrun [Hc Hcap Hfix].
  split; [by eapply pq_insert_closest|..]; destruct Hq as [Hq _ Hi];
    rewrite q_entries_ids in Hn by done; destruct (is_nan (nbr_distance n)) eqn:En;
    (rewrite q_insert_nan in Hrun by done; by simplify_eq) ||
    (destruct (q_insert_ok debug q n Hq Hi En) as (q1 & Hrun1 & Hp); [done|];
     rewrite Hrun in Hrun1; simplify_eq).
  - by apply (ip_capacity _ _ _ Hp).
  - by rewrite (ip_resizable _ _ _ Hp).
Qed.

Lemma closest_rep_visit q q' n ins :
  pq_ok q → q_closest_notvisited q = Some (q', Some n) → closest_rep q ins → closest_rep q' ins.
Proof.
  intros Hq Hrun [Hc Hcap Hfix].
  pose proof (closest_visit (NQ := priority_queue_ops debug) (QC := priority_queue_closest debug)
    q q' n ins tt 0%Z 0%Z Hq Hrun Hc) as Hc'.
  split; [done|..]; destruct (q_has_notvisited_node q) eqn:Hh;
    try (unfold q_closest_notvisited in Hrun; rewrite Hh in Hrun; done);
    destruct (q_closest_notvisited_ok q (pq_wf q Hq) (pq_cursor q Hq) Hh)
      as (m & iv & c' & _ & _ & Hrun' & _); rewrite Hrun in Hrun'; by simplify_eq.
Qed.

Lemma closest_rep_contents q ins :
  pq_ok q → closest_rep q ins → closest_of (length (q_contents q) = cap) (q_contents q) ins.
Proof.
  intros Hok [(dr & Hdr & Hle) Hcap _]. pose proof (pq_wf _ Hok) as Hwf.
  rewrite q_entries_contents in Hdr. exists dr. split; [done|].
  intros y Hy. destruct (Hle y Hy) as [?|[Hfull Hc]]; [by left|right].
  rewrite q_entries_contents in Hc. split; [|done]. rewrite length_q_contents by done.
  unfold q_is_full in Hfull. apply andb_true_iff in Hfull as [_ ?%Nat.eqb_eq]. congruence.
Qed.

(** If the limit of the results is the capacity, nothing is cut off. *)
Lemma closest_rep_take q ins :
  pq_ok q → closest_rep q ins → q_search_param_l q = cap →
  take (q_search_param_l q) (q_entries q) = q_entries q.
Proof.
  intros Hok Hc Hl. pose proof (pq_wf _ Hok) as Hwf. apply take_ge.
  rewrite length_q_entries, Hl, <-(cr_capacity _ _ Hc) by done. apply Hwf.
Qed.

Lemma closest_rep_new : closest_rep (q_new cap) [].
Proof. split; [|done|done]. exists []. split; [done|]. by intros y Hy%elem_of_nil. Qed.

End closest.

Section candidates.
Context {I A E R : Type} `{Countable I} `{Acc : !SearchAccessor I A E}.
Context {dist : I → f32} {adj : I → list I} {nodes : gset I} {starts : list I}.
Context `{AL : !SearchAccessorLaws I A E dist adj nodes starts}.
Variables (record : R → Neighbor I → Z → Z → R) (debug : bool).

(** A search that reached [reached], distinct nodes with their distances, and ended with the
    candidates [cands]: in order the closest of what it reached, at most [cap].  If the
    accessor drops nothing, the start points were reached, and if it also does not stop
    early, so were all neighbors of the candidates. *)
Record searched (cap : nat) (cands reached : list (Neighbor I)) : Prop := {
  sd_nodup : NoDup (nbr_id <$> reached);
  sd_nodes : ∀ n, n ∈ reached → nbr_id n ∈ nodes ∧ nbr_distance n = dist (nbr_id n);
  sd_sorted : StronglySorted nbr_le cands;
  sd_closest : closest_of (length cands = cap) cands reached;
  sd_starts : accessor_complete I A E adj → ∀ i, i ∈ starts → i ∈ nbr_id <$> reached;
  sd_settled : accessor_complete I A E adj → never_terminates_early I A E →
    ∀ n j, n ∈ cands → j ∈ adj (nbr_id n) → j ∈ nbr_id <$> reached;
}.

Lemma search_inv_searched cap (s : SearchScratch I (NeighborPriorityQueue I)) all (rec : R) :
  search_inv (dist := dist) (adj := adj) (nodes := nodes) (A := A) (E := E)
    (NQ := priority_queue_ops debug) (QL := priority_queue_laws debug)
    (λ q ins _, closest_rep cap q ins) ∅ s all rec →
  q_search_param_l (s_best s) = cap → (∀ i, i ∈ starts → i ∈ s_visited s) →
  (never_terminates_early I A E → q_has_notvisited_node (s_best s) = false) →
  q_iter (s_best s) = Some (q_contents (s_best s)) ∧ searched cap (q_contents (s_best s)) all.
Proof.
  intros Hs Hl Hst Hdone.
  destruct (si_queue _ _ _ _ _ Hs) as [Hok Hcl _]. cbn in Hok.
  assert (∀ i, accessor_complete I A E adj → i ∈ s_visited s → i ∈ nbr_id <$> all) as Hvis.
  { intros i Hac Hi. destruct (si_complete _ _ _ _ _ Hs Hac i Hi) as [?|Hx]; [done|set_solver]. }
  pose proof (closest_rep_take _ _ _ Hok Hcl Hl) as Htake.
  split; [by rewrite pq_iter_ok, Htake, q_entries_contents by done|]. split.
  - apply Hs.
  - intros n Hn. destruct (si_ids _ _ _ _ _ Hs n Hn). split; [by apply (si_nodes _ _ _ _ _ Hs)|done].
  - by apply q_contents_sorted, pq_wf.
  - by apply closest_rep_contents.
  - auto.
  - intros Hac Hne n j Hn Hj. destruct (pq_visit_none _ Hok (Hdone Hne)) as [_ Hall].
    apply Hvis, (si_expanded _ _ _ _ _ Hs Hac n j); [done| |done].
    rewrite <-q_entries_contents in Hn. apply list_elem_of_fmap in Hn as ([m b] & -> & Hm).
    rewrite Htake, Forall_forall in Hall. specialize (Hall _ Hm). simpl in Hall. by subst b.
Qed.

Lemma search_candidates_ok fuel beam_width (a : A) p (rec : R) :
  0 < p_l_value p + p_num_frozen p → beam_width ≠ Some 0 →
  (Z.of_nat (size nodes) < 2 ^ 32)%Z → size nodes ≤ fuel →
  ∃ a' s' rec' r,
    search_internal (NQ := priority_queue_ops debug) record fuel beam_width a
      (scratch_create p) rec = Some (a', s', rec', r) ∧
    match r with
    | Err e => accessor_error I A E e
    | Ok _ => ∃ cands reached, q_iter (s_best s') = Some cands ∧
        searched (p_l_value p + p_num_frozen p) cands reached
    end.
Proof.
  intros Hl Hbw Hn Hf. pose proof (scratch_create_fresh (I := I) debug p Hl) as Hs.
  set (cap := p_l_value p + p_num_frozen p).
  destruct (search_internal_fresh (NQ := priority_queue_ops debug)
    (QL := priority_queue_laws debug) record (λ q ins _, closest_rep cap q ins)
    (λ q n q' ins _, closest_rep_insert debug cap q n q' ins)
    (λ q q' n ins _ _ _, closest_rep_visit debug cap q q' n ins)
    (Z.of_nat (size nodes)) (Z.of_nat (size nodes)) Hn Hn fuel beam_width a (scratch_create p) rec)
    as (a' & s' & rec' & r & Hrun & Hpost); try done.
  - destruct beam_width as [[]|]; simpl; (done || lia).
  - split; [apply Hs|apply closest_rep_new|by exists []].
  - by apply fresh_budget.
  - exists a', s', rec', r. split; [done|]. destruct r as [st|e]; [|done].
    destruct Hpost as (all & Hinv & _ & Hsl & Hst & Hdone & _).
    destruct (search_inv_searched cap s' all rec' Hinv) as [Hit Hsd]; [done..|]. eauto.
Qed.

End candidates.

Section theory.
Context {I A E B R : Type} `{Countable I}.
Context `{Acc : !SearchAccessor I A E} `{OB : !SearchOutputBuffer I B}.
Context {dist : I → f32} {adj : I → list I} {nodes : gset I} {starts : list I}.
Context `{AL : !SearchAccessorLaws I A E dist adj nodes starts}.
Context `{OL : !SearchOutputBufferLaws I B}.
Variables (record : R → Neighbor I → Z → Z → R) (context : E → E).

(** The results of a search without the start points. *)
Definition not_starts (l : list (Neighbor I)) : list (Neighbor I) :=
  List.filter (λ n, negb (bool_decide (nbr_id n ∈ starts))) l.

Lemma filter_copy_ok a candidates (output : B) :
  ob_ok output →
  (∃ e, filter_start_points (A := A) context copy_ids a candidates output =
     Some (a, output, Err e) ∧ accessor_error I A E e) ∨
  ∃ output',
    filter_start_points (A := A) context copy_ids a candidates output =
      Some (a, output', Ok (length (take_opt (room (ob_capacity output)
        (length (ob_view output))) (not_starts candidates)))) ∧
    ob_view output' = ob_view output ++
      take_opt (room (ob_capacity output) (length (ob_view output))) (not_starts candidates).
Proof.
  intros Hb. unfold filter_start_points, is_not_start_point.
  destruct (starting_points a) as [ps|e] eqn:Es; [right|left; exists e; split; [done|by eauto with rust]].
  pose proof (starting_points_law _ _ Es) as ->. fold (not_starts candidates). unfold copy_ids.
  destruct (ob_extend_law output (not_starts candidates) Hb) as (b' & He & _ & _ & Hv).
  rewrite He. by exists b'.
Qed.

(** C18: k-NN search with the standard post-processing (start points filtered, the rest copied
    to the output) always returns, whether its scratch comes from the pool or is new.  What it
    appends to the output buffer is, as long as there is room, its list of candidates without
    the start points: distinct graph nodes with their distances to the query, in order of
    their distance.  The candidates are the closest of all nodes that the search reached, at
    most [l] and the number of start points; if the accessor drops nothing, the search reached
    the start points, and if it does not stop early either, all neighbors of the candidates.
    The statistics report the number of results.  The search fails only with an error of the
    accessor, and has then written nothing. *)
Theorem knn_search_correct (debug : bool) (fuel max_degree : nat) (params : Knn) (l : nat)
    (bw : option nat) (a : A) pooled (rec : R) (output : B) :
  knn_new l bw = Ok params → ob_ok output → (Z.of_nat (size nodes) < 2 ^ 32)%Z →
  size nodes ≤ fuel →
  ∃ output' rec' r,
    knn_search record debug fuel max_degree params (Ok a)
      (pipeline (filter_start_points context) copy_ids) pooled rec output =
      Some (output', rec', r) ∧
    match r with
    | Err e => accessor_error I A E e ∧ ob_view output' = ob_view output
    | Ok stats => ∃ cands reached,
        let results := not_starts cands in
        let new := take_opt (room (ob_capacity output) (length (ob_view output))) results in
        ob_view output' = ob_view output ++ new ∧
        ss_result_count stats = as_u32 (length new) ∧
        NoDup (nbr_id <$> results) ∧ (∀ n, n ∈ results → nbr_id n ∉ starts) ∧
        searched (A := A) (E := E) (dist := dist) (adj := adj) (nodes := nodes) (starts := starts)
          (l + length starts) cands reached
    end.
Proof.
  intros Hk Hout Hn Hf. unfold knn_search, num_starting_points, search_scratch, pipeline.
  destruct (knn_new_pos l bw params Hk) as [Hl Hb]. assert (k_l_value params = l) as Hkl.
  { revert Hk. unfold knn_new. destruct (l =? 0), bw as [[]|]; simpl; intros; by simplify_eq. }
  destruct (starting_points a) as [ps|e] eqn:Es;
    [|eexists _, _, _; split; [done|]; split; [by eauto with rust|done]].
  pose proof (starting_points_law _ _ Es) as ->. rewrite get_scratch_eq.
  destruct (search_candidates_ok record debug fuel (Some (k_beam_width params)) a
    (mkParams (k_l_value params) max_degree (length starts)) rec)
    as (a' & s' & rec' & r & -> & Hpost); [simpl; lia|intros ?; simplify_eq; lia|done|done|].
  cbn [mbind option_bind]. destruct r as [st|e];
    [|eexists _, _, _; split; [done|]; split; done].
  destruct Hpost as (cands & reached & -> & Hsd). cbn [mbind option_bind].
  destruct (filter_copy_ok a' cands output Hout) as [(e & -> & He)|(output' & -> & Hv)];
    cbn [mbind option_bind]; [eexists _, _, _; split; [done|]; split; done|].
  eexists _, _, _. split; [done|]. exists cands, reached. cbn zeta. split_and!.
  - done.
  - done.
  - eapply sublist_NoDup; [|apply sublist_fmap, List_filter_sublist].
    destruct (sd_closest _ _ _ Hsd) as (dr & Hdr & _). pose proof (sd_nodup _ _ _ Hsd) as Hnd.
    rewrite Hdr, fmap_app in Hnd. by apply NoDup_app in Hnd as [? _].
  - intros n [_ Hns]%elem_of_List_filter. by apply negb_true_iff, bool_decide_eq_false in Hns.
  - simpl in Hsd. by rewrite Hkl in Hsd.
Qed.

End theory.

Lemma knn_search_correct_witness :
  ∃ output' rec' r,
    knn_search (Acc := path_accessor) noop_record true 5 8 (mkKnn 2 1) (Ok tt)
      (pipeline (filter_start_points (Acc := path_accessor) (λ e, e)) copy_ids) None tt
      (mkIdDistance [7; 7; 7]%Z (replicate 3 f32_zero) 0) = Some (output', rec', r) ∧
    r = Ok (mkSearchStats 5 5 3 false) ∧ id_ids output' = [0; 1; 2]%Z.
Proof.
  destruct (knn_search_correct (AL := path_laws) noop_record (λ e, e) true 5 8 (mkKnn 2 1) 2 None
    tt None tt (mkIdDistance [7; 7; 7]%Z (replicate 3 f32_zero) 0))
    as (output' & rec' & r & Hrun & _);
    [reflexivity|split; simpl; lia|vm_compute; reflexivity|vm_compute; lia|].
  exists output', rec', r. split; [exact Hrun|].
  vm_compute in Hrun. injection Hrun as <- _ <-. split; reflexivity.
Defined.

(** ** What the record of visited nodes holds *)

Section visited.
Context {I A E : Type} `{Countable I} `{Acc : !SearchAccessor I A E}.
Context {dist : I → f32} {adj : I → list I} {nodes : gset I} {starts : list I}.
Context `{AL : !SearchAccessorLaws I A E dist adj nodes starts}.
Variable (debug : bool).
Implicit Types (q : NeighborPriorityQueue I) (all rec : list (Neighbor I)).

(** Each node is recorded when it is visited, so once; what is unvisited is not recorded. *)
Record visited_rep q all rec : Prop := {
  vr_cursor : q_cursor_ok q;
  vr_fixed : q_auto_resizable q = false;
  vr_ids : NoDup (nbr_id ∘ fst <$> q_entries q);
  vr_all : ∀ e, e ∈ q_entries q → e.1 ∈ all;
  vr_nodup : NoDup (nbr_id <$> rec);
  vr_rec : ∀ n, n ∈ rec → n ∈ all;
  vr_unvisited : ∀ n, (n, false) ∈ q_entries q → nbr_id n ∉ nbr_id <$> rec;
}.

Lemma q_insert_cursor q n q' :
  pq_ok q → nbr_id n ∉ nbr_id ∘ fst <$> q_entries q → q_insert debug q n = Some q' →
  (q_cursor_ok q → q_cursor_ok q') ∧ q_auto_resizable q' = q_auto_resizable q.
Proof.
  intros [Hq _ Hi] Hn Hrun. rewrite q_entries_ids in Hn by done.
  destruct (is_nan (nbr_distance n)) eqn:En.
  - rewrite q_insert_nan in Hrun by done. by simplify_eq.
  - destruct (q_insert_ok debug q n Hq Hi En) as (q1 & Hrun1 & Hp); [done|].
    rewrite Hrun in Hrun1. simplify_eq. split; apply Hp.
Qed.

Lemma visited_insert q n q' all rec :
  pq_ok q → nbr_id n ∉ nbr_id ∘ fst <$> q_entries q → nbr_id n ∉ nbr_id <$> all →
  q_insert debug q n = Some q' → visited_rep q all rec → visited_rep q' (n :: all) rec.
Proof.
  intros Hq Hn Hall Hrun [Hc Hfix Hnd Ha Hr Hra Hu].
  destruct (q_insert_cursor q n q' Hq Hn Hrun) as [Hc' Hres].
  destruct (pq_insert_ok debug q n Hq Hn) as (q1 & dr & Hrun1 & _ & _ & _ & Hperm).
  rewrite Hrun in Hrun1. simplify_eq.
  assert (∀ e, e ∈ q_entries q1 → e = (n, false) ∨ e ∈ q_entries q) as Hsub.
  { intros e He. apply elem_of_cons. rewrite Hperm, elem_of_app. by left. }
  assert (∀ m, m ∈ rec → nbr_id m ≠ nbr_id n) as Hne.
  { intros m Hm Heq. apply Hall. rewrite <-Heq. apply list_elem_of_fmap. exists m. auto. }
  split; [by auto|congruence| | |done| |].
  - assert (NoDup (nbr_id ∘ fst <$> (n, false) :: q_entries q)) as Hnd'
      by (rewrite fmap_cons; by apply NoDup_cons).
    rewrite Hperm, fmap_app in Hnd'. by apply NoDup_app in Hnd' as [? _].
  - intros e He. destruct (Hsub e He) as [->|He']; [by left|right; by apply Ha].
  - intros m Hm. right. by apply Hra.
  - intros m Hm Hin. destruct (Hsub _ Hm) as [Heq|Hm']; [|by apply (Hu m)].
    simplify_eq. apply list_elem_of_fmap in Hin as (m' & Heq & Hm'). by apply (Hne m').
Qed.

Lemma visited_visit q q' n all rec (hops cmps : Z) :
  pq_ok q → q_closest_notvisited q = Some (q', Some n) →
  visited_rep q all rec → visited_rep q' all (visited_record rec n hops cmps).
Proof.
  intros Hq Hrun [Hc Hfix Hnd Ha Hr Hra Hu].
  destruct (q_has_notvisited_node q) eqn:Hh.
  2:{ unfold q_closest_notvisited in Hrun. rewrite Hh in Hrun. done. }
  destruct (q_closest_notvisited_ok q (pq_wf q Hq) (pq_cursor q Hq) Hh)
    as (n' & iv & c' & Hn & Hiv & Hrun1 & Hq1 & Hc1). rewrite Hrun in Hrun1. simplify_eq.
  destruct (pq_visit_ok q Hq Hh) as (q1 & n1 & k & b & Hrun2 & _ & _ & _ & Hk & He).
  rewrite Hrun in Hrun2. simplify_eq. set (q' := q_visited_at q (q_cursor q) c' iv) in *.
  assert (q_entries q !! q_cursor q = Some (n1, false)) as Hat.
  { pose proof (cur_at q Hc) as Hf. apply Nat.ltb_lt in Hh.
    rewrite <-q_entries_visiteds, list_lookup_fmap in Hf by apply Hq.
    rewrite <-q_entries_contents, list_lookup_fmap in Hn.
    destruct (q_entries q !! q_cursor q) as [[m f]|]; simplify_eq/=.
    by rewrite (Hf ltac:(lia)) || (specialize (Hf ltac:(lia)); by simplify_eq). }
  assert (k = q_cursor q ∧ b = false) as [-> ->].
  { assert (k = q_cursor q) as ->; [|by simplify_eq].
    eapply (NoDup_lookup (nbr_id ∘ fst <$> q_entries q)); [done| |];
      rewrite list_lookup_fmap, ?Hk, ?Hat; done. }
  unfold visited_record. split.
  - done.
  - done.
  - rewrite He, list_fmap_insert. simpl. rewrite list_insert_id; [done|].
    by rewrite list_lookup_fmap, Hat.
  - intros e Hin. rewrite He in Hin.
    apply list_elem_of_lookup in Hin as [j Hj]. destruct (decide (j = q_cursor q)) as [->|].
    + rewrite list_lookup_insert_eq in Hj by (by eapply lookup_lt_Some). simplify_eq.
      apply (Ha (n1, false)). by eapply list_elem_of_lookup_2.
    + rewrite list_lookup_insert_ne in Hj by done. apply Ha. by eapply list_elem_of_lookup_2.
  - rewrite fmap_app. apply NoDup_app. split_and!; [done| |apply NoDup_singleton].
    intros i Hi ->%list_elem_of_singleton. apply (Hu n1); [|done].
    by eapply list_elem_of_lookup_2.
  - intros m [Hm|Hm]%elem_of_app; [by apply Hra|]. apply list_elem_of_singleton in Hm as ->.
    apply (Ha (n1, false)). by eapply list_elem_of_lookup_2.
  - intros m Hm. rewrite He in Hm. apply list_elem_of_lookup in Hm as [j Hj].
    destruct (decide (j = q_cursor q)) as [->|Hjne].
    { rewrite list_lookup_insert_eq in Hj by (by eapply lookup_lt_Some). by simplify_eq. }
    rewrite list_lookup_insert_ne in Hj by done. rewrite fmap_app, not_elem_of_app. split.
    + apply Hu. by eapply list_elem_of_lookup_2.
    + simpl. rewrite list_elem_of_singleton. intros Heq. apply Hjne.
      eapply (NoDup_lookup (nbr_id ∘ fst <$> q_entries q)); [done| |];
        rewrite list_lookup_fmap, ?Hj, ?Hat; simpl; [done|by rewrite Heq].
Qed.

(** The visited record of a search from a fresh scratch. *)
Lemma search_visited_ok fuel beam_width (a : A) p :
  0 < p_l_value p + p_num_frozen p → beam_width ≠ Some 0 →
  (Z.of_nat (size nodes) < 2 ^ 32)%Z → size nodes ≤ fuel →
  ∃ a' s' rec r,
    search_internal (NQ := priority_queue_ops debug) visited_record fuel beam_width a
      (scratch_create p) [] = Some (a', s', rec, r) ∧
    match r with
    | Err e => accessor_error I A E e
    | Ok _ => q_auto_resizable (s_best s') = false ∧ NoDup (nbr_id <$> rec) ∧
        ∀ n, n ∈ rec → nbr_id n ∈ nodes ∧ nbr_distance n = dist (nbr_id n)
    end.
Proof.
  intros Hl Hbw Hn Hf. pose proof (scratch_create_fresh (I := I) debug p Hl) as Hs.
  destruct (search_internal_fresh (NQ := priority_queue_ops debug)
    (QL := priority_queue_laws debug) visited_record visited_rep visited_insert visited_visit
    (Z.of_nat (size nodes)) (Z.of_nat (size nodes)) Hn Hn fuel beam_width a (scratch_create p) [])
    as (a' & s' & rec & r & Hrun & Hpost); try done.
  - destruct beam_width as [[]|]; simpl; (done || lia).
  - split; [apply Hs| |by exists []].
    split; try done; try (by intros m Hm%elem_of_nil); try apply NoDup_nil_2.
    split; simpl; [lia|lia|lia].
  - by apply fresh_budget.
  - exists a', s', rec, r. split; [done|]. destruct r as [st|e]; [|done].
    destruct Hpost as (all & Hinv & _).
    destruct (qi_rep _ _ _ _ (si_queue _ _ _ _ _ Hinv)) as [_ Hfix _ _ Hr Hra _].
    split_and!; [done|done|]. intros n Hin. destruct (si_ids _ _ _ _ _ Hinv n (Hra n Hin)).
    split; [by apply (si_nodes _ _ _ _ _ Hinv)|done].
Qed.

End visited.
