(* ===== verification/DiverseSearch.v ===== *)
(** * Diverse search

    Models [diskann/src/graph/search/diverse_search.rs]: k-NN search with a
    [DiverseNeighborQueue], so that not too many results share an attribute value.  The search
    is [search_internal] over the interface of queues; its generic theorems apply because the
    diverse queue meets the laws of the interface. *)

From S2P Require Import Prelude F32 Neighbor NeighborQueue QueueInterface DiverseQueue Search OutputBuffer Knn.

(** ** Parameters *)

Inductive DiverseSearchError :=
  | TotalKZero
  | DiverseKZero
  | DiverseKGreaterThanTotalK (diverse_results_k total_k_value : nat).

Inductive DiverseError := LValueTooSmall (l_value total_k_value : nat).

Record DiverseSearchParams := mkDiverseParams {
  dp_attribute_id : nat;
  dp_results_k : nat;
  dp_total_k : nat;
}.

(** [DiverseSearchParams::new]; the provider of attributes is a parameter of the search. *)
Definition diverse_params_new (attribute_id diverse_results_k total_k_value : nat) :
    result DiverseSearchError DiverseSearchParams :=
  if diverse_results_k =? 0 then Err DiverseKZero else
  if total_k_value =? 0 then Err TotalKZero else
  Ok (mkDiverseParams attribute_id diverse_results_k total_k_value).

(** [Diverse] *)
Record Diverse := mkDiverseSearch { ds_inner : Knn; ds_params : DiverseSearchParams }.

(** [Diverse::new] *)
Definition diverse_new (inner : Knn) (params : DiverseSearchParams) : result DiverseError Diverse :=
  if k_l_value inner <? dp_total_k params
  then Err (LValueTooSmall (k_l_value inner) (dp_total_k params))
  else Ok (mkDiverseSearch inner params).

(** ** Search *)

Section search.
Context {I V A E B : Type} `{Countable V} `{Acc : SearchAccessor I A E}.
Context `{OB : SearchOutputBuffer I B}.
Variables (debug : bool) (attribute : I → option V).

(** [Diverse::create_scratch] *)
Definition diverse_create_scratch (p : Diverse) :
    option (SearchScratch I (DiverseNeighborQueue I V)) :=
  queue ← d_new (k_l_value (ds_inner p)) (dp_total_k (ds_params p)) (dp_results_k (ds_params p));
  Some (mkScratch queue ∅ [] [] [] [] 0 0).

(** [Diverse::search] *)
Definition diverse_search (fuel : nat) (p : Diverse) (accessor : result E A)
    (processor : PostProcess (I := I) (A := A) (E := E) (B := B)) (output : B) :
    option (B * result E SearchStats) :=
  match accessor with
  | Err e => Some (output, Err e)
  | Ok a =>
      scratch ← diverse_create_scratch p;
      '(a, scratch, _, r) ←
        search_internal (NQ := diverse_ops debug attribute) noop_record fuel
          (Some (k_beam_width (ds_inner p))) a scratch tt;
      match r with
      | Err e => Some (output, Err e)
      | Ok stats =>
          best ← d_post_process (s_best scratch);
          candidates ← d_iter best;
          '(_, output, r) ← processor a (take (k_l_value (ds_inner p)) candidates) output;
          match r with
          | Err e => Some (output, Err e)
          | Ok result_count => Some (output, Ok (stats_finish stats (as_u32 result_count)))
          end
      end
  end.

End search.

(** ** Theory *)

Section theory.
Context {I V A E B : Type} `{Countable I} `{Countable V} `{Acc : !SearchAccessor I A E}.
Context {dist : I → f32} {adj : I → list I} {nodes : gset I} {starts : list I}.
Context `{AL : !SearchAccessorLaws I A E dist adj nodes starts}.
Context `{OB : !SearchOutputBuffer I B} `{OL : !SearchOutputBufferLaws I B}.
Variables (attribute : I → option V) (context : E → E).
Local Abbreviation D := (DiverseNeighborQueue I V).
Implicit Types (d : D) (all : list (Neighbor I)).

(** The queue during the search, relative to the fresh queue [d0]: its items carry their
    attribute, and when the distances of the candidates are distinct it is exact. *)
Record diverse_rep (d0 d : D) all : Prop := {
  dr_attr : ∀ x, x ∈ q_contents (dq_global d) → attribute (nbr_id x).1 = Some (nbr_id x).2;
  dr_params : q_search_param_l (dq_global d) = q_search_param_l (dq_global d0) ∧
    dq_results_k d = dq_results_k d0;
  dr_exact : strict (omap (eligible attribute) all) → NoDup (nbr_id <$> all) →
    ∃ cands, exact_from d0 d cands ∧ cands ≡ₚ omap (eligible attribute) all;
}.

Lemma diverse_rep_insert d0 d n d' all :
  d_ok d → nbr_id n ∉ nbr_id ∘ fst <$> d_entries d → nbr_id n ∉ nbr_id <$> all →
  d_insert false attribute d n = Some d' → diverse_rep d0 d all → diverse_rep d0 d' (n :: all).
Proof.
  intros Hd Hn Hall Hrun [H1 [H2 H2'] H3].
  pose proof (d_insert_adds attribute d n d' Hd Hrun) as Hadd.
  destruct (d_insert_ok attribute d n Hd Hn) as (d1 & Hrun1 & _ & _ & Hsl & _).
  rewrite Hrun in Hrun1. simplify_eq. split.
  - destruct (attribute (nbr_id n)) as [v|] eqn:Ev; [|by subst].
    destruct Hadd as [Hadd _]. intros x [Hx| ->]%Hadd; [by apply H1|done].
  - split; [congruence|]. destruct (attribute (nbr_id n)); [destruct Hadd; congruence|by subst].
  - intros Hs Hnd. rewrite fmap_cons in Hnd. apply NoDup_cons in Hnd as [_ Hnd].
    cbn [omap list_omap] in Hs |- *. destruct (eligible attribute n) as [na|] eqn:Ee.
    + destruct (H3 ltac:(eapply strict_submseteq; [exact Hs|by apply submseteq_cons]) Hnd)
        as (all' & (Hex & S1 & S2 & S3) & Hp).
      apply eligible_Some in Ee as (v & Ev & -> & En). rewrite Ev in Hadd.
      destruct (exact_insert false attribute d all' n v Hex Ev) as (d2 & Hrun2 & Hex' & T1 & T2 & T3).
      { split; [done|eapply strict_perm; [|exact Hs]; by rewrite Hp|].
        intros x Hx Hid. rewrite Hp in Hx. apply Hall. rewrite <-Hid.
        apply list_elem_of_omap in Hx as (m & Hm & (u & _ & -> & _)%eligible_Some).
        apply list_elem_of_fmap. eauto. }
      rewrite Hrun in Hrun2. simplify_eq. exists (with_attribute v n :: all').
      split; [|by rewrite Hp].
      split; [done|split_and!; congruence].
    + destruct (H3 Hs Hnd) as (all' & (Hex & S1 & S2 & S3) & Hp).
      destruct (exact_ignore false attribute d all' n Hex Ee) as (d2 & Hrun2 & Hex' & T1 & T2 & T3).
      rewrite Hrun in Hrun2. simplify_eq. exists all'. split; [|done].
      split; [done|split_and!; congruence].
Qed.

Lemma diverse_rep_visit d0 d d' n all :
  d_ok d → d_closest_notvisited d = Some (d', Some n) → diverse_rep d0 d all → diverse_rep d0 d' all.
Proof.
  intros Hd Hrun Hrep. unfold d_closest_notvisited in Hrun.
  apply bind_Some in Hrun as ([g o] & Hg & Hrun). simplify_eq.
  pose proof (dk_global d Hd) as Hgl.
  destruct (q_has_notvisited_node (dq_global d)) eqn:Hh.
  2:{ unfold q_closest_notvisited in Hg. rewrite Hh in Hg. by simplify_eq. }
  destruct (q_closest_notvisited_ok _ (pq_wf _ Hgl) (pq_cursor _ Hgl) Hh)
    as (m & iv & c' & _ & Hiv & Hrun' & Hwf & _). rewrite Hg in Hrun'. simplify_eq.
  set (g := q_visited_at (dq_global d) (q_cursor (dq_global d)) c' iv) in *.
  assert (q_contents g = q_contents (dq_global d)) as Hc by (by apply q_contents_visited_at).
  destruct Hrep as [R1 R2 R3]. split; cbn [dq_global dq_results_k]; rewrite ?Hc; try done.
  intros Hs Hnd. destruct (R3 Hs Hnd) as (all' & ([E1 E2 E3 E4 E5 E6 E7] & S1 & S2 & S3) & Hp).
  exists all'. split; [|done]. split; [|done].
  split; cbn [dq_global dq_results_l]; rewrite ?Hc; try done. destruct E3 as [_ F1 F2 F3]. by split.
Qed.

(** Results that share an attribute value. *)
Definition with_value (v : V) (l : list (Neighbor I)) : list (Neighbor I) :=
  List.filter (λ n, bool_decide (attribute (nbr_id n) = Some v)) l.

(** Distinct distances of the nodes that have one. *)
Definition distinct_distances : Prop :=
  ∀ i j, i ∈ nodes → j ∈ nodes → f32_le (dist i) (dist j) = true → f32_le (dist j) (dist i) = true →
    i = j.

(** The neighbors that a search reported are strict candidates. *)
Lemma reported_strict all :
  distinct_distances → NoDup (nbr_id <$> all) →
  (∀ n, n ∈ all → nbr_id n ∈ nodes ∧ nbr_distance n = dist (nbr_id n)) →
  strict (omap (eligible attribute) all).
Proof.
  intros Hdd Hnd Hall.
  assert (∀ x, x ∈ omap (eligible attribute) all → ∃ n v, n ∈ all ∧
    attribute (nbr_id n) = Some v ∧ x = with_attribute v n) as Hx.
  { intros x (n & Hn & (v & Ev & -> & _)%eligible_Some)%list_elem_of_omap. eauto. }
  split.
  - clear Hdd Hall Hx. induction all as [|n all IH]; [constructor|]. rewrite fmap_cons in Hnd.
    apply NoDup_cons in Hnd as [Hn Hnd]. cbn [omap list_omap].
    destruct (eligible attribute n) as [na|] eqn:Ee; [|by apply IH]. apply NoDup_cons.
    split; [|by apply IH]. intros Hin. apply Hn.
    apply list_elem_of_omap in Hin as (m & Hm & (u & _ & -> & _)%eligible_Some).
    apply eligible_Some in Ee as (v & _ & Heq & _). apply list_elem_of_fmap. exists m.
    split; [|done]. by injection Heq.
  - intros x y (n & v & Hn & Hv & ->)%Hx (m & u & Hm & Hu & ->)%Hx H1 H2.
    destruct (Hall n Hn) as [Hnn Hnd'], (Hall m Hm) as [Hmn Hmd].
    unfold nbr_le, dist_le, with_attribute in H1, H2. cbn in H1, H2. rewrite Hnd', Hmd in H1, H2.
    assert (nbr_id n = nbr_id m) as Hid by (by apply Hdd).
    unfold with_attribute. rewrite Hnd', Hmd, Hid. do 2 f_equal. congruence.
Qed.

(** The search itself: the queue at the end. *)
Lemma diverse_internal_ok fuel (p : Diverse) (a : A) s :
  diverse_create_scratch p = Some s → 0 < k_l_value (ds_inner p) → 0 < k_beam_width (ds_inner p) →
  0 < dp_results_k (ds_params p) * k_l_value (ds_inner p) / dp_total_k (ds_params p) →
  (Z.of_nat (size nodes) < 2 ^ 32)%Z → size nodes ≤ fuel →
  ∃ a' s' r,
    search_internal (NQ := diverse_ops false attribute) noop_record fuel
      (Some (k_beam_width (ds_inner p))) a s tt = Some (a', s', tt, r) ∧
    match r with
    | Err e => accessor_error I A E e
    | Ok stats => ∃ all, d_ok (s_best s') ∧ diverse_rep (s_best s) (s_best s') all ∧
        (∃ dropped, all ≡ₚ (d_entries (s_best s')).*1 ++ dropped) ∧ NoDup (nbr_id <$> all) ∧
        ∀ n, n ∈ all → nbr_id n ∈ nodes ∧ nbr_distance n = dist (nbr_id n)
    end.
Proof.
  intros Hs Hl Hbw Hdl Hn Hf. unfold diverse_create_scratch in Hs.
  apply bind_Some in Hs as (d & Hd & Hs). simplify_eq. set (s := mkScratch d _ _ _ _ _ _ _).
  pose proof (exact_new _ _ _ _ Hl Hdl Hd) as Hex.
  assert (d_ok d ∧ q_contents (dq_global d) = [] ∧ q_entries (dq_global d) = [] ∧
    q_pending (dq_global d) = 0) as (Hok & Hc & He & Hp).
  { unfold d_new in Hd. apply bind_Some in Hd as (x & Hx & Hd). simplify_eq. split_and!; try done.
    unfold usize_mul in Hx. destruct (_ <? _)%Z; simplify_eq.
    split; cbn [dq_global dq_results_l dq_locals q_search_param_l q_new]; try done;
      [by apply pq_ok_new|apply fixed_queue_new]. }
  destruct (search_internal_fresh (NQ := diverse_ops false attribute) (QL := diverse_laws attribute)
    noop_record (λ q all _, diverse_rep d q all)
    (λ q n q' all _, diverse_rep_insert d q n q' all)
    (λ q q' n all _ _ _, diverse_rep_visit d q q' n all)
    (Z.of_nat (size nodes)) (Z.of_nat (size nodes)) Hn Hn fuel (Some (k_beam_width (ds_inner p))) a s tt)
    as (a' & s' & [] & r & -> & Hpost); try done.
  - split; [exact Hok| |exists []; cbn; unfold d_entries; by rewrite He].
    split; cbn; [rewrite Hc; by intros x Hx%elem_of_nil|done|]. intros _ _. exists []. by split; [split|].
  - cbn. unfold d_entries. by rewrite He.
  - unfold budget, remaining. cbn. rewrite Hp.
    assert (size (nodes ∖ ∅) ≤ size nodes) by (apply subseteq_size; set_solver). lia.
  - cbn. rewrite Hp. lia.
  - eexists _, _, _. split; [done|]. destruct r as [st|e]; [|done].
    destruct Hpost as (all & Hinv & _). exists all.
    destruct (si_queue _ _ _ _ _ Hinv) as [Q1 Q2 Q3]. split_and!; try done; [apply Hinv|].
    intros n Hni. destruct (si_ids _ _ _ _ _ Hinv n Hni). split; [by apply (si_nodes _ _ _ _ _ Hinv)|done].
Qed.

Lemma d_entries_contents d : (d_entries d).*1 = without_attribute <$> q_contents (dq_global d).
Proof.
  unfold d_entries. rewrite <-q_entries_contents, <-!list_fmap_compose. by apply list_fmap_ext.
Qed.

Lemma with_value_length v (l : list (Neighbor (I * V))) :
  (∀ x, x ∈ l → attribute (nbr_id x).1 = Some (nbr_id x).2) →
  length (with_value v (without_attribute <$> l)) = length (of_value v l).
Proof.
  induction l as [|x l IH]; intros Hl; [done|]. rewrite fmap_cons. unfold with_value. cbn [List.filter].
  rewrite of_value_cons. cbn [without_attribute nbr_id]. rewrite (Hl x) by (by left).
  fold (with_value v (without_attribute <$> l)).
  assert (length (with_value v (without_attribute <$> l)) = length (of_value v l)) as Hrec
    by (apply IH; intros y Hy; apply Hl; by right).
  unfold value_of. case_decide as Hv; [rewrite bool_decide_true by congruence; cbn; by rewrite Hrec|].
  by rewrite bool_decide_false by congruence.
Qed.

Lemma with_value_sublist v (l k : list (Neighbor I)) :
  sublist l k → length (with_value v l) ≤ length (with_value v k).
Proof.
  unfold with_value. induction 1; cbn [List.filter]; [done|..]; case_bool_decide; cbn; lia.
Qed.

(** What comes out of the queue after post-processing. *)
Lemma diverse_results_ok d0 d all :
  d_ok d → diverse_rep d0 d all → (∃ dropped, all ≡ₚ (d_entries d).*1 ++ dropped) →
  NoDup (nbr_id <$> all) → (∀ n, n ∈ all → nbr_id n ∈ nodes ∧ nbr_distance n = dist (nbr_id n)) →
  ∃ d' results, d_post_process d = Some d' ∧ d_iter d' = Some results ∧
    StronglySorted nbr_le results ∧ NoDup (nbr_id <$> results) ∧
    (∀ n, n ∈ results → nbr_id n ∈ nodes ∧ nbr_distance n = dist (nbr_id n) ∧
       attribute (nbr_id n) ≠ None) ∧
    (distinct_distances → ∀ v, length (with_value v results) ≤ dq_results_k d0).
Proof.
  intros Hd [R1 [R2 R2'] R3] [dr Hdr] Hnd Hall. rewrite d_entries_contents in Hdr.
  destruct (d_post_process_ok d (pq_wf _ (dk_global d Hd)) (dk_local d Hd))
    as (d' & rm & Hpost & Hwf & Hc & Hsl & _).
  assert (sublist (q_contents (dq_global d')) (q_contents (dq_global d))) as Hsub
    by (rewrite Hc; apply List_filter_sublist).
  eexists d', _. split; [done|]. split; [by apply d_iter_wf|].
  rewrite fmap_take, d_entries_contents.
  set (res := take _ _). set (stripped := without_attribute <$> q_contents (dq_global d')) in *.
  assert (sublist res stripped) as Hres by apply sublist_take.
  assert (∀ n, n ∈ res → n ∈ all ∧ attribute (nbr_id n) ≠ None) as Hin.
  { intros n Hn. apply (elem_of_sublist _ _ _ Hres) in Hn.
    apply list_elem_of_fmap in Hn as (x & -> & Hx). apply (elem_of_sublist _ _ _ Hsub) in Hx.
    split; [rewrite Hdr, elem_of_app; left; apply list_elem_of_fmap; eauto|].
    cbn. by rewrite (R1 x Hx). }
  split_and!.
  - apply StronglySorted_take. unfold stripped. pose proof (q_contents_sorted _ Hwf) as Hs.
    clear -Hs. induction Hs as [|x l Hs IH Hx]; [constructor|]. rewrite fmap_cons. constructor; [done|].
    apply Forall_fmap. eapply Forall_impl; [exact Hx|done].
  - rewrite Hdr, fmap_app in Hnd. apply NoDup_app in Hnd as [Hnd _].
    eapply sublist_NoDup; [exact Hnd|]. apply sublist_fmap. etrans; [exact Hres|by apply sublist_fmap].
  - intros n Hn. destruct (Hin n Hn) as [Ha Hattr]. by destruct (Hall n Ha).
  - intros Hdd v. destruct (R3 (reported_strict all Hdd Hnd Hall) Hnd) as (cands & (Hex & S1 & S2 & S3) & _).
    destruct (exact_post_process d cands Hex) as (d1 & Hpost1 & _ & _ & _ & Hv).
    rewrite Hpost in Hpost1. simplify_eq. etrans; [by apply with_value_sublist|].
    unfold stripped. rewrite with_value_length, Hv, length_take by (intros x Hx; by apply R1, (elem_of_sublist _ _ _ Hsub)).
    rewrite S3. lia.
Qed.

(** C24: diverse search, with the standard post-processing, always returns (for [l * k] within
    [usize]) and writes a prefix, as long as there is room, of a list of distinct nodes in
    order of their distance, each with its distance and an attribute value, none a start
    point.  When no two nodes have the same distance, at most [diverse_results_k] of them share
    an attribute value.  It fails only with an error of the accessor and has then written
    nothing. *)
Theorem diverse_search_correct (fuel : nat) (l : nat) (bw : option nat) inner (id dk tk : nat)
    params p (a : A) (output : B) :
  knn_new l bw = Ok inner → diverse_params_new id dk tk = Ok params →
  diverse_new inner params = Ok p → (Z.of_nat dk * Z.of_nat l < 2 ^ 64)%Z → ob_ok output →
  (Z.of_nat (size nodes) < 2 ^ 32)%Z → size nodes ≤ fuel →
  ∃ output' r,
    diverse_search false attribute fuel p (Ok a) (pipeline (filter_start_points context) copy_ids)
      output = Some (output', r) ∧
    match r with
    | Err e => accessor_error I A E e ∧ ob_view output' = ob_view output
    | Ok stats => ∃ results,
        let new := take_opt (room (ob_capacity output) (length (ob_view output))) results in
        ob_view output' = ob_view output ++ new ∧ ss_result_count stats = as_u32 (length new) ∧
        StronglySorted nbr_le results ∧ NoDup (nbr_id <$> results) ∧
        (∀ n, n ∈ results → nbr_id n ∉ starts ∧ nbr_id n ∈ nodes ∧
           nbr_distance n = dist (nbr_id n) ∧ attribute (nbr_id n) ≠ None) ∧
        (distinct_distances → ∀ v, length (with_value v results) ≤ dk)
    end.
Proof.
  intros Hk Hp Hnew Hmul Hout Hn Hf.
  assert (k_l_value inner = l ∧ 0 < l ∧ 0 < k_beam_width inner) as (Hl & Hpos & Hb).
  { unfold knn_new in Hk. destruct (Nat.eqb_spec l 0); [done|]. destruct bw as [bw|].
    - destruct (Nat.eqb_spec bw 0); [done|]. simplify_eq/=. lia.
    - simplify_eq/=. lia. }
  unfold diverse_params_new in Hp. destruct (Nat.eqb_spec dk 0); [done|].
  destruct (Nat.eqb_spec tk 0); [done|]. injection Hp as <-. unfold diverse_new in Hnew.
  cbn [dp_total_k] in Hnew.
  destruct (Nat.ltb_spec (k_l_value inner) tk); [done|]. injection Hnew as <-. subst l.
  set (p := mkDiverseSearch inner _). unfold diverse_search.
  assert (diverse_create_scratch (I := I) (V := V) p = Some (mkScratch (mkDiverse (q_new (k_l_value inner)) ∅
    (dk * k_l_value inner / tk) dk) ∅ [] [] [] [] 0 0)) as Hcs.
  { unfold diverse_create_scratch, d_new, usize_mul. cbn. by rewrite (proj2 (Z.ltb_lt _ _) Hmul). }
  rewrite Hcs. cbn [mbind option_bind].
  destruct (diverse_internal_ok fuel p a _ Hcs) as (a' & s' & r & -> & Hpost); try done.
  { cbn. apply Nat.div_str_pos. nia. }
  cbn [mbind option_bind]. destruct r as [st|e];
    [|eexists _, _; split; [done|]; by split].
  destruct Hpost as (all & Hok & Hrep & Hent & Hnd & Hall).
  destruct (diverse_results_ok _ _ all Hok Hrep Hent Hnd Hall)
    as (d' & res & -> & Hit & R1 & R2 & R3 & R4). cbn [mbind option_bind]. rewrite Hit.
  cbn [mbind option_bind]. unfold pipeline. set (cands := take _ res).
  assert (sublist (not_starts (starts := starts) cands) res) as Hsub
    by (etrans; [apply List_filter_sublist|apply sublist_take]).
  destruct (filter_copy_ok (starts := starts) context a' cands output Hout)
    as [(e & -> & He)|(output' & -> & Hv)]; cbn [mbind option_bind];
    [eexists _, _; split; [done|]; by split|].
  eexists _, _. split; [done|]. exists (not_starts (starts := starts) cands). cbn zeta.
  split_and!; [done|done|by eapply StronglySorted_sublist| | |].
  - eapply sublist_NoDup; [exact R2|by apply sublist_fmap].
  - intros x Hni. split; [|apply R3; by eapply elem_of_sublist].
    apply elem_of_List_filter in Hni as [_ Hni]. by apply negb_true_iff, bool_decide_eq_false in Hni.
  - intros Hdd v. etrans; [by apply with_value_sublist|]. by apply R4.
Qed.

End theory.

(** ** The path graph, one result of each parity *)

Definition path_diverse : Diverse := mkDiverseSearch (mkKnn 4 1) (mkDiverseParams 0 1 2).

Lemma diverse_search_correct_witness :
  ∃ output' stats,
    diverse_search (Acc := path_accessor) false parity 5 path_diverse (Ok tt)
      (pipeline (filter_start_points (Acc := path_accessor) (λ e, e)) copy_ids)
      (mkIdDistance [7; 7; 7]%Z (replicate 3 f32_zero) 0) = Some (output', Ok stats) ∧
    id_ids output' = [0; 1; 7]%Z.
Proof.
  destruct (diverse_search_correct (AL := path_laws) (OL := id_distance_laws) parity (λ e, e) 5 4 None
    (mkKnn 4 1) 0 1 2 (mkDiverseParams 0 1 2) path_diverse tt
    (mkIdDistance [7; 7; 7]%Z (replicate 3 f32_zero) 0)) as (output' & r & Hrun & _);
    [reflexivity|reflexivity|reflexivity|lia|split; simpl; lia|vm_compute; reflexivity|vm_compute; lia|].
  destruct r as [stats|e]; [|vm_compute in Hrun; discriminate].
  exists output', stats. split; [exact Hrun|]. vm_compute in Hrun. injection Hrun as <- _. reflexivity.
Defined.

(** The error for a [diverse_results_k] above the total [k] is declared but never returned. *)
Theorem diverse_k_unchecked (id dk tk : nat) :
  0 < tk < dk → diverse_params_new id dk tk = Ok (mkDiverseParams id dk tk).
Proof.
  intros Hk. unfold diverse_params_new.
  by rewrite (proj2 (Nat.eqb_neq dk 0)), (proj2 (Nat.eqb_neq tk 0)) by lia.
Qed.
