(* ===== verification/Paged.v ===== *)
(** * Paged search

    Models [diskann/src/graph/search/paged.rs] and [paged_search_with_init_ids] of
    [diskann/src/graph/index.rs]: a search whose queue grows without bound and that is resumed
    for each page of results.

    - Section [paged]: the state between two pages and [next_page];
    - Section [theory]: the invariant between pages; what was delivered never comes back. *)

From S2P Require Import Prelude F32 Neighbor NeighborQueue QueueInterface Search Knn.

Inductive PagedError (E : Type) := KTooLarge | KZero | Provider (e : E).
Arguments KTooLarge {E}.
Arguments KZero {E}.
Arguments Provider {E} e.

Record PagedSearch (I A : Type) `{Countable I} := mkPaged {
  pg_scratch : SearchScratch I (NeighborPriorityQueue I);
  pg_computed_result : list (Neighbor I);
  pg_next_result_index : nat;
  pg_search_param_l : nat;
  pg_accessor : A;
}.
Arguments mkPaged {I A _ _} _ _ _ _ _.
Arguments pg_scratch {I A _ _} _.
Arguments pg_computed_result {I A _ _} _.
Arguments pg_next_result_index {I A _ _} _.
Arguments pg_search_param_l {I A _ _} _.
Arguments pg_accessor {I A _ _} _.

(** [&v\[a..b\]]: panics when the range is out of bounds. *)
Definition vec_slice {T} (a b : nat) (l : list T) : option (list T) :=
  if (a <=? b) && (b <=? length l) then Some (take (b - a) (drop a l)) else None.

Section paged.
Context {I A E : Type} `{Acc : SearchAccessor I A E}.
Variables (debug : bool) (dflt : Neighbor I).
Implicit Types p : PagedSearch I A.

(** [DiskANNIndex::paged_search_with_init_ids] *)
Definition paged_search_with_init_ids (accessor : result E A) (l_value : nat)
    (init_ids : option (list I)) : option (result E (PagedSearch I A)) :=
  match accessor with
  | Err e => Some (Err e)
  | Ok a =>
      match starting_points a with
      | Err e => Some (Err e)
      | Ok start_ids =>
          let num_start_points := length start_ids in
          let init_ids := default start_ids init_ids in
          let scratch := scratch_new (Resizable (l_value + num_start_points)) in
          let visited := list_to_set init_ids ∪ s_visited scratch in
          let '(a, visited, neighbors, r) := expand_beam a init_ids visited in
          match r with
          | Err e => Some (Err e)
          | Ok _ =>
              best ← insert_neighbors (NQ := priority_queue_ops debug) (s_best scratch) neighbors;
              Some (Ok (mkPaged
                (mkScratch best visited (s_id_scratch scratch) (s_beam_nodes scratch)
                   (s_range_frontier scratch) (s_in_range scratch) (s_hops scratch)
                   (s_cmps scratch))
                (replicate l_value dflt) l_value l_value a))
          end
      end
  end.

(** [DiskANNIndex::paged_search] *)
Definition paged_search (accessor : result E A) (l_value : nat) :
    option (result E (PagedSearch I A)) :=
  paged_search_with_init_ids accessor l_value None.

(** The loop of [filter_search_candidates]. *)
Fixpoint filter_loop (start_points : list I) (page_size : nat) (l : list (Neighbor I))
    (candidates : list (Neighbor I)) (total : nat) : list (Neighbor I) * nat :=
  match l with
  | [] => (candidates, total)
  | n :: l =>
      let total := total + 1 in
      if negb (bool_decide (nbr_id n ∈ start_points)) then
        let candidates := candidates ++ [n] in
        if page_size <=? length candidates then (candidates, total)
        else filter_loop start_points page_size l candidates total
      else filter_loop start_points page_size l candidates total
  end.

(** [filter_search_candidates] *)
Definition filter_search_candidates (start_points : list I) (page_size : nat)
    (best : NeighborPriorityQueue I) : option (list (Neighbor I) * nat) :=
  l ← q_iter best;
  let '(candidates, total) := filter_loop start_points page_size l [] 0 in
  _ ← rassert (negb debug ||
        (page_size `min` (q_size best - length start_points) <=? length candidates));
  Some (candidates, total).

(** The rest of [next_page] once the search has returned. *)
Definition next_page_fill p (k : nat) (result : list (Neighbor I)) :
    option (PagedSearch I A * Prelude.result (PagedError E) (list (Neighbor I))) :=
  match starting_points (pg_accessor p) with
  | Err e => Some (p, Err (Provider e))
  | Ok start_points =>
      let s := pg_scratch p in
      '(candidates, total) ← filter_search_candidates start_points k (s_best s);
      best ← q_drain_best (s_best s) total;
      let s := mkScratch best (s_visited s) (s_id_scratch s) (s_beam_nodes s)
                 (s_range_frontier s) (s_in_range s) (s_hops s) (s_cmps s) in
      need ← usub k (length result);
      let leftover := need `min` length candidates in
      if 0 <? leftover then
        more ← vec_slice 0 leftover candidates;
        Some (mkPaged s candidates leftover (pg_search_param_l p) (pg_accessor p),
              Ok (result ++ more))
      else Some (mkPaged s candidates 0 (pg_search_param_l p) (pg_accessor p), Ok result)
  end.

(** [PagedSearch::next_page] *)
Definition next_page (fuel : nat) p (k : nat) :
    option (PagedSearch I A * Prelude.result (PagedError E) (list (Neighbor I))) :=
  if pg_search_param_l p <? k then Some (p, Err KTooLarge) else
  if k =? 0 then Some (p, Err KZero) else
  let available := length (pg_computed_result p) - pg_next_result_index p in
  let from_cache := k `min` available in
  result ← (if 0 <? from_cache
            then vec_slice (pg_next_result_index p) (pg_next_result_index p + from_cache)
                   (pg_computed_result p)
            else Some []);
  let p := mkPaged (pg_scratch p) (pg_computed_result p) (pg_next_result_index p + from_cache)
             (pg_search_param_l p) (pg_accessor p) in
  if (0 <? from_cache) && (length result =? k) then Some (p, Ok result) else
  '(a, s, _, r) ←
    search_internal (NQ := priority_queue_ops debug) noop_record fuel None (pg_accessor p)
      (pg_scratch p) tt;
  let p := mkPaged s (pg_computed_result p) (pg_next_result_index p) (pg_search_param_l p) a in
  match r with
  | Err e => Some (p, Err (Provider e))
  | Ok _ => next_page_fill p k result
  end.

End paged.

(** ** Theory *)

(** The candidates that [filter_loop] collects: the first [page_size] that are not start
    points, and how many items it looked at. *)
Section filter.
Context {I : Type} `{Countable I}.
Variable (starts : list I).
Implicit Types l : list (Neighbor I).

Definition is_result (n : Neighbor I) : bool := negb (bool_decide (nbr_id n ∈ starts)).

Lemma filter_loop_ok page_size l : ∀ candidates total,
  length candidates < page_size →
  ∃ k, k ≤ length l ∧
    filter_loop starts page_size l candidates total =
      (candidates ++ List.filter is_result (take k l), total + k) ∧
    length candidates + length (List.filter is_result (take k l)) ≤ page_size ∧
    (k = length l ∨ length candidates + length (List.filter is_result (take k l)) = page_size).
Proof.
  induction l as [|n l IH]; intros candidates total Hc; cbn [filter_loop].
  { exists 0. simpl. rewrite app_nil_r, Nat.add_0_r. split_and!; [done|done|lia|by left]. }
  fold (is_result n). destruct (is_result n) eqn:En.
  - destruct (Nat.leb_spec page_size (length (candidates ++ [n]))) as [Hle|Hgt];
      rewrite length_app in *; cbn [length] in *.
    + exists 1. cbn [take List.filter]. rewrite take_0, En. cbn [List.filter length].
      split_and!; [lia|done|lia|right; lia].
    + destruct (IH (candidates ++ [n]) (total + 1)) as (k & Hk & -> & Hle & Hor);
        [rewrite length_app; simpl; lia|].
      rewrite length_app in Hle, Hor. cbn [length] in Hle, Hor.
      exists (S k). cbn [take List.filter]. rewrite En. cbn [length].
      rewrite <-(assoc_L (++)). simpl ([n] ++ _).
      split_and!; [lia|by rewrite <-Nat.add_assoc|lia|]. destruct Hor; [left; lia|right; lia].
  - destruct (IH candidates (total + 1)) as (k & Hk & -> & Hle & Hor); [done|].
    exists (S k). cbn [take List.filter]. rewrite En. cbn [length].
    split_and!; [lia|by rewrite <-Nat.add_assoc|lia|]. destruct Hor; [left; lia|right; lia].
Qed.

(** Distinct ids contain each start point at most once. *)
Lemma filter_count l :
  NoDup (nbr_id <$> l) → length l ≤ length (List.filter is_result l) + length starts.
Proof.
  intros Hnd.
  assert (length (List.filter (λ n, negb (is_result n)) l) ≤ length starts) as Hle.
  { rewrite <-(length_fmap nbr_id). apply submseteq_length, NoDup_submseteq.
    - eapply sublist_NoDup; [done|]. apply sublist_fmap, List_filter_sublist.
    - intros i Hi. apply list_elem_of_fmap in Hi as (n & -> & Hn).
      apply list_elem_of_In, List.filter_In in Hn as [_ Hn]. unfold is_result in Hn.
      rewrite negb_involutive in Hn. by apply bool_decide_eq_true in Hn. }
  assert (length l = length (List.filter is_result l) +
    length (List.filter (λ n, negb (is_result n)) l)); [|lia].
  clear. induction l as [|n l IH]; simpl; [done|]. destruct (is_result n); simpl; lia.
Qed.

End filter.

Section drain.
Context {I : Type} `{!EqDecision I}.
Implicit Types q : NeighborPriorityQueue I.

Lemma q_drain_ok q count :
  q_wf q → q_can_insert q → count ≤ q_size q →
  ∃ q', q_drain_best q count = Some q' ∧ pq_ok q' ∧
    q_entries q' = drop count (q_entries q) ∧
    q_auto_resizable q' = q_auto_resizable q ∧ q_search_param_l q' = q_search_param_l q ∧
    q_pending q' ≤ S (q_pending q).
Proof.
  intros [H1 H2 H3 H4 H5] Hi Hc. unfold q_drain_best. rewrite Nat.min_l by done.
  rewrite !(proj2 (Nat.leb_le _ _)) by lia. cbn [andb rassert mbind option_bind].
  eexists. split_and!; [done| | |done|done|].
  - split; [split; simpl; rewrite ?length_drop; try lia|split; simpl; lia|done].
    + by apply Forall_drop.
    + by apply StronglySorted_drop.
  - unfold q_entries. simpl. by rewrite zip_with_drop.
  - unfold q_pending. simpl.
    assert (count_unvisited (q_visiteds q) =
      count_unvisited (take count (q_visiteds q)) + count_unvisited (drop count (q_visiteds q)))
      as -> by (by rewrite <-count_unvisited_app, take_drop).
    unfold q_visiteds. cbn [q_id_visiteds]. rewrite fmap_drop.
    destruct (drop count (q_id_visiteds q).*2 !! 0) as [[]|]; lia.
Qed.

End drain.

Section theory.
Context {I A E : Type} `{Countable I} `{Acc : !SearchAccessor I A E}.
Context {dist : I → f32} {adj : I → list I} {nodes : gset I} {starts : list I}.
Context `{AL : !SearchAccessorLaws I A E dist adj nodes starts}.
Variables (debug : bool) (dflt : Neighbor I).
Implicit Types (p : PagedSearch I A) (q : NeighborPriorityQueue I) (all : list (Neighbor I)).

Lemma q_insert_auto q n q' :
  pq_ok q → nbr_id n ∉ nbr_id ∘ fst <$> q_entries q →
  q_insert debug q n = Some q' → q_auto_resizable q' = q_auto_resizable q.
Proof.
  intros [Hq _ Hi] Hn Hrun. rewrite q_entries_ids in Hn by done.
  destruct (is_nan (nbr_distance n)) eqn:En.
  - rewrite q_insert_nan in Hrun by done. by simplify_eq.
  - destruct (q_insert_ok debug q n Hq Hi En) as (q1 & Hrun1 & Hp); [done|].
    rewrite Hrun in Hrun1. simplify_eq. apply Hp.
Qed.

(** The ids of [delivered] have left the queue, which never drops an item that has a distance. *)
Definition delivered_rep (delivered : list I) q all (_ : unit) : Prop :=
  q_auto_resizable q = true ∧
  ∃ dropped, all ≡ₚ (q_entries q).*1 ++ dropped ∧ ∀ i, i ∈ delivered → i ∈ nbr_id <$> dropped.

Lemma delivered_insert delivered q n q' all rec :
  pq_ok q → nbr_id n ∉ nbr_id ∘ fst <$> q_entries q → nbr_id n ∉ nbr_id <$> all →
  q_insert debug q n = Some q' →
  delivered_rep delivered q all rec → delivered_rep delivered q' (n :: all) rec.
Proof.
  intros Hq Hn _ Hrun (Ha & dr & Hall & Hdel).
  destruct (pq_insert_ok debug q n Hq Hn) as (q1 & dr1 & Hrun1 & _ & _ & _ & Hperm).
  rewrite Hrun in Hrun1. simplify_eq. split; [by rewrite (q_insert_auto _ _ _ Hq Hn Hrun)|].
  apply (fmap_Permutation fst) in Hperm. rewrite fmap_cons, fmap_app in Hperm. simpl in Hperm.
  exists (dr1.*1 ++ dr). split; [by rewrite Hall, app_comm_cons, Hperm, (assoc_L (++))|].
  intros i Hi. rewrite fmap_app, elem_of_app. right. by apply Hdel.
Qed.

Lemma delivered_visit delivered q q' m all rec (hops cmps : Z) :
  pq_ok q → q_closest_notvisited q = Some (q', Some m) →
  delivered_rep delivered q all rec →
  delivered_rep delivered q' all (noop_record rec m hops cmps).
Proof.
  intros Hq Hrun (Ha & dr & Hall & Hdel). destruct (q_has_notvisited_node q) eqn:Hh.
  - destruct (q_closest_notvisited_ok q (pq_wf q Hq) (pq_cursor q Hq) Hh)
      as (n & iv & c' & _ & Hiv & Hrun1 & _). rewrite Hrun in Hrun1. simplify_eq.
    split; [done|]. exists dr. split; [|done].
    rewrite q_entries_contents, (q_contents_visited_at _ _ _ _ Hiv), <-q_entries_contents. done.
  - destruct (pq_visit_none q Hq Hh) as [Hrun1 _]. rewrite Hrun in Hrun1. by simplify_eq.
Qed.

#[local] Abbreviation psearch_inv :=
  (search_inv (A := A) (E := E) (dist := dist) (adj := adj) (nodes := nodes)
     (NQ := priority_queue_ops debug) (QL := priority_queue_laws debug)).

(** Between two pages. *)
Record paged_inv p (delivered : list I) (seeds : gset I) : Prop := {
  pi_search : ∃ all,
    psearch_inv (delivered_rep delivered) seeds (pg_scratch p) all tt;
  pi_visited : s_visited (pg_scratch p) ≠ ∅;
  pi_l : q_search_param_l (s_best (pg_scratch p)) = pg_search_param_l p + length starts;
  pi_cache : length (pg_computed_result p) ≤ pg_next_result_index p;
}.

(** The results of one page. *)
Record page_ok (delivered : list I) (k : nat) (page : list (Neighbor I)) : Prop := {
  po_length : length page ≤ k;
  po_sorted : StronglySorted nbr_le page;
  po_nodup : NoDup (nbr_id <$> page);
  po_new : ∀ n, n ∈ page → nbr_id n ∉ delivered;
  po_results : ∀ n, n ∈ page →
    nbr_id n ∉ starts ∧ nbr_id n ∈ nodes ∧ nbr_distance n = dist (nbr_id n);
}.

(** Draining keeps the invariant of the search. *)
Lemma drained_inv delivered seeds s all q' t candidates :
  psearch_inv (delivered_rep delivered) seeds s all tt →
  pq_ok q' → q_entries q' = drop t (q_entries (s_best s)) →
  q_auto_resizable q' = q_auto_resizable (s_best s) →
  (∀ i, i ∈ nbr_id <$> candidates → i ∈ nbr_id <$> take t (q_contents (s_best s))) →
  psearch_inv (delivered_rep (delivered ++ (nbr_id <$> candidates))) seeds
    (mkScratch q' (s_visited s) (s_id_scratch s) (s_beam_nodes s) (s_range_frontier s)
       (s_in_range s) (s_hops s) (s_cmps s)) all tt.
Proof.
  intros [[Hok Hrep Hcont] Hids Hnd Hnodes Hcomp Hexp Hcnt] Hq' He Ha Hc.
  destruct Hrep as (Hauto & dr & Hall & Hdel).
  assert (all ≡ₚ (q_entries q').*1 ++ (take t (q_contents (s_best s)) ++ dr)) as Hall'.
  { rewrite Hall, He, fmap_drop, q_entries_contents.
    rewrite <-(take_drop t (q_contents (s_best s))) at 1.
    by rewrite (assoc_L (++)), (Permutation_app_comm (drop _ _)). }
  split; simpl; try done.
  - split; [done| |by eexists]. split; [congruence|]. eexists. split; [done|].
    intros i. rewrite fmap_app, !elem_of_app. intros [Hi|Hi]; [right; by apply Hdel|left].
    by apply Hc.
  - intros Hac n j Hn. apply Hexp; [done|]. cbn in Hn |- *. rewrite He in Hn.
    eapply elem_of_sublist; [apply sublist_drop|done].
Qed.

(** The first [t] items of the queue that are not start points make a page. *)
Lemma page_candidates_ok delivered seeds s all k t :
  psearch_inv (delivered_rep delivered) seeds s all tt →
  let cands := List.filter (is_result starts) (take t (q_contents (s_best s))) in
  length cands ≤ k → page_ok delivered k cands.
Proof.
  intros Hs cands Hle. pose proof (si_queue _ _ _ _ _ Hs) as [Hok (Hauto & dr & Hall & Hdel) _].
  pose proof (si_nodup _ _ _ _ _ Hs) as Hnd. rewrite q_entries_contents in Hall.
  rewrite Hall, fmap_app in Hnd. apply NoDup_app in Hnd as (Hndq & Hdisj & _).
  assert (sublist cands (take t (q_contents (s_best s)))) as Hsub by apply List_filter_sublist.
  assert (sublist cands (q_contents (s_best s))) as Hsub'
    by (etrans; [exact Hsub|apply sublist_take]).
  split.
  - done.
  - eapply StronglySorted_sublist; [exact Hsub|].
    apply StronglySorted_take, q_contents_sorted, Hok.
  - eapply sublist_NoDup; [exact Hndq|]. by apply sublist_fmap.
  - intros n Hn Hd. apply Hdel in Hd. apply (Hdisj (nbr_id n)); [|done].
    apply list_elem_of_fmap. exists n. split; [done|]. by eapply elem_of_sublist.
  - intros n Hn. split.
    + apply elem_of_List_filter in Hn as [_ Hn]. unfold is_result in Hn.
      by apply negb_true_iff, bool_decide_eq_false in Hn.
    + destruct (si_ids _ _ _ _ _ Hs n) as [Hin ?].
      { rewrite Hall, elem_of_app. left. by eapply elem_of_sublist. }
      split; [by apply (si_nodes _ _ _ _ _ Hs)|done].
Qed.

(** All candidates are delivered, whether there are some or none. *)
Lemma deliver_all (scratch : SearchScratch I (NeighborPriorityQueue I)) cands l (a : A) :
  (if 0 <? length cands then
     more ← vec_slice 0 (length cands) cands;
     Some (mkPaged scratch cands (length cands) l a, Ok ([] ++ more))
   else Some (mkPaged scratch cands 0 l a, Ok [])) =
  Some (mkPaged scratch cands (length cands) l a, Ok (E := PagedError E) cands).
Proof.
  destruct (Nat.ltb_spec 0 (length cands)).
  - unfold vec_slice. rewrite !(proj2 (Nat.leb_le _ _)) by lia. cbn [andb mbind option_bind].
    by rewrite Nat.sub_0_r, drop_0, take_ge by lia.
  - by destruct cands; [|simpl in *; lia].
Qed.

(** Why a page is refused. *)
Definition page_error p (k : nat) (e : PagedError E) : Prop :=
  match e with
  | KTooLarge => pg_search_param_l p < k
  | KZero => k = 0
  | Provider e => accessor_error I A E e
  end.

Lemma next_page_fill_ok p k delivered seeds :
  paged_inv p delivered seeds → 0 < k → k ≤ pg_search_param_l p →
  ∃ p' r, next_page_fill (E := E) debug p k [] = Some (p', r) ∧
    match r with
    | Err e => page_error p k e
    | Ok page =>
        paged_inv p' (delivered ++ (nbr_id <$> page)) seeds ∧ page_ok delivered k page ∧
        pg_search_param_l p' = pg_search_param_l p ∧
        s_visited (pg_scratch p') = s_visited (pg_scratch p) ∧
        s_hops (pg_scratch p') = s_hops (pg_scratch p) ∧
        s_cmps (pg_scratch p') = s_cmps (pg_scratch p) ∧
        q_pending (s_best (pg_scratch p')) ≤ S (q_pending (s_best (pg_scratch p)))
    end.
Proof.
  intros [[all Hs] Hvis Hl Hcache] Hk0 Hk. unfold next_page_fill.
  destruct (starting_points (pg_accessor p)) as [ps|e] eqn:Est; [|by failed].
  pose proof (starting_points_law _ _ Est) as ->. set (q := s_best (pg_scratch p)) in *.
  pose proof (si_queue _ _ _ _ _ Hs) as [Hok (Hauto & dr & Hall & Hdel) _]. fold q in Hok, Hall.
  pose proof (si_nodup _ _ _ _ _ Hs) as Hnd. rewrite q_entries_contents in Hall.
  assert (NoDup (nbr_id <$> q_contents q)) as Hndq
    by (rewrite Hall, fmap_app in Hnd; by apply NoDup_app in Hnd as [? _]).
  unfold filter_search_candidates.
  assert (q_iter q = Some (take (q_search_param_l q) (q_contents q))) as ->
    by (rewrite (pq_iter_ok q Hok); by rewrite fmap_take, q_entries_contents).
  cbn [mbind option_bind]. set (L := take (q_search_param_l q) (q_contents q)).
  destruct (filter_loop_ok starts k L [] 0) as (t & Ht & -> & Hle & Hor); [done|].
  simpl app. simpl length in Hle, Hor. simpl Nat.add in *.
  set (cands := List.filter (is_result starts) (take t L)) in *.
  assert (length (q_contents q) = q_size q) as Hlq by apply length_q_contents, Hok.
  assert (length L = q_search_param_l q `min` q_size q) as HlL
    by (unfold L; by rewrite length_take, Hlq).
  assert (NoDup (nbr_id <$> L)) as HndL
    by (eapply sublist_NoDup; [exact Hndq|apply sublist_fmap, sublist_take]).
  assert (k `min` (q_size q - length starts) ≤ length cands) as Hdbg.
  { destruct Hor as [->|Hor]; [|lia]. unfold cands. rewrite take_ge by lia.
    pose proof (filter_count starts L HndL). lia. }
  rewrite (proj2 (Nat.leb_le _ _) Hdbg), orb_true_r. cbn [rassert mbind option_bind].
  destruct (q_drain_ok q t (pq_wf _ Hok) (pq_can_insert _ Hok)) as (q' & -> & Hok' & He & Ha' & Hl' & Hp');
    [lia|]. cbn [mbind option_bind].
  assert (take t L = take t (q_contents q)) as HtL
    by (unfold L; rewrite take_take; f_equal; lia).
  assert (sublist cands (take t (q_contents q))) as Hsub
    by (unfold cands; rewrite HtL; apply List_filter_sublist).
  assert (page_ok delivered k cands) as Hpage.
  { unfold cands. rewrite HtL. eapply page_candidates_ok; [exact Hs|]. fold q. by rewrite <-HtL. }
  unfold usub. cbn [length]. rewrite (proj2 (Nat.leb_le 0 k)) by lia. cbn [mbind option_bind].
  rewrite Nat.sub_0_r, Nat.min_r by done.
  eexists _, _. split; [apply deliver_all|]. split_and!; try done.
  split; simpl; [|done|congruence|done]. exists all. eapply drained_inv; eauto.
  intros i Hi. eapply elem_of_sublist; [apply sublist_fmap, Hsub|done].
Qed.

#[local] Abbreviation pbudget :=
  (budget (nodes := nodes) (NQ := priority_queue_ops debug) (QL := priority_queue_laws debug)).

Lemma next_page_ok mh mc fuel p k delivered seeds :
  (mh < 2 ^ 32)%Z → (mc < 2 ^ 32)%Z →
  paged_inv p delivered seeds → pbudget mh mc (pg_scratch p) → (mh ≤ Z.of_nat fuel)%Z →
  ∃ p' r, next_page (E := E) debug fuel p k = Some (p', r) ∧
    match r with
    | Err e => page_error p k e
    | Ok page =>
        paged_inv p' (delivered ++ (nbr_id <$> page)) seeds ∧ page_ok delivered k page ∧
        pbudget (mh + 1) mc (pg_scratch p') ∧ pg_search_param_l p' = pg_search_param_l p
    end.
Proof.
  intros Hmh Hmc Hp Hb Hf. pose proof Hp as [[all Hs] Hvis Hl Hcache]. unfold next_page.
  destruct (Nat.ltb_spec (pg_search_param_l p) k) as [|Hk]; [by eexists _, _|].
  destruct (Nat.eqb_spec k 0) as [|Hk0]; [by eexists _, _|].
  replace (length (pg_computed_result p) - pg_next_result_index p) with 0 by lia.
  rewrite Nat.min_0_r. cbn [Nat.ltb Nat.leb mbind option_bind andb pg_accessor pg_scratch
    pg_computed_result pg_next_result_index pg_search_param_l].
  unfold search_internal. rewrite bool_decide_eq_false_2 by done.
  change (default 1 None) with 1.
  destruct (search_loop_ok (NQ := priority_queue_ops debug) (QL := priority_queue_laws debug)
    noop_record (delivered_rep delivered) (delivered_insert delivered) (delivered_visit delivered) mh mc Hmh Hmc seeds fuel 1 (pg_accessor p) (pg_scratch p) tt all)
    as (a' & s' & rec' & r & -> & Hpost); [lia|done|done| |].
  { destruct Hb as [Hb _]. destruct (si_counters _ _ _ _ _ Hs). cbn in *. lia. }
  cbn [mbind option_bind]. destruct r as [st|e]; [|by eexists _, _]. destruct rec'.
  destruct Hpost as (added & Hs' & Hb' & _ & Hsub & Hl' & _).
  match goal with |- context [next_page_fill debug ?p1 k []] => set (p' := p1) end.
  destruct (next_page_fill_ok p' k delivered seeds) as (p2 & r & -> & Hr); [|lia|done|].
  { split; simpl; [by eexists| |cbn in *; congruence|rewrite Nat.add_0_r; done].
    intros Hv. apply Hvis. rewrite Hv in Hsub. clear -Hsub. set_solver. }
  eexists _, _. split; [done|]. destruct r as [page|e]; [|by destruct e].
  destruct Hr as (H1 & H2 & H3 & H4 & H5 & H6 & H7). split_and!; [done|done| |done].
  destruct Hb' as [Hb1 Hb2]. cbn in Hb1, H7. split; rewrite H4; [rewrite H5|rewrite H6; done].
  cbn. lia.
Qed.

(** A sequence of pages of the given sizes, until an error. *)
Fixpoint run_pages (fuel : nat) p (ks : list nat) : option (list (list (Neighbor I))) :=
  match ks with
  | [] => Some []
  | k :: ks =>
      '(p, r) ← next_page (E := E) debug fuel p k;
      match r with
      | Err _ => Some []
      | Ok page => pages ← run_pages fuel p ks; Some (page :: pages)
      end
  end.

Lemma run_pages_ok mc fuel ks : ∀ mh p delivered seeds,
  (mh + Z.of_nat (length ks) < 2 ^ 32)%Z → (mc < 2 ^ 32)%Z →
  paged_inv p delivered seeds → pbudget mh mc (pg_scratch p) →
  (mh + Z.of_nat (length ks) ≤ Z.of_nat fuel)%Z →
  ∃ pages, run_pages fuel p ks = Some pages ∧
    NoDup (nbr_id <$> concat pages) ∧ (∀ n, n ∈ concat pages → nbr_id n ∉ delivered) ∧
    Forall (StronglySorted nbr_le) pages ∧
    (∀ n, n ∈ concat pages →
      nbr_id n ∉ starts ∧ nbr_id n ∈ nodes ∧ nbr_distance n = dist (nbr_id n)) ∧
    (length pages = length ks ∨ (∃ k, k ∈ ks ∧ (k = 0 ∨ pg_search_param_l p < k)) ∨
     ∃ e, accessor_error I A E e).
Proof.
  induction ks as [|k ks IH]; intros mh p delivered seeds Hmh Hmc Hp Hb Hf; cbn [run_pages].
  { exists []. cbn [concat]. split_and!;
      [done|apply NoDup_nil_2|by intros n Hn%elem_of_nil|done|by intros n Hn%elem_of_nil|by left]. }
  cbn [length] in Hmh, Hf.
  destruct (next_page_ok mh mc fuel p k delivered seeds) as (p' & r & -> & Hr); [lia|done|done|done|lia|].
  cbn [mbind option_bind]. destruct r as [page|e].
  2:{ exists []. cbn [concat]. split_and!;
      [done|apply NoDup_nil_2|by intros n Hn%elem_of_nil|done|by intros n Hn%elem_of_nil|right].
      destruct e; cbn in Hr; [left; exists k..|right; by eexists]; (split; [by left|tauto]). }
  destruct Hr as (Hp' & Hpage & Hb' & Hl').
  destruct (IH (mh + 1)%Z p' (delivered ++ (nbr_id <$> page)) seeds)
    as (pages & -> & H1 & H2 & H3 & H4 & H5); [lia|done|done|done|lia|].
  exists (page :: pages). cbn [mbind option_bind concat]. split_and!.
  - done.
  - rewrite fmap_app. apply NoDup_app. split_and!; [apply Hpage| |done].
    intros i Hi Hi'. apply list_elem_of_fmap in Hi' as (n & -> & Hn).
    apply (H2 n Hn), elem_of_app. by right.
  - intros n [Hn|Hn]%elem_of_app; [by apply (po_new _ _ _ Hpage)|].
    intros Hd. apply (H2 n Hn), elem_of_app. by left.
  - constructor; [apply Hpage|done].
  - intros n [Hn|Hn]%elem_of_app; [by apply (po_results _ _ _ Hpage)|by apply H4].
  - destruct H5 as [H5|[(k' & Hk & H5)|H5]]; [left; simpl; lia| |by do 2 right].
    right. left. exists k'. rewrite <-Hl'. split; [by right|done].
Qed.

(** The state that [paged_search_with_init_ids] returns. *)
(** The scratch before the seeds are expanded. *)
Lemma seeded_inv (init : list I) l :
  (∀ i, i ∈ init → i ∈ nodes) →
  psearch_inv (delivered_rep []) (list_to_set init)
    (mkScratch (q_auto_resizable_with_search_param_l l) (list_to_set init) [] [] [] [] 0 0) [] tt.
Proof.
  intros Hin. split; try done; simpl.
  - split; [apply pq_ok_resizable| |by exists []]. split; [done|]. exists []. split; [done|].
    by intros i Hi%elem_of_nil.
  - by intros n Hn%elem_of_nil.
  - constructor.
  - intros i Hi. apply Hin. by apply elem_of_list_to_set in Hi.
  - intros _ i Hi. by right.
  - by intros _ n j Hn%elem_of_nil.
Qed.

Lemma paged_init_ok a l init_ids p :
  default starts init_ids ≠ [] → (∀ i, i ∈ default starts init_ids → i ∈ nodes) →
  paged_search_with_init_ids debug dflt (Ok a) l init_ids = Some (Ok p) →
  paged_inv p [] (list_to_set (default starts init_ids)) ∧
  pbudget (Z.of_nat (size nodes)) (Z.of_nat (size nodes)) (pg_scratch p).
Proof.
  intros Hne Hin Hrun. unfold paged_search_with_init_ids in Hrun.
  destruct (starting_points a) as [ps|e] eqn:Est; [|done].
  pose proof (starting_points_law _ _ Est) as ->. set (init := default starts init_ids) in *.
  cbn [scratch_new s_best s_visited s_id_scratch s_beam_nodes s_range_frontier s_in_range s_hops
    s_cmps] in Hrun.
  destruct (expand_beam a init (list_to_set init ∪ ∅)) as [[[a' vis'] calls] r] eqn:Hex.
  destruct r as [u|e]; [|done]. destruct u.
  destruct (expand_law _ _ _ _ _ _ _ Hex) as (Hd & Hnd & Hcalls & Hsub & Hv).
  assert (vis' ⊆ nodes) as Hnodes.
  { intros i Hi. destruct (Hv i Hi) as [Hi'|(b & Hb & Hi')].
    - apply Hin, (elem_of_list_to_set (C := gset I)). set_solver.
    - eapply adj_nodes; [by apply Hin|done]. }
  set (q0 := q_auto_resizable_with_search_param_l (l + length starts)) in *.
  pose proof (seeded_inv init (l + length starts) Hin) as Hseed. fold q0 in Hseed.
  destruct (insert_neighbors_ok (NQ := priority_queue_ops debug) (QL := priority_queue_laws debug)
    (delivered_rep []) (delivered_insert []) calls tt q0 [] (si_queue _ _ _ _ _ Hseed) Hnd)
    as (q' & Hins & Hq' & Hp' & Hl' & Ht).
  { by intros i _ Hi%elem_of_nil. }
  rewrite Hins in Hrun. cbn [mbind option_bind] in Hrun. simplify_eq.
  assert (length calls + remaining (nodes := nodes) vis' ≤ size nodes) as Hrem.
  { assert (size nodes = remaining (nodes := nodes) ∅) as ->
      by (unfold remaining; f_equal; set_solver).
    rewrite <-(length_fmap fst calls). apply remaining_drop; [done|set_solver|].
    intros i Hi. destruct (Hcalls i Hi) as [_ ?]. split_and!; [set_solver|done|by apply Hnodes]. }
  split; [|split; cbn in *; lia].
  split; cbn [pg_scratch s_best s_visited pg_search_param_l pg_computed_result pg_next_result_index].
  - exists (reverse (to_nbrs calls) ++ []).
    apply (report_ok (E := E) (NQ := priority_queue_ops debug) (QL := priority_queue_laws debug)
      (delivered_rep []) (list_to_set init)
      (mkScratch q0 (list_to_set init) [] [] [] [] 0 0) [] tt); simpl; try done.
    + intros i Hi. destruct (Hcalls i Hi). split; [set_solver|done].
    + set_solver.
    + intros Hac i Hi. destruct (proj2 (Hac _ _ _ _ _ _ Hex) i Hi); [left; set_solver|by right].
    + intros _ n j Hn. apply Ht in Hn. by apply elem_of_nil in Hn.
  - intros Hemp. destruct init as [|i init]; [done|].
    assert (i ∈ vis') as Hi by (apply Hsub; set_solver). rewrite Hemp in Hi. set_solver.
  - cbn in Hl'. congruence.
  - by rewrite length_replicate.
Qed.

End theory.

(** ** The properties *)

(** C36: Paged search never repeats a result.  From seeds inside a graph of fewer than 2^32
    nodes (counting the pages), any sequence of [next_page] calls, of any sizes, runs without
    panic; the pages delivered before an error hold pairwise distinct graph nodes with their
    distances, no start point among them, and each page is in order of distance.  A page is refused only
    when its size is zero or above [l], or the accessor fails. *)
Theorem paged_search_distinct {I A E} `{Countable I} `{Acc : !SearchAccessor I A E}
    (dist : I → f32) (adj : I → list I) (nodes : gset I) (starts : list I)
    (AL : SearchAccessorLaws I A E dist adj nodes starts) (debug : bool) (dflt : Neighbor I)
    (a : A) (l : nat) (init_ids : option (list I)) (ks : list nat) (fuel : nat)
    (p : PagedSearch I A) :
  default starts init_ids ≠ [] → (∀ i, i ∈ default starts init_ids → i ∈ nodes) →
  paged_search_with_init_ids debug dflt (Ok a) l init_ids = Some (Ok p) →
  (Z.of_nat (size nodes + length ks) < 2 ^ 32)%Z → size nodes + length ks ≤ fuel →
  ∃ pages, run_pages (E := E) debug fuel p ks = Some pages ∧
    NoDup (nbr_id <$> concat pages) ∧ Forall (StronglySorted nbr_le) pages ∧
    (∀ n, n ∈ concat pages →
      nbr_id n ∉ starts ∧ nbr_id n ∈ nodes ∧ nbr_distance n = dist (nbr_id n)) ∧
    (length pages = length ks ∨ (∃ k, k ∈ ks ∧ (k = 0 ∨ pg_search_param_l p < k)) ∨
     ∃ e, accessor_error I A E e).
Proof.
  intros Hne Hin Hrun Hn Hf.
  destruct (paged_init_ok debug dflt a l init_ids p Hne Hin Hrun) as [Hp Hb].
  destruct (run_pages_ok debug (Z.of_nat (size nodes)) fuel ks (Z.of_nat (size nodes)) p []
    (list_to_set (default starts init_ids))) as (pages & Hpages & H1 & _ & H3 & H4 & H5);
    [lia|lia|done|done|lia|].
  by exists pages.
Qed.

(** The state of a paged search on the path graph from node 2. *)
Definition path_paged (init_ids : option (list Z)) : option (PagedSearch Z unit) :=
  match paged_search_with_init_ids (Acc := path_accessor) true (mkNeighbor 0%Z f32_zero) (Ok tt) 3
          init_ids with
  | Some (Ok p) => Some p
  | _ => None
  end.

Lemma paged_search_distinct_witness :
  ∃ p pages, path_paged (Some [2%Z]) = Some p ∧
    run_pages (Acc := path_accessor) true 7 p [2; 3] = Some pages ∧
    NoDup (nbr_id <$> concat pages).
Proof.
  eexists. edestruct (paged_search_distinct (Acc := path_accessor) path_dist path_adj path_nodes
    [4%Z] path_laws true (mkNeighbor 0%Z f32_zero) tt 3 (Some [2%Z]) [2; 3] 7)
    as (pages & Hrun & Hnd & _);
    [discriminate| |vm_compute; reflexivity|vm_compute; reflexivity|vm_compute; lia|].
  - intros i ->%list_elem_of_singleton. apply path_nodes_spec. lia.
  - exists pages. split; [vm_compute; reflexivity|]. split; [exact Hrun|exact Hnd].
Defined.

(** The seeds of [paged_search_with_init_ids] are never delivered.  On the path 0..4 with
    start point 4 and the seed 2, the pages are 0, 1 and 3 and then nothing, although 2 is a
    graph node and no start point: the seeds are marked visited but not inserted into the
    queue. *)
Theorem paged_search_omits_seeds :
  ∃ p pages, path_paged (Some [2%Z]) = Some p ∧
    run_pages (Acc := path_accessor) true 7 p [3; 3] = Some pages ∧
    map (map nbr_id) pages = [[0; 1; 3]; []]%Z ∧ 2%Z ∈ path_nodes.
Proof.
  eexists _, _. split; [vm_compute; reflexivity|]. split; [vm_compute; reflexivity|].
  split; [reflexivity|]. apply path_nodes_spec. lia.
Qed.
