(* ===== verification/RangeSearch.v ===== *)
(** * Range search

    Models [diskann/src/graph/search/range_search.rs]: all points within a radius of the query.
    A k-NN search finds the first candidates; when enough of them are in range, a second round
    expands every point in range breadth first, until no new point in range is found or the
    limit is reached.

    - Section [parameters]: [Range], its builder and validation;
    - Section [range]: the output filter [DistanceFiltered] and the search;
    - Section [theory]: the second round computes a set of points that is closed under
      neighbors in range. *)

From Stdlib Require Import SpecFloat.
From S2P Require Import Prelude F32 Neighbor NeighborQueue QueueInterface Search OutputBuffer Knn.

(** ** Parameters *)

Inductive RangeSearchError :=
  | BeamWidthZero
  | LZero
  | StartingListSlackValueError
  | RangeSearchSlackValueError
  | InnerRadiusValueError
  | MaxReturnedLessThanInitialL.

Record Range := mkRange {
  r_max_returned : option nat;
  r_starting_l : nat;
  r_beam_width : nat;
  r_radius : f32;
  r_inner_radius : option f32;
  r_initial_slack : f32;
  r_range_slack : f32;
}.

Record RangeBuilder := mkRangeBuilder {
  rb_max_returned : option nat;
  rb_starting_l : nat;
  rb_beam_width : option nat;
  rb_radius : f32;
  rb_inner_radius : option f32;
  rb_initial_slack : f32;
  rb_range_slack : f32;
}.

(** [Range::validate_and_create] *)
Definition validate_and_create (max_returned : option nat) (starting_l : nat)
    (beam_width : option nat) (radius : f32) (inner_radius : option f32)
    (initial_slack range_slack : f32) : result RangeSearchError Range :=
  let beam_width := default 1 beam_width in
  if beam_width =? 0 then Err BeamWidthZero else
  if starting_l =? 0 then Err LZero else
  if match max_returned with Some max => max <? starting_l | None => false end
  then Err MaxReturnedLessThanInitialL else
  if negb (f32_le f32_zero initial_slack && f32_le initial_slack f32_one)
  then Err StartingListSlackValueError else
  if f32_lt range_slack f32_one then Err RangeSearchSlackValueError else
  if match inner_radius with Some inner => f32_gt inner radius | None => false end
  then Err InnerRadiusValueError else
  Ok (mkRange max_returned starting_l beam_width radius inner_radius initial_slack range_slack).

(** [Range::builder], [RangeBuilder::build] and [Range::new] *)
Definition range_builder (starting_l : nat) (radius : f32) : RangeBuilder :=
  mkRangeBuilder None starting_l None radius None f32_one f32_one.
Definition range_build (b : RangeBuilder) : result RangeSearchError Range :=
  validate_and_create (rb_max_returned b) (rb_starting_l b) (rb_beam_width b) (rb_radius b)
    (rb_inner_radius b) (rb_initial_slack b) (rb_range_slack b).
Definition range_new (starting_l : nat) (radius : f32) : result RangeSearchError Range :=
  range_build (range_builder starting_l radius).

(** [len < max_returned.unwrap_or(usize::MAX)]; no vector in memory is that long. *)
Definition below (max : option nat) (len : nat) : bool :=
  match max with Some m => len <? m | None => true end.

(** ** Search *)

Section filtered.
Context {I B : Type}.
Variable (predicate : f32 → bool).

(** [DistanceFiltered]: a buffer that drops results by their distance. *)
Definition df_push (inner : SearchOutputBuffer I B) (b : B) (n : Neighbor I) :
    option (B * BufferState) :=
  if predicate (nbr_distance n) then ob_push b n
  else hint ← ob_size_hint b;
       Some (b, match hint with Some 0 => Full | _ => Available end).
Definition df_extend (inner : SearchOutputBuffer I B) (b : B) (l : list (Neighbor I)) :
    option (B * nat) :=
  ob_extend b (List.filter (λ n, predicate (nbr_distance n)) l).

Definition distance_filtered (inner : SearchOutputBuffer I B) : SearchOutputBuffer I B := {|
  ob_size_hint := ob_size_hint;
  ob_push := df_push inner;
  ob_current_len := ob_current_len;
  ob_extend := df_extend inner;
|}.

End filtered.

Section range.
Context {I A E B : Type} `{Acc : SearchAccessor I A E}.
Implicit Types s : SearchScratch I (NeighborPriorityQueue I).

(** The loop over the reported neighbors: those in range are kept and will be expanded. *)
Fixpoint absorb (max : option nat) (limit : f32) (neighbors : list (I * f32))
    (in_range : list (Neighbor I)) (frontier : list I) : list (Neighbor I) * list I :=
  match neighbors with
  | [] => (in_range, frontier)
  | (id, d) :: neighbors =>
      if f32_le d limit && below max (length in_range)
      then absorb max limit neighbors (in_range ++ [mkNeighbor id d]) (frontier ++ [id])
      else absorb max limit neighbors in_range frontier
  end.

(** The loop of [range_search_internal]. *)
Fixpoint range_loop (fuel : nat) (max : option nat) (limit : f32) (beam_width : nat) (a : A) s :
    option (A * SearchScratch I (NeighborPriorityQueue I) * result E unit) :=
  match s_range_frontier s with
  | [] => Some (a, s, Ok tt)
  | _ =>
      if below max (length (s_in_range s)) then
        match fuel with
        | 0 => None
        | S fuel =>
            let beam := take beam_width (s_range_frontier s) in
            let frontier := drop beam_width (s_range_frontier s) in
            let '(a, visited, neighbors, r) := expand_beam a beam (s_visited s) in
            match r with
            | Err e =>
                Some (a, mkScratch (s_best s) visited (s_id_scratch s) beam frontier (s_in_range s)
                           (s_hops s) (s_cmps s), Err e)
            | Ok _ =>
                let '(in_range, frontier) := absorb max limit neighbors (s_in_range s) frontier in
                cmps ← u32_add (s_cmps s) (as_u32 (length neighbors));
                hops ← u32_add (s_hops s) (as_u32 (length beam));
                range_loop fuel max limit beam_width a
                  (mkScratch (s_best s) visited (s_id_scratch s) beam frontier in_range hops cmps)
            end
        end
      else Some (a, s, Ok tt)
  end.

(** [range_search_internal] *)
Definition range_search_internal (fuel : nat) (params : Range) (a : A) s :
    option (A * SearchScratch I (NeighborPriorityQueue I) * result E InternalSearchStats) :=
  let s := mkScratch (s_best s) (s_visited s) (s_id_scratch s) (s_beam_nodes s)
             (s_range_frontier s ++ (nbr_id <$> s_in_range s)) (s_in_range s) (s_hops s) (s_cmps s) in
  '(a, s, r) ← range_loop fuel (r_max_returned params)
                 (f32_mul (r_radius params) (r_range_slack params)) (r_beam_width params) a s;
  match r with
  | Err e => Some (a, s, Err e)
  | Ok _ => Some (a, s, Ok (mkStats (s_cmps s) (s_hops s) true))
  end.

(** The distance filter of the output. *)
Definition in_radius (params : Range) (d : f32) : bool :=
  if match r_inner_radius params with Some ir => f32_le d ir | None => false end then false
  else f32_le d (r_radius params).

(** The second round, when enough points are in range. *)
Definition second_round (fuel : nat) (params : Range) (a : A) s (initial : InternalSearchStats) :
    option (A * SearchScratch I (NeighborPriorityQueue I) * result E InternalSearchStats) :=
  let count := length (s_in_range s) in
  if (f32_to_usize (f32_mul (f32_of_Z (Z.of_nat (r_starting_l params))) (r_initial_slack params))
        <=? Z.of_nat count)%Z && below (r_max_returned params) count then
    '(a, s, r) ← range_search_internal fuel params a s;
    match r with
    | Err e => Some (a, s, Err e)
    | Ok range_stats =>
        hops ← u32_add (st_hops initial) (st_hops range_stats);
        Some (a, s, Ok (mkStats (st_cmps initial) hops true))
    end
  else Some (a, s, Ok initial).

(** [Range::search]; the post-processor works with any output buffer. *)
Definition range_search (OB : SearchOutputBuffer I B) (debug : bool) (fuel : nat)
    (max_degree : nat) (params : Range) (accessor : result E A)
    (processor : SearchOutputBuffer I B → PostProcess (I := I) (A := A) (E := E) (B := B))
    (pooled : option (SearchScratch I (NeighborPriorityQueue I))) (output : B) :
    option (B * result E SearchStats) :=
  match accessor with
  | Err e => Some (output, Err e)
  | Ok a =>
      match num_starting_points a with
      | Err e => Some (output, Err e)
      | Ok num_start_ids =>
          let scratch := search_scratch pooled max_degree (r_starting_l params) num_start_ids in
          '(a, s, _, r) ←
            search_internal (NQ := priority_queue_ops debug) noop_record fuel
              (Some (r_beam_width params)) a scratch tt;
          match r with
          | Err e => Some (output, Err e)
          | Ok initial =>
              candidates ← q_iter (s_best s);
              let in_range := List.filter (λ n, f32_le (nbr_distance n) (r_radius params))
                                (take (r_starting_l params) candidates) in
              let s := mkScratch (s_best s) (list_to_set (nbr_id <$> in_range)) (s_id_scratch s)
                         (s_beam_nodes s) (s_range_frontier s) in_range (s_hops s) (s_cmps s) in
              '(a, s, r) ← second_round fuel params a s initial;
              match r with
              | Err e => Some (output, Err e)
              | Ok stats =>
                  '(a, output, r) ←
                    processor (distance_filtered (in_radius params) OB) a (s_in_range s) output;
                  match r with
                  | Err e => Some (output, Err e)
                  | Ok count =>
                      Some (output, Ok (mkSearchStats (st_cmps stats) (st_hops stats)
                                          (as_u32 count) (st_second_round stats)))
                  end
              end
          end
      end
  end.

End range.

(** ** Theory *)

Section loop.
Context {I A E : Type} `{Countable I} `{Acc : !SearchAccessor I A E}.
Context {dist : I → f32} {adj : I → list I} {nodes : gset I} {starts : list I}.
Context `{AL : !SearchAccessorLaws I A E dist adj nodes starts}.
Variables (max : option nat) (limit : f32).
Implicit Types s : SearchScratch I (NeighborPriorityQueue I).

Lemma absorb_ok calls : ∀ in_range frontier,
  ∃ add : list (Neighbor I), absorb max limit calls in_range frontier =
      (in_range ++ add, frontier ++ (nbr_id <$> add)) ∧
    sublist add (to_nbrs calls) ∧
    (max = None → ∀ i d, (i, d) ∈ calls → f32_le d limit = true → i ∈ nbr_id <$> add).
Proof.
  induction calls as [|[i d] calls IH]; intros in_range frontier; cbn [absorb].
  { exists []. rewrite !app_nil_r. split_and!; [done|done|by intros _ ?? ?%elem_of_nil]. }
  destruct (f32_le d limit && below max (length in_range)) eqn:Ek.
  - destruct (IH (in_range ++ [mkNeighbor i d]) (frontier ++ [i])) as (add & -> & Hsub & Hin).
    exists (mkNeighbor i d :: add). rewrite <-!(assoc_L (++)). split_and!; [done|by apply sublist_skip|].
    intros Hm j e [Heq|Hj]%elem_of_cons Hle; [simplify_eq; by left|right; by eapply Hin].
  - destruct (IH in_range frontier) as (add & -> & Hsub & Hin). exists add.
    split_and!; [done|by apply sublist_cons|]. intros Hm j e Hj Hle.
    apply elem_of_cons in Hj as [Heq|Hj]; [|by eapply Hin]. simplify_eq. rewrite Hle in Ek. done.
Qed.

(** What is known of the points in range and of those not expanded yet. *)
Record range_inv s : Prop := {
  ri_nodup : NoDup (nbr_id <$> s_in_range s);
  ri_ids : ∀ n, n ∈ s_in_range s → nbr_id n ∈ s_visited s ∧ nbr_distance n = dist (nbr_id n);
  ri_nodes : s_visited s ⊆ nodes;
  ri_frontier : ∀ i, i ∈ s_range_frontier s → i ∈ nbr_id <$> s_in_range s;
  ri_expanded : accessor_complete I A E adj → ∀ n j, n ∈ s_in_range s →
    nbr_id n ∉ s_range_frontier s → j ∈ adj (nbr_id n) → j ∈ s_visited s;
  ri_closed : accessor_complete I A E adj → max = None →
    ∀ j, j ∈ s_visited s → f32_le (dist j) limit = true → j ∈ nbr_id <$> s_in_range s;
  ri_counters : (0 ≤ s_hops s)%Z ∧ (0 ≤ s_cmps s)%Z;
}.

(** One round keeps the invariant. *)
Lemma range_step_inv s a a' beam rest vis' calls add :
  range_inv s → s_range_frontier s = beam ++ rest →
  expand_beam a beam (s_visited s) = (a', vis', calls, Ok tt) →
  sublist add (to_nbrs calls) →
  (max = None → ∀ i d, (i, d) ∈ calls → f32_le d limit = true → i ∈ nbr_id <$> add) →
  ∀ hops cmps, (0 ≤ hops)%Z → (0 ≤ cmps)%Z →
  range_inv (mkScratch (s_best s) vis' (s_id_scratch s) beam (rest ++ (nbr_id <$> add))
               (s_in_range s ++ add) hops cmps).
Proof.
  intros [Hnd Hids Hnodes Hfr Hexp Hcl Hc] Hsplit Hex Hsub Hadd hops cmps Hh Hcm.
  destruct (expand_law _ _ _ _ _ _ _ Hex) as (Hd & Hndc & Hcalls & Hvis & Hfrom).
  assert (∀ n, n ∈ add → nbr_id n ∈ calls.*1 ∧ nbr_distance n = dist (nbr_id n)) as Hnew.
  { intros n Hn. apply calls_dist; [done|]. by eapply elem_of_sublist. }
  split; cbn [s_in_range s_visited s_range_frontier s_hops s_cmps].
  - rewrite fmap_app. apply NoDup_app. split_and!; [done| |].
    + intros i Hi Hi'. apply list_elem_of_fmap in Hi as (n & -> & Hn).
      apply list_elem_of_fmap in Hi' as (m & Heq & Hm). destruct (Hnew m Hm) as [Hm' _].
      rewrite <-Heq in Hm'. by apply (Hcalls _ Hm'), Hids.
    + eapply sublist_NoDup; [|apply sublist_fmap, Hsub]. by rewrite to_nbrs_ids.
  - intros n [Hn|Hn]%elem_of_app; [destruct (Hids n Hn); split; [by apply Hvis|done]|].
    destruct (Hnew n Hn). split; [by apply Hcalls|done].
  - intros i Hi. destruct (Hfrom i Hi) as [?|(b & Hb & Hi')]; [by apply Hnodes|].
    assert (b ∈ nbr_id <$> s_in_range s) as Hb'.
    { apply Hfr. rewrite Hsplit. apply elem_of_app. by left. }
    apply list_elem_of_fmap in Hb' as (n & -> & Hn). eapply adj_nodes; [|done]. by apply Hnodes, Hids.
  - intros i [Hi|Hi]%elem_of_app; rewrite fmap_app, elem_of_app; [left|by right].
    apply Hfr. rewrite Hsplit. apply elem_of_app. by right.
  - intros Hac n j Hn Hnf Hj. apply not_elem_of_app in Hnf as [Hnr Hna].
    apply elem_of_app in Hn as [Hn|Hn].
    + destruct (decide (nbr_id n ∈ beam)) as [Hb|Hb]; [by apply (proj1 (Hac _ _ _ _ _ _ Hex) (nbr_id n))|].
      apply Hvis, (Hexp Hac n); [done| |done]. rewrite Hsplit, elem_of_app. tauto.
    + exfalso. apply Hna. apply list_elem_of_fmap. eauto.
  - intros Hac Hm j Hj Hle. rewrite fmap_app, elem_of_app.
    destruct (proj2 (Hac _ _ _ _ _ _ Hex) j Hj) as [Hv|Hv]; [left; by apply Hcl|right].
    apply list_elem_of_fmap in Hv as ([i d] & -> & Hin). cbn in *. apply (Hadd Hm i d); [done|].
    destruct (calls_dist calls Hd (mkNeighbor i d)) as [_ Heq]; [|cbn in Heq; by rewrite Heq].
    apply list_elem_of_fmap. by exists (i, d).
  - done.
Qed.

Variables (max_hops max_cmps : Z).
Hypothesis max_hops_u32 : (max_hops < 2 ^ 32)%Z.
Hypothesis max_cmps_u32 : (max_cmps < 2 ^ 32)%Z.

(** The second round ends: every iteration expands points that were not expanded before. *)
Lemma range_loop_ok fuel : ∀ beam_width a s,
  0 < beam_width → range_inv s →
  length (s_range_frontier s) + remaining (nodes := nodes) (s_visited s) ≤ fuel →
  (s_hops s + Z.of_nat (length (s_range_frontier s) + remaining (nodes := nodes) (s_visited s))
     ≤ max_hops)%Z →
  (s_cmps s + Z.of_nat (remaining (nodes := nodes) (s_visited s)) ≤ max_cmps)%Z →
  ∃ a' s' r, range_loop fuel max limit beam_width a s = Some (a', s', r) ∧
    match r with
    | Err e => accessor_error I A E e
    | Ok _ => range_inv s' ∧ (s_hops s' ≤ max_hops)%Z ∧
        (max = None → s_range_frontier s' = [])
    end.
Proof.
  induction fuel as [|fuel IH]; intros bw a s Hbw Hs Hf Hh Hc; cbn [range_loop].
  - destruct (s_range_frontier s) eqn:Ef; [|simpl in Hf; lia]. eexists _, _, _.
    split; [done|]. split_and!; [done|lia|done].
  - destruct (s_range_frontier s) as [|f0 fs] eqn:Ef.
    { eexists _, _, _. split; [done|]. split_and!; [done|lia|done]. }
    destruct (below max (length (s_in_range s))) eqn:Eb.
    2:{ eexists _, _, _. split; [done|]. split_and!; [done|lia|]. intros ->. done. }
    rewrite <-Ef in *. set (beam := take bw (s_range_frontier s)).
    set (rest := drop bw (s_range_frontier s)).
    assert (s_range_frontier s = beam ++ rest) as Hsplit by (unfold beam, rest; by rewrite take_drop).
    assert (0 < length beam ∧ length beam + length rest = length (s_range_frontier s)) as [Hpos Hlen].
    { rewrite Hsplit, length_app. split; [|done]. unfold beam. rewrite length_take, Ef. simpl. lia. }
    destruct (expand_beam a beam (s_visited s)) as [[[a1 vis'] calls] r] eqn:Hex.
    destruct r as [[]|e]; [|by failed].
    destruct (absorb_ok calls (s_in_range s) rest) as (add & -> & Hsub & Hadd).
    destruct (expand_law _ _ _ _ _ _ _ Hex) as (Hd & Hndc & Hcalls & Hvis & _).
    destruct (ri_counters s Hs) as [Hh0 Hc0].
    assert (range_inv (mkScratch (s_best s) vis' (s_id_scratch s) beam (rest ++ (nbr_id <$> add))
      (s_in_range s ++ add) (s_hops s + Z.of_nat (length beam))
      (s_cmps s + Z.of_nat (length calls)))) as Hs'.
    { eapply range_step_inv; try done; lia. }
    assert (length calls + remaining (nodes := nodes) vis' ≤ remaining (nodes := nodes) (s_visited s))
      as Hrem.
    { rewrite <-(length_fmap fst calls). apply remaining_drop; [done|done|].
      intros i Hi. destruct (Hcalls i Hi). split_and!; [done|done|by apply (ri_nodes _ Hs')]. }
    assert (length add ≤ length calls) as Hadd_len.
    { apply sublist_length in Hsub. unfold to_nbrs in Hsub. by rewrite length_fmap in Hsub. }
    rewrite !as_u32_small by lia. rewrite !u32_add_ok by lia. cbn [mbind option_bind].
    apply IH; [done|done|..]; cbn [s_range_frontier s_visited s_hops s_cmps];
      rewrite ?length_app, ?length_fmap; lia.
Qed.

End loop.

Section theory.
Context {I A E B : Type} `{Countable I} `{Acc : !SearchAccessor I A E}.
Context {dist : I → f32} {adj : I → list I} {nodes : gset I} {starts : list I}.
Context `{AL : !SearchAccessorLaws I A E dist adj nodes starts}.
Context `{OB : !SearchOutputBuffer I B} `{OL : !SearchOutputBufferLaws I B}.
Hypothesis nodes_u32 : (3 * Z.of_nat (size nodes) < 2 ^ 32)%Z.
Implicit Types s : SearchScratch I (NeighborPriorityQueue I).

(** Distinct nodes with their distances. *)
Definition points (l : list (Neighbor I)) : Prop :=
  NoDup (nbr_id <$> l) ∧ ∀ n, n ∈ l → nbr_id n ∈ nodes ∧ nbr_distance n = dist (nbr_id n).

(** A neighbor, within the limit, of a found point is found. *)
Definition closed (limit : f32) (l : list (Neighbor I)) : Prop :=
  ∀ n j, n ∈ l → j ∈ adj (nbr_id n) → f32_le (dist j) limit = true → j ∈ nbr_id <$> l.

Lemma second_round_ok fuel params a s initial :
  0 < r_beam_width params → size nodes ≤ fuel → points (s_in_range s) →
  s_visited s = list_to_set (nbr_id <$> s_in_range s) → s_range_frontier s = [] →
  (0 ≤ s_hops s ≤ Z.of_nat (size nodes))%Z → (0 ≤ s_cmps s ≤ Z.of_nat (size nodes))%Z →
  initial = mkStats (s_cmps s) (s_hops s) false →
  ∃ a' s' r, second_round (E := E) fuel params a s initial = Some (a', s', r) ∧
    match r with
    | Err e => accessor_error I A E e
    | Ok stats => points (s_in_range s') ∧
        (st_second_round stats = true → r_max_returned params = None →
         accessor_complete I A E adj →
         closed (f32_mul (r_radius params) (r_range_slack params)) (s_in_range s'))
    end.
Proof.
  intros Hbw Hf [Hnd Hin] Hv Hfr Hh Hc ->. unfold second_round.
  destruct (_ && _) eqn:Ego; [|eexists _, _, _; split; [done|]; split; [done|done]].
  unfold range_search_internal. rewrite Hfr. cbn [app].
  set (s1 := mkScratch _ _ _ _ _ _ _ _). set (limit := f32_mul _ _).
  assert (length (s_in_range s) + remaining (nodes := nodes) (s_visited s) ≤ size nodes) as Hrem.
  { rewrite <-(length_fmap nbr_id (s_in_range s)). assert (size nodes = remaining (nodes := nodes) ∅) as ->.
    { unfold remaining. f_equal. set_solver. }
    apply remaining_drop; [done|set_solver|]. intros i Hi. rewrite Hv. split_and!; [set_solver| |].
    - by apply elem_of_list_to_set.
    - apply list_elem_of_fmap in Hi as (n & -> & Hn). by apply Hin. }
  assert (range_inv (dist := dist) (adj := adj) (nodes := nodes) (r_max_returned params) limit s1)
    as Hs1.
  { assert (∀ i, i ∈ s_visited s ↔ i ∈ nbr_id <$> s_in_range s) as Hv'
      by (intros i; by rewrite Hv, elem_of_list_to_set).
    split; cbn [s1 s_in_range s_visited s_range_frontier s_hops s_cmps].
    - done.
    - intros n Hn. split; [|by apply Hin]. apply Hv', list_elem_of_fmap. eauto.
    - intros i (n & -> & Hn)%Hv'%list_elem_of_fmap. by apply Hin.
    - done.
    - intros _ n j Hn Hnf _. exfalso. apply Hnf, list_elem_of_fmap. eauto.
    - intros _ _ j Hj _. by apply Hv'.
    - lia. }
  assert (2 * Z.of_nat (size nodes) < 2 ^ 32)%Z as Hn by lia.
  destruct (range_loop_ok (r_max_returned params) limit (2 * Z.of_nat (size nodes))%Z
    (2 * Z.of_nat (size nodes))%Z Hn Hn fuel (r_beam_width params) a s1 Hbw Hs1)
    as (a' & s' & r & Hrun & Hr); [cbn; rewrite ?length_fmap; lia..|].
  rewrite Hrun. cbn [mbind option_bind]. destruct r as [[]|e]; [|by eexists _, _, _].
  destruct Hr as (Hs' & Hh' & Hdone). cbn [mbind option_bind st_hops st_cmps].
  destruct (ri_counters _ _ _ Hs') as [Hh0 Hc0]. rewrite u32_add_ok by lia.
  cbn [mbind option_bind]. eexists _, _, _. split; [done|].
  destruct Hs' as [P1 P2 P3 P4 P5 P6 _]. split.
  - split; [done|]. intros n Hni. destruct (P2 n Hni). split; [by apply P3|done].
  - intros _ Hm Hac n j Hni Hj Hle. apply P6; [done|done| |done]. apply (P5 Hac n); [done| |done].
    rewrite Hdone by done. apply not_elem_of_nil.
Qed.

Lemma filter_filtered_ok params (context : E → E) a candidates (output : B) :
  ob_ok output →
  (∃ e, pipeline (filter_start_points (A := A) context)
     (copy_ids (OB := distance_filtered (in_radius params) OB)) a candidates output =
     Some (a, output, Err e) ∧ accessor_error I A E e) ∨
  ∃ output', let new := take_opt (room (ob_capacity output) (length (ob_view output)))
      (List.filter (λ n, in_radius params (nbr_distance n)) (not_starts (starts := starts) candidates)) in
    pipeline (filter_start_points (A := A) context)
      (copy_ids (OB := distance_filtered (in_radius params) OB)) a candidates output =
      Some (a, output', Ok (length new)) ∧ ob_view output' = ob_view output ++ new.
Proof.
  intros Hb. unfold pipeline, filter_start_points, is_not_start_point.
  destruct (starting_points a) as [ps|e] eqn:Es;
    [right|left; exists e; split; [done|by eauto with rust]].
  pose proof (starting_points_law _ _ Es) as ->. fold (not_starts (starts := starts) candidates).
  unfold copy_ids. cbn [ob_extend distance_filtered df_extend].
  destruct (ob_extend_law output (List.filter (λ n, in_radius params (nbr_distance n))
    (not_starts (starts := starts) candidates)) Hb) as (b' & He & _ & _ & Hv).
  unfold df_extend. rewrite He. by exists b'.
Qed.

(** C11: a validated range search always returns; no counter overflows on graphs of fewer than
    2^32 / 3 nodes.  What it writes are distinct nodes with their distances, each within the
    radius and outside the inner radius, none a start point.  When the second round ran without
    a limit and the accessor reports all neighbors, the points it worked with are closed: every
    neighbor of such a point within the radius times the slack is one of them, so that each
    point that can be reached through points in range is found.  It fails only with an error of
    the accessor and has then written nothing. *)
Theorem range_search_correct (context : E → E) (debug : bool) (fuel max_degree : nat)
    (b : RangeBuilder) params (a : A) pooled (output : B) :
  range_build b = Ok params → ob_ok output → size nodes ≤ fuel →
  ∃ output' r,
    range_search OB debug fuel max_degree params (Ok a)
      (λ ob, pipeline (filter_start_points context) (copy_ids (OB := ob))) pooled output =
      Some (output', r) ∧
    match r with
    | Err e => accessor_error I A E e ∧ ob_view output' = ob_view output
    | Ok stats => ∃ found,
        let new := take_opt (room (ob_capacity output) (length (ob_view output)))
          (List.filter (λ n, in_radius params (nbr_distance n)) (not_starts (starts := starts) found)) in
        ob_view output' = ob_view output ++ new ∧ points found ∧
        ss_result_count stats = as_u32 (length new) ∧
        (ss_second_round stats = true → r_max_returned params = None →
         accessor_complete I A E adj →
         closed (f32_mul (r_radius params) (r_range_slack params)) found)
    end.
Proof.
  intros Hbuild Hout Hf. unfold range_search, num_starting_points, search_scratch.
  assert (0 < r_starting_l params ∧ 0 < r_beam_width params) as [Hl Hbw].
  { unfold range_build, validate_and_create in Hbuild.
    destruct (Nat.eqb_spec (default 1 (rb_beam_width b)) 0); [done|].
    destruct (Nat.eqb_spec (rb_starting_l b) 0); [done|].
    repeat (case_match; [done|]). simplify_eq/=. lia. }
  destruct (starting_points a) as [ps|e] eqn:Es;
    [|eexists _, _; split; [done|]; split; [by eauto with rust|done]].
  rewrite get_scratch_eq. set (s := scratch_create _).
  assert (scratch_fresh (NQ := priority_queue_ops debug) (QL := priority_queue_laws debug) s)
    as Hs by (apply scratch_create_fresh; simpl; lia).
  destruct (search_internal_total (NQ := priority_queue_ops debug) (QL := priority_queue_laws debug)
    noop_record fuel (Some (r_beam_width params)) a s tt Hs)
    as (a' & s' & rec' & r & -> & Hpost); [intros ?; simplify_eq; lia|lia|done|].
  cbn [mbind option_bind]. destruct r as [st|e];
    [|eexists _, _; split; [done|]; by split].
  destruct Hpost as (Hok & Hst & Hnd & Hin & Hh & Hc & Hfr).
  assert (q_iter (s_best s') = Some (take (q_search_param_l (s_best s')) (q_contents (s_best s'))))
    as Hiter.
  { rewrite <-q_entries_contents, <-fmap_take. apply (pq_iter_ok (s_best s') Hok). }
  rewrite Hiter. cbn [mbind option_bind]. set (ir := List.filter _ _).
  assert (sublist ir (q_contents (s_best s'))) as Hsub.
  { etrans; [apply List_filter_sublist|]. etrans; apply sublist_take. }
  set (s1 := mkScratch _ _ _ _ _ _ _ _).
  destruct (second_round_ok fuel params a' s1 st) as (a2 & s2 & r & -> & Hr);
    [done|done| |done|exact Hfr|exact Hh|exact Hc|exact Hst|].
  { split.
    - eapply sublist_NoDup; [|apply sublist_fmap, Hsub]. cbn in Hnd.
      by rewrite list_fmap_compose, q_entries_contents in Hnd.
    - intros n Hn. apply (elem_of_sublist _ _ _ Hsub) in Hn. rewrite <-q_entries_contents in Hn.
      apply list_elem_of_fmap in Hn as ([m f] & -> & Hm). by eapply Hin. }
  cbn [mbind option_bind]. destruct r as [stats|e]; [|by eexists _, _].
  destruct Hr as [Hpts Hcl].
  destruct (filter_filtered_ok params context a2 (s_in_range s2) output Hout)
    as [(e & -> & He)|(output' & -> & Hv)]; cbn [mbind option_bind];
    [eexists _, _; split; [done|]; by split|].
  eexists _, _. split; [done|]. exists (s_in_range s2). by split_and!.
Qed.

End theory.

(** ** The path graph: points within distance 2 of the query 0 *)

Definition path_range : Range := mkRange None 2 1 (f32_of_Z 2) None f32_one f32_one.

Local Abbreviation path_range_search :=
  (range_search (Acc := path_accessor) id_distance_buffer true 5 8 path_range (Ok tt)
     (λ ob, pipeline (filter_start_points (Acc := path_accessor) (λ e, e)) (copy_ids (OB := ob))) None
     (mkIdDistance [7; 7; 7; 7]%Z (replicate 4 f32_zero) 0)).

Lemma range_search_correct_witness :
  ∃ output' stats, path_range_search = Some (output', Ok stats) ∧
    ss_second_round stats = true ∧ id_ids output' = [0; 1; 2; 7]%Z ∧
    ∃ found, points (dist := path_dist) (nodes := path_nodes) found ∧
      closed (adj := path_adj) (dist := path_dist) (f32_mul (f32_of_Z 2) f32_one) found.
Proof.
  destruct (range_search_correct (AL := path_laws) (OL := id_distance_laws)
    ltac:(vm_compute; reflexivity) (λ e, e) true 5 8 (range_builder 2 (f32_of_Z 2)) path_range tt
    None (mkIdDistance [7; 7; 7; 7]%Z (replicate 4 f32_zero) 0)) as (output' & r & Hrun & Hr);
    [vm_compute; reflexivity|split; simpl; lia|vm_compute; lia|].
  assert (∃ o st, path_range_search = Some (o, Ok st) ∧ ss_second_round st = true ∧
    id_ids o = [0; 1; 2; 7]%Z) as (o & st & Hrun' & H2 & Ho)
    by (eexists _, _; split_and!; vm_compute; reflexivity).
  rewrite Hrun in Hrun'. injection Hrun' as -> ->. exists o, st.
  split; [exact Hrun|]. split; [exact H2|]. split; [exact Ho|].
  destruct Hr as (found & _ & Hp & _ & Hc). exists found. split; [exact Hp|].
  exact (Hc H2 eq_refl (reference_complete path_dist path_adj [4%Z])).
Defined.

(** The scratch after the first round on the path graph. *)
Definition path_first_round : SearchScratch Z (NeighborPriorityQueue Z) :=
  let ir := [mkNeighbor 0%Z (f32_of_Z 0); mkNeighbor 1%Z (f32_of_Z 1)] in
  mkScratch (q_new 3) (list_to_set (nbr_id <$> ir)) [] [] [] ir 5 5.

(** The statistics of a range search with a second round are wrong.  The scratch counts the
    work of both rounds together; the second round is reported with the comparisons of the
    first round only, and with the hops of the first round counted twice: here 7 comparisons
    and 8 hops are reported as 5 and 13. *)
Theorem range_search_miscounts :
  ∃ a s' stats,
    second_round (Acc := path_accessor) 5 path_range tt path_first_round (mkStats 5 5 false) =
      Some (a, s', Ok stats) ∧
    s_cmps s' = 7%Z ∧ s_hops s' = 8%Z ∧ stats = mkStats 5 13 true.
Proof. eexists _, _, _. split_and!; vm_compute; reflexivity. Qed.
