(* ===== verification/Filtered.v ===== *)
(** * The accessor of filtered searches

    Models [Decision] and the trait [FilteredAccessor] of [diskann/src/graph/glue.rs], through
    which the filtered searches see the graph, and what the filtered searches share.

    - Class [FilteredAccessor] with [FilteredAccessorLaws]: every reported node comes with the
      decision of the filter;
    - Section [invariant]: the invariant of a filtered graph search, in which a node may be
      reported without becoming a candidate;
    - a reference accessor that filters the path graph. *)

From S2P Require Import Prelude F32 Neighbor NeighborQueue QueueInterface Search.

(** [enum Decision]; the wrappers [Accept] and [Reject] are the constructors. *)
Inductive Decision (T : Type) := Accept (id : T) | Reject (id : T).
Arguments Accept {T} _.
Arguments Reject {T} _.

(** [Decision::into_inner] *)
Definition into_inner {T} (d : Decision T) : T := match d with Accept i => i | Reject i => i end.

(** [Decision::is_accept] and [Decision::is_reject] *)
Definition is_accept {T} (d : Decision T) : bool := match d with Accept _ => true | _ => false end.
Definition is_reject {T} (d : Decision T) : bool := match d with Reject _ => true | _ => false end.

(** [Decision::map] *)
Definition decision_map {T R} (f : T → R) (d : Decision T) : Decision R :=
  match d with Accept i => Accept (f i) | Reject i => Reject (f i) end.

(** [trait FilteredAccessor].  Callbacks are the lists of their calls, as in [SearchAccessor];
    the predicates are [NotInMut] on the set of visited ids. *)
Class FilteredAccessor (I A E : Type) `{Countable I} := {
  fa_start_point_distances : A → A * list (Decision I * f32) * result E unit;
  expand_beam_filtered : A → list I → gset I →
    A * gset I * list (Decision I * f32) * result E unit;
  expand_beam_accept_only : A → list I → gset I → A * gset I * list (I * f32) * result E unit;
  fa_terminate_early : A → A * bool;
  fa_num_starting_points : A → result E nat;
}.

(** The nodes of a list of decisions. *)
Definition undecide {I} (calls : list (Decision I * f32)) : list (I * f32) :=
  (λ c, (into_inner c.1, c.2)) <$> calls.

Section accessor.
Context (I A E : Type) `{FA : FilteredAccessor I A E}.
Variables (dist : I → f32) (adj : I → list I) (nodes : gset I) (starts : list I).
Variable matches : I → bool.

(** What a call reports: distinct nodes with their distances, new in the visited set, which
    otherwise only grows by neighbors of the beam. *)
Definition reports (ids : list I) (vis vis' : gset I) (calls : list (I * f32)) : Prop :=
  calls.*2 = dist <$> calls.*1 ∧ NoDup calls.*1 ∧
  (∀ i, i ∈ calls.*1 → i ∉ vis ∧ i ∈ vis') ∧ vis ⊆ vis' ∧
  (∀ i, i ∈ vis' → i ∈ vis ∨ ∃ b, b ∈ ids ∧ i ∈ adj b).

(** The decisions are those of the filter. *)
Definition decided (calls : list (Decision I * f32)) : Prop :=
  Forall (λ c, is_accept c.1 = matches (into_inner c.1)) calls.

(** The documented contract, as for [SearchAccessor]; the methods on starting points are
    coherent, and [expand_beam_accept_only] reports accepted ids only. *)
Class FilteredAccessorLaws := {
  fa_num_law : ∀ a n, fa_num_starting_points a = Ok n → n = length starts;
  fa_start_law : ∀ a a' calls r, fa_start_point_distances a = (a', calls, r) →
    decided calls ∧ (undecide calls).*2 = dist <$> (undecide calls).*1 ∧
    NoDup (undecide calls).*1 ∧ (∀ i, i ∈ (undecide calls).*1 → i ∈ starts) ∧
    (r = Ok tt → ∀ i, i ∈ starts → i ∈ (undecide calls).*1);
  fa_starts_nodes : ∀ i, i ∈ starts → i ∈ nodes;
  fa_adj_nodes : ∀ b j, b ∈ nodes → j ∈ adj b → j ∈ nodes;
  fa_filtered_law : ∀ a ids vis a' vis' calls r,
    expand_beam_filtered a ids vis = (a', vis', calls, r) →
    decided calls ∧ reports ids vis vis' (undecide calls);
  fa_accept_law : ∀ a ids vis a' vis' calls r,
    expand_beam_accept_only a ids vis = (a', vis', calls, r) →
    Forall (λ c, matches c.1 = true) calls ∧ reports ids vis vis' calls;
}.

(** No candidate is dropped: every neighbor of the beam is visited, and what is visited is
    reported. *)
Definition filtered_complete : Prop :=
  (∀ a ids vis a' vis' calls, expand_beam_filtered a ids vis = (a', vis', calls, Ok tt) →
     (∀ b j, b ∈ ids → j ∈ adj b → j ∈ vis') ∧
     (∀ i, i ∈ vis' → i ∈ vis ∨ i ∈ (undecide calls).*1)) ∧
  (∀ a ids vis a' vis' calls, expand_beam_accept_only a ids vis = (a', vis', calls, Ok tt) →
     ∀ i, i ∈ vis' → i ∈ vis ∨ i ∈ calls.*1).

Definition fa_never_terminates : Prop := ∀ a, (fa_terminate_early a).2 = false.

(** The errors of the accessor. *)
Inductive filtered_error (e : E) : Prop :=
| error_num a : fa_num_starting_points a = Err e → filtered_error e
| error_start a a' calls : fa_start_point_distances a = (a', calls, Err e) → filtered_error e
| error_filtered a ids vis a' vis' calls :
    expand_beam_filtered a ids vis = (a', vis', calls, Err e) → filtered_error e
| error_accept a ids vis a' vis' calls :
    expand_beam_accept_only a ids vis = (a', vis', calls, Err e) → filtered_error e.

End accessor.

#[export] Hint Constructors filtered_error : rust.

Arguments fa_start_point_distances {I A E _ _ _} _.
Arguments expand_beam_filtered {I A E _ _ _} _ _ _.
Arguments expand_beam_accept_only {I A E _ _ _} _ _ _.
Arguments fa_terminate_early {I A E _ _ _} _.
Arguments fa_num_starting_points {I A E _ _ _} _.
Arguments reports {I _ _} _ _ _ _ _ _.
Arguments decided {I} _ _.
Arguments fa_num_law {I A E _ _ _ dist adj nodes starts matches _} _ _ _.
Arguments fa_start_law {I A E _ _ _ dist adj nodes starts matches _} _ _ _ _ _.
Arguments fa_starts_nodes {I A E _ _ _ dist adj nodes starts matches _} _ _.
Arguments fa_adj_nodes {I A E _ _ _ dist adj nodes starts matches _} _ _ _ _.
Arguments fa_filtered_law {I A E _ _ _ dist adj nodes starts matches _} _ _ _ _ _ _ _ _.
Arguments fa_accept_law {I A E _ _ _ dist adj nodes starts matches _} _ _ _ _ _ _ _ _.

(** The accepted and the rejected nodes of a list of decisions. *)
Definition accepted {I} (calls : list (Decision I * f32)) : list (I * f32) :=
  undecide (List.filter (λ c, is_accept c.1) calls).
Definition rejected {I} (calls : list (Decision I * f32)) : list (I * f32) :=
  undecide (List.filter (λ c, is_reject c.1) calls).

Section decisions.
Context {I : Type} (matches : I → bool).
Implicit Types calls : list (Decision I * f32).

Lemma undecide_split calls : undecide calls ≡ₚ accepted calls ++ rejected calls.
Proof.
  unfold accepted, rejected, undecide.
  induction calls as [|[[i|i] d] calls IH]; simpl; [done|by rewrite IH|].
  by rewrite <-Permutation_middle, IH.
Qed.

Lemma length_undecide calls : length (undecide calls) = length calls.
Proof. apply length_fmap. Qed.

Lemma accepted_sublist calls : sublist (accepted calls) (undecide calls).
Proof. apply sublist_fmap, List_filter_sublist. Qed.

(** The accepted nodes are those that match. *)
Lemma accepted_eq calls :
  decided matches calls → accepted calls = List.filter (λ c, matches c.1) (undecide calls).
Proof.
  unfold accepted, undecide, decided.
  induction calls as [|[[i|i] d] calls IH]; intros Hd; [done|..];
    apply Forall_cons in Hd as [Hc Hd]; simpl in Hc |- *; rewrite <-Hc; simpl;
    [f_equal; exact (IH Hd)|exact (IH Hd)].
Qed.

Lemma accepted_match calls c : decided matches calls → c ∈ accepted calls → matches c.1 = true.
Proof. intros Hd Hc. rewrite accepted_eq in Hc by done. by apply elem_of_List_filter in Hc as [_ ?]. Qed.

Lemma rejected_match calls c : decided matches calls → c ∈ rejected calls → matches c.1 = false.
Proof.
  unfold rejected, undecide, decided. intros Hd Hc.
  apply list_elem_of_fmap in Hc as (d & -> & [Hc Hr]%elem_of_List_filter).
  rewrite Forall_forall in Hd. simpl. rewrite <-(Hd d Hc). by destruct d as [[] ?].
Qed.

End decisions.

(** ** The invariant of a filtered search *)

Section invariant.
Context {I A E : Type} `{Countable I} `{FA : !FilteredAccessor I A E}.
Context {dist : I → f32} {adj : I → list I} {nodes : gset I} {starts : list I}.
Context {matches : I → bool}.
Context `{FL : !FilteredAccessorLaws I A E dist adj nodes starts matches}.
Variable (debug : bool).

Local Abbreviation Scratch := (SearchScratch I (NeighborPriorityQueue I)).
Local Abbreviation qinv rep := (queue_inv (NQ := priority_queue_ops debug)
  (QL := priority_queue_laws debug) (R := unit) (λ q ins _, rep q ins)).

Variable rep : NeighborPriorityQueue I → list (Neighbor I) → Prop.
Implicit Types (s : Scratch) (ins all : list (Neighbor I)).

(** [all] are the nodes reported so far, [ins] those that were inserted into the queue. *)
Record filter_inv s ins all : Prop := {
  fi_queue : qinv rep (s_best s) ins tt;
  fi_ins : ∀ n, n ∈ ins → n ∈ all;
  fi_ids : ∀ n, n ∈ all → nbr_id n ∈ s_visited s ∧ nbr_distance n = dist (nbr_id n);
  fi_nodup : NoDup (nbr_id <$> all);
  fi_nodes : s_visited s ⊆ nodes;
  fi_complete : filtered_complete I A E adj → ∀ i, i ∈ s_visited s → i ∈ nbr_id <$> all;
  fi_expanded : filtered_complete I A E adj →
    ∀ n j, (n, true) ∈ q_entries (s_best s) → j ∈ adj (nbr_id n) → j ∈ s_visited s;
  fi_counters : (0 ≤ s_hops s)%Z ∧ (0 ≤ s_cmps s)%Z;
}.

Lemma filter_inv_fresh s :
  qinv rep (s_best s) [] tt → q_entries (s_best s) = [] → s_visited s = ∅ →
  (0 ≤ s_hops s)%Z → (0 ≤ s_cmps s)%Z → filter_inv s [] [].
Proof.
  intros Hq He Hv Hh Hc. split; rewrite ?Hv, ?He; try done.
  - by intros n Hn%elem_of_nil.
  - constructor.
  - by intros _ n j Hn%elem_of_nil.
Qed.

(** Adding the nodes that a call reported; [q] is the queue after some were inserted. *)
Lemma filter_report s ins ins' all calls q vis' beam hops cmps :
  filter_inv s ins all → qinv rep q ins' tt →
  (∀ n, n ∈ ins' → n ∈ ins ∨ n ∈ to_nbrs calls) →
  calls.*2 = dist <$> calls.*1 → NoDup calls.*1 →
  (∀ i, i ∈ calls.*1 → i ∉ s_visited s ∧ i ∈ vis') → s_visited s ⊆ vis' → vis' ⊆ nodes →
  (filtered_complete I A E adj → ∀ i, i ∈ vis' → i ∈ s_visited s ∨ i ∈ calls.*1) →
  (filtered_complete I A E adj →
     ∀ n j, (n, true) ∈ q_entries q → j ∈ adj (nbr_id n) → j ∈ vis') →
  (0 ≤ hops)%Z → (0 ≤ cmps)%Z →
  filter_inv (mkScratch q vis' (s_id_scratch s) beam (s_range_frontier s) (s_in_range s)
    hops cmps) ins' (reverse (to_nbrs calls) ++ all).
Proof.
  intros Hs Hq Hins Hd Hnd Hnew Hsub Hnodes Hcomp Hexp Hh Hc. split; simpl; try done.
  - intros n Hn. rewrite elem_of_app, elem_of_reverse.
    destruct (Hins n Hn); [right; by apply (fi_ins _ _ _ Hs)|by left].
  - intros n [Hn|Hn]%elem_of_app.
    + rewrite elem_of_reverse in Hn. destruct (calls_dist calls Hd n Hn) as [Hi ?].
      split; [by apply Hnew|done].
    + destruct (fi_ids _ _ _ Hs n Hn). split; [by apply Hsub|done].
  - rewrite fmap_app, fmap_reverse, to_nbrs_ids. apply NoDup_app. split_and!.
    + by rewrite reverse_Permutation.
    + intros i Hi Hi'. rewrite elem_of_reverse in Hi.
      apply list_elem_of_fmap in Hi' as (n & -> & Hn).
      by apply (Hnew _ Hi), (fi_ids _ _ _ Hs n Hn).
    + apply Hs.
  - intros Hac i Hi. rewrite fmap_app, fmap_reverse, to_nbrs_ids, elem_of_app, elem_of_reverse.
    destruct (Hcomp Hac i Hi) as [Hv|Hv]; [right; by apply (fi_complete _ _ _ Hs)|by left].
Qed.

(** A beam of candidates, and nodes in general, expand to nodes. *)
Lemma reports_nodes s ins all ids vis' calls :
  filter_inv s ins all → (∀ i, i ∈ ids → i ∈ nodes) →
  reports dist adj ids (s_visited s) vis' calls → vis' ⊆ nodes.
Proof.
  intros Hs Hids (_ & _ & _ & _ & Hv) i Hi. destruct (Hv i Hi) as [Hin|(b & Hb & Hin)].
  - by apply (fi_nodes _ _ _ Hs).
  - eapply fa_adj_nodes; [apply Hids, Hb|done].
Qed.

Lemma candidates_nodes s ins all i :
  filter_inv s ins all → i ∈ nbr_id ∘ fst <$> q_entries (s_best s) → i ∈ nodes.
Proof.
  intros Hs Hi. apply (queue_inv_ids _ _ _ _ i (fi_queue _ _ _ Hs)) in Hi.
  apply list_elem_of_fmap in Hi as (n & -> & Hn).
  by apply (fi_nodes _ _ _ Hs), (fi_ids _ _ _ Hs), (fi_ins _ _ _ Hs).
Qed.

Lemma reports_remaining ids vis vis' calls :
  reports dist adj ids vis vis' calls → vis' ⊆ nodes →
  length calls + remaining (nodes := nodes) vis' ≤ remaining (nodes := nodes) vis.
Proof.
  intros (_ & Hnd & Hnew & Hsub & _) Hn. rewrite <-(length_fmap fst calls).
  apply remaining_drop; [done|done|]. intros i Hi. destruct (Hnew i Hi). auto.
Qed.

Lemma reports_fresh s ins all ids vis' calls i :
  filter_inv s ins all → reports dist adj ids (s_visited s) vis' calls →
  i ∈ calls.*1 → i ∉ nbr_id <$> ins.
Proof.
  intros Hs (_ & _ & Hnew & _) Hi Hin. apply list_elem_of_fmap in Hin as (n & -> & Hn).
  by apply (Hnew _ Hi), (fi_ids _ _ _ Hs n), (fi_ins _ _ _ Hs).
Qed.

End invariant.

(** ** A reference accessor

    The graph of [reference_accessor] with a filter: neighbors are classified as they are
    found, and the accept-only expansion looks at matching neighbors only. *)

Section reference.
Context {I : Type} `{Countable I}.
Variables (dist : I → f32) (adj : I → list I) (nodes : gset I) (starts : list I).
Variable matches : I → bool.

Definition decide_call (c : I * f32) : Decision I * f32 :=
  (if matches c.1 then Accept c.1 else Reject c.1, c.2).

Definition reference_filtered : FilteredAccessor I unit unit := {|
  fa_start_point_distances a := (a, (λ i, decide_call (i, dist i)) <$> starts, Ok tt);
  expand_beam_filtered a ids vis :=
    let '(vis', calls) := expand_list dist vis (ids ≫= adj) in
    (a, vis', decide_call <$> calls, Ok tt);
  expand_beam_accept_only a ids vis :=
    let '(vis', calls) := expand_list dist vis (List.filter matches (ids ≫= adj)) in
    (a, vis', calls, Ok tt);
  fa_terminate_early a := (a, false);
  fa_num_starting_points a := Ok (length starts);
|}.

Lemma undecide_call (calls : list (I * f32)) : undecide (decide_call <$> calls) = calls.
Proof.
  unfold undecide, decide_call. induction calls as [|[i d] calls IH]; [done|].
  rewrite !fmap_cons, IH. simpl. by destruct (matches i).
Qed.

Lemma decided_call (calls : list (I * f32)) : decided matches (decide_call <$> calls).
Proof.
  apply Forall_fmap, Forall_forall. intros [i d] _. unfold decide_call. simpl.
  by destruct (matches i) eqn:E.
Qed.

Lemma expand_list_reports vis ns ids vis' calls :
  expand_list dist vis ns = (vis', calls) → (∀ i, i ∈ ns → i ∈ ids ≫= adj) →
  reports dist adj ids vis vis' calls.
Proof.
  intros Hex Hns. destruct (expand_list_ok _ _ _ _ _ Hex) as (Hd & Hnd & Hnew & Hv & Hv').
  split_and!; [done|done| | |].
  - intros i Hi. split; [by apply Hnew|]. apply Hv. by right.
  - intros i Hi. apply Hv. by left.
  - intros i Hi. apply Hv' in Hi as [Hi|Hi]; [by left|right].
    apply Hns, list_elem_of_bind in Hi as (b & Hb & Hi). by exists b.
Qed.

Hypothesis starts_distinct : NoDup starts.
Hypothesis starts_in : ∀ i, i ∈ starts → i ∈ nodes.
Hypothesis adj_in : ∀ b j, b ∈ nodes → j ∈ adj b → j ∈ nodes.

Lemma reference_filtered_laws :
  FilteredAccessorLaws I unit unit (FA := reference_filtered) dist adj nodes starts matches.
Proof.
  split.
  - intros a n Hn. by simplify_eq/=.
  - intros a a' calls r Hst. simplify_eq/=.
    rewrite (list_fmap_compose (λ i, (i, dist i)) decide_call), undecide_call.
    rewrite calls_of_ids. split_and!; [apply decided_call| |done|done|done].
    rewrite <-list_fmap_compose. by apply list_fmap_ext.
  - done.
  - done.
  - intros a ids vis a' vis' calls r Hex. cbn in Hex.
    destruct (expand_list _ vis (ids ≫= adj)) as [v c] eqn:E. simplify_eq.
    split; [apply decided_call|]. rewrite undecide_call. by eapply expand_list_reports.
  - intros a ids vis a' vis' calls r Hex. cbn in Hex.
    destruct (expand_list _ vis _) as [v c] eqn:E. simplify_eq. split.
    + apply Forall_forall. intros [i d] Hi.
      destruct (expand_list_ok _ _ _ _ _ E) as (_ & _ & Hnew & Hv & Hv').
      assert (i ∈ calls.*1) as Hi1 by (apply list_elem_of_fmap; by exists (i, d)).
      assert (i ∈ vis') as Hi2 by (apply Hv; by right). apply Hv' in Hi2 as [Hi2|Hi2].
      * by apply Hnew in Hi1.
      * by apply elem_of_List_filter in Hi2 as [_ ?].
    + eapply expand_list_reports; [done|]. intros i Hi. by apply elem_of_List_filter in Hi as [? _].
Qed.

Lemma reference_filtered_complete : filtered_complete I unit unit (FA := reference_filtered) adj.
Proof.
  split; intros a ids vis a' vis' calls Hex; cbn in Hex;
    destruct (expand_list _ vis _) as [v c] eqn:E; simplify_eq;
    destruct (expand_list_ok _ _ _ _ _ E) as (Hd & Hnd & Hnew & Hv & Hns).
  - rewrite undecide_call. split; [|intros i; by apply Hv].
    intros b j Hb Hj. apply Hns. right. apply list_elem_of_bind. by exists b.
  - intros i. by apply Hv.
Qed.

End reference.

(** The path graph with the filter "odd". *)
Definition path_filtered : FilteredAccessor Z unit unit :=
  reference_filtered path_dist path_adj [4%Z] Z.odd.

Lemma path_filtered_laws :
  FilteredAccessorLaws Z unit unit (FA := path_filtered) path_dist path_adj path_nodes [4%Z] Z.odd.
Proof.
  apply reference_filtered_laws; [apply NoDup_singleton| |].
  - intros i ->%list_elem_of_singleton. apply path_nodes_spec. lia.
  - intros b j Hb Hj. rewrite path_nodes_spec in *. unfold path_adj in Hj.
    rewrite !elem_of_cons, elem_of_nil in Hj. lia.
Qed.
