(* ===== verification/FilteredSearch.v ===== *)
(** * Filtered searches

    Models [diskann/src/graph/search/inline_filter_search.rs] and
    [search/multihop_filter_search.rs]: k-NN searches that return only nodes accepted by a
    filter.

    - Section [adaptive]: [AdaptiveL] and [compute_adaptive_l], in 64-bit floating point; the
      library functions [log10] and [powf] are parameters;
    - Section [inline]: the inline search navigates through all nodes, collects the accepted
      ones, and may enlarge its queue once it has seen enough nodes;
    - Section [multihop]: only accepted nodes become candidates; rejected neighbors are
      expanded one step further;
    - Sections [inline_theory] and [multihop_theory]: both searches end, panic nowhere and
      return accepted nodes only. *)

From Stdlib Require Import SpecFloat.
From S2P Require Import Prelude F32 Neighbor NeighborQueue QueueInterface Prune Search OutputBuffer Knn Filtered.

(** The constants 0.1, 0.5, 1.0 and 2.0 *)
Definition f64_tenth : f64 := S754_finite false 7205759403792794 (-56).
Definition f64_half : f64 := S754_finite false 4503599627370496 (-53).
Definition f64_one : f64 := S754_finite false 4503599627370496 (-52).
Definition f64_two : f64 := S754_finite false 4503599627370496 (-51).

(** [f64::clamp], which asserts that the bounds are ordered *)
Definition f64_clamp (x min max : f64) : option f64 :=
  _ ← rassert (f64_le min max);
  let x := if f64_lt x min then min else x in
  Some (if f64_lt max x then max else x).

(** ** Adaptive L *)

Inductive AdaptiveLSearchError := ScaleFactorLessThanOne | SampleCountZero.

Record AdaptiveL := mkAdaptiveL { al_sample_count : nat; al_scale_factor : f64 }.

(** [AdaptiveL::new] *)
Definition adaptive_l_new (sample_count : nat) (scale_factor : f64) :
    result AdaptiveLSearchError AdaptiveL :=
  if f64_lt scale_factor f64_one then Err ScaleFactorLessThanOne else
  if sample_count =? 0 then Err SampleCountZero else Ok (mkAdaptiveL sample_count scale_factor).

Section adaptive.
Variables (log10 : f64 → f64) (powf : f64 → f64 → f64).

(** [compute_adaptive_l] *)
Definition compute_adaptive_l (base_l visited matched : nat) (max_multiplier : f64) : option Z :=
  if (matched =? 0) || (visited =? 0) then
    Some (f64_to_usize (f64_mul (f64_of_usize base_l) max_multiplier))
  else
    let specificity := f64_div (f64_of_usize matched) (f64_of_usize visited) in
    let multiplier :=
      if f64_le f64_half specificity then f64_one
      else if f64_le f64_tenth specificity then f64_two
      else powf f64_two (f64_neg (log10 specificity)) in
    multiplier ← f64_clamp multiplier f64_one max_multiplier;
    Some (f64_to_usize (f64_mul (f64_of_usize base_l) multiplier)).

(** The step of the search that enlarges the queue: the new [l_adjusted] and scratch. *)
Definition adapt {I} `{Countable I} (adaptive_l : option AdaptiveL)
    (l_search sample_visited sample_matched : nat) (l_adjusted : bool)
    (s : SearchScratch I (NeighborPriorityQueue I)) :
    option (bool * SearchScratch I (NeighborPriorityQueue I)) :=
  match adaptive_l with
  | Some al =>
      if negb l_adjusted && (al_sample_count al <=? sample_visited) then
        new_l ← compute_adaptive_l l_search sample_visited sample_matched (al_scale_factor al);
        Some (true, if (Z.of_nat l_search <? new_l)%Z then scratch_resize s (Z.to_nat new_l) else s)
      else Some (l_adjusted, s)
  | None => Some (l_adjusted, s)
  end.

End adaptive.

(** ** Inline filtered search *)

(** [inline_filter_search::Ret] *)
Record InlineRet (I : Type) := mkInlineRet {
  ir_cmps : Z;
  ir_hops : Z;
  ir_matched_results : list (Neighbor I);
}.
Arguments mkInlineRet {I} _ _ _.
Arguments ir_cmps {I} _.
Arguments ir_hops {I} _.
Arguments ir_matched_results {I} _.

Section inline.
Context {I A E R : Type} `{FA : FilteredAccessor I A E} `{!UnstableSort I}.
Variables (log10 : f64 → f64) (powf : f64 → f64 → f64).
Variables (record : R → Neighbor I → Z → Z → R) (debug : bool).

Local Abbreviation Scratch := (SearchScratch I (NeighborPriorityQueue I)).
Implicit Types (s : Scratch) (matched : list (Neighbor I)).

(** The closure of [start_point_distances]. *)
Fixpoint inline_init (calls : list (Decision I * f32)) s matched :
    option (Scratch * list (Neighbor I)) :=
  match calls with
  | [] => Some (s, matched)
  | (id, distance) :: calls =>
      best ← q_insert debug (s_best s) (mkNeighbor (into_inner id) distance);
      inline_init calls
        (mkScratch best ({[ into_inner id ]} ∪ s_visited s) (s_id_scratch s) (s_beam_nodes s)
           (s_range_frontier s) (s_in_range s) (s_hops s) (s_cmps s))
        match id with Accept i => matched ++ [mkNeighbor i distance] | Reject _ => matched end
  end.

(** The loop over the one-hop neighbors. *)
Fixpoint inline_absorb (calls : list (Decision I * f32)) (best : NeighborPriorityQueue I) matched
    (sample_visited sample_matched : nat) :
    option (NeighborPriorityQueue I * list (Neighbor I) * nat * nat) :=
  match calls with
  | [] => Some (best, matched, sample_visited, sample_matched)
  | (decision, distance) :: calls =>
      let '(matched, sample_matched) :=
        match decision with
        | Accept i => (matched ++ [mkNeighbor i distance], sample_matched + 1)
        | Reject _ => (matched, sample_matched)
        end in
      best ← q_insert debug best (mkNeighbor (into_inner decision) distance);
      inline_absorb calls best matched (sample_visited + 1) sample_matched
  end.

(** The [loop] *)
Fixpoint inline_loop (fuel : nat) (beam_width l_search : nat) (adaptive_l : option AdaptiveL)
    (a : A) s (rec : R) matched (sample_visited sample_matched : nat) (l_adjusted : bool) :
    option (A * Scratch * R * result E (list (Neighbor I))) :=
  let '(a, stop) := fa_terminate_early a in
  if (stop : bool) then Some (a, s, rec, Ok matched) else
  '(best, beam, rec) ←
    fill_beam (NQ := priority_queue_ops debug) record beam_width (s_best s) [] (s_hops s)
      (s_cmps s) rec;
  let s := mkScratch best (s_visited s) (s_id_scratch s) beam (s_range_frontier s)
             (s_in_range s) (s_hops s) (s_cmps s) in
  match beam, fuel with
  | [], _ => Some (a, s, rec, Ok matched)
  | _, 0 => None
  | _, S fuel =>
      let '(a, visited, one_hop, r) := expand_beam_filtered a beam (s_visited s) in
      match r with
      | Err e =>
          Some (a, mkScratch best visited (s_id_scratch s) beam (s_range_frontier s)
                     (s_in_range s) (s_hops s) (s_cmps s), rec, Err e)
      | Ok _ =>
          '(best, matched, sample_visited, sample_matched) ←
            inline_absorb one_hop best matched sample_visited sample_matched;
          cmps ← u32_add (s_cmps s) (as_u32 (length one_hop));
          hops ← u32_add (s_hops s) (as_u32 (length beam));
          '(l_adjusted, s) ←
            adapt log10 powf adaptive_l l_search sample_visited sample_matched l_adjusted
              (mkScratch best visited (s_id_scratch s) beam (s_range_frontier s) (s_in_range s)
                 hops cmps);
          inline_loop fuel beam_width l_search adaptive_l a s rec matched sample_visited
            sample_matched l_adjusted
      end
  end.

(** [inline_filter_search_internal] *)
Definition inline_filter_search_internal (fuel : nat) (params : Knn) (a : A) s (rec : R)
    (adaptive_l : option AdaptiveL) : option (A * Scratch * R * result E (InlineRet I)) :=
  let '(a, calls, r) := fa_start_point_distances a in
  '(s, matched) ← inline_init calls s [];
  match r with
  | Err e => Some (a, s, rec, Err e)
  | Ok _ =>
      '(a, s, rec, r) ←
        inline_loop fuel (k_beam_width params) (k_l_value params) adaptive_l a s rec matched 0 0
          false;
      match r with
      | Err e => Some (a, s, rec, Err e)
      | Ok matched =>
          Some (a, s, rec, Ok (mkInlineRet (s_cmps s) (s_hops s) (sort_unstable matched)))
      end
  end.

End inline.

Section search.
Context {I A E B : Type} `{FA : FilteredAccessor I A E} `{!UnstableSort I}.
Variables (log10 : f64 → f64) (powf : f64 → f64 → f64) (debug : bool).

(** [InlineFilterSearch::search] *)
Definition inline_filter_search (fuel max_degree : nat) (params : Knn)
    (adaptive_l : option AdaptiveL) (accessor : result E A)
    (processor : PostProcess (I := I) (A := A) (E := E) (B := B))
    (pooled : option (SearchScratch I (NeighborPriorityQueue I))) (output : B) :
    option (B * result E SearchStats) :=
  match accessor with
  | Err e => Some (output, Err e)
  | Ok a =>
      match fa_num_starting_points a with
      | Err e => Some (output, Err e)
      | Ok num_starting_points =>
          let scratch := search_scratch pooled max_degree (k_l_value params) num_starting_points in
          '(a, _, _, r) ←
            inline_filter_search_internal log10 powf noop_record debug fuel params a scratch tt
              adaptive_l;
          match r with
          | Err e => Some (output, Err e)
          | Ok ret =>
              '(_, output, r) ←
                processor a (take (k_l_value params) (ir_matched_results ret)) output;
              match r with
              | Err e => Some (output, Err e)
              | Ok result_count =>
                  Some (output, Ok (mkSearchStats (ir_cmps ret) (ir_hops ret)
                                      (as_u32 result_count) false))
              end
          end
      end
  end.

End search.

(** ** Multihop filtered search *)

(** [multihop_filter_search::Ret] *)
Record MultihopRet (I : Type) `{Countable I} := mkMultihopRet {
  mr_cmps : Z;
  mr_hops : Z;
  mr_rejected_start_points : gset I;
}.
Arguments mkMultihopRet {I _ _} _ _ _.
Arguments mr_cmps {I _ _} _.
Arguments mr_hops {I _ _} _.
Arguments mr_rejected_start_points {I _ _} _.

Section multihop.
Context {I A E R : Type} `{FA : FilteredAccessor I A E} `{!UnstableSort I}.
Variables (record : R → Neighbor I → Z → Z → R) (debug : bool).

Local Abbreviation Scratch := (SearchScratch I (NeighborPriorityQueue I)).
Implicit Types s : Scratch.

(** The closure of [start_point_distances]. *)
Fixpoint multihop_init (calls : list (Decision I * f32)) s (rejected_start_points : gset I) :
    option (Scratch * gset I) :=
  match calls with
  | [] => Some (s, rejected_start_points)
  | (id, distance) :: calls =>
      let rejected_start_points :=
        if is_reject id then {[ into_inner id ]} ∪ rejected_start_points
        else rejected_start_points in
      best ← q_insert debug (s_best s) (mkNeighbor (into_inner id) distance);
      multihop_init calls
        (mkScratch best ({[ into_inner id ]} ∪ s_visited s) (s_id_scratch s) (s_beam_nodes s)
           (s_range_frontier s) (s_in_range s) (s_hops s) (s_cmps s)) rejected_start_points
  end.

(** The loop over the one-hop neighbors: accepted nodes are inserted, rejected ones kept for
    the second hop. *)
Fixpoint multihop_absorb (calls : list (Decision I * f32)) (best : NeighborPriorityQueue I)
    (candidates : list (Neighbor I)) :
    option (NeighborPriorityQueue I * list (Neighbor I)) :=
  match calls with
  | [] => Some (best, candidates)
  | (Accept id, distance) :: calls =>
      best ← q_insert debug best (mkNeighbor id distance);
      multihop_absorb calls best candidates
  | (Reject id, distance) :: calls =>
      multihop_absorb calls best (candidates ++ [mkNeighbor id distance])
  end.

(** The second half of an iteration: the expansion of rejected neighbors. *)
Definition second_hop (max_degree_with_slack : nat) (a : A) s (candidates : list (Neighbor I)) :
    option (A * Scratch * result E unit) :=
  let candidates := take (max_degree_with_slack / 2) (sort_unstable candidates) in
  let ids := nbr_id <$> candidates in
  let '(a, visited, two_hop, r) := expand_beam_accept_only a ids (s_visited s) in
  match r with
  | Err e =>
      Some (a, mkScratch (s_best s) visited (s_id_scratch s) (s_beam_nodes s)
                 (s_range_frontier s) (s_in_range s) (s_hops s) (s_cmps s), Err e)
  | Ok _ =>
      best ← insert_neighbors (NQ := priority_queue_ops debug) (s_best s) two_hop;
      cmps ← u32_add (s_cmps s) (as_u32 (length two_hop));
      hops ← u32_add (s_hops s) (as_u32 (length ids));
      Some (a, mkScratch best visited (s_id_scratch s) (s_beam_nodes s) (s_range_frontier s)
                 (s_in_range s) hops cmps, Ok tt)
  end.

(** The [while] loop *)
Fixpoint multihop_loop (fuel : nat) (max_degree_with_slack beam_width : nat) (a : A) s (rec : R) :
    option (A * Scratch * R * result E unit) :=
  if q_has_notvisited_node (s_best s) then
    let '(a, stop) := fa_terminate_early a in
    if (stop : bool) then Some (a, s, rec, Ok tt) else
    match fuel with
    | 0 => None
    | S fuel =>
        '(best, beam, rec) ←
          fill_beam (NQ := priority_queue_ops debug) record beam_width (s_best s) [] (s_hops s)
            (s_cmps s) rec;
        let '(a, visited, one_hop, r) := expand_beam_filtered a beam (s_visited s) in
        match r with
        | Err e =>
            Some (a, mkScratch best visited (s_id_scratch s) beam (s_range_frontier s)
                       (s_in_range s) (s_hops s) (s_cmps s), rec, Err e)
        | Ok _ =>
            '(best, candidates) ← multihop_absorb one_hop best [];
            cmps ← u32_add (s_cmps s) (as_u32 (length one_hop));
            hops ← u32_add (s_hops s) (as_u32 (length beam));
            '(a, s, r) ←
              second_hop max_degree_with_slack a
                (mkScratch best visited (s_id_scratch s) beam (s_range_frontier s)
                   (s_in_range s) hops cmps) candidates;
            match r with
            | Err e => Some (a, s, rec, Err e)
            | Ok _ => multihop_loop fuel max_degree_with_slack beam_width a s rec
            end
        end
    end
  else Some (a, s, rec, Ok tt).

(** [multihop_search_internal] *)
Definition multihop_search_internal (fuel max_degree_with_slack : nat) (params : Knn) (a : A) s
    (rec : R) : option (A * Scratch * R * result E (MultihopRet I)) :=
  let '(a, calls, r) := fa_start_point_distances a in
  '(s, rejected_start_points) ← multihop_init calls s ∅;
  match r with
  | Err e => Some (a, s, rec, Err e)
  | Ok _ =>
      '(a, s, rec, r) ←
        multihop_loop fuel max_degree_with_slack (k_beam_width params) a s rec;
      match r with
      | Err e => Some (a, s, rec, Err e)
      | Ok _ => Some (a, s, rec, Ok (mkMultihopRet (s_cmps s) (s_hops s) rejected_start_points))
      end
  end.

End multihop.

Section search.
Context {I A E B : Type} `{FA : FilteredAccessor I A E} `{!UnstableSort I}.
Variable (debug : bool).

(** [MultihopFilterSearch::search] *)
Definition multihop_filter_search (fuel max_degree : nat) (params : Knn) (accessor : result E A)
    (processor : PostProcess (I := I) (A := A) (E := E) (B := B))
    (pooled : option (SearchScratch I (NeighborPriorityQueue I))) (output : B) :
    option (B * result E SearchStats) :=
  match accessor with
  | Err e => Some (output, Err e)
  | Ok a =>
      match fa_num_starting_points a with
      | Err e => Some (output, Err e)
      | Ok num_starting_points =>
          let scratch := search_scratch pooled max_degree (k_l_value params) num_starting_points in
          '(a, scratch, _, r) ←
            multihop_search_internal noop_record debug fuel max_degree params a scratch tt;
          match r with
          | Err e => Some (output, Err e)
          | Ok ret =>
              candidates ← q_iter (s_best scratch);
              '(_, output, r) ←
                processor a
                  (take (k_l_value params)
                     (List.filter (λ n, negb (bool_decide (nbr_id n ∈ mr_rejected_start_points ret)))
                        candidates)) output;
              match r with
              | Err e => Some (output, Err e)
              | Ok result_count =>
                  Some (output, Ok (mkSearchStats (mr_cmps ret) (mr_hops ret)
                                      (as_u32 result_count) false))
              end
          end
      end
  end.

End search.

(** ** Theory: what both searches share *)

Lemma q_reconfigure_entries {I} (q : NeighborPriorityQueue I) l :
  q_entries (q_reconfigure q l) =
    if l <? q_size q then take l (q_entries q) else q_entries q.
Proof.
  unfold q_reconfigure. destruct (l <? q_size q); [|done].
  unfold q_entries. simpl. by rewrite zip_with_take.
Qed.

(** Resizing the queue keeps it usable and adds nothing to it. *)
Lemma q_reconfigure_ok {I} (q : NeighborPriorityQueue I) l :
  pq_ok q → 0 < l →
  pq_ok (q_reconfigure q l) ∧ q_pending (q_reconfigure q l) ≤ q_pending q ∧
  ∃ dropped, q_entries q = q_entries (q_reconfigure q l) ++ dropped.
Proof.
  intros [Hq [Hc1 Hc2] Hi] Hl.
  rewrite q_reconfigure_entries. unfold q_reconfigure. destruct (Nat.ltb_spec l (q_size q)) as [Hlt|Hge].
  2:{ split_and!; [|done|exists []; by rewrite app_nil_r]. destruct Hq.
      split; [by split|by split|right; simpl; lia]. }
  split_and!; [| |exists (drop l (q_entries q)); by rewrite take_drop].
  - destruct Hq as [H1 H2 H3 H4 H5]. split.
    + split; simpl; rewrite ?length_take, ?H1, ?H2; try lia; [by apply Forall_take|].
      by apply StronglySorted_take.
    + split; simpl; [lia|]. intros i Hlt'. unfold q_visiteds in *. simpl. rewrite fmap_take.
      rewrite lookup_take_lt by lia. apply Hc2. lia.
    + right. simpl. lia.
  - unfold q_pending, q_visiteds. simpl. rewrite fmap_take.
    set (v := (q_id_visiteds q).*2). assert (length v = q_size q) as Hv
      by (unfold v; rewrite length_fmap; apply Hq).
    assert (count_unvisited (take l v) ≤ count_unvisited v) as Hcnt.
    { rewrite <-(take_drop l v) at 2. rewrite count_unvisited_app. lia. }
    destruct (decide (q_cursor q < l)).
    + rewrite Nat.min_l, lookup_take_lt by lia. lia.
    + rewrite lookup_take_ge by lia. lia.
Qed.

Section shared.
Context {I A E : Type} `{Countable I} `{FA : !FilteredAccessor I A E}.
Context {dist : I → f32} {adj : I → list I} {nodes : gset I} {starts : list I}.
Context {matches : I → bool}.
Context `{FL : !FilteredAccessorLaws I A E dist adj nodes starts matches}.
Variable (debug : bool).
Variable rep : NeighborPriorityQueue I → list (Neighbor I) → Prop.

Local Abbreviation Scratch := (SearchScratch I (NeighborPriorityQueue I)).
Local Abbreviation finv := (filter_inv (adj := adj) (dist := dist) (nodes := nodes) (A := A) (E := E)
  debug rep).
Implicit Types (s : Scratch) (ins all : list (Neighbor I)).

(** The counters leave room for what is still to come. *)
Definition fbudget s : Prop :=
  (s_hops s + Z.of_nat (q_pending (s_best s) + remaining (nodes := nodes) (s_visited s))
     ≤ Z.of_nat (size nodes))%Z ∧
  (s_cmps s + Z.of_nat (remaining (nodes := nodes) (s_visited s)) ≤ Z.of_nat (size nodes))%Z.

(** [rep] is kept by insertions and by visits. *)
Definition kept_by_insert : Prop := ∀ q n q' ins,
  pq_ok q → nbr_id n ∉ nbr_id ∘ fst <$> q_entries q → nbr_id n ∉ nbr_id <$> ins →
  q_insert debug q n = Some q' → rep q ins → rep q' (n :: ins).
Definition kept_by_visit : Prop := ∀ q q' n ins,
  pq_ok q → q_closest_notvisited q = Some (q', Some n) → rep q ins → rep q' ins.

(** A queue without unvisited candidates gives an empty beam. *)
Lemma fill_beam_none {R} (record : R → Neighbor I → Z → Z → R) n (q : NeighborPriorityQueue I)
    beam hops cmps rec :
  q_has_notvisited_node q = false →
  fill_beam (NQ := priority_queue_ops debug) record n q beam hops cmps rec = Some (q, beam, rec).
Proof.
  intros Hh. destruct n as [|n]; [done|]. cbn [fill_beam].
  change (nq_closest_notvisited q) with (q_closest_notvisited q).
  unfold q_closest_notvisited. by rewrite Hh.
Qed.

(** What the expansion of a beam of candidates gives, in a queue where they are visited. *)
Record expansion s ins q1 (beam : list I) (vis' : gset I) (calls : list (Decision I * f32)) :
    Prop := {
  ex_queue : queue_inv (NQ := priority_queue_ops debug) (QL := priority_queue_laws debug)
    (λ q ins _, rep q ins) q1 ins tt;
  ex_decided : decided matches calls;
  ex_reports : reports dist adj beam (s_visited s) vis' (undecide calls);
  ex_nodes : vis' ⊆ nodes;
  ex_fresh : ∀ i, i ∈ (undecide calls).*1 → i ∉ nbr_id <$> ins;
  ex_remaining :
    length calls + remaining (nodes := nodes) vis' ≤ remaining (nodes := nodes) (s_visited s);
  ex_complete : filtered_complete I A E adj →
    ∀ i, i ∈ vis' → i ∈ s_visited s ∨ i ∈ (undecide calls).*1;
  ex_expanded : filtered_complete I A E adj →
    ∀ n j, (n, true) ∈ q_entries q1 → j ∈ adj (nbr_id n) → j ∈ vis';
}.

(** Filling the beam, when there are unvisited candidates, and expanding it. *)
Lemma filter_round n s ins all :
  kept_by_visit → finv s ins all → q_has_notvisited_node (s_best s) = true → 0 < n →
  ∃ q1 beam,
    fill_beam (NQ := priority_queue_ops debug) noop_record n (s_best s) [] (s_hops s) (s_cmps s) tt
      = Some (q1, beam, tt) ∧
    0 < length beam ∧ q_pending q1 + length beam ≤ q_pending (s_best s) ∧
    q_search_param_l q1 = q_search_param_l (s_best s) ∧
    ∀ a a' vis' calls, expand_beam_filtered a beam (s_visited s) = (a', vis', calls, Ok tt) →
      expansion s ins q1 beam vis' calls.
Proof.
  intros Hvis Hs Hh Hn.
  destruct (fill_beam_ok (NQ := priority_queue_ops debug) (QL := priority_queue_laws debug)
    noop_record (λ q ins _, rep q ins) (λ q q' n ins _ _ _, Hvis q q' n ins) n (s_best s) []
    (s_hops s) (s_cmps s) tt ins (fi_queue _ _ _ _ _ Hs))
    as (q1 & beam & [] & Hrun & Hq1 & _ & Hp1 & Hl1 & Htrue & Hbeam & Hpos).
  exists q1, beam. split_and!; [done|by apply Hpos|done|done|]. intros a a' vis' calls Hex.
  destruct (fa_filtered_law _ _ _ _ _ _ _ Hex) as [Hdec Hrep].
  assert (vis' ⊆ nodes) as Hnodes.
  { eapply reports_nodes; [exact Hs| |exact Hrep]. intros i Hi.
    eapply candidates_nodes; [exact Hs|by apply Hbeam]. }
  split; try done.
  - intros i Hi. by eapply reports_fresh.
  - rewrite <-length_undecide. by eapply reports_remaining.
  - intros [Hac _]. by apply (Hac _ _ _ _ _ _ Hex).
  - intros Hac m j Hin Hj. destruct (Htrue m Hin) as [Hin'|Hin'].
    + destruct Hrep as (_ & _ & _ & Hsub & _). by eapply Hsub, (fi_expanded _ _ _ _ _ Hs).
    + by eapply (proj1 (proj1 Hac _ _ _ _ _ _ Hex)).
Qed.

(** The first insertions, of the starting points. *)
Lemma filter_start s a a' calls r :
  finv s [] [] → s_visited s = ∅ → q_entries (s_best s) = [] →
  fa_start_point_distances a = (a', calls, r) →
  kept_by_insert → fbudget s →
  ∃ best', insert_neighbors (NQ := priority_queue_ops debug) (s_best s) (undecide calls) =
      Some best' ∧
    let s' := mkScratch best' (list_to_set (undecide calls).*1 ∪ s_visited s) (s_id_scratch s)
      (s_beam_nodes s) (s_range_frontier s) (s_in_range s) (s_hops s) (s_cmps s) in
    finv s' (reverse (to_nbrs (undecide calls)) ++ []) (reverse (to_nbrs (undecide calls)) ++ []) ∧
    fbudget s' ∧ q_search_param_l best' = q_search_param_l (s_best s) ∧
    (∀ n, n ∈ to_nbrs (undecide calls) → nbr_id n ∈ starts) ∧
    (r = Ok tt → ∀ i, i ∈ starts → i ∈ s_visited s').
Proof.
  intros Hs Hv He Hst Hins [Hb1 Hb2]. destruct (fa_start_law _ _ _ _ Hst) as (Hdec & Hd & Hnd & Hin & Hall).
  destruct (insert_neighbors_ok (NQ := priority_queue_ops debug) (QL := priority_queue_laws debug)
    (λ q ins _, rep q ins) (λ q n q' ins _, Hins q n q' ins) (undecide calls) tt (s_best s) [] (fi_queue _ _ _ _ _ Hs) Hnd)
    as (q1 & Hrun & Hq1 & Hp1 & Hl1 & Ht); [by intros i _ Hi%elem_of_nil|].
  set (vis' := list_to_set (undecide calls).*1 ∪ s_visited s).
  assert (∀ i, i ∈ vis' ↔ i ∈ (undecide calls).*1) as Hv'.
  { intros i. unfold vis'. rewrite Hv, elem_of_union, elem_of_list_to_set. set_solver. }
  assert (vis' ⊆ nodes) as Hn by (intros i Hi; by apply fa_starts_nodes, Hin, Hv').
  assert (length (undecide calls) + remaining (nodes := nodes) vis' ≤
    remaining (nodes := nodes) (s_visited s)) as Hrem.
  { rewrite <-(length_fmap fst). apply remaining_drop; [done|set_solver|].
    intros i Hi. rewrite Hv. apply Hv' in Hi. split_and!; [set_solver|done|by apply Hn]. }
  cbn in Hp1. exists q1. split; [done|]. cbn zeta. split_and!.
  - apply (filter_report _ _ s [] _ []); try done; try apply Hs.
    + intros n Hin'. rewrite app_nil_r, elem_of_reverse in Hin'. by right.
    + intros i Hi. rewrite Hv. split; [set_solver|by apply Hv'].
    + set_solver.
    + intros _ i Hi. right. by apply Hv'.
    + intros _ n j Hni. apply Ht in Hni. cbn in Hni. rewrite He in Hni. by apply elem_of_nil in Hni.
  - split; cbn [s_hops s_best s_visited s_cmps]; fold vis'; lia.
  - done.
  - intros n Hin'. apply Hin. rewrite <-to_nbrs_ids. apply list_elem_of_fmap. eauto.
  - intros Hr i Hi. apply Hv'. by apply Hall.
Qed.

End shared.

(** ** Theory: inline search *)

(** An adaptive L whose scale factor is at least one. *)
Definition adaptive_ok (al : option AdaptiveL) : Prop :=
  match al with Some al => f64_le f64_one (al_scale_factor al) = true | None => True end.

Lemma adapt_ok {I} `{Countable I} log10 powf al l sv sm (b : bool)
    (s : SearchScratch I (NeighborPriorityQueue I)) :
  adaptive_ok al →
  ∃ b' s', adapt log10 powf al l sv sm b s = Some (b', s') ∧
    (s' = s ∨ (al ≠ None ∧ ∃ new_l, l < new_l ∧ s' = scratch_resize s new_l)).
Proof.
  intros Hal. unfold adapt. destruct al as [al|]; [|by eexists _, _; auto].
  destruct (_ && _); [|by eexists _, _; auto].
  assert (∃ new_l, compute_adaptive_l log10 powf l sv sm (al_scale_factor al) = Some new_l)
    as [new_l ->].
  { unfold compute_adaptive_l, f64_clamp. simpl in Hal. rewrite Hal.
    destruct (_ || _); [by eexists|]. by eexists. }
  cbn [mbind option_bind]. eexists _, _. split; [done|].
  destruct (Z.ltb_spec (Z.of_nat l) new_l); [|by left]. right. split; [done|].
  exists (Z.to_nat new_l). split; [lia|done].
Qed.

Section inline_theory.
Context {I A E : Type} `{Countable I} `{FA : !FilteredAccessor I A E} `{!UnstableSort I}.
Context {dist : I → f32} {adj : I → list I} {nodes : gset I} {starts : list I}.
Context {matches : I → bool}.
Context `{FL : !FilteredAccessorLaws I A E dist adj nodes starts matches}.
Variables (log10 : f64 → f64) (powf : f64 → f64 → f64) (debug : bool).
Hypothesis nodes_u32 : (Z.of_nat (size nodes) < 2 ^ 32)%Z.

Local Abbreviation Scratch := (SearchScratch I (NeighborPriorityQueue I)).
Implicit Types (s : Scratch) (ins all matched : list (Neighbor I)).

Lemma inline_absorb_eq calls : ∀ q q' matched sv sm,
  insert_neighbors (NQ := priority_queue_ops debug) q (undecide calls) = Some q' →
  inline_absorb debug calls q matched sv sm =
    Some (q', matched ++ to_nbrs (accepted calls), sv + length calls,
          sm + length (accepted calls)).
Proof.
  induction calls as [|[d x] calls IH]; intros q q' matched sv sm Hins.
  { cbn in *. simplify_eq. by rewrite app_nil_r, !Nat.add_0_r. }
  unfold undecide in Hins. rewrite fmap_cons in Hins. cbn [insert_neighbors] in Hins.
  apply bind_Some in Hins as (q1 & Hq1 & Hins). cbn in Hq1.
  cbn [inline_absorb]. destruct d as [i|i]; cbn [into_inner] in *; rewrite Hq1;
    cbn [mbind option_bind]; rewrite (IH _ _ _ _ _ Hins); cbn [length].
  - unfold accepted. cbn [List.filter is_accept fst]. unfold undecide. rewrite !fmap_cons.
    cbn [length]. by rewrite <-(assoc_L (++)), <-!(Nat.add_assoc _ 1).
  - by rewrite <-(Nat.add_assoc _ 1).
Qed.

Lemma inline_init_eq calls : ∀ s matched best',
  insert_neighbors (NQ := priority_queue_ops debug) (s_best s) (undecide calls) = Some best' →
  inline_init debug calls s matched =
    Some (mkScratch best' (list_to_set (undecide calls).*1 ∪ s_visited s) (s_id_scratch s)
            (s_beam_nodes s) (s_range_frontier s) (s_in_range s) (s_hops s) (s_cmps s),
          matched ++ to_nbrs (accepted calls)).
Proof.
  induction calls as [|[d x] calls IH]; intros s matched best' Hins.
  { cbn in *. simplify_eq. rewrite app_nil_r, (left_id_L ∅ (∪)). by destruct s. }
  unfold undecide in Hins. rewrite fmap_cons in Hins. cbn [insert_neighbors] in Hins.
  apply bind_Some in Hins as (q1 & Hq1 & Hins). cbn in Hq1.
  cbn [inline_init]. rewrite Hq1. cbn [mbind option_bind]. erewrite IH; [|exact Hins].
  cbn [s_visited s_id_scratch s_beam_nodes s_range_frontier s_in_range s_hops s_cmps].
  change ((undecide ((d, x) :: calls)).*1) with (into_inner d :: (undecide calls).*1).
  rewrite list_to_set_cons, (assoc_L (∪)), (comm_L (∪) (list_to_set _)). do 2 f_equal.
  destruct d as [i|i]; [|done]. by rewrite <-(assoc_L (++)).
Qed.

(** The accepted nodes in the order in which they were reported. *)
Definition accepted_of all : list (Neighbor I) :=
  List.filter (λ n, matches (nbr_id n)) (reverse all).

Lemma accepted_of_report calls all :
  decided matches calls →
  accepted_of (reverse (to_nbrs (undecide calls)) ++ all) =
    accepted_of all ++ to_nbrs (accepted calls).
Proof.
  intros Hd. unfold accepted_of. rewrite reverse_app, reverse_involutive, List.filter_app.
  f_equal. rewrite (accepted_eq matches) by done. generalize (undecide calls).
  unfold to_nbrs. induction l as [|[i x] l IH]; [done|]. rewrite !fmap_cons.
  cbn [List.filter nbr_id fst]. destruct (matches i); [rewrite fmap_cons; f_equal|]; done.
Qed.

Variable rep : NeighborPriorityQueue I → list (Neighbor I) → Prop.
Hypothesis rep_insert : kept_by_insert debug rep.
Hypothesis rep_visit : kept_by_visit rep.
Variable adaptive_l : option AdaptiveL.
Hypothesis adaptive_l_ok : adaptive_ok adaptive_l.
Hypothesis rep_resize : adaptive_l ≠ None → ∀ q ins l, rep q ins → rep (q_reconfigure q l) ins.

Local Abbreviation finv := (filter_inv (adj := adj) (dist := dist) (nodes := nodes) (A := A) (E := E)
  debug rep).

(** Resizing the scratch keeps the invariant. *)
Lemma filter_resize s all l :
  adaptive_l ≠ None → 0 < l → finv s all all → fbudget (nodes := nodes) s →
  finv (scratch_resize s l) all all ∧ fbudget (nodes := nodes) (scratch_resize s l) ∧
  q_pending (s_best (scratch_resize s l)) ≤ q_pending (s_best s).
Proof.
  intros Ha Hl [[Hok Hrep [dr Hdr]] H1 H2 H3 H4 H5 H6 H7] [Hb1 Hb2].
  destruct (q_reconfigure_ok (s_best s) l Hok Hl) as (Hok' & Hp & dr' & Hdr').
  unfold scratch_resize. split_and!; [|split; simpl; lia|done].
  split; try done; cbn [s_best].
  - split; [done|by apply rep_resize|]. exists (dr'.*1 ++ dr). cbn in Hdr.
    by rewrite Hdr, Hdr', fmap_app, (assoc_L (++)).
  - intros Hac n j Hn. apply H6; [done|]. rewrite Hdr', elem_of_app. by left.
Qed.

(** The outcome of the loop. *)
Definition inline_post s s' (r : result E (list (Neighbor I))) : Prop :=
  match r with
  | Err e => filtered_error I A E e
  | Ok matched => ∃ all, finv s' all all ∧ matched = accepted_of all ∧
      fbudget (nodes := nodes) s' ∧ s_visited s ⊆ s_visited s' ∧
      (fa_never_terminates I A E → q_has_notvisited_node (s_best s') = false) ∧
      (adaptive_l = None → q_search_param_l (s_best s') = q_search_param_l (s_best s))
  end.

(** A round of the loop, up to the adaptation of the queue. *)
Lemma inline_step s all q1 beam vis' calls sv sm :
  finv s all all → fbudget (nodes := nodes) s → q_pending q1 + length beam ≤ q_pending (s_best s) →
  expansion (adj := adj) (dist := dist) (nodes := nodes) (A := A) (E := E) (matches := matches)
    debug rep s all q1 beam vis' calls →
  ∃ q2 cmps hops,
    let s1 := mkScratch q2 vis' (s_id_scratch s) beam (s_range_frontier s) (s_in_range s)
                hops cmps in
    let all' := reverse (to_nbrs (undecide calls)) ++ all in
    inline_absorb debug calls q1 (accepted_of all) sv sm =
      Some (q2, accepted_of all', sv + length calls, sm + length (accepted calls)) ∧
    u32_add (s_cmps s) (as_u32 (length calls)) = Some cmps ∧
    u32_add (s_hops s) (as_u32 (length beam)) = Some hops ∧
    finv s1 all' all' ∧ fbudget (nodes := nodes) s1 ∧
    q_pending q2 + remaining (nodes := nodes) vis' + length beam ≤
      q_pending (s_best s) + remaining (nodes := nodes) (s_visited s) ∧
    q_search_param_l q2 = q_search_param_l q1.
Proof.
  intros Hs [Hb1 Hb2] Hp1 [Hq1 Hdec Hrp Hn Hfresh Hrem Hcomp Hexp].
  pose proof Hrp as (Hd & Hnd & Hnew & Hsub & _).
  destruct (insert_neighbors_ok (NQ := priority_queue_ops debug) (QL := priority_queue_laws debug)
    (λ q ins _, rep q ins) (λ q n q' ins _, rep_insert q n q' ins) (undecide calls) tt q1 all Hq1 Hnd
    Hfresh) as (q2 & Hins & Hq2 & Hp2 & Hl2 & Ht2).
  cbn in Hp2, Ht2, Hl2. rewrite length_undecide in Hp2.
  destruct (fi_counters _ _ _ _ _ Hs) as [Hh0 Hc0].
  eexists q2, _, _. cbn zeta. split_and!.
  - rewrite (inline_absorb_eq _ _ _ _ _ _ Hins). by rewrite accepted_of_report.
  - rewrite as_u32_small by lia. apply u32_add_ok. lia.
  - rewrite as_u32_small by lia. apply u32_add_ok. lia.
  - apply (filter_report _ _ s all); try done; try lia; eauto.
    intros n [Hn'|Hn']%elem_of_app; [right; by apply elem_of_reverse|by left].
  - split; cbn [s_hops s_best s_visited s_cmps]; lia.
  - lia.
  - done.
Qed.

Lemma inline_loop_ok fuel : ∀ beam_width l a s all sv sm b,
  0 < beam_width → finv s all all → fbudget (nodes := nodes) s →
  q_pending (s_best s) + remaining (nodes := nodes) (s_visited s) ≤ fuel →
  ∃ a' s' r,
    inline_loop log10 powf noop_record debug fuel beam_width l adaptive_l a s tt (accepted_of all)
      sv sm b = Some (a', s', tt, r) ∧ inline_post s s' r.
Proof.
  induction fuel as [|fuel IH]; intros bw l a s all sv sm b Hbw Hs Hb Hf; cbn [inline_loop];
    destruct (fa_terminate_early a) as [a1 stop] eqn:Ht;
    (destruct stop; [eexists _, _, _; split; [done|]; exists all; split_and!; try done;
       intros Hne; specialize (Hne a); by rewrite Ht in Hne|]);
    (destruct (q_has_notvisited_node (s_best s)) eqn:Hh;
     [|rewrite fill_beam_none by done; cbn [mbind option_bind]; eexists _, _, _; split; [done|];
       exists all; destruct Hs; by split_and!]);
    destruct (filter_round (matches := matches) debug rep bw s all all rep_visit Hs Hh Hbw)
      as (q1 & beam & -> & Hpos & Hp1 & Hl1 & Hround); cbn [mbind option_bind].
  { lia. }
  destruct beam as [|b0 beam']; [simpl in Hpos; lia|]. set (beam := b0 :: beam') in *.
  cbn [s_visited s_id_scratch s_range_frontier s_in_range s_hops s_cmps].
  destruct (expand_beam_filtered a1 beam (s_visited s)) as [[[a2 vis'] calls] [[]|e]] eqn:Hex;
    [|by failed].
  pose proof (ex_reports _ _ _ _ _ _ _ _ (Hround _ _ _ _ Hex)) as (_ & _ & _ & Hsub & _).
  destruct (inline_step s all q1 beam vis' calls sv sm Hs Hb Hp1 (Hround _ _ _ _ Hex))
    as (q2 & cmps & hops & -> & Hc & Hh' & Hs1 & Hb1 & Hp2 & Hl2).
  cbn [mbind option_bind]. rewrite Hc, Hh'. cbn [mbind option_bind]. set (s1 := mkScratch q2 _ _ _ _ _ _ _) in *.
  destruct (adapt_ok log10 powf adaptive_l l (sv + length calls) (sm + length (accepted calls)) b s1
    adaptive_l_ok) as (b' & s2 & -> & Hs2). cbn [mbind option_bind].
  set (all' := reverse (to_nbrs (undecide calls)) ++ all) in *.
  assert (finv s2 all' all' ∧ fbudget (nodes := nodes) s2 ∧
    q_pending (s_best s2) ≤ q_pending q2 ∧ s_visited s2 = vis' ∧
    (adaptive_l = None → q_search_param_l (s_best s2) = q_search_param_l q2))
    as (Hs2' & Hb2' & Hp2' & Hv2 & Hl2').
  { destruct Hs2 as [->|(Ha & new_l & Hl & ->)]; [done|].
    destruct (filter_resize s1 _ new_l Ha ltac:(lia) Hs1 Hb1) as (? & ? & ?). by split_and!. }
  destruct (IH bw l a2 s2 _ (sv + length calls) (sm + length (accepted calls)) b' Hbw Hs2' Hb2')
    as (a' & s' & r & -> & Hpost); [rewrite Hv2; lia|].
  eexists _, _, _. split; [done|]. destruct r as [m|e]; [|done].
  destruct Hpost as (all2 & P1 & P2 & P3 & P4 & P5 & P6). exists all2. split_and!; try done.
  - rewrite Hv2 in P4. by trans vis'.
  - intros Ha. by rewrite (P6 Ha), (Hl2' Ha), Hl2.
Qed.

(** The whole search, on a scratch that was not used yet. *)
Lemma inline_internal_ok fuel params a p :
  0 < k_beam_width params → 0 < p_l_value p + p_num_frozen p → size nodes ≤ fuel →
  rep (q_new (p_l_value p + p_num_frozen p)) [] →
  ∃ a' s' r,
    inline_filter_search_internal log10 powf noop_record debug fuel params a (scratch_create p) tt
      adaptive_l = Some (a', s', tt, r) ∧
    match r with
    | Err e => filtered_error I A E e
    | Ok ret => ∃ all, finv s' all all ∧ fbudget (nodes := nodes) s' ∧
        ret = mkInlineRet (s_cmps s') (s_hops s') (sort_unstable (accepted_of all)) ∧
        (∀ i, i ∈ starts → i ∈ s_visited s') ∧
        (fa_never_terminates I A E → q_has_notvisited_node (s_best s') = false) ∧
        (adaptive_l = None → q_search_param_l (s_best s') = p_l_value p + p_num_frozen p)
    end.
Proof.
  intros Hbw Hp Hf Hr. unfold inline_filter_search_internal. set (s := scratch_create p).
  assert (finv s [] []) as Hs.
  { apply filter_inv_fresh; try done. split; [by apply pq_ok_new|done|by exists []]. }
  assert (remaining (nodes := nodes) (s_visited s) = size nodes) as Hrem
    by (unfold remaining, s; cbn; f_equal; set_solver).
  assert (fbudget (nodes := nodes) s) as Hb by (split; rewrite Hrem; cbn; lia).
  destruct (fa_start_point_distances a) as [[a1 calls] r] eqn:Hst.
  destruct (filter_start (starts := starts) (matches := matches) debug rep s a a1 calls r Hs
    eq_refl eq_refl Hst rep_insert Hb) as (best' & Hins & Hs1 & Hb1 & Hl & _ & Hall).
  rewrite (inline_init_eq _ _ _ _ Hins). cbn [mbind option_bind].
  set (s1 := mkScratch best' _ _ _ _ _ _ _) in *.
  destruct r as [[]|e]; [|by failed].
  destruct (fa_start_law _ _ _ _ Hst) as (Hdec & _).
  replace ([] ++ to_nbrs (accepted calls))
    with (accepted_of (reverse (to_nbrs (undecide calls)) ++ []))
    by (by rewrite accepted_of_report).
  destruct (inline_loop_ok fuel (k_beam_width params) (k_l_value params) a1 s1 _ 0 0 false Hbw Hs1 Hb1)
    as (a' & s' & r & -> & Hpost).
  { destruct Hb1 as [Hb1 _]. cbn in Hb1 |- *. lia. }
  cbn [mbind option_bind]. destruct r as [m|e]; [|by failed].
  destruct Hpost as (all & P1 & -> & P3 & P4 & P5 & P6). eexists _, _, _. split; [done|].
  exists all. split_and!; try done.
  - intros i Hi. apply P4. by apply Hall.
  - intros Ha. by rewrite (P6 Ha).
Qed.

End inline_theory.

(** ** Theory: multihop search *)

Section multihop_theory.
Context {I A E : Type} `{Countable I} `{FA : !FilteredAccessor I A E} `{!UnstableSort I}.
Context {dist : I → f32} {adj : I → list I} {nodes : gset I} {starts : list I}.
Context {matches : I → bool}.
Context `{FL : !FilteredAccessorLaws I A E dist adj nodes starts matches}.
Variable (debug : bool).
Hypothesis nodes_u32 : (Z.of_nat (size nodes) < 2 ^ 32)%Z.

Local Abbreviation Scratch := (SearchScratch I (NeighborPriorityQueue I)).
Implicit Types (s : Scratch) (ins all : list (Neighbor I)).

Lemma multihop_absorb_eq (calls : list (Decision I * f32)) : ∀ q q' cands,
  insert_neighbors (NQ := priority_queue_ops debug) q (accepted calls) = Some q' →
  multihop_absorb debug calls q cands = Some (q', cands ++ to_nbrs (rejected calls)).
Proof.
  induction calls as [|[[i|i] x] calls IH]; intros q q' cands Hins.
  - cbn in *. simplify_eq. by rewrite app_nil_r.
  - change (accepted ((Accept i, x) :: calls)) with ((i, x) :: accepted calls) in Hins.
    cbn [insert_neighbors] in Hins. apply bind_Some in Hins as (q1 & Hq1 & Hins). cbn in Hq1.
    cbn [multihop_absorb]. rewrite Hq1. cbn [mbind option_bind]. by apply IH.
  - change (accepted ((Reject i, x) :: calls)) with (accepted calls) in Hins.
    cbn [multihop_absorb]. rewrite (IH _ _ _ Hins). by rewrite <-(assoc_L (++)).
Qed.

Lemma multihop_init_eq (calls : list (Decision I * f32)) : ∀ s rej best',
  insert_neighbors (NQ := priority_queue_ops debug) (s_best s) (undecide calls) = Some best' →
  multihop_init debug calls s rej =
    Some (mkScratch best' (list_to_set (undecide calls).*1 ∪ s_visited s) (s_id_scratch s)
            (s_beam_nodes s) (s_range_frontier s) (s_in_range s) (s_hops s) (s_cmps s),
          list_to_set (rejected calls).*1 ∪ rej).
Proof.
  induction calls as [|[d x] calls IH]; intros s rej best' Hins.
  { cbn in *. simplify_eq. rewrite !(left_id_L ∅ (∪)). by destruct s. }
  unfold undecide in Hins. rewrite fmap_cons in Hins. cbn [insert_neighbors] in Hins.
  apply bind_Some in Hins as (q1 & Hq1 & Hins). cbn in Hq1.
  cbn [multihop_init]. rewrite Hq1. cbn [mbind option_bind]. erewrite IH; [|exact Hins].
  cbn [s_visited s_id_scratch s_beam_nodes s_range_frontier s_in_range s_hops s_cmps].
  change ((undecide ((d, x) :: calls)).*1) with (into_inner d :: (undecide calls).*1).
  rewrite list_to_set_cons, (assoc_L (∪)), (comm_L (∪) (list_to_set _)). do 2 f_equal.
  destruct d as [i|i]; cbn [is_reject into_inner]; [done|].
  change ((rejected ((Reject i, x) :: calls)).*1) with (i :: (rejected calls).*1).
  by rewrite list_to_set_cons, (assoc_L (∪)), (comm_L (∪) (list_to_set _)).
Qed.

Variable rep : NeighborPriorityQueue I → list (Neighbor I) → Prop.
Hypothesis rep_insert : kept_by_insert debug rep.
Hypothesis rep_visit : kept_by_visit rep.

Local Abbreviation finv := (filter_inv (adj := adj) (dist := dist) (nodes := nodes) (A := A) (E := E)
  debug rep).

(** The candidates are the accepted nodes and the starting points that were reported. *)
Definition relevant (n : Neighbor I) : Prop := matches (nbr_id n) = true ∨ nbr_id n ∈ starts.

Record multihop_inv s ins all : Prop := {
  mi_inv : finv s ins all;
  mi_relevant : ∀ n, n ∈ ins ↔ n ∈ all ∧ relevant n;
  mi_nodup : NoDup (nbr_id <$> ins);
  mi_starts : ∀ i, i ∈ starts → i ∈ s_visited s;
}.

Definition moves s ins all s' : Prop :=
  (∃ ins' all', multihop_inv s' ins' all') ∧ fbudget (nodes := nodes) s' ∧
  q_pending (s_best s') + remaining (nodes := nodes) (s_visited s') ≤
    q_pending (s_best s) + remaining (nodes := nodes) (s_visited s) ∧
  q_search_param_l (s_best s') = q_search_param_l (s_best s).

Lemma nodup_report calls ins :
  NoDup calls.*1 → (∀ i, i ∈ calls.*1 → i ∉ nbr_id <$> ins) → NoDup (nbr_id <$> ins) →
  NoDup (nbr_id <$> reverse (to_nbrs calls) ++ ins).
Proof.
  intros Hnd Hnew Hins. rewrite fmap_app, fmap_reverse, to_nbrs_ids. apply NoDup_app.
  split_and!; [by rewrite reverse_Permutation| |done].
  intros i Hi. rewrite elem_of_reverse in Hi. by apply Hnew.
Qed.

(** The first hop of a round. *)
Lemma first_hop_ok s ins all q1 beam vis' calls :
  multihop_inv s ins all → fbudget (nodes := nodes) s →
  q_pending q1 + length beam ≤ q_pending (s_best s) →
  expansion (adj := adj) (dist := dist) (nodes := nodes) (A := A) (E := E) (matches := matches)
    debug rep s ins q1 beam vis' calls →
  ∃ q2 cmps hops,
    let s1 := mkScratch q2 vis' (s_id_scratch s) beam (s_range_frontier s) (s_in_range s)
                hops cmps in
    multihop_absorb debug calls q1 [] = Some (q2, to_nbrs (rejected calls)) ∧
    u32_add (s_cmps s) (as_u32 (length calls)) = Some cmps ∧
    u32_add (s_hops s) (as_u32 (length beam)) = Some hops ∧
    (∃ ins' all', multihop_inv s1 ins' all') ∧
    (hops + Z.of_nat (length (rejected calls) + q_pending q2 + remaining (nodes := nodes) vis')
       ≤ Z.of_nat (size nodes))%Z ∧
    (cmps + Z.of_nat (remaining (nodes := nodes) vis') ≤ Z.of_nat (size nodes))%Z ∧
    length beam + q_pending q2 + remaining (nodes := nodes) vis' ≤
      q_pending (s_best s) + remaining (nodes := nodes) (s_visited s) ∧
    (∀ n, n ∈ to_nbrs (rejected calls) → nbr_id n ∈ nodes) ∧
    q_search_param_l q2 = q_search_param_l q1.
Proof.
  intros [Hs Hrel Hins0 Hst] [Hb1 Hb2] Hp1 [Hq1 Hdec Hrp Hn Hfresh Hrem Hcomp Hexp].
  pose proof Hrp as (Hd & Hnd & Hnew & Hsub & _).
  pose proof (accepted_sublist calls) as Hacc. apply (sublist_fmap fst) in Hacc as Hacc1.
  destruct (insert_neighbors_ok (NQ := priority_queue_ops debug) (QL := priority_queue_laws debug)
    (λ q ins _, rep q ins) (λ q n q' ins _, rep_insert q n q' ins) (accepted calls) tt q1 ins Hq1)
    as (q2 & Hins & Hq2 & Hp2 & Hl2 & Ht2).
  { by eapply sublist_NoDup. }
  { intros i Hi. apply Hfresh. by eapply elem_of_sublist. }
  cbn in Hp2, Ht2, Hl2. destruct (fi_counters _ _ _ _ _ Hs) as [Hh0 Hc0].
  assert (length calls = length (accepted calls) + length (rejected calls)) as Hlen.
  { by rewrite <-length_app, <-undecide_split, length_undecide. }
  assert (∀ n, n ∈ to_nbrs (undecide calls) ↔
    n ∈ to_nbrs (accepted calls) ∨ n ∈ to_nbrs (rejected calls)) as Hsplit.
  { intros n. unfold to_nbrs. by rewrite (undecide_split calls), fmap_app, elem_of_app. }
  eexists q2, _, _. cbn zeta. split_and!.
  - by rewrite (multihop_absorb_eq _ _ _ _ Hins).
  - rewrite as_u32_small by lia. apply u32_add_ok. lia.
  - rewrite as_u32_small by lia. apply u32_add_ok. lia.
  - exists (reverse (to_nbrs (accepted calls)) ++ ins), (reverse (to_nbrs (undecide calls)) ++ all).
    split; [apply (filter_report _ _ s ins); try done; try lia; eauto| | |by intros i Hi; apply Hsub, Hst].
    + intros n [Hn'|Hn']%elem_of_app; [right|by left]. apply Hsplit. left. by apply elem_of_reverse.
    + intros n. rewrite !elem_of_app, !elem_of_reverse, Hrel, Hsplit. split.
      * intros [Ha|[? ?]]; [|by auto]. split; [by auto|left].
        apply list_elem_of_fmap in Ha as (c & -> & Hc). by eapply accepted_match.
      * intros [[[Ha|Hr]|?] Hre]; [by left| |by right]. exfalso.
        assert (nbr_id n ∈ (undecide calls).*1) as Hin.
        { rewrite <-to_nbrs_ids. apply list_elem_of_fmap. exists n. split; [done|]. apply Hsplit. auto. }
        destruct Hre as [Hm|Hm]; [|by apply (Hnew _ Hin), Hst].
        apply list_elem_of_fmap in Hr as (c & -> & Hc).
        apply (rejected_match matches) in Hc; [|done]. simpl in Hm. congruence.
    + apply nodup_report; [by eapply sublist_NoDup| |done].
      intros i Hi. apply Hfresh. by eapply elem_of_sublist.
  - lia.
  - lia.
  - lia.
  - intros n Hr. apply Hn, Hnew. rewrite <-to_nbrs_ids. apply list_elem_of_fmap. exists n.
    split; [done|]. apply Hsplit. auto.
  - done.
Qed.

(** The second hop. *)
Lemma second_hop_ok md a s ins all cands :
  multihop_inv s ins all → (∀ n, n ∈ cands → nbr_id n ∈ nodes) →
  (s_hops s + Z.of_nat (length cands + q_pending (s_best s) +
     remaining (nodes := nodes) (s_visited s)) ≤ Z.of_nat (size nodes))%Z →
  (s_cmps s + Z.of_nat (remaining (nodes := nodes) (s_visited s)) ≤ Z.of_nat (size nodes))%Z →
  ∃ a' s' r, second_hop debug md a s cands = Some (a', s', r) ∧
    match r with Err e => filtered_error I A E e | Ok _ => moves s ins all s' end.
Proof.
  intros [Hs Hrel Hins0 Hst] Hcn Hb1 Hb2. unfold second_hop.
  set (ids := nbr_id <$> take (md / 2) (sort_unstable cands)).
  assert (length ids ≤ length cands) as Hlen.
  { unfold ids. rewrite length_fmap, length_take, sort_perm. lia. }
  assert (∀ i, i ∈ ids → i ∈ nodes) as Hids.
  { intros i Hi. apply list_elem_of_fmap in Hi as (n & -> & Hn). apply Hcn.
    rewrite <-(sort_perm cands). eapply elem_of_sublist; [apply sublist_take|done]. }
  destruct (expand_beam_accept_only a ids (s_visited s)) as [[[a' vis'] calls] [[]|e]] eqn:Hex;
    [|by failed].
  destruct (fa_accept_law _ _ _ _ _ _ _ Hex) as [Hdec Hrp]. rewrite Forall_forall in Hdec.
  assert (vis' ⊆ nodes) as Hn by (by eapply reports_nodes).
  pose proof (reports_remaining _ _ _ _ Hrp Hn) as Hrem. pose proof Hrp as (Hd & Hnd & Hnew & Hsub & _).
  destruct (insert_neighbors_ok (NQ := priority_queue_ops debug) (QL := priority_queue_laws debug)
    (λ q ins _, rep q ins) (λ q n q' ins _, rep_insert q n q' ins) calls tt (s_best s) ins
    (fi_queue _ _ _ _ _ Hs) Hnd) as (q2 & -> & Hq2 & Hp2 & Hl2 & Ht2).
  { intros i Hi. by eapply reports_fresh. }
  cbn [mbind option_bind]. cbn in Hp2, Ht2, Hl2. destruct (fi_counters _ _ _ _ _ Hs) as [Hh0 Hc0].
  rewrite !as_u32_small by lia. rewrite !u32_add_ok by lia. cbn [mbind option_bind].
  eexists _, _, _. split; [done|]. split_and!; cbn [s_best s_visited]; [|split; cbn [s_hops s_best s_visited s_cmps]; lia|lia|done].
  exists (reverse (to_nbrs calls) ++ ins), (reverse (to_nbrs calls) ++ all). split.
  - apply (filter_report _ _ s ins); try done; try lia.
    + intros n [Hn'|Hn']%elem_of_app; [right; by apply elem_of_reverse|by left].
    + intros [_ Hac]. by apply (Hac _ _ _ _ _ _ Hex).
    + intros Hac n j Hin Hj. by eapply Hsub, (fi_expanded _ _ _ _ _ Hs), Hj; [|apply Ht2].
  - intros n. rewrite !elem_of_app, !elem_of_reverse, Hrel. split.
    + intros [Ha|[? ?]]; [|by auto]. split; [by auto|left].
      apply list_elem_of_fmap in Ha as (c & -> & Hc). by apply Hdec.
    + intros [[?|?] ?]; auto.
  - apply nodup_report; [done| |done]. intros i Hi. by eapply reports_fresh.
  - intros i Hi. by apply Hsub, Hst.
Qed.

(** The outcome of the loop. *)
Definition multihop_post s s' (r : result E unit) : Prop :=
  match r with
  | Err e => filtered_error I A E e
  | Ok _ => (∃ ins all, multihop_inv s' ins all) ∧ fbudget (nodes := nodes) s' ∧
      (fa_never_terminates I A E → q_has_notvisited_node (s_best s') = false) ∧
      q_search_param_l (s_best s') = q_search_param_l (s_best s)
  end.

Lemma multihop_loop_ok fuel : ∀ md beam_width a s ins all,
  0 < beam_width → multihop_inv s ins all → fbudget (nodes := nodes) s →
  q_pending (s_best s) + remaining (nodes := nodes) (s_visited s) ≤ fuel →
  ∃ a' s' r, multihop_loop noop_record debug fuel md beam_width a s tt = Some (a', s', tt, r) ∧
    multihop_post s s' r.
Proof.
  induction fuel as [|fuel IH]; intros md bw a s ins all Hbw Hs Hb Hf; cbn [multihop_loop];
    (destruct (q_has_notvisited_node (s_best s)) eqn:Hh;
     [|eexists _, _, _; split; [done|]; by split_and!; eauto]);
    destruct (fa_terminate_early a) as [a1 stop] eqn:Ht;
    (destruct stop; [eexists _, _, _; split; [done|]; split_and!; eauto;
       intros Hne; specialize (Hne a); by rewrite Ht in Hne|]);
    destruct (filter_round (matches := matches) debug rep bw s ins all rep_visit (mi_inv _ _ _ Hs) Hh
      Hbw) as (q1 & beam & Hfill & Hpos & Hp1 & Hl1 & Hround).
  { lia. }
  rewrite Hfill. cbn [mbind option_bind].
  destruct (expand_beam_filtered a1 beam (s_visited s)) as [[[a2 vis'] calls] [[]|e]] eqn:Hex;
    [|by failed].
  destruct (first_hop_ok s ins all q1 beam vis' calls Hs Hb Hp1 (Hround _ _ _ _ Hex))
    as (q2 & cmps & hops & -> & Hc & Hh' & (ins1 & all1 & Hs1) & Hb1 & Hb2 & Hp2 & Hcn & Hl2).
  cbn [mbind option_bind]. rewrite Hc, Hh'. cbn [mbind option_bind].
  set (s1 := mkScratch q2 _ _ _ _ _ _ _) in *.
  destruct (second_hop_ok md a2 s1 ins1 all1 (to_nbrs (rejected calls)) Hs1 Hcn)
    as (a3 & s2 & r & -> & Hs2); [unfold to_nbrs; rewrite length_fmap; exact Hb1|exact Hb2|].
  cbn [mbind option_bind]. destruct r as [[]|e]; [|by failed].
  destruct Hs2 as ((ins2 & all2 & Hs2) & Hb' & Hp3 & Hl3). cbn [s1 s_best s_visited] in Hp3, Hl3.
  destruct (IH md bw a3 s2 ins2 all2 Hbw Hs2 Hb') as (a' & s' & r & -> & Hpost); [lia|].
  eexists _, _, _. split; [done|]. destruct r as [m|e]; [|done].
  destruct Hpost as (P1 & P2 & P3 & P4). split_and!; try done. by rewrite P4, Hl3, Hl2.
Qed.

(** The whole search, on a scratch that was not used yet. *)
Lemma multihop_internal_ok fuel md params a p :
  0 < k_beam_width params → 0 < p_l_value p + p_num_frozen p → size nodes ≤ fuel →
  rep (q_new (p_l_value p + p_num_frozen p)) [] →
  ∃ a' s' r,
    multihop_search_internal noop_record debug fuel md params a (scratch_create p) tt =
      Some (a', s', tt, r) ∧
    match r with
    | Err e => filtered_error I A E e
    | Ok ret => ∃ ins all, multihop_inv s' ins all ∧
        mr_cmps ret = s_cmps s' ∧ mr_hops ret = s_hops s' ∧
        (∀ i, i ∈ mr_rejected_start_points ret ↔ i ∈ starts ∧ matches i = false) ∧
        (fa_never_terminates I A E → q_has_notvisited_node (s_best s') = false) ∧
        q_search_param_l (s_best s') = p_l_value p + p_num_frozen p
    end.
Proof.
  intros Hbw Hp Hf Hr. unfold multihop_search_internal. set (s := scratch_create p).
  assert (finv s [] []) as Hs.
  { apply filter_inv_fresh; try done. split; [by apply pq_ok_new|done|by exists []]. }
  assert (remaining (nodes := nodes) (s_visited s) = size nodes) as Hrem
    by (unfold remaining, s; cbn; f_equal; set_solver).
  assert (fbudget (nodes := nodes) s) as Hb by (split; rewrite Hrem; cbn; lia).
  destruct (fa_start_point_distances a) as [[a1 calls] r] eqn:Hst.
  destruct (filter_start (starts := starts) (matches := matches) debug rep s a a1 calls r Hs
    eq_refl eq_refl Hst rep_insert Hb) as (best' & Hins & Hs1 & Hb1 & Hl & Hin & Hall).
  rewrite (multihop_init_eq _ _ _ _ Hins). cbn [mbind option_bind].
  set (s1 := mkScratch best' _ _ _ _ _ _ _) in *.
  destruct r as [[]|e]; [|by failed].
  destruct (fa_start_law _ _ _ _ Hst) as (Hdec & _ & Hnd & Hsub & Hall').
  assert (multihop_inv s1 (reverse (to_nbrs (undecide calls)) ++ [])
    (reverse (to_nbrs (undecide calls)) ++ [])) as Hm1.
  { split; [done| |apply Hs1|by intros i Hi; apply Hall]. intros n. split; [|tauto]. intros Hn.
    split; [done|right]. apply Hin. by rewrite app_nil_r, elem_of_reverse in Hn. }
  destruct (multihop_loop_ok fuel md (k_beam_width params) a1 s1 _ _ Hbw Hm1 Hb1)
    as (a' & s' & r & -> & Hpost).
  { destruct Hb1 as [Hb1 _]. cbn in Hb1 |- *. lia. }
  cbn [mbind option_bind]. destruct r as [m|e]; [|by failed].
  destruct Hpost as ((ins & all & P1) & P2 & P3 & P4). eexists _, _, _. split; [done|].
  exists ins, all. cbn [mr_cmps mr_hops mr_rejected_start_points]. split_and!; try done.
  - intros i. rewrite (right_id_L ∅ (∪)), elem_of_list_to_set. split.
    + intros Hi. split.
      * apply Hsub. rewrite (undecide_split calls), fmap_app, elem_of_app. by right.
      * apply list_elem_of_fmap in Hi as (c & -> & Hc). by eapply rejected_match.
    + intros [Hi Hm]. apply (Hall' eq_refl) in Hi.
      rewrite (undecide_split calls), fmap_app, elem_of_app in Hi. destruct Hi as [Hi|Hi]; [|done].
      apply list_elem_of_fmap in Hi as (c & -> & Hc). apply (accepted_match matches) in Hc; [|done].
      congruence.
  - by rewrite P4.
Qed.

End multihop_theory.

(** ** The properties *)

(** The first items of a sorted list are its closest. *)
Lemma take_sorted_closest {I} l (xs : list (Neighbor I)) :
  StronglySorted nbr_le xs → closest_of (length (take l xs) = l) (take l xs) xs.
Proof.
  intros Hs. exists (drop l xs). split; [by rewrite take_drop|]. intros y Hy. right.
  apply list_elem_of_lookup in Hy as [j Hj]. rewrite lookup_drop in Hj. split.
  - apply lookup_lt_Some in Hj. rewrite length_take. lia.
  - intros x Hx. apply elem_of_take in Hx as (i & Hi & Hlt).
    eapply (StronglySorted_lookup nbr_le xs i (l + j)); eauto. lia.
Qed.

Lemma take_sort_closest {I} `{!UnstableSort I} l (xs : list (Neighbor I)) :
  no_nan xs →
  closest_of (length (take l (sort_unstable xs)) = l) (take l (sort_unstable xs)) xs.
Proof.
  intros Hn. destruct (take_sorted_closest l _ (sort_sorted xs Hn)) as (dr & Hp & Hdr).
  exists dr. split; [by rewrite <-Hp, sort_perm|done].
Qed.

(** An adaptive L that its constructor returned for a factor that is not NaN. *)
Definition valid_adaptive (al : option AdaptiveL) : Prop :=
  match al with
  | Some al => adaptive_l_new (al_sample_count al) (al_scale_factor al) = Ok al ∧
      is_nan (al_scale_factor al) = false
  | None => True
  end.

Lemma valid_adaptive_ok al : valid_adaptive al → adaptive_ok al.
Proof.
  destruct al as [[n sf]|]; [|done]. simpl. unfold adaptive_l_new. intros [Hn Hnan].
  destruct (f64_lt sf f64_one) eqn:El; [done|]. by apply (f32_not_lt sf f64_one).
Qed.

Section correct.
Context {I A E B : Type} `{Countable I} `{FA : !FilteredAccessor I A E} `{!UnstableSort I}.
Context `{OB : !SearchOutputBuffer I B} `{OL : !SearchOutputBufferLaws I B}.
Context {dist : I → f32} {adj : I → list I} {nodes : gset I} {starts : list I}.
Context {matches : I → bool}.
Context `{FL : !FilteredAccessorLaws I A E dist adj nodes starts matches}.
Implicit Types (reached cands : list (Neighbor I)).

(** Distinct nodes with their distances. *)
Definition reached_nodes reached : Prop :=
  NoDup (nbr_id <$> reached) ∧
  ∀ n, n ∈ reached → nbr_id n ∈ nodes ∧ nbr_distance n = dist (nbr_id n).

(** The accepted ones. *)
Definition accepted_nodes reached : list (Neighbor I) :=
  List.filter (λ n, matches (nbr_id n)) reached.

(** [cands] are the closest of [all], and their neighbors were reached. *)
Definition settled (capacity : nat) cands (all reached : list (Neighbor I)) : Prop :=
  closest_of (length cands = capacity) cands all ∧
  ∀ n j, n ∈ cands → j ∈ adj (nbr_id n) → j ∈ nbr_id <$> reached.

Lemma filter_inv_reached debug rep s ins all :
  filter_inv (adj := adj) (dist := dist) (nodes := nodes) (A := A) (E := E) debug rep s ins all →
  reached_nodes all.
Proof.
  intros Hs. split; [apply Hs|]. intros n Hn. destruct (fi_ids _ _ _ _ _ Hs n Hn).
  split; [by apply (fi_nodes _ _ _ _ _ Hs)|done].
Qed.

(** When no candidate is left to expand, the candidates are settled. *)
Lemma filter_inv_settled debug cap s ins all :
  filter_inv (adj := adj) (dist := dist) (nodes := nodes) (A := A) (E := E) debug (closest_rep cap)
    s ins all →
  filtered_complete I A E adj → q_has_notvisited_node (s_best s) = false →
  q_search_param_l (s_best s) = cap →
  settled cap (q_contents (s_best s)) ins all.
Proof.
  intros Hs Hac Hh Hl. destruct (fi_queue _ _ _ _ _ Hs) as [Hok Hcl _].
  cbn in Hok. destruct (pq_visit_none _ Hok Hh) as [_ Hall].
  split; [by apply closest_rep_contents|].
  intros n j Hn Hj. apply (fi_complete _ _ _ _ _ Hs Hac), (fi_expanded _ _ _ _ _ Hs Hac n j); [|done].
  rewrite <-q_entries_contents in Hn. apply list_elem_of_fmap in Hn as ([m b] & -> & Hm).
  rewrite (closest_rep_take _ _ _ Hok Hcl Hl), Forall_forall in Hall.
  specialize (Hall _ Hm). simpl in Hall. by subst b.
Qed.

Lemma copy_ids_ok (a : A) candidates (output : B) :
  ob_ok output →
  let new := take_opt (room (ob_capacity output) (length (ob_view output))) candidates in
  ∃ output', copy_ids (E := E) a candidates output = Some (a, output', Ok (length new)) ∧
    ob_view output' = ob_view output ++ new.
Proof.
  intros Hb. unfold copy_ids. destruct (ob_extend_law output candidates Hb) as (b' & He & _ & _ & Hv).
  rewrite He. by exists b'.
Qed.

(** C20: inline filtered search returns only nodes that the filter accepts.  It always returns,
    with or without adaptive L, and writes, as far as there is room, at most [l] results: the
    closest of the accepted nodes that it reached, in order of their distance.  Without
    adaptive L, on an accessor that drops nothing and does not stop early, its candidates are
    the closest nodes it reached, accepted or not, and all their neighbors were reached, so no
    accepted neighbor of a candidate is missed.  It fails only with an error of the accessor and
    has then written nothing. *)
Theorem inline_filter_search_correct (log10 : f64 → f64) (powf : f64 → f64 → f64) (debug : bool)
    (fuel max_degree : nat) (params : Knn) (l : nat) (bw : option nat)
    (adaptive_l : option AdaptiveL) (a : A) pooled (output : B) :
  knn_new l bw = Ok params → valid_adaptive adaptive_l → ob_ok output →
  (Z.of_nat (size nodes) < 2 ^ 32)%Z → size nodes ≤ fuel →
  (∀ i, i ∈ nodes → is_nan (dist i) = false) →
  ∃ output' r,
    inline_filter_search log10 powf debug fuel max_degree params adaptive_l (Ok a) copy_ids pooled
      output = Some (output', r) ∧
    match r with
    | Err e => filtered_error I A E e ∧ ob_view output' = ob_view output
    | Ok stats => ∃ reached results,
        let new := take_opt (room (ob_capacity output) (length (ob_view output))) results in
        ob_view output' = ob_view output ++ new ∧ ss_result_count stats = as_u32 (length new) ∧
        reached_nodes reached ∧ StronglySorted nbr_le results ∧
        closest_of (length results = k_l_value params) results (accepted_nodes reached) ∧
        (filtered_complete I A E adj → fa_never_terminates I A E → adaptive_l = None →
         (∀ i, i ∈ starts → i ∈ nbr_id <$> reached) ∧
         ∃ cands, settled (k_l_value params + length starts) cands reached reached)
    end.
Proof.
  intros Hk Hal Hout Hn Hf Hnan. destruct (knn_new_pos _ _ _ Hk) as [Hl Hb].
  unfold inline_filter_search, search_scratch.
  destruct (fa_num_starting_points a) as [ns|e] eqn:Ens; [|by failed_search].
  pose proof (fa_num_law _ _ Ens) as ->. rewrite get_scratch_eq.
  set (cap := k_l_value params + length starts).
  destruct (inline_internal_ok log10 powf debug Hn (λ q ins, adaptive_l = None → closest_rep cap q ins)
    (λ q n q' ins H1 H2 H3 H4 H5 H6, closest_rep_insert debug cap q n q' ins H1 H2 H3 H4 (H5 H6))
    (λ q q' n ins H1 H2 H3 H4, closest_rep_visit debug cap q q' n ins H1 H2 (H3 H4))
    adaptive_l (valid_adaptive_ok _ Hal) (λ Ha q ins l H1 H2, False_ind _ (Ha H2)) fuel params a
    (mkParams (k_l_value params) max_degree (length starts)))
    as (a' & s' & r & -> & Hpost); [done|simpl; lia|done|intros _; apply closest_rep_new|].
  cbn [mbind option_bind]. destruct r as [ret|e]; [|by failed_search].
  destruct Hpost as (all & Hs & Hbud & -> & Hst & Hdone & Hsl). cbn [ir_matched_results ir_cmps ir_hops].
  destruct (copy_ids_ok a' (take (k_l_value params) (sort_unstable (accepted_of (matches := matches) all)))
    output Hout) as (output' & -> & Hv). cbn [mbind option_bind]. eexists _, _. split; [done|].
  pose proof (filter_inv_reached _ _ _ _ _ Hs) as [Hnd Hin].
  exists (reverse all), (take (k_l_value params) (sort_unstable (accepted_of (matches := matches) all))).
  assert (no_nan (accepted_of (matches := matches) all)) as Hnn.
  { apply Forall_forall. intros n Hni. unfold accepted_of in Hni.
    rewrite elem_of_List_filter, elem_of_reverse in Hni. destruct Hni as [Hni _].
    destruct (Hin n Hni) as [? ->]. auto. }
  cbn zeta. split_and!; [done|done| |apply StronglySorted_take; by apply sort_sorted| |].
  - split; [by rewrite fmap_reverse, reverse_Permutation|]. intros n Hni. apply Hin.
    by apply elem_of_reverse.
  - by apply take_sort_closest.
  - intros Hac Hne Ha. split.
    + intros i Hi. rewrite fmap_reverse, elem_of_reverse. by apply (fi_complete _ _ _ _ _ Hs Hac), Hst.
    + destruct (filter_inv_settled debug cap s' all all) as [(dr & Hdr & Hle) Hset]; auto.
      { destruct Hs as [[H1 H2 H3] ? ? ? ? ? ? ?]. split; try done. split; auto. }
      exists (q_contents (s_best s')). split.
      * exists dr. split; [by rewrite reverse_Permutation|done].
      * intros n j H1 H2. rewrite fmap_reverse, elem_of_reverse. by eapply Hset.
Qed.

(** The results of the multihop search are the closest accepted nodes: rejected starting points
    cannot displace them, since the queue has room for all starting points. *)
Lemma multihop_closest l cands ins all :
  closest_of (length cands = l + length starts) cands ins → StronglySorted nbr_le cands →
  NoDup (nbr_id <$> ins) → NoDup (nbr_id <$> all) →
  (∀ n, n ∈ ins ↔ n ∈ all ∧ relevant (starts := starts) (matches := matches) n) →
  let results := take l (accepted_nodes cands) in
  closest_of (length results = l) results (accepted_nodes all).
Proof.
  intros (dr & Hdr & Hle) Hsort Hni Hna Hrel results.
  assert (accepted_nodes all ≡ₚ accepted_nodes cands ++ accepted_nodes dr) as Hacc.
  { trans (accepted_nodes ins).
    - apply NoDup_Permutation; [apply NoDup_List_filter, (NoDup_fmap_1 nbr_id), Hna|
        apply NoDup_List_filter, (NoDup_fmap_1 nbr_id), Hni|].
      intros n. unfold accepted_nodes. rewrite !elem_of_List_filter, Hrel. unfold relevant. tauto.
    - unfold accepted_nodes. rewrite <-List.filter_app. by apply List_filter_perm. }
  assert (StronglySorted nbr_le (accepted_nodes cands)) as Hs
    by (eapply StronglySorted_sublist; [apply List_filter_sublist|done]).
  destruct (take_sorted_closest l _ Hs) as (dr1 & Hdr1 & Hle1).
  exists (dr1 ++ accepted_nodes dr). split; [unfold results; by rewrite Hacc, (assoc_L (++)), <-Hdr1|].
  intros y [Hy|Hy]%elem_of_app; [by apply Hle1|].
  unfold accepted_nodes in Hy. apply elem_of_List_filter in Hy as [Hy _].
  destruct (Hle y Hy) as [?|[Hlen Hc]]; [by left|right]. split.
  - unfold results. rewrite length_take.
    set (rj := List.filter (λ n, negb (matches (nbr_id n))) cands).
    assert (length cands = length (accepted_nodes cands) + length rj) as Hsum
      by (unfold rj, accepted_nodes; apply eq_sym, List.filter_length).
    assert (length rj ≤ length starts); [|lia].
    rewrite <-(length_fmap nbr_id rj). apply submseteq_length, NoDup_submseteq.
    + eapply sublist_NoDup; [|apply sublist_fmap, List_filter_sublist].
      rewrite Hdr, fmap_app in Hni. by apply NoDup_app in Hni as [? _].
    + intros i Hi. apply list_elem_of_fmap in Hi as (n & -> & [Hn Hm]%elem_of_List_filter).
      assert (n ∈ ins) as [_ [Hr|Hr]]%Hrel by (rewrite Hdr, elem_of_app; by left); [|done].
      by rewrite Hr in Hm.
  - intros x Hx. apply Hc. unfold results in Hx.
    apply (elem_of_sublist _ _ _ (sublist_take _ _)) in Hx.
    by apply elem_of_List_filter in Hx as [? _].
Qed.

(** C21: multihop filtered search returns only nodes that the filter accepts.  It always returns
    and writes, as far as there is room, at most [l] results in order of their distance: the
    closest of all the accepted nodes that it reached; starting points that the filter rejects
    guide the search, but are neither returned nor do they take the place of a result.  On an
    accessor that drops nothing and does not stop early, all neighbors of the results were
    reached.  It fails only with an error of the accessor and has then written nothing. *)
Theorem multihop_filter_search_correct (debug : bool) (fuel max_degree : nat) (params : Knn)
    (l : nat) (bw : option nat) (a : A) pooled (output : B) :
  knn_new l bw = Ok params → ob_ok output → (Z.of_nat (size nodes) < 2 ^ 32)%Z →
  size nodes ≤ fuel →
  ∃ output' r,
    multihop_filter_search debug fuel max_degree params (Ok a) copy_ids pooled output =
      Some (output', r) ∧
    match r with
    | Err e => filtered_error I A E e ∧ ob_view output' = ob_view output
    | Ok stats => ∃ reached results,
        let new := take_opt (room (ob_capacity output) (length (ob_view output))) results in
        ob_view output' = ob_view output ++ new ∧ ss_result_count stats = as_u32 (length new) ∧
        reached_nodes reached ∧ StronglySorted nbr_le results ∧
        closest_of (length results = k_l_value params) results (accepted_nodes reached) ∧
        (filtered_complete I A E adj → fa_never_terminates I A E →
         (∀ i, i ∈ starts → i ∈ nbr_id <$> reached) ∧
         ∀ n j, n ∈ results → j ∈ adj (nbr_id n) → j ∈ nbr_id <$> reached)
    end.
Proof.
  intros Hk Hout Hn Hf. destruct (knn_new_pos _ _ _ Hk) as [Hl Hb].
  unfold multihop_filter_search, search_scratch.
  destruct (fa_num_starting_points a) as [ns|e] eqn:Ens; [|by failed_search].
  pose proof (fa_num_law _ _ Ens) as ->. rewrite get_scratch_eq.
  set (cap := k_l_value params + length starts).
  destruct (multihop_internal_ok debug Hn (closest_rep cap) (closest_rep_insert debug cap)
    (closest_rep_visit debug cap) fuel max_degree params a
    (mkParams (k_l_value params) max_degree (length starts)))
    as (a' & s' & r & -> & Hpost); [done|simpl; lia|done|apply closest_rep_new|].
  cbn [mbind option_bind]. destruct r as [ret|e]; [|by failed_search].
  destruct Hpost as (ins & all & [Hs Hrel Hni Hst] & Hcm & Hho & Hrej & Hdone & Hsl).
  destruct (fi_queue _ _ _ _ _ Hs) as [Hok [Hcl Hcap Hfix] _]. cbn in Hok.
  pose proof (pq_wf _ Hok) as Hwf. rewrite q_entries_contents in Hcl.
  assert (closest_of (length (q_contents (s_best s')) = cap) (q_contents (s_best s')) ins) as Hcl'.
  { destruct Hcl as (dr & Hdr & Hle). exists dr. split; [done|]. intros y Hy.
    destruct (Hle y Hy) as [?|[Hfull Hc]]; [by left|right]. split; [|done].
    rewrite length_q_contents by done. unfold q_is_full in Hfull.
    apply andb_true_iff in Hfull as [_ ?%Nat.eqb_eq]. congruence. }
  assert (q_iter (s_best s') = Some (q_contents (s_best s'))) as ->.
  { rewrite (pq_iter_ok _ Hok), take_ge, q_entries_contents; [done|].
    rewrite length_q_entries by done. cbn in Hsl. rewrite Hsl. fold cap. rewrite <-Hcap. apply Hwf. }
  cbn [mbind option_bind].
  assert (List.filter (λ n, negb (bool_decide (nbr_id n ∈ mr_rejected_start_points ret)))
    (q_contents (s_best s')) = accepted_nodes (q_contents (s_best s'))) as ->.
  { apply List_filter_ext. intros n Hin. destruct Hcl' as (dr & Hdr & _).
    assert (n ∈ ins) as [_ Hre]%Hrel by (rewrite Hdr, elem_of_app; by left).
    destruct (bool_decide_reflect (nbr_id n ∈ mr_rejected_start_points ret)) as [Hr|Hr];
      rewrite Hrej in Hr; [by destruct Hr as [_ ->]|].
    destruct Hre as [->|Hre]; [done|]. destruct (matches (nbr_id n)); [done|]. tauto. }
  set (results := take (k_l_value params) _).
  destruct (copy_ids_ok a' results output Hout) as (output' & -> & Hv). cbn [mbind option_bind].
  eexists _, _. split; [done|]. exists all, results. cbn zeta.
  pose proof (filter_inv_reached _ _ _ _ _ Hs) as Hreach.
  assert (StronglySorted nbr_le (q_contents (s_best s'))) as Hsort by (by apply q_contents_sorted).
  split_and!; [done|done|done| |by apply (multihop_closest _ _ ins); [..|apply Hreach|]|].
  - apply StronglySorted_take. eapply StronglySorted_sublist; [apply List_filter_sublist|done].
  - intros Hac Hne. split; [intros i Hi; by apply (fi_complete _ _ _ _ _ Hs Hac), Hst|].
    destruct (filter_inv_settled debug cap s' ins all Hs Hac (Hdone Hne) Hsl) as [_ Hset].
    intros n j Hin Hj. apply (Hset n); [|done].
    apply (elem_of_sublist _ _ _ (sublist_take _ _)) in Hin. by apply elem_of_List_filter in Hin as [? _].
Qed.

End correct.

(** ** Witnesses, on the path graph with the filter "odd" *)

Definition path_adaptive : AdaptiveL := mkAdaptiveL 1 f64_two.

Lemma inline_filter_search_correct_witness :
  ∃ output' stats,
    inline_filter_search (FA := path_filtered) (λ x, x) (λ x _, x) true 5 8 (mkKnn 2 1)
      (Some path_adaptive) (Ok tt) copy_ids None
      (mkIdDistance [7; 7; 7]%Z (replicate 3 f32_zero) 0) = Some (output', Ok stats) ∧
    id_ids output' = [1; 3; 7]%Z ∧ ss_result_count stats = 2%Z ∧
    ∃ reached, reached_nodes (dist := path_dist) (nodes := path_nodes) reached.
Proof.
  destruct (inline_filter_search_correct (FL := path_filtered_laws) (OL := id_distance_laws)
    (λ x, x) (λ x _, x) true 5 8 (mkKnn 2 1) 2 None (Some path_adaptive) tt None
    (mkIdDistance [7; 7; 7]%Z (replicate 3 f32_zero) 0)) as (output' & r & Hrun & Hr);
    [reflexivity|split; reflexivity|split; simpl; lia|vm_compute; reflexivity|vm_compute; lia|..].
  { intros i Hi. apply path_nodes_spec in Hi. unfold path_dist.
    assert (i = 0 ∨ i = 1 ∨ i = 2 ∨ i = 3 ∨ i = 4)%Z as Hcase by lia.
    destruct Hcase as [-> | [-> | [-> | [-> | ->]]]]; reflexivity. }
  destruct r as [stats|e]; [|vm_compute in Hrun; discriminate].
  exists output', stats. split; [exact Hrun|]. destruct Hr as (reached & results & _ & _ & Hre & _).
  vm_compute in Hrun. injection Hrun as <- <-. split; [reflexivity|]. split; [reflexivity|].
  exists reached. exact Hre.
Defined.

Lemma multihop_filter_search_correct_witness :
  ∃ output' stats,
    multihop_filter_search (FA := path_filtered) true 5 8 (mkKnn 2 1) (Ok tt) copy_ids None
      (mkIdDistance [7; 7; 7]%Z (replicate 3 f32_zero) 0) = Some (output', Ok stats) ∧
    id_ids output' = [1; 3; 7]%Z ∧ ss_result_count stats = 2%Z ∧
    ∃ reached, reached_nodes (dist := path_dist) (nodes := path_nodes) reached ∧
      ∀ i, i ∈ [4%Z] → i ∈ nbr_id <$> reached.
Proof.
  destruct (multihop_filter_search_correct (FL := path_filtered_laws) (OL := id_distance_laws)
    true 5 8 (mkKnn 2 1) 2 None tt None
    (mkIdDistance [7; 7; 7]%Z (replicate 3 f32_zero) 0)) as (output' & r & Hrun & Hr);
    [reflexivity|split; simpl; lia|vm_compute; reflexivity|vm_compute; lia|].
  destruct r as [stats|e]; [|vm_compute in Hrun; discriminate].
  exists output', stats. split; [exact Hrun|].
  destruct Hr as (reached & results & _ & _ & Hre & _ & _ & Hset).
  vm_compute in Hrun. injection Hrun as <- <-. split; [reflexivity|]. split; [reflexivity|].
  exists reached. split; [exact Hre|].
  exact (proj1 (Hset (reference_filtered_complete path_dist path_adj [4%Z] Z.odd) (λ _, eq_refl))).
Defined.

(** [AdaptiveL::new] means to reject a scale factor below one, but a NaN passes its test; the
    search then panics in [clamp] as soon as it adapts with an accepted node in the sample. *)
Theorem adaptive_l_nan_panics :
  adaptive_l_new 1 S754_nan = Ok (mkAdaptiveL 1 S754_nan) ∧
  (∀ log10 powf base_l visited matched, 0 < visited → 0 < matched →
     compute_adaptive_l log10 powf base_l visited matched S754_nan = None) ∧
  ∀ log10 powf,
    inline_filter_search (FA := path_filtered) log10 powf true 5 8 (mkKnn 2 1)
      (Some (mkAdaptiveL 1 S754_nan)) (Ok tt) copy_ids None
      (mkIdDistance [7; 7; 7]%Z (replicate 3 f32_zero) 0) = None.
Proof.
  split; [done|]. split; [|intros; vm_compute; reflexivity].
  intros log10 powf base_l [|v] [|m] Hv Hm; try lia. done.
Qed.

(** The adapted size replaces the size of the whole queue, which has room for the starting
    points in addition to [l]: with several starting points a moderate factor makes the queue
    smaller instead of larger, here from 15 to 12 for [l = 10], five starting points and the
    factor 1.25. *)
Theorem adaptive_l_shrinks :
  let s := scratch_create (I := Z) (mkParams 10 8 5) in
  let factor := f64_div (f64_of_usize 5) (f64_of_usize 4) in
  is_ok (adaptive_l_new 1 factor) = true ∧ q_capacity (s_best s) = 15 ∧
  ∀ log10 powf, (λ r, (r.1, q_capacity (s_best r.2))) <$>
    adapt log10 powf (Some (mkAdaptiveL 1 factor)) 10 1 0 false s = Some (true, 12).
Proof. split; [done|]. split; [done|]. intros. vm_compute. reflexivity. Qed.
