(* ===== verification/FilteredRange.v ===== *)
(** * Filtered range search

    Models [diskann/src/graph/search/filtered_range_search.rs]: all accepted nodes within a
    radius.  An inline filtered search gives the first nodes; when enough of them are in range,
    a second round expands everything in range breadth first and collects what is accepted.
    Ids are integers, since the code orders neighbors by distance and id to remove duplicates.

    - Class [TotalSort]: the library sort by [fast_distance_total];
    - Section [search]: the second round and the search;
    - Section [loop]: the invariant of the second round. *)

From Stdlib Require Import SpecFloat.
From S2P Require Import Prelude F32 Neighbor NeighborQueue QueueInterface Prune Search OutputBuffer Knn RangeSearch Filtered FilteredSearch.

(** ** Sorting by distance and id *)

Definition total_le (x y : Neighbor Z) : Prop := fast_distance_total x y ≠ Gt.

(** [slice::sort_unstable_by] with [fast_distance_total] *)
Class TotalSort := {
  sort_total : list (Neighbor Z) → list (Neighbor Z);
  sort_total_perm : ∀ l, sort_total l ≡ₚ l;
  sort_total_sorted : ∀ l, no_nan l → StronglySorted total_le (sort_total l);
}.

(** [Vec::dedup_by] on ids: of consecutive neighbors with the same id the first is kept. *)
Fixpoint dedup_from (prev : Neighbor Z) (l : list (Neighbor Z)) : list (Neighbor Z) :=
  match l with
  | [] => []
  | x :: l => if (nbr_id x =? nbr_id prev)%Z then dedup_from prev l else x :: dedup_from x l
  end.
Definition dedup_ids (l : list (Neighbor Z)) : list (Neighbor Z) :=
  match l with [] => [] | x :: l => x :: dedup_from x l end.

(** ** Search *)

Section search.
Context {A E B : Type} `{FA : !FilteredAccessor Z A E} `{!UnstableSort Z} `{!TotalSort}.
Implicit Types (s : SearchScratch Z (NeighborPriorityQueue Z)) (matched : list (Neighbor Z)).

(** [Range::to_knn] *)
Definition to_knn (params : Range) : Knn := mkKnn (r_starting_l params) (r_beam_width params).

(** The loop over the reported neighbors. *)
Fixpoint filtered_absorb (max : option nat) (radius navigation : f32)
    (neighbors : list (Decision Z * f32)) matched (frontier : list Z) :
    list (Neighbor Z) * list Z :=
  match neighbors with
  | [] => (matched, frontier)
  | (decision, d) :: neighbors =>
      if f32_le d navigation then
        filtered_absorb max radius navigation neighbors
          (if f32_le d radius && is_accept decision && below max (length matched)
           then matched ++ [mkNeighbor (into_inner decision) d] else matched)
          (frontier ++ [into_inner decision])
      else filtered_absorb max radius navigation neighbors matched frontier
  end.

(** The [while] loop of [filtered_range_search_internal]. *)
Fixpoint filtered_range_loop (fuel : nat) (max : option nat) (radius navigation : f32)
    (beam_width : nat) (a : A) s matched :
    option (A * SearchScratch Z (NeighborPriorityQueue Z) * list (Neighbor Z) * result E unit) :=
  match s_range_frontier s with
  | [] => Some (a, s, matched, Ok tt)
  | _ =>
      if below max (length matched) then
        match fuel with
        | 0 => None
        | S fuel =>
            let beam := take beam_width (s_range_frontier s) in
            let frontier := drop beam_width (s_range_frontier s) in
            let '(a, visited, neighbors, r) := expand_beam_filtered a beam (s_visited s) in
            match r with
            | Err e =>
                Some (a, mkScratch (s_best s) visited (s_id_scratch s) beam frontier (s_in_range s)
                           (s_hops s) (s_cmps s), matched, Err e)
            | Ok _ =>
                let '(matched, frontier) :=
                  filtered_absorb max radius navigation neighbors matched frontier in
                cmps ← u32_add (s_cmps s) (as_u32 (length neighbors));
                hops ← u32_add (s_hops s) (as_u32 (length beam));
                filtered_range_loop fuel max radius navigation beam_width a
                  (mkScratch (s_best s) visited (s_id_scratch s) beam frontier (s_in_range s)
                     hops cmps) matched
            end
        end
      else Some (a, s, matched, Ok tt)
  end.

(** [filtered_range_search_internal] *)
Definition filtered_range_search_internal (fuel : nat) (params : Range) (a : A) s matched :
    option (A * SearchScratch Z (NeighborPriorityQueue Z) * list (Neighbor Z) *
            result E InternalSearchStats) :=
  '(a, s, matched, r) ←
    filtered_range_loop fuel (r_max_returned params) (r_radius params)
      (f32_mul (r_radius params) (r_range_slack params)) (r_beam_width params) a s matched;
  match r with
  | Err e => Some (a, s, matched, Err e)
  | Ok _ => Some (a, s, matched, Ok (mkStats (s_cmps s) (s_hops s) true))
  end.

(** The second part of the search: [in_range] are the nodes found in range, [matched] the
    accepted ones. *)
Definition filtered_second_round (fuel : nat) (params : Range) (a : A) s
    (in_range matched : list (Neighbor Z)) (cmps hops : Z) :
    option (A * list (Neighbor Z) * result E InternalSearchStats) :=
  if (f32_to_usize (f32_mul (f32_of_Z (Z.of_nat (r_starting_l params))) (r_initial_slack params))
        <=? Z.of_nat (length in_range))%Z && below (r_max_returned params) (length matched) then
    let s := mkScratch (s_best s) (list_to_set (nbr_id <$> in_range)) (s_id_scratch s)
               (s_beam_nodes s) (nbr_id <$> in_range) (s_in_range s) (s_hops s) (s_cmps s) in
    '(a, s, matched, r) ← filtered_range_search_internal fuel params a s matched;
    match r with
    | Err e => Some (a, matched, Err e)
    | Ok range_stats =>
        Some (a, matched, Ok (mkStats (st_cmps range_stats) (st_hops range_stats) true))
    end
  else Some (a, matched, Ok (mkStats cmps hops false)).

(** The distance filter of the output. *)
Definition outside_inner (params : Range) (d : f32) : bool :=
  if match r_inner_radius params with Some ir => f32_le d ir | None => false end then false
  else true.

(** [FilteredRange::search]; the post-processor works with any output buffer. *)
Definition filtered_range_search (OB : SearchOutputBuffer Z B) (log10 : f64 → f64)
    (powf : f64 → f64 → f64) (debug : bool) (fuel max_degree : nat) (params : Range)
    (accessor : result E A)
    (processor : SearchOutputBuffer Z B → PostProcess (I := Z) (A := A) (E := E) (B := B))
    (pooled : option (SearchScratch Z (NeighborPriorityQueue Z))) (output : B) :
    option (B * result E SearchStats) :=
  match accessor with
  | Err e => Some (output, Err e)
  | Ok a =>
      match fa_num_starting_points a with
      | Err e => Some (output, Err e)
      | Ok num_start_ids =>
          let scratch := search_scratch pooled max_degree (r_starting_l params) num_start_ids in
          '(a, s, _, r) ←
            inline_filter_search_internal log10 powf noop_record debug fuel (to_knn params) a
              scratch tt None;
          match r with
          | Err e => Some (output, Err e)
          | Ok ret =>
              best ← q_iter (s_best s);
              let in_range := dedup_ids (sort_total
                (List.filter (λ n, f32_le (nbr_distance n) (r_radius params))
                   (take (r_starting_l params) best ++ ir_matched_results ret))) in
              let matched := List.filter (λ n, f32_le (nbr_distance n) (r_radius params))
                               (ir_matched_results ret) in
              '(a, matched, r) ←
                filtered_second_round fuel params a s in_range matched (ir_cmps ret) (ir_hops ret);
              match r with
              | Err e => Some (output, Err e)
              | Ok stats =>
                  '(_, output, r) ←
                    processor (distance_filtered (outside_inner params) OB) a
                      (take_opt (r_max_returned params) matched) output;
                  match r with
                  | Err e => Some (output, Err e)
                  | Ok count =>
                      Some (output, Ok (mkSearchStats (st_cmps stats) (st_hops stats)
                                          (as_u32 count) (st_second_round stats)))
                  end
              end
          end
      end
  end.

End search.

(** ** Theory: removing duplicates *)

Lemma total_le_same x y :
  is_nan (nbr_distance x) = false → is_nan (nbr_distance y) = false →
  total_le x y → total_le y x → nbr_id x = nbr_id y.
Proof.
  intros Hx Hy. unfold total_le, fast_distance_total.
  pose proof (fast_distance_spec x y Hx Hy) as H1. pose proof (fast_distance_spec y x Hy Hx) as H2.
  destruct (fast_distance x y), (fast_distance y x); simpl; try done;
    try (destruct (Z.compare_spec (nbr_id x) (nbr_id y)), (Z.compare_spec (nbr_id y) (nbr_id x));
         done || lia);
    intros _ _; exfalso.
  - destruct H1 as [H1 _]. pose proof (f32_lt_le_trans _ _ _ H2 H1) as Hc.
    by rewrite f32_lt_irrefl in Hc.
  - destruct H2 as [H2 _]. pose proof (f32_lt_le_trans _ _ _ H1 H2) as Hc.
    by rewrite f32_lt_irrefl in Hc.
  - pose proof (f32_lt_trans _ _ _ H1 H2) as Hc. by rewrite f32_lt_irrefl in Hc.
Qed.

Section dedup.
Context {dist : Z → f32}.
Implicit Types l : list (Neighbor Z).

(** Neighbors with their distances and no NaN. *)
Definition proper l : Prop :=
  ∀ n, n ∈ l → nbr_distance n = dist (nbr_id n) ∧ is_nan (nbr_distance n) = false.

Lemma proper_same l x y : proper l → x ∈ l → y ∈ l → nbr_id x = nbr_id y → x = y.
Proof.
  intros Hp Hx Hy Heq. destruct (Hp x Hx) as [Hdx _], (Hp y Hy) as [Hdy _].
  destruct x, y; simpl in *. congruence.
Qed.

Lemma dedup_from_ok l : ∀ prev,
  StronglySorted total_le (prev :: l) → proper (prev :: l) →
  NoDup (nbr_id <$> prev :: dedup_from prev l) ∧ ∀ n, n ∈ prev :: dedup_from prev l ↔ n ∈ prev :: l.
Proof.
  induction l as [|x l IH]; intros prev Hs Hp; [split; [apply NoDup_singleton|done]|].
  apply StronglySorted_inv in Hs as [Hs Hprev]. cbn [dedup_from].
  apply StronglySorted_inv in Hs as Hs'. destruct Hs' as [Hsl Hxl].
  apply Forall_cons in Hprev as Hprev'. destruct Hprev' as [Hpx Hpl].
  destruct (Z.eqb_spec (nbr_id x) (nbr_id prev)) as [He|He].
  - assert (x = prev) as -> by (eapply proper_same; [exact Hp|set_solver..|done]).
    destruct (IH prev) as [Hnd Hin]; [by constructor|intros n Hn; apply Hp; set_solver|].
    split; [done|]. intros n. rewrite Hin. set_solver.
  - destruct (IH x Hs) as [Hnd Hin]; [intros n Hn; apply Hp; set_solver|]. split.
    + rewrite fmap_cons. apply NoDup_cons. split; [|done]. intros Hi.
      apply list_elem_of_fmap in Hi as (n & Heq & Hn). apply Hin in Hn as Hn'.
      assert (n = prev) as -> by (eapply proper_same; [exact Hp|set_solver..|done]).
      apply elem_of_cons in Hn' as [->|Hn']; [done|]. rewrite Forall_forall in Hxl.
      apply He, total_le_same; [apply Hp; set_solver..|by apply Hxl|done].
    + intros n. rewrite !(elem_of_cons _ n prev), Hin. done.
Qed.

Lemma dedup_ids_ok l :
  StronglySorted total_le l → proper l →
  NoDup (nbr_id <$> dedup_ids l) ∧ ∀ n, n ∈ dedup_ids l ↔ n ∈ l.
Proof.
  destruct l as [|x l]; intros Hs Hp; [by split; [constructor|]|]. by apply dedup_from_ok.
Qed.

End dedup.

(** ** An instance of the sort: merge sort *)

#[export] Instance total_le_dec : RelDecision total_le.
Proof. intros x y. unfold total_le. apply _. Defined.

(** On distances that are not NaN the order is lexicographic. *)
Lemma total_le_spec x y :
  is_nan (nbr_distance x) = false → is_nan (nbr_distance y) = false →
  total_le x y ↔
    f32_lt (nbr_distance x) (nbr_distance y) = true ∨
    f32_le (nbr_distance x) (nbr_distance y) = true ∧ (nbr_id x ≤ nbr_id y)%Z.
Proof.
  intros Hx Hy. unfold total_le, fast_distance_total.
  pose proof (fast_distance_spec x y Hx Hy) as H1.
  destruct (fast_distance x y); simpl.
  - destruct H1 as [Hxy Hyx]. change (nbr_id x ?= nbr_id y)%Z with (Z.compare (nbr_id x) (nbr_id y)).
    rewrite Hxy. split; [intros Hc; right; split; [done|exact Hc]|].
    intros [Hc|[_ Hc]]; [|exact Hc]. pose proof (f32_lt_le_trans _ _ _ Hc Hyx) as Hcc.
    by rewrite f32_lt_irrefl in Hcc.
  - split; [by left|done].
  - split; [done|]. intros [Hc|[Hc _]].
    + pose proof (f32_lt_trans _ _ _ H1 Hc) as Hcc. by rewrite f32_lt_irrefl in Hcc.
    + pose proof (f32_lt_le_trans _ _ _ H1 Hc) as Hcc. by rewrite f32_lt_irrefl in Hcc.
Qed.

#[export] Instance total_le_total : Total total_le.
Proof.
  intros x y. destruct (is_nan (nbr_distance x) || is_nan (nbr_distance y)) eqn:En.
  - unfold total_le, fast_distance_total, fast_distance.
    rewrite (proj2 (partial_cmp_None _ _) En). rewrite orb_comm in En.
    rewrite (proj2 (partial_cmp_None _ _) En). simpl.
    destruct (Z.compare_spec (nbr_id x) (nbr_id y)), (Z.compare_spec (nbr_id y) (nbr_id x));
      (by left) || (by right) || lia.
  - apply orb_false_iff in En as [Hx Hy]. rewrite !total_le_spec by done.
    destruct (f32_lt (nbr_distance x) (nbr_distance y)) eqn:E1; [by auto|].
    destruct (f32_lt (nbr_distance y) (nbr_distance x)) eqn:E2; [by auto|].
    apply f32_not_lt in E1, E2; [|done..]. destruct (Z.le_ge_cases (nbr_id x) (nbr_id y)); auto.
Qed.

Lemma total_le_trans x y z :
  is_nan (nbr_distance x) = false → is_nan (nbr_distance y) = false →
  is_nan (nbr_distance z) = false → total_le x y → total_le y z → total_le x z.
Proof.
  intros Hx Hy Hz. rewrite !total_le_spec by done. intros [H1|[H1 ?]] [H2|[H2 ?]].
  - left. by eapply f32_lt_trans.
  - left. by eapply f32_lt_le_trans.
  - left. by eapply f32_le_lt_trans.
  - right. split; [by eapply f32_le_trans|lia].
Qed.

Lemma merge_sort_total_sorted (l : list (Neighbor Z)) :
  no_nan l → StronglySorted total_le (merge_sort total_le l).
Proof.
  intros Hn. assert (no_nan (merge_sort total_le l)) as Hn'
    by (unfold no_nan; by rewrite (merge_sort_Permutation total_le)).
  pose proof (Sorted_merge_sort total_le l) as Hs. revert Hs Hn'.
  induction (merge_sort total_le l) as [|x k IH]; intros Hs Hk; [constructor|].
  apply Forall_cons in Hk as [Hx Hk]. apply Sorted_inv in Hs as [Hs Hhd].
  specialize (IH Hs Hk). constructor; [done|]. destruct Hhd as [|y k' Hxy]; [constructor|].
  apply Forall_cons in Hk as [Hy Hk]. apply StronglySorted_inv in IH as [_ Hyk].
  constructor; [done|]. rewrite Forall_forall in Hyk, Hk |- *. intros z Hz.
  eapply (total_le_trans x y z); auto.
Qed.

#[export] Instance TotalSort_merge : TotalSort := {|
  sort_total := merge_sort total_le;
  sort_total_perm := merge_sort_Permutation total_le;
  sort_total_sorted := merge_sort_total_sorted;
|}.

(** ** Theory: the second round *)

Section loop.
Context {A E : Type} `{FA : !FilteredAccessor Z A E}.
Context {dist : Z → f32} {adj : Z → list Z} {nodes : gset Z} {starts : list Z}.
Context {matches : Z → bool}.
Context `{FL : !FilteredAccessorLaws Z A E dist adj nodes starts matches}.
Variables (max : option nat) (radius navigation : f32).
Implicit Types (s : SearchScratch Z (NeighborPriorityQueue Z)) (matched : list (Neighbor Z)).

(** Is a node a result? *)
Definition hit (i : Z) : bool := f32_le (dist i) radius && matches i.

Lemma filtered_absorb_ok calls : ∀ matched frontier,
  decided matches calls → (undecide calls).*2 = dist <$> (undecide calls).*1 →
  ∃ push add, filtered_absorb max radius navigation calls matched frontier =
      (matched ++ add, frontier ++ push) ∧
    push = List.filter (λ i, f32_le (dist i) navigation) (undecide calls).*1 ∧
    sublist (nbr_id <$> add) (List.filter hit push) ∧
    (∀ n, n ∈ add → nbr_distance n = dist (nbr_id n)) ∧
    (max = None → nbr_id <$> add = List.filter hit push).
Proof.
  induction calls as [|[d x] calls IH]; intros matched frontier Hdec Hd; cbn [filtered_absorb].
  { exists [], []. rewrite !app_nil_r. split_and!; try done. by intros n Hn%elem_of_nil. }
  apply Forall_cons in Hdec as [Hc Hdec]. cbn [fst] in Hc.
  change (undecide ((d, x) :: calls)) with ((into_inner d, x) :: undecide calls) in *.
  rewrite !fmap_cons in Hd |- *. cbn [fst snd] in *. injection Hd as Hx Hd.
  cbn [List.filter]. rewrite <-Hx. destruct (f32_le x navigation) eqn:Ek.
  2:{ destruct (IH matched frontier Hdec Hd) as (push & add & -> & -> & Hsub & Hds & Hall). by eexists _, _. }
  set (keep := f32_le x radius && is_accept d && below max (length matched)).
  destruct (IH (if keep then matched ++ [mkNeighbor (into_inner d) x] else matched)
    (frontier ++ [into_inner d]) Hdec Hd) as (push & add & -> & -> & Hsub & Hds & Hall).
  set (push := List.filter _ (undecide calls).*1) in *.
  assert (hit (into_inner d) = f32_le x radius && is_accept d) as Hhit
    by (unfold hit; by rewrite <-Hx, Hc).
  exists (into_inner d :: push), ((if keep then [mkNeighbor (into_inner d) x] else []) ++ add).
  rewrite fmap_app. cbn [List.filter]. rewrite Hhit. split_and!.
  - rewrite <-(assoc_L (++)). destruct keep; [|done]. by rewrite <-(assoc_L (++)).
  - done.
  - unfold keep. destruct (f32_le x radius && is_accept d); [|done].
    destruct (below max (length matched)); simpl; [by apply sublist_skip|by apply sublist_cons].
  - intros n [Hn|Hn]%elem_of_app; [|by auto]. destruct keep; [|by apply elem_of_nil in Hn].
    by apply list_elem_of_singleton in Hn as ->.
  - intros Hm. unfold keep. rewrite Hm. cbn [below]. rewrite andb_true_r, (Hall Hm).
    by destruct (f32_le x radius && is_accept d).
Qed.

(** [pushed] are all nodes that entered the frontier, [finished] those that were expanded. *)
Record frange_inv s matched (finished : list Z) : Prop := {
  fr_nodup : NoDup (finished ++ s_range_frontier s);
  fr_visited : ∀ i, i ∈ finished ++ s_range_frontier s → i ∈ s_visited s;
  fr_nodes : s_visited s ⊆ nodes;
  fr_matched_nodup : NoDup (nbr_id <$> matched);
  fr_matched : ∀ n, n ∈ matched →
    nbr_id n ∈ finished ++ s_range_frontier s ∧ hit (nbr_id n) = true ∧
    nbr_distance n = dist (nbr_id n);
  fr_expanded : filtered_complete Z A E adj →
    ∀ i j, i ∈ finished → j ∈ adj i → j ∈ s_visited s;
  fr_pushed : filtered_complete Z A E adj → ∀ j, j ∈ s_visited s →
    f32_le (dist j) navigation = true → j ∈ finished ++ s_range_frontier s;
  fr_closed : max = None → ∀ j, j ∈ finished ++ s_range_frontier s →
    hit j = true → j ∈ nbr_id <$> matched;
  fr_counters : (0 ≤ s_hops s)%Z ∧ (0 ≤ s_cmps s)%Z;
}.

(** One round keeps the invariant. *)
Lemma frange_step s matched finished a a' beam rest vis' calls add hops cmps :
  let push := List.filter (λ i, f32_le (dist i) navigation) (undecide calls).*1 in
  frange_inv s matched finished → s_range_frontier s = beam ++ rest →
  expand_beam_filtered a beam (s_visited s) = (a', vis', calls, Ok tt) →
  sublist (nbr_id <$> add) (List.filter hit push) →
  (∀ n, n ∈ add → nbr_distance n = dist (nbr_id n)) →
  (max = None → nbr_id <$> add = List.filter hit push) → (0 ≤ hops)%Z → (0 ≤ cmps)%Z →
  frange_inv (mkScratch (s_best s) vis' (s_id_scratch s) beam (rest ++ push) (s_in_range s) hops cmps)
    (matched ++ add) (finished ++ beam).
Proof.
  intros push [H1 H2 H3 H4 H5 H6 H7 H8 _] Hsplit Hex Hsub Hdist Hall Hh Hc.
  destruct (fa_filtered_law _ _ _ _ _ _ _ Hex) as [_ (_ & Hnd & Hnew & Hvis & Hfrom)].
  rewrite Hsplit, (assoc_L (++)) in H1, H2, H5, H7, H8.
  assert (∀ i, i ∈ push → i ∈ (undecide calls).*1) as Hpush
    by (intros i Hi; by apply elem_of_List_filter in Hi as [? _]).
  assert (∀ n, n ∈ add → nbr_id n ∈ push ∧ hit (nbr_id n) = true) as Hadd.
  { intros n Hn. apply elem_of_List_filter, (elem_of_sublist _ _ _ Hsub), list_elem_of_fmap. eauto. }
  split; cbn [s_range_frontier s_visited s_hops s_cmps]; rewrite ?(assoc_L (++)); try done.
  - apply NoDup_app. split_and!; [done| |by apply NoDup_List_filter].
    intros i Hi Hi'. by apply (Hnew i (Hpush i Hi')), H2.
  - intros i [Hi|Hi]%elem_of_app; [by apply Hvis, H2|by apply Hnew, Hpush].
  - intros i Hi. destruct (Hfrom i Hi) as [?|(b & Hb & Hi')]; [by apply H3|].
    eapply fa_adj_nodes; [|done]. apply H3, H2. set_solver.
  - rewrite fmap_app. apply NoDup_app. split_and!; [done| |].
    + intros i Hi Hi'. apply list_elem_of_fmap in Hi as (n & -> & Hn).
      apply list_elem_of_fmap in Hi' as (m & Heq & Hm).
      apply (Hnew (nbr_id n)); [rewrite Heq; by apply Hpush, Hadd|]. by apply H2, H5.
    + eapply sublist_NoDup; [|exact Hsub]. by do 2 apply NoDup_List_filter.
  - intros n [Hn|Hn]%elem_of_app; [destruct (H5 n Hn) as (? & ? & ?)|destruct (Hadd n Hn)];
      rewrite elem_of_app; auto.
  - intros Hac i j [Hi|Hi]%elem_of_app Hj; [by apply Hvis, (H6 Hac i)|].
    by apply (proj1 (proj1 Hac _ _ _ _ _ _ Hex) i).
  - intros Hac j Hj Hle. rewrite elem_of_app.
    destruct (proj2 (proj1 Hac _ _ _ _ _ _ Hex) j Hj) as [Hv|Hv]; [left; by apply H7|right].
    apply elem_of_List_filter. auto.
  - intros Hm j [Hj|Hj]%elem_of_app Hhit; rewrite fmap_app, elem_of_app; [left; by apply H8|right].
    rewrite (Hall Hm). by apply elem_of_List_filter.
Qed.

Variables (max_hops max_cmps : Z).
Hypothesis max_hops_u32 : (max_hops < 2 ^ 32)%Z.
Hypothesis max_cmps_u32 : (max_cmps < 2 ^ 32)%Z.

Lemma filtered_range_loop_ok fuel : ∀ beam_width a s matched finished,
  0 < beam_width → frange_inv s matched finished →
  length (s_range_frontier s) + remaining (nodes := nodes) (s_visited s) ≤ fuel →
  (s_hops s + Z.of_nat (length (s_range_frontier s) + remaining (nodes := nodes) (s_visited s))
     ≤ max_hops)%Z →
  (s_cmps s + Z.of_nat (remaining (nodes := nodes) (s_visited s)) ≤ max_cmps)%Z →
  ∃ a' s' matched' r,
    filtered_range_loop fuel max radius navigation beam_width a s matched =
      Some (a', s', matched', r) ∧
    match r with
    | Err e => filtered_error Z A E e
    | Ok _ => (∃ finished', finished ++ s_range_frontier s ⊆ finished' ++ s_range_frontier s' ∧
        frange_inv s' matched' finished') ∧ (max = None → s_range_frontier s' = []) ∧
        ∃ more, matched' = matched ++ more
    end.
Proof.
  induction fuel as [|fuel IH]; intros bw a s matched finished Hbw Hs Hf Hh Hc; cbn [filtered_range_loop].
  - destruct (s_range_frontier s) eqn:Ef; [|simpl in Hf; lia]. eexists _, _, _, _.
    split; [done|]. split; [|split; [done|exists []; by rewrite app_nil_r]].
    exists finished. by rewrite Ef.
  - destruct (s_range_frontier s) as [|f0 fs] eqn:Ef.
    { eexists _, _, _, _. split; [done|]. split; [|split; [done|exists []; by rewrite app_nil_r]].
      exists finished. by rewrite Ef. }
    destruct (below max (length matched)) eqn:Eb.
    2:{ eexists _, _, _, _. split; [done|]. split; [exists finished; by rewrite Ef|].
        split; [by intros ->|exists []; by rewrite app_nil_r]. }
    rewrite <-Ef in *. set (beam := take bw (s_range_frontier s)).
    set (rest := drop bw (s_range_frontier s)).
    assert (s_range_frontier s = beam ++ rest) as Hsplit by (unfold beam, rest; by rewrite take_drop).
    assert (0 < length beam ∧ length beam + length rest = length (s_range_frontier s)) as [Hpos Hlen].
    { rewrite Hsplit, length_app. split; [|done]. unfold beam. rewrite length_take, Ef. simpl. lia. }
    destruct (expand_beam_filtered a beam (s_visited s)) as [[[a1 vis'] calls] [[]|e]] eqn:Hex;
      [|by failed].
    destruct (fa_filtered_law _ _ _ _ _ _ _ Hex) as [Hdec Hrp]. pose proof Hrp as (Hd & _).
    destruct (filtered_absorb_ok calls matched rest Hdec Hd) as (push & add & -> & -> & Hsub & Hds & Hall).
    destruct (fr_counters _ _ _ Hs) as [Hh0 Hc0].
    pose proof (frange_step s matched finished a a1 beam rest vis' calls add
      (s_hops s + Z.of_nat (length beam)) (s_cmps s + Z.of_nat (length calls))
      Hs Hsplit Hex Hsub Hds Hall ltac:(lia) ltac:(lia)) as Hs'.
    pose proof (reports_remaining _ _ _ _ Hrp (fr_nodes _ _ _ Hs')) as Hrem.
    rewrite length_undecide in Hrem.
    assert (length (List.filter (λ i, f32_le (dist i) navigation) (undecide calls).*1) ≤ length calls) as Hpl.
    { rewrite <-(length_undecide calls), <-(length_fmap fst (undecide calls)).
      apply sublist_length, List_filter_sublist. }
    rewrite !as_u32_small by lia. rewrite !u32_add_ok by lia. cbn [mbind option_bind].
    destruct (IH bw a1 _ _ _ Hbw Hs') as (a' & s' & m' & r & -> & Hr);
      cbn [s_range_frontier s_visited s_hops s_cmps]; rewrite ?length_app; try lia.
    eexists _, _, _, _. split; [done|]. destruct r as [u|e]; [|done].
    destruct Hr as ((fin' & Hin & Hs2) & Hdone & more & ->).
    split; [|split; [done|exists (add ++ more); by rewrite (assoc_L (++))]]. exists fin'. split; [|done].
    cbn [s_range_frontier] in Hin. rewrite Hsplit. etrans; [|exact Hin].
    rewrite !(assoc_L (++)). intros i Hi. apply elem_of_app. by left.
Qed.

End loop.

Section theory.
Context {A E B : Type} `{FA : !FilteredAccessor Z A E} `{!UnstableSort Z} `{!TotalSort}.
Context {dist : Z → f32} {adj : Z → list Z} {nodes : gset Z} {starts : list Z}.
Context {matches : Z → bool}.
Context `{FL : !FilteredAccessorLaws Z A E dist adj nodes starts matches}.
Context `{OB : !SearchOutputBuffer Z B} `{OL : !SearchOutputBufferLaws Z B}.
Hypothesis nodes_u32 : (2 * Z.of_nat (size nodes) < 2 ^ 32)%Z.
Implicit Types (s : SearchScratch Z (NeighborPriorityQueue Z)) (found : list (Neighbor Z)).

Local Abbreviation is_hit := (hit (dist := dist) (matches := matches)).

(** Distinct accepted nodes within the radius, with their distances. *)
Definition hits (radius : f32) found : Prop :=
  NoDup (nbr_id <$> found) ∧
  ∀ n, n ∈ found → nbr_id n ∈ nodes ∧ nbr_distance n = dist (nbr_id n) ∧
    f32_le (dist (nbr_id n)) radius = true ∧ matches (nbr_id n) = true.

(** The nodes [region] cannot be left within the limit [navigation], and its results are found. *)
Definition exhausted (radius navigation : f32) (region : list Z) found : Prop :=
  (∀ i j, i ∈ region → j ∈ adj i → f32_le (dist j) navigation = true → j ∈ region) ∧
  (∀ j, j ∈ region → is_hit radius j = true → j ∈ nbr_id <$> found).

(** When the second round runs: at least [starting_l] times the slack nodes are in range, and
    less than the maximum of them are results. *)
Definition runs_second_round (params : Range) (seeds matched : nat) : bool :=
  (f32_to_usize (f32_mul (f32_of_Z (Z.of_nat (r_starting_l params))) (r_initial_slack params))
     <=? Z.of_nat seeds)%Z &&
  match r_max_returned params with Some m => matched <? m | None => true end.

Lemma filtered_second_round_ok fuel params a s in_range matched cmps hops :
  let navigation := f32_mul (r_radius params) (r_range_slack params) in
  0 < r_beam_width params → size nodes ≤ fuel →
  NoDup (nbr_id <$> in_range) → (∀ n, n ∈ in_range → nbr_id n ∈ nodes) →
  hits (r_radius params) matched → (∀ n, n ∈ matched → n ∈ in_range) →
  (∀ n, n ∈ in_range → is_hit (r_radius params) (nbr_id n) = true → n ∈ matched) →
  (0 ≤ s_hops s ≤ Z.of_nat (size nodes))%Z → (0 ≤ s_cmps s ≤ Z.of_nat (size nodes))%Z →
  ∃ a' matched' r,
    filtered_second_round (E := E) fuel params a s in_range matched cmps hops = Some (a', matched', r) ∧
    match r with
    | Err e => filtered_error Z A E e
    | Ok stats => hits (r_radius params) matched' ∧
        st_second_round stats = runs_second_round params (length in_range) (length matched) ∧
        (∃ more, matched' = matched ++ more ∧ (st_second_round stats = false → more = [])) ∧
        (st_second_round stats = true → r_max_returned params = None →
         filtered_complete Z A E adj →
         ∃ region, (∀ n, n ∈ in_range ++ matched' → nbr_id n ∈ region) ∧
           exhausted (r_radius params) navigation region matched')
    end.
Proof.
  intros nav Hbw Hf Hnd Hin [Hmn Hm] Hsub Hhit Hh Hc. unfold filtered_second_round.
  fold (below (r_max_returned params) (length matched)). set (runs := _ && below _ _).
  change (runs_second_round _ _ _) with runs.
  destruct runs; [|eexists _, _, _; split; [done|]; split_and!; [done..| |done]; exists [];
    by rewrite app_nil_r]. unfold filtered_range_search_internal. fold nav.
  set (s1 := mkScratch _ _ _ _ _ _ _ _).
  assert (∀ i, i ∈ s_visited s1 ↔ i ∈ nbr_id <$> in_range) as Hv
    by (intros i; apply elem_of_list_to_set).
  assert (s_visited s1 ⊆ nodes) as Hvn.
  { intros i (n & -> & Hn)%Hv%list_elem_of_fmap. by apply Hin. }
  assert (length (nbr_id <$> in_range) + remaining (nodes := nodes) (s_visited s1) ≤ size nodes) as Hrem.
  { assert (size nodes = remaining (nodes := nodes) ∅) as -> by (unfold remaining; f_equal; set_solver).
    apply remaining_drop; [done|set_solver|]. intros i Hi. apply Hv in Hi. set_solver. }
  assert (frange_inv (A := A) (E := E) (adj := adj) (dist := dist) (nodes := nodes) (matches := matches)
    (r_max_returned params) (r_radius params) nav s1 matched []) as Hs1.
  { assert (∀ n, n ∈ matched → is_hit (r_radius params) (nbr_id n) = true) as Hmh.
    { intros n Hn. destruct (Hm n Hn) as (_ & _ & H1 & H2). unfold hit. by rewrite H1, H2. }
    split; cbn [s_range_frontier s1 app]; try done.
    - intros i Hi. by apply Hv.
    - intros n Hn. split_and!; [apply list_elem_of_fmap; eauto|by apply Hmh|by apply Hm].
    - by intros _ i j Hi%elem_of_nil.
    - intros _ j Hj _. by apply Hv.
    - intros _ j (n & -> & Hn)%list_elem_of_fmap Hj. apply list_elem_of_fmap. eauto.
    - cbn. lia. }
  destruct (filtered_range_loop_ok (r_max_returned params) (r_radius params) nav
    (2 * Z.of_nat (size nodes)) (2 * Z.of_nat (size nodes)) nodes_u32 nodes_u32 fuel
    (r_beam_width params) a s1 matched [] Hbw Hs1) as (a' & s' & m' & r & -> & Hr);
    [cbn [s_range_frontier s_hops s_cmps s1]; lia..|].
  cbn [mbind option_bind]. destruct r as [u|e]; cbn [mbind option_bind]; [|by failed].
  destruct Hr as ((fin & Hreg & [P1 P2 P3 P4 P5 P6 P7 P8 _]) & Hdone & more & Hmore).
  eexists _, _, _. split; [done|]. split_and!; [|done|by exists more|].
  - split; [done|]. intros n Hn. destruct (P5 n Hn) as (Hn' & Hnh & Hnd').
    unfold hit in Hnh. apply andb_true_iff in Hnh as [? ?]. split_and!; try done. by apply P3, P2.
  - intros _ Hmax Hac. exists (fin ++ s_range_frontier s'). split.
    { intros n [Hn|Hn]%elem_of_app; [|by apply P5]. apply Hreg. cbn. apply list_elem_of_fmap. eauto. }
    rewrite (Hdone Hmax), app_nil_r in *. split; [|by auto].
    intros i j Hi Hj Hle. apply P7; [done| |done]. by eapply P6.
Qed.

(** The nodes in range after the first round, without duplicates. *)
Lemma in_range_ok radius best matched all :
  NoDup (nbr_id <$> all) → (∀ n, n ∈ all → nbr_id n ∈ nodes ∧ nbr_distance n = dist (nbr_id n)) →
  (∀ n, n ∈ best → n ∈ all) → matched ≡ₚ accepted_nodes (matches := matches) all →
  let within := List.filter (λ n, f32_le (nbr_distance n) radius) in
  let in_range := dedup_ids (sort_total (within (best ++ matched))) in
  NoDup (nbr_id <$> in_range) ∧ (∀ n, n ∈ in_range → nbr_id n ∈ nodes) ∧
  hits radius (within matched) ∧ (∀ n, n ∈ within matched → n ∈ in_range) ∧
  (∀ n, n ∈ in_range → is_hit radius (nbr_id n) = true → n ∈ within matched) ∧
  (∀ n, n ∈ in_range ↔ n ∈ all ∧ f32_le (nbr_distance n) radius = true ∧
     (n ∈ best ∨ matches (nbr_id n) = true)) ∧
  within matched ≡ₚ accepted_nodes (matches := matches) in_range.
Proof.
  intros Hnd Hall Hbest Hmatched within in_range.
  assert (∀ n, n ∈ matched ↔ n ∈ all ∧ matches (nbr_id n) = true) as Hm
    by (intros n; rewrite Hmatched; unfold accepted_nodes; by rewrite elem_of_List_filter).
  assert (∀ n, n ∈ within (best ++ matched) → n ∈ all ∧ f32_le (nbr_distance n) radius = true) as Hw.
  { intros n Hn. apply elem_of_List_filter in Hn as [Hn ?]. split; [|done].
    apply elem_of_app in Hn as [?|?]; [by apply Hbest|by apply Hm]. }
  assert (proper (dist := dist) (within (best ++ matched))) as Hp.
  { intros n Hn. destruct (Hw n Hn) as [Ha Hle]. split; [by apply Hall|].
    by apply f32_le_not_nan in Hle as [? _]. }
  destruct (dedup_ids_ok (dist := dist) (sort_total (within (best ++ matched)))) as [Hdn Hdi].
  { apply sort_total_sorted, Forall_forall. intros n Hn. by apply Hp. }
  { intros n Hn. rewrite sort_total_perm in Hn. by apply Hp. }
  assert (∀ n, n ∈ in_range ↔ n ∈ within (best ++ matched)) as Hir
    by (intros n; unfold in_range; rewrite Hdi; by rewrite sort_total_perm).
  assert (∀ n, n ∈ in_range ↔ n ∈ all ∧ f32_le (nbr_distance n) radius = true ∧
    (n ∈ best ∨ matches (nbr_id n) = true)) as Hseeds.
  { intros n. rewrite Hir. unfold within. rewrite elem_of_List_filter, elem_of_app, Hm. split.
    - intros [[Hb|[? ?]] ?]; [|by auto]. auto.
    - intros (? & ? & [?|?]); auto. }
  assert (NoDup (nbr_id <$> within matched)) as Hwn.
  { unfold within. eapply sublist_NoDup; [|apply sublist_fmap, List_filter_sublist].
    rewrite Hmatched. eapply sublist_NoDup; [exact Hnd|apply sublist_fmap, List_filter_sublist]. }
  split_and!; [done| | | | |done|].
  - intros n Hn. apply Hir, Hw in Hn as [Hn _]. by destruct (Hall n Hn).
  - split; [done|]. intros n Hn. apply elem_of_List_filter in Hn as [[Ha Hma]%Hm Hle].
      destruct (Hall n Ha) as [? Heq]. rewrite <-Heq. done.
  - intros n Hn. apply Hir. unfold within in *. rewrite List.filter_app, elem_of_app. by right.
  - intros n Hn Hh. apply Hir, Hw in Hn as [Ha Hle]. apply elem_of_List_filter. split; [|done].
    apply Hm. split; [done|]. unfold hit in Hh. by apply andb_true_iff in Hh as [_ ?].
  - apply NoDup_Permutation; [by eapply NoDup_fmap_1|by apply NoDup_List_filter, (NoDup_fmap_1 nbr_id)|].
    intros n. unfold within, accepted_nodes. rewrite !elem_of_List_filter, Hseeds, Hm. tauto.
Qed.

(** *** The first round *)

(** The first round reached [reached] and ended with the candidates [cands]. *)
Record first_round (l : nat) (cands reached : list (Neighbor Z)) : Prop := {
  f1_reached : reached_nodes (dist := dist) (nodes := nodes) reached;
  f1_sorted : StronglySorted nbr_le cands;
  f1_closest : closest_of (length cands = l + length starts) cands reached;
  f1_starts : filtered_complete Z A E adj → ∀ i, i ∈ starts → i ∈ nbr_id <$> reached;
  f1_settled : filtered_complete Z A E adj → fa_never_terminates Z A E →
    ∀ n j, n ∈ cands → j ∈ adj (nbr_id n) → j ∈ nbr_id <$> reached;
}.

Lemma first_round_ok log10 powf debug fuel (params : Range) (a : A) p :
  p_l_value p = r_starting_l params → p_num_frozen p = length starts →
  0 < r_starting_l params → 0 < r_beam_width params → size nodes ≤ fuel →
  ∃ a' s r, inline_filter_search_internal log10 powf noop_record debug fuel (to_knn params) a
      (scratch_create p) tt None = Some (a', s, tt, r) ∧
    match r with
    | Err e => filtered_error Z A E e
    | Ok ret => ∃ cands reached, first_round (r_starting_l params) cands reached ∧
        q_iter (s_best s) = Some cands ∧
        ret = mkInlineRet (s_cmps s) (s_hops s) (ir_matched_results ret) ∧
        ir_matched_results ret ≡ₚ accepted_nodes (matches := matches) reached ∧
        (0 ≤ s_hops s ≤ Z.of_nat (size nodes))%Z ∧ (0 ≤ s_cmps s ≤ Z.of_nat (size nodes))%Z
    end.
Proof.
  intros Hp1 Hp2 Hl Hbw Hf. set (cap := r_starting_l params + length starts).
  destruct (inline_internal_ok log10 powf debug (nodes := nodes) ltac:(lia) (closest_rep cap)
    (closest_rep_insert debug cap) (closest_rep_visit debug cap) None I ltac:(done) fuel
    (to_knn params) a p) as (a' & s & r & -> & Hpost);
    [done|lia|done|rewrite Hp1, Hp2; apply closest_rep_new|].
  eexists _, _, _. split; [done|]. destruct r as [ret|e]; [|done].
  destruct Hpost as (all & Hs & [Hb1 Hb2] & -> & Hst & Hdone & Hsl). specialize (Hsl eq_refl).
  rewrite Hp1, Hp2 in Hsl. fold cap in Hsl.
  destruct (fi_queue _ _ _ _ _ Hs) as [Hok Hcl _]. cbn in Hok.
  destruct (fi_counters _ _ _ _ _ Hs) as [Hh0 Hc0].
  exists (q_contents (s_best s)), all. split_and!; try done; try lia.
  - split; [by eapply filter_inv_reached|by apply q_contents_sorted, pq_wf|by apply closest_rep_contents| |].
    + intros Hac i Hi. by apply (fi_complete _ _ _ _ _ Hs Hac), Hst.
    + intros Hac Hne. by destruct (filter_inv_settled debug cap s all all Hs Hac (Hdone Hne) Hsl).
  - by rewrite pq_iter_ok, (closest_rep_take _ _ _ Hok Hcl Hsl), q_entries_contents.
  - cbn [ir_matched_results]. rewrite sort_perm. apply List_filter_perm, reverse_Permutation.
Qed.

Lemma range_build_pos b params :
  range_build b = Ok params → 0 < r_starting_l params ∧ 0 < r_beam_width params.
Proof.
  unfold range_build, validate_and_create. intros Hbuild.
  destruct (Nat.eqb_spec (default 1 (rb_beam_width b)) 0); [done|].
  destruct (Nat.eqb_spec (rb_starting_l b) 0); [done|].
  repeat (case_match; [done|]). simplify_eq/=. lia.
Qed.

(** C22: filtered range search returns only accepted nodes within the radius, and all of those
    that its navigation reaches.  A validated search always returns; on graphs of fewer than
    2^31 nodes no counter overflows.  Its first round ends with the closest [starting_l] and the
    number of start points of the nodes that it reached; the seeds are the nodes within the
    radius among the best [starting_l] of these and among all accepted nodes that it reached.
    The second round runs exactly if there are enough seeds and less than the maximum of
    accepted ones.  All accepted seeds are found, and nothing else if there is no second round.
    A second round without a limit, on an accessor that reports all neighbors, exhausts a region
    that holds all seeds, rejected ones included: it holds every neighbor, within the radius
    times the slack, of its nodes, and every accepted node of it within the radius is found.
    What is found are distinct accepted nodes within the radius, with their distances; the first
    [max_returned] of them, less those within the inner radius, are written, as far as there is
    room.  The search fails only with an error of the accessor and has then written nothing. *)
Theorem filtered_range_search_correct (log10 : f64 → f64) (powf : f64 → f64 → f64) (debug : bool)
    (fuel max_degree : nat) (b : RangeBuilder) params (a : A) pooled (output : B) :
  range_build b = Ok params → ob_ok output → size nodes ≤ fuel →
  ∃ output' r,
    filtered_range_search OB log10 powf debug fuel max_degree params (Ok a)
      (λ ob, copy_ids (OB := ob)) pooled output = Some (output', r) ∧
    match r with
    | Err e => filtered_error Z A E e ∧ ob_view output' = ob_view output
    | Ok stats => ∃ cands reached seeds found,
        let beyond_inner n := match r_inner_radius params with
          Some ir => negb (f32_le (nbr_distance n) ir) | None => true end in
        let new := take_opt (room (ob_capacity output) (length (ob_view output)))
          (List.filter beyond_inner (take_opt (r_max_returned params) found)) in
        ob_view output' = ob_view output ++ new ∧ ss_result_count stats = as_u32 (length new) ∧
        first_round (r_starting_l params) cands reached ∧
        NoDup (nbr_id <$> seeds) ∧
        (∀ n, n ∈ seeds ↔ n ∈ reached ∧ f32_le (nbr_distance n) (r_radius params) = true ∧
           (n ∈ take (r_starting_l params) cands ∨ matches (nbr_id n) = true)) ∧
        ss_second_round stats = runs_second_round params (length seeds)
          (length (accepted_nodes (matches := matches) seeds)) ∧
        hits (r_radius params) found ∧
        (∀ n, n ∈ accepted_nodes (matches := matches) seeds → n ∈ found) ∧
        (ss_second_round stats = false → ∀ n, n ∈ found → n ∈ seeds) ∧
        (ss_second_round stats = true → r_max_returned params = None →
         filtered_complete Z A E adj →
         ∃ region, (∀ n, n ∈ seeds ++ found → nbr_id n ∈ region) ∧
           exhausted (r_radius params) (f32_mul (r_radius params) (r_range_slack params))
             region found)
    end.
Proof.
  intros Hbuild Hout Hf. unfold filtered_range_search, search_scratch.
  destruct (range_build_pos b params Hbuild) as [Hl Hbw].
  destruct (fa_num_starting_points a) as [ns|e] eqn:Ens; [|by failed_search].
  pose proof (fa_num_law _ _ Ens) as ->. rewrite get_scratch_eq.
  destruct (first_round_ok log10 powf debug fuel params a
    (mkParams (r_starting_l params) max_degree (length starts)))
    as (a' & s' & r & -> & Hpost); [done..|].
  cbn [mbind option_bind]. destruct r as [ret|e]; [|by failed_search].
  destruct Hpost as (cands & reached & H1 & -> & Hret & Hmat & Hh & Hc). cbn [mbind option_bind].
  rewrite Hret. cbn [ir_matched_results ir_cmps ir_hops].
  destruct (f1_reached _ _ _ H1) as [Hnd Hall]. destruct (f1_closest _ _ _ H1) as (dr & Hdr & _).
  destruct (in_range_ok (r_radius params) (take (r_starting_l params) cands)
    (ir_matched_results ret) reached Hnd Hall) as (R1 & R2 & R3 & R4 & R5 & R6 & R7); [|done|].
  { intros n Hn. rewrite Hdr, elem_of_app. left. by apply (elem_of_sublist _ _ _ (sublist_take _ _)) in Hn. }
  set (seeds := dedup_ids _) in *. set (mat := List.filter _ (ir_matched_results ret)) in *.
  destruct (filtered_second_round_ok fuel params a' s' seeds mat (s_cmps s') (s_hops s') Hbw Hf
    R1 R2 R3 R4 R5 ltac:(lia) ltac:(lia)) as (a2 & found & r & -> & Hr).
  cbn [mbind option_bind]. destruct r as [stats|e]; [|by failed_search].
  destruct Hr as (Hhits & Hrun & (more & -> & Hno) & Hreg).
  unfold copy_ids. cbn [ob_extend distance_filtered]. unfold df_extend.
  destruct (ob_extend_law output (List.filter (λ n, outside_inner params (nbr_distance n))
    (take_opt (r_max_returned params) (mat ++ more))) Hout) as (b' & He & _ & _ & Hv).
  rewrite He. cbn [mbind option_bind]. eexists _, _. split; [done|].
  exists cands, reached, seeds, (mat ++ more). cbn zeta.
  rewrite (List.filter_ext (λ n : Neighbor Z, match r_inner_radius params with
    Some ir => negb (f32_le (nbr_distance n) ir) | None => true end)
    (λ n, outside_inner params (nbr_distance n)))
    by (intros n; unfold outside_inner; destruct (r_inner_radius params); [|done]; by destruct (f32_le _ _)).
  cbn [ss_second_round ss_result_count]. rewrite <-R7. split_and!; try done.
  - intros n Hn. rewrite <-R7 in Hn. apply elem_of_app. by left.
  - intros H2 n. rewrite (Hno H2), app_nil_r. apply R4.
Qed.

End theory.

(** ** The path graph: odd nodes within distance 3 of the query 0 *)

Definition path_frange : Range := mkRange None 2 1 (f32_of_Z 3) None f32_one f32_one.

Lemma filtered_range_search_correct_witness :
  ∃ output' stats,
    filtered_range_search (FA := path_filtered) id_distance_buffer (λ x, x) (λ x _, x) true 5 8
      path_frange (Ok tt) (λ ob, copy_ids (OB := ob)) None
      (mkIdDistance [7; 7; 7; 7]%Z (replicate 4 f32_zero) 0) = Some (output', Ok stats) ∧
    ss_second_round stats = true ∧ id_ids output' = [1; 3; 7; 7]%Z ∧
    ∃ found region, hits (dist := path_dist) (nodes := path_nodes) (matches := Z.odd) (f32_of_Z 3) found ∧
      exhausted (adj := path_adj) (dist := path_dist) (matches := Z.odd) (f32_of_Z 3)
        (f32_mul (f32_of_Z 3) f32_one) region found.
Proof.
  destruct (filtered_range_search_correct (FL := path_filtered_laws) (OL := id_distance_laws)
    ltac:(vm_compute; reflexivity) (λ x, x) (λ x _, x) true 5 8 (range_builder 2 (f32_of_Z 3))
    path_frange tt None (mkIdDistance [7; 7; 7; 7]%Z (replicate 4 f32_zero) 0))
    as (output' & r & Hrun & Hr); [vm_compute; reflexivity|split; simpl; lia|vm_compute; lia|].
  destruct r as [stats|e]; [|vm_compute in Hrun; discriminate].
  exists output', stats. split; [exact Hrun|].
  destruct Hr as (cands & reached & seeds & found & _ & _ & _ & _ & _ & _ & Hh & _ & _ & Hreg).
  vm_compute in Hrun. injection Hrun as <- <-. split; [reflexivity|]. split; [reflexivity|].
  destruct (Hreg eq_refl eq_refl (reference_filtered_complete path_dist path_adj [4%Z] Z.odd))
    as (region & _ & Hex). exists found, region. split; [exact Hh|exact Hex].
Defined.
