(* ===== verification/Flat.v ===== *)
(** * Flat search

    Models [diskann/src/flat/index.rs] and the trait of [diskann/src/flat/strategy.rs]:
    brute-force k-nearest-neighbor search, which streams the distances of all candidates
    through a priority queue of capacity [k].

    - Class [DistancesUnordered] with [DistancesUnorderedLaws]: one scan of the candidates, in
      any order, which may fail part of the way;
    - [flat_knn_search] and its exactness. *)

From S2P Require Import Prelude F32 Neighbor NeighborQueue QueueInterface Search OutputBuffer Knn Filtered FilteredSearch.

(** [trait DistancesUnordered]: the visitor after the scan, the calls of the callback, the
    result. *)
Class DistancesUnordered (I V E : Type) := {
  distances_unordered : V → V * list (I * f32) * result E unit;
}.

(** Each candidate is reported with its distance, at most once, and if the scan completes,
    once. *)
Class DistancesUnorderedLaws (I V E : Type) `{DistancesUnordered I V E}
    (candidates : list I) (dist : I → f32) := {
  scan_law : ∀ v v' calls r, distances_unordered v = (v', calls, r) →
    calls.*2 = dist <$> calls.*1 ∧ NoDup calls.*1 ∧
    match r with
    | Ok _ => calls.*1 ≡ₚ candidates
    | Err _ => ∀ i, i ∈ calls.*1 → i ∈ candidates
    end;
}.
Arguments scan_law {I V E _ candidates dist _} _ _ _ _ _.

(** [flat::SearchStats] *)
Record FlatStats := mkFlatStats { fs_cmps : Z; fs_result_count : Z }.

Section flat.
Context {I V E E' B : Type} `{!EqDecision I} `{DU : !DistancesUnordered I V E}.
Variables (debug : bool) (escalate : E → E').

(** The callback of the scan. *)
Fixpoint flat_scan (calls : list (I * f32)) (queue : NeighborPriorityQueue I) (cmps : Z) :
    option (NeighborPriorityQueue I * Z) :=
  match calls with
  | [] => Some (queue, cmps)
  | (id, dist) :: calls =>
      cmps ← u32_add cmps 1;
      queue ← q_insert debug queue (mkNeighbor id dist);
      flat_scan calls queue cmps
  end.

(** [flat::knn_search]; [k] is not zero, and [escalate] adds the context to an error of the
    scan. *)
Definition flat_knn_search (v : V) (k : nat)
    (processor : PostProcess (I := I) (A := V) (E := E') (B := B)) (output : B) :
    option (V * B * result E' FlatStats) :=
  let queue := q_new k in
  let '(v, calls, r) := distances_unordered v in
  '(queue, cmps) ← flat_scan calls queue 0;
  match r with
  | Err e => Some (v, output, Err (escalate e))
  | Ok _ =>
      candidates ← q_iter queue;
      '(v, output, r) ← processor v (take k candidates) output;
      match r with
      | Err e => Some (v, output, Err e)
      | Ok count => Some (v, output, Ok (mkFlatStats cmps (as_u32 count)))
      end
  end.

End flat.

(** ** Theory *)

Section theory.
Context {I V E E' B : Type} `{Countable I} `{DU : !DistancesUnordered I V E}.
Context {candidates : list I} {dist : I → f32}.
Context `{DL : !DistancesUnorderedLaws I V E candidates dist}.
Context `{OB : !SearchOutputBuffer I B} `{OL : !SearchOutputBufferLaws I B}.
Variables (debug : bool) (escalate : E → E').

(** The queue and the counter do not interact. *)
Lemma flat_scan_eq (calls : list (I * f32)) : ∀ q q' cmps,
  insert_neighbors (NQ := priority_queue_ops debug) q calls = Some q' →
  (cmps + Z.of_nat (length calls) < 2 ^ 32)%Z →
  flat_scan debug calls q cmps = Some (q', (cmps + Z.of_nat (length calls))%Z).
Proof.
  induction calls as [|[i d] calls IH]; intros q q' cmps Hins Hc.
  { cbn in *. simplify_eq. by rewrite Z.add_0_r. }
  cbn [insert_neighbors] in Hins. apply bind_Some in Hins as (q1 & Hq1 & Hins). cbn in Hq1.
  cbn [length] in Hc |- *. cbn [flat_scan]. rewrite u32_add_ok by lia. cbn [mbind option_bind].
  rewrite Hq1. cbn [mbind option_bind]. rewrite (IH _ _ _ Hins) by lia. do 2 f_equal. lia.
Qed.

(** C25: flat search is exact.  For a non-zero [k] and fewer than 2^32 candidates it always
    returns.  When the scan completes, it writes, as far as there is room, the [k] closest of
    all candidates in order of their distance (candidates without a distance are left out), and
    reports the number of comparisons; when the scan fails, the error is returned and nothing
    is written. *)
Theorem flat_knn_search_correct (v : V) (k : nat) (output : B) :
  0 < k → (Z.of_nat (length candidates) < 2 ^ 32)%Z → ob_ok output →
  ∃ v' output' r,
    flat_knn_search debug escalate v k copy_ids output = Some (v', output', r) ∧
    match r with
    | Err e => output' = output ∧
        ∃ e' calls, distances_unordered v = (v', calls, Err e') ∧ e = escalate e'
    | Ok stats => ∃ results,
        let new := take_opt (room (ob_capacity output) (length (ob_view output))) results in
        ob_view output' = ob_view output ++ new ∧
        stats = mkFlatStats (Z.of_nat (length candidates)) (as_u32 (length new)) ∧
        StronglySorted nbr_le results ∧
        closest_of (length results = k) results ((λ i, mkNeighbor i (dist i)) <$> candidates)
    end.
Proof.
  intros Hk Hn Hout. unfold flat_knn_search.
  destruct (distances_unordered v) as [[v1 calls] r] eqn:Hscan.
  destruct (scan_law _ _ _ _ Hscan) as (Hd & Hnd & Hr).
  destruct (insert_neighbors_ok (NQ := priority_queue_ops debug) (QL := priority_queue_laws debug)
    (λ q ins (_ : unit), closest_rep k q ins)
    (λ q n q' ins _, closest_rep_insert debug k q n q' ins) calls tt (q_new k) [])
    as (q1 & Hins & [Hok [Hcl Hcap Hfix] _] & _ & Hl & _); [|done|by intros i _ Hi%elem_of_nil|].
  { split; [by apply pq_ok_new|apply closest_rep_new|by exists []]. }
  assert (length calls ≤ length candidates) as Hlen.
  { rewrite <-(length_fmap fst calls). destruct r; [by rewrite Hr|].
    by apply submseteq_length, NoDup_submseteq. }
  rewrite (flat_scan_eq _ _ _ _ Hins) by lia. cbn [mbind option_bind].
  destruct r as [u|e]; [|eexists _, _, _; split; [done|]; split; [done|]; by eexists _, _]. cbn in Hok, Hl.
  pose proof (pq_wf _ Hok) as Hwf.
  rewrite (pq_iter_ok _ Hok), take_ge, q_entries_contents;
    [|rewrite length_q_entries by done; rewrite Hl; cbn; rewrite <-Hcap; apply Hwf].
  cbn [mbind option_bind]. rewrite take_ge; [|rewrite length_q_contents, <-Hcap by done; apply Hwf].
  destruct (copy_ids_ok (E := E') v1 (q_contents q1) output Hout) as (output' & -> & Hv).
  cbn [mbind option_bind]. eexists _, _, _. split; [done|]. exists (q_contents q1). cbn zeta.
  split_and!; [done| |by apply q_contents_sorted|].
  - rewrite <-(Permutation_length Hr), length_fmap. done.
  - rewrite q_entries_contents, app_nil_r in Hcl. destruct Hcl as (dr & Hdr & Hle). exists dr. split.
    + rewrite <-Hdr, reverse_Permutation, <-Hr. apply reflexive_eq. unfold to_nbrs.
      rewrite <-list_fmap_compose. apply list_fmap_ext. intros j [i d] Hj. cbn. f_equal.
      assert (calls.*2 !! j = Some d) as H2 by (by rewrite list_lookup_fmap, Hj).
      rewrite Hd, !list_lookup_fmap, Hj in H2. by simplify_eq/=.
    + intros y Hy. destruct (Hle y Hy) as [?|[Hfull Hc]]; [by left|right]. split; [|done].
      rewrite length_q_contents by done. unfold q_is_full in Hfull.
      apply andb_true_iff in Hfull as [_ ?%Nat.eqb_eq]. congruence.
Qed.

End theory.

(** ** Five points at distances 0 to 4, scanned in an arbitrary order *)

Definition sample_scan : DistancesUnordered Z unit unit := {|
  distances_unordered v := (v, (λ i, (i, f32_of_Z i)) <$> [3; 0; 4; 1; 2]%Z, Ok tt);
|}.

Lemma sample_scan_laws :
  DistancesUnorderedLaws Z unit unit (H := sample_scan) [0; 1; 2; 3; 4]%Z f32_of_Z.
Proof.
  split. intros v v' calls r Hs. cbn in Hs. simplify_eq. split_and!; [done| |].
  - by apply (bool_decide_unpack _).
  - apply NoDup_Permutation; [by apply (bool_decide_unpack _)..|]. intros i.
    cbn. rewrite !elem_of_cons, elem_of_nil. tauto.
Qed.

Lemma flat_knn_search_correct_witness :
  ∃ v' output' r,
    flat_knn_search (DU := sample_scan) true (λ e : unit, e) tt 2 copy_ids
      (mkIdDistance [7; 7; 7]%Z (replicate 3 f32_zero) 0) = Some (v', output', r) ∧
    r = Ok (mkFlatStats 5 2) ∧ id_ids output' = [0; 1; 7]%Z.
Proof.
  destruct (flat_knn_search_correct (DL := sample_scan_laws) (OL := id_distance_laws) true
    (λ e : unit, e) tt 2 (mkIdDistance [7; 7; 7]%Z (replicate 3 f32_zero) 0))
    as (v' & output' & r & Hrun & _); [lia|vm_compute; reflexivity|split; simpl; lia|].
  exists v', output', r. split; [exact Hrun|].
  vm_compute in Hrun. injection Hrun as _ <- <-. split; reflexivity.
Defined.
