(* ===== verification/AsyncTools.v ===== *)
(** * Work distribution of the batched operations

    Models [diskann/src/utils/async_tools.rs], with which [multi_insert] and the deletion
    routines distribute a batch over tasks.

    - Module [Around]: the window of batch members around a position;
    - Module [Balancer]: the lock-free [DynamicBalancer], as a transition system in which the
      calls of [next] of several tasks interleave between their atomic operations;
    - Module [Chunks]: [arc_chunks];
    - Module [Partition]: [partition] and [PartitionIter] with [usize] arithmetic. *)

From S2P Require Import Prelude.

(** ** [around] *)

Module Around.
Section around.
Context {T : Type}.

Record Around := mkAround {
  slice : list T;
  skip : nat;
  position : nat;
  remaining : nat;
}.

(** [Around::new] *)
Definition around_new (slice : list T) (i len : nat) : Around :=
  let max := length slice in
  if max =? 0 then mkAround slice 0 0 0 else
  let len := len `min` (max - 1) in
  let half := (len + 1) / 2 in
  let i := i `min` (max - 1) in
  let position := if half <=? i then i - half else max - (half - i) in
  mkAround slice i position len.

(** [Around::inc] *)
Definition around_inc (a : Around) : Around * nat :=
  let current := position a in
  let next := current + 1 in
  (mkAround (slice a) (skip a) (if next =? length (slice a) then 0 else next) (remaining a),
   current).

(** [Iterator::next]; the outer [None] is an access out of bounds. *)
Definition around_next (a : Around) : option (Around * option T) :=
  match remaining a with
  | 0 => Some (a, None)
  | S remaining =>
      let a := mkAround (slice a) (skip a) (position a) remaining in
      let '(a, i) := around_inc a in
      let '(a, i) := if i =? skip a then around_inc a else (a, i) in
      v ← slice a !! i;
      Some (a, Some v)
  end.

(** The items that the iterator yields. *)
Fixpoint collect (n : nat) (a : Around) : option (list T) :=
  match n with
  | 0 => Some []
  | S n =>
      '(a, v) ← around_next a;
      match v with
      | None => Some []
      | Some v => rest ← collect n a; Some (v :: rest)
      end
  end.

(** [around] *)
Definition around (slice : list T) (i len : nat) : option (list T) :=
  collect (length slice) (around_new slice i len).

End around.
Arguments Around : clear implicits.

(** The positions of a window of [len] elements around [i] on a circle of [n]: half of them,
    rounded up, before [i], the others after it. *)
Definition window (n i len : nat) : list nat :=
  (λ k, (i + n - (len + 1) / 2 + k + (if (len + 1) / 2 <=? k then 1 else 0)) mod n)
    <$> seq 0 len.

Section theory.
Context {T : Type}.

Lemma mod_succ x n :
  0 < n → (if x mod n + 1 =? n then 0 else x mod n + 1) = (x + 1) mod n.
Proof.
  intros Hn. pose proof (Nat.mod_upper_bound x n ltac:(lia)) as Hb.
  rewrite <-(Nat.Div0.add_mod_idemp_l x 1 n).
  destruct (Nat.eqb_spec (x mod n + 1) n) as [->|].
  - by rewrite Nat.Div0.mod_same.
  - rewrite (Nat.mod_small (x mod n + 1)); lia.
Qed.

Lemma mod_inj x a b n : a < n → b < n → (x + a) mod n = (x + b) mod n → a = b.
Proof.
  intros Ha Hb Heq.
  pose proof (Nat.div_mod_eq (x + a) n). pose proof (Nat.div_mod_eq (x + b) n).
  assert ((x + a) / n = (x + b) / n); nia.
Qed.

Lemma half_le len : (len + 1) / 2 ≤ len.
Proof. destruct len; [done|]. apply Nat.Div0.div_le_upper_bound. lia. Qed.

Lemma window_nodup n i len : len < n → NoDup (window n i len).
Proof.
  intros Hl. apply NoDup_fmap_2_strong; [|apply NoDup_seq].
  intros a b Ha%elem_of_seq Hb%elem_of_seq Heq. rewrite <-!Nat.add_assoc in Heq.
  assert (∀ k, k < len → k + (if (len + 1) / 2 <=? k then 1 else 0) < n) as Hk.
  { intros k ?. destruct ((len + 1) / 2 <=? k); lia. }
  apply mod_inj in Heq; [|apply Hk; lia..].
  destruct (Nat.leb_spec ((len + 1) / 2) a), (Nat.leb_spec ((len + 1) / 2) b); lia.
Qed.

(** The window passes [i] exactly after its first half. *)
Lemma window_at n i len j :
  len < n → i < n → j < n → (i + n - (len + 1) / 2 + j) mod n = i ↔ j = (len + 1) / 2.
Proof.
  intros Hl Hi Hj. pose proof (half_le len).
  assert ((i + n - (len + 1) / 2 + (len + 1) / 2) mod n = i) as Hi'.
  { replace (i + n - (len + 1) / 2 + (len + 1) / 2) with (i + 1 * n) by lia.
    rewrite Nat.Div0.mod_add. by apply Nat.mod_small. }
  split; [|by intros ->]. intros Heq. rewrite <-Hi' in Heq at 2. apply mod_inj in Heq; lia.
Qed.

Lemma window_skip n i len x : len < n → i < n → x ∈ window n i len → x < n ∧ x ≠ i.
Proof.
  intros Hl Hi Hx. apply list_elem_of_fmap in Hx as (k & -> & Hk%elem_of_seq).
  split; [apply Nat.mod_upper_bound; lia|]. rewrite <-Nat.add_assoc, window_at by
    (destruct (Nat.leb_spec ((len + 1) / 2) k); lia).
  destruct (Nat.leb_spec ((len + 1) / 2) k); lia.
Qed.

Lemma inc_eq (s : list T) sk x r :
  0 < length s →
  around_inc (mkAround s sk (x mod length s) r) = (mkAround s sk ((x + 1) mod length s) r, x mod length s).
Proof. intros Hn. unfold around_inc. cbn [slice skip position remaining]. by rewrite mod_succ. Qed.

Lemma collect_ok (s : list T) i len m : ∀ r k,
  i < length s → len < length s → k + r = len → r ≤ m →
  let half := (len + 1) / 2 in
  collect m (mkAround s i
    ((i + length s - half + (k + if half <? k then 1 else 0)) mod length s) r) =
  mapM (s !!.) ((λ k, (i + length s - half + k + (if half <=? k then 1 else 0)) mod length s)
    <$> seq k r).
Proof.
  induction m as [|m IH]; intros r k Hi Hlen Hk Hm half; cbn [collect].
  { by replace r with 0 by lia. }
  unfold around_next. cbn [remaining slice skip position]. destruct r as [|r]; [done|].
  pose proof (half_le len). rewrite inc_eq by lia. cbn [skip].
  set (b := i + length s - half) in *.
  assert (∀ j, j < length s → (b + j) mod length s = i ↔ j = half) as Hat
    by (intros; by apply window_at).
  assert ((b + (k + (if half <? k then 1 else 0))) mod length s = i ↔ k = half) as Hsk.
  { destruct (Nat.ltb_spec half k); rewrite Hat by lia; lia. }
  specialize (IH r (S k) Hi Hlen ltac:(lia) ltac:(lia)). cbn zeta in IH. fold half in IH. fold b in IH.
  cbn [seq fmap list_fmap mapM].
  assert ((b + k + (if half <=? k then 1 else 0)) mod length s < length s) as Hlt
    by (apply Nat.mod_upper_bound; lia).
  destruct (lookup_lt_is_Some_2 s _ Hlt) as [v Hv]. rewrite Hv. cbn [mbind option_bind].
  destruct (Nat.eqb_spec ((b + (k + (if half <? k then 1 else 0))) mod length s) i) as [He|He].
  - apply Hsk in He as Hkh. rewrite inc_eq by lia. cbn [slice].
    rewrite (proj2 (Nat.ltb_ge half k)), (proj2 (Nat.leb_le half k)) in * by lia.
    rewrite (proj2 (Nat.ltb_lt half (S k))) in IH by lia.
    replace (b + (k + 0) + 1) with (b + k + 1) by lia. rewrite Hv. cbn [mbind option_bind].
    replace (b + k + 1 + 1) with (b + (S k + 1)) by lia. rewrite IH.
    by destruct (mapM _ _).
  - assert (k ≠ half) by (by intros Heq; apply He, Hsk).
    assert ((if half <? k then 1 else 0) = (if half <=? k then 1 else 0)) as Hd
      by (destruct (Nat.ltb_spec half k), (Nat.leb_spec half k); lia).
    assert ((if half <? S k then 1 else 0) = (if half <=? k then 1 else 0)) as Hd'
      by (destruct (Nat.ltb_spec half (S k)), (Nat.leb_spec half k); lia).
    rewrite Hd' in IH. rewrite Hd. cbn [slice].
    replace (b + (k + (if half <=? k then 1 else 0))) with (b + k + (if half <=? k then 1 else 0))
      by lia. rewrite Hv. cbn [mbind option_bind].
    replace (b + k + (if half <=? k then 1 else 0) + 1)
      with (b + (S k + (if half <=? k then 1 else 0))) by lia.
    rewrite IH. by destruct (mapM _ _).
Qed.

Lemma around_ok (s : list T) i len :
  s ≠ [] →
  let n := length s in
  let pos := window n (i `min` (n - 1)) (len `min` (n - 1)) in
  around s i len = mapM (s !!.) pos ∧ is_Some (around s i len) ∧
  length pos = len `min` (n - 1) ∧ NoDup pos ∧
  ∀ x, x ∈ pos → x < n ∧ x ≠ i `min` (n - 1).
Proof.
  intros Hne n pos. assert (0 < n) as Hn by (unfold n; destruct s; simpl; [done|lia]).
  assert (around s i len = mapM (s !!.) pos) as Heq.
  { unfold around, around_new. fold n. rewrite (proj2 (Nat.eqb_neq n 0)) by lia.
    set (l := len `min` (n - 1)). set (j := i `min` (n - 1)). pose proof (half_le l).
    pose proof (collect_ok s j l n l 0 ltac:(lia) ltac:(lia) ltac:(lia) ltac:(lia)) as Hc.
    cbn zeta in Hc. fold n in Hc. rewrite (proj2 (Nat.ltb_ge ((l + 1) / 2) 0)) in Hc by lia.
    unfold pos, window. fold j l. rewrite <-Hc. do 2 f_equal. rewrite !Nat.add_0_r.
    destruct (Nat.leb_spec ((l + 1) / 2) j).
    - replace (j + n - (l + 1) / 2) with (j - (l + 1) / 2 + 1 * n) by lia.
      rewrite Nat.Div0.mod_add, Nat.mod_small; lia.
    - rewrite Nat.mod_small; lia. }
  assert (∀ x, x ∈ pos → x < n ∧ x ≠ i `min` (n - 1)) as Hin by (intros x; apply window_skip; lia).
  split_and!; [done| |unfold pos, window; by rewrite length_fmap, length_seq
              |apply window_nodup; lia|done].
  rewrite Heq. apply mapM_is_Some_2, Forall_forall. intros x Hx. apply lookup_lt_is_Some_2, Hin, Hx.
Qed.

(** [around] yields the elements of the circular window around the position (positions and
    lengths beyond the slice are cut), never reads outside the slice, and yields [len] or all
    but one of the elements, at distinct positions and never the one at the position itself. *)
Theorem around_window (s : list T) i len :
  s ≠ [] →
  let n := length s in
  let pos := window n (i `min` (n - 1)) (len `min` (n - 1)) in
  around s i len = mapM (s !!.) pos ∧ is_Some (around s i len) ∧
  length pos = len `min` (n - 1) ∧ NoDup pos ∧
  ∀ x, x ∈ pos → x < n ∧ x ≠ i `min` (n - 1).
Proof. apply around_ok. Qed.

End theory.

Lemma around_window_witness :
  around [10; 11; 12; 13; 14; 15] 3 3 = Some [11; 12; 14] ∧
  is_Some (around [10; 11; 12; 13; 14; 15] 3 3).
Proof.
  split; [reflexivity|].
  exact (proj1 (proj2 (around_window [10; 11; 12; 13; 14; 15] 3 3 ltac:(discriminate)))).
Defined.

End Around.

(** ** [DynamicBalancer] *)

Module Balancer.
Section balancer.
Context {T : Type}.

Record DynamicBalancer := mkBalancer {
  items : list T;
  current : Z;
}.

Definition usize_max : Z := (2 ^ 64 - 1)%Z.

(** [DynamicBalancer::new] *)
Definition balancer_new (items : list T) : DynamicBalancer := mkBalancer items 0.

(** [AtomicUsize::fetch_add(1)] and [fetch_sub(1)]: they wrap around. *)
Definition fetch_add (b : DynamicBalancer) : DynamicBalancer * Z :=
  (mkBalancer (items b) ((current b + 1) mod 2 ^ 64), current b).
Definition fetch_sub (b : DynamicBalancer) : DynamicBalancer :=
  mkBalancer (items b) ((current b - 1) mod 2 ^ 64).

Inductive Begin := Claimed (v : T) (i : nat) | OutOfRange | Abort.

(** [next] up to its second atomic operation, and that operation. *)
Definition next_begin (b : DynamicBalancer) : DynamicBalancer * Begin :=
  let '(b, i) := fetch_add b in
  match items b !! Z.to_nat i with
  | Some v => (b, Claimed v (Z.to_nat i))
  | None => (b, if (i =? usize_max)%Z then Abort else OutOfRange)
  end.
Definition next_end (b : DynamicBalancer) : DynamicBalancer := fetch_sub b.

(** [DynamicBalancer::next] without interference; [None] when the process aborts. *)
Definition balancer_next (b : DynamicBalancer) : option (DynamicBalancer * option (T * nat)) :=
  let '(b, r) := next_begin b in
  match r with
  | Claimed v i => Some (b, Some (v, i))
  | OutOfRange => Some (next_end b, None)
  | Abort => None
  end.

(** Several tasks call [next] concurrently: [busy] are the tasks between the two atomic
    operations, [claims] the items handed out, with the task that got each, in the order of the
    atomic operations; [finished] are the tasks that were told that there is no work left. *)
Record system := mkSystem {
  balancer : DynamicBalancer;
  busy : list nat;
  claims : list (nat * T * nat);
  finished : list nat;
}.

Definition start (items : list T) : system := mkSystem (balancer_new items) [] [] [].

Inductive step (ntasks : nat) : relation system :=
  | step_claim task st b v i :
      task < ntasks → task ∉ busy st → next_begin (balancer st) = (b, Claimed v i) →
      step ntasks st (mkSystem b (busy st) (claims st ++ [(task, v, i)]) (finished st))
  | step_out task st b :
      task < ntasks → task ∉ busy st → next_begin (balancer st) = (b, OutOfRange) →
      step ntasks st (mkSystem b (task :: busy st) (claims st) (finished st))
  | step_back task st busy1 busy2 :
      busy st = busy1 ++ task :: busy2 →
      step ntasks st (mkSystem (next_end (balancer st)) (busy1 ++ busy2) (claims st)
                        (task :: finished st)).

(** The counter is the number of items handed out plus the number of calls in retreat, of which
    there are none before all items are handed out. *)
Record inv (ntasks : nat) (its : list T) (st : system) : Prop := {
  inv_items : items (balancer st) = its;
  inv_current : current (balancer st) = Z.of_nat (length (claims st) + length (busy st));
  inv_busy : NoDup (busy st) ∧ ∀ task, task ∈ busy st → task < ntasks;
  inv_claims : (claims st).*2 = seq 0 (length (claims st));
  inv_values : ∀ task v i, (task, v, i) ∈ claims st → its !! i = Some v;
  inv_count : length (claims st) ≤ length its;
  inv_all : busy st ≠ [] ∨ finished st ≠ [] → length (claims st) = length its;
}.

Lemma busy_bound ntasks (l : list nat) :
  NoDup l → (∀ t, t ∈ l → t < ntasks) → length l ≤ ntasks.
Proof.
  intros Hnd Hl. rewrite <-(length_seq ntasks 0).
  apply submseteq_length, NoDup_submseteq; [done|]. intros t Ht. apply elem_of_seq.
  specialize (Hl t Ht). lia.
Qed.

Section invariant.
Variables (ntasks : nat) (its : list T).
Hypothesis small : (Z.of_nat (length its) + Z.of_nat ntasks < 2 ^ 64 - 1)%Z.

Lemma begin_inv st b r :
  inv ntasks its st → next_begin (balancer st) = (b, r) →
  items b = its ∧
  current b = ((current (balancer st) + 1) mod 2 ^ 64)%Z ∧
  match r with
  | Claimed v i => i = length (claims st) ∧ busy st = [] ∧ its !! i = Some v
  | OutOfRange => length (claims st) = length its
  | Abort => False
  end.
Proof.
  intros [Hit Hcur Hb Hcl Hv Hn Hall] Hrun. pose proof (busy_bound ntasks _ (proj1 Hb) (proj2 Hb)).
  unfold next_begin, fetch_add in Hrun. cbn [items] in Hrun. rewrite Hit, Hcur, Nat2Z.id in Hrun.
  destruct (its !! _) as [v|] eqn:El.
  - simplify_eq/=. apply lookup_lt_Some in El as Hlt. rewrite Hcur.
    assert (busy st = []) as Hbusy.
    { destruct (busy st) as [|x l] eqn:Eb; [done|].
      assert (length (claims st) = length (items (balancer st))) by (apply Hall; by left). lia. }
    rewrite Hbusy in *. cbn [length] in *. rewrite Nat.add_0_r in *. done.
  - apply lookup_ge_None in El. rewrite (proj2 (Z.eqb_neq _ _)) in Hrun by (unfold usize_max; lia).
    simplify_eq/=. rewrite Hcur. split_and!; [done|done|].
    destruct (busy st) as [|x l] eqn:Eb; [simpl in *; lia|]. apply Hall. by left.
Qed.

Lemma step_inv st st' : inv ntasks its st → step ntasks st st' → inv ntasks its st'.
Proof.
  intros Hi Hs. pose proof Hi as [Hit Hcur [Hnd Hb] Hcl Hv Hn Hall].
  pose proof (busy_bound ntasks _ Hnd Hb).
  destruct Hs as [task st b v i Ht Hnb Hrun|task st b Ht Hnb Hrun|task st b1 b2 Hbusy].
  - destruct (begin_inv st b _ Hi Hrun) as (Hit' & Hcur' & -> & Hbusy & Hvi).
    apply lookup_lt_Some in Hvi as Hlt. split; cbn [balancer busy claims finished].
    + done.
    + rewrite Hcur', Hcur, length_app, Hbusy. cbn [length]. rewrite Z.mod_small; lia.
    + done.
    + by rewrite fmap_app, Hcl, length_app, seq_app.
    + intros t w j [?|Hj]%elem_of_app; [by eapply Hv|]. apply list_elem_of_singleton in Hj. by simplify_eq.
    + rewrite length_app. simpl. lia.
    + intros Hor. rewrite (Hall Hor) in Hlt. lia.
  - destruct (begin_inv st b _ Hi Hrun) as (Hit' & Hcur' & Hfull).
    assert (length (task :: busy st) ≤ ntasks) as Hlen.
    { apply busy_bound; [by apply NoDup_cons|]. intros t [->|?]%elem_of_cons; auto. }
    split; cbn [balancer busy claims finished]; try done.
    + rewrite Hcur', Hcur. cbn [length] in *. rewrite Z.mod_small; lia.
    + split; [by apply NoDup_cons|]. intros t [->|?]%elem_of_cons; auto.
  - assert (length (claims st) = length its) as Hfull.
    { apply Hall. left. rewrite Hbusy. by destruct b1. }
    rewrite Hbusy in *. split; cbn [balancer busy claims finished next_end fetch_sub items current];
      try done.
    + rewrite Hcur, !length_app. rewrite length_app in *. cbn [length] in *.
      rewrite Z.mod_small; lia.
    + split.
      * apply (sublist_NoDup _ _ Hnd), sublist_app; [done|by apply sublist_cons].
      * intros t Ht. apply Hb. rewrite elem_of_app, elem_of_cons. apply elem_of_app in Ht. tauto.
Qed.

Lemma start_inv : inv ntasks its (start its).
Proof.
  split; cbn; try done; try lia.
  - split; [constructor|by intros ? ?%elem_of_nil].
  - by intros ??? ?%elem_of_nil.
  - by intros [?|?].
Qed.

Lemma reachable_inv st : rtc (step ntasks) (start its) st → inv ntasks its st.
Proof.
  intros Hr. revert Hr. generalize start_inv. generalize (start its) as s0.
  intros s0 Hi Hr. induction Hr as [|x y z Hs _ IH]; [done|]. by eapply IH, step_inv.
Qed.

(** C19: under any interleaving of the calls of any number of tasks, the balancer hands out the
    items one after the other, each exactly once and with its own position, never aborts, and
    tells a task that there is no work left only when all items have been handed out. *)
Theorem balancer_exactly_once st :
  rtc (step ntasks) (start its) st →
  (claims st).*2 = seq 0 (length (claims st)) ∧
  (∀ task v i, (task, v, i) ∈ claims st → its !! i = Some v) ∧
  (next_begin (balancer st)).2 ≠ Abort ∧
  (finished st ≠ [] → (claims st).*2 = seq 0 (length its)).
Proof.
  intros Hi%reachable_inv. destruct (next_begin (balancer st)) as [b r] eqn:Hb.
  pose proof (begin_inv st b r Hi Hb) as (_ & _ & Hr). destruct Hi as [_ _ _ Hcl Hv _ Hall].
  split_and!; [done|done|cbn; by destruct r|]. intros Hf. rewrite Hcl, Hall by auto. done.
Qed.

End invariant.
End balancer.
Arguments DynamicBalancer : clear implicits.
Arguments system : clear implicits.

(** Two tasks share two items: the second task overtakes the retreat of the first. *)
Lemma balancer_exactly_once_witness :
  ∃ st, rtc (step 2) (start [7; 8]%Z) st ∧ finished st = [0; 1] ∧ (claims st).*2 = [0; 1] ∧
    current (balancer st) = 2%Z.
Proof.
  assert (∃ st, rtc (step 2) (start [7; 8]%Z) st ∧ finished st = [0; 1] ∧
    current (balancer st) = 2%Z) as (st & Hr & Hf & Hc).
  { eexists. split.
    - eapply rtc_l; [apply (step_claim 2 0); [lia|apply not_elem_of_nil|vm_compute; reflexivity]|].
      eapply rtc_l; [apply (step_claim 2 1); [lia|apply not_elem_of_nil|vm_compute; reflexivity]|].
      eapply rtc_l; [apply (step_out 2 0); [lia|apply not_elem_of_nil|vm_compute; reflexivity]|].
      eapply rtc_l; [apply (step_out 2 1); [lia| |vm_compute; reflexivity]|].
      { apply not_elem_of_cons. split; [lia|apply not_elem_of_nil]. }
      eapply rtc_l; [apply (step_back 2 1 _ [] [0]); reflexivity|].
      eapply rtc_l; [apply (step_back 2 0 _ [] []); reflexivity|]. apply rtc_refl.
    - split; vm_compute; reflexivity. }
  exists st. split; [exact Hr|]. split; [exact Hf|]. split; [|exact Hc].
  refine (proj2 (proj2 (proj2 (balancer_exactly_once 2 [7; 8]%Z _ st Hr))) _);
    [vm_compute; reflexivity|rewrite Hf; discriminate].
Defined.

End Balancer.

(** ** Arithmetic on [usize] that panics on overflow *)

Definition uadd (x y : Z) : option Z := if (x + y <? 2 ^ 64)%Z then Some (x + y)%Z else None.
Definition umul (x y : Z) : option Z := if (x * y <? 2 ^ 64)%Z then Some (x * y)%Z else None.
Definition udiff (x y : Z) : option Z := if (y <=? x)%Z then Some (x - y)%Z else None.

Lemma uadd_ok x y : (x + y < 2 ^ 64)%Z → uadd x y = Some (x + y)%Z.
Proof. intros Hl. unfold uadd. by rewrite (proj2 (Z.ltb_lt _ _) Hl). Qed.
Lemma umul_ok x y : (x * y < 2 ^ 64)%Z → umul x y = Some (x * y)%Z.
Proof. intros Hl. unfold umul. by rewrite (proj2 (Z.ltb_lt _ _) Hl). Qed.
Lemma udiff_ok x y : (y ≤ x)%Z → udiff x y = Some (x - y)%Z.
Proof. intros Hl. unfold udiff. by rewrite (proj2 (Z.leb_le _ _) Hl). Qed.

(** ** [partition] and [PartitionIter] *)

Module Partition.
Local Open Scope Z_scope.

(** [partition_impl]: the range as a pair. *)
Definition partition_impl (nitems ntasks task : Z) : option (Z * Z) :=
  let k := nitems / ntasks in
  kn ← umul k ntasks;
  m ← udiff nitems kn;
  if m <=? task then
    k1 ← uadd k 1; a ← umul m k1; t ← udiff task m; b ← umul t k;
    start ← uadd a b; stop ← uadd start k; Some (start, stop)
  else
    k1 ← uadd k 1; start ← umul task k1; s ← uadd start k; stop ← uadd s 1;
    Some (start, stop).

Record PartitionError := mkError { ntasks : Z; task : Z }.

(** [partition] *)
Definition partition (nitems ntasks task : Z) : option (result PartitionError (Z * Z)) :=
  if ntasks <=? task then Some (Err (mkError ntasks task))
  else r ← partition_impl nitems ntasks task; Some (Ok r).

Record PartitionIter := mkIter { it_nitems : Z; it_ntasks : Z; it_current : Z }.

(** [PartitionIter::new], [next] and [size_hint] *)
Definition iter_new (nitems ntasks : Z) : PartitionIter := mkIter nitems ntasks 0.
Definition iter_next (it : PartitionIter) : option (PartitionIter * option (Z * Z)) :=
  if it_ntasks it <=? it_current it then Some (it, None) else
  r ← partition_impl (it_nitems it) (it_ntasks it) (it_current it);
  c ← uadd (it_current it) 1;
  Some (mkIter (it_nitems it) (it_ntasks it) c, Some r).
Definition iter_size_hint (it : PartitionIter) : option Z := udiff (it_ntasks it) (it_current it).

(** The ranges that the iterator yields; [fuel] is at least their number plus one. *)
Fixpoint iter_collect (fuel : nat) (it : PartitionIter) : option (list (Z * Z)) :=
  match fuel with
  | O => None
  | S fuel =>
      '(it, r) ← iter_next it;
      match r with
      | None => Some []
      | Some r => rest ← iter_collect fuel it; Some (r :: rest)
      end
  end.

(** The items of a range. *)
Definition range_items (r : Z * Z) : list Z := seqZ r.1 (r.2 - r.1).

Section theory.
Variables (nitems ntasks : Z).
Hypothesis items_small : 0 ≤ nitems < 2 ^ 64 - 1.
Hypothesis tasks_small : 0 < ntasks < 2 ^ 64.

(** The lower end of the range of a task. *)
Definition bound (t : Z) : Z := t * (nitems / ntasks) + t `min` (nitems mod ntasks).

Lemma bound_last : bound ntasks = nitems.
Proof.
  unfold bound. pose proof (Z.div_mod nitems ntasks). pose proof (Z.mod_pos_bound nitems ntasks).
  lia.
Qed.

Lemma bound_step t : 0 ≤ t < ntasks →
  bound (t + 1) - bound t = nitems / ntasks ∨ bound (t + 1) - bound t = nitems / ntasks + 1.
Proof. unfold bound. lia. Qed.

Lemma bound_range t : 0 ≤ t ≤ ntasks → 0 ≤ bound t ≤ nitems.
Proof.
  intros Ht. unfold bound. pose proof (Z.div_mod nitems ntasks ltac:(lia)).
  pose proof (Z.mod_pos_bound nitems ntasks ltac:(lia)).
  pose proof (Z.div_pos nitems ntasks). nia.
Qed.

Lemma partition_impl_ok t :
  0 ≤ t < ntasks → partition_impl nitems ntasks t = Some (bound t, bound (t + 1)).
Proof.
  intros Ht. unfold partition_impl.
  pose proof (Z.div_mod nitems ntasks ltac:(lia)) as Hdm.
  pose proof (Z.mod_pos_bound nitems ntasks ltac:(lia)) as Hm.
  pose proof (Z.div_pos nitems ntasks ltac:(lia) ltac:(lia)) as Hk.
  pose proof (bound_range t ltac:(lia)) as Hb. pose proof (bound_range (t + 1) ltac:(lia)) as Hb'.
  unfold bound in *. set (k := nitems / ntasks) in *. set (m := nitems mod ntasks) in *.
  rewrite umul_ok by lia. cbn [mbind option_bind]. rewrite udiff_ok by lia.
  cbn [mbind option_bind]. replace (nitems - k * ntasks) with m by lia.
  assert (k ≤ nitems) by nia.
  destruct (Z.leb_spec m t).
  - rewrite uadd_ok by lia. cbn [mbind option_bind]. rewrite umul_ok by nia.
    cbn [mbind option_bind]. rewrite udiff_ok by lia. cbn [mbind option_bind].
    rewrite umul_ok by nia. cbn [mbind option_bind]. rewrite uadd_ok by nia.
    cbn [mbind option_bind]. rewrite uadd_ok by nia. cbn [mbind option_bind]. do 2 f_equal; lia.
  - rewrite uadd_ok by lia. cbn [mbind option_bind]. rewrite umul_ok by nia.
    cbn [mbind option_bind]. rewrite uadd_ok by nia. cbn [mbind option_bind].
    rewrite uadd_ok by nia. cbn [mbind option_bind]. do 2 f_equal; lia.
Qed.

Lemma iter_collect_ok fuel : ∀ c,
  0 ≤ c ≤ ntasks → ntasks - c < Z.of_nat fuel →
  iter_collect fuel (mkIter nitems ntasks c) =
    Some ((λ t, (bound t, bound (t + 1))) <$> seqZ c (ntasks - c)).
Proof.
  induction fuel as [|fuel IH]; intros c Hc Hf; [lia|]. cbn [iter_collect]. unfold iter_next.
  cbn [it_ntasks it_current it_nitems]. destruct (Z.leb_spec ntasks c).
  { replace (ntasks - c) with 0 by lia. done. }
  rewrite partition_impl_ok by lia. cbn [mbind option_bind]. rewrite uadd_ok by lia.
  cbn [mbind option_bind]. rewrite IH by lia. cbn [mbind option_bind].
  rewrite (seqZ_cons c (ntasks - c)) by lia.
  by replace (ntasks - (c + 1)) with (Z.pred (ntasks - c)) by lia.
Qed.

Lemma ranges_concat (n : nat) : Z.of_nat n ≤ ntasks →
  concat (range_items <$> ((λ t, (bound t, bound (t + 1))) <$> seqZ 0 (Z.of_nat n))) =
    seqZ 0 (bound (Z.of_nat n)).
Proof.
  induction n as [|n IH]; intros Hn.
  { unfold bound. pose proof (Z.mod_pos_bound nitems ntasks).
    by replace (Z.of_nat 0 * (nitems / ntasks) + Z.of_nat 0 `min` (nitems mod ntasks)) with 0 by lia. }
  rewrite Nat2Z.inj_succ, <-Z.add_1_r, seqZ_app, !fmap_app, concat_app, IH by lia.
  rewrite Z.add_0_l. change (seqZ (Z.of_nat n) 1) with [0 + Z.of_nat n]. rewrite Z.add_0_l.
  cbn [fmap list_fmap concat]. rewrite app_nil_r. unfold range_items. cbn [fst snd].
  pose proof (bound_range (Z.of_nat n)). pose proof (bound_range (Z.of_nat n + 1)).
  pose proof (bound_step (Z.of_nat n)). pose proof (Z.div_pos nitems ntasks).
  replace (bound (Z.of_nat n + 1))
    with (bound (Z.of_nat n) + (bound (Z.of_nat n + 1) - bound (Z.of_nat n))) at 2 by lia.
  rewrite seqZ_app by lia. done.
Qed.

(** [PartitionIter] yields one range per task, without overflow; the ranges, one after the
    other, are exactly the items, so they are disjoint and cover them, and their lengths differ
    by at most one.  [partition] returns the range of a task, or its error for a task that
    does not exist. *)
Theorem partition_covers fuel :
  ntasks < Z.of_nat fuel →
  ∃ ranges, iter_collect fuel (iter_new nitems ntasks) = Some ranges ∧
    Z.of_nat (length ranges) = ntasks ∧ concat (range_items <$> ranges) = seqZ 0 nitems ∧
    (∀ r r', r ∈ ranges → r' ∈ ranges → Z.abs ((r.2 - r.1) - (r'.2 - r'.1)) ≤ 1) ∧
    (∀ t, 0 ≤ t < ntasks → ∃ r, partition nitems ntasks t = Some (Ok r) ∧
       ranges !! Z.to_nat t = Some r) ∧
    (∀ t, ntasks ≤ t → partition nitems ntasks t = Some (Err (mkError ntasks t))).
Proof.
  intros Hf. unfold iter_new. rewrite iter_collect_ok by lia. rewrite Z.sub_0_r.
  eexists. split; [done|]. split_and!.
  - rewrite length_fmap, length_seqZ. lia.
  - rewrite <-(Z2Nat.id ntasks) at 1 by lia. rewrite ranges_concat by lia.
    by rewrite Z2Nat.id, bound_last by lia.
  - intros r r' (t & -> & Ht%elem_of_seqZ)%list_elem_of_fmap
      (t' & -> & Ht'%elem_of_seqZ)%list_elem_of_fmap. cbn [fst snd].
    pose proof (bound_step t ltac:(lia)). pose proof (bound_step t' ltac:(lia)). lia.
  - intros t Ht. unfold partition. rewrite (proj2 (Z.leb_gt _ _)) by lia.
    rewrite partition_impl_ok by done. eexists. split; [done|].
    rewrite list_lookup_fmap, lookup_seqZ_lt by lia. cbn. by rewrite Z2Nat.id by lia.
  - intros t Ht. unfold partition. by rewrite (proj2 (Z.leb_le _ _)).
Qed.

End theory.

Lemma partition_covers_witness :
  ∃ ranges, iter_collect 4 (iter_new 8 3) = Some ranges ∧ ranges = [(0, 3); (3, 6); (6, 8)] ∧
    concat (range_items <$> ranges) = seqZ 0 8.
Proof.
  destruct (partition_covers 8 3 ltac:(lia) ltac:(lia) 4 ltac:(lia)) as (rs & Hrun & _ & Hc & _).
  exists rs. split; [exact Hrun|]. split; [|exact Hc].
  vm_compute in Hrun. injection Hrun as <-. reflexivity.
Defined.

End Partition.

(** ** [arc_chunks] *)

Module Chunks.
Section chunks.
Context {T : Type}.

(** [ArcChunk] *)
Record ArcChunk := mkChunk { data : list T; chunk_start : Z; chunk_end : Z }.

(** [ArcChunk::new] *)
Definition chunk_new (data : list T) (start stop : Z) : option ArcChunk :=
  _ ← rassert (stop <=? Z.of_nat (length data))%Z; Some (mkChunk data start stop).

(** [ArcChunk::len] *)
Definition chunk_len (c : ArcChunk) : Z := Z.max 0 (chunk_end c - chunk_start c).

(** [ArcChunk::get_chunk]: slicing panics out of range. *)
Definition get_chunk (c : ArcChunk) : option (list T) :=
  _ ← rassert ((chunk_start c <=? chunk_end c) && (chunk_end c <=? Z.of_nat (length (data c))))%Z;
  Some (take (Z.to_nat (chunk_end c - chunk_start c)) (drop (Z.to_nat (chunk_start c)) (data c))).

(** [ArcChunk::get] *)
Definition chunk_get (c : ArcChunk) (i : nat) : option T := l ← get_chunk c; l !! i.

(** The closure of [arc_chunks]. *)
Definition nth_chunk (slice : list T) (chunk_size : Z) (chunk : nat) : option ArcChunk :=
  start ← umul chunk_size (Z.of_nat chunk);
  stop ← uadd start chunk_size;
  chunk_new slice start (stop `min` Z.of_nat (length slice)).

(** [arc_chunks], collected *)
Definition arc_chunks (slice : list T) (chunk_size : Z) : option (list ArcChunk) :=
  let num_chunks := ((Z.of_nat (length slice) + chunk_size - 1) / chunk_size)%Z in
  mapM (nth_chunk slice chunk_size) (seq 0 (Z.to_nat num_chunks)).

End chunks.
Arguments ArcChunk : clear implicits.

Section theory.
Context {T : Type}.
Variables (slice : list T) (cs : nat).
Hypothesis cs_pos : 0 < cs.
Hypothesis cs_usize : (Z.of_nat cs < 2 ^ 64)%Z.
Hypothesis slice_isize : (Z.of_nat (length slice) < 2 ^ 63)%Z.

(** The chunk at a position of the slice. *)
Definition chunk_at (c : nat) : ArcChunk T :=
  mkChunk slice (Z.of_nat (cs * c)) (Z.of_nat ((cs * c + cs) `min` length slice)).

Lemma nth_chunk_ok c : cs * c < length slice →
  nth_chunk slice (Z.of_nat cs) c = Some (chunk_at c) ∧
  get_chunk (chunk_at c) = Some (take cs (drop (cs * c) slice)).
Proof.
  intros Hc. assert (c = 0 ∨ (Z.of_nat cs < 2 ^ 63)%Z) as Hor by (destruct c; [by left|right; nia]).
  split.
  - unfold nth_chunk. rewrite umul_ok by nia. cbn [mbind option_bind].
    rewrite uadd_ok by (destruct Hor as [->|]; nia). cbn [mbind option_bind].
    unfold chunk_new. rewrite (proj2 (Z.leb_le _ _)) by lia. cbn. unfold chunk_at.
    do 2 f_equal; lia.
  - unfold get_chunk. cbn [chunk_start chunk_end data chunk_at].
    rewrite !(proj2 (Z.leb_le _ _)) by lia. cbn. rewrite Nat2Z.id. f_equal.
    replace (Z.to_nat (Z.of_nat ((cs * c + cs) `min` length slice) - Z.of_nat (cs * c)))
      with (cs `min` (length slice - cs * c)) by lia.
    rewrite <-length_drop. destruct (Nat.min_spec cs (length (drop (cs * c) slice))) as [[? ->]|[? ->]];
      [done|]. by rewrite !take_ge by lia.
Qed.

Lemma chunks_from n : ∀ c,
  length slice ≤ cs * (c + n) → (0 < n → cs * (c + n - 1) < length slice) →
  mapM (nth_chunk slice (Z.of_nat cs)) (seq c n) = Some (chunk_at <$> seq c n) ∧
  ∃ ls, mapM get_chunk (chunk_at <$> seq c n) = Some ls ∧ concat ls = drop (cs * c) slice ∧
    Forall (λ l, l ≠ [] ∧ length l ≤ cs) ls ∧
    ∀ i l, ls !! i = Some l → S i < length ls → length l = cs.
Proof.
  induction n as [|n IH]; intros c Hlen Hn.
  { split; [done|]. exists []. split_and!; [done|by rewrite drop_ge by lia|done|done]. }
  destruct (nth_chunk_ok c) as [H1 H2]; [nia|].
  destruct (IH (S c)) as (IH1 & ls & IH2 & IH3 & IH4 & IH5); [lia|nia|].
  cbn [seq mapM fmap list_fmap]. rewrite H1, IH1, H2. cbn [mbind option_bind]. rewrite IH2.
  cbn [mbind option_bind]. split; [done|]. eexists. split; [done|]. split_and!.
  - cbn [concat]. rewrite IH3. replace (cs * S c) with (cs * c + cs) by lia.
    by rewrite <-drop_drop, take_drop.
  - constructor; [|done]. rewrite length_take. split; [|lia].
    intros Hz%(f_equal length). rewrite length_take, length_drop in Hz. simpl in Hz. nia.
  - intros [|i] l Hl Hi; simplify_eq/=; [|eapply IH5; [done|lia]].
    rewrite length_take, length_drop.
    assert (length ls = n) as Hls.
    { apply length_mapM in IH2. by rewrite length_fmap, length_seq in IH2. }
    nia.
Qed.

(** [arc_chunks] never panics or overflows; its chunks, one after the other, are exactly the
    slice, none is empty, and all but the last have the chunk size. *)
Lemma arc_chunks_ok :
  ∃ chunks ls, arc_chunks slice (Z.of_nat cs) = Some chunks ∧ mapM get_chunk chunks = Some ls ∧
    concat ls = slice ∧ Forall (λ l, l ≠ [] ∧ length l ≤ cs) ls ∧
    ∀ i l, ls !! i = Some l → S i < length ls → length l = cs.
Proof.
  unfold arc_chunks. set (n := Z.to_nat _).
  assert (length slice ≤ cs * (0 + n) ∧ (0 < n → cs * (0 + n - 1) < length slice)) as [Hl Hn].
  { unfold n. set (q := ((Z.of_nat (length slice) + Z.of_nat cs - 1) / Z.of_nat cs)%Z).
    pose proof (Z.div_mod (Z.of_nat (length slice) + Z.of_nat cs - 1) (Z.of_nat cs) ltac:(lia)).
    pose proof (Z.mod_pos_bound (Z.of_nat (length slice) + Z.of_nat cs - 1) (Z.of_nat cs)
      ltac:(lia)). fold q in H. assert (0 ≤ q)%Z by nia. nia. }
  destruct (chunks_from n 0 Hl Hn) as (H1 & ls & H2 & H3 & H4 & H5).
  exists (chunk_at <$> seq 0 n), ls. split_and!; [done|done| |done|done].
  by rewrite H3, Nat.mul_0_r.
Qed.

End theory.

End Chunks.
