(* ===== verification/GraphUpdate.v ===== *)
(** * Updates of the graph

    Models the operations of [DiskANNIndex] ([diskann/src/graph/index.rs]) that write adjacency
    lists: pruning of a vertex ([robust_prune], [robust_prune_list], [robust_prune_with]),
    [add_edge_and_prune], [insert], [prune_range], and the repair after deletions
    ([on_neighbors], [consolidate_vector], [drop_deleted_neighbors] and their helpers).

    - Class [GraphProvider] with [GraphProviderLaws]: the neighbor accessor, the prune accessor
      and the deletion status of [diskann/src/provider.rs] and [graph/glue.rs];
    - a state-and-error monad [GM] over the provider;
    - Section [update]: the operations;
    - Section [theory]: every adjacency list stays distinct and within the maximal degree. *)

From Stdlib Require Import SpecFloat.
From S2P Require Import Prelude F32 Neighbor NeighborQueue QueueInterface.
From S2P Require Import AdjacencyList Config Prune Search Knn.

Inductive ElementStatus := Valid | Deleted.

Definition is_deleted (s : ElementStatus) : bool :=
  match s with Valid => false | Deleted => true end.

(** [NeighborAccessorMut], [PruneAccessor::fill] and [Delete::status_by_internal_id]. *)
Class GraphProvider (I V P E : Type) := {
  get_neighbors : I → P → P * result E (list I);
  set_neighbors : I → list I → P → P * result E unit;
  append_vector : I → list I → P → P * result E unit;
  fill : list I → P → P * result E ((I → option V) * (V → V → f32));
  status_by_internal_id : P → I → result E ElementStatus;
}.

(** The documented contract; [graph p i] is the adjacency list of [i], [capacity] the number of
    neighbors the provider can hold.  What [append_vector] does beyond the capacity or with
    duplicates is implementation defined. *)
Class GraphProviderLaws (I V P E : Type) `{GraphProvider I V P E} (graph : P → I → list I)
    (capacity : nat) := {
  get_law : ∀ i p p' l, get_neighbors i p = (p', Ok l) → l = graph p i ∧ graph p' = graph p;
  set_law : ∀ i l p p', set_neighbors i l p = (p', Ok tt) →
    graph p' i = l ∧ ∀ j, j ≠ i → graph p' j = graph p j;
  append_law : ∀ i l p p', append_vector i l p = (p', Ok tt) →
    (∀ j, j ≠ i → graph p' j = graph p j) ∧
    (NoDup (graph p i ++ l) → length (graph p i ++ l) ≤ capacity → graph p' i = graph p i ++ l);
  fill_law : ∀ ids p p' r, fill ids p = (p', r) → graph p' = graph p;
  get_status : ∀ i p p' r, get_neighbors i p = (p', r) →
    status_by_internal_id p' = status_by_internal_id p;
  set_status : ∀ i l p p' r, set_neighbors i l p = (p', r) →
    status_by_internal_id p' = status_by_internal_id p;
  fill_status : ∀ ids p p' r, fill ids p = (p', r) →
    status_by_internal_id p' = status_by_internal_id p;
}.

(** ** A monad: provider state, panics and errors *)

Definition GM (P E A : Type) : Type := P → option (P * result E A).

Definition gm_ret {P E A} (a : A) : GM P E A := λ p, Some (p, Ok a).
Definition gm_err {P E A} (e : E) : GM P E A := λ p, Some (p, Err e).
Definition gm_bind {P E A B} (m : GM P E A) (f : A → GM P E B) : GM P E B := λ p,
  '(p, r) ← m p;
  match r with Ok a => f a p | Err e => Some (p, Err e) end.
Definition gm_lift {P E A} (f : P → P * result E A) : GM P E A := λ p, Some (f p).
Definition gm_get {P E} : GM P E P := λ p, Some (p, Ok p).
Definition gm_panic {P E A} (o : option A) : GM P E A := λ p, a ← o; Some (p, Ok a).

Declare Scope gm_scope.
Delimit Scope gm_scope with gm.
Notation "'do' x <- m ; k" := (gm_bind m (λ x, k))
  (at level 100, x pattern, m at level 99, k at level 200, right associativity) : gm_scope.
Local Open Scope gm_scope.

(** A run that did not panic; when it returned [Ok] the postcondition holds. *)
Definition gm_ok {P E A} (m : GM P E A) (p : P) (Post : P → A → Prop) : Prop :=
  ∃ p' r, m p = Some (p', r) ∧ match r with Ok a => Post p' a | Err _ => True end.

Lemma gm_ok_ret {P E A} (a : A) (p : P) (Post : P → A → Prop) :
  Post p a → gm_ok (E := E) (gm_ret a) p Post.
Proof. intros. by exists p, (Ok a). Qed.

Lemma gm_ok_bind {P E A B} (m : GM P E A) (f : A → GM P E B) p (Mid : P → A → Prop) Post :
  gm_ok m p Mid → (∀ p' a, Mid p' a → gm_ok (f a) p' Post) → gm_ok (gm_bind m f) p Post.
Proof.
  intros (p1 & r & Hm & Hr) Hf. unfold gm_ok, gm_bind. rewrite Hm. cbn [mbind option_bind].
  destruct r as [a|e]; [by apply Hf|by eexists _, _].
Qed.

Lemma gm_ok_lift {P E A} (f : P → P * result E A) p (Post : P → A → Prop) :
  (∀ p' a, f p = (p', Ok a) → Post p' a) → gm_ok (gm_lift f) p Post.
Proof.
  intros Hf. unfold gm_ok, gm_lift. destruct (f p) as [p' r] eqn:E0. exists p', r.
  split; [done|]. destruct r; [by apply Hf|done].
Qed.

Lemma gm_ok_panic {P E A} (o : option A) a (p : P) (Post : P → A → Prop) :
  o = Some a → Post p a → gm_ok (E := E) (gm_panic o) p Post.
Proof. intros -> ?. by exists p, (Ok a). Qed.

Lemma gm_ok_weaken {P E A} (m : GM P E A) p (Post Post' : P → A → Prop) :
  gm_ok m p Post → (∀ p' a, Post p' a → Post' p' a) → gm_ok m p Post'.
Proof. intros (p' & r & Hm & Hr) Hi. exists p', r. split; [done|]. destruct r; auto. Qed.

(** ** The operations *)

(** [prune::Scratch] without the states, which every prune overwrites before reading. *)
Record PruneScratch (I : Type) := mkPruneScratch {
  ps_pool : list (Neighbor I);
  ps_neighbors : AdjacencyList I;
}.
Arguments mkPruneScratch {I} _ _.
Arguments ps_pool {I} _.
Arguments ps_neighbors {I} _.

Definition prune_scratch_new {I} : PruneScratch I := mkPruneScratch [] al_new.

(** The outcome of a prune of a list: [FailedVectorRetrieval] is the transient error of
    [ListError]; the other errors are those of the monad. *)
Inductive ListResult (I : Type) := Pruned | FailedVectorRetrieval (id : I).
Arguments Pruned {I}.
Arguments FailedVectorRetrieval {I} id.

Inductive ConsolidateKind := CkDeleted | CkFailedVectorRetrieval | CkComplete.

Section update.
Context {I V P E : Type} `{!EqDecision I, !Countable I, !ContainsSimd I, !UnstableSort I}.
Context `{GP : !GraphProvider I V P E}.
Variables (cfg : Config) (debug : bool) (fuel : nat) (dflt : I).
(** the order in which a hash set is iterated *)
Variable (hash_iter : gset I → list I).
(** what [escalate] makes of the transient error *)
Variable (escalated : I → E).

Let max_occlusion_size : nat := Z.to_nat (c_max_occlusion_size cfg).
Let max_degree_with_slack : nat := Z.to_nat (c_max_degree cfg).
Let pruned_degree : nat := Z.to_nat (c_pruned_degree cfg).

(** [DiskANNIndex::robust_prune]: the new neighbors of the context. *)
Definition graph_robust_prune (location : I) (pool : list (Neighbor I))
    (neighbors : AdjacencyList I) (force_saturate : bool) : GM P E (AdjacencyList I) :=
  match pool with
  | [] => gm_ret neighbors
  | _ =>
      do view_dist <- gm_lift (fill (nbr_id <$> pool));
      gm_panic (occlude_list cfg debug (view_dist.2) (view_dist.1)
                  (λ id, bool_decide (id = location)) force_saturate dflt fuel pool neighbors)
  end.

(** The candidates of [robust_prune_list] with their distances. *)
Definition list_pool (view : I → option V) (dist : V → V → f32) (location : I) (vector : V)
    (l : list I) : list (Neighbor I) :=
  omap (λ id, other ← view id; Some (mkNeighbor id (dist vector other)))
    (List.filter (λ i, negb (bool_decide (i = location))) l).

(** [DiskANNIndex::robust_prune_list] *)
Definition robust_prune_list (location : I) (l : AdjacencyList I) (scratch : PruneScratch I)
    (force_saturate : bool) : GM P E (PruneScratch I * ListResult I) :=
  match edges l with
  | [] => gm_ret (scratch, Pruned)
  | _ =>
      do view_dist <- gm_lift (fill (location :: edges l));
      let '(view, dist) := view_dist in
      match view location with
      | None => gm_ret (mkPruneScratch [] (ps_neighbors scratch), FailedVectorRetrieval location)
      | Some vector =>
          let pool :=
            sorted_neighbors (list_pool view dist location vector (edges l)) max_occlusion_size in
          do neighbors <-
            gm_panic (occlude_list cfg debug dist view (λ id, bool_decide (id = location))
                        force_saturate dflt fuel pool (ps_neighbors scratch));
          gm_ret (mkPruneScratch pool neighbors, Pruned)
      end
  end.

(** [DiskANNIndex::robust_prune_with]: also returns the search record, to which the extras were
    added. *)
Definition robust_prune_with (internal_id : I) (extras : list I) (record : list (Neighbor I))
    (scratch : PruneScratch I) (force_saturate : bool) :
    GM P E (list (Neighbor I) * PruneScratch I * ListResult I) :=
  do view_dist <-
    gm_lift (fill (take max_occlusion_size (internal_id :: extras ++ (nbr_id <$> record))));
  let '(view, dist) := view_dist in
  let prune record :=
    let pool := sorted_neighbors record max_occlusion_size in
    do neighbors <-
      gm_panic (occlude_list cfg debug dist view (λ id, bool_decide (id = internal_id))
                  force_saturate dflt fuel pool (ps_neighbors scratch));
    gm_ret (pool, mkPruneScratch (ps_pool scratch) neighbors, Pruned) in
  match extras with
  | [] => prune record
  | _ =>
      match view internal_id with
      | None => gm_ret (record, scratch, FailedVectorRetrieval internal_id)
      | Some this_vector =>
          prune (record ++
            omap (λ id, element ← view id; Some (mkNeighbor id (dist this_vector element))) extras)
      end
  end.

(** [maybe_to_remove.is_some_and(|set| set.contains(i))] *)
Definition removed (to_remove : option (gset I)) (i : I) : bool :=
  match to_remove with Some set => bool_decide (i ∈ set) | None => false end.

(** [DiskANNIndex::add_edge_and_prune] *)
Definition add_edge_and_prune (targets : list I) (source : I) (scratch : PruneScratch I)
    (to_remove : option (gset I)) : GM P E (PruneScratch I) :=
  do l <- gm_lift (get_neighbors source);
  let did_remove := existsb (removed to_remove) l in
  let adj_list := al_retain (λ i, negb (removed to_remove i)) (mkAdj l) in
  let '(adj_list, num_new_edges) := al_extend_from_slice adj_list targets in
  if (num_new_edges =? 0) && negb did_remove then gm_ret scratch else
  if length (edges adj_list) <=? max_degree_with_slack then
    if did_remove then
      do _ <- gm_lift (set_neighbors source (edges adj_list)); gm_ret scratch
    else
      match al_last adj_list num_new_edges with
      | Some new => do _ <- gm_lift (append_vector source new); gm_ret scratch
      | None => gm_ret scratch
      end
  else
    do r <- robust_prune_list source adj_list scratch false;
    let '(scratch, _) := r in
    do _ <- gm_lift (set_neighbors source (edges (ps_neighbors scratch)));
    gm_ret scratch.

(** [DiskANNIndex::prune_range] *)
Fixpoint prune_range_loop (ids : list I) (scratch : PruneScratch I) : GM P E unit :=
  match ids with
  | [] => gm_ret tt
  | id :: ids =>
      do l <- gm_lift (get_neighbors id);
      if length l <=? pruned_degree then prune_range_loop ids scratch else
      do r <- robust_prune_list id (mkAdj l) scratch false;
      let '(scratch, outcome) := r in
      match outcome with
      | FailedVectorRetrieval i => gm_err (escalated i)
      | Pruned =>
          do _ <- gm_lift (set_neighbors id (edges (ps_neighbors scratch)));
          prune_range_loop ids scratch
      end
  end.

Definition prune_range (ids : list I) : GM P E unit := prune_range_loop ids prune_scratch_new.

(** [status.is_ok_and(|s| s.is_deleted())] or an error: no longer usable. *)
Definition dead (p : P) (i : I) : bool :=
  match status_by_internal_id p i with Ok s => is_deleted s | Err _ => true end.

(** [DiskANNIndex::on_neighbors] with the provided [statuses_unordered]: the neighbors that are
    present and those that are deleted; an error counts as deleted. *)
Definition on_neighbors (id : I) : GM P E (list I * list I) :=
  do l <- gm_lift (get_neighbors id);
  do p <- gm_get;
  gm_ret (List.filter (λ i, negb (dead p i)) l, List.filter (dead p) l).

(** [DiskANNIndex::get_undeleted_neighbors] *)
Definition get_undeleted_neighbors (vector_id : I) : GM P E (list I * list I) :=
  on_neighbors vector_id.

(** [DiskANNIndex::is_any_neighbor_deleted] *)
Definition is_any_neighbor_deleted (vector_id : I) : GM P E bool :=
  do l <- gm_lift (get_neighbors vector_id);
  do p <- gm_get;
  gm_ret (existsb (dead p) l).

(** [DiskANNIndex::drop_adj_list] *)
Definition drop_adj_list (vector_id : I) : GM P E unit := gm_lift (set_neighbors vector_id []).

(** [DiskANNIndex::return_refs_to_deleted_vertex] *)
Fixpoint return_refs_to_deleted_vertex (vector_id : I) (candidate_list : list I) :
    GM P E (list I) :=
  match candidate_list with
  | [] => gm_ret []
  | c :: candidate_list =>
      do l <- gm_lift (get_neighbors c);
      do rest <- return_refs_to_deleted_vertex vector_id candidate_list;
      gm_ret (if al_contains (mkAdj l) vector_id then c :: rest else rest)
  end.

(** The deleted neighbors that still have an adjacency list of their own. *)
Fixpoint keep_non_orphans (deleted : list I) : GM P E (list I) :=
  match deleted with
  | [] => gm_ret []
  | d :: deleted =>
      do l <- gm_lift (get_neighbors d);
      do rest <- keep_non_orphans deleted;
      gm_ret (match l with [] => rest | _ => d :: rest end)
  end.

(** [DiskANNIndex::drop_deleted_neighbors] *)
Definition drop_deleted_neighbors (vector_id : I) (only_orphans : bool) :
    GM P E ConsolidateKind :=
  do p <- gm_get;
  match status_by_internal_id p vector_id with
  | Err e => gm_err e
  | Ok Deleted => gm_ret CkDeleted
  | Ok Valid =>
      do parts <- get_undeleted_neighbors vector_id;
      let '(pool, deleted) := parts in
      do kept <- (if only_orphans then keep_non_orphans deleted else gm_ret []);
      let pool := pool ++ kept in
      if bool_decide (deleted = []) && (length pool <=? pruned_degree) then gm_ret CkComplete
      else do _ <- gm_lift (set_neighbors vector_id pool); gm_ret CkComplete
  end.

(** The neighbors of the deleted neighbors, added to the pool. *)
Fixpoint add_replacements (deleted : list I) (pool : gset I) : GM P E (gset I) :=
  match deleted with
  | [] => gm_ret pool
  | d :: deleted =>
      do parts <- on_neighbors d;
      add_replacements deleted (list_to_set parts.1 ∪ pool)
  end.

(** [DiskANNIndex::consolidate_vector] *)
Definition consolidate_vector (vector_id : I) : GM P E ConsolidateKind :=
  do p <- gm_get;
  match status_by_internal_id p vector_id with
  | Err e => gm_err e
  | Ok Deleted => gm_ret CkDeleted
  | Ok Valid =>
      do parts <- on_neighbors vector_id;
      let pool : gset I := list_to_set parts.1 in
      let deleted := parts.2 in
      if bool_decide (deleted = []) && (size pool <=? pruned_degree) then gm_ret CkComplete else
      do pool <- add_replacements deleted pool;
      let pool := pool ∖ {[ vector_id ]} in
      let neighbors := al_from_iter_unique (hash_iter pool) in
      if length (edges neighbors) <? pruned_degree then
        do _ <- gm_lift (set_neighbors vector_id (edges neighbors)); gm_ret CkComplete
      else
        do r <- robust_prune_list vector_id neighbors prune_scratch_new false;
        let '(scratch, outcome) := r in
        match outcome with
        | FailedVectorRetrieval _ => gm_ret CkFailedVectorRetrieval
        | Pruned =>
            do _ <- gm_lift (set_neighbors vector_id (edges (ps_neighbors scratch)));
            gm_ret CkComplete
        end
  end.

End update.

(** ** Where errors come from *)

(** All errors of a computation satisfy [F]. *)
Definition gm_errors {P E A} (F : E → Prop) (m : GM P E A) : Prop :=
  ∀ p p' e, m p = Some (p', Err e) → F e.

Section errors.
Context {P E : Type} (F : E → Prop).

Lemma errors_ret {A} (a : A) : gm_errors F (P := P) (gm_ret a).
Proof. by intros p p' e. Qed.

Lemma errors_err {A} e : F e → gm_errors F (P := P) (A := A) (gm_err e).
Proof. intros ? p p' e'. unfold gm_err. intros. by simplify_eq. Qed.

Lemma errors_get : gm_errors F (P := P) gm_get.
Proof. by intros p p' e. Qed.

Lemma errors_panic {A} (o : option A) : gm_errors F (P := P) (gm_panic o).
Proof. intros p p' e. unfold gm_panic. by destruct o. Qed.

Lemma errors_lift {A} (f : P → P * result E A) :
  (∀ p p' e, f p = (p', Err e) → F e) → gm_errors F (gm_lift f).
Proof. intros Hf p p' e Hrun. unfold gm_lift in Hrun. apply (Hf p p'). by simplify_eq. Qed.

Lemma errors_bind {A B} (m : GM P E A) (f : A → GM P E B) :
  gm_errors F m → (∀ a, gm_errors F (f a)) → gm_errors F (gm_bind m f).
Proof.
  intros Hm Hf p p' e. unfold gm_bind. destruct (m p) as [[p1 [a|e1]]|] eqn:Em; [|..|done].
  - apply Hf.
  - cbn. intros ?. simplify_eq. by eapply Hm.
Qed.

Lemma errors_bind_panic {A B} (o : option A) (f : A → GM P E B) :
  (∀ a, o = Some a → gm_errors F (f a)) → gm_errors F (gm_bind (gm_panic o) f).
Proof.
  intros Hf p p' e. unfold gm_bind, gm_panic. destruct o as [a|]; [|done]. by apply Hf.
Qed.

End errors.

Create HintDb provider_errors.

(** Follows the structure of a computation down to the operations of the provider. *)
Ltac errors_from :=
  repeat first
    [ progress intros | by eauto with provider_errors
    | apply errors_ret | apply errors_get | apply errors_panic | apply errors_bind
    | apply errors_err | apply errors_lift | case_match ].

(** [F] holds of the errors of the provider. *)
Class GraphErrors {I V P E} `{!GraphProvider I V P E} (F : E → Prop) := {
  get_error : ∀ i p p' e, get_neighbors i p = (p', Err e) → F e;
  set_error : ∀ i l p p' e, set_neighbors i l p = (p', Err e) → F e;
  append_error : ∀ i l p p' e, append_vector i l p = (p', Err e) → F e;
  fill_error : ∀ ids p p' e, fill ids p = (p', Err e) → F e;
  status_error : ∀ p i e, status_by_internal_id p i = Err e → F e;
}.
#[export] Hint Extern 2 => first
  [ eapply get_error; eassumption | eapply set_error; eassumption
  | eapply append_error; eassumption | eapply fill_error; eassumption
  | eapply status_error; eassumption ] : provider_errors.
#[export] Hint Extern 1 (GraphErrors _) => solve [typeclasses eauto] : provider_errors.

Section graph_errors.
Context {I V P E : Type} `{!EqDecision I, !Countable I, !ContainsSimd I, !UnstableSort I}.
Context `{GP : !GraphProvider I V P E}.
Variables (cfg : Config) (debug : bool) (fuel : nat) (dflt : I) (hash_iter : gset I → list I).
Variables (escalated : I → E) (F : E → Prop).
Context `{GE : !GraphErrors F}.

Lemma prune_list_errors location l scratch force :
  gm_errors F (robust_prune_list cfg debug fuel dflt location l scratch force).
Proof using GE. unfold robust_prune_list. errors_from. Qed.

Lemma prune_with_errors id extras record scratch force :
  gm_errors F (robust_prune_with cfg debug fuel dflt id extras record scratch force).
Proof using GE. unfold robust_prune_with. errors_from. Qed.

#[local] Hint Resolve prune_list_errors : provider_errors.

Lemma add_edge_errors targets source scratch to_remove :
  gm_errors F (add_edge_and_prune cfg debug fuel dflt targets source scratch to_remove).
Proof using GE. unfold add_edge_and_prune. errors_from. Qed.

Lemma prune_range_errors ids :
  (∀ i, F (escalated i)) → gm_errors F (prune_range cfg debug fuel dflt escalated ids).
Proof using GE.
  intros He. unfold prune_range. generalize (prune_scratch_new (I := I)).
  induction ids as [|id ids IH]; intros scratch; cbn [prune_range_loop]; errors_from.
Qed.

Lemma on_neighbors_errors id : gm_errors F (on_neighbors id).
Proof using GE. unfold on_neighbors. errors_from. Qed.

Lemma drop_adj_list_errors id : gm_errors F (drop_adj_list id).
Proof using GE. unfold drop_adj_list. errors_from. Qed.

Lemma return_refs_errors id cands : gm_errors F (return_refs_to_deleted_vertex id cands).
Proof using GE. induction cands as [|c cands IH]; cbn [return_refs_to_deleted_vertex]; errors_from. Qed.

Lemma keep_orphans_errors deleted : gm_errors F (keep_non_orphans deleted).
Proof using GE. induction deleted as [|d deleted IH]; cbn [keep_non_orphans]; errors_from. Qed.

#[local] Hint Resolve on_neighbors_errors keep_orphans_errors : provider_errors.

Lemma drop_deleted_errors id only_orphans :
  gm_errors F (drop_deleted_neighbors cfg id only_orphans).
Proof using GE. unfold drop_deleted_neighbors, get_undeleted_neighbors. errors_from. Qed.

Lemma consolidate_errors id :
  gm_errors F (consolidate_vector cfg debug fuel dflt hash_iter id).
Proof using GE.
  assert (∀ deleted pool, gm_errors F (add_replacements deleted pool)).
  { induction deleted as [|d deleted IH]; intros pool; cbn [add_replacements]; errors_from. }
  unfold consolidate_vector. errors_from.
Qed.

End graph_errors.

#[export] Hint Resolve prune_list_errors prune_with_errors add_edge_errors on_neighbors_errors
  drop_adj_list_errors return_refs_errors : provider_errors.

(** ** Theory *)

Section sorting.
Context {I : Type} `{!UnstableSort I}.

(** Whatever the distances are, the sorted candidates are some of the given ones. *)
Lemma sorted_neighbors_perm (l : list (Neighbor I)) max :
  ∃ l', l' ≡ₚ l ∧ sorted_neighbors l max = take max l'.
Proof.
  unfold sorted_neighbors. destruct (max `min` length l) as [|p]; [by exists l|].
  eexists. split; [|done]. rewrite sort_perm, take_drop. apply select_nth_perm.
Qed.

Lemma sorted_neighbors_sub (l : list (Neighbor I)) max :
  NoDup (nbr_id <$> l) →
  NoDup (nbr_id <$> sorted_neighbors l max) ∧ length (sorted_neighbors l max) ≤ max ∧
  ∀ n, n ∈ sorted_neighbors l max → n ∈ l.
Proof.
  intros Hnd. destruct (sorted_neighbors_perm l max) as (l' & Hp & ->). split_and!.
  - eapply sublist_NoDup; [|apply sublist_fmap, sublist_take]. by rewrite Hp.
  - rewrite length_take. lia.
  - intros n Hn. rewrite <-Hp. eapply elem_of_sublist; [apply sublist_take|done].
Qed.

End sorting.

Section pool.
Context {I V : Type} `{!EqDecision I}.

Lemma list_pool_sublist view dist location vector (l : list I) :
  sublist (nbr_id <$> list_pool (V := V) view dist location vector l) l.
Proof.
  unfold list_pool. induction l as [|i l IH]; [done|]. cbn [List.filter].
  destruct (negb (bool_decide (i = location))); [|by apply sublist_cons].
  cbn. destruct (view i) as [v|]; cbn; [by apply sublist_skip|by apply sublist_cons].
Qed.

End pool.

Section theory.
Context {I V P E : Type} `{!EqDecision I, !Countable I, !ContainsSimd I, !UnstableSort I}.
Context `{GP : !GraphProvider I V P E}.
Variables (cfg : Config) (debug : bool) (fuel : nat) (dflt : I).
Context {graph : P → I → list I}.
Context `{GL : !GraphProviderLaws I V P E graph (Z.to_nat (c_max_degree cfg))}.

(** The configuration is one that the builder accepts, with [alpha] in range. *)
Hypothesis cfg_valid : config_valid cfg.
Hypothesis cfg_alpha : alpha_in_range (c_alpha cfg).
Hypothesis fuel_enough : 490 < fuel.

Definition max_degree : nat := Z.to_nat (c_max_degree cfg).
Definition pruned_degree : nat := Z.to_nat (c_pruned_degree cfg).

(** An adjacency list: distinct and within the maximal degree. *)
Definition list_ok (l : list I) : Prop := NoDup l ∧ length l ≤ max_degree.
Definition graph_ok (p : P) : Prop := ∀ i, list_ok (graph p i).

(** What a prune produces. *)
Record pruned_list (location : I) (from l : list I) : Prop := {
  pl_nodup : NoDup l;
  pl_degree : length l ≤ pruned_degree;
  pl_from : ∀ x, x ∈ l → x ∈ from ∧ x ≠ location;
}.

Lemma pruned_le_max : pruned_degree ≤ max_degree.
Proof. unfold pruned_degree, max_degree. destruct cfg_valid. lia. Qed.

Lemma pruned_list_ok location from l : pruned_list location from l → list_ok l.
Proof. intros []. split; [done|]. pose proof pruned_le_max. lia. Qed.

(** [occlude_list] on a sorted pool of distinct ids. *)
Lemma occlude_pool_ok (dist : V → V → f32) (view : I → option V) location force
    (l : list (Neighbor I)) a :
  NoDup (nbr_id <$> l) →
  ∃ a', occlude_list cfg debug dist view (λ id, bool_decide (id = location)) force dflt fuel
      (sorted_neighbors l (Z.to_nat (c_max_occlusion_size cfg))) a = Some a' ∧
    pruned_list location (nbr_id <$> l) (edges a').
Proof.
  intros Hnd.
  destruct (sorted_neighbors_sub l (Z.to_nat (c_max_occlusion_size cfg)) Hnd) as (Hn & Hl & Hin).
  destruct (occlude_list_ok (λ id, bool_decide (id = location)) cfg debug dist view force dflt fuel
    (sorted_neighbors l (Z.to_nat (c_max_occlusion_size cfg))) a) as (a' & Hrun & Hoc);
    [done|done| |done|].
  { pose proof (cv_occlusion cfg cfg_valid) as [? Hmax]. simpl in Hmax. lia. }
  exists a'. split; [done|]. split; [apply Hoc|apply Hoc|].
  intros x Hx. destruct (oc_pool _ _ _ _ _ _ Hoc x Hx) as [Hp Hne].
  split; [|by apply bool_decide_eq_false in Hne].
  apply list_elem_of_fmap in Hp as (n & -> & Hp). apply list_elem_of_fmap. eauto.
Qed.

(** [robust_prune] on the candidates of a search: with no candidates the neighbors stay. *)
Lemma graph_robust_prune_ok location (l : list (Neighbor I)) a force p :
  NoDup (nbr_id <$> l) →
  gm_ok (graph_robust_prune cfg debug fuel dflt location
           (sorted_neighbors l (Z.to_nat (c_max_occlusion_size cfg))) a force) p
    (λ p' a', graph p' = graph p ∧ (a' = a ∨ pruned_list location (nbr_id <$> l) (edges a'))).
Proof.
  intros Hnd. unfold graph_robust_prune.
  destruct (sorted_neighbors l _) as [|n0 pool] eqn:Ep; [apply gm_ok_ret; by auto|].
  rewrite <-Ep. clear n0 pool Ep.
  eapply gm_ok_bind with (Mid := λ p' _, graph p' = graph p).
  { apply gm_ok_lift. intros p' vd Hf. by eapply fill_law. }
  intros p' [view dist] Hg. cbn [fst snd].
  destruct (occlude_pool_ok dist view location force l a Hnd) as (a' & Hrun & Ha).
  eapply gm_ok_panic; [exact Hrun|]. auto.
Qed.

(** [robust_prune_with] on a search record and further candidates. *)
Lemma robust_prune_with_ok id extras (record : list (Neighbor I)) scratch force p :
  NoDup ((nbr_id <$> record) ++ extras) →
  gm_ok (robust_prune_with cfg debug fuel dflt id extras record scratch force) p
    (λ p' r, graph p' = graph p ∧
       match r.2 with
       | Pruned => pruned_list id ((nbr_id <$> record) ++ extras) (edges (ps_neighbors r.1.2))
       | FailedVectorRetrieval _ => True
       end).
Proof.
  intros Hnd. unfold robust_prune_with.
  eapply gm_ok_bind with (Mid := λ p' _, graph p' = graph p).
  { apply gm_ok_lift. intros p' vd Hf. by eapply fill_law. }
  intros p' [view dist] Hg.
  assert (∀ record', sublist (nbr_id <$> record') ((nbr_id <$> record) ++ extras) →
    gm_ok (E := E) (let pool := sorted_neighbors record' (Z.to_nat (c_max_occlusion_size cfg)) in
           do neighbors <-
             gm_panic (occlude_list cfg debug dist view (λ i, bool_decide (i = id)) force dflt fuel
                         pool (ps_neighbors scratch));
           gm_ret (pool, mkPruneScratch (ps_pool scratch) neighbors, Pruned (I := I))) p'
      (λ p' r, graph p' = graph p ∧
         match r.2 with
         | Pruned => pruned_list id ((nbr_id <$> record) ++ extras) (edges (ps_neighbors r.1.2))
         | FailedVectorRetrieval _ => True
         end)) as Hprune.
  { intros record' Hsub.
    destruct (occlude_pool_ok dist view id force record' (ps_neighbors scratch)
      (sublist_NoDup _ _ Hnd Hsub)) as (a' & Hrun & [H1 H2 H3]).
    eapply gm_ok_bind with (Mid := λ p'' nb, p'' = p' ∧ nb = a'); [by eapply gm_ok_panic|].
    intros p'' nb [-> ->]. apply gm_ok_ret. split; [done|]. cbn. split; [done|done|].
    intros x Hx. destruct (H3 x Hx). split; [by eapply elem_of_sublist|done]. }
  destruct extras as [|e es].
  { apply Hprune. by rewrite app_nil_r. }
  destruct (view id) as [v|]; [|by apply gm_ok_ret]. apply Hprune. rewrite fmap_app.
  apply sublist_app; [done|]. generalize (e :: es). clear. intros l.
  induction l as [|x l IH]; [done|]. cbn. destruct (view x); cbn; by constructor.
Qed.

(** [robust_prune_list] touches no adjacency list of the graph; it prunes the list, or fails to
    retrieve the vector and then leaves the neighbors of the scratch as they were. *)
Lemma robust_prune_list_ok location (l : AdjacencyList I) scratch force p :
  NoDup (edges l) → edges l ≠ [] →
  gm_ok (robust_prune_list cfg debug fuel dflt location l scratch force) p
    (λ p' r, graph p' = graph p ∧
       match r.2 with
       | Pruned => pruned_list location (edges l) (edges (ps_neighbors r.1))
       | FailedVectorRetrieval _ => ps_neighbors r.1 = ps_neighbors scratch
       end).
Proof.
  intros Hnd Hne. unfold robust_prune_list. destruct (edges l) as [|x0 xs] eqn:El; [done|].
  rewrite <-El in *. clear x0 xs El.
  eapply gm_ok_bind with (Mid := λ p' _, graph p' = graph p).
  { apply gm_ok_lift. intros p' vd Hf. by eapply fill_law. }
  intros p' [view dist] Hg. destruct (view location) as [vector|]; [|by apply gm_ok_ret].
  pose proof (list_pool_sublist view dist location vector (edges l)) as Hsub.
  pose proof (sublist_NoDup _ _ Hnd Hsub) as Hn.
  destruct (occlude_pool_ok dist view location force
    (list_pool view dist location vector (edges l)) (ps_neighbors scratch) Hn) as (a' & Hrun & Ha).
  eapply gm_ok_bind with (Mid := λ p'' nb, p'' = p' ∧ nb = a').
  { by eapply gm_ok_panic. }
  intros p'' nb [-> ->]. apply gm_ok_ret. split; [done|]. simpl. destruct Ha as [H1 H2 H3].
  split; [done|done|]. intros x Hx. destruct (H3 x Hx). split; [by apply (elem_of_sublist _ _ _ Hsub)|done].
Qed.

(** The list that [add_edge_and_prune] aims at: the old neighbors that are not removed, then
    the new targets. *)
Definition edge_list (l targets : list I) (to_remove : option (gset I)) : list I :=
  edges (al_extend_from_slice (al_retain (λ i, negb (removed to_remove i)) (mkAdj l)) targets).1.

Lemma edge_list_ok l targets to_remove :
  NoDup l →
  ∃ new, al_extend_from_slice (al_retain (λ i, negb (removed to_remove i)) (mkAdj l)) targets =
      (mkAdj (edge_list l targets to_remove), length new) ∧
    edge_list l targets to_remove = List.filter (λ i, negb (removed to_remove i)) l ++ new ∧
    NoDup (edge_list l targets to_remove) ∧
    ∀ x, x ∈ edge_list l targets to_remove ↔
      (x ∈ l ∧ removed to_remove x = false) ∨ x ∈ targets.
Proof.
  intros Hnd.
  destruct (al_extend_ok targets (al_retain (λ i, negb (removed to_remove i)) (mkAdj l)))
    as (new & He & Hsub & Hn & Hin).
  assert (edge_list l targets to_remove = List.filter (λ i, negb (removed to_remove i)) l ++ new)
    as Heq by (unfold edge_list; by rewrite He).
  assert (∀ x, x ∈ List.filter (λ i, negb (removed to_remove i)) l ↔
    x ∈ l ∧ removed to_remove x = false) as Hf.
  { intros x. by rewrite !list_elem_of_In, List.filter_In, negb_true_iff. }
  exists new. split_and!; [by rewrite Heq|done| |].
  - rewrite Heq. apply NoDup_app. split_and!; [|intros x Hx Hx'; by apply Hin in Hx' as [_ ?]|done].
    apply (sublist_NoDup _ l Hnd), List_filter_sublist.
  - intros x. rewrite Heq, elem_of_app, Hin, Hf. cbn [al_retain edges]. rewrite Hf.
    destruct (decide (x ∈ l ∧ removed to_remove x = false)); tauto.
Qed.

Lemma existsb_removed_false to_remove (l : list I) :
  existsb (removed to_remove) l = false →
  List.filter (λ i, negb (removed to_remove i)) l = l.
Proof.
  intros Hf. induction l as [|x l IH]; [done|]. simpl in *. apply orb_false_iff in Hf as [-> Hl].
  simpl. by rewrite IH.
Qed.

(** Writing a good list at [source] keeps the graph good and changes nothing else. *)
Lemma set_neighbors_ok source l p Q :
  graph_ok p → list_ok l →
  (∀ p', graph_ok p' → graph p' source = l → (∀ j, j ≠ source → graph p' j = graph p j) →
     Q p' tt) →
  gm_ok (gm_lift (set_neighbors source l)) p Q.
Proof.
  intros Hp Hl HQ. apply gm_ok_lift. intros p' [] Hs. apply set_law in Hs as [Hi Hj].
  apply HQ; [|done|done]. intros i. destruct (decide (i = source)) as [->|]; [by rewrite Hi|].
  rewrite Hj by done. apply Hp.
Qed.

(** The branch of [add_edge_and_prune] that prunes. *)
Lemma prune_edge_ok p p1 source want scratch :
  graph p1 = graph p → graph_ok p1 → NoDup want → max_degree < length want →
  list_ok (edges (ps_neighbors scratch)) →
  gm_ok (do r <- robust_prune_list cfg debug fuel dflt source (mkAdj want) scratch false;
         let '(scratch, _) := r in
         do _ <- gm_lift (set_neighbors source (edges (ps_neighbors scratch)));
         gm_ret scratch) p1
    (λ p' scratch', graph_ok p' ∧ list_ok (edges (ps_neighbors scratch')) ∧
       (∀ j, j ≠ source → graph p' j = graph p j) ∧
       (pruned_list source want (graph p' source) ∨
        graph p' source = edges (ps_neighbors scratch)) ∧
       edges (ps_neighbors scratch') = graph p' source).
Proof.
  intros Hg Hp1 Hnd Hgt Hs.
  eapply gm_ok_bind; [apply robust_prune_list_ok; [done|cbn [edges]; by destruct want; [simpl in Hgt; lia|]]|].
  intros p2 [scratch' outcome] [Hg2 Hout]. cbn [fst snd edges] in Hout.
  assert (list_ok (edges (ps_neighbors scratch')) ∧
    (pruned_list source want (edges (ps_neighbors scratch')) ∨
     edges (ps_neighbors scratch') = edges (ps_neighbors scratch))) as [Hok Hor].
  { destruct outcome.
    - split; [by eapply pruned_list_ok|by left].
    - rewrite Hout. split; [done|by right]. }
  eapply gm_ok_bind; [eapply (set_neighbors_ok source (edges (ps_neighbors scratch')) p2
    (λ p' _, graph_ok p' ∧ graph p' source = edges (ps_neighbors scratch') ∧
       ∀ j, j ≠ source → graph p' j = graph p2 j)); [intros i; rewrite Hg2; apply Hp1|done|by auto]|].
  intros p3 [] (H1 & H2 & H3). apply gm_ok_ret. split_and!; [done|done| |by rewrite H2|done].
  intros j Hj. by rewrite H3, Hg2, Hg.
Qed.

(** The outcome of [add_edge_and_prune] for the adjacency list of [source]. *)
Definition edge_outcome source (old targets : list I) to_remove (stale : AdjacencyList I)
    (l : list I) : Prop :=
  let want := edge_list old targets to_remove in
  (length want ≤ max_degree ∧ l = want) ∨
  (max_degree < length want ∧ (pruned_list source want l ∨ l = edges stale)).

Lemma add_edge_ok targets source scratch to_remove p :
  graph_ok p → list_ok (edges (ps_neighbors scratch)) →
  gm_ok (add_edge_and_prune cfg debug fuel dflt targets source scratch to_remove) p
    (λ p' scratch', graph_ok p' ∧ list_ok (edges (ps_neighbors scratch')) ∧
       (∀ j, j ≠ source → graph p' j = graph p j) ∧
       edge_outcome source (graph p source) targets to_remove (ps_neighbors scratch)
         (graph p' source) ∧
       (scratch' = scratch ∨ edges (ps_neighbors scratch') = graph p' source)).
Proof.
  intros Hp Hs. unfold add_edge_and_prune.
  eapply gm_ok_bind with (Mid := λ p' l, l = graph p source ∧ graph p' = graph p).
  { apply gm_ok_lift. intros p' l Hg. by apply get_law in Hg. }
  intros p1 l [-> Hg]. cbv zeta.
  destruct (Hp source) as [Hnd Hlen].
  destruct (edge_list_ok (graph p source) targets to_remove Hnd) as (new & -> & Heq & Hnd' & Hin).
  set (want := edge_list (graph p source) targets to_remove) in *.
  assert (graph_ok p1) as Hp1 by (intros i; rewrite Hg; apply Hp).
  destruct (existsb (removed to_remove) (graph p source)) eqn:Erem.
  - rewrite andb_false_r. cbn [edges]. destruct (Nat.leb_spec (length want)
      (Z.to_nat (c_max_degree cfg))) as [Hle|Hgt].
    + eapply gm_ok_bind; [eapply (set_neighbors_ok source want p1
        (λ p' _, graph_ok p' ∧ graph p' source = want ∧ ∀ j, j ≠ source → graph p' j = graph p1 j));
        [done|by split|by auto]|].
      intros p2 [] (H1 & H2 & H3). apply gm_ok_ret. split_and!; [done|done| | |by left].
      * intros j Hj. by rewrite H3, Hg.
      * left. by split.
    + eapply gm_ok_weaken; [by apply (prune_edge_ok p p1 source want scratch)|].
      intros p' scratch' (H1 & H2 & H3 & H4 & H5).
      split_and!; [done..|right; by split|by right].
  - apply existsb_removed_false in Erem. rewrite Erem in Heq. cbn [negb]. rewrite andb_true_r.
    destruct (Nat.eqb_spec (length new) 0) as [Hz|Hz].
    { apply gm_ok_ret. split_and!; [done|done|by intros; rewrite Hg| |by left].
      apply nil_length_inv in Hz as ->. rewrite app_nil_r in Heq. left. fold want.
      by rewrite Hg, Heq. }
    cbn [edges]. destruct (Nat.leb_spec (length want) (Z.to_nat (c_max_degree cfg))) as [Hle|Hgt].
    + unfold al_last. cbn [edges]. rewrite (proj2 (Nat.leb_le _ _))
        by (rewrite Heq, length_app; lia).
      assert (drop (length want - length new) want = new) as ->.
      { rewrite Heq, length_app, Nat.add_sub. by rewrite drop_app_length. }
      eapply gm_ok_bind with (Mid := λ p' _, graph p' source = want ∧
        ∀ j, j ≠ source → graph p' j = graph p j).
      { apply gm_ok_lift. intros p2 [] Ha. apply append_law in Ha as [Hj Hi]. rewrite Hg in Hi, Hj.
        split; [|done]. rewrite Heq. apply Hi; rewrite <-Heq; [done|lia]. }
      intros p2 [] [H1 H2]. apply gm_ok_ret. split_and!; [|done|done|left; by split|by left].
      intros i. destruct (decide (i = source)) as [->|]; [by rewrite H1|].
      rewrite H2 by done. apply Hp.
    + eapply gm_ok_weaken; [by apply (prune_edge_ok p p1 source want scratch)|].
      intros p' scratch' (H1 & H2 & H3 & H4 & H5).
      split_and!; [done..|right; by split|by right].
Qed.

(** Adding edges to a vertex never panics, changes no other adjacency list and keeps every
    list free of duplicates and within the maximal degree.  The old neighbors that are not to
    be removed, followed by the new targets, are written when they fit; otherwise the new list
    is what pruning selects from them, of at most the pruned degree and without the vertex
    itself, or, when the vector of the vertex cannot be read, the list that an earlier prune
    left in the scratch space.  It fails only with an error of the provider. *)
Theorem add_edge_and_prune_correct targets source scratch to_remove p :
  graph_ok p → list_ok (edges (ps_neighbors scratch)) →
  gm_ok (add_edge_and_prune cfg debug fuel dflt targets source scratch to_remove) p
    (λ p' scratch', graph_ok p' ∧ list_ok (edges (ps_neighbors scratch')) ∧
       (∀ j, j ≠ source → graph p' j = graph p j) ∧
       edge_outcome source (graph p source) targets to_remove (ps_neighbors scratch)
         (graph p' source)) ∧
  ∀ F, GraphErrors F →
    gm_errors F (add_edge_and_prune cfg debug fuel dflt targets source scratch to_remove).
Proof.
  intros Hp Hs. split; [|by eauto with provider_errors].
  eapply gm_ok_weaken; [by apply add_edge_ok|].
  by intros p' scratch' (? & ? & ? & ? & _).
Qed.

(** One vertex of [prune_range]. *)
Lemma prune_range_loop_ok escalated ids : ∀ scratch p,
  graph_ok p →
  gm_ok (prune_range_loop cfg debug fuel dflt escalated ids scratch) p (λ p' _, graph_ok p' ∧
    ∀ i, (i ∉ ids → graph p' i = graph p i) ∧
         (i ∈ ids → length (graph p' i) ≤ pruned_degree) ∧
         (graph p' i = graph p i ∨ pruned_list i (graph p i) (graph p' i))).
Proof.
  induction ids as [|id ids IH]; intros scratch p Hp; cbn [prune_range_loop].
  { apply gm_ok_ret. split; [done|]. intros i. split_and!; [done|by intros ?%elem_of_nil|by left]. }
  eapply gm_ok_bind with (Mid := λ p' l, l = graph p id ∧ graph p' = graph p).
  { apply gm_ok_lift. intros p' l Hg. by apply get_law in Hg. }
  intros p1 l [-> Hg]. destruct (Hp id) as [Hnd Hlen].
  assert (graph_ok p1) as Hp1 by (intros i; rewrite Hg; apply Hp).
  destruct (Nat.leb_spec (length (graph p id)) (Z.to_nat (c_pruned_degree cfg))) as [Hle|Hgt].
  { eapply gm_ok_weaken; [by apply IH|]. intros p' [] [Hp' Hi]. split; [done|]. intros i.
    destruct (Hi i) as (H1 & H2 & H3). rewrite Hg in H1, H3. split_and!; [| |done].
    - intros [_ ?]%not_elem_of_cons. by apply H1.
    - intros [->|?]%elem_of_cons; [|by apply H2]. destruct H3 as [->|[]]; [done|done]. }
  eapply gm_ok_bind; [apply robust_prune_list_ok; [done|]|].
  { cbn [edges]. by destruct (graph p id); [simpl in Hgt; lia|]. }
  intros p2 [scratch' outcome] [Hg2 Hout]. destruct outcome as [|i]; [|by exists p2, (Err (escalated i))].
  cbn [fst snd edges] in Hout.
  eapply gm_ok_bind; [eapply (set_neighbors_ok id (edges (ps_neighbors scratch')) p2
    (λ p' _, graph_ok p' ∧ graph p' id = edges (ps_neighbors scratch') ∧
       ∀ j, j ≠ id → graph p' j = graph p2 j)); [intros i; rewrite Hg2; apply Hp1| |by auto]|].
  { by eapply pruned_list_ok. }
  intros p3 [] (Hp3 & Hid & Hoth). eapply gm_ok_weaken; [by apply IH|]. intros p' [] [Hp' Hi].
  split; [done|]. intros i. destruct (Hi i) as (H1 & H2 & H3). rewrite Hg2, Hg in Hoth. split_and!.
  - intros [Hne ?]%not_elem_of_cons. rewrite H1, Hoth; [done..].
  - intros [->|?]%elem_of_cons; [|by apply H2]. destruct H3 as [->|[]]; [rewrite Hid; apply Hout|done].
  - destruct (decide (i = id)) as [->|Hne].
    + right. rewrite Hid in H3. destruct H3 as [->|[Q1 Q2 Q3]]; [done|]. split; [done|done|].
      intros x Hx. destruct (Q3 x Hx). split; [by apply Hout|done].
    + by rewrite Hoth in H3 by done.
Qed.

(** Pruning a range of vertices never panics, and when it returns every vertex of the range
    has at most the pruned degree of neighbors: the neighbors it had when those were few
    enough, else some of them, distinct and other than itself.  No other vertex changes. *)
Theorem prune_range_correct escalated ids p :
  graph_ok p →
  gm_ok (prune_range cfg debug fuel dflt escalated ids) p (λ p' _, graph_ok p' ∧
    ∀ i, (i ∉ ids → graph p' i = graph p i) ∧
         (i ∈ ids → length (graph p' i) ≤ pruned_degree) ∧
         (graph p' i = graph p i ∨ pruned_list i (graph p i) (graph p' i))).
Proof. apply prune_range_loop_ok. Qed.

(** ** Repair after deletions *)

Lemma on_neighbors_ok id p :
  gm_ok (on_neighbors id) p (λ p' r, graph p' = graph p ∧
    status_by_internal_id p' = status_by_internal_id p ∧
    r = (List.filter (λ i, negb (dead p i)) (graph p id), List.filter (dead p) (graph p id))).
Proof.
  unfold on_neighbors. eapply gm_ok_bind with (Mid := λ p' l, l = graph p id ∧
    graph p' = graph p ∧ status_by_internal_id p' = status_by_internal_id p).
  { apply gm_ok_lift. intros p' l Hg. pose proof (get_status _ _ _ _ Hg).
    by apply get_law in Hg as [-> ?]. }
  intros p' l (-> & Hg & Hst). eapply gm_ok_bind with (Mid := λ p1 p2, p1 = p' ∧ p2 = p').
  { by exists p', (Ok p'). }
  intros p1 p2 [-> ->]. apply gm_ok_ret. split_and!; [done|done|].
  assert (∀ l, List.filter (λ i, negb (dead p' i)) l = List.filter (λ i, negb (dead p i)) l ∧
    List.filter (dead p') l = List.filter (dead p) l) as Hdead.
  { unfold dead. by rewrite Hst. }
  destruct (Hdead (graph p id)) as [-> ->]. done.
Qed.

(** The replacements: living neighbors of the given nodes. *)
Lemma add_replacements_ok ds : ∀ pool p,
  gm_ok (add_replacements ds pool) p (λ p' pool', graph p' = graph p ∧
    status_by_internal_id p' = status_by_internal_id p ∧
    ∀ x, x ∈ pool' ↔ x ∈ pool ∨ ∃ d, d ∈ ds ∧ x ∈ graph p d ∧ dead p x = false).
Proof.
  induction ds as [|d ds IH]; intros pool p; cbn [add_replacements].
  { apply gm_ok_ret. split_and!; [done|done|]. intros x.
    split; [by left|intros [?|(d & Hd & _)]; [done|by apply elem_of_nil in Hd]]. }
  eapply gm_ok_bind; [apply on_neighbors_ok|]. intros p1 r (Hg & Hst & ->). cbn [fst].
  eapply gm_ok_weaken; [apply IH|]. intros p2 pool' (Hg2 & Hst2 & Hin). split_and!; [congruence..|].
  intros x. rewrite Hin, elem_of_union, elem_of_list_to_set, Hg. unfold dead at 2.
  rewrite Hst. fold (dead p x).
  rewrite !list_elem_of_In, List.filter_In, negb_true_iff, <-!list_elem_of_In.
  setoid_rewrite elem_of_cons. split.
  - intros [[[? ?]|?]|(d' & ? & ? & ?)]; [right|by left|right]; eauto 10.
  - intros [?|(d' & [->|?] & ? & ?)]; eauto 10.
Qed.

(** What consolidation leaves at a vertex. *)
Record consolidated (p p' : P) (id : I) : Prop := {
  cs_alive : ∀ x, x ∈ graph p' id → dead p x = false;
  cs_from : ∀ x, x ∈ graph p' id →
    x ∈ graph p id ∨ ∃ d, d ∈ graph p id ∧ dead p d = true ∧ x ∈ graph p d;
  cs_degree : length (graph p' id) ≤ pruned_degree;
}.

Variable hash_iter : gset I → list I.
Hypothesis hash_iter_perm : ∀ s, hash_iter s ≡ₚ elements s.

(** The list written at the end of a consolidation. *)
Lemma write_consolidated_ok p p1 id l :
  graph_ok p → graph p1 = graph p → NoDup l → length l ≤ pruned_degree →
  (∀ x, x ∈ l → dead p x = false ∧
     (x ∈ graph p id ∨ ∃ d, d ∈ graph p id ∧ dead p d = true ∧ x ∈ graph p d)) →
  gm_ok (do _ <- gm_lift (set_neighbors id l); gm_ret CkComplete) p1
    (λ p' k, graph_ok p' ∧ (∀ j, j ≠ id → graph p' j = graph p j) ∧
       k = CkComplete ∧ consolidated p p' id).
Proof.
  intros Hp Hg Hnd Hlen Hl.
  eapply gm_ok_bind; [eapply (set_neighbors_ok id l p1 (λ p' _, graph_ok p' ∧ graph p' id = l ∧
    ∀ j, j ≠ id → graph p' j = graph p1 j))|].
  - intros i. rewrite Hg. apply Hp.
  - split; [done|]. pose proof pruned_le_max. lia.
  - auto.
  - intros p' [] (H1 & H2 & H3). apply gm_ok_ret. split_and!; [done| |done|].
    + intros j Hj. by rewrite H3, Hg.
    + split; rewrite H2; [|by apply Hl|done]. intros x Hx. by apply Hl.
Qed.

(** The end of a consolidation: the pool is written, or pruned and then written. *)
Lemma finish_consolidate_ok p p2 id l :
  graph_ok p → graph p2 = graph p → NoDup l →
  (∀ x, x ∈ l → dead p x = false ∧
     (x ∈ graph p id ∨ ∃ d, d ∈ graph p id ∧ dead p d = true ∧ x ∈ graph p d)) →
  gm_ok (if length l <? Z.to_nat (c_pruned_degree cfg) then
           do _ <- gm_lift (set_neighbors id l); gm_ret CkComplete
         else
           do r <- robust_prune_list cfg debug fuel dflt id (mkAdj l) prune_scratch_new false;
           let '(scratch, outcome) := r in
           match outcome with
           | FailedVectorRetrieval _ => gm_ret CkFailedVectorRetrieval
           | Pruned =>
               do _ <- gm_lift (set_neighbors id (edges (ps_neighbors scratch)));
               gm_ret CkComplete
           end) p2
    (λ p' kind, graph_ok p' ∧ (∀ j, j ≠ id → graph p' j = graph p j) ∧
       match kind with
       | CkComplete => consolidated p p' id
       | CkDeleted => False
       | CkFailedVectorRetrieval => graph p' = graph p
       end).
Proof.
  intros Hp Hg Hnd Hl.
  destruct (Nat.ltb_spec (length l) (Z.to_nat (c_pruned_degree cfg))) as [Hlt|Hge].
  { eapply gm_ok_weaken; [apply (write_consolidated_ok p p2 id l)|];
      [done|done|done|unfold pruned_degree; lia|done|].
    intros p' k (H1 & H2 & -> & H3). auto. }
  eapply gm_ok_bind; [apply robust_prune_list_ok; [done|]|].
  { cbn [edges]. destruct (cv_pruned cfg cfg_valid). destruct l; [simpl in Hge; lia|done]. }
  intros p3 [scratch outcome] [Hg3 Hout]. cbn [fst snd edges] in Hout. destruct outcome.
  - eapply gm_ok_weaken; [apply (write_consolidated_ok p p3 id)|];
      [done|congruence|apply Hout|apply Hout|intros x Hx; by apply Hl, Hout|].
    intros p' k (H1 & H2 & -> & H3). auto.
  - apply gm_ok_ret. assert (graph p3 = graph p) as Heq by congruence. rewrite Heq.
    split_and!; [intros i; rewrite Heq; apply Hp|done|done].
Qed.

(** C17: consolidating a vertex after deletions never panics and writes no other adjacency list;
    every list stays free of duplicates and within the maximal degree.  When it reports
    completion, the vertex is valid, has no deleted neighbor left (a neighbor whose status
    cannot be read counts as deleted), at most the pruned degree of neighbors, and each of them
    was a neighbor before or is a neighbor of a deleted neighbor.  Otherwise nothing changed:
    the vertex itself is deleted, or its vector could not be read.  It fails only with an error
    of the provider. *)
Theorem consolidate_vector_correct vector_id p :
  graph_ok p →
  gm_ok (consolidate_vector cfg debug fuel dflt hash_iter vector_id) p (λ p' kind,
    graph_ok p' ∧ (∀ j, j ≠ vector_id → graph p' j = graph p j) ∧
    match kind with
    | CkComplete => status_by_internal_id p vector_id = Ok Valid ∧ consolidated p p' vector_id
    | CkDeleted => status_by_internal_id p vector_id = Ok Deleted ∧ graph p' = graph p
    | CkFailedVectorRetrieval => graph p' = graph p
    end) ∧
  ∀ F, GraphErrors F → gm_errors F (consolidate_vector cfg debug fuel dflt hash_iter vector_id).
Proof.
  intros Hp. split; [|intros; by apply consolidate_errors]. unfold consolidate_vector.
  eapply gm_ok_bind with (Mid := λ p1 p2, p1 = p ∧ p2 = p); [by exists p, (Ok p)|].
  intros p1 p2 [-> ->].
  destruct (status_by_internal_id p vector_id) as [[]|e] eqn:Est.
  2:{ by apply gm_ok_ret. }
  2:{ by exists p, (Err e). }
  destruct (Hp vector_id) as [Hnd Hlen].
  eapply gm_ok_bind; [apply on_neighbors_ok|]. intros p1 r (Hg & Hst & ->). cbn [fst snd].
  set (alive := List.filter (λ i, negb _) _). set (gone := List.filter (dead p) _).
  assert (NoDup alive) as Hnda by (apply (sublist_NoDup _ _ Hnd), List_filter_sublist).
  assert (∀ x, x ∈ alive ↔ x ∈ graph p vector_id ∧ dead p x = false) as Halive.
  { intros x. unfold alive. by rewrite elem_of_List_filter, negb_true_iff. }
  assert (∀ x, x ∈ gone ↔ x ∈ graph p vector_id ∧ dead p x = true) as Hgone.
  { intros x. unfold gone. by rewrite elem_of_List_filter. }
  destruct (bool_decide (gone = []) && _) eqn:Edone.
  { apply andb_true_iff in Edone as [Hge Hsz%Nat.leb_le]. apply bool_decide_eq_true in Hge.
    rewrite size_list_to_set in Hsz by done. apply gm_ok_ret. rewrite Hg.
    assert (∀ x, x ∈ graph p vector_id → dead p x = false) as Hall.
    { intros x Hx. destruct (dead p x) eqn:Ed; [|done].
      assert (x ∈ gone) as Hxg by (by apply Hgone). rewrite Hge in Hxg. by apply elem_of_nil in Hxg. }
    split_and!; [intros i; rewrite Hg; apply Hp|done|done|].
    split; rewrite Hg; [done|by left|]. etrans; [|exact Hsz]. apply submseteq_length,
      NoDup_submseteq; [done|]. intros x Hx. apply Halive. auto. }
  eapply gm_ok_bind; [apply add_replacements_ok|]. intros p2 pool (Hg2 & Hst2 & Hpool).
  set (l := hash_iter (pool ∖ {[vector_id]})).
  assert (NoDup l) as Hndl by (unfold l; rewrite hash_iter_perm; apply NoDup_elements).
  assert (∀ x, x ∈ l → dead p x = false ∧ (x ∈ graph p vector_id ∨
    ∃ d, d ∈ graph p vector_id ∧ dead p d = true ∧ x ∈ graph p d)) as Hl.
  { intros x Hx. unfold l in Hx. rewrite hash_iter_perm, elem_of_elements in Hx.
    apply elem_of_difference in Hx as [Hx _]. apply Hpool in Hx as [Hx|(d & Hd & Hx & Hdx)].
    - apply elem_of_list_to_set, Halive in Hx as [? ?]. auto.
    - apply Hgone in Hd as [? ?]. rewrite Hg in Hx. unfold dead in Hdx. rewrite Hst in Hdx.
      split; [done|]. eauto. }
  eapply gm_ok_weaken; [by apply (finish_consolidate_ok p p2 vector_id l); [|congruence|..]|].
  intros p' [] (H1 & H2 & H3); done.
Qed.

End theory.

(** ** A provider in memory *)

(** Adjacency lists, the vectors that can be read, and the deleted ids; a vector is a point of
    the line. *)
Record MemProvider := mkMem {
  m_lists : gmap Z (list Z);
  m_vectors : gmap Z Z;
  m_deleted : gset Z;
}.

Definition mem_graph (p : MemProvider) (i : Z) : list Z := default [] (m_lists p !! i).

Definition mem_set (i : Z) (l : list Z) (p : MemProvider) : MemProvider * result unit unit :=
  (mkMem (<[i := l]> (m_lists p)) (m_vectors p) (m_deleted p), Ok tt).

#[export] Instance mem_provider : GraphProvider Z Z MemProvider unit := {|
  get_neighbors := λ i p, (p, Ok (mem_graph p i));
  set_neighbors := mem_set;
  append_vector := λ i l p, mem_set i (mem_graph p i ++ l) p;
  fill := λ ids p, (p, Ok (λ i, m_vectors p !! i, λ x y, f32_of_Z (Z.abs (x - y))));
  status_by_internal_id := λ p i, Ok (if bool_decide (i ∈ m_deleted p) then Deleted else Valid);
|}.

Lemma mem_set_graph i l p : mem_graph (mem_set i l p).1 i = l ∧
  ∀ j, j ≠ i → mem_graph (mem_set i l p).1 j = mem_graph p j.
Proof.
  unfold mem_graph. simpl. split; [by rewrite lookup_insert_eq|].
  intros j Hj. by rewrite lookup_insert_ne.
Qed.

#[export] Instance mem_laws capacity :
  GraphProviderLaws Z Z MemProvider unit mem_graph capacity.
Proof.
  split; cbn [get_neighbors set_neighbors append_vector fill status_by_internal_id mem_provider].
  - intros. by simplify_eq.
  - intros i l p p' Hs. destruct (mem_set_graph i l p). rewrite Hs in *. done.
  - intros i l p p' Hs. destruct (mem_set_graph i (mem_graph p i ++ l) p). rewrite Hs in *. done.
  - intros. by simplify_eq.
  - intros. by simplify_eq.
  - intros i l p p' r Hs. injection Hs as <- <-. done.
  - intros. by simplify_eq.
Qed.

(** A check of [graph_ok] by computation. *)
Definition mem_okb (max : nat) (p : MemProvider) : bool :=
  bool_decide (map_Forall (λ _ l, NoDup l ∧ length l ≤ max) (m_lists p)).

Lemma mem_okb_ok cfg p :
  mem_okb (Z.to_nat (c_max_degree cfg)) p = true → graph_ok cfg (graph := mem_graph) p.
Proof.
  intros Hok i. apply bool_decide_eq_true in Hok. unfold mem_graph.
  destruct (m_lists p !! i) as [l|] eqn:El; [exact (Hok i l El)|]. split; [constructor|simpl; lia].
Qed.

Lemma demo_config_valid : config_valid demo_config.
Proof. repeat split; vm_compute; discriminate. Qed.

(** The path 0 - 1 - 2 - 3 - 4. *)
Definition mem_path : MemProvider :=
  mkMem (list_to_map [(0, [1]); (1, [0; 2]); (2, [1; 3]); (3, [2; 4]); (4, [3])]%Z)
    (list_to_map [(0, 0); (1, 1); (2, 2); (3, 3); (4, 4)]%Z) ∅.

(** Five points; the vector of 5 cannot be read, 4 is deleted. *)
Definition mem_demo : MemProvider :=
  mkMem (list_to_map [(1, [2; 3; 4]); (2, [1; 4]); (3, [1]); (4, [3; 2]); (5, [1; 2; 3])]%Z)
    (list_to_map [(1, 1); (2, 2); (3, 3); (4, 4); (6, 6)]%Z) {[ 4%Z ]}.

Local Abbreviation demo_add := (add_edge_and_prune (GP := mem_provider) demo_config true 500 0%Z).

Lemma add_edge_and_prune_correct_witness :
  ∃ p' s', demo_add [6%Z] 1%Z prune_scratch_new None mem_demo = Some (p', Ok s') ∧
    graph_ok demo_config (graph := mem_graph) p' ∧ mem_graph p' 1%Z = [2; 3]%Z.
Proof.
  destruct (add_edge_and_prune_correct (graph := mem_graph) demo_config true 500 0%Z
    demo_config_valid alpha_in_range_12 ltac:(lia) [6%Z] 1%Z prune_scratch_new None mem_demo)
    as [(p' & r & Hrun & Hr) _];
    [apply mem_okb_ok; vm_compute; reflexivity|split; [constructor|vm_compute; lia]|].
  assert (∃ p s, demo_add [6%Z] 1%Z prune_scratch_new None mem_demo = Some (p, Ok s) ∧
    mem_graph p 1%Z = [2; 3]%Z) as (p & s & Hrun' & Hl)
    by (eexists _, _; split; vm_compute; reflexivity).
  rewrite Hrun in Hrun'. injection Hrun' as -> ->.
  exists p, s. split; [exact Hrun|]. split; [exact (proj1 Hr)|exact Hl].
Defined.

Lemma prune_range_correct_witness :
  ∃ p', prune_range (GP := mem_provider) demo_config true 500 0%Z (λ _, tt) [1; 2; 3]%Z mem_demo =
      Some (p', Ok tt) ∧
    graph_ok demo_config (graph := mem_graph) p' ∧ mem_graph p' 1%Z = [2; 3]%Z.
Proof.
  destruct (prune_range_correct (graph := mem_graph) demo_config true 500 0%Z
    demo_config_valid alpha_in_range_12 ltac:(lia) (λ _, tt) [1; 2; 3]%Z mem_demo)
    as (p' & r & Hrun & Hr);
    [apply mem_okb_ok; vm_compute; reflexivity|].
  assert (∃ p, prune_range (GP := mem_provider) demo_config true 500 0%Z (λ _, tt) [1; 2; 3]%Z
    mem_demo = Some (p, Ok tt) ∧ mem_graph p 1%Z = [2; 3]%Z) as (p & Hrun' & Hl)
    by (eexists _; split; vm_compute; reflexivity).
  rewrite Hrun in Hrun'. injection Hrun' as -> ->.
  exists p. split; [exact Hrun|]. split; [exact (proj1 Hr)|exact Hl].
Defined.

(** Vertex 2 loses its deleted neighbor 4 and inherits 3 from it. *)
Lemma consolidate_vector_correct_witness :
  ∃ p', consolidate_vector (GP := mem_provider) demo_config true 500 0%Z elements 2%Z mem_demo =
      Some (p', Ok CkComplete) ∧
    consolidated demo_config (graph := mem_graph) mem_demo p' 2%Z ∧
    mem_graph p' 2%Z = [3; 1]%Z.
Proof.
  destruct (consolidate_vector_correct (graph := mem_graph) demo_config true 500 0%Z
    demo_config_valid alpha_in_range_12 ltac:(lia) elements ltac:(reflexivity) 2%Z mem_demo)
    as [(p' & r & Hrun & Hr) _];
    [apply mem_okb_ok; vm_compute; reflexivity|].
  assert (∃ p, consolidate_vector (GP := mem_provider) demo_config true 500 0%Z elements 2%Z
    mem_demo = Some (p, Ok CkComplete) ∧ mem_graph p 2%Z = [3; 1]%Z) as (p & Hrun' & Hl)
    by (eexists _; split; vm_compute; reflexivity).
  rewrite Hrun in Hrun'. injection Hrun' as -> ->.
  exists p. split; [exact Hrun|]. split; [exact (proj2 (proj2 (proj2 Hr)))|exact Hl].
Defined.

(** The scratch space leaks from one vertex to another.  In the loop that adds the back
    edges of an insertion, pruning vertex 1 leaves its new neighbors in the scratch; for vertex
    5, whose vector cannot be read, the error is allowed and the list left in the scratch is
    written: vertex 5 gets the neighbors of vertex 1, and neither its own old neighbor nor the
    new edge. *)
Theorem add_edge_and_prune_stale :
  ∃ p1 s1 p2 s2,
    demo_add [6%Z] 1%Z prune_scratch_new None mem_demo = Some (p1, Ok s1) ∧
    demo_add [6%Z] 5%Z s1 None p1 = Some (p2, Ok s2) ∧
    mem_graph p2 5%Z = mem_graph p1 1%Z ∧
    6%Z ∉ mem_graph p2 5%Z ∧ 1%Z ∈ mem_graph mem_demo 5%Z ∧ 1%Z ∉ mem_graph p2 5%Z.
Proof.
  eexists _, _, _, _. split_and!; [vm_compute; reflexivity..| | |];
    apply (bool_decide_unpack _); vm_compute; exact Logic.I.
Qed.
