(* ===== verification/InplaceDelete.v ===== *)
(** * In-place deletion

    Models [inplace_delete] of [diskann/src/graph/index.rs]: the vector is deleted in the
    provider, nodes with an edge to it and replacements are found by one of three methods, the
    edges to the deleted vertex are replaced, and its own adjacency list is dropped.

    - Class [DeleteProvider] with [DeleteProviderLaws]: [Delete::delete] and the translation of
      ids of [diskann/src/provider.rs], and the strategy of [graph/glue.rs];
    - Section [delete]: the operations;
    - Section [theory]: the deleted vertex is disconnected. *)

From Stdlib Require Import SpecFloat.
From S2P Require Import Prelude F32 Neighbor NeighborQueue QueueInterface AdjacencyList Config.
From S2P Require Import Prune Search OutputBuffer Knn GraphUpdate.

Local Open Scope gm_scope.

Inductive InplaceDeleteMethod :=
  | VisitedAndTopK (k_value l_value : nat)
  | TwoHopAndOneHop
  | OneHop.

Record InplaceDeleteWorkList (I : Type) := mkWork {
  replace_candidates : list I;
  in_neighbors : list I;
}.
Arguments mkWork {I} _ _.
Arguments replace_candidates {I} _.
Arguments in_neighbors {I} _.

(** [Delete::delete], [DataProvider::to_internal_id], and of the strategy
    [get_delete_element] and [search_accessor]. *)
Class DeleteProvider (I P E A T X : Type) := {
  delete_element : X → P → P * result E unit;
  to_internal_id : P → X → result E I;
  get_delete_element : I → P → P * result E T;
  search_accessor : P → T → result E A;
}.

(** Deleting an element marks it deleted; the graph and the other elements stay. *)
Class DeleteProviderLaws (I V P E A T X : Type) `{GraphProvider I V P E}
    `{DeleteProvider I P E A T X} (graph : P → I → list I) := {
  delete_law : ∀ x id p p', to_internal_id p x = Ok id → delete_element x p = (p', Ok tt) →
    graph p' = graph p ∧ dead p' id = true ∧
    ∀ j, j ≠ id → status_by_internal_id p' j = status_by_internal_id p j;
  get_element_law : ∀ i p p' r, get_delete_element i p = (p', r) →
    graph p' = graph p ∧ status_by_internal_id p' = status_by_internal_id p ∧
    to_internal_id p' = to_internal_id p;
}.

Section delete.
Context {I V P E A T X : Type} `{!EqDecision I, !Countable I, !ContainsSimd I, !UnstableSort I}.
Context `{GP : !GraphProvider I V P E} `{DP : !DeleteProvider I P E A T X}.
Context `{Acc : !SearchAccessor I A E}.
Variables (cfg : Config) (debug : bool) (sfuel fuel : nat) (dflt : I).
(** the iteration orders of hash sets and hash maps *)
Variables (hash_iter : gset I → list I) (map_iter : gmap I (list I) → list (I * list I)).
Variable (is_transient : E → bool).
(** [InplaceDeleteStrategy::search_post_processor] *)
Variable (processor : PostProcess (I := I) (A := A) (E := E) (B := BackInserter I)).

(** [get_candidates_using_visited_and_topk] *)
Definition get_candidates_using_visited_and_topk
    (pooled : option (SearchScratch I (NeighborPriorityQueue I))) (id : I) (l_value k_value : nat)
    (v : T) : GM P E (InplaceDeleteWorkList I) :=
  do p <- gm_get;
  match search_accessor p v with
  | Err e => gm_err e
  | Ok a =>
      match num_starting_points a with
      | Err e => gm_err e
      | Ok num_start_ids =>
          let scratch := search_scratch pooled (Z.to_nat (c_max_degree cfg)) l_value num_start_ids in
          do found <- gm_panic (search_internal (NQ := priority_queue_ops debug) noop_record sfuel
                                  None a scratch tt);
          let '(a, scratch, _, r) := found in
          match r with
          | Err e => gm_err e
          | Ok _ =>
              let output := replicate l_value (mkNeighbor dflt f32_zero) in
              do best <- gm_panic (q_iter (s_best scratch));
              do processed <- gm_panic (processor a best (bi_new output));
              let '(_, output, r) := processed in
              match r with
              | Err e => gm_err e
              | Ok num_results =>
                  let undeleted_ids := nbr_id <$> take num_results (bi_buffer output) in
                  do ids_to_modify <- return_refs_to_deleted_vertex id undeleted_ids;
                  gm_ret (mkWork (take k_value undeleted_ids) ids_to_modify)
              end
          end
      end
  end.

(** The set of nodes within two hops. *)
Fixpoint two_hop (nbhs : list I) (set : gset I) : GM P E (gset I) :=
  match nbhs with
  | [] => gm_ret set
  | nbh :: nbhs =>
      do l <- gm_lift (get_neighbors nbh);
      two_hop nbhs (list_to_set l ∪ ({[ nbh ]} ∪ set))
  end.

(** The loop that keeps the nodes that are not deleted. *)
Fixpoint keep_undeleted (nodes : list I) : GM P E (list I) :=
  match nodes with
  | [] => gm_ret []
  | n :: nodes =>
      do p <- gm_get;
      match status_by_internal_id p n with
      | Err e =>
          if is_transient e then keep_undeleted nodes else gm_err e
      | Ok s =>
          do rest <- keep_undeleted nodes;
          gm_ret (if is_deleted s then rest else n :: rest)
      end
  end.

(** [get_candidates_using_twohop_and_onehop] *)
Definition get_candidates_using_twohop_and_onehop (id : I) :
    GM P E (InplaceDeleteWorkList I) :=
  do parts <- on_neighbors id;
  let one_hop := parts.1 in
  do two_hop_nbhs <- two_hop one_hop ∅;
  do undeleted <- keep_undeleted (hash_iter two_hop_nbhs);
  do in_neighbors <- return_refs_to_deleted_vertex id undeleted;
  gm_ret (mkWork one_hop in_neighbors).

(** [get_candidates_using_onehop] *)
Definition get_candidates_using_onehop (id : I) : GM P E (InplaceDeleteWorkList I) :=
  do parts <- on_neighbors id;
  let one_hop := parts.1 in
  do in_neighbors <- return_refs_to_deleted_vertex id one_hop;
  gm_ret (mkWork one_hop in_neighbors).

(** The candidates closest to [neighbor]. *)
Definition best_candidates (view : I → option V) (dist : V → V → f32) (neighbor : I) (vector : V)
    (candidates : list I) (num : nat) : list I :=
  nbr_id <$> take num (sort_unstable (list_pool view dist neighbor vector candidates)).

(** The loop over the in-neighbors: each gets its closest candidates. *)
Fixpoint replace_in_edges (view : I → option V) (dist : V → V → f32) (candidates : list I)
    (num : nat) (in_neighbors : list I) (edges_to_add : gmap I (list I)) : gmap I (list I) :=
  match in_neighbors with
  | [] => edges_to_add
  | n :: ns =>
      replace_in_edges view dist candidates num ns
        match view n with
        | None => edges_to_add
        | Some v => <[n := best_candidates view dist n v candidates num]> edges_to_add
        end
  end.

(** [entry(k).or_insert_with(Vec::new).push(n)] *)
Definition push_edge (n : I) (edges_to_add : gmap I (list I)) (k : I) : gmap I (list I) :=
  <[k := default [] (edges_to_add !! k) ++ [n]]> edges_to_add.

(** The loop over the out-neighbors: the candidates closest to each get an edge to it. *)
Fixpoint replace_out_edges (view : I → option V) (dist : V → V → f32) (candidates : list I)
    (num : nat) (adjacency_list : list I) (edges_to_add : gmap I (list I)) : gmap I (list I) :=
  match adjacency_list with
  | [] => edges_to_add
  | n :: ns =>
      replace_out_edges view dist candidates num ns
        match view n with
        | None => edges_to_add
        | Some v => foldl (push_edge n) edges_to_add
                      (best_candidates view dist n v candidates num)
        end
  end.

(** [inplace_delete_inner] *)
Definition inplace_delete_inner (pooled : option (SearchScratch I (NeighborPriorityQueue I)))
    (id : X) (num_to_replace : nat) (method : InplaceDeleteMethod) : GM P E (gmap I (list I)) :=
  do p <- gm_get;
  match to_internal_id p id with
  | Err e => gm_err e
  | Ok vector_id =>
      do delete_elem <- match method with
                        | VisitedAndTopK _ _ =>
                            do v <- gm_lift (get_delete_element vector_id); gm_ret (Some v)
                        | _ => gm_ret None
                        end;
      do _ <- gm_lift (delete_element id);
      do work <- match method with
                 | VisitedAndTopK k l =>
                     do v <- gm_panic delete_elem;
                     get_candidates_using_visited_and_topk pooled vector_id l k v
                 | TwoHopAndOneHop => get_candidates_using_twohop_and_onehop vector_id
                 | OneHop => get_candidates_using_onehop vector_id
                 end;
      do parts <- get_undeleted_neighbors vector_id;
      let adjacency_list := parts.1 in
      do view_dist <- gm_lift (fill ((replace_candidates work ++ in_neighbors work) ++
                                     adjacency_list));
      let '(view, dist) := view_dist in
      let edges_to_add := replace_in_edges view dist (replace_candidates work) num_to_replace
                            (in_neighbors work) ∅ in
      gm_ret (replace_out_edges view dist (replace_candidates work) num_to_replace adjacency_list
                edges_to_add)
  end.

(** The loop that adds the edges. *)
Fixpoint apply_edges (delete_set : gset I) (items : list (I * list I)) (scratch : PruneScratch I) :
    GM P E unit :=
  match items with
  | [] => gm_ret tt
  | (neighbor, edges) :: items =>
      do scratch <- add_edge_and_prune cfg debug fuel dflt edges neighbor scratch
                      (Some delete_set);
      apply_edges delete_set items scratch
  end.

(** [DiskANNIndex::inplace_delete] *)
Definition inplace_delete (pooled : option (SearchScratch I (NeighborPriorityQueue I))) (id : X)
    (num_to_replace : nat) (method : InplaceDeleteMethod) : GM P E unit :=
  do p <- gm_get;
  match to_internal_id p id with
  | Err e => gm_err e
  | Ok vector_id =>
      do edges_to_add <- inplace_delete_inner pooled id num_to_replace method;
      do _ <- apply_edges {[ vector_id ]} (map_iter edges_to_add) prune_scratch_new;
      drop_adj_list vector_id
  end.

End delete.

(** ** Where errors come from *)

(** [F] holds of the errors of the provider, of its accessors and of the post-processing. *)
Class DeleteErrors {I V P E A T X} `{!EqDecision I, !Countable I} `{!GraphProvider I V P E}
    `{!DeleteProvider I P E A T X} `{!SearchAccessor I A E}
    (processor : PostProcess (I := I) (A := A) (E := E) (B := BackInserter I)) (F : E → Prop) := {
  #[global] delete_graph_errors :: GraphErrors F;
  delete_error : ∀ x p p' e, delete_element x p = (p', Err e) → F e;
  to_internal_error : ∀ p x e, to_internal_id p x = Err e → F e;
  get_element_error : ∀ i p p' e, get_delete_element i p = (p', Err e) → F e;
  delete_accessor_error : ∀ p t e, search_accessor p t = Err e → F e;
  delete_search_error : ∀ e, accessor_error I A E e → F e;
  processor_error : ∀ a best out a' out' e, processor a best out = Some (a', out', Err e) → F e;
}.
#[export] Hint Extern 2 => first
  [ eapply delete_error; eassumption | eapply to_internal_error; eassumption
  | eapply get_element_error; eassumption ] : provider_errors.

Section errors.
Context {I V P E A T X : Type} `{!EqDecision I, !Countable I, !ContainsSimd I, !UnstableSort I}.
Context `{GP : !GraphProvider I V P E} `{DP : !DeleteProvider I P E A T X}.
Context `{Acc : !SearchAccessor I A E}.
Variables (cfg : Config) (debug : bool) (sfuel fuel : nat) (dflt : I).
Variables (hash_iter : gset I → list I) (map_iter : gmap I (list I) → list (I * list I)).
Variable (is_transient : E → bool).
Variable (processor : PostProcess (I := I) (A := A) (E := E) (B := BackInserter I)).
Variable F : E → Prop.
Context `{DE : !DeleteErrors processor F}.

Lemma search_candidates_errors pooled id l k (v : T) :
  gm_errors F (P := P)
    (get_candidates_using_visited_and_topk cfg debug sfuel dflt processor pooled id l k v).
Proof using DE.
  unfold get_candidates_using_visited_and_topk. apply errors_bind; [apply errors_get|]. intros p.
  destruct (search_accessor p v) as [a|e] eqn:Ea; [|by eapply errors_err, delete_accessor_error].
  destruct (num_starting_points a) as [n|e] eqn:En.
  2:{ apply errors_err, delete_search_error. unfold num_starting_points in En.
      case_match; simplify_eq. by eauto with rust. }
  apply errors_bind_panic. intros [[[a1 s1] rec] [u|e]] Hrun.
  2:{ apply errors_err, delete_search_error. by eapply search_internal_error. }
  apply errors_bind; [apply errors_panic|]. intros best.
  apply errors_bind_panic. intros [[a2 out] [m|e]] Hp; [errors_from|].
  by eapply errors_err, processor_error.
Qed.

Lemma two_hop_errors nbhs : ∀ set, gm_errors F (P := P) (two_hop nbhs set).
Proof using DE. induction nbhs; intros; cbn [two_hop]; errors_from. Qed.

Lemma undeleted_errors nodes : gm_errors F (P := P) (keep_undeleted is_transient nodes).
Proof using DE. induction nodes; cbn [keep_undeleted]; errors_from. Qed.

#[local] Hint Resolve search_candidates_errors two_hop_errors undeleted_errors : provider_errors.

Lemma apply_edges_errors del items : ∀ scratch,
  gm_errors F (P := P) (apply_edges cfg debug fuel dflt del items scratch).
Proof using DE. induction items as [|[]]; intros; cbn [apply_edges]; errors_from. Qed.

Lemma delete_inner_errors pooled (x : X) num method :
  gm_errors F (inplace_delete_inner cfg debug sfuel dflt hash_iter is_transient processor pooled x
    num method).
Proof using DE.
  unfold inplace_delete_inner, get_candidates_using_twohop_and_onehop,
    get_candidates_using_onehop, get_undeleted_neighbors. errors_from.
Qed.

#[local] Hint Resolve apply_edges_errors delete_inner_errors : provider_errors.

Lemma delete_errors pooled (x : X) num method :
  gm_errors F (inplace_delete cfg debug sfuel fuel dflt hash_iter map_iter is_transient processor
    pooled x num method).
Proof using DE. unfold inplace_delete. errors_from. Qed.

End errors.

(** ** Theory *)

Section edges_to_add.
Context {I V : Type} `{!EqDecision I, !Countable I, !UnstableSort I}.
Variables (view : I → option V) (dist : V → V → f32) (candidates : list I) (num : nat) (vid : I).
Hypothesis not_candidate : vid ∉ candidates.
Implicit Types m : gmap I (list I).

(** No edge to the deleted vertex is added. *)
Definition avoids m : Prop := map_Forall (λ _ l, vid ∉ l) m.

Lemma best_candidates_sub n v x :
  x ∈ best_candidates view dist n v candidates num → x ∈ candidates.
Proof.
  intros (y & -> & Hy)%list_elem_of_fmap.
  apply (elem_of_sublist _ _ _ (sublist_take _ _)) in Hy. rewrite sort_perm in Hy.
  apply (elem_of_sublist _ _ _ (list_pool_sublist view dist n v candidates)).
  apply list_elem_of_fmap. eauto.
Qed.

Lemma replace_in_edges_ok ns : ∀ m,
  avoids m →
  avoids (replace_in_edges view dist candidates num ns m) ∧
  (∀ k, is_Some (m !! k) ∨ (k ∈ ns ∧ is_Some (view k)) →
     is_Some (replace_in_edges view dist candidates num ns m !! k)).
Proof.
  induction ns as [|n ns IH]; intros m Hm; cbn [replace_in_edges].
  { split; [done|]. intros k [?|[?%elem_of_nil ?]]; done. }
  destruct (view n) as [v|] eqn:Ev.
  - destruct (IH (<[n := best_candidates view dist n v candidates num]> m)) as [IH1 IH2].
    { apply map_Forall_insert_2; [|done]. intros Hx%best_candidates_sub. done. }
    split; [done|]. intros k Hk. apply IH2. destruct (decide (k = n)) as [->|Hne].
    + left. rewrite lookup_insert_eq. by eexists.
    + rewrite lookup_insert_ne by done. destruct Hk as [?|[Hk ?]]; [by left|right].
      by apply elem_of_cons in Hk as [?|?].
  - destruct (IH m Hm) as [IH1 IH2]. split; [done|]. intros k Hk. apply IH2.
    destruct Hk as [?|[Hk Hv]]; [by left|right].
    apply elem_of_cons in Hk as [->|?]; [rewrite Ev in Hv; by destruct Hv|done].
Qed.

Lemma push_edges_ok n ks : n ≠ vid → ∀ m,
  avoids m →
  avoids (foldl (push_edge n) m ks) ∧ (∀ k, is_Some (m !! k) → is_Some (foldl (push_edge n) m ks !! k)).
Proof.
  intros Hn. induction ks as [|k ks IH]; intros m Hm; cbn [foldl]; [done|].
  destruct (IH (push_edge n m k)) as [IH1 IH2].
  { apply map_Forall_insert_2; [|done]. rewrite not_elem_of_app, list_elem_of_singleton.
    split; [|done]. destruct (m !! k) as [l|] eqn:El; [exact (Hm k l El)|apply not_elem_of_nil]. }
  split; [done|]. intros k' Hk'. apply IH2. unfold push_edge. destruct (decide (k' = k)) as [->|].
  - rewrite lookup_insert_eq. by eexists.
  - by rewrite lookup_insert_ne.
Qed.

Lemma replace_out_edges_ok ns : vid ∉ ns → ∀ m,
  avoids m →
  avoids (replace_out_edges view dist candidates num ns m) ∧
  (∀ k, is_Some (m !! k) → is_Some (replace_out_edges view dist candidates num ns m !! k)).
Proof.
  induction ns as [|n ns IH]; intros Hv m Hm; cbn [replace_out_edges]; [done|].
  apply not_elem_of_cons in Hv as [Hn Hv]. destruct (view n) as [v|]; [|by apply IH].
  destruct (push_edges_ok n (best_candidates view dist n v candidates num)
    (not_eq_sym Hn) m Hm) as [H1 H2].
  destruct (IH Hv _ H1) as [H3 H4]. split; [done|]. intros k Hk. by apply H4, H2.
Qed.

End edges_to_add.

Section candidates.
Context {I V P E : Type} `{!EqDecision I, !Countable I, !ContainsSimd I}.
Context `{GP : !GraphProvider I V P E} {graph : P → I → list I} {cfg : Config}.
Context `{GL : !GraphProviderLaws I V P E graph (Z.to_nat (c_max_degree cfg))}.

(** Neither the graph nor the deletions change. *)
Definition same_graph (p p' : P) : Prop :=
  graph p' = graph p ∧ status_by_internal_id p' = status_by_internal_id p.

Lemma same_graph_trans p1 p2 p3 : same_graph p1 p2 → same_graph p2 p3 → same_graph p1 p3.
Proof. intros [H1 H2] [H3 H4]. split; congruence. Qed.

Lemma same_graph_dead p p' : same_graph p p' → dead p' = dead p.
Proof. intros [_ Hs]. unfold dead. by rewrite Hs. Qed.

Lemma get_neighbors_same i p :
  gm_ok (gm_lift (get_neighbors i)) p (λ p' l, l = graph p i ∧ same_graph p p').
Proof.
  apply gm_ok_lift. intros p' l Hg. pose proof (get_status _ _ _ _ Hg).
  by apply get_law in Hg as [-> ?].
Qed.

Lemma on_neighbors_same id p :
  gm_ok (on_neighbors id) p (λ p' r, same_graph p p' ∧
    ∀ x, x ∈ r.1 ↔ x ∈ graph p id ∧ dead p x = false).
Proof.
  eapply gm_ok_weaken; [by apply (on_neighbors_ok cfg)|]. intros p' r (Hg & Hs & ->). split; [done|].
  intros x. cbn. by rewrite elem_of_List_filter, negb_true_iff.
Qed.

Lemma return_refs_ok vid cands : ∀ p,
  gm_ok (return_refs_to_deleted_vertex vid cands) p (λ p' r, same_graph p p' ∧
    ∀ x, x ∈ r ↔ x ∈ cands ∧ vid ∈ graph p x).
Proof.
  induction cands as [|c cands IH]; intros p; cbn [return_refs_to_deleted_vertex].
  { apply gm_ok_ret. split; [done|]. intros x. rewrite elem_of_nil. tauto. }
  eapply gm_ok_bind; [apply get_neighbors_same|]. intros p1 l [-> Hs1].
  eapply gm_ok_bind; [apply IH|]. intros p2 rest [Hs2 Hin]. apply gm_ok_ret.
  split; [by eapply same_graph_trans|]. intros x. rewrite (proj1 Hs1) in Hin.
  destruct (al_contains _ _) eqn:Ec.
  - apply al_contains_spec in Ec. cbn in Ec. rewrite !elem_of_cons, Hin.
    split; [intros [->|?]; tauto|]. intros [[->|?] ?]; tauto.
  - apply al_contains_false in Ec. cbn in Ec. rewrite elem_of_cons, Hin.
    split; [tauto|]. intros [[->|?] ?]; tauto.
Qed.

Lemma two_hop_ok nbhs : ∀ set p,
  gm_ok (two_hop nbhs set) p (λ p' set', same_graph p p' ∧ set ⊆ set' ∧
    ∀ x, x ∈ nbhs → x ∈ set').
Proof.
  induction nbhs as [|n nbhs IH]; intros set p; cbn [two_hop].
  { apply gm_ok_ret. split_and!; [done|done|by intros x ?%elem_of_nil]. }
  eapply gm_ok_bind; [apply get_neighbors_same|]. intros p1 l [-> Hs1].
  eapply gm_ok_weaken; [apply IH|]. intros p2 set' (Hs2 & Hsub & Hin).
  split_and!; [by eapply same_graph_trans|set_solver|].
  intros x [->|?]%elem_of_cons; [|by apply Hin]. apply Hsub. set_solver.
Qed.

Lemma keep_undeleted_ok (is_transient : E → bool) nodes p :
  gm_ok (keep_undeleted is_transient nodes) p (λ p' r, p' = p ∧
    ∀ x, x ∈ r ↔ x ∈ nodes ∧ dead p x = false).
Proof.
  induction nodes as [|n nodes IH]; cbn [keep_undeleted].
  { apply gm_ok_ret. split; [done|]. intros x. rewrite elem_of_nil. tauto. }
  eapply gm_ok_bind with (Mid := λ p1 p2, p1 = p ∧ p2 = p); [by exists p, (Ok p)|].
  intros p1 p2 [-> ->]. destruct (status_by_internal_id p n) as [s|e] eqn:Es.
  - eapply gm_ok_bind; [apply IH|]. intros p' rest [-> Hin]. apply gm_ok_ret. split; [done|].
    intros x. assert (dead p n = is_deleted s) as Hd by (unfold dead; by rewrite Es).
    destruct (is_deleted s); rewrite ?elem_of_cons, Hin.
    + split; [tauto|]. intros [[->|?] ?]; [congruence|tauto].
    + split; [intros [->|?]; tauto|]. intros [[->|?] ?]; tauto.
  - destruct (is_transient e); [|by exists p, (Err e)].
    eapply gm_ok_weaken; [apply IH|]. intros p' r [-> Hin]. split; [done|].
    intros x. rewrite elem_of_cons, Hin. assert (dead p n = true) by (unfold dead; by rewrite Es).
    split; [tauto|]. intros [[->|?] ?]; [congruence|tauto].
Qed.

(** What the candidate methods promise about the deleted vertex. *)
Record work_ok (p : P) (vid : I) (complete : bool) (w : InplaceDeleteWorkList I) : Prop := {
  wo_replace : vid ∉ replace_candidates w;
  wo_complete : complete = true →
    ∀ j, j ∈ graph p vid → dead p j = false → vid ∈ graph p j → j ∈ in_neighbors w;
}.

Lemma onehop_ok vid p :
  dead p vid = true →
  gm_ok (get_candidates_using_onehop vid) p (λ p' w, same_graph p p' ∧ work_ok p vid true w).
Proof.
  intros Hd. unfold get_candidates_using_onehop.
  eapply gm_ok_bind; [apply on_neighbors_same|]. intros p1 r [Hs1 Hin].
  eapply gm_ok_bind; [apply return_refs_ok|]. intros p2 ins [Hs2 Hins].
  apply gm_ok_ret. split; [by eapply same_graph_trans|]. rewrite (proj1 Hs1) in Hins. split.
  - cbn. intros [_ Hx]%Hin. congruence.
  - intros _ j Hj Hdj Hv. cbn. apply Hins. split; [by apply Hin|done].
Qed.

Lemma twohop_ok (hash_iter : gset I → list I) is_transient vid p :
  (∀ s, hash_iter s ≡ₚ elements s) → dead p vid = true →
  gm_ok (get_candidates_using_twohop_and_onehop hash_iter is_transient vid) p
    (λ p' w, same_graph p p' ∧ work_ok p vid true w).
Proof.
  intros Hh Hd. unfold get_candidates_using_twohop_and_onehop.
  eapply gm_ok_bind; [apply on_neighbors_same|]. intros p1 r [Hs1 Hin].
  eapply gm_ok_bind; [apply two_hop_ok|]. intros p2 set (Hs2 & _ & Hset).
  eapply gm_ok_bind; [apply keep_undeleted_ok|]. intros p3 und [-> Hund].
  eapply gm_ok_bind; [apply return_refs_ok|]. intros p4 ins [Hs4 Hins].
  pose proof (same_graph_trans _ _ _ Hs1 Hs2) as Hs12.
  apply gm_ok_ret. split; [by eapply same_graph_trans|]. rewrite (proj1 Hs12) in Hins. split.
  - cbn. intros [_ Hx]%Hin. congruence.
  - intros _ j Hj Hdj Hv. cbn. apply Hins. split; [|done]. apply Hund.
    rewrite (same_graph_dead _ _ Hs12). split; [|done].
    rewrite Hh. apply elem_of_elements, Hset, Hin. done.
Qed.

End candidates.

Section theory.
Context {I V P E A T X : Type} `{!EqDecision I, !Countable I, !ContainsSimd I, !UnstableSort I}.
Context `{GP : !GraphProvider I V P E} `{DP : !DeleteProvider I P E A T X}.
Context `{Acc : !SearchAccessor I A E}.
Variables (cfg : Config) (debug : bool) (sfuel fuel : nat) (dflt : I).
Context {graph : P → I → list I}.
Context `{GL : !GraphProviderLaws I V P E graph (Z.to_nat (c_max_degree cfg))}.
Context `{DL : !DeleteProviderLaws I V P E A T X graph}.
Context {distance : I → f32} {adj : I → list I} {nodes : gset I} {starts : list I}.
Context `{AL : !SearchAccessorLaws I A E distance adj nodes starts}.
Hypothesis cfg_valid : config_valid cfg.
Hypothesis cfg_alpha : alpha_in_range (c_alpha cfg).
Hypothesis fuel_enough : 490 < fuel.
Hypothesis nodes_u32 : (Z.of_nat (size nodes) < 2 ^ 32)%Z.
Hypothesis sfuel_enough : size nodes ≤ sfuel.
Variables (hash_iter : gset I → list I) (map_iter : gmap I (list I) → list (I * list I)).
Hypothesis hash_iter_perm : ∀ s, hash_iter s ≡ₚ elements s.
Hypothesis map_iter_perm : ∀ m, map_iter m ≡ₚ map_to_list m.
Variable (is_transient : E → bool).
Variable (processor : PostProcess (I := I) (A := A) (E := E) (B := BackInserter I)).

(** The post-processing removes the deleted vertex from the results. *)
Definition processor_removes (vid : I) : Prop := ∀ a best output,
  ∃ a' output' r, processor a best output = Some (a', output', r) ∧
    match r with
    | Ok n => ∀ x, x ∈ take n (bi_buffer output') → nbr_id x ≠ vid
    | Err _ => True
    end.

(** Every requested vector can be read. *)
Definition fill_complete : Prop := ∀ ids p p' view (dist : V → V → f32),
  fill ids p = (p', Ok (view, dist)) → ∀ i, i ∈ ids → is_Some (view i).

Definition is_search (m : InplaceDeleteMethod) : bool :=
  match m with VisitedAndTopK _ _ => true | _ => false end.

Definition method_ok (m : InplaceDeleteMethod) (vid : I) : Prop :=
  match m with
  | VisitedAndTopK _ l => 0 < l + length starts ∧ processor_removes vid
  | _ => True
  end.

Lemma topk_ok pooled vid l k (v : T) p :
  0 < l + length starts → processor_removes vid →
  gm_ok (get_candidates_using_visited_and_topk cfg debug sfuel dflt processor pooled vid l k v) p
    (λ p' w, same_graph (graph := graph) p p' ∧ work_ok (graph := graph) p vid false w).
Proof.
  intros Hl Hproc. unfold get_candidates_using_visited_and_topk.
  eapply gm_ok_bind with (Mid := λ p1 p2, p1 = p ∧ p2 = p); [by exists p, (Ok p)|].
  intros p1 p2 [-> ->]. destruct (search_accessor p v) as [a|e]; [|by exists p, (Err e)].
  unfold num_starting_points. destruct (starting_points a) as [st|e] eqn:Es;
    [|by exists p, (Err e)]. apply starting_points_law in Es as ->.
  unfold search_scratch. rewrite get_scratch_eq. set (s := scratch_create _).
  assert (scratch_fresh (NQ := priority_queue_ops debug) (QL := priority_queue_laws debug) s)
    as Hs by (apply scratch_create_fresh; simpl; lia).
  destruct (search_internal_total (NQ := priority_queue_ops debug) (QL := priority_queue_laws debug)
    noop_record sfuel None a s tt Hs) as (a' & s' & rec' & r & Hrun & Hpost); [done|done|done|].
  eapply gm_ok_bind with (Mid := λ p' x, p' = p ∧ x = (a', s', rec', r)).
  { by eapply gm_ok_panic. }
  intros p0 x [-> ->]. destruct r as [stats|e]; [|by exists p, (Err e)].
  destruct Hpost as (Hok & _ & _ & _).
  pose proof (pq_iter_ok (s_best s') Hok) as Hiter.
  eapply gm_ok_bind with (Mid := λ p' x, p' = p).
  { by eapply gm_ok_panic. }
  intros p0 best ->. destruct (Hproc a' best (bi_new (replicate l (mkNeighbor dflt f32_zero))))
    as (a2 & out & r & Hpr & Hr).
  eapply gm_ok_bind with (Mid := λ p' x, p' = p ∧ x = (a2, out, r)).
  { by eapply gm_ok_panic. }
  intros p0 x [-> ->]. destruct r as [n|e]; [|by exists p, (Err e)].
  eapply gm_ok_bind; [by apply (return_refs_ok (cfg := cfg))|]. intros p1 ins [Hs1 _].
  apply gm_ok_ret. split; [done|]. split; [|done]. cbn.
  intros Hx. apply (elem_of_sublist _ _ _ (sublist_take _ _)) in Hx.
  apply list_elem_of_fmap in Hx as (y & Heq & Hy). by apply (Hr y Hy).
Qed.

(** The edges that a deletion adds. *)
Lemma inner_ok pooled (x : X) num m p vid :
  to_internal_id p x = Ok vid → method_ok m vid →
  gm_ok (inplace_delete_inner cfg debug sfuel dflt hash_iter is_transient processor pooled x num m)
    p
    (λ p' edges, graph p' = graph p ∧ avoids vid edges ∧
       (is_search m = false → fill_complete → ∀ j, j ≠ vid → j ∈ graph p vid → dead p j = false →
          vid ∈ graph p j → is_Some (edges !! j))).
Proof.
  intros Hid Hm. unfold inplace_delete_inner.
  eapply gm_ok_bind with (Mid := λ p1 p2, p1 = p ∧ p2 = p); [by exists p, (Ok p)|].
  intros p1 p2 [-> ->]. rewrite Hid.
  eapply gm_ok_bind with (Mid := λ p' e, same_graph (graph := graph) p p' ∧
    to_internal_id p' = to_internal_id p ∧ (is_search m = true → is_Some e)).
  { destruct m; [|by apply gm_ok_ret..].
    eapply gm_ok_bind with (Mid := λ p' _, same_graph (graph := graph) p p' ∧
      to_internal_id p' = to_internal_id p).
    - apply gm_ok_lift. intros p' v Hg. by apply get_element_law in Hg as (? & ? & ?).
    - intros p' v [? ?]. apply gm_ok_ret. by split_and!. }
  intros p1 elem (Hs1 & Hto & Helem).
  eapply gm_ok_bind with (Mid := λ p' _, graph p' = graph p ∧ dead p' vid = true ∧
    ∀ j, j ≠ vid → dead p' j = dead p j).
  { apply gm_ok_lift. intros p' [] Hd.
    destruct (delete_law x vid p1 p' ltac:(by rewrite Hto) Hd) as (H1 & H2 & H3).
    split_and!; [by rewrite H1, (proj1 Hs1)|done|]. intros j Hj. unfold dead.
    by rewrite H3, (proj2 Hs1). }
  intros p2 _ (Hg2 & Hdead & Hoth).
  eapply gm_ok_bind with (Mid := λ p' w, same_graph (graph := graph) p2 p' ∧
    work_ok (graph := graph) p2 vid (negb (is_search m)) w).
  { destruct m as [k l| |].
    - destruct Hm as [Hl Hproc]. destruct (Helem eq_refl) as [v ->].
      eapply gm_ok_bind with (Mid := λ p' y, p' = p2 ∧ y = v); [by eapply gm_ok_panic|].
      intros p' y [-> ->]. by apply topk_ok.
    - by apply (twohop_ok (cfg := cfg)).
    - by apply (onehop_ok (cfg := cfg)). }
  intros p3 w [Hs3 [Hrep Hcomp]].
  eapply gm_ok_bind; [by apply (on_neighbors_same (cfg := cfg))|]. intros p4 parts [Hs4 Hparts].
  eapply gm_ok_bind with (Mid := λ p' vd, graph p' = graph p4 ∧
    (fill_complete → ∀ i, i ∈ in_neighbors w → is_Some (vd.1 i))).
  { apply gm_ok_lift. intros p' [view dist] Hf. split; [by eapply fill_law|].
    intros Hc i Hi. eapply (Hc _ _ _ _ _ Hf). rewrite !elem_of_app. auto. }
  intros p5 [view dist] [Hg5 Hview]. apply gm_ok_ret.
  assert (vid ∉ parts.1) as Hnp.
  { intros [_ Hx]%Hparts. rewrite (same_graph_dead _ _ Hs3) in Hx. congruence. }
  destruct (replace_in_edges_ok view dist (replace_candidates w) num vid Hrep (in_neighbors w) ∅)
    as [H1 H2]; [apply map_Forall_empty|].
  destruct (replace_out_edges_ok view dist (replace_candidates w) num vid parts.1 Hnp _ H1)
    as [H3 H4].
  split_and!; [|done|].
  - by rewrite Hg5, (proj1 Hs4), (proj1 Hs3), Hg2.
  - intros Hns Hc j Hne Hj Hd Hv. apply H4, H2. right. rewrite Hns in Hcomp.
    assert (j ∈ in_neighbors w) as Hin.
    { apply Hcomp; [done|by rewrite Hg2|by rewrite Hoth|by rewrite Hg2]. }
    split; [done|]. by apply (Hview Hc j).
Qed.

Lemma apply_edges_ok vid items : ∀ scratch p,
  graph_ok cfg (graph := graph) p → list_ok cfg (edges (ps_neighbors scratch)) →
  vid ∉ edges (ps_neighbors scratch) → (∀ k l, (k, l) ∈ items → vid ∉ l) →
  gm_ok (apply_edges cfg debug fuel dflt {[ vid ]} items scratch) p (λ p' _,
    graph_ok cfg (graph := graph) p' ∧ (∀ j, j ∉ items.*1 → graph p' j = graph p j) ∧
    (∀ j, j ∈ items.*1 → vid ∉ graph p' j)).
Proof.
  induction items as [|[k l] items IH]; intros scratch p Hp Hs Hns Hit; cbn [apply_edges].
  { apply gm_ok_ret. split_and!; [done|done|by intros j ?%elem_of_nil]. }
  eapply gm_ok_bind; [by apply add_edge_ok|]. intros p1 s1 (Hp1 & Hs1 & Hoth & Hout & Hsc).
  assert (vid ∉ edge_list (graph p k) l (Some {[ vid ]})) as Hwant.
  { destruct (edge_list_ok (graph p k) l (Some {[ vid ]}) (proj1 (Hp k))) as (_ & _ & _ & _ & Hin).
    rewrite Hin. intros [[_ Hr]|Hl].
    - cbn in Hr. apply bool_decide_eq_false in Hr. set_solver.
    - by apply (Hit k l); [left|]. }
  assert (vid ∉ graph p1 k) as Hk.
  { destruct Hout as [[_ ->]|[_ [Hpl| ->]]]; [done| |done].
    intros Hx. by apply Hwant, (pl_from _ _ _ _ Hpl). }
  eapply gm_ok_weaken; [apply IH|]; [done|done| | |].
  - destruct Hsc as [->| ->]; done.
  - intros k' l' ?. apply (Hit k'). by right.
  - intros p' [] (Hp' & Hoth' & Hv). split_and!; [done| |].
    + intros j [Hne Hj]%not_elem_of_cons. by rewrite Hoth', Hoth.
    + intros j Hj. destruct (decide (j ∈ items.*1)) as [?|Hn]; [by apply Hv|].
      apply elem_of_cons in Hj as [->|?]; [|done]. by rewrite Hoth'.
Qed.

(** C10: deleting a vertex in place never panics and keeps every adjacency list free of
    duplicates and within the maximal degree.  When it returns, the list of the deleted vertex
    is empty, and every list that still contains the vertex is one that was not touched; with
    the one-hop and two-hop methods, if all vectors can be read, no living neighbor of the
    vertex that had an edge to it has one any more.  It fails only with an error of the provider
    or of the post-processing. *)
Theorem inplace_delete_correct pooled (x : X) num m p vid :
  to_internal_id p x = Ok vid → method_ok m vid → graph_ok cfg (graph := graph) p →
  gm_ok (inplace_delete cfg debug sfuel fuel dflt hash_iter map_iter is_transient processor pooled
           x num m) p
    (λ p' _, graph_ok cfg (graph := graph) p' ∧ graph p' vid = [] ∧
       (∀ j, vid ∈ graph p' j → graph p' j = graph p j) ∧
       (is_search m = false → fill_complete → ∀ j, j ∈ graph p vid → dead p j = false →
          vid ∉ graph p' j)) ∧
  ∀ F, DeleteErrors processor F →
    gm_errors F (inplace_delete cfg debug sfuel fuel dflt hash_iter map_iter is_transient processor
                   pooled x num m).
Proof.
  intros Hid Hm Hp. split; [|intros; by apply delete_errors]. unfold inplace_delete.
  eapply gm_ok_bind with (Mid := λ p1 p2, p1 = p ∧ p2 = p); [by exists p, (Ok p)|].
  intros p1 p2 [-> ->]. rewrite Hid.
  eapply gm_ok_bind; [by apply inner_ok|]. intros p1 edges (Hg & Hav & Hkeys).
  eapply gm_ok_bind; [apply (apply_edges_ok vid)|].
  { intros i. rewrite Hg. apply Hp. }
  { split; [constructor|simpl; lia]. }
  { apply not_elem_of_nil. }
  { intros k l Hkl. rewrite map_iter_perm in Hkl. apply elem_of_map_to_list in Hkl.
    exact (Hav k l Hkl). }
  intros p2 [] (Hp2 & Hoth & Hv). unfold drop_adj_list.
  eapply (set_neighbors_ok cfg vid [] p2); [done|split; [constructor|simpl; lia]|].
  intros p3 Hp3 Hvid Hrest. split_and!; [done|done| |].
  - intros j Hj. assert (j ≠ vid) by (intros ->; rewrite Hvid in Hj; by apply elem_of_nil in Hj).
    rewrite Hrest in Hj |- * by done. rewrite Hoth, Hg; [done|]. intros Hin. by apply (Hv j).
  - intros Hns Hc j Hj Hd. destruct (decide (j = vid)) as [->|Hne].
    { rewrite Hvid. apply not_elem_of_nil. }
    rewrite Hrest by done. destruct (decide (j ∈ (map_iter edges).*1)) as [?|Hn]; [by apply Hv|].
    rewrite Hoth, Hg by done. intros Hin. apply Hn.
    destruct (Hkeys Hns Hc j Hne Hj Hd Hin) as [l Hl]. apply list_elem_of_fmap.
    exists (j, l). split; [done|]. rewrite map_iter_perm. by apply elem_of_map_to_list.
Qed.

End theory.

(** ** A deletion from the path graph *)

#[local] Instance mem_delete : DeleteProvider Z MemProvider unit unit Z Z := {|
  delete_element := λ x p, (mkMem (m_lists p) (m_vectors p) ({[ x ]} ∪ m_deleted p), Ok tt);
  to_internal_id := λ _ x, Ok x;
  get_delete_element := λ i p, (p, match m_vectors p !! i with Some v => Ok v | None => Err tt end);
  search_accessor := λ _ _, Ok tt;
|}.

#[local] Instance mem_delete_laws : DeleteProviderLaws Z Z MemProvider unit unit Z Z mem_graph.
Proof.
  split.
  - intros x id p p' Hid Hd. cbn in Hid, Hd. injection Hid as ->. injection Hd as <-.
    split; [done|]. split.
    + unfold dead. cbn. rewrite bool_decide_eq_true_2 by set_solver. done.
    + intros j Hj. cbn. f_equal.
      rewrite (bool_decide_ext (j ∈ {[id]} ∪ m_deleted p) (j ∈ m_deleted p)); [done|set_solver].
  - intros i p p' r Hg. cbn in Hg. by simplify_eq.
Qed.

(** The provider that refuses to fill a view when a requested vector is missing. *)
#[local] Instance strict_provider : GraphProvider Z Z MemProvider unit := {|
  get_neighbors := get_neighbors (GraphProvider := mem_provider);
  set_neighbors := set_neighbors (GraphProvider := mem_provider);
  append_vector := append_vector (GraphProvider := mem_provider);
  fill := λ ids p, (p, if forallb (λ i, bool_decide (is_Some (m_vectors p !! i))) ids
    then Ok (λ i, m_vectors p !! i, λ x y, f32_of_Z (Z.abs (x - y))) else Err tt);
  status_by_internal_id := status_by_internal_id (GraphProvider := mem_provider);
|}.

#[local] Instance strict_laws capacity :
  GraphProviderLaws Z Z MemProvider unit (H := strict_provider) mem_graph capacity.
Proof.
  destruct (mem_laws capacity) as [L1 L2 L3 _ L5 L6 _].
  split; [exact L1|exact L2|exact L3| |exact L5|exact L6|]; intros ids p p' r Hf; by injection Hf as <- _.
Qed.

#[local] Instance strict_delete_laws :
  DeleteProviderLaws Z Z MemProvider unit unit Z Z (H := strict_provider) mem_graph.
Proof. destruct mem_delete_laws as [L1 L2]. split; [exact L1|exact L2]. Qed.

Lemma strict_complete : fill_complete (GP := strict_provider).
Proof.
  intros ids p p' view dist Hf i Hi. cbn in Hf.
  destruct (forallb _ ids) eqn:Ha; [|done]. injection Hf as _ <- _.
  rewrite forallb_forall in Ha. apply list_elem_of_In in Hi. by apply Ha, bool_decide_eq_true in Hi.
Qed.

Local Abbreviation demo_delete := (inplace_delete (GP := strict_provider) (DP := mem_delete)
  (Acc := path_accessor) demo_config true 5 500 0%Z elements map_to_list (λ _, true)
  (λ a _ out, Some (a, out, Ok 0)) None 2%Z 2 OneHop).

(** Vertex 2 is bypassed: its living neighbors lose their edges to it and are linked to each
    other. *)
Lemma inplace_delete_correct_witness :
  ∃ p', demo_delete mem_path = Some (p', Ok tt) ∧
    graph_ok demo_config (graph := mem_graph) p' ∧ mem_graph p' 2%Z = [] ∧
    2%Z ∉ mem_graph p' 1%Z ∧ 2%Z ∉ mem_graph p' 3%Z ∧
    mem_graph p' 1%Z = [0; 3]%Z ∧ mem_graph p' 3%Z = [4; 1]%Z.
Proof.
  destruct (inplace_delete_correct (GP := strict_provider) (graph := mem_graph) (AL := path_laws)
    (GL := strict_laws _) (DL := strict_delete_laws)
    demo_config true 5 500 0%Z demo_config_valid alpha_in_range_12 ltac:(lia)
    ltac:(vm_compute; reflexivity) ltac:(vm_compute; lia) elements map_to_list
    ltac:(reflexivity) ltac:(reflexivity) (λ _, true) (λ a _ out, Some (a, out, Ok 0)) None 2%Z 2
    OneHop mem_path 2%Z) as [(p' & r & Hrun & Hr) _];
    [reflexivity|exact Logic.I|apply mem_okb_ok; vm_compute; reflexivity|].
  assert (∃ p, demo_delete mem_path = Some (p, Ok tt) ∧ mem_graph p 1%Z = [0; 3]%Z ∧
    mem_graph p 3%Z = [4; 1]%Z) as (p & Hrun' & Hl)
    by (eexists _; split_and!; vm_compute; reflexivity).
  rewrite Hrun in Hrun'. injection Hrun' as -> ->.
  destruct Hr as (Hok & Hempty & _ & Hin). specialize (Hin eq_refl strict_complete).
  exists p. split; [exact Hrun|]. split; [exact Hok|]. split; [exact Hempty|].
  split; [apply Hin; [by apply (bool_decide_unpack _)|reflexivity]|].
  split; [apply Hin; [by apply (bool_decide_unpack _)|reflexivity]|exact Hl].
Defined.
