(* ===== verification/Insert.v ===== *)
(** * Insertion of a vector

    Models [DiskANNIndex::insert] of [diskann/src/graph/index.rs]: the vector is stored, a greedy
    search from the start points collects the visited nodes, pruning selects the out edges of
    the new vertex (the search is repeated with a longer candidate list when too few were
    selected), the out edges are written and back edges are added to at most [max_backedges] of
    the new neighbors.

    - Class [InsertProvider] with [InsertProviderLaws]: [SetElement], [Guard] and
      [InsertStrategy::insert_search_accessor];
    - Section [insert]: the operation;
    - Section [theory]: the invariant of the graph and the edges of the new vertex. *)

From Stdlib Require Import SpecFloat.
From S2P Require Import Prelude F32 Neighbor NeighborQueue QueueInterface AdjacencyList.
From S2P Require Import Config Prune Search Knn GraphUpdate.

Local Open Scope gm_scope.

(** [SetElement::set_element], [Guard] and [InsertStrategy::insert_search_accessor]. *)
Class InsertProvider (I P E A T G X : Type) := {
  set_element : X → T → P → P * result E G;
  guard_id : G → I;
  guard_complete : G → P → P;
  guard_abandon : G → P → P;
  insert_search_accessor : P → T → result E A;
}.

(** Storing the element may only reset the adjacency list of its own slot; the guard does not
    touch the graph. *)
Class InsertProviderLaws (I P E A T G X : Type) `{InsertProvider I P E A T G X}
    (graph : P → I → list I) := {
  set_element_law : ∀ x t p p' g, set_element x t p = (p', Ok g) →
    (∀ j, j ≠ guard_id g → graph p' j = graph p j) ∧
    (graph p' (guard_id g) = graph p (guard_id g) ∨ graph p' (guard_id g) = []);
  guard_complete_law : ∀ g p, graph (guard_complete g p) = graph p;
}.

(** [x *= y] on [usize]. *)
Definition usize_mul (x y : nat) : option nat :=
  if (Z.of_nat x * Z.of_nat y <? 2 ^ 64)%Z then Some (x * y) else None.

Section insert.
Context {I V P E A T G X : Type} `{!EqDecision I, !Countable I, !ContainsSimd I, !UnstableSort I}.
Context `{GP : !GraphProvider I V P E} `{IP : !InsertProvider I P E A T G X}.
Context `{Acc : !SearchAccessor I A E}.
Variables (cfg : Config) (debug : bool) (sfuel fuel : nat) (dflt : I).

Let retry := c_experimental_insert_retry cfg.

(** The loop over the attempts; [n] attempts are left. *)
Fixpoint insert_attempts (n attempt : nat) (internal_id : I) (a : A)
    (scratch : SearchScratch I (NeighborPriorityQueue I)) (search_l : nat)
    (new_neighbors : AdjacencyList I) : GM P E (AdjacencyList I) :=
  match n with
  | 0 => gm_ret new_neighbors
  | S n =>
      do found <- gm_panic (search_internal (NQ := priority_queue_ops debug) visited_record sfuel
                              None a scratch []);
      let '(a, scratch, record, r) := found in
      match r with
      | Err e => gm_err e
      | Ok _ =>
          let pool := sorted_neighbors record (Z.to_nat (c_max_occlusion_size cfg)) in
          let force := match retry with
                       | Some v => should_saturate v (Z.of_nat attempt) | None => false end in
          do new_neighbors <- graph_robust_prune cfg debug fuel dflt internal_id pool
                                new_neighbors force;
          let again := match retry with
                       | Some v => should_retry v (Z.of_nat attempt)
                                     (Z.of_nat (length (edges new_neighbors)))
                       | None => false end in
          if again then
            do search_l <- gm_panic (usize_mul search_l 2);
            insert_attempts n (S attempt) internal_id a
              (scratch_clear (scratch_resize scratch search_l)) search_l new_neighbors
          else gm_ret new_neighbors
      end
  end.

(** The loop that adds the back edges. *)
Fixpoint add_backedges (internal_id : I) (sources : list I) (scratch : PruneScratch I) :
    GM P E unit :=
  match sources with
  | [] => gm_ret tt
  | source :: sources =>
      do scratch <- add_edge_and_prune cfg debug fuel dflt [internal_id] source scratch None;
      add_backedges internal_id sources scratch
  end.

(** [insert] once the element is stored. *)
Definition insert_body (pooled : option (SearchScratch I (NeighborPriorityQueue I)))
    (internal_id : I) (vector : T) : GM P E unit :=
  do p <- gm_get;
  match insert_search_accessor p vector with
  | Err e => gm_err e
  | Ok a =>
      match num_starting_points a with
      | Err e => gm_err e
      | Ok num_start_ids =>
          let scratch := search_scratch pooled (Z.to_nat (c_max_degree cfg))
                           (Z.to_nat (c_l_build cfg)) num_start_ids in
          let attempts := match retry with Some v => Z.to_nat (max_retries v) | None => 1 end in
          do new_neighbors <- insert_attempts attempts 0 internal_id a scratch
                                (q_search_param_l (s_best scratch)) al_new;
          do _ <- gm_lift (set_neighbors internal_id (edges new_neighbors));
          add_backedges internal_id (take (Z.to_nat (c_max_backedges cfg)) (edges new_neighbors))
            prune_scratch_new
      end
  end.

(** [DiskANNIndex::insert]: the internal id, for the theorems; the code returns nothing. *)
Definition insert (pooled : option (SearchScratch I (NeighborPriorityQueue I))) (id : X)
    (vector : T) : GM P E I := λ p,
  let '(p, r) := set_element id vector p in
  match r with
  | Err e => Some (p, Err e)
  | Ok guard =>
      '(p, r) ← insert_body pooled (guard_id guard) vector p;
      match r with
      | Err e => Some (guard_abandon guard p, Err e)
      | Ok _ => Some (guard_complete guard p, Ok (guard_id guard))
      end
  end.

End insert.

(** ** Where errors come from *)

(** [F] holds of the errors of the provider and of its accessors. *)
Class InsertErrors {I V P E A T G X} `{!EqDecision I, !Countable I} `{!GraphProvider I V P E}
    `{!InsertProvider I P E A T G X} `{!SearchAccessor I A E} (F : E → Prop) := {
  #[global] insert_graph_errors :: GraphErrors F;
  set_element_error : ∀ x t p p' e, set_element x t p = (p', Err e) → F e;
  insert_accessor_error : ∀ p t e, insert_search_accessor p t = Err e → F e;
  insert_search_error : ∀ e, accessor_error I A E e → F e;
}.

Section errors.
Context {I V P E A T G X : Type} `{!EqDecision I, !Countable I, !ContainsSimd I, !UnstableSort I}.
Context `{GP : !GraphProvider I V P E} `{IP : !InsertProvider I P E A T G X}.
Context `{Acc : !SearchAccessor I A E}.
Variables (cfg : Config) (debug : bool) (sfuel fuel : nat) (dflt : I) (F : E → Prop).
Context `{IE : !InsertErrors F}.

Lemma num_starts_error (a : A) e : num_starting_points a = Err e → accessor_error I A E e.
Proof using Acc. unfold num_starting_points. case_match; intros; simplify_eq; by eauto with rust. Qed.

Lemma attempts_errors n : ∀ attempt id (a : A) scratch l nbs,
  gm_errors F (P := P) (insert_attempts cfg debug sfuel fuel dflt n attempt id a scratch l nbs).
Proof using IE.
  induction n as [|n IH]; intros; cbn [insert_attempts]; [errors_from|].
  apply errors_bind_panic. intros [[[a1 s1] rec] [u|e]] Hrun.
  - unfold graph_robust_prune. errors_from.
  - apply errors_err, insert_search_error. by eapply search_internal_error.
Qed.

Lemma backedges_errors id sources : ∀ scratch,
  gm_errors F (P := P) (add_backedges cfg debug fuel dflt id sources scratch).
Proof using IE. induction sources; intros; cbn [add_backedges]; errors_from. Qed.

Lemma insert_errors pooled (x : X) (t : T) :
  gm_errors F (insert cfg debug sfuel fuel dflt pooled x t).
Proof using IE.
  assert (∀ id, gm_errors F (insert_body cfg debug sfuel fuel dflt pooled id t)) as Hbody.
  { intros id. unfold insert_body. apply errors_bind; [apply errors_get|]. intros p.
    destruct (insert_search_accessor p t) as [a|e] eqn:Ea;
      [|by eapply errors_err, insert_accessor_error].
    destruct (num_starting_points a) as [n|e] eqn:En;
      [|by apply errors_err, insert_search_error, (num_starts_error a)].
    apply errors_bind; [apply attempts_errors|]. intros nbs.
    apply errors_bind; [errors_from|]. intros _. apply backedges_errors. }
  intros p p' e. unfold insert. destruct (set_element x t p) as [p1 [g|e1]] eqn:Es.
  - destruct (insert_body _ _ _ _ _ _ _ _ p1) as [[p2 [u|e2]]|] eqn:Eb; try done.
    cbn. intros ?. simplify_eq. by eapply Hbody.
  - intros ?. simplify_eq. by eapply set_element_error.
Qed.

End errors.

(** ** Theory *)

Lemma scratch_resize_clear {I} `{Countable I} (s : SearchScratch I (NeighborPriorityQueue I)) n d :
  q_auto_resizable (s_best s) = false →
  scratch_clear (scratch_resize s n) = scratch_create (mkParams n d 0).
Proof.
  intros Hf. unfold scratch_clear, scratch_resize, scratch_create, scratch_new, q_new, q_clear.
  cbn [s_best p_l_value p_num_frozen]. rewrite Nat.add_0_r. unfold q_reconfigure.
  destruct (n <? q_size (s_best s)); cbn [q_capacity q_auto_resizable q_search_param_l];
    by rewrite Hf.
Qed.

Lemma usize_mul_ok x y : (Z.of_nat x * Z.of_nat y < 2 ^ 64)%Z → usize_mul x y = Some (x * y).
Proof. intros Hl. unfold usize_mul. by rewrite (proj2 (Z.ltb_lt _ _) Hl). Qed.

Section theory.
Context {I V P E A T G X : Type} `{!EqDecision I, !Countable I, !ContainsSimd I, !UnstableSort I}.
Context `{GP : !GraphProvider I V P E} `{IP : !InsertProvider I P E A T G X}.
Context `{Acc : !SearchAccessor I A E}.
Variables (cfg : Config) (debug : bool) (sfuel fuel : nat) (dflt : I).
Context {graph : P → I → list I}.
Context `{GL : !GraphProviderLaws I V P E graph (Z.to_nat (c_max_degree cfg))}.
Context `{IL : !InsertProviderLaws I P E A T G X graph}.
Context {dist : I → f32} {adj : I → list I} {nodes : gset I} {starts : list I}.
Context `{AL : !SearchAccessorLaws I A E dist adj nodes starts}.
Hypothesis cfg_valid : config_valid cfg.
Hypothesis cfg_alpha : alpha_in_range (c_alpha cfg).
Hypothesis fuel_enough : 490 < fuel.
Hypothesis nodes_u32 : (Z.of_nat (size nodes) < 2 ^ 32)%Z.
Hypothesis sfuel_enough : size nodes ≤ sfuel.

(** A list of out edges of a new vertex: pruned from the nodes of the graph. *)
Definition out_edges (id : I) (l : list I) : Prop := pruned_list cfg id (elements nodes) l.

Lemma insert_attempts_ok n id : ∀ attempt a params search_l new p,
  search_l = p_l_value params + p_num_frozen params → 0 < search_l →
  (Z.of_nat search_l * 2 ^ Z.of_nat n < 2 ^ 64)%Z → out_edges id (edges new) →
  gm_ok (insert_attempts cfg debug sfuel fuel dflt n attempt id a (scratch_create params)
           search_l new) p
    (λ p' new', graph p' = graph p ∧ out_edges id (edges new')).
Proof.
  induction n as [|n IH]; intros attempt a params search_l new p Hl Hpos Hbig Hnew;
    cbn [insert_attempts]; [by apply gm_ok_ret|].
  destruct (search_visited_ok debug sfuel None a params)
    as (a' & s' & rec & r & Hrun & Hr); [lia|done|done|done|].
  eapply gm_ok_bind with (Mid := λ p' x, p' = p ∧ x = (a', s', rec, r)).
  { by eapply gm_ok_panic. }
  intros p0 x [-> ->]. destruct r as [st|e]; [|by exists p, (Err e)].
  destruct Hr as (Hfix & Hnd & Hin).
  eapply gm_ok_bind; [by apply graph_robust_prune_ok|]. intros p1 new1 [Hg Hnew1].
  assert (out_edges id (edges new1)) as Hout.
  { destruct Hnew1 as [->|[H1 H2 H3]]; [done|]. split; [done|done|]. intros x Hx.
    destruct (H3 x Hx) as [Hx' ?]. split; [|done].
    apply list_elem_of_fmap in Hx' as (m & -> & Hm). by apply elem_of_elements, Hin. }
  destruct (match c_experimental_insert_retry cfg with Some v => _ | None => _ end).
  2:{ by apply gm_ok_ret. }
  assert (Z.of_nat search_l * 2 * 2 ^ Z.of_nat n < 2 ^ 64)%Z as Hbig'.
  { rewrite Nat2Z.inj_succ, Z.pow_succ_r in Hbig by lia. lia. }
  eapply gm_ok_bind with (Mid := λ p' x, p' = p1 ∧ x = search_l * 2).
  { eapply gm_ok_panic; [|done]. apply usize_mul_ok.
    pose proof (Z.pow_pos_nonneg 2 (Z.of_nat n)). nia. }
  intros p2 x [-> ->]. rewrite (scratch_resize_clear s' _ 0 Hfix).
  eapply gm_ok_weaken; [apply IH|].
  - simpl. lia.
  - lia.
  - rewrite Nat2Z.inj_mul. done.
  - done.
  - intros p' new' [Hg' ?]. by rewrite Hg', Hg.
Qed.

(** A vertex that had room gets the back edge and loses nothing. *)
Definition backedge (id : I) (old new : list I) : Prop :=
  length old < max_degree cfg → ∀ x, x ∈ new ↔ x ∈ old ∨ x = id.

Lemma edge_outcome_backedge source old id stale new :
  NoDup old → edge_outcome cfg source old [id] None stale new → backedge id old new.
Proof.
  intros Hnd Hout Hlt. destruct (edge_list_ok old [id] None Hnd) as (_ & _ & _ & Hnd' & Hin).
  assert (∀ x, x ∈ edge_list old [id] None ↔ x ∈ old ∨ x = id) as Hin'.
  { intros x. rewrite Hin, list_elem_of_singleton. simpl. naive_solver. }
  assert (length (edge_list old [id] None) ≤ S (length old)) as Hlen.
  { change (S (length old)) with (length (id :: old)). apply submseteq_length, NoDup_submseteq;
      [done|]. intros x [?|?]%Hin'; apply elem_of_cons; auto. }
  destruct Hout as [[_ ->]|[Hgt _]]; [done|lia].
Qed.

Lemma add_backedges_ok id sources : ∀ scratch p,
  NoDup sources → graph_ok cfg (graph := graph) p →
  list_ok cfg (edges (ps_neighbors scratch)) →
  gm_ok (add_backedges cfg debug fuel dflt id sources scratch) p (λ p' _,
    graph_ok cfg (graph := graph) p' ∧ (∀ j, j ∉ sources → graph p' j = graph p j) ∧
    (∀ j, j ∈ sources → backedge id (graph p j) (graph p' j))).
Proof.
  induction sources as [|j sources IH]; intros scratch p Hnd Hp Hs; cbn [add_backedges].
  { apply gm_ok_ret. split_and!; [done|done|by intros j ?%elem_of_nil]. }
  apply NoDup_cons in Hnd as [Hj Hnd].
  eapply gm_ok_bind; [by apply add_edge_ok|]. intros p1 scratch1 (Hp1 & Hs1 & Hoth & Hout & _).
  eapply gm_ok_weaken; [by apply IH|]. intros p' [] (Hp' & Hoth' & Hback). split_and!; [done| |].
  - intros i [Hne Hi]%not_elem_of_cons. by rewrite Hoth', Hoth.
  - intros i Hi. destruct (decide (i = j)) as [->|Hne].
    + rewrite Hoth' by done. eapply edge_outcome_backedge; [apply Hp|exact Hout].
    + apply elem_of_cons in Hi as [?|Hi]; [done|]. rewrite <-(Hoth i) by done. by apply Hback.
Qed.

(** How often the search is run at most, and the longest candidate list. *)
Definition insert_tries : nat :=
  match c_experimental_insert_retry cfg with Some v => Z.to_nat (max_retries v) | None => 1 end.
Definition insert_l : nat := Z.to_nat (c_l_build cfg) + length starts.

(** The graph after an insertion of vertex [id]. *)
Record inserted (p p' : P) (id : I) : Prop := {
  in_graph : graph_ok cfg (graph := graph) p';
  in_out : out_edges id (graph p' id);
  in_other : ∀ j, j ≠ id → j ∉ take (Z.to_nat (c_max_backedges cfg)) (graph p' id) →
    graph p' j = graph p j;
  in_back : ∀ j, j ∈ take (Z.to_nat (c_max_backedges cfg)) (graph p' id) →
    backedge id (graph p j) (graph p' j);
}.

Lemma insert_body_ok pooled id (t : T) p p0 :
  graph_ok cfg (graph := graph) p →
  (∀ j, j ≠ id → graph p j = graph p0 j) →
  (Z.of_nat insert_l * 2 ^ Z.of_nat insert_tries < 2 ^ 64)%Z →
  gm_ok (insert_body cfg debug sfuel fuel dflt pooled id t) p (λ p' _, inserted p0 p' id).
Proof.
  intros Hp Hp0 Hbig. unfold insert_body.
  eapply gm_ok_bind with (Mid := λ p1 p2, p1 = p ∧ p2 = p); [by exists p, (Ok p)|].
  intros p1 p2 [-> ->]. destruct (insert_search_accessor p t) as [a|e]; [|by exists p, (Err e)].
  unfold num_starting_points. destruct (starting_points a) as [ps|e] eqn:Es;
    [|by exists p, (Err e)]. apply starting_points_law in Es as ->.
  unfold search_scratch. rewrite get_scratch_eq. cbn [scratch_create scratch_new s_best q_new
    q_search_param_l p_l_value p_num_frozen]. fold insert_l insert_tries.
  eapply gm_ok_bind; [apply insert_attempts_ok|].
  { done. }
  { unfold insert_l. destruct (cv_l_build cfg cfg_valid). lia. }
  { done. }
  { split; [constructor|simpl; lia|by intros x ?%elem_of_nil]. }
  intros p1 new [Hg Hnew].
  eapply gm_ok_bind; [eapply (set_neighbors_ok cfg id (edges new) p1 (λ p' _,
    graph_ok cfg (graph := graph) p' ∧ graph p' id = edges new ∧
    ∀ j, j ≠ id → graph p' j = graph p1 j))|].
  { intros i. rewrite Hg. apply Hp. }
  { by eapply pruned_list_ok. }
  { auto. }
  intros p2 [] (Hp2 & Hid & Hoth). set (srcs := take _ (edges new)).
  assert (id ∉ srcs) as Hnid.
  { intros Hx. by destruct (pl_from _ _ _ _ Hnew id (elem_of_sublist _ _ _ (sublist_take _ _) Hx)). }
  eapply gm_ok_weaken; [apply add_backedges_ok; [|done|split; [constructor|simpl; lia]]|].
  { apply (sublist_NoDup _ _ (pl_nodup _ _ _ _ Hnew)), sublist_take. }
  intros p' [] (Hp' & Hoth' & Hback).
  assert (graph p' id = edges new) as Heq by (by rewrite Hoth', Hid).
  split; rewrite ?Heq; [done|done| |].
  - intros j Hj Hn. by rewrite Hoth', Hoth, Hg, Hp0.
  - intros j Hj. assert (j ≠ id) by (by intros ->). rewrite <-Hp0, <-Hg, <-Hoth by done.
    by apply Hback.
Qed.

(** C6: inserting a vector never panics, for any number of retries whose doubled candidate
    lists fit in a [usize].  When it returns, every adjacency list is free of duplicates and
    within the maximal degree; the new vertex has at most the pruned degree of out edges, to
    distinct other nodes that the search can reach; only its first [max_backedges] neighbors
    changed besides it, and each of those that had room kept its neighbors and gained exactly
    the edge to the new vertex.  It fails only with an error of the provider. *)
Theorem insert_correct pooled (x : X) (t : T) p :
  graph_ok cfg (graph := graph) p →
  (Z.of_nat insert_l * 2 ^ Z.of_nat insert_tries < 2 ^ 64)%Z →
  gm_ok (insert cfg debug sfuel fuel dflt pooled x t) p (λ p' id, inserted p p' id) ∧
  ∀ F, InsertErrors F → gm_errors F (insert cfg debug sfuel fuel dflt pooled x t).
Proof.
  intros Hp Hbig. split; [|intros; by apply insert_errors]. unfold gm_ok, insert. destruct (set_element x t p) as [p1 r] eqn:Es.
  destruct r as [g|e]; [|by exists p1, (Err e)]. apply set_element_law in Es as [Hoth Hid].
  destruct (insert_body_ok pooled (guard_id g) t p1 p) as (p2 & r & Hrun & Hr); [|done|done|].
  { intros j. destruct (decide (j = guard_id g)) as [->|]; [|rewrite Hoth by done; apply Hp].
    destruct Hid as [->| ->]; [apply Hp|split; [constructor|simpl; lia]]. }
  rewrite Hrun. cbn [mbind option_bind]. destruct r as [u|e]; [|by eexists _, _].
  eexists _, _. split; [done|]. pose proof (guard_complete_law g p2) as Hc.
  destruct Hr as [H1 H2 H3 H4]. split; rewrite ?Hc; [|done..]. intros j. rewrite Hc. apply H1.
Qed.

End theory.

(** ** An insertion into the path graph *)

#[local] Instance mem_insert : InsertProvider Z MemProvider unit unit Z Z Z := {|
  set_element := λ x t p, (mkMem (m_lists p) (<[x := t]> (m_vectors p)) (m_deleted p), Ok x);
  guard_id := λ g, g;
  guard_complete := λ _ p, p;
  guard_abandon := λ _ p, p;
  insert_search_accessor := λ _ _, Ok tt;
|}.

#[local] Instance mem_insert_laws :
  InsertProviderLaws Z MemProvider unit unit Z Z Z mem_graph.
Proof.
  split; [|done]. intros x t p p' g Hs. cbn in Hs. injection Hs as <- <-. split; [done|by left].
Qed.

Local Abbreviation demo_insert := (insert (GP := mem_provider) (IP := mem_insert)
  (Acc := path_accessor) demo_config true 5 500 0%Z None 5%Z 0%Z).

Lemma insert_correct_witness :
  ∃ p', demo_insert mem_path = Some (p', Ok 5%Z) ∧
    inserted demo_config (graph := mem_graph) (nodes := path_nodes) mem_path p' 5%Z ∧
    mem_graph p' 5%Z = [0; 1]%Z ∧ mem_graph p' 0%Z = [1; 5]%Z ∧ mem_graph p' 1%Z = [0; 2; 5]%Z.
Proof.
  destruct (insert_correct (GP := mem_provider) (graph := mem_graph) (AL := path_laws) demo_config
    true 5 500 0%Z demo_config_valid alpha_in_range_12 ltac:(lia) ltac:(vm_compute; reflexivity)
    ltac:(vm_compute; lia) None 5%Z 0%Z mem_path) as [(p' & r & Hrun & Hr) _];
    [apply mem_okb_ok; vm_compute; reflexivity|vm_compute; reflexivity|].
  assert (∃ p, demo_insert mem_path = Some (p, Ok 5%Z) ∧ mem_graph p 5%Z = [0; 1]%Z ∧
    mem_graph p 0%Z = [1; 5]%Z ∧ mem_graph p 1%Z = [0; 2; 5]%Z) as (p & Hrun' & Hl)
    by (eexists _; split_and!; vm_compute; reflexivity).
  rewrite Hrun in Hrun'. injection Hrun' as -> ->.
  exists p. split; [exact Hrun|]. split; [exact Hr|exact Hl].
Defined.
