(* ===== verification/MultiInsert.v ===== *)
(** * Batched insertion: candidates and back edges

    Models the parts of [multi_insert] ([diskann/src/graph/index.rs]) that each task runs:
    [search_and_prune], the bootstrap step [multi_insert_bootstrap_leaf] and the aggregation of
    the back edges ([aggregate_backedges]), over the work distribution of [AsyncTools]. *)

From Stdlib Require Import SpecFloat.
From S2P Require Import Prelude F32 Neighbor NeighborQueue QueueInterface AdjacencyList Config.
From S2P Require Import Prune Search Knn AsyncTools GraphUpdate Insert.

Local Open Scope gm_scope.

Record PendingEdge (I : Type) := mkPending {
  pe_source : I;
  pe_edges : AdjacencyList I;
}.
Arguments mkPending {I} _ _.
Arguments pe_source {I} _.
Arguments pe_edges {I} _.

Section aggregate.
Context {I : Type} `{!EqDecision I, !Countable I, !ContainsSimd I}.
Variables (debug : bool) (dflt : I).

(** The inner loop of [aggregate_backedges]. *)
Fixpoint add_targets (source : I) (targets : list I) (map : gmap I (Backedge.Inner I)) :
    option (gmap I (Backedge.Inner I)) :=
  match targets with
  | [] => Some map
  | target :: targets =>
      buf ← match map !! target with
            | Some buf => '(buf, _) ← Backedge.push debug dflt buf source; Some buf
            | None => Some (Backedge.buf_new source)
            end;
      add_targets source targets (<[target := buf]> map)
  end.

(** The outer loop. *)
Fixpoint aggregate_loop (lists : list (PendingEdge I)) (map : gmap I (Backedge.Inner I)) :
    option (gmap I (Backedge.Inner I)) :=
  match lists with
  | [] => Some map
  | pending :: lists =>
      map ← add_targets (pe_source pending) (edges (pe_edges pending)) map;
      aggregate_loop lists map
  end.

(** [aggregate_backedges] *)
Definition aggregate_backedges (lists : list (PendingEdge I)) :
    option (gmap I (Backedge.Inner I)) :=
  aggregate_loop lists ∅.

(** The map holds exactly the reversed edges [E]. *)
Definition holds_edges (E : I → I → Prop) (map : gmap I (Backedge.Inner I)) : Prop :=
  ∀ t, match map !! t with
       | Some b => NoDup (Backedge.as_slice b) ∧ Backedge.as_slice b ≠ [] ∧
                   ∀ s, s ∈ Backedge.as_slice b ↔ E s t
       | None => ∀ s, ¬ E s t
       end.

Lemma holds_edges_iff (E E' : I → I → Prop) map :
  (∀ s t, E s t ↔ E' s t) → holds_edges E map → holds_edges E' map.
Proof.
  intros Hiff Hm t. specialize (Hm t). destruct (map !! t).
  - destruct Hm as (? & ? & Hin). split_and!; [done|done|]. intros s. by rewrite Hin.
  - intros s. by rewrite <-Hiff.
Qed.

Lemma add_target_ok E source target (map : gmap I (Backedge.Inner I)) :
  holds_edges E map →
  ∃ buf, match map !! target with
         | Some buf => '(buf, _) ← Backedge.push debug dflt buf source; Some buf
         | None => Some (Backedge.buf_new source)
         end = Some buf ∧
    holds_edges (λ s t, E s t ∨ s = source ∧ t = target) (<[target := buf]> map).
Proof.
  intros Hm. pose proof (Hm target) as Ht.
  assert (∀ buf, NoDup (Backedge.as_slice buf) → source ∈ Backedge.as_slice buf →
    (∀ s, s ∈ Backedge.as_slice buf ↔ E s target ∨ s = source) →
    holds_edges (λ s t, E s t ∨ s = source ∧ t = target) (<[target := buf]> map)) as Hput.
  { intros buf Hnd Hs Hin t. destruct (decide (t = target)) as [->|Hne].
    - rewrite lookup_insert_eq. split_and!; [done|by intros Hz; rewrite Hz in Hs; apply elem_of_nil in Hs|].
      intros s. rewrite Hin. tauto.
    - rewrite lookup_insert_ne by done. specialize (Hm t). destruct (map !! t).
      + destruct Hm as (? & ? & Hin'). split_and!; [done|done|]. intros s. rewrite Hin'. tauto.
      + intros s [?|[_ ?]]; [by eapply Hm|done]. }
  destruct (map !! target) as [b|].
  - destruct Ht as (Hnd & Hne & Hin).
    destruct (buf_push_eq debug dflt b source Hnd) as (b' & Hrun & Hs). rewrite Hrun.
    cbn [mbind option_bind]. exists b'. split; [done|].
    pose proof (buf_push_ok debug dflt b source b' _ Hnd Hrun) as Hnd'.
    destruct (decide (source ∈ Backedge.as_slice b)) as [Hin0|Hin0].
    + rewrite al_push_in in Hs by done. cbn [fst edges] in Hs.
      apply Hput; rewrite ?Hs; [done|done|]. intros s. rewrite Hin.
      split; [by left|]. intros [?| ->]; [done|by apply Hin].
    + rewrite al_push_notin in Hs by done. cbn [fst edges] in Hs.
      assert (∀ s, s ∈ Backedge.as_slice b' ↔ E s target ∨ s = source) as Hin'
        by (intros s; by rewrite Hs, elem_of_app, list_elem_of_singleton, Hin).
      apply Hput; [done| |done]. apply Hin'. by right.
  - eexists. split; [done|]. apply Hput; cbn.
    + apply NoDup_singleton.
    + by apply list_elem_of_singleton.
    + intros s. rewrite list_elem_of_singleton. specialize (Ht s). tauto.
Qed.

Lemma add_targets_ok source targets : ∀ E map,
  holds_edges E map →
  ∃ map', add_targets source targets map = Some map' ∧
    holds_edges (λ s t, E s t ∨ s = source ∧ t ∈ targets) map'.
Proof.
  induction targets as [|target targets IH]; intros E map Hm; cbn [add_targets].
  { exists map. split; [done|]. eapply holds_edges_iff; [|done]. intros s t.
    rewrite elem_of_nil. tauto. }
  destruct (add_target_ok E source target map Hm) as (buf & -> & Hm'). cbn [mbind option_bind].
  destruct (IH _ _ Hm') as (map' & -> & Hm''). exists map'. split; [done|].
  eapply holds_edges_iff; [|done]. intros s t. cbn. rewrite elem_of_cons. tauto.
Qed.

Lemma aggregate_loop_ok lists : ∀ E map,
  holds_edges E map →
  ∃ map', aggregate_loop lists map = Some map' ∧
    holds_edges (λ s t, E s t ∨
      ∃ pe, pe ∈ lists ∧ pe_source pe = s ∧ t ∈ edges (pe_edges pe)) map'.
Proof.
  induction lists as [|pe lists IH]; intros E map Hm; cbn [aggregate_loop].
  { exists map. split; [done|]. eapply holds_edges_iff; [|done]. intros s t.
    split; [by left|]. intros [?|(pe & Hpe & _)]; [done|by apply elem_of_nil in Hpe]. }
  destruct (add_targets_ok (pe_source pe) (edges (pe_edges pe)) E map Hm) as (map1 & -> & Hm1).
  cbn [mbind option_bind]. destruct (IH _ _ Hm1) as (map' & -> & Hm'). exists map'.
  split; [done|]. eapply holds_edges_iff; [|done]. intros s t. cbn.
  setoid_rewrite elem_of_cons. split.
  - intros [[?|[-> ?]]|(pe' & ? & ? & ?)]; [by left|right; eauto|right; eauto].
  - intros [?|(pe' & [->|?] & <- & ?)]; [by left; left|by left; right|right; eauto].
Qed.

(** Aggregating the back edges of a batch never panics and reverses the edges exactly: a
    target has an entry if and only if some pending edge points to it, and the entry holds,
    without repetition, exactly the sources of those edges. *)
Lemma aggregate_backedges_ok lists :
  ∃ map, aggregate_backedges lists = Some map ∧
    ∀ t, match map !! t with
         | Some b => NoDup (Backedge.as_slice b) ∧ Backedge.as_slice b ≠ [] ∧
             ∀ s, s ∈ Backedge.as_slice b ↔
               ∃ pe, pe ∈ lists ∧ pe_source pe = s ∧ t ∈ edges (pe_edges pe)
         | None => ∀ pe, pe ∈ lists → t ∉ edges (pe_edges pe)
         end.
Proof.
  destruct (aggregate_loop_ok lists (λ _ _, False) ∅) as (map & Hrun & Hm).
  { intros t. rewrite lookup_empty. by intros s ?. }
  exists map. split; [done|]. intros t. specialize (Hm t). destruct (map !! t).
  - destruct Hm as (? & ? & Hin). split_and!; [done|done|]. intros s. rewrite Hin. tauto.
  - intros pe Hpe Ht. apply (Hm (pe_source pe)). right. eauto.
Qed.

End aggregate.

(** ** One item of the batch *)

(** [MultiInsertStrategy::finish] and [seeded_prune_accessor], [PruneStrategy::prune_accessor];
    the accessors reach the graph and the vectors through [GraphProvider]. *)
Class BatchProvider (I P E T Sd : Type) := {
  finish : list T → list I → P → P * result E Sd;
  seeded_prune_accessor : Sd → P → result E unit;
  prune_accessor : P → result E unit;
}.

Definition gm_read {P E A} (f : P → result E A) : GM P E A := λ p, Some (p, f p).

Section item.
Context {I V P E A T G X Sd : Type} `{!EqDecision I, !Countable I, !ContainsSimd I, !UnstableSort I}.
Context `{GP : !GraphProvider I V P E} `{IP : !InsertProvider I P E A T G X}.
Context `{BP : !BatchProvider I P E T Sd}.
Context `{Acc : !SearchAccessor I A E}.
Variables (cfg : Config) (debug : bool) (sfuel fuel : nat) (dflt : I).
Variable (escalated : I → E).
(** the [Ord] instance of the ids *)
Context (R : relation I) `{!RelDecision R}.

Let retry := c_experimental_insert_retry cfg.

(** The loop over the attempts of [search_and_prune]. *)
Fixpoint prune_attempts (n attempt : nat) (internal_id : I) (extras : list I) (a : A)
    (scratch : SearchScratch I (NeighborPriorityQueue I)) (search_l : nat)
    (prune_scratch : PruneScratch I) : GM P E (PruneScratch I) :=
  match n with
  | 0 => gm_ret prune_scratch
  | S n =>
      do found <- gm_panic (search_internal (NQ := priority_queue_ops debug) visited_record sfuel
                              None a scratch []);
      let '(a, scratch, record, r) := found in
      match r with
      | Err e => gm_err e
      | Ok _ =>
          let force := match retry with
                       | Some v => should_saturate v (Z.of_nat attempt) | None => false end in
          do pruned <- robust_prune_with cfg debug fuel dflt internal_id extras record
                         prune_scratch force;
          let '(_, prune_scratch, outcome) := pruned in
          match outcome with
          | FailedVectorRetrieval id => gm_err (escalated id)
          | Pruned =>
              let again := match retry with
                           | Some v => should_retry v (Z.of_nat attempt)
                               (Z.of_nat (length (edges (ps_neighbors prune_scratch))))
                           | None => false end in
              if again then
                do search_l <- gm_panic (usize_mul search_l 2);
                prune_attempts n (S attempt) internal_id extras a
                  (scratch_clear (scratch_resize scratch search_l)) search_l prune_scratch
              else gm_ret prune_scratch
          end
      end
  end.

(** [DiskANNIndex::search_and_prune]; [vector] is the element of the batch at [position].  The
    neighbors are moved out of the scratch. *)
Definition search_and_prune (pooled : option (SearchScratch I (NeighborPriorityQueue I)))
    (ids : list I) (position : nat) (vector : T) (prune_scratch : PruneScratch I) :
    GM P E (PruneScratch I * PendingEdge I) :=
  do internal_id <- gm_panic (ids !! position);
  do p <- gm_get;
  match insert_search_accessor p vector with
  | Err e => gm_err e
  | Ok a =>
      match num_starting_points a with
      | Err e => gm_err e
      | Ok num_start_ids =>
          let scratch := search_scratch pooled (Z.to_nat (c_max_degree cfg))
                           (Z.to_nat (c_l_build cfg)) num_start_ids in
          let attempts := match retry with Some v => Z.to_nat (max_retries v) | None => 1 end in
          do extras <- gm_panic (Around.around ids position
                         (ibc_get (c_intra_batch_candidates cfg) (length ids)));
          do prune_scratch <- prune_attempts attempts 0 internal_id extras a scratch
                                (q_search_param_l (s_best scratch)) prune_scratch;
          gm_ret (mkPruneScratch (ps_pool prune_scratch) al_new,
                  mkPending internal_id (ps_neighbors prune_scratch))
      end
  end.

(** [DiskANNIndex::multi_insert_bootstrap_leaf] *)
Definition multi_insert_bootstrap_leaf (current : PendingEdge I) (batch : list (PendingEdge I)) :
    GM P E (PendingEdge I) :=
  let candidates := al_from_iter_untrusted R
    (edges (pe_edges current) ++
     omap (λ i, if bool_decide (pe_source i = pe_source current) then None
                else Some (pe_source i)) batch) in
  do _ <- gm_read prune_accessor;
  do r <- robust_prune_list cfg debug fuel dflt (pe_source current) candidates prune_scratch_new
            true;
  let '(prune_scratch, outcome) := r in
  match outcome with
  | FailedVectorRetrieval id => gm_err (escalated id)
  | Pruned => gm_ret (mkPending (pe_source current) (ps_neighbors prune_scratch))
  end.

End item.

Section item_theory.
Context {I V P E A T G X : Type} `{!EqDecision I, !Countable I, !ContainsSimd I, !UnstableSort I}.
Context `{GP : !GraphProvider I V P E} `{IP : !InsertProvider I P E A T G X}.
Context `{Acc : !SearchAccessor I A E}.
Variables (cfg : Config) (debug : bool) (sfuel fuel : nat) (dflt : I) (escalated : I → E).
Context {graph : P → I → list I}.
Context `{GL : !GraphProviderLaws I V P E graph (Z.to_nat (c_max_degree cfg))}.
Context {dist : I → f32} {adj : I → list I} {nodes : gset I} {starts : list I}.
Context `{AL : !SearchAccessorLaws I A E dist adj nodes starts}.
Hypothesis cfg_valid : config_valid cfg.
Hypothesis cfg_alpha : alpha_in_range (c_alpha cfg).
Hypothesis fuel_enough : 490 < fuel.
Hypothesis nodes_u32 : (Z.of_nat (size nodes) < 2 ^ 32)%Z.
Hypothesis sfuel_enough : size nodes ≤ sfuel.

Lemma prune_attempts_ok n id extras : ∀ attempt a params search_l ps p,
  NoDup extras → (∀ x, x ∈ extras → x ∉ nodes) →
  search_l = p_l_value params + p_num_frozen params → 0 < search_l →
  (Z.of_nat search_l * 2 ^ Z.of_nat n < 2 ^ 64)%Z →
  (n = 0 → pruned_list cfg id (elements nodes ++ extras) (edges (ps_neighbors ps))) →
  gm_ok (prune_attempts cfg debug sfuel fuel dflt escalated n attempt id extras a
           (scratch_create params) search_l ps) p
    (λ p' ps', graph p' = graph p ∧
       pruned_list cfg id (elements nodes ++ extras) (edges (ps_neighbors ps'))).
Proof.
  induction n as [|n IH]; intros attempt a params search_l ps p Hnde Hex Hl Hpos Hbig Hps;
    cbn [prune_attempts]; [by apply gm_ok_ret; auto|].
  destruct (search_visited_ok debug sfuel None a params)
    as (a' & s' & rec & r & Hrun & Hr); [lia|done|done|done|].
  eapply gm_ok_bind with (Mid := λ p' x, p' = p ∧ x = (a', s', rec, r)).
  { by eapply gm_ok_panic. }
  intros p0 x [-> ->]. destruct r as [st|e]; [|by exists p, (Err e)].
  destruct Hr as (Hfix & Hnd & Hin).
  assert (∀ y, y ∈ nbr_id <$> rec → y ∈ nodes) as Hnodes
    by (intros y (m & -> & Hm)%list_elem_of_fmap; by apply Hin).
  eapply gm_ok_bind; [apply robust_prune_with_ok; [done..|]|].
  { apply NoDup_app. split_and!; [done|intros y Hy Hy'; by apply (Hex y), Hnodes|done]. }
  intros p1 [[rec' ps1] outcome] [Hg Hout]. cbn [fst snd] in Hout.
  destruct outcome as [|i]; [|by exists p1, (Err (escalated i))].
  assert (pruned_list cfg id (elements nodes ++ extras) (edges (ps_neighbors ps1))) as Hps1.
  { destruct Hout as [H1 H2 H3]. split; [done|done|]. intros x Hx. destruct (H3 x Hx) as [Hx' ?].
    split; [|done]. rewrite elem_of_app, elem_of_elements. apply elem_of_app in Hx' as [?|?]; auto. }
  destruct (match c_experimental_insert_retry cfg with Some v => _ | None => _ end).
  2:{ by apply gm_ok_ret. }
  assert (Z.of_nat search_l * 2 * 2 ^ Z.of_nat n < 2 ^ 64)%Z as Hbig'.
  { rewrite Nat2Z.inj_succ, Z.pow_succ_r in Hbig by lia. lia. }
  eapply gm_ok_bind with (Mid := λ p' x, p' = p1 ∧ x = search_l * 2).
  { eapply gm_ok_panic; [|done]. apply usize_mul_ok.
    pose proof (Z.pow_pos_nonneg 2 (Z.of_nat n)). nia. }
  intros p2 x [-> ->]. rewrite (scratch_resize_clear s' _ 0 Hfix).
  eapply gm_ok_weaken; [apply IH|]; [done|done|simpl; lia|lia|by rewrite Nat2Z.inj_mul|done|].
  intros p' ps' [Hg' ?]. by rewrite Hg', Hg.
Qed.

(** The other members of the batch that an item sees. *)
Lemma extras_ok (ids : list I) position id len :
  NoDup ids → ids !! position = Some id →
  ∃ extras, Around.around ids position len = Some extras ∧ NoDup extras ∧
    ∀ x, x ∈ extras → x ∈ ids ∧ x ≠ id.
Proof.
  intros Hnd Hid. apply lookup_lt_Some in Hid as Hlt.
  destruct (Around.around_ok ids position len) as (Hrun & [extras He] & _ & Hndp & Hpos);
    [by destruct ids|]. rewrite Nat.min_l in Hpos, Hrun, Hndp by lia. exists extras.
  split; [done|]. rewrite He in Hrun. symmetry in Hrun. apply mapM_Some_1 in Hrun.
  set (pos := Around.window _ _ _) in *. clearbody pos.
  assert (∀ x, x ∈ extras → ∃ k, k ∈ pos ∧ ids !! k = Some x) as Hex.
  { clear -Hrun. induction Hrun as [|k x pos extras Hk _ IH]; [by intros x ?%elem_of_nil|].
    intros y [->|Hy]%elem_of_cons; [exists k; split; [by left|done]|].
    destruct (IH y Hy) as (k' & ? & ?). exists k'. split; [by right|done]. }
  split.
  - clear -Hrun Hndp Hnd. induction Hrun as [|k x pos extras Hk Hr IH]; [constructor|].
    apply NoDup_cons in Hndp as [Hn Hndp]. apply NoDup_cons. split; [|by apply IH].
    intros Hx. apply list_elem_of_lookup in Hx as [j Hj].
    destruct (Forall2_lookup_r _ _ _ _ _ Hr Hj) as (k' & Hk' & Hkx).
    assert (k = k') as -> by exact (NoDup_lookup ids k k' x Hnd Hk Hkx). apply Hn. by eapply list_elem_of_lookup_2.
  - intros x Hx. destruct (Hex x Hx) as (k & Hk & Hkx). split; [by eapply list_elem_of_lookup_2|].
    intros ->. destruct (Hpos k Hk) as [_ Hne]. apply Hne.
    exact (NoDup_lookup ids k position id Hnd Hkx Hid).
Qed.

(** Searching and pruning for one item of a batch never panics and writes nothing.  When it
    returns, the pending edges belong to the id at the position, lead to distinct other ids,
    each reachable by the search or a member of the batch, are at most the pruned degree many,
    and are moved out of the scratch, so that nothing of them leaks into the next item. *)
Lemma search_and_prune_ok pooled ids position id (t : T) ps p :
  ids !! position = Some id → NoDup ids → (∀ x, x ∈ ids → x ∉ nodes) →
  0 < insert_tries cfg →
  (Z.of_nat (insert_l cfg (starts := starts)) * 2 ^ Z.of_nat (insert_tries cfg) < 2 ^ 64)%Z →
  gm_ok (search_and_prune cfg debug sfuel fuel dflt escalated pooled ids position t ps) p
    (λ p' r, graph p' = graph p ∧ edges (ps_neighbors r.1) = [] ∧ pe_source r.2 = id ∧
       pruned_list cfg id (elements nodes ++ ids) (edges (pe_edges r.2))).
Proof.
  intros Hid Hnd Hnew Htries Hbig. unfold search_and_prune.
  eapply gm_ok_bind with (Mid := λ p' x, p' = p ∧ x = id); [by eapply gm_ok_panic|].
  intros p0 x [-> ->].
  eapply gm_ok_bind with (Mid := λ p1 p2, p1 = p ∧ p2 = p); [by exists p, (Ok p)|].
  intros p1 p2 [-> ->]. destruct (insert_search_accessor p t) as [a|e]; [|by exists p, (Err e)].
  unfold num_starting_points. destruct (starting_points a) as [st|e] eqn:Es;
    [|by exists p, (Err e)]. apply starting_points_law in Es as ->.
  unfold search_scratch. rewrite get_scratch_eq. cbn [scratch_create scratch_new s_best q_new
    q_search_param_l p_l_value p_num_frozen]. fold (insert_tries cfg).
  destruct (extras_ok ids position id (ibc_get (c_intra_batch_candidates cfg) (length ids)) Hnd Hid)
    as (extras & Hrun & Hnde & Hex).
  eapply gm_ok_bind with (Mid := λ p' x, p' = p ∧ x = extras); [by eapply gm_ok_panic|].
  intros p1 x [-> ->].
  eapply gm_ok_bind; [apply prune_attempts_ok|].
  { done. }
  { intros x Hx. by apply Hnew, Hex. }
  { done. }
  { destruct (cv_l_build cfg cfg_valid). lia. }
  { done. }
  { lia. }
  intros p' ps' [Hg [H1 H2 H3]]. apply gm_ok_ret. split_and!; [done|done|done|].
  split; [done|done|]. intros x Hx. destruct (H3 x Hx) as [Hx' ?]. split; [|done].
  rewrite elem_of_app in *. destruct Hx' as [?|Hx']; [by left|right]. by apply Hex.
Qed.

End item_theory.
