(* ===== verification/Tasks.v ===== *)
(** * Tasks that share work

    The batch operations of the index ([multi_insert], [multi_insert_bootstrap],
    [multi_inplace_delete] in [diskann/src/graph/index.rs]) spawn tasks that take items from a
    queue until it is empty or an item fails; what they produced is collected when the tasks
    are joined, and failures are logged and dropped.

    - Class [WorkQueue]: what the tasks need from the queue, with three instances: the
      [DynamicBalancer], the iterator under a mutex, and ranges fixed in advance.
    - Section [tasks]: the loop of a task, cut between items; a schedule says which task runs
      next, and [join_tasks] runs a schedule and then every task to its end.
    - Section [theory]: whatever the schedule, all tasks end, every item is processed at most
      once, the outputs are those of the processed items, at most one item is lost per failed
      task, and no item is left when no task failed. *)

From S2P Require Import Prelude AsyncTools GraphUpdate.

Local Open Scope gm_scope.

(** ** Queues *)

(** [wq_own i q] are the items that task [i] may still take, in order; [wq_todo q] all items
    that are left.  [wq_ok n q]: the queue is usable by [n] tasks.  [wq_private]: no task takes
    what another may take. *)
Class WorkQueue (Q T : Type) := {
  wq_next : nat → Q → option (Q * option T);
  wq_own : nat → Q → list T;
  wq_todo : Q → list T;
  wq_private : bool;
  wq_ok : nat → Q → Prop;
  wq_empty : ∀ n q i, wq_ok n q → i < n → wq_own i q = [] →
    ∃ q', wq_next i q = Some (q', None) ∧ wq_ok n q' ∧ wq_todo q' = wq_todo q ∧
      ∀ j, wq_own j q' = wq_own j q;
  wq_cons : ∀ n q i x l, wq_ok n q → i < n → wq_own i q = x :: l →
    ∃ q', wq_next i q = Some (q', Some x) ∧ wq_ok n q' ∧ wq_todo q ≡ₚ x :: wq_todo q' ∧
      wq_own i q' = l ∧ (∀ j, length (wq_own j q') ≤ length (wq_own j q)) ∧
      (wq_private = true → ∀ j, j ≠ i → wq_own j q' = wq_own j q);
  wq_all : ∀ n q, wq_ok n q → (∀ i, i < n → wq_own i q = []) → wq_todo q = [];
  wq_bound : ∀ n q i, wq_ok n q → i < n → length (wq_own i q) ≤ length (wq_todo q);
}.

(** A queue that all tasks share. *)
Class SharedQueue (Q T : Type) := {
  sq_next : Q → option (Q * option T);
  sq_todo : Q → list T;
  sq_ok : Q → Prop;
  sq_empty : ∀ q, sq_ok q → sq_todo q = [] →
    ∃ q', sq_next q = Some (q', None) ∧ sq_ok q' ∧ sq_todo q' = [];
  sq_cons : ∀ q x l, sq_ok q → sq_todo q = x :: l →
    ∃ q', sq_next q = Some (q', Some x) ∧ sq_ok q' ∧ sq_todo q' = l;
}.

#[export] Program Instance shared_queue `{SharedQueue Q T} : WorkQueue Q T := {|
  wq_next _ := sq_next;
  wq_own _ := sq_todo;
  wq_todo := sq_todo;
  wq_private := false;
  wq_ok n q := sq_ok q ∧ 0 < n;
|}.
Next Obligation.
  intros Q T ? n q i [Hq ?] _ He. destruct (sq_empty q Hq He) as (q' & ? & ? & Hn).
  exists q'. split_and!; [done..|by rewrite Hn|by intros _; rewrite Hn].
Qed.
Next Obligation.
  intros Q T ? n q i x l [Hq ?] _ He. destruct (sq_cons q x l Hq He) as (q' & ? & ? & Hn).
  exists q'. split_and!; [done..|by rewrite He, Hn|done| |done]. intros _. rewrite He, Hn. simpl. lia.
Qed.
Next Obligation. intros Q T ? n q [_ ?] Hall. by apply (Hall 0). Qed.
Next Obligation. done. Qed.

(** [Mutex<IntoIter>]: the lock is held for one [next]. *)
Definition mutex_next {T} (l : list T) : option (list T * option T) :=
  Some match l with [] => ([], None) | x :: l => (l, Some x) end.

#[export] Program Instance mutex_iter {T} : SharedQueue (list T) T := {|
  sq_next := mutex_next;
  sq_todo l := l;
  sq_ok _ := True;
|}.
Next Obligation. intros T q _ ->. by exists []. Qed.
Next Obligation. intros T q x l _ ->. by exists l. Qed.

(** Ranges fixed in advance: task [i] takes from the list [i]. *)
Definition parts_next {T} (i : nat) (q : list (list T)) : option (list (list T) * option T) :=
  l ← q !! i;
  match l with [] => Some (q, None) | x :: l => Some (<[i := l]> q, Some x) end.

#[export] Program Instance fixed_parts {T} : WorkQueue (list (list T)) T := {|
  wq_next := parts_next;
  wq_own i q := default [] (q !! i);
  wq_todo q := concat q;
  wq_private := true;
  wq_ok n q := length q = n;
|}.
Next Obligation.
  intros T n q i Hn Hi He. simpl in *. destruct (lookup_lt_is_Some_2 q i) as [l Hl]; [lia|].
  exists q. unfold parts_next. rewrite Hl in *. simpl in He. by subst l.
Qed.
Next Obligation.
  intros T n q i x l Hn Hi He. simpl in *. unfold parts_next.
  destruct (q !! i) as [l'|] eqn:Hl; simplify_eq/=. apply lookup_lt_Some in Hl as Hlt.
  eexists. split; [done|]. split; [by rewrite length_insert|]. split_and!.
  - rewrite insert_take_drop by done. rewrite <-(take_drop_middle q i _ Hl) at 1.
    rewrite !concat_app. simpl. solve_Permutation.
  - by rewrite list_lookup_insert_eq.
  - intros j. destruct (decide (j = i)) as [->|].
    + rewrite list_lookup_insert_eq by done. rewrite Hl. simpl. lia.
    + by rewrite list_lookup_insert_ne.
  - intros _ j Hj. by rewrite list_lookup_insert_ne.
Qed.
Next Obligation.
  intros T n q <- Hall. simpl in *. apply concat_nil_Forall, Forall_lookup. intros i l Hl.
  specialize (Hall i (lookup_lt_Some _ _ _ Hl)). by rewrite Hl in Hall.
Qed.
Next Obligation.
  intros T n q i <- Hi. simpl in *. destruct (lookup_lt_is_Some_2 q i) as [l Hl]; [done|].
  rewrite Hl. simpl. rewrite <-(take_drop_middle q i l Hl), concat_app. simpl.
  rewrite !length_app. lia.
Qed.

(** [DynamicBalancer]: the item with its position; it must not be so long that the counter
    reaches the guard value. *)
Definition balancer_todo {T} (b : Balancer.DynamicBalancer T) : list (T * nat) :=
  imap (λ i x, (x, Z.to_nat (Balancer.current b) + i))
    (drop (Z.to_nat (Balancer.current b)) (Balancer.items b)).

Definition balancer_wf {T} (b : Balancer.DynamicBalancer T) : Prop :=
  (0 ≤ Balancer.current b ≤ Z.of_nat (length (Balancer.items b)))%Z ∧
  (Z.of_nat (length (Balancer.items b)) < 2 ^ 64 - 1)%Z.

Lemma balancer_next_nil {T} (b : Balancer.DynamicBalancer T) :
  balancer_wf b → balancer_todo b = [] →
  ∃ b', Balancer.balancer_next b = Some (b', None) ∧ balancer_wf b' ∧ balancer_todo b' = [].
Proof.
  destruct b as [its cur]. unfold balancer_wf, balancer_todo; cbn. intros [Hc Hl] Hn.
  apply (f_equal length) in Hn. rewrite length_imap, length_drop in Hn. simpl in Hn.
  unfold Balancer.balancer_next, Balancer.next_begin, Balancer.fetch_add. cbn.
  rewrite lookup_ge_None_2 by lia. unfold Balancer.usize_max.
  rewrite (proj2 (Z.eqb_neq _ _)) by lia. eexists. split; [done|].
  unfold Balancer.next_end, Balancer.fetch_sub. cbn.
  rewrite Zminus_mod_idemp_l, Z.add_simpl_r, Z.mod_small by lia. split; [done|].
  rewrite drop_ge by lia. done.
Qed.

Lemma balancer_next_cons {T} (b : Balancer.DynamicBalancer T) x l :
  balancer_wf b → balancer_todo b = x :: l →
  ∃ b', Balancer.balancer_next b = Some (b', Some x) ∧ balancer_wf b' ∧ balancer_todo b' = l.
Proof.
  destruct b as [its cur]. unfold balancer_wf, balancer_todo; cbn. intros [Hc Hl] Hn.
  destruct (drop (Z.to_nat cur) its) as [|v rest] eqn:Ed; [done|].
  assert (its !! Z.to_nat cur = Some v) as Hv.
  { rewrite <-(Nat.add_0_r (Z.to_nat cur)), <-lookup_drop, Ed. done. }
  apply lookup_lt_Some in Hv as Hlt. simpl in Hn. injection Hn as <- <-.
  unfold Balancer.balancer_next, Balancer.next_begin, Balancer.fetch_add. cbn. rewrite Hv.
  eexists. split; [by rewrite Nat.add_0_r|]. cbn. rewrite Z.mod_small by lia. split; [lia|].
  rewrite Z2Nat.inj_add by lia. change (Z.to_nat 1) with 1. rewrite Nat.add_1_r.
  rewrite (drop_S _ _ _ Hv) in Ed. injection Ed as <-. apply imap_ext. intros i y _. unfold compose. f_equal. lia.
Qed.

#[export] Instance balancer_queue {T} : SharedQueue (Balancer.DynamicBalancer T) (T * nat) := {|
  sq_next := Balancer.balancer_next;
  sq_todo := balancer_todo;
  sq_ok := balancer_wf;
  sq_empty := balancer_next_nil;
  sq_cons := balancer_next_cons;
|}.

Lemma balancer_todo_new {T} (l : list T) : balancer_todo (Balancer.balancer_new l) = imap (λ i x, (x, i)) l.
Proof. done. Qed.

(** ** Tasks *)

Inductive task_status (E : Type) := Running | Finished | Failed (e : E).
Arguments Running {E}.
Arguments Finished {E}.
Arguments Failed {E} e.

(** What a task keeps across its loop ([None] before it starts), what it has produced, and
    whether its loop has ended. *)
Record task (S O E : Type) := mkTask {
  t_local : option S;
  t_out : list O;
  t_status : task_status E;
}.
Arguments mkTask {S O E} _ _ _.
Arguments t_local {S O E} _.
Arguments t_out {S O E} _.
Arguments t_status {S O E} _.

Definition is_running {S O E} (t : task S O E) : bool :=
  match t_status t with Running => true | _ => false end.
Definition is_failed {S O E} (t : task S O E) : bool :=
  match t_status t with Failed _ => true | _ => false end.
Definition is_finished {S O E} (t : task S O E) : bool :=
  match t_status t with Finished => true | _ => false end.

Section tasks.
Context {Q T S O P E : Type} `{!WorkQueue Q T}.
Variables (begin : GM P E S) (work : T → S → GM P E (S * O)).

(** One turn of task [i]: what precedes its loop, or an iteration. *)
Definition task_step (i : nat) (st : Q * list (task S O E)) (p : P) :
    option (P * (Q * list (task S O E))) :=
  match st.2 !! i with
  | Some (mkTask None out Running) =>
      '(p, res) ← begin p;
      Some (p, (st.1, <[i := match res with
                             | Ok s => mkTask (Some s) out Running
                             | Err e => mkTask None out (Failed e)
                             end]> st.2))
  | Some (mkTask (Some s) out Running) =>
      '(q, r) ← wq_next i st.1;
      match r with
      | None => Some (p, (q, <[i := mkTask (Some s) out Finished]> st.2))
      | Some x =>
          '(p, res) ← work x s p;
          Some (p, (q, <[i := match res with
                              | Ok (s', o) => mkTask (Some s') (out ++ [o]) Running
                              | Err e => mkTask (Some s) out (Failed e)
                              end]> st.2))
      end
  | _ => Some (p, st)
  end.

Fixpoint run_tasks (sched : list nat) (st : Q * list (task S O E)) (p : P) :
    option (P * (Q * list (task S O E))) :=
  match sched with
  | [] => Some (p, st)
  | i :: sched => '(p, st) ← task_step i st p; run_tasks sched st p
  end.

(** Spawn [n] tasks, run the schedule, then join: every task in turn runs until it has
    ended. *)
Definition tasks_new (n : nat) (q : Q) : Q * list (task S O E) :=
  (q, replicate n (mkTask None [] Running)).
Definition join_schedule (n : nat) (q : Q) : list nat :=
  seq 0 n ≫= replicate (2 + length (wq_todo q)).
Definition join_tasks (n : nat) (sched : list nat) (q : Q) (p : P) :
    option (P * (Q * list (task S O E))) :=
  run_tasks (sched ++ join_schedule n q) (tasks_new n q) p.

(** The outputs in the order of the joins, those of failed tasks included. *)
Definition tasks_out (ts : list (task S O E)) : list O := mjoin (t_out <$> ts).

End tasks.

(** ** Every item at most once *)

Lemma filter_insert_le {A} (f : A → bool) (l : list A) i x y :
  l !! i = Some x → f x = false →
  length (List.filter f (<[i:=y]> l)) = length (List.filter f l) + (if f y then 1 else 0).
Proof.
  revert i. induction l as [|z l IH]; intros [|i] Hi Hx; simplify_eq/=.
  - rewrite Hx. destruct (f y); simpl; lia.
  - destruct (f z); simpl; by rewrite (IH i Hi Hx).
Qed.

Lemma concat_insert_snoc {A} (hs : list (list A)) i h x :
  hs !! i = Some h → concat (<[i := h ++ [x]]> hs) ≡ₚ x :: concat hs.
Proof.
  intros Hi. apply lookup_lt_Some in Hi as Hlt. rewrite insert_take_drop by done.
  rewrite <-(take_drop_middle hs i h Hi) at 3. rewrite !concat_app. simpl. solve_Permutation.
Qed.

Section theory.
Context {Q T S O P E : Type} `{!WorkQueue Q T}.
Variables (begin : GM P E S) (work : T → S → GM P E (S * O)).
Context (n : nat) (q0 : Q) (Loc : S → Prop).
(** the shared state once the items of [dn] have these outputs and [lost] have failed *)
Context (Inv : list (T * O) → list T → P → Prop).

Hypothesis begin_ok : ∀ dn lost p, Inv dn lost p →
  ∃ p' r, begin p = Some (p', r) ∧ Inv dn lost p' ∧
    match r with Ok s => Loc s | Err _ => True end.
Hypothesis work_ok : ∀ x s dn lost p,
  x :: dn.*1 ++ lost ⊆+ wq_todo q0 → Loc s → Inv dn lost p →
  ∃ p' r, work x s p = Some (p', r) ∧
    match r with
    | Ok (s', o) => Inv ((x, o) :: dn) lost p' ∧ Loc s'
    | Err _ => Inv dn (x :: lost) p'
    end.

(** [hs] is what each task has processed, in order. *)
Record tasks_inv (st : Q * list (task S O E)) (p : P) (dn : list (T * O)) (lost : list T)
    (hs : list (list (T * O))) : Prop := {
  ti_queue : wq_ok n st.1;
  ti_len : length st.2 = n;
  ti_items : dn.*1 ++ lost ++ wq_todo st.1 ≡ₚ wq_todo q0;
  ti_hist : Forall2 (λ h t, h.*2 = t_out t) hs st.2;
  ti_done : concat hs ≡ₚ dn;
  ti_private : wq_private (Q := Q) (T := T) = true → ∀ i h t,
    hs !! i = Some h → st.2 !! i = Some t → is_failed t = false →
    h.*1 ++ wq_own i st.1 = wq_own i q0;
  ti_lost : length lost ≤ length (List.filter is_failed st.2);
  ti_local : ∀ i t s, st.2 !! i = Some t → t_local t = Some s → Loc s;
  ti_finished : ∀ i t, st.2 !! i = Some t → is_finished t = true → wq_own i st.1 = [];
  ti_inv : Inv dn lost p;
}.

(** The outputs are those of the processed items, task by task. *)
Lemma ti_out st p dn lost hs : tasks_inv st p dn lost hs → tasks_out st.2 = (concat hs).*2.
Proof.
  intros Hi. pose proof (ti_hist _ _ _ _ _ Hi) as Hh. clear Hi. unfold tasks_out.
  induction Hh as [|h t hs ts Ht _ IH]; [done|]. rewrite fmap_cons. cbn [mjoin list_join concat].
  rewrite fmap_app, Ht. by f_equal.
Qed.

(** The turns after which task [i] has ended. *)
Definition turns (i : nat) (st : Q * list (task S O E)) : nat :=
  match st.2 !! i with
  | Some t => if is_running t
              then match t_local t with None => 2 | Some _ => 1 end + length (wq_own i st.1)
              else 0
  | None => 0
  end.

Definition turn_taken (i : nat) (st st' : Q * list (task S O E)) : Prop :=
  turns i st' ≤ turns i st - 1 ∧ ∀ j, turns j st' ≤ turns j st.

(** Replacing the record and the history of task [i] keeps the invariant of the others. *)
Lemma tasks_inv_insert q ts p i t h t' h' q' p' dn lost hs dn' lost' :
  tasks_inv (q, ts) p dn lost hs → ts !! i = Some t → is_running t = true → hs !! i = Some h →
  wq_ok n q' → dn'.*1 ++ lost' ++ wq_todo q' ≡ₚ wq_todo q0 →
  (∀ j, length (wq_own j q') ≤ length (wq_own j q)) →
  (wq_private (Q := Q) (T := T) = true → (∀ j, j ≠ i → wq_own j q' = wq_own j q) ∧
     (is_failed t' = false → h'.*1 ++ wq_own i q' = h.*1 ++ wq_own i q)) →
  h'.*2 = t_out t' → concat (<[i:=h']> hs) ≡ₚ dn' →
  length lost' ≤ length lost + (if is_failed t' then 1 else 0) →
  (∀ s, t_local t' = Some s → Loc s) → (is_finished t' = true → wq_own i q' = []) →
  Inv dn' lost' p' →
  tasks_inv (q', <[i:=t']> ts) p' dn' lost' (<[i:=h']> hs).
Proof.
  intros [Hq Hn Hit Hh Hd Hpv Hl Hloc Hfin Hp] Hi Hrun Hhi Hq' Hit' Hown Hpv' Ho' Hd' Hl' Hs Hf Hp'.
  simpl in *. assert (is_failed t = false) as Hnf by (destruct t as [? ? []]; done).
  apply lookup_lt_Some in Hi as Hlt. apply lookup_lt_Some in Hhi as Hlt'.
  split; simpl; [done|by rewrite length_insert|done|by apply Forall2_insert|done| | | | |done].
  - intros Hpr j h0 t0 Hj Hj0 Hf0. destruct (Hpv' Hpr) as [Hoth Hself].
    apply list_lookup_insert_Some in Hj0 as [(<- & <- & _)|[Hne Hj0]].
    + rewrite list_lookup_insert_eq in Hj by done. simplify_eq. rewrite Hself by done.
      by apply (Hpv Hpr i _ t).
    + rewrite list_lookup_insert_ne in Hj by done. rewrite Hoth by done. by apply (Hpv Hpr j _ t0).
  - rewrite (filter_insert_le _ _ _ _ _ Hi Hnf). lia.
  - intros j t0 s Hj. apply list_lookup_insert_Some in Hj as [(_ & <- & _)|[_ Hj]]; [apply Hs|].
    by apply (Hloc j).
  - intros j t0 Hj Hfj. apply list_lookup_insert_Some in Hj as [(<- & <- & _)|[_ Hj]]; [by apply Hf|].
    apply nil_length_inv. specialize (Hown j). rewrite (Hfin j t0 Hj Hfj) in Hown. simpl in *. lia.
Qed.

Lemma turns_insert q ts i t : i < length ts →
  turns i (q, <[i:=t]> ts) =
    if is_running t then match t_local t with None => 2 | Some _ => 1 end + length (wq_own i q) else 0.
Proof. intros Hi. unfold turns. simpl. by rewrite list_lookup_insert_eq. Qed.

Lemma turn_taken_insert q ts i t t' q' :
  ts !! i = Some t → (∀ j, length (wq_own j q') ≤ length (wq_own j q)) →
  (if is_running t' then match t_local t' with None => 2 | Some _ => 1 end + length (wq_own i q')
   else 0) <
  (if is_running t then match t_local t with None => 2 | Some _ => 1 end + length (wq_own i q)
   else 0) →
  turn_taken i (q, ts) (q', <[i:=t']> ts).
Proof.
  intros Hi Hown Hlt. apply lookup_lt_Some in Hi as Hl.
  rewrite <-(turns_insert q' ts i t' Hl) in Hlt.
  assert (turns i (q', <[i:=t']> ts) < turns i (q, ts)) as Hlt'.
  { eapply Nat.lt_le_trans; [exact Hlt|]. unfold turns. simpl. by rewrite Hi. }
  split; [lia|]. intros j. destruct (decide (j = i)) as [->|Hne]; [lia|].
  unfold turns. simpl. rewrite list_lookup_insert_ne by done. specialize (Hown j).
  destruct (ts !! j) as [t0|]; [|lia]. destruct (is_running t0); lia.
Qed.

Lemma ti_hist_lookup st p dn lost hs i t :
  tasks_inv st p dn lost hs → st.2 !! i = Some t → ∃ h, hs !! i = Some h ∧ h.*2 = t_out t.
Proof. intros Hi Ht. exact (Forall2_lookup_r _ _ _ _ _ (ti_hist _ _ _ _ _ Hi) Ht). Qed.

Lemma begin_step_ok i q ts out p dn lost hs :
  tasks_inv (q, ts) p dn lost hs → ts !! i = Some (mkTask None out Running) →
  ∃ p' st', task_step begin work i (q, ts) p = Some (p', st') ∧
    tasks_inv st' p' dn lost hs ∧ turn_taken i (q, ts) st'.
Proof.
  intros Hi Ei. destruct (ti_hist_lookup _ _ _ _ _ _ _ Hi Ei) as (h & Hh & Ho).
  pose proof Hi as [Hq Hn Hit _ Hd _ Hl Hloc Hfin Hp]. simpl in *.
  unfold task_step. simpl. rewrite Ei.
  destruct (begin_ok dn lost p Hp) as (p' & r & -> & Hp' & Hr). cbn [mbind option_bind].
  eexists _, _. split; [done|]. split.
  - rewrite <-(list_insert_id hs i h Hh).
    eapply (tasks_inv_insert q ts p i _ h _ h q p'); try done.
    + by destruct r.
    + by rewrite list_insert_id.
    + destruct r; simpl; lia.
    + intros s. by destruct r; simpl; intros; simplify_eq.
    + by destruct r.
  - eapply turn_taken_insert; [exact Ei|done|]. destruct r; simpl; lia.
Qed.

Lemma item_step_ok i q ts s out p dn lost hs :
  tasks_inv (q, ts) p dn lost hs → ts !! i = Some (mkTask (Some s) out Running) →
  ∃ p' st' dn' lost' hs', task_step begin work i (q, ts) p = Some (p', st') ∧
    tasks_inv st' p' dn' lost' hs' ∧ turn_taken i (q, ts) st'.
Proof.
  intros Hi Ei. destruct (ti_hist_lookup _ _ _ _ _ _ _ Hi Ei) as (h & Hh & Ho).
  pose proof Hi as [Hq Hn Hit _ Hd _ Hl Hloc Hfin Hp]. simpl in *.
  assert (i < n) as Hin by (apply lookup_lt_Some in Ei; lia).
  assert (Loc s) as Hs by (by eapply Hloc). unfold task_step. simpl. rewrite Ei.
  destruct (wq_own i q) as [|x rest] eqn:Et.
  - destruct (wq_empty n q i Hq Hin Et) as (q' & -> & Hq' & Htd & Hown). cbn [mbind option_bind].
    eexists _, _, dn, lost, (<[i:=h]> hs). split; [done|]. split.
    + eapply (tasks_inv_insert q ts p i _ h); try done; [by rewrite Htd|..].
      * intros j. by rewrite Hown.
      * intros _. split; [by intros|by rewrite Hown].
      * by rewrite list_insert_id.
      * simpl; lia.
      * simpl. intros. by simplify_eq.
      * by rewrite Hown.
    + eapply turn_taken_insert; [exact Ei|by intros j; rewrite Hown|]. simpl. lia.
  - destruct (wq_cons n q i x rest Hq Hin Et) as (q' & -> & Hq' & Htd & Hown & Hlen & Hpv).
    cbn [mbind option_bind].
    assert (x :: dn.*1 ++ lost ⊆+ wq_todo q0) as Hsub.
    { rewrite <-Hit, Htd, app_assoc, <-Permutation_middle.
      by apply submseteq_skip, submseteq_inserts_r. }
    destruct (work_ok x s dn lost p Hsub Hs Hp) as (p' & r & -> & Hr). cbn [mbind option_bind].
    destruct r as [[s' o]|e].
    + destruct Hr as (Hp' & Hs').
      eexists _, _, ((x, o) :: dn), lost, (<[i := h ++ [(x, o)]]> hs). split; [done|]. split.
      * eapply (tasks_inv_insert q ts p i _ h); try done.
        -- simpl. rewrite <-Hit, Htd. solve_Permutation.
        -- intros Hpr. split; [by apply Hpv|]. intros _.
           by rewrite fmap_app, Hown, Et, <-app_assoc.
        -- simpl. by rewrite fmap_app, Ho.
        -- by rewrite concat_insert_snoc, Hd by done.
        -- simpl; lia.
        -- simpl. intros. by simplify_eq.
      * eapply turn_taken_insert; [exact Ei|done|]. simpl. rewrite Hown, Et. simpl. lia.
    + eexists _, _, dn, (x :: lost), (<[i := h]> hs). split; [done|]. split.
      * eapply (tasks_inv_insert q ts p i _ h); try done.
        -- rewrite <-Hit, Htd. solve_Permutation.
        -- intros Hpr. split; [by apply Hpv|done].
        -- by rewrite list_insert_id.
        -- simpl; lia.
        -- simpl. intros. by simplify_eq.
      * eapply turn_taken_insert; [exact Ei|done|]. simpl. lia.
Qed.

Lemma turn_taken_idle i st t :
  st.2 !! i = t → (∀ t', t = Some t' → is_running t' = false) → turn_taken i st st.
Proof.
  intros Ht Hr. split; [|done]. unfold turns. rewrite Ht. destruct t as [t|]; [|lia].
  rewrite (Hr t eq_refl). lia.
Qed.

(** One turn of a task. *)
Lemma task_step_ok i st p dn lost hs :
  tasks_inv st p dn lost hs →
  ∃ p' st' dn' lost' hs', task_step begin work i st p = Some (p', st') ∧
    tasks_inv st' p' dn' lost' hs' ∧ turn_taken i st st'.
Proof.
  intros Hi. destruct st as [q ts]. destruct (ts !! i) as [[[s|] out []]|] eqn:Ei.
  1:{ by eapply item_step_ok. }
  3:{ destruct (begin_step_ok i q ts out p dn lost hs Hi Ei) as (p' & st' & ? & ? & ?).
      by exists p', st', dn, lost, hs. }
  all: exists p, (q, ts), dn, lost, hs; (split; [unfold task_step; simpl; by rewrite Ei|]);
    (split; [done|]); eapply turn_taken_idle; [exact Ei|]; intros; by simplify_eq.
Qed.

Lemma run_tasks_ok sched : ∀ st p dn lost hs,
  tasks_inv st p dn lost hs →
  ∃ p' st' dn' lost' hs', run_tasks begin work sched st p = Some (p', st') ∧
    tasks_inv st' p' dn' lost' hs' ∧
    ∀ j, turns j st' ≤ turns j st - length (List.filter (Nat.eqb j) sched).
Proof.
  induction sched as [|i sched IH]; intros st p dn lost hs Hi; simpl.
  { exists p, st, dn, lost, hs. split_and!; [done|done|]. intros j. lia. }
  destruct (task_step_ok i st p dn lost hs Hi) as (p1 & st1 & d1 & l1 & h1 & -> & Hi1 & Ht & Ht').
  cbn [mbind option_bind].
  destruct (IH st1 p1 d1 l1 h1 Hi1) as (p' & st' & d' & l' & h' & Hrun & Hinv & Hturns).
  exists p', st', d', l', h'. split_and!; [done|done|]. intros j. specialize (Hturns j).
  specialize (Ht' j). destruct (Nat.eqb_spec j i) as [->|]; simpl; lia.
Qed.

Lemma tasks_new_inv p :
  wq_ok n q0 → Inv [] [] p → tasks_inv (tasks_new n q0) p [] [] (replicate n []).
Proof.
  intros Hq Hp. assert (∀ i t, replicate n (mkTask None [] Running) !! i = Some t →
    t = mkTask (S := S) (O := O) (E := E) None [] Running) as Hnew.
  { by intros i t [-> _]%lookup_replicate. }
  split; simpl; [done|by rewrite length_replicate|done| | | | | | |done].
  - clear. induction n; simpl; by constructor.
  - clear. induction n; simpl; done.
  - by intros _ i h t [-> _]%lookup_replicate.
  - lia.
  - by intros i t s ->%Hnew.
  - by intros i t ->%Hnew.
Qed.

Lemma join_schedule_turns j : j < n →
  2 + length (wq_todo q0) ≤ length (List.filter (Nat.eqb j) (join_schedule n q0)).
Proof.
  intros Hj. unfold join_schedule. set (k := 2 + _). clearbody k.
  assert (∀ a m, a ≤ j < a + m →
    k ≤ length (List.filter (Nat.eqb j) (seq a m ≫= replicate k))) as H; [|by apply (H 0 n); lia].
  intros a m. revert a. induction m as [|m IH]; intros a Ham; [lia|].
  cbn [seq]. rewrite bind_cons, List.filter_app, length_app. destruct (decide (j = a)) as [->|].
  - assert (length (List.filter (Nat.eqb a) (replicate k a)) = k); [|lia].
    clear. induction k; simpl; [done|]. rewrite Nat.eqb_refl. simpl. lia.
  - specialize (IH (1 + a) ltac:(lia)). simpl in IH. lia.
Qed.

(** All tasks end, and every item is accounted for. *)
Lemma join_tasks_ok sched p :
  wq_ok n q0 → Inv [] [] p →
  ∃ p' q' ts dn lost hs, join_tasks begin work n sched q0 p = Some (p', (q', ts)) ∧
    tasks_inv (q', ts) p' dn lost hs ∧ Forall (λ t, is_running t = false) ts.
Proof.
  intros Hq Hp. unfold join_tasks.
  destruct (run_tasks_ok (sched ++ join_schedule n q0) (tasks_new n q0) p [] [] (replicate n [])) as
    (p' & [q' ts] & dn & lost & hs & Hrun & Hinv & Hturns); [by apply tasks_new_inv|].
  exists p', q', ts, dn, lost, hs. split_and!; [done|done|]. apply Forall_lookup. intros i t Hi.
  assert (i < n) as Hin.
  { pose proof (ti_len _ _ _ _ _ Hinv). apply lookup_lt_Some in Hi. simpl in *. lia. }
  specialize (Hturns i). rewrite List.filter_app, length_app in Hturns.
  pose proof (join_schedule_turns i Hin).
  assert (turns i (tasks_new n q0) ≤ 2 + length (wq_todo q0)).
  { unfold turns, tasks_new. simpl. rewrite lookup_replicate_2 by done. simpl.
    pose proof (wq_bound n q0 i Hq Hin). lia. }
  assert (turns i (q', ts) = 0) as Hz by lia. unfold turns in Hz. simpl in Hz. rewrite Hi in Hz.
  destruct (is_running t); [|done]. destruct (t_local t); lia.
Qed.

(** Without failures nothing is lost and nothing is left, and with private parts the outputs
    are in the order of the parts. *)
Lemma joined_all q ts p dn lost hs :
  tasks_inv (q, ts) p dn lost hs → Forall (λ t, is_running t = false) ts →
  Forall (λ t, is_failed t = false) ts →
  dn.*1 ≡ₚ wq_todo q0 ∧ lost = [] ∧
  (wq_private (Q := Q) (T := T) = true → ∀ i h, hs !! i = Some h → h.*1 = wq_own i q0).
Proof.
  intros [Hq Hn Hit Hh Hd Hpv Hl Hloc Hfin Hp] Hend Hok. simpl in *.
  rewrite Forall_lookup in Hend, Hok.
  assert (∀ i t, ts !! i = Some t → wq_own i q = []) as Hown.
  { intros i t Ht. apply (Hfin i t Ht). specialize (Hend i t Ht). specialize (Hok i t Ht).
    by destruct t as [? ? []]. }
  assert (lost = []) as ->.
  { apply nil_length_inv. assert (length (List.filter is_failed ts) = 0); [|lia].
    apply Forall_lookup in Hok. clear -Hok.
    induction Hok as [|t ts Ht _ IH]; simpl; [done|]. by rewrite Ht. }
  split_and!; [|done|].
  - rewrite (wq_all n q Hq), app_nil_r in Hit; [done|].
    intros i Hi. destruct (lookup_lt_is_Some_2 ts i) as [t Ht]; [lia|]. by apply (Hown i t).
  - intros Hpr i h Hi. destruct (Forall2_lookup_l _ _ _ _ _ Hh Hi) as (t & Ht & _).
    rewrite <-(Hpv Hpr i h t Hi Ht (Hok i t Ht)), (Hown i t Ht). by rewrite app_nil_r.
Qed.

End theory.
