(* ===== verification/Batch.v ===== *)
(** * Batched insertion

    Models [multi_insert] ([diskann/src/graph/index.rs]) and what it is made of: [set_elements]
    with [set_chunk], [search_and_prune_batch], [multi_insert_bootstrap] with its task,
    [aggregate_backedges] (in [MultiInsert]), [set_neighbors_bulk]
    ([diskann/src/provider.rs]) and the tasks that add the back edges.

    The tasks of each phase run under an arbitrary schedule ([Tasks]), one item per turn.  This
    is exact for the graph: the tasks of the search and of the bootstrap write no adjacency
    list, and the tasks that add back edges write, and read, disjoint lists.

    - Section [batch]: the definitions.  [multi_insert] returns, for the theorems, the pending
      edges that were written and the errors that the code logs and drops.
    - Section [keeps]: what is left unchanged on every outcome of a computation, errors
      included.
    - Section [theory]: each phase, and the whole insertion, for every schedule. *)

From Stdlib Require Import SpecFloat.
From S2P Require Import Prelude F32 Neighbor NeighborQueue QueueInterface AdjacencyList Config.
From S2P Require Import Prune Search Knn AsyncTools GraphUpdate Insert MultiInsert Tasks.

Local Open Scope gm_scope.

(** The errors of the tasks in the order of the joins; [tracked_error!] logs them. *)
Definition task_error {S O E} (t : task S O E) : option E :=
  match t_status t with Failed e => Some e | _ => None end.
Definition task_errors {S O E} (ts : list (task S O E)) : list E := omap task_error ts.

(** The schedules of the four groups of tasks. *)
Record schedules := mkSchedules {
  sc_set : list nat;
  sc_search : list nat;
  sc_bootstrap : list nat;
  sc_backedges : list nat;
}.

Section batch.
Context {I V P E A T G X Sd : Type} `{!EqDecision I, !Countable I, !ContainsSimd I, !UnstableSort I}.
Context `{GP : !GraphProvider I V P E} `{IP : !InsertProvider I P E A T G X}.
Context `{BP : !BatchProvider I P E T Sd} `{Acc : !SearchAccessor I A E}.
Variables (cfg : Config) (debug : bool) (sfuel fuel : nat) (dflt : I).
(** what [escalate] makes of the transient error; [BatchIdMismatch] as an error *)
Variables (escalated : I → E) (mismatch : nat → nat → E).
(** the [Ord] instance of the ids; the order in which the hash map is iterated *)
Context (R : relation I) `{!RelDecision R}.
Variable (map_iter : gmap I (Backedge.Inner I) → list (I * Backedge.Inner I)).
(** the search scratch that the pool hands out for the item at a position *)
Variable (pooled : nat → option (SearchScratch I (NeighborPriorityQueue I))).

Let num_tasks : nat := Z.to_nat (c_max_minibatch_par cfg).

(** Run tasks and go on when all have been joined. *)
Definition gm_join {Q B S O} `{!WorkQueue Q B} (begin : GM P E S) (work : B → S → GM P E (S * O))
    (n : nat) (sched : list nat) (q : Q) : GM P E (list (task S O E)) := λ p,
  '(p, (_, ts)) ← join_tasks begin work n sched q p; Some (p, Ok ts).

(** Guards that are dropped, and guards that are completed. *)
Definition abandon_all (guards : list G) (p : P) : P := foldl (λ p g, guard_abandon g p) p guards.
Definition complete_all (guards : list G) (p : P) : P := foldl (λ p g, guard_complete g p) p guards.

(** The loop body of [set_chunk]. *)
Definition set_chunk_item (vectors : list T) (ids : list X) (i : Z) (_ : unit) :
    GM P E (unit * G) :=
  do id <- gm_panic (ids !! Z.to_nat i);
  do vector <- gm_panic (vectors !! Z.to_nat i);
  do guard <- gm_lift (set_element id vector);
  gm_ret (tt, guard).

(** [DiskANNIndex::set_elements]: the first error in the order of the joins is returned, and the
    guards are dropped. *)
Definition set_elements (sched : list nat) (vectors : list T) (ids : list X) : GM P E (list G) :=
  if negb (length vectors =? length ids) then gm_err (mismatch (length vectors) (length ids)) else
  do ranges <- gm_panic (Partition.iter_collect (S num_tasks)
                 (Partition.iter_new (Z.of_nat (length vectors)) (c_max_minibatch_par cfg)));
  do ts <- gm_join (gm_ret tt) (set_chunk_item vectors ids) (length ranges) sched
             (Partition.range_items <$> ranges);
  match task_errors ts with
  | e :: _ => λ p, Some (abandon_all (tasks_out ts) p, Err e)
  | [] => gm_ret (tasks_out ts)
  end.

(** What a task of [search_and_prune_batch] does before and in its loop. *)
Definition search_batch_begin (seed : Sd) : GM P E (PruneScratch I) :=
  do _ <- gm_read (seeded_prune_accessor seed); gm_ret prune_scratch_new.
Definition search_batch_item (vectors : list T) (ids : list I) (item : I * nat)
    (prune_scratch : PruneScratch I) : GM P E (PruneScratch I * PendingEdge I) :=
  do vector <- gm_panic (vectors !! item.2);
  search_and_prune cfg debug sfuel fuel dflt escalated (pooled item.2) ids item.2 vector
    prune_scratch.

(** The loop body of [multi_insert_bootstrap_task]. *)
Definition bootstrap_item (batch : list (PendingEdge I)) (item : PendingEdge I * nat) (_ : unit) :
    GM P E (unit * PendingEdge I) :=
  do next <- multi_insert_bootstrap_leaf cfg debug fuel dflt escalated R item.1 batch;
  gm_ret (tt, next).

(** [DiskANNIndex::multi_insert_bootstrap]: the new pending edges and what is logged. *)
Definition multi_insert_bootstrap (sched : list nat) (edges : list (PendingEdge I)) :
    GM P E (list (PendingEdge I) * list E) :=
  let ntasks := Nat.max (Nat.min num_tasks (length edges)) 1 in
  do ts <- gm_join (gm_ret tt) (bootstrap_item edges) ntasks sched (Balancer.balancer_new edges);
  gm_ret (tasks_out ts, task_errors ts).

(** Candidate generation with the bootstrap: the pending edges, the back edges and what is
    logged. *)
Definition batch_candidates (scheds : schedules) (seed : Sd) (vectors : list T) (ids : list I) :
    GM P E (list (PendingEdge I) * gmap I (Backedge.Inner I) * list E) :=
  do ts <- gm_join (search_batch_begin seed) (search_batch_item vectors ids) num_tasks
             (sc_search scheds) (Balancer.balancer_new ids);
  let edges := tasks_out ts in
  do backedges <- gm_panic (aggregate_backedges debug dflt edges);
  let resolved_candidates :=
    Nat.max (ibc_get (c_intra_batch_candidates cfg) (length ids)) 1 in
  if (resolved_candidates <? length ids) && ((size backedges + 7) `div` 8 <=? length ids) then
    do r <- multi_insert_bootstrap (sc_bootstrap scheds) edges;
    let '(edges, errors) := r in
    do backedges <- gm_panic (aggregate_backedges debug dflt edges);
    gm_ret (edges, backedges, task_errors ts ++ errors)
  else gm_ret (edges, backedges, task_errors ts).

(** [NeighborAccessorMut::set_neighbors_bulk] *)
Fixpoint set_neighbors_bulk (pending : list (PendingEdge I)) : GM P E unit :=
  match pending with
  | [] => gm_ret tt
  | pe :: pending =>
      do _ <- gm_lift (set_neighbors (pe_source pe) (edges (pe_edges pe)));
      set_neighbors_bulk pending
  end.

(** The items of the task [i] that adds back edges; [None] also when [partition] reports an
    error, which it does for no task of the group. *)
Definition backedge_part (items : list (I * Backedge.Inner I)) (i : Z) :
    option (list (I * Backedge.Inner I)) :=
  r ← Partition.partition (Z.of_nat (length items)) (c_max_minibatch_par cfg) i;
  match r with
  | Ok (start, stop) => Some (take (Z.to_nat (stop - start)) (drop (Z.to_nat start) items))
  | Err _ => None
  end.

Definition backedge_item (item : I * Backedge.Inner I) (prune_scratch : PruneScratch I) :
    GM P E (PruneScratch I * unit) :=
  let sorted_buf := merge_sort R (Backedge.as_slice item.2) in
  do prune_scratch <- add_edge_and_prune cfg debug fuel dflt sorted_buf item.1 prune_scratch None;
  gm_ret (prune_scratch, tt).

(** The graph update: what is logged. *)
Definition batch_update (sched : list nat) (seed : Sd) (pending : list (PendingEdge I))
    (backedges : gmap I (Backedge.Inner I)) : GM P E (list E) :=
  do _ <- gm_read prune_accessor;
  do _ <- set_neighbors_bulk pending;
  do parts <- gm_panic (mapM (backedge_part (map_iter backedges))
                          (seqZ 0 (c_max_minibatch_par cfg)));
  do ts <- gm_join (search_batch_begin seed) backedge_item num_tasks sched parts;
  gm_ret (task_errors ts).

(** [DiskANNIndex::multi_insert]: the ids, the pending edges that were written and what was
    logged; the code returns nothing. *)
Definition batch_body (scheds : schedules) (vectors : list T) (ids : list I) :
    GM P E (list I * list (PendingEdge I) * list E) :=
  do seed <- gm_lift (finish vectors ids);
  do r <- batch_candidates scheds seed vectors ids;
  let '(pending, backedges, errors) := r in
  do errors' <- batch_update (sc_backedges scheds) seed pending backedges;
  gm_ret (ids, pending, errors ++ errors').

Definition multi_insert (scheds : schedules) (vectors : list T) (ids : list X) :
    GM P E (list I * list (PendingEdge I) * list E) :=
  do guards <- set_elements (sc_set scheds) vectors ids;
  λ p,
    '(p, r) ← batch_body scheds vectors (guard_id <$> guards) p;
    match r with
    | Err e => Some (abandon_all guards p, Err e)
    | Ok a => Some (complete_all guards p, Ok a)
    end.

End batch.

(** ** What every outcome leaves unchanged *)

(** A failed access leaves the graph as it was. *)
Class FailedAccess (I V P E : Type) `{GraphProvider I V P E} (graph : P → I → list I) := {
  get_failed : ∀ i p p' e, get_neighbors i p = (p', Err e) → graph p' = graph p;
  set_failed : ∀ i l p p' e, set_neighbors i l p = (p', Err e) → graph p' = graph p;
  append_failed : ∀ i l p p' e, append_vector i l p = (p', Err e) → graph p' = graph p;
}.

(** Laws of [MultiInsertStrategy]: preparing the seed does not touch the graph. *)
Class BatchProviderLaws (I P E T Sd : Type) `{BatchProvider I P E T Sd} (graph : P → I → list I) := {
  finish_law : ∀ ts ids p p' r, finish ts ids p = (p', r) → graph p' = graph p;
}.

Section keeps.
Context {P E : Type} (J : P → Prop).

(** [J] survives every outcome; [J] survives every failure. *)
Definition gm_keeps {B} (m : GM P E B) : Prop := ∀ p p' r, J p → m p = Some (p', r) → J p'.
Definition gm_fails {B} (m : GM P E B) : Prop := ∀ p p' e, J p → m p = Some (p', Err e) → J p'.

Lemma keeps_ret {B} (b : B) : gm_keeps (gm_ret b).
Proof. intros p p' r Hp Hm. unfold gm_ret in Hm. by simplify_eq. Qed.
Lemma keeps_err {B} e : gm_keeps (B := B) (gm_err e).
Proof. intros p p' r Hp Hm. unfold gm_err in Hm. by simplify_eq. Qed.
Lemma keeps_get : gm_keeps gm_get.
Proof. intros p p' r Hp Hm. unfold gm_get in Hm. by simplify_eq. Qed.
Lemma keeps_read {B} (f : P → result E B) : gm_keeps (gm_read f).
Proof. intros p p' r Hp Hm. unfold gm_read in Hm. by simplify_eq. Qed.
Lemma keeps_panic {B} (o : option B) : gm_keeps (gm_panic o).
Proof. intros p p' r Hp Hm. unfold gm_panic in Hm. destruct o; by simplify_eq/=. Qed.
Lemma keeps_lift {B} (f : P → P * result E B) :
  (∀ p p' r, J p → f p = (p', r) → J p') → gm_keeps (gm_lift f).
Proof. intros Hf p p' r Hp Hm. unfold gm_lift in Hm. simplify_eq. by eapply Hf. Qed.

Lemma keeps_bind {B C} (m : GM P E B) (f : B → GM P E C) :
  gm_keeps m → (∀ b, gm_keeps (f b)) → gm_keeps (gm_bind m f).
Proof.
  intros Hm Hf p p' r Hp Hrun. unfold gm_bind in Hrun.
  destruct (m p) as [[p1 [b|e]]|] eqn:E1; simplify_eq/=; [|by eapply Hm].
  eapply Hf; [|exact Hrun]. by eapply Hm.
Qed.

Lemma fails_bind {B C} (m : GM P E B) (f : B → GM P E C) :
  gm_keeps m → (∀ b, gm_fails (f b)) → gm_fails (gm_bind m f).
Proof.
  intros Hm Hf p p' r Hp Hrun. unfold gm_bind in Hrun.
  destruct (m p) as [[p1 [b|e]]|] eqn:E1; simplify_eq/=; [|by eapply Hm].
  eapply Hf; [|exact Hrun]. by eapply Hm.
Qed.

Lemma fails_last {B C} (m : GM P E B) (f : B → C) :
  gm_fails m → gm_fails (gm_bind m (λ b, gm_ret (f b))).
Proof.
  intros Hm p p' r Hp Hrun. unfold gm_bind in Hrun.
  destruct (m p) as [[p1 [b|e]]|] eqn:E1; simplify_eq/=. by eapply Hm.
Qed.

Lemma keeps_fails {B} (m : GM P E B) : gm_keeps m → gm_fails m.
Proof. intros Hm p p' e Hp Hrun. by eapply Hm. Qed.

Lemma fails_lift {B} (f : P → P * result E B) :
  (∀ p p' e, J p → f p = (p', Err e) → J p') → gm_fails (gm_lift f).
Proof. intros Hf p p' r Hp Hm. unfold gm_lift in Hm. simplify_eq. by eapply Hf. Qed.

(** A run with its postcondition, on either outcome. *)
Lemma gm_ok_fails {B} (m : GM P E B) p Post :
  gm_ok m p Post → gm_fails m → J p →
  ∃ p' r, m p = Some (p', r) ∧ match r with Ok b => Post p' b | Err _ => J p' end.
Proof.
  intros (p' & r & Hrun & Hr) Hf Hp. exists p', r. split; [done|]. destruct r; [done|].
  by eapply Hf.
Qed.

End keeps.

Create HintDb keeps.
#[export] Hint Resolve keeps_ret keeps_err keeps_get keeps_read keeps_panic : keeps.

(** Walk down a computation that does not write. *)
Ltac gm_walk :=
  repeat first
    [ progress eauto with keeps
    | apply keeps_bind; [|intros ?]
    | match goal with
      | |- gm_keeps _ (match ?x with _ => _ end) => destruct x
      end ].

Section unchanged.
Context {I V P E A T G X Sd : Type} `{!EqDecision I, !Countable I, !ContainsSimd I, !UnstableSort I}.
Context `{GP : !GraphProvider I V P E} `{IP : !InsertProvider I P E A T G X}.
Context `{BP : !BatchProvider I P E T Sd} `{Acc : !SearchAccessor I A E}.
Variables (cfg : Config) (debug : bool) (sfuel fuel : nat) (dflt : I) (escalated : I → E).
Context (R : relation I) `{!RelDecision R}.
Context {graph : P → I → list I}.
Context `{GL : !GraphProviderLaws I V P E graph (Z.to_nat (c_max_degree cfg))}.
Context `{FL : !FailedAccess I V P E graph}.
Variable (g : I → list I).
Let same (p : P) : Prop := graph p = g.

Lemma fill_keeps ids : gm_keeps same (gm_lift (fill ids)).
Proof. apply keeps_lift. intros p p' r Hp Hf. unfold same in *. by rewrite (fill_law ids p p' r Hf). Qed.
Lemma get_keeps i : gm_keeps same (gm_lift (get_neighbors i)).
Proof.
  apply keeps_lift. intros p p' [l|e] Hp Hf; unfold same in *.
  - apply get_law in Hf as [_ Hf]. by rewrite Hf.
  - by rewrite (get_failed i p p' e Hf).
Qed.
#[local] Hint Resolve fill_keeps get_keeps : keeps.

Lemma robust_prune_list_keeps location l scratch force :
  gm_keeps same (robust_prune_list cfg debug fuel dflt location l scratch force).
Proof. unfold robust_prune_list. gm_walk. Qed.

Lemma robust_prune_with_keeps id extras record scratch force :
  gm_keeps same (robust_prune_with cfg debug fuel dflt id extras record scratch force).
Proof. unfold robust_prune_with. gm_walk. Qed.
#[local] Hint Resolve robust_prune_list_keeps robust_prune_with_keeps : keeps.

Lemma prune_attempts_keeps n : ∀ attempt id extras a scratch search_l ps,
  gm_keeps same (prune_attempts cfg debug sfuel fuel dflt escalated n attempt id extras a scratch
                   search_l ps).
Proof. induction n as [|n IH]; intros; cbn [prune_attempts]; gm_walk. Qed.
#[local] Hint Resolve prune_attempts_keeps : keeps.

Lemma search_and_prune_keeps pooled ids position (t : T) ps :
  gm_keeps same (search_and_prune cfg debug sfuel fuel dflt escalated pooled ids position t ps).
Proof. unfold search_and_prune. gm_walk. Qed.

Lemma bootstrap_leaf_keeps current batch :
  gm_keeps same (multi_insert_bootstrap_leaf cfg debug fuel dflt escalated R current batch).
Proof. unfold multi_insert_bootstrap_leaf. gm_walk. Qed.

Lemma set_fails i l : gm_fails same (gm_lift (set_neighbors i l)).
Proof. apply fails_lift. intros p p' e Hp Hf. unfold same in *. by rewrite (set_failed i l p p' e Hf). Qed.
Lemma append_fails i l : gm_fails same (gm_lift (append_vector i l)).
Proof. apply fails_lift. intros p p' e Hp Hf. unfold same in *. by rewrite (append_failed i l p p' e Hf). Qed.

(** When adding edges fails, no list has changed. *)
Lemma add_edge_fails targets source scratch to_remove :
  gm_fails same (add_edge_and_prune cfg debug fuel dflt targets source scratch to_remove).
Proof.
  unfold add_edge_and_prune. apply fails_bind; [auto with keeps|]. intros l. cbv zeta.
  destruct (al_extend_from_slice _ _) as [adj num].
  destruct ((num =? 0) && _); [apply keeps_fails; auto with keeps|].
  destruct (_ <=? _).
  - destruct (existsb _ _); [apply fails_last, set_fails|].
    destruct (al_last _ _); [apply fails_last, append_fails|apply keeps_fails; auto with keeps].
  - apply fails_bind; [auto with keeps|]. intros [s o]. apply fails_last, set_fails.
Qed.

End unchanged.

(** ** The phases *)
Section theory.
Context {I V P E A T G X Sd : Type} `{!EqDecision I, !Countable I, !ContainsSimd I, !UnstableSort I}.
Context `{GP : !GraphProvider I V P E} `{IP : !InsertProvider I P E A T G X}.
Context `{BP : !BatchProvider I P E T Sd} `{Acc : !SearchAccessor I A E}.
Variables (cfg : Config) (debug : bool) (sfuel fuel : nat) (dflt : I).
Variables (escalated : I → E) (mismatch : nat → nat → E).
Context (R : relation I) `{!RelDecision R, !Transitive R, !Total R, !AntiSymm (=) R}.
Variable (map_iter : gmap I (Backedge.Inner I) → list (I * Backedge.Inner I)).
Hypothesis map_iter_perm : ∀ m, map_iter m ≡ₚ map_to_list m.
Variable (pooled : nat → option (SearchScratch I (NeighborPriorityQueue I))).
Context {graph : P → I → list I}.
Context `{GL : !GraphProviderLaws I V P E graph (Z.to_nat (c_max_degree cfg))}.
Context `{FL : !FailedAccess I V P E graph} `{IL : !InsertProviderLaws I P E A T G X graph}.
Context `{BL : !BatchProviderLaws I P E T Sd graph}.
Context {dist : I → f32} {adj : I → list I} {nodes : gset I} {starts : list I}.
Context `{AL : !SearchAccessorLaws I A E dist adj nodes starts}.
Hypothesis cfg_valid : config_valid cfg.
Hypothesis cfg_alpha : alpha_in_range (c_alpha cfg).
Hypothesis fuel_enough : 490 < fuel.
Hypothesis nodes_u32 : (Z.of_nat (size nodes) < 2 ^ 32)%Z.
Hypothesis sfuel_enough : size nodes ≤ sfuel.

Let par : Z := c_max_minibatch_par cfg.

Lemma par_pos : (0 < par < 2 ^ 32)%Z.
Proof. clear fuel_enough nodes_u32 sfuel_enough. destruct (cv_par cfg cfg_valid). unfold par. simpl in *. lia. Qed.

Lemma task_errors_nil {S O} (ts : list (task S O E)) :
  task_errors ts = [] → Forall (λ t, is_failed t = false) ts.
Proof.
  induction ts as [|[? ? []] ts IH]; unfold task_errors; simpl; intros H; constructor; auto; done.
Qed.

(** *** Storing the elements *)

(** The guard [g] is what storing the vector at position [i] returned. *)
Definition stored (vectors : list T) (ids : list X) (i : Z) (g : G) : Prop :=
  ∃ x t p p', ids !! Z.to_nat i = Some x ∧ vectors !! Z.to_nat i = Some t ∧
    set_element x t p = (p', Ok g).

Definition set_inv (vectors : list T) (ids : list X) (p : P) (dn : list (Z * G)) (lost : list Z)
    (p' : P) : Prop :=
  Forall (λ d, stored vectors ids d.1 d.2) dn ∧
  (lost = [] → ∀ j, graph p' j = graph p j ∨ (graph p' j = [] ∧ j ∈ (λ d, guard_id d.2) <$> dn)).

Lemma set_chunk_item_ok vectors ids p x s dn lost p1 :
  length vectors = length ids → (0 ≤ x < Z.of_nat (length ids))%Z →
  set_inv vectors ids p dn lost p1 →
  ∃ p2 r, set_chunk_item (P := P) (E := E) vectors ids x s p1 = Some (p2, r) ∧
    match r with
    | Ok (_, g) => set_inv vectors ids p ((x, g) :: dn) lost p2
    | Err _ => set_inv vectors ids p dn (x :: lost) p2
    end.
Proof. clear fuel_enough nodes_u32 sfuel_enough.
  intros Hlen Hx [Hst Hg]. destruct (lookup_lt_is_Some_2 ids (Z.to_nat x)) as [id Hid]; [lia|].
  destruct (lookup_lt_is_Some_2 vectors (Z.to_nat x)) as [t Ht]; [lia|].
  unfold set_chunk_item, gm_bind, gm_panic, gm_lift, gm_ret. rewrite Hid, Ht.
  cbn [mbind option_bind]. destruct (set_element id t p1) as [p2 [g|e]] eqn:Es.
  - eexists _, _. split; [done|]. simpl. split.
    + constructor; [by exists id, t, p1, p2|done].
    + intros Hl j. specialize (Hg Hl j). apply set_element_law in Es as [Hoth Hself].
      rewrite fmap_cons. simpl. destruct (decide (j = guard_id g)) as [->|Hne].
      * destruct Hself as [->| ->]; [|right; split; [done|by left]].
        destruct Hg as [?|[? ?]]; [by left|right; split; [done|by right]].
      * rewrite Hoth by done. destruct Hg as [?|[? ?]]; [by left|right; split; [done|by right]].
  - eexists _, _. split; [done|]. by split.
Qed.

(** The parts are the positions of the batch in order. *)
Lemma ranges_ok (n : nat) : (Z.of_nat n < 2 ^ 64 - 1)%Z →
  ∃ ranges, Partition.iter_collect (S (Z.to_nat par)) (Partition.iter_new (Z.of_nat n) par) =
      Some ranges ∧ concat (Partition.range_items <$> ranges) = seqZ 0 (Z.of_nat n).
Proof. clear fuel_enough nodes_u32 sfuel_enough.
  intros Hn. pose proof par_pos as Hp. eexists. split.
  - apply Partition.iter_collect_ok; lia.
  - pose proof (Partition.ranges_concat (Z.of_nat n) par ltac:(lia) ltac:(lia) (Z.to_nat par)) as Hc.
    rewrite !Z2Nat.id in Hc by lia. rewrite Z.sub_0_r, Hc by lia.
    by rewrite Partition.bound_last by lia.
Qed.

Lemma histories_parts {B C} (hs : list (list (B * C))) (parts : list (list B)) :
  length hs = length parts →
  (∀ i h, hs !! i = Some h → h.*1 = default [] (parts !! i)) → (concat hs).*1 = concat parts.
Proof.
  revert parts. induction hs as [|h hs IH]; intros [|l parts] Hlen Hh; simplify_eq/=; [done|].
  rewrite fmap_app, (IH parts); [|done|].
  - by rewrite (Hh 0 h eq_refl).
  - intros i h' Hi. exact (Hh (S i) h' Hi).
Qed.

(** The state when all tasks have been joined. *)
Definition joined {Q B S O} `{!WorkQueue Q B} n (q0 : Q) (Loc : S → Prop)
    (Inv : list (B * O) → list B → P → Prop) (p : P) (ts : list (task S O E)) : Prop :=
  ∃ q dn lost hs, tasks_inv n q0 Loc Inv (q, ts) p dn lost hs ∧
    Forall (λ t, is_running t = false) ts.

Lemma gm_join_ok {Q B S O} `{!WorkQueue Q B} (begin : GM P E S) (work : B → S → GM P E (S * O))
    n sched (q0 : Q) (Loc : S → Prop) (Inv : list (B * O) → list B → P → Prop) p :
  wq_ok n q0 → Inv [] [] p →
  (∀ dn lost p, Inv dn lost p → ∃ p' r, begin p = Some (p', r) ∧ Inv dn lost p' ∧
     match r with Ok s => Loc s | Err _ => True end) →
  (∀ x s dn lost p, x :: dn.*1 ++ lost ⊆+ wq_todo q0 → Loc s → Inv dn lost p →
     ∃ p' r, work x s p = Some (p', r) ∧
       match r with Ok (s', o) => Inv ((x, o) :: dn) lost p' ∧ Loc s'
                  | Err _ => Inv dn (x :: lost) p' end) →
  gm_ok (gm_join begin work n sched q0) p (joined n q0 Loc Inv).
Proof.
  intros Hq Hp Hb Hw.
  destruct (join_tasks_ok begin work n q0 Loc Inv Hb Hw sched p Hq Hp)
    as (p' & q' & ts & dn & lost & hs & Hrun & Hinv & Hend).
  unfold gm_ok, gm_join. rewrite Hrun. cbn [mbind option_bind]. eexists _, _. split; [done|].
  by exists q', dn, lost, hs.
Qed.

(** The lists after the elements with the ids [ids] were stored. *)
Definition stored_graph (p p' : P) (ids : list I) : Prop :=
  ∀ j, graph p' j = graph p j ∨ (graph p' j = [] ∧ j ∈ ids).

Lemma set_elements_join_ok sched vectors ids ranges p :
  length vectors = length ids →
  concat (Partition.range_items <$> ranges) = seqZ 0 (Z.of_nat (length ids)) →
  gm_ok (gm_join (gm_ret tt) (set_chunk_item vectors ids) (length ranges) sched
           (Partition.range_items <$> ranges)) p
    (joined (length ranges) (Partition.range_items <$> ranges) (λ _, True) (set_inv vectors ids p)).
Proof. clear fuel_enough nodes_u32 sfuel_enough.
  intros Hlen Hc. apply gm_join_ok; simpl.
  - apply length_fmap.
  - split; [constructor|]. intros _ j. by left.
  - intros dn lost p1 Hp1. by exists p1, (Ok tt).
  - intros x s dn lost p1 Hsub _ Hp1.
    assert (x ∈ seqZ 0 (Z.of_nat (length ids))) as Hx%elem_of_seqZ.
    { rewrite <-Hc. eapply elem_of_submseteq; [|exact Hsub]. by left. }
    destruct (set_chunk_item_ok vectors ids p x s dn lost p1 Hlen ltac:(lia) Hp1)
      as (p2 & [[[] g]|e] & Hi & Hr); eexists _, _; (split; [exact Hi|]); done.
Qed.

Lemma set_elements_ok sched vectors ids p :
  (Z.of_nat (length ids) < 2 ^ 64 - 1)%Z →
  gm_ok (set_elements cfg mismatch sched vectors ids) p (λ p' guards,
    length vectors = length ids ∧
    Forall2 (stored vectors ids) (seqZ 0 (Z.of_nat (length ids))) guards ∧
    stored_graph p p' (guard_id <$> guards)).
Proof. clear fuel_enough nodes_u32 sfuel_enough.
  intros Hn. unfold set_elements. destruct (Nat.eqb_spec (length vectors) (length ids)) as [Hlen|];
    [|by eexists _, _]. cbn [negb]. rewrite Hlen. fold par.
  destruct (ranges_ok (length ids) Hn) as (ranges & Hrun & Hc).
  eapply gm_ok_bind with (Mid := λ p' x, p' = p ∧ x = ranges); [by eapply gm_ok_panic|].
  intros p0 x [-> ->]. eapply gm_ok_bind; [by apply set_elements_join_ok|].
  intros p1 ts (q & dn & lost & hs & Hinv & Hend).
  destruct (task_errors ts) as [|e es] eqn:Ee; [|by eexists _, _].
  destruct (joined_all _ _ _ _ _ _ _ _ _ _ Hinv Hend (task_errors_nil ts Ee)) as (Hdn & -> & Hpv).
  pose proof (ti_out _ _ _ _ _ _ _ _ _ Hinv) as Hout. simpl in Hout.
  pose proof (ti_done _ _ _ _ _ _ _ _ _ Hinv) as Hperm.
  destruct (ti_inv _ _ _ _ _ _ _ _ _ Hinv) as [Hst Hg].
  apply gm_ok_ret. rewrite Hout. split_and!; [done| |].
  - rewrite <-Hc. rewrite <-(histories_parts hs (Partition.range_items <$> ranges)).
    + apply Forall2_fmap, Forall_Forall2_diag. by rewrite Hperm.
    + rewrite length_fmap. pose proof (ti_len _ _ _ _ _ _ _ _ _ Hinv) as Hl. simpl in Hl.
      rewrite <-Hl. by apply (Forall2_length _ _ _ (ti_hist _ _ _ _ _ _ _ _ _ Hinv)).
    + exact (Hpv eq_refl).
  - intros j. destruct (Hg eq_refl j) as [?|[? Hj]]; [by left|right]. split; [done|].
    rewrite <-list_fmap_compose. by rewrite <-Hperm in Hj.
Qed.

(** *** Candidates *)

(** What the pending edges of a batch with the ids [ids] promise. *)
Definition pending_edge (ids : list I) (pe : PendingEdge I) : Prop :=
  pe_source pe ∈ ids ∧ pruned_list cfg (pe_source pe) (elements nodes ++ ids) (edges (pe_edges pe)).
Definition pending_ok (ids : list I) (pending : list (PendingEdge I)) : Prop :=
  NoDup (pe_source <$> pending) ∧ Forall (pending_edge ids) pending.

(** The output of an item keeps its source. *)
Definition edges_inv {B} (source : B → I) (ids : list I) (g : I → list I)
    (dn : list (B * PendingEdge I)) (lost : list B) (p : P) : Prop :=
  graph p = g ∧ Forall (λ d, pe_source d.2 = source d.1 ∧ pending_edge ids d.2) dn.

Lemma edges_inv_step {B S} (source : B → I) ids g (work : GM P E (S * PendingEdge I)) x dn lost p :
  edges_inv source ids g dn lost p →
  gm_ok work p (λ p' r, graph p' = graph p ∧ pe_source r.2 = source x ∧ pending_edge ids r.2) →
  gm_keeps (λ p, graph p = g) work →
  ∃ p' r, work p = Some (p', r) ∧
    match r with
    | Ok (s, o) => edges_inv source ids g ((x, o) :: dn) lost p' ∧ True
    | Err _ => edges_inv source ids g dn (x :: lost) p'
    end.
Proof.
  intros [Hg Hdn] Hok Hk.
  destruct (gm_ok_fails _ _ p _ Hok (keeps_fails _ _ Hk) Hg) as (p' & r & Hrun & Hr).
  exists p', r. split; [done|]. destruct r as [[s o]|e]; [|by split].
  destruct Hr as (Hg' & Hs & Ho). split; [|done]. split; [by rewrite Hg'|]. by constructor.
Qed.

(** What the joined tasks hand over. *)
Lemma joined_edges {Q B S} `{!WorkQueue Q B} n (q0 : Q) (Loc : S → Prop) (source : B → I) ids g p ts :
  joined n q0 Loc (edges_inv source ids g) p ts →
  NoDup (source <$> wq_todo q0) →
  graph p = g ∧ pending_ok ids (tasks_out ts) ∧
  (task_errors ts = [] → length (tasks_out ts) = length (wq_todo q0)).
Proof.
  intros (q & dn & lost & hs & Hinv & Hend) Hnd.
  pose proof (ti_out _ _ _ _ _ _ _ _ _ Hinv) as Hout. simpl in Hout.
  pose proof (ti_done _ _ _ _ _ _ _ _ _ Hinv) as Hperm.
  pose proof (ti_items _ _ _ _ _ _ _ _ _ Hinv) as Hit.
  destruct (ti_inv _ _ _ _ _ _ _ _ _ Hinv) as [Hg Hdn].
  assert (tasks_out ts ≡ₚ dn.*2) as Hts by (by rewrite Hout, Hperm).
  split_and!; [done| |].
  - assert (pe_source <$> tasks_out ts ≡ₚ source <$> dn.*1) as Hsrc.
    { rewrite Hts, <-!list_fmap_compose. clear -Hdn.
      induction Hdn as [|d dn [Hd _] _ IH]; [done|]. simpl. by rewrite Hd, IH. }
    split.
    + rewrite Hsrc. rewrite <-Hit, fmap_app in Hnd. by apply NoDup_app in Hnd as [? _].
    + rewrite Hts. apply Forall_fmap. eapply Forall_impl; [exact Hdn|]. by intros d [_ ?].
  - intros He. destruct (joined_all _ _ _ _ _ _ _ _ _ _ Hinv Hend (task_errors_nil ts He)) as (Hd & _).
    by rewrite Hts, length_fmap, <-Hd, length_fmap.
Qed.

Lemma search_batch_begin_ok {B O} (Loc : PruneScratch I → Prop)
    (Inv : list (B * O) → list B → P → Prop) seed dn lost p :
  Loc prune_scratch_new → Inv dn lost p →
  ∃ p' r, search_batch_begin (P := P) (E := E) seed p = Some (p', r) ∧ Inv dn lost p' ∧
    match r with Ok s => Loc s | Err _ => True end.
Proof.
  intros Hl Hi. unfold search_batch_begin, gm_bind, gm_read, gm_ret. cbn [mbind option_bind].
  destruct (seeded_prune_accessor seed p); by eexists _, _.
Qed.

Lemma balancer_todo_lookup (ids : list I) x :
  x ∈ wq_todo (Balancer.balancer_new ids) → ids !! x.2 = Some x.1.
Proof.
  simpl. rewrite balancer_todo_new. intros [k Hk]%list_elem_of_lookup.
  rewrite list_lookup_imap in Hk. destruct (ids !! k) eqn:Ek; by simplify_eq/=.
Qed.

Lemma balancer_todo_ids {B} (l : list B) : (wq_todo (Balancer.balancer_new l)).*1 = l.
Proof.
  simpl. rewrite balancer_todo_new. apply list_eq. intros i.
  rewrite list_lookup_fmap, list_lookup_imap. by destruct (l !! i).
Qed.

(** The sizes for which the doubled candidate lists of the retries fit in a [usize]. *)
Definition retries_fit : Prop :=
  0 < insert_tries cfg ∧
  (Z.of_nat (insert_l cfg (starts := starts)) * 2 ^ Z.of_nat (insert_tries cfg) < 2 ^ 64)%Z.

Lemma search_batch_ok sched seed (vectors : list T) ids p :
  retries_fit → (Z.of_nat (length ids) < 2 ^ 64 - 1)%Z → length vectors = length ids →
  NoDup ids → (∀ x, x ∈ ids → x ∉ nodes) →
  gm_ok (gm_join (search_batch_begin seed)
           (search_batch_item cfg debug sfuel fuel dflt escalated pooled vectors ids) (Z.to_nat par)
           sched (Balancer.balancer_new ids)) p
    (joined (Z.to_nat par) (Balancer.balancer_new ids) (λ _, True)
       (edges_inv fst ids (graph p))).
Proof.
  intros [Htries Hbig] Hsmall Hlen Hnd Hnew. apply gm_join_ok.
  - pose proof par_pos. split; [|lia]. split; simpl; lia.
  - by split.
  - intros dn lost p1. by apply search_batch_begin_ok.
  - intros x s dn lost p1 Hsub _ Hinv. assert (ids !! x.2 = Some x.1) as Hx.
    { apply balancer_todo_lookup. eapply elem_of_submseteq; [|exact Hsub]. by left. }
    apply edges_inv_step; [done| |].
    + unfold search_batch_item.
      destruct (lookup_lt_is_Some_2 vectors x.2) as [t Ht]; [apply lookup_lt_Some in Hx; lia|].
      eapply gm_ok_bind with (Mid := λ p' y, p' = p1 ∧ y = t); [by eapply gm_ok_panic|].
      intros p2 y [-> ->]. eapply gm_ok_weaken; [by eapply search_and_prune_ok|].
      intros p' r (? & _ & Hs & Hpl). split_and!; [done|done|]. unfold pending_edge. rewrite Hs.
      split; [by eapply list_elem_of_lookup_2|done].
    + apply keeps_bind; [apply keeps_panic|]. intros t. by apply search_and_prune_keeps.
Qed.

Lemma bootstrap_leaf_ok ids current batch p :
  pending_edge ids current → Forall (pending_edge ids) batch →
  gm_ok (multi_insert_bootstrap_leaf cfg debug fuel dflt escalated R current batch) p
    (λ p' pe, graph p' = graph p ∧ pe_source pe = pe_source current ∧ pending_edge ids pe).
Proof.
  intros [Hsrc Hcur] Hbatch. unfold multi_insert_bootstrap_leaf.
  set (items := edges (pe_edges current) ++ _).
  destruct (from_iter_untrusted_ok R items) as (Hnd & _ & Hin).
  set (cands := al_from_iter_untrusted R items) in *.
  assert (∀ x, x ∈ edges cands → x ∈ elements nodes ++ ids) as Hc.
  { intros x. rewrite Hin. intros [Hx|Hx]%elem_of_app; [by apply (pl_from _ _ _ _ Hcur)|].
    apply list_elem_of_omap in Hx as (pe & Hpe & Hx). case_bool_decide; simplify_eq.
    rewrite Forall_forall in Hbatch. apply elem_of_app. right. by apply Hbatch. }
  eapply gm_ok_bind with (Mid := λ p' _, p' = p); [by unfold gm_ok, gm_read; eexists p, _;
    split; [done|destruct (prune_accessor p)]|].
  intros p1 u ->. destruct (decide (edges cands = [])) as [Hnil|Hne].
  - unfold robust_prune_list. rewrite Hnil. apply gm_ok_ret. split_and!; [done|done|].
    split; [done|]. split; simpl; [constructor|lia|by intros x ?%elem_of_nil].
  - eapply gm_ok_bind; [by apply robust_prune_list_ok|]. intros p2 [ps outcome] [Hg Hout].
    cbn [fst snd] in Hout. destruct outcome as [|i]; [|by eexists _, _]. apply gm_ok_ret.
    split_and!; [done|done|]. split; [done|]. destruct Hout as [H1 H2 H3]. split; [done|done|].
    simpl. intros x Hx. destruct (H3 x Hx) as [? ?]. split; [by apply Hc|done].
Qed.

Lemma bootstrap_ok sched ids pending p :
  (Z.of_nat (length pending) < 2 ^ 64 - 1)%Z → pending_ok ids pending →
  gm_ok (multi_insert_bootstrap cfg debug fuel dflt escalated R sched pending) p
    (λ p' r, graph p' = graph p ∧ pending_ok ids r.1 ∧ (r.2 = [] → length r.1 = length pending)).
Proof.
  intros Hsmall [Hnd Hall]. unfold multi_insert_bootstrap.
  set (ntasks := Nat.max _ 1).
  eapply gm_ok_bind with (Mid := joined ntasks (Balancer.balancer_new pending) (λ _, True)
    (edges_inv (λ x, pe_source x.1) ids (graph p))).
  { apply gm_join_ok.
    - split; [|lia]. split; simpl; lia.
    - by split.
    - intros dn lost p1 Hp1. by exists p1, (Ok tt).
    - intros x s dn lost p1 Hsub _ Hinv. apply edges_inv_step; [done| |].
      + unfold bootstrap_item. eapply gm_ok_bind; [apply (bootstrap_leaf_ok ids); [|done]|].
        * rewrite Forall_forall in Hall. apply Hall. rewrite <-(balancer_todo_ids pending).
          apply list_elem_of_fmap_2. eapply elem_of_submseteq; [|exact Hsub]. by left.
        * intros p2 pe (? & ? & ?). by apply gm_ok_ret.
      + apply keeps_bind; [by apply bootstrap_leaf_keeps|]. intros. apply keeps_ret. }
  intros p1 ts Hj. apply joined_edges in Hj as (Hg & Hok & Hlen).
  - apply gm_ok_ret. split_and!; [done|done|]. simpl. intros He. rewrite (Hlen He).
    rewrite <-(balancer_todo_ids pending) at 2. by rewrite length_fmap.
  - change (NoDup (pe_source ∘ fst <$> wq_todo (Balancer.balancer_new pending))).
    by rewrite list_fmap_compose, balancer_todo_ids.
Qed.

Lemma pending_length ids pending : NoDup ids → pending_ok ids pending → length pending ≤ length ids.
Proof.
  intros Hnd [Hs Hall]. rewrite <-(length_fmap pe_source). apply submseteq_length, NoDup_submseteq;
    [done|]. intros x (pe & -> & Hpe)%list_elem_of_fmap. rewrite Forall_forall in Hall.
  by apply Hall.
Qed.

(** The back edges of the pending edges, reversed exactly. *)
Definition reversed (pending : list (PendingEdge I)) (map : gmap I (Backedge.Inner I)) : Prop :=
  ∀ t, match map !! t with
       | Some b => NoDup (Backedge.as_slice b) ∧ Backedge.as_slice b ≠ [] ∧
           ∀ s, s ∈ Backedge.as_slice b ↔
             ∃ pe, pe ∈ pending ∧ pe_source pe = s ∧ t ∈ edges (pe_edges pe)
       | None => ∀ pe, pe ∈ pending → t ∉ edges (pe_edges pe)
       end.

(** Candidate generation: nothing is written; without errors every id has pending edges. *)
Lemma batch_candidates_ok scheds seed (vectors : list T) ids p :
  retries_fit → (Z.of_nat (length ids) < 2 ^ 64 - 1)%Z → length vectors = length ids →
  NoDup ids → (∀ x, x ∈ ids → x ∉ nodes) →
  gm_ok (batch_candidates cfg debug sfuel fuel dflt escalated R pooled scheds seed vectors ids) p
    (λ p' r, graph p' = graph p ∧ pending_ok ids r.1.1 ∧ reversed r.1.1 r.1.2 ∧
       (r.2 = [] → length r.1.1 = length ids)).
Proof.
  intros Hfit Hsmall Hlen Hnd Hnew. unfold batch_candidates.
  eapply gm_ok_bind; [by apply search_batch_ok|]. intros p1 ts Hj.
  apply joined_edges in Hj as (Hg & Hok & Hl); [|by rewrite balancer_todo_ids].
  destruct (aggregate_backedges_ok debug dflt (tasks_out ts)) as (map & Hmap & Hrev).
  eapply gm_ok_bind with (Mid := λ p' m, p' = p1 ∧ m = map); [by eapply gm_ok_panic|].
  intros p2 m [-> ->].
  assert (task_errors ts = [] → length (tasks_out ts) = length ids) as Hfull.
  { intros He. rewrite (Hl He), <-(length_fmap fst). by rewrite balancer_todo_ids. }
  destruct (_ && _); [|by apply gm_ok_ret].
  pose proof (pending_length ids (tasks_out ts) Hnd Hok).
  eapply gm_ok_bind; [apply (bootstrap_ok _ ids); [lia|done]|].
  intros p3 [edges errors] (Hg' & Hok' & Hl'). simpl in Hok', Hl'.
  destruct (aggregate_backedges_ok debug dflt edges) as (map' & Hmap' & Hrev').
  eapply gm_ok_bind with (Mid := λ p' m, p' = p3 ∧ m = map'); [by eapply gm_ok_panic|].
  intros p4 m [-> ->]. apply gm_ok_ret. split_and!; [by rewrite Hg', Hg|done|done|].
  simpl. intros [He1 He2]%app_nil. rewrite (Hl' He2). by apply Hfull.
Qed.

(** *** The graph update *)

Lemma set_neighbors_bulk_ok pending : ∀ p,
  NoDup (pe_source <$> pending) → Forall (λ pe, list_ok cfg (edges (pe_edges pe))) pending →
  graph_ok cfg (graph := graph) p →
  gm_ok (set_neighbors_bulk pending) p (λ p' _, graph_ok cfg (graph := graph) p' ∧
    (∀ pe, pe ∈ pending → graph p' (pe_source pe) = edges (pe_edges pe)) ∧
    (∀ j, j ∉ pe_source <$> pending → graph p' j = graph p j)).
Proof.
  induction pending as [|pe pending IH]; intros p Hnd Hall Hp; cbn [set_neighbors_bulk].
  { apply gm_ok_ret. split_and!; [done|by intros ? ?%elem_of_nil|done]. }
  apply NoDup_cons in Hnd as [Hn Hnd]. apply Forall_cons in Hall as [Hpe Hall].
  eapply gm_ok_bind with (Mid := λ p' _, graph_ok cfg (graph := graph) p' ∧
    graph p' (pe_source pe) = edges (pe_edges pe) ∧
    ∀ j, j ≠ pe_source pe → graph p' j = graph p j).
  { by apply (set_neighbors_ok cfg); auto. }
  intros p1 [] (Hp1 & Hset & Hoth). eapply gm_ok_weaken; [by apply IH|].
  intros p' [] (Hp' & Hin & Hout). split_and!; [done| |].
  - intros pe' [->|Hpe']%elem_of_cons; [by rewrite Hout|by apply Hin].
  - rewrite fmap_cons. intros j [Hne Hj]%not_elem_of_cons. by rewrite Hout, Hoth.
Qed.

(** Consecutive slices of a list. *)
Definition part_slice {B} (items : list B) (t : Z) : list B :=
  let b := Partition.bound (Z.of_nat (length items)) par in
  take (Z.to_nat (b (t + 1) - b t)%Z) (drop (Z.to_nat (b t)) items).

Lemma slices_concat {B} (items : list B) (n : nat) : (Z.of_nat (length items) < 2 ^ 64 - 1)%Z →
  (Z.of_nat n ≤ par)%Z →
  concat (part_slice items <$> seqZ 0 (Z.of_nat n)) =
  take (Z.to_nat (Partition.bound (Z.of_nat (length items)) par (Z.of_nat n))) items.
Proof.
  intros Hsmall. pose proof par_pos as Hp. set (b := Partition.bound _ _).
  induction n as [|n IH]; intros Hn.
  { unfold b, Partition.bound. pose proof (Z.mod_pos_bound (Z.of_nat (length items)) par).
    replace (_ + _)%Z with 0%Z by lia. done. }
  rewrite Nat2Z.inj_succ, <-Z.add_1_r, seqZ_app by lia.
  rewrite fmap_app, concat_app, IH by lia. rewrite seqZ_cons, Z.add_0_l by lia. simpl.
  rewrite app_nil_r. unfold part_slice. fold b.
  assert (0 ≤ b (Z.of_nat n) ≤ b (Z.of_nat n + 1))%Z.
  { pose proof (Partition.bound_step (Z.of_nat (length items)) par (Z.of_nat n) ltac:(lia)) as Hs. pose proof (Z.div_pos (Z.of_nat (length items)) par).
    pose proof (Partition.bound_range (Z.of_nat (length items)) par ltac:(lia) ltac:(lia) (Z.of_nat n)
      ltac:(lia)). unfold b. lia. }
  rewrite take_take_drop. f_equal. lia.
Qed.

Lemma backedge_parts_ok (items : list (I * Backedge.Inner I)) :
  (Z.of_nat (length items) < 2 ^ 64 - 1)%Z →
  ∃ parts, mapM (backedge_part cfg items) (seqZ 0 par) = Some parts ∧
    length parts = Z.to_nat par ∧ concat parts = items.
Proof.
  intros Hsmall. pose proof par_pos as Hp. exists (part_slice items <$> seqZ 0 par). split_and!.
  - apply mapM_Some_2. apply Forall2_fmap_r, Forall_Forall2_diag, Forall_forall.
    intros t Ht%elem_of_seqZ. unfold backedge_part, Partition.partition. fold par.
    rewrite (proj2 (Z.leb_gt _ _)) by lia.
    rewrite Partition.partition_impl_ok by lia. cbn [mbind option_bind]. reflexivity.
  - by rewrite length_fmap, length_seqZ.
  - pose proof (slices_concat items (Z.to_nat par) Hsmall) as Hc. rewrite Z2Nat.id in Hc by lia.
    rewrite Hc by lia. rewrite Partition.bound_last by lia. rewrite Nat2Z.id. by rewrite firstn_all.
Qed.

(** A list that had room gains exactly the sources. *)
Definition added (old sources new : list I) : Prop :=
  length old + length sources ≤ max_degree cfg → ∀ x, x ∈ new ↔ x ∈ old ∨ x ∈ sources.

Lemma added_perm old sources sources' new :
  sources ≡ₚ sources' → added old sources new → added old sources' new.
Proof. intros Hp Ha Hlen x. rewrite (Ha ltac:(by rewrite Hp) x). by rewrite Hp. Qed.

Lemma edge_outcome_added j old sources stale new :
  NoDup old → edge_outcome cfg j old sources None stale new → added old sources new.
Proof.
  intros Hnd Hout Hlen. destruct (edge_list_ok old sources None Hnd) as (_ & _ & _ & Hnd' & Hin).
  assert (∀ x, x ∈ edge_list old sources None ↔ x ∈ old ∨ x ∈ sources) as Hin'.
  { intros x. rewrite Hin. simpl. naive_solver. }
  assert (length (edge_list old sources None) ≤ length old + length sources) as Hle.
  { rewrite <-length_app. apply submseteq_length, NoDup_submseteq; [done|].
    intros x Hx%Hin'. by apply elem_of_app. }
  destruct Hout as [[_ ->]|[Hgt _]]; [done|lia].
Qed.

(** The lists while the back edges are added, starting from [g]. *)
Definition back_inv (g : I → list I) (dn : list ((I * Backedge.Inner I) * unit))
    (lost : list (I * Backedge.Inner I)) (p : P) : Prop :=
  graph_ok cfg (graph := graph) p ∧
  ∀ j, (∃ b, (j, b) ∈ dn.*1 ∧ added (g j) (Backedge.as_slice b) (graph p j)) ∨
       (graph p j = g j ∧ j ∉ dn.*1.*1).

Lemma backedge_item_ok g x scratch dn lost p :
  NoDup (x :: dn.*1).*1 → list_ok cfg (edges (ps_neighbors scratch)) → back_inv g dn lost p →
  ∃ p' r, backedge_item cfg debug fuel dflt R x scratch p = Some (p', r) ∧
    match r with
    | Ok (scratch', o) => back_inv g ((x, o) :: dn) lost p' ∧
                          list_ok cfg (edges (ps_neighbors scratch'))
    | Err _ => back_inv g dn (x :: lost) p'
    end.
Proof.
  rewrite fmap_cons. intros [Hx _]%NoDup_cons Hs [Hp Hj]. unfold backedge_item.
  set (m := add_edge_and_prune _ _ _ _ _ _ _ _).
  destruct (gm_ok_fails (λ p', graph p' = graph p) (do scratch <- m; gm_ret (scratch, tt)) p
    (λ p' r, graph_ok cfg (graph := graph) p' ∧ list_ok cfg (edges (ps_neighbors r.1)) ∧
       (∀ j, j ≠ x.1 → graph p' j = graph p j) ∧
       added (graph p x.1) (Backedge.as_slice x.2) (graph p' x.1)))
    as (p' & r & Hrun & Hr); [| |done|].
  - eapply gm_ok_bind; [by apply add_edge_ok|]. intros p1 s1 (? & ? & ? & Hout & _).
    apply gm_ok_ret. split_and!; [done..|]. apply edge_outcome_added in Hout; [|apply Hp].
    eapply added_perm; [apply (merge_sort_Permutation R)|exact Hout].
  - apply fails_last. by apply add_edge_fails.
  - exists p', r. split; [exact Hrun|]. destruct r as [[s o]|e].
    + destruct Hr as (Hp' & Hs' & Hoth & Hadd). split; [|done]. split; [done|].
      intros j. destruct (decide (j = x.1)) as [->|Hne].
      * left. exists x.2. split; [by destruct x; left|].
        destruct (Hj x.1) as [(b & Hb & _)|[<- _]]; [|done].
        destruct Hx. apply list_elem_of_fmap. by exists (x.1, b).
      * rewrite Hoth by done. destruct (Hj j) as [(b & Hb & ?)|[? ?]].
        -- left. exists b. split; [by right|done].
        -- right. split; [done|]. rewrite !fmap_cons. by apply not_elem_of_cons.
    + split; [intros i; rewrite Hr; apply Hp|]. intros j. rewrite Hr. apply Hj.
Qed.

Lemma backedge_tasks_ok sched seed (items : list (I * Backedge.Inner I)) parts p :
  length parts = Z.to_nat par → concat parts = items → NoDup items.*1 →
  graph_ok cfg (graph := graph) p →
  gm_ok (gm_join (search_batch_begin seed) (backedge_item cfg debug fuel dflt R) (Z.to_nat par)
           sched parts) p
    (λ p' ts, graph_ok cfg (graph := graph) p' ∧
       ∀ j, (∃ b, (j, b) ∈ items ∧ added (graph p j) (Backedge.as_slice b) (graph p' j)) ∨
            (graph p' j = graph p j ∧ (task_errors ts = [] → j ∉ items.*1))).
Proof.
  intros Hlen Hc Hnd Hp. eapply gm_ok_weaken; [apply (gm_join_ok _ _ _ _ parts
    (λ s, list_ok cfg (edges (ps_neighbors s))) (back_inv (graph p)))|].
  - done.
  - split; [done|]. intros j. right. split; [done|apply not_elem_of_nil].
  - intros dn lost p1. apply search_batch_begin_ok. split; [constructor|simpl; lia].
  - intros x s dn lost p1 Hsub Hs Hinv. apply backedge_item_ok; [|done|done].
    simpl in Hsub. rewrite Hc in Hsub. rewrite app_comm_cons in Hsub.
    assert (x :: dn.*1 ⊆+ items) as Hsub' by (etrans; [by apply submseteq_inserts_r|exact Hsub]).
    apply submseteq_Permutation in Hsub' as [k Hk]. rewrite Hk, fmap_app in Hnd.
    by apply NoDup_app in Hnd as [? _].
  - intros p' ts (q & dn & lost & hs & Hinv & Hend).
    pose proof (ti_items _ _ _ _ _ _ _ _ _ Hinv) as Hit. simpl in Hit. rewrite Hc in Hit.
    destruct (ti_inv _ _ _ _ _ _ _ _ _ Hinv) as [Hp' Hj]. split; [done|]. intros j.
    destruct (Hj j) as [(b & Hb & Ha)|[Hg Hn]].
    + left. exists b. split; [|done]. rewrite <-Hit. apply elem_of_app. by left.
    + right. split; [done|]. intros He.
      destruct (joined_all _ _ _ _ _ _ _ _ _ _ Hinv Hend (task_errors_nil ts He)) as (Hd & _).
      simpl in Hd. rewrite Hc in Hd. by rewrite Hd in Hn.
Qed.

(** *** The whole insertion *)

(** The sources of the pending edges that lead to [j]. *)
Definition pointing (pending : list (PendingEdge I)) (j : I) : list I :=
  pe_source <$> List.filter (λ pe, bool_decide (j ∈ edges (pe_edges pe))) pending.

Lemma elem_of_pointing pending j s :
  s ∈ pointing pending j ↔ ∃ pe, pe ∈ pending ∧ pe_source pe = s ∧ j ∈ edges (pe_edges pe).
Proof.
  unfold pointing. rewrite list_elem_of_fmap. split.
  - intros (pe & -> & Hpe%list_elem_of_In). apply filter_In in Hpe as [Hpe Hj].
    exists pe. split_and!; [by apply list_elem_of_In|done|by apply bool_decide_eq_true in Hj].
  - intros (pe & Hpe & <- & Hj). exists pe. split; [done|]. apply list_elem_of_In, filter_In.
    split; [by apply list_elem_of_In|by apply bool_decide_eq_true].
Qed.

Lemma NoDup_pointing pending j : NoDup (pe_source <$> pending) → NoDup (pointing pending j).
Proof.
  unfold pointing. induction pending as [|pe pending IH]; simpl; [done|].
  intros [Hn Hnd]%NoDup_cons. case_bool_decide; [|by apply IH]. simpl.
  apply NoDup_cons. split; [|by apply IH]. intros (pe' & He & Hpe')%list_elem_of_fmap.
  apply Hn. rewrite He. apply list_elem_of_fmap_2. apply list_elem_of_In in Hpe'.
  apply filter_In in Hpe' as [? _]. by apply list_elem_of_In.
Qed.

Lemma reversed_pointing pending map j : NoDup (pe_source <$> pending) → reversed pending map →
  match map !! j with
  | Some b => Backedge.as_slice b ≡ₚ pointing pending j ∧ pointing pending j ≠ []
  | None => pointing pending j = []
  end.
Proof.
  intros Hnd Hrev. specialize (Hrev j). destruct (map !! j) as [b|].
  - destruct Hrev as (Hb & Hne & Hin).
    assert (Backedge.as_slice b ≡ₚ pointing pending j) as Hperm.
    { apply NoDup_Permutation; [done|by apply NoDup_pointing|].
      intros s. by rewrite Hin, elem_of_pointing. }
    split; [done|]. intros Hn. rewrite Hn in Hperm. by apply Permutation_nil_r in Hperm.
  - destruct (pointing pending j) as [|s l] eqn:Ep; [done|].
    assert (s ∈ pointing pending j) as (pe & ? & _ & ?)%elem_of_pointing by (rewrite Ep; by left).
    by destruct (Hrev pe).
Qed.

(** As many targets as pending edges at most. *)
Lemma reversed_size ids pending map : pending_ok ids pending → reversed pending map →
  size map ≤ length pending * pruned_degree cfg.
Proof.
  intros [_ Hall] Hrev. rewrite <-length_map_to_list, <-(length_fmap fst).
  transitivity (length (mjoin ((λ pe, edges (pe_edges pe)) <$> pending))).
  - apply submseteq_length, NoDup_submseteq; [apply NoDup_fst_map_to_list|].
    intros j ([k b] & -> & Hk%elem_of_map_to_list)%list_elem_of_fmap. simpl.
    specialize (Hrev k). rewrite Hk in Hrev. destruct Hrev as (_ & Hne & Hin).
    destruct (Backedge.as_slice b) as [|s l]; [done|].
    destruct (proj1 (Hin s) ltac:(by left)) as (pe & Hpe & _ & Ht).
    apply list_elem_of_join. exists (edges (pe_edges pe)). split; [done|].
    apply list_elem_of_fmap. by exists pe.
  - clear Hrev. induction Hall as [|pe pending [_ Hpe] _ IH]; [done|].
    rewrite fmap_cons. cbn [mjoin list_join]. rewrite length_app. pose proof (pl_degree _ _ _ _ Hpe).
    change (length (pe :: pending)) with (1 + length pending). rewrite Nat.mul_add_distr_r, Nat.mul_1_l.
    by apply Nat.add_le_mono.
Qed.

(** The list of [j] before the back edges are added. *)
Definition base_list (p : P) (ids : list I) (pending : list (PendingEdge I)) (j : I)
    (base : list I) : Prop :=
  (∀ pe, pe ∈ pending → pe_source pe = j → base = edges (pe_edges pe)) ∧
  (j ∉ pe_source <$> pending → base = graph p j ∨ (base = [] ∧ j ∈ ids)).

Record batch_inserted (p p' : P) (ids : list I) (pending : list (PendingEdge I))
    (errors : list E) : Prop := {
  bi_graph : graph_ok cfg (graph := graph) p';
  bi_pending : pending_ok ids pending;
  bi_all : errors = [] → pe_source <$> pending ≡ₚ ids;
  bi_lists : ∀ j, ∃ base, base_list p ids pending j base ∧
    (pointing pending j = [] → graph p' j = base) ∧
    (pointing pending j ≠ [] →
       added base (pointing pending j) (graph p' j) ∨ (errors ≠ [] ∧ graph p' j = base));
}.

Lemma batch_update_ok sched seed ids pending backedges p :
  (Z.of_nat (length ids * pruned_degree cfg) < 2 ^ 64 - 1)%Z → NoDup ids →
  pending_ok ids pending → reversed pending backedges → graph_ok cfg (graph := graph) p →
  gm_ok (batch_update cfg debug fuel dflt R map_iter sched seed pending backedges) p
    (λ p' errors, graph_ok cfg (graph := graph) p' ∧ ∀ j, ∃ base,
       base_list p ids pending j base ∧
       (pointing pending j = [] → graph p' j = base) ∧
       (pointing pending j ≠ [] →
          added base (pointing pending j) (graph p' j) ∨ (errors ≠ [] ∧ graph p' j = base))).
Proof.
  intros Hsmall Hnd Hpend Hrev Hp. pose proof Hpend as [Hsrc Hall]. unfold batch_update.
  eapply gm_ok_bind with (Mid := λ p' _, p' = p); [by unfold gm_ok, gm_read; eexists p, _;
    split; [done|destruct (prune_accessor p)]|].
  intros p0 u ->. eapply gm_ok_bind; [apply set_neighbors_bulk_ok; [done| |done]|].
  { eapply Forall_impl; [exact Hall|]. intros pe [_ Hpe]. by eapply pruned_list_ok. }
  intros p1 [] (Hp1 & Hin & Hout).
  assert (Z.of_nat (length (map_iter backedges)) < 2 ^ 64 - 1)%Z as Hlen.
  { rewrite map_iter_perm, length_map_to_list. pose proof (reversed_size _ _ _ Hpend Hrev).
    pose proof (pending_length ids pending Hnd Hpend). nia. }
  destruct (backedge_parts_ok _ Hlen) as (parts & Hparts & Hl & Hc). fold par.
  eapply gm_ok_bind with (Mid := λ p' x, p' = p1 ∧ x = parts); [by eapply gm_ok_panic|].
  intros p2 x [-> ->]. eapply gm_ok_bind; [apply (backedge_tasks_ok _ _ (map_iter backedges)); try done|].
  { rewrite map_iter_perm. apply NoDup_fst_map_to_list. }
  intros p3 ts [Hp3 Hj]. apply gm_ok_ret. split; [done|]. intros j. exists (graph p1 j). split.
  { split; [by intros pe Hpe <-; apply Hin|]. intros Hn. left. by apply Hout. }
  pose proof (reversed_pointing pending backedges j Hsrc Hrev) as Hpt.
  destruct (Hj j) as [(b & Hb & Ha)|[Hg He]].
  - rewrite map_iter_perm in Hb. apply elem_of_map_to_list in Hb. rewrite Hb in Hpt.
    destruct Hpt as [Hperm Hne]. split; [done|]. intros _. left. by eapply added_perm.
  - split; [done|]. intros Hne. right. split; [|done]. intros Hnil.
    destruct (backedges !! j) as [b|] eqn:Eb; [|done]. apply (He Hnil).
    apply list_elem_of_fmap. exists (j, b). split; [done|]. rewrite map_iter_perm.
    by apply elem_of_map_to_list.
Qed.

Lemma stored_graph_ok p p' ids :
  graph_ok cfg (graph := graph) p → stored_graph p p' ids → graph_ok cfg (graph := graph) p'.
Proof.
  intros Hp Hs j. destruct (Hs j) as [->|[-> _]]; [apply Hp|split; [constructor|simpl; lia]].
Qed.

Lemma batch_body_ok scheds (vectors : list T) ids p p0 :
  graph_ok cfg (graph := graph) p0 → stored_graph p0 p ids → retries_fit →
  (Z.of_nat (length ids * pruned_degree cfg) < 2 ^ 64 - 1)%Z → length vectors = length ids →
  NoDup ids → (∀ x, x ∈ ids → x ∉ nodes) →
  gm_ok (batch_body cfg debug sfuel fuel dflt escalated R map_iter pooled scheds vectors ids) p
    (λ p' r, r.1.1 = ids ∧ batch_inserted p0 p' ids r.1.2 r.2).
Proof.
  intros Hp0 Hst Hfit Hsmall Hlen Hnd Hnew. unfold batch_body.
  assert (Z.of_nat (length ids) < 2 ^ 64 - 1)%Z as Hsmall'.
  { destruct (cv_pruned cfg cfg_valid). unfold pruned_degree in Hsmall. simpl in *. nia. }
  eapply gm_ok_bind with (Mid := λ p' _, graph p' = graph p).
  { apply gm_ok_lift. intros p' seed Hf. by eapply finish_law. }
  intros p1 seed Hg1. eapply gm_ok_bind; [by apply (batch_candidates_ok scheds seed vectors ids)|].
  intros p2 [[pending backedges] errors] (Hg2 & Hpend & Hrev & Hfull). simpl in *.
  assert (stored_graph p0 p2 ids) as Hst2 by (intros j; rewrite Hg2, Hg1; apply Hst).
  eapply gm_ok_bind; [apply (batch_update_ok _ _ ids); try done|].
  { by eapply stored_graph_ok. }
  intros p3 errors' [Hp3 Hj]. apply gm_ok_ret. split; [done|]. split; [done|done| |].
  - intros [He _]%app_nil. destruct Hpend as [Hsrc Hall]. simpl in Hsrc. apply submseteq_length_Permutation.
    + apply NoDup_submseteq; [done|]. intros x (pe & -> & Hpe)%list_elem_of_fmap.
      rewrite Forall_forall in Hall. by apply Hall.
    + rewrite length_fmap. simpl. by rewrite (Hfull He).
  - intros j. destruct (Hj j) as (base & [Hb1 Hb2] & Hb3 & Hb4). exists base. split_and!.
    + split; [done|]. intros Hn. destruct (Hb2 Hn) as [->|?]; [apply Hst2|by right].
    + done.
    + intros Hne. destruct (Hb4 Hne) as [?|[? ?]]; [by left|right]. split; [|done].
      simpl. by intros [_ ?]%app_nil.
Qed.

Lemma complete_all_graph (guards : list G) : ∀ p, graph (complete_all guards p) = graph p.
Proof.
  induction guards as [|g guards IH]; intros p; [done|].
  change (graph (complete_all guards (guard_complete g p)) = graph p).
  by rewrite IH, guard_complete_law.
Qed.

(** Storing a batch is independent of the schedule of its tasks: batches of different
    lengths are refused before anything is stored; otherwise it never panics, and when it
    returns, there is one guard per vector, in the order of the batch, each from storing that
    vector under that id, and only the lists of the stored ids may have changed, to empty. *)
Theorem set_elements_correct sched vectors ids p :
  (Z.of_nat (length ids) < 2 ^ 64 - 1)%Z →
  (length vectors ≠ length ids → set_elements cfg mismatch sched vectors ids p =
     Some (p, Err (mismatch (length vectors) (length ids)))) ∧
  gm_ok (set_elements cfg mismatch sched vectors ids) p (λ p' guards,
    Forall2 (stored vectors ids) (seqZ 0 (Z.of_nat (length ids))) guards ∧
    stored_graph p p' (guard_id <$> guards)).
Proof. clear fuel_enough nodes_u32 sfuel_enough.
  intros Hn. split.
  - intros Hne. unfold set_elements. by rewrite (proj2 (Nat.eqb_neq _ _) Hne).
  - eapply gm_ok_weaken; [by apply set_elements_ok|]. by intros p' guards (_ & ? & ?).
Qed.

(** C3: inserting a batch never panics, for every schedule of the tasks of its four phases.  When
    it returns, every adjacency list is free of duplicates and within the maximal degree; each
    id of the batch was assigned edges at most once, to distinct other nodes that the search
    can reach or to members of the batch, at most the pruned degree many; every list is the
    one it was (or the assigned one) plus exactly the sources of the assigned edges that lead
    to it, if that fits, and is unchanged if no edge leads to it.  If nothing was logged, every
    id was assigned edges; a list that misses its back edges implies a logged error. *)
Theorem multi_insert_correct scheds (vectors : list T) (ids : list X) p :
  graph_ok cfg (graph := graph) p → retries_fit →
  (Z.of_nat (length ids * pruned_degree cfg) < 2 ^ 64 - 1)%Z →
  (∀ p1 guards, set_elements cfg mismatch (sc_set scheds) vectors ids p = Some (p1, Ok guards) →
     NoDup (guard_id <$> guards) ∧ ∀ x, x ∈ guard_id <$> guards → x ∉ nodes) →
  gm_ok (multi_insert cfg debug sfuel fuel dflt escalated mismatch R map_iter pooled scheds vectors
           ids) p
    (λ p' r, length r.1.1 = length ids ∧ batch_inserted p p' r.1.1 r.1.2 r.2).
Proof.
  intros Hp Hfit Hsmall Hids. unfold multi_insert.
  assert (Z.of_nat (length ids) < 2 ^ 64 - 1)%Z as Hsmall'.
  { destruct (cv_pruned cfg cfg_valid). unfold pruned_degree in Hsmall. simpl in *. nia. }
  destruct (set_elements_ok (sc_set scheds) vectors ids p Hsmall') as (p1 & r & Hrun & Hr).
  unfold gm_ok, gm_bind. rewrite Hrun. cbn [mbind option_bind].
  destruct r as [guards|e]; [|by eexists _, _]. destruct Hr as (Hlen & Hst & Hg).
  destruct (Hids p1 guards Hrun) as [Hnd Hnew].
  assert (length (guard_id <$> guards) = length ids) as Hl.
  { apply Forall2_length in Hst. rewrite length_seqZ in Hst. rewrite length_fmap. lia. }
  destruct (batch_body_ok scheds vectors (guard_id <$> guards) p1 p) as (p2 & r & Hrun2 & Hr);
    [done|done|done|by rewrite Hl|by rewrite Hl|done|done|].
  rewrite Hrun2. cbn [mbind option_bind]. destruct r as [a|e]; [|by eexists _, _].
  eexists _, _. split; [done|]. destruct Hr as [-> [H1 H2 H3 H4]]. split; [done|].
  split; [|done|done|].
  - intros j. rewrite complete_all_graph. apply H1.
  - intros j. rewrite complete_all_graph. apply H4.
Qed.

End theory.

(** ** Two new points next to the path graph *)

Definition batch_config : Config :=
  mkConfig 2 3 50 ALPHA TriangleInequality 100 2 2 IbcNone true None.

#[local] Instance mem_failed : FailedAccess Z Z MemProvider unit mem_graph.
Proof. split; intros *; cbn; intros; by simplify_eq. Qed.

#[local] Instance mem_strategy : BatchProvider Z MemProvider unit Z unit := {|
  finish := λ _ _ p, (p, Ok tt);
  seeded_prune_accessor := λ _ _, Ok tt;
  prune_accessor := λ _, Ok tt;
|}.
#[local] Instance mem_strategy_laws : BatchProviderLaws Z MemProvider unit Z unit mem_graph.
Proof. split. intros ts ids p p' r Hf. cbn in Hf. by simplify_eq. Qed.

(** The second task runs first in every phase. *)
Definition demo_schedules : schedules := mkSchedules [1; 1; 0; 1] [1; 1; 0] [0; 1; 0] [1; 0; 0; 1].

Local Abbreviation demo_batch := (multi_insert (GP := mem_provider) (IP := mem_insert)
  (BP := mem_strategy) (Acc := path_accessor) batch_config true 5 500 0%Z (λ _, tt) (λ _ _, tt)
  Z.le map_to_list (λ _, None) demo_schedules [0; -1]%Z [5; 6]%Z).

Lemma batch_config_valid : config_valid batch_config.
Proof. repeat split; vm_compute; discriminate. Qed.

Local Abbreviation demo_set := (set_elements (IP := mem_insert) batch_config (λ _ _, tt)
  (sc_set demo_schedules) [0; -1]%Z [5; 6]%Z mem_path).

Lemma set_elements_correct_witness :
  ∃ p', demo_set = Some (p', Ok [5; 6]%Z) ∧
    Forall2 (stored (IP := mem_insert) [0; -1]%Z [5; 6]%Z) [0; 1]%Z [5; 6]%Z.
Proof.
  destruct (set_elements_correct (IP := mem_insert) (IL := mem_insert_laws) batch_config (λ _ _, tt)
    batch_config_valid (sc_set demo_schedules) [0; -1]%Z [5; 6]%Z mem_path
    ltac:(vm_compute; reflexivity)) as [_ (p' & r & Hrun & Hr)].
  assert (∃ p, demo_set = Some (p, Ok [5; 6]%Z)) as (p & Hrun')
    by (eexists _; vm_compute; reflexivity).
  rewrite Hrun in Hrun'. injection Hrun' as -> ->. exists p. split; [exact Hrun|exact (proj1 Hr)].
Defined.

Lemma multi_insert_correct_witness :
  ∃ p' pending, demo_batch mem_path = Some (p', Ok ([5; 6]%Z, pending, [])) ∧
    batch_inserted batch_config (graph := mem_graph) (nodes := path_nodes) mem_path p' [5; 6]%Z
      pending ([] : list unit) ∧
    mem_graph p' 5%Z = [0; 6]%Z ∧ mem_graph p' 6%Z = [5; 0]%Z ∧ mem_graph p' 0%Z = [1; 5; 6]%Z.
Proof.
  destruct (multi_insert_correct (GP := mem_provider) (IP := mem_insert) (BP := mem_strategy)
    (Acc := path_accessor) (IL := mem_insert_laws) (AL := path_laws) batch_config true 5 500 0%Z
    (λ _, tt) (λ _ _, tt) Z.le
    map_to_list ltac:(reflexivity) (λ _, None) batch_config_valid alpha_in_range_12 ltac:(lia)
    ltac:(vm_compute; reflexivity) ltac:(vm_compute; lia) demo_schedules [0; -1]%Z [5; 6]%Z mem_path)
    as (p' & r & Hrun & Hr).
  - apply mem_okb_ok. vm_compute. reflexivity.
  - split; vm_compute; [lia|reflexivity].
  - vm_compute. reflexivity.
  - intros p1 guards Hg. assert (guards = [5; 6]%Z) as ->.
    { vm_compute in Hg. by injection Hg as _ <-. }
    split; [apply (bool_decide_unpack _); vm_compute; exact Logic.I|].
    intros x Hx. rewrite path_nodes_spec. cbn in Hx. apply elem_of_cons in Hx as [->|Hx]; [lia|].
    apply list_elem_of_singleton in Hx. lia.
  - assert (∃ p pe, demo_batch mem_path = Some (p, Ok ([5; 6]%Z, pe, [])) ∧
      mem_graph p 5%Z = [0; 6]%Z ∧ mem_graph p 6%Z = [5; 0]%Z ∧ mem_graph p 0%Z = [1; 5; 6]%Z)
      as (p & pe & Hrun' & Hl) by (eexists _, _; split_and!; vm_compute; reflexivity).
    rewrite Hrun in Hrun'. injection Hrun' as -> ->. exists p, pe. split; [exact Hrun|].
    split; [exact (proj2 Hr)|exact Hl].
Defined.
