(* ===== verification/MultiDelete.v ===== *)
(** * Batched deletion

    Models [multi_inplace_delete] ([diskann/src/graph/index.rs]): chunk by chunk, the edges that
    bypass the deleted vertices are computed by one task per vertex, applied by tasks that
    share an iterator under a mutex, and the lists of the deleted vertices are dropped.

    As in [Batch], tasks run under an arbitrary schedule, one item per turn.  For the tasks that
    compute the edges this is a choice of granularity: the code may interleave the deletions
    and the reads of two such tasks more finely.

    - Section [delete]: the definitions; the loops return, for the theorems, a [ChunkLog] of
      every chunk: the edge maps that its tasks computed and the errors that they logged.
    - Section [theory]: the maps are those of the deletion of the single vertices; a chunk keeps
      the graph well formed, empties the lists of its vertices and rewrites exactly the lists
      that the edge maps name.
    - The end: two neighbors deleted in one chunk leave an edge to a deleted vertex. *)

From Stdlib Require Import SpecFloat.
From S2P Require Import Prelude F32 Neighbor NeighborQueue QueueInterface AdjacencyList Config.
From S2P Require Import Prune Search OutputBuffer Knn AsyncTools GraphUpdate InplaceDelete Insert.
From S2P Require Import MultiInsert Tasks Batch.

Local Open Scope gm_scope.

(** What happened in a chunk: its ids, the vertices they stand for, the edge maps that the tasks
    computed, and the errors that were logged. *)
Record ChunkLog (I X E : Type) `{!EqDecision I, !Countable I} := mkChunkLog {
  cl_ids : list X;
  cl_deleted : gset I;
  cl_maps : list (gmap I (list I));
  cl_errors : list E;
}.
Arguments mkChunkLog {I X E _ _}.
Arguments cl_ids {I X E _ _}.
Arguments cl_deleted {I X E _ _}.
Arguments cl_maps {I X E _ _}.
Arguments cl_errors {I X E _ _}.

Section delete.
Context {I V P E A T X : Type} `{!EqDecision I, !Countable I, !ContainsSimd I, !UnstableSort I}.
Context `{GP : !GraphProvider I V P E} `{DP : !DeleteProvider I P E A T X}.
Context `{Acc : !SearchAccessor I A E}.
Variables (cfg : Config) (debug : bool) (sfuel fuel : nat) (dflt : I).
Variable (hash_iter : gset I → list I).
Variable (is_transient : E → bool).
Variable (processor : PostProcess (I := I) (A := A) (E := E) (B := BackInserter I)).
(** [PruneStrategy::prune_accessor] *)
Variable (prune_access : P → result E unit).
Variable (pooled : X → option (SearchScratch I (NeighborPriorityQueue I))).
Variables (num_to_replace : nat) (method : InplaceDeleteMethod).

Let par : nat := Z.to_nat (c_max_minibatch_par cfg).

(** The internal ids of a chunk. *)
Fixpoint internal_ids (p : P) (ids : list X) (set : gset I) : result E (gset I) :=
  match ids with
  | [] => Ok set
  | id :: ids =>
      match to_internal_id p id with
      | Err e => Err e
      | Ok vector_id => internal_ids p ids ({[ vector_id ]} ∪ set)
      end
  end.

(** A task that computes the edges for one id. *)
Definition delete_item (id : X) (_ : unit) : GM P E (unit * gmap I (list I)) :=
  do edges <- inplace_delete_inner cfg debug sfuel dflt hash_iter is_transient processor
                (pooled id) id num_to_replace method;
  gm_ret (tt, edges).

(** The edges to add to [source], from all maps. *)
Definition edges_for (edge_hashmaps : list (gmap I (list I))) (source : I) : list I :=
  mjoin (omap (λ m, m !! source) edge_hashmaps).

(** The loop body of a task that applies edges; the accessor that the code also creates when
    the iterator is exhausted is left out. *)
Definition modify_item (ids_to_delete : gset I) (edge_hashmaps : list (gmap I (list I)))
    (source : I) (_ : unit) : GM P E (unit * unit) :=
  do _ <- gm_read prune_access;
  do _ <- add_edge_and_prune cfg debug fuel dflt (edges_for edge_hashmaps source) source
            prune_scratch_new (Some ids_to_delete);
  gm_ret (tt, tt).

Fixpoint drop_adj_lists (ids : list I) : GM P E unit :=
  match ids with
  | [] => gm_ret tt
  | id :: ids => do _ <- drop_adj_list id; drop_adj_lists ids
  end.

(** One iteration over the chunks; the schedules are those of the two groups of tasks. *)
Definition delete_chunk (scheds : list nat * list nat) (ids : list X) :
    GM P E (ChunkLog I X E) :=
  do ids_to_delete <- gm_read (λ p, internal_ids p ids ∅);
  do ts <- gm_join (gm_ret tt) delete_item (length ids) scheds.1 ((λ id, [id]) <$> ids);
  let edge_hashmaps := tasks_out ts in
  let ids_to_modify := ⋃ (dom <$> edge_hashmaps) in
  let num_tasks := match size ids_to_modify with 0 => par | n => Nat.min n par end in
  do ts' <- gm_join (gm_ret tt) (modify_item ids_to_delete edge_hashmaps) num_tasks scheds.2
              (hash_iter ids_to_modify);
  do _ <- gm_read prune_access;
  do _ <- drop_adj_lists (hash_iter ids_to_delete);
  gm_ret (mkChunkLog ids ids_to_delete edge_hashmaps (task_errors ts ++ task_errors ts')).

Fixpoint delete_chunks (scheds : nat → list nat * list nat) (k : nat)
    (chunks : list (Chunks.ArcChunk X)) : GM P E (list (ChunkLog I X E)) :=
  match chunks with
  | [] => gm_ret []
  | chunk :: chunks =>
      do ids <- gm_panic (Chunks.get_chunk chunk);
      do log <- delete_chunk (scheds k) ids;
      do logs <- delete_chunks scheds (S k) chunks;
      gm_ret (log :: logs)
  end.

Definition multi_inplace_delete_log (scheds : nat → list nat * list nat) (ids : list X) :
    GM P E (list (ChunkLog I X E)) :=
  do chunks <- gm_panic (Chunks.arc_chunks ids (c_max_minibatch_par cfg));
  delete_chunks scheds 0 chunks.

(** [DiskANNIndex::multi_inplace_delete]; the logs are for the theorems. *)
Definition multi_inplace_delete (scheds : nat → list nat * list nat) (ids : list X) : GM P E unit :=
  do _ <- multi_inplace_delete_log scheds ids;
  gm_ret tt.

End delete.

(** Deleting an element does not touch the graph, whatever the outcome. *)
Class DeleteKeepsGraph (I P E A T X : Type) `{DeleteProvider I P E A T X}
    (graph : P → I → list I) := {
  delete_keeps : ∀ x p p' r, delete_element x p = (p', r) → graph p' = graph p;
}.

Section keeps.
Context {I V P E A T X : Type} `{!EqDecision I, !Countable I, !ContainsSimd I, !UnstableSort I}.
Context `{GP : !GraphProvider I V P E} `{DP : !DeleteProvider I P E A T X}.
Context `{Acc : !SearchAccessor I A E}.
Variables (cfg : Config) (debug : bool) (sfuel : nat) (dflt : I).
Variable (hash_iter : gset I → list I).
Variable (is_transient : E → bool).
Variable (processor : PostProcess (I := I) (A := A) (E := E) (B := BackInserter I)).
Context {graph : P → I → list I}.
Context `{GL : !GraphProviderLaws I V P E graph (Z.to_nat (c_max_degree cfg))}.
Context `{DL : !DeleteProviderLaws I V P E A T X graph}.
Context `{FL : !FailedAccess I V P E graph} `{DK : !DeleteKeepsGraph I P E A T X graph}.
Variable (g : I → list I).
Let same (p : P) : Prop := graph p = g.

Lemma on_neighbors_keeps id : gm_keeps same (on_neighbors id).
Proof. unfold on_neighbors. pose proof (get_keeps cfg g). gm_walk. Qed.

Lemma return_refs_keeps vid cands : gm_keeps same (return_refs_to_deleted_vertex vid cands).
Proof.
  pose proof (get_keeps cfg g).
  induction cands as [|c cands IH]; cbn [return_refs_to_deleted_vertex]; gm_walk.
Qed.

Lemma two_hop_keeps nbhs : ∀ set, gm_keeps same (two_hop nbhs set).
Proof.
  pose proof (get_keeps cfg g). pose proof on_neighbors_keeps.
  induction nbhs as [|n nbhs IH]; intros set; cbn [two_hop]; gm_walk.
Qed.

Lemma keep_undeleted_keeps nodes : gm_keeps same (keep_undeleted is_transient nodes).
Proof. induction nodes as [|n nodes IH]; cbn [keep_undeleted]; gm_walk. Qed.

(** Computing the edges of a deletion leaves the graph as it is, also when it fails. *)
Lemma inner_keeps pooled (x : X) num m :
  gm_keeps same (inplace_delete_inner cfg debug sfuel dflt hash_iter is_transient processor pooled
                   x num m).
Proof.
  pose proof (get_keeps cfg g). pose proof (fill_keeps cfg g). pose proof on_neighbors_keeps.
  pose proof return_refs_keeps. pose proof two_hop_keeps. pose proof keep_undeleted_keeps.
  assert (gm_keeps same (gm_lift (delete_element x))).
  { apply keeps_lift. intros p p' r Hp Hd. unfold same. by rewrite (delete_keeps x p p' r Hd). }
  assert (∀ i, gm_keeps same (gm_lift (get_delete_element i))).
  { intros i. apply keeps_lift. intros p p' r Hp Hd. apply get_element_law in Hd as [Hd _].
    unfold same. by rewrite Hd. }
  unfold inplace_delete_inner, get_candidates_using_visited_and_topk,
    get_candidates_using_twohop_and_onehop, get_candidates_using_onehop, get_undeleted_neighbors.
  gm_walk.
Qed.

End keeps.

Section theory.
Context {I V P E A T X : Type} `{!EqDecision I, !Countable I, !ContainsSimd I, !UnstableSort I}.
Context `{GP : !GraphProvider I V P E} `{DP : !DeleteProvider I P E A T X}.
Context `{Acc : !SearchAccessor I A E}.
Variables (cfg : Config) (debug : bool) (sfuel fuel : nat) (dflt : I).
Variable (hash_iter : gset I → list I).
Hypothesis hash_iter_perm : ∀ s, hash_iter s ≡ₚ elements s.
Variable (is_transient : E → bool).
Variable (processor : PostProcess (I := I) (A := A) (E := E) (B := BackInserter I)).
Variable (prune_access : P → result E unit).
Variable (pooled : X → option (SearchScratch I (NeighborPriorityQueue I))).
Variables (num_to_replace : nat) (method : InplaceDeleteMethod).
Context {graph : P → I → list I}.
Context `{GL : !GraphProviderLaws I V P E graph (Z.to_nat (c_max_degree cfg))}.
Context `{DL : !DeleteProviderLaws I V P E A T X graph}.
Context `{FL : !FailedAccess I V P E graph} `{DK : !DeleteKeepsGraph I P E A T X graph}.
Context {distance : I → f32} {adj : I → list I} {nodes : gset I} {starts : list I}.
Context `{AL : !SearchAccessorLaws I A E distance adj nodes starts}.
Hypothesis cfg_valid : config_valid cfg.
Hypothesis cfg_alpha : alpha_in_range (c_alpha cfg).
Hypothesis fuel_enough : 490 < fuel.
Hypothesis nodes_u32 : (Z.of_nat (size nodes) < 2 ^ 32)%Z.
Hypothesis sfuel_enough : size nodes ≤ sfuel.
Hypothesis method_fits : ∀ vid, method_ok (starts := starts) processor method vid.

(** The list [new] after the edges to [del] were removed from [old] and [adds] were added. *)
Definition rewritten (del : gset I) (old adds new : list I) : Prop :=
  (∀ x, x ∈ new → (x ∈ old ∧ x ∉ del) ∨ x ∈ adds) ∧
  (length old + length adds ≤ max_degree cfg → ∀ x, (x ∈ old ∧ x ∉ del) ∨ x ∈ adds → x ∈ new).

Lemma edge_outcome_rewritten source del old adds new :
  NoDup old → edge_outcome cfg source old adds (Some del) al_new new → rewritten del old adds new.
Proof.
  intros Hnd Hout.
  destruct (edge_list_ok old adds (Some del) Hnd) as (_ & _ & _ & Hnd' & Hin).
  assert (∀ x, x ∈ edge_list old adds (Some del) ↔ (x ∈ old ∧ x ∉ del) ∨ x ∈ adds) as Hin'.
  { intros x. rewrite Hin. simpl. by rewrite bool_decide_eq_false. }
  assert (length (edge_list old adds (Some del)) ≤ length old + length adds) as Hle.
  { rewrite <-length_app. apply submseteq_length, NoDup_submseteq; [done|].
    intros x [[? _]|?]%Hin'; apply elem_of_app; auto. }
  destruct Hout as [[_ ->]|[Hgt [Hpl| ->]]]; split.
  - intros x. apply Hin'.
  - intros _ x. apply Hin'.
  - intros x Hx. by apply Hin', (pl_from _ _ _ _ Hpl).
  - lia.
  - by intros x ?%elem_of_nil.
  - lia.
Qed.

(** *** Computing the edges *)

(** The map [m] is what the deletion of [x] alone computes, on the graph of [p]: no list gets an
    edge to the vertex of [x], and the living vertices with edges from and to it are named. *)
Definition edges_of (p : P) (x : X) (m : gmap I (list I)) : Prop :=
  ∃ p1 p2 vid, graph p1 = graph p ∧ to_internal_id p1 x = Ok vid ∧
    inplace_delete_inner cfg debug sfuel dflt hash_iter is_transient processor (pooled x) x
      num_to_replace method p1 = Some (p2, Ok m) ∧
    avoids vid m ∧
    (is_search method = false → fill_complete (GP := GP) → ∀ j, j ≠ vid → j ∈ graph p vid →
       dead p1 j = false → vid ∈ graph p j → is_Some (m !! j)).

Lemma inner_total (x : X) p :
  gm_ok (inplace_delete_inner cfg debug sfuel dflt hash_iter is_transient processor (pooled x) x
           num_to_replace method) p (λ p' m, graph p' = graph p ∧ edges_of p x m).
Proof.
  destruct (to_internal_id p x) as [vid|e] eqn:Eid.
  - destruct (inner_ok cfg debug sfuel fuel dflt fuel_enough nodes_u32 sfuel_enough hash_iter
      hash_iter_perm is_transient processor (pooled x) x num_to_replace method p vid Eid
      (method_fits vid)) as (p' & r & Hrun & Hr).
    exists p', r. split; [exact Hrun|]. destruct r as [m|]; [|done].
    destruct Hr as (Hg & Hav & Hc). split; [exact Hg|]. by exists p, p', vid.
  - exists p, (Err e). split; [|done]. unfold inplace_delete_inner, gm_bind, gm_get.
    cbn [mbind option_bind]. by rewrite Eid.
Qed.

Definition delete_inv (p : P) (dn : list (X * gmap I (list I))) (_ : list X) (p' : P) : Prop :=
  graph p' = graph p ∧ ∀ x m, (x, m) ∈ dn → edges_of p x m.

Lemma delete_item_ok p x s dn lost p1 :
  delete_inv p dn lost p1 →
  ∃ p2 r, delete_item cfg debug sfuel dflt hash_iter is_transient processor pooled num_to_replace
      method x s p1 = Some (p2, r) ∧
    match r with
    | Ok (_, m) => delete_inv p ((x, m) :: dn) lost p2
    | Err _ => delete_inv p dn (x :: lost) p2
    end.
Proof.
  intros [Hp1 Hdn]. unfold delete_item.
  destruct (gm_ok_fails (λ p', graph p' = graph p) (do edges <- inplace_delete_inner cfg debug sfuel
    dflt hash_iter is_transient processor (pooled x) x num_to_replace method; gm_ret (tt, edges)) p1
    (λ p' r, graph p' = graph p ∧ edges_of p x r.2)) as (p2 & r & Hrun & Hr); [| |done|].
  - eapply gm_ok_bind; [apply inner_total|]. intros p2 edges [Hg He]. apply gm_ok_ret.
    split; [by rewrite Hg|]. unfold edges_of in *. by rewrite Hp1 in He.
  - apply keeps_fails, keeps_bind; [by eapply inner_keeps|]. intros. apply keeps_ret.
  - exists p2, r. split; [exact Hrun|]. destruct r as [[[] m]|]; [|by split].
    destruct Hr as [Hg He]. split; [done|].
    intros y m' [Heq|Hy]%elem_of_cons; [by simplify_eq|by apply Hdn].
Qed.

(** The maps of a chunk: one per task that did not fail, computed for its id. *)
Definition maps_computed (p : P) (ids : list X) (maps : list (gmap I (list I))) (errors : list E) :
    Prop :=
  ∃ dn : list (X * gmap I (list I)), dn.*2 ≡ₚ maps ∧ dn.*1 ⊆+ ids ∧
    (errors = [] → dn.*1 ≡ₚ ids) ∧ ∀ x m, (x, m) ∈ dn → edges_of p x m.

Lemma delete_tasks_ok sched (ids : list X) p :
  gm_ok (gm_join (gm_ret tt) (delete_item cfg debug sfuel dflt hash_iter is_transient processor
           pooled num_to_replace method) (length ids) sched ((λ id, [id]) <$> ids)) p
    (λ p' ts, graph p' = graph p ∧ maps_computed p ids (tasks_out ts) (task_errors ts)).
Proof.
  assert (concat ((λ id, [id]) <$> ids) = ids) as Hids.
  { induction ids as [|y ids IH]; [done|]. rewrite fmap_cons. simpl. by rewrite IH. }
  eapply gm_ok_weaken; [apply (gm_join_ok _ _ _ _ _ (λ _, True) (delete_inv p))|].
  - simpl. by rewrite length_fmap.
  - split; [done|]. by intros x m ?%elem_of_nil.
  - intros dn lost p1 Hp1. by exists p1, (Ok tt).
  - intros x s dn lost p1 _ _ Hp1.
    destruct (delete_item_ok p x s dn lost p1 Hp1) as (p2 & r & Hrun & Hr).
    exists p2, r. split; [exact Hrun|]. by destruct r as [[? ?]|].
  - intros p' ts (q & dn & lost & hs & Hinv & Hend).
    destruct (ti_inv _ _ _ _ _ _ _ _ _ Hinv) as [Hg Hdn]. split; [done|].
    pose proof (ti_items _ _ _ _ _ _ _ _ _ Hinv) as Hit.
    pose proof (ti_out _ _ _ _ _ _ _ _ _ Hinv) as Hout.
    pose proof (ti_done _ _ _ _ _ _ _ _ _ Hinv) as Hperm.
    exists dn. split_and!; [cbn [snd] in Hout; by rewrite Hout, Hperm| | |done].
    + simpl in Hit. rewrite Hids in Hit. rewrite <-Hit. by apply submseteq_inserts_r.
    + intros He.
      destruct (joined_all _ _ _ _ _ _ _ _ _ _ Hinv Hend (task_errors_nil ts He)) as (Hd & _).
      simpl in Hd. by rewrite Hids in Hd.
Qed.

(** *** Applying the edges *)

Definition modify_inv (g : I → list I) (del : gset I) (maps : list (gmap I (list I)))
    (dn : list (I * unit)) (lost : list I) (p : P) : Prop :=
  graph_ok cfg (graph := graph) p ∧
  ∀ j, (j ∈ dn.*1 ∧ rewritten del (g j) (edges_for maps j) (graph p j)) ∨
       (graph p j = g j ∧ j ∉ dn.*1).

Lemma modify_item_ok g del maps x s dn lost p :
  x ∉ dn.*1 → modify_inv g del maps dn lost p →
  ∃ p' r, modify_item cfg debug fuel dflt prune_access del maps x s p = Some (p', r) ∧
    match r with
    | Ok (_, o) => modify_inv g del maps ((x, o) :: dn) lost p'
    | Err _ => modify_inv g del maps dn (x :: lost) p'
    end.
Proof.
  intros Hx [Hp Hj]. unfold modify_item.
  set (m := add_edge_and_prune _ _ _ _ _ _ _ _).
  destruct (gm_ok_fails (λ p', graph p' = graph p)
    (do _ <- gm_read prune_access; do _ <- m; gm_ret (tt, tt)) p
    (λ p' _, graph_ok cfg (graph := graph) p' ∧ (∀ j, j ≠ x → graph p' j = graph p j) ∧
       rewritten del (graph p x) (edges_for maps x) (graph p' x)))
    as (p' & r & Hrun & Hr); [| |done|].
  - eapply gm_ok_bind with (Mid := λ p' _, p' = p).
    { eexists p, _. split; [done|]. by destruct (prune_access p). }
    intros p0 u ->. eapply gm_ok_bind; [apply add_edge_ok; [done..|split; [constructor|simpl; lia]]|].
    intros p1 s1 (? & _ & ? & Hout & _). apply gm_ok_ret. split_and!; [done..|].
    by apply edge_outcome_rewritten in Hout; [|apply Hp].
  - apply fails_bind; [apply keeps_read|]. intros _.
    apply (fails_last _ m (λ _, (tt, tt))). by apply add_edge_fails.
  - exists p', r. split; [exact Hrun|]. destruct r as [[s' o]|e].
    + destruct Hr as (Hp' & Hoth & Hw). split; [done|]. intros j. rewrite fmap_cons. simpl.
      destruct (decide (j = x)) as [->|Hne].
      * left. split; [by left|]. by destruct (Hj x) as [[? _]|[<- _]].
      * rewrite Hoth by done. destruct (Hj j) as [[? ?]|[? ?]].
        -- left. split; [by right|done].
        -- right. split; [done|]. by apply not_elem_of_cons.
    + split; [intros i; rewrite Hr; apply Hp|]. intros j. rewrite Hr. apply Hj.
Qed.

Lemma modify_tasks_ok sched n del maps (todo : gset I) p :
  0 < n → graph_ok cfg (graph := graph) p →
  gm_ok (gm_join (gm_ret tt) (modify_item cfg debug fuel dflt prune_access del maps) n sched
           (hash_iter todo)) p
    (λ p' ts, graph_ok cfg (graph := graph) p' ∧
       ∀ j, (j ∈ todo ∧ rewritten del (graph p j) (edges_for maps j) (graph p' j)) ∨
            (graph p' j = graph p j ∧ (task_errors ts = [] → j ∉ todo))).
Proof.
  intros Hn Hp. eapply gm_ok_weaken;
    [apply (gm_join_ok _ _ _ _ _ (λ _, True) (modify_inv (graph p) del maps))|].
  - by split.
  - split; [done|]. intros j. right. split; [done|apply not_elem_of_nil].
  - intros dn lost p1 Hp1. by exists p1, (Ok tt).
  - intros x s dn lost p1 Hsub _ Hinv. simpl in Hsub.
    assert (x ∉ dn.*1) as Hx.
    { rewrite hash_iter_perm in Hsub. apply submseteq_Permutation in Hsub as [k Hk].
      pose proof (NoDup_elements todo) as Hnd. rewrite Hk in Hnd. simpl in Hnd.
      apply NoDup_cons in Hnd as [Hx _]. rewrite !elem_of_app in Hx. tauto. }
    destruct (modify_item_ok (graph p) del maps x s dn lost p1 Hx Hinv) as (p2 & r & Hrun & Hr).
    exists p2, r. split; [done|]. by destruct r as [[? ?]|].
  - intros p' ts (q & dn & lost & hs & Hinv & Hend).
    pose proof (ti_items _ _ _ _ _ _ _ _ _ Hinv) as Hit. simpl in Hit.
    destruct (ti_inv _ _ _ _ _ _ _ _ _ Hinv) as [Hp' Hj]. split; [done|]. intros j.
    destruct (Hj j) as [[Hb Ha]|[Hg Hnot]].
    + left. split; [|done]. apply elem_of_elements. rewrite <-hash_iter_perm, <-Hit.
      apply elem_of_app. by left.
    + right. split; [done|]. intros He.
      destruct (joined_all _ _ _ _ _ _ _ _ _ _ Hinv Hend (task_errors_nil ts He)) as (Hd & _).
      simpl in Hd. by rewrite <-elem_of_elements, <-hash_iter_perm, <-Hd.
Qed.

Lemma drop_adj_lists_ok ids : ∀ p,
  graph_ok cfg (graph := graph) p →
  gm_ok (drop_adj_lists ids) p (λ p' _, graph_ok cfg (graph := graph) p' ∧
    (∀ j, j ∈ ids → graph p' j = []) ∧ (∀ j, j ∉ ids → graph p' j = graph p j)).
Proof.
  induction ids as [|i ids IH]; intros p Hp; cbn [drop_adj_lists].
  { apply gm_ok_ret. split_and!; [done|by intros j ?%elem_of_nil|done]. }
  eapply gm_ok_bind with (Mid := λ p' _, graph_ok cfg (graph := graph) p' ∧ graph p' i = [] ∧
    ∀ j, j ≠ i → graph p' j = graph p j).
  { unfold drop_adj_list. apply (set_neighbors_ok cfg); [done|split; [constructor|simpl; lia]|done]. }
  intros p1 [] (Hp1 & Hi & Hoth). eapply gm_ok_weaken; [by apply IH|].
  intros p' [] (Hp' & Hin & Hout). split_and!; [done| |].
  - intros j Hj. destruct (decide (j ∈ ids)) as [?|Hn]; [by apply Hin|].
    apply elem_of_cons in Hj as [->|?]; [|done]. by rewrite Hout.
  - intros j [Hne Hj]%not_elem_of_cons. by rewrite Hout, Hoth.
Qed.

(** *** A chunk *)

(** The graph after the vertices [del] were deleted with the edge maps [maps]. *)
Record chunk_deleted (p p' : P) (del : gset I) (maps : list (gmap I (list I)))
    (errors : list E) : Prop := {
  cd_graph : graph_ok cfg (graph := graph) p';
  cd_dropped : ∀ v, v ∈ del → graph p' v = [];
  cd_same : ∀ j, j ∉ del → (∀ m, m ∈ maps → m !! j = None) → graph p' j = graph p j;
  cd_rewritten : ∀ j m, j ∉ del → m ∈ maps → is_Some (m !! j) →
    rewritten del (graph p j) (edges_for maps j) (graph p' j) ∨
    (errors ≠ [] ∧ graph p' j = graph p j);
}.

Lemma maps_computed_weaken p ids maps errors errors' :
  maps_computed p ids maps errors → maps_computed p ids maps (errors ++ errors').
Proof.
  intros (dn & Hm & Hs & Hall & Hdn). exists dn. split_and!; [done..| |done].
  intros [He _]%app_nil. by apply Hall.
Qed.

(** The step that a log records: its vertices are those of its ids, its maps are those of
    the single deletions, and the graph is changed as its maps say. *)
Record chunk_step (p : P) (log : ChunkLog I X E) (p' : P) : Prop := {
  cs_internal : internal_ids p (cl_ids log) ∅ = Ok (cl_deleted log);
  cs_maps : maps_computed p (cl_ids log) (cl_maps log) (cl_errors log);
  cs_deleted : chunk_deleted p p' (cl_deleted log) (cl_maps log) (cl_errors log);
}.

Inductive batch_deleted : P → list (ChunkLog I X E) → P → Prop :=
  | batch_nil p : batch_deleted p [] p
  | batch_cons p log p1 logs p' :
      chunk_step p log p1 → batch_deleted p1 logs p' → batch_deleted p (log :: logs) p'.

Lemma delete_chunk_ok scheds ids p :
  graph_ok cfg (graph := graph) p →
  gm_ok (delete_chunk cfg debug sfuel fuel dflt hash_iter is_transient processor prune_access pooled
           num_to_replace method scheds ids) p
    (λ p' log, cl_ids log = ids ∧ chunk_step p log p').
Proof.
  intros Hp. unfold delete_chunk.
  eapply gm_ok_bind with (Mid := λ p' del, p' = p ∧ internal_ids p ids ∅ = Ok del).
  { eexists p, _. split; [done|]. by destruct (internal_ids p ids ∅). }
  intros p0 del [-> Hdel]. eapply gm_ok_bind; [apply delete_tasks_ok|]. intros p1 ts [Hg1 Hmaps].
  set (maps := tasks_out ts). set (todo := ⋃ (dom <$> maps)). cbv zeta.
  assert (∀ j, j ∈ todo ↔ ∃ m, m ∈ maps ∧ is_Some (m !! j)) as Htodo.
  { intros j. unfold todo. rewrite elem_of_union_list. split.
    - intros (s & (m & -> & Hm)%list_elem_of_fmap & Hj%elem_of_dom). eauto.
    - intros (m & Hm & Hj). exists (dom m). split; [by apply list_elem_of_fmap_2|].
      by apply elem_of_dom. }
  assert (0 < match size todo with 0 => Z.to_nat (c_max_minibatch_par cfg)
              | S _ as n => Nat.min n (Z.to_nat (c_max_minibatch_par cfg)) end) as Hn.
  { pose proof (par_pos cfg cfg_valid). destruct (size todo); lia. }
  eapply gm_ok_bind; [apply modify_tasks_ok; [exact Hn|]|].
  { intros i. rewrite Hg1. apply Hp. }
  intros p2 ts' [Hp2 Hj].
  eapply gm_ok_bind with (Mid := λ p' _, p' = p2).
  { eexists p2, _. split; [done|]. by destruct (prune_access p2). }
  intros p3 u ->. eapply gm_ok_bind; [by apply drop_adj_lists_ok|].
  intros p' [] (Hp' & Hin & Hout). apply gm_ok_ret. split; [done|].
  split; [done|by apply maps_computed_weaken|].
  assert (∀ j, j ∉ del → graph p' j = graph p2 j) as Hout'.
  { intros j Hnd. apply Hout. by rewrite hash_iter_perm, elem_of_elements. }
  split; [done| | |].
  - intros v Hv. apply Hin. by rewrite hash_iter_perm, elem_of_elements.
  - intros j Hnd Hm. rewrite Hout' by done. rewrite Hg1 in Hj.
    destruct (Hj j) as [[(m & Hmm & [l Hl])%Htodo _]|[? _]]; [|done]. by rewrite (Hm m Hmm) in Hl.
  - intros j m Hnd Hmm Hm. rewrite Hout' by done. rewrite Hg1 in Hj.
    destruct (Hj j) as [[_ ?]|[? Hn']]; [by left|right]. split; [|done].
    intros [_ He]%app_nil. apply (Hn' He), Htodo. eauto.
Qed.

Lemma delete_chunks_ok scheds chunks : ∀ ls k p,
  mapM Chunks.get_chunk chunks = Some ls → graph_ok cfg (graph := graph) p →
  gm_ok (delete_chunks cfg debug sfuel fuel dflt hash_iter is_transient processor prune_access pooled
           num_to_replace method scheds k chunks) p
    (λ p' logs, graph_ok cfg (graph := graph) p' ∧ cl_ids <$> logs = ls ∧ batch_deleted p logs p').
Proof.
  induction chunks as [|c chunks IH]; intros ls k p Hls Hp; cbn [delete_chunks].
  { apply gm_ok_ret. injection Hls as <-. split_and!; [exact Hp|done|constructor]. }
  cbn [mapM] in Hls. destruct (Chunks.get_chunk c) as [l|] eqn:El; [|done].
  cbn [mbind option_bind] in Hls. destruct (mapM Chunks.get_chunk chunks) as [ls'|] eqn:Els; [|done].
  cbn [mbind option_bind] in Hls. injection Hls as <-.
  eapply gm_ok_bind with (Mid := λ p' x, p' = p ∧ x = l); [by eapply gm_ok_panic|].
  intros p0 x [-> ->]. eapply gm_ok_bind; [by apply delete_chunk_ok|].
  intros p1 log [Hids Hcs]. eapply gm_ok_bind; [eapply IH; [done|apply Hcs]|].
  intros p' logs (Hp' & Hl & Hb). apply gm_ok_ret. split_and!; [done| |by econstructor].
  by rewrite fmap_cons, Hids, Hl.
Qed.

(** C13: deleting a batch in place never panics, for every schedule of its tasks, and keeps every
    adjacency list free of duplicates and within the maximal degree.  When it returns, the batch
    was cut into chunks and the graph went from chunk to chunk as the log of each one tells.
    The edge maps of a chunk are those that the deletion of the single vertices computes on the
    graph before the chunk, one for every id whose task did not fail; no map has an edge to its
    own vertex, and with the one-hop and two-hop methods, if all vectors can be read, it names
    all living vertices that have an edge from and to its vertex.  After the chunk the lists of
    all its vertices are empty; a list that no edge map names is unchanged; a list that one
    names keeps no edge to a deleted vertex except those in the maps themselves, and holds all
    surviving and all new edges if they fit, unless an error was logged and it is unchanged. *)
Theorem multi_inplace_delete_correct scheds (ids : list X) p :
  (Z.of_nat (length ids) < 2 ^ 63)%Z → graph_ok cfg (graph := graph) p →
  gm_ok (multi_inplace_delete cfg debug sfuel fuel dflt hash_iter is_transient processor prune_access
           pooled num_to_replace method scheds ids) p
    (λ p' _, graph_ok cfg (graph := graph) p' ∧
       ∃ logs, multi_inplace_delete_log cfg debug sfuel fuel dflt hash_iter is_transient processor
                 prune_access pooled num_to_replace method scheds ids p = Some (p', Ok logs) ∧
         concat (cl_ids <$> logs) = ids ∧
         Forall (λ l, 0 < length (cl_ids l) ≤ Z.to_nat (c_max_minibatch_par cfg)) logs ∧
         batch_deleted p logs p').
Proof.
  intros Hlen Hp. pose proof (par_pos cfg cfg_valid) as Hpar. unfold multi_inplace_delete.
  destruct (Chunks.arc_chunks_ok ids (Z.to_nat (c_max_minibatch_par cfg)))
    as (chunks & ls & Hrun & Hls & Hc & Hall & _); [lia|lia|done|].
  rewrite Z2Nat.id in Hrun by lia.
  assert (gm_ok (multi_inplace_delete_log cfg debug sfuel fuel dflt hash_iter is_transient processor
    prune_access pooled num_to_replace method scheds ids) p (λ p' logs,
      graph_ok cfg (graph := graph) p' ∧ cl_ids <$> logs = ls ∧ batch_deleted p logs p'))
    as (p' & r & Hlog & Hr).
  { unfold multi_inplace_delete_log.
    eapply gm_ok_bind with (Mid := λ p' x, p' = p ∧ x = chunks); [by eapply gm_ok_panic|].
    intros p0 x [-> ->]. by apply delete_chunks_ok. }
  destruct r as [logs|e]; [|exists p', (Err e); split; [|done]; unfold gm_bind; by rewrite Hlog].
  exists p', (Ok tt). split; [unfold gm_bind; by rewrite Hlog|].
  destruct Hr as (Hp' & Hl & Hb). split; [done|]. exists logs. rewrite Hl. split_and!; [done..| |done].
  rewrite <-Hl, Forall_fmap in Hall. eapply Forall_impl; [exact Hall|]. intros l [Hne Hle].
  split; [|exact Hle]. destruct (cl_ids l); [done|simpl; lia].
Qed.

End theory.

(** ** Two neighbors deleted together *)

#[local] Existing Instance mem_delete.
#[local] Instance mem_delete_keeps : DeleteKeepsGraph Z MemProvider unit unit Z Z mem_graph.
Proof. split. intros x p p' r Hd. cbn in Hd. by simplify_eq. Qed.

Definition demo_order : nat → list nat * list nat := λ _, ([], []).

Local Abbreviation demo_multi_delete := (multi_inplace_delete (GP := mem_provider)
  (DP := mem_delete) (Acc := path_accessor) batch_config true 5 500 0%Z elements (λ _, true)
  (λ a _ out, Some (a, out, Ok 0)) (λ _, Ok tt) (λ _, None) 2 OneHop demo_order).

#[local] Instance strict_failed :
  FailedAccess Z Z MemProvider unit (H := strict_provider) mem_graph.
Proof. split; intros *; cbn; intros; by simplify_eq. Qed.

Local Abbreviation strict_multi_delete := (multi_inplace_delete (GP := strict_provider)
  (DP := mem_delete) (Acc := path_accessor) batch_config true 5 500 0%Z elements (λ _, true)
  (λ a _ out, Some (a, out, Ok 0)) (λ _, Ok tt) (λ _, None) 2 OneHop demo_order).

Local Abbreviation strict_log := (multi_inplace_delete_log (GP := strict_provider)
  (DP := mem_delete) (Acc := path_accessor) batch_config true 5 500 0%Z elements (λ _, true)
  (λ a _ out, Some (a, out, Ok 0)) (λ _, Ok tt) (λ _, None) 2 OneHop demo_order).

(** Three vertices in two chunks, with a provider that reads all vectors. *)
Lemma multi_inplace_delete_correct_witness :
  ∃ p' logs, strict_multi_delete [1; 3; 4]%Z mem_path = Some (p', Ok tt) ∧
    strict_log [1; 3; 4]%Z mem_path = Some (p', Ok logs) ∧
    cl_ids <$> logs = [[1; 3]; [4]]%Z ∧ cl_errors <$> logs = [[]; []] ∧
    mem_graph p' 0%Z = [2]%Z ∧ mem_graph p' 2%Z = [0]%Z ∧
    batch_deleted (GP := strict_provider) (DP := mem_delete) (Acc := path_accessor) batch_config
      true 5 0%Z elements (λ _, true) (λ a _ out, Some (a, out, Ok 0)) (λ _, None) 2 OneHop
      (graph := mem_graph) mem_path logs p'.
Proof.
  destruct (multi_inplace_delete_correct (GP := strict_provider) (DP := mem_delete)
    (Acc := path_accessor) (GL := strict_laws _) (DL := strict_delete_laws) (FL := strict_failed)
    (AL := path_laws) batch_config
    true 5 500 0%Z elements ltac:(reflexivity) (λ _, true) (λ a _ out, Some (a, out, Ok 0))
    (λ _, Ok tt) (λ _, None) 2 OneHop batch_config_valid alpha_in_range_12 ltac:(lia)
    ltac:(vm_compute; reflexivity) ltac:(vm_compute; lia) ltac:(done) demo_order [1; 3; 4]%Z mem_path)
    as (p' & r & Hrun & Hr); [vm_compute; reflexivity|apply mem_okb_ok; vm_compute; reflexivity|].
  assert (∃ p logs, strict_multi_delete [1; 3; 4]%Z mem_path = Some (p, Ok tt) ∧
    strict_log [1; 3; 4]%Z mem_path = Some (p, Ok logs) ∧ cl_ids <$> logs = [[1; 3]; [4]]%Z ∧
    cl_errors <$> logs = [[]; []] ∧ mem_graph p 0%Z = [2]%Z ∧ mem_graph p 2%Z = [0]%Z)
    as (p & logs & Hrun' & Hlog & Hrest)
    by (eexists _, _; split_and!; vm_compute; reflexivity).
  rewrite Hrun in Hrun'. injection Hrun' as -> ->.
  destruct Hr as (_ & logs' & Hlog' & _ & _ & Hb). rewrite Hlog in Hlog'. injection Hlog' as <-.
  exists p, logs. exact (conj Hrun (conj Hlog (conj (proj1 Hrest) (conj (proj1 (proj2 Hrest))
    (conj (proj1 (proj2 (proj2 Hrest))) (conj (proj2 (proj2 (proj2 Hrest))) Hb)))))).
Defined.

(** Deleting two neighbors in one batch can leave an edge to a deleted vertex: on the path
    0 - 1 - 2 - 3 - 4, deleting 2 and 3 together succeeds, the lists of both are empty and both
    are marked deleted, but vertex 1 has gained an edge to 3, because 3 was not yet deleted
    when the replacements for 2 were chosen and only the old edges are filtered. *)
Theorem multi_inplace_delete_dangling :
  ∃ p', demo_multi_delete [2; 3]%Z mem_path = Some (p', Ok tt) ∧
    mem_graph p' 2%Z = [] ∧ mem_graph p' 3%Z = [] ∧
    status_by_internal_id p' 3%Z = Ok Deleted ∧
    mem_graph mem_path 1%Z = [0; 2]%Z ∧ mem_graph p' 1%Z = [0; 3]%Z.
Proof. eexists _. split_and!; vm_compute; reflexivity. Qed.
