(* ===== verification/GraphStats.v ===== *)
(** * Graph statistics

    Models [count_reachable_nodes] and [get_degree_stats] of [diskann/src/graph/index.rs]: a
    breadth-first traversal of the graph and the degrees of a set of vertices. *)

From Stdlib Require Import SpecFloat.
From S2P Require Import Prelude F32 AdjacencyList Config Prune GraphUpdate.

Local Open Scope gm_scope.

Record DegreeStats := mkDegreeStats {
  ds_max_degree : Z;
  ds_avg_degree : f32;
  ds_min_degree : Z;
  ds_cnt_less_than_two : nat;
}.

Section stats.
Context {I V P E : Type} `{!EqDecision I, !Countable I}.
Context `{GP : !GraphProvider I V P E}.

(** The loop of [count_reachable_nodes]. *)
Fixpoint reachable_loop (fuel : nat) (queue : list I) (expanded : gset I) : GM P E nat :=
  match queue with
  | [] => gm_ret (size expanded)
  | id :: queue =>
      match fuel with
      | 0 => gm_panic None
      | S fuel =>
          if bool_decide (id ∈ expanded) then reachable_loop fuel queue expanded
          else
            do neighbors <- gm_lift (get_neighbors id);
            reachable_loop fuel (queue ++ neighbors) ({[ id ]} ∪ expanded)
      end
  end.

(** [DiskANNIndex::count_reachable_nodes] *)
Definition count_reachable_nodes (fuel : nat) (start_points : list I) : GM P E nat :=
  reachable_loop fuel start_points ∅.

(** The variables of the loop of [get_degree_stats]; [usize::MAX] is the minimum of no degrees. *)
Record DegreeAcc := mkAcc {
  acc_max : nat; acc_min : option nat; acc_total : nat; acc_few : nat; acc_points : nat
}.

Fixpoint degree_loop (ids : list I) (acc : DegreeAcc) : GM P E DegreeAcc :=
  match ids with
  | [] => gm_ret acc
  | id :: ids =>
      do l <- gm_lift (get_neighbors id);
      let pool_size := length l in
      degree_loop ids
        (mkAcc (acc_max acc `max` pool_size)
           (Some (match acc_min acc with Some m => m `min` pool_size | None => pool_size end))
           (acc_total acc + pool_size)
           (if pool_size <? 2 then acc_few acc + 1 else acc_few acc) (acc_points acc + 1))
  end.

(** [u32::try_from] *)
Definition try_u32 (bad_int : E) (n : nat) : result E Z :=
  if (Z.of_nat n <? 2 ^ 32)%Z then Ok (Z.of_nat n) else Err bad_int.

(** [DiskANNIndex::get_degree_stats]; [bad_int] is the error of a failed integer conversion. *)
Definition get_degree_stats (bad_int : E) (ids : list I) : GM P E DegreeStats :=
  do acc <- degree_loop ids (mkAcc 0 None 0 0 0);
  if acc_points acc =? 0 then gm_ret (mkDegreeStats 0 f32_zero 0 0) else
  match try_u32 bad_int (acc_max acc) with
  | Err e => gm_err e
  | Ok max =>
      match acc_min acc with
      | None => gm_err bad_int
      | Some min =>
          match try_u32 bad_int min with
          | Err e => gm_err e
          | Ok min =>
              gm_ret (mkDegreeStats max
                (f32_div (f32_of_Z (Z.of_nat (acc_total acc))) (f32_of_Z (Z.of_nat (acc_points acc))))
                min (acc_few acc))
          end
      end
  end.

End stats.

(** ** Theory *)

Section theory.
Context {I V P E : Type} `{!EqDecision I, !Countable I}.
Context `{GP : !GraphProvider I V P E} {graph : P → I → list I} {capacity : nat}.
Context `{GL : !GraphProviderLaws I V P E graph capacity}.

Definition edge (p : P) (i j : I) : Prop := j ∈ graph p i.

(** The number of edges that leave the nodes not expanded yet. *)
Definition pending_edges (p : P) (nodes expanded : gset I) : nat :=
  sum_list_with (λ i, length (graph p i)) (elements (nodes ∖ expanded)).

Lemma pending_edges_expand p nodes expanded i :
  i ∈ nodes → i ∉ expanded →
  pending_edges p nodes expanded = length (graph p i) + pending_edges p nodes ({[ i ]} ∪ expanded).
Proof.
  intros Hi Hn. unfold pending_edges.
  assert (elements (nodes ∖ expanded) ≡ₚ i :: elements (nodes ∖ ({[ i ]} ∪ expanded))) as Hp.
  { rewrite <-elements_union_singleton by set_solver.
    replace (nodes ∖ expanded) with ({[ i ]} ∪ nodes ∖ ({[ i ]} ∪ expanded)); [done|].
    apply set_eq. intros x. destruct (decide (x = i)); set_solver. }
  by rewrite Hp.
Qed.

(** The traversal keeps: what is expanded or queued is reachable, and the neighbors of what is
    expanded are expanded or queued. *)
Record bfs_inv (p : P) (starts : list I) (nodes : gset I) (queue : list I) (expanded : gset I) :
    Prop := {
  bi_reach : ∀ x, x ∈ expanded ∨ x ∈ queue → ∃ s, s ∈ starts ∧ rtc (edge p) s x;
  bi_nodes : ∀ x, x ∈ expanded ∨ x ∈ queue → x ∈ nodes;
  bi_starts : ∀ s, s ∈ starts → s ∈ expanded ∨ s ∈ queue;
  bi_closed : ∀ x y, x ∈ expanded → edge p x y → y ∈ expanded ∨ y ∈ queue;
}.

Lemma bfs_done p starts nodes expanded x :
  bfs_inv p starts nodes [] expanded →
  x ∈ expanded ↔ ∃ s, s ∈ starts ∧ rtc (edge p) s x.
Proof.
  intros [Hr _ Hs Hc]. split; [intros Hx; apply Hr; by left|]. intros (s & Hin & Hpath).
  assert (s ∈ expanded) as Hse by (destruct (Hs s Hin) as [?|?%elem_of_nil]; done).
  clear Hin. induction Hpath as [|x y z Hxy _ IH]; [done|]. apply IH.
  destruct (Hc x y Hse Hxy) as [?|?%elem_of_nil]; done.
Qed.

Lemma reachable_loop_ok starts (nodes : gset I) p0 : ∀ fuel queue expanded p,
  graph p = graph p0 → (∀ i j, i ∈ nodes → edge p0 i j → j ∈ nodes) →
  bfs_inv p0 starts nodes queue expanded →
  length queue + pending_edges p0 nodes expanded ≤ fuel →
  gm_ok (reachable_loop fuel queue expanded) p (λ p' n, graph p' = graph p0 ∧
    ∃ set : gset I, n = size set ∧ ∀ x, x ∈ set ↔ ∃ s, s ∈ starts ∧ rtc (edge p0) s x).
Proof.
  induction fuel as [|fuel IH]; intros queue expanded p Hg Hnodes Hinv Hf;
    (destruct queue as [|id queue];
     [cbn [reachable_loop]; apply gm_ok_ret; split; [done|]; exists expanded; split; [done|];
      intros x; by eapply bfs_done|]); [simpl in Hf; lia|].
  cbn [reachable_loop]. pose proof Hinv as [Hr Hn Hs Hc].
  destruct (bool_decide_reflect (id ∈ expanded)) as [Hin|Hin].
  - apply IH; [done|done| |simpl in Hf; lia]. split.
    + intros x Hx. apply Hr. rewrite elem_of_cons. tauto.
    + intros x Hx. apply Hn. rewrite elem_of_cons. tauto.
    + intros s Hx. destruct (Hs s Hx) as [?|[->|?]%elem_of_cons]; tauto.
    + intros x y Hx Hxy. destruct (Hc x y Hx Hxy) as [?|[->|?]%elem_of_cons]; tauto.
  - assert (id ∈ nodes) as Hid by (apply Hn; right; by left).
    eapply gm_ok_bind with (Mid := λ p' l, l = graph p0 id ∧ graph p' = graph p0).
    { apply gm_ok_lift. intros p' l Hget. apply get_law in Hget as [-> Hg']. split; congruence. }
    intros p' l [-> Hg']. apply IH; [done|done| |].
    + assert (∃ s, s ∈ starts ∧ rtc (edge p0) s id) as (s0 & Hs0 & Hpath)
        by (apply Hr; right; by left).
      split.
      * intros x [Hx|[Hx|Hx]%elem_of_app].
        -- apply elem_of_union in Hx as [->%elem_of_singleton|Hx]; [eauto|apply Hr; by left].
        -- apply Hr. right. by right.
        -- exists s0. split; [done|]. by eapply rtc_r.
      * intros x [Hx|[Hx|Hx]%elem_of_app].
        -- apply elem_of_union in Hx as [->%elem_of_singleton|Hx]; [done|apply Hn; by left].
        -- apply Hn. right. by right.
        -- by eapply Hnodes.
      * intros s Hx. rewrite elem_of_union, elem_of_singleton, elem_of_app.
        destruct (Hs s Hx) as [?|[->|?]%elem_of_cons]; tauto.
      * intros x y Hx Hxy. rewrite elem_of_union, elem_of_singleton, elem_of_app.
        apply elem_of_union in Hx as [->%elem_of_singleton|Hx]; [tauto|].
        destruct (Hc x y Hx Hxy) as [?|[->|?]%elem_of_cons]; tauto.
    + rewrite (pending_edges_expand p0 nodes expanded id) in Hf by done.
      rewrite length_app. simpl in Hf. lia.
Qed.

(** On a finite graph [count_reachable_nodes] terminates, does not change the graph, and
    returns the number of nodes that can be reached from the start points; one step per start
    point and per edge is enough. *)
Theorem count_reachable_nodes_correct fuel starts (nodes : gset I) p :
  (∀ s, s ∈ starts → s ∈ nodes) → (∀ i j, i ∈ nodes → edge p i j → j ∈ nodes) →
  length starts + pending_edges p nodes ∅ ≤ fuel →
  gm_ok (count_reachable_nodes fuel starts) p (λ p' n, graph p' = graph p ∧
    ∃ set : gset I, n = size set ∧ ∀ x, x ∈ set ↔ ∃ s, s ∈ starts ∧ rtc (edge p) s x).
Proof.
  intros Hs Hn Hf. apply (reachable_loop_ok starts nodes p); [done|done| |done]. split.
  - intros x [?%elem_of_empty|Hx]; [done|]. exists x. by split.
  - intros x [?%elem_of_empty|Hx]; [done|by apply Hs].
  - by right.
  - by intros x y ?%elem_of_empty.
Qed.

(** The degrees are summarised as the names say. *)
Lemma degree_loop_ok p0 ids : ∀ acc p,
  graph p = graph p0 →
  gm_ok (degree_loop ids acc) p (λ p' acc', graph p' = graph p0 ∧
    let degrees := (λ i, length (graph p0 i)) <$> ids in
    acc_max acc' = foldl Nat.max (acc_max acc) degrees ∧
    acc_total acc' = acc_total acc + sum_list degrees ∧
    acc_few acc' = acc_few acc + length (List.filter (λ d, d <? 2) degrees) ∧
    acc_points acc' = acc_points acc + length ids).
Proof.
  induction ids as [|i ids IH]; intros acc p Hg; cbn [degree_loop].
  { apply gm_ok_ret. split; [done|]. cbn. lia. }
  eapply gm_ok_bind with (Mid := λ p' l, l = graph p0 i ∧ graph p' = graph p0).
  { apply gm_ok_lift. intros p' l Hget. apply get_law in Hget as [-> Hg']. split; congruence. }
  intros p1 l [-> Hg1]. eapply gm_ok_weaken; [by apply IH|].
  intros p' acc' (Hg' & H1 & H2 & H3 & H4). cbn [acc_max acc_total acc_few acc_points] in *.
  split; [done|]. cbn [fmap list_fmap foldl sum_list sum_list_with foldr List.filter length].
  split_and!; [done|rewrite H2; cbn; lia| |rewrite H4; lia].
  rewrite H3. destruct (length (graph p0 i) <? 2); cbn [length]; lia.
Qed.

End theory.

(** Two of the five nodes of [mem_demo] that have lists reach nodes 1 to 4, not 5. *)
Lemma count_reachable_nodes_correct_witness :
  ∃ p', count_reachable_nodes (GP := mem_provider) 20 [2; 3]%Z mem_demo = Some (p', Ok 4) ∧
    ∃ set : gset Z, size set = 4 ∧
      ∀ x, x ∈ set ↔ ∃ s, s ∈ [2; 3]%Z ∧ rtc (edge (graph := mem_graph) mem_demo) s x.
Proof.
  set (nodes := list_to_set [1; 2; 3; 4; 5]%Z : gset Z).
  assert (∀ i j, i ∈ nodes → edge (graph := mem_graph) mem_demo i j → j ∈ nodes) as Hn.
  { assert (Forall (λ i, Forall (.∈ nodes) (mem_graph mem_demo i)) (elements nodes)) as Hf
      by (apply (bool_decide_unpack _); vm_compute; exact Logic.I).
    intros i j Hi%elem_of_elements Hj. rewrite Forall_forall in Hf. specialize (Hf i Hi).
    rewrite Forall_forall in Hf. exact (Hf j Hj). }
  destruct (count_reachable_nodes_correct (GL := mem_laws 0) 20 [2; 3]%Z nodes mem_demo)
    as (p' & r & Hrun & Hr).
  - assert (Forall (.∈ nodes) [2; 3]%Z) as Hf
      by (apply (bool_decide_unpack _); vm_compute; exact Logic.I).
    rewrite Forall_forall in Hf. exact Hf.
  - exact Hn.
  - vm_compute. lia.
  - assert (∃ p, count_reachable_nodes (GP := mem_provider) 20 [2; 3]%Z mem_demo = Some (p, Ok 4))
      as (p & Hrun') by (eexists; vm_compute; reflexivity).
    rewrite Hrun in Hrun'. injection Hrun' as -> ->. destruct Hr as (_ & set & Hs & Hin).
    exists p. split; [exact Hrun|]. exists set. split; [symmetry; exact Hs|exact Hin].
Defined.
