(* ===== verification/InmemBuffer.v ===== *)
(** * Raw memory of the in-memory provider ([diskann-inmem/src/num.rs], [buffer.rs])

    Byte counts with their checked arithmetic, alignments, the row store [Buffer] and the raw
    slices cut out of it.  A slice is an offset into the allocation with a length: what the
    unsafe code has to guarantee is that the slices stay inside the allocation and that the
    slices of different rows do not overlap. *)

From S2P Require Import Prelude.
Local Open Scope Z_scope.

(** ** [num.rs] *)

Definition usize_limit : Z := 2 ^ 64.
Definition isize_max : Z := 2 ^ 63 - 1.

Definition Bytes : Type := Z.
Definition CACHELINE : Bytes := 64.
Definition bytes_checked_add (a b : Bytes) : option Bytes :=
  if a + b <? usize_limit then Some (a + b) else None.
Definition bytes_checked_mul (a b : Z) : option Bytes :=
  if a * b <? usize_limit then Some (a * b) else None.
Definition bytes_div (a b : Z) : Bytes := a / b.
(** [self.value() - other.value()]: the subtraction panics in a debug build, wraps otherwise;
    every use is with [other <= self]. *)
Definition bytes_unchecked_sub (a b : Bytes) : Bytes := (a - b) mod usize_limit.

(** [usize::checked_next_multiple_of]. *)
Definition bytes_checked_next_multiple_of (a b : Bytes) : option Bytes :=
  if b =? 0 then None
  else if a mod b =? 0 then Some a else bytes_checked_add a (b - a mod b).

(** [usize::is_power_of_two] and [Align::new]. *)
Definition is_power_of_two (v : Z) : bool := (0 <? v) && (v =? 2 ^ Z.log2 v).
Definition align_new (v : Z) : option Z := if is_power_of_two v then Some v else None.

(** ** [buffer.rs] *)

Record Buffer := mkBuffer { stride : Bytes; entries : Z; layout_size : Z }.
Inductive BufferError := mkBufferError.

(** [Layout::from_size_align]: the size rounded up to the alignment must not exceed
    [isize::MAX]. *)
Definition layout_from_size_align (size align : Z) : option Z :=
  if is_power_of_two align && (size <=? isize_max + 1 - align) then Some size else None.

Definition buffer_new (n bytes_per_entry align : Z) : result BufferError Buffer :=
  match bytes_checked_mul bytes_per_entry n with
  | None => Err mkBufferError
  | Some b =>
      match layout_from_size_align b align with
      | None => Err mkBufferError
      | Some size => Ok (mkBuffer bytes_per_entry n size)
      end
  end.

Record RawSlice := mkSlice { ptr : Z; slice_len : Bytes }.

Definition get_unchecked (b : Buffer) (i : Z) : RawSlice := mkSlice (stride b * i) (stride b).
Definition truncate_unchecked (s : RawSlice) (n : Bytes) : RawSlice := mkSlice (ptr s) n.
Definition truncate (s : RawSlice) (n : Bytes) : RawSlice :=
  truncate_unchecked s (Z.min (slice_len s) n).
Definition split_unchecked (s : RawSlice) (n : Bytes) : RawSlice * RawSlice :=
  (mkSlice (ptr s) n, mkSlice (ptr s + n) (bytes_unchecked_sub (slice_len s) n)).
Definition split_slice (s : RawSlice) (n : Bytes) : RawSlice * RawSlice :=
  split_unchecked s (Z.min (slice_len s) n).

(** ** Where slices lie *)

Definition inside (s : RawSlice) (lo hi : Z) : Prop :=
  lo ≤ ptr s ∧ 0 ≤ slice_len s ∧ ptr s + slice_len s ≤ hi.
Definition disjoint_slices (s t : RawSlice) : Prop :=
  ptr s + slice_len s ≤ ptr t ∨ ptr t + slice_len t ≤ ptr s.

Lemma buffer_new_Ok n b align buf :
  buffer_new n b align = Ok buf →
  stride buf = b ∧ entries buf = n ∧ layout_size buf = b * n ∧ b * n ≤ isize_max.
Proof.
  unfold buffer_new, bytes_checked_mul, layout_from_size_align, is_power_of_two.
  destruct (Z.ltb_spec (b * n) usize_limit); [|done].
  destruct (Z.ltb_spec 0 align); simpl; [|done]. destruct (align =? _); simpl; [|done].
  destruct (Z.leb_spec (b * n) (isize_max + 1 - align)); [|done].
  intros [= <-]. simpl. split_and!; (done || lia).
Qed.

Lemma get_unchecked_inside buf i :
  0 ≤ stride buf → 0 ≤ i < entries buf →
  inside (get_unchecked buf i) (stride buf * i) (stride buf * (i + 1)) ∧
  stride buf * (i + 1) ≤ stride buf * entries buf.
Proof. intros. unfold inside; simpl. split_and!; nia. Qed.

Lemma inside_mono s lo hi lo' hi' : inside s lo hi → lo' ≤ lo → hi ≤ hi' → inside s lo' hi'.
Proof. unfold inside. lia. Qed.

Lemma split_slice_inside s n lo hi :
  inside s lo hi → 0 ≤ n → slice_len s < usize_limit →
  inside (split_slice s n).1 lo hi ∧ inside (split_slice s n).2 lo hi ∧
  disjoint_slices (split_slice s n).1 (split_slice s n).2 ∧
  slice_len (split_slice s n).1 + slice_len (split_slice s n).2 = slice_len s.
Proof.
  unfold inside, disjoint_slices, split_slice, split_unchecked, bytes_unchecked_sub; simpl. intros.
  rewrite Z.mod_small by lia. lia.
Qed.

Lemma truncate_inside s n lo hi : inside s lo hi → 0 ≤ n → inside (truncate s n) lo hi.
Proof. unfold inside, truncate; simpl. lia. Qed.

Lemma next_multiple_spec a b c :
  0 ≤ a → 0 < b → bytes_checked_next_multiple_of a b = Some c →
  a ≤ c < a + b ∧ c mod b = 0.
Proof.
  intros Ha Hb. unfold bytes_checked_next_multiple_of, bytes_checked_add.
  pose proof (Z.mod_pos_bound a b Hb). pose proof (Z.div_mod a b).
  destruct (Z.eqb_spec b 0); [lia|]. destruct (Z.eqb_spec (a mod b) 0) as [E|].
  - intros [= <-]. lia.
  - destruct (Z.ltb_spec (a + (b - a mod b)) usize_limit); [|done]. intros [= <-]. split; [lia|].
    replace (a + (b - a mod b)) with ((a / b + 1) * b) by lia. apply Z.mod_mul. lia.
Qed.
