(* ===== verification/Epoch.v ===== *)
(** * Epoch-based reclamation ([diskann-inmem/src/epoch.rs])

    - Section [registry]: the [Registry] with its guard slots, epoch counter, drain lock and
      four retirement queues, and every function of the file cut into its atomic accesses
      ([op_step] for the internal steps of [guard_inner] and [try_advance_inner]; [retire],
      [drop_guard], [drain_pop], [drop_drain] for the handles).
    - Section [interleaving]: any number of operations that run concurrently.  A configuration
      is the shared registry with the local state of every operation; [exec] performs one
      atomic access of one of them.  Memory is sequentially consistent: the orderings and the
      fences of the source are not modelled, only what happens between the accesses.
    - Sections [invariant] and [safety]: the invariant of all reachable configurations and what
      follows from it: a drain never returns an item that a held guard could have observed.
    - Section [progress]: what an operation that runs alone achieves. *)

From S2P Require Import Prelude.
Local Open Scope Z_scope.

(** ** Machine words *)

Definition u64_max : Z := 2 ^ 64 - 1.
Definition wrapping_add (x y : Z) : Z := (x + y) mod 2 ^ 64.
Definition wrapping_sub (x y : Z) : Z := (x - y) mod 2 ^ 64.

(** ** The registry *)
Section registry.
Context {A : Type}.

(** The payload of the queues is a type parameter (the source fixes [u32]): the registry
    never looks into it. *)
Record Registry := mkRegistry {
  guards : list Z;
  hint : Z;
  epoch : Z;
  drain : bool;
  retiring : list (list A);
}.

Definition queue (e : Z) : nat := Z.to_nat (e mod 4).
Definition last_queue (e : Z) : nat := queue (wrapping_sub e 2).

Definition with_capacity (capacity : nat) : Registry :=
  mkRegistry (replicate capacity 0) 0 1 false (replicate 4 []).

Definition set_guard (s : nat) (v : Z) (r : Registry) : Registry :=
  mkRegistry (<[s:=v]> (guards r)) (hint r) (epoch r) (drain r) (retiring r).
Definition set_hint (h : Z) (r : Registry) : Registry :=
  mkRegistry (guards r) h (epoch r) (drain r) (retiring r).
Definition set_epoch (e : Z) (r : Registry) : Registry :=
  mkRegistry (guards r) (hint r) e (drain r) (retiring r).
Definition set_drain (b : bool) (r : Registry) : Registry :=
  mkRegistry (guards r) (hint r) (epoch r) b (retiring r).
Definition set_queue (q : nat) (l : list A) (r : Registry) : Registry :=
  mkRegistry (guards r) (hint r) (epoch r) (drain r) (<[q:=l]> (retiring r)).

End registry.
Arguments Registry : clear implicits.

(** ** Local states of the operations *)

(** A call of [guard_inner] before each of its accesses, the guard it returns, and a call of
    [try_advance_inner] with the drain it returns.  [AdvanceIdle] is a caller between two
    calls of [try_advance]. *)
Inductive op :=
| GuardCheck
| GuardHint (e : Z)
| GuardLoad (e h : Z) (i : nat)
| GuardCas (e h : Z) (i : nat)
| GuardRecheck (e : Z) (slot : nat) (reset : bool)
| GuardStore (e : Z) (slot : nat)
| GuardHeld (e : Z) (slot : nat)
| GuardUnavailable
| GuardDropped
| AdvanceIdle
| AdvanceLock
| AdvanceCheck
| AdvanceScan (current min : Z) (i : nat)
| AdvanceDecide (current min : Z)
| AdvanceAdd (current : Z)
| AdvanceDrain (q : nat)
| AdvanceNone
| AdvancePanic.

Section steps.
Context {A : Type}.
Implicit Types r : Registry A.

(** [hint.wrapping_add(i) % nguards]. *)
Definition probe_slot r (h : Z) (i : nat) : nat :=
  Z.to_nat (wrapping_add h (Z.of_nat i) mod Z.of_nat (length (guards r))).

(** The next access of [guard_inner]. *)
Definition guard_inner r (p : op) : option (Registry A * op) :=
  match p with
  | GuardCheck => Some (r, GuardHint (epoch r))
  | GuardHint e => Some (set_hint (wrapping_add (hint r) 1) r, GuardLoad e (hint r) 0)
  | GuardLoad e h i =>
      if (i <? length (guards r))%nat then
        v ← guards r !! probe_slot r h i;
        Some (r, if v =? 0 then GuardCas e h i else GuardLoad e h (S i))
      else Some (r, GuardUnavailable)
  | GuardCas e h i =>
      v ← guards r !! probe_slot r h i;
      Some (if v =? 0
            then (set_guard (probe_slot r h i) e r, GuardRecheck e (probe_slot r h i) false)
            else (r, GuardLoad e h (S i)))
  | GuardRecheck e s reset =>
      Some (r, if epoch r =? e then (if reset then GuardStore e s else GuardHeld e s)
               else GuardRecheck (epoch r) s true)
  | GuardStore e s => Some (set_guard s e r, GuardHeld e s)
  | _ => None
  end.

(** One iteration of the loop of [can_advance], and what it returns at the end. *)
Definition can_advance r (current min : Z) (i : nat) : op :=
  match guards r !! i with
  | Some guarded => AdvanceScan current (if guarded =? 0 then min else Z.min min guarded) (S i)
  | None => AdvanceDecide current min
  end.

(** The next access of [try_advance_inner].  The lock is released when the call returns
    [None] or panics. *)
Definition try_advance_inner r (p : op) : option (Registry A * op) :=
  match p with
  | AdvanceLock => Some (if drain r then (r, AdvanceNone) else (set_drain true r, AdvanceCheck))
  | AdvanceCheck => Some (r, AdvanceScan (epoch r) (epoch r) 0)
  | AdvanceScan current min i => Some (r, can_advance r current min i)
  | AdvanceDecide current min =>
      Some (if min =? u64_max then (set_drain false r, AdvancePanic)
            else if min =? current then (r, AdvanceAdd min)
            else (set_drain false r, AdvanceNone))
  | AdvanceAdd current =>
      Some (set_epoch (wrapping_add (epoch r) 1) r, AdvanceDrain (last_queue current))
  | _ => None
  end.

Definition op_step r (p : op) : option (Registry A * op) :=
  match guard_inner r p with
  | Some x => Some x
  | None => try_advance_inner r p
  end.

(** [Guard::retire]: the queue was chosen when the guard was created, from its epoch. *)
Definition retire r (e : Z) (x : A) : option (Registry A) :=
  l ← retiring r !! queue e; Some (set_queue (queue e) (l ++ [x]) r).

(** [Drop for Guard]. *)
Definition drop_guard r (s : nat) : Registry A := set_guard s 0 r.

(** [Drain::pop] and [Drain::len]. *)
Definition drain_pop r (q : nat) : option (A * Registry A) :=
  l ← retiring r !! q;
  match l with [] => None | x :: l => Some (x, set_queue q l r) end.
Definition drain_len r (q : nat) : nat := length (default [] (retiring r !! q)).

(** Dropping a [Drain] releases its lock. *)
Definition drop_drain r : Registry A := set_drain false r.

End steps.

(** ** Interleavings *)
Section interleaving.
Context {I : Type}.

(** A retired item with the guards that are held when it is retired.  The second component
    is history: no operation depends on it. *)
Definition entry : Type := I * gset nat.

Record econf := mkConf { reg : Registry entry; ops : gmap nat op }.

Definition is_held (p : op) : bool := match p with GuardHeld _ _ => true | _ => false end.
Definition held (m : gmap nat op) : gset nat := dom (filter (λ x, is_held x.2 = true) m).

(** What can happen next: an operation starts, performs its next access, or its caller uses
    the handle it returned. *)
Inductive action :=
| StartGuard (o : nat)
| StartAdvancer (o : nat)
| TryAdvance (o : nat)
| ReturnNone (o : nat)
| Step (o : nat)
| Retire (o : nat) (x : I)
| DropGuard (o : nat)
| Pop (o : nat)
| DropDrain (o : nat).

Definition exec (c : econf) (a : action) : option econf :=
  match a with
  | StartGuard o =>
      match ops c !! o with
      | None => Some (mkConf (reg c) (<[o:=GuardCheck]> (ops c))) | _ => None end
  | StartAdvancer o =>
      match ops c !! o with
      | None => Some (mkConf (reg c) (<[o:=AdvanceIdle]> (ops c))) | _ => None end
  | TryAdvance o =>
      match ops c !! o with
      | Some AdvanceIdle => Some (mkConf (reg c) (<[o:=AdvanceLock]> (ops c))) | _ => None end
  | ReturnNone o =>
      match ops c !! o with
      | Some AdvanceNone => Some (mkConf (reg c) (<[o:=AdvanceIdle]> (ops c))) | _ => None end
  | Step o =>
      p ← ops c !! o; '(r, p') ← op_step (reg c) p; Some (mkConf r (<[o:=p']> (ops c)))
  | Retire o x =>
      match ops c !! o with
      | Some (GuardHeld e s) =>
          r ← retire (reg c) e (x, held (ops c)); Some (mkConf r (ops c))
      | _ => None end
  | DropGuard o =>
      match ops c !! o with
      | Some (GuardHeld e s) =>
          Some (mkConf (drop_guard (reg c) s) (<[o:=GuardDropped]> (ops c)))
      | _ => None end
  | Pop o =>
      match ops c !! o with
      | Some (AdvanceDrain q) => '(_, r) ← drain_pop (reg c) q; Some (mkConf r (ops c))
      | _ => None end
  | DropDrain o =>
      match ops c !! o with
      | Some (AdvanceDrain q) =>
          Some (mkConf (drop_drain (reg c)) (<[o:=AdvanceIdle]> (ops c)))
      | _ => None end
  end.

Fixpoint run (c : econf) (l : list action) : option econf :=
  match l with
  | [] => Some c
  | a :: l => c' ← exec c a; run c' l
  end.

Definition initial (n : nat) : econf := mkConf (with_capacity n) ∅.
Definition reachable (n : nat) (c : econf) : Prop := ∃ l, run (initial n) l = Some c.

End interleaving.
Arguments entry : clear implicits.
Arguments econf : clear implicits.
Arguments action : clear implicits.

(** ** The invariant *)

(** The guard slot that an operation occupies, and the epoch it belongs to once its recheck
    has succeeded. *)
Definition slot_of (p : op) : option nat :=
  match p with
  | GuardRecheck _ s _ | GuardStore _ s | GuardHeld _ s => Some s
  | _ => None
  end.
Definition entered (p : op) : option (Z * nat) :=
  match p with GuardStore e s | GuardHeld e s => Some (e, s) | _ => None end.

(** The operations that hold the drain lock. *)
Definition locked (p : op) : bool :=
  match p with
  | AdvanceCheck | AdvanceScan _ _ _ | AdvanceDecide _ _ | AdvanceAdd _ | AdvanceDrain _ => true
  | _ => false
  end.

(** The value [v] of the slot of a guard at the global epoch [E]: it may be stale until the
    operation stores the epoch that it rechecked, and a guard is at most one epoch behind. *)
Definition slot_ok (E : Z) (p : op) (v : Z) : Prop :=
  match p with
  | GuardRecheck e _ reset => 1 ≤ v ≤ e ∧ e ≤ E ∧ (reset = false → v = e)
  | GuardStore e _ => 1 ≤ v ≤ e ∧ e ≤ E ≤ e + 1
  | GuardHeld e _ => v = e ∧ 1 ≤ e ≤ E ∧ E ≤ e + 1
  | _ => True
  end.

(** What a guard operation knows before it occupies a slot. *)
Definition early_ok (E : Z) (p : op) : Prop :=
  match p with
  | GuardHint e | GuardLoad e _ _ | GuardCas e _ _ => 1 ≤ e ≤ E
  | _ => True
  end.

Definition entered_at (m : gmap nat op) (E : Z) (i : nat) : Prop :=
  ∀ o p e s, m !! o = Some p → entered p = Some (e, s) → (s < i)%nat → e = E.

(** What an operation that advances the epoch knows about the slots that it has scanned. *)
Definition advance_ok (E : Z) (n : nat) (m : gmap nat op) (p : op) : Prop :=
  match p with
  | AdvanceScan cur min i => cur = E ∧ min ≤ cur ∧ (min = cur → entered_at m E i)
  | AdvanceDecide cur min => cur = E ∧ min ≤ cur ∧ (min = cur → entered_at m E n)
  | AdvanceAdd cur => cur = E ∧ E < u64_max ∧ entered_at m E n
  | AdvanceDrain q => q = last_queue (E - 1) ∧ 1 < E
  | AdvancePanic => E = u64_max
  | _ => True
  end.

(** An entry of queue [q] was retired in some epoch [g] of that queue, and of the guards that
    could have observed it only those of the epochs up to [g + 1] are left. *)
Definition entry_ok {I} (E : Z) (m : gmap nat op) (q : nat) (x : entry I) : Prop :=
  ∃ g, 1 ≤ g ≤ E ∧ queue g = q ∧
    ∀ o, o ∈ x.2 →
      m !! o = Some GuardDropped ∨ ∃ e s, m !! o = Some (GuardHeld e s) ∧ e ≤ g + 1.

Record epoch_inv {I} (n : nat) (r : Registry (entry I)) (m : gmap nat op) : Prop := {
  inv_guards : length (guards r) = n;
  inv_queues : length (retiring r) = 4%nat;
  inv_epoch : 1 ≤ epoch r ≤ u64_max;
  inv_early : ∀ o p, m !! o = Some p → early_ok (epoch r) p;
  inv_slot : ∀ o p s, m !! o = Some p → slot_of p = Some s →
    ∃ v, guards r !! s = Some v ∧ slot_ok (epoch r) p v;
  inv_slot_inj : ∀ o1 o2 p1 p2 s, m !! o1 = Some p1 → m !! o2 = Some p2 →
    slot_of p1 = Some s → slot_of p2 = Some s → o1 = o2;
  inv_occupied : ∀ s v, guards r !! s = Some v → v ≠ 0 →
    ∃ o p, m !! o = Some p ∧ slot_of p = Some s;
  inv_locked : ∀ o p, m !! o = Some p → locked p = true → drain r = true;
  inv_lock_inj : ∀ o1 o2 p1 p2, m !! o1 = Some p1 → m !! o2 = Some p2 →
    locked p1 = true → locked p2 = true → o1 = o2;
  inv_drain : drain r = true → ∃ o p, m !! o = Some p ∧ locked p = true;
  inv_advance : ∀ o p, m !! o = Some p → advance_ok (epoch r) n m p;
  inv_entries : ∀ q l x, retiring r !! q = Some l → x ∈ l → entry_ok (epoch r) m q x;
}.

(** Whether a guard has been returned to its caller. *)
Definition returned (p : op) : bool :=
  match p with GuardHeld _ _ | GuardDropped => true | _ => false end.

Section invariant.
Context {I : Type} (n : nat).
Implicit Types (r : Registry (entry I)) (m : gmap nat op).

Lemma entered_slot p e s : entered p = Some (e, s) → slot_of p = Some s.
Proof. destruct p; naive_solver. Qed.

(** The operation that is replaced may keep the epoch that it had entered. *)
Definition enters_at m o (E : Z) (p : op) : Prop :=
  ∀ e s, entered p = Some (e, s) →
    e = E ∨ ∃ p0, m !! o = Some p0 ∧ entered p0 = Some (e, s).

Lemma advance_ok_insert E m o p p' :
  enters_at m o E p → advance_ok E n m p' → advance_ok E n (<[o:=p]> m) p'.
Proof.
  intros Hp. assert (∀ i, entered_at m E i → entered_at (<[o:=p]> m) E i).
  { intros i Hm o' p'' e s. rewrite lookup_insert_Some. intros [[-> ->]|[_ ?]]; [|by eauto].
    intros [->|(p0 & ? & ?)]%Hp; eauto. }
  destruct p'; simpl; naive_solver.
Qed.

Lemma entry_ok_insert E m q (x : entry I) o p :
  (∀ p0, m !! o = Some p0 → returned p0 = false) →
  entry_ok E m q x → entry_ok E (<[o:=p]> m) q x.
Proof.
  intros Ho (g & ? & ? & Hx). exists g. split_and!; [lia..|done|].
  intros o' Ho'. rewrite lookup_insert_ne; [by auto|]. intros <-.
  destruct (Hx o Ho') as [Hd|(e & s & Hd & _)]; by apply Ho in Hd.
Qed.

Lemma entry_ok_mono E E' m q (x : entry I) :
  E ≤ E' → entry_ok E m q x → entry_ok E' m q x.
Proof. intros ? (g & ? & ?). exists g. split; [lia|done]. Qed.

(** How a transition of an operation from (possibly absent) [p0] to [p] affects the lock. *)
Definition lock_change (d d' : bool) (p0 : option op) (p : op) : Prop :=
  (d' = d ∧ locked p = default false (locked <$> p0)) ∨
  (d = false ∧ d' = true ∧ locked p = true ∧ default false (locked <$> p0) = false) ∨
  (d' = false ∧ locked p = false ∧ default false (locked <$> p0) = true).

Lemma lock_change_locked r m o p d o' p' :
  epoch_inv n r m → lock_change (drain r) d (m !! o) p →
  <[o:=p]> m !! o' = Some p' → locked p' = true → d = true.
Proof.
  intros Hi Hc [[-> ->]|[Hne Ho']]%lookup_insert_Some Hl.
  - destruct Hc as [[-> Hp]|[?|?]]; [|destruct_and?; congruence..].
    destruct (m !! o') eqn:Em; simpl in Hp; [|congruence].
    apply (inv_locked _ _ _ Hi _ _ Em). congruence.
  - pose proof (inv_locked _ _ _ Hi _ _ Ho' Hl).
    destruct Hc as [?|[?|(_ & _ & Hp)]]; [destruct_and?; congruence..|].
    destruct (m !! o) eqn:Em; simpl in Hp; [|done].
    destruct Hne. by apply (inv_lock_inj _ _ _ Hi _ _ _ _ Em Ho').
Qed.

Lemma lock_change_inj r m o p d o1 o2 p1 p2 :
  epoch_inv n r m → lock_change (drain r) d (m !! o) p →
  <[o:=p]> m !! o1 = Some p1 → <[o:=p]> m !! o2 = Some p2 →
  locked p1 = true → locked p2 = true → o1 = o2.
Proof.
  intros Hi Hc H1 H2 Hl1 Hl2.
  assert (Ho : ∀ o' p', o ≠ o' → m !! o' = Some p' → locked p' = true → locked p = false).
  { intros o' p' Hne Ho' Hl. pose proof (inv_locked _ _ _ Hi _ _ Ho' Hl).
    destruct Hc as [[_ Hp]|[?|?]]; [|destruct_and?; congruence..].
    destruct (locked p); [|done]. destruct (m !! o) eqn:Em; simpl in Hp; [|done].
    destruct Hne. by apply (inv_lock_inj _ _ _ Hi _ _ _ _ Em Ho'). }
  apply lookup_insert_Some in H1 as [[-> ->]|[? H1]], H2 as [[-> ->]|[? H2]]; [done| | |].
  - rewrite (Ho o2 p2) in Hl1; done.
  - rewrite (Ho o1 p1) in Hl2; done.
  - by apply (inv_lock_inj _ _ _ Hi o1 o2 p1 p2).
Qed.

Lemma lock_change_drain r m o p d :
  epoch_inv n r m → lock_change (drain r) d (m !! o) p → d = true →
  ∃ o' p', <[o:=p]> m !! o' = Some p' ∧ locked p' = true.
Proof.
  intros Hi Hc Hd. destruct (locked p) eqn:Hp.
  { exists o, p. by rewrite lookup_insert_eq. }
  destruct Hc as [[-> Hp0]|[?|?]]; [|destruct_and?; congruence..].
  destruct (inv_drain _ _ _ Hi Hd) as (o' & p' & Ho' & Hl). exists o', p'. split; [|done].
  rewrite lookup_insert_ne; [done|]. intros <-. rewrite Ho' in Hp0. simpl in Hp0. congruence.
Qed.

(** A step of an operation that occupies no slot before or after. *)
Lemma inv_slotless r m o p h d :
  epoch_inv n r m → (∀ p0, m !! o = Some p0 → slot_of p0 = None ∧ returned p0 = false) →
  slot_of p = None → early_ok (epoch r) p → advance_ok (epoch r) n m p →
  lock_change (drain r) d (m !! o) p →
  epoch_inv n (set_drain d (set_hint h r)) (<[o:=p]> m).
Proof.
  intros Hi Hp0 Hp He Ha Hc.
  assert (entered p = None) as Hen by (destruct p; done). pose proof Hi as [].
  split; simpl; try done.
  - intros o' p'. rewrite lookup_insert_Some. intros [[-> ->]|[_ ?]]; eauto.
  - intros o' p' s. rewrite lookup_insert_Some. intros [[-> ->]|[_ ?]]; [congruence|eauto].
  - intros o1 o2 p1 p2 s. rewrite !lookup_insert_Some.
    intros [[-> ->]|[_ ?]] [[-> ->]|[_ ?]]; [congruence..|eauto].
  - intros s v Hs Hv. edestruct inv_occupied0 as (o' & p' & Ho' & Hp'); [done..|].
    exists o', p'. split; [|done]. rewrite lookup_insert_ne; [done|]. intros <-.
    apply Hp0 in Ho'. naive_solver congruence.
  - intros o' p'. by apply (lock_change_locked r m o p d).
  - intros o1 o2 p1 p2. by apply (lock_change_inj r m o p d).
  - by apply (lock_change_drain r m o p d).
  - intros o' p'. rewrite lookup_insert_Some.
    intros [[-> ->]|[_ ?]]; apply advance_ok_insert; try (intros ??; congruence); eauto.
  - intros q l x ? ?. apply entry_ok_insert; [|by eauto]. intros p0 Hp'. by destruct (Hp0 _ Hp').
Qed.

Lemma slot_ok_pos E p v s : slot_of p = Some s → slot_ok E p v → 1 ≤ v.
Proof. destruct p; simpl; naive_solver lia. Qed.

Lemma slot_unlocked p s : slot_of p = Some s → locked p = false.
Proof. by destruct p. Qed.

(** A step of a guard operation that takes a free slot or keeps its own. *)
Lemma inv_occupy r m o p0 p s v :
  epoch_inv n r m → m !! o = Some p0 → slot_of p = Some s → guards r !! s = Some v →
  slot_of p0 = Some s ∨ (slot_of p0 = None ∧ v = 0) →
  locked p0 = false → returned p0 = false → enters_at m o (epoch r) p →
  ∀ v', slot_ok (epoch r) p v' → epoch_inv n (set_guard s v' r) (<[o:=p]> m).
Proof.
  intros Hi Ho Hp Hs Hp0 Hl Hr He v' Hv'. pose proof (slot_unlocked _ _ Hp) as Hpl.
  assert (Hfree : ∀ o' p', m !! o' = Some p' → slot_of p' = Some s → o = o').
  { intros o' p' Ho' Hp'. destruct Hp0 as [?|[? ->]].
    - by eapply (inv_slot_inj _ _ _ Hi).
    - destruct (inv_slot _ _ _ Hi _ _ _ Ho' Hp') as (v & Hv & Hok). simplify_eq.
      pose proof (slot_ok_pos _ _ _ _ Hp' Hok). lia. }
  assert (Hlc : lock_change (drain r) (drain r) (m !! o) p).
  { left. rewrite Ho. simpl. by rewrite Hpl, Hl. }
  pose proof Hi as []. split; simpl; try done.
  - by rewrite length_insert.
  - intros o' p'. rewrite lookup_insert_Some. intros [[-> ->]|[_ ?]]; [by destruct p'|eauto].
  - intros o' p' s'. rewrite lookup_insert_Some. intros [[-> ->]|[Hne Ho']] Hp'.
    + simplify_eq. exists v'. split; [|done]. apply list_lookup_insert_eq.
      by eapply lookup_lt_Some.
    + rewrite list_lookup_insert_ne; [by eauto|]. intros <-. by eapply Hne, Hfree.
  - intros o1 o2 p1 p2 s'. rewrite !lookup_insert_Some.
    intros [[-> ->]|[_ ?]] [[-> ->]|[_ ?]] ??; simplify_eq; [done|eauto..].
    symmetry; eauto.
  - intros s' w [(-> & <- & _)|[Hne Hs']]%list_lookup_insert_Some Hw.
    + exists o, p. by rewrite lookup_insert_eq.
    + destruct (inv_occupied0 _ _ Hs' Hw) as (o' & p' & Ho' & Hp'). exists o', p'.
      split; [|done]. rewrite lookup_insert_ne; [done|]. intros <-.
      destruct Hp0 as [?|[? _]]; congruence.
  - intros o' p'. by apply (lock_change_locked r m o p).
  - intros o1 o2 p1 p2. by apply (lock_change_inj r m o p (drain r)).
  - by apply (lock_change_drain r m o p).
  - intros o' p'. rewrite lookup_insert_Some.
    intros [[-> ->]|[_ ?]]; [by destruct p'|apply advance_ok_insert; eauto].
  - intros q l x ? ?. apply entry_ok_insert; [|by eauto]. intros; congruence.
Qed.

(** Dropping a guard frees its slot. *)
Lemma inv_drop r m o e s :
  epoch_inv n r m → m !! o = Some (GuardHeld e s) →
  epoch_inv n (drop_guard r s) (<[o:=GuardDropped]> m).
Proof.
  intros Hi Ho.
  assert (Hfree : ∀ o' p', m !! o' = Some p' → slot_of p' = Some s → o = o') by
    (intros; by eapply (inv_slot_inj _ _ _ Hi)).
  assert (Hlc : lock_change (drain r) (drain r) (m !! o) GuardDropped) by
    (left; by rewrite Ho).
  pose proof Hi as []. split; simpl; try done.
  - by rewrite length_insert.
  - intros o' p'. rewrite lookup_insert_Some. intros [[-> <-]|[_ ?]]; [done|eauto].
  - intros o' p' s'. rewrite lookup_insert_Some. intros [[-> <-]|[Hne Ho']] Hp'; [done|].
    rewrite list_lookup_insert_ne; [by eauto|]. intros <-. by eapply Hne, Hfree.
  - intros o1 o2 p1 p2 s'. rewrite !lookup_insert_Some.
    intros [[? ?]|[_ ?]] [[? ?]|[_ ?]] ??; simplify_eq/=; eauto.
  - intros s' w [(-> & <- & _)|[Hne Hs']]%list_lookup_insert_Some Hw; [done|].
    destruct (inv_occupied0 _ _ Hs' Hw) as (o' & p' & Ho' & Hp'). exists o', p'.
    split; [|done]. rewrite lookup_insert_ne; [done|]. intros <-. simplify_eq/=.
  - intros o' p'. by apply (lock_change_locked r m o GuardDropped).
  - intros o1 o2 p1 p2. by apply (lock_change_inj r m o GuardDropped (drain r)).
  - by apply (lock_change_drain r m o GuardDropped).
  - intros o' p'. rewrite lookup_insert_Some.
    intros [[-> <-]|[_ ?]]; [done|apply advance_ok_insert; [intros ??; done|eauto]].
  - intros q l x Hl Hx. destruct (inv_entries0 _ _ _ Hl Hx) as (g & ? & ? & Hg).
    exists g. split_and!; [lia..|done|]. intros o' Ho'.
    destruct (decide (o = o')) as [<-|]; [left; by rewrite lookup_insert_eq|].
    rewrite lookup_insert_ne by done. auto.
Qed.

(** The epoch advances by one: every guard was in the old epoch. *)
Lemma inv_add r m o :
  epoch_inv n r m → m !! o = Some (AdvanceAdd (epoch r)) →
  epoch_inv n (set_epoch (wrapping_add (epoch r) 1) r)
    (<[o:=AdvanceDrain (last_queue (epoch r))]> m).
Proof.
  intros Hi Ho. destruct (inv_advance _ _ _ Hi _ _ Ho) as (_ & Hmax & Hen).
  pose proof (inv_epoch _ _ _ Hi) as HE.
  assert (HW : wrapping_add (epoch r) 1 = epoch r + 1).
  { unfold wrapping_add, u64_max in *. apply Z.mod_small. lia. }
  assert (Hlc : lock_change (drain r) (drain r) (m !! o) (AdvanceDrain (last_queue (epoch r))))
    by (left; by rewrite Ho).
  assert (Hothers : ∀ o' p', o ≠ o' → m !! o' = Some p' → locked p' = false).
  { intros o' p' Hne Ho'. apply not_true_is_false. intros Hl. apply Hne.
    by apply (inv_lock_inj _ _ _ Hi o o' _ _ Ho Ho'). }
  pose proof Hi as []. split; simpl; rewrite ?HW; try done; [lia|..].
  - intros o' p'. rewrite lookup_insert_Some. intros [[-> <-]|[_ Ho']]; [done|].
    specialize (inv_early0 _ _ Ho'). destruct p'; simpl in *; lia.
  - intros o' p' s'. rewrite lookup_insert_Some. intros [[-> <-]|[Hne Ho']] Hp'; [done|].
    destruct (inv_slot0 _ _ _ Ho' Hp') as (v & Hv & Hok). exists v. split; [done|].
    assert ((s' < n)%nat) by (subst n; by eapply lookup_lt_Some).
    assert (∀ e, entered p' = Some (e, s') → e = epoch r) as He by eauto.
    destruct p'; simpl in *; simplify_eq; try done;
      try specialize (He _ eq_refl); destruct_and?; split_and!; auto; lia.
  - intros o1 o2 p1 p2 s'. rewrite !lookup_insert_Some.
    intros [[? ?]|[_ ?]] [[? ?]|[_ ?]] ??; simplify_eq/=; eauto.
  - intros s' w Hs' Hw. destruct (inv_occupied0 _ _ Hs' Hw) as (o' & p' & Ho' & Hp').
    exists o', p'. split; [|done]. rewrite lookup_insert_ne; [done|]. intros <-. simplify_eq/=.
  - intros o' p'. by apply (lock_change_locked r m o (AdvanceDrain (last_queue (epoch r)))).
  - intros o1 o2 p1 p2. by apply (lock_change_inj r m o (AdvanceDrain (last_queue (epoch r))) (drain r)).
  - by apply (lock_change_drain r m o (AdvanceDrain (last_queue (epoch r)))).
  - intros o' p'. rewrite lookup_insert_Some. intros [[-> <-]|[Hne Ho']].
    + simpl. split; [f_equal|]; lia.
    + specialize (Hothers _ _ Hne Ho'). specialize (inv_advance0 _ _ Ho').
      destruct p'; simpl in *; (done || lia).
  - intros q l x Hl Hx. apply (entry_ok_mono (epoch r)); [lia|].
    apply entry_ok_insert; [|by eauto]. intros; by simplify_eq.
Qed.

(** Changing the queues only. *)
Lemma inv_set_queue r m q l :
  epoch_inv n r m → (∀ x, x ∈ l → entry_ok (epoch r) m q x) →
  epoch_inv n (set_queue q l r) m.
Proof.
  intros [] Hl. split; simpl; try done; [by rewrite length_insert|].
  intros q' l' x [(-> & <- & _)|[_ ?]]%list_lookup_insert_Some; eauto.
Qed.

Lemma held_elem m o : o ∈ held m ↔ ∃ e s, m !! o = Some (GuardHeld e s).
Proof.
  unfold held. rewrite elem_of_dom. unfold is_Some. split.
  - intros [p [Hp Hh]%map_lookup_filter_Some]. destruct p; try done. eauto.
  - intros (e & s & Ho). exists (GuardHeld e s). by apply map_lookup_filter_Some.
Qed.

Lemma inv_retire r m o e s x r' :
  epoch_inv n r m → m !! o = Some (GuardHeld e s) →
  retire r e (x, held m) = Some r' → epoch_inv n r' m.
Proof.
  intros Hi Ho Hr. unfold retire in Hr. inv_bind.
  destruct (inv_slot _ _ _ Hi _ _ _ Ho eq_refl) as (v & _ & _ & He).
  apply inv_set_queue; [done|]. intros y [Hy|Hy%list_elem_of_singleton]%elem_of_app.
  { by eapply (inv_entries _ _ _ Hi). }
  subst y. exists e. split_and!; [lia..|done|]. intros o' Ho'. right.
  simpl in Ho'. apply held_elem in Ho' as (e' & s' & Ho'). exists e', s'. split; [done|].
  destruct (inv_slot _ _ _ Hi _ _ _ Ho' eq_refl) as (v' & _ & _ & He'). lia.
Qed.

Lemma inv_pop r m q x r' :
  epoch_inv n r m → drain_pop r q = Some (x, r') → epoch_inv n r' m.
Proof.
  intros Hi Hp. unfold drain_pop in Hp. inv_bind. destruct x0 as [|y l]; simplify_eq.
  apply inv_set_queue; [done|]. intros z Hz. eapply (inv_entries _ _ _ Hi); [done|by right].
Qed.

(** One access of an operation, the slots seen by a scan included. *)
Lemma scan_step r m cur mn i v :
  epoch_inv n r m → guards r !! i = Some v → advance_ok (epoch r) n m (AdvanceScan cur mn i) →
  advance_ok (epoch r) n m
    (AdvanceScan cur (if v =? 0 then mn else Z.min mn v) (S i)).
Proof.
  intros Hi Hv (-> & ? & Hen). assert ((if v =? 0 then mn else Z.min mn v) ≤ mn).
  { destruct (v =? 0); lia. }
  split_and!; [done|lia|]. intros Heq o p e s Ho Hp Hs.
  destruct (decide (s = i)) as [->|]; [|apply (Hen ltac:(lia) o p e s); [done..|lia]].
  destruct (inv_slot _ _ _ Hi _ _ _ Ho (entered_slot _ _ _ Hp)) as (v' & Hv' & Hok).
  simplify_eq. pose proof (slot_ok_pos _ _ _ _ (entered_slot _ _ _ Hp) Hok).
  rewrite (proj2 (Z.eqb_neq v 0)) in Heq by lia.
  destruct p; simplify_eq/=; lia.
Qed.

Lemma set_id r : set_drain (drain r) (set_hint (hint r) r) = r.
Proof. by destruct r. Qed.

Lemma set_guard_id r s v : guards r !! s = Some v → set_guard s v r = r.
Proof. intros. destruct r. unfold set_guard. simpl in *. by rewrite list_insert_id. Qed.

(** A step of an operation without slot that leaves the registry alone. *)
Lemma inv_local r m o p :
  epoch_inv n r m → (∀ p0, m !! o = Some p0 → slot_of p0 = None ∧ returned p0 = false) →
  slot_of p = None → locked p = default false (locked <$> m !! o) →
  early_ok (epoch r) p → advance_ok (epoch r) n m p → epoch_inv n r (<[o:=p]> m).
Proof.
  intros. rewrite <-(set_id r). apply inv_slotless; try done. left. auto.
Qed.

Lemma inv_guard_inner r m o p r' p' :
  epoch_inv n r m → m !! o = Some p → guard_inner r p = Some (r', p') →
  epoch_inv n r' (<[o:=p']> m).
Proof.
  intros Hi Ho Hs. pose proof (inv_epoch _ _ _ Hi) as HE.
  pose proof (inv_early _ _ _ Hi _ _ Ho) as Hearly.
  assert (Hloc : ∀ p1, slot_of p = None → returned p = false → locked p = false →
    slot_of p1 = None → locked p1 = false → early_ok (epoch r) p1 →
    advance_ok (epoch r) n m p1 → epoch_inv n r (<[o:=p1]> m)).
  { intros p1 ? ? Hl ? Hl1 ? ?. apply inv_local; try done; [by intros; simplify_eq|].
    rewrite Ho. simpl. by rewrite Hl, Hl1. }
  destruct p; simpl in Hs; simplify_eq.
  - apply Hloc; try done. simpl. lia.
  - rewrite <-(set_id (set_hint _ r)). apply (inv_slotless r m o _ _ (drain r)); try done.
    + by intros; simplify_eq.
    + left. by rewrite Ho.
  - destruct (Nat.ltb_spec i (length (guards r))); simplify_eq; [|by apply Hloc].
    inv_bind. apply Hloc; try done; by destruct (_ =? 0).
  - inv_bind. destruct (Z.eqb_spec x 0) as [->|]; simplify_eq; [|by apply Hloc].
    eapply inv_occupy; try done; [by right|]. simpl in *. lia.
  - destruct (inv_slot _ _ _ Hi _ _ _ Ho eq_refl) as (v & Hv & Hok).
    simpl in Hok. destruct (Z.eqb_spec (epoch r') e), reset;
      rewrite <-(set_guard_id r' slot v) by done; eapply inv_occupy; try done;
      try (intros ???; simplify_eq/=; by auto); simpl;
      destruct_and?; split_and?; auto with lia; intros; done.
  - destruct (inv_slot _ _ _ Hi _ _ _ Ho eq_refl) as (v & Hv & Hok). simpl in Hok.
    eapply inv_occupy; try done; [by left| |by simpl; lia].
    intros e' s' ?. simplify_eq/=. right. eauto.
Qed.

Lemma inv_try_advance r m o p r' p' :
  epoch_inv n r m → m !! o = Some p → try_advance_inner r p = Some (r', p') →
  epoch_inv n r' (<[o:=p']> m).
Proof.
  intros Hi Ho Hs. pose proof (inv_advance _ _ _ Hi _ _ Ho) as Ha.
  assert (Hloc : ∀ p1 d, slot_of p = None → returned p = false → slot_of p1 = None →
    early_ok (epoch r) p1 → advance_ok (epoch r) n m p1 →
    lock_change (drain r) d (Some p) p1 → epoch_inv n (set_drain d r) (<[o:=p1]> m)).
  { intros p1 d ? ? ? ? ? ?. apply (inv_slotless r m o p1 (hint r) d); try done.
    - by intros; simplify_eq.
    - by rewrite Ho. }
  assert (Hkeep : ∀ p1, slot_of p = None → returned p = false → slot_of p1 = None →
    early_ok (epoch r) p1 → advance_ok (epoch r) n m p1 → locked p1 = locked p →
    epoch_inv n r (<[o:=p1]> m)).
  { intros. apply inv_local; try done; [by intros; simplify_eq|by rewrite Ho]. }
  destruct p; simpl in Hs; simplify_eq.
  - destruct (drain r) eqn:Ed; simplify_eq; [by apply Hkeep|].
    apply Hloc; try done. right; left. done.
  - apply Hkeep; try done. split_and!; [done|lia|]. intros _ ?????; lia.
  - unfold can_advance. destruct (guards r' !! i) as [v|] eqn:Ev.
    + apply Hkeep; try done. by apply scan_step.
    + apply Hkeep; try done. destruct Ha as (? & ? & Hen). split_and!; try done.
      intros Heq o' q e s Ho' Hq _. apply (Hen Heq o' q e s); [done..|].
      apply lookup_ge_None in Ev. apply entered_slot in Hq.
      destruct (inv_slot _ _ _ Hi _ _ _ Ho' Hq) as (? & Hl%lookup_lt_Some & _). lia.
  - destruct Ha as (-> & ? & Hen). destruct (Z.eqb_spec min u64_max); simplify_eq.
    + pose proof (inv_epoch _ _ _ Hi). apply Hloc; try done; [simpl; lia|]. by right; right.
    + pose proof (inv_epoch _ _ _ Hi). destruct (Z.eqb_spec min (epoch r)); simplify_eq.
      * apply Hkeep; try done. split_and!; [done|lia|auto].
      * apply Hloc; try done. right; right. done.
  - destruct Ha as (-> & ? & Hen). by apply inv_add.
Qed.

Lemma inv_exec r m a c' :
  epoch_inv n r m → exec (mkConf r m) a = Some c' → epoch_inv n (reg c') (ops c').
Proof.
  intros Hi Ha. destruct a; simpl in Ha.
  - destruct (m !! o) eqn:Ho; simplify_eq/=. apply inv_local; try done; rewrite Ho; done.
  - destruct (m !! o) eqn:Ho; simplify_eq/=. apply inv_local; try done; rewrite Ho; done.
  - destruct (m !! o) as [[]|] eqn:Ho; simplify_eq/=;
      apply inv_local; try done; rewrite Ho; try done; by intros; simplify_eq.
  - destruct (m !! o) as [[]|] eqn:Ho; simplify_eq/=;
      apply inv_local; try done; rewrite Ho; try done; by intros; simplify_eq.
  - inv_bind. destruct x0 as [r' p']. simplify_eq/=. unfold op_step in *.
    destruct (guard_inner r x) as [[r1 p1]|] eqn:Hg; simplify_eq/=;
      [by eapply inv_guard_inner|by eapply inv_try_advance].
  - destruct (m !! o) as [[]|] eqn:Ho; simplify_eq/=. inv_bind. by eapply inv_retire.
  - destruct (m !! o) as [[]|] eqn:Ho; simplify_eq/=. by eapply inv_drop.
  - destruct (m !! o) as [[]|] eqn:Ho; simplify_eq/=. inv_bind. destruct x as [x r'].
    simplify_eq/=. by eapply inv_pop.
  - destruct (m !! o) as [[]|] eqn:Ho; simplify_eq/=.
    rewrite <-(set_id (drop_drain r)). apply (inv_slotless r m o _ (hint r) false); try done.
    + by intros; simplify_eq.
    + right; right. by rewrite Ho.
Qed.

Lemma inv_initial : epoch_inv n (with_capacity n : Registry (entry I)) ∅.
Proof.
  split; simpl; try done; [by rewrite length_replicate| |].
  - intros s v [-> _]%lookup_replicate. done.
  - intros q l x Hl Hx. assert (l = []) as ->; [|by apply elem_of_nil in Hx].
    do 4 (destruct q as [|q]; [by simplify_eq/=|]). done.
Qed.

Lemma inv_run c l c' :
  epoch_inv n (reg c) (ops c) → run c l = Some c' → epoch_inv n (@reg I c') (ops c').
Proof.
  revert c. induction l as [|a l IH]; intros c Hi Hr; simplify_eq/=; [done|].
  inv_bind. eapply IH; [|done]. destruct c. by eapply inv_exec.
Qed.

Lemma inv_reachable (c : econf I) : reachable n c → epoch_inv n (reg c) (ops c).
Proof. intros [l Hl]. eapply inv_run; [|done]. apply inv_initial. Qed.

(** Actions that neither touch the queues nor drop a guard. *)
Definition quiet (a : action I) : bool :=
  match a with Retire _ _ | Pop _ | DropGuard _ => false | _ => true end.

Lemma held_insert m o p :
  (∀ e s, m !! o ≠ Some (GuardHeld e s)) → held m ⊆ held (<[o:=p]> m).
Proof.
  intros Ho o' (e & s & Ho')%held_elem. apply held_elem. exists e, s.
  rewrite lookup_insert_ne; [done|]. intros <-. by eapply Ho.
Qed.

Lemma op_step_quiet r m o p r' p' :
  epoch_inv n r m → m !! o = Some p → op_step r p = Some (r', p') →
  retiring r' = retiring r ∧ epoch r ≤ epoch r' ∧ is_held p = false.
Proof.
  intros Hi Ho Hs. pose proof (inv_advance _ _ _ Hi _ _ Ho) as Ha.
  pose proof (inv_epoch _ _ _ Hi).
  assert (Hok : ∀ r1, retiring r1 = retiring r → epoch r1 = epoch r →
    retiring r1 = retiring r ∧ epoch r ≤ epoch r1 ∧ false = false) by (intros; split_and!; (done || lia)).
  unfold op_step in Hs. destruct (guard_inner r p) as [[r1 p1]|] eqn:Hg; simplify_eq.
  { destruct p; simpl in Hg; simplify_eq; try (by apply Hok).
    - destruct (i <? length (guards r))%nat; inv_bind; simplify_eq; by apply Hok.
    - inv_bind. destruct (x =? 0); simplify_eq; by apply Hok. }
  destruct p; simpl in Hs, Hg; simplify_eq; try (by apply Hok).
  - destruct (drain r); simplify_eq; by apply Hok.
  - destruct (min =? u64_max); [|destruct (min =? current)]; simplify_eq; by apply Hok.
  - destruct Ha as (-> & ? & _). simpl. split_and!; [done| |done].
    unfold wrapping_add, u64_max in *. rewrite Z.mod_small; lia.
Qed.

Lemma exec_quiet r m a c' :
  epoch_inv n r m → quiet a = true → exec (mkConf r m) a = Some c' →
  retiring (reg c') = retiring r ∧ epoch r ≤ epoch (reg c') ∧ held m ⊆ held (ops c').
Proof.
  intros Hi Hq Ha. destruct a; simpl in *; try done.
  1-4, 6: destruct (m !! o) as [[]|] eqn:Ho; simplify_eq/=; split_and!; try done;
    apply held_insert; by rewrite Ho.
  inv_bind. destruct x0 as [r' p']. simplify_eq/=.
  edestruct op_step_quiet as (Hr & HE & Hh); [done..|]. split_and!; [done..|].
  apply held_insert. intros e s Hx. simplify_eq.
Qed.

End invariant.

(** ** Safety of reclamation *)
Section safety.
Context {I : Type} (n : nat).

(** The queue drained after the advance to [E] holds only entries retired before [E - 2]:
    this is where four queues are needed. *)
Lemma drained_age E g :
  1 ≤ g ≤ E → 1 < E ≤ u64_max → queue g = last_queue (E - 1) → g ≤ E - 3.
Proof.
  unfold last_queue, queue, wrapping_sub, u64_max. intros ? ? Hq.
  apply (f_equal Z.of_nat) in Hq. rewrite !Z2Nat.id in Hq by (apply Z.mod_pos_bound; lia).
  rewrite Z.mod_mod_divide in Hq by (by exists (2 ^ 62)).
  pose proof (Z.div_mod g 4). pose proof (Z.div_mod (E - 1 - 2) 4). lia.
Qed.

Lemma held_epoch (c : econf I) o e s :
  epoch_inv n (reg c) (ops c) → ops c !! o = Some (GuardHeld e s) →
  1 ≤ e ≤ epoch (reg c) ∧ epoch (reg c) ≤ e + 1.
Proof. intros Hi Ho. by destruct (inv_slot _ _ _ Hi _ _ _ Ho eq_refl) as (v & _ & _ & ?). Qed.

Lemma popped_unseen (c : econf I) o q x seen r' :
  epoch_inv n (reg c) (ops c) → ops c !! o = Some (AdvanceDrain q) →
  drain_pop (reg c) q = Some ((x, seen), r') → seen ## held (ops c).
Proof.
  intros Hi Ho Hp. unfold drain_pop in Hp. inv_bind. destruct x0 as [|y l]; simplify_eq.
  destruct (inv_advance _ _ _ Hi _ _ Ho) as [-> HE]. pose proof (inv_epoch _ _ _ Hi).
  edestruct (inv_entries _ _ _ Hi) as (g & Hg & Hq & Hx); [done|by left|].
  apply drained_age in Hq; [|lia..]. intros o' Hs (e & s & Ho')%held_elem.
  destruct (held_epoch c o' e s) as [_ ?]; [done..|].
  destruct (Hx o' Hs) as [?|(e' & s' & ? & ?)]; simplify_eq. lia.
Qed.

(** C8: Safety of the reclamation, for any number of operations under any interleaving: when
    a drain returns an item, every guard that was held when the item was retired has been
    dropped; so no reader that could have observed the item before its retirement is left. *)
Theorem epoch_reclaims_safely (c : econf I) o q x seen r' :
  reachable n c → ops c !! o = Some (AdvanceDrain q) →
  drain_pop (reg c) q = Some ((x, seen), r') →
  ∀ o', o' ∈ seen → ∀ e s, ops c !! o' ≠ Some (GuardHeld e s).
Proof.
  intros Hr Ho Hp o' Hs e s Ho'. apply (inv_reachable n) in Hr.
  apply (popped_unseen c o q x seen r' Hr Ho Hp o' Hs), held_elem. eauto.
Qed.

(** The promises of the registry in every reachable state: a guard is in the current epoch
    or the one before; there is at most one drain; its queue is not the queue of any guard, so
    nothing is pushed while it is drained (its length is exact); and the counter is what the
    advancing thread read, as its debug assertion says. *)
Theorem epoch_drain_exclusive (c : econf I) :
  reachable n c →
  (∀ o e s, ops c !! o = Some (GuardHeld e s) → epoch (reg c) - 1 ≤ e ≤ epoch (reg c)) ∧
  (∀ o1 o2 q1 q2, ops c !! o1 = Some (AdvanceDrain q1) →
     ops c !! o2 = Some (AdvanceDrain q2) → o1 = o2) ∧
  (∀ o o' q e s, ops c !! o = Some (AdvanceDrain q) →
     ops c !! o' = Some (GuardHeld e s) → queue e ≠ q) ∧
  (∀ o cur, ops c !! o = Some (AdvanceAdd cur) → cur = epoch (reg c)).
Proof.
  intros Hi%(inv_reachable n). split_and!.
  - intros o e s Ho. pose proof (held_epoch _ _ _ _ Hi Ho). lia.
  - intros o1 o2 q1 q2 H1 H2. by apply (inv_lock_inj _ _ _ Hi o1 o2 _ _ H1 H2).
  - intros o o' q e s Ho Ho' Hq. destruct (inv_advance _ _ _ Hi _ _ Ho) as [-> ?].
    pose proof (held_epoch _ _ _ _ Hi Ho'). pose proof (inv_epoch _ _ _ Hi).
    apply drained_age in Hq; lia.
  - intros o cur Ho. by destruct (inv_advance _ _ _ Hi _ _ Ho).
Qed.

End safety.

(** A reader registers, a second thread retires an item under its own guard and a third one
    tries to advance: the schedule of the two witnesses below. *)
Definition demo_schedule : list (action nat) :=
  [StartGuard 0; StartGuard 1; StartAdvancer 2]
  ++ replicate 5 (Step 0) ++ replicate 5 (Step 1) ++ [Retire 1 7%nat; DropGuard 1; DropGuard 0]
  ++ mjoin (replicate 3 (TryAdvance 2 :: replicate 7 (Step 2) ++ [DropDrain 2]))%nat.
Definition demo_conf : econf nat :=
  default (initial 2) (run (initial 2) (take (length demo_schedule - 1) demo_schedule)).

Lemma epoch_reclaims_safely_witness :
  ∃ seen r', drain_pop (reg demo_conf) 1 = Some ((7%nat, seen), r') ∧
    ∀ e s, ops demo_conf !! 0%nat ≠ Some (GuardHeld e s).
Proof.
  do 2 eexists. split; [vm_compute; reflexivity|].
  eapply (epoch_reclaims_safely 2 demo_conf 2); [|vm_compute; reflexivity..|by vm_compute].
  exists (take (length demo_schedule - 1) demo_schedule). vm_compute. reflexivity.
Defined.

Lemma epoch_drain_exclusive_witness :
  ops demo_conf !! 2%nat = Some (AdvanceDrain 1) ∧
    ∀ o' e s, ops demo_conf !! o' = Some (GuardHeld e s) → queue e ≠ 1%nat.
Proof.
  assert (reachable 2 demo_conf) as Hr.
  { exists (take (length demo_schedule - 1) demo_schedule). vm_compute. reflexivity. }
  assert (ops demo_conf !! 2%nat = Some (AdvanceDrain 1)) as H2 by (vm_compute; reflexivity).
  destruct (epoch_drain_exclusive 2 demo_conf Hr) as (_ & _ & Hq & _).
  split; [exact H2|]. intros o' e s. exact (Hq 2%nat o' 1%nat e s H2).
Defined.

(** ** Progress of an operation that runs alone *)
Section progress.
Context {A : Type}.
Implicit Types r : Registry A.

Fixpoint solo (fuel : nat) r (p : op) : Registry A * op :=
  match fuel with
  | O => (r, p)
  | S fuel => match op_step r p with Some (r', p') => solo fuel r' p' | None => (r, p) end
  end.

(** [Registry::guard] and [Registry::try_advance] without interference; a guard needs two
    accesses per slot, an advance one, and a constant number around the loop. *)
Definition guard r : Registry A * op := solo (2 * length (guards r) + 5) r GuardCheck.
Definition try_advance r : Registry A * op := solo (length (guards r) + 5) r AdvanceLock.

(** [Iterator for Drain]: pops until the queue is empty. *)
Fixpoint drain_collect (fuel : nat) r (q : nat) : list A * Registry A :=
  match fuel with
  | O => ([], r)
  | S fuel =>
      match drain_pop r q with
      | Some (x, r') => let '(l, r'') := drain_collect fuel r' q in (x :: l, r'')
      | None => ([], r)
      end
  end.

(** A caller that advances and consumes the drain. *)
Definition advance_and_drain r : list A * Registry A :=
  match try_advance r with
  | (r', AdvanceDrain q) =>
      let '(l, r'') := drain_collect (drain_len r' q) r' q in (l, drop_drain r'')
  | (r', _) => ([], r')
  end.
Fixpoint advance_times (k : nat) r : list A * Registry A :=
  match k with
  | O => ([], r)
  | S k => let '(l, r') := advance_and_drain r in
           let '(l', r'') := advance_times k r' in (l ++ l', r'')
  end.

Lemma solo_step k r p r' p' :
  op_step r p = Some (r', p') → solo (S k) r p = solo k r' p'.
Proof. simpl. by intros ->. Qed.

Lemma solo_done k r p : op_step r p = None → solo k r p = (r, p).
Proof. destruct k; simpl; [done|]. by intros ->. Qed.

Definition min_guard (mn : Z) (l : list Z) : Z :=
  foldl (λ mn v, if v =? 0 then mn else Z.min mn v) mn l.

Lemma solo_scan k r cur mn i :
  solo (length (drop i (guards r)) + k) r (AdvanceScan cur mn i) =
  solo k r (AdvanceScan cur (min_guard mn (drop i (guards r))) (i + length (drop i (guards r)))).
Proof.
  remember (drop i (guards r)) as l eqn:El. revert mn i El.
  induction l as [|v l IH]; intros mn i El; simpl; [by rewrite Nat.add_0_r|].
  assert (guards r !! i = Some v) as Hv.
  { rewrite <-(Nat.add_0_r i), <-lookup_drop, <-El. done. }
  unfold op_step; simpl. unfold can_advance. rewrite Hv.
  rewrite IH; [f_equal; f_equal; lia|].
  rewrite (drop_S _ _ _ Hv) in El. congruence.
Qed.

Lemma min_guard_le l mn E :
  Forall (λ v, 0 ≤ v ≤ E) l → mn ≤ E →
  min_guard mn l = E ↔ mn = E ∧ Forall (λ v, v = 0 ∨ v = E) l.
Proof.
  intros Hl. revert mn. induction Hl as [|v l Hv Hl IH]; intros mn Hmn; simpl.
  { split; [auto|by intros [-> _]]. }
  rewrite IH by (destruct (v =? 0); lia). rewrite Forall_cons.
  destruct (Z.eqb_spec v 0); split; intros; destruct_and?; split_and!; auto; lia.
Qed.

Lemma try_advance_scan r :
  drain r = false →
  try_advance r = solo 2 (set_drain true r)
    (AdvanceDecide (epoch r) (min_guard (epoch r) (guards r))).
Proof.
  intros Hd. unfold try_advance.
  replace (length (guards r) + 5)%nat with (2 + (length (guards r) + 3))%nat by lia.
  rewrite Nat.add_succ_l. erewrite solo_step by (unfold op_step; simpl; by rewrite Hd).
  rewrite Nat.add_succ_l. erewrite solo_step by done. rewrite Nat.add_0_l.
  etransitivity; [apply (solo_scan 3 (set_drain true r) (epoch r) (epoch r) 0)|].
  simpl. unfold op_step; simpl. unfold can_advance. simpl.
  rewrite drop_0, lookup_ge_None_2 by done. done.
Qed.

(** What [try_advance] returns when nobody interferes. *)
Lemma try_advance_alone r :
  drain r = false → 1 ≤ epoch r < u64_max → Forall (λ v, 0 ≤ v ≤ epoch r) (guards r) →
  (Forall (λ v, v = 0 ∨ v = epoch r) (guards r) →
    try_advance r =
      (set_epoch (epoch r + 1) (set_drain true r), AdvanceDrain (last_queue (epoch r)))) ∧
  (¬ Forall (λ v, v = 0 ∨ v = epoch r) (guards r) → try_advance r = (r, AdvanceNone)).
Proof.
  intros Hd HE Hg. rewrite try_advance_scan by done.
  assert (HW : wrapping_add (epoch r) 1 = epoch r + 1).
  { unfold wrapping_add, u64_max in *. apply Z.mod_small. lia. }
  pose proof (min_guard_le _ (epoch r) _ Hg (Z.le_refl _)) as Hmin.
  assert (min_guard (epoch r) (guards r) ≤ epoch r) as Hle.
  { clear. generalize (guards r), (epoch r). intros l E.
    assert (∀ mn, mn ≤ E → min_guard mn l ≤ E) as H; [|apply H; lia].
    induction l as [|v l IH]; simpl; intros mn ?; [done|]. apply IH. destruct (v =? 0); lia. }
  simpl. unfold op_step; simpl. rewrite (proj2 (Z.eqb_neq _ u64_max)) by lia. split; intros Hall.
  - rewrite (proj2 Hmin) by done. rewrite Z.eqb_refl. simpl. by rewrite HW.
  - rewrite (proj2 (Z.eqb_neq _ (epoch r))); [simpl; destruct r; simpl in *; by subst|].
    intros ?. apply Hall. by apply Hmin.
Qed.

Lemma drain_collect_all r q l :
  retiring r !! q = Some l → drain_collect (length l) r q = (l, set_queue q [] r).
Proof.
  revert r. induction l as [|x l IH]; intros r Hl; simpl.
  - destruct r. unfold set_queue; simpl in *. by rewrite list_insert_id.
  - unfold drain_pop. rewrite Hl. simpl. rewrite IH.
    + unfold set_queue; simpl. by rewrite list_insert_insert_eq.
    + simpl. apply list_lookup_insert_eq. by eapply lookup_lt_Some.
Qed.

(** One round on a registry without guards. *)
Lemma advance_and_drain_alone r l :
  drain r = false → 1 ≤ epoch r < u64_max → Forall (λ v, v = 0) (guards r) →
  retiring r !! last_queue (epoch r) = Some l →
  advance_and_drain r = (l, set_queue (last_queue (epoch r)) [] (set_epoch (epoch r + 1) r)).
Proof.
  intros Hd HE Hg Hl. unfold advance_and_drain.
  rewrite (proj1 (try_advance_alone r Hd HE ltac:(eapply Forall_impl; [done|simpl; lia])))
    by (eapply Forall_impl; [done|by left]).
  unfold drain_len. simpl. rewrite Hl. simpl. erewrite drain_collect_all by done.
  destruct r; simpl in *; by subst.
Qed.

Lemma last_queue_mod e : last_queue e = Z.to_nat ((e + 2) mod 4).
Proof.
  unfold last_queue, queue, wrapping_sub. rewrite Z.mod_mod_divide by (by exists (2 ^ 62)).
  f_equal. replace (e + 2) with (e - 2 + 1 * 4) by lia. by rewrite Z.mod_add.
Qed.

Lemma last_queue_lt e : (last_queue e < 4)%nat.
Proof. rewrite last_queue_mod. pose proof (Z.mod_pos_bound (e + 2) 4). lia. Qed.

(** [k] rounds empty the queues of [k] consecutive epochs. *)
Lemma advance_times_alone k r :
  drain r = false → 1 ≤ epoch r → epoch r + Z.of_nat k ≤ u64_max →
  Forall (λ v, v = 0) (guards r) → length (retiring r) = 4%nat →
  ∃ l r', advance_times k r = (l, r') ∧ l ++ mjoin (retiring r') ≡ₚ mjoin (retiring r) ∧
    length (retiring r') = 4%nat ∧
    (∀ j, (retiring r !! j = Some [] ∨
           (∃ i, (i < k)%nat ∧ j = last_queue (epoch r + Z.of_nat i))) →
          (j < 4)%nat → retiring r' !! j = Some []).
Proof.
  revert r. induction k as [|k IH]; intros r Hd H1 Hk Hg Hq; simpl.
  { exists [], r. split_and!; [done..|]. intros j [?|(i & ? & _)]; [done|lia]. }
  pose proof (last_queue_lt (epoch r)) as Hlt.
  destruct (lookup_lt_is_Some_2 (retiring r) (last_queue (epoch r))) as [l Hl]; [lia|].
  rewrite (advance_and_drain_alone r l) by (done || lia).
  set (q := last_queue (epoch r)) in *.
  destruct (IH (set_queue q [] (set_epoch (epoch r + 1) r))) as (l' & r' & E & Hp & Hlen & Hj);
    simpl; try done; [lia..|by rewrite length_insert|].
  rewrite E. exists (l ++ l'), r'. split_and!; [done| |done|].
  - rewrite <-app_assoc, Hp. simpl.
    rewrite insert_take_drop by lia. rewrite <-(take_drop_middle (retiring r) q l Hl) at 3.
    rewrite !join_app. simpl. solve_Permutation.
  - intros j Hj' Hj4. apply Hj; [|done]. simpl. destruct (decide (q = j)) as [<-|Hne].
    { left. apply list_lookup_insert_eq. lia. }
    rewrite list_lookup_insert_ne by done. destruct Hj' as [?|(i & Hi & ->)]; [by left|right].
    destruct i as [|i]; [by rewrite Z.add_0_r in Hne|]. exists i. split; [lia|f_equal; lia].
Qed.

(** C38: Everything that was retired is reclaimed: on a registry without guards, four calls of
    [try_advance] whose drains are consumed return every retired item exactly once and leave
    the queues empty. *)
Theorem reclaim_in_four r :
  drain r = false → 1 ≤ epoch r → epoch r + 4 ≤ u64_max →
  Forall (λ v, v = 0) (guards r) → length (retiring r) = 4%nat →
  ∃ l r', advance_times 4 r = (l, r') ∧ l ≡ₚ mjoin (retiring r) ∧ mjoin (retiring r') = [].
Proof.
  intros Hd H1 H4 Hg Hq. destruct (advance_times_alone 4 r) as (l & r' & E & Hp & Hl & Hj);
    try done. exists l, r'.
  assert (mjoin (retiring r') = []) as Hnil; [|by rewrite Hnil, app_nil_r in Hp].
  apply join_nil_2, Forall_lookup. intros j x Hx. apply lookup_lt_Some in Hx as Hlt.
  rewrite Hj in Hx; [by simplify_eq| |lia]. right.
  exists (Z.to_nat ((Z.of_nat j - (epoch r + 2)) mod 4)). rewrite last_queue_mod.
  pose proof (Z.mod_pos_bound (Z.of_nat j - (epoch r + 2)) 4). rewrite Z2Nat.id by lia.
  split; [lia|]. rewrite Z.add_shuffle0, Zplus_mod_idemp_r.
  replace (epoch r + 2 + (Z.of_nat j - (epoch r + 2))) with (Z.of_nat j) by lia.
  rewrite Z.mod_small by lia. by rewrite Nat2Z.id.
Qed.

(** A probe of the slots finds the first free one from the hint on. *)
Lemma solo_probe k r e h i d :
  (i + d < length (guards r))%nat →
  (∀ j, (i ≤ j < i + d)%nat → ∃ v, guards r !! probe_slot r h j = Some v ∧ v ≠ 0) →
  solo (d + k) r (GuardLoad e h i) = solo k r (GuardLoad e h (i + d)).
Proof.
  revert i. induction d as [|d IH]; intros i Hi Hj; simpl; [by rewrite Nat.add_0_r|].
  destruct (Hj i) as (v & Hv & Hnz); [lia|]. unfold op_step; simpl.
  destruct (Nat.ltb_spec i (length (guards r))); [|lia]. rewrite Hv. simpl.
  rewrite (proj2 (Z.eqb_neq v 0)) by done. rewrite IH; [f_equal; f_equal; lia|lia|].
  intros j ?. apply Hj. lia.
Qed.

Lemma guard_probe r d :
  (d < length (guards r))%nat → guards r !! probe_slot r (hint r) d = Some 0 →
  (∀ j, (j < d)%nat → ∃ v, guards r !! probe_slot r (hint r) j = Some v ∧ v ≠ 0) →
  guard r = (set_guard (probe_slot r (hint r) d) (epoch r)
               (set_hint (wrapping_add (hint r) 1) r),
             GuardHeld (epoch r) (probe_slot r (hint r) d)).
Proof.
  intros Hd H0 Hj. unfold guard.
  replace (2 * length (guards r) + 5)%nat with
    (S (S (d + S (S (S (2 * length (guards r) - d))))))%nat by lia.
  erewrite !solo_step by done.
  set (r1 := set_hint (wrapping_add (hint r) 1) r).
  rewrite (solo_probe _ r1 (epoch r) (hint r) 0 d) by (done || (intros; apply Hj; lia)).
  rewrite Nat.add_0_l. erewrite solo_step; cycle 1.
  { unfold op_step; simpl. destruct (Nat.ltb_spec d (length (guards r))); [|lia].
    unfold probe_slot in *. simpl. rewrite H0. simpl. done. }
  erewrite solo_step; cycle 1.
  { unfold op_step; simpl. unfold probe_slot in *. simpl. rewrite H0. simpl. done. }
  erewrite solo_step by (unfold op_step; simpl; by rewrite Z.eqb_refl).
  by apply solo_done.
Qed.

(** The probe sequence visits every slot unless the hint wraps around within it. *)
Lemma probe_reaches r s :
  (s < length (guards r))%nat → 0 ≤ hint r → hint r + Z.of_nat (length (guards r)) ≤ 2 ^ 64 →
  ∃ d, (d < length (guards r))%nat ∧ probe_slot r (hint r) d = s.
Proof.
  intros Hs H0 H64. set (n := Z.of_nat (length (guards r))) in *.
  pose proof (Z.mod_pos_bound (Z.of_nat s - hint r) n) as Hd.
  exists (Z.to_nat ((Z.of_nat s - hint r) mod n)). split; [lia|].
  unfold probe_slot, wrapping_add. fold n. rewrite Z2Nat.id by lia.
  rewrite (Z.mod_small (_ + _)) by lia. rewrite Zplus_mod_idemp_r.
  replace (hint r + (Z.of_nat s - hint r)) with (Z.of_nat s) by lia.
  rewrite Z.mod_small by lia. apply Nat2Z.id.
Qed.

Lemma probe_slot_lt r h i : (0 < length (guards r))%nat → (probe_slot r h i < length (guards r))%nat.
Proof.
  intros. unfold probe_slot.
  pose proof (Z.mod_pos_bound (wrapping_add h (Z.of_nat i)) (Z.of_nat (length (guards r)))). lia.
Qed.

(** A call of [guard] that is not interfered with succeeds whenever a slot is free: it
    returns a guard of the current epoch and changes nothing but the hint and that slot.  (The
    hint wraps around once in [2 ^ 64] calls; a call whose probes wrap may miss slots.) *)
Theorem guard_alone r s :
  guards r !! s = Some 0 → 0 ≤ hint r → hint r + Z.of_nat (length (guards r)) ≤ 2 ^ 64 →
  ∃ s', guards r !! s' = Some 0 ∧
    guard r = (set_guard s' (epoch r) (set_hint (wrapping_add (hint r) 1) r),
               GuardHeld (epoch r) s').
Proof.
  intros Hs H0 H64. apply lookup_lt_Some in Hs as Hlt.
  destruct (probe_reaches r s) as (d & Hd & Hp); [done..|]. rewrite <-Hp in Hs. clear s Hlt Hp.
  induction d as [d IH] using lt_wf_ind.
  destruct (decide (Exists (λ j, guards r !! probe_slot r (hint r) j = Some 0) (seq 0 d)))
    as [(j & Hj%elem_of_seq & Hj0)%Exists_exists|Hno].
  - apply (IH j); [lia|done|lia].
  - exists (probe_slot r (hint r) d). split; [done|]. apply guard_probe; [done..|].
    intros j Hj. destruct (lookup_lt_is_Some_2 (guards r) (probe_slot r (hint r) j)) as [v Hv].
    { apply probe_slot_lt. lia. }
    exists v. split; [done|]. intros ->. apply Hno, Exists_exists. exists j.
    split; [apply elem_of_seq; lia|done].
Qed.

End progress.

Lemma reclaim_in_four_witness :
  ∃ l r', advance_times 4 (mkRegistry [0; 0] 9 3 false [[5%nat]; []; [6%nat; 7%nat]; [8%nat]])
    = (l, r') ∧ l ≡ₚ [5; 6; 7; 8]%nat ∧ mjoin (retiring r') = [].
Proof.
  apply (reclaim_in_four (mkRegistry [0; 0] 9 3 false [[5%nat]; []; [6%nat; 7%nat]; [8%nat]]));
    simpl; unfold u64_max; try lia; try done. by repeat constructor.
Defined.

Lemma guard_alone_witness :
  ∃ s', [4; 0; 5] !! s' = Some 0 ∧
    guard (mkRegistry [4; 0; 5] 8 5 false (replicate 4 ([] : list nat)))
    = (mkRegistry (<[s':=5]> [4; 0; 5]) 9 5 false (replicate 4 []), GuardHeld 5 s').
Proof.
  apply (guard_alone (mkRegistry [4; 0; 5] 8 5 false (replicate 4 ([] : list nat))) 1);
    simpl; lia || done.
Defined.
