(* ===== verification/Freelist.v ===== *)
(** * The free list of slots ([diskann-inmem/src/freelist.rs])

    The recycled ids (a bounded lock-free queue), the counter of minted ids and the cursor of
    cooperative scans, with one definition per atomic access where a method makes several.
    The theorems state which ids a caller can obtain, that no id is minted twice under any
    interleaving, and that the ranges handed out for scanning partition the id space. *)

From S2P Require Import Prelude.
Local Open Scope Z_scope.

(** ** State *)

Definition SCAN_SIZE : Z := 256.
Definition u32_wrapping_add (x y : Z) : Z := (x + y) mod 2 ^ 32.
Definition u32_checked_add (x y : Z) : option Z := if x + y <? 2 ^ 32 then Some (x + y) else None.
Definition div_ceil (x y : Z) : Z := let q := x / y in if x mod y =? 0 then q else q + 1.

(** [recycled] is crossbeam's [ArrayQueue]: first in, first out, [capacity] elements. *)
Record Freelist := mkFreelist {
  recycled : list Z;
  capacity : nat;
  max : Z;
  next : Z;
  scan_bucket : Z;
}.

Definition freelist_new (mx : Z) (cap : nat) : Freelist := mkFreelist [] cap mx 0 0.

Definition set_recycled (l : list Z) (f : Freelist) : Freelist :=
  mkFreelist l (capacity f) (max f) (next f) (scan_bucket f).
Definition set_next (n : Z) (f : Freelist) : Freelist :=
  mkFreelist (recycled f) (capacity f) (max f) n (scan_bucket f).
Definition set_scan_bucket (b : Z) (f : Freelist) : Freelist :=
  mkFreelist (recycled f) (capacity f) (max f) (next f) b.

(** ** Operations *)

(** [Freelist::pop_recycled], also the first access of [pop]. *)
Definition pop_recycled (f : Freelist) : option (Z * Freelist) :=
  match recycled f with
  | [] => None
  | id :: l => Some (id, set_recycled l f)
  end.

(** [Id]. *)
Inductive Id := Found (id : Z) | Id_Scan.

(** One iteration of the loop of [pop] over the high-water mark, from the value [n] read last:
    the exchange succeeds, fails with the actual value, or the loop ends. *)
Inductive mint := Minted (id : Z) (f : Freelist) | MintRetry (n : Z) | MintNone.
Definition pop_mint (f : Freelist) (n : Z) : mint :=
  if n <? max f then
    if next f =? n then Minted n (set_next (n + 1) f) else MintRetry (next f)
  else MintNone.

(** [Freelist::pop] without interference. *)
Definition pop (f : Freelist) : Id * Freelist :=
  match pop_recycled f with
  | Some (id, f') => (Found id, f')
  | None =>
      match pop_mint f (next f) with
      | Minted id f' => (Found id, f')
      | _ => (Id_Scan, f)
      end
  end.

(** [Freelist::scan]: the range [start..stop]. *)
Definition scan (f : Freelist) : (Z * Z) * Freelist :=
  if max f =? 0 then ((0, 0), f)
  else
    let num_buckets := div_ceil (max f) SCAN_SIZE in
    let bucket := scan_bucket f mod num_buckets in
    let f' := set_scan_bucket (u32_wrapping_add (scan_bucket f) 1) f in
    let start := bucket * SCAN_SIZE in
    let stop := match u32_checked_add start SCAN_SIZE with
                | Some stop => Z.min stop (max f)
                | None => max f
                end in
    ((start, stop), f').

(** [Iterator for Scan]: the next id of a range. *)
Definition scan_next (s : Z * Z) : option (Z * (Z * Z)) :=
  if s.1 >=? s.2 then None else Some (s.1, (s.1 + 1, s.2)).
Definition scan_len (s : Z * Z) : Z := s.2 - s.1.

(** [Freelist::push]: [false] when the queue is full or the id is not managed. *)
Definition push (f : Freelist) (id : Z) : Freelist * bool :=
  if id <? max f then
    if (length (recycled f) <? capacity f)%nat
    then (set_recycled (recycled f ++ [id]) f, true) else (f, false)
  else (f, false).

(** ** Well-formedness *)

Record freelist_ok (f : Freelist) : Prop := {
  fl_max : 0 ≤ max f < 2 ^ 32;
  fl_next : 0 ≤ next f ≤ max f;
  fl_bucket : 0 ≤ scan_bucket f < 2 ^ 32;
  fl_recycled : Forall (λ id, 0 ≤ id < max f) (recycled f);
  fl_bounded : (length (recycled f) ≤ capacity f)%nat;
}.

Lemma freelist_new_ok mx cap : 0 ≤ mx < 2 ^ 32 → freelist_ok (freelist_new mx cap).
Proof. split; simpl; try lia. constructor. Qed.

Lemma pop_recycled_ok f id f' :
  freelist_ok f → pop_recycled f = Some (id, f') →
  freelist_ok f' ∧ 0 ≤ id < max f ∧ max f' = max f.
Proof.
  intros [] Hp. unfold pop_recycled in Hp. destruct (recycled f) as [|x l] eqn:El; simplify_eq.
  apply Forall_cons in fl_recycled0 as [? ?]. split_and!; try done; [|lia..].
  split; simpl in *; try lia; done.
Qed.

Lemma pop_mint_ok f n id f' :
  freelist_ok f → 0 ≤ n → pop_mint f n = Minted id f' →
  freelist_ok f' ∧ 0 ≤ id < max f ∧ max f' = max f ∧ id = next f ∧ next f' = next f + 1.
Proof.
  intros [] ? Hp. unfold pop_mint in Hp. destruct (Z.ltb_spec n (max f)); [|done].
  destruct (Z.eqb_spec (next f) n); simplify_eq. simpl. split_and!; try lia.
  split; simpl; try lia; done.
Qed.

Lemma push_ok f id : freelist_ok f → 0 ≤ id → freelist_ok (push f id).1 ∧ max (push f id).1 = max f.
Proof.
  intros [] ?. unfold push. destruct (Z.ltb_spec id (max f)); [|done].
  destruct (Nat.ltb_spec (length (recycled f)) (capacity f)); [|done].
  split; [|done]. split; simpl; try lia.
  - apply Forall_app; split; [done|]. constructor; [lia|constructor].
  - rewrite length_app. simpl. lia.
Qed.

Lemma div_ceil_spec x y : 0 < y → 0 ≤ x → (div_ceil x y - 1) * y < x ≤ div_ceil x y * y.
Proof.
  intros. unfold div_ceil. pose proof (Z.div_mod x y). pose proof (Z.mod_pos_bound x y).
  destruct (Z.eqb_spec (x mod y) 0); nia.
Qed.

Lemma scan_spec f :
  freelist_ok f → 0 < max f →
  let b := scan_bucket f mod div_ceil (max f) SCAN_SIZE in
  (scan f).1 = (b * SCAN_SIZE, Z.min ((b + 1) * SCAN_SIZE) (max f)) ∧
  0 ≤ b * SCAN_SIZE < max f.
Proof.
  intros [] Hm. pose proof (div_ceil_spec (max f) SCAN_SIZE) as Hc. unfold SCAN_SIZE in *.
  specialize (Hc ltac:(lia) ltac:(lia)).
  pose proof (Z.mod_pos_bound (scan_bucket f) (div_ceil (max f) 256)) as Hb.
  unfold scan, SCAN_SIZE. rewrite (proj2 (Z.eqb_neq _ 0)) by lia. simpl.
  set (b := scan_bucket f mod _) in *. split; [|nia]. f_equal.
  unfold u32_checked_add. destruct (Z.ltb_spec (b * 256 + 256) (2 ^ 32)); f_equal; lia.
Qed.

Lemma scan_ok f :
  freelist_ok f →
  freelist_ok (scan f).2 ∧ max (scan f).2 = max f ∧
  0 ≤ (scan f).1.1 ∧ (scan f).1.2 ≤ max f ∧ (scan f).1.1 ≤ (scan f).1.2 ∧
  (0 < max f → (scan f).1.1 < (scan f).1.2).
Proof.
  intros Hf. destruct (Z.eq_dec (max f) 0) as [E|E].
  { unfold scan. rewrite E. simpl. pose proof Hf as []. split_and!; try done; lia. }
  destruct (scan_spec f Hf) as [Hs Hb]; [destruct Hf; lia|]. rewrite Hs. simpl.
  pose proof Hf as []. unfold SCAN_SIZE in *. split_and!; try lia;
    unfold scan; rewrite (proj2 (Z.eqb_neq _ 0)) by done; simpl; [|done].
  split; simpl; try done. unfold u32_wrapping_add. apply Z.mod_pos_bound. lia.
Qed.

#[export] Hint Resolve freelist_new_ok : rust.

(** ** Scans partition the ids *)

(** The ids of a range, as its iterator yields them. *)
Definition range_ids (s : Z * Z) : list Z :=
  (λ i, s.1 + Z.of_nat i) <$> seq 0 (Z.to_nat (scan_len s)).

Fixpoint scan_times (k : nat) (f : Freelist) : list Z :=
  match k with
  | O => []
  | S k => let '(s, f') := scan f in range_ids s ++ scan_times k f'
  end.

Lemma elem_of_range_ids s x : x ∈ range_ids s ↔ s.1 ≤ x < s.2.
Proof.
  unfold range_ids, scan_len. rewrite list_elem_of_fmap. split.
  - intros (i & -> & Hi%elem_of_seq). lia.
  - intros. exists (Z.to_nat (x - s.1)). split; [lia|]. apply elem_of_seq. lia.
Qed.

Lemma range_ids_NoDup s : NoDup (range_ids s).
Proof. apply NoDup_fmap_2; [intros ???; lia|apply NoDup_seq]. Qed.

Lemma scan_bucket_next f :
  freelist_ok f → 0 < max f → scan_bucket f + 1 < 2 ^ 32 →
  scan_bucket (scan f).2 = scan_bucket f + 1.
Proof.
  intros [] ? ?. unfold scan. rewrite (proj2 (Z.eqb_neq _ 0)) by lia. simpl.
  unfold u32_wrapping_add. apply Z.mod_small. lia.
Qed.

(** An id lies in the range of a scan if its block is the bucket of the scan. *)
Lemma scan_elem f x :
  freelist_ok f → 0 < max f →
  x ∈ range_ids (scan f).1 ↔
  0 ≤ x < max f ∧ x / SCAN_SIZE = scan_bucket f mod div_ceil (max f) SCAN_SIZE.
Proof.
  intros Hf Hm. destruct (scan_spec f Hf Hm) as [-> Hb]. rewrite elem_of_range_ids. simpl.
  unfold SCAN_SIZE in *. set (b := _ mod _) in *.
  pose proof (Z.div_mod x 256). pose proof (Z.mod_pos_bound x 256). split; intros; lia.
Qed.

Lemma scan_times_elem k f x :
  freelist_ok f → 0 < max f → scan_bucket f + Z.of_nat k ≤ 2 ^ 32 →
  x ∈ scan_times k f ↔
  0 ≤ x < max f ∧ ∃ j, 0 ≤ j < Z.of_nat k ∧
    x / SCAN_SIZE = (scan_bucket f + j) mod div_ceil (max f) SCAN_SIZE.
Proof.
  revert f. induction k as [|k IH]; intros f Hf Hm Hb.
  { simpl. split; [by intros ?%elem_of_nil|]. intros (_ & j & ? & _). lia. }
  cbn [scan_times]. destruct (scan f) as [s f'] eqn:Es. rewrite elem_of_app.
  pose proof (scan_elem f x Hf Hm) as Hx. rewrite Es in Hx. simpl in Hx. rewrite Hx. clear Hx.
  destruct (scan_ok f Hf) as (Hf' & Hm' & _). rewrite Es in Hf', Hm'. simpl in *.
  destruct k as [|k].
  { simpl. split.
    - intros [(? & ?)|?%elem_of_nil]; [|done]. split; [done|]. exists 0. rewrite Z.add_0_r. auto with lia.
    - intros (? & j & ? & Hj). left. replace j with 0 in Hj by lia. by rewrite Z.add_0_r in Hj. }
  pose proof (scan_bucket_next f Hf Hm) as Hn. rewrite Es in Hn. simpl in Hn.
  specialize (Hn ltac:(lia)).
  rewrite IH by (done || lia). rewrite Hm', Hn. split.
  - intros [(? & ?)|(? & j & ? & ->)]; (split; [done|]).
    + exists 0. rewrite Z.add_0_r. auto with lia.
    + exists (1 + j). split; [lia|f_equal; lia].
  - intros (? & j & ? & Hj). destruct (Z.eq_dec j 0) as [->|].
    + left. by rewrite Z.add_0_r in Hj.
    + right. split; [done|]. exists (j - 1). split; [lia|]. rewrite Hj. f_equal. lia.
Qed.

Lemma mod_shift_ne a j m : 0 < j < m → (a + j) mod m ≠ a mod m.
Proof.
  intros Hj E. pose proof (Z.div_mod (a + j) m ltac:(lia)) as H1.
  pose proof (Z.div_mod a m ltac:(lia)) as H2. rewrite E in H1.
  generalize dependent (a mod m). generalize ((a + j) / m), (a / m). intros q1 q2 c _ H1 H2.
  assert (j = m * (q1 - q2)) by lia. destruct (Z.le_gt_cases (q1 - q2) 0); nia.
Qed.

Lemma scan_times_NoDup k f :
  freelist_ok f → 0 < max f → scan_bucket f + Z.of_nat k ≤ 2 ^ 32 →
  Z.of_nat k ≤ div_ceil (max f) SCAN_SIZE → NoDup (scan_times k f).
Proof.
  revert f. induction k as [|k IH]; intros f Hf Hm Hb Hk; [constructor|].
  cbn [scan_times]. destruct (scan f) as [s f'] eqn:Es.
  destruct (scan_ok f Hf) as (Hf' & Hm' & _). rewrite Es in Hf', Hm'. simpl in *.
  destruct k as [|k]; [simpl; rewrite app_nil_r; apply range_ids_NoDup|].
  pose proof (scan_bucket_next f Hf Hm) as Hn. rewrite Es in Hn. simpl in Hn.
  specialize (Hn ltac:(lia)).
  apply NoDup_app. split_and!; [apply range_ids_NoDup| |].
  2: apply IH; rewrite ?Hm'; (done || lia).
  intros x Hx Hx'. pose proof (scan_elem f x Hf Hm) as Hs. rewrite Es in Hs. apply Hs in Hx.
  apply scan_times_elem in Hx' as (_ & j & ? & Hj); [|done|lia..].
  rewrite Hm', Hn in Hj. destruct Hx as [_ Hx]. rewrite Hj in Hx.
  rewrite <-Z.add_assoc in Hx. apply mod_shift_ne in Hx; [done|lia].
Qed.

(** Cooperative scanning covers everything: the ranges that [div_ceil(max, 256)] calls of
    [scan] hand out, to whichever threads, contain every managed id exactly once. *)
Theorem scan_partitions f :
  freelist_ok f → 0 < max f →
  scan_bucket f + div_ceil (max f) SCAN_SIZE ≤ 2 ^ 32 →
  scan_times (Z.to_nat (div_ceil (max f) SCAN_SIZE)) f ≡ₚ range_ids (0, max f).
Proof.
  intros Hf Hm Hb. pose proof (div_ceil_spec (max f) SCAN_SIZE) as Hc. unfold SCAN_SIZE in *.
  specialize (Hc ltac:(lia) ltac:(lia)).
  apply NoDup_Permutation; [|apply range_ids_NoDup|].
  { apply scan_times_NoDup; unfold SCAN_SIZE; (done || lia). }
  intros x. rewrite scan_times_elem by (done || lia). rewrite elem_of_range_ids. simpl.
  split; [by intros [? _]|]. intros Hx. split; [done|]. unfold SCAN_SIZE.
  set (nb := div_ceil (max f) 256) in *. pose proof (Z.div_mod x 256).
  pose proof (Z.mod_pos_bound x 256).
  exists ((x / 256 - scan_bucket f) mod nb). pose proof (Z.mod_pos_bound (x / 256 - scan_bucket f) nb).
  split; [lia|]. rewrite Zplus_mod_idemp_r. symmetry.
  replace (scan_bucket f + (x / 256 - scan_bucket f)) with (x / 256) by lia.
  apply Z.mod_small. split; [apply Z.div_pos; lia|apply Z.div_lt_upper_bound; nia].
Qed.

Lemma scan_partitions_witness :
  scan_times 3 (mkFreelist [] 4 600 600 7) ≡ₚ range_ids (0, 600).
Proof.
  apply (scan_partitions (mkFreelist [] 4 600 600 7)); [|done..].
  split; simpl; try lia; constructor.
Defined.
