(* ===== verification/InmemNeighbors.v ===== *)
(** * The adjacency lists of the in-memory provider ([diskann-inmem/src/neighbors.rs])

    A graph in one allocation: a row holds the length of a list and then its ids, as 32-bit
    words.  Every method runs under the lock of its shard (readers share it, writers own it), so
    the methods are modelled as atomic; a [Lock] held across a read-modify-write is the pair of
    [lock] and the method that consumes it.  The theorem is the refinement of the obvious
    specification, a finite map from indices to lists of bounded length. *)

From S2P Require Import Prelude InmemBuffer Freelist.
Local Open Scope Z_scope.

Definition LOCK_GRANULARITY : Z := 16.
Definition lock_index (i : Z) : Z := i / LOCK_GRANULARITY.
Definition id_size : Z := 4.

(** ** State *)

(** [rows] is the contents of [nb_buffer], a list of words per entry. *)
Record Neighbors := mkNeighbors {
  nb_buffer : Buffer;
  rows : list (list Z);
  locks : Z;
}.

Inductive NeighborsError := NeighborsOverflow (max_length : Z) | AllocationFailed (e : BufferError).
Inductive OutOfBoundsError := mkOutOfBounds (i : Z).
Record TooLong := mkTooLong { got : Z; max_len : Z }.
Inductive SetError := SetOutOfBounds (e : OutOfBoundsError) | SetTooLong (e : TooLong).

(** ** Operations *)

Definition neighbors_new (n max_length : Z) : result NeighborsError Neighbors :=
  match (l ← bytes_checked_add max_length 1; bytes_checked_mul l id_size) with
  | None => Err (NeighborsOverflow max_length)
  | Some b =>
      match buffer_new n b 128 with
      | Err e => Err (AllocationFailed e)
      | Ok buf =>
          Ok (mkNeighbors buf (replicate (Z.to_nat n) (replicate (Z.to_nat (b / id_size)) 0))
                (div_ceil n LOCK_GRANULARITY))
      end
  end.

Definition max_length (g : Neighbors) : Z := (stride (nb_buffer g) - id_size) / id_size.
Definition nb_entries (g : Neighbors) : Z := entries (nb_buffer g).

Definition check (g : Neighbors) (i : Z) : result OutOfBoundsError unit :=
  if nb_entries g <=? i then Err (mkOutOfBounds i) else Ok ().

(** The length word of a row, clamped. *)
Definition row_len (cap : Z) (row : list Z) : Z := Z.min (default 0 (head row)) cap.

(** [Neighbors::get]: the list that is copied out; a missing row or lock is undefined
    behaviour in the source ([None]). *)
Definition get (g : Neighbors) (i : Z) : option (result OutOfBoundsError (list Z)) :=
  match check g i with
  | Err e => Some (Err e)
  | Ok _ =>
      _ ← rassert (lock_index i <? locks g);
      row ← rows g !! Z.to_nat i;
      let len := Z.to_nat (row_len (max_length g) row) in
      _ ← rassert (len <=? length (tail row))%nat;
      Some (Ok (take len (tail row)))
  end.

(** [Lock]: the row under its write lock. *)
Record Lock := mkLock { lock_row : Z; lock_capacity : Z }.

Definition lock (g : Neighbors) (i : Z) : option (result OutOfBoundsError Lock) :=
  match check g i with
  | Err e => Some (Err e)
  | Ok _ => _ ← rassert (lock_index i <? locks g); Some (Ok (mkLock i (max_length g)))
  end.

Definition lock_len (g : Neighbors) (l : Lock) : option Z :=
  row_len (lock_capacity l) <$> rows g !! Z.to_nat (lock_row l).

(** Copies [v] into the row after [off] ids, then writes the length word. *)
Definition write_row (g : Neighbors) (l : Lock) (off : nat) (v : list Z) (newlen : Z)
  : option Neighbors :=
  row ← rows g !! Z.to_nat (lock_row l);
  _ ← rassert (off + length v <? length row)%nat;
  Some (mkNeighbors (nb_buffer g)
    (<[Z.to_nat (lock_row l) :=
        newlen :: take off (tail row) ++ v ++ drop (off + length v) (tail row)]> (rows g))
    (locks g)).

(** [Lock::append]. *)
Definition append (g : Neighbors) (l : Lock) (v : list Z) : option (result TooLong Neighbors) :=
  len ← lock_len g l;
  let newlen := Z.min (len + Z.of_nat (length v)) (usize_limit - 1) in
  if lock_capacity l <? newlen then Some (Err (mkTooLong newlen (lock_capacity l)))
  else g' ← write_row g l (Z.to_nat len) v newlen; Some (Ok g').

(** [Lock::write_unchecked] and [Neighbors::set]. *)
Definition write_unchecked (g : Neighbors) (l : Lock) (v : list Z) : option Neighbors :=
  write_row g l 0 v (Z.of_nat (length v)).

Definition set (g : Neighbors) (i : Z) (v : list Z) : option (result SetError Neighbors) :=
  match check g i with
  | Err e => Some (Err (SetOutOfBounds e))
  | Ok _ =>
      if max_length g <? Z.of_nat (length v)
      then Some (Err (SetTooLong (mkTooLong (Z.of_nat (length v)) (max_length g))))
      else
        _ ← rassert (lock_index i <? locks g);
        g' ← write_unchecked g (mkLock i (max_length g)) v; Some (Ok g')
  end.

(** ** The specification: a total map from the indices to bounded lists *)

Definition row_list (row : list Z) : list Z := take (Z.to_nat (default 0 (head row))) (tail row).
Definition adjacency (g : Neighbors) : list (list Z) := row_list <$> rows g.

Record neighbors_ok (n cap : Z) (g : Neighbors) : Prop := {
  nb_cap : max_length g = cap;
  nb_n : nb_entries g = n;
  nb_rows : length (rows g) = Z.to_nat n;
  nb_row : ∀ row, row ∈ rows g →
    length row = S (Z.to_nat cap) ∧ 0 ≤ default 0 (head row) ≤ cap;
  nb_locks : locks g = div_ceil n LOCK_GRANULARITY;
  nb_bounds : 0 ≤ cap < 2 ^ 32 ∧ 0 ≤ n < 2 ^ 32;
}.

Section lemmas.
Context (n cap : Z).
Implicit Types g : Neighbors.

Lemma neighbors_new_ok g :
  0 ≤ cap < 2 ^ 32 → 0 ≤ n < 2 ^ 32 → neighbors_new n cap = Ok g →
  neighbors_ok n cap g ∧ adjacency g = replicate (Z.to_nat n) [].
Proof.
  intros Hc Hn. unfold neighbors_new, bytes_checked_add, bytes_checked_mul, usize_limit, id_size.
  rewrite (proj2 (Z.ltb_lt (cap + 1) _)) by lia. cbn [mbind option_bind].
  rewrite (proj2 (Z.ltb_lt ((cap + 1) * 4) _)) by lia.
  destruct (buffer_new n ((cap + 1) * 4) 128) as [buf|] eqn:Eb; [|done]. intros [= <-].
  apply buffer_new_Ok in Eb as (Hs & He & _). rewrite Z.div_mul by lia.
  replace (Z.to_nat (cap + 1)) with (S (Z.to_nat cap)) by lia.
  split; [split|]; simpl; try done.
  - unfold max_length, id_size. simpl. rewrite Hs.
    replace ((cap + 1) * 4 - 4) with (cap * 4) by lia. apply Z.div_mul. lia.
  - by rewrite length_replicate.
  - intros row [-> _]%elem_of_replicate. simpl. rewrite length_replicate. lia.
  - unfold adjacency. simpl. by rewrite fmap_replicate.
Qed.

Lemma lock_in_bounds g i : neighbors_ok n cap g → 0 ≤ i < n → (lock_index i <? locks g) = true.
Proof.
  intros [] Hi. rewrite nb_locks0. apply Z.ltb_lt. unfold lock_index, LOCK_GRANULARITY.
  pose proof (div_ceil_spec n 16 ltac:(lia) ltac:(lia)).
  apply Z.div_lt_upper_bound; lia.
Qed.

Lemma check_ok g i : neighbors_ok n cap g → 0 ≤ i →
  check g i = if n <=? i then Err (mkOutOfBounds i) else Ok ().
Proof. intros [] ?. unfold check. by rewrite nb_n0. Qed.

Lemma row_at g i : neighbors_ok n cap g → 0 ≤ i < n →
  ∃ row, rows g !! Z.to_nat i = Some row ∧ length row = S (Z.to_nat cap) ∧
    0 ≤ default 0 (head row) ≤ cap.
Proof.
  intros [] Hi. destruct (lookup_lt_is_Some_2 (rows g) (Z.to_nat i)) as [row Hr]; [lia|].
  exists row. split; [done|]. apply nb_row0. by eapply list_elem_of_lookup_2.
Qed.

(** The row that [write_row] leaves, and what it stands for. *)
Lemma write_row_ok g i off v row :
  neighbors_ok n cap g → 0 ≤ i < n → rows g !! Z.to_nat i = Some row →
  Z.of_nat (off + length v) ≤ cap → Z.of_nat off ≤ default 0 (head row) →
  ∃ g', write_row g (mkLock i cap) off v (Z.of_nat (off + length v)) = Some g' ∧
    neighbors_ok n cap g' ∧
    adjacency g' = <[Z.to_nat i := take off (row_list row) ++ v]> (adjacency g).
Proof.
  intros Hg Hi Hr Hcap Hoff. pose proof Hg as [].
  destruct (nb_row0 row) as [Hlen Hhead]; [by eapply list_elem_of_lookup_2|].
  destruct row as [|w row]; [done|]. simpl in *. injection Hlen as Hlen.
  unfold write_row. simpl. rewrite Hr. cbn [mbind option_bind rassert].
  destruct (Nat.ltb_spec (off + length v) (length (w :: row))); simpl in *; [|lia].
  eexists. split; [done|]. split.
  - split; simpl; try done; [by rewrite length_insert|].
    intros row' Hrow'. apply list_elem_of_lookup_1 in Hrow' as [j Hj].
    apply list_lookup_insert_Some in Hj as [(_ & <- & _)|[_ Hj]].
    + simpl. rewrite !length_app, length_take, length_drop. lia.
    + apply nb_row0. by eapply list_elem_of_lookup_2.
  - unfold adjacency. simpl. rewrite list_fmap_insert. f_equal. unfold row_list. simpl.
    rewrite Nat2Z.id, app_assoc, take_app_le by (rewrite length_app, length_take; lia).
    rewrite take_ge by (rewrite length_app, length_take; lia).
    rewrite take_take, Nat.min_l by lia. done.
Qed.

(** [get] reads the specification. *)
Lemma get_ok g i :
  neighbors_ok n cap g → 0 ≤ i →
  get g i = Some (if n <=? i then Err (mkOutOfBounds i)
                  else Ok (default [] (adjacency g !! Z.to_nat i))).
Proof.
  intros Hg Hi. unfold get. rewrite (check_ok g i Hg) by done. destruct (Z.leb_spec n i); [done|].
  rewrite (lock_in_bounds g i Hg) by lia. cbn [rassert mbind option_bind].
  destruct (row_at g i Hg) as (row & Hr & Hlen & Hh); [lia|]. rewrite Hr. cbn [mbind option_bind].
  unfold row_len. rewrite (nb_cap _ _ _ Hg), Z.min_l by lia.
  unfold adjacency. rewrite list_lookup_fmap, Hr. simpl.
  destruct row as [|w row]; [done|]. simpl in *.
  destruct (Nat.leb_spec (Z.to_nat w) (length row)); simpl; [done|lia].
Qed.

Lemma check_in g i : neighbors_ok n cap g → 0 ≤ i < n → check g i = Ok ().
Proof. intros Hg Hi. rewrite check_ok by (done || lia). by rewrite (proj2 (Z.leb_gt n i)) by lia. Qed.

Lemma lock_ok g i : neighbors_ok n cap g → 0 ≤ i →
  lock g i = Some (if n <=? i then Err (mkOutOfBounds i) else Ok (mkLock i cap)).
Proof.
  intros Hg Hi. unfold lock. rewrite (check_ok g i Hg) by done. destruct (Z.leb_spec n i); [done|].
  rewrite (lock_in_bounds g i Hg) by lia. by rewrite (nb_cap _ _ _ Hg).
Qed.

(** The length word of a row is the length of the list it stands for. *)
Lemma lock_len_ok g i old : neighbors_ok n cap g → 0 ≤ i < n →
  adjacency g !! Z.to_nat i = Some old →
  lock_len g (mkLock i cap) = Some (Z.of_nat (length old)) ∧
  ∃ row, rows g !! Z.to_nat i = Some row ∧ old = row_list row ∧
    default 0 (head row) = Z.of_nat (length old).
Proof.
  intros Hg Hi Hold. destruct (row_at g i Hg Hi) as (row & Hr & Hlen & Hh).
  unfold adjacency in Hold. rewrite list_lookup_fmap, Hr in Hold. injection Hold as <-.
  assert (default 0 (head row) = Z.of_nat (length (row_list row))) as Hol.
  { unfold row_list. rewrite length_take. destruct row; simpl in *; lia. }
  split; [|by exists row]. unfold lock_len. cbn [lock_row lock_capacity]. rewrite Hr. cbn.
  f_equal. unfold row_len. lia.
Qed.

(** [set], on every branch. *)
Lemma set_in g i v :
  neighbors_ok n cap g → 0 ≤ i < n → Z.of_nat (length v) ≤ cap →
  ∃ g', set g i v = Some (Ok g') ∧ neighbors_ok n cap g' ∧
    adjacency g' = <[Z.to_nat i := v]> (adjacency g) ∧ get g' i = Some (Ok v).
Proof.
  intros Hg Hi Hv. unfold set. rewrite check_in, (nb_cap _ _ _ Hg) by done.
  rewrite (proj2 (Z.ltb_ge _ _)) by lia. rewrite (lock_in_bounds g i Hg) by lia.
  destruct (row_at g i Hg) as (row & Hr & _ & Hh); [lia|].
  destruct (write_row_ok g i 0 v row) as (g' & Hw & Hg' & Ha); [done..|lia|lia|].
  rewrite Nat.add_0_l in Hw. change (take 0 _ ++ v) with v in Ha.
  unfold write_unchecked. cbn [rassert mbind option_bind]. rewrite Hw. exists g'.
  split_and!; [done..|]. rewrite get_ok by (done || lia).
  rewrite (proj2 (Z.leb_gt n i)) by lia. rewrite Ha, list_lookup_insert_eq; [done|].
  unfold adjacency. rewrite length_fmap. by eapply lookup_lt_Some.
Qed.

Lemma set_errors g i v :
  neighbors_ok n cap g → 0 ≤ i → n ≤ i ∨ cap < Z.of_nat (length v) →
  set g i v = Some (Err (if n <=? i then SetOutOfBounds (mkOutOfBounds i)
                         else SetTooLong (mkTooLong (Z.of_nat (length v)) cap))).
Proof.
  intros Hg Hi Hbad. unfold set. rewrite (check_ok g i Hg) by done.
  destruct (Z.leb_spec n i); [done|]. rewrite (nb_cap _ _ _ Hg).
  by rewrite (proj2 (Z.ltb_lt _ _)) by lia.
Qed.

(** [append] under a lock, on both branches. *)
Lemma append_ok g i v old :
  neighbors_ok n cap g → 0 ≤ i < n → adjacency g !! Z.to_nat i = Some old →
  if cap <? Z.of_nat (length old + length v)
  then append g (mkLock i cap) v = Some (Err (mkTooLong
         (Z.min (Z.of_nat (length old + length v)) (usize_limit - 1)) cap))
  else ∃ g', append g (mkLock i cap) v = Some (Ok g') ∧ neighbors_ok n cap g' ∧
    adjacency g' = <[Z.to_nat i := old ++ v]> (adjacency g).
Proof.
  intros Hg Hi Hold. destruct (lock_len_ok g i old Hg Hi Hold) as (Hl & row & Hr & -> & Hh).
  destruct (nb_bounds _ _ _ Hg) as [? ?]. unfold append. rewrite Hl. cbn [mbind option_bind lock_capacity].
  rewrite <-Nat2Z.inj_add. destruct (Z.ltb_spec cap (Z.of_nat (length (row_list row) + length v))).
  - by rewrite (proj2 (Z.ltb_lt _ _)) by (unfold usize_limit; lia).
  - rewrite Z.min_l by (unfold usize_limit; lia). rewrite (proj2 (Z.ltb_ge _ _)), Nat2Z.id by lia.
    destruct (write_row_ok g i (length (row_list row)) v row) as (g' & -> & Hg' & Ha); [done..|lia|lia|].
    exists g'. split_and!; [done..|]. by rewrite Ha, take_ge.
Qed.

End lemmas.

(** C39: The in-memory graph refines a map from indices to lists of at most [max_length] ids,
    on every branch.  [get] reads the map; [set] replaces a list, which [get] then reads back;
    a locked [append] extends a list; other lists never change.  An index that is out of bounds
    is reported by [get], [lock] and [set]; a list that is too long is reported by [set], and
    by [append] when the old list and the new ids do not fit together; an error carries no new
    graph, so the graph is as before.  No access leaves its row or the lock table. *)
Theorem neighbors_refines n cap g i :
  neighbors_ok n cap g → 0 ≤ i →
  (n ≤ i → get g i = Some (Err (mkOutOfBounds i)) ∧ lock g i = Some (Err (mkOutOfBounds i)) ∧
    ∀ v, set g i v = Some (Err (SetOutOfBounds (mkOutOfBounds i)))) ∧
  (i < n → ∃ old, adjacency g !! Z.to_nat i = Some old ∧ get g i = Some (Ok old) ∧
    (∀ v, Z.of_nat (length v) ≤ cap →
      ∃ g', set g i v = Some (Ok g') ∧ neighbors_ok n cap g' ∧
        adjacency g' = <[Z.to_nat i := v]> (adjacency g) ∧ get g' i = Some (Ok v)) ∧
    (∀ v, cap < Z.of_nat (length v) →
      set g i v = Some (Err (SetTooLong (mkTooLong (Z.of_nat (length v)) cap)))) ∧
    ∃ l, lock g i = Some (Ok l) ∧
      (∀ v, Z.of_nat (length old + length v) ≤ cap →
        ∃ g', append g l v = Some (Ok g') ∧ neighbors_ok n cap g' ∧
          adjacency g' = <[Z.to_nat i := old ++ v]> (adjacency g)) ∧
      (∀ v, cap < Z.of_nat (length old + length v) →
        append g l v = Some (Err (mkTooLong
          (Z.min (Z.of_nat (length old + length v)) (usize_limit - 1)) cap)))).
Proof.
  intros Hg Hi. split; intros Hn.
  - rewrite (get_ok n cap), (lock_ok n cap), (proj2 (Z.leb_le n i)) by done.
    split_and!; [done..|]. intros v. rewrite (set_errors n cap) by auto.
    by rewrite (proj2 (Z.leb_le n i)).
  - destruct (row_at n cap g i Hg) as (row & Hr & _); [lia|].
    assert (adjacency g !! Z.to_nat i = Some (row_list row)) as Hold
      by (unfold adjacency; by rewrite list_lookup_fmap, Hr).
    exists (row_list row). split; [done|].
    rewrite (get_ok n cap), (lock_ok n cap), (proj2 (Z.leb_gt n i)), Hold by done.
    split_and!; [done| | |exists (mkLock i cap); split_and!; [done| |]].
    + intros v Hv. by apply set_in.
    + intros v Hv. rewrite (set_errors n cap) by auto. by rewrite (proj2 (Z.leb_gt n i)).
    + intros v Hv. pose proof (append_ok n cap g i v _ Hg ltac:(lia) Hold) as H.
      by rewrite (proj2 (Z.ltb_ge _ _)) in H by lia.
    + intros v Hv. pose proof (append_ok n cap g i v _ Hg ltac:(lia) Hold) as H.
      by rewrite (proj2 (Z.ltb_lt _ _)) in H by lia.
Qed.

Definition demo_neighbors : Neighbors :=
  mkNeighbors (mkBuffer 16 2 32) [[2; 7; 8; 0]; [0; 0; 0; 0]] 1.

Lemma neighbors_refines_witness :
  get demo_neighbors 0 = Some (Ok [7; 8]) ∧
  (∃ g', set demo_neighbors 0 [4; 5; 6] = Some (Ok g') ∧ get g' 0 = Some (Ok [4; 5; 6])) ∧
  append demo_neighbors (mkLock 0 3) [4; 5] = Some (Err (mkTooLong 4 3)) ∧
  set demo_neighbors 2 [4] = Some (Err (SetOutOfBounds (mkOutOfBounds 2))).
Proof.
  assert (H : neighbors_ok 2 3 demo_neighbors).
  { split; simpl; try done. intros row Hrow. repeat apply elem_of_cons in Hrow as [->|Hrow];
      [simpl; lia..|by apply elem_of_nil in Hrow]. }
  destruct (neighbors_refines 2 3 demo_neighbors 0 H) as [_ Hin]; [lia|].
  destruct Hin as (old & Hold & Hg & Hs & _ & l & Hl & _ & Ha); [lia|].
  injection Hold as <-. injection Hl as <-.
  destruct (neighbors_refines 2 3 demo_neighbors 2 H) as [Hout _]; [lia|].
  destruct Hout as (_ & _ & Hout); [lia|].
  split_and!; [exact Hg| |apply (Ha [4; 5]); simpl; lia|apply Hout].
  destruct (Hs [4; 5; 6]) as (g' & E & _ & _ & Hg'); [simpl; lia|]. eauto.
Defined.
