(* ===== verification/Store.v ===== *)
(** * The concurrent store ([diskann-inmem/src/store.rs], [diskann-inmem/src/tag.rs])

    - The tag values and their predicates.
    - Readers, retirement, acquisition (free list, cooperative scan, drain) and slot handles as
      concurrent operations.  A configuration is the shared store, the local states of the
      registry operations ([Epoch]) and the local states of the store operations; [sexec]
      performs one atomic access of one of them.  An operation that registers or advances does so
      with the registry operation of the same number.
    - The constructor [Store::new], sequential, and the layout of its rows.

    The rows of the buffer are lists of bytes; their place in the allocation is given by
    [data_unchecked] over [InmemBuffer].  As in [Epoch], memory is sequentially consistent.  The
    theorems are in [StoreSafety]. *)

From S2P Require Import Prelude InmemBuffer Epoch Freelist InmemNeighbors.

(** ** Tags *)

Abbreviation Tag := Z (only parsing).
Definition FROZEN : Tag := 255%Z.
Definition PUBLISHED : Tag := 254%Z.
Definition AVAILABLE : Tag := 0%Z.
Definition OWNED : Tag := 1%Z.
Definition RETIRING : Tag := 2%Z.
Definition RESERVED : Tag := RETIRING.
Definition is_reserved (t : Tag) : bool := (t <=? RESERVED)%Z || (t =? FROZEN)%Z.
Definition can_read (t : Tag) : bool := (PUBLISHED <=? t)%Z.

(** [RetireError]. *)
Inductive RetireError := OutOfBounds | SlotIsReserved (t : Tag) | GuardUnavailableError
                       | CouldNotClaimSlot.

Abbreviation bytes := (list Z) (only parsing).
Definition RETRY_LIMIT : nat := 20.

(** ** The store and its operations *)

(** What never changes after construction: the layout of the buffer, and the size of a row with
    its tag, without padding. *)
Record Shape := mkShape { layout : Buffer; unpadded : Bytes }.

Record Store := mkStore {
  buffer : list bytes;
  mirrors : list Tag;
  tags : list Tag;
  unfrozen : nat;
  freelist : Freelist;
  registry : Registry (entry nat);
  shape : Shape;
}.

(** The state of [scan_acquire]: the outer retries left, the ids still to scan, the chunks
    since the last look at the free list, the slot acquired so far, the current range. *)
Record scan_state := mkScan {
  retries : nat;
  remaining : Z;
  chunks : nat;
  acquired : option nat;
  range : Z * Z;
}.

(** Where an operation is.  [AcqX k] are the accesses of [acquire] with [k] iterations left,
    [ScanX] those of [scan_acquire], [DrainX ret] those of [try_drain], which returns to the
    iteration [ret] of [acquire] or to its own caller. *)
Inductive sop :=
| Reader (refs : list (nat * bytes))
| ReaderDone
| RetireCheck (i : nat)
| RetireGuard (i : nat) (current : Tag)
| RetireMirror (i : nat)
| RetirePush (i : nat)
| RetireDrop (res : result RetireError unit)
| RetireDone (res : result RetireError unit)
| AcqPop (k : nat)
| AcqNext (k : nat)
| AcqMint (k : nat) (n : Z)
| AcqSlot (k : nat) (id : nat)
| AcqCas (k : nat) (id : nat)
| AcqNone
| ScanHead (st : scan_state)
| ScanChunk (st : scan_state)
| ScanTry (st : scan_state) (slot : nat)
| ScanCas (st : scan_state) (slot : nat)
| ScanPush (st : scan_state) (slot : nat)
| ScanPop (st : scan_state)
| ScanPopSlot (st : scan_state) (id : nat)
| ScanPopCas (st : scan_state) (id : nat)
| DrainAdvance (ret : option nat)
| DrainPop (ret : option nat)
| DrainMirror (ret : option nat) (i : nat)
| DrainMirrorStore (ret : option nat) (i : nat)
| DrainTag (ret : option nat) (i : nat)
| DrainTagStore (ret : option nat) (i : nat)
| DrainPush (ret : option nat) (i : nat)
| DrainDone
| SlotHeld (i : nat)
| PublishTag (i : nat)
| DropTag (i : nat)
| SlotDone
| Panicked.

(** After a return of [try_drain], and after a failed iteration of [acquire]. *)
Definition acq_retry (k : nat) : sop := match k with O => AcqNone | S k => AcqPop k end.
Definition drain_return (ret : option nat) : sop :=
  match ret with Some k => acq_retry k | None => DrainDone end.

Definition set_tag (i : nat) (t : Tag) (s : Store) : Store :=
  mkStore (buffer s) (mirrors s) (<[i:=t]> (tags s)) (unfrozen s) (freelist s) (registry s) (shape s).
Definition set_mirror (i : nat) (t : Tag) (s : Store) : Store :=
  mkStore (buffer s) (<[i:=t]> (mirrors s)) (tags s) (unfrozen s) (freelist s) (registry s) (shape s).
Definition set_data (i : nat) (v : bytes) (s : Store) : Store :=
  mkStore (<[i:=v]> (buffer s)) (mirrors s) (tags s) (unfrozen s) (freelist s) (registry s) (shape s).
Definition set_freelist (f : Freelist) (s : Store) : Store :=
  mkStore (buffer s) (mirrors s) (tags s) (unfrozen s) f (registry s) (shape s).
Definition set_registry (r : Registry (entry nat)) (s : Store) : Store :=
  mkStore (buffer s) (mirrors s) (tags s) (unfrozen s) (freelist s) r (shape s).

Definition set_range (r : Z * Z) (st : scan_state) : scan_state :=
  mkScan (retries st) (remaining st) (chunks st) (acquired st) r.
Definition set_acquired (a : option nat) (st : scan_state) : scan_state :=
  mkScan (retries st) (remaining st) (chunks st) a (range st).
Definition set_chunks (n : nat) (st : scan_state) : scan_state :=
  mkScan (retries st) (remaining st) n (acquired st) (range st).

(** *** Accesses of [acquire] up to the slot *)

(** [Store::slot] and the load of [try_acquire]. *)
Definition slot_load (s : Store) (i : nat) : bool :=
  match tags s !! i with Some t => (t =? AVAILABLE)%Z | None => false end.

(** The exchange of [try_acquire]. *)
Definition try_acquire (s : Store) (i : nat) : option Store :=
  if slot_load s i then Some (set_tag i OWNED s) else None.

(** [scan_acquire] starts with a twentieth of the slots. *)
Definition scan_start (s : Store) (k : nat) : scan_state :=
  mkScan k (div_ceil (Z.of_nat (unfrozen s)) (Z.of_nat RETRY_LIMIT)) 0 None (0, 0)%Z.

Definition acquire_step (s : Store) (p : sop) : option (Store * sop) :=
  match p with
  | AcqPop k =>
      match pop_recycled (freelist s) with
      | Some (id, f) => Some (set_freelist f s, AcqSlot k (Z.to_nat id))
      | None => Some (s, AcqNext k)
      end
  | AcqNext k => Some (s, AcqMint k (next (freelist s)))
  | AcqMint k n =>
      match pop_mint (freelist s) n with
      | Minted id f => Some (set_freelist f s, AcqSlot k (Z.to_nat id))
      | MintRetry n' => Some (s, AcqMint k n')
      | MintNone => Some (s, ScanHead (scan_start s k))
      end
  | AcqSlot k i => Some (s, if slot_load s i then AcqCas k i else acq_retry k)
  | AcqCas k i =>
      match try_acquire s i with
      | Some s' => Some (s', SlotHeld i)
      | None => Some (s, acq_retry k)
      end
  | _ => None
  end.

(** [scan_acquire].  At the end of a chunk the slot found so far is returned; every fourth
    chunk without one looks into the free list. *)
Definition chunk_end (st : scan_state) : sop :=
  match acquired st with
  | Some i => SlotHeld i
  | None => if (S (chunks st) =? 4)%nat then ScanPop st else ScanHead (set_chunks (S (chunks st)) st)
  end.

Definition scan_step (s : Store) (p : sop) : option (Store * sop) :=
  match p with
  | ScanHead st =>
      if (remaining st =? 0)%Z then Some (s, DrainAdvance (Some (retries st)))
      else
        let '(r, f) := scan (freelist s) in
        Some (set_freelist f s,
              ScanChunk (mkScan (retries st) (Z.max 0 (remaining st - scan_len r)) (chunks st)
                           (acquired st) r))
  | ScanChunk st =>
      match scan_next (range st) with
      | None => Some (s, chunk_end st)
      | Some (slot, r) =>
          match tags s !! Z.to_nat slot with
          | None => Some (s, Panicked)
          | Some t =>
              Some (s, if (t =? AVAILABLE)%Z then
                         match acquired st with
                         | None => ScanTry (set_range r st) (Z.to_nat slot)
                         | Some _ => ScanPush (set_range r st) (Z.to_nat slot)
                         end
                       else ScanChunk (set_range r st))
          end
      end
  | ScanTry st slot => Some (s, if slot_load s slot then ScanCas st slot else ScanChunk st)
  | ScanCas st slot =>
      match try_acquire s slot with
      | Some s' => Some (s', ScanChunk (set_acquired (Some slot) st))
      | None => Some (s, ScanChunk st)
      end
  | ScanPush st slot =>
      Some (set_freelist (push (freelist s) (Z.of_nat slot)).1 s, ScanChunk st)
  | ScanPop st =>
      match pop_recycled (freelist s) with
      | Some (id, f) => Some (set_freelist f s, ScanPopSlot st (Z.to_nat id))
      | None => Some (s, ScanHead (set_chunks 0 st))
      end
  | ScanPopSlot st i =>
      Some (s, if slot_load s i then ScanPopCas st i else ScanHead (set_chunks 0 st))
  | ScanPopCas st i =>
      match try_acquire s i with
      | Some s' => Some (s', SlotHeld i)
      | None => Some (s, ScanHead (set_chunks 0 st))
      end
  | _ => None
  end.

(** The accesses of [try_drain] to the tags of an id that the drain has returned: [release]
    on the mirror, then on the tag, then the free list. *)
Definition release_step (s : Store) (p : sop) : option (Store * sop) :=
  match p with
  | DrainMirror ret i =>
      t ← mirrors s !! i;
      Some (s, if (t =? RETIRING)%Z then DrainMirrorStore ret i else Panicked)
  | DrainMirrorStore ret i => Some (set_mirror i AVAILABLE s, DrainTag ret i)
  | DrainTag ret i =>
      t ← tags s !! i;
      Some (s, if (t =? RETIRING)%Z then DrainTagStore ret i else Panicked)
  | DrainTagStore ret i => Some (set_tag i AVAILABLE s, DrainPush ret i)
  | DrainPush ret i =>
      Some (set_freelist (push (freelist s) (Z.of_nat i)).1 s, DrainPop ret)
  | _ => None
  end.

(** The accesses of [retire] to the tags, and the second stores of a slot handle. *)
Definition retire_step (s : Store) (p : sop) : option (Store * sop) :=
  match p with
  | RetireCheck i =>
      match tags s !! i with
      | None => Some (s, RetireDone (Err OutOfBounds))
      | Some t => Some (s, if is_reserved t then RetireDone (Err (SlotIsReserved t))
                           else RetireGuard i t)
      end
  | RetireMirror i => Some (set_mirror i RETIRING s, RetirePush i)
  | PublishTag i => Some (set_tag i PUBLISHED s, SlotDone)
  | DropTag i => Some (set_tag i AVAILABLE s, SlotDone)
  | _ => None
  end.

(** *** Configurations *)

Record sconf := mkSconf { store : Store; rops : gmap nat op; sops : gmap nat sop }.

Definition econf_of (c : sconf) : econf nat := mkConf (registry (store c)) (rops c).

(** The part of a step that belongs to the registry. *)
Definition reg_exec (c : sconf) (a : action nat) : option sconf :=
  c' ← exec (econf_of c) a;
  Some (mkSconf (set_registry (reg c') (store c)) (ops c') (sops c)).
Definition set_sop (o : nat) (p : sop) (c : sconf) : sconf :=
  mkSconf (store c) (rops c) (<[o:=p]> (sops c)).

(** The accesses that only concern the store. *)
Definition store_step (s : Store) (p : sop) : option (Store * sop) :=
  match p with
  | AcqPop _ | AcqNext _ | AcqMint _ _ | AcqSlot _ _ | AcqCas _ _ => acquire_step s p
  | ScanHead _ | ScanChunk _ | ScanTry _ _ | ScanCas _ _ | ScanPush _ _ | ScanPop _
  | ScanPopSlot _ _ | ScanPopCas _ _ => scan_step s p
  | DrainMirror _ _ | DrainMirrorStore _ _ | DrainTag _ _ | DrainTagStore _ _
  | DrainPush _ _ => release_step s p
  | RetireCheck _ | RetireMirror _ | PublishTag _ | DropTag _ => retire_step s p
  | _ => None
  end.

(** [retire] between its check and its exchange: the guard is taken, then the tag is
    exchanged; an exhausted registry is an error. *)
Definition retire_guard (c : sconf) (o i : nat) (current : Tag) : option sconf :=
  match rops c !! o with
  | None => reg_exec c (StartGuard o)
  | Some GuardUnavailable => Some (set_sop o (RetireDone (Err GuardUnavailableError)) c)
  | Some (GuardHeld _ _) =>
      t ← tags (store c) !! i;
      Some (if (t =? current)%Z
            then mkSconf (set_tag i RETIRING (store c)) (rops c) (<[o:=RetireMirror i]> (sops c))
            else set_sop o (RetireDrop (Err CouldNotClaimSlot)) c)
  | Some _ => reg_exec c (Step o)
  end.

(** [try_drain] around the release of the tags: it advances the registry, consumes the drain
    and drops it. *)
Definition drain_advance (c : sconf) (o : nat) (ret : option nat) : option sconf :=
  match rops c !! o with
  | None => reg_exec c (StartAdvancer o)
  | Some AdvanceIdle => reg_exec c (TryAdvance o)
  | Some AdvanceNone => c' ← reg_exec c (ReturnNone o); Some (set_sop o (drain_return ret) c')
  | Some AdvancePanic => Some (set_sop o Panicked c)
  | Some (AdvanceDrain _) => Some (set_sop o (DrainPop ret) c)
  | Some _ => reg_exec c (Step o)
  end.

Definition drain_pop_step (c : sconf) (o : nat) (ret : option nat) : option sconf :=
  match rops c !! o with
  | Some (AdvanceDrain q) =>
      match drain_pop (registry (store c)) q with
      | Some ((i, _), _) =>
          c' ← reg_exec c (Pop o);
          Some (set_sop o (if (i <? length (buffer (store c)))%nat then DrainMirror ret i
                           else Panicked) c')
      | None => c' ← reg_exec c (DropDrain o); Some (set_sop o (drain_return ret) c')
      end
  | _ => None
  end.

Inductive saction :=
| NewReader (o : nat)
| Read (o i : nat)
| DropReader (o : nat)
| NewRetire (o i : nat)
| NewAcquire (o : nat)
| NewDrain (o : nat)
| Write (o : nat) (v : bytes)
| Publish (o : nat)
| DropSlot (o : nat)
| Go (o : nat).

Definition start (c : sconf) (o : nat) (p : sop) : option sconf :=
  match sops c !! o, rops c !! o with None, None => Some (set_sop o p c) | _, _ => None end.

(** [Reader::read_in_bounds] after the bounds check of [read]: a single load of the mirror. *)
Definition read (s : Store) (i : nat) : option bytes :=
  if (i <? length (buffer s))%nat then
    match mirrors s !! i with
    | Some t => if can_read t then buffer s !! i else None
    | None => None
    end
  else None.

(** [Store::can_read_approximate]. *)
Definition can_read_approximate (s : Store) (i : nat) : option bool := can_read <$> tags s !! i.

Definition sexec (c : sconf) (a : saction) : option sconf :=
  match a with
  | NewReader o => c' ← start c o (Reader []); reg_exec c' (StartGuard o)
  | Read o i =>
      match sops c !! o, rops c !! o with
      | Some (Reader refs), Some (GuardHeld _ _) =>
          Some match read (store c) i with
               | Some v => set_sop o (Reader ((i, v) :: refs)) c
               | None => c
               end
      | _, _ => None
      end
  | DropReader o =>
      match sops c !! o with
      | Some (Reader _) => c' ← reg_exec c (DropGuard o); Some (set_sop o ReaderDone c')
      | _ => None
      end
  | NewRetire o i => start c o (RetireCheck i)
  | NewAcquire o => start c o (acq_retry RETRY_LIMIT)
  | NewDrain o => start c o (DrainAdvance None)
  | Write o v =>
      match sops c !! o with
      | Some (SlotHeld i) =>
          old ← buffer (store c) !! i;
          if (length v =? length old)%nat
          then Some (mkSconf (set_data i v (store c)) (rops c) (sops c)) else None
      | _ => None
      end
  | Publish o =>
      match sops c !! o with
      | Some (SlotHeld i) =>
          Some (mkSconf (set_mirror i PUBLISHED (store c)) (rops c) (<[o:=PublishTag i]> (sops c)))
      | _ => None
      end
  | DropSlot o =>
      match sops c !! o with
      | Some (SlotHeld i) =>
          Some (mkSconf (set_mirror i AVAILABLE (store c)) (rops c) (<[o:=DropTag i]> (sops c)))
      | _ => None
      end
  | Go o =>
      match sops c !! o with
      | Some (Reader _) => reg_exec c (Step o)
      | Some (RetireGuard i current) => retire_guard c o i current
      | Some (RetirePush i) =>
          c' ← reg_exec c (Retire o i); Some (set_sop o (RetireDrop (Ok ())) c')
      | Some (RetireDrop res) =>
          c' ← reg_exec c (DropGuard o); Some (set_sop o (RetireDone res) c')
      | Some (DrainAdvance ret) => drain_advance c o ret
      | Some (DrainPop ret) => drain_pop_step c o ret
      | Some p =>
          '(s, p') ← store_step (store c) p; Some (mkSconf s (rops c) (<[o:=p']> (sops c)))
      | None => None
      end
  end.

Fixpoint srun (c : sconf) (l : list saction) : option sconf :=
  match l with
  | [] => Some c
  | a :: l => c' ← sexec c a; srun c' l
  end.

(** ** Construction *)

Inductive StoreError :=
| MismatchedFrozenPointDim (dim : Z) (b : Bytes)
| NeedFrozenPoint
| TooManyEntries (entries frozen : Z)
| TooManyNeighbors (neighbors : Z)
| StoreBufferError (e : BufferError)
| StoreNeighborsError (e : NeighborsError).

(** [Config]: with the defaults of [Config::new] for the last two fields. *)
Record Config := mkConfig {
  cfg_entries : Z;
  cfg_bytes : Bytes;
  cfg_max_neighbors : Z;
  cfg_epoch_guard_slots : nat;
  cfg_freelist_recycle_capacity : nat;
}.
Definition config_new (n b m : Z) : Config := mkConfig n b m 256 1024.

Definition TAG_SIZE : Bytes := 1%Z.
Definition u32_limit : Z := (2 ^ 32)%Z.

(** [Slot::freeze]. *)
Definition freeze (i : nat) (s : Store) : Store := set_tag i FROZEN (set_mirror i FROZEN s).

(** The loop that populates the frozen points: claim the slot, copy the row, freeze. *)
Fixpoint populate (i : nat) (init : list bytes) (s : Store) : option Store :=
  match init with
  | [] => Some s
  | data :: init =>
      s' ← try_acquire s i;
      old ← buffer s' !! i;
      _ ← rassert (length data =? length old)%nat;
      populate (S i) init (freeze i (set_data i data s'))
  end.

(** [Store::new]; [None] is a failed [expect]. *)
Definition store_new (cfg : Config) (init : list bytes) (ncols : Z)
  : option (result StoreError (Store * Neighbors)) :=
  let nrows := Z.of_nat (length init) in
  let n := cfg_entries cfg in
  if negb (ncols =? cfg_bytes cfg)%Z
  then Some (Err (MismatchedFrozenPointDim ncols (cfg_bytes cfg))) else
  if (nrows =? 0)%Z then Some (Err NeedFrozenPoint) else
  unp ← bytes_checked_add (cfg_bytes cfg) TAG_SIZE;
  padded ← bytes_checked_next_multiple_of unp (bytes_div CACHELINE 2);
  if (u32_limit <=? n)%Z || (u32_limit <=? nrows)%Z || (u32_limit <=? n + nrows)%Z
  then Some (Err (TooManyEntries n nrows)) else
  if (u32_limit <=? cfg_max_neighbors cfg)%Z
  then Some (Err (TooManyNeighbors (cfg_max_neighbors cfg))) else
  match buffer_new (n + nrows) padded 128 with
  | Err e => Some (Err (StoreBufferError e))
  | Ok buf =>
      let total := Z.to_nat (n + nrows) in
      match neighbors_new (n + nrows) (cfg_max_neighbors cfg) with
      | Err e => Some (Err (StoreNeighborsError e))
      | Ok nb =>
          s ← populate (Z.to_nat n) init
                (mkStore (replicate total (replicate (Z.to_nat (cfg_bytes cfg)) 0%Z))
                   (replicate total AVAILABLE) (replicate total AVAILABLE) (Z.to_nat n)
                   (freelist_new n (cfg_freelist_recycle_capacity cfg))
                   (with_capacity (cfg_epoch_guard_slots cfg)) (mkShape buf unp));
          Some (Ok (s, nb))
      end
  end.

(** The range of the frozen slots. *)
Definition frozen (s : Store) : Z * Z := (Z.of_nat (unfrozen s), entries (layout (shape s))).

(** [data_unchecked]: the payload and the mirrored tag of a row, inside the allocation. *)
Definition data_unchecked (sh : Shape) (i : Z) : RawSlice * RawSlice :=
  split_slice (truncate (get_unchecked (layout sh) i) (unpadded sh))
    (bytes_unchecked_sub (unpadded sh) TAG_SIZE).

Definition sinitial (s : Store) : sconf := mkSconf s ∅ ∅.
