(* ===== verification/StoreSafety.v ===== *)
(** * Safety of the concurrent store

    - Section [invariant]: every slot is in a phase that fixes its two tags, and every operation
      that may touch its data has a claim on it; every atomic access preserves this.  Reclamation
      enters through one lemma of [Epoch], [popped_unseen].
    - Section [construction]: the invariant holds for a constructed store.
    - The theorems: readers and writers never meet, what is read stays, no runtime check fires,
      frozen points are permanent; the slices of the rows are disjoint. *)

From S2P Require Import Prelude InmemBuffer Epoch Freelist InmemNeighbors Store.

(** ** The invariant *)

(** The claims that an operation can have on a slot: it owns the slot and may write; it is
    between the two stores of publishing or dropping it; of retiring it (before the mirror, before
    the queue); of releasing it (before the mirror, before the tag). *)
Inductive role := Owner | Publishing | Dropping | RetMirror | RetPush | Rel1 | Rel2.

(** The phase of a slot.  In a queue it carries the guards that were held at its retirement. *)
Inductive phase :=
| PAvail
| PPub
| PFroz
| PClaim (o : nat) (r : role)
| PQueued (seen : gset nat).

Definition tag_of (p : phase) : Tag :=
  match p with
  | PAvail => AVAILABLE
  | PPub => PUBLISHED
  | PFroz => FROZEN
  | PClaim _ (Owner | Publishing | Dropping) => OWNED
  | PClaim _ _ | PQueued _ => RETIRING
  end.
Definition mirror_of (p : phase) : Tag :=
  match p with
  | PAvail | PClaim _ (Owner | Dropping | Rel2) => AVAILABLE
  | PPub | PClaim _ (Publishing | RetMirror) => PUBLISHED
  | PFroz => FROZEN
  | PClaim _ (RetPush | Rel1) | PQueued _ => RETIRING
  end.

(** Which readers may hold a reference to the data of a slot. *)
Definition readable_by (o : nat) (p : phase) : Prop :=
  match p with
  | PPub | PFroz | PClaim _ (Publishing | RetMirror | RetPush) => True
  | PQueued seen => o ∈ seen
  | _ => False
  end.

Definition scan_of (p : sop) : option scan_state :=
  match p with
  | ScanHead st | ScanChunk st | ScanTry st _ | ScanCas st _ | ScanPush st _ | ScanPop st
  | ScanPopSlot st _ | ScanPopCas st _ => Some st
  | _ => None
  end.

Definition claim (p : sop) : option (nat * role) :=
  match p with
  | RetireMirror i => Some (i, RetMirror)
  | RetirePush i => Some (i, RetPush)
  | SlotHeld i => Some (i, Owner)
  | PublishTag i => Some (i, Publishing)
  | DropTag i => Some (i, Dropping)
  | DrainMirror _ i | DrainMirrorStore _ i => Some (i, Rel1)
  | DrainTag _ i | DrainTagStore _ i => Some (i, Rel2)
  | _ => st ← scan_of p; i ← acquired st; Some (i, Owner)
  end.

(** What an operation knows: the range of a scan is managed, a candidate of a scan is only tried
    while none was acquired, a failed exchange of the epoch counter is the only panic. *)
Definition local_ok (mx E : Z) (p : sop) : Prop :=
  match p with
  | ScanTry st _ | ScanCas st _ | ScanPop st | ScanPopSlot st _ | ScanPopCas st _ =>
      acquired st = None ∧ (0 ≤ (range st).1 ∧ (range st).2 ≤ mx)%Z
  | ScanHead st => acquired st = None
  | ScanChunk st | ScanPush st _ => (0 ≤ (range st).1 ∧ (range st).2 ≤ mx)%Z
  | AcqMint _ n => (0 ≤ n)%Z
  | RetireGuard _ t => is_reserved t = false
  | Panicked => E = u64_max
  | _ => True
  end.

(** What does not change after construction: the number of guard slots and the frozen rows. *)
Record fixed := mkFixed { slots : nat; frozen_row : nat → option bytes }.

Record sinv (n : fixed) (ph : list phase) (c : sconf) : Prop := {
  s_epoch : epoch_inv (slots n) (registry (store c)) (rops c);
  s_tags : tags (store c) = tag_of <$> ph;
  s_mirrors : mirrors (store c) = mirror_of <$> ph;
  s_buffer : length (buffer (store c)) = length ph;
  s_free : freelist_ok (freelist (store c)) ∧
    max (freelist (store c)) = Z.of_nat (unfrozen (store c)) ∧ unfrozen (store c) ≤ length ph;
  s_claim : ∀ o p i r, sops c !! o = Some p → claim p = Some (i, r) → ph !! i = Some (PClaim o r);
  s_local : ∀ o p, sops c !! o = Some p →
    local_ok (max (freelist (store c))) (epoch (registry (store c))) p;
  s_queue : ∀ i seen, (i, seen) ∈ mjoin (retiring (registry (store c))) →
    ph !! i = Some (PQueued seen);
  s_queue_nodup : NoDup (mjoin (retiring (registry (store c)))).*1;
  s_refs : ∀ o refs i v, sops c !! o = Some (Reader refs) → (i, v) ∈ refs →
    buffer (store c) !! i = Some v ∧ (∃ p, ph !! i = Some p ∧ readable_by o p) ∧
    o ∈ held (rops c);
  s_frozen : ∀ i v, frozen_row n i = Some v →
    ph !! i = Some PFroz ∧ buffer (store c) !! i = Some v;
}.

Section invariant.
Context (n : fixed).
Implicit Types (ph : list phase) (c : sconf).

Definition is_reader (p : sop) : bool := match p with Reader _ => true | _ => false end.

(** An operation starts or makes an access that leaves every slot in its phase. *)
Lemma sinv_local ph c o p' f :
  sinv n ph c →
  (∀ j r, claim p' = Some (j, r) → ∃ p, sops c !! o = Some p ∧ claim p = Some (j, r)) →
  is_reader p' = false →
  freelist_ok f → max f = max (freelist (store c)) →
  local_ok (max f) (epoch (registry (store c))) p' →
  sinv n ph (mkSconf (set_freelist f (store c)) (rops c) (<[o:=p']> (sops c))).
Proof.
  intros Hi Hc Hr Hf Hm Hl. pose proof Hi as []. split; simpl; try done.
  - rewrite Hm. destruct s_free0 as (_ & ? & ?). done.
  - intros o' p i r. rewrite lookup_insert_Some. intros [[-> ->]|[_ Ho']]; [|by eauto].
    intros (p0 & ? & ?)%Hc. eauto.
  - intros o' p. rewrite lookup_insert_Some. intros [[-> ->]|[_ Ho']]; [done|].
    rewrite Hm. eauto.
  - intros o' refs i v. rewrite lookup_insert_Some. intros [[-> ->]|[_ Ho']]; [done|eauto].
Qed.

Lemma set_freelist_id s : set_freelist (freelist s) s = s.
Proof. by destruct s. Qed.

Lemma sinv_set_sop ph c o p' :
  sinv n ph c →
  (∀ j r, claim p' = Some (j, r) → ∃ p, sops c !! o = Some p ∧ claim p = Some (j, r)) →
  is_reader p' = false →
  local_ok (max (freelist (store c))) (epoch (registry (store c))) p' →
  sinv n ph (set_sop o p' c).
Proof.
  intros Hi Hc Hr Hl. unfold set_sop. rewrite <-(set_freelist_id (store c)) at 1.
  apply sinv_local; try done. by destruct (s_free _ _ _ Hi).
Qed.

(** A slot that no other operation has a claim on and that is not queued. *)
Definition movable (o : nat) (f : phase) : Prop :=
  match f with PClaim o' _ => o' = o | PQueued _ | PFroz => False | _ => True end.

(** An access moves slot [i] to another phase. *)
Lemma sinv_move ph c o p p' s' i f f' :
  sinv n ph c → sops c !! o = Some p → is_reader p = false → is_reader p' = false →
  ph !! i = Some f → movable o f → movable o f' →
  (∀ j r, claim p' = Some (j, r) → j = i ∧ f' = PClaim o r) →
  (∀ j r, claim p = Some (j, r) → j = i) →
  (∀ o', readable_by o' f → readable_by o' f') →
  tags s' = tag_of <$> <[i:=f']> ph → mirrors s' = mirror_of <$> <[i:=f']> ph →
  buffer s' = buffer (store c) → registry s' = registry (store c) →
  freelist s' = freelist (store c) → unfrozen s' = unfrozen (store c) →
  local_ok (max (freelist s')) (epoch (registry s')) p' →
  sinv n (<[i:=f']> ph) (mkSconf s' (rops c) (<[o:=p']> (sops c))).
Proof.
  intros Hi Ho Hrp Hrp' Hf Hmf Hmf' Hc' Hc Hread Ht Hm Hb Hreg Hfl Hun Hl.
  pose proof Hi as []. assert (i < length ph) by by eapply lookup_lt_Some.
  split; simpl; rewrite ?Hb, ?Hreg, ?Hfl, ?Hun, ?length_insert; try done.
  - intros o' q j r. rewrite lookup_insert_Some. intros [[-> ->]|[Hne Ho']] Hq.
    + apply Hc' in Hq as [-> ->]. by apply list_lookup_insert_eq.
    + specialize (s_claim0 _ _ _ _ Ho' Hq). rewrite list_lookup_insert_ne; [done|].
      intros <-. by simplify_eq.
  - intros o' q. rewrite lookup_insert_Some.
    intros [[-> ->]|[_ Ho']]; [by rewrite <-Hfl, <-Hreg|eauto].
  - intros j seen Hj. specialize (s_queue0 _ _ Hj). rewrite list_lookup_insert_ne; [done|].
    intros <-. by simplify_eq.
  - intros o' refs j v. rewrite lookup_insert_Some. intros [[-> ->]|[_ Ho']] Hj; [done|].
    destruct (s_refs0 _ _ _ _ Ho' Hj) as (? & (q & Hq & Hrd) & ?). split_and!; [done| |done].
    destruct (decide (i = j)) as [<-|].
    + simplify_eq. exists f'. rewrite list_lookup_insert_eq by done. auto.
    + exists q. by rewrite list_lookup_insert_ne.
  - intros j v Hj. destruct (s_frozen0 _ _ Hj) as [? ?]. split; [|done].
    rewrite list_lookup_insert_ne; [done|]. intros <-. by simplify_eq.
Qed.

(** A step of the registry that keeps the queues. *)
Lemma sinv_reg ph c r' m' :
  sinv n ph c → epoch_inv (slots n) r' m' → retiring r' = retiring (registry (store c)) →
  (epoch (registry (store c)) ≤ epoch r')%Z →
  (∀ o refs, sops c !! o = Some (Reader refs) → refs ≠ [] → o ∈ held (rops c) → o ∈ held m') →
  sinv n ph (mkSconf (set_registry r' (store c)) m' (sops c)).
Proof.
  intros Hi Hr Hq HE Hh. pose proof Hi as []. split; simpl; rewrite ?Hq; try done.
  - intros o p Ho. specialize (s_local0 _ _ Ho). destruct p; try done. simpl in *.
    pose proof (inv_epoch _ _ _ Hr). lia.
  - intros o refs i v Ho Hv. destruct (s_refs0 _ _ _ _ Ho Hv) as (? & ? & ?).
    split_and!; [done..|]. eapply Hh; [done| |done]. intros ->. by apply elem_of_nil in Hv.
Qed.

Lemma sinv_quiet ph c a c' :
  sinv n ph c → reg_exec c a = Some c' → quiet a = true → sinv n ph c'.
Proof.
  intros Hi Ha Hq. unfold reg_exec in Ha. inv_bind. simpl.
  pose proof (s_epoch _ _ _ Hi) as He.
  destruct (exec_quiet (slots n) _ _ _ _ He Hq ltac:(eassumption)) as (Hr & HE & Hh).
  apply sinv_reg; try done; [by eapply inv_exec|]. auto.
Qed.

Lemma fmap_insert_same {B} (g : phase → B) ph i f f' :
  ph !! i = Some f → g f' = g f → g <$> <[i:=f']> ph = g <$> ph.
Proof.
  intros Hf E. rewrite list_fmap_insert. apply list_insert_id.
  by rewrite list_lookup_fmap, Hf, E.
Qed.

(** An access to the authoritative tag, and one to the mirror. *)
Lemma sinv_tag ph c o p p' i f f' :
  sinv n ph c → sops c !! o = Some p → is_reader p = false → is_reader p' = false →
  ph !! i = Some f → movable o f → movable o f' → mirror_of f' = mirror_of f →
  (∀ j r, claim p' = Some (j, r) → j = i ∧ f' = PClaim o r) →
  (∀ j r, claim p = Some (j, r) → j = i) →
  (∀ o', readable_by o' f → readable_by o' f') →
  local_ok (max (freelist (store c))) (epoch (registry (store c))) p' →
  sinv n (<[i:=f']> ph)
    (mkSconf (set_tag i (tag_of f') (store c)) (rops c) (<[o:=p']> (sops c))).
Proof.
  intros Hi ? ? ? Hf ? ? Hm. intros. eapply sinv_move; try done; simpl.
  - by rewrite (s_tags _ _ _ Hi), list_fmap_insert.
  - by rewrite (s_mirrors _ _ _ Hi), (fmap_insert_same _ _ _ f).
Qed.

Lemma sinv_mirror ph c o p p' i f f' :
  sinv n ph c → sops c !! o = Some p → is_reader p = false → is_reader p' = false →
  ph !! i = Some f → movable o f → movable o f' → tag_of f' = tag_of f →
  (∀ j r, claim p' = Some (j, r) → j = i ∧ f' = PClaim o r) →
  (∀ j r, claim p = Some (j, r) → j = i) →
  (∀ o', readable_by o' f → readable_by o' f') →
  local_ok (max (freelist (store c))) (epoch (registry (store c))) p' →
  sinv n (<[i:=f']> ph)
    (mkSconf (set_mirror i (mirror_of f') (store c)) (rops c) (<[o:=p']> (sops c))).
Proof.
  intros Hi ? ? ? Hf ? ? Hm. intros. eapply sinv_move; try done; simpl.
  - by rewrite (s_tags _ _ _ Hi), (fmap_insert_same _ _ _ f).
  - by rewrite (s_mirrors _ _ _ Hi), list_fmap_insert.
Qed.

(** A successful exchange from [AVAILABLE] to [OWNED]. *)
Lemma sinv_acquire ph c o p p' i s' :
  sinv n ph c → sops c !! o = Some p → is_reader p = false → is_reader p' = false →
  claim p = None → claim p' = Some (i, Owner) → try_acquire (store c) i = Some s' →
  local_ok (max (freelist (store c))) (epoch (registry (store c))) p' →
  ∃ ph', sinv n ph' (mkSconf s' (rops c) (<[o:=p']> (sops c))).
Proof.
  intros Hi Ho Hr Hr' Hc Hc' Ht Hl. unfold try_acquire, slot_load in Ht.
  rewrite (s_tags _ _ _ Hi), list_lookup_fmap in Ht.
  destruct (ph !! i) as [f|] eqn:Hf; simpl in Ht; [|done].
  destruct (Z.eqb_spec (tag_of f) AVAILABLE) as [E|]; simplify_eq.
  assert (f = PAvail) as -> by by destruct f as [| | |? []|].
  exists (<[i:=PClaim o Owner]> ph).
  apply (sinv_tag ph c o p p' i PAvail (PClaim o Owner)); try done.
  - intros j r ?. simplify_eq. done.
  - intros j r ?. congruence.
Qed.

Lemma sinv_acquire_step ph c o p s' p' :
  sinv n ph c → sops c !! o = Some p → acquire_step (store c) p = Some (s', p') →
  ∃ ph', sinv n ph' (mkSconf s' (rops c) (<[o:=p']> (sops c))).
Proof.
  intros Hi Ho Hs. destruct (s_free _ _ _ Hi) as (Hf & _ & _).
  pose proof (s_local _ _ _ Hi _ _ Ho) as Hl.
  assert (Hstay : ∀ q, claim q = None → is_reader q = false →
    local_ok (max (freelist (store c))) (epoch (registry (store c))) q →
    ∃ ph', sinv n ph' (mkSconf (store c) (rops c) (<[o:=q]> (sops c)))).
  { intros q Hq ? ?. exists ph. apply sinv_set_sop; try done. intros j r ?. congruence. }
  assert (Hretry : ∀ k, claim (acq_retry k) = None ∧ is_reader (acq_retry k) = false ∧
    ∀ x y, local_ok x y (acq_retry k)) by by intros [].
  destruct p; simpl in Hs; try done.
  - destruct (pop_recycled (freelist (store c))) as [[id f]|] eqn:E; simplify_eq; [|by apply Hstay].
    apply pop_recycled_ok in E as (? & _ & ?); [|done]. exists ph. by apply sinv_local.
  - simplify_eq. apply Hstay; try done. simpl. destruct Hf. lia.
  - destruct (pop_mint (freelist (store c)) n0) as [id f|m|] eqn:E; simplify_eq.
    + apply pop_mint_ok in E as (? & _ & ? & _); [|done..]. exists ph. by apply sinv_local.
    + apply Hstay; try done. simpl. unfold pop_mint in E.
      destruct (n0 <? _)%Z; [|done]. destruct (_ =? _)%Z; simplify_eq. destruct Hf. lia.
    + by apply Hstay.
  - simplify_eq. destruct (slot_load (store c) id); apply Hstay; try done; by apply Hretry.
  - destruct (try_acquire (store c) id) eqn:E; simplify_eq; [|apply Hstay; by apply Hretry].
    by eapply sinv_acquire.
Qed.

(** The next id of a managed range indexes the tags. *)
Lemma scan_next_ok ph c st slot r :
  sinv n ph c → (0 ≤ (range st).1 ∧ (range st).2 ≤ max (freelist (store c)))%Z →
  scan_next (range st) = Some (slot, r) →
  (0 ≤ r.1 ∧ r.2 ≤ max (freelist (store c)))%Z ∧ Z.to_nat slot < length (tags (store c)).
Proof.
  intros Hi Hr Hn. unfold scan_next in Hn. destruct (s_free _ _ _ Hi) as (_ & Hm & Hu).
  destruct (Z.geb_spec (range st).1 (range st).2); simplify_eq. simpl. split; [lia|].
  rewrite (s_tags _ _ _ Hi), length_fmap. lia.
Qed.

Lemma sinv_scan_step ph c o p s' p' :
  sinv n ph c → sops c !! o = Some p → scan_step (store c) p = Some (s', p') →
  ∃ ph', sinv n ph' (mkSconf s' (rops c) (<[o:=p']> (sops c))).
Proof.
  intros Hi Ho Hs. destruct (s_free _ _ _ Hi) as (Hf & _ & _).
  pose proof (s_local _ _ _ Hi _ _ Ho) as Hl.
  assert (Hstay : ∀ q f, claim q = claim p → is_reader q = false → freelist_ok f →
    max f = max (freelist (store c)) →
    local_ok (max (freelist (store c))) (epoch (registry (store c))) q →
    ∃ ph', sinv n ph' (mkSconf (set_freelist f (store c)) (rops c) (<[o:=q]> (sops c)))).
  { intros q f Hq ? ? Hm ?. exists ph. apply sinv_local; try done; [|by rewrite Hm].
    intros j r ?. exists p. split; [done|]. congruence. }
  assert (Hkeep : ∀ q, claim q = claim p → is_reader q = false →
    local_ok (max (freelist (store c))) (epoch (registry (store c))) q →
    ∃ ph', sinv n ph' (mkSconf (store c) (rops c) (<[o:=q]> (sops c)))).
  { intros q ? ? ?. destruct (Hstay q (freelist (store c))) as [ph' Hq]; try done.
    exists ph'. by rewrite set_freelist_id in Hq. }
  destruct p; cbn [scan_step] in Hs; try done; simpl in Hl.
  - destruct (remaining st =? 0)%Z; simplify_eq; [apply Hkeep; try done; simpl; by rewrite Hl|].
    destruct (scan_ok _ Hf) as (? & ? & ? & ? & ? & _).
    destruct (scan (freelist (store c))) as [r f]. simplify_eq. apply Hstay; try done.
  - destruct (scan_next (range st)) as [[slot r]|] eqn:En.
    + destruct (scan_next_ok _ _ _ _ _ Hi Hl En) as [? [t Ht]%lookup_lt_is_Some_2].
      rewrite Ht in Hs. simplify_eq. destruct (t =? AVAILABLE)%Z; [|by apply Hkeep].
      destruct (acquired st) eqn:Ea; apply Hkeep; try done; simpl; by rewrite Ea.
    + simplify_eq. unfold chunk_end. destruct (acquired st) eqn:Ea.
      * apply Hkeep; try done. simpl. by rewrite Ea.
      * destruct (S (chunks st) =? 4); apply Hkeep; try done.
  - simplify_eq. destruct Hl. destruct (slot_load (store c) slot); by apply Hkeep.
  - destruct Hl as [Ha ?]. destruct (try_acquire (store c) slot) eqn:E; simplify_eq;
      [|by apply Hkeep]. eapply sinv_acquire; try done. simpl. by rewrite Ha.
  - simplify_eq. destruct (push_ok (freelist (store c)) (Z.of_nat slot) Hf ltac:(lia)) as [? ?].
    by apply Hstay.
  - destruct Hl as [Ha ?]. destruct (pop_recycled (freelist (store c))) as [[id f]|] eqn:E;
      simplify_eq; [|by apply Hkeep].
    apply pop_recycled_ok in E as (? & _ & ?); [|done]. by apply Hstay.
  - simplify_eq. destruct Hl. destruct (slot_load (store c) id); by apply Hkeep.
  - destruct Hl as [Ha ?]. destruct (try_acquire (store c) id) eqn:E; simplify_eq;
      [|by apply Hkeep]. eapply sinv_acquire; try done. simpl. by rewrite Ha.
Qed.

(** The claim of an operation determines the tags that it reads. *)
Lemma sinv_claimed ph c o p i r :
  sinv n ph c → sops c !! o = Some p → claim p = Some (i, r) →
  ph !! i = Some (PClaim o r) ∧ tags (store c) !! i = Some (tag_of (PClaim o r)) ∧
  mirrors (store c) !! i = Some (mirror_of (PClaim o r)).
Proof.
  intros Hi Ho Hc. pose proof (s_claim _ _ _ Hi _ _ _ _ Ho Hc) as Hp.
  by rewrite (s_tags _ _ _ Hi), (s_mirrors _ _ _ Hi), !list_lookup_fmap, Hp.
Qed.

Lemma sinv_release_step ph c o p s' p' :
  sinv n ph c → sops c !! o = Some p → release_step (store c) p = Some (s', p') →
  ∃ ph', sinv n ph' (mkSconf s' (rops c) (<[o:=p']> (sops c))).
Proof.
  intros Hi Ho Hs. destruct p; simpl in Hs; try done; try
    (destruct (sinv_claimed _ _ _ _ i _ Hi Ho eq_refl) as (Hp & Ht & Hm)).
  - rewrite Hm in Hs. cbn in Hs. simplify_eq. exists ph. apply sinv_set_sop; try done. eauto.
  - simplify_eq. exists (<[i:=PClaim o Rel2]> ph).
    apply (sinv_mirror ph c o (DrainMirrorStore ret i) _ i (PClaim o Rel1) (PClaim o Rel2));
      try done; by intros j r [= <- <-].
  - rewrite Ht in Hs. cbn in Hs. simplify_eq. exists ph. apply sinv_set_sop; try done. eauto.
  - simplify_eq. exists (<[i:=PAvail]> ph).
    apply (sinv_tag ph c o (DrainTagStore ret i) _ i (PClaim o Rel2) PAvail);
      try done; by intros j r [= <- <-].
  - simplify_eq. destruct (s_free _ _ _ Hi) as (Hf & _ & _).
    destruct (push_ok (freelist (store c)) (Z.of_nat i) Hf ltac:(lia)) as [? ?].
    exists ph. by apply sinv_local.
Qed.

Lemma sinv_retire_step ph c o p s' p' :
  sinv n ph c → sops c !! o = Some p → retire_step (store c) p = Some (s', p') →
  ∃ ph', sinv n ph' (mkSconf s' (rops c) (<[o:=p']> (sops c))).
Proof.
  intros Hi Ho Hs. destruct p; simpl in Hs; try done.
  - destruct (tags (store c) !! i) as [t|]; simplify_eq; exists ph; apply sinv_set_sop; try done;
      destruct (is_reserved t) eqn:E; done.
  - destruct (sinv_claimed _ _ _ _ i _ Hi Ho eq_refl) as (Hp & _). simplify_eq.
    exists (<[i:=PClaim o RetPush]> ph).
    apply (sinv_mirror ph c o (RetireMirror i) _ i (PClaim o RetMirror) (PClaim o RetPush));
      try done; by intros j r [= <- <-].
  - destruct (sinv_claimed _ _ _ _ i _ Hi Ho eq_refl) as (Hp & _). simplify_eq.
    exists (<[i:=PPub]> ph).
    apply (sinv_tag ph c o (PublishTag i) _ i (PClaim o Publishing) PPub);
      try done; by intros j r [= <- <-].
  - destruct (sinv_claimed _ _ _ _ i _ Hi Ho eq_refl) as (Hp & _). simplify_eq.
    exists (<[i:=PAvail]> ph).
    apply (sinv_tag ph c o (DropTag i) _ i (PClaim o Dropping) PAvail);
      try done; by intros j r [= <- <-].
Qed.

(** A slot enters or leaves the retirement queues. *)
Lemma sinv_requeue ph c o p p' i f f' r' :
  sinv n ph c → sops c !! o = Some p → is_reader p = false → is_reader p' = false →
  ph !! i = Some f → f ≠ PFroz → (∀ o' r, f = PClaim o' r → o' = o) →
  (∀ j r, claim p' = Some (j, r) → j = i ∧ f' = PClaim o r) →
  epoch_inv (slots n) r' (rops c) → epoch r' = epoch (registry (store c)) →
  tag_of f' = tag_of f → mirror_of f' = mirror_of f →
  (∀ o', readable_by o' f → o' ∈ held (rops c) → readable_by o' f') →
  (∀ j seen, (j, seen) ∈ mjoin (retiring r') →
    (j ≠ i ∧ (j, seen) ∈ mjoin (retiring (registry (store c)))) ∨ (j = i ∧ f' = PQueued seen)) →
  NoDup (mjoin (retiring r')).*1 →
  local_ok (max (freelist (store c))) (epoch (registry (store c))) p' →
  sinv n (<[i:=f']> ph) (mkSconf (set_registry r' (store c)) (rops c) (<[o:=p']> (sops c))).
Proof.
  intros Hi Ho Hrp Hrp' Hf Hnf Hmf Hc' Hr HE Ht Hm Hread Hq Hnd Hl.
  pose proof Hi as []. assert (i < length ph) by by eapply lookup_lt_Some.
  split; simpl; rewrite ?length_insert; try done.
  - by rewrite (fmap_insert_same _ _ _ f).
  - by rewrite (fmap_insert_same _ _ _ f).
  - intros o' q j r. rewrite lookup_insert_Some. intros [[-> ->]|[Hne Ho']] Hj.
    + apply Hc' in Hj as [-> ->]. by apply list_lookup_insert_eq.
    + specialize (s_claim0 _ _ _ _ Ho' Hj). rewrite list_lookup_insert_ne; [done|].
      intros <-. simplify_eq. by destruct Hne; symmetry; eapply Hmf.
  - intros o' q. rewrite HE, lookup_insert_Some. intros [[-> ->]|[_ Ho']]; [done|eauto].
  - intros j seen [[? Hj]|[-> ->]]%Hq.
    + rewrite list_lookup_insert_ne by done. auto.
    + by rewrite list_lookup_insert_eq.
  - intros o' refs j v. rewrite lookup_insert_Some. intros [[-> ->]|[_ Ho']] Hj; [done|].
    destruct (s_refs0 _ _ _ _ Ho' Hj) as (? & (q & Hqj & Hrd) & ?). split_and!; [done| |done].
    destruct (decide (i = j)) as [<-|].
    + simplify_eq. exists f'. rewrite list_lookup_insert_eq by done. auto.
    + exists q. by rewrite list_lookup_insert_ne.
  - intros j v Hj. destruct (s_frozen0 _ _ Hj) as [? ?]. split; [|done].
    rewrite list_lookup_insert_ne; [done|]. intros <-. by simplify_eq.
Qed.

Lemma mjoin_insert_perm {B} (l : list (list B)) q k k' :
  l !! q = Some k → mjoin (<[q:=k']> l) ++ k ≡ₚ mjoin l ++ k'.
Proof.
  intros Hq. apply lookup_lt_Some in Hq as Hlt. rewrite insert_take_drop by done.
  rewrite <-(take_drop_middle l q k Hq) at 3. rewrite !join_app. simpl. solve_Permutation.
Qed.

Lemma mjoin_push {B} (l : list (list B)) q k x :
  l !! q = Some k → mjoin (<[q:=k ++ [x]]> l) ≡ₚ mjoin l ++ [x].
Proof.
  intros Hq. apply (Permutation_app_inv_r k). rewrite mjoin_insert_perm by done.
  rewrite <-app_assoc. by rewrite (Permutation_app_comm k).
Qed.

Lemma mjoin_pop {B} (l : list (list B)) q k x :
  l !! q = Some (x :: k) → mjoin l ≡ₚ x :: mjoin (<[q:=k]> l).
Proof.
  intros Hq. apply (Permutation_app_inv_r k). rewrite <-(mjoin_insert_perm _ _ _ k Hq).
  by rewrite <-Permutation_middle.
Qed.

(** [guard.retire(i)]. *)
Lemma sinv_push ph c o i c' :
  sinv n ph c → sops c !! o = Some (RetirePush i) → reg_exec c (Retire o i) = Some c' →
  ∃ ph', sinv n ph' (set_sop o (RetireDrop (Ok ())) c').
Proof.
  intros Hi Ho Hr. unfold reg_exec in Hr. inv_bind. rename x into e'.
  assert (Hinv : epoch_inv (slots n) (reg e') (ops e')) by
    (eapply inv_exec; [apply (s_epoch _ _ _ Hi)|done]).
  match goal with H : exec _ _ = Some _ |- _ => simpl in H end.
  destruct (rops c !! o) as [[]|] eqn:Ero; simplify_eq. inv_bind. simpl in *.
  match goal with H : retire _ _ _ = Some _ |- _ => unfold retire in H end. inv_bind.
  destruct (sinv_claimed _ _ _ _ i _ Hi Ho eq_refl) as (Hp & _).
  match goal with H : retiring _ !! _ = Some ?l |- _ =>
    pose proof (mjoin_push _ _ _ (i, held (rops c)) H) as Hperm end.
  exists (<[i:=PQueued (held (rops c))]> ph). unfold set_sop. simpl.
  assert (Hnot : ∀ seen, (i, seen) ∉ mjoin (retiring (registry (store c)))).
  { intros seen Hin. apply (s_queue _ _ _ Hi) in Hin. simplify_eq. }
  eapply sinv_requeue; try done.
  - intros ?? [=]; done.
  - intros j seen Hj. simpl in Hj. rewrite Hperm in Hj. apply elem_of_app in Hj as [Hj|Hj].
    + left. split; [|done]. intros ->. by eapply Hnot.
    + apply list_elem_of_singleton in Hj. simplify_eq. by right.
  - simpl. rewrite Hperm, fmap_app. simpl. apply NoDup_app. split_and!.
    + apply (s_queue_nodup _ _ _ Hi).
    + intros j Hj ->%list_elem_of_singleton. apply list_elem_of_fmap in Hj as ([j seen] & -> & Hj).
      by eapply Hnot.
    + apply NoDup_singleton.
Qed.

(** A drained id: the readers that could see it are gone. *)
Lemma sinv_pop ph c o q ret i seen r' c' :
  sinv n ph c → sops c !! o = Some (DrainPop ret) → rops c !! o = Some (AdvanceDrain q) →
  drain_pop (registry (store c)) q = Some ((i, seen), r') → reg_exec c (Pop o) = Some c' →
  i < length (buffer (store c)) ∧ ∃ ph', sinv n ph' (set_sop o (DrainMirror ret i) c').
Proof.
  intros Hi Ho Hro Hpop Hr. unfold reg_exec in Hr. inv_bind. rename x into e'.
  assert (Hinv : epoch_inv (slots n) (reg e') (ops e')) by
    (eapply inv_exec; [apply (s_epoch _ _ _ Hi)|done]).
  pose proof (popped_unseen (slots n) (econf_of c) o q i seen r' (s_epoch _ _ _ Hi) Hro Hpop) as Hun.
  match goal with H : exec _ _ = Some _ |- _ => simpl in H; rewrite Hro in H end.
  inv_bind. rewrite Hpop in *. simplify_eq. simpl in *. unfold drain_pop in Hpop. inv_bind.
  match goal with H : match ?l with _ => _ end = _ |- _ => destruct l as [|y l]; simplify_eq end.
  match goal with H : retiring _ !! _ = Some _ |- _ => pose proof (mjoin_pop _ _ _ _ H) as Hperm end.
  assert (Hph : ph !! i = Some (PQueued seen)).
  { apply (s_queue _ _ _ Hi). rewrite Hperm. by left. }
  pose proof (s_queue_nodup _ _ _ Hi) as Hnd. rewrite Hperm in Hnd. simpl in Hnd.
  apply NoDup_cons in Hnd as [Hni Hnd].
  split; [rewrite (s_buffer _ _ _ Hi); by eapply lookup_lt_Some|].
  exists (<[i:=PClaim o Rel1]> ph). unfold set_sop. simpl.
  eapply sinv_requeue; try done.
  - intros j r [= <- <-]. done.
  - intros j seen' Hj. simpl in Hj. left. split.
    + intros ->. apply Hni. apply (list_elem_of_fmap_2 fst _ _ Hj).
    + rewrite Hperm. by right.
Qed.

(** A guard is dropped at the end of its operation. *)
Lemma sinv_drop_guard ph c o p' c' :
  sinv n ph c → reg_exec c (DropGuard o) = Some c' →
  claim p' = None → is_reader p' = false → (∀ x y, local_ok x y p') →
  sinv n ph (set_sop o p' c').
Proof.
  intros Hi Hr Hc Hp Hl. unfold reg_exec in Hr. inv_bind. rename x into e'.
  assert (Hinv : epoch_inv (slots n) (reg e') (ops e')) by
    (eapply inv_exec; [apply (s_epoch _ _ _ Hi)|done]).
  match goal with H : exec _ _ = Some _ |- _ => simpl in H end.
  destruct (rops c !! o) as [[]|] eqn:Ero; simplify_eq. simpl in *.
  assert (Hi' : sinv n ph (set_sop o p' c)).
  { apply sinv_set_sop; try done. intros; congruence. }
  apply (sinv_reg ph (set_sop o p' c)); try done. intros o' refs Ho' _ Hh.
  simpl in Ho'. apply lookup_insert_Some in Ho' as [[-> ->]|[Hne _]]; [done|].
  apply held_elem in Hh as (e'' & s'' & Hh). apply held_elem.
  exists e'', s''. simpl. by rewrite lookup_insert_ne.
Qed.

(** [Reader::read] hands out a reference only to data that stays put. *)
Lemma sinv_read ph c o refs e s i v :
  sinv n ph c → sops c !! o = Some (Reader refs) → rops c !! o = Some (GuardHeld e s) →
  read (store c) i = Some v → sinv n ph (set_sop o (Reader ((i, v) :: refs)) c).
Proof.
  intros Hi Ho Hro Hr. unfold read in Hr.
  destruct (Nat.ltb_spec i (length (buffer (store c)))); [|done].
  rewrite (s_mirrors _ _ _ Hi), list_lookup_fmap in Hr.
  destruct (ph !! i) as [f|] eqn:Hf; simpl in Hr; [|done].
  assert (readable_by o f) by by destruct f as [| | |? []|].
  destruct (can_read (mirror_of f)); [|done].
  pose proof Hi as []. split; simpl; try done.
  - intros o' p j r. rewrite lookup_insert_Some. intros [[-> <-]|[_ Ho']]; [done|eauto].
  - intros o' p. rewrite lookup_insert_Some. intros [[-> <-]|[_ Ho']]; [done|eauto].
  - intros o' refs' j w. rewrite lookup_insert_Some. intros [[-> ?]|[_ Ho']] Hj; [|eauto].
    simplify_eq. apply elem_of_cons in Hj as [?|Hj]; [|eauto]. simplify_eq.
    split_and!; [done|eauto|]. apply held_elem. eauto.
Qed.

(** The owner of a slot writes: nobody reads it. *)
Lemma sinv_write ph c o i v :
  sinv n ph c → sops c !! o = Some (SlotHeld i) →
  sinv n ph (mkSconf (set_data i v (store c)) (rops c) (sops c)).
Proof.
  intros Hi Ho. destruct (sinv_claimed _ _ _ _ i _ Hi Ho eq_refl) as (Hp & _).
  pose proof Hi as []. split; simpl; try done; [by rewrite length_insert| |].
  - intros o' refs j w Ho' Hj. destruct (s_refs0 _ _ _ _ Ho' Hj) as (Hb & (f & Hf & Hrd) & Hh).
    split_and!; [|eauto|done]. rewrite list_lookup_insert_ne; [done|]. intros <-. by simplify_eq.
  - intros j w Hj. destruct (s_frozen0 _ _ Hj) as [? ?]. split; [done|].
    rewrite list_lookup_insert_ne; [done|]. intros <-. by simplify_eq.
Qed.

Lemma sinv_start ph c o p c' :
  sinv n ph c → start c o p = Some c' → claim p = None → (∀ x y, local_ok x y p) →
  (∀ refs, p = Reader refs → refs = []) → sinv n ph c'.
Proof.
  intros Hi Hs Hc Hl Hr. unfold start in Hs.
  destruct (sops c !! o) eqn:Eo, (rops c !! o); simplify_eq.
  pose proof Hi as []. split; simpl; try done.
  - intros o' q j r. rewrite lookup_insert_Some. intros [[-> ->]|[_ Ho']]; [congruence|eauto].
  - intros o' q. rewrite lookup_insert_Some. intros [[-> ->]|[_ Ho']]; [done|eauto].
  - intros o' refs j w. rewrite lookup_insert_Some. intros [[-> ->]|[_ Ho']] Hj; [|eauto].
    rewrite (Hr refs eq_refl) in Hj. by apply elem_of_nil in Hj.
Qed.

(** A quiet registry step followed by a change of the local state. *)
Lemma sinv_quiet_sop ph c a c' o p' :
  sinv n ph c → reg_exec c a = Some c' → quiet a = true →
  claim p' = None → is_reader p' = false → (∀ x y, local_ok x y p') →
  sinv n ph (set_sop o p' c').
Proof.
  intros Hi Hr Hq Hc Hp Hl. pose proof (sinv_quiet _ _ _ _ Hi Hr Hq) as Hi'.
  apply sinv_set_sop; try done. intros; congruence.
Qed.

Lemma drain_return_ok ret :
  claim (drain_return ret) = None ∧ is_reader (drain_return ret) = false ∧
  ∀ x y, local_ok x y (drain_return ret).
Proof. by destruct ret as [[]|]. Qed.

Lemma sinv_retire_guard ph c o i t c' :
  sinv n ph c → sops c !! o = Some (RetireGuard i t) → retire_guard c o i t = Some c' →
  ∃ ph', sinv n ph' c'.
Proof.
  intros Hi Ho Hs. unfold retire_guard in Hs. pose proof (s_local _ _ _ Hi _ _ Ho) as Hl.
  destruct (rops c !! o) as [q|] eqn:Er; [|exists ph; by eapply sinv_quiet].
  destruct q; try (exists ph; by eapply sinv_quiet).
  - rewrite (s_tags _ _ _ Hi), list_lookup_fmap in Hs.
    destruct (ph !! i) as [f|] eqn:Hf; simpl in Hs; [|done].
    destruct (Z.eqb_spec (tag_of f) t) as [<-|]; simplify_eq.
    + simpl in Hl. assert (f = PPub) as -> by by destruct f as [| | |? []|].
      exists (<[i:=PClaim o RetMirror]> ph).
      apply (sinv_tag ph c o (RetireGuard i (tag_of PPub)) _ i PPub (PClaim o RetMirror)); try done.
      by intros j r [= <- <-].
    + exists ph. by apply sinv_set_sop.
  - simplify_eq. exists ph. by apply sinv_set_sop.
Qed.

Lemma sinv_drain_advance ph c o ret c' :
  sinv n ph c → sops c !! o = Some (DrainAdvance ret) → drain_advance c o ret = Some c' →
  ∃ ph', sinv n ph' c'.
Proof.
  intros Hi Ho Hs. unfold drain_advance in Hs. exists ph. destruct (drain_return_ok ret) as (? & ? & ?).
  destruct (rops c !! o) as [q|] eqn:Er; [|by eapply sinv_quiet].
  destruct q; try (by eapply sinv_quiet).
  - simplify_eq. by apply sinv_set_sop.
  - inv_bind. by eapply sinv_quiet_sop.
  - simplify_eq. apply sinv_set_sop; try done. simpl.
    apply (inv_advance _ _ _ (s_epoch _ _ _ Hi) _ _ Er).
Qed.

Lemma sinv_drain_pop_step ph c o ret c' :
  sinv n ph c → sops c !! o = Some (DrainPop ret) → drain_pop_step c o ret = Some c' →
  ∃ ph', sinv n ph' c'.
Proof.
  intros Hi Ho Hs. unfold drain_pop_step in Hs. destruct (drain_return_ok ret) as (? & ? & ?).
  destruct (rops c !! o) as [[]|] eqn:Er; try done.
  destruct (drain_pop (registry (store c)) q) as [[[i seen] r']|] eqn:Ep.
  - inv_bind. destruct (sinv_pop _ _ _ _ _ _ _ _ _ Hi Ho Er Ep ltac:(eassumption)) as [Hlt Hi'].
    destruct (Nat.ltb_spec i (length (buffer (store c)))); [done|lia].
  - inv_bind. exists ph. by eapply sinv_quiet_sop.
Qed.

Lemma sinv_store_step ph c o p s' p' :
  sinv n ph c → sops c !! o = Some p → store_step (store c) p = Some (s', p') →
  ∃ ph', sinv n ph' (mkSconf s' (rops c) (<[o:=p']> (sops c))).
Proof.
  intros Hi Ho Hs. destruct p; simpl in Hs; try done;
    first [ by eapply sinv_acquire_step | by eapply sinv_scan_step
          | by eapply sinv_release_step | by eapply sinv_retire_step ].
Qed.

Lemma sinv_sexec ph c a c' : sinv n ph c → sexec c a = Some c' → ∃ ph', sinv n ph' c'.
Proof.
  intros Hi Ha. destruct a; cbn [sexec] in Ha.
  - inv_bind. exists ph. eapply sinv_quiet; [|done..].
    eapply sinv_start; [done..|]. by intros ? [= <-].
  - destruct (sops c !! o) as [[]|] eqn:Eo, (rops c !! o) as [[]|] eqn:Er; simplify_eq.
    exists ph. destruct (read (store c) i) eqn:E; [|done]. by eapply sinv_read.
  - destruct (sops c !! o) as [[]|] eqn:Eo; simplify_eq. inv_bind. exists ph.
    by eapply sinv_drop_guard.
  - exists ph. by eapply sinv_start.
  - exists ph. by eapply sinv_start.
  - exists ph. by eapply sinv_start.
  - destruct (sops c !! o) as [[]|] eqn:Eo; simplify_eq. inv_bind.
    destruct (_ =? _); simplify_eq. exists ph. by eapply sinv_write.
  - destruct (sops c !! o) as [[]|] eqn:Eo; simplify_eq.
    destruct (sinv_claimed _ _ _ _ i _ Hi Eo eq_refl) as (Hp & _).
    exists (<[i:=PClaim o Publishing]> ph).
    apply (sinv_mirror ph c o (SlotHeld i) _ i (PClaim o Owner) (PClaim o Publishing));
      try done; by intros j r [= <- <-].
  - destruct (sops c !! o) as [[]|] eqn:Eo; simplify_eq.
    destruct (sinv_claimed _ _ _ _ i _ Hi Eo eq_refl) as (Hp & _).
    exists (<[i:=PClaim o Dropping]> ph).
    apply (sinv_mirror ph c o (SlotHeld i) _ i (PClaim o Owner) (PClaim o Dropping));
      try done; by intros j r [= <- <-].
  - destruct (sops c !! o) as [p|] eqn:Eo; [|done].
    assert (Hst : ∀ c'', ('(s, p') ← store_step (store c) p;
        Some (mkSconf s (rops c) (<[o:=p']> (sops c)))) = Some c'' → ∃ ph', sinv n ph' c'').
    { intros c'' Hc. apply bind_Some in Hc as ([s q] & Hq & [= <-]). by eapply sinv_store_step. }
    destruct p; try (by apply Hst).
    + exists ph. by eapply sinv_quiet.
    + by eapply sinv_retire_guard.
    + inv_bind. by eapply sinv_push.
    + inv_bind. exists ph. by eapply sinv_drop_guard.
    + by eapply sinv_drain_advance.
    + by eapply sinv_drain_pop_step.
Qed.

Lemma sinv_srun ph c l c' : sinv n ph c → srun c l = Some c' → ∃ ph', sinv n ph' c'.
Proof.
  revert ph c. induction l as [|a l IH]; intros ph c Hi Hr; simplify_eq/=; [by exists ph|].
  inv_bind. destruct (sinv_sexec ph c a x) as [ph' ?]; [done..|]. by eapply IH.
Qed.

End invariant.

(** ** The constructed store *)
Section construction.

Lemma populate_ok init s l w :
  Forall (λ d, length d = w) init → Forall (λ d, length d = w) (buffer s) →
  tags s = tag_of <$> (l ++ replicate (length init) PAvail) →
  mirrors s = mirror_of <$> (l ++ replicate (length init) PAvail) →
  length (buffer s) = length l + length init →
  ∃ s', populate (length l) init s = Some s' ∧
    tags s' = tag_of <$> (l ++ replicate (length init) PFroz) ∧
    mirrors s' = mirror_of <$> (l ++ replicate (length init) PFroz) ∧
    buffer s' = take (length l) (buffer s) ++ init ∧
    freelist s' = freelist s ∧ registry s' = registry s ∧ unfrozen s' = unfrozen s ∧
    shape s' = shape s.
Proof.
  revert s l. induction init as [|d init IH]; intros s l Hw Hb Ht Hm Hlen; simpl in *.
  { exists s. split_and!; try done. rewrite app_nil_r, take_ge; [done|lia]. }
  apply Forall_cons in Hw as [Hd Hw].
  destruct (lookup_lt_is_Some_2 (buffer s) (length l)) as [old Hold]; [lia|].
  unfold try_acquire, slot_load. rewrite Ht, list_lookup_fmap, list_lookup_middle by done.
  simpl. rewrite Hold. simpl. rewrite Forall_lookup in Hb. rewrite Hd, (Hb _ _ Hold), Nat.eqb_refl.
  cbn [rassert mbind option_bind].
  destruct (IH (freeze (length l) (set_data (length l) d (set_tag (length l) OWNED s)))
    (l ++ [PFroz])) as (s' & Hp & Ht' & Hm' & Hb' & Hf & Hr & Hu & Hs); simpl.
  - done.
  - apply Forall_insert; [|done]. by apply Forall_lookup.
  - rewrite Ht, list_insert_insert_eq, <-app_assoc, !fmap_app. simpl.
    by rewrite insert_app_r_alt, length_fmap, Nat.sub_diag by (rewrite length_fmap; lia).
  - rewrite Hm, <-app_assoc, !fmap_app. simpl.
    by rewrite insert_app_r_alt, length_fmap, Nat.sub_diag by (rewrite length_fmap; lia).
  - rewrite length_insert, length_app. simpl. lia.
  - rewrite length_app, Nat.add_1_r in Hp. exists s'. simpl in *.
    rewrite <-!app_assoc in Ht', Hm'. split_and!; try done.
    rewrite Hb', length_app. simpl. rewrite Nat.add_1_r.
    rewrite (take_S_r _ _ d) by (apply list_lookup_insert_eq; lia).
    rewrite take_insert_ge, <-app_assoc by lia. done.
Qed.

(** The phases of a fresh store. *)
Definition fresh_phases (n k : nat) : list phase := replicate n PAvail ++ replicate k PFroz.

Definition frozen_rows (n : nat) (init : list bytes) (i : nat) : option bytes :=
  if n <=? i then init !! (i - n) else None.

(** The store before the frozen points are written. *)
Definition blank_store (cfg : Config) (k : nat) (buf : Buffer) : Store :=
  let n := Z.to_nat (cfg_entries cfg) in
  mkStore (replicate (n + k) (replicate (Z.to_nat (cfg_bytes cfg)) 0%Z))
    (replicate (n + k) AVAILABLE) (replicate (n + k) AVAILABLE) n
    (freelist_new (cfg_entries cfg) (cfg_freelist_recycle_capacity cfg))
    (with_capacity (cfg_epoch_guard_slots cfg)) (mkShape buf (cfg_bytes cfg + 1)%Z).

Lemma store_new_Ok cfg init ncols s nb :
  (0 ≤ cfg_entries cfg)%Z → store_new cfg init ncols = Some (Ok (s, nb)) →
  ncols = cfg_bytes cfg ∧ length init ≠ 0 ∧
  (cfg_entries cfg + Z.of_nat (length init) < 2 ^ 32)%Z ∧
  ∃ pad buf, bytes_checked_next_multiple_of (cfg_bytes cfg + 1)%Z 32%Z = Some pad ∧
    buffer_new (cfg_entries cfg + Z.of_nat (length init)) pad 128 = Ok buf ∧
    neighbors_new (cfg_entries cfg + Z.of_nat (length init)) (cfg_max_neighbors cfg) = Ok nb ∧
    populate (Z.to_nat (cfg_entries cfg)) init (blank_store cfg (length init) buf) = Some s.
Proof.
  intros Hn. unfold store_new.
  destruct (Z.eqb_spec ncols (cfg_bytes cfg)) as [->|]; [|done]. simpl.
  destruct (Z.eqb_spec (Z.of_nat (length init)) 0); [done|]. intros Hs.
  apply bind_Some in Hs as (unp & Hu & Hs). apply bind_Some in Hs as (pad & Hp & Hs).
  unfold bytes_checked_add in Hu. destruct (_ <? _)%Z; [|done]. injection Hu as <-.
  destruct (_ || _) eqn:Eb; [done|]. apply orb_false_iff in Eb as [[H1 H2]%orb_false_iff H3].
  apply Z.leb_gt in H1, H2, H3. unfold u32_limit in *.
  destruct (_ <=? cfg_max_neighbors cfg)%Z; [done|].
  destruct (buffer_new _ _ _) as [buf|] eqn:Ebuf; [|done].
  destruct (neighbors_new _ _) as [nb'|] eqn:Enb; [|done].
  apply bind_Some in Hs as (s' & Hpop & Hs). simplify_eq.
  split_and!; [done|lia|lia|]. exists pad, buf. split_and!; [done..|].
  unfold blank_store. rewrite Z2Nat.inj_add, Nat2Z.id in Hpop by lia. exact Hpop.
Qed.

(** The frozen points of a blank store are written. *)
Lemma blank_store_populated cfg init buf s :
  Forall (λ d, length d = Z.to_nat (cfg_bytes cfg)) init →
  populate (Z.to_nat (cfg_entries cfg)) init (blank_store cfg (length init) buf) = Some s →
  let n := Z.to_nat (cfg_entries cfg) in
  tags s = tag_of <$> fresh_phases n (length init) ∧
  mirrors s = mirror_of <$> fresh_phases n (length init) ∧
  buffer s = replicate n (replicate (Z.to_nat (cfg_bytes cfg)) 0%Z) ++ init ∧
  freelist s = freelist_new (cfg_entries cfg) (cfg_freelist_recycle_capacity cfg) ∧
  registry s = with_capacity (cfg_epoch_guard_slots cfg) ∧ unfrozen s = n ∧
  shape s = mkShape buf (cfg_bytes cfg + 1)%Z.
Proof.
  intros Hrows Hp. set (n := Z.to_nat (cfg_entries cfg)) in *.
  destruct (populate_ok init (blank_store cfg (length init) buf) (replicate n PAvail)
    (Z.to_nat (cfg_bytes cfg))) as (s' & Hp' & Ht & Hm & Hb & Hf & Hr & Hu & Hs);
    simpl; fold n; try done.
  { apply Forall_replicate. by rewrite length_replicate. }
  { by rewrite <-replicate_add, fmap_replicate. }
  { by rewrite <-replicate_add, fmap_replicate. }
  { by rewrite !length_replicate. }
  rewrite length_replicate in Hp'. simplify_eq. simpl in *. fold n in Hb.
  rewrite length_replicate, take_replicate, Nat.min_l in Hb by lia. done.
Qed.

Lemma store_new_inv cfg init ncols s nb :
  (0 ≤ cfg_entries cfg)%Z → Forall (λ d, length d = Z.to_nat ncols) init →
  store_new cfg init ncols = Some (Ok (s, nb)) →
  sinv (mkFixed (cfg_epoch_guard_slots cfg) (frozen_rows (Z.to_nat (cfg_entries cfg)) init))
    (fresh_phases (Z.to_nat (cfg_entries cfg)) (length init)) (sinitial s).
Proof.
  intros Hn Hrows (-> & _ & Hlt & pad & buf & _ & _ & _ & Hp)%store_new_Ok; [|done].
  destruct (blank_store_populated _ _ _ _ Hrows Hp) as (Ht & Hm & Hb & Hf & Hr & Hu & _).
  split; simpl; try done.
  - rewrite Hr. apply inv_initial.
  - rewrite Hb. unfold fresh_phases. by rewrite !length_app, !length_replicate.
  - rewrite Hf, Hu. simpl. split_and!; [apply freelist_new_ok; lia|lia|].
    unfold fresh_phases. rewrite length_app, length_replicate. lia.
  - rewrite Hr. simpl. by intros i seen ?%elem_of_nil.
  - rewrite Hr. simpl. constructor.
  - unfold frozen_rows. intros i v Hv.
    destruct (Nat.leb_spec (Z.to_nat (cfg_entries cfg)) i); [|done]. unfold fresh_phases. rewrite Hb.
    rewrite !lookup_app_r by (rewrite length_replicate; lia). rewrite !length_replicate.
    split; [|done]. apply lookup_replicate_2. by eapply lookup_lt_Some.
Qed.

End construction.

(** A configuration that some sequence of accesses reaches from a constructed store. *)
Definition store_reachable (c : sconf) : Prop :=
  ∃ cfg init ncols s nb l,
    (0 ≤ cfg_entries cfg)%Z ∧ Forall (λ d, length d = Z.to_nat ncols) init ∧
    store_new cfg init ncols = Some (Ok (s, nb)) ∧ srun (sinitial s) l = Some c.

Lemma store_reachable_inv c : store_reachable c → ∃ n ph, sinv n ph c.
Proof.
  intros (cfg & init & ncols & s & nb & l & H1 & H2 & H3 & H4).
  pose proof (store_new_inv _ _ _ _ _ H1 H2 H3) as Hi.
  destruct (sinv_srun _ _ _ _ _ Hi H4) as [ph ?]. eauto.
Qed.

(** ** Safety *)

(** C5: Data-race freedom of the store, for any number of readers, writers and deleters under
    any interleaving of their atomic accesses: while a slot handle gives write access to a row,
    no reader holds a reference to that row and no other operation has a claim on the slot. *)
Theorem store_race_free c o i :
  store_reachable c → sops c !! o = Some (SlotHeld i) →
  (∀ o' refs v, sops c !! o' = Some (Reader refs) → (i, v) ∉ refs) ∧
  (∀ o' p r, o' ≠ o → sops c !! o' = Some p → claim p ≠ Some (i, r)).
Proof.
  intros (n & ph & Hi)%store_reachable_inv Ho.
  destruct (sinv_claimed _ _ _ _ _ i _ Hi Ho eq_refl) as (Hp & _). split.
  - intros o' refs v Ho' Hv. destruct (s_refs _ _ _ Hi _ _ _ _ Ho' Hv) as (_ & (f & Hf & Hrd) & _).
    by simplify_eq.
  - intros o' p r Hne Ho' Hc. pose proof (s_claim _ _ _ Hi _ _ _ _ Ho' Hc). by simplify_eq.
Qed.

(** C14: What a reader sees stays what it saw: as long as the reader exists, every row that it
    read holds the bytes that were returned, although slots are retired, reclaimed, written and
    published concurrently; the guard of the reader is held all that time. *)
Theorem store_reads_stable c o refs i v :
  store_reachable c → sops c !! o = Some (Reader refs) → (i, v) ∈ refs →
  buffer (store c) !! i = Some v ∧ ∃ e s, rops c !! o = Some (GuardHeld e s).
Proof.
  intros (n & ph & Hi)%store_reachable_inv Ho Hv.
  destruct (s_refs _ _ _ Hi _ _ _ _ Ho Hv) as (? & _ & ?%held_elem). done.
Qed.

(** C37: The runtime checks of the store never fire: neither the two CONCURRENCY VIOLATION
    assertions of [try_drain] on the tags of a drained slot, nor its bounds check, nor the
    [expect] on the ids of a scan.  An operation can only panic when the epoch counter has
    reached [u64::MAX]. *)
Theorem store_never_panics c o :
  store_reachable c → (epoch (registry (store c)) < u64_max)%Z → sops c !! o ≠ Some Panicked.
Proof.
  intros (n & ph & Hi)%store_reachable_inv HE Ho. pose proof (s_local _ _ _ Hi _ _ Ho). simpl in *. lia.
Qed.

(** Frozen points are permanent: after any history of the store, the slots behind the
    writable ones hold the rows given to the constructor, and reading one succeeds. *)
Theorem store_frozen_forever cfg init ncols s nb l c k v :
  (0 ≤ cfg_entries cfg)%Z → Forall (λ d, length d = Z.to_nat ncols) init →
  store_new cfg init ncols = Some (Ok (s, nb)) → srun (sinitial s) l = Some c →
  init !! k = Some v → read (store c) (Z.to_nat (cfg_entries cfg) + k) = Some v.
Proof.
  intros H1 H2 H3 H4 Hk. pose proof (store_new_inv _ _ _ _ _ H1 H2 H3) as Hi.
  destruct (sinv_srun _ _ _ _ _ Hi H4) as [ph Hi'].
  destruct (s_frozen _ _ _ Hi' (Z.to_nat (cfg_entries cfg) + k) v) as [Hp Hb].
  { simpl. unfold frozen_rows. destruct (Nat.leb_spec (Z.to_nat (cfg_entries cfg))
      (Z.to_nat (cfg_entries cfg) + k)); [|lia]. by rewrite Nat.add_comm, Nat.add_sub. }
  unfold read. destruct (Nat.ltb_spec (Z.to_nat (cfg_entries cfg) + k) (length (buffer (store c))))
    as [_|Hge]; [|apply lookup_lt_Some in Hb; lia].
  by rewrite (s_mirrors _ _ _ Hi'), list_lookup_fmap, Hp.
Qed.

(** A store with two writable slots: one is written, published, read and retired while the
    reader is still there; another writer owns the second slot. *)
Definition demo_cfg : Config := mkConfig 2%Z 2%Z 3%Z 4 4.
Definition demo_store : Store :=
  match store_new demo_cfg [[9; 9]%Z] 2%Z with
  | Some (Ok (s, _)) => s
  | _ => mkStore [] [] [] 0 (freelist_new 0%Z 0) (with_capacity 0) (mkShape (mkBuffer 0%Z 0%Z 0%Z) 0%Z)
  end.
Definition demo_actions : list saction :=
  NewAcquire 1 :: replicate 5 (Go 1) ++ [Write 1 [5; 6]%Z; Publish 1; Go 1; NewReader 2]
  ++ replicate 5 (Go 2) ++ [Read 2 0; Read 2 2; NewRetire 3 0] ++ replicate 10 (Go 3)
  ++ NewAcquire 4 :: replicate 5 (Go 4).
Definition demo_sconf : sconf := default (sinitial demo_store) (srun (sinitial demo_store) demo_actions).

Lemma demo_reachable : store_reachable demo_sconf.
Proof.
  exists demo_cfg, [[9; 9]%Z], 2%Z, demo_store.
  eexists _, demo_actions. split_and!; [done|by repeat constructor|vm_compute; reflexivity|].
  vm_compute. reflexivity.
Qed.

Lemma store_race_free_witness :
  sops demo_sconf !! 4 = Some (SlotHeld 1) ∧
  ∀ o' refs v, sops demo_sconf !! o' = Some (Reader refs) → (1, v) ∉ refs.
Proof.
  split; [vm_compute; reflexivity|].
  apply (store_race_free demo_sconf 4 1 demo_reachable). vm_compute. reflexivity.
Defined.

Lemma store_reads_stable_witness :
  buffer (store demo_sconf) !! 0 = Some [5; 6]%Z ∧ ∃ e s, rops demo_sconf !! 2 = Some (GuardHeld e s).
Proof.
  apply (store_reads_stable demo_sconf 2 [(2, [9; 9]%Z); (0, [5; 6]%Z)] 0 [5; 6]%Z demo_reachable).
  - vm_compute. reflexivity.
  - by right; left.
Defined.

Lemma store_frozen_forever_witness : read (store demo_sconf) 2 = Some [9; 9]%Z.
Proof.
  eapply (store_frozen_forever demo_cfg [[9; 9]%Z] 2%Z demo_store _ demo_actions demo_sconf 0).
  - done.
  - by repeat constructor.
  - vm_compute. reflexivity.
  - vm_compute. reflexivity.
  - done.
Defined.

Lemma store_never_panics_witness : sops demo_sconf !! 3 ≠ Some Panicked.
Proof. apply (store_never_panics demo_sconf 3 demo_reachable). vm_compute. reflexivity. Defined.

(** ** Layout of the constructed store *)

(** The slices of row [i]: the payload, then the tag, at the start of the padded row. *)
Lemma data_unchecked_spec b w n i sz :
  (0 ≤ b)%Z → (b + 1 ≤ w)%Z → (w < usize_limit)%Z →
  data_unchecked (mkShape (mkBuffer w n sz) (b + 1)%Z) i =
  (mkSlice (w * i) b, mkSlice (w * i + b) 1%Z).
Proof.
  intros. unfold data_unchecked, split_slice, truncate, get_unchecked, TAG_SIZE,
    bytes_unchecked_sub; simpl. rewrite (Z.min_r w) by lia.
  rewrite (Z.mod_small (b + 1 - 1)), Z.min_r by lia.
  unfold split_unchecked, bytes_unchecked_sub; simpl. rewrite Z.mod_small by lia.
  do 3 f_equal; lia.
Qed.

(** The pointer arithmetic of the store: the payload of every row has the configured number
    of bytes and its tag one byte, both lie inside the allocation, and no two of these slices
    overlap, for the same row or for different ones; rows are padded to half a cache line. *)
Theorem store_layout cfg init ncols s nb :
  (0 ≤ cfg_entries cfg)%Z → (0 ≤ cfg_bytes cfg)%Z →
  Forall (λ d, length d = Z.to_nat ncols) init →
  store_new cfg init ncols = Some (Ok (s, nb)) →
  let data i := (data_unchecked (shape s) i).1 in
  let mirror i := (data_unchecked (shape s) i).2 in
  let total := (cfg_entries cfg + Z.of_nat (length init))%Z in
  (stride (layout (shape s)) mod 32 = 0)%Z ∧
  ∀ i, (0 ≤ i < total)%Z →
    slice_len (data i) = cfg_bytes cfg ∧ slice_len (mirror i) = 1%Z ∧
    inside (data i) 0 (layout_size (layout (shape s))) ∧
    inside (mirror i) 0 (layout_size (layout (shape s))) ∧
    disjoint_slices (data i) (mirror i) ∧
    ∀ j, (0 ≤ j < total)%Z → i ≠ j →
      disjoint_slices (data i) (data j) ∧ disjoint_slices (data i) (mirror j) ∧
      disjoint_slices (mirror i) (mirror j).
Proof.
  intros Hn Hb Hrows (-> & Hne & Hlt & pad & buf & Hpad & Hbuf & _ & Hp)%store_new_Ok; [|done].
  destruct (blank_store_populated _ _ _ _ Hrows Hp) as (_ & _ & _ & _ & _ & _ & ->).
  apply (next_multiple_spec _ 32%Z) in Hpad as [Hpad Hmod]; [|lia..].
  apply buffer_new_Ok in Hbuf as (Hst & Hent & Hsz & Hmax). destruct buf as [w n sz].
  simpl in Hst, Hent, Hsz. subst w n sz. cbn [stride layout layout_size]. set (total := (cfg_entries cfg + Z.of_nat (length init))%Z) in *.
  assert (pad < usize_limit)%Z by (unfold isize_max, usize_limit in *; nia).
  cbv zeta. split; [done|]. intros i Hi. rewrite !(data_unchecked_spec _ _ _ i) by lia.
  cbn [fst snd slice_len]. split_and!; [unfold inside, disjoint_slices; simpl; nia..|].
  intros j Hj Hij. rewrite !(data_unchecked_spec _ _ _ j) by lia.
  assert (pad * i + pad ≤ pad * j ∨ pad * j + pad ≤ pad * i)%Z by nia.
  unfold disjoint_slices; simpl. lia.
Qed.

Lemma store_layout_witness :
  slice_len (data_unchecked (shape demo_store) 2%Z).1 = 2%Z.
Proof.
  destruct (store_layout demo_cfg [[9; 9]%Z] 2%Z demo_store
    (match store_new demo_cfg [[9; 9]%Z] 2%Z with
     | Some (Ok (_, nb)) => nb | _ => mkNeighbors (mkBuffer 0%Z 0%Z 0%Z) [] 0%Z end))
    as [_ H]; [done|done|by repeat constructor|vm_compute; reflexivity|].
  by destruct (H 2%Z) as [Hl _]; [simpl; lia|].
Defined.
