(* ===== verification/SliceHeap.v ===== *)
(** * The in-place heap of the quantizers ([diskann-quantization/src/algorithms/heap.rs])

    A max-heap on a non-empty slice whose size never changes; only the root can be updated.
    [sift_down] is a loop over indices with unchecked accesses: an access out of bounds is
    [None].  The loop runs with fuel; [length l] iterations are enough, since the position at
    least doubles. *)

From S2P Require Import Prelude.

Section heap.
Context {T : Type} (le : T → T → bool).

(** ** Operations *)

Definition swap_unchecked (l : list T) (a b : nat) : option (list T) :=
  x ← l !! a; y ← l !! b; _ ← rassert (negb (a =? b)); Some (<[b:=x]> (<[a:=y]> l)).

(** The loop of [sift_down], from [pos] with [child = 2 * pos + 1].  [x < y] on a totally
    ordered type is [negb (le y x)]. *)
Fixpoint sift_loop (fuel : nat) (l : list T) (pos : nat) : option (list T) :=
  match fuel with
  | O => None
  | S fuel =>
      let len := length l in
      let child := 2 * pos + 1 in
      if child <=? len - 2 then
        a ← l !! child; b ← l !! (child + 1);
        let child := if le a b then child + 1 else child in
        p ← l !! pos; c ← l !! child;
        if le c p then Some l
        else l' ← swap_unchecked l pos child; sift_loop fuel l' child
      else
        len1 ← usub len 1;
        if child =? len1 then
          p ← l !! pos; c ← l !! child;
          if negb (le c p) then swap_unchecked l pos child else Some l
        else Some l
  end.

Definition sift_down (l : list T) (pos : nat) : option (list T) := sift_loop (S (length l)) l pos.

(** [for i in (0..=start).rev()]: [k] iterations are left, the next one is [k - 1]. *)
Fixpoint heapify_loop (k : nat) (l : list T) : option (list T) :=
  match k with
  | O => Some l
  | S k => l' ← sift_down l k; heapify_loop k l'
  end.

Definition heapify (l : list T) : option (list T) :=
  if length l <=? 1 then Some l else heapify_loop (S ((length l - 2) / 2)) l.

Inductive EmptySlice := mkEmptySlice.

Definition heap_new (l : list T) : option (result EmptySlice (list T)) :=
  if length l =? 0 then Some (Err mkEmptySlice) else l' ← heapify l; Some (Ok l').
Definition heap_new_unchecked (l : list T) : result EmptySlice (list T) :=
  if length l =? 0 then Err mkEmptySlice else Ok l.

Definition peek (l : list T) : option T := head l.

Definition update_root (l : list T) (f : T → T) : option (list T) :=
  x ← l !! 0; sift_down (<[0:=f x]> l) 0.

(** ** Specification *)

Definition is_child (p c : nat) : Prop := c = 2 * p + 1 ∨ c = 2 * p + 2.

(** Every parent from [k] on is at least its children. *)
Definition heap_from (k : nat) (l : list T) : Prop :=
  ∀ p c x y, k ≤ p → is_child p c → l !! p = Some x → l !! c = Some y → le y x = true.

(** The same with a hole at [pos]: its children are bounded by its parent instead. *)
Definition heap_except (k pos : nat) (l : list T) : Prop :=
  (∀ p c x y, k ≤ p → p ≠ pos → is_child p c →
    l !! p = Some x → l !! c = Some y → le y x = true) ∧
  (∀ p c x y, k ≤ p → is_child p pos → is_child pos c →
    l !! p = Some x → l !! c = Some y → le y x = true).

Section correctness.
Context (le_refl : ∀ x, le x x = true).
Context (le_total : ∀ x y, le x y = true ∨ le y x = true).
Context (le_trans : ∀ x y z, le x y = true → le y z = true → le x z = true).

Lemma le_false x y : le x y = false → le y x = true.
Proof. destruct (le_total x y); congruence. Qed.

Lemma swap_perm l a b l' : swap_unchecked l a b = Some l' → l' ≡ₚ l.
Proof.
  unfold swap_unchecked. intros Hs. inv_bind.
  destruct (Nat.eqb_spec a b) as [|Hne]; [done|].
  assert (l !! a = Some x) as Ha by done. assert (l !! b = Some x0) as Hb by done.
  apply Permutation_inj. split.
  { by rewrite !length_insert. }
  exists (λ i, if decide (i = a) then b else if decide (i = b) then a else i). split.
  { intros i j. repeat case_decide; congruence. }
  intros i. destruct (decide (i = a)) as [->|]; [|destruct (decide (i = b)) as [->|]].
  - rewrite list_lookup_insert_ne, list_lookup_insert_eq by (done || by eapply lookup_lt_Some). done.
  - rewrite list_lookup_insert_eq; [done|]. rewrite length_insert. by eapply lookup_lt_Some.
  - by rewrite !list_lookup_insert_ne by done.
Qed.

Lemma swap_ok l a b x y :
  l !! a = Some x → l !! b = Some y → a ≠ b →
  swap_unchecked l a b = Some (<[b:=x]> (<[a:=y]> l)).
Proof.
  intros Ha Hb Hab. unfold swap_unchecked. rewrite Ha, Hb. simpl.
  by rewrite (proj2 (Nat.eqb_neq a b)).
Qed.

Lemma swap_lookup (l : list T) a b x y i :
  a ≠ b → a < length l → b < length l →
  <[b:=x]> (<[a:=y]> l) !! i =
  if decide (i = b) then Some x else if decide (i = a) then Some y else l !! i.
Proof.
  intros. destruct (decide (i = b)) as [->|].
  { apply list_lookup_insert_eq. by rewrite length_insert. }
  rewrite list_lookup_insert_ne by done. destruct (decide (i = a)) as [->|].
  - by apply list_lookup_insert_eq.
  - by rewrite list_lookup_insert_ne.
Qed.

(** Moving the hole down to the child [c], the larger one. *)
Lemma heap_except_swap k pos c (l : list T) x y :
  heap_except k pos l → k ≤ pos → is_child pos c →
  l !! pos = Some x → l !! c = Some y → le y x = false →
  (∀ c' y', is_child pos c' → l !! c' = Some y' → le y' y = true) →
  heap_except k c (<[c:=x]> (<[pos:=y]> l)).
Proof.
  unfold heap_except, is_child. intros [H1 H2] Hk Hc Hx Hy Hyx Hmax.
  apply lookup_lt_Some in Hx as Hpl. apply lookup_lt_Some in Hy as Hcl.
  apply le_false in Hyx. split.
  - intros p d u v Hp Hpc Hd. rewrite !swap_lookup by lia.
    destruct (decide (p = c)); [done|]. destruct (decide (p = pos)) as [->|Hppos].
    + intros [= <-]. destruct (decide (d = c)) as [->|]; [intros [= <-]; done|].
      destruct (decide (d = pos)); [lia|]. intros Hv. by apply (Hmax d).
    + intros Hu. destruct (decide (d = c)) as [->|]; [lia|].
      destruct (decide (d = pos)) as [->|].
      * intros [= <-]. by apply (H2 p c u y).
      * intros Hv. by apply (H1 p d u v).
  - intros p d u v Hp Hpc Hd. assert (p = pos) as -> by lia. rewrite !swap_lookup by lia.
    rewrite (decide_False (P := pos = c)) by lia. rewrite decide_True by done.
    rewrite (decide_False (P := d = c)), (decide_False (P := d = pos)) by lia.
    intros [= <-] Hv. apply (H1 c d y v); [lia|lia|done..].
Qed.

Lemma heap_except_done k pos (l : list T) x :
  heap_except k pos l → l !! pos = Some x →
  (∀ c y, is_child pos c → l !! c = Some y → le y x = true) → heap_from k l.
Proof.
  intros [H1 _] Hx Hc p c u v Hp Hpc Hu Hv. destruct (decide (p = pos)) as [->|].
  - simplify_eq. eauto.
  - by apply (H1 p c u v).
Qed.

(** The loop restores the heap, keeps the elements and leaves what is before [k] alone. *)
Lemma sift_loop_ok fuel l k pos :
  heap_except k pos l → k ≤ pos < length l → length l ≤ pos + fuel → 0 < fuel →
  ∃ l', sift_loop fuel l pos = Some l' ∧ heap_from k l' ∧ l' ≡ₚ l ∧
    ∀ i, i < k → l' !! i = l !! i.
Proof.
  revert l pos. induction fuel as [|fuel IH]; intros l pos Hh Hpos Hf Hf0; [lia|].
  cbn [sift_loop]. destruct (lookup_lt_is_Some_2 l pos) as [x Hx]; [lia|].
  destruct (Nat.leb_spec (2 * pos + 1) (length l - 2)).
  - destruct (lookup_lt_is_Some_2 l (2 * pos + 1)) as [a Ha]; [lia|].
    destruct (lookup_lt_is_Some_2 l (2 * pos + 1 + 1)) as [b Hb]; [lia|].
    rewrite Ha, Hb, Hx. cbn [mbind option_bind].
    set (c := if le a b then 2 * pos + 1 + 1 else 2 * pos + 1).
    assert (∃ y, l !! c = Some y ∧ is_child pos c ∧
      ∀ c' y', is_child pos c' → l !! c' = Some y' → le y' y = true) as (y & Hy & Hc & Hmax).
    { unfold c, is_child. destruct (le a b) eqn:Eab.
      - exists b. split_and!; [done|lia|]. intros c' y' [-> | ->] ?; simplify_eq; [done|].
        replace (2 * pos + 2) with (2 * pos + 1 + 1) in * by lia. simplify_eq. apply le_refl.
      - exists a. split_and!; [done|lia|]. intros c' y' [-> | ->] ?; simplify_eq; [apply le_refl|].
        replace (2 * pos + 2) with (2 * pos + 1 + 1) in * by lia. simplify_eq. by apply le_false. }
    clearbody c. rewrite Hy. cbn [mbind option_bind]. destruct (le y x) eqn:Eyx.
    + exists l. split_and!; try done. eapply heap_except_done; [done..|]. eauto.
    + unfold is_child in Hc. rewrite (swap_ok l pos c x y) by (done || lia).
      cbn [mbind option_bind]. apply lookup_lt_Some in Hy as Hlt.
      destruct (IH (<[c:=x]> (<[pos:=y]> l)) c) as (l' & -> & ? & Hp & Hi).
      { apply heap_except_swap; try done; lia. }
      { rewrite !length_insert. lia. } { rewrite !length_insert. lia. } { lia. }
      exists l'. split_and!; [done..| |].
      * rewrite Hp. apply (swap_perm l pos c). apply swap_ok; (done || lia).
      * intros i ?. rewrite Hi, swap_lookup by lia. by rewrite !decide_False by lia.
  - unfold usub. destruct (Nat.leb_spec 1 (length l)); [|lia]. cbn [mbind option_bind].
    destruct (Nat.eqb_spec (2 * pos + 1) (length l - 1)) as [E|E].
    + destruct (lookup_lt_is_Some_2 l (2 * pos + 1)) as [y Hy]; [lia|]. rewrite Hx, Hy.
      cbn [mbind option_bind].
      assert (Hmax : ∀ c' y', is_child pos c' → l !! c' = Some y' → y' = y).
      { intros c' y' [-> | ->] Hc'; simplify_eq; [done|]. apply lookup_lt_Some in Hc'. lia. }
      destruct (le y x) eqn:Eyx; cbn [negb].
      * exists l. split_and!; try done. eapply heap_except_done; [done..|].
        intros c' y' ? ?. by rewrite (Hmax c' y').
      * rewrite (swap_ok l pos (2 * pos + 1) x y) by (done || lia). eexists. split; [done|].
        split_and!.
        -- eapply (heap_except_done k (2 * pos + 1)).
           ++ apply heap_except_swap; try done; [lia|by left|].
              intros c' y' ? ?. by rewrite (Hmax c' y').
           ++ rewrite swap_lookup by lia. by rewrite decide_True.
           ++ intros c' y' Hc' Hl. apply lookup_lt_Some in Hl. rewrite !length_insert in Hl.
              unfold is_child in Hc'. lia.
        -- apply (swap_perm l pos (2 * pos + 1)). apply swap_ok; (done || lia).
        -- intros i ?. rewrite swap_lookup by lia. by rewrite !decide_False by lia.
    + exists l. split_and!; try done. eapply heap_except_done; [done..|].
      intros c' y' Hc' Hl. apply lookup_lt_Some in Hl. unfold is_child in Hc'. lia.
Qed.

Lemma heap_from_except k (l : list T) : heap_from (S k) l → heap_except k k l.
Proof.
  unfold heap_from, heap_except, is_child. intros H. split.
  - intros p c x y Hp Hne. apply H. lia.
  - intros p c x y Hp Hpk. lia.
Qed.

Lemma sift_down_ok (l : list T) k :
  heap_from (S k) l → k < length l →
  ∃ l', sift_down l k = Some l' ∧ heap_from k l' ∧ l' ≡ₚ l.
Proof.
  intros Hh Hk. destruct (sift_loop_ok (S (length l)) l k k) as (l' & ? & ? & ? & _); try lia.
  - by apply heap_from_except.
  - eauto.
Qed.

Lemma heapify_loop_ok k (l : list T) :
  heap_from k l → k ≤ length l →
  ∃ l', heapify_loop k l = Some l' ∧ heap_from 0 l' ∧ l' ≡ₚ l.
Proof.
  revert l. induction k as [|k IH]; intros l Hh Hk; [by exists l|]. simpl.
  destruct (sift_down_ok l k) as (l' & -> & Hh' & Hp); [done|lia|]. cbn [mbind option_bind].
  destruct (IH l') as (l'' & -> & ? & Hp'); [done|rewrite Hp; lia|].
  exists l''. split_and!; [done..|]. by rewrite Hp'.
Qed.

(** In a heap the first element bounds the others. *)
Lemma heap_root (l : list T) x : heap_from 0 l → l !! 0 = Some x → ∀ y, y ∈ l → le y x = true.
Proof.
  intros Hh Hx y [i Hi]%list_elem_of_lookup_1. revert y Hi.
  induction i as [i IH] using lt_wf_ind. intros y Hi.
  destruct (decide (i = 0)) as [->|Hi0]; [simplify_eq; apply le_refl|].
  destruct (lookup_lt_is_Some_2 l ((i - 1) / 2)) as [z Hz].
  { apply lookup_lt_Some in Hi. pose proof (Nat.div_mod (i - 1) 2). lia. }
  pose proof (Nat.div_mod (i - 1) 2 ltac:(lia)). pose proof (Nat.mod_upper_bound (i - 1) 2 ltac:(lia)).
  apply (le_trans _ z).
  - apply (Hh ((i - 1) / 2) i); [lia|unfold is_child; lia|done..].
  - apply (IH ((i - 1) / 2)); [lia|done].
Qed.

End correctness.
End heap.
Arguments heap_from {T} le k l.

(** [Ord] is a total order. *)
Class TotalOrder {T} (le : T → T → bool) : Prop := {
  to_refl : ∀ x, le x x = true;
  to_total : ∀ x y, le x y = true ∨ le y x = true;
  to_trans : ∀ x y z, le x y = true → le y z = true → le x z = true;
}.

#[export] Instance Z_TotalOrder : TotalOrder Z.leb.
Proof. split; intros; rewrite ?Z.leb_le in *; lia. Qed.

(** Building the heap: an empty slice is refused; otherwise [SliceHeap::new] returns (no
    access is out of bounds) a permutation of the slice in heap order, whose first element,
    the one that [peek] shows, is a maximum. *)
Theorem heap_new_correct {T} (le : T → T → bool) (l : list T) :
  TotalOrder le →
  (l = [] → heap_new le l = Some (Err mkEmptySlice)) ∧
  (l ≠ [] → ∃ h x, heap_new le l = Some (Ok h) ∧ h ≡ₚ l ∧ heap_from le 0 h ∧
     peek h = Some x ∧ ∀ y, y ∈ l → le y x = true).
Proof.
  intros []. split; [by intros ->|]. intros Hl. unfold heap_new, heapify.
  destruct (Nat.eqb_spec (length l) 0) as [E|]; [by apply length_zero_iff_nil in E|].
  assert (∃ h, heapify le l = Some h ∧ heap_from le 0 h ∧ h ≡ₚ l) as (h & Eh & Hh & Hp).
  { unfold heapify. destruct (Nat.leb_spec (length l) 1).
    - exists l. split_and!; try done. intros p c x y _ Hc _ Hy. apply lookup_lt_Some in Hy.
      unfold is_child in Hc. lia.
    - apply heapify_loop_ok; try done.
      + intros p c x y Hk Hc Hx Hy. apply lookup_lt_Some in Hy. unfold is_child in Hc.
        pose proof (Nat.div_mod (length l - 2) 2). pose proof (Nat.mod_upper_bound (length l - 2) 2). lia.
      + pose proof (Nat.div_mod (length l - 2) 2). lia. }
  unfold heapify in Eh. rewrite Eh. cbn [mbind option_bind].
  destruct h as [|x h]; [by apply Permutation_nil_l in Hp|].
  exists (x :: h), x. split_and!; try done. intros y Hy. rewrite <-Hp in Hy.
  by eapply (heap_root le to_refl0 to_trans0 (x :: h)).
Qed.

(** Updating the root: on a heap, [update_root] returns a heap whose elements are those of
    the slice with the former maximum replaced by its image. *)
Theorem update_root_correct {T} (le : T → T → bool) (x : T) (h : list T) f :
  TotalOrder le → heap_from le 0 (x :: h) →
  ∃ h', update_root le (x :: h) f = Some h' ∧ h' ≡ₚ f x :: h ∧ heap_from le 0 h' ∧
    ∃ y, peek h' = Some y ∧ ∀ z, z ∈ h' → le z y = true.
Proof.
  intros [] Hh. unfold update_root. simpl.
  destruct (sift_down_ok le to_refl0 to_total0 to_trans0 (f x :: h) 0) as (h' & -> & Hh' & Hp).
  { intros p c u v Hp Hc Hu Hv. unfold is_child in Hc. destruct p as [|p]; [lia|].
    destruct c as [|c]; [lia|]. apply (Hh (S p) (S c) u v); [lia|done..]. }
  { simpl. lia. }
  exists h'. split_and!; try done. destruct h' as [|y h']; [by apply Permutation_nil_l in Hp|].
  exists y. split; [done|]. by apply (heap_root le to_refl0 to_trans0).
Qed.

Lemma heap_new_correct_witness :
  ∃ h x, heap_new Z.leb [3; 9; 2; 7; 9]%Z = Some (Ok h) ∧ peek h = Some x ∧
    ∀ y, y ∈ [3; 9; 2; 7; 9]%Z → (y <=? x)%Z = true.
Proof.
  destruct (heap_new_correct Z.leb [3; 9; 2; 7; 9]%Z) as [_ H]; [apply _|].
  destruct H as (h & x & ? & _ & _ & ? & ?); [done|]. eauto.
Defined.

Lemma update_root_correct_witness :
  ∃ h', update_root Z.leb [9; 7; 3; 1]%Z (λ x, x - 5)%Z = Some h' ∧ h' ≡ₚ [4; 7; 3; 1]%Z.
Proof.
  destruct (update_root_correct Z.leb 9%Z [7; 3; 1]%Z (λ x, x - 5)%Z) as (h' & E & Hp & _);
    [apply _| |by exists h'].
  intros p c x y _ Hc Hx Hy. unfold is_child in Hc.
  destruct p as [|[|[|[|p]]]]; simplify_eq/=; destruct Hc as [->| ->]; simplify_eq/=; done.
Defined.
