(* ===== verification/Bytes.v ===== *)
(** * Bytes, words and their bits

    What several components share about memory: a byte string as a list of integers below 256,
    the little-endian number it stands for, words read from it and written to it, and bits and
    bit fields of such numbers.

    - [le]: the number of a byte string; [to_le]: the bytes of a number ([to_le_bytes]);
    - [read_le] and [write_le]: an unaligned load and store of a word; out of bounds is [None];
    - [field]: the bits of a number from a position on. *)

From S2P Require Import Prelude.
Local Open Scope Z_scope.

Definition byte_ok (b : Z) : Prop := 0 ≤ b < 256.
Definition bytes_ok (l : list Z) : Prop := Forall byte_ok l.

Fixpoint le (l : list Z) : Z :=
  match l with [] => 0 | b :: l => b + 256 * le l end.

(** [to_le_bytes] of an unsigned integer of [n] bytes. *)
Fixpoint to_le (n : nat) (z : Z) : list Z :=
  match n with O => [] | S n => z mod 256 :: to_le n (z / 256) end.

(** [n] bits of [z] from bit [pos] on. *)
Definition field (n pos z : Z) : Z := (z / 2 ^ pos) mod 2 ^ n.

(** An unaligned load of [n] bytes. *)
Definition read_le (data : list Z) (off n : nat) : option Z :=
  if (off + n <=? length data)%nat then Some (le (take n (drop off data))) else None.

(** An unaligned store of [n] bytes. *)
Definition write_le (data : list Z) (off n : nat) (w : Z) : option (list Z) :=
  if (off + n <=? length data)%nat
  then Some (take off data ++ to_le n w ++ drop (off + n) data) else None.

(** Linear arithmetic with division by constants. *)
Ltac dlia := Z.to_euclidean_division_equations; lia.

(** ** The number of a byte string *)

Lemma pow8 (n : nat) : 2 ^ (8 * Z.of_nat (S n)) = 256 * 2 ^ (8 * Z.of_nat n).
Proof. rewrite Nat2Z.inj_succ, Z.mul_succ_r, Z.pow_add_r by lia. lia. Qed.

Lemma le_bound l : bytes_ok l → 0 ≤ le l < 2 ^ (8 * Z.of_nat (length l)).
Proof.
  induction 1 as [|b l Hb Hl IH]; [done|]. cbn [le length]. rewrite pow8. unfold byte_ok in Hb. lia.
Qed.

Lemma le_app l k : le (l ++ k) = le l + 2 ^ (8 * Z.of_nat (length l)) * le k.
Proof.
  induction l as [|b l IH]; cbn [app le length]; [change (2 ^ (8 * Z.of_nat 0)) with 1; lia|].
  rewrite IH, pow8. lia.
Qed.

Lemma length_to_le n : ∀ z, length (to_le n z) = n.
Proof. induction n; intros z; cbn [to_le length]; [done|]. by rewrite IHn. Qed.

Lemma to_le_ok n : ∀ z, bytes_ok (to_le n z).
Proof.
  induction n; intros z; cbn [to_le]; constructor; [|apply IHn].
  unfold byte_ok. apply Z.mod_pos_bound. lia.
Qed.

Lemma le_to_le n : ∀ z, le (to_le n z) = z mod 2 ^ (8 * Z.of_nat n).
Proof.
  induction n as [|n IH]; intros z; cbn [to_le le]; [by rewrite Z.mod_1_r|].
  rewrite IH, pow8. pose proof (Z.pow_pos_nonneg 2 (8 * Z.of_nat n)).
  rewrite Z.rem_mul_r by lia. lia.
Qed.

Lemma to_le_le l : bytes_ok l → to_le (length l) (le l) = l.
Proof.
  induction 1 as [|b l Hb Hl IH]; [done|]. cbn [length le to_le]. unfold byte_ok in Hb.
  replace (b + 256 * le l) with (le l * 256 + b) by lia.
  rewrite Z.add_comm, Z.mod_add, Z.div_add, Z.mod_small, Z.div_small by lia. f_equal. exact IH.
Qed.

(** ** Fields *)

Lemma field_bound n pos z : 0 ≤ n → 0 ≤ field n pos z < 2 ^ n.
Proof. intros. apply Z.mod_pos_bound, Z.pow_pos_nonneg; lia. Qed.

Lemma testbit_field n pos z k :
  0 ≤ n → 0 ≤ pos → 0 ≤ k → Z.testbit (field n pos z) k = (k <? n) && Z.testbit z (pos + k).
Proof.
  intros. unfold field. rewrite <-Z.land_ones, <-Z.shiftr_div_pow2 by lia.
  rewrite Z.land_spec, Z.shiftr_spec, Z.testbit_ones_nonneg by lia.
  rewrite andb_comm. by rewrite (Z.add_comm k).
Qed.

(** Equality of numbers by their bits. *)
Lemma field_ext n pos z z' :
  0 ≤ n → 0 ≤ pos → (∀ k, pos ≤ k < pos + n → Z.testbit z k = Z.testbit z' k) →
  field n pos z = field n pos z'.
Proof.
  intros Hn Hp Hk. apply Z.bits_inj'. intros k Hk0. rewrite !testbit_field by lia.
  destruct (Z.ltb_spec k n); [|done]. cbn. apply Hk. lia.
Qed.

Lemma field_all n z : 0 ≤ z < 2 ^ n → field n 0 z = z.
Proof. intros. unfold field. change (2 ^ 0) with 1. rewrite Z.div_1_r. by apply Z.mod_small. Qed.

(** The bits of two numbers put together. *)
Lemma testbit_concat x y c k :
  0 ≤ c → 0 ≤ x < 2 ^ c → 0 ≤ k →
  Z.testbit (x + 2 ^ c * y) k = if k <? c then Z.testbit x k else Z.testbit y (k - c).
Proof.
  intros Hc Hx Hk. pose proof (Z.pow_pos_nonneg 2 c). destruct (Z.ltb_spec k c).
  - rewrite <-(Z.mod_pow2_bits_low (x + 2 ^ c * y) c) by lia.
    by rewrite Z.mul_comm, Z.mod_add, Z.mod_small by lia.
  - replace k with ((k - c) + c) at 1 by lia. rewrite <-Z.div_pow2_bits by lia.
    by rewrite Z.mul_comm, Z.div_add, Z.div_small, Z.add_0_l by lia.
Qed.

(** A field of a field. *)
Lemma field_field n pos m pos' z :
  0 ≤ n → 0 ≤ pos → 0 ≤ pos' → pos + n ≤ m →
  field n pos (field m pos' z) = field n (pos' + pos) z.
Proof.
  intros. apply Z.bits_inj'. intros k Hk. rewrite !testbit_field by lia.
  destruct (Z.ltb_spec k n); [|done]. cbn.
  rewrite (proj2 (Z.ltb_lt _ _)) by lia. cbn. f_equal. lia.
Qed.

Lemma field_split n m pos z :
  0 ≤ n → 0 ≤ m → 0 ≤ pos →
  field (n + m) pos z = field n pos z + 2 ^ n * field m (pos + n) z.
Proof.
  intros. unfold field. rewrite !Z.pow_add_r by lia. rewrite <-Z.div_div by lia.
  apply Z.rem_mul_r; pose proof (Z.pow_pos_nonneg 2 n); pose proof (Z.pow_pos_nonneg 2 m); lia.
Qed.

Lemma land_ones_field n pos z :
  0 ≤ n → 0 ≤ pos → Z.land (Z.shiftr z pos) (Z.ones n) = field n pos z.
Proof. intros. rewrite Z.land_ones, Z.shiftr_div_pow2 by lia. done. Qed.

Lemma mask_field n m pos z :
  0 ≤ n ≤ m → 0 ≤ pos → Z.land (field m pos z) (Z.ones n) = field n pos z.
Proof.
  intros Hn Hp. rewrite <-(Z.shiftr_0_r (field m pos z)), land_ones_field by lia.
  rewrite field_field by lia. f_equal. lia.
Qed.

(** ** Loads and stores *)

Lemma bytes_ok_take n l : bytes_ok l → bytes_ok (take n l).
Proof. apply Forall_take. Qed.
Lemma bytes_ok_drop n l : bytes_ok l → bytes_ok (drop n l).
Proof. apply Forall_drop. Qed.

Lemma le_drop off l :
  bytes_ok l → (off ≤ length l)%nat → le (drop off l) = le l / 2 ^ (8 * Z.of_nat off).
Proof.
  intros Hl Ho. rewrite <-(take_drop off l) at 2. rewrite le_app, length_take, Nat.min_l by done.
  pose proof (le_bound _ (bytes_ok_take off l Hl)) as Hb. rewrite length_take, Nat.min_l in Hb by done.
  rewrite Z.mul_comm, Z.div_add, Z.div_small by lia. done.
Qed.

Lemma le_take n l :
  bytes_ok l → (n ≤ length l)%nat → le (take n l) = le l mod 2 ^ (8 * Z.of_nat n).
Proof.
  intros Hl Hn. rewrite <-(take_drop n l) at 2. rewrite le_app, length_take, Nat.min_l by done.
  pose proof (le_bound _ (bytes_ok_take n l Hl)) as Hb. rewrite length_take, Nat.min_l in Hb by done.
  rewrite Z.mul_comm, Z.mod_add, Z.mod_small by lia. done.
Qed.

Lemma read_le_field data off n :
  bytes_ok data → (off + n ≤ length data)%nat →
  read_le data off n = Some (field (8 * Z.of_nat n) (8 * Z.of_nat off) (le data)).
Proof.
  intros Hd Hl. unfold read_le. rewrite (proj2 (Nat.leb_le _ _)) by done. f_equal.
  rewrite le_take, le_drop; [done|done|lia|by apply bytes_ok_drop|rewrite length_drop; lia].
Qed.

Lemma write_le_ok data off n w :
  bytes_ok data → (off + n ≤ length data)%nat →
  ∃ data', write_le data off n w = Some data' ∧ bytes_ok data' ∧ length data' = length data ∧
    ∀ k, 0 ≤ k → Z.testbit (le data') k =
      if (8 * Z.of_nat off <=? k) && (k <? 8 * Z.of_nat (off + n))
      then Z.testbit w (k - 8 * Z.of_nat off) else Z.testbit (le data) k.
Proof.
  intros Hd Hl. unfold write_le. rewrite (proj2 (Nat.leb_le _ _)) by done. eexists.
  split; [done|]. split_and!.
  { apply Forall_app_2; [by apply bytes_ok_take|].
    apply Forall_app_2; [apply to_le_ok|by apply bytes_ok_drop]. }
  { rewrite !length_app, length_take, length_to_le, length_drop. lia. }
  intros k Hk. rewrite !le_app, length_to_le, length_take, Nat.min_l, le_to_le by lia.
  rewrite le_take, le_drop by (done || lia).
  set (a := 8 * Z.of_nat off). set (b := 8 * Z.of_nat n).
  replace (8 * Z.of_nat (off + n)) with (a + b) by lia.
  pose proof (Z.pow_pos_nonneg 2 a). pose proof (Z.pow_pos_nonneg 2 b).
  rewrite testbit_concat by (try apply Z.mod_pos_bound; lia).
  destruct (Z.ltb_spec k a).
  { rewrite (proj2 (Z.leb_gt _ _)) by lia. cbn. by rewrite Z.mod_pow2_bits_low by lia. }
  rewrite (proj2 (Z.leb_le _ _)) by lia. cbn [andb].
  rewrite testbit_concat by (try apply Z.mod_pos_bound; lia).
  destruct (Z.ltb_spec (k - a) b).
  - rewrite (proj2 (Z.ltb_lt _ _)) by lia. by rewrite Z.mod_pow2_bits_low by lia.
  - rewrite (proj2 (Z.ltb_ge _ _)) by lia. rewrite Z.div_pow2_bits by lia. f_equal. lia.
Qed.

(** ** Bounds from bits *)

Lemma bounded_by_bits n z :
  0 ≤ n → (∀ k, n ≤ k → Z.testbit z k = false) → 0 ≤ z < 2 ^ n.
Proof.
  intros Hn Hz. replace z with (z mod 2 ^ n); [apply Z.mod_pos_bound, Z.pow_pos_nonneg; lia|].
  apply Z.bits_inj'. intros k Hk. destruct (Z.lt_ge_cases k n).
  - by rewrite Z.mod_pow2_bits_low.
  - by rewrite Z.mod_pow2_bits_high, Hz by lia.
Qed.

Lemma testbit_above n z k : 0 ≤ z < 2 ^ n → 0 ≤ n ≤ k → Z.testbit z k = false.
Proof. intros Hz Hk. rewrite <-(Z.mod_small z (2 ^ n)) by done. by apply Z.mod_pow2_bits_high. Qed.

Lemma land_bound w x mask : 0 ≤ w → 0 ≤ mask < 2 ^ w → 0 ≤ Z.land x mask < 2 ^ w.
Proof.
  intros Hw Hm. apply bounded_by_bits; [done|]. intros k Hk.
  rewrite Z.land_spec, (testbit_above w mask) by lia. apply andb_false_r.
Qed.

Lemma lor_bound w x y : 0 ≤ w → 0 ≤ x < 2 ^ w → 0 ≤ y < 2 ^ w → 0 ≤ Z.lor x y < 2 ^ w.
Proof.
  intros Hw Hx Hy. apply bounded_by_bits; [done|]. intros k Hk.
  by rewrite Z.lor_spec, !(testbit_above w) by lia.
Qed.
