(* ===== verification/BitSlice.v ===== *)
(** * Packed slices of small integers

    Models [diskann-quantization/src/bits/packing.rs] and [bits/slice.rs]: values of 1 to 8
    bits in a byte string, behind a checked interface with two representations of a value
    ([Unsigned], [Binary]) and two layouts ([Dense], [BitTranspose]).

    - [debug] stands for a debug build, in which [debug_assert!] and arithmetic overflow panic;
      in a release build overflow wraps around;
    - records [Representation] and [PermutationStrategy]: the traits, with the laws that every
      implementation is proved to have as classes;
    - a read through a raw pointer is a read of the byte string, [None] when out of bounds. *)

From stdpp Require Import strings.
From S2P Require Import Prelude Bytes.
Local Open Scope Z_scope.

Definition debug_assert (debug b : bool) : option unit := rassert (negb debug || b).

(** Arithmetic on [usize]. *)
Definition umul (debug : bool) (x y : Z) : option Z :=
  if x * y <? 2 ^ 64 then Some (x * y)
  else if debug then None else Some ((x * y) mod 2 ^ 64).
Definition uadd (debug : bool) (x y : Z) : option Z :=
  if x + y <? 2 ^ 64 then Some (x + y)
  else if debug then None else Some ((x + y) mod 2 ^ 64).

(** ** Packing *)

Section packing.
Variables (debug : bool) (N : nat).
Let n := Z.of_nat N.

Definition mask : Z := Z.shiftr 0xff (8 - n).

Definition unpack_u8 (byte bitstart : Z) : option Z :=
  _ ← debug_assert debug (bitstart <=? 8 - n);
  Some (Z.land (Z.shiftr byte bitstart) mask).

Definition unpack_u16 (word bitstart : Z) : option Z :=
  _ ← debug_assert debug (bitstart <? 8);
  _ ← debug_assert debug (8 - n <? bitstart);
  Some (Z.land (Z.shiftr word bitstart mod 2 ^ 8) mask).

Definition pack_u8 (before value bitstart : Z) : option Z :=
  _ ← debug_assert debug (value <=? mask);
  _ ← debug_assert debug (bitstart <=? 8 - n);
  let shifted_mask := Z.shiftl mask bitstart mod 2 ^ 8 in
  Some (Z.lor (Z.land before (Z.lxor shifted_mask 0xff))
          (Z.land (Z.shiftl value bitstart mod 2 ^ 8) shifted_mask)).

Definition pack_u16 (before value bitstart : Z) : option Z :=
  _ ← debug_assert debug (value <=? mask);
  _ ← debug_assert debug (bitstart <? 8);
  _ ← debug_assert debug (8 - n <? bitstart);
  let shifted_mask := Z.shiftl mask bitstart mod 2 ^ 16 in
  Some (Z.lor (Z.land before (Z.lxor shifted_mask 0xffff))
          (Z.land (Z.shiftl value bitstart mod 2 ^ 16) shifted_mask)).

End packing.

(** ** Representations of a value *)

(** [EncodingError] *)
Record EncodingError := mkEncodingError { ee_got : Z; ee_domain : string }.

(** [trait Representation]; the first argument of the operations is [debug]. *)
Record Representation := mkRepresentation {
  repr_check : Z → bool;
  repr_encode_unchecked : bool → Z → option Z;
  repr_decode : bool → Z → option Z;
  repr_domain : list Z;
  repr_domain_str : string;
}.

(** [Representation::encode], the same in all implementations. *)
Definition encode (r : Representation) (debug : bool) (value : Z) :
    option (result EncodingError Z) :=
  if negb (repr_check r value) then Some (Err (mkEncodingError value (repr_domain_str r)))
  else v ← repr_encode_unchecked r debug value; Some (Ok v).

(** [Unsigned::domain_str]; other widths do not compile. *)
Definition domain_str (nbits : nat) : string :=
  match nbits with
  | 8%nat => "[0, 255]" | 7%nat => "[0, 127]" | 6%nat => "[0, 63]" | 5%nat => "[0, 31]"
  | 4%nat => "[0, 15]" | 3%nat => "[0, 7]" | 2%nat => "[0, 3]" | 1%nat => "[0, 1]"
  | _ => "unimplemented"
  end.

(** [impl Representation for Unsigned] *)
Definition Unsigned (N : nat) : Representation :=
  let check value := (0 <=? value) && (value <=? 2 ^ Z.of_nat N - 1) in
  {| repr_check := check;
     repr_encode_unchecked debug value := _ ← debug_assert debug (check value); Some (value mod 2 ^ 8);
     repr_decode debug raw := _ ← debug_assert debug (check raw); Some raw;
     repr_domain := seqZ 0 (2 ^ Z.of_nat N);
     repr_domain_str := domain_str N |}.

(** [impl Representation<1> for Binary] *)
Definition Binary : Representation :=
  let check value := (value =? -1) || (value =? 1) in
  {| repr_check := check;
     repr_encode_unchecked debug value :=
       _ ← debug_assert debug (check value); Some (Z.max 0 (Z.min value 1) mod 2 ^ 8);
     repr_decode _ raw := Some (Z.shiftl raw 1 - 1);
     repr_domain := [-1; 1];
     repr_domain_str := "{-1, 1}" |}.

(** ** Layouts *)

(** [trait PermutationStrategy] *)
Record PermutationStrategy := mkPermutation {
  perm_bytes : bool → Z → option Z;
  perm_pack : bool → list Z → Z → Z → option (list Z);
  perm_unpack : bool → list Z → Z → option Z;
}.

(** [utils::div_round_up] *)
Definition div_round_up (x y : Z) : Z := x / y + if x mod y =? 0 then 0 else 1.

(** [impl PermutationStrategy for Dense]; a 16-bit access is little-endian. *)
Definition dense_bytes (N : nat) (debug : bool) (count : Z) : option Z :=
  bits ← umul debug (Z.of_nat N) count; Some (div_round_up bits 8).

Definition dense_pack (N : nat) (debug : bool) (data : list Z) (i encoded : Z) :
    option (list Z) :=
  bitaddress ← umul debug (Z.of_nat N) i;
  stop ← uadd debug bitaddress (Z.of_nat N);
  let bytestart := bitaddress / 8 in
  let bytestop := ((stop - 1) mod 2 ^ 64) / 8 in
  let bitstart := bitaddress - 8 * bytestart in
  _ ← debug_assert debug (bytestop <? Z.of_nat (length data));
  if bytestart =? bytestop then
    raw ← read_le data (Z.to_nat bytestart) 1;
    packed ← pack_u8 debug N raw encoded bitstart;
    write_le data (Z.to_nat bytestart) 1 packed
  else
    raw ← read_le data (Z.to_nat bytestart) 2;
    packed ← pack_u16 debug N raw encoded bitstart;
    write_le data (Z.to_nat bytestart) 2 packed.

Definition dense_unpack (N : nat) (debug : bool) (data : list Z) (i : Z) : option Z :=
  bitaddress ← umul debug (Z.of_nat N) i;
  stop ← uadd debug bitaddress (Z.of_nat N);
  let bytestart := bitaddress / 8 in
  let bytestop := ((stop - 1) mod 2 ^ 64) / 8 in
  _ ← debug_assert debug (bytestop <? Z.of_nat (length data));
  if bytestart =? bytestop then
    raw ← read_le data (Z.to_nat bytestart) 1;
    unpack_u8 debug N raw (bitaddress - 8 * bytestart)
  else
    raw ← read_le data (Z.to_nat bytestart) 2;
    unpack_u16 debug N raw (bitaddress - 8 * bytestart).

Definition Dense (N : nat) : PermutationStrategy :=
  mkPermutation (dense_bytes N) (dense_pack N) (dense_unpack N).

(** [impl PermutationStrategy<4> for BitTranspose] *)
Definition transpose_bytes (debug : bool) (count : Z) : option Z :=
  umul debug 32 (div_round_up count 64).

(** The address of the first byte and the bit of value [i]. *)
Definition transpose_start (debug : bool) (i : Z) : option Z :=
  block_start ← umul debug 32 (i / 64); uadd debug block_start ((i mod 64) / 8).

(** The loop over the four planes; [planes] are those left. *)
Fixpoint transpose_pack_loop (planes : list Z) (data : list Z) (byte_start bit encoded : Z) :
    option (list Z) :=
  match planes with
  | [] => Some data
  | p :: planes =>
      let k := Z.to_nat (byte_start + 8 * p) in
      v ← data !! k;
      let mask := Z.shiftl 1 bit mod 2 ^ 8 in
      let v := Z.lor (Z.land v (Z.lxor mask 0xff))
                 (Z.shiftl (Z.land (Z.shiftr encoded p) 1) bit mod 2 ^ 8) in
      data ← vec_set k v data;
      transpose_pack_loop planes data byte_start bit encoded
  end.

Fixpoint transpose_unpack_loop (planes : list Z) (data : list Z) (byte_start bit output : Z) :
    option Z :=
  match planes with
  | [] => Some output
  | p :: planes =>
      v ← data !! Z.to_nat (byte_start + 8 * p);
      transpose_unpack_loop planes data byte_start bit
        (Z.lor output (Z.shiftl (Z.land (Z.shiftr v bit) 1) p))
  end.

Definition transpose_pack (debug : bool) (data : list Z) (i encoded : Z) : option (list Z) :=
  byte_start ← transpose_start debug i;
  transpose_pack_loop [0; 1; 2; 3] data byte_start (i mod 8) encoded.

Definition transpose_unpack (debug : bool) (data : list Z) (i : Z) : option Z :=
  byte_start ← transpose_start debug i;
  transpose_unpack_loop [0; 1; 2; 3] data byte_start (i mod 8) 0.

Definition BitTranspose : PermutationStrategy :=
  mkPermutation transpose_bytes transpose_pack transpose_unpack.

(** ** Slices *)

Record ConstructionError := mkConstructionError { ce_got : Z; ce_expected : Z }.
Record IndexOutOfBounds := mkIndexOutOfBounds { ob_index : Z; ob_len : Z }.
Inductive SetError := SetIndexError (e : IndexOutOfBounds) | SetEncodingError (e : EncodingError).
Inductive GetError := GetIndexError (e : IndexOutOfBounds).

(** [BitSliceBase]: the memory behind the pointer and the number of values. *)
Record BitSlice := mkBitSlice { bs_data : list Z; bs_len : Z }.

Section slice.
Variables (debug : bool) (repr : Representation) (perm : PermutationStrategy).

Definition bytes_for (count : Z) : option Z := perm_bytes perm debug count.

(** [BitSliceBase::new_unchecked] *)
Definition slice_new_unchecked (data : list Z) (count : Z) : option BitSlice :=
  bytes ← bytes_for count;
  _ ← debug_assert debug (Z.of_nat (length data) =? bytes);
  Some (mkBitSlice data count).

(** [BitSliceBase::new] *)
Definition slice_new (data : list Z) (count : Z) : option (result ConstructionError BitSlice) :=
  bytes ← bytes_for count;
  if negb (Z.of_nat (length data) =? bytes)
  then Some (Err (mkConstructionError (Z.of_nat (length data)) bytes))
  else s ← slice_new_unchecked data count; Some (Ok s).

(** [BitSliceBase::get_unchecked]; the second debug assertion compares two equal terms. *)
Definition get_unchecked (s : BitSlice) (i : Z) : option Z :=
  _ ← debug_assert debug (i <? bs_len s);
  raw ← perm_unpack perm debug (bs_data s) i;
  repr_decode repr debug raw.

(** [BitSliceBase::get] *)
Definition slice_get (s : BitSlice) (i : Z) : option (result GetError Z) :=
  if bs_len s <=? i then Some (Err (GetIndexError (mkIndexOutOfBounds i (bs_len s))))
  else v ← get_unchecked s i; Some (Ok v).

(** [BitSliceBase::set_unchecked] *)
Definition set_unchecked (s : BitSlice) (i encoded : Z) : option BitSlice :=
  _ ← debug_assert debug (i <? bs_len s);
  data ← perm_pack perm debug (bs_data s) i encoded;
  Some (mkBitSlice data (bs_len s)).

(** [BitSliceBase::set] *)
Definition slice_set (s : BitSlice) (i value : Z) : option (BitSlice * result SetError unit) :=
  if bs_len s <=? i then Some (s, Err (SetIndexError (mkIndexOutOfBounds i (bs_len s)))) else
  r ← encode repr debug value;
  match r with
  | Err e => Some (s, Err (SetEncodingError e))
  | Ok encoded => s ← set_unchecked s i encoded; Some (s, Ok tt)
  end.

(** [BitSliceBase::new_boxed] *)
Definition new_boxed (count : Z) : option BitSlice :=
  bytes ← bytes_for count;
  slice_new_unchecked (replicate (Z.to_nat bytes) 0) count.

End slice.

(** ** The contracts of the traits *)

(** Encoding and decoding are inverse on the domain, the codes have [N] bits. *)
Class RepresentationLaws (N : nat) (r : Representation) := {
  check_domain : ∀ v, repr_check r v = true ↔ v ∈ repr_domain r;
  encode_law : ∀ debug v, repr_check r v = true →
    ∃ c, repr_encode_unchecked r debug v = Some c ∧ 0 ≤ c < 2 ^ Z.of_nat N ∧
      repr_decode r debug c = Some v;
  decode_law : ∀ debug c, 0 ≤ c < 2 ^ Z.of_nat N →
    ∃ v, repr_decode r debug c = Some v ∧ repr_check r v = true;
}.

(** The byte string of a slice of [count] values. *)
Definition holds (N : nat) (p : PermutationStrategy) (data : list Z) (count : Z) : Prop :=
  bytes_ok data ∧ 0 ≤ count ∧ Z.of_nat N * count < 2 ^ 64 ∧
  ∀ debug, perm_bytes p debug count = Some (Z.of_nat (length data)).

(** What the checked interface needs of a layout, proved below for both of them: on a byte
    string of the right length, an index below the count is in bounds (which the trait
    documents), [unpack] reads back what [pack] wrote, and [pack] disturbs no other value. *)
Class PermutationLaws (N : nat) (p : PermutationStrategy) := {
  bytes_law : ∀ debug count, 0 ≤ count → Z.of_nat N * count < 2 ^ 64 →
    ∃ b, perm_bytes p debug count = Some b ∧ 0 ≤ b ∧ ∀ debug', perm_bytes p debug' count = Some b;
  unpack_law : ∀ debug data count i, holds N p data count → 0 ≤ i < count →
    ∃ v, perm_unpack p debug data i = Some v ∧ 0 ≤ v < 2 ^ Z.of_nat N;
  pack_law : ∀ debug data count i v, holds N p data count → 0 ≤ i < count →
    0 ≤ v < 2 ^ Z.of_nat N →
    ∃ data', perm_pack p debug data i v = Some data' ∧ holds N p data' count ∧
      perm_unpack p debug data' i = Some v ∧
      ∀ j, 0 ≤ j < count → j ≠ i → perm_unpack p debug data' j = perm_unpack p debug data j;
}.

(** ** Unsigned and binary values *)

#[export] Instance unsigned_laws N : (1 ≤ N ≤ 8)%nat → RepresentationLaws N (Unsigned N).
Proof.
  intros HN. assert (2 ^ Z.of_nat N ≤ 2 ^ 8) by (apply Z.pow_le_mono_r; lia).
  assert (∀ v, repr_check (Unsigned N) v = true ↔ 0 ≤ v < 2 ^ Z.of_nat N) as Hc.
  { intros v. cbn. rewrite andb_true_iff, !Z.leb_le. lia. }
  split.
  - intros v. rewrite Hc. cbn. rewrite elem_of_seqZ. lia.
  - intros debug v Hv. exists v. cbn [repr_encode_unchecked repr_decode Unsigned] in *.
    cbn [repr_check Unsigned] in Hv. rewrite Hv. unfold debug_assert. rewrite orb_true_r. cbn.
    apply Hc in Hv. split_and!; [f_equal; apply Z.mod_small; lia|lia|lia|done].
  - intros debug c Hcr. exists c. apply Hc in Hcr. split; [|done]. cbn in *. rewrite Hcr.
    unfold debug_assert. by rewrite orb_true_r.
Qed.

#[export] Instance binary_laws : RepresentationLaws 1 Binary.
Proof.
  assert (∀ v, repr_check Binary v = true ↔ v = -1 ∨ v = 1) as Hc.
  { intros v. cbn. by rewrite orb_true_iff, !Z.eqb_eq. }
  split.
  - intros v. rewrite Hc. cbn. rewrite !elem_of_cons, elem_of_nil. tauto.
  - intros debug v Hv. assert (negb debug || repr_check Binary v = true) as Hd
      by (rewrite Hv; apply orb_true_r). apply Hc in Hv. cbn in Hd |- *. unfold debug_assert.
    rewrite Hd. cbn. destruct Hv as [-> | ->]; eexists;
      (split; [done|]); change (2 ^ Z.of_nat 1) with 2; (split; [|done]); vm_compute; split; congruence.
  - intros debug c Hcr. change (2 ^ Z.of_nat 1) with 2 in Hcr. assert (c = 0 ∨ c = 1) as [-> | ->] by lia;
      eexists; (split; [done|]); done.
Qed.

(** ** The dense layout *)

(** A value of [W] bits in which a field of [n] bits is replaced. *)
Definition replace_field (W n before value pos : Z) : Z :=
  let shifted_mask := Z.shiftl (Z.ones n) pos mod 2 ^ W in
  Z.lor (Z.land before (Z.lxor shifted_mask (Z.ones W)))
    (Z.land (Z.shiftl value pos mod 2 ^ W) shifted_mask).

Lemma testbit_shiftl_mod W x pos k :
  0 ≤ k < W → 0 ≤ pos → Z.testbit (Z.shiftl x pos mod 2 ^ W) k = Z.testbit x (k - pos).
Proof. intros. by rewrite Z.mod_pow2_bits_low, Z.shiftl_spec by lia. Qed.

Lemma testbit_replace W n before value pos k :
  0 ≤ n → 0 ≤ pos → pos + n ≤ W → 0 ≤ k < W →
  Z.testbit (replace_field W n before value pos) k =
    if (pos <=? k) && (k <? pos + n) then Z.testbit value (k - pos) else Z.testbit before k.
Proof.
  intros. unfold replace_field. rewrite Z.lor_spec, !Z.land_spec, Z.lxor_spec.
  rewrite !testbit_shiftl_mod by lia. rewrite (Z.testbit_ones_nonneg W) by lia.
  rewrite (proj2 (Z.ltb_lt k W)) by lia.
  destruct (Z.leb_spec pos k).
  - rewrite Z.testbit_ones_nonneg by lia. destruct (Z.ltb_spec (k - pos) n).
    + rewrite (proj2 (Z.ltb_lt _ _)) by lia. cbn. by rewrite andb_false_r, andb_true_r.
    + rewrite (proj2 (Z.ltb_ge _ _)) by lia. cbn. by rewrite andb_true_r, andb_false_r, orb_false_r.
  - rewrite (Z.testbit_neg_r (Z.ones n)) by lia. cbn. by rewrite andb_true_r, andb_false_r, orb_false_r.
Qed.

Section dense.
Variable N : nat.
Hypothesis HN : (1 ≤ N ≤ 8)%nat.
Let n := Z.of_nat N.

Lemma mask_ones : mask N = Z.ones n.
Proof using HN.
  unfold mask. change 255 with (Z.ones 8). fold n.
  apply Z.bits_inj'. intros k Hk. rewrite Z.shiftr_spec, !Z.testbit_ones_nonneg by lia.
  destruct (Z.ltb_spec (k + (8 - n)) 8), (Z.ltb_spec k n); (done || lia).
Qed.

(** The address computations. *)
Record address (len i a : Z) (two : bool) : Prop := {
  ad_low : 8 * a ≤ n * i;
  ad_bit : n * i - 8 * a < 8;
  ad_one : two = false → n * i - 8 * a + n ≤ 8 ∧ a + 1 ≤ len;
  ad_two : two = true → 8 - n < n * i - 8 * a ∧ a + 2 ≤ len;
}.

Lemma dense_address debug (data : list Z) count i {A} (f g : Z → Z → option A) :
  holds N (Dense N) data count → 0 ≤ i < count →
  ∃ a two, address (Z.of_nat (length data)) i a two ∧ 0 ≤ a ∧
    (bitaddress ← umul debug n i;
     stop ← uadd debug bitaddress n;
     let bytestart := bitaddress / 8 in
     let bytestop := ((stop - 1) mod 2 ^ 64) / 8 in
     _ ← debug_assert debug (bytestop <? Z.of_nat (length data));
     if bytestart =? bytestop then f bytestart (bitaddress - 8 * bytestart)
     else g bytestart (bitaddress - 8 * bytestart)) =
    (if two : bool then g else f) a (n * i - 8 * a).
Proof using HN.
  intros (Hb & Hc & Hov & Hlen) Hi. specialize (Hlen false). cbn in Hlen. fold n in Hov, Hlen.
  unfold dense_bytes, umul in Hlen. fold n in Hlen. rewrite (proj2 (Z.ltb_lt _ _)) in Hlen by lia.
  cbn in Hlen. unfold div_round_up in Hlen. simplify_eq.
  assert (0 < n ≤ 8) as Hn by lia.
  assert (n * i + n ≤ n * count) as Hle by nia.
  unfold umul, uadd. rewrite (proj2 (Z.ltb_lt (n * i) _)) by lia. cbn [mbind option_bind].
  rewrite (proj2 (Z.ltb_lt (n * i + n) _)) by lia. cbn [mbind option_bind].
  rewrite (Z.mod_small (n * i + n - 1)) by lia.
  set (b := n * count) in *. set (x := n * i) in *.
  assert ((x + n - 1) / 8 < Z.of_nat (length data)) as Hin.
  { rewrite <-Hlen. destruct (Z.eqb_spec (b mod 8) 0); dlia. }
  unfold debug_assert. rewrite (proj2 (Z.ltb_lt _ _)) by lia. rewrite orb_true_r.
  cbn [rassert mbind option_bind].
  exists (x / 8). destruct (Z.eqb_spec (x / 8) ((x + n - 1) / 8)) as [He|Hne];
    [exists false|exists true]; (split; [|split; [dlia|done]]); split; intros; simplify_eq; fold x; dlia.
Qed.

Lemma dense_unpack_field debug data count i :
  holds N (Dense N) data count → 0 ≤ i < count →
  dense_unpack N debug data i = Some (field n (n * i) (le data)).
Proof using HN.
  intros Hd Hi. unfold dense_unpack.
  destruct (dense_address debug data count i
    (λ a b, raw ← read_le data (Z.to_nat a) 1; unpack_u8 debug N raw b)
    (λ a b, raw ← read_le data (Z.to_nat a) 2; unpack_u16 debug N raw b) Hd Hi)
    as (a & two & [A1 A2 A3 A4] & Ha & Heq). etrans; [exact Heq|]. clear Heq.
  destruct Hd as [Hb _].
  destruct two; [destruct (A4 eq_refl) as [B1 B2]|destruct (A3 eq_refl) as [B1 B2]].
  - rewrite read_le_field by (done || lia). cbn [mbind option_bind]. unfold unpack_u16. fold n.
    unfold debug_assert. rewrite !(proj2 (Z.ltb_lt _ _)) by lia. rewrite !orb_true_r.
    cbn [rassert mbind option_bind]. f_equal. rewrite mask_ones. fold n.
    rewrite Z.land_ones, Z.shiftr_div_pow2 by lia.
    rewrite Z.mod_mod_divide.
    + fold (field n (n * i - 8 * a) (field (8 * Z.of_nat 2) (8 * Z.of_nat (Z.to_nat a)) (le data))).
      rewrite field_field by lia. f_equal. lia.
    + exists (2 ^ (8 - n)). rewrite <-Z.pow_add_r by lia. f_equal. lia.
  - rewrite read_le_field by (done || lia). cbn [mbind option_bind]. unfold unpack_u8. fold n.
    unfold debug_assert. rewrite (proj2 (Z.leb_le _ _)) by lia. rewrite !orb_true_r.
    cbn [rassert mbind option_bind]. f_equal. rewrite mask_ones. fold n.
    rewrite land_ones_field by lia. rewrite field_field by lia. f_equal. lia.
Qed.

Lemma dense_pack_bits debug data count i v :
  holds N (Dense N) data count → 0 ≤ i < count → 0 ≤ v < 2 ^ n →
  ∃ data', dense_pack N debug data i v = Some data' ∧ holds N (Dense N) data' count ∧
    ∀ k, 0 ≤ k → Z.testbit (le data') k =
      if (n * i <=? k) && (k <? n * i + n) then Z.testbit v (k - n * i)
      else Z.testbit (le data) k.
Proof using HN.
  intros Hd Hi Hv. unfold dense_pack.
  destruct (dense_address debug data count i
    (λ a b, raw ← read_le data (Z.to_nat a) 1; packed ← pack_u8 debug N raw v b;
       write_le data (Z.to_nat a) 1 packed)
    (λ a b, raw ← read_le data (Z.to_nat a) 2; packed ← pack_u16 debug N raw v b;
       write_le data (Z.to_nat a) 2 packed) Hd Hi)
    as (a & two & [A1 A2 A3 A4] & Ha & Heq). destruct Hd as (Hb & Hc & Hov & Hlen).
  set (w := if two then 2%nat else 1%nat).
  assert (n * i - 8 * a + n ≤ 8 * Z.of_nat w ∧ a + Z.of_nat w ≤ Z.of_nat (length data)) as [W1 W2].
  { unfold w. destruct two; [destruct (A4 eq_refl)|destruct (A3 eq_refl)]; lia. }
  set (raw := field (8 * Z.of_nat w) (8 * a) (le data)).
  set (packed := replace_field (8 * Z.of_nat w) n raw v (n * i - 8 * a)).
  destruct (write_le_ok data (Z.to_nat a) w packed Hb ltac:(lia)) as (data' & Hw & Hb' & Hl' & Hbits).
  assert (v <=? Z.ones n = true) as Hvm by (apply Z.leb_le; rewrite Z.ones_equiv; lia).
  exists data'. split_and!.
  - etrans; [exact Heq|]. clear Heq. destruct two; [destruct (A4 eq_refl) as [B1 B2]|destruct (A3 eq_refl) as [B1 B2]];
      rewrite read_le_field by (done || lia); cbn [mbind option_bind];
      rewrite Z2Nat.id by lia; unfold pack_u16, pack_u8; fold n; rewrite mask_ones; fold n;
      unfold debug_assert; rewrite Hvm, ?(proj2 (Z.ltb_lt _ _)), ?(proj2 (Z.leb_le _ _)) by lia;
      rewrite !orb_true_r; cbn [rassert mbind option_bind]; exact Hw.
  - split_and!; [done|done|done|]. intros d. by rewrite Hlen, Hl'.
  - intros k Hk. rewrite Hbits by done. rewrite Z2Nat.id, Nat2Z.inj_add, Z2Nat.id by lia.
    destruct (Z.leb_spec (8 * a) k), (Z.ltb_spec k (8 * (a + Z.of_nat w))); cbn [andb];
      [|destruct (Z.leb_spec (n * i) k), (Z.ltb_spec k (n * i + n)); cbn [andb]; (done || lia)..].
    unfold packed. rewrite testbit_replace by lia. unfold raw. rewrite testbit_field by lia.
    rewrite (proj2 (Z.ltb_lt (k - 8 * a) (8 * Z.of_nat w))) by lia. cbn [andb].
    destruct (Z.leb_spec (n * i - 8 * a) (k - 8 * a)), (Z.leb_spec (n * i) k); try lia;
      destruct (Z.ltb_spec (k - 8 * a) (n * i - 8 * a + n)), (Z.ltb_spec k (n * i + n)); try lia;
      cbn [andb]; f_equal; lia.
Qed.

#[export] Instance dense_laws : PermutationLaws N (Dense N).
Proof using HN.
  split.
  - intros debug count Hc Hov. exists (div_round_up (n * count) 8). cbn. unfold dense_bytes, umul.
    fold n. rewrite (proj2 (Z.ltb_lt _ _)) by lia. cbn. split; [done|]. split; [|done].
    unfold div_round_up. destruct (_ =? _); dlia.
  - intros debug data count i Hd Hi. exists (field n (n * i) (le data)).
    split; [by apply dense_unpack_field with count|apply field_bound; lia].
  - intros debug data count i v Hd Hi Hv.
    destruct (dense_pack_bits debug data count i v Hd Hi Hv) as (data' & Hp & Hd' & Hbits).
    exists data'. cbn [perm_pack perm_unpack Dense]. split_and!; [done|done| |].
    + rewrite (dense_unpack_field debug data' count i Hd' Hi). f_equal.
      rewrite <-(field_all n v) by done. apply Z.bits_inj'. intros k Hk.
      rewrite !testbit_field by lia. destruct (Z.ltb_spec k n); [|done]. cbn [andb].
      rewrite Hbits by lia. rewrite (proj2 (Z.leb_le _ _)), (proj2 (Z.ltb_lt _ _)) by lia.
      cbn [andb]. f_equal. lia.
    + intros j Hj Hne. rewrite !(dense_unpack_field debug _ count j) by done. f_equal.
      apply field_ext; [lia|lia|]. intros k Hk. rewrite Hbits by lia.
      destruct (Z.leb_spec (n * i) k), (Z.ltb_spec k (n * i + n)); cbn [andb]; try done.
      exfalso. assert (n * i < n * j + n ∧ n * j < n * i + n) by lia. nia.
Qed.

End dense.

(** ** The transposed layout *)

Lemma one_bit z p k :
  0 ≤ p → 0 ≤ k →
  Z.testbit (Z.shiftl (Z.land (Z.shiftr z p) 1) k) k = Z.testbit z p ∧
  ∀ q, q ≠ k → Z.testbit (Z.shiftl (Z.land (Z.shiftr z p) 1) k) q = false.
Proof.
  intros. change 1 with (Z.ones 1). rewrite land_ones_field by lia. split.
  - rewrite Z.shiftl_spec, testbit_field by lia. rewrite Z.sub_diag. cbn. f_equal. lia.
  - intros q Hq. destruct (Z.lt_ge_cases q 0); [by apply Z.testbit_neg_r|].
    rewrite Z.shiftl_spec by lia. destruct (Z.lt_ge_cases q k); [apply Z.testbit_neg_r; lia|].
    rewrite testbit_field by lia. by rewrite (proj2 (Z.ltb_ge _ _)) by lia.
Qed.

(** The byte of a plane in which a bit is replaced. *)
Definition set_bit (v encoded p bit : Z) : Z :=
  Z.lor (Z.land v (Z.lxor (Z.shiftl 1 bit mod 2 ^ 8) 0xff))
    (Z.shiftl (Z.land (Z.shiftr encoded p) 1) bit mod 2 ^ 8).

Lemma testbit_set_bit v encoded p bit q :
  byte_ok v → 0 ≤ p → 0 ≤ bit < 8 → 0 ≤ q < 8 →
  Z.testbit (set_bit v encoded p bit) q =
    if bool_decide (q = bit) then Z.testbit encoded p else Z.testbit v q.
Proof.
  intros Hv Hp Hbit Hq. unfold set_bit. rewrite Z.lor_spec, Z.land_spec, Z.lxor_spec.
  rewrite !Z.mod_pow2_bits_low by lia. change 255 with (Z.ones 8).
  rewrite (Z.testbit_ones_nonneg 8), (proj2 (Z.ltb_lt q 8)) by lia.
  destruct (one_bit encoded p bit) as [H1 H2]; [done|lia|].
  change 1 with (Z.land (Z.shiftr 1 0) 1) at 1. destruct (one_bit 1 0 bit) as [B1 B2]; [done|lia|].
  case_bool_decide as Hqb.
  - subst q. rewrite H1, B1. cbn. by rewrite andb_false_r.
  - rewrite H2, B2 by done. cbn. by rewrite andb_true_r, orb_false_r.
Qed.

Lemma set_bit_ok v encoded p bit : byte_ok v → byte_ok (set_bit v encoded p bit).
Proof.
  intros Hv. apply (bounded_by_bits 8); [lia|]. intros k Hk. unfold set_bit.
  rewrite Z.lor_spec, Z.land_spec, Z.mod_pow2_bits_high by lia.
  by rewrite (testbit_above 8 v) by (done || lia).
Qed.

Lemma transpose_unpack_loop_bits data byte_start bit planes : ∀ output,
  0 ≤ byte_start → 0 ≤ bit < 8 → Forall (λ p, 0 ≤ p) planes →
  Forall (λ p, byte_start + 8 * p < Z.of_nat (length data)) planes →
  ∃ v, transpose_unpack_loop planes data byte_start bit output = Some v ∧
    ∀ k, Z.testbit v k = Z.testbit output k || existsb (λ p, (k =? p) &&
      Z.testbit (data !!! Z.to_nat (byte_start + 8 * p)) bit) planes.
Proof.
  induction planes as [|p planes IH]; intros output Hs Hbit Hp Hin;
    cbn [transpose_unpack_loop existsb].
  { exists output. split; [done|]. intros k. by rewrite orb_false_r. }
  inversion Hp as [|?? Hp0 Hp']; inversion Hin as [|?? Hi0 Hi']; subst.
  destruct (lookup_lt_is_Some_2 data (Z.to_nat (byte_start + 8 * p))) as [w Hw]; [lia|].
  rewrite (list_lookup_total_correct _ _ _ Hw), Hw. cbn [mbind option_bind].
  destruct (IH (Z.lor output (Z.shiftl (Z.land (Z.shiftr w bit) 1) p))) as (v & Hv & Hb); [done..|].
  exists v. split; [done|]. intros k. rewrite Hb, Z.lor_spec, <-orb_assoc. do 2 f_equal.
  destruct (one_bit w bit p) as [H1 H2]; [lia|lia|].
  destruct (Z.eqb_spec k p) as [-> |]; [done|by apply H2].
Qed.

Lemma transpose_pack_loop_bits byte_start bit encoded planes : ∀ data,
  bytes_ok data → 0 ≤ byte_start → 0 ≤ bit < 8 → Forall (λ p, 0 ≤ p) planes → NoDup planes →
  Forall (λ p, byte_start + 8 * p < Z.of_nat (length data)) planes →
  ∃ data', transpose_pack_loop planes data byte_start bit encoded = Some data' ∧
    bytes_ok data' ∧ length data' = length data ∧
    ∀ a q, 0 ≤ a < Z.of_nat (length data) → 0 ≤ q < 8 →
      (∀ p, p ∈ planes → a = byte_start + 8 * p → q = bit →
        Z.testbit (data' !!! Z.to_nat a) q = Z.testbit encoded p) ∧
      (q ≠ bit ∨ (∀ p, p ∈ planes → a ≠ byte_start + 8 * p) →
        Z.testbit (data' !!! Z.to_nat a) q = Z.testbit (data !!! Z.to_nat a) q).
Proof.
  induction planes as [|p planes IH]; intros data Hd Hs Hbit Hp Hnd Hin;
    cbn [transpose_pack_loop].
  { exists data. split_and!; [done..|]. intros a q _ _. split; [|done].
    intros p Hp'. by apply not_elem_of_nil in Hp'. }
  inversion Hp as [|?? Hp0 Hp']; inversion Hin as [|?? Hi0 Hi']; inversion Hnd as [|?? Hn0 Hn']; subst.
  set (k := Z.to_nat (byte_start + 8 * p)).
  destruct (lookup_lt_is_Some_2 data k) as [w Hw]; [lia|].
  assert (byte_ok w) as Hwok by (by eapply Forall_lookup_1 in Hw).
  rewrite Hw. cbn [mbind option_bind]. fold (set_bit w encoded p bit).
  unfold vec_set at 1. rewrite (proj2 (Nat.ltb_lt _ _)) by lia. cbn [mbind option_bind].
  destruct (IH (<[k:=set_bit w encoded p bit]> data)) as (data' & Hrun & Hok & Hl & Hbits);
    rewrite ?length_insert; [by apply Forall_insert; [|apply set_bit_ok]|done..|].
  exists data'. rewrite length_insert in Hl, Hbits. split_and!; [done|done|done|].
  intros a q Ha Hq. destruct (Hbits a q Ha Hq) as [B1 B2].
  destruct (decide (a = byte_start + 8 * p)) as [-> |Hne].
  - rewrite B2 by (right; intros p' Hp1 Hp2; assert (p' = p) as -> by lia; done). fold k.
    rewrite list_lookup_total_insert_eq by lia. rewrite (list_lookup_total_correct _ _ _ Hw).
    rewrite testbit_set_bit by (done || lia). split.
    + intros p' Hp1 Hp2 ->. rewrite bool_decide_true by done. f_equal. lia.
    + intros [Hqb|Hall]; [by rewrite bool_decide_false|]. exfalso. by apply (Hall p); [left|].
  - split.
    + intros p' [-> |Hp1]%elem_of_cons Hp2 Hqb; [done|]. by apply (B1 p').
    + intros Hc. rewrite B2, list_lookup_total_insert_ne; [done|lia|].
      destruct Hc as [|Hc]; [by left|right]. intros p' Hp1. apply Hc. by right.
Qed.

Definition start_of (i : Z) : Z := 32 * (i / 64) + (i mod 64) / 8.

Lemma transpose_bytes_eq debug count :
  0 ≤ count → 4 * count < 2 ^ 64 →
  transpose_bytes debug count = Some (32 * ((count + 63) / 64)).
Proof.
  intros. unfold transpose_bytes, div_round_up, umul.
  replace (count / 64 + _) with ((count + 63) / 64) by (destruct (Z.eqb_spec (count mod 64) 0); dlia).
  by rewrite (proj2 (Z.ltb_lt _ _)) by dlia.
Qed.

Lemma transpose_address debug data count i :
  holds 4 BitTranspose data count → 0 ≤ i < count →
  transpose_start debug i = Some (start_of i) ∧ 0 ≤ start_of i ∧
  start_of i + 24 < Z.of_nat (length data).
Proof.
  intros (Hb & Hc & Hov & Hlen) Hi. specialize (Hlen false). cbn [perm_bytes BitTranspose] in Hlen.
  change (Z.of_nat 4) with 4 in Hov. rewrite transpose_bytes_eq in Hlen by done. injection Hlen as Hlen.
  unfold transpose_start, start_of, umul, uadd. rewrite (proj2 (Z.ltb_lt (32 * _) _)) by dlia.
  cbn [mbind option_bind]. rewrite (proj2 (Z.ltb_lt (32 * _ + _) _)) by dlia.
  split; [done|]. split; [dlia|]. rewrite <-Hlen. dlia.
Qed.

Lemma existsb_planes (f : Z → bool) k :
  existsb (λ p, (k =? p) && f p) [0; 1; 2; 3] = (0 <=? k) && (k <? 4) && f k.
Proof.
  destruct (Z.leb_spec 0 k), (Z.ltb_spec k 4); cbn [andb existsb];
    [|rewrite !(proj2 (Z.eqb_neq k _)) by lia; done..].
  assert (k = 0 ∨ k = 1 ∨ k = 2 ∨ k = 3) as [-> |[-> |[-> | ->]]] by lia; cbn;
    by rewrite ?orb_false_r.
Qed.

(** Value [i], plane by plane. *)
Lemma transpose_unpack_bits debug data count i :
  holds 4 BitTranspose data count → 0 ≤ i < count →
  ∃ v, transpose_unpack debug data i = Some v ∧ ∀ k, Z.testbit v k =
    (0 <=? k) && (k <? 4) && Z.testbit (data !!! Z.to_nat (start_of i + 8 * k)) (i mod 8).
Proof.
  intros Hd Hi. destruct (transpose_address debug data count i Hd Hi) as (Hs & H0 & H1).
  unfold transpose_unpack. rewrite Hs. cbn [mbind option_bind].
  destruct (transpose_unpack_loop_bits data (start_of i) (i mod 8) [0; 1; 2; 3] 0)
    as (v & Hv & Hb); [done|dlia|repeat constructor; lia..|].
  exists v. split; [done|]. intros k. by rewrite Hb, Z.testbit_0_l, existsb_planes.
Qed.

Lemma transpose_pack_bits debug data count i v :
  holds 4 BitTranspose data count → 0 ≤ i < count →
  ∃ data', transpose_pack debug data i v = Some data' ∧ holds 4 BitTranspose data' count ∧
    ∀ j k, 0 ≤ j < count → 0 ≤ k < 4 →
      Z.testbit (data' !!! Z.to_nat (start_of j + 8 * k)) (j mod 8) =
      if bool_decide (j = i) then Z.testbit v k
      else Z.testbit (data !!! Z.to_nat (start_of j + 8 * k)) (j mod 8).
Proof.
  intros Hd Hi. destruct (transpose_address debug data count i Hd Hi) as (Hs & H0 & H1).
  unfold transpose_pack. rewrite Hs. cbn [mbind option_bind].
  destruct (transpose_pack_loop_bits (start_of i) (i mod 8) v [0; 1; 2; 3] data)
    as (data' & Hp & Hb & Hl & Hbits);
    [apply Hd|done|dlia|repeat constructor; lia|by apply (bool_decide_unpack _)|
     repeat constructor; lia|].
  exists data'. split; [done|]. split; [destruct Hd as (_ & ? & ? & ?); split_and!; by rewrite ?Hl|].
  intros j k Hj Hk. destruct (transpose_address debug data count j Hd Hj) as (_ & J0 & J1).
  destruct (Hbits (start_of j + 8 * k) (j mod 8)) as [B1 B2]; [lia|dlia|].
  case_bool_decide as Hji.
  - subst j. apply B1; [|done..]. assert (k = 0 ∨ k = 1 ∨ k = 2 ∨ k = 3) by lia.
    rewrite !elem_of_cons. naive_solver.
  - apply B2. destruct (decide (j mod 8 = i mod 8)) as [Hm|]; [right|by left].
    intros p Hp' Heq. assert (0 ≤ p < 4) by (rewrite !elem_of_cons, elem_of_nil in Hp'; lia).
    apply Hji. unfold start_of in Heq. dlia.
Qed.

#[export] Instance transpose_laws : PermutationLaws 4 BitTranspose.
Proof.
  split.
  - intros debug count Hc Hov. change (Z.of_nat 4) with 4 in Hov. cbn [perm_bytes BitTranspose].
    eexists. split; [by apply transpose_bytes_eq|]. split; [dlia|].
    intros d. by apply transpose_bytes_eq.
  - intros debug data count i Hd Hi.
    destruct (transpose_unpack_bits debug data count i Hd Hi) as (v & Hv & Hb).
    exists v. split; [done|]. apply bounded_by_bits; [lia|]. intros k Hk.
    rewrite Hb, (proj2 (Z.ltb_ge k 4)) by lia. by rewrite andb_false_r.
  - intros debug data count i v Hd Hi Hv.
    destruct (transpose_pack_bits debug data count i v Hd Hi) as (data' & Hp & Hd' & Hb).
    exists data'. cbn [perm_pack perm_unpack BitTranspose]. split_and!; [done|done| |].
    + destruct (transpose_unpack_bits debug data' count i Hd' Hi) as (v' & -> & Hb').
      f_equal. apply Z.bits_inj'. intros k Hk. rewrite Hb', (proj2 (Z.leb_le 0 k)) by lia.
      destruct (Z.ltb_spec k 4); cbn [andb]; [|by rewrite (testbit_above 4 v)].
      rewrite Hb by done. by rewrite bool_decide_true.
    + intros j Hj Hne. destruct (transpose_unpack_bits debug data' count j Hd' Hj) as (v1 & -> & B1).
      destruct (transpose_unpack_bits debug data count j Hd Hj) as (v0 & -> & B0). f_equal.
      apply Z.bits_inj'. intros k Hk. rewrite B1, B0, (proj2 (Z.leb_le 0 k)) by lia.
      destruct (Z.ltb_spec k 4); cbn [andb]; [|done].
      rewrite Hb by done. by rewrite bool_decide_false.
Qed.

(** ** The checked interface *)

Section checked.
Context (N : nat) (repr : Representation) (perm : PermutationStrategy).
Context `{!RepresentationLaws N repr} `{!PermutationLaws N perm} (debug : bool).

Definition slice_wf (s : BitSlice) : Prop := holds N perm (bs_data s) (bs_len s).

Lemma debug_assert_true b : b = true → debug_assert debug b = Some tt.
Proof. intros ->. unfold debug_assert. by rewrite orb_true_r. Qed.

Lemma get_unchecked_ok s i :
  slice_wf s → 0 ≤ i < bs_len s →
  ∃ v, get_unchecked debug repr perm s i = Some v ∧ v ∈ repr_domain repr.
Proof using All.
  intros Hs Hi. unfold get_unchecked. rewrite debug_assert_true by (apply Z.ltb_lt; lia).
  destruct (unpack_law debug (bs_data s) _ i Hs Hi) as (c & -> & Hc). cbn [mbind option_bind].
  destruct (decode_law debug c Hc) as (v & -> & Hv). exists v. split; [done|by apply check_domain].
Qed.

Lemma slice_get_in s i :
  slice_wf s → 0 ≤ i < bs_len s →
  ∃ v, slice_get debug repr perm s i = Some (Ok v) ∧ v ∈ repr_domain repr.
Proof using All.
  intros Hs Hi. unfold slice_get. rewrite (proj2 (Z.leb_gt _ _)) by lia.
  destruct (get_unchecked_ok s i Hs Hi) as (v & -> & Hv). by exists v.
Qed.

Lemma slice_set_in s i v :
  slice_wf s → 0 ≤ i < bs_len s → repr_check repr v = true →
  ∃ s', slice_set debug repr perm s i v = Some (s', Ok tt) ∧ slice_wf s' ∧
    bs_len s' = bs_len s ∧ slice_get debug repr perm s' i = Some (Ok v) ∧
    ∀ j, 0 ≤ j → j ≠ i → slice_get debug repr perm s' j = slice_get debug repr perm s j.
Proof using All.
  intros Hs Hi Hv. unfold slice_set. rewrite (proj2 (Z.leb_gt _ _)) by lia.
  unfold encode. rewrite Hv. cbn [negb].
  destruct (encode_law debug v Hv) as (c & -> & Hc & Hdec). cbn [mbind option_bind].
  unfold set_unchecked. rewrite debug_assert_true by (apply Z.ltb_lt; lia). cbn [mbind option_bind].
  destruct (pack_law debug (bs_data s) _ i c Hs Hi Hc) as (data' & -> & Hd' & Hg & Ho).
  eexists. split; [done|]. split; [done|]. split; [done|]. unfold slice_get, get_unchecked.
  cbn [bs_len bs_data]. split.
  - rewrite (proj2 (Z.leb_gt _ _)), debug_assert_true by (done || lia || (apply Z.ltb_lt; lia)).
    cbn [mbind option_bind]. rewrite Hg. cbn [mbind option_bind]. by rewrite Hdec.
  - intros j Hj Hne. destruct (Z.leb_spec (bs_len s) j); [done|]. by rewrite Ho.
Qed.

(** Every call of [set], successful or not. *)
Lemma slice_set_outcome s i v :
  slice_wf s → 0 ≤ i →
  ∃ s' r, slice_set debug repr perm s i v = Some (s', r) ∧ slice_wf s' ∧ bs_len s' = bs_len s ∧
    match r with
    | Ok _ => i < bs_len s ∧ v ∈ repr_domain repr ∧ slice_get debug repr perm s' i = Some (Ok v) ∧
        ∀ j, 0 ≤ j → j ≠ i → slice_get debug repr perm s' j = slice_get debug repr perm s j
    | Err (SetIndexError e) => s' = s ∧ bs_len s ≤ i ∧ e = mkIndexOutOfBounds i (bs_len s)
    | Err (SetEncodingError e) => s' = s ∧ i < bs_len s ∧ v ∉ repr_domain repr ∧
        e = mkEncodingError v (repr_domain_str repr)
    end.
Proof using All.
  intros Hs Hi. destruct (Z.leb_spec (bs_len s) i) as [Hout|Hin].
  - unfold slice_set. rewrite (proj2 (Z.leb_le _ _)) by done. eexists _, _. by split_and!.
  - destruct (repr_check repr v) eqn:Hv.
    + destruct (slice_set_in s i v Hs ltac:(lia) Hv) as (s' & Hset & ? & ? & ? & ?).
      exists s', (Ok tt). apply check_domain in Hv. by split_and!.
    + unfold slice_set, encode. rewrite (proj2 (Z.leb_gt _ _)), Hv by done.
      eexists _, _. do 3 (split; [done|]).
      split_and!; [done..| |done]. by rewrite <-check_domain, Hv.
Qed.

(** A slice over given memory, and a zeroed one: well-formed, or the lengths are reported. *)
Lemma slice_new_wf data count :
  bytes_ok data → 0 ≤ count → Z.of_nat N * count < 2 ^ 64 →
  ∃ b, bytes_for debug perm count = Some b ∧ slice_new debug perm data count = Some
    (if Z.of_nat (length data) =? b then Ok (mkBitSlice data count)
     else Err (mkConstructionError (Z.of_nat (length data)) b)) ∧
  (Z.of_nat (length data) = b → slice_wf (mkBitSlice data count)).
Proof using All.
  intros Hd Hc Hov. destruct (bytes_law debug count Hc Hov) as (b & Hb & Hb0 & Hball).
  exists b. split; [done|]. split.
  - unfold slice_new, slice_new_unchecked, bytes_for. rewrite Hb. cbn [mbind option_bind].
    destruct (Z.eqb_spec (Z.of_nat (length data)) b) as [->|]; cbn [negb]; [|done].
    by rewrite debug_assert_true.
  - intros <-. by split_and!.
Qed.

Lemma new_boxed_wf count :
  0 ≤ count → Z.of_nat N * count < 2 ^ 64 →
  ∃ s, new_boxed debug perm count = Some s ∧ slice_wf s ∧ bs_len s = count.
Proof using All.
  intros Hc Hov. destruct (bytes_law debug count Hc Hov) as (b & Hb & Hb0 & Hball).
  unfold new_boxed, slice_new_unchecked, bytes_for. rewrite Hb. cbn [mbind option_bind].
  rewrite length_replicate, Z2Nat.id by lia.
  rewrite debug_assert_true by lia. eexists. split; [done|]. split; [|done]. split_and!; [|done..|].
  - apply Forall_replicate. split; cbn; lia.
  - intros d. cbn [bs_data]. rewrite length_replicate, Z2Nat.id by lia. apply Hball.
Qed.

End checked.

(** ** The slices of the source *)

(** The combinations of a representation and a layout that the source implements. *)
Inductive slice_type := UnsignedDense (N : nat) | BinaryDense | UnsignedTransposed.

Definition type_bits (t : slice_type) : nat :=
  match t with UnsignedDense N => N | BinaryDense => 1 | UnsignedTransposed => 4 end.
Definition type_repr (t : slice_type) : Representation :=
  match t with
  | UnsignedDense N => Unsigned N | BinaryDense => Binary | UnsignedTransposed => Unsigned 4
  end.
Definition type_perm (t : slice_type) : PermutationStrategy :=
  match t with
  | UnsignedDense N => Dense N | BinaryDense => Dense 1 | UnsignedTransposed => BitTranspose
  end.
Definition type_ok (t : slice_type) : Prop := (1 ≤ type_bits t ≤ 8)%nat.

(** Where a layout keeps bit [k] of value [i]: the byte, and the bit in it.  A dense slice is
    one string of bits; a transposed one has, for every 64 values, a plane of eight bytes per
    bit of a value. *)
Definition bit_place (t : slice_type) (i k : Z) : Z * Z :=
  match t with
  | UnsignedTransposed => (32 * (i / 64) + 8 * k + (i mod 64) / 8, i mod 8)
  | _ => let b := Z.of_nat (type_bits t) * i + k in (b / 8, b mod 8)
  end.

Definition bit_of (t : slice_type) (data : list Z) (i k : Z) : bool :=
  Z.testbit (data !!! Z.to_nat (bit_place t i k).1) (bit_place t i k).2.

Lemma type_repr_laws t : type_ok t → RepresentationLaws (type_bits t) (type_repr t).
Proof. destruct t; intros Ht; [by apply unsigned_laws|apply binary_laws|by apply unsigned_laws]. Qed.

Lemma type_perm_laws t : type_ok t → PermutationLaws (type_bits t) (type_perm t).
Proof. destruct t; intros Ht; [by apply dense_laws|by apply dense_laws|apply transpose_laws]. Qed.

Lemma testbit_le data k :
  bytes_ok data → 0 ≤ k < 8 * Z.of_nat (length data) →
  Z.testbit (le data) k = Z.testbit (data !!! Z.to_nat (k / 8)) (k mod 8).
Proof.
  intros Hd Hk. pose proof (read_le_field data (Z.to_nat (k / 8)) 1 Hd ltac:(dlia)) as Hr.
  destruct (lookup_lt_is_Some_2 data (Z.to_nat (k / 8))) as [w Hw]; [dlia|].
  rewrite (list_lookup_total_correct _ _ _ Hw). unfold read_le in Hr.
  rewrite (proj2 (Nat.leb_le _ _)) in Hr by dlia. rewrite (drop_S _ w) in Hr by done.
  cbn [take le] in Hr. rewrite Z.mul_0_r, Z.add_0_r in Hr. injection Hr as ->.
  rewrite testbit_field by dlia. rewrite (proj2 (Z.ltb_lt _ _)) by dlia.
  cbn [andb]. f_equal. dlia.
Qed.

(** The code of a value has the bits that the layout assigns to it. *)
Lemma unpack_bits t debug data count i :
  type_ok t → holds (type_bits t) (type_perm t) data count → 0 ≤ i < count →
  ∃ c, perm_unpack (type_perm t) debug data i = Some c ∧ 0 ≤ c < 2 ^ Z.of_nat (type_bits t) ∧
    ∀ k, 0 ≤ k < Z.of_nat (type_bits t) → Z.testbit c k = bit_of t data i k.
Proof.
  intros Ht Hd Hi. pose proof (type_perm_laws t Ht).
  destruct (unpack_law debug data count i Hd Hi) as (c & Hc & Hcb).
  exists c. split; [done|]. split; [done|]. intros k Hk.
  assert (∀ N, (1 ≤ N ≤ 8)%nat → holds N (Dense N) data count → 0 ≤ k < Z.of_nat N →
    dense_unpack N debug data i = Some c →
    Z.testbit c k = Z.testbit (data !!! Z.to_nat ((Z.of_nat N * i + k) / 8))
      ((Z.of_nat N * i + k) mod 8)) as Hdense.
  { intros N HN HdN Hk'. rewrite (dense_unpack_field N HN debug data count) by done.
    intros [= <-]. rewrite testbit_field by nia.
    rewrite (proj2 (Z.ltb_lt k _)) by lia. cbn [andb].
    destruct HdN as (Hb & _ & Hov & Hl). specialize (Hl true). cbn in Hl.
    unfold dense_bytes, umul in Hl. rewrite (proj2 (Z.ltb_lt _ _)) in Hl by lia. cbn in Hl.
    injection Hl as Hl. unfold div_round_up in Hl.
    rewrite <-testbit_le; [f_equal; lia|done|].
    assert (Z.of_nat N * i + Z.of_nat N ≤ Z.of_nat N * count) by nia.
    set (b := Z.of_nat N * count) in *. destruct (Z.eqb_spec (b mod 8) 0); split; dlia || nia. }
  destruct t; [by apply Hdense|by apply Hdense|].
  destruct (transpose_unpack_bits debug data count i Hd Hi) as (c' & Hc' & Hb).
  cbn in Hc. rewrite Hc in Hc'. injection Hc' as <-. cbn in Hk. rewrite Hb.
  rewrite (proj2 (Z.leb_le 0 k)), (proj2 (Z.ltb_lt k _)) by lia. cbn [andb].
  unfold bit_of, start_of. cbn [bit_place fst snd]. do 2 f_equal. lia.
Qed.

Lemma slice_get_code t debug s i :
  type_ok t → slice_wf (type_bits t) (type_perm t) s → 0 ≤ i < bs_len s →
  ∃ v c, slice_get debug (type_repr t) (type_perm t) s i = Some (Ok v) ∧
    v ∈ repr_domain (type_repr t) ∧ repr_decode (type_repr t) debug c = Some v ∧
    0 ≤ c < 2 ^ Z.of_nat (type_bits t) ∧
    ∀ k, 0 ≤ k < Z.of_nat (type_bits t) → Z.testbit c k = bit_of t (bs_data s) i k.
Proof.
  intros Ht Hs Hi. destruct (unpack_bits t debug (bs_data s) _ i Ht Hs Hi) as (c & Hc & Hcb & Hbits).
  pose proof (type_repr_laws t Ht). destruct (decode_law debug c Hcb) as (v & Hv & Hdom).
  exists v, c. unfold slice_get, get_unchecked. rewrite (proj2 (Z.leb_gt _ _)) by lia.
  rewrite debug_assert_true by (apply Z.ltb_lt; lia). cbn [mbind option_bind]. rewrite Hc.
  cbn [mbind option_bind]. rewrite Hv.
  split_and!; [done|by apply check_domain|done|apply Hcb|apply Hcb|done].
Qed.

(** C34: Checked access to a packed slice, for unsigned values of one to eight bits and binary
    values in the dense layout and for unsigned values of four bits in the transposed one, in
    debug and release builds.  On a well-formed slice no access panics or leaves the memory.
    [get] below the length decodes exactly the bits that the layout assigns to the value, and
    the result is in the domain; at or above the length it reports the index.  [set] of a
    value of the domain below the length succeeds, [get] then reads the value back at its
    index and everything else as before; otherwise the slice is unchanged and the error tells
    the index and the length, or the value and the domain. *)
Theorem bit_slice_roundtrip (t : slice_type) (debug : bool) s i v :
  let get := slice_get debug (type_repr t) (type_perm t) in
  let domain := repr_domain (type_repr t) in
  type_ok t → slice_wf (type_bits t) (type_perm t) s → 0 ≤ i →
  (if bs_len s <=? i then get s i = Some (Err (GetIndexError (mkIndexOutOfBounds i (bs_len s))))
   else ∃ x c, get s i = Some (Ok x) ∧ x ∈ domain ∧ repr_decode (type_repr t) debug c = Some x ∧
     0 ≤ c < 2 ^ Z.of_nat (type_bits t) ∧
     ∀ k, 0 ≤ k < Z.of_nat (type_bits t) → Z.testbit c k = bit_of t (bs_data s) i k) ∧
  ∃ s' r, slice_set debug (type_repr t) (type_perm t) s i v = Some (s', r) ∧
    slice_wf (type_bits t) (type_perm t) s' ∧ bs_len s' = bs_len s ∧
    match r with
    | Ok _ => i < bs_len s ∧ v ∈ domain ∧ get s' i = Some (Ok v) ∧
        ∀ j, 0 ≤ j → j ≠ i → get s' j = get s j
    | Err (SetIndexError e) => s' = s ∧ bs_len s ≤ i ∧ e = mkIndexOutOfBounds i (bs_len s)
    | Err (SetEncodingError e) => s' = s ∧ i < bs_len s ∧ v ∉ domain ∧
        e = mkEncodingError v (repr_domain_str (type_repr t))
    end.
Proof.
  intros get domain Ht Hs Hi. split.
  - destruct (Z.leb_spec (bs_len s) i) as [Hout|Hin]; [|by apply slice_get_code].
    unfold get, slice_get. by rewrite (proj2 (Z.leb_le _ _)).
  - by apply slice_set_outcome; [apply type_repr_laws|apply type_perm_laws|..].
Qed.

(** Nine values of three bits, and 70 transposed values of four bits. *)
Lemma bit_slice_roundtrip_witness :
  (∃ s', slice_set true (Unsigned 3) (Dense 3) (mkBitSlice [255; 0; 170; 7] 9) 5 6
           = Some (s', Ok tt) ∧
     slice_get true (Unsigned 3) (Dense 3) s' 5 = Some (Ok 6)) ∧
  ∃ s', slice_set true (Unsigned 4) BitTranspose (mkBitSlice (replicate 64 1) 70) 66 9
           = Some (s', Ok tt) ∧
     slice_get true (Unsigned 4) BitTranspose s' 66 = Some (Ok 9).
Proof.
  split.
  - destruct (bit_slice_roundtrip (UnsignedDense 3) true (mkBitSlice [255; 0; 170; 7] 9) 5 6)
      as [_ (s' & r & Hset & _ & _ & Hr)].
    + split; cbn; lia.
    + split_and!; [repeat constructor; lia|cbn; lia|cbn; lia|intros []; reflexivity].
    + lia.
    + exists s'. vm_compute in Hset. injection Hset as <- <-. exact (conj eq_refl (proj1 (proj2 (proj2 Hr)))).
  - destruct (bit_slice_roundtrip UnsignedTransposed true (mkBitSlice (replicate 64 1) 70) 66 9)
      as [_ (s' & r & Hset & _ & _ & Hr)].
    + split; cbn; lia.
    + split_and!; [repeat constructor; lia|cbn; lia|cbn; lia|intros []; reflexivity].
    + lia.
    + exists s'. vm_compute in Hset. injection Hset as <- <-. exact (conj eq_refl (proj1 (proj2 (proj2 Hr)))).
Defined.

(** The number of bytes of a dense slice wraps around in a release build: the checked
    constructor accepts 2^61 values of eight bits over no memory at all, and the checked read
    of the first one then leaves the memory. *)
Lemma dense_new_overflow :
  slice_new false (Dense 8) [] (2 ^ 61) = Some (Ok (mkBitSlice [] (2 ^ 61))) ∧
  slice_get false (Unsigned 8) (Dense 8) (mkBitSlice [] (2 ^ 61)) 0 = None ∧
  slice_new true (Dense 8) [] (2 ^ 61) = None.
Proof. split_and!; vm_compute; reflexivity. Qed.
