(* ===== verification/Simd.v ===== *)
(** * Integer SIMD registers

    Models the integer operations of [diskann-wide] that the distance kernels use, after the
    emulated registers ([diskann-wide/src/emulated.rs], [reference.rs]), which that crate
    declares to be the ground truth for every back-end.

    - a register is the list of its lanes; unsigned lanes are integers below [2^w], signed ones
      are integers between [-2^(w-1)] and [2^(w-1)];
    - a load reads the byte string behind the pointer, [None] when it leaves the memory;
    - [≡₃₂]: equality modulo [2^32], with the rules by which sums of lanes are rewritten. *)

From S2P Require Import Prelude Bytes.
Local Open Scope Z_scope.

(** ** Scalars *)

(** The signed and the unsigned integer of [w] bits with the bits of [z]. *)
Definition as_signed (w z : Z) : Z := (z + 2 ^ (w - 1)) mod 2 ^ w - 2 ^ (w - 1).
Definition as_unsigned (w z : Z) : Z := z mod 2 ^ w.

(** [ReferenceScalarOps] of the integers: arithmetic wraps around. *)
Definition expected_add (wrap : Z → Z) (x y : Z) : Z := wrap (x + y).
Definition expected_sub (wrap : Z → Z) (x y : Z) : Z := wrap (x - y).
Definition expected_mul (wrap : Z → Z) (x y : Z) : Z := wrap (x * y).
Definition expected_fma (wrap : Z → Z) (x y acc : Z) : Z := wrap (wrap (x * y) + acc).

(** [ReferenceIntegerOps::expected_shr_] of an unsigned integer of [w] bits. *)
Definition expected_shr (w x n : Z) : Z := if w <=? n then 0 else Z.shiftr x n.

Abbreviation i16_of := (as_signed 16) (only parsing).
Abbreviation i32_of := (as_signed 32) (only parsing).
Abbreviation u32_of := (as_unsigned 32) (only parsing).

(** ** Lane-wise operations *)

Definition splat {A} (lanes : nat) (v : A) : list A := replicate lanes v.
Definition simd_add (wrap : Z → Z) : list Z → list Z → list Z := zip_with (expected_add wrap).
Definition simd_sub (wrap : Z → Z) : list Z → list Z → list Z := zip_with (expected_sub wrap).
Definition simd_and : list Z → list Z → list Z := zip_with Z.land.
Definition simd_shr (w : Z) (v : list Z) (n : Z) : list Z := map (λ x, expected_shr w x n) v.

(** [load_simd]: [lanes] values of [b] bytes from byte [off] on. *)
Fixpoint load_simd (b lanes : nat) (data : list Z) (off : nat) : option (list Z) :=
  match lanes with
  | O => Some []
  | S lanes => x ← read_le data off b; v ← load_simd b lanes data (off + b); Some (x :: v)
  end.

(** [load_simd_first]: the first lanes only, the others are zero. *)
Fixpoint load_simd_first (b lanes : nat) (data : list Z) (off first : nat) : option (list Z) :=
  match lanes with
  | O => Some []
  | S lanes =>
      x ← (if (0 <? first)%nat then read_le data off b else Some 0);
      v ← load_simd_first b lanes data (off + b) (pred first);
      Some (x :: v)
  end.

(** [reinterpret_simd], on a little-endian machine. *)
Definition u32_to_i16 (v : list Z) : list Z :=
  v ≫= λ x, [as_signed 16 (x mod 2 ^ 16); as_signed 16 (x / 2 ^ 16)].
Definition u32_to_u8 (v : list Z) : list Z := v ≫= to_le 4.
Definition u32_to_i8 (v : list Z) : list Z := map (as_signed 8) (u32_to_u8 v).
Fixpoint u8_to_u32 (v : list Z) : list Z :=
  match v with
  | b0 :: b1 :: b2 :: b3 :: v => le [b0; b1; b2; b3] :: u8_to_u32 v
  | _ => []
  end.

(** [dot_simd]: products of pairs of 16-bit lanes into 32-bit accumulators. *)
Fixpoint pairs_i16 (ls rs : list Z) : list Z :=
  match ls, rs with
  | l0 :: l1 :: ls, r0 :: r1 :: rs =>
      expected_fma i32_of l0 r0 (expected_mul i32_of l1 r1) :: pairs_i16 ls rs
  | _, _ => []
  end.

Definition dot_simd_i16 (self ls rs : list Z) : list Z :=
  simd_add i32_of self (pairs_i16 ls rs).

(** [dot_simd]: products of groups of four 8-bit lanes into accumulators of type [wrap]. *)
Fixpoint quads_8 (wrap : Z → Z) (ls rs : list Z) : list Z :=
  match ls, rs with
  | l0 :: l1 :: l2 :: l3 :: ls, r0 :: r1 :: r2 :: r3 :: rs =>
      let a := expected_fma wrap l0 r0 (expected_mul wrap l1 r1) in
      let b := expected_fma wrap l2 r2 (expected_mul wrap l3 r3) in
      wrap (a + b) :: quads_8 wrap ls rs
  | _, _ => []
  end.

Definition dot_simd_8 (wrap : Z → Z) (self ls rs : list Z) : list Z :=
  simd_add wrap self (quads_8 wrap ls rs).

(** [TreeReduce]: pairwise halving of [2^k] lanes. *)
Fixpoint tree_reduce (op : Z → Z → Z) (k : nat) (v : list Z) : Z :=
  match k with
  | O => default 0 (head v)
  | S k => let n := (length v / 2)%nat in
           tree_reduce op k (zip_with op (take n v) (drop n v))
  end.

Definition sum_tree (wrap : Z → Z) (k : nat) (v : list Z) : Z :=
  tree_reduce (expected_add wrap) k v.

(** ** Equality modulo 2^32 *)

Definition eq32 (x y : Z) : Prop := x mod 2 ^ 32 = y mod 2 ^ 32.
Infix "≡₃₂" := eq32 (at level 70).

#[export] Instance eq32_equiv : Equivalence eq32.
Proof. split; unfold eq32; repeat intro; congruence. Qed.

Lemma eq32_ex x y : x ≡₃₂ y ↔ ∃ k, x = y + k * 2 ^ 32.
Proof.
  unfold eq32. split.
  - intros H. exists (x / 2 ^ 32 - y / 2 ^ 32).
    pose proof (Z.div_mod x (2 ^ 32)). pose proof (Z.div_mod y (2 ^ 32)). lia.
  - intros [k ->]. apply Z.mod_add. lia.
Qed.

#[export] Instance add32 : Proper (eq32 ==> eq32 ==> eq32) Z.add.
Proof.
  intros x x' Hx y y' Hy. apply eq32_ex in Hx as [k ->], Hy as [k' ->]. apply eq32_ex.
  exists (k + k'). lia.
Qed.

#[export] Instance sub32 : Proper (eq32 ==> eq32 ==> eq32) Z.sub.
Proof.
  intros x x' Hx y y' Hy. apply eq32_ex in Hx as [k ->], Hy as [k' ->]. apply eq32_ex.
  exists (k - k'). lia.
Qed.

#[export] Instance mul32 : Proper (eq32 ==> eq32 ==> eq32) Z.mul.
Proof.
  intros x x' Hx y y' Hy. apply eq32_ex in Hx as [k ->], Hy as [k' ->]. apply eq32_ex.
  exists (k * y' + k' * x' + k * k' * 2 ^ 32). lia.
Qed.

(** The conversions to 32 bits keep the residue. *)
Class Wrap32 (wrap : Z → Z) := wrap32 : ∀ z, wrap z ≡₃₂ z.

#[export] Instance i32_wrap : Wrap32 (as_signed 32).
Proof.
  intros z. apply eq32_ex. unfold as_signed. exists (- ((z + 2 ^ 31) / 2 ^ 32)).
  change (32 - 1) with 31. pose proof (Z.div_mod (z + 2 ^ 31) (2 ^ 32)). lia.
Qed.

#[export] Instance u32_wrap : Wrap32 (as_unsigned 32).
Proof. intros z. unfold eq32, as_unsigned. by rewrite Z.mod_mod by lia. Qed.

Lemma as_signed_small w z : 0 < w → - 2 ^ (w - 1) ≤ z < 2 ^ (w - 1) → as_signed w z = z.
Proof.
  intros Hw Hz. unfold as_signed. rewrite Z.mod_small; [lia|].
  replace (2 ^ w) with (2 * 2 ^ (w - 1)); [lia|]. rewrite <-Z.pow_succ_r by lia. f_equal. lia.
Qed.

(** ** Sums of lanes *)

Definition sumZ (l : list Z) : Z := foldr Z.add 0 l.

(** The sum of [f] over the pairs of lanes. *)
Definition sum2 (f : Z → Z → Z) (l r : list Z) : Z := sumZ (zip_with f l r).

Lemma sumZ_app l k : sumZ (l ++ k) = sumZ l + sumZ k.
Proof. induction l as [|x l IH]; [done|]. cbn in *. unfold sumZ in *. lia. Qed.

Lemma sum2_cons f x y l r : sum2 f (x :: l) (y :: r) = f x y + sum2 f l r.
Proof. done. Qed.

Lemma sum2_app f l l' r r' :
  length l = length r → sum2 f (l ++ l') (r ++ r') = sum2 f l r + sum2 f l' r'.
Proof. intros H. unfold sum2. by rewrite zip_with_app, sumZ_app. Qed.

(** Sums of several functions over the same lanes. *)
Lemma sum2_plus f g l : ∀ r, sum2 f l r + sum2 g l r = sum2 (λ x y, f x y + g x y) l r.
Proof.
  induction l as [|x l IH]; intros [|y r]; try done. rewrite !sum2_cons, <-IH. lia.
Qed.

Lemma sum2_ext f g l r :
  (∀ x y, x ∈ l → y ∈ r → f x y = g x y) → sum2 f l r = sum2 g l r.
Proof.
  revert r. induction l as [|x l IH]; intros [|y r] H; try done. rewrite !sum2_cons.
  rewrite H, (IH r); [done|intros; apply H; by right|by left..].
Qed.

Lemma sum2_zero f l r : (∀ x y, x ∈ l → y ∈ r → f x y = 0) → sum2 f l r = 0.
Proof.
  revert r. induction l as [|x l IH]; intros [|y r] H; try done. rewrite sum2_cons.
  rewrite H, (IH r); [done|intros; apply H; by right|by left..].
Qed.

Lemma length_simd_add wrap l r : length l = length r → length (simd_add wrap l r) = length l.
Proof. intros H. unfold simd_add. rewrite length_zip_with. lia. Qed.

Lemma sum_simd_add wrap `{!Wrap32 wrap} l : ∀ r,
  length l = length r → sumZ (simd_add wrap l r) ≡₃₂ sumZ l + sumZ r.
Proof.
  induction l as [|x l IH]; intros [|y r] H; try done. cbn in *.
  unfold sumZ in *. cbn. rewrite IH by lia. unfold expected_add. rewrite wrap32.
  by replace (x + y + (foldr Z.add 0 l + foldr Z.add 0 r))
    with (x + foldr Z.add 0 l + (y + foldr Z.add 0 r)) by lia.
Qed.

Lemma pairs_sum (n : nat) : ∀ l r, length l = (2 * n)%nat → length r = (2 * n)%nat →
  length (pairs_i16 l r) = n ∧ sumZ (pairs_i16 l r) ≡₃₂ sum2 Z.mul l r.
Proof.
  induction n as [|n IH]; intros [|l0 [|l1 l]] [|r0 [|r1 r]] Hl Hr; try done; cbn in Hl, Hr; try lia.
  destruct (IH l r) as [HL HS]; [lia..|]. cbn [pairs_i16 length]. split; [by rewrite HL|].
  rewrite !sum2_cons. cbn [sumZ foldr]. fold (sumZ (pairs_i16 l r)). rewrite HS.
  unfold expected_fma, expected_mul. rewrite !wrap32. by rewrite Z.add_assoc.
Qed.

Lemma quads_sum wrap `{!Wrap32 wrap} (n : nat) : ∀ l r,
  length l = (4 * n)%nat → length r = (4 * n)%nat →
  length (quads_8 wrap l r) = n ∧ sumZ (quads_8 wrap l r) ≡₃₂ sum2 Z.mul l r.
Proof.
  induction n as [|n IH]; intros [|l0 [|l1 [|l2 [|l3 l]]]] [|r0 [|r1 [|r2 [|r3 r]]]] Hl Hr;
    try done; cbn in Hl, Hr; try lia.
  destruct (IH l r) as [HL HS]; [lia..|]. cbn [quads_8 length]. split; [by rewrite HL|].
  rewrite !sum2_cons. cbn [sumZ foldr]. fold (sumZ (quads_8 wrap l r)). rewrite HS.
  unfold expected_fma, expected_mul. rewrite !wrap32. by rewrite !Z.add_assoc.
Qed.

(** A dot product adds the products of all lanes to the sum of the accumulator. *)
Lemma dot_i16_sum (n : nat) s l r :
  length s = n → length l = (2 * n)%nat → length r = (2 * n)%nat →
  length (dot_simd_i16 s l r) = n ∧ sumZ (dot_simd_i16 s l r) ≡₃₂ sumZ s + sum2 Z.mul l r.
Proof.
  intros Hs Hl Hr. destruct (pairs_sum n l r Hl Hr) as [HL HS]. unfold dot_simd_i16.
  rewrite length_simd_add by lia. split; [done|]. rewrite sum_simd_add; [|apply _|lia].
  by rewrite HS.
Qed.

Lemma dot_8_sum wrap `{!Wrap32 wrap} (n : nat) s l r :
  length s = n → length l = (4 * n)%nat → length r = (4 * n)%nat →
  length (dot_simd_8 wrap s l r) = n ∧ sumZ (dot_simd_8 wrap s l r) ≡₃₂ sumZ s + sum2 Z.mul l r.
Proof.
  intros Hs Hl Hr. destruct (quads_sum wrap n l r Hl Hr) as [HL HS]. unfold dot_simd_8.
  rewrite length_simd_add by lia. split; [done|]. rewrite sum_simd_add; [|done|lia].
  by rewrite HS.
Qed.

Lemma sum_tree_sum wrap `{!Wrap32 wrap} k : ∀ v,
  length v = (2 ^ k)%nat → sum_tree wrap k v ≡₃₂ sumZ v.
Proof.
  unfold sum_tree. induction k as [|k IH]; intros v Hv.
  - destruct v as [|x [|]]; try done. cbn. by rewrite Z.add_0_r.
  - cbn [tree_reduce]. set (n := (length v / 2)%nat).
    assert (length v = n + n ∧ n = 2 ^ k)%nat as [Hn Hk].
    { unfold n. rewrite Hv. cbn [Nat.pow]. rewrite Nat.mul_comm, Nat.div_mul by done. lia. }
    fold (simd_add wrap (take n v) (drop n v)).
    assert (length (take n v) = n ∧ length (drop n v) = n) as [Ht Hd]
      by (rewrite length_take, length_drop; lia).
    rewrite IH by (rewrite length_simd_add; lia). rewrite sum_simd_add by (done || lia).
    by rewrite <-sumZ_app, take_drop.
Qed.

(** Lane-wise subtraction inside a sum. *)
Lemma sum2_sub wrap l : ∀ r,
  (∀ x y, x ∈ l → y ∈ r → wrap (x - y) = x - y) →
  sum2 Z.mul (simd_sub wrap l r) (simd_sub wrap l r) = sum2 (λ x y, (x - y) * (x - y)) l r.
Proof.
  induction l as [|x l IH]; intros [|y r] H; try done. cbn [simd_sub zip_with].
  rewrite !sum2_cons. unfold expected_sub at 1 2. rewrite !H by (by left). f_equal.
  apply IH. intros; apply H; by right.
Qed.

(** Lanes that each give several lanes. *)
Lemma sum2_flat f (F G : Z → list Z) (c : nat) l : ∀ r,
  length l = length r → (∀ x, length (F x) = c) → (∀ x, length (G x) = c) →
  sum2 f (l ≫= F) (r ≫= G) = sum2 (λ x y, sum2 f (F x) (G y)) l r.
Proof.
  induction l as [|x l IH]; intros [|y r] H HF HG; try done. cbn in H. rewrite !bind_cons.
  rewrite sum2_app by (by rewrite HF, HG). rewrite sum2_cons, IH by (done || lia). done.
Qed.

Lemma length_flat (F : Z → list Z) (c : nat) l :
  (∀ x, length (F x) = c) → length (l ≫= F) = (c * length l)%nat.
Proof.
  intros HF. induction l as [|x l IH]; [by rewrite Nat.mul_0_r|].
  rewrite bind_cons, length_app, IH, HF. cbn. lia.
Qed.

(** ** Loads *)

Lemma read_le_ok data off b :
  (off + b ≤ length data)%nat → read_le data off b = Some (le (take b (drop off data))).
Proof. intros. unfold read_le. by rewrite (proj2 (Nat.leb_le _ _)). Qed.

Lemma le_single x : le [x] = x.
Proof. cbn. lia. Qed.

Lemma take1_drop (data : list Z) off :
  (off < length data)%nat → ∃ x, take 1 (drop off data) = [x] ∧ drop off data = x :: drop (S off) data.
Proof.
  intros H. destruct (lookup_lt_is_Some_2 data off H) as [x Hx]. exists x.
  rewrite (drop_S data x off Hx). by cbn.
Qed.

Lemma load_u8 lanes data : ∀ off,
  (off + lanes ≤ length data)%nat → load_simd 1 lanes data off = Some (take lanes (drop off data)).
Proof.
  induction lanes as [|lanes IH]; intros off H; [done|]. cbn [load_simd].
  destruct (take1_drop data off) as (x & Hx & Hd); [lia|].
  rewrite read_le_ok by lia. rewrite Hx, le_single. cbn [mbind option_bind].
  rewrite IH by lia. cbn [mbind option_bind]. rewrite Hd, firstn_cons.
  by rewrite Nat.add_1_r.
Qed.

Lemma load_first_0 b lanes data : ∀ off, load_simd_first b lanes data off 0 = Some (replicate lanes 0).
Proof. induction lanes as [|lanes IH]; intros off; [done|]. cbn [load_simd_first]. cbn. by rewrite IH. Qed.

Lemma load_first_u8 lanes data : ∀ off first,
  (first ≤ lanes)%nat → (off + first ≤ length data)%nat →
  load_simd_first 1 lanes data off first =
    Some (take first (drop off data) ++ replicate (lanes - first) 0).
Proof.
  induction lanes as [|lanes IH]; intros off [|first] Hf H; [done|lia|by rewrite load_first_0|].
  destruct (take1_drop data off) as (x & Hx & Hd); [lia|].
  cbn [load_simd_first]. change (0 <? S first)%nat with true. cbn [pred].
  rewrite read_le_ok by lia. rewrite Hx, le_single. cbn [mbind option_bind].
  rewrite IH by lia. cbn [mbind option_bind]. rewrite Hd, firstn_cons, Nat.add_1_r. done.
Qed.

Lemma u8_to_u32_cons (l k : list Z) :
  length l = 4%nat → u8_to_u32 (l ++ k) = le l :: u8_to_u32 k.
Proof. intros H. by destruct l as [|? [|? [|? [|? [|]]]]]. Qed.

Lemma length_u8_to_u32 (n : nat) : ∀ v, length v = (4 * n)%nat → length (u8_to_u32 v) = n.
Proof.
  induction n as [|n IH]; intros [|? [|? [|? [|? v]]]] H; try done; cbn in H; try lia.
  cbn [u8_to_u32 length]. by rewrite IH by lia.
Qed.

Lemma take4_drop (data : list Z) off (m : nat) :
  take (4 + m) (drop off data) = take 4 (drop off data) ++ take m (drop (off + 4) data).
Proof.
  rewrite <-(take_drop 4 (drop off data)) at 1. rewrite drop_drop.
  destruct (decide (4 ≤ length (drop off data))%nat) as [Hl|Hl].
  - rewrite take_app_add'; [done|]. rewrite length_take. lia.
  - rewrite length_drop in Hl. rewrite (drop_ge _ (off + 4)) by lia. rewrite app_nil_r, take_nil, app_nil_r.
    rewrite take_ge; [done|]. rewrite length_take. lia.
Qed.

Lemma load_u32 lanes data : ∀ off,
  (off + 4 * lanes ≤ length data)%nat →
  load_simd 4 lanes data off = Some (u8_to_u32 (take (4 * lanes) (drop off data))).
Proof.
  induction lanes as [|lanes IH]; intros off H; [done|]. cbn [load_simd].
  rewrite read_le_ok by lia. cbn [mbind option_bind]. rewrite IH by lia. cbn [mbind option_bind].
  replace (4 * S lanes)%nat with (4 + 4 * lanes)%nat by lia.
  rewrite take4_drop, u8_to_u32_cons; [done|]. rewrite length_take, length_drop. lia.
Qed.

Lemma u8_to_u32_zeros n : u8_to_u32 (replicate (4 * n) 0) = replicate n 0.
Proof.
  induction n as [|n IH]; [done|]. replace (4 * S n)%nat with (4 + 4 * n)%nat by lia.
  cbn [Nat.add replicate u8_to_u32]. by rewrite IH.
Qed.

Lemma load_first_u32 lanes data : ∀ off first,
  (first ≤ lanes)%nat → (off + 4 * first ≤ length data)%nat →
  load_simd_first 4 lanes data off first =
    Some (u8_to_u32 (take (4 * first) (drop off data) ++ replicate (4 * (lanes - first)) 0)).
Proof.
  induction lanes as [|lanes IH]; intros off [|first] Hf H; [done|lia| |].
  { rewrite load_first_0, Nat.mul_0_r, take_0. cbn [app]. by rewrite Nat.sub_0_r, u8_to_u32_zeros. }
  cbn [load_simd_first]. change (0 <? S first)%nat with true. cbn [pred].
  rewrite read_le_ok by lia. cbn [mbind option_bind]. rewrite IH by lia. cbn [mbind option_bind].
  replace (4 * S first)%nat with (4 + 4 * first)%nat by lia.
  rewrite take4_drop, <-app_assoc, (u8_to_u32_cons (take 4 _)); [done|].
  rewrite length_take, length_drop. lia.
Qed.
