(* ===== verification/BitKernels.v ===== *)
(** * Distance kernels on packed slices

    Models [diskann-quantization/src/bits/distances.rs]: the squared Euclidean distance and the
    inner product of slices of 1 to 7 bits on every architecture (scalar fallback, x86-64-v3,
    x86-64-v4, Neon) with the dispatch between them, and the Hamming distance.

    - an index is a natural number at most the length of a slice, so index arithmetic does not
      wrap around; a subtraction below zero is [None];
    - [arith]: scalar arithmetic, which panics on overflow in a debug build and wraps around in
      a release build; arithmetic on registers always wraps around;
    - the kernels of one shape share a definition over their block function, the code between
      the loads and the advance of the index. *)

From S2P Require Import Prelude Bytes BitSlice Simd.
Local Open Scope Z_scope.

(** [UnequalLengths] *)
Inductive UnequalLengths := unequal_lengths.

(** [check_lengths!] *)
Definition check_lengths (x y : BitSlice) : result UnequalLengths nat :=
  if negb (bs_len x =? bs_len y) then Err unequal_lengths else Ok (Z.to_nat (bs_len x)).

(** Arithmetic on a type with conversion [wrap]. *)
Definition arith (debug : bool) (wrap : Z → Z) (z : Z) : option Z :=
  if wrap z =? z then Some z else if debug then None else Some (wrap z).

Definition usub (a b : nat) : option nat := if (b <=? a)%nat then Some (a - b)%nat else None.

(** [count_ones] of an integer of [w] bits. *)
Definition count_ones (w : nat) (z : Z) : Z :=
  sumZ (map (λ k, Z.b2z (Z.testbit z k)) (seqZ 0 (Z.of_nat w))).

Abbreviation outcome := (option (result UnequalLengths Z)) (only parsing).

(** ** Vectors of bits *)

(** [BitVectorOp] *)
Record BitVectorOp := mkBitVectorOp { on_u64 : Z → Z → Z; on_u8 : Z → Z → Z }.
Definition SquaredL2_op : BitVectorOp :=
  mkBitVectorOp (λ x y, count_ones 64 (Z.lxor x y)) (λ x y, count_ones 8 (Z.lxor x y)).
Definition Hamming_op : BitVectorOp :=
  mkBitVectorOp (λ x y, count_ones 64 (Z.lxor x y)) (λ x y, count_ones 8 (Z.lxor x y)).
Definition InnerProduct_op : BitVectorOp :=
  mkBitVectorOp (λ x y, count_ones 64 (Z.land x y)) (λ x y, count_ones 8 (Z.land x y)).

Section kernels.
Variable debug : bool.

(** A loop of [bitvector_op] over words of [w] bytes. *)
Fixpoint word_loop (w : nat) (op : Z → Z → Z) (px py : list Z) (blocks fuel i : nat) (s : Z) :
    option (nat * Z) :=
  match fuel with
  | O => None
  | S fuel =>
      if (i <? blocks)%nat then
        vx ← read_le px (w * i) w;
        vy ← read_le py (w * i) w;
        s ← arith debug u32_of (s + op vx vy);
        word_loop w op px py blocks fuel (i + 1) s
      else Some (i, s)
  end.

Definition bitvector_op (op : BitVectorOp) (x y : BitSlice) : outcome :=
  match check_lengths x y with
  | Err e => Some (Err e)
  | Ok len =>
      let px := bs_data x in
      let py := bs_data y in
      '(i, s) ← word_loop 8 (on_u64 op) px py (len / 64) (S len) 0 0;
      '(i, s) ← word_loop 1 (on_u8 op) px py (len / 8) (S len) (i * 8) s;
      s ← (if negb (i * 8 =? len)%nat then
             vx ← read_le px i 1;
             vy ← read_le py i 1;
             k ← usub len (8 * i);
             _ ← rassert (k <? 8)%nat;
             m ← arith debug (as_unsigned 8) (Z.shiftl 1 (Z.of_nat k) mod 2 ^ 8 - 1);
             arith debug u32_of (s + on_u8 op (Z.land vx m) (Z.land vy m))
           else Some s);
      Some (Ok s)
  end.

(** ** Scalar loops *)

Definition l2_term (wrap : Z → Z) (ix iy : Z) : option Z :=
  d ← arith debug wrap (ix - iy); arith debug wrap (d * d).
Definition ip_term (wrap : Z → Z) (ix iy : Z) : option Z := arith debug wrap (ix * iy).

(** [for i in i..i + count]. *)
Fixpoint scalar_loop (N M : nat) (wrap : Z → Z) (term : (Z → Z) → Z → Z → option Z)
    (x y : BitSlice) (i count : nat) (s : Z) : option Z :=
  match count with
  | O => Some s
  | S count =>
      ix ← get_unchecked debug (Unsigned N) (Dense N) x (Z.of_nat i);
      iy ← get_unchecked debug (Unsigned M) (Dense M) y (Z.of_nat i);
      t ← term wrap ix iy;
      s ← arith debug wrap (s + t);
      scalar_loop N M wrap term x y (S i) count s
  end.

(** [impl_fallback_l2!] *)
Definition squared_l2_scalar (N : nat) (x y : BitSlice) : outcome :=
  match check_lengths x y with
  | Err e => Some (Err e)
  | Ok len => accum ← scalar_loop N N i32_of l2_term x y 0 len 0; Some (Ok (u32_of accum))
  end.

(** [impl_fallback_ip!] *)
Definition inner_product_scalar (N M : nat) (x y : BitSlice) : outcome :=
  match check_lengths x y with
  | Err e => Some (Err e)
  | Ok len => accum ← scalar_loop N M u32_of ip_term x y 0 len 0; Some (Ok accum)
  end.

(** The local [fallback] functions of the kernels: from an index to the end. *)
Definition fallback (N M : nat) (wrap : Z → Z) (term : (Z → Z) → Z → Z → option Z)
    (x y : BitSlice) (from : nat) : option Z :=
  s ← scalar_loop N M wrap term x y from (Z.to_nat (bs_len x) - from) 0; Some (u32_of s).

(** ** Blocks *)

(** The steps of a block, on the masked registers of both arguments. *)
Definition l2_i16 (s vx vy : list Z) : list Z :=
  let wx := u32_to_i16 vx in
  let wy := u32_to_i16 vy in
  let d := simd_sub i16_of wx wy in
  dot_simd_i16 s d d.
Definition ip_i16 (s vx vy : list Z) : list Z := dot_simd_i16 s (u32_to_i16 vx) (u32_to_i16 vy).
Definition ip_u8 (s vx vy : list Z) : list Z := dot_simd_8 i32_of s (u32_to_u8 vx) (u32_to_i8 vy).
Definition ip_neon (s vx vy : list Z) : list Z := dot_simd_8 u32_of s vx vy.

Definition acc2 : Type := list Z * list Z.
Definition acc4 : Type := list Z * list Z * list Z * list Z.

Section block.
Variables (w : Z) (mask : list Z) (op : list Z → list Z → list Z → list Z) (vx vy : list Z).

(** One step: shift both registers, mask them, accumulate. *)
Definition step (sh : Z) (s : list Z) : list Z :=
  op s (simd_and (simd_shr w vx sh) mask) (simd_and (simd_shr w vy sh) mask).
Definition step0 (s : list Z) : list Z := op s (simd_and vx mask) (simd_and vy mask).

(** 4-bit values in 16-bit lanes. *)
Definition block_4 (acc : acc4) : acc4 :=
  let '(s0, s1, s2, s3) := acc in (step0 s0, step 4 s1, step 8 s2, step 12 s3).

(** 2-bit values in 16-bit lanes. *)
Definition block_2 (acc : acc4) : acc4 :=
  let '(s0, s1, s2, s3) := acc in
  let s0 := step0 s0 in let s1 := step 2 s1 in let s2 := step 4 s2 in let s3 := step 6 s3 in
  (step 8 s0, step 10 s1, step 12 s2, step 14 s3).

(** 2-bit values in 8-bit lanes. *)
Definition block_2_u8 (acc : acc4) : acc4 :=
  let '(s0, s1, s2, s3) := acc in (step0 s0, step 2 s1, step 4 s2, step 6 s3).

(** 4-bit values in 8-bit lanes. *)
Definition block_4_u8 (acc : acc2) : acc2 :=
  let '(s0, s1) := acc in (step0 s0, step 4 s1).

End block.

(** [((s0 + s1) + (s2 + s3)).sum_tree()] and [(s0 + s1).sum_tree()], as [u32]. *)
Definition finish4 (wrap : Z → Z) (k : nat) (acc : acc4) : Z :=
  let '(s0, s1, s2, s3) := acc in
  u32_of (sum_tree wrap k (simd_add wrap (simd_add wrap s0 s1) (simd_add wrap s2 s3))).
Definition finish2 (wrap : Z → Z) (k : nat) (acc : acc2) : Z :=
  let '(s0, s1) := acc in u32_of (sum_tree wrap k (simd_add wrap s0 s1)).

Definition zero4 (lanes : nat) : acc4 :=
  (splat lanes 0, splat lanes 0, splat lanes 0, splat lanes 0).
Definition zero2 (lanes : nat) : acc2 := (splat lanes 0, splat lanes 0).

(** ** Kernels *)

Section shape.
Context {A : Type} (block : list Z → list Z → A → A) (init : A) (finish : A → Z).

(** [while i + lanes < blocks]: a register of [u32] lanes at a time. *)
Fixpoint u32_loop (lanes : nat) (px py : list Z) (blocks fuel i : nat) (acc : A) :
    option (nat * A) :=
  match fuel with
  | O => None
  | S fuel =>
      if (i + lanes <? blocks)%nat then
        vx ← load_simd 4 lanes px (4 * i);
        vy ← load_simd 4 lanes py (4 * i);
        u32_loop lanes px py blocks fuel (i + lanes) (block vx vy acc)
      else Some (i, acc)
  end.

(** The x86-64-v3 kernels; [per] values in a [u32]. *)
Definition v3_kernel (per : nat) (fallback : BitSlice → BitSlice → nat → option Z)
    (x y : BitSlice) : outcome :=
  match check_lengths x y with
  | Err e => Some (Err e)
  | Ok len =>
      let px := bs_data x in
      let py := bs_data y in
      let blocks := (len / per)%nat in
      '(i, s) ← (if (0 <? blocks)%nat then
          '(i, acc) ← u32_loop 8 px py blocks (S blocks) 0 init;
          remainder ← usub blocks i;
          vx ← load_simd_first 4 8 px (4 * i) remainder;
          vy ← load_simd_first 4 8 py (4 * i) remainder;
          Some ((i + remainder)%nat, finish (block vx vy acc))
        else Some (0%nat, 0));
      let i := (i * per)%nat in
      s ← (if negb (i =? len)%nat
           then f ← fallback x y i; arith debug u32_of (s + f) else Some s);
      Some (Ok s)
  end.

(** The predicated load of [remainder] bytes from [u32] number [i] on, as 16 [u32] lanes. *)
Definition load_rest (p : list Z) (i remainder : nat) : option (list Z) :=
  v ← load_simd_first 1 64 p (4 * i) remainder; Some (u8_to_u32 v).

(** The x86-64-v4 kernels of 4-bit values: at most one value is left. *)
Definition v4_kernel_4 (wrap : Z → Z) (term : (Z → Z) → Z → Z → option Z) (x y : BitSlice) :
    outcome :=
  match check_lengths x y with
  | Err e => Some (Err e)
  | Ok len =>
      let px := bs_data x in
      let py := bs_data y in
      let blocks := ((len + 7) / 8)%nat in
      '(i, s) ← (if (0 <? blocks)%nat then
          '(i, acc) ← u32_loop 16 px py blocks (S blocks) 0 init;
          remainder ← usub (len / 2) (4 * i);
          acc ← (if (0 <? remainder)%nat then
                   vx ← load_rest px i remainder;
                   vy ← load_rest py i remainder;
                   Some (block vx vy acc)
                 else Some acc);
          Some ((4 * i + remainder)%nat, finish acc)
        else Some (0%nat, 0));
      let i := (i * 2)%nat in
      _ ← (if debug then rest ← usub len i; rassert (rest <=? 1)%nat else Some tt);
      s ← (if negb (i =? len)%nat then
             ix ← get_unchecked debug (Unsigned 4) (Dense 4) x (Z.of_nat i);
             iy ← get_unchecked debug (Unsigned 4) (Dense 4) y (Z.of_nat i);
             t ← term wrap ix iy;
             arith debug u32_of (s + u32_of t)
           else Some s);
      Some (Ok s)
  end.

(** The x86-64-v4 kernel of 2-bit values: at most three values are left. *)
Definition v4_kernel_2 (x y : BitSlice) : outcome :=
  match check_lengths x y with
  | Err e => Some (Err e)
  | Ok len =>
      let px := bs_data x in
      let py := bs_data y in
      let blocks := ((len + 15) / 16)%nat in
      '(i, s) ← (if (0 <? blocks)%nat then
          '(i, acc) ← u32_loop 16 px py blocks (S blocks) 0 init;
          remainder ← usub (len / 4) (4 * i);
          vx ← load_rest px i remainder;
          vy ← load_rest py i remainder;
          Some ((4 * i + remainder)%nat, finish (block vx vy acc))
        else Some (0%nat, 0));
      let i := (i * 4)%nat in
      rest ← usub len i;
      _ ← debug_assert debug (Z.of_nat rest <=? 3);
      let rest := Nat.min rest 3 in
      s ← (if negb (i =? len)%nat then scalar_loop 2 2 u32_of ip_term x y i rest s else Some s);
      Some (Ok s)
  end.

(** [while i + 16 <= bytes]: a register of bytes at a time. *)
Fixpoint neon_loop (px py : list Z) (bytes fuel i : nat) (acc : A) : option (nat * A) :=
  match fuel with
  | O => None
  | S fuel =>
      if (i + 16 <=? bytes)%nat then
        x_vec ← load_simd 1 16 px i;
        y_vec ← load_simd 1 16 py i;
        neon_loop px py bytes fuel (i + 16) (block x_vec y_vec acc)
      else Some (i, acc)
  end.

(** The Neon kernels; [per] values in a byte, [remaining] bounds the last load, [tail] handles
    what is left. *)
Definition neon_kernel (per : nat) (remaining : nat → nat)
    (tail : BitSlice → BitSlice → nat → Z → option Z) (x y : BitSlice) : outcome :=
  match check_lengths x y with
  | Err e => Some (Err e)
  | Ok len =>
      let px := bs_data x in
      let py := bs_data y in
      let bytes := (len / per)%nat in
      '(i, s) ← (if (0 <? bytes)%nat then
          '(i, acc) ← neon_loop px py bytes (S bytes) 0 init;
          remaining_bytes ← usub bytes i;
          '(i, acc) ← (if (0 <? remaining_bytes)%nat then
                   x_vec ← load_simd_first 1 16 px i (remaining remaining_bytes);
                   y_vec ← load_simd_first 1 16 py i (remaining remaining_bytes);
                   Some ((i + remaining_bytes)%nat, block x_vec y_vec acc)
                 else Some (i, acc));
          Some (i, finish acc)
        else Some (0%nat, 0));
      let i := (i * per)%nat in
      _ ← (if debug then rest ← usub len i; rassert (rest <=? per - 1)%nat else Some tt);
      s ← (if negb (i =? len)%nat then tail x y i s else Some s);
      Some (Ok s)
  end.

End shape.

(** [SquaredL2] *)
Definition squared_l2_v3_4 : BitSlice → BitSlice → outcome :=
  v3_kernel (block_4 32 (splat 8 0x000f000f) l2_i16) (zero4 8) (finish4 i32_of 3) 8
    (fallback 4 4 i32_of l2_term).
Definition squared_l2_v4_4 : BitSlice → BitSlice → outcome :=
  v4_kernel_4 (block_4 32 (splat 16 0x000f000f) l2_i16) (zero4 16) (finish4 i32_of 4)
    i32_of l2_term.
Definition squared_l2_v3_2 : BitSlice → BitSlice → outcome :=
  v3_kernel (block_2 32 (splat 8 0x00030003) l2_i16) (zero4 8) (finish4 i32_of 3) 16
    (fallback 2 2 i32_of l2_term).

(** [InnerProduct] *)
Definition inner_product_v4_2 : BitSlice → BitSlice → outcome :=
  v4_kernel_2 (block_2_u8 32 (splat 16 0x03030303) ip_u8) (zero4 16) (finish4 i32_of 4).
Definition inner_product_v3_4 : BitSlice → BitSlice → outcome :=
  v3_kernel (block_4 32 (splat 8 0x000f000f) ip_i16) (zero4 8) (finish4 i32_of 3) 8
    (fallback 4 4 u32_of ip_term).
Definition inner_product_v4_4 : BitSlice → BitSlice → outcome :=
  v4_kernel_4 (block_4_u8 32 (splat 16 0x0f0f0f0f) ip_u8) (zero2 16) (finish2 i32_of 4)
    u32_of ip_term.
Definition inner_product_v3_2 : BitSlice → BitSlice → outcome :=
  v3_kernel (block_2 32 (splat 8 0x00030003) ip_i16) (zero4 8) (finish4 i32_of 3) 16
    (fallback 2 2 u32_of ip_term).
Definition inner_product_neon_4 : BitSlice → BitSlice → outcome :=
  neon_kernel (block_4_u8 8 (splat 16 0x0f) ip_neon) (zero2 4) (finish2 u32_of 2) 2
    (λ b, Nat.min b 16)
    (λ x y i s,
       ix ← get_unchecked debug (Unsigned 4) (Dense 4) x (Z.of_nat i);
       iy ← get_unchecked debug (Unsigned 4) (Dense 4) y (Z.of_nat i);
       t ← ip_term i32_of ix iy;
       arith debug u32_of (s + u32_of t)).
Definition inner_product_neon_2 : BitSlice → BitSlice → outcome :=
  neon_kernel (block_2_u8 8 (splat 16 0x03) ip_neon) (zero4 4) (finish4 u32_of 2) 4
    (λ b, b)
    (λ x y i s, f ← fallback 2 2 i32_of ip_term x y i; arith debug u32_of (s + f)).

(** ** Dispatch *)

Inductive Arch := Scalar | V3 | V4 | Neon.

(** [Target2::run] of [SquaredL2]; [retarget!] sends x86-64-v4 to x86-64-v3 and the others to the
    scalar code. Slices of 8 bits go to the distances on byte slices and are not modelled. *)
Definition squared_l2_v3 (N : nat) : BitSlice → BitSlice → outcome :=
  match N with
  | 4%nat => squared_l2_v3_4
  | 2%nat => squared_l2_v3_2
  | _ => squared_l2_scalar N
  end.

Definition squared_l2 (arch : Arch) (N : nat) : BitSlice → BitSlice → outcome :=
  match N, arch with
  | 1%nat, _ => bitvector_op SquaredL2_op
  | _, Scalar | _, Neon => squared_l2_scalar N
  | _, V3 => squared_l2_v3 N
  | 4%nat, V4 => squared_l2_v4_4
  | _, V4 => squared_l2_v3 N
  end.

(** [Target2::run] of [InnerProduct] on slices of the same width. *)
Definition inner_product (arch : Arch) (N : nat) : BitSlice → BitSlice → outcome :=
  match N, arch with
  | 1%nat, _ => bitvector_op InnerProduct_op
  | 2%nat, V3 => inner_product_v3_2
  | 2%nat, V4 => inner_product_v4_2
  | 2%nat, Neon => inner_product_neon_2
  | 4%nat, V3 => inner_product_v3_4
  | 4%nat, V4 => inner_product_v4_4
  | 4%nat, Neon => inner_product_neon_4
  | _, _ => inner_product_scalar N N
  end.

(** [Hamming] *)
Definition hamming (x y : BitSlice) : outcome := bitvector_op Hamming_op x y.

End kernels.
