(* ===== verification/BitBlocks.v ===== *)
(** * Values in registers

    The lemmas on the blocks of [BitKernels]: which values of a packed slice a register holds
    and what a block adds to the accumulators of a kernel.

    - [vals] and [elems]: the values in a byte string and in a byte; a run of whole bytes holds
      the values of its bytes;
    - [Step] and [Block]: the contracts of a step of a block (shift, mask, accumulate) and of a
      block, with an instance per kernel. *)

From S2P Require Import Prelude Bytes BitSlice Simd BitKernels.
Local Open Scope Z_scope.

(** ** Values of a slice *)

(** The values of a slice, read through its checked interface. *)
Definition values (r : Representation) (p : PermutationStrategy) (s : BitSlice) : list Z :=
  omap (λ i, match slice_get false r p s i with Some (Ok v) => Some v | _ => None end)
    (seqZ 0 (bs_len s)).

(** Values number [0] to [k] of [N] bits of a byte string. *)
Definition vals (N : nat) (data : list Z) (k : nat) : list Z :=
  map (λ i, field (Z.of_nat N) (Z.of_nat N * i) (le data)) (seqZ 0 (Z.of_nat k)).

Lemma length_vals N data k : length (vals N data k) = k.
Proof. unfold vals. rewrite length_map, length_seqZ. lia. Qed.

Lemma omap_all {A B} (f : A → option B) (g : A → B) l :
  (∀ x, x ∈ l → f x = Some (g x)) → omap f l = map g l.
Proof.
  induction l as [|x l IH]; intros H; [done|]. cbn. rewrite H by (by left).
  f_equal. apply IH. intros. apply H. by right.
Qed.

Lemma vals_app N data a b :
  vals N data (a + b) = vals N data a ++
    map (λ i, field (Z.of_nat N) (Z.of_nat N * (Z.of_nat a + i)) (le data)) (seqZ 0 (Z.of_nat b)).
Proof.
  unfold vals. rewrite Nat2Z.inj_add, seqZ_app, map_app by lia. f_equal.
  rewrite Z.add_comm, <-fmap_add_seqZ. apply map_map.
Qed.

Lemma take_vals N data a b : (a ≤ b)%nat → take a (vals N data b) = vals N data a.
Proof.
  intros H. replace b with (a + (b - a))%nat by lia. rewrite vals_app, take_app_length'; [done|].
  by rewrite length_vals.
Qed.

Section value.
Variable N : nat.
Hypothesis HN : (1 ≤ N ≤ 8)%nat.

Lemma get_dense debug s i :
  slice_wf N (Dense N) s → 0 ≤ i < bs_len s →
  get_unchecked debug (Unsigned N) (Dense N) s i =
    Some (field (Z.of_nat N) (Z.of_nat N * i) (le (bs_data s))).
Proof using HN.
  intros Hs Hi. unfold get_unchecked. rewrite debug_assert_true by (apply Z.ltb_lt; lia).
  cbn [mbind option_bind perm_unpack Dense]. rewrite (dense_unpack_field N HN debug _ (bs_len s)) by done.
  cbn [mbind option_bind repr_decode Unsigned]. rewrite debug_assert_true; [done|].
  pose proof (field_bound (Z.of_nat N) (Z.of_nat N * i) (le (bs_data s)) ltac:(lia)).
  rewrite (proj2 (Z.leb_le _ _)), (proj2 (Z.leb_le _ _)) by lia. done.
Qed.

Lemma values_dense s :
  slice_wf N (Dense N) s → values (Unsigned N) (Dense N) s = vals N (bs_data s) (Z.to_nat (bs_len s)).
Proof using HN.
  intros Hs. unfold values, vals. pose proof (proj1 (proj2 Hs)) as H0. rewrite Z2Nat.id by done.
  apply omap_all. intros i Hi%elem_of_seqZ. unfold slice_get.
  rewrite (proj2 (Z.leb_gt _ _)), get_dense by (done || lia). done.
Qed.

Lemma dense_length s :
  slice_wf N (Dense N) s → Z.of_nat (length (bs_data s)) = (Z.of_nat N * bs_len s + 7) / 8.
Proof using HN.
  intros (Hb & Hc & Hov & Hlen). specialize (Hlen false). cbn in Hlen. unfold dense_bytes, umul in Hlen.
  rewrite (proj2 (Z.ltb_lt _ _)) in Hlen by lia. cbn in Hlen. injection Hlen as <-.
  unfold div_round_up. destruct (Z.eqb_spec ((Z.of_nat N * bs_len s) mod 8) 0); dlia.
Qed.

End value.

(** ** Values in bytes *)

Lemma byte_field data m b :
  bytes_ok data → data !! m = Some b → b = field 8 (8 * Z.of_nat m) (le data).
Proof.
  intros Hd Hm. assert (m < length data)%nat by (by eapply lookup_lt_Some).
  pose proof (read_le_field data m 1 Hd ltac:(lia)) as Hr.
  rewrite read_le_ok in Hr by lia. destruct (take1_drop data m) as (x & Hx & Hd'); [done|].
  rewrite Hx, le_single in Hr. injection Hr as Hr. change (8 * Z.of_nat 1) with 8 in Hr. rewrite <-Hr.
  rewrite (drop_S data b m Hm) in Hd'. congruence.
Qed.

Section elems.
Variables N q : nat.
Hypothesis Hq : (N * q = 8)%nat.

Definition elems (b : Z) : list Z := vals N [b] q.

Lemma length_elems b : length (elems b) = q.
Proof. apply length_vals. Qed.

(** Whole bytes hold the values of the bytes. *)
Lemma vals_bytes data m :
  bytes_ok data → (m ≤ length data)%nat → vals N data (q * m) = take m data ≫= elems.
Proof using Hq.
  intros Hd. induction m as [|m IH]; intros Hm; [by rewrite Nat.mul_0_r|].
  destruct (lookup_lt_is_Some_2 data m Hm) as [b Hb].
  rewrite (take_S_r _ _ _ Hb), bind_app, <-IH by lia. cbn [mbind list_bind]. rewrite app_nil_r.
  rewrite Nat.mul_succ_r, vals_app. f_equal. apply map_ext_in. intros i Hi%list_elem_of_In%elem_of_seqZ.
  rewrite (byte_field data m b Hd Hb), le_single, field_field by nia. f_equal. nia.
Qed.

End elems.

(** ** The steps of the blocks *)

Definition sq (x y : Z) : Z := (x - y) * (x - y).

(** The fields of [n] bits of a word at the positions [pos], after a shift by [sh]. *)
Definition pick (n : Z) (pos : list Z) (sh x : Z) : list Z := map (λ p, field n (p + sh) x) pos.

Definition masked (mask sh : Z) (v : list Z) : list Z := map (λ x, Z.land (Z.shiftr x sh) mask) v.

Lemma simd_masked w v sh lanes mask :
  length v = lanes → sh < w → simd_and (simd_shr w v sh) (splat lanes mask) = masked mask sh v.
Proof.
  intros <- Hsh. induction v as [|x v IH]; [done|]. cbn in *. f_equal; [|done].
  unfold expected_shr. by rewrite (proj2 (Z.leb_gt _ _)).
Qed.

Lemma simd_masked0 v lanes mask :
  length v = lanes → simd_and v (splat lanes mask) = masked mask 0 v.
Proof.
  intros <-. induction v as [|x v IH]; [done|]. cbn in *. rewrite Z.shiftr_0_r. by f_equal.
Qed.

(** A mask that repeats [n] ones every [W] bits selects fields of [n] bits. *)
Lemma masked_field W n pos mask sh x :
  0 ≤ n ≤ W → 0 ≤ pos → 0 ≤ sh → field W pos mask = Z.ones n →
  field W pos (Z.land (Z.shiftr x sh) mask) = field n (pos + sh) x.
Proof.
  intros Hn Hp Hs Hm. apply Z.bits_inj'. intros k Hk.
  rewrite !testbit_field by lia. rewrite Z.land_spec, Z.shiftr_spec by lia.
  assert ((k <? W) && Z.testbit mask (pos + k) = (k <? n)) as Hmk.
  { rewrite <-testbit_field, Hm, Z.testbit_ones_nonneg by lia. done. }
  replace (pos + k + sh) with (pos + sh + k) by lia.
  rewrite (andb_comm (Z.testbit x _)), andb_assoc, Hmk. done.
Qed.

Lemma u16_fields x : 0 ≤ x < 2 ^ 32 → [x mod 2 ^ 16; x / 2 ^ 16] = [field 16 0 x; field 16 16 x].
Proof.
  intros Hx. unfold field. change (2 ^ 0) with 1. rewrite Z.div_1_r.
  rewrite (Z.mod_small (x / 2 ^ 16)); [done|]. dlia.
Qed.

Lemma u8_fields x : to_le 4 x = [field 8 0 x; field 8 8 x; field 8 16 x; field 8 24 x].
Proof.
  cbn [to_le]. unfold field. change (2 ^ 0) with 1. rewrite !Z.div_div, Z.div_1_r by lia. done.
Qed.

Lemma bind_ext_in {A B} (f g : A → list B) l : (∀ x, x ∈ l → f x = g x) → l ≫= f = l ≫= g.
Proof.
  induction l as [|x l IH]; intros H; [done|]. rewrite !bind_cons, H by (by left). f_equal.
  apply IH. intros. apply H. by right.
Qed.

Lemma bind_map {A B C} (f : A → B) (g : B → list C) l : map f l ≫= g = l ≫= (g ∘ f).
Proof. induction l as [|x l IH]; [done|]. cbn [map]. by rewrite !bind_cons, IH. Qed.

Section i16.
Variables n mask sh : Z.
Hypothesis Hn : 0 ≤ n ≤ 8.
Hypothesis Hsh : 0 ≤ sh.
Hypothesis Hmask : 0 ≤ mask < 2 ^ 32.
Hypothesis H0 : field 16 0 mask = Z.ones n.
Hypothesis H1 : field 16 16 mask = Z.ones n.

Lemma small_field pos x : 0 ≤ field n pos x < 256.
Proof using Hn.
  pose proof (field_bound n pos x ltac:(lia)). assert (2 ^ n ≤ 2 ^ 8) by (apply Z.pow_le_mono_r; lia).
  lia.
Qed.

Lemma i16_masked v : u32_to_i16 (masked mask sh v) = v ≫= pick n [0; 16] sh.
Proof using All.
  unfold u32_to_i16, masked. rewrite bind_map. apply bind_ext_in. intros x _. unfold compose.
  pose proof (land_bound 32 (Z.shiftr x sh) mask ltac:(lia) Hmask) as Hb.
  pose proof (u16_fields _ Hb) as [= -> ->].
  rewrite (masked_field 16 n 0), (masked_field 16 n 16) by (done || lia).
  pose proof (small_field (0 + sh) x). pose proof (small_field (16 + sh) x).
  rewrite !as_signed_small by lia. done.
Qed.

Lemma l2_i16_step lanes s vx vy :
  length s = lanes → length vx = lanes → length vy = lanes →
  length (l2_i16 s (masked mask sh vx) (masked mask sh vy)) = lanes ∧
  sumZ (l2_i16 s (masked mask sh vx) (masked mask sh vy)) ≡₃₂
    sumZ s + sum2 (λ x y, sum2 sq (pick n [0; 16] sh x) (pick n [0; 16] sh y)) vx vy.
Proof using All.
  intros Hs Hx Hy. unfold l2_i16. rewrite !i16_masked.
  set (wx := vx ≫= _). set (wy := vy ≫= _).
  assert (length wx = 2 * lanes ∧ length wy = 2 * lanes)%nat as [Lx Ly].
  { unfold wx, wy. rewrite !(length_flat _ 2) by done. lia. }
  set (d := simd_sub _ wx wy). assert (length d = 2 * lanes)%nat as Ld.
  { unfold d, simd_sub. rewrite length_zip_with. lia. }
  destruct (dot_i16_sum lanes s d d Hs Ld Ld) as [HL HS]. split; [done|]. rewrite HS. unfold d.
  rewrite sum2_sub.
  - unfold wx, wy. rewrite (sum2_flat _ _ _ 2) by (done || lia). done.
  - intros x y Hx' Hy'. unfold wx, wy, pick in Hx', Hy'.
    apply list_elem_of_bind in Hx' as (a & (p & -> & _)%list_elem_of_fmap & _).
    apply list_elem_of_bind in Hy' as (b & (p' & -> & _)%list_elem_of_fmap & _).
    pose proof (small_field (p + sh) a). pose proof (small_field (p' + sh) b).
    apply as_signed_small; lia.
Qed.

Lemma ip_i16_step lanes s vx vy :
  length s = lanes → length vx = lanes → length vy = lanes →
  length (ip_i16 s (masked mask sh vx) (masked mask sh vy)) = lanes ∧
  sumZ (ip_i16 s (masked mask sh vx) (masked mask sh vy)) ≡₃₂
    sumZ s + sum2 (λ x y, sum2 Z.mul (pick n [0; 16] sh x) (pick n [0; 16] sh y)) vx vy.
Proof using All.
  intros Hs Hx Hy. unfold ip_i16. rewrite !i16_masked.
  destruct (dot_i16_sum lanes s (vx ≫= pick n [0; 16] sh) (vy ≫= pick n [0; 16] sh)) as [HL HS];
    [done|rewrite (length_flat _ 2) by done; lia..|].
  split; [done|]. rewrite HS. by rewrite (sum2_flat _ _ _ 2) by (done || lia).
Qed.

End i16.

Section u8.
Variables n mask sh : Z.
Hypothesis Hn : 0 ≤ n ≤ 7.
Hypothesis Hsh : 0 ≤ sh.

(** The four bytes of [u32] lanes. *)
Lemma u8_masked v :
  Forall (λ p, field 8 p mask = Z.ones n) [0; 8; 16; 24] →
  u32_to_u8 (masked mask sh v) = v ≫= pick n [0; 8; 16; 24] sh.
Proof using All.
  intros Hm. unfold u32_to_u8, masked. rewrite bind_map. apply bind_ext_in. intros x _.
  unfold compose. rewrite u8_fields. unfold pick. cbn [map].
  inversion_clear Hm as [|?? M0 Hm1]. inversion_clear Hm1 as [|?? M1 Hm2].
  inversion_clear Hm2 as [|?? M2 Hm3]. inversion_clear Hm3 as [|?? M3 _].
  by rewrite !(masked_field 8 n) by (done || lia).
Qed.

Lemma i8_masked v :
  Forall (λ p, field 8 p mask = Z.ones n) [0; 8; 16; 24] →
  u32_to_i8 (masked mask sh v) = v ≫= pick n [0; 8; 16; 24] sh.
Proof using All.
  intros Hm. unfold u32_to_i8. rewrite u8_masked by done. rewrite <-map_id. apply map_ext_in.
  intros x (a & (p & -> & _)%list_elem_of_fmap & _)%list_elem_of_In%list_elem_of_bind.
  pose proof (field_bound n (p + sh) a ltac:(lia)).
  assert (2 ^ n ≤ 2 ^ 7) by (apply Z.pow_le_mono_r; lia). apply as_signed_small; lia.
Qed.

Lemma ip_u8_step lanes s vx vy :
  Forall (λ p, field 8 p mask = Z.ones n) [0; 8; 16; 24] →
  length s = lanes → length vx = lanes → length vy = lanes →
  length (ip_u8 s (masked mask sh vx) (masked mask sh vy)) = lanes ∧
  sumZ (ip_u8 s (masked mask sh vx) (masked mask sh vy)) ≡₃₂ sumZ s +
    sum2 (λ x y, sum2 Z.mul (pick n [0; 8; 16; 24] sh x) (pick n [0; 8; 16; 24] sh y)) vx vy.
Proof using All.
  intros Hm Hs Hx Hy. unfold ip_u8. rewrite u8_masked, i8_masked by done.
  destruct (dot_8_sum (as_signed 32) lanes s (vx ≫= pick n [0; 8; 16; 24] sh)
    (vy ≫= pick n [0; 8; 16; 24] sh)) as [HL HS];
    [done|rewrite (length_flat _ 4) by done; lia..|].
  split; [done|]. rewrite HS. by rewrite (sum2_flat _ _ _ 4) by (done || lia).
Qed.

(** Byte lanes. *)
Lemma ip_neon_step lanes s vx vy :
  mask = Z.ones n → bytes_ok vx → bytes_ok vy →
  length s = lanes → length vx = (4 * lanes)%nat → length vy = (4 * lanes)%nat →
  length (ip_neon s (masked mask sh vx) (masked mask sh vy)) = lanes ∧
  sumZ (ip_neon s (masked mask sh vx) (masked mask sh vy)) ≡₃₂ sumZ s +
    sum2 (λ x y, sum2 Z.mul (pick n [0] sh x) (pick n [0] sh y)) vx vy.
Proof using All.
  intros -> Bx By Hs Hx Hy. unfold ip_neon.
  assert (∀ v, masked (Z.ones n) sh v = v ≫= pick n [0] sh) as Hp.
  { intros v. unfold masked. induction v as [|x v IH]; [done|]. cbn [map]. rewrite bind_cons, IH.
    by rewrite land_ones_field by lia. }
  rewrite !Hp. destruct (dot_8_sum (as_unsigned 32) lanes s (vx ≫= pick n [0] sh)
    (vy ≫= pick n [0] sh)) as [HL HS]; [done|rewrite (length_flat _ 1) by done; lia..|].
  split; [done|]. rewrite HS. by rewrite (sum2_flat _ _ _ 1) by (done || lia).
Qed.

End u8.

(** ** Blocks *)

Definition total4 (acc : acc4) : Z :=
  let '(s0, s1, s2, s3) := acc in sumZ s0 + sumZ s1 + sumZ s2 + sumZ s3.
Definition lanes4 (lanes : nat) (acc : acc4) : Prop :=
  let '(s0, s1, s2, s3) := acc in
  length s0 = lanes ∧ length s1 = lanes ∧ length s2 = lanes ∧ length s3 = lanes.
Definition total2 (acc : acc2) : Z := let '(s0, s1) := acc in sumZ s0 + sumZ s1.
Definition lanes2 (lanes : nat) (acc : acc2) : Prop :=
  let '(s0, s1) := acc in length s0 = lanes ∧ length s1 = lanes.

(** The contract of a block function over [width] bytes, seen as lanes through [view]: it adds
    the sum of [g] over the values in those bytes to the accumulators. *)
Record Block {A} (N q width : nat) (g : Z → Z → Z) (view : list Z → list Z)
    (block : list Z → list Z → A → A) (init : A) (finish : A → Z)
    (total : A → Z) (ok : A → Prop) : Prop := {
  block_init : ok init ∧ total init = 0;
  block_step : ∀ bx by' acc, ok acc → bytes_ok bx → bytes_ok by' →
    length bx = width → length by' = width →
    ok (block (view bx) (view by') acc) ∧
    total (block (view bx) (view by') acc) ≡₃₂
      total acc + sum2 g (bx ≫= elems N q) (by' ≫= elems N q);
  block_finish : ∀ acc, ok acc → finish acc = total acc mod 2 ^ 32;
}.

Lemma sumZ_zero lanes : sumZ (splat lanes 0) = 0.
Proof. induction lanes as [|lanes IH]; [done|]. exact IH. Qed.

Lemma zero4_ok lanes : lanes4 lanes (zero4 lanes) ∧ total4 (zero4 lanes) = 0.
Proof.
  unfold zero4, lanes4, total4. rewrite sumZ_zero. unfold splat. by rewrite length_replicate.
Qed.
Lemma zero2_ok lanes : lanes2 lanes (zero2 lanes) ∧ total2 (zero2 lanes) = 0.
Proof.
  unfold zero2, lanes2, total2. rewrite sumZ_zero. unfold splat. by rewrite length_replicate.
Qed.

Lemma finish4_ok wrap `{!Wrap32 wrap} k acc :
  lanes4 (2 ^ k) acc → finish4 wrap k acc = total4 acc mod 2 ^ 32.
Proof.
  destruct acc as [[[s0 s1] s2] s3]. intros (H0 & H1 & H2 & H3). cbn [finish4 total4].
  unfold as_unsigned. change (?a mod 2 ^ 32 = ?b mod 2 ^ 32) with (a ≡₃₂ b).
  assert (length (simd_add wrap s0 s1) = (2 ^ k)%nat ∧ length (simd_add wrap s2 s3) = (2 ^ k)%nat)
    as [L1 L2] by (split; rewrite length_simd_add; lia).
  rewrite sum_tree_sum by (done || (rewrite length_simd_add; lia)).
  rewrite !sum_simd_add by (done || lia). by rewrite Z.add_assoc.
Qed.

Lemma finish2_ok wrap `{!Wrap32 wrap} k acc :
  lanes2 (2 ^ k) acc → finish2 wrap k acc = total2 acc mod 2 ^ 32.
Proof.
  destruct acc as [s0 s1]. intros (H0 & H1). cbn [finish2 total2].
  unfold as_unsigned. change (?a mod 2 ^ 32 = ?b mod 2 ^ 32) with (a ≡₃₂ b).
  rewrite sum_tree_sum by (done || (rewrite length_simd_add; lia)).
  by rewrite !sum_simd_add by (done || lia).
Qed.

(** The values of the words are those of their bytes. *)
Lemma sum2_words N q g (n : nat) : (N * q = 8)%nat → ∀ bx by',
  bytes_ok bx → bytes_ok by' → length bx = (4 * n)%nat → length by' = (4 * n)%nat →
  sum2 (λ x y, sum2 g (map (λ i, field (Z.of_nat N) (Z.of_nat N * i) x) (seqZ 0 (Z.of_nat (q * 4))))
                 (map (λ i, field (Z.of_nat N) (Z.of_nat N * i) y) (seqZ 0 (Z.of_nat (q * 4)))))
    (u8_to_u32 bx) (u8_to_u32 by') = sum2 g (bx ≫= elems N q) (by' ≫= elems N q).
Proof.
  intros Hq. induction n as [|n IH]; intros [|x0 [|x1 [|x2 [|x3 bx]]]] [|y0 [|y1 [|y2 [|y3 by']]]]
    Bx By Lx Ly; try done; cbn in Lx, Ly; try lia.
  change (x0 :: x1 :: x2 :: x3 :: bx) with ([x0; x1; x2; x3] ++ bx) in *.
  change (y0 :: y1 :: y2 :: y3 :: by') with ([y0; y1; y2; y3] ++ by') in *.
  apply Forall_app in Bx as [Bx0 Bx]. apply Forall_app in By as [By0 By].
  rewrite !u8_to_u32_cons, sum2_cons, IH by (done || lia). rewrite !bind_app.
  rewrite sum2_app by (rewrite !(length_flat _ q); [done|apply length_elems..]). f_equal.
  pose proof (vals_bytes N q Hq [x0; x1; x2; x3] 4 Bx0 ltac:(done)) as Ex.
  pose proof (vals_bytes N q Hq [y0; y1; y2; y3] 4 By0 ltac:(done)) as Ey.
  rewrite firstn_all2 in Ex, Ey by done. rewrite <-Ex, <-Ey. done.
Qed.

(** The contract of a step, on registers of [L] lanes and accumulators of [La]. *)
Class Step (op : list Z → list Z → list Z → list Z) (n : Z) (g : Z → Z → Z) (pos : list Z)
    (mask : Z) (L La : nat) (okv : list Z → Prop) : Prop :=
  step_law : ∀ sh s vx vy, 0 ≤ sh → length s = La → length vx = L → length vy = L →
    okv vx → okv vy →
    length (op s (masked mask sh vx) (masked mask sh vy)) = La ∧
    sumZ (op s (masked mask sh vx) (masked mask sh vy)) ≡₃₂
      sumZ s + sum2 (λ x y, sum2 g (pick n pos sh x) (pick n pos sh y)) vx vy.

#[export] Instance l2_i16_law n mask lanes :
  0 ≤ n ≤ 8 → 0 ≤ mask < 2 ^ 32 → field 16 0 mask = Z.ones n → field 16 16 mask = Z.ones n →
  Step l2_i16 n sq [0; 16] mask lanes lanes (λ _, True).
Proof. intros Hn Hm H0 H1 sh s vx vy Hsh Hs Hx Hy _ _. by apply l2_i16_step. Qed.

#[export] Instance ip_i16_law n mask lanes :
  0 ≤ n ≤ 8 → 0 ≤ mask < 2 ^ 32 → field 16 0 mask = Z.ones n → field 16 16 mask = Z.ones n →
  Step ip_i16 n Z.mul [0; 16] mask lanes lanes (λ _, True).
Proof. intros Hn Hm H0 H1 sh s vx vy Hsh Hs Hx Hy _ _. by apply ip_i16_step. Qed.

#[export] Instance ip_u8_law n mask lanes :
  0 ≤ n ≤ 7 → Forall (λ p, field 8 p mask = Z.ones n) [0; 8; 16; 24] →
  Step ip_u8 n Z.mul [0; 8; 16; 24] mask lanes lanes (λ _, True).
Proof. intros Hn Hm sh s vx vy Hsh Hs Hx Hy _ _. by apply ip_u8_step. Qed.

#[export] Instance ip_neon_law n lanes :
  0 ≤ n ≤ 7 → Step ip_neon n Z.mul [0] (Z.ones n) (4 * lanes) lanes bytes_ok.
Proof. intros Hn sh s vx vy Hsh Hs Hx Hy Bx By. by apply ip_neon_step. Qed.

Lemma eq32_of x y : x = y → x ≡₃₂ y.
Proof. by intros ->. Qed.

Section shapes.
Context (op : list Z → list Z → list Z → list Z) (n w : Z) (g : Z → Z → Z) (pos : list Z) (mask : Z).
Context (L La : nat) (okv : list Z → Prop) `{!Step op n g pos mask L La okv}.
Context (vx vy : list Z) (Hx : length vx = L) (Hy : length vy = L) (Vx : okv vx) (Vy : okv vy).

Local Abbreviation S sh := (λ x y, sum2 g (pick n pos sh x) (pick n pos sh y)).

Lemma step_ok sh s :
  0 ≤ sh < w → length s = La →
  length (step w (splat L mask) op vx vy sh s) = La ∧
  sumZ (step w (splat L mask) op vx vy sh s) ≡₃₂ sumZ s + sum2 (S sh) vx vy.
Proof using All.
  intros Hsh Hs. unfold step. rewrite !simd_masked by (done || lia). apply step_law; (done || lia).
Qed.

Lemma step0_ok s :
  length s = La →
  length (step0 (splat L mask) op vx vy s) = La ∧
  sumZ (step0 (splat L mask) op vx vy s) ≡₃₂ sumZ s + sum2 (S 0) vx vy.
Proof using All.
  intros Hs. unfold step0. rewrite !simd_masked0 by done. apply step_law; (done || lia).
Qed.

(** Collects the steps of a block. *)
Ltac steps :=
  repeat match goal with
  | |- context [step0 ?m ?o ?a ?b ?s] =>
      let s' := fresh "s" in let Hl := fresh "Hl" in let Hs := fresh "Hs" in
      destruct (step0_ok s) as [Hl Hs]; [done|];
      set (s' := step0 m o a b s) in *; clearbody s'
  | |- context [step ?w' ?m ?o ?a ?b ?sh ?s] =>
      let s' := fresh "s" in let Hl := fresh "Hl" in let Hs := fresh "Hs" in
      destruct (step_ok sh s) as [Hl Hs]; [lia|done|];
      set (s' := step w' m o a b sh s) in *; clearbody s'
  end;
  split; [by split_and!|]; cbn [total4 total2];
  rewrite <-?sum2_plus;
  repeat match goal with H : sumZ ?s ≡₃₂ _ |- context [sumZ ?s] => rewrite H; clear H end;
  apply eq32_of; lia.

Lemma block_4_ok acc :
  12 < w → lanes4 La acc →
  lanes4 La (block_4 w (splat L mask) op vx vy acc) ∧
  total4 (block_4 w (splat L mask) op vx vy acc) ≡₃₂
    total4 acc + sum2 (λ x y, S 0 x y + S 4 x y + S 8 x y + S 12 x y) vx vy.
Proof using All.
  intros Hw. destruct acc as [[[s0 s1] s2] s3]. intros (H0 & H1 & H2 & H3).
  cbn [block_4 lanes4 total4]. steps.
Qed.

Lemma block_2_u8_ok acc :
  6 < w → lanes4 La acc →
  lanes4 La (block_2_u8 w (splat L mask) op vx vy acc) ∧
  total4 (block_2_u8 w (splat L mask) op vx vy acc) ≡₃₂
    total4 acc + sum2 (λ x y, S 0 x y + S 2 x y + S 4 x y + S 6 x y) vx vy.
Proof using All.
  intros Hw. destruct acc as [[[s0 s1] s2] s3]. intros (H0 & H1 & H2 & H3).
  cbn [block_2_u8 lanes4 total4]. steps.
Qed.

Lemma block_4_u8_ok acc :
  4 < w → lanes2 La acc →
  lanes2 La (block_4_u8 w (splat L mask) op vx vy acc) ∧
  total2 (block_4_u8 w (splat L mask) op vx vy acc) ≡₃₂
    total2 acc + sum2 (λ x y, S 0 x y + S 4 x y) vx vy.
Proof using All.
  intros Hw. destruct acc as [s0 s1]. intros (H0 & H1).
  cbn [block_4_u8 lanes2 total2]. steps.
Qed.

Lemma block_2_ok acc :
  14 < w → lanes4 La acc →
  lanes4 La (block_2 w (splat L mask) op vx vy acc) ∧
  total4 (block_2 w (splat L mask) op vx vy acc) ≡₃₂
    total4 acc + sum2 (λ x y, S 0 x y + S 2 x y + S 4 x y + S 6 x y +
                              S 8 x y + S 10 x y + S 12 x y + S 14 x y) vx vy.
Proof using All.
  intros Hw. destruct acc as [[[s0 s1] s2] s3]. intros (H0 & H1 & H2 & H3).
  cbn [block_2 lanes4 total4]. steps.
Qed.

End shapes.

(** Every value of a word is met once. *)
Section words.
Variables (g : Z → Z → Z) (x y : Z).
Local Abbreviation S n pos sh := (sum2 g (pick n pos sh x) (pick n pos sh y)).
Local Abbreviation all N k := (sum2 g
  (map (λ i, field (Z.of_nat N) (Z.of_nat N * i) x) (seqZ 0 (Z.of_nat k)))
  (map (λ i, field (Z.of_nat N) (Z.of_nat N * i) y) (seqZ 0 (Z.of_nat k)))).

Ltac fields :=
  match goal with |- context [map _ ?l] =>
    let l' := eval vm_compute in l in change l with l' end;
  unfold pick, sum2, sumZ; cbn [map zip_with foldr];
  repeat match goal with |- context [field ?n ?p ?z] =>
    let n' := eval vm_compute in n in let p' := eval vm_compute in p in
    progress change (field n p z) with (field n' p' z) end;
  lia.

Lemma words_4_i16 :
  S 4 [0; 16] 0 + S 4 [0; 16] 4 + S 4 [0; 16] 8 + S 4 [0; 16] 12 = all 4%nat (2 * 4)%nat.
Proof. fields. Qed.

Lemma words_2_i16 :
  S 2 [0; 16] 0 + S 2 [0; 16] 2 + S 2 [0; 16] 4 + S 2 [0; 16] 6 +
  S 2 [0; 16] 8 + S 2 [0; 16] 10 + S 2 [0; 16] 12 + S 2 [0; 16] 14 = all 2%nat (4 * 4)%nat.
Proof. fields. Qed.

Lemma words_4_u8 :
  S 4 [0; 8; 16; 24] 0 + S 4 [0; 8; 16; 24] 4 = all 4%nat (2 * 4)%nat.
Proof. fields. Qed.

Lemma words_2_u8 :
  S 2 [0; 8; 16; 24] 0 + S 2 [0; 8; 16; 24] 2 + S 2 [0; 8; 16; 24] 4 + S 2 [0; 8; 16; 24] 6 =
  all 2%nat (4 * 4)%nat.
Proof. fields. Qed.

Lemma bytes_4 : S 4 [0] 0 + S 4 [0] 4 = all 4%nat 2%nat.
Proof. fields. Qed.

Lemma bytes_2 : S 2 [0] 0 + S 2 [0] 2 + S 2 [0] 4 + S 2 [0] 6 = all 2%nat 4%nat.
Proof. fields. Qed.

End words.

(** ** The blocks of the kernels *)

(** Registers of [u32] lanes. *)
Lemma u32_block {A} N q lanes g (block : list Z → list Z → A → A) init finish total ok T :
  (N * q = 8)%nat → ok init ∧ total init = 0 →
  (∀ acc, ok acc → finish acc = total acc mod 2 ^ 32) →
  (∀ vx vy acc, length vx = lanes → length vy = lanes → ok acc → ok (block vx vy acc) ∧
     total (block vx vy acc) ≡₃₂ total acc + sum2 T vx vy) →
  (∀ x y, T x y =
     sum2 g (map (λ i, field (Z.of_nat N) (Z.of_nat N * i) x) (seqZ 0 (Z.of_nat (q * 4))))
            (map (λ i, field (Z.of_nat N) (Z.of_nat N * i) y) (seqZ 0 (Z.of_nat (q * 4))))) →
  Block N q (4 * lanes) g u8_to_u32 block init finish total ok.
Proof.
  intros Hq Hi Hf Hb HT. split; [done| |done]. intros bx by' acc Hok Bx By Lx Ly.
  destruct (Hb (u8_to_u32 bx) (u8_to_u32 by') acc) as [Hok' Ht];
    [by apply length_u8_to_u32..|done|].
  split; [done|]. rewrite Ht, <-(sum2_words N q g lanes Hq) by done.
  apply eq32_of. f_equal. apply sum2_ext. intros x y _ _. apply HT.
Qed.

(** Registers of bytes. *)
Lemma u8_block {A} N q width g (block : list Z → list Z → A → A) init finish total ok T :
  ok init ∧ total init = 0 →
  (∀ acc, ok acc → finish acc = total acc mod 2 ^ 32) →
  (∀ vx vy acc, length vx = width → length vy = width → bytes_ok vx → bytes_ok vy → ok acc →
     ok (block vx vy acc) ∧ total (block vx vy acc) ≡₃₂ total acc + sum2 T vx vy) →
  (∀ x y, T x y =
     sum2 g (map (λ i, field (Z.of_nat N) (Z.of_nat N * i) x) (seqZ 0 (Z.of_nat q)))
            (map (λ i, field (Z.of_nat N) (Z.of_nat N * i) y) (seqZ 0 (Z.of_nat q)))) →
  Block N q width g id block init finish total ok.
Proof.
  intros Hi Hf Hb HT. split; [done| |done]. intros bx by' acc Hok Bx By Lx Ly.
  destruct (Hb bx by' acc) as [Hok' Ht]; [done..|]. split; [done|]. unfold id. rewrite Ht.
  apply eq32_of. f_equal. rewrite (sum2_flat _ _ _ q); [|by rewrite Lx, Ly|apply length_elems..].
  apply sum2_ext. intros x y _ _. rewrite HT. unfold elems, vals. by rewrite !le_single.
Qed.

Ltac by_calc := first [lia | reflexivity | by repeat constructor].

Lemma l2_4_block lanes k :
  (2 ^ k)%nat = lanes →
  Block 4 2 (4 * lanes) sq u8_to_u32 (block_4 32 (splat lanes 0x000f000f) l2_i16)
    (zero4 lanes) (finish4 i32_of k) total4 (lanes4 lanes).
Proof.
  intros <-. eapply u32_block; [done|apply zero4_ok|by intros; apply finish4_ok; [apply _|]| |].
  - intros vx vy acc Hx Hy Hok. eapply block_4_ok; [apply (l2_i16_law 4); by_calc|done..|lia|done].
  - intros x y. apply words_4_i16.
Qed.

Lemma ip_4_block lanes k :
  (2 ^ k)%nat = lanes →
  Block 4 2 (4 * lanes) Z.mul u8_to_u32 (block_4 32 (splat lanes 0x000f000f) ip_i16)
    (zero4 lanes) (finish4 i32_of k) total4 (lanes4 lanes).
Proof.
  intros <-. eapply u32_block; [done|apply zero4_ok|by intros; apply finish4_ok; [apply _|]| |].
  - intros vx vy acc Hx Hy Hok. eapply block_4_ok; [apply (ip_i16_law 4); by_calc|done..|lia|done].
  - intros x y. apply words_4_i16.
Qed.

Lemma l2_2_block lanes k :
  (2 ^ k)%nat = lanes →
  Block 2 4 (4 * lanes) sq u8_to_u32 (block_2 32 (splat lanes 0x00030003) l2_i16)
    (zero4 lanes) (finish4 i32_of k) total4 (lanes4 lanes).
Proof.
  intros <-. eapply u32_block; [done|apply zero4_ok|by intros; apply finish4_ok; [apply _|]| |].
  - intros vx vy acc Hx Hy Hok. eapply block_2_ok; [apply (l2_i16_law 2); by_calc|done..|lia|done].
  - intros x y. apply words_2_i16.
Qed.

Lemma ip_2_block lanes k :
  (2 ^ k)%nat = lanes →
  Block 2 4 (4 * lanes) Z.mul u8_to_u32 (block_2 32 (splat lanes 0x00030003) ip_i16)
    (zero4 lanes) (finish4 i32_of k) total4 (lanes4 lanes).
Proof.
  intros <-. eapply u32_block; [done|apply zero4_ok|by intros; apply finish4_ok; [apply _|]| |].
  - intros vx vy acc Hx Hy Hok. eapply block_2_ok; [apply (ip_i16_law 2); by_calc|done..|lia|done].
  - intros x y. apply words_2_i16.
Qed.

Lemma ip_2_u8_block lanes k :
  (2 ^ k)%nat = lanes →
  Block 2 4 (4 * lanes) Z.mul u8_to_u32 (block_2_u8 32 (splat lanes 0x03030303) ip_u8)
    (zero4 lanes) (finish4 i32_of k) total4 (lanes4 lanes).
Proof.
  intros <-. eapply u32_block; [done|apply zero4_ok|by intros; apply finish4_ok; [apply _|]| |].
  - intros vx vy acc Hx Hy Hok. eapply block_2_u8_ok; [apply (ip_u8_law 2); by_calc|done..|lia|done].
  - intros x y. apply words_2_u8.
Qed.

Lemma ip_4_u8_block lanes k :
  (2 ^ k)%nat = lanes →
  Block 4 2 (4 * lanes) Z.mul u8_to_u32 (block_4_u8 32 (splat lanes 0x0f0f0f0f) ip_u8)
    (zero2 lanes) (finish2 i32_of k) total2 (lanes2 lanes).
Proof.
  intros <-. eapply u32_block; [done|apply zero2_ok|by intros; apply finish2_ok; [apply _|]| |].
  - intros vx vy acc Hx Hy Hok. eapply block_4_u8_ok; [apply (ip_u8_law 4); by_calc|done..|lia|done].
  - intros x y. apply words_4_u8.
Qed.

Lemma ip_4_neon_block :
  Block 4 2 16 Z.mul id (block_4_u8 8 (splat 16 0x0f) ip_neon)
    (zero2 4) (finish2 u32_of 2) total2 (lanes2 4).
Proof.
  eapply u8_block; [apply zero2_ok|by intros; apply (finish2_ok _ 2)| |].
  - intros vx vy acc Hx Hy Bx By Hok.
    eapply block_4_u8_ok; [apply (ip_neon_law 4 4); lia|done..|lia|done].
  - intros x y. apply bytes_4.
Qed.

Lemma ip_2_neon_block :
  Block 2 4 16 Z.mul id (block_2_u8 8 (splat 16 0x03) ip_neon)
    (zero4 4) (finish4 u32_of 2) total4 (lanes4 4).
Proof.
  eapply u8_block; [apply zero4_ok|by intros; apply (finish4_ok _ 2)| |].
  - intros vx vy acc Hx Hy Bx By Hok.
    eapply block_2_u8_ok; [apply (ip_neon_law 2 4); lia|done..|lia|done].
  - intros x y. apply bytes_2.
Qed.
