(* ===== verification/BitDistance.v ===== *)
(** * The distance kernels compute the distances

    The theorems about [BitKernels]: on well-formed slices every kernel, on every architecture,
    gives the sum over the values of the slices, modulo 2^32, and reads no memory outside them.
    A debug build agrees as long as the sum is below 2^31. *)

From S2P Require Import Prelude Bytes BitSlice Simd BitKernels BitBlocks.
Local Open Scope Z_scope.

(** ** Scalar arithmetic *)

Section arith.
Variable debug : bool.

(** Arithmetic that keeps the residue, and numbers below 2^31. *)
Class Scalar32 (wrap : Z → Z) := {
  scalar_wrap :: Wrap32 wrap;
  scalar_exact : ∀ z, 0 ≤ z < 2 ^ 31 → wrap z = z;
  scalar_idem : ∀ z, wrap (wrap z) = wrap z;
}.

#[local] Instance i32_scalar : Scalar32 (as_signed 32).
Proof.
  split; [apply _|intros z Hz; apply as_signed_small; cbn; lia|].
  intros z. apply as_signed_small; [lia|]. unfold as_signed. change (2 ^ (32 - 1)) with (2 ^ 31).
  pose proof (Z.mod_pos_bound (z + 2 ^ 31) (2 ^ 32)). lia.
Qed.

#[local] Instance u32_scalar : Scalar32 (as_unsigned 32).
Proof.
  split; [apply _|intros z Hz; apply Z.mod_small; lia|].
  intros z. unfold as_unsigned. by rewrite Z.mod_mod by lia.
Qed.

Lemma arith_ok wrap `{!Scalar32 wrap} z :
  debug = false ∨ 0 ≤ z < 2 ^ 31 →
  ∃ r, arith debug wrap z = Some r ∧ r ≡₃₂ z ∧ wrap r = r ∧ (0 ≤ z < 2 ^ 31 → r = z).
Proof.
  intros Hz. unfold arith. destruct (Z.eqb_spec (wrap z) z) as [He|Hne].
  { exists z. by split_and!. }
  destruct Hz as [-> |Hz]; [|by rewrite scalar_exact in Hne].
  exists (wrap z). split_and!; [done|apply wrap32|apply scalar_idem|apply scalar_exact].
Qed.

Lemma arith_exact wrap `{!Scalar32 wrap} z : 0 ≤ z < 2 ^ 31 → arith debug wrap z = Some z.
Proof. intros Hz. unfold arith. by rewrite scalar_exact, Z.eqb_refl by done. Qed.

Lemma arith_u32 z :
  debug = false ∨ 0 ≤ z < 2 ^ 32 → arith debug (as_unsigned 32) z = Some (z mod 2 ^ 32).
Proof.
  intros Hz. unfold arith, as_unsigned. destruct (Z.eqb_spec (z mod 2 ^ 32) z) as [->|Hne]; [done|].
  destruct Hz as [-> |Hz]; [done|]. by rewrite Z.mod_small in Hne.
Qed.

(** The sum of a prefix, modulo 2^32, and of the rest. *)
Lemma add_rest e r R :
  0 ≤ e → 0 ≤ R → debug = false ∨ e + R < 2 ^ 31 → r ≡₃₂ R → (e + R < 2 ^ 31 → r = R) →
  arith debug (as_unsigned 32) (e mod 2 ^ 32 + as_unsigned 32 r) = Some ((e + R) mod 2 ^ 32).
Proof.
  intros He HR Hd Hr Hx. unfold as_unsigned at 2. rewrite Hr. rewrite arith_u32.
  - f_equal. by rewrite <-Zplus_mod.
  - destruct Hd as [|Hd]; [by left|right]. rewrite !Z.mod_small by lia. lia.
Qed.

End arith.

(** ** What a scalar loop adds *)

(** Values number [a] to [a + b]. *)
Definition tailv (N : nat) (data : list Z) (a b : nat) : list Z :=
  map (λ i, field (Z.of_nat N) (Z.of_nat N * (Z.of_nat a + i)) (le data)) (seqZ 0 (Z.of_nat b)).

Lemma tailv_cons N data a b :
  tailv N data a (S b) =
    field (Z.of_nat N) (Z.of_nat N * Z.of_nat a) (le data) :: tailv N data (S a) b.
Proof.
  unfold tailv. rewrite seqZ_cons by lia. cbn [map]. rewrite Z.add_0_r. f_equal.
  replace (Z.succ 0) with (1 + 0) by lia. rewrite <-fmap_add_seqZ.
  replace (Z.pred (Z.of_nat (S b))) with (Z.of_nat b) by lia. etrans; [apply map_map|].
  apply map_ext. intros i. f_equal. lia.
Qed.

Definition bounded (N : nat) (v : Z) : Prop := 0 ≤ v < 2 ^ Z.of_nat N.

Lemma tailv_bounded N data a b : Forall (bounded N) (tailv N data a b).
Proof. apply Forall_map, Forall_true. intros i. apply field_bound. lia. Qed.
Lemma vals_bounded N data k : Forall (bounded N) (vals N data k).
Proof. apply Forall_map, Forall_true. intros i. apply field_bound. lia. Qed.
Lemma length_tailv N data a b : length (tailv N data a b) = b.
Proof. unfold tailv. rewrite length_map, length_seqZ. lia. Qed.

Lemma sum2_nonneg N M g : (∀ x y, bounded N x → bounded M y → 0 ≤ g x y) → ∀ l r,
  Forall (bounded N) l → Forall (bounded M) r → 0 ≤ sum2 g l r.
Proof.
  intros Hg. induction l as [|x l IH]; intros [|y r] Hl Hr; try done.
  inversion Hl; inversion Hr; subst. rewrite sum2_cons. specialize (IH r).
  pose proof (Hg x y). assert (0 ≤ sum2 g l r) by auto. assert (0 ≤ g x y) by auto. lia.
Qed.

(** The term of a scalar loop is exact. *)
Class Term (debug : bool) (N M : nat) (wrap : Z → Z) (g : Z → Z → Z)
    (term : (Z → Z) → Z → Z → option Z) := {
  term_scalar :: Scalar32 wrap;
  term_width : (1 ≤ N ≤ 8)%nat ∧ (1 ≤ M ≤ 8)%nat;
  term_nonneg : ∀ x y, bounded N x → bounded M y → 0 ≤ g x y < 2 ^ 31;
  term_exact : ∀ x y, bounded N x → bounded M y → term wrap x y = Some (g x y);
}.

Lemma bounded_byte N v : (1 ≤ N ≤ 8)%nat → bounded N v → 0 ≤ v < 256.
Proof.
  intros HN Hv. unfold bounded in Hv. assert (2 ^ Z.of_nat N ≤ 2 ^ 8) by (apply Z.pow_le_mono_r; lia).
  lia.
Qed.

Lemma sq_bound d : -256 < d < 256 → 0 ≤ d * d < 65536.
Proof. intros. assert (d * d ≤ 255 * 255) by nia. nia. Qed.

#[export] Instance l2_term_ok debug N : (1 ≤ N ≤ 8)%nat → Term debug N N i32_of sq (l2_term debug).
Proof.
  intros HN. split; [apply i32_scalar|done| |].
  - intros x y Hx%bounded_byte Hy%bounded_byte; [|done..].
    pose proof (sq_bound (x - y)). unfold sq. lia.
  - intros x y Hx%bounded_byte Hy%bounded_byte; [|done..]. unfold l2_term, arith.
    pose proof (sq_bound (x - y)).
    rewrite (as_signed_small 32 (x - y)) by lia. rewrite Z.eqb_refl. cbn [mbind option_bind].
    rewrite as_signed_small by lia. by rewrite Z.eqb_refl.
Qed.

Lemma ip_term_ok debug N M wrap `{!Scalar32 wrap} :
  (1 ≤ N ≤ 8)%nat → (1 ≤ M ≤ 8)%nat → Term debug N M wrap Z.mul (ip_term debug).
Proof.
  intros HN HM. split; [done|done| |].
  - intros x y Hx%bounded_byte Hy%bounded_byte; [|done..]. assert (x * y ≤ 255 * 255) by nia. nia.
  - intros x y Hx%bounded_byte Hy%bounded_byte; [|done..]. unfold ip_term.
    assert (x * y ≤ 255 * 255) by nia. apply arith_exact; [done|nia].
Qed.

#[export] Instance ip_term_u32 debug N M :
  (1 ≤ N ≤ 8)%nat → (1 ≤ M ≤ 8)%nat → Term debug N M u32_of Z.mul (ip_term debug).
Proof. apply ip_term_ok, u32_scalar. Qed.
#[export] Instance ip_term_i32 debug N M :
  (1 ≤ N ≤ 8)%nat → (1 ≤ M ≤ 8)%nat → Term debug N M i32_of Z.mul (ip_term debug).
Proof. apply ip_term_ok, i32_scalar. Qed.

(** Two slices of the same number of values. *)
Record same_length (N M : nat) (x y : BitSlice) (len : nat) : Prop := {
  sl_x : slice_wf N (Dense N) x;
  sl_y : slice_wf M (Dense M) y;
  sl_lx : bs_len x = Z.of_nat len;
  sl_ly : bs_len y = Z.of_nat len;
}.

Section loop.
Context (debug : bool) (N M : nat) (wrap : Z → Z) (g : Z → Z → Z).
Context (term : (Z → Z) → Z → Z → option Z) `{!Term debug N M wrap g term}.
Context (x y : BitSlice) (len : nat) (Hxy : same_length N M x y len).

Definition rest (a b : nat) : Z := sum2 g (tailv N (bs_data x) a b) (tailv M (bs_data y) a b).

Lemma rest_nonneg a b : 0 ≤ rest a b.
Proof using All.
  apply (sum2_nonneg N M); [|apply tailv_bounded..]. intros. by apply term_nonneg.
Qed.

Lemma get_pair i :
  (i < len)%nat →
  get_unchecked debug (Unsigned N) (Dense N) x (Z.of_nat i) =
    Some (field (Z.of_nat N) (Z.of_nat N * Z.of_nat i) (le (bs_data x))) ∧
  get_unchecked debug (Unsigned M) (Dense M) y (Z.of_nat i) =
    Some (field (Z.of_nat M) (Z.of_nat M * Z.of_nat i) (le (bs_data y))).
Proof using All.
  intros Hi. destruct Hxy as [Hx Hy Lx Ly]. destruct term_width as [HN HM].
  split; apply get_dense; (done || lia).
Qed.

Lemma scalar_loop_ok c : ∀ i s,
  (i + c ≤ len)%nat → debug = false ∨ (0 ≤ s ∧ s + rest i c < 2 ^ 31) →
  ∃ r, scalar_loop debug N M wrap term x y i c s = Some r ∧ r ≡₃₂ s + rest i c ∧
    (wrap s = s → wrap r = r) ∧ (0 ≤ s → s + rest i c < 2 ^ 31 → r = s + rest i c).
Proof using All.
  induction c as [|c IH]; intros i s Hi Hs; cbn [scalar_loop].
  { exists s. unfold rest, tailv. cbn. rewrite Z.add_0_r. by split_and!. }
  destruct (get_pair i) as [-> ->]; [lia|]. cbn [mbind option_bind].
  set (vx := field _ _ (le (bs_data x))). set (vy := field _ _ (le (bs_data y))).
  assert (bounded N vx ∧ bounded M vy) as [Bx By] by (split; apply field_bound; lia).
  rewrite term_exact by done. cbn [mbind option_bind].
  assert (rest i (S c) = g vx vy + rest (S i) c) as Hr
    by (unfold rest; by rewrite !tailv_cons, sum2_cons).
  pose proof (rest_nonneg (S i) c). pose proof (term_nonneg vx vy Bx By).
  destruct (arith_ok debug wrap (s + g vx vy)) as (s' & -> & He & Hw & Hx); [naive_solver lia|].
  cbn [mbind option_bind]. destruct (IH (S i) s') as (r & -> & Hr1 & Hr2 & Hr3); [lia| |].
  { destruct Hs as [|Hs]; [by left|right]. rewrite Hx by lia. lia. }
  exists r. split_and!; [done| |by auto|].
  - rewrite Hr1, He, Hr. by rewrite Z.add_assoc.
  - intros Hs0 H31. rewrite Hr in *. rewrite Hr3; rewrite Hx by lia; lia.
Qed.

Lemma fallback_ok from e :
  (from ≤ len)%nat → 0 ≤ e → debug = false ∨ e + rest from (len - from) < 2 ^ 31 →
  (f ← fallback debug N M wrap term x y from; arith debug (as_unsigned 32) (e mod 2 ^ 32 + f))
    = Some ((e + rest from (len - from)) mod 2 ^ 32).
Proof using All.
  intros Hf He Hd. unfold fallback. rewrite (sl_lx _ _ _ _ _ Hxy), Nat2Z.id.
  pose proof (rest_nonneg from (len - from)).
  destruct (scalar_loop_ok (len - from) from 0) as (r & -> & Hr & _ & Hx); [lia|naive_solver lia|].
  cbn [mbind option_bind]. apply add_rest; [done..|intros; apply Hx; lia].
Qed.

End loop.

(** ** Registers *)

Section registers.
Context {A : Type} (N q width : nat) (g : Z → Z → Z) (view : list Z → list Z).
Context (block : list Z → list Z → A → A) (init : A) (finish : A → Z) (total : A → Z) (ok : A → Prop).
Context (HB : Block N q width g view block init finish total ok).
Context (Hq : (N * q = 8)%nat) (Hg : g 0 0 = 0).
Context (px py : list Z) (Bx : bytes_ok px) (By : bytes_ok py) (Hlen : length px = length py).

(** The sum over the values of the first [m] bytes. *)
Definition bytes_sum (m : nat) : Z :=
  sum2 g (take m px ≫= elems N q) (take m py ≫= elems N q).

Lemma bytes_sum_vals m :
  (m ≤ length px)%nat → bytes_sum m = sum2 g (vals N px (q * m)) (vals N py (q * m)).
Proof using Hq Bx By Hlen. intros Hm. unfold bytes_sum. by rewrite !vals_bytes by (done || lia). Qed.

Lemma bytes_sum_app off m :
  (off + m ≤ length px)%nat →
  bytes_sum (off + m) = bytes_sum off +
    sum2 g (take m (drop off px) ≫= elems N q) (take m (drop off py) ≫= elems N q).
Proof using Hlen Hq.
  intros Hm. unfold bytes_sum. rewrite <-!take_take_drop, !bind_app, sum2_app; [done|].
  rewrite !(length_flat _ q) by apply length_elems. rewrite !length_take. lia.
Qed.

Lemma zeros_sum k : sum2 g (replicate k 0 ≫= elems N q) (replicate k 0 ≫= elems N q) = 0.
Proof using Hg.
  apply sum2_zero. intros a b (z & Ha & Hz)%list_elem_of_bind (z' & Hb & Hz')%list_elem_of_bind.
  apply elem_of_replicate in Hz as [-> _], Hz' as [-> _].
  apply list_elem_of_fmap in Ha as (i & -> & _), Hb as (j & -> & _). rewrite le_single.
  unfold field. by rewrite !Zdiv_0_l, !Zmod_0_l.
Qed.

(** A block over [m] bytes from [off] on, the rest of the register being zero. *)
Lemma block_bytes off m acc :
  ok acc → total acc ≡₃₂ bytes_sum off → (m ≤ width)%nat → (off + m ≤ length px)%nat →
  let load p := view (take m (drop off p) ++ replicate (width - m) 0) in
  ok (block (load px) (load py) acc) ∧
  total (block (load px) (load py) acc) ≡₃₂ bytes_sum (off + m).
Proof using All.
  intros Hok Ht Hm Hl load.
  destruct (block_step _ _ _ _ _ _ _ _ _ _ HB (take m (drop off px) ++ replicate (width - m) 0)
    (take m (drop off py) ++ replicate (width - m) 0) acc) as [Hok' Ht'].
  - done.
  - apply Forall_app_2; [by apply bytes_ok_take, bytes_ok_drop|by apply Forall_replicate].
  - apply Forall_app_2; [by apply bytes_ok_take, bytes_ok_drop|by apply Forall_replicate].
  - rewrite length_app, length_take, length_drop, length_replicate. lia.
  - rewrite length_app, length_take, length_drop, length_replicate. lia.
  - split; [done|]. unfold load. rewrite Ht', Ht, bytes_sum_app by done. apply eq32_of.
    rewrite !bind_app, sum2_app, zeros_sum; [lia|].
    rewrite !(length_flat _ q) by apply length_elems. rewrite !length_take, !length_drop. lia.
Qed.

(** The whole register. *)
Lemma block_full off acc :
  ok acc → total acc ≡₃₂ bytes_sum off → (off + width ≤ length px)%nat →
  let load p := view (take width (drop off p)) in
  ok (block (load px) (load py) acc) ∧
  total (block (load px) (load py) acc) ≡₃₂ bytes_sum (off + width).
Proof using All.
  intros Hok Ht Hl load. destruct (block_bytes off width acc Hok Ht ltac:(lia) Hl) as [H1 H2].
  rewrite Nat.sub_diag in H1, H2. cbn [replicate] in H1, H2. by rewrite !app_nil_r in H1, H2.
Qed.

Lemma finish_sum acc m : ok acc → total acc ≡₃₂ bytes_sum m → finish acc = bytes_sum m mod 2 ^ 32.
Proof using HB. intros Hok Ht. by rewrite (block_finish _ _ _ _ _ _ _ _ _ _ HB acc Hok). Qed.

Lemma init_sum : ok init ∧ total init ≡₃₂ bytes_sum 0.
Proof using HB.
  destruct (block_init _ _ _ _ _ _ _ _ _ _ HB) as [Hok Ht]. split; [done|]. by rewrite Ht.
Qed.

End registers.

Section u32_kernels.
Context {A : Type} (N q lanes : nat) (g : Z → Z → Z).
Context (block : list Z → list Z → A → A) (init : A) (finish : A → Z) (total : A → Z) (ok : A → Prop).
Context (HB : Block N q (4 * lanes) g u8_to_u32 block init finish total ok).
Context (Hq : (N * q = 8)%nat) (Hg : g 0 0 = 0) (Hlanes : (0 < lanes)%nat).
Context (px py : list Z) (Bx : bytes_ok px) (By : bytes_ok py) (Hlen : length px = length py).

Lemma u32_loop_ok blocks fuel : ∀ i acc,
  (4 * blocks ≤ length px + 4)%nat → (i < blocks)%nat → (blocks < i + fuel)%nat →
  ok acc → total acc ≡₃₂ bytes_sum N q g px py (4 * i) →
  ∃ i' acc', u32_loop block lanes px py blocks fuel i acc = Some (i', acc') ∧
    (i' < blocks ≤ i' + lanes)%nat ∧ ok acc' ∧ total acc' ≡₃₂ bytes_sum N q g px py (4 * i').
Proof using All.
  induction fuel as [|fuel IH]; intros i acc Hb Hi Hf Hok Ht; [lia|]. cbn [u32_loop].
  case_nat; [|exists i, acc; split_and!; (done || lia)].
  rewrite !load_u32 by lia. cbn [mbind option_bind].
  destruct (block_full N q (4 * lanes) g u8_to_u32 block init finish total ok HB Hq Hg px py Bx By
    Hlen (4 * i) acc Hok Ht ltac:(lia)) as [Hok' Ht'].
  apply IH; [lia..|done|]. by replace (4 * (i + lanes))%nat with (4 * i + 4 * lanes)%nat by lia.
Qed.

End u32_kernels.

(** ** Kernels *)

Section kernel.
Context (debug : bool) (N q : nat) (wrap : Z → Z) (g : Z → Z → Z).
Context (term : (Z → Z) → Z → Z → option Z) `{!Term debug N N wrap g term}.
Context (Hq : (N * q = 8)%nat).
Context (x y : BitSlice) (len : nat) (Hxy : same_length N N x y len).

(** The sum over all values. *)
Definition distance : Z := sum2 g (vals N (bs_data x) len) (vals N (bs_data y) len).
Local Abbreviation prefix := (bytes_sum N q g (bs_data x) (bs_data y)).

Lemma data_ok :
  bytes_ok (bs_data x) ∧ bytes_ok (bs_data y) ∧ length (bs_data x) = length (bs_data y) ∧
  (len ≤ q * length (bs_data x))%nat.
Proof using Term0 Hq Hxy.
  destruct Hxy as [Hx Hy Lx Ly]. destruct (term_width (g := g)) as [HN _].
  pose proof (dense_length N HN x Hx) as Dx. pose proof (dense_length N HN y Hy) as Dy.
  rewrite Lx in Dx. rewrite Ly in Dy. split_and!; [apply Hx|apply Hy|lia|].
  assert (Z.of_nat N * Z.of_nat len ≤ 8 * Z.of_nat (length (bs_data x))) by (rewrite Dx; dlia). nia.
Qed.

Lemma prefix_nonneg m : (q * m ≤ len)%nat → 0 ≤ prefix m.
Proof using Term0 Hq Hxy.
  intros Hm. destruct data_ok as (Bx & By & Hl & Hlen).
  rewrite bytes_sum_vals by (done || nia). apply (sum2_nonneg N N); [|apply vals_bounded..].
  intros. by apply (term_nonneg (term := term)).
Qed.

Lemma distance_split m :
  (q * m ≤ len)%nat →
  distance = prefix m + rest N N g x y (q * m) (len - q * m).
Proof using Term0 Hq Hxy.
  intros Hm. destruct data_ok as (Bx & By & Hl & Hlen). rewrite bytes_sum_vals by (done || nia).
  unfold distance, rest. replace len with (q * m + (len - q * m))%nat at 1 2 by lia.
  rewrite !vals_app, sum2_app; [done|]. by rewrite !length_vals.
Qed.

Lemma check_equal : check_lengths x y = Ok len.
Proof using Hxy.
  destruct Hxy as [_ _ Lx Ly]. unfold check_lengths. rewrite Lx, Ly, Z.eqb_refl. cbn.
  by rewrite Nat2Z.id.
Qed.

Context (Hd : debug = false ∨ distance < 2 ^ 31).

(** What the kernels with a [fallback] do in the end. *)
Lemma tail_fallback m i :
  (q * m ≤ len)%nat → i = (q * m)%nat →
  (s ← (if negb (i =? len)%nat
        then f ← fallback debug N N wrap term x y i;
             arith debug u32_of (prefix m mod 2 ^ 32 + f)
        else Some (prefix m mod 2 ^ 32));
   Some (Ok (E := UnequalLengths) s)) = Some (Ok (distance mod 2 ^ 32)).
Proof using Term0 Hq Hxy Hd.
  intros Hm ->. pose proof (distance_split m Hm) as Hs. pose proof (prefix_nonneg m Hm).
  destruct (Nat.eqb_spec (q * m) len) as [He|Hne]; cbn [negb].
  - rewrite Hs, He, Nat.sub_diag. unfold rest, tailv. cbn. by rewrite Z.add_0_r.
  - rewrite (fallback_ok _ _ _ _ g _ _ _ len) by (done || lia || by rewrite <-Hs).
    by rewrite <-Hs.
Qed.

(** At most one value is left. *)
Lemma tail_one i :
  (q * (len / q) = i)%nat → (len - i ≤ 1)%nat →
  (s ← (if negb (i =? len)%nat then
          ix ← get_unchecked debug (Unsigned N) (Dense N) x (Z.of_nat i);
          iy ← get_unchecked debug (Unsigned N) (Dense N) y (Z.of_nat i);
          t ← term wrap ix iy;
          arith debug u32_of (prefix (len / q) mod 2 ^ 32 + u32_of t)
        else Some (prefix (len / q) mod 2 ^ 32));
   Some (Ok (E := UnequalLengths) s)) = Some (Ok (distance mod 2 ^ 32)).
Proof using Term0 Hq Hxy Hd.
  intros Hi H1. assert (i ≤ len)%nat as Hle by (rewrite <-Hi; apply Nat.Div0.mul_div_le).
  pose proof (distance_split (len / q) ltac:(lia)) as Hs. rewrite Hi in Hs.
  pose proof (prefix_nonneg (len / q) ltac:(lia)).
  destruct (Nat.eqb_spec i len) as [He|Hne]; cbn [negb].
  { rewrite Hs, He, Nat.sub_diag. unfold rest, tailv. cbn. by rewrite Z.add_0_r. }
  destruct (get_pair debug N N wrap g term x y len Hxy i ltac:(lia)) as [-> ->].
  cbn [mbind option_bind]. rewrite (term_exact (g := g)) by (apply field_bound; lia).
  cbn [mbind option_bind]. replace (len - i)%nat with 1%nat in Hs by lia.
  pose proof (rest_nonneg debug N N wrap g term x y len Hxy i 1).
  assert (rest N N g x y i 1 = g (field (Z.of_nat N) (Z.of_nat N * Z.of_nat i) (le (bs_data x)))
    (field (Z.of_nat N) (Z.of_nat N * Z.of_nat i) (le (bs_data y)))) as Hr.
  { unfold rest. rewrite !tailv_cons, sum2_cons. unfold tailv. cbn. by rewrite Z.add_0_r. }
  rewrite <-Hr, (add_rest debug _ _ (rest N N g x y i 1)); rewrite <-?Hs; done.
Qed.

Context {A : Type} (block : list Z → list Z → A → A) (init : A) (finish : A → Z).
Context (total : A → Z) (ok : A → Prop) (Hg : g 0 0 = 0).

Lemma v3_kernel_ok :
  Block N q (4 * 8) g u8_to_u32 block init finish total ok →
  v3_kernel debug block init finish (4 * q) (fallback debug N N wrap term) x y
    = Some (Ok (distance mod 2 ^ 32)).
Proof using All.
  intros HB. unfold v3_kernel. rewrite check_equal. destruct data_ok as (Bx & By & Hl & Hlen).
  set (blocks := (len / (4 * q))%nat). assert (q ≠ 0)%nat by nia.
  assert (4 * q * blocks ≤ len)%nat as Hb by (apply Nat.Div0.mul_div_le).
  assert ((if (0 <? blocks)%nat then
      '(i, acc) ← u32_loop block 8 (bs_data x) (bs_data y) blocks (S blocks) 0 init;
      remainder ← usub blocks i;
      vx ← load_simd_first 4 8 (bs_data x) (4 * i) remainder;
      vy ← load_simd_first 4 8 (bs_data y) (4 * i) remainder;
      Some ((i + remainder)%nat, finish (block vx vy acc))
    else Some (0%nat, 0)) = Some (blocks, prefix (4 * blocks) mod 2 ^ 32)) as ->.
  { case_nat; [|by replace blocks with 0%nat by lia].
    destruct (init_sum _ _ _ _ _ _ _ _ _ _ HB (bs_data x) (bs_data y)) as [Hi Ht].
    destruct (u32_loop_ok N q 8 g block init finish total ok HB Hq Hg ltac:(lia) (bs_data x)
      (bs_data y) Bx By Hl blocks (S blocks) 0 init) as (i & acc & -> & Hib & Hok & Hacc);
      [nia|lia|lia|done|done|].
    cbn [mbind option_bind]. rewrite usub_ok by lia. cbn [mbind option_bind].
    rewrite !load_first_u32 by nia. cbn [mbind option_bind].
    destruct (block_bytes N q _ g _ block init finish total ok HB Hq Hg _ _ Bx By Hl (4 * i)
      (4 * (blocks - i)) acc Hok Hacc ltac:(lia) ltac:(nia)) as [Hok' Ht'].
    replace (4 * 8 - 4 * (blocks - i))%nat with (4 * (8 - (blocks - i)))%nat in Hok', Ht' by lia.
    rewrite (finish_sum _ _ _ _ _ _ _ _ _ _ HB _ _ _ _ Hok' Ht').
    by replace (4 * i + 4 * (blocks - i))%nat with (4 * blocks)%nat by lia;
      replace (i + (blocks - i))%nat with blocks by lia. }
  cbn [mbind option_bind]. apply tail_fallback; lia.
Qed.

(** The main part of the x86-64-v4 kernels. *)
Lemma v4_loop_ok blocks :
  Block N q (4 * 16) g u8_to_u32 block init finish total ok →
  blocks = ((len + (4 * q - 1)) / (4 * q))%nat → (0 < blocks)%nat →
  ∃ i acc, u32_loop block 16 (bs_data x) (bs_data y) blocks (S blocks) 0 init = Some (i, acc) ∧
    (4 * i ≤ len / q ≤ 4 * i + 64)%nat ∧ ok acc ∧ total acc ≡₃₂ prefix (4 * i).
Proof using Term0 Hq Hg Hxy.
  intros HB Hbl Hpos. destruct data_ok as (Bx & By & Hl & Hlen). assert (q ≠ 0)%nat by nia.
  assert (4 * q * blocks < len + 4 * q ∧ len ≤ 4 * q * blocks)%nat as [B1 B2].
  { pose proof (Nat.div_mod (len + (4 * q - 1)) (4 * q) ltac:(lia)) as Hdm.
    pose proof (Nat.mod_upper_bound (len + (4 * q - 1)) (4 * q) ltac:(lia)). lia. }
  pose proof (Nat.div_mod len q ltac:(done)) as Hdm.
  pose proof (Nat.mod_upper_bound len q ltac:(done)) as Hm.
  destruct (init_sum _ _ _ _ _ _ _ _ _ _ HB (bs_data x) (bs_data y)) as [Hi Ht].
  destruct (u32_loop_ok N q 16 g block init finish total ok HB Hq Hg ltac:(lia) (bs_data x)
    (bs_data y) Bx By Hl blocks (S blocks) 0 init) as (i & acc & Hrun & Hib & Hok & Hacc);
    [nia|lia|lia|done|done|].
  exists i, acc. split_and!; [done| | |done|done]; nia.
Qed.

Lemma load_rest_ok p i r :
  (r ≤ 64)%nat → (4 * i + r ≤ length p)%nat →
  load_rest p i r = Some (u8_to_u32 (take r (drop (4 * i) p) ++ replicate (64 - r) 0)).
Proof. intros H1 H2. unfold load_rest. by rewrite load_first_u8. Qed.

(** The last block of the x86-64-v4 kernels. *)
Lemma v4_last_ok i acc :
  Block N q (4 * 16) g u8_to_u32 block init finish total ok →
  (4 * i ≤ len / q ≤ 4 * i + 64)%nat → ok acc → total acc ≡₃₂ prefix (4 * i) →
  ∃ vx vy, load_rest (bs_data x) i (len / q - 4 * i) = Some vx ∧
    load_rest (bs_data y) i (len / q - 4 * i) = Some vy ∧
    finish (block vx vy acc) = prefix (len / q) mod 2 ^ 32.
Proof using Term0 Hq Hg Hxy.
  intros HB Hi Hok Hacc. destruct data_ok as (Bx & By & Hl & Hlen). assert (q ≠ 0)%nat by nia.
  assert (q * (len / q) ≤ len)%nat by apply Nat.Div0.mul_div_le.
  rewrite !load_rest_ok by nia. do 2 eexists. split; [done|]. split; [done|].
  destruct (block_bytes N q _ g _ block init finish total ok HB Hq Hg _ _ Bx By Hl (4 * i)
    (len / q - 4 * i) acc Hok Hacc ltac:(lia) ltac:(nia)) as [Hok' Ht'].
  change (4 * 16)%nat with 64%nat in Hok', Ht'.
  rewrite (finish_sum _ _ _ _ _ _ _ _ _ _ HB _ _ _ _ Hok' Ht').
  by replace (4 * i + (len / q - 4 * i))%nat with (len / q)%nat by lia.
Qed.

End kernel.

Lemma ceil_zero len k : (0 < k)%nat → ((len + (k - 1)) / k ≤ 0)%nat → len = 0%nat.
Proof.
  intros Hk Hz. assert ((len + (k - 1)) / k = 0)%nat as H by lia.
  apply Nat.div_small_iff in H; lia.
Qed.

(** The values in whole bytes leave fewer than a byte of values. *)
Lemma half_left len k : (0 < k)%nat → (k * (len / k) ≤ len)%nat ∧ (len - k * (len / k) < k)%nat.
Proof.
  intros Hk. pose proof (Nat.div_mod len k ltac:(lia)). pose proof (Nat.mod_upper_bound len k ltac:(lia)).
  lia.
Qed.

Lemma debug_rest (debug : bool) len i k :
  (i ≤ len)%nat → (len - i ≤ k)%nat →
  (if debug then rest ← usub len i; rassert (rest <=? k)%nat else Some tt) = Some tt.
Proof.
  intros H1 H2. destruct debug; [|done]. rewrite usub_ok by done. cbn [mbind option_bind].
  by rewrite (proj2 (Nat.leb_le _ _)).
Qed.

(** ** The 4-bit and 2-bit kernels of x86-64-v4 *)

Lemma v4_kernel_4_ok {A} debug wrap g term `{!Term debug 4 4 wrap g term}
    (block : list Z → list Z → A → A) init finish total ok x y len :
  g 0 0 = 0 → same_length 4 4 x y len → debug = false ∨ distance 4 g x y len < 2 ^ 31 →
  Block 4 2 (4 * 16) g u8_to_u32 block init finish total ok →
  v4_kernel_4 debug block init finish wrap term x y = Some (Ok (distance 4 g x y len mod 2 ^ 32)).
Proof.
  intros Hg Hxy Hd HB. unfold v4_kernel_4. rewrite (check_equal 4 x y len Hxy).
  set (blocks := ((len + 7) / 8)%nat).
  assert ((if (0 <? blocks)%nat then
      '(i, acc) ← u32_loop block 16 (bs_data x) (bs_data y) blocks (S blocks) 0 init;
      remainder ← usub (len / 2) (4 * i);
      acc ← (if (0 <? remainder)%nat then
               vx ← load_rest (bs_data x) i remainder;
               vy ← load_rest (bs_data y) i remainder;
               Some (block vx vy acc)
             else Some acc);
      Some ((4 * i + remainder)%nat, finish acc)
    else Some (0%nat, 0)) =
    Some ((len / 2)%nat, bytes_sum 4 2 g (bs_data x) (bs_data y) (len / 2) mod 2 ^ 32)) as ->.
  { case_nat.
    2:{ by replace len with 0%nat by (symmetry; apply (ceil_zero len 8); [lia|assumption]). }
    destruct (v4_loop_ok debug 4 2 wrap g term eq_refl x y len Hxy block init finish total ok Hg
      blocks HB eq_refl ltac:(done)) as (i & acc & -> & Hi & Hok & Hacc).
    cbn [mbind option_bind]. rewrite usub_ok by lia. cbn [mbind option_bind].
    case_nat.
    - destruct (v4_last_ok debug 4 2 wrap g term eq_refl x y len Hxy block init finish total ok Hg
        i acc HB Hi Hok Hacc) as (vx & vy & -> & -> & Hf). cbn [mbind option_bind].
      rewrite Hf. do 2 f_equal. lia.
    - cbn [mbind option_bind]. rewrite (finish_sum _ _ _ _ _ _ _ _ _ _ HB _ _ _ _ Hok Hacc).
      by replace (4 * i)%nat with (len / 2)%nat by lia; replace (len / 2 + (len / 2 - len / 2))%nat
        with (len / 2)%nat by lia. }
  cbn [mbind option_bind]. destruct (half_left len 2 ltac:(lia)) as [Hle Hlt].
  rewrite (debug_rest debug len (len / 2 * 2) 1) by lia. cbn [mbind option_bind].
  apply (tail_one debug 4 2 wrap g term eq_refl x y len Hxy Hd); lia.
Qed.

Lemma v4_kernel_2_ok {A} debug
    (block : list Z → list Z → A → A) init finish total ok x y len :
  same_length 2 2 x y len → debug = false ∨ distance 2 Z.mul x y len < 2 ^ 31 →
  Block 2 4 (4 * 16) Z.mul u8_to_u32 block init finish total ok →
  v4_kernel_2 debug block init finish x y = Some (Ok (distance 2 Z.mul x y len mod 2 ^ 32)).
Proof.
  intros Hxy Hd HB. unfold v4_kernel_2. rewrite (check_equal 2 x y len Hxy).
  assert (Term debug 2 2 u32_of Z.mul (ip_term debug)) as HT by (apply _ || (apply ip_term_u32; lia)).
  set (blocks := ((len + 15) / 16)%nat).
  assert ((if (0 <? blocks)%nat then
      '(i, acc) ← u32_loop block 16 (bs_data x) (bs_data y) blocks (S blocks) 0 init;
      remainder ← usub (len / 4) (4 * i);
      vx ← load_rest (bs_data x) i remainder;
      vy ← load_rest (bs_data y) i remainder;
      Some ((4 * i + remainder)%nat, finish (block vx vy acc))
    else Some (0%nat, 0)) =
    Some ((len / 4)%nat, bytes_sum 2 4 Z.mul (bs_data x) (bs_data y) (len / 4) mod 2 ^ 32)) as ->.
  { case_nat.
    2:{ by replace len with 0%nat by (symmetry; apply (ceil_zero len 16); [lia|assumption]). }
    destruct (v4_loop_ok debug 2 4 _ _ _ eq_refl x y len Hxy block init finish total ok eq_refl
      blocks HB eq_refl ltac:(done)) as (i & acc & -> & Hi & Hok & Hacc).
    cbn [mbind option_bind]. rewrite usub_ok by lia. cbn [mbind option_bind].
    destruct (v4_last_ok debug 2 4 _ _ _ eq_refl x y len Hxy block init finish total ok eq_refl
      i acc HB Hi Hok Hacc) as (vx & vy & -> & -> & Hf). cbn [mbind option_bind].
    rewrite Hf. do 2 f_equal. lia. }
  cbn [mbind option_bind]. destruct (half_left len 4 ltac:(lia)) as [Hle Hlt].
  rewrite usub_ok by lia. cbn [mbind option_bind].
  rewrite debug_assert_true by (apply Z.leb_le; lia). cbn [mbind option_bind].
  rewrite Nat.min_l by lia. rewrite (Nat.mul_comm (len / 4)) in *.
  pose proof (distance_split debug 2 4 _ _ _ eq_refl x y len Hxy (len / 4) Hle) as Hs.
  pose proof (prefix_nonneg debug 2 4 _ _ _ eq_refl x y len Hxy (len / 4) Hle) as H0.
  pose proof (rest_nonneg debug 2 2 _ Z.mul _ x y len Hxy (4 * (len / 4)) (len - 4 * (len / 4))) as H1.
  set (P := bytes_sum _ _ _ _ _ _) in *. set (R := rest _ _ _ _ _ _ _) in *.
  destruct (Nat.eqb_spec (4 * (len / 4)) len) as [He|Hne]; cbn [negb].
  { unfold R in Hs. rewrite He, Nat.sub_diag in Hs. unfold rest, tailv in Hs. cbn in Hs.
    by rewrite Hs, Z.add_0_r. }
  destruct (scalar_loop_ok debug 2 2 u32_of Z.mul _ x y len Hxy (len - 4 * (len / 4))
    (4 * (len / 4)) (P mod 2 ^ 32)) as (r & -> & Hr & Hw & Hx); [lia| |].
  { fold R. destruct Hd as [|Hd]; [by left|right]. rewrite Z.mod_small by lia. lia. }
  cbn [mbind option_bind]. do 2 f_equal. rewrite <-Hw by (apply Z.mod_mod; lia).
  rewrite Hs. unfold as_unsigned. fold R in Hr. rewrite Hr. by rewrite Z.add_mod_idemp_l by lia.
Qed.

(** ** The Neon kernels *)

Section neon.
Context (debug : bool) (N q : nat) (wrap : Z → Z) (g : Z → Z → Z).
Context (term : (Z → Z) → Z → Z → option Z) `{!Term debug N N wrap g term}.
Context (Hq : (N * q = 8)%nat) (Hg : g 0 0 = 0).
Context (x y : BitSlice) (len : nat) (Hxy : same_length N N x y len).
Context {A : Type} (block : list Z → list Z → A → A) (init : A) (finish : A → Z).
Context (total : A → Z) (ok : A → Prop) (HB : Block N q 16 g id block init finish total ok).

Local Abbreviation prefix := (bytes_sum N q g (bs_data x) (bs_data y)).

Lemma neon_loop_ok bytes fuel : ∀ i acc,
  (bytes ≤ length (bs_data x))%nat → (i ≤ bytes)%nat → (bytes < i + fuel)%nat →
  ok acc → total acc ≡₃₂ prefix i →
  ∃ i' acc', neon_loop block (bs_data x) (bs_data y) bytes fuel i acc = Some (i', acc') ∧
    (i' ≤ bytes < i' + 16)%nat ∧ ok acc' ∧ total acc' ≡₃₂ prefix i'.
Proof using All.
  destruct (data_ok debug N q wrap g term Hq x y len Hxy) as (Bx & By & Hl & Hlen).
  induction fuel as [|fuel IH]; intros i acc Hb Hi Hf Hok Ht; [lia|]. cbn [neon_loop].
  case_nat; [|exists i, acc; split_and!; (done || lia)].
  rewrite !load_u8 by lia. cbn [mbind option_bind].
  destruct (block_full N q 16 g id block init finish total ok HB Hq Hg (bs_data x) (bs_data y)
    Bx By Hl i acc Hok Ht ltac:(lia)) as [Hok' Ht']. apply IH; [lia..|done|done].
Qed.

Lemma neon_kernel_ok remaining tail :
  (∀ b, (b ≤ 16)%nat → remaining b = b) →
  (∀ i, (i = q * (len / q))%nat → (i < len)%nat →
     tail x y i (prefix (len / q) mod 2 ^ 32) = Some (distance N g x y len mod 2 ^ 32)) →
  neon_kernel debug block init finish q remaining tail x y
    = Some (Ok (distance N g x y len mod 2 ^ 32)).
Proof using All.
  intros Hrem Htail. unfold neon_kernel. rewrite (check_equal N x y len Hxy).
  destruct (data_ok debug N q wrap g term Hq x y len Hxy) as (Bx & By & Hl & Hlen).
  assert (0 < q)%nat as Hq0 by nia. destruct (half_left len q Hq0) as [Hle Hlt].
  set (bytes := (len / q)%nat) in *. assert (bytes ≤ length (bs_data x))%nat as Hb by nia.
  assert ((if (0 <? bytes)%nat then
      '(i, acc) ← neon_loop block (bs_data x) (bs_data y) bytes (S bytes) 0 init;
      remaining_bytes ← usub bytes i;
      '(i, acc) ← (if (0 <? remaining_bytes)%nat then
               x_vec ← load_simd_first 1 16 (bs_data x) i (remaining remaining_bytes);
               y_vec ← load_simd_first 1 16 (bs_data y) i (remaining remaining_bytes);
               Some ((i + remaining_bytes)%nat, block x_vec y_vec acc)
             else Some (i, acc));
      Some (i, finish acc)
    else Some (0%nat, 0)) = Some (bytes, prefix bytes mod 2 ^ 32)) as ->.
  { case_nat; [|by replace bytes with 0%nat by lia].
    destruct (init_sum _ _ _ _ _ _ _ _ _ _ HB (bs_data x) (bs_data y)) as [Hi Ht].
    destruct (neon_loop_ok bytes (S bytes) 0 init) as (i & acc & -> & Hib & Hok & Hacc);
      [lia..|done|done|]. cbn [mbind option_bind]. rewrite usub_ok by lia. cbn [mbind option_bind].
    case_nat.
    - rewrite Hrem, !load_first_u8 by lia. cbn [mbind option_bind].
      destruct (block_bytes N q _ g _ block init finish total ok HB Hq Hg _ _ Bx By Hl i
        (bytes - i) acc Hok Hacc ltac:(lia) ltac:(lia)) as [Hok' Ht']. unfold id in Hok', Ht'.
      rewrite (finish_sum _ _ _ _ _ _ _ _ _ _ HB _ _ _ _ Hok' Ht').
      by replace (i + (bytes - i))%nat with bytes by lia.
    - cbn [mbind option_bind]. rewrite (finish_sum _ _ _ _ _ _ _ _ _ _ HB _ _ _ _ Hok Hacc).
      by replace i with bytes by lia. }
  cbn [mbind option_bind]. rewrite (Nat.mul_comm bytes). rewrite debug_rest by lia.
  cbn [mbind option_bind]. destruct (Nat.eqb_spec (q * bytes) len) as [He|Hne]; cbn [negb].
  - pose proof (distance_split debug N q _ _ _ Hq x y len Hxy bytes Hle) as Hs.
    rewrite He, Nat.sub_diag in Hs. unfold rest, tailv in Hs. cbn in Hs.
    by rewrite Hs, Z.add_0_r.
  - by rewrite Htail by (done || lia).
Qed.

End neon.

(** ** The scalar kernels *)

Lemma rest_all N g x y len : rest N N g x y 0 len = distance N g x y len.
Proof. done. Qed.

Lemma scalar_kernel_ok debug N wrap g term `{!Term debug N N wrap g term} x y len :
  same_length N N x y len → debug = false ∨ distance N g x y len < 2 ^ 31 →
  ∃ r, scalar_loop debug N N wrap term x y 0 len 0 = Some r ∧
    u32_of r = distance N g x y len mod 2 ^ 32 ∧ wrap r = r.
Proof.
  intros Hxy Hd. destruct (scalar_loop_ok debug N N wrap g term x y len Hxy len 0 0)
    as (r & Hr & He & Hw & _); [lia|rewrite rest_all; naive_solver lia|].
  exists r. split; [done|]. split; [exact He|]. apply Hw. by apply scalar_exact.
Qed.

(** ** Vectors of bits *)

Definition bits (w : nat) (z : Z) : list Z := map (λ k, field 1 k z) (seqZ 0 (Z.of_nat w)).

Lemma field1 k z : 0 ≤ k → field 1 k z = Z.b2z (Z.testbit z k).
Proof. intros Hk. unfold field. change (2 ^ 1) with 2. by rewrite Z.testbit_spec'. Qed.

Lemma vals_bits data k : vals 1 data k = bits k (le data).
Proof. apply map_ext. intros i. f_equal. lia. Qed.

Lemma sum_map (f : Z → Z) (g : Z → Z → Z) a b l :
  (∀ k, k ∈ l → f k = g (a k) (b k)) → sumZ (map f l) = sum2 g (map a l) (map b l).
Proof.
  induction l as [|k l IH]; intros H; [done|]. cbn [map]. rewrite sum2_cons, <-IH, <-H;
    [done|by left|intros; apply H; by right].
Qed.

(** The contract of a bitwise operation: it adds up [g] over the bits. *)
Class BitOp (op : BitVectorOp) (g : Z → Z → Z) := {
  bit_u64 : ∀ x y, on_u64 op x y = sum2 g (bits 64 x) (bits 64 y);
  bit_u8 : ∀ x y, on_u8 op x y = sum2 g (bits 8 x) (bits 8 y);
}.

Lemma xor_bits w x y : count_ones w (Z.lxor x y) = sum2 sq (bits w x) (bits w y).
Proof.
  apply sum_map. intros k Hk%elem_of_seqZ. rewrite !field1, Z.lxor_spec by lia.
  by destruct (Z.testbit x k), (Z.testbit y k).
Qed.

Lemma and_bits w x y : count_ones w (Z.land x y) = sum2 Z.mul (bits w x) (bits w y).
Proof.
  apply sum_map. intros k Hk%elem_of_seqZ. rewrite !field1, Z.land_spec by lia.
  by destruct (Z.testbit x k), (Z.testbit y k).
Qed.

#[export] Instance l2_bits : BitOp SquaredL2_op sq.
Proof. split; intros; apply xor_bits. Qed.
#[export] Instance hamming_bits : BitOp Hamming_op sq.
Proof. split; intros; apply xor_bits. Qed.
#[export] Instance ip_bits : BitOp InnerProduct_op Z.mul.
Proof. split; intros; apply and_bits. Qed.

Lemma bits_app a b z :
  bits (a + b) z = bits a z ++ map (λ k, field 1 (Z.of_nat a + k) z) (seqZ 0 (Z.of_nat b)).
Proof.
  unfold bits. rewrite Nat2Z.inj_add, seqZ_app, map_app by lia. f_equal.
  rewrite Z.add_comm, <-fmap_add_seqZ. apply map_map.
Qed.

Lemma bits_bounded w z : Forall (bounded 1) (bits w z).
Proof. apply Forall_map, Forall_true. intros i. apply field_bound. lia. Qed.

(** The last byte, masked. *)
Lemma masked_bits p i k b :
  bytes_ok p → p !! i = Some b → (k ≤ 8)%nat →
  bits 8 (Z.land b (Z.ones (Z.of_nat k))) =
    map (λ j, field 1 (Z.of_nat (8 * i) + j) (le p)) (seqZ 0 (Z.of_nat k)) ++ replicate (8 - k) 0.
Proof.
  intros Hp Hb Hk. replace 8%nat with (k + (8 - k))%nat at 1 by lia. rewrite bits_app.
  assert (∀ j, 0 ≤ j → field 1 j (Z.land b (Z.ones (Z.of_nat k))) =
    if j <? Z.of_nat k then field 1 (Z.of_nat (8 * i) + j) (le p) else 0) as Hf.
  { intros j Hj. rewrite !field1, Z.land_spec, Z.testbit_ones_nonneg by lia.
    destruct (Z.ltb_spec j (Z.of_nat k)); [|by rewrite andb_false_r]. rewrite andb_true_r.
    rewrite (byte_field p i b Hp Hb), testbit_field, (proj2 (Z.ltb_lt j 8)) by lia.
    cbn [andb]. do 2 f_equal. lia. }
  f_equal.
  - apply map_ext_in. intros j Hj%list_elem_of_In%elem_of_seqZ. rewrite Hf by lia.
    by rewrite (proj2 (Z.ltb_lt _ _)) by lia.
  - symmetry. apply replicate_as_Forall_2; [rewrite length_map, length_seqZ; lia|].
    apply Forall_map, Forall_seqZ. intros j Hj. rewrite Hf by lia.
    by rewrite (proj2 (Z.ltb_ge _ _)) by lia.
Qed.

Lemma add_word debug e t :
  0 ≤ e → 0 ≤ t → debug = false ∨ e + t < 2 ^ 31 →
  arith debug (as_unsigned 32) (e mod 2 ^ 32 + t) = Some ((e + t) mod 2 ^ 32).
Proof.
  intros He Ht Hb. rewrite arith_u32.
  - f_equal. by rewrite Z.add_mod_idemp_l by lia.
  - destruct Hb as [|Hb]; [by left|right]. rewrite Z.mod_small by lia. lia.
Qed.

Section bitvector.
Context (debug : bool) (op : BitVectorOp) (g : Z → Z → Z) `{!BitOp op g}.
Context (Hg0 : g 0 0 = 0) (Hg : ∀ x y, bounded 1 x → bounded 1 y → 0 ≤ g x y).
Context (px py : list Z) (Bx : bytes_ok px) (By : bytes_ok py) (Hlen : length px = length py).
Context (len : nat) (Hl : (len ≤ 8 * length px)%nat).

Definition bit_distance : Z := sum2 g (bits len (le px)) (bits len (le py)).
Context (Hd : debug = false ∨ bit_distance < 2 ^ 31).
Local Abbreviation prefix := (bytes_sum 1 8 g px py).

Lemma prefix_bits m : (8 * m ≤ len)%nat → prefix m = sum2 g (bits (8 * m) (le px)) (bits (8 * m) (le py)).
Proof using Bx By Hlen Hl.
  intros Hm. rewrite bytes_sum_vals by (done || lia). by rewrite !vals_bits.
Qed.

Definition last_bits (a b : nat) : Z :=
  sum2 g (map (λ k, field 1 (Z.of_nat a + k) (le px)) (seqZ 0 (Z.of_nat b)))
    (map (λ k, field 1 (Z.of_nat a + k) (le py)) (seqZ 0 (Z.of_nat b))).

Lemma last_nonneg a b : 0 ≤ last_bits a b.
Proof using Hg Hl Hlen.
  apply (sum2_nonneg 1 1); [done|apply Forall_map, Forall_true..]; intros i; apply field_bound; lia.
Qed.

Lemma distance_bits m :
  (8 * m ≤ len)%nat → bit_distance = prefix m + last_bits (8 * m) (len - 8 * m).
Proof using Bx By Hlen Hl.
  intros Hm. rewrite prefix_bits by done. unfold bit_distance, last_bits.
  replace len with (8 * m + (len - 8 * m))%nat at 1 2 by lia. rewrite !bits_app, sum2_app; [done|].
  unfold bits. by rewrite !length_map.
Qed.

Lemma prefix_bounds m : (8 * m ≤ len)%nat → 0 ≤ prefix m ≤ bit_distance.
Proof using Bx By Hlen Hl Hg.
  intros Hm. pose proof (last_nonneg (8 * m) (len - 8 * m)). rewrite (distance_bits m) by done.
  assert (0 ≤ prefix m); [|lia]. rewrite prefix_bits by done.
  by apply (sum2_nonneg 1 1); [|apply bits_bounded..].
Qed.

Lemma word_loop_ok w f blocks fuel : ∀ i,
  (0 < w)%nat → (8 * (w * blocks) ≤ len)%nat → (i ≤ blocks)%nat → (blocks < i + fuel)%nat →
  (∀ a b, f a b = sum2 g (bits (8 * w) a) (bits (8 * w) b)) →
  word_loop debug w f px py blocks fuel i (prefix (w * i) mod 2 ^ 32)
    = Some (blocks, prefix (w * blocks) mod 2 ^ 32).
Proof using All.
  induction fuel as [|fuel IH]; intros i Hw Hb Hi Hf HF; [lia|]. cbn [word_loop].
  case_nat; [|by replace blocks with i by lia].
  rewrite !read_le_ok by nia. cbn [mbind option_bind]. rewrite HF.
  assert (∀ p, bytes_ok p → length p = length px →
    bits (8 * w) (le (take w (drop (w * i) p))) = take w (drop (w * i) p) ≫= elems 1 8) as Hv.
  { intros p Hp Hpl. rewrite <-vals_bits, (vals_bytes 1 8); [|done|by apply bytes_ok_take, bytes_ok_drop|].
    - by rewrite take_idemp.
    - rewrite length_take, length_drop. nia. }
  rewrite !Hv by done. pose proof (prefix_bounds (w * i + w) ltac:(nia)) as H1.
  pose proof (prefix_bounds (w * i) ltac:(nia)) as H2.
  rewrite bytes_sum_app in H1 by (done || nia).
  rewrite add_word; [|lia| |destruct Hd; [by left|right; lia]].
  - cbn [mbind option_bind]. rewrite <-bytes_sum_app by (done || nia).
    replace (w * i + w)%nat with (w * (i + 1))%nat by lia. apply IH; (done || lia).
  - rewrite <-!Hv by done. by apply (sum2_nonneg 1 1); [|apply bits_bounded..].
Qed.

Lemma last_byte i k vx vy m :
  (k ≤ 8)%nat → px !! i = Some vx → py !! i = Some vy → m = Z.ones (Z.of_nat k) →
  on_u8 op (Z.land vx m) (Z.land vy m) = last_bits (8 * i) k.
Proof using BitOp0 Hg0 Bx By Hl Hlen.
  intros Hk Hx Hy ->. rewrite bit_u8, (masked_bits px i k vx), (masked_bits py i k vy) by done.
  rewrite sum2_app, (sum2_zero _ (replicate _ _)); [unfold last_bits; lia| |by rewrite !length_map].
  intros a b [-> _]%elem_of_replicate [-> _]%elem_of_replicate. done.
Qed.

End bitvector.

Lemma read_byte (p : list Z) i b : p !! i = Some b → read_le p i 1 = Some b.
Proof.
  intros H. assert (i < length p)%nat by (by eapply lookup_lt_Some). rewrite read_le_ok by lia.
  rewrite (drop_S _ _ _ H). cbn [take]. by rewrite le_single.
Qed.

Lemma byte_mask debug k :
  (k < 8)%nat →
  arith debug (as_unsigned 8) (Z.shiftl 1 (Z.of_nat k) mod 2 ^ 8 - 1) = Some (Z.ones (Z.of_nat k)).
Proof. intros Hk. unfold arith. do 8 (destruct k as [|k]; [done|]). lia. Qed.

Lemma bitvector_op_ok debug op g `{!BitOp op g} x y len :
  g 0 0 = 0 → (∀ a b, bounded 1 a → bounded 1 b → 0 ≤ g a b) →
  same_length 1 1 x y len → debug = false ∨ distance 1 g x y len < 2 ^ 31 →
  bitvector_op debug op x y = Some (Ok (distance 1 g x y len mod 2 ^ 32)).
Proof.
  intros Hg0 Hg Hxy Hd. unfold bitvector_op. rewrite (check_equal 1 x y len Hxy).
  destruct (data_ok debug 1 8 _ _ _ (Term0 := ip_term_u32 debug 1 1 ltac:(lia) ltac:(lia)) eq_refl
    x y len Hxy) as (Bx & By & Hl & Hlen).
  unfold distance in Hd |- *. rewrite !vals_bits in Hd |- *.
  set (px := bs_data x) in *. set (py := bs_data y) in *. fold (bit_distance g px py len) in Hd |- *.
  destruct (half_left len 64 ltac:(lia)) as [H64 L64]. destruct (half_left len 8 ltac:(lia)) as [H8 L8].
  assert (0%Z = bytes_sum 1 8 g px py (8 * 0) mod 2 ^ 32) as E0 by done. rewrite E0 at 1.
  rewrite (word_loop_ok debug op g Hg0 Hg px py Bx By Hl len Hlen Hd 8 _ (len / 64) (S len) 0)
    by (done || lia || (intros; apply bit_u64)).
  cbn [mbind option_bind]. replace (8 * (len / 64))%nat with (1 * (len / 64 * 8))%nat by lia.
  rewrite (word_loop_ok debug op g Hg0 Hg px py Bx By Hl len Hlen Hd 1 _ (len / 8) (S len))
    by (done || lia || (intros; apply bit_u8)).
  cbn [mbind option_bind]. rewrite Nat.mul_1_l.
  pose proof (distance_bits g px py Bx By Hl len Hlen (len / 8) H8) as Hs.
  pose proof (prefix_bounds g Hg px py Bx By Hl len Hlen (len / 8) H8) as Hp.
  destruct (Nat.eqb_spec (len / 8 * 8) len) as [He|Hne]; cbn [negb].
  { rewrite (Nat.mul_comm 8), He, Nat.sub_diag in Hs. rewrite Hs. cbn. by rewrite Z.add_0_r. }
  destruct (lookup_lt_is_Some_2 px (len / 8)) as [vx Hx]; [lia|].
  destruct (lookup_lt_is_Some_2 py (len / 8)) as [vy Hy]; [lia|].
  rewrite (read_byte px _ vx Hx), (read_byte py _ vy Hy), usub_ok by lia. cbn [mbind option_bind].
  set (k := (len - 8 * (len / 8))%nat) in *. rewrite (proj2 (Nat.ltb_lt k 8)) by lia.
  rewrite (byte_mask debug k) by lia. cbn [rassert mbind option_bind].
  rewrite (last_byte op g Hg0 px py Bx By Hl len Hlen (len / 8) k vx vy) by (done || lia).
  pose proof (last_nonneg g Hg px py Hl len Hlen (8 * (len / 8)) k).
  rewrite add_word by (lia || (destruct Hd; [by left|right; lia])).
  cbn [mbind option_bind]. by rewrite <-Hs.
Qed.

(** ** The distances *)

Lemma check_unequal x y : bs_len x ≠ bs_len y → check_lengths x y = Err unequal_lengths.
Proof. intros H. unfold check_lengths. by rewrite (proj2 (Z.eqb_neq _ _)). Qed.

Lemma slices_same N x y :
  slice_wf N (Dense N) x → slice_wf N (Dense N) y → bs_len x = bs_len y →
  same_length N N x y (Z.to_nat (bs_len x)).
Proof. intros Hx Hy He. pose proof (proj1 (proj2 Hx)). split; (done || lia). Qed.

Lemma distance_values N g x y :
  (1 ≤ N ≤ 8)%nat → slice_wf N (Dense N) x → slice_wf N (Dense N) y → bs_len x = bs_len y →
  sum2 g (values (Unsigned N) (Dense N) x) (values (Unsigned N) (Dense N) y) =
    distance N g x y (Z.to_nat (bs_len x)).
Proof.
  intros HN Hx Hy He. rewrite !values_dense by done. unfold distance. by rewrite He.
Qed.

Section dispatch.
Context (debug : bool) (x y : BitSlice) (len : nat).

Lemma l2_scalar_ok N :
  (1 ≤ N ≤ 8)%nat → same_length N N x y len → debug = false ∨ distance N sq x y len < 2 ^ 31 →
  squared_l2_scalar debug N x y = Some (Ok (distance N sq x y len mod 2 ^ 32)).
Proof.
  intros HN Hxy Hd. unfold squared_l2_scalar. rewrite (check_equal N x y len Hxy).
  destruct (scalar_kernel_ok debug N i32_of sq (l2_term debug) (Term0 := l2_term_ok debug N HN)
    x y len Hxy Hd) as (r & -> & <- & _). done.
Qed.

Lemma ip_scalar_ok N :
  (1 ≤ N ≤ 8)%nat → same_length N N x y len → debug = false ∨ distance N Z.mul x y len < 2 ^ 31 →
  inner_product_scalar debug N N x y = Some (Ok (distance N Z.mul x y len mod 2 ^ 32)).
Proof.
  intros HN Hxy Hd. unfold inner_product_scalar. rewrite (check_equal N x y len Hxy).
  destruct (scalar_kernel_ok debug N u32_of Z.mul (ip_term debug)
    (Term0 := ip_term_u32 debug N N HN HN) x y len Hxy Hd) as (r & -> & <- & Hw).
  cbn [mbind option_bind]. by rewrite Hw.
Qed.

Lemma l2_4_ok :
  same_length 4 4 x y len → debug = false ∨ distance 4 sq x y len < 2 ^ 31 →
  squared_l2_v3_4 debug x y = Some (Ok (distance 4 sq x y len mod 2 ^ 32)) ∧
  squared_l2_v4_4 debug x y = Some (Ok (distance 4 sq x y len mod 2 ^ 32)).
Proof.
  intros Hxy Hd. pose proof (l2_term_ok debug 4 ltac:(lia)) as HT. split.
  - eapply (v3_kernel_ok debug 4 2); [done..|by apply l2_4_block].
  - eapply v4_kernel_4_ok; [done..|by apply l2_4_block].
Qed.

Lemma l2_2_ok :
  same_length 2 2 x y len → debug = false ∨ distance 2 sq x y len < 2 ^ 31 →
  squared_l2_v3_2 debug x y = Some (Ok (distance 2 sq x y len mod 2 ^ 32)).
Proof.
  intros Hxy Hd. pose proof (l2_term_ok debug 2 ltac:(lia)) as HT.
  eapply (v3_kernel_ok debug 2 4); [done..|by apply l2_2_block].
Qed.

Lemma ip_4_ok :
  same_length 4 4 x y len → debug = false ∨ distance 4 Z.mul x y len < 2 ^ 31 →
  let r := Some (Ok (distance 4 Z.mul x y len mod 2 ^ 32)) in
  inner_product_v3_4 debug x y = r ∧ inner_product_v4_4 debug x y = r ∧
  inner_product_neon_4 debug x y = r.
Proof.
  intros Hxy Hd. pose proof (ip_term_u32 debug 4 4 ltac:(lia) ltac:(lia)) as HT.
  pose proof (ip_term_i32 debug 4 4 ltac:(lia) ltac:(lia)) as HT'. split_and!.
  - eapply (v3_kernel_ok debug 4 2); [done..|by apply ip_4_block].
  - eapply v4_kernel_4_ok; [done..|by apply ip_4_u8_block].
  - eapply (neon_kernel_ok debug 4 2 i32_of); [done..|apply ip_4_neon_block|intros; lia|].
    intros i Hi Hlt. destruct (half_left len 2 ltac:(lia)) as [_ H2].
    pose proof (tail_one debug 4 2 i32_of Z.mul _ eq_refl x y len Hxy Hd i
      ltac:(done) ltac:(lia)) as Ht.
    rewrite (proj2 (Nat.eqb_neq i len)) in Ht by lia. cbn [negb] in Ht.
    apply bind_Some in Ht as (s & Hs & [= ->]). exact Hs.
Qed.

Lemma ip_2_ok :
  same_length 2 2 x y len → debug = false ∨ distance 2 Z.mul x y len < 2 ^ 31 →
  let r := Some (Ok (distance 2 Z.mul x y len mod 2 ^ 32)) in
  inner_product_v3_2 debug x y = r ∧ inner_product_v4_2 debug x y = r ∧
  inner_product_neon_2 debug x y = r.
Proof.
  intros Hxy Hd. pose proof (ip_term_u32 debug 2 2 ltac:(lia) ltac:(lia)) as HT.
  pose proof (ip_term_i32 debug 2 2 ltac:(lia) ltac:(lia)) as HT'. split_and!.
  - eapply (v3_kernel_ok debug 2 4); [done..|by apply ip_2_block].
  - eapply v4_kernel_2_ok; [done..|by apply ip_2_u8_block].
  - eapply (neon_kernel_ok debug 2 4 i32_of); [done..|apply ip_2_neon_block|done|].
    intros i Hi Hlt. destruct (half_left len 4 ltac:(lia)) as [H4 _].
    pose proof (tail_fallback debug 2 4 i32_of Z.mul _ eq_refl x y len Hxy Hd (len / 4) i
      ltac:(lia) Hi) as Ht.
    rewrite (proj2 (Nat.eqb_neq i len)) in Ht by lia. cbn [negb] in Ht.
    apply bind_Some in Ht as (s & Hs & [= ->]). exact Hs.
Qed.

Lemma bits_1_ok :
  same_length 1 1 x y len →
  (debug = false ∨ distance 1 sq x y len < 2 ^ 31 →
   bitvector_op debug SquaredL2_op x y = Some (Ok (distance 1 sq x y len mod 2 ^ 32)) ∧
   bitvector_op debug Hamming_op x y = Some (Ok (distance 1 sq x y len mod 2 ^ 32))) ∧
  (debug = false ∨ distance 1 Z.mul x y len < 2 ^ 31 →
   bitvector_op debug InnerProduct_op x y = Some (Ok (distance 1 Z.mul x y len mod 2 ^ 32))).
Proof.
  intros Hxy. split; intros Hd; [split|];
    (apply bitvector_op_ok; [apply _|done|unfold bounded, sq; intros; nia|done|done]).
Qed.

End dispatch.

(** Destructs a width between 1 and 7. *)
Ltac widths N :=
  let H := fresh in
  assert (N = 1 ∨ N = 2 ∨ N = 3 ∨ N = 4 ∨ N = 5 ∨ N = 6 ∨ N = 7)%nat as H by lia;
  destruct_or! H; subst N.

Lemma squared_l2_unequal debug arch N x y :
  (1 ≤ N ≤ 7)%nat → bs_len x ≠ bs_len y →
  squared_l2 debug arch N x y = Some (Err unequal_lengths).
Proof.
  intros HN Hne. pose proof (check_unequal x y Hne) as Hc.
  widths N; destruct arch; cbn; unfold squared_l2_v3_4, squared_l2_v3_2, squared_l2_v4_4,
    v3_kernel, v4_kernel_4, squared_l2_scalar, bitvector_op; by rewrite Hc.
Qed.

Lemma inner_product_unequal debug arch N x y :
  (1 ≤ N ≤ 7)%nat → bs_len x ≠ bs_len y →
  inner_product debug arch N x y = Some (Err unequal_lengths).
Proof.
  intros HN Hne. pose proof (check_unequal x y Hne) as Hc.
  widths N; destruct arch; cbn; unfold inner_product_v3_4, inner_product_v3_2, inner_product_v4_4,
    inner_product_v4_2, inner_product_neon_4, inner_product_neon_2, v3_kernel, v4_kernel_4,
    v4_kernel_2, neon_kernel, inner_product_scalar, bitvector_op; by rewrite Hc.
Qed.

(** C35: The squared Euclidean distance of packed slices of 1 to 7 bits, on every architecture:
    slices of different lengths are an error; otherwise the result is the sum of the squared
    differences of the values, modulo 2^32, whichever kernel computes it, and no kernel reads
    outside the slices. A debug build panics on overflow; it agrees when the sum is below
    2^31. *)
Theorem squared_l2_correct debug arch N x y :
  (1 ≤ N ≤ 7)%nat → slice_wf N (Dense N) x → slice_wf N (Dense N) y →
  let d := sum2 sq (values (Unsigned N) (Dense N) x) (values (Unsigned N) (Dense N) y) in
  (bs_len x ≠ bs_len y → squared_l2 debug arch N x y = Some (Err unequal_lengths)) ∧
  (bs_len x = bs_len y → debug = false ∨ d < 2 ^ 31 →
   squared_l2 debug arch N x y = Some (Ok (d mod 2 ^ 32))).
Proof.
  intros HN Hx Hy d. split; [by apply squared_l2_unequal|]. intros He. unfold d. clear d.
  rewrite distance_values by (done || lia). set (len := Z.to_nat (bs_len x)).
  pose proof (slices_same N x y Hx Hy He) as Hxy. fold len in Hxy. intros Hd.
  widths N; destruct arch; cbn [squared_l2 squared_l2_v3];
    match goal with
    | |- bitvector_op _ _ _ _ = _ => exact (proj1 (proj1 (bits_1_ok debug x y len Hxy) Hd))
    | |- squared_l2_scalar _ _ _ _ = _ => apply l2_scalar_ok; (done || lia)
    | |- squared_l2_v3_2 _ _ _ = _ => exact (l2_2_ok debug x y len Hxy Hd)
    | |- squared_l2_v3_4 _ _ _ = _ => exact (proj1 (l2_4_ok debug x y len Hxy Hd))
    | |- squared_l2_v4_4 _ _ _ = _ => exact (proj2 (l2_4_ok debug x y len Hxy Hd))
    end.
Qed.

(** The inner product of packed slices of the same width of 1 to 7 bits, on every
    architecture: as for the squared distance, with the sum of the products of the values. *)
Theorem inner_product_correct debug arch N x y :
  (1 ≤ N ≤ 7)%nat → slice_wf N (Dense N) x → slice_wf N (Dense N) y →
  let d := sum2 Z.mul (values (Unsigned N) (Dense N) x) (values (Unsigned N) (Dense N) y) in
  (bs_len x ≠ bs_len y → inner_product debug arch N x y = Some (Err unequal_lengths)) ∧
  (bs_len x = bs_len y → debug = false ∨ d < 2 ^ 31 →
   inner_product debug arch N x y = Some (Ok (d mod 2 ^ 32))).
Proof.
  intros HN Hx Hy d. split; [by apply inner_product_unequal|]. intros He. unfold d. clear d.
  rewrite distance_values by (done || lia). set (len := Z.to_nat (bs_len x)).
  pose proof (slices_same N x y Hx Hy He) as Hxy. fold len in Hxy. intros Hd.
  widths N; destruct arch; cbn [inner_product];
    match goal with
    | |- bitvector_op _ _ _ _ = _ => exact (proj2 (bits_1_ok debug x y len Hxy) Hd)
    | |- inner_product_scalar _ _ _ _ _ = _ => apply ip_scalar_ok; (done || lia)
    | |- inner_product_v3_2 _ _ _ = _ => exact (proj1 (ip_2_ok debug x y len Hxy Hd))
    | |- inner_product_v4_2 _ _ _ = _ => exact (proj1 (proj2 (ip_2_ok debug x y len Hxy Hd)))
    | |- inner_product_neon_2 _ _ _ = _ => exact (proj2 (proj2 (ip_2_ok debug x y len Hxy Hd)))
    | |- inner_product_v3_4 _ _ _ = _ => exact (proj1 (ip_4_ok debug x y len Hxy Hd))
    | |- inner_product_v4_4 _ _ _ = _ => exact (proj1 (proj2 (ip_4_ok debug x y len Hxy Hd)))
    | |- inner_product_neon_4 _ _ _ = _ => exact (proj2 (proj2 (ip_4_ok debug x y len Hxy Hd)))
    end.
Qed.

Lemma squared_l2_correct_witness :
  let x := mkBitSlice (replicate 37 0x5a) 73 in
  let y := mkBitSlice (replicate 37 0x13) 73 in
  squared_l2 true V4 4 x y = Some (Ok 2389).
Proof.
  intros x y. destruct (squared_l2_correct true V4 4 x y) as [_ H].
  - lia.
  - split_and!; [by apply Forall_replicate|cbn; lia|cbn; lia|intros []; reflexivity].
  - split_and!; [by apply Forall_replicate|cbn; lia|cbn; lia|intros []; reflexivity].
  - rewrite H; [reflexivity|reflexivity|right; vm_compute; reflexivity].
Defined.

Lemma inner_product_correct_witness :
  let x := mkBitSlice (replicate 87 0x5a) 347 in
  let y := mkBitSlice (replicate 87 0x13) 347 in
  inner_product true Neon 2 x y = Some (Ok 609).
Proof.
  intros x y. destruct (inner_product_correct true Neon 2 x y) as [_ H].
  - lia.
  - split_and!; [by apply Forall_replicate|cbn; lia|cbn; lia|intros []; reflexivity].
  - split_and!; [by apply Forall_replicate|cbn; lia|cbn; lia|intros []; reflexivity].
  - rewrite H; [reflexivity|reflexivity|right; vm_compute; reflexivity].
Defined.

(** Bits as values -1 and 1. *)
Lemma values_binary s :
  slice_wf 1 (Dense 1) s →
  values Binary (Dense 1) s = map (λ v, Z.shiftl v 1 - 1) (vals 1 (bs_data s) (Z.to_nat (bs_len s))).
Proof.
  intros Hs. unfold values, vals. pose proof (proj1 (proj2 Hs)) as H0. rewrite Z2Nat.id by done.
  etrans; [|symmetry; apply map_map]. apply omap_all. intros i Hi%elem_of_seqZ.
  unfold slice_get, get_unchecked. rewrite (proj2 (Z.leb_gt _ _)) by lia.
  rewrite debug_assert_true by (apply Z.ltb_lt; lia). cbn [mbind option_bind perm_unpack Dense].
  by rewrite (dense_unpack_field 1 ltac:(lia) false _ (bs_len s)) by (done || lia).
Qed.

(** The Hamming distance of slices of -1 and 1 is the number of positions at which they
    differ. *)
Lemma hamming_correct debug x y :
  slice_wf 1 (Dense 1) x → slice_wf 1 (Dense 1) y →
  let d := sum2 (λ a b, if a =? b then 0 else 1) (values Binary (Dense 1) x) (values Binary (Dense 1) y) in
  (bs_len x ≠ bs_len y → hamming debug x y = Some (Err unequal_lengths)) ∧
  (bs_len x = bs_len y → debug = false ∨ d < 2 ^ 31 → hamming debug x y = Some (Ok (d mod 2 ^ 32))).
Proof.
  intros Hx Hy d. split.
  { intros Hne. unfold hamming, bitvector_op. by rewrite check_unequal. }
  intros He. pose proof (slices_same 1 x y Hx Hy He) as Hxy.
  assert (d = distance 1 sq x y (Z.to_nat (bs_len x))) as ->.
  { unfold d, distance. rewrite !values_binary, He by done.
    pose proof (vals_bounded 1 (bs_data x) (Z.to_nat (bs_len y))) as Bx.
    pose proof (vals_bounded 1 (bs_data y) (Z.to_nat (bs_len y))) as By.
    unfold sum2. revert Bx By.
    generalize (vals 1 (bs_data x) (Z.to_nat (bs_len y))), (vals 1 (bs_data y) (Z.to_nat (bs_len y))).
    induction l as [|a l IH]; intros [|b l'] Bx By; try done. inversion Bx; inversion By; subst.
    cbn [map zip_with sumZ foldr]. f_equal; [|by apply IH]. unfold bounded in *.
    assert ((a = 0 ∨ a = 1) ∧ (b = 0 ∨ b = 1)) as [[-> | ->] [-> | ->]] by lia; done. }
  apply bits_1_ok, Hxy.
Qed.
