(* ===== verification/BitMixed.v ===== *)
(** * Inner products of slices of different widths

    Models the kernels of [diskann-quantization/src/bits/distances.rs] whose arguments differ:
    transposed 4-bit values with bits ([USlice<4, BitTranspose>] and [USlice<1>]). The
    conventions are those of [BitKernels]. *)

From S2P Require Import Prelude Bytes BitSlice Simd BitKernels BitBlocks BitDistance.
Local Open Scope Z_scope.

Section mixed.
Variable debug : bool.

(** The four words of block [i], masked with [bits], added to [s]. *)
Definition planes (px : list Z) (i : nat) (bits s : Z) : option Z :=
  b0 ← read_le px (8 * (4 * i)) 8;
  s ← arith debug u32_of (s + count_ones 64 (Z.land bits b0));
  b1 ← read_le px (8 * (4 * i + 1)) 8;
  s ← arith debug u32_of (s + Z.shiftl (count_ones 64 (Z.land bits b1)) 1);
  b2 ← read_le px (8 * (4 * i + 2)) 8;
  s ← arith debug u32_of (s + Z.shiftl (count_ones 64 (Z.land bits b2)) 2);
  b3 ← read_le px (8 * (4 * i + 3)) 8;
  arith debug u32_of (s + Z.shiftl (count_ones 64 (Z.land bits b3)) 3).

Fixpoint transpose_loop (px py : list Z) (blocks fuel i : nat) (s : Z) : option (nat * Z) :=
  match fuel with
  | O => None
  | S fuel =>
      if (i <? blocks)%nat then
        bits ← read_le py (8 * i) 8;
        s ← planes px i bits s;
        transpose_loop px py blocks fuel (i + 1) s
      else Some (i, s)
  end.

(** [for j in 0..bytes_remaining.min(8)]: the bytes from [k] on, as a word. *)
Fixpoint byte_loop (py : list Z) (k j count : nat) (bits : Z) : option Z :=
  match count with
  | O => Some bits
  | S count =>
      b ← read_le py (k + j) 1;
      bits ← arith debug (as_unsigned 64) (bits + Z.shiftl b (8 * Z.of_nat j) mod 2 ^ 64);
      byte_loop py k (S j) count bits
  end.

(** [Target2::run] of [InnerProduct] on [USlice<4, BitTranspose>] and [USlice<1>]. *)
Definition inner_product_transposed (x y : BitSlice) : option (result UnequalLengths Z) :=
  match check_lengths x y with
  | Err e => Some (Err e)
  | Ok len =>
      let px := bs_data x in
      let py := bs_data y in
      '(i, s) ← transpose_loop px py (len / 64) (S len) 0 0;
      if (64 * i =? len)%nat then Some (Ok s) else
      let k := (i * 8)%nat in
      bytes ← bytes_for debug (Dense 1) (bs_len y);
      bytes_remaining ← usub (Z.to_nat bytes) k;
      bits ← byte_loop py k 0 (Nat.min bytes_remaining 8) 0;
      left ← usub len (64 * i);
      _ ← rassert (left <? 64)%nat;
      m ← arith debug (as_unsigned 64) (Z.shiftl 1 (Z.of_nat left) mod 2 ^ 64 - 1);
      s ← planes px i (Z.land bits m) s;
      Some (Ok s)
  end.

End mixed.

(** ** Transposed values *)

(** Bit [p] of transposed value [j] and the value. *)
Definition plane_bit (px : list Z) (j p : Z) : bool :=
  Z.testbit (le px) (256 * (j / 64) + 64 * p + j mod 64).
Definition tvalue (px : list Z) (j : Z) : Z :=
  Z.b2z (plane_bit px j 0) + 2 * Z.b2z (plane_bit px j 1) +
  4 * Z.b2z (plane_bit px j 2) + 8 * Z.b2z (plane_bit px j 3).

Lemma byte_bit data a b :
  bytes_ok data → (a < length data)%nat → 0 ≤ b < 8 →
  Z.testbit (data !!! a) b = Z.testbit (le data) (8 * Z.of_nat a + b).
Proof.
  intros Hd Ha Hb. destruct (lookup_lt_is_Some_2 data a Ha) as [v Hv].
  rewrite (list_lookup_total_correct _ _ _ Hv), (byte_field data a v Hd Hv).
  rewrite testbit_field, (proj2 (Z.ltb_lt b 8)) by lia. done.
Qed.

Lemma four_bits v : 0 ≤ v < 16 →
  v = Z.b2z (Z.testbit v 0) + 2 * Z.b2z (Z.testbit v 1) + 4 * Z.b2z (Z.testbit v 2) +
      8 * Z.b2z (Z.testbit v 3).
Proof.
  intros Hv. rewrite !Z.testbit_spec' by lia. change (2 ^ 0) with 1. change (2 ^ 1) with 2.
  change (2 ^ 2) with 4. change (2 ^ 3) with 8. dlia.
Qed.

Lemma transposed_value debug s i :
  slice_wf 4 BitTranspose s → 0 ≤ i < bs_len s →
  get_unchecked debug (Unsigned 4) BitTranspose s i = Some (tvalue (bs_data s) i).
Proof.
  intros Hs Hi. unfold get_unchecked. rewrite debug_assert_true by (apply Z.ltb_lt; lia).
  cbn [mbind option_bind perm_unpack BitTranspose].
  destruct (transpose_unpack_bits debug (bs_data s) (bs_len s) i Hs Hi) as (v & -> & Hb).
  destruct (transpose_address debug (bs_data s) (bs_len s) i Hs Hi) as (_ & H0 & H1).
  assert (0 ≤ v < 16) as Hv.
  { apply (bounded_by_bits 4); [lia|]. intros k Hk. rewrite Hb, (proj2 (Z.ltb_ge k 4)) by lia.
    by rewrite andb_false_r. }
  assert (v = tvalue (bs_data s) i) as <-.
  { rewrite (four_bits v Hv). unfold tvalue, plane_bit.
    assert (∀ p, 0 ≤ p < 4 → Z.testbit v p =
      Z.testbit (le (bs_data s)) (256 * (i / 64) + 64 * p + i mod 64)) as Hp.
    { intros p Hp. rewrite Hb, (proj2 (Z.leb_le _ _)), (proj2 (Z.ltb_lt _ _)) by lia. cbn [andb].
      rewrite byte_bit by (apply Hs || lia || dlia). f_equal. unfold start_of in *. dlia. }
    by rewrite !Hp by lia. }
  cbn [mbind option_bind repr_decode Unsigned]. rewrite debug_assert_true; [done|].
  by rewrite (proj2 (Z.leb_le _ _)), (proj2 (Z.leb_le _ _)) by lia.
Qed.

Lemma values_transposed s :
  slice_wf 4 BitTranspose s →
  values (Unsigned 4) BitTranspose s = map (tvalue (bs_data s)) (seqZ 0 (bs_len s)).
Proof.
  intros Hs. apply omap_all. intros i Hi%elem_of_seqZ. unfold slice_get.
  by rewrite (proj2 (Z.leb_gt _ _)), transposed_value by (done || lia).
Qed.

(** ** Sums over indices *)

Definition sum_to (h : Z → Z) (k : nat) : Z := sumZ (map h (seqZ 0 (Z.of_nat k))).

Lemma sum_to_app h a b : sum_to h (a + b) = sum_to h a + sum_to (λ k, h (Z.of_nat a + k)) b.
Proof.
  unfold sum_to. rewrite Nat2Z.inj_add, seqZ_app, map_app, sumZ_app by lia. f_equal. f_equal.
  rewrite Z.add_comm, <-fmap_add_seqZ. apply map_map.
Qed.

Lemma sum_to_ext h h' k : (∀ i, 0 ≤ i < Z.of_nat k → h i = h' i) → sum_to h k = sum_to h' k.
Proof.
  intros H. unfold sum_to. f_equal. apply map_ext_in. intros i Hi%list_elem_of_In%elem_of_seqZ.
  apply H. lia.
Qed.

Lemma sum_to_nonneg h k : (∀ i, 0 ≤ i → 0 ≤ h i) → 0 ≤ sum_to h k.
Proof.
  intros H. unfold sum_to. assert (Forall (λ i, 0 ≤ i) (seqZ 0 (Z.of_nat k))) as Hl
    by (apply Forall_seqZ; lia).
  induction Hl as [|i l Hi Hl IH]; [done|]. cbn [map sumZ foldr]. fold (sumZ (map h l)).
  specialize (H i Hi). lia.
Qed.

Lemma sum_to_plus h h' k : sum_to h k + sum_to h' k = sum_to (λ i, h i + h' i) k.
Proof.
  unfold sum_to. induction (seqZ 0 (Z.of_nat k)) as [|i l IH]; [done|]. cbn [map sumZ foldr].
  fold (sumZ (map h l)) (sumZ (map h' l)) (sumZ (map (λ i, h i + h' i) l)). lia.
Qed.

Lemma sum_to_mul c h k : c * sum_to h k = sum_to (λ i, c * h i) k.
Proof.
  unfold sum_to. induction (seqZ 0 (Z.of_nat k)) as [|i l IH]; [cbn; lia|]. cbn [map sumZ foldr].
  fold (sumZ (map h l)) (sumZ (map (λ i, c * h i) l)). lia.
Qed.

Lemma sum2_to g a b k :
  sum2 g (map a (seqZ 0 (Z.of_nat k))) (map b (seqZ 0 (Z.of_nat k))) = sum_to (λ i, g (a i) (b i)) k.
Proof. symmetry. by apply sum_map. Qed.

(** ** The transposed kernel *)

Section transposed.
Context (debug : bool) (px py : list Z) (Bx : bytes_ok px) (By : bytes_ok py).

(** The product at position [j]. *)
Definition product (j : Z) : Z := tvalue px j * field 1 j (le py).

Lemma product_nonneg j : 0 ≤ j → 0 ≤ product j.
Proof.
  intros Hj. unfold product, tvalue. pose proof (field_bound 1 j (le py) ltac:(lia)).
  apply Z.mul_nonneg_nonneg; [|lia].
  destruct (plane_bit px j 0), (plane_bit px j 1), (plane_bit px j 2), (plane_bit px j 3); cbn; lia.
Qed.

Lemma count_and w x y :
  count_ones w (Z.land x y) = sum_to (λ k, Z.b2z (Z.testbit x k) * Z.b2z (Z.testbit y k)) w.
Proof.
  apply sum_to_ext. intros k Hk. rewrite Z.land_spec.
  by destruct (Z.testbit x k), (Z.testbit y k).
Qed.

(** The bits of a word that is narrower than 64 bits. *)
Lemma sum_narrow (r : nat) bits h :
  (r ≤ 64)%nat → 0 ≤ bits < 2 ^ Z.of_nat r →
  sum_to (λ k, Z.b2z (Z.testbit bits k) * h k) 64 = sum_to (λ k, Z.b2z (Z.testbit bits k) * h k) r.
Proof.
  intros Hr Hb. replace 64%nat with (r + (64 - r))%nat by lia. rewrite sum_to_app.
  rewrite (sum_to_ext _ (λ _, 0 * 0) (64 - r)).
  - rewrite <-(sum_to_mul 0). lia.
  - intros i Hi. by rewrite (testbit_above (Z.of_nat r)) by lia.
Qed.

(** Word [p] of block [i]. *)
Definition plane (i : nat) (p : Z) : Z := field 64 (256 * Z.of_nat i + 64 * p) (le px).

(** The products of a block, plane by plane. *)
Lemma planes_sum (i r : nat) :
  (r ≤ 64)%nat →
  let bits := field (Z.of_nat r) (Z.of_nat (64 * i)) (le py) in
  sum_to (λ k, product (Z.of_nat (64 * i) + k)) r =
    count_ones 64 (Z.land bits (plane i 0)) + 2 * count_ones 64 (Z.land bits (plane i 1)) +
    4 * count_ones 64 (Z.land bits (plane i 2)) + 8 * count_ones 64 (Z.land bits (plane i 3)).
Proof.
  intros Hr bits. assert (0 ≤ bits < 2 ^ Z.of_nat r) as Hb by (apply field_bound; lia).
  rewrite !count_and, !(sum_narrow r bits) by done. rewrite !sum_to_mul, !sum_to_plus.
  apply sum_to_ext. intros k Hk. unfold product, tvalue, plane_bit, plane, bits.
  replace ((Z.of_nat (64 * i) + k) / 64) with (Z.of_nat i) by dlia.
  replace ((Z.of_nat (64 * i) + k) mod 64) with k by dlia.
  rewrite !testbit_field, field1, (proj2 (Z.ltb_lt k (Z.of_nat r))), (proj2 (Z.ltb_lt k 64)) by lia.
  cbn [andb]. lia.
Qed.

Lemma planes_ok (i r : nat) e :
  (r ≤ 64)%nat → (32 * (i + 1) ≤ length px)%nat → 0 ≤ e →
  let t := sum_to (λ k, product (Z.of_nat (64 * i) + k)) r in
  debug = false ∨ e + t < 2 ^ 31 →
  planes debug px i (field (Z.of_nat r) (Z.of_nat (64 * i)) (le py)) (e mod 2 ^ 32)
    = Some ((e + t) mod 2 ^ 32).
Proof using Bx.
  intros Hr Hl He t Hd. pose proof (planes_sum i r Hr) as Ht. fold t in Ht. cbv zeta in Ht.
  set (bits := field _ _ (le py)) in *. unfold planes.
  assert (∀ p, (p < 4)%nat → read_le px (8 * (4 * i + p)) 8 = Some (plane i (Z.of_nat p))) as Hp.
  { intros p Hp. rewrite read_le_field by (done || lia). unfold plane. do 2 f_equal. lia. }
  pose proof (Hp 0%nat ltac:(lia)) as P0. rewrite Nat.add_0_r in P0.
  rewrite P0, !Hp by lia. cbn [mbind option_bind].
  change (Z.of_nat 0) with 0. change (Z.of_nat 1) with 1. change (Z.of_nat 2) with 2.
  change (Z.of_nat 3) with 3.
  assert (∀ p, 0 ≤ count_ones 64 (Z.land bits (plane i p))) as Hc.
  { intros p. rewrite count_and. apply sum_to_nonneg. intros k _.
    destruct (Z.testbit bits k), (Z.testbit (plane i p) k); cbn; lia. }
  pose proof (Hc 0). pose proof (Hc 1). pose proof (Hc 2). pose proof (Hc 3).
  rewrite !Z.shiftl_mul_pow2 by lia.
  rewrite add_word by (lia || (destruct Hd; [by left|right; lia])). cbn [mbind option_bind].
  do 3 (rewrite add_word by (lia || (destruct Hd; [by left|right; lia])); cbn [mbind option_bind]).
  rewrite Ht. do 2 f_equal. lia.
Qed.

Context (len : nat) (Hx : (len ≤ 2 * length px)%nat) (Hx64 : (64 * (length px / 32) = 2 * length px)%nat).
Context (Hy : (len ≤ 8 * length py)%nat) (Hd : debug = false ∨ sum_to product len < 2 ^ 31).

Lemma prefix_product a : (a ≤ len)%nat → 0 ≤ sum_to product a ≤ sum_to product len.
Proof using Hx Hx64 Hy.
  intros Ha. split; [apply sum_to_nonneg, product_nonneg|].
  replace len with (a + (len - a))%nat by lia. rewrite sum_to_app.
  assert (0 ≤ sum_to (λ k, product (Z.of_nat a + k)) (len - a)); [|lia].
  apply sum_to_nonneg. intros. apply product_nonneg. lia.
Qed.

Lemma transpose_loop_ok blocks fuel : ∀ i,
  (64 * blocks ≤ len)%nat → (i ≤ blocks)%nat → (blocks < i + fuel)%nat →
  transpose_loop debug px py blocks fuel i (sum_to product (64 * i) mod 2 ^ 32)
    = Some (blocks, sum_to product (64 * blocks) mod 2 ^ 32).
Proof using All.
  induction fuel as [|fuel IH]; intros i Hb Hi Hf; [lia|]. cbn [transpose_loop].
  case_nat; [|by replace blocks with i by lia].
  rewrite read_le_field by (done || lia). cbn [mbind option_bind].
  pose proof (prefix_product (64 * i + 64) ltac:(lia)) as H1.
  pose proof (prefix_product (64 * i) ltac:(lia)) as H2. rewrite sum_to_app in H1.
  pose proof (planes_ok i 64 (sum_to product (64 * i)) ltac:(lia) ltac:(lia) ltac:(lia)) as Hp.
  replace (8 * Z.of_nat (8 * i)) with (Z.of_nat (64 * i)) by lia.
  change (8 * Z.of_nat 8) with (Z.of_nat 64). rewrite Hp by (destruct Hd; [by left|right; lia]).
  cbn [mbind option_bind]. rewrite <-sum_to_app.
  replace (64 * i + 64)%nat with (64 * (i + 1))%nat by lia. apply IH; lia.
Qed.

(** The last bytes as a word. *)
Lemma byte_loop_ok k c : ∀ j,
  (k + j + c ≤ length py)%nat → (j + c ≤ 8)%nat →
  byte_loop debug py k j c (field (8 * Z.of_nat j) (8 * Z.of_nat k) (le py))
    = Some (field (8 * Z.of_nat (j + c)) (8 * Z.of_nat k) (le py)).
Proof using All.
  induction c as [|c IH]; intros j Hl Hj; cbn [byte_loop]; [by rewrite Nat.add_0_r|].
  rewrite read_le_field by (done || lia). cbn [mbind option_bind]. change (8 * Z.of_nat 1) with 8.
  set (v := field 8 _ _). assert (0 ≤ v < 2 ^ 8) as Hv by (apply field_bound; lia).
  pose proof (field_split (8 * Z.of_nat j) 8 (8 * Z.of_nat k) (le py) ltac:(lia) ltac:(lia) ltac:(lia))
    as Hs.
  replace (8 * Z.of_nat k + 8 * Z.of_nat j) with (8 * Z.of_nat (k + j)) in Hs by lia. fold v in Hs.
  pose proof (field_bound (8 * Z.of_nat j + 8) (8 * Z.of_nat k) (le py) ltac:(lia)) as Hb.
  pose proof (field_bound (8 * Z.of_nat j) (8 * Z.of_nat k) (le py) ltac:(lia)) as Hb0.
  assert (2 ^ (8 * Z.of_nat j + 8) ≤ 2 ^ 64) as Hp by (apply Z.pow_le_mono_r; lia).
  rewrite Z.shiftl_mul_pow2, (Z.mul_comm v), Z.mod_small by (lia || nia). rewrite <-Hs.
  unfold arith, as_unsigned. rewrite Z.mod_small, Z.eqb_refl by lia. cbn [mbind option_bind].
  replace (8 * Z.of_nat j + 8) with (8 * Z.of_nat (S j)) by lia.
  rewrite IH by lia. do 2 f_equal. lia.
Qed.

End transposed.

Lemma word_mask debug k :
  (k < 64)%nat →
  arith debug (as_unsigned 64) (Z.shiftl 1 (Z.of_nat k) mod 2 ^ 64 - 1) = Some (Z.ones (Z.of_nat k)).
Proof.
  intros Hk. assert (2 ^ Z.of_nat k < 2 ^ 64) by (apply Z.pow_lt_mono_r; lia).
  pose proof (Z.pow_pos_nonneg 2 (Z.of_nat k)).
  rewrite Z.shiftl_1_l, (Z.mod_small (2 ^ _)) by lia. unfold arith, as_unsigned.
  rewrite Z.mod_small, Z.eqb_refl by lia. by rewrite Z.ones_equiv.
Qed.

Lemma transposed_length s :
  slice_wf 4 BitTranspose s →
  Z.of_nat (length (bs_data s)) = 32 * ((bs_len s + 63) / 64).
Proof.
  intros (Hb & Hc & Hov & Hlen). specialize (Hlen false). cbn [perm_bytes BitTranspose] in Hlen.
  rewrite transpose_bytes_eq in Hlen by done. injection Hlen as <-. done.
Qed.

Section transposed_tail.
Context (debug : bool) (x y : BitSlice) (len : nat).
Context (Hx : slice_wf 4 BitTranspose x) (Hy : slice_wf 1 (Dense 1) y).
Context (Lx : bs_len x = Z.of_nat len) (Ly : bs_len y = Z.of_nat len).
Local Abbreviation h := (product (bs_data x) (bs_data y)).
Context (Hd : debug = false ∨ sum_to h len < 2 ^ 31).

Lemma transposed_ok :
  inner_product_transposed debug x y = Some (Ok (sum_to h len mod 2 ^ 32)).
Proof using All.
  unfold inner_product_transposed, check_lengths. rewrite Lx, Ly, Z.eqb_refl. cbn [negb].
  rewrite Nat2Z.id. pose proof (transposed_length x Hx) as Dx. rewrite Lx in Dx.
  pose proof (dense_length 1 ltac:(lia) y Hy) as Dy. rewrite Ly in Dy.
  set (px := bs_data x) in *. set (py := bs_data y) in *.
  assert (len ≤ 2 * length px)%nat as Hl by dlia.
  assert (64 * (length px / 32) = 2 * length px)%nat as H64.
  { pose proof (Nat.div_mod (length px) 32 ltac:(lia)) as E.
    assert (length px mod 32 = 0)%nat; [|lia]. apply Nat2Z.inj. rewrite Nat2Z.inj_mod, Dx.
    change (Z.of_nat 32) with 32. by rewrite Z.mul_comm, Z.mod_mul. }
  assert (len ≤ 8 * length py)%nat as Hly by dlia.
  assert (0 = sum_to h (64 * 0) mod 2 ^ 32) as E0 by done. rewrite E0 at 1.
  destruct (half_left len 64 ltac:(lia)) as [Hle Hlt]. set (i := (len / 64)%nat) in *.
  rewrite (transpose_loop_ok debug px py (proj1 Hx) (proj1 Hy) len Hl H64 Hly Hd) by lia.
  cbn [mbind option_bind]. destruct (Nat.eqb_spec (64 * i) len) as [-> |Hne]; [done|].
  pose proof (proj2 (proj2 (proj2 Hy)) debug) as Hby. rewrite Ly in Hby.
  unfold bytes_for. rewrite Hby. cbn [mbind option_bind]. rewrite Nat2Z.id.
  fold py. rewrite (usub_ok (length py)) by dlia. cbn [mbind option_bind].
  set (c := (length py - i * 8)%nat). assert (c ≤ 8 ∧ len - 64 * i ≤ 8 * c)%nat as [Hc Hc'] by dlia.
  rewrite Nat.min_l by done. assert (0 = field (8 * Z.of_nat 0) (8 * Z.of_nat (i * 8)) (le py)) as E1
    by (symmetry; apply Z.mod_1_r). rewrite E1 at 1.
  rewrite (byte_loop_ok debug px py (proj1 Hx) (proj1 Hy) len Hl H64 Hly Hd (i * 8) c 0) by lia.
  cbn [mbind option_bind]. rewrite usub_ok by lia. cbn [mbind option_bind].
  rewrite (proj2 (Nat.ltb_lt (len - 64 * i) 64)) by lia. rewrite word_mask by lia.
  cbn [rassert mbind option_bind]. rewrite mask_field by lia.
  replace (8 * Z.of_nat (i * 8)) with (Z.of_nat (64 * i)) by lia.
  pose proof (prefix_product px py len Hl H64 Hly (64 * i) Hle) as Hp.
  assert (len = 64 * i + (len - 64 * i))%nat as Hs by lia.
  assert (sum_to (product px py) len = sum_to (product px py) (64 * i) +
    sum_to (λ k, product px py (Z.of_nat (64 * i) + k)) (len - 64 * i)) as Es
    by (rewrite Hs at 1; apply sum_to_app).
  assert (32 * (i + 1) ≤ length px)%nat as Hin by (clear -Dx Hle Hne; clearbody i px; dlia).
  pose proof (planes_ok debug px py (proj1 Hx) i (len - 64 * i) _ ltac:(lia) Hin
    (proj1 Hp)) as Hpl. cbv zeta in Hpl. rewrite <-Es in Hpl. by rewrite Hpl.
Qed.

End transposed_tail.

(** The inner product of transposed 4-bit values and bits: slices of different lengths are
    an error; otherwise the result is the sum of the products of the values modulo 2^32, in
    debug builds when that sum is below 2^31, and nothing is read outside the slices. *)
Theorem inner_product_transposed_correct debug x y :
  slice_wf 4 BitTranspose x → slice_wf 1 (Dense 1) y →
  let d := sum2 Z.mul (values (Unsigned 4) BitTranspose x) (values (Unsigned 1) (Dense 1) y) in
  (bs_len x ≠ bs_len y → inner_product_transposed debug x y = Some (Err unequal_lengths)) ∧
  (bs_len x = bs_len y → debug = false ∨ d < 2 ^ 31 →
   inner_product_transposed debug x y = Some (Ok (d mod 2 ^ 32))).
Proof.
  intros Hx Hy d. split.
  { intros Hne. unfold inner_product_transposed. by rewrite check_unequal. }
  intros He. pose proof (proj1 (proj2 Hx)) as H0. set (len := Z.to_nat (bs_len x)).
  assert (d = sum_to (product (bs_data x) (bs_data y)) len) as ->.
  { unfold d. rewrite values_transposed, values_dense by (done || lia). rewrite <-He. fold len.
    rewrite vals_bits. unfold bits. replace (bs_len x) with (Z.of_nat len) by lia. apply sum2_to. }
  intros Hd. apply transposed_ok; (done || lia).
Qed.

Lemma inner_product_transposed_correct_witness :
  let x := mkBitSlice (replicate 64 0x35) 71 in
  let y := mkBitSlice (replicate 9 0x5c) 71 in
  inner_product_transposed true x y = Some (Ok 270).
Proof.
  intros x y. destruct (inner_product_transposed_correct true x y) as [_ H].
  - split_and!; [by apply Forall_replicate|cbn; lia|cbn; lia|intros []; reflexivity].
  - split_and!; [by apply Forall_replicate|cbn; lia|cbn; lia|intros []; reflexivity].
  - rewrite H; [reflexivity|reflexivity|right; vm_compute; reflexivity].
Defined.
