(* ===== verification/BitMixed8.v ===== *)
(** * Inner products of bytes with narrower values

    Models the x86-64-v3 kernels of [diskann-quantization/src/bits/distances.rs] for slices of 8
    bits with slices of 4, 2 and 1 bits, and their dispatch. The conventions are those of
    [BitKernels]; the three intrinsics the kernels call directly ([_mm256_maddubs_epi16],
    [_mm256_sad_epu8] and the expansion of a bit mask) are modelled lane by lane.

    - [bulk_kernel]: the shape the three kernels share, four blocks at a time and then one;
    - [Bulk]: the contract of the blocks of a kernel. *)

From S2P Require Import Prelude Bytes BitSlice Simd BitKernels BitBlocks BitDistance.
Local Open Scope Z_scope.

(** ** Registers *)

(** [ZipUnzip::zip]: the lanes of both halves in turn. *)
Fixpoint simd_zip (lo hi : list Z) : list Z :=
  match lo, hi with l :: lo, h :: hi => l :: h :: simd_zip lo hi | _, _ => [] end.

(** [_mm256_maddubs_epi16]: unsigned by signed bytes, adjacent products added with
    saturation. *)
Definition saturate_i16 (z : Z) : Z := Z.max (- 2 ^ 15) (Z.min z (2 ^ 15 - 1)).
Fixpoint maddubs (ls rs : list Z) : list Z :=
  match ls, rs with
  | l0 :: l1 :: ls, r0 :: r1 :: rs =>
      saturate_i16 (l0 * as_signed 8 r0 + l1 * as_signed 8 r1) :: maddubs ls rs
  | _, _ => []
  end.

(** [_mm256_sad_epu8], read as 32-bit lanes: the sums of absolute differences of groups of eight
    bytes, each in a lane of 64 bits. *)
Fixpoint sad_i32 (groups : nat) (ls rs : list Z) : list Z :=
  match groups with
  | O => []
  | S groups =>
      sumZ (zip_with (λ a b, Z.abs (a - b)) (take 8 ls) (take 8 rs)) :: 0 ::
      sad_i32 groups (drop 8 ls) (drop 8 rs)
  end.

(** [Mask32::from_int] as a mask of bytes. *)
Definition byte_mask_of (bits : Z) : list Z :=
  map (λ k, if Z.testbit bits k then 0xff else 0) (seqZ 0 32).

(** ** Kernels *)

Section kernels8.
Variable debug : bool.

(** [unpack_half] and [unpack_sub] *)
Definition unpack_sub (n : Z) (input : list Z) : list Z :=
  simd_and (simd_zip input (simd_shr 8 input n)) (splat (2 * length input) (Z.shiftl 1 n - 1)).

(** [unpack_crumbs] *)
Definition unpack_crumbs (x : list Z) : list Z * list Z :=
  let nibbles := unpack_sub 4 x in
  let half := (length nibbles / 2)%nat in
  (unpack_sub 2 (take half nibbles), unpack_sub 2 (drop half nibbles)).

(** [masked_sad] *)
Definition masked_sad (vx : list Z) (bits : Z) : list Z :=
  sad_i32 4 (simd_and vx (byte_mask_of bits)) (splat 32 0).

Section bulk.
Context {M : Type} (block : list Z → list Z → nat → option M).
Context (add4 : M → M → M → M → list Z → list Z) (add1 : M → list Z → list Z).

(** [while i + 4 <= blocks] *)
Fixpoint quad_loop (px py : list Z) (blocks fuel i : nat) (acc : list Z) :
    option (nat * list Z) :=
  match fuel with
  | O => None
  | S fuel =>
      if (i + 4 <=? blocks)%nat then
        m0 ← block px py i;
        m1 ← block px py (i + 1)%nat;
        m2 ← block px py (i + 2)%nat;
        m3 ← block px py (i + 3)%nat;
        quad_loop px py blocks fuel (i + 4) (add4 m0 m1 m2 m3 acc)
      else Some (i, acc)
  end.

(** [while i < blocks] *)
Fixpoint drain_loop (px py : list Z) (blocks fuel i : nat) (acc : list Z) :
    option (nat * list Z) :=
  match fuel with
  | O => None
  | S fuel =>
      if (i <? blocks)%nat then
        m ← block px py i;
        drain_loop px py blocks fuel (i + 1) (add1 m acc)
      else Some (i, acc)
  end.

Definition bulk_kernel (N per : nat) (x y : BitSlice) : option (result UnequalLengths Z) :=
  match check_lengths x y with
  | Err e => Some (Err e)
  | Ok len =>
      let px := bs_data x in
      let py := bs_data y in
      let blocks := (len / per)%nat in
      '(i, s) ← (if (0 <? blocks)%nat then
          '(i, acc) ← quad_loop px py blocks (S blocks) 0 (splat 8 0);
          '(i, acc) ← drain_loop px py blocks (S blocks) i acc;
          Some (i, u32_of (sum_tree i32_of 3 acc))
        else Some (0%nat, 0));
      let i := (i * per)%nat in
      s ← (if negb (i =? len)%nat
           then f ← fallback debug 8 N u32_of (ip_term debug) x y i; arith debug u32_of (s + f)
           else Some s);
      Some (Ok s)
  end.

End bulk.

Definition ones_16 : list Z := splat 16 1.

(** Bytes and 4-bit values: 32 values in a block. *)
Definition block_8_4 (px py : list Z) (i : nat) : option (list Z) :=
  vx ← load_simd 1 32 px (32 * i);
  vy ← load_simd 1 16 py (16 * i);
  Some (maddubs vx (unpack_sub 4 vy)).
Definition inner_product_v3_8_4 : BitSlice → BitSlice → option (result UnequalLengths Z) :=
  bulk_kernel block_8_4
    (λ m0 m1 m2 m3 acc,
       dot_simd_i16 acc (simd_add i16_of (simd_add i16_of (simd_add i16_of m0 m1) m2) m3) ones_16)
    (λ m acc, dot_simd_i16 acc m ones_16) 4 32.

(** Bytes and 2-bit values: 64 values in a block. *)
Definition block_8_2 (px py : list Z) (i : nat) : option (list Z * list Z) :=
  vx0 ← load_simd 1 32 px (64 * i);
  vx1 ← load_simd 1 32 px (64 * i + 32);
  vy ← load_simd 1 16 py (16 * i);
  let '(vy0, vy1) := unpack_crumbs vy in
  Some (maddubs vx0 vy0, maddubs vx1 vy1).
Definition inner_product_v3_8_2 : BitSlice → BitSlice → option (result UnequalLengths Z) :=
  let add := simd_add i16_of in
  bulk_kernel block_8_2
    (λ '(m0a, m0b) '(m1a, m1b) '(m2a, m2b) '(m3a, m3b) acc,
       dot_simd_i16 acc (add (add (add (add m0a m0b) m1a) m1b) (add (add (add m2a m2b) m3a) m3b))
         ones_16)
    (λ '(ma, mb) acc, dot_simd_i16 acc (add ma mb) ones_16) 2 64.

(** Bytes and bits: 32 values in a block. *)
Definition block_8_1 (px py : list Z) (i : nat) : option (list Z) :=
  vx ← load_simd 1 32 px (32 * i);
  bits ← read_le py (4 * i) 4;
  Some (masked_sad vx bits).
Definition inner_product_v3_8_1 : BitSlice → BitSlice → option (result UnequalLengths Z) :=
  let add := simd_add i32_of in
  bulk_kernel block_8_1
    (λ s0 s1 s2 s3 acc, add (add (add (add acc s0) s1) s2) s3)
    (λ si acc, add acc si) 1 32.

(** [Target2::run] of [InnerProduct] on slices of 8 bits and of [M] bits. *)
Definition inner_product_8 (arch : Arch) (M : nat) : BitSlice → BitSlice →
    option (result UnequalLengths Z) :=
  match M, arch with
  | 4%nat, (V3 | V4) => inner_product_v3_8_4
  | 2%nat, (V3 | V4) => inner_product_v3_8_2
  | 1%nat, (V3 | V4) => inner_product_v3_8_1
  | _, _ => inner_product_scalar debug 8 M
  end.

End kernels8.

(** ** The shared shape *)

Lemma vals8 data m : bytes_ok data → (m ≤ length data)%nat → vals 8 data m = take m data.
Proof.
  intros Hd Hm. pose proof (vals_bytes 8 1 eq_refl data m Hd Hm) as Hv. rewrite Nat.mul_1_l in Hv.
  rewrite Hv.
  assert (Forall byte_ok (take m data)) as Hb by (by apply bytes_ok_take). clear Hv.
  induction Hb as [|b l Hb Hl IH]; [done|]. rewrite bind_cons, IH. cbn [app]. f_equal.
  unfold elems, vals. change (seqZ 0 (Z.of_nat 1)) with [0]. cbn [map]. rewrite le_single.
  by rewrite Z.mul_0_r, field_all.
Qed.

Lemma width_ok N q : (N * q = 8)%nat → (1 ≤ N ≤ 8)%nat ∧ (1 ≤ q)%nat.
Proof. intros H. assert (N ≠ 0 ∧ q ≠ 0)%nat as [] by (split; intros ->; lia). split; nia. Qed.

(** The contract of the blocks of a kernel, for values of [N] bits, [q] in a byte, [w] bytes of
    them in a block. *)
Record Bulk {M} (N q w : nat) (block : list Z → list Z → nat → option M)
    (add4 : M → M → M → M → list Z → list Z) (add1 : M → list Z → list Z)
    (okm : M → Prop) (val : M → Z) : Prop := {
  bulk_block : ∀ px py i, bytes_ok px → bytes_ok py →
    (q * w * (i + 1) ≤ length px)%nat → (w * (i + 1) ≤ length py)%nat →
    ∃ m, block px py i = Some m ∧ okm m ∧ val m =
      sum2 Z.mul (take (q * w) (drop (q * w * i) px)) (take w (drop (w * i) py) ≫= elems N q);
  bulk_add4 : ∀ m0 m1 m2 m3 acc, okm m0 → okm m1 → okm m2 → okm m3 → length acc = 8%nat →
    length (add4 m0 m1 m2 m3 acc) = 8%nat ∧
    sumZ (add4 m0 m1 m2 m3 acc) ≡₃₂ sumZ acc + val m0 + val m1 + val m2 + val m3;
  bulk_add1 : ∀ m acc, okm m → length acc = 8%nat →
    length (add1 m acc) = 8%nat ∧ sumZ (add1 m acc) ≡₃₂ sumZ acc + val m;
}.

Section bulk_proof.
Context (debug : bool) {M : Type} (N q w : nat) (block : list Z → list Z → nat → option M).
Context (add4 : M → M → M → M → list Z → list Z) (add1 : M → list Z → list Z).
Context (okm : M → Prop) (val : M → Z) (HB : Bulk N q w block add4 add1 okm val).
Context (Hq : (N * q = 8)%nat) (Hw : (0 < w)%nat).
Context (x y : BitSlice) (len : nat) (Hxy : same_length 8 N x y len).

Definition products : Z := sum2 Z.mul (vals 8 (bs_data x) len) (vals N (bs_data y) len).
Context (Hd : debug = false ∨ products < 2 ^ 31).

Local Abbreviation px := (bs_data x).
Local Abbreviation py := (bs_data y).
Local Abbreviation per := (q * w)%nat.

Definition done_sum (i : nat) : Z := sum2 Z.mul (vals 8 px (per * i)) (vals N py (per * i)).

Lemma mixed_lengths : bytes_ok px ∧ bytes_ok py ∧ length px = len ∧ (len ≤ q * length py)%nat.
Proof using Hq Hw Hxy.
  destruct Hxy as [Hx Hy Lx Ly].
  pose proof (dense_length 8 ltac:(lia) x Hx) as Dx. rewrite Lx in Dx.
  pose proof (dense_length N (proj1 (width_ok N q Hq)) y Hy) as Dy. rewrite Ly in Dy.
  split_and!; [apply Hx|apply Hy|dlia|].
  assert (Z.of_nat N * Z.of_nat len ≤ 8 * Z.of_nat (length py)) by (rewrite Dy; dlia). nia.
Qed.

Lemma done_step i :
  (per * (i + 1) ≤ len)%nat →
  done_sum (i + 1) = done_sum i +
    sum2 Z.mul (take per (drop (per * i) px)) (take w (drop (w * i) py) ≫= elems N q).
Proof using Hq Hw Hxy.
  intros Hi. destruct mixed_lengths as (Bx & By & Lx & Ly). unfold done_sum.
  assert (∀ k, (per * k ≤ len)%nat → vals N py (per * k) = take (w * k) py ≫= elems N q) as Ev.
  { intros k Hk. replace (per * k)%nat with (q * (w * k))%nat by lia.
    pose proof (width_ok N q Hq). apply vals_bytes; (done || nia). }
  rewrite !vals8, !Ev by (done || lia).
  replace (per * (i + 1))%nat with (per * i + per)%nat by lia.
  replace (w * (i + 1))%nat with (w * i + w)%nat by lia.
  rewrite <-!take_take_drop, bind_app, sum2_app; [done|].
  rewrite (length_flat _ q) by apply length_elems. rewrite !length_take. nia.
Qed.

Lemma block_ok i :
  (per * (i + 1) ≤ len)%nat →
  ∃ m, block px py i = Some m ∧ okm m ∧ done_sum (i + 1) = done_sum i + val m.
Proof using All.
  intros Hi. destruct mixed_lengths as (Bx & By & Lx & Ly).
  destruct (bulk_block _ _ _ _ _ _ _ _ HB px py i Bx By) as (m & Hm & Hok & Hv); [lia|nia|].
  exists m. split_and!; [done..|]. by rewrite done_step, Hv.
Qed.

Lemma quad_loop_ok blocks fuel : ∀ i acc,
  (per * blocks ≤ len)%nat → (i ≤ blocks)%nat → (blocks < i + fuel)%nat →
  length acc = 8%nat → sumZ acc ≡₃₂ done_sum i →
  ∃ i' acc', quad_loop block add4 px py blocks fuel i acc = Some (i', acc') ∧
    (i' ≤ blocks)%nat ∧ length acc' = 8%nat ∧ sumZ acc' ≡₃₂ done_sum i'.
Proof using All.
  induction fuel as [|fuel IH]; intros i acc Hb Hi Hf Hl Hs; [lia|]. cbn [quad_loop].
  case_nat; [|by exists i, acc]. assert (per * (i + 4) ≤ len)%nat by nia.
  destruct (block_ok i) as (m0 & -> & K0 & E0); [nia|].
  destruct (block_ok (i + 1)) as (m1 & -> & K1 & E1); [nia|].
  destruct (block_ok (i + 2)) as (m2 & -> & K2 & E2); [nia|].
  destruct (block_ok (i + 3)) as (m3 & -> & K3 & E3); [nia|]. cbn [mbind option_bind].
  destruct (bulk_add4 _ _ _ _ _ _ _ _ HB m0 m1 m2 m3 acc) as [HL HS]; [done..|].
  apply IH; [done|lia|lia|done|]. rewrite HS, Hs. apply eq32_of.
  replace (i + 1 + 1)%nat with (i + 2)%nat in E1 by lia.
  replace (i + 2 + 1)%nat with (i + 3)%nat in E2 by lia.
  replace (i + 3 + 1)%nat with (i + 4)%nat in E3 by lia. lia.
Qed.

Lemma drain_loop_ok blocks fuel : ∀ i acc,
  (per * blocks ≤ len)%nat → (i ≤ blocks)%nat → (blocks < i + fuel)%nat →
  length acc = 8%nat → sumZ acc ≡₃₂ done_sum i →
  ∃ acc', drain_loop block add1 px py blocks fuel i acc = Some (blocks, acc') ∧
    length acc' = 8%nat ∧ sumZ acc' ≡₃₂ done_sum blocks.
Proof using All.
  induction fuel as [|fuel IH]; intros i acc Hb Hi Hf Hl Hs; [lia|]. cbn [drain_loop].
  case_nat; [|replace blocks with i in * by lia; by exists acc].
  destruct (block_ok i) as (m & -> & K & E); [nia|]. cbn [mbind option_bind].
  destruct (bulk_add1 _ _ _ _ _ _ _ _ HB m acc) as [HL HS]; [done..|].
  apply IH; [done|lia|lia|done|]. by rewrite HS, Hs, E.
Qed.

Lemma bulk_kernel_ok :
  bulk_kernel debug block add4 add1 N per x y = Some (Ok (products mod 2 ^ 32)).
Proof using All.
  unfold bulk_kernel, check_lengths. pose proof (sl_lx _ _ _ _ _ Hxy) as Lx.
  pose proof (sl_ly _ _ _ _ _ Hxy) as Ly. rewrite Lx, Ly, Z.eqb_refl. cbn [negb]. rewrite Nat2Z.id.
  pose proof (proj2 (width_ok N q Hq)).
  destruct (half_left len per ltac:(nia)) as [Hle _]. set (blocks := (len / per)%nat) in *.
  assert ((if (0 <? blocks)%nat then
      '(i, acc) ← quad_loop block add4 px py blocks (S blocks) 0 (splat 8 0);
      '(i, acc) ← drain_loop block add1 px py blocks (S blocks) i acc;
      Some (i, u32_of (sum_tree i32_of 3 acc))
    else Some (0%nat, 0)) = Some (blocks, done_sum blocks mod 2 ^ 32)) as ->.
  { case_nat; [|by replace blocks with 0%nat by lia; unfold done_sum; rewrite Nat.mul_0_r].
    destruct (quad_loop_ok blocks (S blocks) 0 (splat 8 0)) as (i & acc & -> & Hi & HL & HS);
      [done|lia|lia|done|by rewrite sumZ_zero; unfold done_sum; rewrite Nat.mul_0_r|].
    cbn [mbind option_bind].
    destruct (drain_loop_ok blocks (S blocks) i acc) as (acc' & -> & HL' & HS'); [done|lia|lia|done..|].
    cbn [mbind option_bind]. do 2 f_equal. unfold as_unsigned.
    transitivity (sumZ acc' mod 2 ^ 32); [|exact HS'].
    apply (sum_tree_sum _ 3). done. }
  cbn [mbind option_bind]. rewrite (Nat.mul_comm blocks).
  pose proof (ip_term_u32 debug 8 N ltac:(lia) (proj1 (width_ok N q Hq))) as HT.
  assert (products = done_sum blocks + rest 8 N Z.mul x y (per * blocks) (len - per * blocks)) as Hs.
  { unfold products, done_sum, rest. replace len with (per * blocks + (len - per * blocks))%nat at 1 2 by lia.
    rewrite !vals_app, sum2_app; [done|]. by rewrite !length_vals. }
  assert (0 ≤ done_sum blocks).
  { apply (sum2_nonneg 8 N); [|apply vals_bounded..]. unfold bounded. intros. nia. }
  destruct (Nat.eqb_spec (per * blocks) len) as [He|Hne]; cbn [negb].
  - rewrite He, Nat.sub_diag in Hs. unfold rest, tailv in Hs. cbn in Hs. by rewrite Hs, Z.add_0_r.
  - rewrite (fallback_ok _ _ _ _ Z.mul _ _ _ len) by (done || lia || by rewrite <-Hs). by rewrite <-Hs.
Qed.

End bulk_proof.

(** ** Lanes without overflow *)

Definition lanes_le (top : Z) (n : nat) (l : list Z) : Prop :=
  length l = n ∧ Forall (λ v, 0 ≤ v ≤ top) l.

Lemma add_exact A B n : A + B < 2 ^ 15 → ∀ a b,
  lanes_le A n a → lanes_le B n b →
  lanes_le (A + B) n (simd_add i16_of a b) ∧ sumZ (simd_add i16_of a b) = sumZ a + sumZ b.
Proof.
  intros HAB. induction n as [|n IH]; intros [|u a] [|v b] [La Fa] [Lb Fb]; try done.
  cbn in La, Lb. inversion Fa as [|?? Hu Fa']; inversion Fb as [|?? Hv Fb']; subst.
  destruct (IH a b) as [[L F] E]; [split; (done || lia)..|].
  assert (as_signed 16 (u + v) = u + v) as Huv by (apply as_signed_small; lia).
  unfold simd_add in *. cbn [zip_with sumZ foldr]. unfold expected_add at 1 3. rewrite Huv.
  fold (sumZ (zip_with (expected_add (as_signed 16)) a b)) (sumZ a) (sumZ b). rewrite E.
  split; [split; [cbn; lia|constructor; [lia|done]]|lia].
Qed.

Lemma sum_ones n : ∀ m, length m = n → sum2 Z.mul m (splat n 1) = sumZ m.
Proof.
  induction n as [|n IH]; intros [|v m] Hm; try done. cbn in Hm. cbn [splat replicate].
  rewrite sum2_cons. fold (splat n 1). rewrite IH by lia. cbn [sumZ foldr]. fold (sumZ m). lia.
Qed.

Lemma dot_ones acc m :
  length acc = 8%nat → length m = 16%nat →
  length (dot_simd_i16 acc m ones_16) = 8%nat ∧
  sumZ (dot_simd_i16 acc m ones_16) ≡₃₂ sumZ acc + sumZ m.
Proof.
  intros Ha Hm. destruct (dot_i16_sum 8 acc m ones_16) as [HL HS]; [done..|]. split; [done|].
  rewrite HS. unfold ones_16. by rewrite sum_ones.
Qed.

Lemma maddubs_exact top n : 0 ≤ top ≤ 60 → ∀ ls rs,
  lanes_le 255 (2 * n) ls → lanes_le top (2 * n) rs →
  lanes_le (510 * top) n (maddubs ls rs) ∧ sumZ (maddubs ls rs) = sum2 Z.mul ls rs.
Proof.
  intros Ht. induction n as [|n IH]; intros [|l0 [|l1 ls]] [|r0 [|r1 rs]] [Ll Fl] [Lr Fr];
    try done; cbn in Ll, Lr; try lia.
  inversion_clear Fl as [|?? H0 Fl0]. inversion_clear Fl0 as [|?? H1 Fl1].
  inversion_clear Fr as [|?? K0 Fr0]. inversion_clear Fr0 as [|?? K1 Fr1].
  destruct (IH ls rs) as [[L F] E]; [split; (done || lia)..|]. cbn [maddubs].
  rewrite !(as_signed_small 8) by lia.
  assert (0 ≤ l0 * r0 ≤ 255 * top ∧ 0 ≤ l1 * r1 ≤ 255 * top) as [P0 P1] by (split; nia).
  assert (saturate_i16 (l0 * r0 + l1 * r1) = l0 * r0 + l1 * r1) as -> by (unfold saturate_i16; lia).
  rewrite !sum2_cons. cbn [sumZ foldr]. fold (sumZ (maddubs ls rs)). rewrite E.
  split; [split; [cbn; lia|constructor; [lia|done]]|lia].
Qed.

(** ** Unpacking *)

Lemma unpack_sub_eq n v :
  0 ≤ n < 8 → unpack_sub n v = v ≫= λ b, [Z.land b (Z.ones n); Z.land (Z.shiftr b n) (Z.ones n)].
Proof.
  intros Hn. unfold unpack_sub. rewrite Z.shiftl_1_l. replace (2 ^ n - 1) with (Z.ones n)
    by (rewrite Z.ones_equiv; lia).
  induction v as [|b v IH]; [done|]. cbn [length simd_shr map simd_zip]. rewrite bind_cons, <-IH.
  replace (2 * S (length v))%nat with (S (S (2 * length v))) by lia.
  unfold simd_and, splat. cbn [replicate zip_with app]. unfold expected_shr at 1.
  by rewrite (proj2 (Z.leb_gt _ _)) by lia.
Qed.

Lemma nibbles_eq v : bytes_ok v → unpack_sub 4 v = v ≫= elems 4 2.
Proof.
  intros Hv. rewrite unpack_sub_eq by lia. apply bind_ext_in. intros b Hb.
  unfold elems, vals. change (seqZ 0 (Z.of_nat 2)) with [0; 1]. cbn [map]. rewrite le_single.
  rewrite !Z.land_ones by lia. unfold field. rewrite Z.shiftr_div_pow2 by lia.
  change (Z.of_nat 4 * 0) with 0. change (Z.of_nat 4 * 1) with 4. change (2 ^ 0) with 1.
  by rewrite Z.div_1_r.
Qed.

Lemma crumbs_of_nibbles v :
  bytes_ok v → unpack_sub 2 (unpack_sub 4 v) = v ≫= elems 2 4.
Proof.
  intros Hv. rewrite nibbles_eq, unpack_sub_eq by (done || lia).
  induction Hv as [|b v Hb Hv IH]; [done|]. rewrite !bind_cons, bind_app, IH. f_equal.
  unfold elems, vals. change (seqZ 0 (Z.of_nat 2)) with [0; 1].
  change (seqZ 0 (Z.of_nat 4)) with [0; 1; 2; 3]. cbn [map mbind list_bind app].
  rewrite !le_single, !mask_field, !land_ones_field, !field_field by lia. done.
Qed.

Lemma unpack_sub_app n u v :
  0 ≤ n < 8 → unpack_sub n (u ++ v) = unpack_sub n u ++ unpack_sub n v.
Proof. intros Hn. rewrite !unpack_sub_eq by done. apply bind_app. Qed.

Lemma elems_le N q top v :
  (2 ^ Z.of_nat N - 1 = top) → Forall (λ b, 0 ≤ b ≤ top) (v ≫= elems N q).
Proof.
  intros <-. apply Forall_bind, Forall_true. intros b. apply Forall_map, Forall_true. intros i.
  pose proof (field_bound (Z.of_nat N) (Z.of_nat N * i) (le [b]) ltac:(lia)). lia.
Qed.

Lemma bytes_le data off n :
  bytes_ok data → (off + n ≤ length data)%nat → lanes_le 255 n (take n (drop off data)).
Proof.
  intros Hd Hl. split; [rewrite length_take, length_drop; lia|].
  apply Forall_take, Forall_drop. eapply Forall_impl; [exact Hd|]. intros b Hb.
  unfold byte_ok in Hb. lia.
Qed.

(** ** The blocks of the kernels *)

Lemma bulk_8_4 :
  Bulk 4 2 16 block_8_4
    (λ m0 m1 m2 m3 acc,
       dot_simd_i16 acc (simd_add i16_of (simd_add i16_of (simd_add i16_of m0 m1) m2) m3) ones_16)
    (λ m acc, dot_simd_i16 acc m ones_16) (lanes_le 7650 16) sumZ.
Proof.
  split.
  - intros px py i Bx By Hx Hy. unfold block_8_4. rewrite !load_u8 by lia. cbn [mbind option_bind].
    eexists. split; [done|]. rewrite nibbles_eq by (by apply bytes_ok_take, bytes_ok_drop).
    change 7650 with (510 * 15). apply (maddubs_exact 15 16); [lia|apply bytes_le; [done|lia]|].
    split; [|by apply elems_le]. rewrite (length_flat _ 2) by apply length_elems.
    rewrite length_take, length_drop. lia.
  - intros m0 m1 m2 m3 acc K0 K1 K2 K3 Hacc.
    destruct (add_exact 7650 7650 16 ltac:(lia) m0 m1 K0 K1) as [K01 E01].
    destruct (add_exact 15300 7650 16 ltac:(lia) _ m2 K01 K2) as [K012 E012].
    destruct (add_exact 22950 7650 16 ltac:(lia) _ m3 K012 K3) as [[L _] E].
    destruct (dot_ones acc _ Hacc L) as [HL HS]. split; [done|]. rewrite HS, E, E012, E01.
    apply eq32_of. lia.
  - intros m acc [L _] Hacc. by apply dot_ones.
Qed.

Lemma bulk_8_2 :
  let add := simd_add i16_of in
  Bulk 2 4 16 block_8_2
    (λ '(m0a, m0b) '(m1a, m1b) '(m2a, m2b) '(m3a, m3b) acc,
       dot_simd_i16 acc (add (add (add (add m0a m0b) m1a) m1b) (add (add (add m2a m2b) m3a) m3b))
         ones_16)
    (λ '(ma, mb) acc, dot_simd_i16 acc (add ma mb) ones_16)
    (λ '(a, b), lanes_le 1530 16 a ∧ lanes_le 1530 16 b) (λ '(a, b), sumZ a + sumZ b).
Proof.
  intros add. subst add. split.
  - intros px py i Bx By Hx Hy. unfold block_8_2. rewrite !load_u8 by lia. cbn [mbind option_bind].
    set (v := take 16 (drop (16 * i) py)). assert (bytes_ok v) as Bv by (by apply bytes_ok_take, bytes_ok_drop).
    assert (length v = 16%nat) as Lv by (unfold v; rewrite length_take, length_drop; lia).
    unfold unpack_crumbs. set (nib := unpack_sub 4 v).
    assert (length nib = 32%nat) as Ln.
    { unfold nib. rewrite nibbles_eq, (length_flat _ 2) by (done || apply length_elems). lia. }
    rewrite Ln. change (32 / 2)%nat with 16%nat.
    assert (unpack_sub 2 (take 16 nib) ++ unpack_sub 2 (drop 16 nib) = v ≫= elems 2 4) as Ev.
    { rewrite <-unpack_sub_app, take_drop by lia. by apply crumbs_of_nibbles. }
    assert (∀ l, length l = 16%nat → length (unpack_sub 2 l) = 32%nat) as Lu.
    { intros l Hl. rewrite unpack_sub_eq, (length_flat _ 2) by (done || lia). lia. }
    set (lo := unpack_sub 2 (take 16 nib)) in *. set (hi := unpack_sub 2 (drop 16 nib)) in *.
    assert (length lo = 32%nat ∧ length hi = 32%nat) as [Ll Lh].
    { split; apply Lu; rewrite ?length_take, ?length_drop; lia. }
    pose proof (elems_le 2 4 3 v eq_refl) as Fv. rewrite <-Ev in Fv. apply Forall_app in Fv as [Fl Fh].
    eexists. split; [done|]. change 1530 with (510 * 3).
    destruct (maddubs_exact 3 16 ltac:(lia) (take 32 (drop (64 * i) px)) lo) as [K0 E0];
      [by apply bytes_le; [|lia]|done|].
    destruct (maddubs_exact 3 16 ltac:(lia) (take 32 (drop (64 * i + 32) px)) hi) as [K1 E1];
      [by apply bytes_le; [|lia]|done|].
    split; [done|]. rewrite E0, E1, <-Ev. change (4 * 16)%nat with (32 + 32)%nat.
    rewrite <-(take_take_drop _ 32 32), drop_drop, sum2_app; [done|].
    rewrite length_take, length_drop. lia.
  - intros [m0a m0b] [m1a m1b] [m2a m2b] [m3a m3b] acc [A0 B0] [A1 B1] [A2 B2] [A3 B3] Hacc.
    destruct (add_exact 1530 1530 16 ltac:(lia) m0a m0b A0 B0) as [K1 E1].
    destruct (add_exact 3060 1530 16 ltac:(lia) _ m1a K1 A1) as [K2 E2].
    destruct (add_exact 4590 1530 16 ltac:(lia) _ m1b K2 B1) as [K3 E3].
    destruct (add_exact 1530 1530 16 ltac:(lia) m2a m2b A2 B2) as [K4 E4].
    destruct (add_exact 3060 1530 16 ltac:(lia) _ m3a K4 A3) as [K5 E5].
    destruct (add_exact 4590 1530 16 ltac:(lia) _ m3b K5 B3) as [K6 E6].
    destruct (add_exact 6120 6120 16 ltac:(lia) _ _ K3 K6) as [[L _] E].
    destruct (dot_ones acc _ Hacc L) as [HL HS]. split; [done|]. rewrite HS.
    apply eq32_of. rewrite E, E3, E2, E1, E6, E5, E4. lia.
  - intros [ma mb] acc [A B] Hacc. destruct (add_exact 1530 1530 16 ltac:(lia) ma mb A B) as [[L _] E].
    destruct (dot_ones acc _ Hacc L) as [HL HS]. split; [done|]. by rewrite HS, E.
Qed.

(** Bytes under a mask of bits. *)
Lemma masked_bytes (vx : list Z) z (ks : list Z) :
  Forall (λ v, 0 ≤ v ≤ 255) vx → Forall (λ k, 0 ≤ k) ks → length vx = length ks →
  simd_and vx (map (λ k, if Z.testbit z k then 0xff else 0) ks) =
    zip_with Z.mul vx (map (λ k, field 1 k z) ks).
Proof.
  intros Hv Hk. revert vx Hv. induction Hk as [|k ks Hk Hks IH]; intros [|v vx] Hv Hl; try done.
  inversion_clear Hv as [|?? Hv0 Hvx]. cbn in Hl. cbn [map simd_and zip_with]. f_equal.
  - rewrite field1 by done. destruct (Z.testbit z k); cbn [Z.b2z]; [|by rewrite Z.land_0_r, Z.mul_0_r].
    change 255 with (Z.ones 8). rewrite Z.land_ones, Z.mod_small by lia. lia.
  - apply IH; [done|lia].
Qed.

Lemma sum_abs l : Forall (λ v, 0 ≤ v) l → ∀ n, length l = n →
  sumZ (zip_with (λ a b, Z.abs (a - b)) l (replicate n 0)) = sumZ l.
Proof.
  induction 1 as [|v l Hv Hl IH]; intros [|n] Hn; try done. cbn in Hn. cbn [replicate zip_with sumZ foldr].
  fold (sumZ (zip_with (λ a b, Z.abs (a - b)) l (replicate n 0))) (sumZ l). rewrite IH by lia. lia.
Qed.

Lemma sad_sum (n : nat) : ∀ l, length l = (8 * n)%nat → Forall (λ v, 0 ≤ v) l →
  length (sad_i32 n l (splat (8 * n) 0)) = (2 * n)%nat ∧ sumZ (sad_i32 n l (splat (8 * n) 0)) = sumZ l.
Proof.
  induction n as [|n IH]; intros l Hl Hp; [by destruct l|].
  replace (8 * S n)%nat with (8 + 8 * n)%nat in * by lia. cbn [sad_i32]. unfold splat in *.
  rewrite replicate_add, take_app_length', drop_app_length' by (by rewrite length_replicate).
  destruct (IH (drop 8 l)) as [HL HS]; [rewrite length_drop; lia|by apply Forall_drop|].
  cbn [length]. split; [lia|]. cbn [sumZ foldr]. fold (sumZ (sad_i32 n (drop 8 l) (replicate (8 * n) 0))).
  rewrite HS, sum_abs; [|by apply Forall_take|rewrite length_take; lia].
  rewrite <-(take_drop 8 l) at 3. rewrite sumZ_app. lia.
Qed.

Lemma mask_sum vx z :
  lanes_le 255 32 vx →
  length (masked_sad vx z) = 8%nat ∧ sumZ (masked_sad vx z) = sum2 Z.mul vx (bits 32 z).
Proof.
  intros [Hl Hv]. unfold masked_sad, byte_mask_of. rewrite masked_bytes; [|done| |done].
  2:{ apply Forall_seqZ. lia. }
  change (map (λ k, field 1 k z) (seqZ 0 32)) with (bits 32 z). apply (sad_sum 4).
  - rewrite length_zip_with, Hl. done.
  - assert (Forall (λ k, 0 ≤ k) (bits 32 z)) as Hb.
    { eapply Forall_impl; [apply bits_bounded|]. intros k Hk. apply Hk. }
    revert Hb. generalize (bits 32 z). clear Hl.
    induction Hv as [|v vx Hv Hvx IH]; intros [|k ks] Hb; cbn [zip_with]; [constructor..|].
    inversion_clear Hb. constructor; [nia|by apply IH].
Qed.

Lemma bulk_8_1 :
  let add := simd_add i32_of in
  Bulk 1 8 4 block_8_1
    (λ s0 s1 s2 s3 acc, add (add (add (add acc s0) s1) s2) s3)
    (λ si acc, add acc si) (λ m, length m = 8%nat) sumZ.
Proof.
  intros add. subst add. split.
  - intros px py i Bx By Hx Hy. unfold block_8_1. rewrite load_u8, read_le_ok by lia.
    cbn [mbind option_bind]. eexists. split; [done|].
    destruct (mask_sum (take 32 (drop (32 * i) px)) (le (take 4 (drop (4 * i) py)))) as [L S].
    { apply bytes_le; [done|lia]. }
    split; [done|]. rewrite S. change (8 * 4)%nat with 32%nat. f_equal.
    rewrite <-(vals_bits _ 32), (vals_bytes 1 8 eq_refl _ 4).
    + by rewrite take_idemp.
    + by apply bytes_ok_take, bytes_ok_drop.
    + rewrite length_take, length_drop. lia.
  - intros m0 m1 m2 m3 acc K0 K1 K2 K3 Hacc.
    assert (∀ a b, length a = 8%nat → length b = 8%nat → length (simd_add i32_of a b) = 8%nat) as La
      by (intros; rewrite length_simd_add; lia).
    split; [auto 6|]. rewrite !(sum_simd_add _ (simd_add _ _ _)) by (apply _ || (rewrite ?La; auto)).
    by rewrite sum_simd_add by (apply _ || lia).
  - intros m acc K Hacc. split; [rewrite length_simd_add; lia|]. by rewrite sum_simd_add by (apply _ || lia).
Qed.

(** ** The inner products *)

Lemma inner_product_8_unequal debug arch M x y :
  M = 1%nat ∨ M = 2%nat ∨ M = 4%nat → bs_len x ≠ bs_len y →
  inner_product_8 debug arch M x y = Some (Err unequal_lengths).
Proof.
  intros HM Hne. pose proof (check_unequal x y Hne) as Hc.
  destruct_or! HM; subst M; destruct arch; cbn [inner_product_8]; unfold inner_product_v3_8_4,
    inner_product_v3_8_2, inner_product_v3_8_1, bulk_kernel, inner_product_scalar; by rewrite Hc.
Qed.

Lemma ip_scalar_8_ok debug N x y len :
  (1 ≤ N ≤ 8)%nat → same_length 8 N x y len → debug = false ∨ products N x y len < 2 ^ 31 →
  inner_product_scalar debug 8 N x y = Some (Ok (products N x y len mod 2 ^ 32)).
Proof.
  intros HN Hxy Hd. unfold inner_product_scalar, check_lengths.
  rewrite (sl_lx _ _ _ _ _ Hxy), (sl_ly _ _ _ _ _ Hxy), Z.eqb_refl. cbn [negb]. rewrite Nat2Z.id.
  pose proof (ip_term_u32 debug 8 N ltac:(lia) HN) as HT.
  assert (rest 8 N Z.mul x y 0 len = products N x y len) as Hr by done.
  destruct (scalar_loop_ok debug 8 N u32_of Z.mul _ x y len Hxy len 0 0) as (r & -> & He & Hw & _);
    [lia|rewrite Hr; naive_solver lia|]. cbn [mbind option_bind]. rewrite Hr in He.
  rewrite <-Hw by done. do 2 f_equal. exact He.
Qed.

(** The inner product of a slice of bytes and a slice of 4, 2 or 1 bits, on every
    architecture: slices of different lengths are an error; otherwise the result is the sum of
    the products of the values modulo 2^32 (in debug builds when it is below 2^31). No sum of
    16-bit lanes overflows or saturates on the way and nothing is read outside the slices. *)
Theorem inner_product_8_correct debug arch M x y :
  M = 1%nat ∨ M = 2%nat ∨ M = 4%nat → slice_wf 8 (Dense 8) x → slice_wf M (Dense M) y →
  let d := sum2 Z.mul (values (Unsigned 8) (Dense 8) x) (values (Unsigned M) (Dense M) y) in
  (bs_len x ≠ bs_len y → inner_product_8 debug arch M x y = Some (Err unequal_lengths)) ∧
  (bs_len x = bs_len y → debug = false ∨ d < 2 ^ 31 →
   inner_product_8 debug arch M x y = Some (Ok (d mod 2 ^ 32))).
Proof.
  intros HM Hx Hy d. split; [by apply inner_product_8_unequal|]. intros He.
  pose proof (proj1 (proj2 Hx)) as H0. set (len := Z.to_nat (bs_len x)).
  assert (same_length 8 M x y len) as Hxy by (split; (done || lia)).
  assert (d = products M x y len) as ->.
  { unfold d, products. rewrite !values_dense by (done || lia). by rewrite <-He. }
  intros Hd. destruct_or! HM; subst M; destruct arch; cbn [inner_product_8];
    match goal with
    | |- inner_product_scalar _ _ _ _ _ = _ => apply ip_scalar_8_ok; (done || lia)
    | |- inner_product_v3_8_1 _ _ _ = _ =>
        eapply (bulk_kernel_ok debug 1 8 4); [apply bulk_8_1|done|lia|done|done]
    | |- inner_product_v3_8_2 _ _ _ = _ =>
        eapply (bulk_kernel_ok debug 2 4 16); [apply bulk_8_2|done|lia|done|done]
    | |- inner_product_v3_8_4 _ _ _ = _ =>
        eapply (bulk_kernel_ok debug 4 2 16); [apply bulk_8_4|done|lia|done|done]
    end.
Qed.

Lemma inner_product_8_correct_witness :
  let x := mkBitSlice (replicate 331 200) 331 in
  let y := mkBitSlice (replicate 83 0xb1) 331 in
  inner_product_8 true V4 2 x y = Some (Ok 99200).
Proof.
  intros x y. destruct (inner_product_8_correct true V4 2 x y) as [_ H].
  - by right; left.
  - split_and!; [by apply Forall_replicate|cbn; lia|cbn; lia|intros []; reflexivity].
  - split_and!; [by apply Forall_replicate|cbn; lia|cbn; lia|intros []; reflexivity].
  - rewrite H; [reflexivity|reflexivity|right; vm_compute; reflexivity].
Defined.
