(* ===== verification/DiskIo.v ===== *)
(** * Sequential input and output of the disk index ([diskann-disk/src/storage])

    - the files of a storage provider ([diskann-providers/src/storage/file_storage_provider.rs]):
      a map from names to bytes, readers and writers as cursors with the standard library's
      [read_exact], [write_all] and [seek];
    - Section [reader]: [CachedReader] ([cached_reader.rs]), which reads ahead in blocks;
    - Section [writer]: [CachedWriter] ([cached_writer.rs]), which writes behind in blocks.

    A computation ([comp]) panics ([None]), fails with an error, or succeeds.  Subtractions on
    unsigned integers that underflow and slices out of range are panics.  A reader is a snapshot
    of its file: nothing of the modelled code writes a file that it has open for reading.

    The theorems: reading through the cache is reading the file in order, whatever the size of
    the cache and of the reads, with an error exactly when the file is exhausted; and writing
    through the cache appends, in order. *)

From stdpp Require Export gmap strings.
From S2P Require Export Prelude Bytes.

(** ** Errors and computations *)

(** The [ErrorKind]s the modelled code uses, and the errors of [std::io] it passes on. *)
Inductive DiskError :=
| IndexError
| IndexConfigError
| SerdeError
| DiskIOAlignmentError
| MaxDegreeOverflow
| MaxDegreeUnsupportedLayoutVersion
| NotFound
| UnexpectedEof
| IoOther.

Definition comp (A : Type) : Type := option (result DiskError A).
Definition ret {A} (a : A) : comp A := Some (Ok a).
Definition throw {A} (e : DiskError) : comp A := Some (Err e).
(** An operation that may panic. *)
Definition lift {A} (o : option A) : comp A := match o with Some a => ret a | None => None end.
Definition comp_bind {A B} (m : comp A) (f : A → comp B) : comp B :=
  match m with Some (Ok a) => f a | Some (Err e) => Some (Err e) | None => None end.

Declare Scope disk_scope.
Notation "'let*' x := m 'in' k" := (comp_bind m (λ x, k))
  (at level 10, x pattern, m at level 200, k at level 200) : disk_scope.
Open Scope disk_scope.

Lemma comp_bind_ret {A B} (a : A) (f : A → comp B) : comp_bind (ret a) f = f a.
Proof. done. Qed.

Lemma comp_bind_lift {A B} (a : A) (f : A → comp B) : comp_bind (lift (Some a)) f = f a.
Proof. done. Qed.

Lemma comp_bind_assoc {A B C} (m : comp A) (f : A → comp B) (g : B → comp C) :
  comp_bind (comp_bind m f) g = comp_bind m (λ a, comp_bind (f a) g).
Proof. by destruct m as [[|]|]. Qed.

(** [&v\[off..off + n\]]. *)
Definition slice {A} (off n : nat) (l : list A) : option (list A) :=
  if off + n <=? length l then Some (take n (drop off l)) else None.

(** [v\[off..off + data.len()\].copy_from_slice(data)]. *)
Definition copy_at {A} (off : nat) (data l : list A) : option (list A) :=
  if off + length data <=? length l
  then Some (take off l ++ data ++ drop (off + length data) l) else None.

Lemma slice_ok {A} off n (l : list A) :
  off + n ≤ length l → slice off n l = Some (take n (drop off l)).
Proof. intros. unfold slice. case_nat; [done|lia]. Qed.

Lemma slice_Some {A} off n (l k : list A) :
  slice off n l = Some k → k = take n (drop off l) ∧ length k = n.
Proof.
  unfold slice. case_nat; [|done]. intros [= <-]. split; [done|].
  rewrite length_take, length_drop. lia.
Qed.

Lemma slice_app {A} (l k r : list A) off n :
  off = length l → n = length k → slice off n (l ++ k ++ r) = Some k.
Proof.
  intros -> ->. rewrite slice_ok by (rewrite !length_app; lia).
  by rewrite drop_app_length, take_app_length.
Qed.

Lemma slice_prefix {A} (k r : list A) n : n = length k → slice 0 n (k ++ r) = Some k.
Proof. intros ->. exact (slice_app [] k r _ _ eq_refl eq_refl). Qed.

Lemma copy_at_ok {A} off (data l : list A) :
  off + length data ≤ length l →
  copy_at off data l = Some (take off l ++ data ++ drop (off + length data) l).
Proof. intros. unfold copy_at. case_nat; [done|lia]. Qed.

Lemma copy_at_length {A} off (data l k : list A) :
  copy_at off data l = Some k → length k = length l.
Proof.
  unfold copy_at. case_nat; [|done]. intros [= <-].
  rewrite !length_app, length_take, length_drop. lia.
Qed.

Lemma copy_at_app {A} (l old data r : list A) off :
  off = length l → length old = length data →
  copy_at off data (l ++ old ++ r) = Some (l ++ data ++ r).
Proof.
  intros -> E. rewrite copy_at_ok by (rewrite !length_app; lia).
  rewrite take_app_length. do 3 f_equal.
  rewrite <-E, <-drop_drop, drop_app_length. apply drop_app_length.
Qed.

(** ** Files *)

(** The storage of [FileStorageProvider]. *)
Abbreviation Storage := (gmap string (list Z)).

Record Reader := mkReader { content : list Z; position : nat }.

Definition open_reader (s : Storage) (name : string) : comp Reader :=
  match s !! name with Some c => ret (mkReader c 0) | None => throw NotFound end.

Definition get_length (s : Storage) (name : string) : comp nat :=
  match s !! name with Some c => ret (length c) | None => throw NotFound end.

Definition exists_ (s : Storage) (name : string) : bool := bool_decide (is_Some (s !! name)).

Definition delete_file (s : Storage) (name : string) : comp Storage :=
  if exists_ s name then ret (delete name s) else throw NotFound.

(** [std::io::Read::read_exact]. *)
Definition read_exact (n : nat) (r : Reader) : comp (list Z * Reader) :=
  match slice (position r) n (content r) with
  | Some bytes => ret (bytes, mkReader (content r) (position r + n))
  | None => throw UnexpectedEof
  end.

(** [read_u32::<LittleEndian>] and [read_u64::<LittleEndian>] of [byteorder]. *)
Definition read_num (n : nat) (r : Reader) : comp (nat * Reader) :=
  let* (bytes, r) := read_exact n r in ret (Z.to_nat (le bytes), r).
Definition read_u32 : Reader → comp (nat * Reader) := read_num 4.
Definition read_u64 : Reader → comp (nat * Reader) := read_num 8.

Record Writer := mkWriter { written : list Z; wpos : nat }.

(** [create_for_write] truncates, [open_writer] needs the file and keeps its bytes. *)
Definition create_for_write : Writer := mkWriter [] 0.
Definition open_writer (s : Storage) (name : string) : comp Writer :=
  match s !! name with Some c => ret (mkWriter c 0) | None => throw NotFound end.

(** [seek(SeekFrom::Start(n))]. *)
Definition seek_start (n : nat) (w : Writer) : Writer := mkWriter (written w) n.

(** [write_all]: over the bytes at the cursor, past the end it extends the file (a gap after a
    seek is filled with zeros). *)
Definition write_all (data : list Z) (w : Writer) : Writer :=
  let c := written w ++ replicate (wpos w - length (written w)) 0%Z in
  mkWriter (take (wpos w) c ++ data ++ drop (wpos w + length data) c) (wpos w + length data).

Lemma write_all_end data w :
  wpos w = length (written w) →
  write_all data w = mkWriter (written w ++ data) (length (written w ++ data)).
Proof.
  intros E. unfold write_all. rewrite E, Nat.sub_diag. simpl. rewrite app_nil_r, length_app.
  rewrite take_ge, drop_ge by lia. by rewrite app_nil_r.
Qed.

Lemma read_exact_ok n r :
  position r + n ≤ length (content r) →
  read_exact n r = ret (take n (drop (position r) (content r)),
                        mkReader (content r) (position r + n)).
Proof. intros. unfold read_exact. by rewrite slice_ok. Qed.

(** ** The cached reader *)

Section reader.

Record CachedReader := mkCached {
  reader : Reader;
  cache_size : nat;
  cache_buf : list Z;
  cur_off : nat;
  cr_size : nat;
}.

(** [CachedReader::new] *)
Definition cached_new (name : string) (csize : nat) (s : Storage) : comp CachedReader :=
  let* r := open_reader s name in
  let* len := get_length s name in
  let csize := csize `min` len in
  let* (buf, r) := read_exact csize r in
  ret (mkCached r csize buf 0 len).

(** [CachedReader::read], into a buffer of [n] bytes. *)
Definition cached_read (n : nat) (c : CachedReader) : comp (list Z * CachedReader) :=
  let* avail := lift (usub (cache_size c) (cur_off c)) in
  if n <=? avail then
    let* bytes := lift (slice (cur_off c) n (cache_buf c)) in
    ret (bytes, mkCached (reader c) (cache_size c) (cache_buf c) (cur_off c + n) (cr_size c))
  else
    let* rest_len := lift (usub (cr_size c) (position (reader c))) in
    if rest_len <? n - avail then throw IndexError
    else
      (* [copy_from_slice] panics unless the two slices have the same length *)
      let* _ := lift (rassert (avail =? length (drop (cur_off c) (cache_buf c)))) in
      let* (rest, r) := read_exact (n - avail) (reader c) in
      let bytes := drop (cur_off c) (cache_buf c) ++ rest in
      let* size_left := lift (usub (cr_size c) (position r)) in
      if cache_size c <=? size_left then
        let* (buf, r) := read_exact (cache_size c) r in
        ret (bytes, mkCached r (cache_size c) buf 0 (cr_size c))
      else ret (bytes, mkCached r (cache_size c) (cache_buf c) (cache_size c) (cr_size c)).

(** [CachedReader::read_u32] *)
Definition cached_read_u32 (c : CachedReader) : comp (nat * CachedReader) :=
  let* (bytes, c) := cached_read 4 c in ret (Z.to_nat (le bytes), c).

(** What is still to be read: the rest of the cache, then the rest of the file. *)
Definition unread (c : CachedReader) : list Z :=
  drop (cur_off c) (cache_buf c) ++ drop (position (reader c)) (content (reader c)).

Record reader_ok (c : CachedReader) : Prop := {
  ro_buf : length (cache_buf c) = cache_size c;
  ro_off : cur_off c ≤ cache_size c;
  ro_size : cr_size c = length (content (reader c));
  ro_pos : position (reader c) ≤ cr_size c;
}.

Lemma cached_new_ok name csize s c :
  s !! name = Some c →
  ∃ r, cached_new name csize s = ret r ∧ reader_ok r ∧ unread r = c.
Proof.
  intros Hs. unfold cached_new, open_reader, get_length. rewrite Hs, !comp_bind_ret.
  rewrite read_exact_ok by (simpl; lia). rewrite comp_bind_ret. eexists; split; [done|].
  split; [split|]; simpl; rewrite ?length_take, ?length_drop; try lia.
  unfold unread. simpl. rewrite drop_0. apply take_drop.
Qed.

Lemma take_app_cases {A} n (l k : list A) :
  length l ≤ n → take n (l ++ k) = l ++ take (n - length l) k.
Proof. intros. by rewrite take_app, take_ge. Qed.

(** One read: the next [n] bytes, or an error when fewer are left. *)
Lemma cached_read_ok n c :
  reader_ok c →
  if length (unread c) <? n then cached_read n c = throw IndexError
  else ∃ c', cached_read n c = ret (take n (unread c), c') ∧ reader_ok c' ∧
             unread c' = drop n (unread c).
Proof.
  intros [Hb Ho Hs Hp]. unfold cached_read.
  assert (Hlen : length (unread c) = (cache_size c - cur_off c) + (cr_size c - position (reader c))).
  { unfold unread. rewrite length_app, !length_drop. lia. }
  rewrite Hlen. case_nat; rewrite usub_ok, comp_bind_lift by done; case_nat; try lia.
  - rewrite usub_ok, comp_bind_lift by done. case_nat; [done|lia].
  - rewrite slice_ok, comp_bind_lift by lia. eexists; split_and!.
    + unfold unread. by rewrite take_app_le by (rewrite length_drop; lia).
    + split; simpl; try done; lia.
    + unfold unread. simpl. rewrite drop_app_le, drop_drop by (rewrite length_drop; lia). done.
  - rewrite usub_ok, comp_bind_lift by done. case_nat; [lia|]. rewrite length_drop, Hb.
    rewrite Nat.eqb_refl. simpl rassert. rewrite comp_bind_lift, read_exact_ok by lia.
    rewrite comp_bind_ret, usub_ok, comp_bind_lift by (simpl; lia). simpl position.
    assert (Hd : length (drop (cur_off c) (cache_buf c)) = cache_size c - cur_off c)
      by (rewrite length_drop; lia).
    assert (Ht : take n (unread c) = drop (cur_off c) (cache_buf c) ++
              take (n - (cache_size c - cur_off c)) (drop (position (reader c)) (content (reader c)))).
    { unfold unread. by rewrite take_app_cases, Hd by lia. }
    assert (Hr : drop n (unread c) = drop (position (reader c) + (n - (cache_size c - cur_off c)))
                                          (content (reader c))).
    { unfold unread. by rewrite drop_app_ge, drop_drop, Hd by lia. }
    rewrite Ht, Hr. case_nat.
    + rewrite read_exact_ok, comp_bind_ret by (simpl; lia).
      eexists; split_and!; [done| |]; simpl.
      * split; simpl; rewrite ?length_take, ?length_drop; lia.
      * unfold unread. simpl. rewrite drop_0, <-(drop_drop _ (cache_size c) (_ + _)).
        apply take_drop.
    + eexists; split_and!; [done| |]; simpl.
      * split; simpl; lia.
      * unfold unread. simpl. by rewrite (drop_ge (cache_buf c)) by lia.
Qed.

(** A sequence of reads. *)
Fixpoint cached_reads (ns : list nat) (c : CachedReader) : comp (list (list Z)) :=
  match ns with
  | [] => ret []
  | n :: ns =>
      let* (b, c) := cached_read n c in
      let* bs := cached_reads ns c in
      ret (b :: bs)
  end.

(** The plain file: the bytes in order, an error once a read asks for more than is left. *)
Fixpoint plain_reads (ns : list nat) (l : list Z) : comp (list (list Z)) :=
  match ns with
  | [] => ret []
  | n :: ns =>
      if length l <? n then throw IndexError
      else let* bs := plain_reads ns (drop n l) in ret (take n l :: bs)
  end.

Lemma cached_reads_plain ns : ∀ c, reader_ok c → cached_reads ns c = plain_reads ns (unread c).
Proof.
  induction ns as [|n ns IH]; intros c Hc; [done|]. simpl. pose proof (cached_read_ok n c Hc) as H.
  destruct (length (unread c) <? n); [by rewrite H|].
  destruct H as (c' & -> & Hc' & <-). by rewrite comp_bind_ret, IH.
Qed.

(** The read-ahead cache of [CachedReader] is invisible.  For every file, cache size and
    sequence of reads, opening the file and reading through the cache gives the same buffers as
    reading the file in order, fails at the same read (the first one that asks for more bytes
    than are left), and never panics. *)
Theorem cached_reader_refines (s : Storage) (name : string) (file : list Z) csize ns :
  s !! name = Some file →
  (let* c := cached_new name csize s in cached_reads ns c) = plain_reads ns file ∧
  plain_reads ns file ≠ None.
Proof.
  intros Hs. destruct (cached_new_ok name csize s file Hs) as (c & -> & Hc & <-).
  rewrite comp_bind_ret. split; [by apply cached_reads_plain|].
  generalize (unread c). induction ns as [|n ns IH]; intros l; [done|]. simpl. case_nat; [done|].
  specialize (IH (drop n l)). by destruct (plain_reads ns (drop n l)) as [[]|].
Qed.

End reader.

(** A file of ten bytes behind a cache of four: reads within, across and past the cache, and a
    last one that is too long. *)
Lemma cached_reader_refines_witness :
  let s : Storage := {[ "f" := [1; 2; 3; 4; 5; 6; 7; 8; 9; 10]%Z ]} in
  (let* c := cached_new "f" 4 s in cached_reads [2; 5; 3] c) =
    ret [[1; 2]; [3; 4; 5; 6; 7]; [8; 9; 10]]%Z ∧
  (let* c := cached_new "f" 4 s in cached_reads [2; 9] c) = throw IndexError.
Proof.
  intros s. split.
  - exact (proj1 (cached_reader_refines s "f" _ 4 [2; 5; 3] eq_refl)).
  - exact (proj1 (cached_reader_refines s "f" _ 4 [2; 9] eq_refl)).
Defined.

(** ** The cached writer *)

Section writer.

Record CachedWriter := mkCWriter {
  cw_writer : Writer;
  cw_cache_size : nat;
  cw_buf : list Z;
  cw_off : nat;
  cw_fsize : nat;
}.

(** [CachedWriter::new] *)
Definition cw_new (csize : nat) (w : Writer) : comp CachedWriter :=
  if csize =? 0 then throw IoOther else ret (mkCWriter w csize (replicate csize 0%Z) 0 0).

(** [CachedWriter::flush_cache] *)
Definition flush_cache (c : CachedWriter) : comp CachedWriter :=
  let* pending := lift (slice 0 (cw_off c) (cw_buf c)) in
  ret (mkCWriter (write_all pending (cw_writer c)) (cw_cache_size c)
         (replicate (length (cw_buf c)) 0%Z) 0 (cw_fsize c + cw_off c)).

(** [CachedWriter::flush]; dropping the writer flushes it too. *)
Definition cw_flush (c : CachedWriter) : comp CachedWriter :=
  if 0 <? cw_off c then flush_cache c else ret c.

(** [CachedWriter::write] *)
Definition cw_write (data : list Z) (c : CachedWriter) : comp CachedWriter :=
  let n := length data in
  let* avail := lift (usub (cw_cache_size c) (cw_off c)) in
  if n <=? avail then
    let* buf := lift (copy_at (cw_off c) data (cw_buf c)) in
    ret (mkCWriter (cw_writer c) (cw_cache_size c) buf (cw_off c + n) (cw_fsize c))
  else
    let* pending := lift (slice 0 (cw_off c) (cw_buf c)) in
    ret (mkCWriter (write_all data (write_all pending (cw_writer c))) (cw_cache_size c)
           (replicate (length (cw_buf c)) 0%Z) 0 (cw_fsize c + cw_off c + n)).

(** [CachedWriter::reset] *)
Definition cw_reset (c : CachedWriter) : comp CachedWriter :=
  let* c := flush_cache c in
  ret (mkCWriter (seek_start 0 (cw_writer c)) (cw_cache_size c) (cw_buf c) (cw_off c)
         (cw_fsize c)).

(** What has been written so far: the bytes of the file, then those of the cache. *)
Definition appended (c : CachedWriter) : list Z :=
  written (cw_writer c) ++ take (cw_off c) (cw_buf c).

Record writer_ok (c : CachedWriter) : Prop := {
  wo_buf : length (cw_buf c) = cw_cache_size c;
  wo_off : cw_off c ≤ cw_cache_size c;
  wo_pos : wpos (cw_writer c) = length (written (cw_writer c));
  wo_fsize : cw_fsize c = length (written (cw_writer c));
}.

Lemma cw_new_ok csize :
  0 < csize → ∃ c, cw_new csize create_for_write = ret c ∧ writer_ok c ∧ appended c = [].
Proof.
  intros. unfold cw_new. case_nat; [lia|]. eexists; split_and!; [done| |done].
  split; simpl; rewrite ?length_replicate; lia.
Qed.

Lemma flush_cache_ok c :
  writer_ok c → ∃ c', flush_cache c = ret c' ∧ writer_ok c' ∧
                      written (cw_writer c') = appended c ∧ cw_off c' = 0.
Proof.
  intros [Hb Ho Hp Hf]. unfold flush_cache. rewrite slice_ok, comp_bind_lift by lia.
  rewrite drop_0, write_all_end by done.
  eexists; split_and!; [done| |done|done]; split; simpl;
    rewrite ?length_replicate, ?length_app, ?length_take; lia.
Qed.

Lemma cw_flush_ok c :
  writer_ok c → ∃ c', cw_flush c = ret c' ∧ writer_ok c' ∧
                      written (cw_writer c') = appended c ∧ cw_off c' = 0.
Proof.
  intros Hc. unfold cw_flush. case_nat; [by apply flush_cache_ok|].
  exists c. split_and!; [done|done| |lia].
  unfold appended. replace (cw_off c) with 0 by lia. by rewrite app_nil_r.
Qed.

Lemma cw_write_ok data c :
  writer_ok c → ∃ c', cw_write data c = ret c' ∧ writer_ok c' ∧ appended c' = appended c ++ data.
Proof.
  intros [Hb Ho Hp Hf]. unfold cw_write. rewrite usub_ok, comp_bind_lift by done. case_nat.
  - rewrite copy_at_ok, comp_bind_lift by lia. eexists; split_and!; [done| |].
    + split; simpl; rewrite ?length_app, ?length_take, ?length_drop; lia.
    + unfold appended. simpl. rewrite <-app_assoc. f_equal.
      rewrite app_assoc, take_app_length' by (rewrite length_app, length_take; lia). done.
  - rewrite slice_ok, drop_0, comp_bind_lift by lia.
    rewrite (write_all_end (take _ _)), write_all_end by done. eexists; split_and!; [done| |].
    + split; simpl; rewrite ?length_replicate, ?length_app, ?length_take; lia.
    + unfold appended. simpl. by rewrite app_nil_r.
Qed.

(** A sequence of writes. *)
Fixpoint cw_writes (ds : list (list Z)) (c : CachedWriter) : comp CachedWriter :=
  match ds with [] => ret c | d :: ds => let* c := cw_write d c in cw_writes ds c end.

Lemma cw_writes_app ds1 ds2 c :
  cw_writes (ds1 ++ ds2) c = let* c := cw_writes ds1 c in cw_writes ds2 c.
Proof.
  revert c. induction ds1 as [|d ds1 IH]; intros c; [done|]. simpl.
  rewrite comp_bind_assoc. by destruct (cw_write d c) as [[]|]; simpl.
Qed.

Lemma cw_writes_ok ds : ∀ c, writer_ok c →
  ∃ c', cw_writes ds c = ret c' ∧ writer_ok c' ∧ appended c' = appended c ++ concat ds.
Proof.
  induction ds as [|d ds IH]; intros c Hc; simpl.
  - exists c. by rewrite app_nil_r.
  - destruct (cw_write_ok d c Hc) as (c1 & -> & Hc1 & E1). rewrite comp_bind_ret.
    destruct (IH c1 Hc1) as (c2 & -> & Hc2 & E2). exists c2. split_and!; [done|done|].
    by rewrite E2, E1, app_assoc.
Qed.

(** The write-behind cache of [CachedWriter] loses and reorders nothing.  Whatever the cache
    size and the writes (empty ones and ones larger than the cache included), a fresh writer
    followed by a flush leaves in the file exactly the bytes written, in order, reports their
    number as the file size, and a second flush writes nothing. *)
Theorem cached_writer_refines csize ds :
  0 < csize →
  ∃ c, (let* c := cw_new csize create_for_write in let* c := cw_writes ds c in cw_flush c) = ret c ∧
       written (cw_writer c) = concat ds ∧ cw_fsize c = length (concat ds) ∧ cw_flush c = ret c.
Proof.
  intros Hc. destruct (cw_new_ok csize Hc) as (c0 & -> & H0 & E0). rewrite comp_bind_ret.
  destruct (cw_writes_ok ds c0 H0) as (c1 & -> & H1 & E1). rewrite comp_bind_ret.
  destruct (cw_flush_ok c1 H1) as (c2 & -> & H2 & E2 & Ho). exists c2. split; [done|].
  rewrite E1, E0 in E2. split; [done|]. split; [by rewrite (wo_fsize _ H2), E2|].
  unfold cw_flush. by rewrite Ho.
Qed.

End writer.

(** Writes that fill, miss and exceed a cache of four bytes. *)
Lemma cached_writer_refines_witness :
  0 < 4 ∧
  ∃ c, (let* c := cw_new 4 create_for_write in
        let* c := cw_writes [[1; 2; 3]; [4; 5]; []; [6; 7; 8; 9; 10]; [11]]%Z c in cw_flush c) = ret c ∧
       written (cw_writer c) = [1; 2; 3; 4; 5; 6; 7; 8; 9; 10; 11]%Z ∧ cw_fsize c = 11.
Proof.
  split; [lia|].
  destruct (cached_writer_refines 4 [[1; 2; 3]; [4; 5]; []; [6; 7; 8; 9; 10]; [11]]%Z
              ltac:(lia)) as (c & H1 & H2 & H3 & _).
  exists c. split_and!; [exact H1|exact H2|exact H3].
Defined.
