(* ===== verification/DiskHeader.v ===== *)
(** * The header of the disk index ([diskann-disk/src/data_model])

    - [GraphMetadata] ([graph_metadata.rs]), [GraphLayoutVersion] ([graph_layout_version.rs]) and
      [GraphHeader] ([graph_header.rs]): serialization, parsing, the order of versions and the
      degree bound derived from a header.

    A [u32] or [u64] field is a [nat] with its range as a hypothesis where it matters; a header
    is stored little-endian, ten words of metadata (the eighth is always 0), the block size and
    two half words of version.  The theorem: parsing what was serialized, followed by anything,
    gives the header back. *)

From S2P Require Import DiskIo.

(** Numbers that fit in [n] bytes. *)
Definition fits (n : nat) (x : nat) : Prop := (Z.of_nat x < 2 ^ (8 * Z.of_nat n))%Z.

(** [to_le_bytes] and [from_le_bytes]. *)
Definition put (n : nat) (x : nat) : list Z := to_le n (Z.of_nat x).
Definition get (bytes : list Z) : nat := Z.to_nat (le bytes).
#[global] Arguments put : simpl never.
#[global] Arguments get : simpl never.

Lemma get_put n x : fits n x → get (put n x) = x.
Proof.
  intros H. unfold get, put. rewrite le_to_le, Z.mod_small by (split; [lia|exact H]).
  apply Nat2Z.id.
Qed.

Lemma length_put n x : length (put n x) = n.
Proof. apply length_to_le. Qed.

Lemma put_ok n x : bytes_ok (put n x).
Proof. apply to_le_ok. Qed.

(** A number at the front of what a reader has left. *)
Lemma read_num_put n x pre post :
  fits n x →
  read_num n (mkReader (pre ++ put n x ++ post) (length pre)) =
  ret (x, mkReader (pre ++ put n x ++ post) (length (pre ++ put n x))).
Proof.
  intros Hx. unfold read_num, read_exact. simpl.
  rewrite slice_app by (rewrite ?length_put; done). rewrite comp_bind_ret, length_app, length_put.
  by fold (get (put n x)); rewrite get_put.
Qed.

(** ** Metadata *)

Record GraphMetadata := mkMetadata {
  num_pts : nat;
  dims : nat;
  medoid : nat;
  node_len : nat;
  num_nodes_per_block : nat;
  vamana_frozen_num : nat;
  vamana_frozen_loc : nat;
  disk_index_file_size : nat;
  associated_data_length : nat;
}.

Definition metadata_size : nat := 8 * 10.

(** [GraphMetadata::to_bytes]; the eighth word, [append_reorder_data], is [false]. *)
Definition metadata_to_bytes (m : GraphMetadata) : list Z :=
  put 8 (num_pts m) ++ put 8 (dims m) ++ put 8 (medoid m) ++ put 8 (node_len m) ++
  put 8 (num_nodes_per_block m) ++ put 8 (vamana_frozen_num m) ++ put 8 (vamana_frozen_loc m) ++
  put 8 0 ++ put 8 (disk_index_file_size m) ++ put 8 (associated_data_length m).

(** [GraphMetadata::try_from] *)
Definition metadata_try_from (value : list Z) : comp GraphMetadata :=
  if length value <? metadata_size then throw SerdeError
  else
    let* (npts, c) := read_u64 (mkReader value 0) in
    let* (d, c) := read_u64 c in
    let* (med, c) := read_u64 c in
    let* (nlen, c) := read_u64 c in
    let* (npb, c) := read_u64 c in
    let* (fnum, c) := read_u64 c in
    let* (floc, c) := read_u64 c in
    let* (_, c) := read_u64 c in
    let* (fsize, c) := read_u64 c in
    let* (alen, _) := read_u64 c in
    ret (mkMetadata npts d med nlen npb fnum floc fsize alen).

Definition metadata_ok (m : GraphMetadata) : Prop :=
  Forall (fits 8) [num_pts m; dims m; medoid m; node_len m; num_nodes_per_block m;
                   vamana_frozen_num m; vamana_frozen_loc m; disk_index_file_size m;
                   associated_data_length m].

Lemma length_metadata m : length (metadata_to_bytes m) = metadata_size.
Proof. unfold metadata_to_bytes. rewrite !length_app, !length_put. done. Qed.

(** One more number of a concatenation of numbers. *)
Lemma read_u64_next x pre post :
  fits 8 x →
  read_u64 (mkReader (pre ++ put 8 x ++ post) (length pre)) =
  ret (x, mkReader ((pre ++ put 8 x) ++ post) (length (pre ++ put 8 x))).
Proof. intros Hx. rewrite <-app_assoc. by apply read_num_put. Qed.

Ltac read_next :=
  rewrite read_u64_next by assumption; rewrite comp_bind_ret.

Lemma metadata_roundtrip m rest :
  metadata_ok m → metadata_try_from (metadata_to_bytes m ++ rest) = ret m.
Proof.
  destruct m as [a b c d e f g h i]. unfold metadata_ok. rewrite !Forall_cons.
  intros (Ha & Hb & Hc & Hd & He & Hf & Hg & Hh & Hi & _). unfold metadata_try_from.
  rewrite length_app, length_metadata. case_nat; [lia|].
  unfold metadata_to_bytes.
  cbn [num_pts dims medoid node_len num_nodes_per_block vamana_frozen_num vamana_frozen_loc
       disk_index_file_size associated_data_length]. rewrite <-!app_assoc.
  assert (H0 : fits 8 0) by done.
  change (mkReader ?l 0) with (mkReader ([] ++ l) (length (@nil Z))).
  do 9 read_next. rewrite read_u64_next by assumption. done.
Qed.

(** ** Layout version *)

Record GraphLayoutVersion := mkVersion { major : nat; minor : nat }.

#[export] Instance version_eq_dec : EqDecision GraphLayoutVersion.
Proof. solve_decision. Defined.

Definition version_size : nat := 8.

Definition version_to_bytes (v : GraphLayoutVersion) : list Z := put 4 (major v) ++ put 4 (minor v).

(** [Ord::cmp] *)
Definition version_cmp (v w : GraphLayoutVersion) : comparison :=
  match Nat.compare (major v) (major w) with
  | Eq => Nat.compare (minor v) (minor w)
  | c => c
  end.

Definition version_try_from (value : list Z) : comp GraphLayoutVersion :=
  if length value <? version_size then throw SerdeError
  else
    let* (ma, c) := read_u32 (mkReader value 0) in
    let* (mi, _) := read_u32 c in
    ret (mkVersion ma mi).

Lemma version_roundtrip v rest :
  fits 4 (major v) → fits 4 (minor v) →
  version_try_from (version_to_bytes v ++ rest) = ret v.
Proof.
  destruct v as [ma mi]. cbn [major minor]. intros Ha Hi. unfold version_try_from, version_to_bytes.
  cbn [major minor]. rewrite !length_app, !length_put. case_nat; [unfold version_size in *; lia|].
  rewrite <-app_assoc. unfold read_u32.
  change (mkReader ?l 0) with (mkReader ([] ++ l) (length (@nil Z))).
  rewrite read_num_put by done. rewrite comp_bind_ret, !app_nil_l. by rewrite read_num_put.
Qed.

(** Versions are ordered lexicographically: a total order whose equality is equality. *)
Lemma version_cmp_spec v w :
  CompareSpec (v = w)
    (major v < major w ∨ major v = major w ∧ minor v < minor w)
    (major w < major v ∨ major v = major w ∧ minor w < minor v) (version_cmp v w).
Proof.
  destruct v as [a b], w as [c d]. unfold version_cmp. simpl.
  destruct (Nat.compare_spec a c); [destruct (Nat.compare_spec b d)|..]; constructor; subst;
    auto with lia.
Qed.

(** ** Header *)

Record GraphHeader := mkHeader {
  metadata : GraphMetadata;
  block_size : nat;
  layout_version : GraphLayoutVersion;
}.

Definition CURRENT_LAYOUT_VERSION : GraphLayoutVersion := mkVersion 1 0.

Definition header_size : nat := metadata_size + 8 + version_size.

Definition header_to_bytes (h : GraphHeader) : list Z :=
  metadata_to_bytes (metadata h) ++ put 8 (block_size h) ++ version_to_bytes (layout_version h).

Definition header_try_from (value : list Z) : comp GraphHeader :=
  if length value <? header_size then throw SerdeError
  else
    let* m := lift (slice 0 metadata_size value) in
    let* m := metadata_try_from m in
    let* (bs, _) := read_u64 (mkReader (drop metadata_size value) 0) in
    let* v := version_try_from (drop (metadata_size + 8) value) in
    ret (mkHeader m bs v).

(** [checked_sub] *)
Definition checked_sub (a b : nat) : option nat := usub a b.

(** [GraphHeader::max_degree] for vectors of elements of [vec_size] bytes. *)
Definition max_degree (vec_size : nat) (h : GraphHeader) : result DiskError nat :=
  let m := metadata h in
  if bool_decide (layout_version h ∈ [mkVersion 0 0; mkVersion 1 0]) then
    let vector_len := vec_size * dims m in
    match checked_sub (node_len m) vector_len ≫= λ len,
          checked_sub len (associated_data_length m) ≫= λ len, checked_sub (len / 4) 1 with
    | Some degree => Ok degree
    | None => Err MaxDegreeOverflow
    end
  else Err MaxDegreeUnsupportedLayoutVersion.

Definition header_ok (h : GraphHeader) : Prop :=
  metadata_ok (metadata h) ∧ fits 8 (block_size h) ∧
  fits 4 (major (layout_version h)) ∧ fits 4 (minor (layout_version h)).

Lemma length_header h : length (header_to_bytes h) = header_size.
Proof.
  unfold header_to_bytes, version_to_bytes. by rewrite !length_app, length_metadata, !length_put.
Qed.

(** What [to_bytes] writes, [try_from] reads, whatever follows in the buffer. *)
Lemma header_roundtrip h rest :
  header_ok h → header_try_from (header_to_bytes h ++ rest) = ret h.
Proof.
  destruct h as [m bs v]. intros (Hm & Hb & Hma & Hmi).
  cbn [metadata block_size layout_version] in *. unfold header_try_from.
  rewrite length_app, length_header. case_nat; [lia|].
  assert (E : header_to_bytes (mkHeader m bs v) ++ rest =
              metadata_to_bytes m ++ put 8 bs ++ version_to_bytes v ++ rest).
  { unfold header_to_bytes. cbn [metadata block_size layout_version]. by rewrite <-!app_assoc. }
  rewrite E, slice_prefix, comp_bind_lift by (by rewrite length_metadata).
  rewrite <-(app_nil_r (metadata_to_bytes m)) at 1. rewrite metadata_roundtrip by done.
  rewrite comp_bind_ret, drop_app_length' by (by rewrite length_metadata).
  change (mkReader ?l 0) with (mkReader ([] ++ l) (length (@nil Z))).
  rewrite read_u64_next by done. rewrite comp_bind_ret, app_assoc.
  rewrite drop_app_length' by (by rewrite length_app, length_metadata, length_put).
  by rewrite version_roundtrip.
Qed.

(** A buffer shorter than a header is refused. *)
Lemma header_too_short value : length value < header_size → header_try_from value = throw SerdeError.
Proof. intros. unfold header_try_from. case_nat; [done|lia]. Qed.
