(* ===== verification/DiskLayout.v ===== *)
(** * Writing the disk index ([diskann-disk/src/storage/disk_index_writer.rs])

    - Section [writer]: [DiskIndexWriter] and its state: opening the dataset, the associated data
      and the in-memory graph, copying one node ([read_neighbors]), the header and
      [create_disk_layout] with its two layouts (several nodes per sector, several sectors per
      node); [save_bytes] of [diskann-providers] and the 8-byte prefix of [diskann-utils];
    - Section [spec]: the abstract graph ([Graph]), the three input files that hold it, the bytes
      of a node and of the whole file;
    - Section [proof]: [create_disk_layout] writes exactly that file.

    Sizes and counts are [nat].  The sizes of the element types are parameters, as is the block
    size of the caches (64 MiB in the source; any positive one will do).  Under [debug] the debug
    assertions of [read_neighbors] panic.  The storage a failed call leaves is not modelled. *)

From S2P Require Import DiskIo DiskHeader.

(** ** Paths ([diskann-providers/src/storage/path_utility.rs]) *)

Definition get_mem_index_file (index_path_prefix : string) : string :=
  index_path_prefix +:+ "_mem.index".
Definition get_disk_index_file (index_path_prefix : string) : string :=
  index_path_prefix +:+ "_disk.index".

(** [usize::div_ceil] and [next_multiple_of]. *)
Definition div_ceil (a b : nat) : nat := (a + b - 1) / b.
Definition next_multiple_of (a b : nat) : nat := div_ceil a b * b.

Section writer.

Context (debug : bool) (vec_size assoc_size READ_WRITE_BLOCK_SIZE : nat).

Record DiskIndexWriterState := mkState {
  muti_shard_index_reader : option Reader;
  associated_data_reader : option CachedReader;
  dataset_reader : option CachedReader;
  st_dims : nat;
  st_num_pts : nat;
  st_max_degree : nat;
  st_medoid : nat;
  st_frozen_num : nat;
  st_node_len : nat;
  st_assoc_len : nat;
  read_blk_size : nat;
  write_blk_size : nat;
}.

Definition state_new : DiskIndexWriterState :=
  mkState None None None 0 0 0 0 0 0 0 READ_WRITE_BLOCK_SIZE READ_WRITE_BLOCK_SIZE.

Definition set_index_reader r '(mkState _ a d di n md me fr nl al rb wb) :=
  mkState r a d di n md me fr nl al rb wb.
Definition set_associated r len '(mkState i _ d di n md me fr nl _ rb wb) :=
  mkState i r d di n md me fr nl len rb wb.
Definition set_dataset r '(mkState i a _ di n md me fr nl al rb wb) :=
  mkState i a r di n md me fr nl al rb wb.
Definition set_counts npts ndims '(mkState i a d _ _ md me fr nl al rb wb) :=
  mkState i a d ndims npts md me fr nl al rb wb.
Definition set_graph deg med frozen '(mkState i a d di n _ _ _ nl al rb wb) :=
  mkState i a d di n deg med frozen nl al rb wb.
Definition set_node_len len '(mkState i a d di n md me fr _ al rb wb) :=
  mkState i a d di n md me fr len al rb wb.

Record DiskIndexWriter := mkIndexWriter {
  dataset_file : string;
  index_path_prefix : string;
  associated_data_file : option string;
  w_block_size : nat;
}.

(** [DiskIndexWriter::new] *)
Definition index_writer_new dataset prefix assoc bsize : result DiskError DiskIndexWriter :=
  if bsize <? metadata_size then Err IndexConfigError
  else Ok (mkIndexWriter dataset prefix assoc bsize).

Definition get_neighbors_number (st : DiskIndexWriterState) : comp (nat * DiskIndexWriterState) :=
  match muti_shard_index_reader st with
  | Some r => let* (n, r) := read_u32 r in ret (n, set_index_reader (Some r) st)
  | None => throw IndexError
  end.

Definition copy_neighbors (n : nat) (st : DiskIndexWriterState) :
    comp (list Z * DiskIndexWriterState) :=
  match muti_shard_index_reader st with
  | Some r => let* (b, r) := read_exact n r in ret (b, set_index_reader (Some r) st)
  | None => throw IndexError
  end.

(** A file size that differs from the recorded one is only logged. *)
Definition open_vamana_reader (w : DiskIndexWriter) (s : Storage) (st : DiskIndexWriterState) :
    comp DiskIndexWriterState :=
  let mem_index_file := get_mem_index_file (index_path_prefix w) in
  let* _ := get_length s mem_index_file in
  let* r := open_reader s mem_index_file in
  let* (_, r) := read_u64 r in
  let* (deg, r) := read_u32 r in
  let* (med, r) := read_u32 r in
  let* (frozen, r) := read_u64 r in
  ret (set_graph deg med frozen (set_index_reader (Some r) st)).

Definition open_associated_data_reader (w : DiskIndexWriter) (s : Storage)
    (st : DiskIndexWriterState) : comp DiskIndexWriterState :=
  match associated_data_file w with
  | Some name =>
      let* r := cached_new name (read_blk_size st) s in
      let* (npts, r) := cached_read_u32 r in
      let* (len, r) := cached_read_u32 r in
      if negb (st_num_pts st =? npts) then throw IndexError
      else ret (set_associated (Some r) len st)
  | None => ret (set_associated None 0 st)
  end.

Definition open_dataset_reader (w : DiskIndexWriter) (s : Storage) (st : DiskIndexWriterState) :
    comp DiskIndexWriterState :=
  let* r := cached_new (dataset_file w) (read_blk_size st) s in
  let* (npts, r) := cached_read_u32 r in
  let* (ndims, r) := cached_read_u32 r in
  ret (set_counts npts ndims (set_dataset (Some r) st)).

(** [read_neighbors], in three steps: the vector, the neighbors, the associated data. *)
Definition copy_coords (block_buf : list Z) (st : DiskIndexWriterState) :
    comp (list Z * DiskIndexWriterState) :=
  match dataset_reader st with
  | Some r =>
      let* (coords, r) := cached_read (st_dims st * vec_size) r in
      let* block_buf := lift (copy_at 0 coords block_buf) in
      ret (block_buf, set_dataset (Some r) st)
  | None => ret (block_buf, st)
  end.

Definition copy_adjacency (block_buf : list Z) (st : DiskIndexWriterState) :
    comp (list Z * DiskIndexWriterState) :=
  let* (num_nbrs, st) := get_neighbors_number st in
  let* _ := lift (rassert (negb debug || (0 <? num_nbrs))) in
  let* _ := lift (rassert (negb debug || (num_nbrs <=? st_max_degree st))) in
  let num_nbrs_start := st_dims st * vec_size in
  let nbrs_buf_start := num_nbrs_start + 4 in
  let* block_buf := lift (copy_at num_nbrs_start (put 4 num_nbrs) block_buf) in
  let* _ := lift (slice nbrs_buf_start (num_nbrs * 4) block_buf) in
  let* (nbrs, st) := copy_neighbors (num_nbrs * 4) st in
  let* block_buf := lift (copy_at nbrs_buf_start nbrs block_buf) in
  ret (block_buf, st).

Definition copy_associated (block_buf : list Z) (st : DiskIndexWriterState) :
    comp (list Z * DiskIndexWriterState) :=
  match associated_data_reader st with
  | Some r =>
      let len := st_assoc_len st * assoc_size in
      let* start := lift (usub (st_node_len st) len) in
      let* _ := lift (slice start len block_buf) in
      let* (data, r) := cached_read len r in
      let* block_buf := lift (copy_at start data block_buf) in
      ret (block_buf, set_associated (Some r) (st_assoc_len st) st)
  | None => ret (block_buf, st)
  end.

Definition read_neighbors (block_buf : list Z) (st : DiskIndexWriterState) :
    comp (list Z * DiskIndexWriterState) :=
  let block_buf := replicate (length block_buf) 0%Z in
  let* (block_buf, st) := copy_coords block_buf st in
  let* (block_buf, st) := copy_adjacency block_buf st in
  copy_associated block_buf st.

(** [Metadata::new] and [Metadata::write] of [diskann-utils/src/io.rs]. *)
Definition write_prefix (npoints ndims : nat) (w : Writer) : comp Writer :=
  if (Z.of_nat npoints <? 2 ^ 32)%Z && (Z.of_nat ndims <? 2 ^ 32)%Z
  then ret (write_all (put 4 npoints ++ put 4 ndims) w) else throw IoOther.

(** [save_bytes] of [diskann-providers/src/utils/storage_utils.rs]. *)
Definition save_bytes (data : list Z) (npts ndims offset : nat) (w : Writer) : comp Writer :=
  let* w := write_prefix npts ndims (seek_start offset w) in
  ret (write_all data w).

Definition write_header (st : DiskIndexWriterState) (bsize per_block file_size : nat) (w : Writer) :
    comp Writer :=
  let frozen_loc := if st_frozen_num st =? 1 then st_medoid st else 0 in
  let m := mkMetadata (st_num_pts st) (st_dims st) (st_medoid st) (st_node_len st) per_block
             (st_frozen_num st) frozen_loc file_size (st_assoc_len st * assoc_size) in
  let bytes := header_to_bytes (mkHeader m bsize CURRENT_LAYOUT_VERSION) in
  save_bytes bytes (length bytes) 1 0 w.

(** The inner loop over the nodes of one sector, with its [break]. *)
Fixpoint fill_sector (todo sector_node_id cur_node_id : nat) (block_buf node_buf : list Z)
    (st : DiskIndexWriterState) : comp (list Z * list Z * nat * DiskIndexWriterState) :=
  match todo with
  | 0 => ret (block_buf, node_buf, cur_node_id, st)
  | S todo =>
      if st_num_pts st <=? cur_node_id then ret (block_buf, node_buf, cur_node_id, st)
      else
        let* (node_buf, st) := read_neighbors node_buf st in
        let* node := lift (slice 0 (st_node_len st) node_buf) in
        let* block_buf := lift (copy_at (sector_node_id * st_node_len st) node block_buf) in
        fill_sector todo (S sector_node_id) (S cur_node_id) block_buf node_buf st
  end.

Fixpoint write_sectors (num_blocks per_block bsize cur_node_id : nat) (node_buf : list Z)
    (st : DiskIndexWriterState) (cw : CachedWriter) : comp (DiskIndexWriterState * CachedWriter) :=
  match num_blocks with
  | 0 => ret (st, cw)
  | S num_blocks =>
      let* (block_buf, node_buf, cur_node_id, st) :=
        fill_sector per_block 0 cur_node_id (replicate bsize 0%Z) node_buf st in
      let* cw := cw_write block_buf cw in
      write_sectors num_blocks per_block bsize cur_node_id node_buf st cw
  end.

Fixpoint write_nodes (todo : nat) (multi_block_buf : list Z) (st : DiskIndexWriterState)
    (cw : CachedWriter) : comp (DiskIndexWriterState * CachedWriter) :=
  match todo with
  | 0 => ret (st, cw)
  | S todo =>
      let* (multi_block_buf, st) := read_neighbors multi_block_buf st in
      let* cw := cw_write multi_block_buf cw in
      write_nodes todo multi_block_buf st cw
  end.

(** [create_disk_layout] *)
Definition create_disk_layout (w : DiskIndexWriter) (s : Storage) : comp Storage :=
  let bsize := w_block_size w in
  let* st := open_dataset_reader w s state_new in
  let* st := open_associated_data_reader w s st in
  let* st := open_vamana_reader w s st in
  let vector_size := st_dims st * vec_size in
  let st := set_node_len ((st_max_degree st + 1) * 4 + vector_size + st_assoc_len st * assoc_size)
              st in
  let per_block := bsize / st_node_len st in
  let num_blocks := if 0 <? per_block then div_ceil (st_num_pts st) per_block
                    else st_num_pts st * div_ceil (st_node_len st) bsize in
  let disk_layout_file := get_disk_index_file (index_path_prefix w) in
  let* cw := cw_new (write_blk_size st) create_for_write in
  let* cw := cw_write (replicate bsize 0%Z) cw in
  let* (st, cw) :=
    if 0 <? per_block then
      write_sectors num_blocks per_block bsize 0 (replicate (st_node_len st) 0%Z) st cw
    else write_nodes (st_num_pts st) (replicate (next_multiple_of (st_node_len st) bsize) 0%Z) st cw
  in
  let* cw := cw_flush cw in
  let s := <[disk_layout_file := written (cw_writer cw)]> s in
  let* w' := open_writer s disk_layout_file in
  let* w' := write_header st bsize per_block ((num_blocks + 1) * bsize) w' in
  ret (<[disk_layout_file := written w']> s).

(** [index_build_cleanup] *)
Definition index_build_cleanup (w : DiskIndexWriter) (s : Storage) : comp Storage :=
  let mem_index_file := get_mem_index_file (index_path_prefix w) in
  if exists_ s mem_index_file then delete_file s mem_index_file else ret s.

End writer.

(** ** The graph on disk, abstractly *)

Section spec.

Context (vec_size assoc_size : nat).

(** A node: the bytes of its vector, the ids of its neighbors, the bytes of its data. *)
Record Node := mkNode { n_vector : list Z; n_nbrs : list nat; n_data : list Z }.

Record Graph := mkGraph {
  g_dims : nat;
  g_max_degree : nat;
  g_medoid : nat;
  g_frozen : nat;
  g_assoc_len : option nat;   (* [None]: the graph has no associated data *)
  g_nodes : list Node;
}.

Definition assoc_len (G : Graph) : nat := default 0 (g_assoc_len G).

(** The three files [create_disk_layout] reads; [recorded] is the size the vamana file claims. *)
Definition dataset_bytes (G : Graph) : list Z :=
  put 4 (length (g_nodes G)) ++ put 4 (g_dims G) ++ concat (n_vector <$> g_nodes G).
Definition assoc_bytes (G : Graph) : list Z :=
  put 4 (length (g_nodes G)) ++ put 4 (assoc_len G) ++ concat (n_data <$> g_nodes G).
Definition nbrs_bytes (nd : Node) : list Z :=
  put 4 (length (n_nbrs nd)) ++ concat (put 4 <$> n_nbrs nd).
Definition vamana_bytes (recorded : nat) (G : Graph) : list Z :=
  put 8 recorded ++ put 4 (g_max_degree G) ++ put 4 (g_medoid G) ++ put 8 (g_frozen G) ++
  concat (nbrs_bytes <$> g_nodes G).

(** The sizes of the layout. *)
Definition g_vector_len (G : Graph) : nat := g_dims G * vec_size.
Definition g_data_len (G : Graph) : nat := assoc_len G * assoc_size.
Definition g_node_len (G : Graph) : nat :=
  (g_max_degree G + 1) * 4 + g_vector_len G + g_data_len G.
Definition g_per_block (bsize : nat) (G : Graph) : nat := bsize / g_node_len G.
Definition g_num_blocks (bsize : nat) (G : Graph) : nat :=
  if 0 <? g_per_block bsize G then div_ceil (length (g_nodes G)) (g_per_block bsize G)
  else length (g_nodes G) * div_ceil (g_node_len G) bsize.
Definition g_file_size (bsize : nat) (G : Graph) : nat := (g_num_blocks bsize G + 1) * bsize.

Record node_ok (G : Graph) (nd : Node) : Prop := {
  nk_vector : length (n_vector nd) = g_vector_len G;
  nk_degree : length (n_nbrs nd) ≤ g_max_degree G;
  nk_ids : Forall (fits 4) (n_nbrs nd);
  nk_data : length (n_data nd) = g_data_len G;
}.

Record graph_ok (G : Graph) : Prop := {
  gk_nodes : Forall (node_ok G) (g_nodes G);
  gk_npts : fits 4 (length (g_nodes G));
  gk_dims : fits 4 (g_dims G);
  gk_degree : fits 4 (g_max_degree G);
  gk_medoid : fits 4 (g_medoid G);
  gk_frozen : fits 8 (g_frozen G);
  gk_assoc : fits 4 (assoc_len G);
}.

(** A node of the disk index: vector, count, neighbors, filler, data. *)
Definition node_bytes (G : Graph) (nd : Node) : list Z :=
  n_vector nd ++ nbrs_bytes nd ++
  replicate ((g_max_degree G - length (n_nbrs nd)) * 4) 0%Z ++ n_data nd.

Definition pad (n : nat) (l : list Z) : list Z := l ++ replicate (n - length l) 0%Z.

(** Sectors of [per] nodes each. *)
Fixpoint sectors_of (k per bsize : nat) (nodes : list (list Z)) : list (list Z) :=
  match k with
  | 0 => []
  | S k => pad bsize (concat (take per nodes)) :: sectors_of k per bsize (drop per nodes)
  end.

(** All the blocks after the first. *)
Definition blocks_of (bsize : nat) (G : Graph) : list (list Z) :=
  let nodes := node_bytes G <$> g_nodes G in
  if 0 <? g_per_block bsize G then sectors_of (g_num_blocks bsize G) (g_per_block bsize G) bsize nodes
  else pad (next_multiple_of (g_node_len G) bsize) <$> nodes.

Definition header_of (bsize : nat) (G : Graph) : GraphHeader :=
  mkHeader (mkMetadata (length (g_nodes G)) (g_dims G) (g_medoid G) (g_node_len G)
              (g_per_block bsize G) (g_frozen G) (if g_frozen G =? 1 then g_medoid G else 0)
              (g_file_size bsize G) (g_data_len G)) bsize CURRENT_LAYOUT_VERSION.

(** The first block: prefix and header, then zeros. *)
Definition first_block (bsize : nat) (G : Graph) : list Z :=
  pad bsize (put 4 header_size ++ put 4 1 ++ header_to_bytes (header_of bsize G)).

Definition disk_file (bsize : nat) (G : Graph) : list Z :=
  first_block bsize G ++ concat (blocks_of bsize G).

End spec.

(** ** Reading a node *)

Section proof.

Context (debug : bool) (vec_size assoc_size RW : nat).
Implicit Types (G : Graph) (st : DiskIndexWriterState).

#[local] Abbreviation read_node := (read_neighbors debug vec_size assoc_size).
#[local] Abbreviation node_ok := (node_ok vec_size assoc_size).
#[local] Abbreviation node_len := (g_node_len vec_size assoc_size).

(** A reader with [rest] ahead of it. *)
Definition ahead (r : Reader) (rest : list Z) : Prop :=
  ∃ pre, r = mkReader (pre ++ rest) (length pre).

Lemma ahead_start l : ahead (mkReader l 0) l.
Proof. by exists []. Qed.

Lemma read_exact_ahead r b rest :
  ahead r (b ++ rest) → ∃ r', read_exact (length b) r = ret (b, r') ∧ ahead r' rest.
Proof.
  intros [pre ->]. unfold read_exact. simpl. rewrite slice_app by done.
  eexists; split; [done|]. exists (pre ++ b). by rewrite app_assoc, length_app.
Qed.

Lemma read_num_ahead n r x rest :
  fits n x → ahead r (put n x ++ rest) → ∃ r', read_num n r = ret (x, r') ∧ ahead r' rest.
Proof.
  intros Hx Hr. destruct (read_exact_ahead _ _ _ Hr) as (r' & E & Hr'). exists r'. split; [|done].
  unfold read_num. rewrite length_put in E. rewrite E, comp_bind_ret.
  by fold (get (put n x)); rewrite get_put.
Qed.

Lemma cached_read_ahead c b rest :
  reader_ok c → unread c = b ++ rest →
  ∃ c', cached_read (length b) c = ret (b, c') ∧ reader_ok c' ∧ unread c' = rest.
Proof.
  intros Hc E. pose proof (cached_read_ok (length b) c Hc) as H. revert H.
  rewrite E, length_app. case_nat; [lia|]. by rewrite take_app_length, drop_app_length.
Qed.

Lemma cached_read_u32_ahead c x rest :
  fits 4 x → reader_ok c → unread c = put 4 x ++ rest →
  ∃ c', cached_read_u32 c = ret (x, c') ∧ reader_ok c' ∧ unread c' = rest.
Proof.
  intros Hx Hc E. destruct (cached_read_ahead _ _ _ Hc E) as (c' & H & ? & ?). exists c'.
  split; [|done]. unfold cached_read_u32. rewrite length_put in H. rewrite H, comp_bind_ret.
  by fold (get (put 4 x)); rewrite get_put.
Qed.

(** The state in front of the vectors [vs], the neighbors [ns] and the data [ds], with the
    parameters of the graph. *)
Record state_ok (G : Graph) (vs ns ds : list Node) (st : DiskIndexWriterState) : Prop := {
  sk_dataset : ∃ c, dataset_reader st = Some c ∧ reader_ok c ∧ unread c = concat (n_vector <$> vs);
  sk_index : ∃ r, muti_shard_index_reader st = Some r ∧ ahead r (concat (nbrs_bytes <$> ns));
  sk_assoc : match g_assoc_len G with
             | Some _ => ∃ c, associated_data_reader st = Some c ∧ reader_ok c ∧
                              unread c = concat (n_data <$> ds)
             | None => associated_data_reader st = None
             end;
  sk_dims : st_dims st = g_dims G;
  sk_npts : st_num_pts st = length (g_nodes G);
  sk_degree : st_max_degree st = g_max_degree G;
  sk_medoid : st_medoid st = g_medoid G;
  sk_frozen : st_frozen_num st = g_frozen G;
  sk_node_len : st_node_len st = node_len G;
  sk_assoc_len : st_assoc_len st = assoc_len G;
}.

Lemma length_puts n l : length (concat (put n <$> l)) = length l * n.
Proof.
  induction l as [|x l IH]; [done|]. rewrite fmap_cons, concat_cons, length_app, length_put, IH.
  cbn [length]. lia.
Qed.

Lemma length_node_bytes G nd : node_ok G nd → length (node_bytes G nd) = node_len G.
Proof.
  intros [Hv Hd _ Ha]. unfold node_bytes, nbrs_bytes, g_node_len.
  rewrite !length_app, length_put, length_puts, length_replicate. lia.
Qed.

(** Writing over zeros. *)
Lemma copy_at_zeros (l data : list Z) off m :
  off = length l → length data ≤ m →
  copy_at off data (l ++ replicate m 0%Z) = Some ((l ++ data) ++ replicate (m - length data) 0%Z).
Proof.
  intros -> Hm. replace m with (length data + (m - length data)) at 1 by lia.
  rewrite replicate_add, copy_at_app by (rewrite ?length_replicate; done).
  by rewrite app_assoc.
Qed.

(** What [read_neighbors] has put into the buffer before the associated data. *)
Definition node_front (nd : Node) : list Z := n_vector nd ++ nbrs_bytes nd.

Lemma node_bytes_front G nd :
  node_bytes G nd = (node_front nd ++ replicate ((g_max_degree G - length (n_nbrs nd)) * 4) 0%Z) ++
                    n_data nd.
Proof. unfold node_bytes, node_front. by rewrite !app_assoc. Qed.

Lemma length_node_front G nd :
  node_ok G nd → length (node_front nd) = g_vector_len vec_size G + 4 + length (n_nbrs nd) * 4.
Proof.
  intros [Hv _ _ _]. unfold node_front, nbrs_bytes.
  rewrite !length_app, length_put, length_puts. lia.
Qed.

(** The associated data goes to the end of the node. *)
Lemma copy_data G nd m :
  node_ok G nd → node_len G ≤ m →
  copy_at (node_len G - g_data_len assoc_size G) (n_data nd)
    (node_front nd ++ replicate (m - length (node_front nd)) 0%Z) =
  Some (node_bytes G nd ++ replicate (m - node_len G) 0%Z).
Proof.
  intros Hn Hm. pose proof (length_node_front G nd Hn) as Hf. destruct Hn as [Hv Hd _ Ha].
  set (f := (g_max_degree G - length (n_nbrs nd)) * 4).
  assert (HL : node_len G = length (node_front nd) + f + g_data_len assoc_size G)
    by (unfold g_node_len, f; lia).
  replace (m - length (node_front nd)) with (f + (m - length (node_front nd) - f)) by lia.
  rewrite replicate_add, app_assoc, copy_at_zeros.
  - rewrite node_bytes_front. fold f. do 3 f_equal. lia.
  - rewrite length_app, length_replicate. lia.
  - lia.
Qed.

Lemma no_data G nd m :
  node_ok G nd → node_len G ≤ m → g_assoc_len G = None →
  node_front nd ++ replicate (m - length (node_front nd)) 0%Z =
  node_bytes G nd ++ replicate (m - node_len G) 0%Z.
Proof.
  intros Hn Hm HA. pose proof (length_node_front G nd Hn) as Hf. destruct Hn as [Hv Hd _ Ha].
  unfold g_data_len, assoc_len in Ha. rewrite HA in Ha. apply nil_length_inv in Ha.
  rewrite node_bytes_front, Ha, app_nil_r, <-app_assoc, <-replicate_add. do 2 f_equal.
  unfold g_node_len, g_data_len, assoc_len in *. rewrite HA in *. simpl in *. lia.
Qed.

Lemma copy_coords_ok G nd vs ns ds st m :
  node_ok G nd → state_ok G (nd :: vs) ns ds st → node_len G ≤ m →
  ∃ st', copy_coords vec_size (replicate m 0%Z) st =
           ret (n_vector nd ++ replicate (m - length (n_vector nd)) 0%Z, st') ∧
         state_ok G vs ns ds st'.
Proof.
  intros Hn [(c & Ec & Hc & Eu) Hix Has Hdi Hnp Hde Hme Hfr Hnl Hal] Hm.
  pose proof (nk_vector _ _ _ _ Hn) as Hv. rewrite fmap_cons, concat_cons in Eu.
  destruct (cached_read_ahead c _ _ Hc Eu) as (c' & Er & Hc' & Eu').
  unfold copy_coords. rewrite Ec, Hdi. fold (g_vector_len vec_size G). rewrite <-Hv, Er, comp_bind_ret.
  pose proof (copy_at_zeros [] (n_vector nd) 0 m eq_refl) as Ez. simpl in Ez.
  rewrite Ez, comp_bind_lift by (unfold g_node_len in Hm; lia). eexists; split; [done|].
  destruct st; split; simpl in *; eauto.
Qed.

Lemma copy_adjacency_ok G nd vs ns ds st m :
  (debug = true → n_nbrs nd ≠ []) → node_ok G nd → graph_ok vec_size assoc_size G →
  state_ok G vs (nd :: ns) ds st → node_len G ≤ m →
  ∃ st', copy_adjacency debug vec_size (n_vector nd ++ replicate (m - length (n_vector nd)) 0%Z) st =
           ret (node_front nd ++ replicate (m - length (node_front nd)) 0%Z, st') ∧
         state_ok G vs ns ds st'.
Proof.
  intros Hdbg Hn HG [Hds (r & Ei & Hr) Has Hdi Hnp Hde Hme Hfr Hnl Hal] Hm.
  pose proof (length_node_front G nd Hn) as Hf. destruct Hn as [Hv Hdeg _ _].
  assert (Hfit : fits 4 (length (n_nbrs nd))).
  { pose proof (gk_degree _ _ _ HG) as H. unfold fits in *. lia. }
  assert (Hml : length (node_front nd) ≤ m) by (unfold g_node_len in Hm; lia).
  rewrite fmap_cons, concat_cons in Hr. unfold nbrs_bytes at 1 in Hr. rewrite <-app_assoc in Hr.
  destruct (read_num_ahead 4 r _ _ Hfit Hr) as (r1 & Er1 & Hr1).
  destruct (read_exact_ahead r1 _ _ Hr1) as (r2 & Er2 & Hr2). rewrite length_puts in Er2.
  unfold copy_adjacency, get_neighbors_number, copy_neighbors, read_u32.
  destruct st as [ix asr dsr di np de me fr nl al rb wb].
  cbn [muti_shard_index_reader st_dims st_max_degree] in *. subst.
  rewrite Er1, !comp_bind_ret. cbn [set_index_reader muti_shard_index_reader st_dims st_max_degree].
  rewrite (proj2 (Nat.leb_le _ _) Hdeg), orb_true_r.
  assert (Hpos : negb debug || (0 <? length (n_nbrs nd)) = true)
    by (destruct debug, (n_nbrs nd); done || by destruct Hdbg).
  rewrite Hpos. cbn [rassert]. rewrite !comp_bind_lift. fold (g_vector_len vec_size G). rewrite <-Hv.
  rewrite copy_at_zeros, comp_bind_lift by (rewrite ?length_put; lia).
  rewrite slice_ok, comp_bind_lift
    by (rewrite !length_app, length_replicate, !length_put; lia).
  rewrite Er2, !comp_bind_ret.
  rewrite copy_at_zeros, comp_bind_lift by (rewrite ?length_app, ?length_puts, ?length_put; lia).
  eexists; split.
  - unfold node_front, nbrs_bytes. rewrite <-!app_assoc, !length_app.
    by rewrite !Nat.sub_add_distr.
  - split; simpl; eauto.
Qed.

Lemma copy_associated_ok G nd vs ns ds st m :
  node_ok G nd → state_ok G vs ns (nd :: ds) st → node_len G ≤ m →
  ∃ st', copy_associated assoc_size (node_front nd ++ replicate (m - length (node_front nd)) 0%Z) st =
           ret (node_bytes G nd ++ replicate (m - node_len G) 0%Z, st') ∧
         state_ok G vs ns ds st'.
Proof.
  intros Hn [Hds Hix Has Hdi Hnp Hde Hme Hfr Hnl Hal] Hm. unfold copy_associated.
  destruct (g_assoc_len G) as [len|] eqn:HA.
  - destruct Has as (c & -> & Hc & Eu). rewrite fmap_cons, concat_cons in Eu.
    destruct (cached_read_ahead c _ _ Hc Eu) as (c' & Er & Hc' & Eu').
    rewrite (nk_data _ _ _ _ Hn) in Er. rewrite Hnl, Hal. fold (g_data_len assoc_size G).
    rewrite usub_ok, comp_bind_lift by (unfold g_node_len; lia).
    pose proof (length_node_front G nd Hn) as Hf. pose proof (nk_degree _ _ _ _ Hn) as Hd.
    rewrite slice_ok, comp_bind_lift
      by (rewrite length_app, length_replicate; unfold g_node_len in *; lia).
    rewrite Er, comp_bind_ret, (copy_data G nd m) by done. rewrite comp_bind_lift.
    eexists; split; [done|]. destruct st; split; simpl in *; rewrite ?HA; eauto.
  - rewrite Has. exists st. rewrite <-no_data by done. split; [done|]. split; rewrite ?HA; auto.
Qed.

(** Reading a node fills the buffer with its bytes and moves on to the next. *)
Lemma read_neighbors_ok G nd nds st buf :
  (debug = true → n_nbrs nd ≠ []) → node_ok G nd → graph_ok vec_size assoc_size G →
  state_ok G (nd :: nds) (nd :: nds) (nd :: nds) st → node_len G ≤ length buf →
  ∃ st', read_node buf st =
           ret (node_bytes G nd ++ replicate (length buf - node_len G) 0%Z, st') ∧
         state_ok G nds nds nds st'.
Proof.
  intros Hdbg Hn HG H0 Hm. unfold read_neighbors.
  destruct (copy_coords_ok G nd _ _ _ st _ Hn H0 Hm) as (st1 & -> & H1). rewrite comp_bind_ret.
  destruct (copy_adjacency_ok G nd _ _ _ st1 _ Hdbg Hn HG H1 Hm) as (st2 & -> & H2).
  rewrite comp_bind_ret. exact (copy_associated_ok G nd _ _ _ st2 _ Hn H2 Hm).
Qed.

(** ** Sectors *)

(** A node that can be written: a debug build asks for a neighbor. *)
Definition writable (G : Graph) (nd : Node) : Prop :=
  node_ok G nd ∧ (debug = true → n_nbrs nd ≠ []).

Context (G : Graph) (HG : graph_ok vec_size assoc_size G).
#[local] Abbreviation NL := (node_len G).
#[local] Abbreviation front := (λ nds, state_ok G nds nds nds).

Lemma length_pad n l : length l ≤ n → length (pad n l) = n.
Proof. intros. unfold pad. rewrite length_app, length_replicate. lia. Qed.

Lemma fill_sector_ok bsize todo : ∀ sid cur acc node_buf nds st,
  Forall (writable G) nds → front nds st → cur + length nds = length (g_nodes G) →
  length acc = sid * NL → (sid + todo) * NL ≤ bsize → length node_buf = NL →
  ∃ nb st', fill_sector debug vec_size assoc_size todo sid cur (pad bsize acc) node_buf st =
      ret (pad bsize (acc ++ concat (take todo (node_bytes G <$> nds))), nb,
           cur + todo `min` length nds, st') ∧
    length nb = NL ∧ front (drop todo nds) st'.
Proof.
  induction todo as [|todo IH]; intros sid cur acc nb nds st Hw Hst Hcur Hacc Hbs Hnb; simpl.
  { exists nb, st. rewrite app_nil_r, Nat.add_0_r. done. }
  rewrite (sk_npts _ _ _ _ _ Hst). destruct nds as [|nd nds].
  { case_nat; [|simpl in Hcur; lia]. exists nb, st. simpl. by rewrite app_nil_r, Nat.add_0_r. }
  simpl length in *. case_nat; [lia|].
  apply Forall_cons in Hw as [[Hn Hd] Hw]. pose proof (length_node_bytes G nd Hn) as HL.
  destruct (read_neighbors_ok G nd nds st nb Hd Hn HG Hst ltac:(lia)) as (st1 & -> & H1).
  rewrite comp_bind_ret, Hnb, Nat.sub_diag, app_nil_r, (sk_node_len _ _ _ _ _ H1).
  rewrite slice_ok, drop_0, take_ge, comp_bind_lift by lia.
  unfold pad at 1. rewrite copy_at_zeros, comp_bind_lift by (rewrite ?HL, ?Hacc; lia).
  replace ((acc ++ node_bytes G nd) ++ _) with (pad bsize (acc ++ node_bytes G nd))
    by (unfold pad; by rewrite length_app, Nat.sub_add_distr).
  destruct (IH (S sid) (S cur) (acc ++ node_bytes G nd) (node_bytes G nd) nds st1)
    as (nb2 & st2 & -> & Hnb2 & H2); [done|done|simpl in *; lia| |simpl; lia|done|].
  { rewrite length_app, HL, Hacc. simpl. lia. }
  exists nb2, st2. split; [|done]. rewrite fmap_cons. simpl. rewrite <-app_assoc.
  by rewrite (Nat.add_succ_r cur).
Qed.

Lemma write_sectors_ok bsize per k : ∀ cur node_buf nds st cw,
  Forall (writable G) nds → front nds st → cur + length nds = length (g_nodes G) →
  per * NL ≤ bsize → length node_buf = NL → writer_ok cw →
  ∃ st' cw', write_sectors debug vec_size assoc_size k per bsize cur node_buf st cw =
               ret (st', cw') ∧
    writer_ok cw' ∧ front (drop (k * per) nds) st' ∧
    appended cw' = appended cw ++ concat (sectors_of k per bsize (node_bytes G <$> nds)).
Proof.
  induction k as [|k IH]; intros cur nb nds st cw Hw Hst Hcur Hper Hnb Hcw; simpl.
  { exists st, cw. by rewrite app_nil_r. }
  destruct (fill_sector_ok bsize per 0 cur [] nb nds st) as (nb1 & st1 & E1 & Hnb1 & H1);
    try done. change (pad bsize []) with (replicate (bsize - 0) 0%Z) in E1.
  rewrite Nat.sub_0_r in E1. rewrite E1, comp_bind_ret. simpl app.
  destruct (cw_write_ok (pad bsize (concat (take per (node_bytes G <$> nds)))) cw Hcw)
    as (cw1 & -> & Hcw1 & Ea). rewrite comp_bind_ret.
  destruct (IH (cur + per `min` length nds) nb1 (drop per nds) st1 cw1)
    as (st2 & cw2 & -> & Hcw2 & H2 & Ea2); try done.
  { by apply Forall_drop. }
  { rewrite length_drop. lia. }
  exists st2, cw2. rewrite Ea2, Ea, <-app_assoc, fmap_drop. split_and!; try done.
  by rewrite <-drop_drop.
Qed.

Lemma write_nodes_ok m : ∀ nds buf st cw,
  Forall (writable G) nds → front nds st → NL ≤ m → length buf = m → writer_ok cw →
  ∃ st' cw', write_nodes debug vec_size assoc_size (length nds) buf st cw = ret (st', cw') ∧
    writer_ok cw' ∧ front [] st' ∧
    appended cw' = appended cw ++ concat (pad m <$> (node_bytes G <$> nds)).
Proof.
  induction nds as [|nd nds IH]; intros buf st cw Hw Hst Hm Hb Hcw; simpl.
  { exists st, cw. by rewrite app_nil_r. }
  apply Forall_cons in Hw as [[Hn Hd] Hw]. pose proof (length_node_bytes G nd Hn) as HL.
  destruct (read_neighbors_ok G nd nds st buf Hd Hn HG Hst ltac:(lia)) as (st1 & -> & H1).
  rewrite comp_bind_ret, Hb. change (g_node_len _ _ G) with NL. rewrite <-HL.
  fold (pad m (node_bytes G nd)).
  destruct (cw_write_ok (pad m (node_bytes G nd)) cw Hcw) as (cw1 & -> & Hcw1 & Ea).
  rewrite comp_bind_ret.
  destruct (IH (pad m (node_bytes G nd)) st1 cw1) as (st2 & cw2 & -> & Hcw2 & H2 & Ea2); try done.
  { apply length_pad. lia. }
  exists st2, cw2. by rewrite Ea2, Ea, <-app_assoc.
Qed.

(** ** Opening the inputs *)

(** The storage holds the graph in the files the writer names. *)
Record inputs_ok (w : DiskIndexWriter) (recorded : nat) (s : Storage) : Prop := {
  ik_recorded : fits 8 recorded;
  ik_dataset : s !! dataset_file w = Some (dataset_bytes G);
  ik_vamana : s !! get_mem_index_file (index_path_prefix w) = Some (vamana_bytes recorded G);
  ik_assoc : match associated_data_file w, g_assoc_len G with
             | Some name, Some _ => s !! name = Some (assoc_bytes G)
             | None, None => True
             | _, _ => False
             end;
}.

Lemma open_dataset_ok w s st :
  s !! dataset_file w = Some (dataset_bytes G) →
  ∃ c, open_dataset_reader w s st =
         ret (set_counts (length (g_nodes G)) (g_dims G) (set_dataset (Some c) st)) ∧
       reader_ok c ∧ unread c = concat (n_vector <$> g_nodes G).
Proof.
  intros Hs. unfold open_dataset_reader.
  destruct (cached_new_ok _ (read_blk_size st) s _ Hs) as (c0 & -> & H0 & E0).
  rewrite comp_bind_ret.
  destruct (cached_read_u32_ahead c0 _ _ (gk_npts _ _ _ HG) H0 E0) as (c1 & -> & H1 & E1).
  rewrite comp_bind_ret.
  destruct (cached_read_u32_ahead c1 _ _ (gk_dims _ _ _ HG) H1 E1) as (c2 & -> & H2 & E2).
  rewrite comp_bind_ret. eauto.
Qed.

Lemma open_assoc_ok w s st name :
  associated_data_file w = Some name → s !! name = Some (assoc_bytes G) →
  st_num_pts st = length (g_nodes G) →
  ∃ c, open_associated_data_reader w s st = ret (set_associated (Some c) (assoc_len G) st) ∧
       reader_ok c ∧ unread c = concat (n_data <$> g_nodes G).
Proof.
  intros Hw Hs Hn. unfold open_associated_data_reader. rewrite Hw.
  destruct (cached_new_ok _ (read_blk_size st) s _ Hs) as (c0 & -> & H0 & E0).
  rewrite comp_bind_ret.
  destruct (cached_read_u32_ahead c0 _ _ (gk_npts _ _ _ HG) H0 E0) as (c1 & -> & H1 & E1).
  rewrite comp_bind_ret.
  destruct (cached_read_u32_ahead c1 _ _ (gk_assoc _ _ _ HG) H1 E1) as (c2 & -> & H2 & E2).
  rewrite comp_bind_ret, Hn, Nat.eqb_refl. simpl. eauto.
Qed.

Lemma open_vamana_ok w recorded s st :
  fits 8 recorded →
  s !! get_mem_index_file (index_path_prefix w) = Some (vamana_bytes recorded G) →
  ∃ r, open_vamana_reader w s st =
         ret (set_graph (g_max_degree G) (g_medoid G) (g_frozen G) (set_index_reader (Some r) st)) ∧
       ahead r (concat (nbrs_bytes <$> g_nodes G)).
Proof.
  intros Hr Hs. unfold open_vamana_reader, get_length, open_reader, read_u32, read_u64.
  rewrite Hs, !comp_bind_ret.
  destruct (read_num_ahead 8 _ _ _ Hr (ahead_start (vamana_bytes recorded G))) as (r1 & -> & H1). rewrite comp_bind_ret.
  destruct (read_num_ahead 4 _ _ _ (gk_degree _ _ _ HG) H1) as (r2 & -> & H2).
  rewrite comp_bind_ret.
  destruct (read_num_ahead 4 _ _ _ (gk_medoid _ _ _ HG) H2) as (r3 & -> & H3).
  rewrite comp_bind_ret.
  destruct (read_num_ahead 8 _ _ _ (gk_frozen _ _ _ HG) H3) as (r4 & -> & H4).
  rewrite comp_bind_ret. eauto.
Qed.

Lemma open_inputs_ok w recorded s :
  inputs_ok w recorded s →
  ∃ st, (∀ A (k : DiskIndexWriterState → comp A),
          (let* st := open_dataset_reader w s (state_new RW) in
           let* st := open_associated_data_reader w s st in
           let* st := open_vamana_reader w s st in k st) = k st) ∧
    (st_max_degree st + 1) * 4 + st_dims st * vec_size + st_assoc_len st * assoc_size = NL ∧
    write_blk_size st = RW ∧ front (g_nodes G) (set_node_len NL st).
Proof.
  intros [Hrec Hds Hvam Has].
  destruct (open_dataset_ok w s (state_new RW) Hds) as (c & -> & Hc & Ec).
  set (st1 := set_counts _ _ _).
  assert (∃ a, open_associated_data_reader w s st1 = ret (set_associated a (assoc_len G) st1) ∧
    match g_assoc_len G with
    | Some _ => ∃ c, a = Some c ∧ reader_ok c ∧ unread c = concat (n_data <$> g_nodes G)
    | None => a = None
    end) as (a & Ea & Ha).
  { destruct (associated_data_file w) as [name|] eqn:Hw, (g_assoc_len G) eqn:HA; try done.
    - destruct (open_assoc_ok w s st1 name Hw Has eq_refl) as (ca & -> & ?). eauto.
    - exists None. unfold open_associated_data_reader, assoc_len. by rewrite Hw, HA. }
  destruct (open_vamana_ok w recorded s (set_associated a (assoc_len G) st1) Hrec Hvam)
    as (r & Er & Hr).
  eexists; split; [intros A k; rewrite comp_bind_ret, Ea, comp_bind_ret, Er, comp_bind_ret; reflexivity|].
  split; [done|]. split; [done|]. split; simpl; eauto.
Qed.

(** ** The header *)

Lemma write_all_over pre old data rest :
  length old = length data →
  write_all data (mkWriter (pre ++ old ++ rest) (length pre)) =
  mkWriter (pre ++ data ++ rest) (length (pre ++ data)).
Proof.
  intros E. unfold write_all. cbn [written wpos].
  replace (length pre - _) with 0 by (rewrite !length_app; lia).
  rewrite app_nil_r, take_app_length, length_app. f_equal. do 2 f_equal.
  rewrite <-E, <-drop_drop, drop_app_length. apply drop_app_length.
Qed.

Lemma write_all_front old data rest :
  length old = length data →
  write_all data (mkWriter (old ++ rest) 0) = mkWriter (data ++ rest) (length data).
Proof. exact (write_all_over [] old data rest). Qed.

Lemma write_header_ok st bsize blocks :
  8 + header_size ≤ bsize → front [] st →
  write_header assoc_size st bsize (g_per_block vec_size assoc_size bsize G)
    (g_file_size vec_size assoc_size bsize G) (mkWriter (replicate bsize 0%Z ++ blocks) 0) =
  ret (mkWriter (first_block vec_size assoc_size bsize G ++ blocks) (8 + header_size)).
Proof.
  intros Hb [_ _ _ Hdi Hnp _ Hme Hfr Hnl Hal]. unfold write_header, save_bytes, write_prefix.
  rewrite Hdi, Hnp, Hme, Hfr, Hnl, Hal.
  rewrite length_header. unfold seek_start. cbn [written].
  replace ((Z.of_nat header_size <? 2 ^ 32)%Z && (Z.of_nat 1 <? 2 ^ 32)%Z) with true by done.
  fold (g_data_len assoc_size G). fold (header_of vec_size assoc_size bsize G).
  set (h := header_to_bytes (header_of vec_size assoc_size bsize G)).
  assert (Hh : length h = header_size) by apply length_header.
  rewrite comp_bind_ret.
  replace (replicate bsize 0%Z) with
    (replicate 8 0%Z ++ replicate header_size 0%Z ++ replicate (bsize - 8 - header_size) 0%Z)
    by (rewrite <-!replicate_add; f_equal; lia).
  rewrite <-!app_assoc.
  rewrite write_all_front by (rewrite length_app, !length_put; done).
  rewrite write_all_over by (by rewrite length_replicate).
  unfold first_block, pad. fold h. rewrite !length_app, !length_put, Hh, <-!app_assoc.
  by replace (bsize - (4 + (4 + header_size))) with (bsize - 8 - header_size) by lia.
Qed.

(** ** The whole file *)

Lemma div_ceil_bound n k : 0 < k → n ≤ div_ceil n k * k.
Proof.
  intros. unfold div_ceil. pose proof (Nat.div_mod (n + k - 1) k ltac:(lia)).
  pose proof (Nat.mod_upper_bound (n + k - 1) k ltac:(lia)). lia.
Qed.

(** Either layout writes all the blocks and leaves no node unread. *)
Lemma write_body_ok b st cw :
  0 < b → Forall (writable G) (g_nodes G) → front (g_nodes G) st → writer_ok cw →
  ∃ st' cw',
    (if 0 <? g_per_block vec_size assoc_size b G then
       write_sectors debug vec_size assoc_size (g_num_blocks vec_size assoc_size b G)
         (g_per_block vec_size assoc_size b G) b 0 (replicate NL 0%Z) st cw
     else write_nodes debug vec_size assoc_size (length (g_nodes G))
            (replicate (next_multiple_of NL b) 0%Z) st cw) = ret (st', cw') ∧
    writer_ok cw' ∧ front [] st' ∧
    appended cw' = appended cw ++ concat (blocks_of vec_size assoc_size b G).
Proof.
  intros Hb Hw Hst Hcw. unfold blocks_of. destruct (Nat.ltb_spec 0 (g_per_block vec_size assoc_size b G)).
  - destruct (write_sectors_ok b (g_per_block vec_size assoc_size b G)
      (g_num_blocks vec_size assoc_size b G) 0 (replicate NL 0%Z) (g_nodes G) st cw)
      as (st' & cw' & -> & Hcw' & Hst' & Ea); try done.
    { unfold g_per_block. rewrite Nat.mul_comm. apply Nat.Div0.mul_div_le. }
    { apply length_replicate. }
    exists st', cw'. split_and!; try done. rewrite drop_ge in Hst'; [done|].
    unfold g_num_blocks. case_nat; [|lia]. by apply div_ceil_bound.
  - apply (write_nodes_ok (next_multiple_of NL b)); try done.
    + by apply div_ceil_bound.
    + apply length_replicate.
Qed.

Lemma create_disk_layout_ok w recorded s :
  0 < RW → 8 + header_size ≤ w_block_size w → Forall (writable G) (g_nodes G) →
  inputs_ok w recorded s →
  create_disk_layout debug vec_size assoc_size RW w s =
  ret (<[get_disk_index_file (index_path_prefix w) :=
         disk_file vec_size assoc_size (w_block_size w) G]> s).
Proof.
  intros HRW Hb Hw Hin. unfold create_disk_layout. set (b := w_block_size w) in *.
  destruct (open_inputs_ok w recorded s Hin) as (st & E & HNL & Hrw & Hst).
  rewrite E, HNL. clear E. set (st0 := set_node_len NL st) in *.
  assert (write_blk_size st0 = RW) as -> by (by destruct st).
  rewrite (sk_node_len _ _ _ _ _ Hst), (sk_npts _ _ _ _ _ Hst).
  destruct (cw_new_ok RW HRW) as (cw0 & -> & Hcw0 & Ea0). rewrite comp_bind_ret.
  destruct (cw_write_ok (replicate b 0%Z) cw0 Hcw0) as (cw1 & -> & Hcw1 & Ea1).
  rewrite comp_bind_ret. fold (g_per_block vec_size assoc_size b G).
  fold (g_num_blocks vec_size assoc_size b G). fold (g_file_size vec_size assoc_size b G).
  match goal with |- comp_bind ?m _ = _ =>
    assert (∃ st2 cw2, m = ret (st2, cw2) ∧ writer_ok cw2 ∧ front [] st2 ∧
      appended cw2 = appended cw1 ++ concat (blocks_of vec_size assoc_size b G))
      as (st2 & cw2 & -> & Hcw2 & Hst2 & Ea2) end.
  { apply write_body_ok; [lia|done..]. }
  rewrite comp_bind_ret. destruct (cw_flush_ok cw2 Hcw2) as (cw3 & -> & Hcw3 & Ea3 & _).
  rewrite comp_bind_ret, Ea3, Ea2, Ea1, Ea0. simpl app. unfold open_writer.
  rewrite lookup_insert_eq, comp_bind_ret, write_header_ok by done.
  by rewrite comp_bind_ret, insert_insert_eq.
Qed.

End proof.
