(* ===== verification/DiskGraph.v ===== *)
(** * Reading the disk index ([diskann-disk/src/search/provider])

    - the trait [AlignedFileReader] as a class, with the laws of a reader whose file does not
      change, and the reader over a storage provider
      ([aligned_file_reader/{aligned_read.rs,reader/storage_provider.rs}]) as its instance;
    - Section [sector]: [DiskSectorGraph] ([disk_sector_graph.rs]), which fetches sectors;
    - Section [provider]: [DiskVertexProvider] ([disk_vertex_provider.rs]), which decodes nodes,
      and [get_header] ([disk_vertex_provider_factory.rs]);
    - the trait [VertexProvider] as a class, and [ensure_vertex_loaded] ([disk_provider.rs]), which
      loads and decodes a batch through it.

    Vectors are kept as the bytes of their elements (the source copies raw memory).  The
    deserializer of the associated data is a parameter.  Allocations succeed, and the buffer of
    a sector graph starts at an aligned address.  The state a failed call leaves is not modelled:
    the callers give up, and the next batch starts by clearing it. *)

From S2P Require Import DiskIo DiskHeader DiskLayout.

Definition DEFAULT_DISK_SECTOR_LEN : nat := 4096.

(** ** Aligned reads *)

(** A reader: the alignment it asks for, and a batch of reads (offset and length of each). *)
Class AlignedFileReader (R : Type) := {
  alignment : nat;
  afr_read : R → list (nat * nat) → comp (list (list Z) * R);
}.

Definition aligned (al : nat) (req : nat * nat) : Prop := req.1 mod al = 0 ∧ req.2 mod al = 0.

(** A file that can be read anywhere inside, any number of times. *)
Class ReaderLaws (R : Type) `{AlignedFileReader R} := {
  contents : R → list Z;
  alignment_pos : 0 < alignment (R:=R);
  afr_read_ok : ∀ r reqs,
    Forall (aligned (alignment (R:=R))) reqs →
    Forall (λ req, req.1 + req.2 ≤ length (contents r)) reqs →
    ∃ r', afr_read r reqs = ret ((λ req, take req.2 (drop req.1 (contents r))) <$> reqs, r') ∧
          contents r' = contents r;
}.

(** [AlignedRead::assert_is_aligned] and [AlignedRead::new] *)
Definition assert_is_aligned (al val : nat) : comp () :=
  if val mod al =? 0 then ret tt else throw DiskIOAlignmentError.

Definition aligned_read_new (al ptr offset len : nat) : comp (nat * nat) :=
  let* _ := assert_is_aligned al ptr in
  let* _ := assert_is_aligned al len in
  let* _ := assert_is_aligned al offset in
  ret (offset, len).

(** [StorageProviderAlignedFileReader]: the file is loaded at once, a read out of range panics. *)
Record StorageProviderAlignedFileReader := mkStorageReader { sp_data : list Z }.

Definition storage_reader_new (s : Storage) (name : string) :
    comp StorageProviderAlignedFileReader :=
  let* len := get_length s name in
  let* r := open_reader s name in
  let* (data, _) := read_exact len r in
  ret (mkStorageReader data).

Fixpoint storage_read (data : list Z) (reqs : list (nat * nat)) : comp (list (list Z)) :=
  match reqs with
  | [] => ret []
  | (offset, len) :: reqs =>
      let* b := lift (slice offset len data) in
      let* bs := storage_read data reqs in
      ret (b :: bs)
  end.

#[export] Instance storage_reader : AlignedFileReader StorageProviderAlignedFileReader := {
  alignment := 1;
  afr_read r reqs := let* bs := storage_read (sp_data r) reqs in ret (bs, r);
}.

Lemma storage_read_ok data reqs :
  Forall (λ req, req.1 + req.2 ≤ length data) reqs →
  storage_read data reqs = ret ((λ req, take req.2 (drop req.1 data)) <$> reqs).
Proof.
  induction 1 as [|[o n] reqs Hr _ IH]; [done|]. simpl in *.
  by rewrite slice_ok, comp_bind_lift, IH by done.
Qed.

#[export] Program Instance storage_laws : ReaderLaws StorageProviderAlignedFileReader := {
  contents := sp_data;
}.
Next Obligation. simpl. lia. Qed.
Next Obligation. intros r reqs _ H. simpl. rewrite storage_read_ok by done. eauto. Qed.

Lemma storage_reader_new_ok s name file :
  s !! name = Some file → storage_reader_new s name = ret (mkStorageReader file).
Proof.
  intros H. unfold storage_reader_new, get_length, open_reader. rewrite H, !comp_bind_ret.
  rewrite read_exact_ok, comp_bind_ret by (simpl; lia). simpl. by rewrite drop_0, firstn_all.
Qed.

(** ** Sectors *)

Section sector.

Context {R : Type} `{!AlignedFileReader R}.

Record DiskSectorGraph := mkSector {
  sector_reader : R;
  sectors_data : list Z;
  cur_sector_idx : nat;
  num_nodes_per_sector : nat;
  sg_node_len : nat;
  max_n_batch_sector_read : nat;
  num_sectors_per_node : nat;
  sg_block_size : nat;
}.

(** [DiskSectorGraph::new] *)
Definition sector_graph_new (r : R) (h : GraphHeader) (max_batch : nat) : DiskSectorGraph :=
  let bsize := if ((major (layout_version h) =? 0) && (minor (layout_version h) =? 0)) ||
                  (block_size h =? 0)
               then DEFAULT_DISK_SECTOR_LEN else block_size h in
  let per_sector := num_nodes_per_block (metadata h) in
  let nlen := node_len (metadata h) in
  let per_node := if 0 <? per_sector then 1 else div_ceil nlen bsize in
  mkSector r (replicate (max_batch * per_node * bsize) 0%Z) 0 per_sector nlen max_batch per_node bsize.

Definition sector_reconfigure (max_batch : nat) (g : DiskSectorGraph) : DiskSectorGraph :=
  if max_n_batch_sector_read g <? max_batch then
    mkSector (sector_reader g)
      (replicate (max_batch * num_sectors_per_node g * sg_block_size g) 0%Z) (cur_sector_idx g)
      (num_nodes_per_sector g) (sg_node_len g) max_batch (num_sectors_per_node g) (sg_block_size g)
  else g.

Definition sector_reset (g : DiskSectorGraph) : DiskSectorGraph :=
  mkSector (sector_reader g) (sectors_data g) 0 (num_nodes_per_sector g) (sg_node_len g)
    (max_n_batch_sector_read g) (num_sectors_per_node g) (sg_block_size g).

Definition len_per_node (g : DiskSectorGraph) : nat := num_sectors_per_node g * sg_block_size g.

(** The read requests, one chunk of the buffer after the other. *)
Fixpoint read_requests (ptr len bsize : nat) (sectors : list nat) : comp (list (nat * nat)) :=
  match sectors with
  | [] => ret []
  | sector_id :: sectors =>
      let* req := aligned_read_new (alignment (R:=R)) ptr (sector_id * bsize) len in
      let* reqs := read_requests (ptr + len) len bsize sectors in
      ret (req :: reqs)
  end.

(** [read_graph] *)
Definition read_graph (sectors_to_fetch : list nat) (g : DiskSectorGraph) : comp DiskSectorGraph :=
  let* room := lift (usub (max_n_batch_sector_read g) (cur_sector_idx g)) in
  if room <? length sectors_to_fetch then throw IndexError
  else
    let len := len_per_node g in
    if len =? 0 then throw IndexError
    else
      let start := cur_sector_idx g * len in
      let* _ := lift (slice start (length sectors_to_fetch * len) (sectors_data g)) in
      let* reqs := read_requests start len (sg_block_size g) sectors_to_fetch in
      let* (bufs, r) := afr_read (sector_reader g) reqs in
      let* data := lift (copy_at start (concat bufs) (sectors_data g)) in
      ret (mkSector r data (cur_sector_idx g + length sectors_to_fetch) (num_nodes_per_sector g)
             (sg_node_len g) (max_n_batch_sector_read g) (num_sectors_per_node g) (sg_block_size g)).

Definition get_sector_buf (local_sector_idx : nat) (g : DiskSectorGraph) : option (list Z) :=
  slice (local_sector_idx * len_per_node g) (len_per_node g) (sectors_data g).

Definition get_node_offset (vertex_id : nat) (g : DiskSectorGraph) : nat :=
  if num_nodes_per_sector g =? 0 then 0
  else vertex_id mod num_nodes_per_sector g * sg_node_len g.

Definition node_disk_buf (node_index_local vertex_id : nat) (g : DiskSectorGraph) :
    option (list Z) :=
  sector_buf ← get_sector_buf node_index_local g;
  slice (get_node_offset vertex_id g) (sg_node_len g) sector_buf.

Definition node_sector_index (vertex_id : nat) (g : DiskSectorGraph) : nat :=
  1 + (if num_nodes_per_sector g =? 0 then vertex_id * num_sectors_per_node g
       else vertex_id / num_nodes_per_sector g).

End sector.
Arguments DiskSectorGraph R : clear implicits.

(** ** The vertex provider interface ([search/traits/vertex_provider.rs]) *)

Class VertexProvider (P A : Type) := {
  vp_get_vector : nat → P → comp (list Z);
  vp_get_adjacency_list : nat → P → comp (list nat);
  vp_get_associated_data : nat → P → comp A;
  vp_load_vertices : list nat → P → comp P;
  vp_process_loaded_node : nat → nat → P → comp P;
  vp_io_operations : P → nat;
  vp_vertices_loaded_count : P → nat;
  vp_clear : P → P;
}.

Section ensure.

Context {P A : Type} {VP : VertexProvider P A}.

(** [ensure_vertex_loaded] and its loop over the batch. *)
Fixpoint process_all (idx : nat) (ids : list nat) (p : P) : comp P :=
  match ids with
  | [] => ret p
  | id :: ids => let* p := vp_process_loaded_node id idx p in process_all (S idx) ids p
  end.

Definition ensure_vertex_loaded (ids : list nat) (p : P) : comp P :=
  let* p := vp_load_vertices ids p in process_all 0 ids p.

(** Batch after batch, on one provider. *)
Fixpoint load_batches (batches : list (list nat)) (p : P) : comp P :=
  match batches with
  | [] => ret p
  | ids :: batches => let* p := ensure_vertex_loaded ids p in load_batches batches p
  end.

End ensure.

(** ** Nodes *)

Section provider.

Context {R A : Type} `{!AlignedFileReader R}.
Context (vec_size : nat) (deserialize : list Z → option A).

(** The provider; [loaded_nodes] maps a vertex to the places of its lists and of its vector. *)
Record DiskVertexProvider := mkProvider {
  centroid_vertex_id : nat;
  dim : nat;
  fp_vector_len : nat;
  sector_graph : DiskSectorGraph R;
  vector_buf : list Z;
  cached_adjacency_list : list (list nat);
  cached_associated_data : list A;
  loaded_nodes : gmap nat (nat * nat);
  associated_data_size : nat;
  vp_node_len : nat;
  io_operations : nat;
  max_batch_size : nat;
}.

(** [DiskVertexProvider::new] *)
Definition provider_new (h : GraphHeader) (max_batch : nat) (r : R) : DiskVertexProvider :=
  let m := metadata h in
  mkProvider (medoid m) (dims m) (dims m * vec_size) (sector_graph_new r h max_batch)
    (replicate (max_batch * dims m * vec_size) 0%Z) [] [] ∅ (associated_data_length m) (node_len m)
    0 max_batch.

Definition get_vector (vertex_id : nat) (p : DiskVertexProvider) : comp (list Z) :=
  match loaded_nodes p !! vertex_id with
  | Some (_, idx) => lift (slice (idx * dim p * vec_size) (dim p * vec_size) (vector_buf p))
  | None => throw IndexError
  end.

Definition get_adjacency_list (vertex_id : nat) (p : DiskVertexProvider) : comp (list nat) :=
  match loaded_nodes p !! vertex_id with
  | Some (vec_idx, _) => lift (cached_adjacency_list p !! vec_idx)
  | None => throw IndexError
  end.

Definition get_associated_data (vertex_id : nat) (p : DiskVertexProvider) : comp A :=
  match loaded_nodes p !! vertex_id with
  | Some (vec_idx, _) => lift (cached_associated_data p !! vec_idx)
  | None => throw IndexError
  end.

Definition clear_before_next_read (p : DiskVertexProvider) : DiskVertexProvider :=
  mkProvider (centroid_vertex_id p) (dim p) (fp_vector_len p) (sector_reset (sector_graph p))
    (vector_buf p) [] [] ∅ (associated_data_size p) (vp_node_len p) (io_operations p)
    (max_batch_size p).

Definition provider_reconfigure (max_batch : nat) (p : DiskVertexProvider) : DiskVertexProvider :=
  if max_batch_size p <? max_batch then
    let p := clear_before_next_read p in
    mkProvider (centroid_vertex_id p) (dim p) (fp_vector_len p)
      (sector_reconfigure max_batch (sector_graph p)) (replicate (max_batch * dim p * vec_size) 0%Z)
      (cached_adjacency_list p) (cached_associated_data p) (loaded_nodes p)
      (associated_data_size p) (vp_node_len p) (io_operations p) max_batch
  else p.

Definition set_sector_graph (g : DiskSectorGraph R) (p : DiskVertexProvider) : DiskVertexProvider :=
  mkProvider (centroid_vertex_id p) (dim p) (fp_vector_len p) g (vector_buf p)
    (cached_adjacency_list p) (cached_associated_data p) (loaded_nodes p)
    (associated_data_size p) (vp_node_len p) (io_operations p) (max_batch_size p).

Definition set_io_operations (n : nat) (p : DiskVertexProvider) : DiskVertexProvider :=
  mkProvider (centroid_vertex_id p) (dim p) (fp_vector_len p) (sector_graph p) (vector_buf p)
    (cached_adjacency_list p) (cached_associated_data p) (loaded_nodes p)
    (associated_data_size p) (vp_node_len p) n (max_batch_size p).

Definition fetch_nodes (nodes_to_fetch : list nat) (p : DiskVertexProvider) :
    comp DiskVertexProvider :=
  let p := provider_reconfigure (length nodes_to_fetch) p in
  let sectors := (λ id, node_sector_index id (sector_graph p)) <$> nodes_to_fetch in
  let* g := read_graph sectors (sector_graph p) in
  ret (set_sector_graph g p).

Definition load_vertices (vertex_ids : list nat) (p : DiskVertexProvider) :
    comp DiskVertexProvider :=
  let p := clear_before_next_read p in
  let* p := fetch_nodes vertex_ids p in
  ret (set_io_operations (io_operations p + length vertex_ids) p).

Definition provider_clear (p : DiskVertexProvider) : DiskVertexProvider :=
  set_io_operations 0 (clear_before_next_read p).

(** [must_cast_slice]: the bytes of [n] little-endian ids. *)
Fixpoint decode_ids (n : nat) (bytes : list Z) : list nat :=
  match n with 0 => [] | S n => get (take 4 bytes) :: decode_ids n (drop 4 bytes) end.

(** [process_loaded_node] *)
Definition process_loaded_node (vertex_id idx : nat) (p : DiskVertexProvider) :
    comp DiskVertexProvider :=
  let* node := lift (node_disk_buf idx vertex_id (sector_graph p)) in
  let* fp_vector_buf := lift (slice 0 (fp_vector_len p) node) in
  let* _ := lift (slice (idx * dim p * vec_size) (dim p * vec_size) (vector_buf p)) in
  let* vbuf := lift (copy_at (idx * dim p * vec_size) fp_vector_buf (vector_buf p)) in
  let neighbor_and_data_buf := drop (fp_vector_len p) node in
  let* count := lift (slice 0 4 neighbor_and_data_buf) in
  let num_neighbors := get count in
  match slice 4 (num_neighbors * 4) neighbor_and_data_buf with
  | None => throw SerdeError
  | Some buf =>
      let* data_end := lift (usub (vp_node_len p) (fp_vector_len p)) in
      let* start := lift (usub data_end (associated_data_size p)) in
      let* data := lift (slice start (associated_data_size p) neighbor_and_data_buf) in
      match deserialize data with
      | None => throw SerdeError
      | Some a =>
          ret (mkProvider (centroid_vertex_id p) (dim p) (fp_vector_len p) (sector_graph p) vbuf
                 (cached_adjacency_list p ++ [decode_ids num_neighbors buf])
                 (cached_associated_data p ++ [a])
                 (<[vertex_id := (size (loaded_nodes p), idx)]> (loaded_nodes p))
                 (associated_data_size p) (vp_node_len p) (io_operations p) (max_batch_size p))
      end
  end.

#[local] Instance disk_vertex_provider : VertexProvider DiskVertexProvider A := {
  vp_get_vector := get_vector;
  vp_get_adjacency_list := get_adjacency_list;
  vp_get_associated_data := get_associated_data;
  vp_load_vertices := load_vertices;
  vp_process_loaded_node := process_loaded_node;
  vp_io_operations := io_operations;
  vp_vertices_loaded_count := io_operations;
  vp_clear := provider_clear;
}.

(** [get_header]: the first 4096 bytes, without the 8-byte prefix. *)
Definition get_header (r : R) : comp GraphHeader :=
  let buffer_len := next_multiple_of header_size DEFAULT_DISK_SECTOR_LEN in
  let* req := aligned_read_new (alignment (R:=R)) buffer_len 0 buffer_len in
  let* (bufs, _) := afr_read r [req] in
  let* buf := lift (bufs !! 0) in
  header_try_from (drop 8 buf).

End provider.
Arguments DiskVertexProvider R A : clear implicits.
