(* ===== verification/DiskRoundtrip.v ===== *)
(** * The disk index read back

    What [DiskIndexWriter] ([DiskLayout]) writes, [DiskVertexProvider] ([DiskGraph]) reads:

    - Section [geometry]: where the bytes of a node are in the file, in both layouts;
    - Section [batches]: a batch of vertices is fetched and decoded;
    - the theorems [disk_roundtrip] (every vertex is read back as it was written, through any
      reader that satisfies the interface) and [node_extents] (no node overlaps the header,
      another node or the end of the file), and what goes wrong outside their hypotheses. *)

From S2P Require Import DiskIo DiskHeader DiskLayout DiskGraph.

(** ** Blocks of equal length *)

Lemma concat_uniform {A} (L : nat) (ls : list (list A)) j x :
  Forall (λ l, length l = L) ls → ls !! j = Some x →
  take L (drop (j * L) (concat ls)) = x ∧ j * L + L ≤ length (concat ls).
Proof.
  intros Hls. revert j. induction Hls as [|l ls Hl Hls IH]; intros j Hj; [done|].
  rewrite concat_cons, length_app. destruct j as [|j]; simpl in Hj.
  - injection Hj as <-. rewrite drop_0, take_app_length' by done. split; [done|lia].
  - destruct (IH j Hj) as [E Hle]. split; [|lia].
    rewrite drop_app_ge by lia. by replace (S j * L - length l) with (j * L) by lia.
Qed.

Lemma length_concat_uniform {A} (L : nat) (ls : list (list A)) :
  Forall (λ l, length l = L) ls → length (concat ls) = length ls * L.
Proof. induction 1 as [|l ls Hl _ IH]; [done|]. rewrite concat_cons, length_app. simpl. lia. Qed.

(** Writing one slot of a buffer of slots of [W] bytes. *)
Lemma slice_copy_same {A} k W (data l l' : list A) :
  length data = W → copy_at (k * W) data l = Some l' → slice (k * W) W l' = Some data.
Proof.
  intros Hd. unfold copy_at. case_nat; [|done]. intros [= <-]. apply slice_app; [|done].
  rewrite length_take. lia.
Qed.

Lemma slice_copy_before {A} j k W (data l l' : list A) :
  j < k → copy_at (k * W) data l = Some l' → slice (j * W) W l' = slice (j * W) W l.
Proof.
  intros Hj Hc. pose proof (copy_at_length _ _ _ _ Hc) as Hl. revert Hc. unfold slice. rewrite Hl.
  unfold copy_at. case_nat; [|done]. intros [= <-]. case_nat; [|done]. f_equal.
  assert (j * W + W ≤ k * W) by (transitivity (S j * W); [simpl; lia|apply Nat.mul_le_mono_r; lia]).
  rewrite !take_drop_commute, take_app_le, take_take by (rewrite length_take; lia).
  by rewrite Nat.min_l by lia.
Qed.

Lemma take_drop_take {A} n o m (l : list A) :
  o + n ≤ m → take n (drop o (take m l)) = take n (drop o l).
Proof. intros. rewrite !take_drop_commute, take_take. by rewrite Nat.min_l by lia. Qed.

Lemma length_sectors k per bsize : ∀ nodes, length (sectors_of k per bsize nodes) = k.
Proof. induction k as [|k IH]; intros; simpl; [done|]. by rewrite IH. Qed.

Lemma lookup_sectors k per bsize : ∀ nodes j,
  j < k → sectors_of k per bsize nodes !! j =
          Some (pad bsize (concat (take per (drop (j * per) nodes)))).
Proof.
  induction k as [|k IH]; intros nodes j Hj; [lia|]. simpl. destruct j as [|j]; [done|].
  simpl. rewrite IH by lia. by rewrite drop_drop.
Qed.

Section geometry.

Context (vec_size assoc_size b : nat) (G : Graph).
Hypothesis (HG : graph_ok vec_size assoc_size G).
Hypothesis (Hb : 8 + header_size ≤ b).

#[local] Abbreviation NL := (g_node_len vec_size assoc_size G).
#[local] Abbreviation per := (g_per_block vec_size assoc_size b G).
#[local] Abbreviation file := (disk_file vec_size assoc_size b G).

Definition sectors_per_node : nat := if 0 <? per then 1 else div_ceil NL b.
Definition sector_index (i : nat) : nat :=
  1 + (if per =? 0 then i * sectors_per_node else i / per).
Definition node_offset (i : nat) : nat := if per =? 0 then 0 else i mod per * NL.
(** The place of a node in the file. *)
Definition node_pos (i : nat) : nat := sector_index i * b + node_offset i.

Lemma NL_pos : 0 < NL.
Proof. unfold g_node_len. lia. Qed.

Lemma per_fits : per * NL ≤ b.
Proof. unfold g_per_block. rewrite Nat.mul_comm. apply Nat.Div0.mul_div_le. Qed.

Lemma node_pos_lt i j : i < j → node_pos i + NL ≤ node_pos j.
Proof.
  intros Hij. unfold node_pos, sector_index, node_offset, sectors_per_node.
  pose proof per_fits as Hper. destruct (Nat.eqb_spec per 0) as [E|E].
  - rewrite E, Nat.ltb_irrefl. pose proof (div_ceil_bound NL b ltac:(lia)) as Hd.
    set (d := div_ceil NL b) in *. assert (Hm : (i * d + d) * b ≤ j * d * b); [|lia].
    apply Nat.mul_le_mono_r. transitivity (S i * d); [lia|]. by apply Nat.mul_le_mono_r.
  - pose proof (Nat.div_mod i per E). pose proof (Nat.mod_upper_bound i per E).
    pose proof (Nat.div_mod j per E). pose proof (Nat.mod_upper_bound j per E).
    pose proof (Nat.Div0.div_le_mono i j per ltac:(lia)).
    destruct (Nat.eq_dec (i / per) (j / per)) as [Eq|Ne].
    + rewrite <-Eq in *.
      assert (Hm : (i mod per + 1) * NL ≤ j mod per * NL) by (apply Nat.mul_le_mono_r; lia). lia.
    + assert (Hm : (i mod per + 1) * NL ≤ per * NL) by (apply Nat.mul_le_mono_r; lia).
      assert (Hd : (i / per + 1) * b ≤ j / per * b) by (apply Nat.mul_le_mono_r; lia). lia.
Qed.

Lemma nodes_uniform : Forall (λ l, length l = NL) (node_bytes G <$> g_nodes G).
Proof.
  apply Forall_fmap. eapply Forall_impl; [apply (gk_nodes _ _ _ HG)|]. intros nd Hn.
  by apply length_node_bytes.
Qed.

Lemma length_first : length (first_block vec_size assoc_size b G) = b.
Proof.
  unfold first_block. apply length_pad.
  rewrite !length_app, !length_put, length_header. lia.
Qed.

Lemma blocks_uniform :
  Forall (λ l, length l = sectors_per_node * b) (blocks_of vec_size assoc_size b G).
Proof.
  unfold blocks_of, sectors_per_node. destruct (Nat.ltb_spec 0 per) as [Hp|Hp].
  - apply Forall_lookup. intros j l Hj. pose proof (lookup_lt_Some _ _ _ Hj) as Hlt.
    rewrite length_sectors in Hlt. rewrite lookup_sectors in Hj by done. simplify_eq.
    rewrite Nat.mul_1_l. apply length_pad. pose proof per_fits.
    rewrite (length_concat_uniform NL) by (apply Forall_take, Forall_drop, nodes_uniform).
    rewrite length_take. etrans; [|exact per_fits]. apply Nat.mul_le_mono_r. lia.
  - apply Forall_fmap. eapply Forall_impl; [apply nodes_uniform|]. intros l Hl. simpl.
    apply length_pad. rewrite Hl. apply div_ceil_bound. lia.
Qed.

Lemma length_blocks :
  length (concat (blocks_of vec_size assoc_size b G)) = g_num_blocks vec_size assoc_size b G * b.
Proof.
  rewrite (length_concat_uniform _ _ blocks_uniform).
  unfold blocks_of, sectors_per_node, g_num_blocks. destruct (Nat.ltb_spec 0 per).
  - rewrite length_sectors. lia.
  - rewrite !length_fmap. lia.
Qed.

Lemma length_file : length file = g_file_size vec_size assoc_size b G.
Proof. unfold disk_file, g_file_size. rewrite length_app, length_first, length_blocks. lia. Qed.

(** The block of a node, and the node in it. *)
Lemma node_block i nd :
  g_nodes G !! i = Some nd →
  ∃ j sec, blocks_of vec_size assoc_size b G !! j = Some sec ∧
           sector_index i * b = b + j * (sectors_per_node * b) ∧
           slice (node_offset i) NL sec = Some (node_bytes G nd).
Proof.
  intros Hi. pose proof (lookup_lt_Some _ _ _ Hi) as Hlt. pose proof NL_pos.
  unfold blocks_of, sector_index, node_offset, sectors_per_node.
  destruct (Nat.ltb_spec 0 per) as [Hp|Hp], (Nat.eqb_spec per 0) as [E|E]; try lia.
  - exists (i / per), (pad b (concat (take per (drop (i / per * per) (node_bytes G <$> g_nodes G))))).
    pose proof (Nat.div_mod i per E) as Hdm. pose proof (Nat.mod_upper_bound i per E) as Hm.
    split; [|split; [lia|]].
    { apply lookup_sectors. unfold g_num_blocks. case_nat; [|lia].
      apply Nat.Div0.div_lt_upper_bound. pose proof (div_ceil_bound (length (g_nodes G)) per Hp). lia. }
    assert (Hl : take per (drop (i / per * per) (node_bytes G <$> g_nodes G)) !! (i mod per) =
                 Some (node_bytes G nd)).
    { rewrite lookup_take, lookup_drop, list_lookup_fmap by done.
      replace (i / per * per + i mod per) with i by lia. case_decide; [|lia]. by rewrite Hi. }
    destruct (concat_uniform NL _ _ _ (Forall_take _ _ _ (Forall_drop _ _ _ nodes_uniform)) Hl)
      as [Et Hle].
    rewrite slice_ok by (unfold pad; rewrite length_app; lia).
    unfold pad. by rewrite drop_app_le, take_app_le, Et by (rewrite ?length_drop; lia).
  - exists i, (pad (next_multiple_of NL b) (node_bytes G nd)). split; [|split; [lia|]].
    + by rewrite !list_lookup_fmap, Hi.
    + unfold pad. apply slice_prefix. symmetry. apply length_node_bytes.
      eapply (Forall_lookup_1 _ _ _ _ (gk_nodes _ _ _ HG) Hi).
Qed.

(** Reading the sectors of a node gives a buffer that holds the node. *)
Lemma node_in_file i nd :
  g_nodes G !! i = Some nd →
  let sec := take (sectors_per_node * b) (drop (sector_index i * b) file) in
  sector_index i * b + sectors_per_node * b ≤ length file ∧
  length sec = sectors_per_node * b ∧
  slice (node_offset i) NL sec = Some (node_bytes G nd).
Proof.
  intros Hi. destruct (node_block i nd Hi) as (j & sec & Hj & Hpos & Hs). cbv zeta.
  destruct (concat_uniform _ _ _ _ blocks_uniform Hj) as [Et Hle].
  rewrite Hpos. unfold disk_file. rewrite length_app, length_first.
  rewrite drop_app_ge by (rewrite length_first; lia). rewrite length_first.
  replace (b + j * (sectors_per_node * b) - b) with (j * (sectors_per_node * b)) by lia.
  rewrite Et. split; [lia|]. split; [|done].
  by eapply (Forall_lookup_1 _ _ _ _ blocks_uniform).
Qed.

End geometry.

(** ** Tables filled in order *)

(** [m] maps the vertex at place [k] of [ids] to [f k], and nothing else. *)
Record indexed {V} (f : nat → V) (m : gmap nat V) (ids : list nat) : Prop := {
  ix_lookup : ∀ k id, ids !! k = Some id → m !! id = Some (f k);
  ix_dom : ∀ id, id ∉ ids → m !! id = None;
  ix_size : size m = length ids;
}.

(** The vectors of [ids] are in the slots of [buf]. *)
Definition slots (G : Graph) (W : nat) (buf : list Z) (ids : list nat) : Prop :=
  ∀ k id nd, ids !! k = Some id → g_nodes G !! id = Some nd →
             slice (k * W) W buf = Some (n_vector nd).

Lemma lookup_snoc_cases (ids : list nat) id j x :
  (ids ++ [id]) !! j = Some x → j < length ids ∧ ids !! j = Some x ∨ j = length ids ∧ x = id.
Proof.
  intros [Hj|[Hj Hx]]%lookup_app_Some.
  - left. split; [by eapply lookup_lt_Some|done].
  - right. apply list_lookup_singleton_Some in Hx as [? <-]. split; [lia|done].
Qed.

Lemma indexed_snoc {V} (f : nat → V) m ids id :
  indexed f m ids → id ∉ ids → indexed f (<[id := f (length ids)]> m) (ids ++ [id]).
Proof.
  intros [Hl Hd Hs] Hni. split.
  - intros j x [[Hj Hx]|[-> ->]]%lookup_snoc_cases; [|by rewrite lookup_insert_eq].
    rewrite lookup_insert_ne; [by apply Hl|]. intros ->. apply Hni. by eapply list_elem_of_lookup_2.
  - intros x [Hx1 Hx2]%not_elem_of_app. rewrite lookup_insert_ne; [by apply Hd|].
    intros ->. apply Hx2. by apply list_elem_of_singleton.
  - rewrite map_size_insert_None by (by apply Hd). rewrite length_app. simpl. lia.
Qed.

Lemma slots_snoc G W buf buf' ids id nd :
  slots G W buf ids → g_nodes G !! id = Some nd → length (n_vector nd) = W →
  copy_at (length ids * W) (n_vector nd) buf = Some buf' → slots G W buf' (ids ++ [id]).
Proof.
  intros Hs Hnd Hl Hc j x nd' [[Hj Hx]|[-> ->]]%lookup_snoc_cases Hnd'.
  - rewrite (slice_copy_before _ _ _ _ _ _ Hj Hc). eauto.
  - simplify_eq. by apply (slice_copy_same _ _ _ _ _ eq_refl Hc).
Qed.

(** ** Batches *)

Section batches.

Context {R A : Type} {AR : AlignedFileReader R} {RL : ReaderLaws R}.
Context (vec_size assoc_size b : nat) (deserialize : list Z → option A) (G : Graph).
Hypothesis (HG : graph_ok vec_size assoc_size G).
Hypothesis (Hb : 8 + header_size ≤ b).
Hypothesis (Hal : b mod alignment (R:=R) = 0).

#[local] Abbreviation NL := (g_node_len vec_size assoc_size G).
#[local] Abbreviation per := (g_per_block vec_size assoc_size b G).
#[local] Abbreviation file := (disk_file vec_size assoc_size b G).
#[local] Abbreviation spn := (sectors_per_node vec_size assoc_size b G).
#[local] Abbreviation index := (sector_index vec_size assoc_size b G).
#[local] Abbreviation sector i := (take (spn * b) (drop (index i * b) file)).
#[local] Abbreviation VP := (disk_vertex_provider (R:=R) vec_size deserialize).

Lemma mul_aligned k al n : n mod al = 0 → (k * n) mod al = 0.
Proof.
  intros H. destruct (Nat.eq_dec al 0) as [->|]; [simpl in *; subst; lia|].
  apply Nat.Div0.mod_divides in H as [c ->]. apply Nat.Div0.mod_divides. exists (k * c). lia.
Qed.

Lemma assert_aligned_ok al n : n mod al = 0 → assert_is_aligned al n = ret tt.
Proof. intros H. unfold assert_is_aligned. by rewrite H. Qed.

Lemma read_requests_ok len sectors : ∀ ptr,
  ptr mod alignment (R:=R) = 0 → len mod alignment (R:=R) = 0 →
  read_requests (R:=R) ptr len b sectors = ret ((λ s, (s * b, len)) <$> sectors).
Proof.
  induction sectors as [|s sectors IH]; intros ptr Hp Hl; [done|]. simpl. unfold aligned_read_new.
  rewrite !assert_aligned_ok, !comp_bind_ret by auto using mul_aligned.
  rewrite IH; [done| |done]. rewrite Nat.Div0.add_mod, Hp, Hl. apply Nat.Div0.mod_0_l.
Qed.

(** A sector graph set up for this file. *)
Record sector_ok (g : DiskSectorGraph R) : Prop := {
  so_file : contents (sector_reader g) = file;
  so_per : num_nodes_per_sector g = per;
  so_len : sg_node_len g = NL;
  so_block : sg_block_size g = b;
  so_spn : num_sectors_per_node g = spn;
  so_data : length (sectors_data g) = max_n_batch_sector_read g * (spn * b);
}.

Lemma spn_pos : 0 < spn.
Proof.
  unfold sectors_per_node. case_nat; [lia|]. pose proof (NL_pos vec_size assoc_size b G).
  pose proof (div_ceil_bound NL b ltac:(lia)). destruct (div_ceil NL b); lia.
Qed.

Lemma chunk_pos : 0 < spn * b.
Proof. pose proof spn_pos. apply Nat.mul_pos_pos; lia. Qed.

Lemma sector_graph_new_ok r max_batch :
  contents r = file → sector_ok (sector_graph_new r (header_of vec_size assoc_size b G) max_batch).
Proof.
  intros Hr. unfold sector_graph_new. cbn -[header_size metadata_size].
  destruct (Nat.eqb_spec b 0); [lia|]. split; simpl; try done.
  rewrite length_replicate. symmetry. apply Nat.mul_assoc.
Qed.

(** The indices of the batch are those of vertices of the graph. *)
Definition valid (ids : list nat) : Prop := Forall (λ id, id < length (g_nodes G)) ids.

Lemma sector_bounds id :
  id < length (g_nodes G) → index id * b + spn * b ≤ length file ∧ length (sector id) = spn * b.
Proof.
  intros [nd Hnd]%lookup_lt_is_Some_2.
  destruct (node_in_file vec_size assoc_size b G HG Hb id nd Hnd) as (? & ? & _). done.
Qed.

(** [read_graph] fetches the sectors of the batch, in order. *)
Lemma read_graph_ok g ids :
  sector_ok g → cur_sector_idx g = 0 → length ids ≤ max_n_batch_sector_read g → valid ids →
  ∃ g', read_graph ((λ id, node_sector_index id g) <$> ids) g = ret g' ∧ sector_ok g' ∧
    max_n_batch_sector_read g' = max_n_batch_sector_read g ∧
    ∀ k id, ids !! k = Some id → get_sector_buf k g' = Some (sector id).
Proof.
  intros [Hf Hp Hl Hbl Hs Hd] Hc Hlen Hv. pose proof chunk_pos.
  assert (Hidx : (λ id, node_sector_index id g) <$> ids = index <$> ids).
  { apply list_fmap_ext. intros _ id _. unfold node_sector_index, sector_index. by rewrite Hp, Hs. }
  rewrite Hidx. unfold read_graph, len_per_node. rewrite Hc, Hs, Hbl, length_fmap.
  rewrite usub_ok, comp_bind_lift by lia. case_nat; [lia|]. case_nat; [lia|].
  assert (Hle : length ids * (spn * b) ≤ length (sectors_data g))
    by (rewrite Hd; by apply Nat.mul_le_mono_r).
  rewrite slice_ok, comp_bind_lift by lia.
  rewrite read_requests_ok, comp_bind_ret by (apply Nat.Div0.mod_0_l || by apply mul_aligned).
  rewrite <-list_fmap_compose.
  destruct (afr_read_ok (sector_reader g) ((λ s, (s * b, spn * b)) ∘ index <$> ids))
    as (r' & -> & Hr').
  { apply Forall_fmap, Forall_true. intros id.
    split; [by apply (mul_aligned (index id))|by apply (mul_aligned spn)]. }
  { rewrite Hf. apply Forall_fmap. eapply Forall_impl; [exact Hv|]. intros id Hid. simpl.
    by apply sector_bounds. }
  rewrite comp_bind_ret, Hf, <-list_fmap_compose.
  set (bufs := _ ∘ _ <$> ids).
  assert (Hbufs : ∀ k id, ids !! k = Some id → bufs !! k = Some (sector id))
    by (intros k id Hk; unfold bufs; by rewrite list_lookup_fmap, Hk).
  assert (Hu : Forall (λ l, length l = spn * b) bufs).
  { apply Forall_fmap. eapply Forall_impl; [exact Hv|]. intros id Hid. by apply sector_bounds. }
  pose proof (length_concat_uniform _ _ Hu) as Hcl. unfold bufs in Hcl at 2.
  rewrite length_fmap in Hcl. clearbody bufs.
  rewrite copy_at_ok, comp_bind_lift, Nat.mul_0_l, !Nat.add_0_l, take_0, app_nil_l by lia.
  eexists; split; [done|]. split_and!; [|done|].
  - split; cbn -[Nat.mul]; try done; [congruence|]. rewrite length_app, length_drop. lia.
  - intros k id Hk. unfold get_sector_buf, len_per_node. cbn -[Nat.mul].
    destruct (concat_uniform _ _ _ _ Hu (Hbufs k id Hk)) as [Et Hb2].
    rewrite slice_ok by (rewrite length_app; lia).
    by rewrite drop_app_le, take_app_le, Et by (rewrite ?length_drop; lia).
Qed.

(** A provider set up for this file. *)
Record provider_ok (p : DiskVertexProvider R A) : Prop := {
  po_sector : sector_ok (sector_graph p);
  po_dim : dim p = g_dims G;
  po_fp : fp_vector_len p = g_vector_len vec_size G;
  po_assoc : associated_data_size p = g_data_len assoc_size G;
  po_len : vp_node_len p = NL;
  po_buf : length (vector_buf p) = max_batch_size p * (g_dims G * vec_size);
  po_batch : max_n_batch_sector_read (sector_graph p) = max_batch_size p;
}.

Lemma provider_new_ok r max_batch :
  contents r = file →
  provider_ok (provider_new vec_size (header_of vec_size assoc_size b G) max_batch r).
Proof.
  intros Hr. split; try done.
  - by apply sector_graph_new_ok.
  - cbn -[Nat.mul]. rewrite length_replicate. symmetry. apply Nat.mul_assoc.
Qed.

Lemma reset_ok g : sector_ok g → sector_ok (sector_reset g).
Proof. intros [?????]. by split. Qed.

Lemma clear_ok p : provider_ok p → provider_ok (clear_before_next_read p).
Proof. intros [?? ?? ?? ?]. split; try done. by apply reset_ok. Qed.

Lemma sector_reconfigure_ok n g :
  sector_ok g → max_n_batch_sector_read g < n →
  sector_ok (sector_reconfigure n g) ∧ max_n_batch_sector_read (sector_reconfigure n g) = n ∧
  cur_sector_idx (sector_reconfigure n g) = cur_sector_idx g.
Proof.
  intros [Hs1 Hs2 Hs3 Hs4 Hs5 Hs6] Hn. unfold sector_reconfigure. case_nat; [|lia].
  split; [|done]. split; cbn -[Nat.mul]; try done.
  rewrite length_replicate, Hs4, Hs5. symmetry. apply Nat.mul_assoc.
Qed.

Lemma reconfigure_ok n p :
  provider_ok p → cur_sector_idx (sector_graph p) = 0 →
  let p' := provider_reconfigure vec_size n p in
  provider_ok p' ∧ cur_sector_idx (sector_graph p') = 0 ∧ n ≤ max_batch_size p' ∧
  (loaded_nodes p' = ∅ ∧ cached_adjacency_list p' = [] ∧ cached_associated_data p' = [] ∨
   p' = p).
Proof.
  intros [Hs Hd Hf Ha Hl Hv Hm] Hc. unfold provider_reconfigure. cbv zeta.
  case_nat; [|split_and!; [by split|done|done|by right]].
  destruct (sector_reconfigure_ok n (sector_reset (sector_graph p))) as (Hr & Hr1 & Hr2);
    [by apply reset_ok|by rewrite <-Hm in *|].
  cbn -[Nat.mul sector_reconfigure]. split_and!; auto. split; try done.
  cbn -[Nat.mul sector_reconfigure]. rewrite length_replicate, Hd. symmetry. apply Nat.mul_assoc.
Qed.

(** What loading a batch leaves: an empty provider with the sectors of the batch in its buffer. *)
Lemma load_vertices_ok p ids :
  provider_ok p → valid ids →
  ∃ p', load_vertices vec_size ids p = ret p' ∧ provider_ok p' ∧ length ids ≤ max_batch_size p' ∧
    loaded_nodes p' = ∅ ∧ cached_adjacency_list p' = [] ∧ cached_associated_data p' = [] ∧
    ∀ k id, ids !! k = Some id → get_sector_buf k (sector_graph p') = Some (sector id).
Proof.
  intros Hp Hv. unfold load_vertices, fetch_nodes.
  destruct (reconfigure_ok (length ids) _ (clear_ok p Hp) eq_refl) as (Hp1 & Hc1 & Hle & He).
  set (p1 := provider_reconfigure vec_size (length ids) (clear_before_next_read p)) in *.
  assert (He' : loaded_nodes p1 = ∅ ∧ cached_adjacency_list p1 = [] ∧ cached_associated_data p1 = [])
    by (destruct He as [?| ->]; done). clearbody p1. clear He.
  destruct (read_graph_ok (sector_graph p1) ids (po_sector _ Hp1) Hc1) as (g & -> & Hg & Hm & Hsec).
  { by rewrite (po_batch _ Hp1). }
  { done. }
  rewrite comp_bind_ret. eexists; split; [done|]. destruct Hp1, He' as (? & ? & ?).
  split_and!; try done. split; try done. simpl. congruence.
Qed.

(** ** Decoding a node *)

Lemma decode_puts l : Forall (fits 4) l → decode_ids (length l) (concat (put 4 <$> l)) = l.
Proof.
  induction 1 as [|x l Hx _ IH]; [done|]. rewrite fmap_cons, concat_cons. cbn [length decode_ids].
  rewrite take_app_length', drop_app_length', get_put, IH by (by rewrite ?length_put). done.
Qed.

(** The parts of a node where [process_loaded_node] looks for them. *)
Lemma node_parts nd :
  node_ok vec_size assoc_size G nd →
  let fp := g_vector_len vec_size G in
  let rest := drop fp (node_bytes G nd) in
  slice 0 fp (node_bytes G nd) = Some (n_vector nd) ∧
  slice 0 4 rest = Some (put 4 (length (n_nbrs nd))) ∧
  slice 4 (length (n_nbrs nd) * 4) rest = Some (concat (put 4 <$> n_nbrs nd)) ∧
  slice (NL - fp - g_data_len assoc_size G) (g_data_len assoc_size G) rest = Some (n_data nd).
Proof.
  intros [Hv Hd Hi Ha]. cbv zeta. unfold node_bytes, nbrs_bytes.
  rewrite drop_app_length', slice_prefix by done. split; [done|].
  rewrite <-!app_assoc, slice_prefix by (by rewrite length_put). split; [done|].
  rewrite slice_app by (by rewrite ?length_put, ?length_puts). split; [done|].
  rewrite !app_assoc, <-(app_nil_r (_ ++ n_data nd)), <-app_assoc. apply slice_app; [|done].
  rewrite !length_app, length_put, length_puts, length_replicate. unfold g_node_len. lia.
Qed.

(** The vertices [done] have been processed, in this order. *)
Record progress (p : DiskVertexProvider R A) (done : list nat) : Prop := {
  pg_loaded : indexed (λ k, (k, k)) (loaded_nodes p) done;
  pg_adj : Forall2 (λ id l, ∃ nd, g_nodes G !! id = Some nd ∧ n_nbrs nd = l)
             done (cached_adjacency_list p);
  pg_data : Forall2 (λ id a, ∃ nd, g_nodes G !! id = Some nd ∧ deserialize (n_data nd) = Some a)
              done (cached_associated_data p);
  pg_vec : slots G (g_dims G * vec_size) (vector_buf p) done;
}.

Lemma progress_nil p :
  loaded_nodes p = ∅ → cached_adjacency_list p = [] → cached_associated_data p = [] →
  progress p [].
Proof. intros E1 E2 E3. split; rewrite ?E1, ?E2, ?E3; [by split|constructor..|done]. Qed.

Lemma progress_snoc p ids id nd a vbuf k :
  progress p ids → length ids = k → id ∉ ids → g_nodes G !! id = Some nd →
  deserialize (n_data nd) = Some a → length (n_vector nd) = g_dims G * vec_size →
  copy_at (k * (g_dims G * vec_size)) (n_vector nd) (vector_buf p) = Some vbuf →
  progress (mkProvider (centroid_vertex_id p) (dim p) (fp_vector_len p) (sector_graph p) vbuf
              (cached_adjacency_list p ++ [n_nbrs nd]) (cached_associated_data p ++ [a])
              (<[id := (size (loaded_nodes p), k)]> (loaded_nodes p)) (associated_data_size p)
              (vp_node_len p) (io_operations p) (max_batch_size p)) (ids ++ [id]).
Proof.
  intros [Hl Hadj Hdat Hvec] <- Hni Hnd Ha Hlv Hcopy. split; simpl.
  - rewrite (ix_size _ _ _ Hl). exact (indexed_snoc _ _ _ _ Hl Hni).
  - apply Forall2_app; [done|]. constructor; [eauto|constructor].
  - apply Forall2_app; [done|]. constructor; [eauto|constructor].
  - by eapply slots_snoc.
Qed.

Lemma process_loaded_node_ok p ids id nd a k :
  provider_ok p → progress p ids → length ids = k → k < max_batch_size p → id ∉ ids →
  g_nodes G !! id = Some nd → deserialize (n_data nd) = Some a →
  get_sector_buf k (sector_graph p) = Some (sector id) →
  ∃ p', process_loaded_node vec_size deserialize id k p = ret p' ∧ provider_ok p' ∧
        sector_graph p' = sector_graph p ∧ max_batch_size p' = max_batch_size p ∧
        progress p' (ids ++ [id]).
Proof.
  intros [Hs Hd Hf Has Hl Hbuf Hm] Hpg Hk Hmax Hni Hnd Ha Hsec.
  destruct (node_in_file vec_size assoc_size b G HG Hb id nd Hnd) as (_ & _ & Hnode).
  pose proof (Forall_lookup_1 _ _ _ _ (gk_nodes _ _ _ HG) Hnd) as Hn.
  destruct (node_parts nd Hn) as (P1 & P2 & P3 & P4).
  pose proof (nk_vector _ _ _ _ Hn) as Hv. unfold g_vector_len in Hv.
  unfold process_loaded_node, node_disk_buf. rewrite Hsec. cbn [mbind option_bind].
  replace (get_node_offset id (sector_graph p)) with (node_offset vec_size assoc_size b G id)
    by (unfold get_node_offset, node_offset; by rewrite (so_per _ Hs), (so_len _ Hs)).
  rewrite (so_len _ Hs), Hnode, comp_bind_lift, Hf, P1, comp_bind_lift, Hd, <-Nat.mul_assoc.
  assert (Hfit : k * (g_dims G * vec_size) + g_dims G * vec_size ≤ length (vector_buf p)).
  { rewrite Hbuf. transitivity (S k * (g_dims G * vec_size)); [simpl; lia|].
    apply Nat.mul_le_mono_r. lia. }
  rewrite slice_ok, comp_bind_lift by done.
  destruct (copy_at (k * (g_dims G * vec_size)) (n_vector nd) (vector_buf p)) as [vbuf|] eqn:Hcopy;
    [|by rewrite copy_at_ok in Hcopy by lia].
  rewrite comp_bind_lift, P2, comp_bind_lift.
  assert (Hfits : fits 4 (length (n_nbrs nd))).
  { pose proof (gk_degree _ _ _ HG). pose proof (nk_degree _ _ _ _ Hn). unfold fits in *. lia. }
  rewrite get_put, P3, Hl, Has by done.
  do 2 rewrite usub_ok, comp_bind_lift by (unfold g_node_len; lia). rewrite P4, comp_bind_lift, Ha.
  eexists; split; [done|]. rewrite (decode_puts _ (nk_ids _ _ _ _ Hn)). split_and!; try done.
  - split; try done. simpl. by rewrite (copy_at_length _ _ _ _ Hcopy).
  - by destruct (progress_snoc p ids id nd a vbuf k Hpg Hk Hni Hnd Ha Hv Hcopy); split.
Qed.

(** Every vertex has data that can be deserialized. *)
Definition readable : Prop :=
  ∀ id nd, g_nodes G !! id = Some nd → is_Some (deserialize (n_data nd)).

Lemma process_all_ok (Hread : readable) ids : ∀ p before,
  provider_ok p → progress p before → NoDup (before ++ ids) → valid ids →
  length (before ++ ids) ≤ max_batch_size p →
  (∀ k id, ids !! k = Some id → get_sector_buf (length before + k) (sector_graph p) = Some (sector id)) →
  ∃ p', process_all (VP:=VP) (length before) ids p = ret p' ∧ provider_ok p' ∧
        progress p' (before ++ ids).
Proof.
  induction ids as [|id ids IH]; intros p before Hp Hpg Hnd Hv Hlen Hsec; cbn [process_all].
  { rewrite app_nil_r in *. eauto. }
  apply Forall_cons in Hv as [[nd Hnode]%lookup_lt_is_Some_2 Hv]. destruct (Hread id nd Hnode) as [a Ha].
  pose proof (Hsec 0 id eq_refl) as Hs0. rewrite Nat.add_0_r in Hs0.
  assert (Hni : id ∉ before).
  { apply NoDup_app in Hnd as (_ & Hd & _). intros Hin. eapply Hd; [done|]. by left. }
  rewrite length_app in Hlen. cbn [length] in Hlen.
  change (vp_process_loaded_node id) with (process_loaded_node (R:=R) vec_size deserialize id).
  destruct (process_loaded_node_ok p before id nd a _ Hp Hpg eq_refl ltac:(lia) Hni Hnode Ha Hs0)
    as (p1 & -> & Hp1 & Hg1 & Hm1 & Hpg1). rewrite comp_bind_ret.
  replace (S (length before)) with (length (before ++ [id])) by (rewrite length_app; simpl; lia).
  rewrite (cons_middle id before ids), app_assoc in *. apply IH; try done.
  - rewrite Hm1, !length_app. simpl. lia.
  - intros k id' Hk. rewrite Hg1, length_app, <-Nat.add_assoc. by apply (Hsec (S k)).
Qed.

(** The vertices of a batch are served with what the graph has for them. *)
Definition serves (p : DiskVertexProvider R A) (ids : list nat) : Prop :=
  ∀ id nd, id ∈ ids → g_nodes G !! id = Some nd →
    get_vector vec_size id p = ret (n_vector nd) ∧
    get_adjacency_list id p = ret (n_nbrs nd) ∧
    ∃ a, deserialize (n_data nd) = Some a ∧ get_associated_data id p = ret a.

Lemma progress_serves p ids : provider_ok p → progress p ids → serves p ids.
Proof.
  intros Hp [Hl Hadj Hdat Hvec] id nd [k Hk]%list_elem_of_lookup Hnd.
  unfold get_vector, get_adjacency_list, get_associated_data.
  rewrite (ix_lookup _ _ _ Hl k id Hk), (po_dim _ Hp), <-Nat.mul_assoc, (Hvec k id nd Hk Hnd).
  destruct (Forall2_lookup_l _ _ _ _ _ Hadj Hk) as (l & -> & nd1 & E1 & <-).
  destruct (Forall2_lookup_l _ _ _ _ _ Hdat Hk) as (a & -> & nd2 & E2 & Ha). simplify_eq. eauto.
Qed.

Lemma ensure_vertex_loaded_ok p ids :
  readable → provider_ok p → valid ids → NoDup ids →
  ∃ p', ensure_vertex_loaded (VP:=VP) ids p = ret p' ∧ provider_ok p' ∧
        progress p' ids.
Proof.
  intros Hread Hp Hv Hnd. unfold ensure_vertex_loaded.
  change (vp_load_vertices ids p) with (load_vertices vec_size ids p).
  destruct (load_vertices_ok p ids Hp Hv) as (p1 & -> & Hp1 & Hle & E1 & E2 & E3 & Hsec).
  rewrite comp_bind_ret. apply (process_all_ok Hread ids p1 []); auto using progress_nil.
Qed.

Lemma load_batches_ok (Hread : readable) batches : ∀ p,
  provider_ok p → Forall (λ ids, valid ids ∧ NoDup ids) batches →
  ∃ p', load_batches (VP:=VP) batches p = ret p' ∧ provider_ok p' ∧
        ∀ ids, last batches = Some ids → progress p' ids.
Proof.
  induction batches as [|ids batches IH]; intros p Hp Hbs; cbn [load_batches];
    [by exists p|].
  apply Forall_cons in Hbs as [[Hv Hnd] Hbs].
  destruct (ensure_vertex_loaded_ok p ids Hread Hp Hv Hnd) as (p1 & -> & Hp1 & Hpg1).
  rewrite comp_bind_ret. destruct batches as [|ids' batches].
  - exists p1. split_and!; [done|done|]. by intros ? [= <-].
  - destruct (IH p1 Hp1 Hbs) as (p2 & -> & Hp2 & Hpg2). exists p2. split_and!; [done|done|].
    intros ids'' Hl. apply Hpg2. exact Hl.
Qed.

(** ** The header *)

Lemma get_header_ok (r : R) :
  contents r = file → DEFAULT_DISK_SECTOR_LEN ≤ length file →
  DEFAULT_DISK_SECTOR_LEN mod alignment (R:=R) = 0 →
  header_ok (header_of vec_size assoc_size b G) →
  get_header r = ret (header_of vec_size assoc_size b G).
Proof.
  intros Hr Hlen Hal4 Hh. unfold get_header.
  replace (next_multiple_of header_size DEFAULT_DISK_SECTOR_LEN) with DEFAULT_DISK_SECTOR_LEN
    by (vm_compute; reflexivity).
  unfold aligned_read_new.
  rewrite !assert_aligned_ok, !comp_bind_ret by (done || apply Nat.Div0.mod_0_l).
  destruct (afr_read_ok r [(0, DEFAULT_DISK_SECTOR_LEN)]) as (r' & -> & _).
  { constructor; [|constructor]. split; [apply Nat.Div0.mod_0_l|done]. }
  { constructor; [|constructor]. by rewrite Hr. }
  rewrite comp_bind_ret, Hr. cbn [fmap list_fmap lookup list_lookup fst snd].
  rewrite comp_bind_lift, drop_0.
  assert (E : ∃ X, file = (put 4 header_size ++ put 4 1) ++
                          header_to_bytes (header_of vec_size assoc_size b G) ++ X).
  { unfold disk_file, first_block, pad. eexists. by rewrite <-!app_assoc. }
  destruct E as [X ->].
  assert (H8 : 8 = length (put 4 header_size ++ put 4 1)) by (by rewrite length_app, !length_put).
  rewrite take_app_ge, H8, drop_app_length by (rewrite <-H8; unfold DEFAULT_DISK_SECTOR_LEN; lia).
  rewrite take_app_ge by (rewrite length_header, <-H8; vm_compute; lia). by apply header_roundtrip.
Qed.

End batches.

(** ** Theorems *)

Section roundtrip.

Context {R A : Type} {AR : AlignedFileReader R} {RL : ReaderLaws R}.
Context (debug : bool) (vec_size assoc_size RW : nat) (deserialize : list Z → option A).

Lemma fits_le n x y : x ≤ y → fits n y → fits n x.
Proof. unfold fits. lia. Qed.

Lemma fits_4_8 x : fits 4 x → fits 8 x.
Proof. unfold fits. lia. Qed.

Lemma header_of_ok b G :
  graph_ok vec_size assoc_size G → fits 8 (g_node_len vec_size assoc_size G) →
  fits 8 (g_file_size vec_size assoc_size b G) → header_ok (header_of vec_size assoc_size b G).
Proof.
  intros [_ Hn Hd _ Hme Hf Ha] Hl Hs.
  assert (Hb : fits 8 b) by (eapply fits_le; [|exact Hs]; unfold g_file_size; lia).
  split_and!; [|done|done|done]. unfold metadata_ok. cbn -[fits g_file_size g_node_len Nat.eqb].
  repeat (apply Forall_cons; split); try (by apply fits_4_8); try done.
  - eapply fits_le; [|exact Hb]. apply Nat.Div0.div_le_upper_bound.
    assert (0 < g_node_len vec_size assoc_size G) by (unfold g_node_len; lia). nia.
  - destruct (g_frozen G =? 1); [by apply fits_4_8|done].
  - eapply fits_le; [|exact Hl]. unfold g_node_len. lia.
Qed.

Lemma max_degree_of b G :
  max_degree vec_size (header_of vec_size assoc_size b G) = Ok (g_max_degree G).
Proof.
  unfold max_degree, checked_sub, header_of. cbn [metadata dims node_len associated_data_length
    layout_version]. rewrite bool_decide_true by set_solver.
  rewrite usub_ok by (unfold g_node_len, g_vector_len; lia). cbn [mbind option_bind].
  rewrite usub_ok by (unfold g_node_len, g_vector_len; lia). cbn [mbind option_bind].
  replace (_ / 4) with (g_max_degree G + 1).
  - rewrite usub_ok by lia. f_equal. lia.
  - apply Nat.div_unique_exact; [done|]. unfold g_node_len, g_vector_len. lia.
Qed.

(** C4: the disk index is read back as it was written.  Given the three input files of a graph
    (vectors, neighbors within the maximum degree, associated data) and a block size that has room
    for the header, [create_disk_layout] succeeds, whatever the size of its caches, and touches no
    other file; and for every reader over the file it wrote, [get_header] returns a header with
    the degree bound and the medoid of the graph, and a provider made from that header serves
    after every sequence of batches exactly the vectors, neighbor lists and associated data of
    the vertices of the last batch. *)
Theorem disk_roundtrip (G : Graph) (w : DiskIndexWriter) recorded (s : Storage) :
  graph_ok vec_size assoc_size G →
  Forall (writable debug vec_size assoc_size G) (g_nodes G) → readable deserialize G →
  0 < RW → 8 + header_size ≤ w_block_size w → inputs_ok G w recorded s →
  fits 8 (g_node_len vec_size assoc_size G) →
  fits 8 (g_file_size vec_size assoc_size (w_block_size w) G) →
  DEFAULT_DISK_SECTOR_LEN ≤ g_file_size vec_size assoc_size (w_block_size w) G →
  w_block_size w mod alignment (R:=R) = 0 → DEFAULT_DISK_SECTOR_LEN mod alignment (R:=R) = 0 →
  ∃ s' file,
    create_disk_layout debug vec_size assoc_size RW w s = ret s' ∧
    s' = <[get_disk_index_file (index_path_prefix w) := file]> s ∧
    ∀ r : R, contents r = file →
      ∃ h, get_header r = ret h ∧ max_degree vec_size h = Ok (g_max_degree G) ∧
        medoid (metadata h) = g_medoid G ∧
        ∀ max_batch batches ids,
          Forall (λ ids, valid G ids ∧ NoDup ids) (batches ++ [ids]) →
          ∃ p, load_batches (VP:=disk_vertex_provider vec_size deserialize) (batches ++ [ids])
                 (provider_new vec_size h max_batch r) = ret p ∧
               serves vec_size deserialize G p ids.
Proof.
  intros HG Hw Hread HRW Hb Hin Hnl Hsize Hlen Hal Hal4.
  rewrite (create_disk_layout_ok debug vec_size assoc_size RW G HG w recorded s) by done.
  do 2 eexists. split; [done|]. split; [done|]. intros r Hr.
  exists (header_of vec_size assoc_size (w_block_size w) G). split_and!.
  - apply get_header_ok; try done; [by rewrite length_file|by apply header_of_ok].
  - apply max_degree_of.
  - done.
  - intros max_batch batches ids Hbs.
    destruct (load_batches_ok vec_size assoc_size (w_block_size w) deserialize G HG Hb Hal Hread
      (batches ++ [ids]) (provider_new vec_size (header_of vec_size assoc_size (w_block_size w) G)
      max_batch r)) as (p & -> & Hp & Hpg); [by apply provider_new_ok|done|].
    exists p. split; [done|]. eapply progress_serves; [exact Hp|]. apply Hpg. by rewrite last_snoc.
Qed.

(** Where the reader looks for a vertex. *)
Definition vertex_pos (g : DiskSectorGraph R) (id : nat) : nat :=
  node_sector_index id g * sg_block_size g + get_node_offset id g.

Lemma vertex_pos_eq b G r max_batch i :
  8 + header_size ≤ b →
  vertex_pos (sector_graph_new r (header_of vec_size assoc_size b G) max_batch) i =
  node_pos vec_size assoc_size b G i.
Proof.
  intros Hb. unfold vertex_pos, node_pos, sector_graph_new. cbn -[Nat.mul header_size].
  destruct (Nat.eqb_spec b 0); [lia|done].
Qed.

(** C30: the extents of the nodes on disk.  In a written index, the bytes at the place where the
    reader looks for a vertex lie after the first block, end within the file, do not overlap those
    of any other vertex, and are the bytes of that vertex. *)
Theorem node_extents (G : Graph) (b max_batch : nat) (r : R) i nd :
  graph_ok vec_size assoc_size G → 8 + header_size ≤ b → g_nodes G !! i = Some nd →
  let g := sector_graph_new r (header_of vec_size assoc_size b G) max_batch in
  let file := disk_file vec_size assoc_size b G in
  b ≤ vertex_pos g i ∧ vertex_pos g i + sg_node_len g ≤ length file ∧
  slice (vertex_pos g i) (sg_node_len g) file = Some (node_bytes G nd) ∧
  ∀ j, j ≠ i → vertex_pos g i + sg_node_len g ≤ vertex_pos g j ∨
               vertex_pos g j + sg_node_len g ≤ vertex_pos g i.
Proof.
  intros HG Hb Hi g file. assert (sg_node_len g = g_node_len vec_size assoc_size G) as -> by done.
  pose proof (λ i, vertex_pos_eq b G r max_batch i Hb) as Hpos. fold g in Hpos.
  destruct (node_in_file vec_size assoc_size b G HG Hb i nd Hi) as (Hle & Hlen & Hs).
  unfold slice in Hs at 1. rewrite Hlen in Hs. case_nat_in Hs; [|done]. apply (inj Some) in Hs as Et.
  rewrite take_drop_take, drop_drop in Et by done. rewrite Hpos.
  assert (node_pos vec_size assoc_size b G i + g_node_len vec_size assoc_size G ≤ length file)
    by (unfold node_pos, file; lia).
  split_and!; [unfold node_pos, sector_index; lia|done|unfold node_pos, file; by rewrite slice_ok, Et|].
  intros j Hj. rewrite Hpos. destruct (Nat.lt_total i j) as [Hij|[->|Hij]]; [|done|].
  - left. by apply node_pos_lt.
  - right. by apply node_pos_lt.
Qed.

End roundtrip.

(** ** A small index *)

(** Three vertices with vectors of two [f32], up to three neighbors and one [u32] of data. *)
Definition demo : Graph :=
  mkGraph 2 3 1 0 (Some 1)
    [mkNode (put 8 11) [1; 2] (put 4 70);
     mkNode (put 8 12) [2] (put 4 71);
     mkNode (put 8 13) [0; 1; 700] (put 4 72)].

Definition demo_writer (b : nat) : DiskIndexWriter := mkIndexWriter "data" "idx" (Some "assoc") b.

Definition demo_storage : Storage :=
  {[ "data" := dataset_bytes demo; "idx_mem.index" := vamana_bytes 0 demo;
     "assoc" := assoc_bytes demo ]}.

(** [bincode] reads a [u32]. *)
Definition demo_deserialize (l : list Z) : option nat := Some (get l).

(** A proposition about concrete numbers. *)
Ltac by_computing := vm_compute; repeat constructor; discriminate.

Lemma demo_ok : graph_ok 4 4 demo.
Proof. split; by_computing. Qed.

Lemma demo_writable : Forall (writable true 4 4 demo) (g_nodes demo).
Proof. repeat constructor; try discriminate; by_computing. Qed.

Lemma demo_inputs b : inputs_ok demo (demo_writer b) 0 demo_storage.
Proof. split; vm_compute; reflexivity. Qed.

Lemma demo_batches : Forall (λ ids, valid demo ids ∧ NoDup ids) ([[1]] ++ [[2; 0]]).
Proof. unfold valid. apply (bool_decide_unpack _). by vm_compute. Qed.

(** The index is written with caches of 16 bytes, and batches are read from it. *)
Lemma disk_roundtrip_witness :
  ∃ s' r h p,
    create_disk_layout true 4 4 16 (demo_writer 4096) demo_storage = ret s' ∧
    storage_reader_new s' "idx_disk.index" = ret r ∧ get_header r = ret h ∧
    load_batches (VP:=disk_vertex_provider 4 demo_deserialize) [[1]; [2; 0]] (provider_new 4 h 1 r) = ret p ∧
    get_vector 4 2 p = ret (put 8 13) ∧ get_adjacency_list 2 p = ret [0; 1; 700] ∧
    get_associated_data 0 p = ret 70.
Proof.
  destruct (disk_roundtrip (R:=StorageProviderAlignedFileReader) true 4 4 16 demo_deserialize
    demo (demo_writer 4096) 0 demo_storage demo_ok demo_writable) as (s' & file & Hs & -> & Hr).
  { intros id nd _. by eexists. }
  { lia. }
  { apply Nat.leb_le. by vm_compute. }
  { apply demo_inputs. }
  { by vm_compute. }
  { by vm_compute. }
  { apply Nat.leb_le. by vm_compute. }
  { apply Nat.mod_1_r. }
  { apply Nat.mod_1_r. }
  destruct (Hr (mkStorageReader file) eq_refl) as (h & Hh & _ & _ & Hload).
  destruct (Hload 1 [[1]] [2; 0] demo_batches) as (p & Hp & Hserve).
  destruct (Hserve 2 (mkNode (put 8 13) [0; 1; 700] (put 4 72))) as (Hv & Ha & _);
    [by left|done|].
  destruct (Hserve 0 (mkNode (put 8 11) [1; 2] (put 4 70))) as (_ & _ & a & Ea & Hd);
    [by right; left|done|].
  do 4 eexists. split_and!; [exact Hs| |exact Hh|exact Hp|exact Hv|exact Ha|].
  - apply storage_reader_new_ok. apply lookup_insert_eq.
  - rewrite Hd. unfold demo_deserialize in Ea. injection Ea as <-. by rewrite get_put.
Defined.

(** The extents of vertex 1 in blocks of 128 bytes, four nodes to a block. *)
Lemma node_extents_witness :
  let g := sector_graph_new (mkStorageReader []) (header_of 4 4 128 demo) 2 in
  vertex_pos g 1 = 128 + 28 ∧ vertex_pos g 2 = 128 + 56 ∧
  slice (128 + 28) 28 (disk_file 4 4 128 demo) =
    Some (node_bytes demo (mkNode (put 8 12) [2] (put 4 71))).
Proof.
  destruct (node_extents (R:=StorageProviderAlignedFileReader) 4 4 demo 128 2 (mkStorageReader []) 1
    (mkNode (put 8 12) [2] (put 4 71)) demo_ok) as (_ & _ & Hs & _).
  { apply Nat.leb_le. by vm_compute. }
  { done. }
  split; [by vm_compute|]. split; [by vm_compute|]. exact Hs.
Defined.

(** ** Outside the hypotheses *)

(** [DiskIndexWriter::new] accepts a block size that has room for the metadata but not for the
    header with its prefix: the header then overwrites the first node. *)
Lemma small_block_overwrites_node :
  index_writer_new "data" "idx" (Some "assoc") 80 = Ok (demo_writer 80) ∧
  (let* s := create_disk_layout true 4 4 16 (demo_writer 80) demo_storage in
   lift (s !! "idx_disk.index" ≫= slice 80 28)) ≠
  ret (node_bytes demo (mkNode (put 8 11) [1; 2] (put 4 70))).
Proof. split; [by vm_compute|]. by vm_compute. Qed.

(** An index of less than 4096 bytes is written, but asking the storage-provider reader for its
    header reads past the end of the file and panics. *)
Lemma short_index_has_no_header :
  (let* s := create_disk_layout true 4 4 16 (demo_writer 512) demo_storage in
   let* r := storage_reader_new s "idx_disk.index" in get_header r) = None.
Proof. by vm_compute. Qed.

(** A batch that names a vertex twice: the third vertex is served with the neighbors of the
    first, because the place of its list is taken from the number of distinct vertices. *)
Lemma repeated_vertex_shifts_lists :
  (let* p := load_batches (VP:=disk_vertex_provider 4 demo_deserialize) [[0; 0; 1]]
               (provider_new 4 (header_of 4 4 128 demo) 4 (mkStorageReader (disk_file 4 4 128 demo))) in
   get_adjacency_list 1 p) = ret [1; 2] ∧ n_nbrs <$> g_nodes demo !! 1 = Some [2].
Proof. split; by vm_compute. Qed.
