(* ===== verification/DiskCache.v ===== *)
(** * The node cache of the disk index

    - Section [cache]: [Cache] ([diskann-disk/src/data_model/cache.rs]);
    - Section [provider]: [CachedDiskVertexProvider] ([search/provider/cached_disk_vertex_provider.rs]),
      which serves cached vertices from memory and the others through the disk provider;
    - Section [factory]: [DiskVertexProviderFactory] ([disk_vertex_provider_factory.rs]): filling
      the cache breadth first from the medoid and creating providers.

    The loop of [build_cache_via_bfs] has fuel; running out of it would be [None], and the theorem
    shows that it does not happen.  The order of ids with which [AdjacencyList] sorts is that of
    the numbers. *)

From stdpp Require Import relations.
From S2P Require Import DiskIo DiskHeader DiskLayout DiskGraph DiskRoundtrip AdjacencyList.

Definition BEAM_WIDTH_FOR_BFS : nat := 32.

(** [AdjacencyList::from_iter_untrusted] on vertex ids. *)
Definition untrusted (ids : list nat) : AdjacencyList nat := al_from_iter_untrusted (≤) ids.

Section cache.

Context {A : Type} (vec_size : nat).

Record Cache := mkCache {
  mapping : gmap nat nat;
  vectors : list Z;
  adjacency_lists : list (AdjacencyList nat);
  associated_data : list A;
  dimension : nat;
  capacity : nat;
}.

Definition cache_new (dimension capacity : nat) : Cache :=
  mkCache ∅ (replicate (capacity * dimension * vec_size) 0%Z) [] [] dimension capacity.

Definition cache_contains (id : nat) (c : Cache) : bool := bool_decide (is_Some (mapping c !! id)).
Definition cache_len (c : Cache) : nat := size (mapping c).

(** The getters: [None] when the vertex is not cached. *)
Definition cache_get_vector (id : nat) (c : Cache) : comp (option (list Z)) :=
  match mapping c !! id with
  | Some idx => let* v := lift (slice (idx * dimension c * vec_size) (dimension c * vec_size)
                                  (vectors c)) in ret (Some v)
  | None => ret None
  end.

Definition cache_get_adjacency_list (id : nat) (c : Cache) : comp (option (AdjacencyList nat)) :=
  match mapping c !! id with
  | Some idx => let* l := lift (adjacency_lists c !! idx) in ret (Some l)
  | None => ret None
  end.

Definition cache_get_associated_data (id : nat) (c : Cache) : comp (option A) :=
  match mapping c !! id with
  | Some idx => let* a := lift (associated_data c !! idx) in ret (Some a)
  | None => ret None
  end.

(** [copy_to_cache]: the vector goes to its place, the lists to the end. *)
Definition copy_to_cache (idx : nat) (vector : list Z) (adj : AdjacencyList nat) (a : A) (c : Cache) :
    option Cache :=
  vs ← copy_at (idx * dimension c * vec_size) vector (vectors c);
  Some (mkCache (mapping c) vs (adjacency_lists c ++ [adj]) (associated_data c ++ [a])
          (dimension c) (capacity c)).

Definition cache_insert (id : nat) (vector : list Z) (adj : AdjacencyList nat) (a : A) (c : Cache) :
    comp Cache :=
  if negb (dimension c * vec_size =? length vector) then throw IndexError
  else
    match mapping c !! id with
    | Some idx => lift (copy_to_cache idx vector adj a c)
    | None =>
        if capacity c <=? size (mapping c) then throw IndexError
        else
          let idx := size (mapping c) in
          lift (copy_to_cache idx vector adj a
                  (mkCache (<[id := idx]> (mapping c)) (vectors c) (adjacency_lists c)
                     (associated_data c) (dimension c) (capacity c)))
    end.

End cache.
Arguments Cache A : clear implicits.

Section provider.

Context {R A : Type} {AR : AlignedFileReader R}.
Context (vec_size : nat) (deserialize : list Z → option A).

Record CachedDiskVertexProvider := mkCachedProvider {
  cp_cache : Cache A;
  vector_provider : DiskVertexProvider R A;
  local_idx_to_filtered_idx : gmap nat nat;   (* [nodes_to_fetch_local_idx_to_filtered_idx] *)
  vertices_loaded_count : nat;
}.

Definition cached_provider_new (h : GraphHeader) (max_batch : nat) (r : R) (c : Cache A) :
    CachedDiskVertexProvider :=
  mkCachedProvider c (provider_new vec_size h max_batch r) ∅ 0.

Definition cached_get_vector (id : nat) (p : CachedDiskVertexProvider) : comp (list Z) :=
  let* o := cache_get_vector vec_size id (cp_cache p) in
  match o with Some v => ret v | None => get_vector vec_size id (vector_provider p) end.

Definition cached_get_adjacency_list (id : nat) (p : CachedDiskVertexProvider) : comp (list nat) :=
  let* o := cache_get_adjacency_list id (cp_cache p) in
  match o with Some l => ret (edges l) | None => get_adjacency_list id (vector_provider p) end.

Definition cached_get_associated_data (id : nat) (p : CachedDiskVertexProvider) : comp A :=
  let* o := cache_get_associated_data id (cp_cache p) in
  match o with Some a => ret a | None => get_associated_data id (vector_provider p) end.

(** [filter_cached_nodes]: the uncached ids, and the place of each in the filtered list. *)
Fixpoint filter_cached_nodes (idx : nat) (ids uncached : list nat) (m : gmap nat nat) (c : Cache A) :
    list nat * gmap nat nat :=
  match ids with
  | [] => (uncached, m)
  | id :: ids =>
      if cache_contains id c then filter_cached_nodes (S idx) ids uncached m c
      else filter_cached_nodes (S idx) ids (uncached ++ [id]) (<[idx := length uncached]> m) c
  end.

Definition cached_load_vertices (ids : list nat) (p : CachedDiskVertexProvider) :
    comp CachedDiskVertexProvider :=
  let count := vertices_loaded_count p + length ids in
  let '(uncached, m) := filter_cached_nodes 0 ids [] ∅ (cp_cache p) in
  if bool_decide (uncached = []) then ret (mkCachedProvider (cp_cache p) (vector_provider p) m count)
  else
    let* vp := load_vertices vec_size uncached (vector_provider p) in
    ret (mkCachedProvider (cp_cache p) vp m count).

Definition cached_process_loaded_node (id idx : nat) (p : CachedDiskVertexProvider) :
    comp CachedDiskVertexProvider :=
  if cache_contains id (cp_cache p) then ret p
  else
    let* idx := lift (local_idx_to_filtered_idx p !! idx) in
    let* vp := process_loaded_node vec_size deserialize id idx (vector_provider p) in
    ret (mkCachedProvider (cp_cache p) vp (local_idx_to_filtered_idx p) (vertices_loaded_count p)).

Definition cached_clear (p : CachedDiskVertexProvider) : CachedDiskVertexProvider :=
  mkCachedProvider (cp_cache p) (provider_clear (vector_provider p)) ∅ 0.

#[local] Instance cached_vertex_provider : VertexProvider CachedDiskVertexProvider A := {
  vp_get_vector := cached_get_vector;
  vp_get_adjacency_list := cached_get_adjacency_list;
  vp_get_associated_data := cached_get_associated_data;
  vp_load_vertices := cached_load_vertices;
  vp_process_loaded_node := cached_process_loaded_node;
  vp_io_operations p := io_operations (vector_provider p);
  vp_vertices_loaded_count := vertices_loaded_count;
  vp_clear := cached_clear;
}.

End provider.
Arguments CachedDiskVertexProvider R A : clear implicits.

Section factory.

Context {R A : Type} {AR : AlignedFileReader R}.
Context (vec_size : nat) (deserialize : list Z → option A).

(** [insert_in_cache] *)
Definition insert_in_cache (node idx : nat) (p : DiskVertexProvider R A) (c : Cache A) :
    comp (DiskVertexProvider R A * Cache A) :=
  let* p := process_loaded_node vec_size deserialize node idx p in
  let* vector := get_vector vec_size node p in
  let* adj := get_adjacency_list node p in
  let* a := get_associated_data node p in
  let* c := cache_insert vec_size node vector (untrusted adj) a c in
  ret (p, c).

(** The loop over the neighbors of a cached node. *)
Fixpoint enqueue (nbrs : list nat) (queue : list nat) (visited : gset nat) : list nat * gset nat :=
  match nbrs with
  | [] => (queue, visited)
  | x :: nbrs =>
      if bool_decide (x ∈ visited) then enqueue nbrs queue visited
      else enqueue nbrs (queue ++ [x]) ({[x]} ∪ visited)
  end.

(** The loop over a batch, left when the cache is full. *)
Fixpoint cache_batch (n idx : nat) (batch queue : list nat) (visited : gset nat)
    (p : DiskVertexProvider R A) (c : Cache A) :
    comp (list nat * gset nat * DiskVertexProvider R A * Cache A) :=
  match batch with
  | [] => ret (queue, visited, p, c)
  | node :: batch =>
      let* (p, c) := insert_in_cache node idx p c in
      let* o := cache_get_adjacency_list node c in
      match o with
      | None => throw IndexError
      | Some adj =>
          let '(queue, visited) := enqueue (edges adj) queue visited in
          if n <=? cache_len c then ret (queue, visited, p, c)
          else cache_batch n (S idx) batch queue visited p c
      end
  end.

(** The [while] loop. *)
Fixpoint bfs (fuel n : nat) (queue : list nat) (visited : gset nat) (p : DiskVertexProvider R A)
    (c : Cache A) : comp (Cache A) :=
  if bool_decide (queue = []) || (n <=? cache_len c) then ret c
  else
    match fuel with
    | 0 => None
    | S fuel =>
        let batch_size := length queue `min` BEAM_WIDTH_FOR_BFS in
        let batch := take batch_size queue in
        let queue := drop batch_size queue in
        let* p := load_vertices vec_size batch p in
        let* (queue, visited, p, c) := cache_batch n 0 batch queue visited p c in
        bfs fuel n queue visited p c
    end.

(** [build_cache_via_bfs], with a reader from the factory. *)
Definition build_cache_via_bfs (r : R) (start_node n dimension : nat) : comp (Cache A) :=
  let* h := get_header r in
  let p := provider_new vec_size h BEAM_WIDTH_FOR_BFS r in
  bfs n n [start_node] {[start_node]} p (cache_new vec_size dimension n).

Inductive CachingStrategy := NoCaching | StaticCacheWithBfsNodes (n : nat).

(** [setup_cache] *)
Definition setup_cache (r : R) (strategy : CachingStrategy) : comp (option (Cache A)) :=
  match strategy with
  | StaticCacheWithBfsNodes n =>
      if n =? 0 then throw IndexError
      else
        let* h := get_header r in
        let m := metadata h in
        let n := if num_pts m <? n then num_pts m else n in
        let* c := build_cache_via_bfs r (medoid m) n (dims m) in
        ret (Some c)
  | NoCaching => ret None
  end.

(** [create_vertex_provider] *)
Definition create_vertex_provider (r : R) (strategy : CachingStrategy) (cache : option (Cache A))
    (max_batch : nat) (h : GraphHeader) : comp (CachedDiskVertexProvider R A) :=
  match strategy with
  | StaticCacheWithBfsNodes _ =>
      match cache with
      | Some c => ret (cached_provider_new vec_size h max_batch r c)
      | None => throw IndexError
      end
  | NoCaching => ret (cached_provider_new vec_size h max_batch r (cache_new vec_size 0 0))
  end.

End factory.

(** ** The contents of the cache *)

Section contents.

Context {R A : Type} {AR : AlignedFileReader R} {RL : ReaderLaws R}.
Context (vec_size assoc_size b : nat) (deserialize : list Z → option A) (G : Graph).
Hypothesis (HG : graph_ok vec_size assoc_size G).
Hypothesis (Hb : 8 + header_size ≤ b).
Hypothesis (Hal : b mod alignment (R:=R) = 0).
Hypothesis (Hread : readable deserialize G).

#[local] Abbreviation W := (g_dims G * vec_size).
#[local] Abbreviation provider_ok := (provider_ok (R:=R) (A:=A) vec_size assoc_size b G).
#[local] Abbreviation progress := (progress (R:=R) vec_size deserialize G).

(** The cache holds the vertices [ids], inserted in this order. *)
Record caches (c : Cache A) (ids : list nat) : Prop := {
  ch_map : indexed (λ k, k) (mapping c) ids;
  ch_adj : Forall2 (λ id l, ∃ nd, g_nodes G !! id = Some nd ∧ l = untrusted (n_nbrs nd))
             ids (adjacency_lists c);
  ch_data : Forall2 (λ id a, ∃ nd, g_nodes G !! id = Some nd ∧ deserialize (n_data nd) = Some a)
              ids (associated_data c);
  ch_vec : slots G W (vectors c) ids;
  ch_dim : ids ≠ [] → dimension c = g_dims G;
}.

Lemma caches_empty d n : caches (cache_new vec_size d n) [].
Proof. split; try done; try constructor; done. Qed.

Lemma cache_contains_spec c ids id : caches c ids → cache_contains id c = bool_decide (id ∈ ids).
Proof.
  intros Hc. unfold cache_contains. apply bool_decide_ext. split.
  - intros [k Hk]. destruct (decide (id ∈ ids)) as [|Hn]; [done|].
    by rewrite (ix_dom _ _ _ (ch_map _ _ Hc) id Hn) in Hk.
  - intros [k Hk]%list_elem_of_lookup. eexists. by apply (ix_lookup _ _ _ (ch_map _ _ Hc)).
Qed.

(** What the getters return for a cached vertex, and for one that is not. *)
Lemma cache_hit c ids id nd :
  caches c ids → id ∈ ids → g_nodes G !! id = Some nd →
  cache_get_vector vec_size id c = ret (Some (n_vector nd)) ∧
  cache_get_adjacency_list id c = ret (Some (untrusted (n_nbrs nd))) ∧
  ∃ a, deserialize (n_data nd) = Some a ∧ cache_get_associated_data id c = ret (Some a).
Proof.
  intros [Hm Hadj Hdat Hvec Hdim] Hin Hnd. assert (dimension c = g_dims G) as Hd.
  { apply Hdim. intros ->. by apply not_elem_of_nil in Hin. }
  apply list_elem_of_lookup in Hin as [k Hk].
  unfold cache_get_vector, cache_get_adjacency_list, cache_get_associated_data.
  rewrite (ix_lookup _ _ _ Hm k id Hk), Hd, <-Nat.mul_assoc, (Hvec k id nd Hk Hnd).
  destruct (Forall2_lookup_l _ _ _ _ _ Hadj Hk) as (l & -> & nd1 & E1 & ->).
  destruct (Forall2_lookup_l _ _ _ _ _ Hdat Hk) as (a & -> & nd2 & E2 & Ha). simplify_eq. eauto.
Qed.

Lemma cache_miss c ids id :
  caches c ids → id ∉ ids →
  cache_get_vector vec_size id c = ret None ∧ cache_get_adjacency_list id c = ret None ∧
  cache_get_associated_data id c = ret None.
Proof.
  intros Hc Hn. unfold cache_get_vector, cache_get_adjacency_list, cache_get_associated_data.
  by rewrite (ix_dom _ _ _ (ch_map _ _ Hc) id Hn).
Qed.

Lemma cache_insert_ok c ids id nd a :
  caches c ids → dimension c = g_dims G → length (vectors c) = capacity c * W →
  length ids < capacity c → id ∉ ids → g_nodes G !! id = Some nd →
  deserialize (n_data nd) = Some a →
  ∃ c', cache_insert vec_size id (n_vector nd) (untrusted (n_nbrs nd)) a c = ret c' ∧
        caches c' (ids ++ [id]) ∧ dimension c' = dimension c ∧ capacity c' = capacity c ∧
        length (vectors c') = length (vectors c).
Proof.
  intros [Hm Hadj Hdat Hvec Hdim] Hd Hl Hcap Hni Hnd Ha.
  pose proof (Forall_lookup_1 _ _ _ _ (gk_nodes _ _ _ HG) Hnd) as Hn.
  pose proof (nk_vector _ _ _ _ Hn) as Hv. unfold g_vector_len in Hv.
  unfold cache_insert, copy_to_cache. rewrite Hd, Hv, Nat.eqb_refl. cbn [negb].
  rewrite (ix_dom _ _ _ Hm id Hni), (ix_size _ _ _ Hm). case_nat; [lia|].
  cbn [dimension vectors]. rewrite <-Nat.mul_assoc.
  assert (Hfit : length ids * W + W ≤ length (vectors c)).
  { rewrite Hl. transitivity (S (length ids) * W); [simpl; lia|]. by apply Nat.mul_le_mono_r. }
  destruct (copy_at (length ids * W) (n_vector nd) (vectors c)) as [vs|] eqn:Hc;
    [|by rewrite copy_at_ok in Hc by lia].
  cbn [mbind option_bind lift]. eexists; split; [done|].
  split; [|split_and!; try done; cbn [vectors]; by eapply copy_at_length]. split.
  - exact (indexed_snoc _ _ _ _ Hm Hni).
  - apply Forall2_app; [done|]. constructor; [eauto|constructor].
  - apply Forall2_app; [done|]. constructor; [eauto|constructor].
  - by eapply slots_snoc.
  - done.
Qed.

(** A processed vertex goes into the cache. *)
Lemma insert_in_cache_ok p c done ids id nd :
  provider_ok p → progress p done → length done < max_batch_size p → id ∉ done →
  get_sector_buf (length done) (sector_graph p) =
    Some (take (sectors_per_node vec_size assoc_size b G * b)
            (drop (sector_index vec_size assoc_size b G id * b) (disk_file vec_size assoc_size b G))) →
  caches c ids → dimension c = g_dims G → length (vectors c) = capacity c * W →
  length ids < capacity c → id ∉ ids → g_nodes G !! id = Some nd →
  ∃ p' c', insert_in_cache vec_size deserialize id (length done) p c = ret (p', c') ∧
    provider_ok p' ∧ sector_graph p' = sector_graph p ∧ max_batch_size p' = max_batch_size p ∧
    progress p' (done ++ [id]) ∧ caches c' (ids ++ [id]) ∧ dimension c' = dimension c ∧
    capacity c' = capacity c ∧ length (vectors c') = length (vectors c).
Proof.
  intros Hp Hpg Hlt Hnd Hsec Hc Hd Hl Hcap Hni Hnode. destruct (Hread id nd Hnode) as [a Ha].
  destruct (process_loaded_node_ok vec_size assoc_size b deserialize G HG Hb Hal
    p done id nd a (length done)) as (p' & Ep & Hp' & Hg & Hm & Hpg'); try done.
  destruct (progress_serves _ _ _ _ _ p' _ Hp' Hpg' id nd) as (Ev & El & a' & Ea & Ed);
    [apply elem_of_app; right; by apply list_elem_of_singleton|done|].
  unfold insert_in_cache. rewrite Ep, comp_bind_ret, Ev, comp_bind_ret, El, comp_bind_ret, Ed,
    comp_bind_ret.
  destruct (cache_insert_ok c ids id nd a' Hc Hd Hl Hcap Hni Hnode Ea) as (c' & -> & ?).
  rewrite comp_bind_ret. eauto 12.
Qed.

End contents.

(** ** Breadth-first filling *)

Section breadth.

Context {R A : Type} {AR : AlignedFileReader R} {RL : ReaderLaws R}.
Context (vec_size assoc_size b : nat) (deserialize : list Z → option A) (G : Graph).
Hypothesis (HG : graph_ok vec_size assoc_size G).
Hypothesis (Hb : 8 + header_size ≤ b).
Hypothesis (Hal : b mod alignment (R:=R) = 0).
Hypothesis (Hread : readable deserialize G).

#[local] Abbreviation W := (g_dims G * vec_size).
#[local] Abbreviation provider_ok := (provider_ok (R:=R) (A:=A) vec_size assoc_size b G).
#[local] Abbreviation progress := (progress (R:=R) vec_size deserialize G).
#[local] Abbreviation caches := (caches vec_size deserialize G).

(** The edges of the graph, and the vertices reachable from [start]. *)
Definition edge (u v : nat) : Prop := ∃ nd, g_nodes G !! u = Some nd ∧ v ∈ n_nbrs nd.
Definition reach (start v : nat) : Prop := rtc edge start v.
(** The neighbors of every vertex are vertices. *)
Definition closed : Prop := ∀ u v, edge u v → v < length (g_nodes G).

Hypothesis (Hclosed : closed).

Lemma reach_valid start v : start < length (g_nodes G) → reach start v → v < length (g_nodes G).
Proof.
  intros Hs. apply (rtc_ind_r (λ v, v < length (g_nodes G)) start); [done|].
  intros u w _ He _. by apply (Hclosed u).
Qed.

Lemma elem_of_untrusted ids x : x ∈ edges (untrusted ids) ↔ x ∈ ids.
Proof. apply (from_iter_untrusted_ok (≤) ids). Qed.

(** [enqueue] adds the unvisited neighbors, once each. *)
Lemma enqueue_spec nbrs : ∀ queue visited,
  ∃ new visited', enqueue nbrs queue visited = (queue ++ new, visited') ∧ NoDup new ∧
    (∀ x, x ∈ new ↔ x ∈ nbrs ∧ x ∉ visited) ∧ (∀ x, x ∈ visited' ↔ x ∈ visited ∨ x ∈ new).
Proof.
  induction nbrs as [|x nbrs IH]; intros queue visited; simpl.
  { exists [], visited. rewrite app_nil_r. split_and!; [done|constructor|set_solver..]. }
  case_bool_decide as Hx.
  - destruct (IH queue visited) as (new & v' & -> & Hnd & Hn & Hv). exists new, v'.
    split_and!; [done|done| |done]. intros y. rewrite Hn, elem_of_cons. naive_solver.
  - destruct (IH (queue ++ [x]) ({[x]} ∪ visited)) as (new & v' & -> & Hnd & Hn & Hv).
    exists (x :: new), v'. rewrite <-app_assoc. split_and!; [done| | |].
    + constructor; [|done]. rewrite Hn. set_solver.
    + intros y. rewrite !elem_of_cons, Hn, elem_of_union, elem_of_singleton.
      destruct (decide (y = x)); naive_solver.
    + intros y. rewrite Hv, elem_of_union, elem_of_singleton, elem_of_cons. naive_solver.
Qed.

(** [cs] are cached, [todo] are still to be cached, both are visited. *)
Record frontier (start : nat) (cs todo : list nat) (visited : gset nat) : Prop := {
  fr_nodup : NoDup (cs ++ todo);
  fr_visited : ∀ x, x ∈ visited ↔ x ∈ cs ++ todo;
  fr_head : head (cs ++ todo) = Some start;
  fr_reach : ∀ x, x ∈ cs ++ todo → reach start x;
  fr_closed : ∀ x y, x ∈ cs → edge x y → y ∈ cs ++ todo;
}.

(** Caching the first vertex and visiting its neighbors. *)
Lemma frontier_step start cs x todo visited nd new visited' :
  frontier start cs (x :: todo) visited → g_nodes G !! x = Some nd → NoDup new →
  (∀ y, y ∈ new ↔ y ∈ n_nbrs nd ∧ y ∉ visited) → (∀ y, y ∈ visited' ↔ y ∈ visited ∨ y ∈ new) →
  frontier start (cs ++ [x]) (todo ++ new) visited'.
Proof.
  intros [Hnd Hv Hh Hr Hc] Hx Hnew Hin Hv'.
  assert (E : (cs ++ [x]) ++ todo ++ new = (cs ++ x :: todo) ++ new) by (by rewrite <-!app_assoc).
  assert (Hrx : reach start x) by (apply Hr; apply elem_of_app; right; by left).
  split; try rewrite E.
  - apply NoDup_app. split_and!; [done| |done]. intros y Hy Hy'. apply Hin in Hy' as [_ Hy'].
    apply Hy'. by apply Hv.
  - intros y. by rewrite Hv', Hv, (elem_of_app (cs ++ x :: todo)).
  - by destruct cs.
  - intros y [Hy|Hy]%elem_of_app; [by apply Hr|]. apply Hin in Hy as [Hy _].
    eapply rtc_r; [exact Hrx|]. by exists nd.
  - intros u y [Hu|Hu%list_elem_of_singleton]%elem_of_app He; rewrite elem_of_app.
    + left. by apply (Hc u).
    + subst. destruct He as (nd' & Hx' & Hy). simplify_eq. rewrite <-Hv.
      destruct (decide (y ∈ visited)); [by left|right]. by apply Hin.
Qed.

(** The cache a batch or the whole loop leaves. *)
Record filled (start n : nat) (cs : list nat) : Prop := {
  fl_nodup : NoDup cs;
  fl_len : length cs ≤ n;
  fl_head : 0 < n → head cs = Some start;
  fl_reach : ∀ x, x ∈ cs → reach start x;
  fl_all : length cs < n → ∀ x, reach start x → x ∈ cs;
}.

Lemma frontier_full start n cs todo visited :
  frontier start cs todo visited → length cs = n → filled start n cs.
Proof.
  intros [Hnd Hv Hh Hr Hc] Hl. split; try lia.
  - by apply NoDup_app in Hnd as [? _].
  - intros Hn. destruct cs; [simpl in *; lia|done].
  - intros x Hx. apply Hr, elem_of_app. by left.
Qed.

Lemma frontier_empty start n cs visited :
  frontier start cs [] visited → length cs ≤ n → filled start n cs.
Proof.
  intros [Hnd Hv Hh Hr Hc] Hl. rewrite app_nil_r in *. split; try done.
  intros _. apply (rtc_ind_r (λ v, v ∈ cs) start).
  - destruct cs; [done|]. simpl in Hh. simplify_eq. by left.
  - intros u w _ He Hu. exact (Hc u w Hu He).
Qed.

(** A cache of capacity [n] for this graph. *)
Record sized (n : nat) (c : Cache A) : Prop := {
  sz_dim : dimension c = g_dims G;
  sz_cap : capacity c = n;
  sz_len : length (vectors c) = n * W;
}.

#[local] Abbreviation sector i :=
  (take (sectors_per_node vec_size assoc_size b G * b)
     (drop (sector_index vec_size assoc_size b G i * b) (disk_file vec_size assoc_size b G))).

(** One vertex of a batch. *)
Lemma cache_one start n p c done cs x todo visited :
  start < length (g_nodes G) → provider_ok p → progress p done → length done < max_batch_size p →
  x ∉ done → get_sector_buf (length done) (sector_graph p) = Some (sector x) →
  caches c cs → sized n c → length cs < n → frontier start cs (x :: todo) visited →
  ∃ p' c' l, insert_in_cache vec_size deserialize x (length done) p c = ret (p', c') ∧
    provider_ok p' ∧ sector_graph p' = sector_graph p ∧ max_batch_size p' = max_batch_size p ∧
    progress p' (done ++ [x]) ∧ caches c' (cs ++ [x]) ∧ sized n c' ∧
    cache_get_adjacency_list x c' = ret (Some l) ∧
    ∀ queue, ∃ new visited', enqueue (edges l) queue visited = (queue ++ new, visited') ∧
      frontier start (cs ++ [x]) (todo ++ new) visited'.
Proof.
  intros Hst Hp Hpg Hlt Hnd Hsec Hc [Hd Hcap Hl] Hlen Hf.
  assert (Hx : x < length (g_nodes G)).
  { apply (reach_valid start); [done|]. apply (fr_reach _ _ _ _ Hf), elem_of_app. right. by left. }
  apply lookup_lt_is_Some_2 in Hx as [nd Hx].
  assert (Hni : x ∉ cs).
  { intros Hin. pose proof (fr_nodup _ _ _ _ Hf) as Hnd'. apply NoDup_app in Hnd' as (_ & Hdis & _).
    apply (Hdis x Hin). by left. }
  destruct (insert_in_cache_ok vec_size assoc_size b deserialize G HG Hb Hal Hread p c done cs x nd)
    as (p' & c' & E & Hp' & Hg & Hm & Hpg' & Hc' & Hd' & Hcap' & Hl'); try done; try congruence.
  destruct (cache_hit vec_size deserialize G c' (cs ++ [x]) x nd Hc') as (_ & Eadj & _);
    [apply elem_of_app; right; by apply list_elem_of_singleton|done|].
  exists p', c', (untrusted (n_nbrs nd)). split_and!; try done; [by split; congruence|].
  intros queue. destruct (enqueue_spec (edges (untrusted (n_nbrs nd))) queue visited)
    as (new & v' & -> & Hnew & Hin & Hv'). exists new, v'. split; [done|].
  eapply frontier_step; try done. intros y. by rewrite Hin, elem_of_untrusted.
Qed.

Lemma cache_batch_ok start n batch : ∀ done cs queue visited p c,
  start < length (g_nodes G) → provider_ok p → progress p done →
  length (done ++ batch) ≤ max_batch_size p → NoDup (done ++ batch) →
  (∀ k x, batch !! k = Some x →
     get_sector_buf (length done + k) (sector_graph p) = Some (sector x)) →
  caches c cs → sized n c → length cs < n → frontier start cs (batch ++ queue) visited →
  ∃ queue' visited' p' c' cs',
    cache_batch vec_size deserialize n (length done) batch queue visited p c =
      ret (queue', visited', p', c') ∧
    provider_ok p' ∧ caches c' cs' ∧ sized n c' ∧ length cs' ≤ n ∧
    length cs + 1 `min` length batch ≤ length cs' ∧
    (length cs' = n ∧ filled start n cs' ∨ frontier start cs' queue' visited').
Proof.
  induction batch as [|x batch IH];
    intros done cs queue visited p c Hst Hp Hpg Hle Hnd Hsec Hc Hsz Hlen Hf; cbn [cache_batch].
  { exists queue, visited, p, c, cs. split_and!; try done; [lia|simpl; lia|by right]. }
  assert (Hx : x ∉ done).
  { intros Hin. apply NoDup_app in Hnd as (_ & Hd & _). apply (Hd x Hin). by left. }
  rewrite length_app in Hle. cbn [length] in Hle. pose proof (Hsec 0 x eq_refl) as Hs0.
  rewrite Nat.add_0_r in Hs0.
  destruct (cache_one start n p c done cs x (batch ++ queue) visited)
    as (p1 & c1 & l & -> & Hp1 & Hg1 & Hm1 & Hpg1 & Hc1 & Hsz1 & El & Hq); try done; [lia|].
  rewrite comp_bind_ret, El, comp_bind_ret. destruct (Hq queue) as (new & v' & -> & Hf').
  rewrite <-app_assoc in Hf'. unfold cache_len. rewrite (ix_size _ _ _ (ch_map _ _ _ _ _ Hc1)), length_app.
  cbn [length]. case_nat.
  - exists (queue ++ new), v', p1, c1, (cs ++ [x]). rewrite length_app. cbn [length].
    split_and!; try done; [lia|]. left. split; [lia|]. eapply frontier_full; [exact Hf'|].
    rewrite length_app. simpl. lia.
  - replace (S (length done)) with (length (done ++ [x])) by (rewrite length_app; simpl; lia).
    rewrite (cons_middle x done batch), app_assoc in Hnd.
    destruct (IH (done ++ [x]) (cs ++ [x]) (queue ++ new) v' p1 c1)
      as (q2 & v2 & p2 & c2 & cs2 & -> & H2); try done.
    + rewrite Hm1, !length_app. simpl. lia.
    + intros k y Hk. rewrite Hg1, length_app, <-Nat.add_assoc. by apply (Hsec (S k)).
    + rewrite length_app. simpl. lia.
    + destruct H2 as (? & ? & ? & ? & Hlen2 & ?). rewrite length_app in Hlen2. simpl in Hlen2.
      exists q2, v2, p2, c2, cs2. split_and!; try done. lia.
Qed.

Lemma bfs_exit start n cs queue visited :
  length cs ≤ n → length cs = n ∧ filled start n cs ∨ frontier start cs queue visited →
  bool_decide (queue = []) || (n <=? length cs) = true → filled start n cs.
Proof.
  intros Hlen [[_ Hf]|Hf] [Hq%bool_decide_eq_true|Hn%Nat.leb_le]%orb_true_iff; try done.
  - subst. by eapply frontier_empty.
  - eapply frontier_full; [exact Hf|lia].
Qed.

(** The loop ends within its fuel and leaves a filled cache. *)
Lemma bfs_ok start n fuel : ∀ cs queue visited p c,
  start < length (g_nodes G) → provider_ok p →
  caches c cs → sized n c → length cs ≤ n → n - length cs ≤ fuel →
  (length cs = n ∧ filled start n cs ∨ frontier start cs queue visited) →
  ∃ c' cs', bfs vec_size deserialize fuel n queue visited p c = ret c' ∧ caches c' cs' ∧
            filled start n cs'.
Proof.
  induction fuel as [|fuel IH]; intros cs queue visited p c Hst Hp Hc Hsz Hlen Hfuel Hf;
    cbn [bfs]; unfold cache_len; rewrite (ix_size _ _ _ (ch_map _ _ _ _ _ Hc));
    destruct (bool_decide (queue = []) || (n <=? length cs)) eqn:Hexit;
    try (exists c, cs; split_and!; try done; by eapply bfs_exit).
  { apply orb_false_iff in Hexit as [_ Hn%Nat.leb_gt]. lia. }
  apply orb_false_iff in Hexit as [Hq%bool_decide_eq_false Hn%Nat.leb_gt].
  destruct Hf as [[? _]|Hf]; [lia|]. set (k := length queue `min` BEAM_WIDTH_FOR_BFS).
  assert (Hk : 0 < k).
  { unfold k, BEAM_WIDTH_FOR_BFS. destruct queue; [done|]. simpl length. lia. }
  rewrite <-(take_drop k queue) in Hf. pose proof (fr_nodup _ _ _ _ Hf) as Hnd.
  apply NoDup_app in Hnd as (_ & _ & Hnd). apply NoDup_app in Hnd as (Hnd & _ & _).
  destruct (load_vertices_ok (A:=A) vec_size assoc_size b G HG Hb Hal p (take k queue) Hp)
    as (p1 & -> & Hp1 & Hle & E1 & E2 & E3 & Hsec).
  { apply Forall_forall. intros x Hx. apply (reach_valid start); [done|].
    apply (fr_reach _ _ _ _ Hf). set_solver. }
  rewrite comp_bind_ret.
  destruct (cache_batch_ok start n (take k queue) [] cs (drop k queue) visited p1 c)
    as (q2 & v2 & p2 & c2 & cs2 & E & Hp2 & Hc2 & Hsz2 & Hlen2 & Hgrow & Hf2); try done.
  { by apply progress_nil. }
  cbn [length] in E. rewrite E, comp_bind_ret. apply (IH cs2); try done. rewrite length_take in Hgrow. lia.
Qed.

Lemma frontier_start start : frontier start [] [start] {[start]}.
Proof.
  split; simpl.
  - apply NoDup_singleton.
  - intros x. by rewrite elem_of_singleton, list_elem_of_singleton.
  - done.
  - intros x ->%list_elem_of_singleton. apply rtc_refl.
  - intros x y []%not_elem_of_nil.
Qed.

Lemma build_cache_ok (r : R) start n :
  contents r = disk_file vec_size assoc_size b G →
  get_header r = ret (header_of vec_size assoc_size b G) → start < length (g_nodes G) →
  ∃ c cs, build_cache_via_bfs vec_size deserialize r start n (g_dims G) = ret c ∧ caches c cs ∧
          filled start n cs.
Proof.
  intros Hr Hh Hst. unfold build_cache_via_bfs. rewrite Hh, comp_bind_ret.
  apply (bfs_ok start n n []); [done|by apply provider_new_ok|apply caches_empty| |simpl; lia..|].
  - split; try done. simpl. rewrite length_replicate. by rewrite Nat.mul_assoc.
  - right. apply frontier_start.
Qed.

End breadth.

(** ** Serving through the cache *)

Section transparent.

Context {R A : Type} {AR : AlignedFileReader R} {RL : ReaderLaws R}.
Context (vec_size assoc_size b : nat) (deserialize : list Z → option A) (G : Graph).
Hypothesis (HG : graph_ok vec_size assoc_size G).
Hypothesis (Hb : 8 + header_size ≤ b).
Hypothesis (Hal : b mod alignment (R:=R) = 0).
Hypothesis (Hread : readable deserialize G).

#[local] Abbreviation provider_ok := (provider_ok (R:=R) (A:=A) vec_size assoc_size b G).
#[local] Abbreviation progress := (progress (R:=R) vec_size deserialize G).
#[local] Abbreviation caches := (caches vec_size deserialize G).
#[local] Abbreviation VP := (cached_vertex_provider (R:=R) vec_size deserialize).
#[local] Abbreviation sector i :=
  (take (sectors_per_node vec_size assoc_size b G * b)
     (drop (sector_index vec_size assoc_size b G i * b) (disk_file vec_size assoc_size b G))).

(** The vertices of a batch that are not cached. *)
Definition missing (c : Cache A) (ids : list nat) : list nat :=
  List.filter (λ id, negb (cache_contains id c)) ids.

Lemma missing_app c l k : missing c (l ++ k) = missing c l ++ missing c k.
Proof. apply List.filter_app. Qed.

(** [filter_cached_nodes] records for every missing vertex how many of them come before it. *)
Lemma filter_cached_spec c ids : ∀ idx uncached m,
  ∃ m', filter_cached_nodes idx ids uncached m c = (uncached ++ missing c ids, m') ∧
    (∀ j, j < idx → m' !! j = m !! j) ∧
    ∀ k id, ids !! k = Some id → cache_contains id c = false →
      m' !! (idx + k) = Some (length uncached + length (missing c (take k ids))).
Proof.
  induction ids as [|x ids IH]; intros idx uncached m; simpl.
  { exists m. rewrite app_nil_r. done. }
  unfold missing in *. simpl. destruct (cache_contains x c) eqn:Hx; simpl.
  - destruct (IH (S idx) uncached m) as (m' & -> & Hold & Hnew). exists m'.
    split_and!; [done|intros; apply Hold; lia|]. intros [|k] id Hk Hc; simpl in *; [congruence|].
    rewrite Hx. simpl. rewrite Nat.add_succ_r. by apply (Hnew k id).
  - destruct (IH (S idx) (uncached ++ [x]) (<[idx := length uncached]> m)) as (m' & -> & Hold & Hnew).
    exists m'. split_and!.
    + by rewrite <-app_assoc.
    + intros j Hj. rewrite Hold by lia. apply lookup_insert_ne. lia.
    + intros [|k] id Hk Hc; simpl in *.
      * rewrite Nat.add_0_r, Hold by lia. rewrite lookup_insert_eq. f_equal. lia.
      * rewrite Hx. simpl. rewrite Nat.add_succ_r. rewrite (Hnew k id Hk Hc), length_app.
        simpl. f_equal. lia.
Qed.

(** A provider whose cache holds the vertices [cs]. *)
Definition cached_ok (cs : list nat) (p : CachedDiskVertexProvider R A) : Prop :=
  caches (cp_cache p) cs ∧ provider_ok (vector_provider p).

(** The batch was served from the cache alone, or its missing vertices are decoded. *)
Definition decoded (p : CachedDiskVertexProvider R A) (ids : list nat) : Prop :=
  missing (cp_cache p) ids = [] ∨ progress (vector_provider p) (missing (cp_cache p) ids).

Lemma process_all_cached rest idx p :
  missing (cp_cache p) rest = [] → process_all (VP:=VP) idx rest p = ret p.
Proof.
  revert idx. induction rest as [|x rest IH]; intros idx Hm; [done|]. unfold missing in Hm.
  simpl in Hm. cbn [process_all].
  change (vp_process_loaded_node x idx p) with (cached_process_loaded_node vec_size deserialize x idx p).
  unfold cached_process_loaded_node. destruct (cache_contains x (cp_cache p)); [|done].
  rewrite comp_bind_ret. by apply IH.
Qed.

Lemma cached_process_all rest : ∀ before p,
  let c := cp_cache p in
  provider_ok (vector_provider p) → progress (vector_provider p) (missing c before) →
  NoDup (before ++ rest) → valid G rest →
  length (missing c (before ++ rest)) ≤ max_batch_size (vector_provider p) →
  (∀ k id, missing c (before ++ rest) !! k = Some id →
     get_sector_buf k (sector_graph (vector_provider p)) = Some (sector id)) →
  (∀ k id, (before ++ rest) !! k = Some id → cache_contains id c = false →
     local_idx_to_filtered_idx p !! k = Some (length (missing c (take k (before ++ rest))))) →
  ∃ p', process_all (VP:=VP) (length before) rest p = ret p' ∧ cp_cache p' = c ∧
        provider_ok (vector_provider p') ∧ progress (vector_provider p') (missing c (before ++ rest)).
Proof.
  induction rest as [|x rest IH]; intros before p c Hp Hpg Hnd Hv Hle Hsec Hidx; cbn [process_all].
  { rewrite app_nil_r. eauto. }
  change (vp_process_loaded_node x ?i p) with (cached_process_loaded_node vec_size deserialize x i p).
  unfold cached_process_loaded_node. fold c. apply Forall_cons in Hv as [Hx Hv].
  replace (S (length before)) with (length (before ++ [x])) by (rewrite length_app; simpl; lia).
  rewrite (cons_middle x before rest), app_assoc in *.
  assert (Hlx : (before ++ [x]) ++ rest = before ++ x :: rest) by (by rewrite <-app_assoc).
  destruct (cache_contains x c) eqn:Ex.
  - rewrite comp_bind_ret. apply (IH (before ++ [x]) p); try done.
    rewrite missing_app. unfold missing at 2. simpl. fold c. by rewrite Ex, app_nil_r.
  - assert (Ht : take (length before) ((before ++ [x]) ++ rest) = before)
      by (rewrite Hlx; apply take_app_length).
    rewrite (Hidx (length before) x), comp_bind_lift, Ht;
      [|by rewrite Hlx, lookup_app_r, Nat.sub_diag by lia|done].
    apply lookup_lt_is_Some_2 in Hx as [nd Hnode]. destruct (Hread x nd Hnode) as [a Ha].
    assert (Hms : missing c (before ++ [x]) = missing c before ++ [x])
      by (rewrite missing_app; unfold missing at 2; simpl; by rewrite Ex).
    assert (Hni : x ∉ missing c before).
    { intros Hin. apply elem_of_List_filter in Hin as [Hin _]. apply NoDup_app in Hnd as (Hnd & _).
      apply NoDup_app in Hnd as (_ & Hd & _). apply (Hd x Hin). by left. }
    rewrite missing_app, Hms, !length_app in Hle. simpl in Hle.
    destruct (process_loaded_node_ok vec_size assoc_size b deserialize G HG Hb Hal
      (vector_provider p) (missing c before) x nd a (length (missing c before)))
      as (vp & -> & Hvp & Hg & Hm & Hpg'); try done; [lia| |].
    { apply Hsec. rewrite missing_app, Hms, <-app_assoc. by rewrite lookup_app_r, Nat.sub_diag by lia. }
    rewrite comp_bind_ret, comp_bind_ret.
    apply (IH (before ++ [x]) (mkCachedProvider _ vp _ _)); simpl; try done.
    + fold c. by rewrite Hms.
    + fold c. rewrite Hm, missing_app, Hms, !length_app. simpl. lia.
    + fold c. by rewrite Hg.
Qed.

Lemma cached_load_ok cs p ids :
  cached_ok cs p → valid G ids →
  ∃ p', cached_load_vertices vec_size ids p = ret p' ∧ cached_ok cs p' ∧ cp_cache p' = cp_cache p ∧
    (∀ k id, ids !! k = Some id → cache_contains id (cp_cache p) = false →
       local_idx_to_filtered_idx p' !! k = Some (length (missing (cp_cache p) (take k ids)))) ∧
    (missing (cp_cache p) ids ≠ [] →
       length (missing (cp_cache p) ids) ≤ max_batch_size (vector_provider p') ∧
       progress (vector_provider p') [] ∧
       ∀ k id, missing (cp_cache p) ids !! k = Some id →
         get_sector_buf k (sector_graph (vector_provider p')) = Some (sector id)).
Proof.
  intros [Hc Hp] Hv. unfold cached_load_vertices.
  destruct (filter_cached_spec (cp_cache p) ids 0 [] ∅) as (m & -> & _ & Hm). rewrite app_nil_l.
  case_bool_decide as He.
  - eexists; split; [done|]. split; [by split|]. split; [done|]. split; [exact Hm|done].
  - assert (Hvm : valid G (missing (cp_cache p) ids)).
    { apply Forall_forall. intros x [Hx _]%elem_of_List_filter. by eapply Forall_forall in Hv. }
    destruct (load_vertices_ok (A:=A) vec_size assoc_size b G HG Hb Hal _ _ Hp Hvm)
      as (vp & -> & Hvp & Hle & E1 & E2 & E3 & Hsec).
    rewrite comp_bind_ret. eexists; split; [done|]. split; [by split|]. split; [done|].
    split; [exact Hm|]. intros _. split_and!; [done|by apply progress_nil|done].
Qed.

Lemma cached_ensure_ok cs p ids :
  cached_ok cs p → valid G ids → NoDup ids →
  ∃ p', ensure_vertex_loaded (VP:=VP) ids p = ret p' ∧ cached_ok cs p' ∧ decoded p' ids.
Proof.
  intros Hp Hv Hnd. unfold ensure_vertex_loaded.
  change (vp_load_vertices ids p) with (cached_load_vertices vec_size ids p).
  destruct (cached_load_ok cs p ids Hp Hv) as (p1 & -> & [Hc1 Hp1] & Ec & Hm & Hne).
  rewrite comp_bind_ret, <-Ec in *.
  destruct (decide (missing (cp_cache p1) ids = [])) as [He|He].
  - exists p1. rewrite process_all_cached by done. split_and!; [done|by split|by left].
  - destruct (Hne He) as (Hle & Hpg & Hsec).
    destruct (cached_process_all ids [] p1) as (p2 & E2 & Ec2 & Hp2 & Hpg2); try done.
    exists p2. split; [exact E2|]. unfold cached_ok, decoded. rewrite Ec2. eauto.
Qed.

(** What a batch is served with: the vectors and the data of the graph, its neighbor lists for
    the vertices read from disk and the same neighbors for the cached ones. *)
Definition cached_serves (cs : list nat) (p : CachedDiskVertexProvider R A) (ids : list nat) : Prop :=
  ∀ id nd, id ∈ ids → g_nodes G !! id = Some nd →
    cached_get_vector vec_size id p = ret (n_vector nd) ∧
    (∃ l, cached_get_adjacency_list id p = ret l ∧ (id ∉ cs → l = n_nbrs nd) ∧
          ∀ x, x ∈ l ↔ x ∈ n_nbrs nd) ∧
    ∃ a, deserialize (n_data nd) = Some a ∧ cached_get_associated_data id p = ret a.

Lemma decoded_serves cs p ids : cached_ok cs p → decoded p ids → cached_serves cs p ids.
Proof.
  intros [Hc Hp] Hdec id nd Hid Hnd.
  unfold cached_get_vector, cached_get_adjacency_list, cached_get_associated_data.
  destruct (decide (id ∈ cs)) as [Hin|Hout].
  - destruct (cache_hit _ _ _ _ cs id nd Hc Hin Hnd) as (-> & -> & a & Ea & ->).
    rewrite !comp_bind_ret. split_and!; [done| |by eauto].
    eexists; split_and!; [done|done|]. apply elem_of_untrusted.
  - destruct (cache_miss vec_size deserialize G _ cs id Hc Hout) as (-> & -> & ->).
    rewrite !comp_bind_ret. assert (Hms : id ∈ missing (cp_cache p) ids).
    { apply elem_of_List_filter. split; [done|].
      by rewrite (cache_contains_spec vec_size deserialize G _ cs id Hc), bool_decide_false. }
    destruct Hdec as [He|Hpg]; [by rewrite He in Hms; apply not_elem_of_nil in Hms|].
    destruct (progress_serves _ _ _ _ _ _ _ Hp Hpg id nd Hms Hnd) as (Hv & Hl & Ha).
    split_and!; [done| |done]. exists (n_nbrs nd). done.
Qed.

Lemma cached_batches_ok cs batches : ∀ p,
  cached_ok cs p → Forall (λ ids, valid G ids ∧ NoDup ids) batches →
  ∃ p', load_batches (VP:=VP) batches p = ret p' ∧ cached_ok cs p' ∧
        ∀ ids, last batches = Some ids → decoded p' ids.
Proof.
  induction batches as [|ids batches IH]; intros p Hp Hbs; cbn [load_batches]; [by exists p|].
  apply Forall_cons in Hbs as [[Hv Hnd] Hbs].
  destruct (cached_ensure_ok cs p ids Hp Hv Hnd) as (p1 & -> & Hp1 & Hd1).
  rewrite comp_bind_ret. destruct batches as [|ids' batches].
  - exists p1. split_and!; [done|done|]. by intros ? [= <-].
  - destruct (IH p1 Hp1 Hbs) as (p2 & -> & Hp2 & Hd2). exists p2. split_and!; [done|done|].
    intros ids'' Hl. apply Hd2. exact Hl.
Qed.

End transparent.


(** ** Theorems *)

(** As many distinct vertices as the graph has are all of them. *)
Lemma all_vertices G (cs : list nat) x :
  NoDup cs → (∀ y, y ∈ cs → y < length (g_nodes G)) → length (g_nodes G) ≤ length cs →
  x < length (g_nodes G) → x ∈ cs.
Proof.
  intros Hnd Hv Hl Hx.
  assert (Hsub : cs ⊆+ seq 0 (length (g_nodes G))).
  { apply NoDup_submseteq; [done|]. intros y Hy. apply elem_of_seq. specialize (Hv y Hy). lia. }
  apply submseteq_length_Permutation in Hsub as ->; [|by rewrite length_seq].
  apply elem_of_seq. lia.
Qed.

Section theorems.

Context {R A : Type} {AR : AlignedFileReader R} {RL : ReaderLaws R}.
Context (vec_size assoc_size : nat) (deserialize : list Z → option A).

(** A reader over the index of a graph, as [create_disk_layout] writes it. *)
Record opened (r : R) (b : nat) (G : Graph) : Prop := {
  op_graph : graph_ok vec_size assoc_size G;
  op_closed : closed G;
  op_medoid : g_medoid G < length (g_nodes G);
  op_read : readable deserialize G;
  op_block : 8 + header_size ≤ b;
  op_align : b mod alignment (R:=R) = 0;
  op_align_header : DEFAULT_DISK_SECTOR_LEN mod alignment (R:=R) = 0;
  op_node_len : fits 8 (g_node_len vec_size assoc_size G);
  op_file_size : fits 8 (g_file_size vec_size assoc_size b G);
  op_header : DEFAULT_DISK_SECTOR_LEN ≤ g_file_size vec_size assoc_size b G;
  op_contents : contents r = disk_file vec_size assoc_size b G;
}.

Lemma opened_header r b G :
  opened r b G → get_header r = ret (header_of vec_size assoc_size b G).
Proof.
  intros [HG _ _ _ Hb Ha Ha4 Hn Hf Hh Hc].
  apply get_header_ok; try done; [by rewrite length_file|by apply header_of_ok].
Qed.

Lemma setup_cache_ok r b G n :
  opened r b G → 0 < n →
  ∃ c cs, setup_cache vec_size deserialize r (StaticCacheWithBfsNodes n) = ret (Some c) ∧
    caches vec_size deserialize G c cs ∧
    filled G (g_medoid G) (n `min` length (g_nodes G)) cs.
Proof.
  intros Ho Hn. pose proof (opened_header _ _ _ Ho) as Hh.
  destruct Ho as [HG Hcl Hme Hrd Hb Ha _ _ _ _ Hc].
  unfold setup_cache. destruct (Nat.eqb_spec n 0); [lia|]. rewrite Hh, comp_bind_ret.
  cbn [metadata header_of num_pts medoid dims].
  replace (if length (g_nodes G) <? n then length (g_nodes G) else n)
    with (n `min` length (g_nodes G)) by (case_nat; lia).
  destruct (build_cache_ok vec_size assoc_size b deserialize G HG Hb Ha Hrd Hcl r (g_medoid G)
    (n `min` length (g_nodes G)) Hc Hh Hme) as (c & cs & -> & Hcs & Hf).
  rewrite comp_bind_ret. eauto.
Qed.

(** The static cache is filled breadth first.  For every number of nodes to cache that is not
    0, [setup_cache] ends and returns a cache whose vertices are distinct, at most as many as
    asked for, include the medoid and are all reachable from it; and when there are fewer than
    asked for, they are all the vertices reachable from the medoid. *)
Theorem bfs_cache_filled r b G n :
  opened r b G → 0 < n →
  ∃ c cs, setup_cache vec_size deserialize r (StaticCacheWithBfsNodes n) = ret (Some c) ∧
    (∀ id, cache_contains id c = bool_decide (id ∈ cs)) ∧ cache_len c = length cs ∧
    NoDup cs ∧ length cs ≤ n ∧ g_medoid G ∈ cs ∧ (∀ x, x ∈ cs → reach G (g_medoid G) x) ∧
    (length cs < n → ∀ x, reach G (g_medoid G) x → x ∈ cs).
Proof.
  intros Ho Hn. destruct (setup_cache_ok r b G n Ho Hn) as (c & cs & E & Hc & [Hnd Hl Hh Hr Hall]).
  pose proof (op_medoid _ _ _ Ho) as Hme. exists c, cs. split_and!; try done.
  - intros id. by eapply cache_contains_spec.
  - apply (ix_size _ _ _ (ch_map _ _ _ _ _ Hc)).
  - lia.
  - specialize (Hh ltac:(lia)). destruct cs; [done|]. simpl in Hh. simplify_eq. by left.
  - intros Hlt x Hx. destruct (decide (length cs < n `min` length (g_nodes G))) as [Hlt'|Hge];
      [by apply Hall|]. apply (all_vertices G cs); try done; [|lia|].
    + intros y Hy. eapply reach_valid; [apply (op_closed _ _ _ Ho)|exact Hme|by apply Hr].
    + eapply reach_valid; [apply (op_closed _ _ _ Ho)|exact Hme|done].
Qed.

(** C28: the cache is transparent.  With or without a cache, a provider made by
    [create_vertex_provider] serves after every sequence of batches the same vectors and
    associated data as the index holds, the same neighbors for a cached vertex (sorted and
    without repetition) and the very neighbor list for any other. *)
Theorem cache_transparent r b G strategy :
  opened r b G → strategy ≠ StaticCacheWithBfsNodes 0 →
  ∃ cache cs, setup_cache vec_size deserialize r strategy = ret cache ∧
    ∀ max_batch batches ids,
      Forall (λ ids, valid G ids ∧ NoDup ids) (batches ++ [ids]) →
      ∃ h p0 p, get_header r = ret h ∧
        create_vertex_provider vec_size r strategy cache max_batch h = ret p0 ∧
        load_batches (VP:=cached_vertex_provider vec_size deserialize) (batches ++ [ids]) p0 = ret p ∧
        cached_serves vec_size deserialize G cs p ids.
Proof.
  intros Ho Hs. pose proof (opened_header _ _ _ Ho) as Hh.
  assert (∃ cache c cs, setup_cache vec_size deserialize r strategy = ret cache ∧
    caches vec_size deserialize G c cs ∧ ∀ max_batch h,
      create_vertex_provider vec_size r strategy cache max_batch h =
      ret (cached_provider_new vec_size h max_batch r c)) as (cache & c & cs & E & Hc & Hnew).
  { destruct strategy as [|n].
    - exists None, (cache_new vec_size 0 0), []. split_and!; [done|apply caches_empty|done].
    - destruct (setup_cache_ok r b G n Ho) as (c & cs & E & Hc & _);
        [destruct n; [done|lia]|]. by exists (Some c), c, cs. }
  exists cache, cs. split; [done|]. intros max_batch batches ids Hbs.
  destruct Ho as [HG _ _ Hrd Hb Ha _ _ _ _ Hcont]. do 2 eexists.
  destruct (cached_batches_ok vec_size assoc_size b deserialize G HG Hb Ha Hrd cs (batches ++ [ids])
    (cached_provider_new vec_size (header_of vec_size assoc_size b G) max_batch r c))
    as (p & El & Hp & Hd); [split; [done|by apply provider_new_ok]|done|].
  exists p. split_and!; [done|apply Hnew|done|].
  eapply decoded_serves; [exact Hp|]. apply Hd. by rewrite last_snoc.
Qed.

End theorems.

(** ** A small index *)

(** Four vertices; the last one cannot be reached from the medoid 1. *)
Definition ring : Graph :=
  mkGraph 2 3 1 0 (Some 1)
    [mkNode (put 8 11) [1] (put 4 70); mkNode (put 8 12) [2; 0; 2] (put 4 71);
     mkNode (put 8 13) [0] (put 4 72); mkNode (put 8 14) [0] (put 4 73)].

Definition ring_reader : StorageProviderAlignedFileReader :=
  mkStorageReader (disk_file 4 4 4096 ring).

Lemma ring_opened : opened 4 4 demo_deserialize ring_reader 4096 ring.
Proof.
  split; try (apply Nat.mod_1_r); try done.
  - split; by_computing.
  - intros u v (nd & Hu & Hv).
    assert (Hall : Forall (λ nd, Forall (λ v, v < 4) (n_nbrs nd)) (g_nodes ring))
      by (apply (bool_decide_unpack _); by vm_compute).
    pose proof (Forall_lookup_1 _ _ _ _ Hall Hu) as Hn. by eapply Forall_forall in Hn.
  - simpl. lia.
  - intros id nd _. by eexists.
  - apply Nat.leb_le. by vm_compute.
  - apply Nat.leb_le. by vm_compute.
Qed.

(** Asked for five nodes, the cache holds the three that can be reached. *)
Lemma bfs_cache_filled_witness :
  0 < 5 ∧ ∃ c cs,
    setup_cache 4 demo_deserialize ring_reader (StaticCacheWithBfsNodes 5) = ret (Some c) ∧
    1 ∈ cs ∧ NoDup cs ∧ length cs ≤ 5 ∧ ∀ id, cache_contains id c = bool_decide (id ∈ cs).
Proof.
  split; [lia|].
  destruct (bfs_cache_filled 4 4 demo_deserialize ring_reader 4096 ring 5 ring_opened ltac:(lia))
    as (c & cs & E & Hc & _ & Hnd & Hl & Hm & _).
  exists c, cs. split_and!; [exact E|exact Hm|exact Hnd|exact Hl|exact Hc].
Defined.

Lemma ring_batches : Forall (λ ids, valid ring ids ∧ NoDup ids) ([[3]] ++ [[0; 3]]).
Proof. unfold valid. apply (bool_decide_unpack _). by vm_compute. Qed.

(** Two nodes are cached; a batch of a cached and an uncached vertex. *)
Lemma cache_transparent_witness :
  ∃ cache h p0 p,
    setup_cache 4 demo_deserialize ring_reader (StaticCacheWithBfsNodes 2) = ret cache ∧
    get_header ring_reader = ret h ∧
    create_vertex_provider 4 ring_reader (StaticCacheWithBfsNodes 2) cache 1 h = ret p0 ∧
    load_batches (VP:=cached_vertex_provider 4 demo_deserialize) [[3]; [0; 3]] p0 = ret p ∧
    cached_get_vector 4 3 p = ret (put 8 14) ∧ cached_get_vector 4 0 p = ret (put 8 11).
Proof.
  destruct (cache_transparent 4 4 demo_deserialize ring_reader 4096 ring (StaticCacheWithBfsNodes 2)
    ring_opened ltac:(discriminate)) as (cache & cs & E & Hserve).
  destruct (Hserve 1 [[3]] [0; 3] ring_batches) as (h & p0 & p & Eh & E0 & Ep & Hs).
  exists cache, h, p0, p. split_and!; [exact E|exact Eh|exact E0|exact Ep| |].
  - apply (Hs 3 (mkNode (put 8 14) [0] (put 4 73))); [by right; left|done].
  - apply (Hs 0 (mkNode (put 8 11) [1] (put 4 70))); [by left|done].
Defined.

(** The breadth-first order of the example. *)
Example ring_cache :
  (let* o := setup_cache 4 demo_deserialize ring_reader (StaticCacheWithBfsNodes 5) in
   ret ((λ c, (map_to_list (mapping c), edges <$> adjacency_lists c)) <$> o)) =
  ret (Some ([(2, 2); (1, 0); (0, 1)], [[0; 2]; [1]; [0]])).
Proof. by vm_compute. Qed.

(** ** Updating a cached vertex *)

(** Inserting a vertex that is already cached replaces its vector, but its lists are appended:
    the old neighbors and data are still served, and the next vertex gets the new ones. *)
Lemma cache_update_keeps_old_lists :
  let c := cache_new 1 1 3 : Cache nat in
  let filled :=
    (let* c := cache_insert 1 7 [1]%Z (untrusted [1]) 10 c in
     let* c := cache_insert 1 7 [2]%Z (untrusted [2]) 20 c in
     cache_insert 1 8 [3]%Z (untrusted [3]) 30 c) in
  (let* c := filled in cache_get_vector 1 7 c) = ret (Some [2]%Z) ∧
  (let* c := filled in cache_get_adjacency_list 7 c) = ret (Some (untrusted [1])) ∧
  (let* c := filled in cache_get_associated_data 7 c) = ret (Some 10) ∧
  (let* c := filled in cache_get_adjacency_list 8 c) = ret (Some (untrusted [2])).
Proof. by vm_compute. Qed.
