(* ===== verification/LabelJson.v ===== *)
(** * Label filters: JSON values, filter expressions, parser and evaluator

    Models [diskann-label-filter/src/parser/] ([ast.rs], [query_parser.rs], [evaluator.rs]) and
    the attribute values of [attribute.rs].

    - binary64 numbers as their bit patterns ([f64::to_bits]): comparisons and the cast to [i64];
    - Class [JsonNumber] with [JsonNumberLaws]: what is documented of the numbers of [serde_json];
      [Value] is the public enumeration of that crate.  An object is the list of its entries, in
      the order in which the map iterates over them;
    - Section [filter]: expressions, the parser and the evaluator;
    - the theorem: the parser accepts every well-formed expression (at most two operators deep)
      and returns it unchanged, and whatever it returns is well formed.

    Strings are byte strings (their UTF-8 encoding).  An error that quotes a value carries the
    value, not its text. *)

From Stdlib Require Import Ascii.
From stdpp Require Import strings.
From S2P Require Import Prelude Strings.

(** ** binary64 numbers *)

(** The bit pattern of an [f64], below [2^64]. *)
Definition binary64 : Type := Z.

Section binary64.
Local Open Scope Z_scope.

Definition f_negative (x : binary64) : bool := 2 ^ 63 <=? x.
Definition f_magnitude (x : binary64) : Z := x mod 2 ^ 63.

(** The bits of infinity; larger magnitudes are NaN. *)
Definition f_infinity : Z := 2047 * 2 ^ 52.

Definition f_is_nan (x : binary64) : bool := f_infinity <? f_magnitude x.
Definition f_is_finite (x : binary64) : bool := f_magnitude x <? f_infinity.

(** The absolute value, in units of [2^-1074]: subnormal numbers, then normal ones. *)
Definition f_abs (m : Z) : Z :=
  if m <? 2 ^ 52 then m else (2 ^ 52 + m mod 2 ^ 52) * 2 ^ (m / 2 ^ 52 - 1).

(** The value, in units of [2^-1074]; infinity is above all finite values. *)
Definition f_value (x : binary64) : Z :=
  if f_negative x then - f_abs (f_magnitude x) else f_abs (f_magnitude x).

Definition f_lt (x y : binary64) : bool :=
  negb (f_is_nan x) && negb (f_is_nan y) && (f_value x <? f_value y).
Definition f_le (x y : binary64) : bool :=
  negb (f_is_nan x) && negb (f_is_nan y) && (f_value x <=? f_value y).
Definition f_eq (x y : binary64) : bool :=
  negb (f_is_nan x) && negb (f_is_nan y) && (f_value x =? f_value y).

(** [x as i64]: truncates, saturates, and maps NaN to 0. *)
Definition f_to_i64 (x : binary64) : Z :=
  if f_is_nan x then 0
  else Z.max (- 2 ^ 63) (Z.min (2 ^ 63 - 1) (Z.quot (f_value x) (2 ^ 1074))).

(** The number is the integer [i]. *)
Definition f_is_int (x : binary64) (i : Z) : Prop := f_value x = i * 2 ^ 1074.

(** A normal number: significand [k] and exponent [p]. *)
Lemma f_abs_normal p k : 0 ≤ p → 2 ^ 52 ≤ k < 2 ^ 53 → f_abs (p * 2 ^ 52 + k) = k * 2 ^ p.
Proof.
  intros Hp Hk. unfold f_abs. destruct (Z.ltb_spec (p * 2 ^ 52 + k) (2 ^ 52)); [lia|].
  replace (p * 2 ^ 52 + k) with (k - 2 ^ 52 + (p + 1) * 2 ^ 52) by lia.
  rewrite Z_mod_plus_full, Z_div_plus_full by lia.
  rewrite Z.mod_small, Z.div_small by lia. f_equal; [lia|f_equal; lia].
Qed.

(** Larger bits are larger values. *)
Lemma f_abs_lt a b : 0 ≤ a < b → f_abs a < f_abs b.
Proof.
  intros Hab.
  assert (∀ m, 2 ^ 52 ≤ m → ∃ p k, 0 ≤ p ∧ 2 ^ 52 ≤ k < 2 ^ 53 ∧ m = p * 2 ^ 52 + k) as Hsplit.
  { intros m Hm. exists (m / 2 ^ 52 - 1), (2 ^ 52 + m mod 2 ^ 52).
    pose proof (Z.div_mod m (2 ^ 52)). pose proof (Z.mod_pos_bound m (2 ^ 52)).
    pose proof (Z.div_le_lower_bound m (2 ^ 52) 1). lia. }
  destruct (Z.ltb_spec b (2 ^ 52)) as [Hb|Hb].
  { unfold f_abs. rewrite 2 (proj2 (Z.ltb_lt _ _)) by lia. lia. }
  destruct (Hsplit b Hb) as (pb & kb & Hpb & Hkb & ->). rewrite f_abs_normal by lia.
  destruct (Z.ltb_spec a (2 ^ 52)) as [Ha|Ha].
  { unfold f_abs. rewrite (proj2 (Z.ltb_lt _ _)) by lia.
    pose proof (Z.pow_pos_nonneg 2 pb). nia. }
  destruct (Hsplit a Ha) as (pa & ka & Hpa & Hka & ->). rewrite f_abs_normal by lia.
  destruct (Z.eq_dec pa pb) as [->|Hne].
  { apply Z.mul_lt_mono_pos_r; [apply Z.pow_pos_nonneg; lia|lia]. }
  assert (pa < pb) as Hp by lia.
  assert (2 * 2 ^ pa ≤ 2 ^ pb) as Hpow.
  { rewrite <-Z.pow_succ_r by lia. apply Z.pow_le_mono_r; lia. }
  pose proof (Z.pow_pos_nonneg 2 pa). nia.
Qed.

Lemma f_abs_nonneg m : 0 ≤ m → 0 ≤ f_abs m.
Proof.
  intros. destruct (Z.eq_dec m 0) as [->|]; [done|].
  pose proof (f_abs_lt 0 m). change (f_abs 0) with 0 in *. lia.
Qed.

(** The integer [i] as a float, exact for magnitudes up to [2^53], rounded towards 0 above. *)
Definition f_of_abs (m : Z) : Z :=
  let e := Z.log2 m in
  (e + 1022) * 2 ^ 52 + (if e <=? 52 then m * 2 ^ (52 - e) else m / 2 ^ (e - 52)).

Definition f_of_Z (i : Z) : binary64 :=
  if i =? 0 then 0 else if i <? 0 then 2 ^ 63 + f_of_abs (- i) else f_of_abs i.

Lemma f_of_abs_significand m : 0 < m →
  2 ^ 52 ≤ (if Z.log2 m <=? 52 then m * 2 ^ (52 - Z.log2 m) else m / 2 ^ (Z.log2 m - 52)) < 2 ^ 53.
Proof.
  intros Hm. pose proof (Z.log2_spec m Hm) as [Hl Hu]. pose proof (Z.log2_nonneg m).
  rewrite Z.pow_succ_r in Hu by lia. destruct (Z.leb_spec (Z.log2 m) 52) as [He|He].
  - assert (2 ^ 52 = 2 ^ Z.log2 m * 2 ^ (52 - Z.log2 m)) as E
      by (rewrite <-Z.pow_add_r by lia; f_equal; lia).
    pose proof (Z.pow_pos_nonneg 2 (52 - Z.log2 m)). nia.
  - assert (2 ^ Z.log2 m = 2 ^ 52 * 2 ^ (Z.log2 m - 52)) as E
      by (rewrite <-Z.pow_add_r by lia; f_equal; lia).
    pose proof (Z.pow_pos_nonneg 2 (Z.log2 m - 52)). split.
    + apply Z.div_le_lower_bound; lia.
    + apply Z.div_lt_upper_bound; lia.
Qed.

Lemma f_of_abs_bounds m : 0 < m ≤ 2 ^ 64 → 0 < f_of_abs m < f_infinity.
Proof.
  intros Hm. pose proof (f_of_abs_significand m) as Hs. unfold f_of_abs, f_infinity.
  pose proof (Z.log2_nonneg m). pose proof (Z.log2_le_mono m (2 ^ 64)) as Hl.
  change (Z.log2 (2 ^ 64)) with 64 in Hl. lia.
Qed.

Lemma f_of_Z_finite i : Z.abs i ≤ 2 ^ 64 → 0 ≤ f_of_Z i < 2 ^ 64 ∧ f_is_finite (f_of_Z i) = true.
Proof.
  intros Hi. unfold f_is_finite, f_magnitude, f_of_Z. rewrite Z.ltb_lt.
  destruct (Z.eqb_spec i 0) as [|Hne]; [done|]. destruct (Z.ltb_spec i 0) as [Hn|Hn].
  - pose proof (f_of_abs_bounds (- i)) as Hb.
    replace (2 ^ 63 + f_of_abs (- i)) with (f_of_abs (- i) + 1 * 2 ^ 63) by lia.
    rewrite Z_mod_plus_full. unfold f_infinity in *. rewrite Z.mod_small by lia. lia.
  - pose proof (f_of_abs_bounds i) as Hb. unfold f_infinity in *. rewrite Z.mod_small by lia. lia.
Qed.

Lemma f_of_abs_exact m : 0 < m ≤ 2 ^ 53 → f_abs (f_of_abs m) = m * 2 ^ 1074.
Proof.
  intros Hm. pose proof (f_of_abs_significand m) as Hs. unfold f_of_abs.
  pose proof (Z.log2_nonneg m). rewrite f_abs_normal by lia.
  destruct (Z.leb_spec (Z.log2 m) 52) as [He|He].
  - rewrite <-Z.mul_assoc, <-Z.pow_add_r by lia. f_equal. f_equal. lia.
  - pose proof (Z.log2_spec m) as [Hl _]; [lia|].
    pose proof (Z.pow_le_mono_r 2 53 (Z.log2 m)). assert (m = 2 ^ 53) as -> by lia. done.
Qed.

Lemma f_of_Z_exact i : Z.abs i ≤ 2 ^ 53 → f_is_int (f_of_Z i) i.
Proof.
  intros Hi. unfold f_is_int, f_value, f_negative, f_magnitude, f_of_Z.
  destruct (Z.eqb_spec i 0) as [->|Hne]; [done|]. destruct (Z.ltb_spec i 0) as [Hn|Hn].
  - pose proof (f_of_abs_bounds (- i)) as Hb. unfold f_infinity in Hb.
    rewrite (proj2 (Z.leb_le _ _)) by lia.
    replace (2 ^ 63 + f_of_abs (- i)) with (f_of_abs (- i) + 1 * 2 ^ 63) by lia.
    rewrite Z_mod_plus_full, Z.mod_small, f_of_abs_exact by lia. lia.
  - pose proof (f_of_abs_bounds i) as Hb. unfold f_infinity in Hb.
    rewrite (proj2 (Z.leb_gt _ _)) by lia. rewrite Z.mod_small, f_of_abs_exact by lia. lia.
Qed.

End binary64.

(** ** JSON values of [serde_json] *)

Class JsonNumber (N : Type) := {
  num_eqb : N → N → bool;
  as_i64 : N → option Z;
  is_f64 : N → bool;
  as_f64 : N → option binary64;
  from_f64 : binary64 → option N;
}.

(** A number is an integer or a float.  Integers in the range of [i64] have [as_i64], and small
    ones are exact as floats; floats are finite and compare by value. *)
Class JsonNumberLaws (N : Type) `{JsonNumber N} := {
  as_i64_range : ∀ n i, as_i64 n = Some i → (- 2 ^ 63 ≤ i < 2 ^ 63)%Z;
  as_i64_eqb : ∀ n m i, as_i64 n = Some i → num_eqb n m = bool_decide (as_i64 m = Some i);
  num_eqb_comm : ∀ n m, num_eqb n m = num_eqb m n;
  as_i64_f64 : ∀ n i, as_i64 n = Some i → (Z.abs i ≤ 2 ^ 53)%Z →
    ∃ x, as_f64 n = Some x ∧ f_is_int x i;
  as_f64_finite : ∀ n x, as_f64 n = Some x → (0 ≤ x < 2 ^ 64)%Z ∧ f_is_finite x = true;
  is_f64_not_i64 : ∀ n, is_f64 n = true → as_i64 n = None;
  is_f64_some : ∀ n, is_f64 n = true → is_Some (as_f64 n);
  is_f64_eqb : ∀ n m x y, is_f64 n = true → is_f64 m = true →
    as_f64 n = Some x → as_f64 m = Some y → num_eqb n m = f_eq x y;
  from_f64_none : ∀ x, f_is_finite x = false → from_f64 x = None;
  from_f64_some : ∀ x, (0 ≤ x < 2 ^ 64)%Z → f_is_finite x = true →
    ∃ n, from_f64 x = Some n ∧ is_f64 n = true ∧ as_f64 n = Some x;
}.

#[warnings="-register-all"]
Inductive Value (N : Type) : Type :=
| VNull
| VBool (b : bool)
| VNumber (n : N)
| VString (s : string)
| VArray (l : list (Value N))
| VObject (m : list (string * Value N)).
Arguments VNull {N}.
Arguments VBool {N} b.
Arguments VNumber {N} n.
Arguments VString {N} s.
Arguments VArray {N} l.
Arguments VObject {N} m.

(** Induction with hypotheses for the elements of arrays and objects. *)
Fixpoint Value_nested_ind {N} (P : Value N → Prop)
    (Hnull : P VNull) (Hbool : ∀ b, P (VBool b)) (Hnum : ∀ n, P (VNumber n))
    (Hstr : ∀ s, P (VString s)) (Harr : ∀ l, Forall P l → P (VArray l))
    (Hobj : ∀ m, Forall (λ e, P e.2) m → P (VObject m)) (v : Value N) : P v :=
  let rec := Value_nested_ind P Hnull Hbool Hnum Hstr Harr Hobj in
  match v with
  | VNull => Hnull
  | VBool b => Hbool b
  | VNumber n => Hnum n
  | VString s => Hstr s
  | VArray l => Harr l ((fix go l : Forall P l :=
      match l with [] => Forall_nil_2 P | v :: l => Forall_cons_2 P v l (rec v) (go l) end) l)
  | VObject m => Hobj m ((fix go m : Forall (λ e, P e.2) m :=
      match m with
      | [] => Forall_nil_2 _
      | e :: m => Forall_cons_2 (λ e, P e.2) e m (rec e.2) (go m)
      end) m)
  end.

Section filter.
Context {N : Type} `{JsonNumber N}.

Definition value_as_object (v : Value N) : option (list (string * Value N)) :=
  match v with VObject m => Some m | _ => None end.
Definition value_as_array (v : Value N) : option (list (Value N)) :=
  match v with VArray l => Some l | _ => None end.
Definition value_as_f64 (v : Value N) : option binary64 :=
  match v with VNumber n => as_f64 n | _ => None end.

(** [Map::get] *)
Fixpoint map_get (key : string) (m : list (string * Value N)) : option (Value N) :=
  match m with
  | [] => None
  | (k, v) :: m => if String.eqb k key then Some v else map_get key m
  end.

(** [Value::eq] *)
Fixpoint value_eqb (v w : Value N) : bool :=
  match v, w with
  | VNull, VNull => true
  | VBool a, VBool b => eqb a b
  | VNumber a, VNumber b => num_eqb a b
  | VString a, VString b => String.eqb a b
  | VArray l, VArray k =>
      (fix go (l k : list (Value N)) : bool :=
         match l, k with
         | [], [] => true
         | v :: l, w :: k => value_eqb v w && go l k
         | _, _ => false
         end) l k
  | VObject l, VObject k =>
      (fix go (l k : list (string * Value N)) : bool :=
         match l, k with
         | [], [] => true
         | (a, v) :: l, (b, w) :: k => String.eqb a b && value_eqb v w && go l k
         | _, _ => false
         end) l k
  | _, _ => false
  end.

(** ** Filter expressions ([parser/ast.rs]) *)

Inductive CompareOp : Type :=
| Eq (v : Value N)
| Ne (v : Value N)
| Lt (x : binary64)
| Lte (x : binary64)
| Gt (x : binary64)
| Gte (x : binary64).

#[warnings="-register-all"]
Inductive ASTExpr : Type :=
| And (l : list ASTExpr)
| Or (l : list ASTExpr)
| Not (e : ASTExpr)
| Compare (field : string) (op : CompareOp).

(** Induction with hypotheses for the operands. *)
Fixpoint ASTExpr_nested_ind (P : ASTExpr → Prop)
    (Hand : ∀ l, Forall P l → P (And l)) (Hor : ∀ l, Forall P l → P (Or l))
    (Hnot : ∀ e, P e → P (Not e)) (Hcmp : ∀ f op, P (Compare f op)) (e : ASTExpr) : P e :=
  let rec := ASTExpr_nested_ind P Hand Hor Hnot Hcmp in
  let fix go l : Forall P l :=
    match l with [] => Forall_nil_2 P | e :: l => Forall_cons_2 P e l (rec e) (go l) end in
  match e with
  | And l => Hand l (go l)
  | Or l => Hor l (go l)
  | Not e => Hnot e (rec e)
  | Compare f op => Hcmp f op
  end.

(** ** Parser ([parser/query_parser.rs]) *)

Definition ALLOWED_DEPTH_LIMIT : nat := 2.

Inductive QueryFilterError : Type :=
| NestingTooDeep (max_depth : nat)
| UnsupportedLogicalOperator (op : string)
| UnsupportedComparisonOperator (op : string)
| InvalidValueType (expected : string) (got : Value N)
| ParseFailure (msg : string).

Fixpoint walk_path (current : Value N) (keys : list string) : option (Value N) :=
  match keys with
  | [] => Some current
  | key :: keys =>
      match current with
      | VObject m => v ← map_get key m; walk_path v keys
      | _ => None
      end
  end.

Definition get_value_by_path (value : Value N) (path : string) : option (Value N) :=
  walk_path value (str_split "."%char path).

Definition starts_with_dollar (s : string) : bool :=
  match s with String c _ => Ascii.eqb c "$"%char | EmptyString => false end.

(** The loop over the elements of [$and] and [$or], which stops at the first error. *)
Fixpoint parse_all {A B E} (f : A → result E B) (l : list A) : result E (list B) :=
  match l with
  | [] => Ok []
  | v :: l => (let? e := f v in let? es := parse_all f l in Ok (e :: es))%rust
  end.

Definition parse_number (op : binary64 → CompareOp) (val : Value N) :
    result QueryFilterError CompareOp :=
  match value_as_f64 val with
  | Some num => Ok (op num)
  | None => Err (InvalidValueType "numeric" val)
  end.

(** The operator of a condition, by its name. *)
Definition parse_op (op : string) (val : Value N) : result QueryFilterError CompareOp :=
  if String.eqb op "$eq" then Ok (Eq val)
  else if String.eqb op "$ne" then Ok (Ne val)
  else if String.eqb op "$lt" then parse_number Lt val
  else if String.eqb op "$lte" then parse_number Lte val
  else if String.eqb op "$gt" then parse_number Gt val
  else if String.eqb op "$gte" then parse_number Gte val
  else Err (UnsupportedComparisonOperator op).

Fixpoint parse_conditions (field : string) (cond : list (string * Value N)) :
    result QueryFilterError (list ASTExpr) :=
  match cond with
  | [] => Ok []
  | (op, val) :: cond =>
      (let? op := parse_op op val in
       let? es := parse_conditions field cond in
       Ok (Compare field op :: es))%rust
  end.

(** The implicit conjunction of the fields; a field whose condition is no object is skipped. *)
Fixpoint parse_fields (obj : list (string * Value N)) : result QueryFilterError (list ASTExpr) :=
  match obj with
  | [] => Ok []
  | (field, cond) :: obj =>
      match value_as_object cond with
      | Some cond_obj =>
          (let? es := parse_conditions field cond_obj in
           let? es' := parse_fields obj in Ok (es ++ es'))%rust
      | None => parse_fields obj
      end
  end.

(** [parse_query_filter_with_depth] with [levels] = [ALLOWED_DEPTH_LIMIT + 1 - depth]: no level is
    left exactly when the depth is above the limit. *)
Fixpoint parse_levels (levels : nat) (filter : Value N) : result QueryFilterError ASTExpr :=
  match levels with
  | 0 => Err (NestingTooDeep ALLOWED_DEPTH_LIMIT)
  | S levels =>
      match value_as_object filter with
      | None => Err (ParseFailure "Not a JSON object")
      | Some obj =>
          match map_get "$and" obj ≫= value_as_array with
          | Some arr =>
              (let? exprs := parse_all (parse_levels levels) arr in
               match exprs with
               | [] => Err (ParseFailure "Empty $and array or no valid expressions")
               | _ => Ok (And exprs)
               end)%rust
          | None =>
          match map_get "$or" obj ≫= value_as_array with
          | Some arr =>
              (let? exprs := parse_all (parse_levels levels) arr in
               match exprs with
               | [] => Err (ParseFailure "Empty $or array or no valid expressions")
               | _ => Ok (Or exprs)
               end)%rust
          | None =>
          match map_get "$not" obj with
          | Some sub => (let? expr := parse_levels levels sub in Ok (Not expr))%rust
          | None =>
          match List.find starts_with_dollar obj.*1 with
          | Some field => Err (UnsupportedLogicalOperator field)
          | None =>
              (let? subexprs := parse_fields obj in
               match subexprs with
               | [] => Err (ParseFailure "No valid expressions found")
               | [e] => Ok e
               | _ => Ok (And subexprs)
               end)%rust
          end end end end
      end
  end.

Definition parse_query_filter_with_depth (filter : Value N) (depth : nat) :
    result QueryFilterError ASTExpr :=
  parse_levels (ALLOWED_DEPTH_LIMIT + 1 - depth) filter.

Definition parse_query_filter (filter : Value N) : result QueryFilterError ASTExpr :=
  parse_query_filter_with_depth filter 0.

(** ** Evaluator ([parser/evaluator.rs]) *)

(** A comparison with the value of a field. *)
Definition eval_compare (op : CompareOp) (field_val : Value N) : bool :=
  match op with
  | Eq value => value_eqb field_val value
  | Ne value => negb (value_eqb field_val value)
  | Lt num => match value_as_f64 field_val with Some f1 => f_lt f1 num | None => false end
  | Lte num => match value_as_f64 field_val with Some f1 => f_le f1 num | None => false end
  | Gt num => match value_as_f64 field_val with Some f1 => f_lt num f1 | None => false end
  | Gte num => match value_as_f64 field_val with Some f1 => f_le num f1 | None => false end
  end.

Fixpoint eval_query_expr (expr : ASTExpr) (label : Value N) : bool :=
  match expr with
  | And subs => forallb (λ e, eval_query_expr e label) subs
  | Or subs => existsb (λ e, eval_query_expr e label) subs
  | Not sub => negb (eval_query_expr sub label)
  | Compare field op =>
      match get_value_by_path label field with
      | Some field_val => eval_compare op field_val
      | None => false
      end
  end.

End filter.

Arguments CompareOp N : clear implicits.
Arguments ASTExpr N : clear implicits.
Arguments QueryFilterError N : clear implicits.

(** ** Attribute values ([attribute.rs]) *)

Inductive AttributeValue : Type :=
| AEmpty
| ABool (b : bool)
| AInteger (i : Z)
| AReal (x : binary64)
| AString (s : string).

#[global] Instance AttributeValue_eq_dec : EqDecision AttributeValue.
Proof. solve_decision. Defined.

#[global] Instance AttributeValue_countable : Countable AttributeValue.
Proof.
  refine (inj_countable'
    (λ a, match a with
      | AEmpty => inl (inl ()) | ABool b => inl (inr b)
      | AInteger i => inr (inl (inl i)) | AReal x => inr (inl (inr x)) | AString s => inr (inr s)
      end)
    (λ c, match c with
      | inl (inl _) => AEmpty | inl (inr b) => ABool b
      | inr (inl (inl i)) => AInteger i | inr (inl (inr x)) => AReal x | inr (inr s) => AString s
      end) _).
  by intros [].
Defined.

Record Attribute := mkAttribute { flattened_field_name : string; attr_value : AttributeValue }.

(** The bits of [f64::NAN]. *)
Definition f_nan : binary64 := (4095 * 2 ^ 51)%Z.

(** [AttributeValue::to_bits_helper]: one pattern for all NaN and one for both zeros. *)
Definition to_bits_helper (x : binary64) : Z :=
  if f_is_nan x then f_nan else if f_eq x 0%Z then 0%Z else x.

(** [PartialEq for AttributeValue] *)
Definition attribute_value_eqb (v w : AttributeValue) : bool :=
  match v, w with
  | ABool a, ABool b => eqb a b
  | AInteger a, AInteger b => (a =? b)%Z
  | AReal a, AReal b => (to_bits_helper a =? to_bits_helper b)%Z
  | AString a, AString b => String.eqb a b
  | AEmpty, AEmpty => true
  | _, _ => false
  end.

Inductive JsonConversionError (N : Type) : Type :=
| Unsupported (n : N)
| ObjectsNotSupported
| NullValue.
Arguments Unsupported {N} n.
Arguments ObjectsNotSupported {N}.
Arguments NullValue {N}.

Section attributes.
Context {N : Type} `{JsonNumber N}.

(** [TryFrom<&Value> for AttributeValue] *)
Definition attribute_try_from (v : Value N) : result (JsonConversionError N) AttributeValue :=
  match v with
  | VNull => Err NullValue
  | VBool b => Ok (ABool b)
  | VNumber n =>
      match as_i64 n with
      | Some i => Ok (AInteger i)
      | None => match as_f64 n with Some f => Ok (AReal f) | None => Err (Unsupported n) end
      end
  | VString s => Ok (AString s)
  | VArray _ => Err ObjectsNotSupported
  | VObject _ => Err ObjectsNotSupported
  end.

(** [Attribute::from_json_value] *)
Definition from_json_value (field_name : string) (v : Value N) :
    result (JsonConversionError N) Attribute :=
  (let? value := attribute_try_from v in Ok (mkAttribute field_name value))%rust.

End attributes.

(** ** The parser on well-formed expressions *)

Section parser.
Context {N : Type} `{JsonNumberLaws N}.

Definition op_ok (op : CompareOp N) : Prop :=
  match op with
  | Eq _ | Ne _ => True
  | Lt x | Lte x | Gt x | Gte x => (0 ≤ x < 2 ^ 64)%Z ∧ f_is_finite x = true
  end.

Definition compare_ok (e : ASTExpr N) : Prop :=
  match e with
  | Compare field op => starts_with_dollar field = false ∧ op_ok op
  | _ => False
  end.

(** At most [levels - 1] operators above a comparison, none of them empty; a conjunction of
    comparisons may also stand where a comparison may ([implicit]). *)
Fixpoint expr_ok (implicit : bool) (levels : nat) (e : ASTExpr N) : Prop :=
  match levels with
  | 0 => False
  | S levels =>
      match e with
      | And es => (es ≠ [] ∧ Forall (expr_ok implicit levels) es) ∨
          (implicit = true ∧ Forall compare_ok es ∧ 2 ≤ length es)
      | Or es => es ≠ [] ∧ Forall (expr_ok implicit levels) es
      | Not e => expr_ok implicit levels e
      | Compare _ _ => compare_ok e
      end
  end.

(** The filter document of an expression. *)
Definition json_f64 (x : binary64) : Value N :=
  match from_f64 x with Some n => VNumber n | None => VNull end.

Definition render_op (op : CompareOp N) : string * Value N :=
  match op with
  | Eq v => ("$eq", v)
  | Ne v => ("$ne", v)
  | Lt x => ("$lt", json_f64 x)
  | Lte x => ("$lte", json_f64 x)
  | Gt x => ("$gt", json_f64 x)
  | Gte x => ("$gte", json_f64 x)
  end.

Fixpoint render (e : ASTExpr N) : Value N :=
  match e with
  | And es => VObject [("$and", VArray (render <$> es))]
  | Or es => VObject [("$or", VArray (render <$> es))]
  | Not e => VObject [("$not", render e)]
  | Compare field op => VObject [(field, VObject [render_op op])]
  end.

Lemma parse_render_op op : op_ok op → parse_op (render_op op).1 (render_op op).2 = Ok op.
Proof.
  destruct op as [v|v|x|x|x|x]; [done..| | | |]; cbn; intros [Hr Hf];
    destruct (from_f64_some x Hr Hf) as (n & En & _ & Ha); unfold json_f64; rewrite En; cbn;
    unfold parse_number; cbn; by rewrite Ha.
Qed.

Lemma not_dollar_get field v key : starts_with_dollar field = false →
  starts_with_dollar key = true → map_get (N := N) key [(field, v)] = None.
Proof.
  intros Hf Hk. cbn. destruct (String.eqb_spec field key) as [->|]; [congruence|done].
Qed.

Lemma parse_render_all levels es :
  Forall (λ e, parse_levels levels (render e) = Ok e) es →
  parse_all (parse_levels levels) (render <$> es) = Ok es.
Proof. induction 1 as [|e es He _ IH]; [done|]. cbn. by rewrite He, IH. Qed.

Lemma parse_render levels e : expr_ok false levels e → parse_levels levels (render e) = Ok e.
Proof.
  revert e. induction levels as [|levels IH]; intros e; [done|].
  destruct e as [es|es|e|field op].
  - intros [[Hne Hes]|[]]; [|done]. cbn. rewrite parse_render_all by (by eapply Forall_impl).
    cbn. by destruct es.
  - intros [Hne Hes]. cbn. rewrite parse_render_all by (by eapply Forall_impl).
    cbn. by destruct es.
  - intros He. cbn. by rewrite IH.
  - intros [Hf Hop]. cbn -[map_get]. do 3 rewrite not_dollar_get by done. cbn. rewrite Hf.
    destruct (render_op op) as [name v] eqn:Er. cbn.
    pose proof (parse_render_op op Hop) as Hp. rewrite Er in Hp. cbn in Hp. by rewrite Hp.
Qed.

Lemma parse_op_ok name v op : parse_op name v = Ok op → op_ok op.
Proof.
  unfold parse_op, parse_number.
  repeat (case_match; [|]); intros; simplify_eq/=; try done;
    match goal with E : value_as_f64 v = Some _ |- _ =>
      destruct v; try done; exact (as_f64_finite _ _ E) end.
Qed.

Lemma parse_conditions_ok field cond es : starts_with_dollar field = false →
  parse_conditions field cond = Ok es → Forall compare_ok es.
Proof.
  intros Hf. revert es. induction cond as [|[name v] cond IH]; intros es; cbn;
    [intros; simplify_eq; constructor|].
  destruct (parse_op name v) as [op|] eqn:Eo; [|done]. cbn.
  destruct (parse_conditions field cond) as [es'|]; [|done]. cbn. intros; simplify_eq.
  constructor; [split; [done|by eapply parse_op_ok]|by apply IH].
Qed.

Lemma parse_fields_ok obj es : List.find starts_with_dollar obj.*1 = None →
  parse_fields obj = Ok es → Forall compare_ok es.
Proof.
  revert es. induction obj as [|[field cond] obj IH]; intros es; cbn;
    [intros; simplify_eq; constructor|].
  destruct (starts_with_dollar field) eqn:Ef; [done|]. intros Hfind.
  destruct (value_as_object cond) as [c|]; [|by apply IH].
  destruct (parse_conditions field c) as [es1|] eqn:Ec; [|done]. cbn.
  destruct (parse_fields obj) as [es2|]; [|done]. cbn. intros; simplify_eq.
  apply Forall_app. split; [by eapply parse_conditions_ok|by apply IH].
Qed.

Lemma parse_all_ok {A B E} (f : A → result E B) (P : B → Prop) l es :
  (∀ v e, f v = Ok e → P e) → parse_all f l = Ok es → Forall P es.
Proof.
  intros Hf. revert es. induction l as [|v l IH]; intros es; cbn;
    [intros; simplify_eq; constructor|].
  destruct (f v) as [e|] eqn:Ee; [|done]. cbn. destruct (parse_all f l); [|done]. cbn.
  intros; simplify_eq. constructor; eauto.
Qed.

Lemma parse_sound levels filter e : parse_levels levels filter = Ok e → expr_ok true levels e.
Proof.
  revert filter e. induction levels as [|levels IH]; intros filter e; [done|]. cbn.
  destruct (value_as_object filter) as [obj|]; [|done].
  destruct (map_get "$and" obj ≫= value_as_array) as [arr|].
  { destruct (parse_all _ arr) as [es|] eqn:Ea; [|done]. cbn. destruct es; [done|].
    intros; simplify_eq. left. split; [done|]. by eapply parse_all_ok. }
  destruct (map_get "$or" obj ≫= value_as_array) as [arr|].
  { destruct (parse_all _ arr) as [es|] eqn:Ea; [|done]. cbn. destruct es; [done|].
    intros; simplify_eq. split; [done|]. by eapply parse_all_ok. }
  destruct (map_get "$not" obj) as [sub|].
  { destruct (parse_levels levels sub) as [e'|] eqn:Ee; [|done]. cbn. intros; simplify_eq.
    by apply IH in Ee. }
  destruct (List.find _ _) eqn:Ef; [done|].
  destruct (parse_fields obj) as [es|] eqn:Ep; [|done]. cbn.
  pose proof (parse_fields_ok _ _ Ef Ep) as Hes.
  destruct es as [|e1 [|e2 es]]; [done|..]; intros; simplify_eq.
  - apply Forall_inv in Hes. destruct e; [destruct Hes..|exact Hes].
  - right. split_and!; [done|done|cbn; lia].
Qed.

(** C33: The parser is complete and sound: every expression with at most two operators above a
    comparison, none of them empty, is what the parser returns for its filter document, and
    every expression that the parser returns for any document has this shape (up to conjunctions
    of comparisons, which may be one level deeper); in particular no conjunction or disjunction
    is empty, no field starts with a dollar sign and every bound is a finite number. *)
Theorem parse_query_filter_correct (e : ASTExpr N) (filter : Value N) :
  (expr_ok false (S ALLOWED_DEPTH_LIMIT) e → parse_query_filter (render e) = Ok e) ∧
  (parse_query_filter filter = Ok e → expr_ok true (S ALLOWED_DEPTH_LIMIT) e).
Proof. split; [apply (parse_render 3)|apply (parse_sound 3)]. Qed.

End parser.

(** ** A reference implementation of the numbers *)

Inductive json_number := JInt (i : Z) | JFloat (x : binary64).

Definition float_ok (x : binary64) : bool := (0 <=? x)%Z && (x <? 2 ^ 64)%Z && f_is_finite x.

#[global] Instance json_number_ops : JsonNumber json_number := {
  num_eqb n m :=
    match n, m with
    | JInt i, JInt j => (i =? j)%Z
    | JFloat x, JFloat y => f_eq x y
    | _, _ => false
    end;
  as_i64 n :=
    match n with
    | JInt i => if (- 2 ^ 63 <=? i)%Z && (i <? 2 ^ 63)%Z then Some i else None
    | JFloat _ => None
    end;
  is_f64 n := match n with JInt _ => false | JFloat x => float_ok x end;
  as_f64 n :=
    match n with
    | JInt i => if (Z.abs i <=? 2 ^ 64)%Z then Some (f_of_Z i) else None
    | JFloat x => if float_ok x then Some x else None
    end;
  from_f64 x := if f_is_finite x then Some (JFloat x) else None;
}.

Lemma float_ok_spec x : float_ok x = true → (0 ≤ x < 2 ^ 64)%Z ∧ f_is_finite x = true.
Proof. unfold float_ok. rewrite !andb_true_iff, Z.leb_le, Z.ltb_lt. tauto. Qed.

#[global] Instance json_number_laws : JsonNumberLaws json_number.
Proof.
  split.
  - intros [i|x] j; cbn; [|done]. destruct (Z.leb_spec (- 2 ^ 63) i), (Z.ltb_spec i (2 ^ 63)); cbn;
      intros; simplify_eq; lia.
  - intros [i|x] [j|y] k; cbn; intros Hi; try done;
      destruct (Z.leb_spec (- 2 ^ 63) i), (Z.ltb_spec i (2 ^ 63)); cbn in Hi; simplify_eq.
    destruct (Z.eqb_spec k j) as [->|Hne].
    + rewrite (proj2 (Z.leb_le _ _)), (proj2 (Z.ltb_lt _ _)) by done. cbn.
      by rewrite bool_decide_true.
    + rewrite bool_decide_false; [done|]. destruct (_ && _); [|done]. congruence.
  - intros [i|x] [j|y]; cbn; try done; [apply Z.eqb_sym|].
    unfold f_eq. rewrite (Z.eqb_sym (f_value x)). destruct (f_is_nan x), (f_is_nan y); done.
  - intros [i|x] j; cbn; [|done]. intros Hi Hj.
    destruct (_ && _); simplify_eq. rewrite (proj2 (Z.leb_le _ _)) by lia.
    eexists. split; [done|]. by apply f_of_Z_exact.
  - intros [i|x] y; cbn.
    + destruct (Z.leb_spec (Z.abs i) (2 ^ 64)); intros; simplify_eq. by apply f_of_Z_finite.
    + destruct (float_ok x) eqn:E; intros; simplify_eq. by apply float_ok_spec.
  - by intros [].
  - intros [i|x]; cbn; [done|]. intros ->. by eexists.
  - intros [i|x] [j|y] a b; cbn; try done. intros -> -> ? ?. by simplify_eq.
  - intros x Hx. cbn. by rewrite Hx.
  - intros x Hr Hf. exists (JFloat x). cbn. unfold float_ok. rewrite Hf.
    rewrite (proj2 (Z.leb_le _ _)), (proj2 (Z.ltb_lt _ _)) by lia. done.
Qed.

(** Two operators above a comparison. *)
Definition example_expr : ASTExpr json_number :=
  And [Or [Compare "age" (Gte (f_of_Z 18)); Compare "vip" (Eq (VBool true))];
       Not (Compare "specs.cpu" (Eq (VString "i7")))].

Lemma parse_query_filter_correct_witness :
  parse_query_filter (render example_expr) = Ok example_expr ∧
  expr_ok true 3 example_expr.
Proof.
  destruct (parse_query_filter_correct example_expr (render example_expr)) as [H1 H2].
  assert (parse_query_filter (render example_expr) = Ok example_expr) as E.
  { apply H1. cbn. left. split; [done|]. repeat constructor; done. }
  split; [exact E|exact (H2 E)].
Defined.

(** ** What the parser leaves out *)

(** Conditions beside an operator, and conditions that are no object, are dropped silently. *)
Lemma parser_drops_conditions :
  parse_query_filter (N := json_number)
    (VObject [("$not", VObject [("a", VObject [("$eq", VBool true)])]);
              ("b", VObject [("$eq", VBool true)])]) =
    Ok (Not (Compare "a" (Eq (VBool true)))) ∧
  parse_query_filter (N := json_number)
    (VObject [("a", VObject [("$eq", VBool true)]); ("b", VBool true)]) =
    Ok (Compare "a" (Eq (VBool true))).
Proof. by split. Qed.
