(* ===== verification/LabelFlatten.v ===== *)
(** * Label filters: flattening of labels

    Models [diskann-label-filter/src/utils/flatten_utils.rs]: the leaves of a JSON label as pairs
    of a path and an attribute value.

    - the recursive walk, with the path in one string that is extended and cut back
      ([StringStack]); a leaf that is no attribute value (null) panics;
    - Section [agreement]: on labels without nulls and arrays, looking up the pointer of a field in
      the flattened label is looking up the field in the label ([get_value_by_path]). *)

From Stdlib Require Import Ascii.
From stdpp Require Import strings pretty.
From S2P Require Import Prelude Strings LabelJson.

(** [String::truncate]: no effect beyond the length. *)
Fixpoint str_truncate (n : nat) (s : string) : string :=
  match n, s with
  | 0, _ => EmptyString
  | S n, EmptyString => EmptyString
  | S n, String a s => String a (str_truncate n s)
  end.

Record FlattenConfig := mkFlattenConfig {
  separator : string;
  include_array_indices : bool;
  root_prefix : string;
}.

Definition flatten_default : FlattenConfig := mkFlattenConfig "/" true "".
Definition dot_notation : FlattenConfig := mkFlattenConfig "." true "".
Definition underscore_notation : FlattenConfig := mkFlattenConfig "_" true "".
Definition with_separator (sep : string) : FlattenConfig := mkFlattenConfig sep true "".

Section flatten.
Context {N : Type} `{JsonNumber N}.

(** [StringStack::push]: the new text and the length to which it is cut back when the new stack is
    dropped. *)
Definition stack_push (s value sep : string) : string * nat := (s +:+ sep +:+ value, String.length s).

(** [flatten_recursive]: the shared string after the stack of this call is dropped, and the
    entries. *)
Fixpoint flatten_recursive (sep : string) (value : Value N) (s : string) (prefix : nat)
    (out : list (string * AttributeValue)) : option (string * list (string * AttributeValue)) :=
  match value with
  | VObject m =>
      '(s, out) ← (fix go m s out :=
         match m with
         | [] => Some (s, out)
         | (k, v) :: m =>
             let '(s, prefix) := stack_push s k sep in
             '(s, out) ← flatten_recursive sep v s prefix out; go m s out
         end) m s out;
      Some (str_truncate prefix s, out)
  | VArray arr =>
      '(s, out) ← (fix go (i : nat) arr s out :=
         match arr with
         | [] => Some (s, out)
         | item :: arr =>
             let '(s, prefix) := stack_push s (pretty i) sep in
             '(s, out) ← flatten_recursive sep item s prefix out; go (S i) arr s out
         end) 0 arr s out;
      Some (str_truncate prefix s, out)
  | _ =>
      match attribute_try_from value with
      | Ok rv => Some (str_truncate prefix s, out ++ [(s, rv)])
      | Err _ => None
      end
  end.

(** [flatten_json_pointer_inner] *)
Definition flatten_json_pointer_inner (value : Value N) (current : string)
    (out : list (string * AttributeValue)) (sep : string) :
    option (list (string * AttributeValue)) :=
  snd <$> flatten_recursive sep value current (String.length current) out.

Definition flatten_json_pointers_with_config (value : Value N) (config : FlattenConfig) :
    option (list (string * AttributeValue)) :=
  flatten_json_pointer_inner value (root_prefix config) [] (separator config).

Definition flatten_json_pointers (value : Value N) : option (list (string * AttributeValue)) :=
  flatten_json_pointers_with_config value flatten_default.

(** [collect] into a hash map: the last entry of a path stays. *)
Definition collect_map (l : list (string * AttributeValue)) : gmap string AttributeValue :=
  foldl (λ m e, <[e.1 := e.2]> m) ∅ l.

Definition flatten_json_pointers_map_with_config (value : Value N) (config : FlattenConfig) :
    option (gmap string AttributeValue) :=
  collect_map <$> flatten_json_pointers_with_config value config.

Definition flatten_json_pointers_map (value : Value N) : option (gmap string AttributeValue) :=
  collect_map <$> flatten_json_pointers value.

End flatten.

(** ** Paths *)

(** [str::replace] of a character by a character. *)
Fixpoint str_replace (c d : ascii) (s : string) : string :=
  match s with
  | EmptyString => EmptyString
  | String a s => String (if Ascii.eqb a c then d else a) (str_replace c d s)
  end.

(** The JSON pointer of a path of keys. *)
Fixpoint pointer (keys : list string) : string :=
  match keys with [] => EmptyString | k :: ks => String "/" (k +:+ pointer ks) end.

(** The field normalizer that the documentation of [GenericIndex] gives:
    [format!("/{}", field.replace(".", "/"))]. *)
Definition pointer_normalizer (field : string) : string := String "/" (str_replace "." "/" field).

Lemma str_truncate_app s t : str_truncate (String.length s) (s +:+ t) = s.
Proof. induction s as [|a s IH]; [by destruct t|]. rewrite str_app_cons. cbn. by f_equal. Qed.

Lemma str_truncate_self s : str_truncate (String.length s) s = s.
Proof. pose proof (str_truncate_app s "") as E. by rewrite str_app_nil_r in E. Qed.

Lemma pointer_split field :
  pointer (str_split "." field) = pointer_normalizer field.
Proof.
  unfold pointer_normalizer. induction field as [|a s IH]; [done|]. cbn.
  destruct (Ascii.eqb a ".") eqn:Ea; cbn.
  - by rewrite IH.
  - destruct (str_split "." s) as [|p ps]; [done|]. cbn in IH |- *. rewrite str_app_cons.
    injection IH as IH. by rewrite IH.
Qed.

(** A piece without a slash ends at the first slash. *)
Lemma slash_app_inj k k' ks ks' :
  str_has "/" k = false → str_has "/" k' = false →
  k +:+ pointer ks = k' +:+ pointer ks' → k = k' ∧ pointer ks = pointer ks'.
Proof.
  revert k'. induction k as [|a k IH]; intros [|a' k'] Hk Hk' E; cbn in *.
  - done.
  - destruct ks; [done|]. rewrite str_app_cons in E. injection E as <- _. done.
  - destruct ks'; [done|]. rewrite str_app_cons in E. injection E as -> _. done.
  - rewrite !str_app_cons in E. injection E as <- E. apply orb_false_iff in Hk as [_ Hk], Hk' as [_ Hk'].
    destruct (IH k' Hk Hk' E) as [-> E']. done.
Qed.

Lemma pointer_inj ks ks' :
  Forall (λ k, str_has "/" k = false) ks → Forall (λ k, str_has "/" k = false) ks' →
  pointer ks = pointer ks' → ks = ks'.
Proof.
  intros Hks. revert ks'. induction Hks as [|k ks Hk _ IH]; intros ks' Hks' E.
  - by destruct Hks'.
  - destruct Hks' as [|k' ks' Hk' Hks']; [done|]. cbn in E. injection E as E.
    apply slash_app_inj in E as [-> E]; [|done..]. f_equal. by apply IH.
Qed.

(** ** The flattened label *)

Section agreement.
Context {N : Type} `{JsonNumber N}.

(** No nulls, no arrays, numbers that convert, keys that are distinct and have no slash. *)
Fixpoint plain (v : Value N) : Prop :=
  match v with
  | VNull | VArray _ => False
  | VBool _ | VString _ => True
  | VNumber n => is_Some (as_i64 n) ∨ is_Some (as_f64 n)
  | VObject m => NoDup m.*1 ∧ Forall (λ k, str_has "/" k = false) m.*1 ∧
      (fix go m := match m with [] => True | (_, v) :: m => plain v ∧ go m end) m
  end.

Lemma plain_object m : plain (VObject m) →
  NoDup m.*1 ∧ Forall (λ k, str_has "/" k = false) m.*1 ∧ Forall (λ e, plain e.2) m.
Proof.
  intros (Hn & Hf & Hm). split_and!; [done..|]. clear Hn Hf.
  induction m as [|[k v] m IH]; [constructor|]. destruct Hm as [Hv Hm].
  constructor; [exact Hv|by apply IH].
Qed.

(** The leaves of a label, each with its path of keys. *)
Definition leaf_at (v : Value N) (keys : list string) (av : AttributeValue) : Prop :=
  ∃ leaf, walk_path v keys = Some leaf ∧ attribute_try_from leaf = Ok av.

Lemma map_get_elem k (v : Value N) m : NoDup m.*1 → map_get k m = Some v ↔ (k, v) ∈ m.
Proof.
  induction m as [|[k' v'] m IH]; cbn [fmap list_fmap fst].
  - intros _. split; [done|by intros ?%not_elem_of_nil].
  - intros [Hk Hm]%NoDup_cons. cbn. destruct (String.eqb_spec k' k) as [->|Hne].
    + split; [intros; simplify_eq; by left|].
      intros [?|Hin]%elem_of_cons; [by simplify_eq|]. destruct Hk.
      by apply (list_elem_of_fmap_2 fst) in Hin.
    + rewrite IH by done. rewrite elem_of_cons. split; [by right|].
      intros [?|?]; [by simplify_eq|done].
Qed.

Lemma leaf_at_object m keys av : NoDup m.*1 →
  leaf_at (VObject m) keys av ↔ ∃ k v ks, keys = k :: ks ∧ (k, v) ∈ m ∧ leaf_at v ks av.
Proof.
  intros Hn. unfold leaf_at. destruct keys as [|k ks]; cbn.
  { split; [intros (? & ? & ?); by simplify_eq/=|by intros (? & ? & ? & ? & _)]. }
  split.
  - intros (leaf & Hw & Ha). destruct (map_get k m) as [v|] eqn:E; [|done].
    apply map_get_elem in E; [|done]. exists k, v, ks. eauto.
  - intros (? & v & ? & ? & Hin & leaf & Hw & Ha). simplify_eq.
    apply map_get_elem in Hin as ->; [|done]. by exists leaf.
Qed.

(** What the walk adds for one value. *)
Definition adds (v : Value N) : Prop := ∀ s p out, ∃ new,
  flatten_recursive "/" v s p out = Some (str_truncate p s, out ++ new) ∧
  NoDup new.*1 ∧
  ∀ path av, (path, av) ∈ new ↔ ∃ keys, Forall (λ k, str_has "/" k = false) keys ∧
    path = s +:+ pointer keys ∧ leaf_at v keys av.

Lemma str_app_inj s t u : s +:+ t = s +:+ u → t = u.
Proof. induction s as [|a s IH]; [done|]. rewrite !str_app_cons. intros [= E]. by apply IH. Qed.

Lemma str_app_assoc s t u : s +:+ (t +:+ u) = (s +:+ t) +:+ u.
Proof. induction s as [|a s IH]; [done|]. rewrite !str_app_cons. by f_equal. Qed.

Lemma adds_leaf v av : attribute_try_from v = Ok av → adds v.
Proof.
  intros Ha s p out. exists [(s, av)].
  assert (∀ keys a, leaf_at v keys a ↔ keys = [] ∧ a = av) as Hleaf.
  { intros keys a. unfold leaf_at. split.
    - intros (leaf & Hw & Hl). destruct keys as [|k ks]; [cbn in Hw; simplify_eq; by rewrite Ha in Hl; simplify_eq|].
      cbn in Hw. by destruct v.
    - intros [-> ->]. by exists v. }
  split_and!.
  - destruct v; cbn in Ha |- *; try done; by rewrite ?Ha; simplify_eq.
  - apply NoDup_singleton.
  - intros path a. rewrite list_elem_of_singleton. split.
    + intros; simplify_eq. exists []. split_and!; [constructor|by rewrite str_app_nil_r|by apply Hleaf].
    + intros (keys & _ & -> & [-> ->]%Hleaf). cbn. by rewrite str_app_nil_r.
Qed.

(** The loop of [flatten_recursive] over the entries of an object. *)
Definition flatten_entries (sep : string) : list (string * Value N) → string →
    list (string * AttributeValue) → option (string * list (string * AttributeValue)) :=
  fix go m s out :=
    match m with
    | [] => Some (s, out)
    | (k, v) :: m =>
        let '(s, prefix) := stack_push s k sep in
        '(s, out) ← flatten_recursive sep v s prefix out; go m s out
    end.

Lemma flatten_entries_adds m s out :
  NoDup m.*1 → Forall (λ k, str_has "/" k = false) m.*1 → Forall (λ e, adds e.2) m →
  ∃ new, flatten_entries "/" m s out = Some (s, out ++ new) ∧ NoDup new.*1 ∧
  ∀ path av, (path, av) ∈ new ↔ ∃ keys, Forall (λ k, str_has "/" k = false) keys ∧
    path = s +:+ pointer keys ∧ leaf_at (VObject m) keys av.
Proof.
  intros Hn Hf Hm. revert out.
  induction Hm as [|[k v] m Hv Hm IH]; intros out; cbn [fmap list_fmap fst snd] in *.
  { exists []. rewrite app_nil_r. split_and!; [done|constructor|]. intros path av.
    split; [by intros ?%not_elem_of_nil|].
    intros (keys & _ & _ & Hl). by apply leaf_at_object in Hl as (? & ? & ? & _ & ?%not_elem_of_nil & _). }
  pose proof Hn as [Hk Hn']%NoDup_cons. apply Forall_cons in Hf as [Hkf Hf].
  destruct (Hv (s +:+ "/" +:+ k) (String.length s) out) as (new1 & E1 & N1 & M1).
  destruct (IH Hn' Hf (out ++ new1)) as (new2 & E2 & N2 & M2).
  assert (∀ ks, (s +:+ "/" +:+ k) +:+ pointer ks = s +:+ pointer (k :: ks)) as Hp
    by (intros ks; by rewrite <-str_app_assoc).
  exists (new1 ++ new2). split_and!.
  - unfold flatten_entries; fold (flatten_entries "/"). cbn [stack_push].
    rewrite E1. cbn [mbind option_bind]. rewrite str_truncate_app, E2. by rewrite app_assoc.
  - rewrite fmap_app. apply NoDup_app. split_and!; [done| |done].
    intros path ([p av] & -> & Hin1)%list_elem_of_fmap ([p' av'] & Hpp & Hin2)%list_elem_of_fmap.
    cbn in Hpp. subst p'. apply M1 in Hin1 as (ks1 & F1 & -> & _).
    apply M2 in Hin2 as (ks2 & F2 & E & L2). rewrite Hp in E. apply str_app_inj, pointer_inj in E;
      [|by constructor|done]. subst ks2.
    apply leaf_at_object in L2 as (k' & v' & ks & ? & Hin & _); [|done]. simplify_eq.
    apply Hk. by apply (list_elem_of_fmap_2 fst) in Hin.
  - intros path av. rewrite elem_of_app, M1, M2. split.
    + intros [(ks & F & -> & L)|(ks & F & -> & L)].
      * exists (k :: ks). split_and!; [by constructor|apply Hp|].
        apply leaf_at_object; [done|]. exists k, v, ks. split_and!; [done|by left|done].
      * exists ks. split_and!; [done..|]. apply leaf_at_object in L as (k' & v' & ks' & -> & Hin & L);
          [|done]. apply leaf_at_object; [done|]. exists k', v', ks'. split_and!; [done|by right|done].
    + intros (keys & F & -> & L). apply leaf_at_object in L as (k' & v' & ks & -> & Hin & L); [|done].
      apply Forall_cons in F as [F1 F2]. apply elem_of_cons in Hin as [?|Hin]; simplify_eq.
      * left. exists ks. split_and!; [done| |done]. by rewrite Hp.
      * right. exists (k' :: ks). split_and!; [by constructor|done|].
        apply leaf_at_object; [done|]. by exists k', v', ks.
Qed.

Lemma plain_adds v : plain v → adds v.
Proof.
  induction v as [|b|n|str|l IH|m IH] using Value_nested_ind; [done| | | |done|].
  - intros _. by eapply adds_leaf.
  - intros Hn. destruct (attribute_try_from (VNumber n)) as [av|e] eqn:E;
      [by eapply adds_leaf|]. cbn in E, Hn. destruct (as_i64 n); [done|].
    destruct (as_f64 n); [done|]. destruct Hn as [[? ?]|[? ?]]; done.
  - intros _. by eapply adds_leaf.
  - intros Hp. apply plain_object in Hp as (Hn & Hf & Hm). intros s p out.
    destruct (flatten_entries_adds m s out Hn Hf) as (new & E & Hnew & M).
    { rewrite Forall_forall in IH, Hm |- *. eauto. }
    exists new. split_and!; [|done|exact M].
    cbn [flatten_recursive]. fold (flatten_entries "/"). rewrite E. done.
Qed.

Lemma collect_map_lookup l path av : NoDup l.*1 →
  collect_map l !! path = Some av ↔ (path, av) ∈ l.
Proof.
  unfold collect_map. intros Hn.
  assert (∀ m : gmap string AttributeValue, (∀ k, k ∈ l.*1 → m !! k = None) →
    foldl (λ m e, <[e.1 := e.2]> m) m l !! path = Some av ↔ (path, av) ∈ l ∨ m !! path = Some av)
    as Hgen.
  { induction l as [|[k v] l IH]; intros m Hm; cbn.
    - split; [by right|by intros [?%not_elem_of_nil|]].
    - cbn in Hn. apply NoDup_cons in Hn as [Hk Hn]. rewrite IH; [|done|].
      + rewrite elem_of_cons. destruct (decide (k = path)) as [->|Hne].
        * rewrite lookup_insert_eq, (Hm path) by (by left). naive_solver.
        * rewrite lookup_insert_ne by done. naive_solver.
      + intros k' Hk'. rewrite lookup_insert_ne by (intros ->; done). apply Hm. by right. }
  rewrite Hgen; [|done]. rewrite lookup_empty. naive_solver.
Qed.

(** The flattened label has, at the pointer of a field, the value of the field. *)
Lemma flatten_agrees (v : Value N) : plain v →
  ∃ attrs, flatten_json_pointers_map v = Some attrs ∧
  ∀ field, str_has "/" field = false → ∀ av,
    attrs !! pointer_normalizer field = Some av ↔
    ∃ leaf, get_value_by_path v field = Some leaf ∧ attribute_try_from leaf = Ok av.
Proof.
  intros Hp. destruct (plain_adds v Hp "" 0 []) as (new & E & Hn & M).
  exists (collect_map new). split.
  { unfold flatten_json_pointers_map, flatten_json_pointers, flatten_json_pointers_with_config,
      flatten_json_pointer_inner. cbn. by rewrite E. }
  intros field Hf av. rewrite collect_map_lookup, M by done. rewrite <-pointer_split.
  unfold get_value_by_path. split.
  - intros (keys & F & Ek & L). apply pointer_inj in Ek; [by subst keys|by apply str_split_has|done].
  - intros L. exists (str_split "." field). split_and!; [by apply str_split_has|done|exact L].
Qed.

End agreement.

(** ** What flattening leaves out *)

(** A null anywhere in a label panics; the keys are not escaped, so that two labels can have the
    same pointers; empty containers have no entry. *)
Lemma flatten_limits (N := json_number) :
  flatten_json_pointers (N := N) (VObject [("a", VNull)]) = None ∧
  flatten_json_pointers (N := N) (VObject [("a/b", VBool true)]) =
    flatten_json_pointers (VObject [("a", VObject [("b", VBool true)])]) ∧
  flatten_json_pointers (N := N) (VObject [("a", VArray [])]) = Some [].
Proof. by split_and!. Qed.
