(* ===== verification/LabelKeys.v ===== *)
(** * Label filters: keys of the inverted index

    Models the key codec ([diskann-label-filter/src/traits/key_codec.rs]), the ranges of keys
    ([traits/kv_store_traits.rs]) and the range bounds of [GenericIndex]
    ([kv_index/generic_index.rs]).

    - a key is a byte string; keys are ordered byte by byte;
    - the lemmas: keys of different attributes are different (for field names without NUL), a
      range of keys of one field and type contains exactly the keys whose encoded number is in the
      range, and the encoding of integers and of floats is monotone. *)

From Stdlib Require Import Ascii.
From stdpp Require Import strings pretty.
From S2P Require Import Prelude Strings Bytes LabelJson LabelFlatten.
Local Open Scope Z_scope.

(** [String::into_bytes] *)
Fixpoint into_bytes (s : string) : list Z :=
  match s with EmptyString => [] | String a s => Z.of_nat (nat_of_ascii a) :: into_bytes s end.

(** The order of byte slices. *)
Fixpoint bytes_ltb (k l : list Z) : bool :=
  match k, l with
  | _, [] => false
  | [], _ :: _ => true
  | a :: k, b :: l => (a <? b) || ((a =? b) && bytes_ltb k l)
  end.

(** ** Ranges of keys *)

Inductive RangeBound := Unbounded | Included (k : list Z) | Excluded (k : list Z).

Record KeyRange := mkKeyRange { range_start : RangeBound; range_end : RangeBound }.

(** [KeyRange::full] *)
Definition range_full : KeyRange := mkKeyRange Unbounded Unbounded.

(** [KeyRange::contains] *)
Definition range_contains (r : KeyRange) (key : list Z) : bool :=
  match range_start r with
  | Unbounded => true
  | Included s => negb (bytes_ltb key s)
  | Excluded s => bytes_ltb s key
  end &&
  match range_end r with
  | Unbounded => true
  | Included e => negb (bytes_ltb e key)
  | Excluded e => bytes_ltb key e
  end.

(** [From<Range<&T>> for KeyRange], the range of [start..end] *)
Definition key_range (start end_ : list Z) : KeyRange := mkKeyRange (Included start) (Excluded end_).

(** ** The default codec *)

Definition TYPE_PREFIX_INTEGER : string := "I".
Definition TYPE_PREFIX_FLOAT : string := "F".
Definition TYPE_PREFIX_STRING : string := "S".
Definition TYPE_PREFIX_BOOL : string := "B".
Definition FIELD_SEPARATOR : string := String "000" EmptyString.

(** [encode_i64]: the sign bit is flipped. *)
Definition encode_i64 (n : Z) : Z := Z.lxor (n mod 2 ^ 64) (2 ^ 63).

(** [encode_f64]: the sign bit of a positive number is flipped, a negative one is complemented. *)
Definition encode_f64 (bits : binary64) : Z :=
  if Z.shiftr bits 63 =? 0 then Z.lxor bits (2 ^ 63) else 2 ^ 64 - 1 - bits.

Definition hex_digit (d : Z) : Z := if d <? 10 then 48 + d else 87 + d.

(** [{:0nx}]: [n] hexadecimal digits. *)
Fixpoint hex (n : nat) (z : Z) : list Z :=
  match n with
  | O => []
  | S n => hex_digit (z / 16 ^ Z.of_nat n mod 16) :: hex n z
  end.

(** The prefix of all keys of a field and a type. *)
Definition key_prefix (field type : string) : list Z :=
  into_bytes (field +:+ FIELD_SEPARATOR +:+ type).

Definition format_integer_value (field : string) (value : Z) : list Z :=
  key_prefix field TYPE_PREFIX_INTEGER ++ hex 16 (encode_i64 value).
Definition format_float_value (field : string) (value : binary64) : list Z :=
  key_prefix field TYPE_PREFIX_FLOAT ++ hex 16 (encode_f64 value).
Definition format_string_value (field value : string) : list Z :=
  key_prefix field TYPE_PREFIX_STRING ++ into_bytes value.
Definition format_bool_value (field : string) (value : bool) : list Z :=
  key_prefix field TYPE_PREFIX_BOOL ++ into_bytes (if value then "1" else "0").

(** [DefaultKeyCodec::encode_field_value_key] *)
Definition encode_field_value_key (field : string) (value : AttributeValue) : list Z :=
  match value with
  | AInteger i => format_integer_value field i
  | AReal f => format_float_value field f
  | AString s => format_string_value field s
  | ABool b => format_bool_value field b
  | AEmpty => format_string_value field ""
  end.

(** ** Range bounds ([kv_index/generic_index.rs]) *)

Section bounds.
Context {N : Type} `{JsonNumber N}.
Variable (debug : bool).

(** The UTF-8 encoding of U+10FFFF. *)
Definition max_char : list Z := [244; 143; 191; 191].

Definition get_compare_value (op : CompareOp N) : option binary64 :=
  match op with
  | Eq v | Ne v => value_as_f64 v
  | Lt v | Lte v | Gt v | Gte v => Some v
  end.

(** Addition on [i64]. *)
Definition i64_add (a b : Z) : option Z :=
  if debug then (if a + b <? 2 ^ 63 then Some (a + b) else None)
  else Some ((a + b + 2 ^ 63) mod 2 ^ 64 - 2 ^ 63).

Definition get_integer_range_bounds (field : string) (op : CompareOp N) :
    option (list Z * list Z) :=
  match get_compare_value op with
  | None => Some ([], [])
  | Some value =>
      match op with
      | Gte _ | Gt _ =>
          let val := f_to_i64 value in
          adjusted_val ← match op with Gt _ => i64_add val 1 | _ => Some val end;
          Some (encode_field_value_key field (AInteger adjusted_val),
                key_prefix field TYPE_PREFIX_INTEGER ++ max_char)
      | Lte _ | Lt _ =>
          let val := f_to_i64 value in
          adjusted_val ← match op with Lte _ => i64_add val 1 | _ => Some val end;
          Some (key_prefix field TYPE_PREFIX_INTEGER,
                encode_field_value_key field (AInteger adjusted_val))
      | _ => Some ([], [])
      end
  end.

Definition get_float_range_bounds (field : string) (op : CompareOp N) : list Z * list Z :=
  match get_compare_value op with
  | None => ([], [])
  | Some value =>
      match op with
      | Gte _ | Gt _ =>
          match from_f64 value with
          | Some _ =>
              (encode_field_value_key field (AReal value),
               key_prefix field TYPE_PREFIX_FLOAT ++ max_char)
          | None => ([], [])
          end
      | Lte _ | Lt _ =>
          match from_f64 value with
          | Some _ =>
              (key_prefix field TYPE_PREFIX_FLOAT, encode_field_value_key field (AReal value))
          | None => ([], [])
          end
      | _ => ([], [])
      end
  end.
End bounds.

(** ** Order of byte strings *)

Lemma bytes_ltb_irrefl k : bytes_ltb k k = false.
Proof. induction k as [|a k IH]; [done|]. cbn. by rewrite Z.ltb_irrefl, Z.eqb_refl. Qed.

Lemma bytes_ltb_app p k l : bytes_ltb (p ++ k) (p ++ l) = bytes_ltb k l.
Proof. induction p as [|a p IH]; [done|]. cbn. by rewrite Z.ltb_irrefl, Z.eqb_refl. Qed.

(** Whatever lies between two extensions of a prefix has this prefix. *)
Lemma bytes_between p a b k :
  bytes_ltb k (p ++ a) = false → bytes_ltb k (p ++ b) = true → ∃ r, k = p ++ r.
Proof.
  revert k. induction p as [|c p IH]; intros k Ha Hb; [by exists k|].
  destruct k as [|d k]; cbn in Ha, Hb; [done|].
  apply orb_false_iff in Ha as [Hlt Ha]. rewrite Hlt in Hb. cbn in Hb.
  apply andb_true_iff in Hb as [->%Z.eqb_eq Hb]. rewrite Z.eqb_refl in Ha.
  destruct (IH k Ha Hb) as [r ->]. by exists r.
Qed.

(** A range between two extensions of a prefix. *)
Lemma range_prefix p a b k :
  range_contains (key_range (p ++ a) (p ++ b)) k = true ↔
  ∃ r, k = p ++ r ∧ bytes_ltb r a = false ∧ bytes_ltb r b = true.
Proof.
  unfold range_contains, key_range. cbn. rewrite andb_true_iff, negb_true_iff. split.
  - intros [Ha Hb]. destruct (bytes_between p a b k Ha Hb) as [r ->].
    rewrite bytes_ltb_app in Ha, Hb. by exists r.
  - intros (r & -> & Ha & Hb). by rewrite !bytes_ltb_app.
Qed.

(** ** Hexadecimal numbers *)

Lemma hex_digit_lt a b : 0 ≤ a < 16 → 0 ≤ b < 16 →
  (hex_digit a <? hex_digit b) = (a <? b) ∧ (hex_digit a =? hex_digit b) = (a =? b).
Proof.
  intros. unfold hex_digit. destruct (Z.ltb_spec a 10), (Z.ltb_spec b 10); split;
    apply eq_true_iff_eq; rewrite ?Z.ltb_lt, ?Z.eqb_eq; lia.
Qed.

Lemma hex_mod n z : z mod 16 ^ Z.of_nat (S n) =
  (z / 16 ^ Z.of_nat n mod 16) * 16 ^ Z.of_nat n + z mod 16 ^ Z.of_nat n.
Proof.
  rewrite Nat2Z.inj_succ, Z.pow_succ_r, Z.mul_comm, Z.rem_mul_r by lia. lia.
Qed.

Lemma hex_ltb n a b :
  bytes_ltb (hex n a) (hex n b) = (a mod 16 ^ Z.of_nat n <? b mod 16 ^ Z.of_nat n).
Proof.
  induction n as [|n IH]; [by rewrite !Z.mod_1_r|]. cbn [hex bytes_ltb].
  destruct (hex_digit_lt (a / 16 ^ Z.of_nat n mod 16) (b / 16 ^ Z.of_nat n mod 16)) as [-> ->];
    [by apply Z.mod_pos_bound..|].
  rewrite IH, !hex_mod. pose proof (Z.pow_pos_nonneg 16 (Z.of_nat n)) as Hp.
  pose proof (Z.mod_pos_bound a (16 ^ Z.of_nat n)). pose proof (Z.mod_pos_bound b (16 ^ Z.of_nat n)).
  apply eq_true_iff_eq. rewrite orb_true_iff, andb_true_iff, !Z.ltb_lt, Z.eqb_eq. nia.
Qed.

Lemma hex16_ltb a b : 0 ≤ a < 2 ^ 64 → 0 ≤ b < 2 ^ 64 →
  bytes_ltb (hex 16 a) (hex 16 b) = (a <? b).
Proof.
  intros. rewrite hex_ltb. change (16 ^ Z.of_nat 16) with (2 ^ 64). by rewrite !Z.mod_small.
Qed.

Lemma hex16_inj a b : 0 ≤ a < 2 ^ 64 → 0 ≤ b < 2 ^ 64 → hex 16 a = hex 16 b → a = b.
Proof.
  intros Ha Hb E. pose proof (hex16_ltb a b Ha Hb) as E1. pose proof (hex16_ltb b a Hb Ha) as E2.
  rewrite E, bytes_ltb_irrefl in E1. rewrite E, bytes_ltb_irrefl in E2.
  symmetry in E1, E2. apply Z.ltb_ge in E1, E2. lia.
Qed.

Lemma hex_below_max n z : bytes_ltb (hex n z) max_char = true.
Proof.
  destruct n as [|n]; [done|]. cbn. set (d := _ mod 16).
  assert (0 ≤ d < 16) by (by apply Z.mod_pos_bound).
  rewrite (proj2 (Z.ltb_lt _ _)); [done|]. unfold hex_digit. case_match; lia.
Qed.

(** ** Encoded numbers *)

Lemma lxor_sign x : 0 ≤ x < 2 ^ 63 → Z.lxor x (2 ^ 63) = x + 2 ^ 63.
Proof.
  intros. rewrite Z.add_nocarry_lxor; [done|]. apply Z.bits_inj'. intros n Hn.
  rewrite Z.land_spec, Z.bits_0, Z.pow2_bits_eqb by lia. 
  destruct (Z.eqb_spec 63 n) as [<-|]; [|by rewrite andb_false_r].
  rewrite Z.testbit_eqb, Z.div_small by lia. done.
Qed.

Lemma lxor_sign_high x : 2 ^ 63 ≤ x < 2 ^ 64 → Z.lxor x (2 ^ 63) = x - 2 ^ 63.
Proof.
  intros. assert (Z.lxor (x - 2 ^ 63) (2 ^ 63) = x) as E by (rewrite lxor_sign; lia).
  rewrite <-E at 1. rewrite Z.lxor_assoc, Z.lxor_nilpotent, Z.lxor_0_r. done.
Qed.

Lemma encode_i64_eq n : - 2 ^ 63 ≤ n < 2 ^ 63 → encode_i64 n = n + 2 ^ 63.
Proof.
  intros. unfold encode_i64. destruct (Z.ltb_spec n 0).
  - replace (n mod 2 ^ 64) with (n + 2 ^ 64).
    + rewrite lxor_sign_high by lia. lia.
    + rewrite <-(Z_mod_plus_full n 1), Z.mod_small by lia. lia.
  - rewrite Z.mod_small, lxor_sign by lia. done.
Qed.

Lemma encode_f64_eq x : 0 ≤ x < 2 ^ 64 →
  encode_f64 x = if f_negative x then 2 ^ 64 - 1 - x else x + 2 ^ 63.
Proof.
  intros. unfold encode_f64, f_negative. rewrite Z.shiftr_div_pow2 by lia.
  destruct (Z.leb_spec (2 ^ 63) x) as [Hx|Hx].
  - pose proof (Z.div_le_lower_bound x (2 ^ 63) 1). rewrite (proj2 (Z.eqb_neq _ _)) by lia. done.
  - rewrite Z.div_small, Z.eqb_refl by lia. apply lxor_sign. lia.
Qed.

Lemma encode_f64_range x : 0 ≤ x < 2 ^ 64 → 0 ≤ encode_f64 x < 2 ^ 64.
Proof.
  intros. rewrite encode_f64_eq by done. unfold f_negative. destruct (Z.leb_spec (2 ^ 63) x); lia.
Qed.

(** The pattern of [-0.0], the only one with the value of another. *)
Definition f_neg_zero : binary64 := 2 ^ 63.

Lemma f_abs_lt_iff a b : 0 ≤ a → 0 ≤ b → f_abs a < f_abs b ↔ a < b.
Proof.
  intros Ha Hb. split; [|intros; by apply f_abs_lt].
  intros Hlt. destruct (Z.lt_trichotomy a b) as [|[->|]]; [done|lia|].
  pose proof (f_abs_lt b a). lia.
Qed.

Lemma encode_f64_lt x y : 0 ≤ x < 2 ^ 64 → 0 ≤ y < 2 ^ 64 → x ≠ f_neg_zero → y ≠ f_neg_zero →
  encode_f64 x < encode_f64 y ↔ f_value x < f_value y.
Proof.
  intros Hx Hy Hnx Hny. rewrite !encode_f64_eq by done.
  unfold f_value, f_negative, f_magnitude, f_neg_zero in *.
  assert (∀ z, 0 ≤ z < 2 ^ 64 → z mod 2 ^ 63 = if 2 ^ 63 <=? z then z - 2 ^ 63 else z) as Hmod.
  { intros z ?. destruct (Z.leb_spec (2 ^ 63) z); [|apply Z.mod_small; lia].
    replace z with (z - 2 ^ 63 + 1 * 2 ^ 63) at 1 by lia.
    rewrite Z_mod_plus_full, Z.mod_small by lia. done. }
  rewrite (Hmod x Hx), (Hmod y Hy).
  destruct (Z.leb_spec (2 ^ 63) x), (Z.leb_spec (2 ^ 63) y).
  - rewrite <-Z.opp_lt_mono, f_abs_lt_iff by lia. lia.
  - pose proof (f_abs_lt 0 (x - 2 ^ 63)) as Hp. change (f_abs 0) with 0 in Hp.
    pose proof (f_abs_nonneg y). lia.
  - pose proof (f_abs_lt 0 (y - 2 ^ 63)) as Hp. change (f_abs 0) with 0 in Hp.
    pose proof (f_abs_nonneg x). lia.
  - rewrite f_abs_lt_iff by lia. lia.
Qed.

Lemma f_value_inj x y : 0 ≤ x < 2 ^ 64 → 0 ≤ y < 2 ^ 64 → x ≠ f_neg_zero → y ≠ f_neg_zero →
  f_value x = f_value y → x = y.
Proof.
  intros Hx Hy Hnx Hny E. pose proof (encode_f64_lt x y). pose proof (encode_f64_lt y x).
  assert (encode_f64 x = encode_f64 y) as Ee by lia.
  rewrite !encode_f64_eq in Ee by done. unfold f_negative in Ee.
  destruct (Z.leb_spec (2 ^ 63) x), (Z.leb_spec (2 ^ 63) y); lia.
Qed.

(** ** Keys of attributes *)

Lemma into_bytes_app s t : into_bytes (s +:+ t) = into_bytes s ++ into_bytes t.
Proof. induction s as [|a s IH]; [done|]. rewrite str_app_cons. cbn. by rewrite IH. Qed.

Lemma into_bytes_inj s t : into_bytes s = into_bytes t → s = t.
Proof.
  revert t. induction s as [|a s IH]; intros [|b t]; cbn; [done..|]. intros [= E1 E2].
  apply Nat2Z.inj, (f_equal ascii_of_nat) in E1. rewrite !ascii_nat_embedding in E1.
  subst. f_equal. by apply IH.
Qed.

Definition nul_free (s : string) : Prop := str_has "000" s = false.

Lemma nul_free_bytes s : nul_free s → 0 ∉ into_bytes s.
Proof.
  unfold nul_free. induction s as [|a s IH]; cbn; [by intros _ ?%not_elem_of_nil|].
  intros [Ha Hs]%orb_false_iff [E|Hin]%elem_of_cons; [|by apply IH].
  apply (f_equal Z.to_nat) in E. rewrite Nat2Z.id in E.
  apply (f_equal ascii_of_nat) in E. rewrite ascii_nat_embedding in E.
  change (ascii_of_nat (Z.to_nat 0)) with ("000"%char) in E. by subst a.
Qed.

(** The first NUL ends the field. *)
Lemma nul_split (a b k l : list Z) : 0 ∉ a → 0 ∉ b → a ++ 0 :: k = b ++ 0 :: l → a = b ∧ k = l.
Proof.
  revert b. induction a as [|x a IH]; intros [|y b] Ha Hb E; cbn in E; simplify_eq.
  - done.
  - by destruct Hb; left.
  - by destruct Ha; left.
  - destruct (IH b) as [-> ->]; [by intros ?; apply Ha; right|by intros ?; apply Hb; right|done..].
Qed.

(** The type and the text of a value. *)
Definition value_type (v : AttributeValue) : string :=
  match v with
  | AInteger _ => TYPE_PREFIX_INTEGER
  | AReal _ => TYPE_PREFIX_FLOAT
  | AString _ | AEmpty => TYPE_PREFIX_STRING
  | ABool _ => TYPE_PREFIX_BOOL
  end.

Definition value_text (v : AttributeValue) : list Z :=
  match v with
  | AInteger i => hex 16 (encode_i64 i)
  | AReal f => hex 16 (encode_f64 f)
  | AString s => into_bytes s
  | ABool b => into_bytes (if b then "1" else "0")
  | AEmpty => []
  end.

Lemma encode_eq field v : encode_field_value_key field v = key_prefix field (value_type v) ++ value_text v.
Proof. by destruct v. Qed.

Lemma key_prefix_eq field type : key_prefix field type = into_bytes field ++ 0 :: into_bytes type.
Proof. unfold key_prefix. by rewrite !into_bytes_app. Qed.

Lemma key_prefix_inj field type rest field' v :
  nul_free field → nul_free field' → String.length type = 1%nat →
  encode_field_value_key field' v = key_prefix field type ++ rest ↔
  field' = field ∧ value_type v = type ∧ value_text v = rest.
Proof.
  intros Hf Hf' Hl. rewrite encode_eq, !key_prefix_eq, <-!app_assoc. cbn. split.
  - intros E. apply nul_split in E as [E1 E2]; [|by apply nul_free_bytes..].
    apply into_bytes_inj in E1. destruct type as [|c [|]]; [done| |done]. cbn in E2.
    destruct v; cbn in E2; injection E2 as E2 E3; (split; [done|split; [|done]]);
      apply into_bytes_inj; cbn; by rewrite E2.
  - by intros (-> & <- & <-).
Qed.

(** A value whose number is in the range of its type. *)
Definition value_ok (v : AttributeValue) : Prop :=
  match v with
  | AEmpty => False
  | AInteger i => - 2 ^ 63 ≤ i < 2 ^ 63
  | AReal x => 0 ≤ x < 2 ^ 64
  | _ => True
  end.

Lemma encode_i64_range n : - 2 ^ 63 ≤ n < 2 ^ 63 → 0 ≤ encode_i64 n < 2 ^ 64.
Proof. intros. rewrite encode_i64_eq by done. lia. Qed.

Lemma encode_f64_inj x y : 0 ≤ x < 2 ^ 64 → 0 ≤ y < 2 ^ 64 → encode_f64 x = encode_f64 y → x = y.
Proof.
  intros Hx Hy. rewrite !encode_f64_eq by done. unfold f_negative.
  destruct (Z.leb_spec (2 ^ 63) x), (Z.leb_spec (2 ^ 63) y); lia.
Qed.

(** Different attributes have different keys. *)
Lemma encode_inj field v field' v' :
  nul_free field → nul_free field' → value_ok v → value_ok v' →
  encode_field_value_key field v = encode_field_value_key field' v' → field = field' ∧ v = v'.
Proof.
  intros Hf Hf' Hv Hv' E. rewrite (encode_eq field') in E.
  apply key_prefix_inj in E as (-> & Et & Ev); [|done..|by destruct v']. split; [done|].
  destruct v, v'; try done; cbn in *; f_equal.
  - by destruct b, b0.
  - apply hex16_inj in Ev; [|by apply encode_i64_range..]. rewrite !encode_i64_eq in Ev by done. lia.
  - apply hex16_inj in Ev; [|by apply encode_f64_range..]. by apply encode_f64_inj.
  - by apply into_bytes_inj.
Qed.

Lemma encode_has_nul field v : 0 ∈ encode_field_value_key field v.
Proof. rewrite encode_eq, key_prefix_eq, !elem_of_app. left. right. by left. Qed.

(** A range of the keys of one field and type. *)
Lemma range_keys field type a b field' v :
  nul_free field → nul_free field' → String.length type = 1%nat →
  range_contains (key_range (key_prefix field type ++ a) (key_prefix field type ++ b))
    (encode_field_value_key field' v) = true ↔
  field' = field ∧ value_type v = type ∧
  bytes_ltb (value_text v) a = false ∧ bytes_ltb (value_text v) b = true.
Proof.
  intros Hf Hf' Hl. rewrite range_prefix. split.
  - intros (r & E & Ha & Hb). apply key_prefix_inj in E as (-> & Ht & <-); [|done..]. done.
  - intros (-> & Ht & Ha & Hb). exists (value_text v). split_and!; [|done..].
    by apply key_prefix_inj.
Qed.

Lemma range_nul_free field type a b key :
  0 ∉ key → range_contains (key_range (key_prefix field type ++ a) (key_prefix field type ++ b)) key = false.
Proof.
  intros Hk. apply not_true_iff_false. rewrite range_prefix. intros (r & -> & _).
  apply Hk. rewrite key_prefix_eq, !elem_of_app. left. right. by left.
Qed.

(** ** The bounds of a comparison *)

Section bounds_theory.
Context {N : Type} `{JsonNumberLaws N}.
Variable (debug : bool).

Definition is_range_op (op : CompareOp N) : bool :=
  match op with Eq _ | Ne _ => false | _ => true end.

(** The comparison of the index with an integer, and with a float. *)
Definition int_matches (op : CompareOp N) (i : Z) : Prop :=
  match op with
  | Gte x => f_to_i64 x ≤ i
  | Gt x => f_to_i64 x < i
  | Lte x => i ≤ f_to_i64 x
  | Lt x => i < f_to_i64 x
  | _ => False
  end.

Definition float_matches (op : CompareOp N) (y : binary64) : Prop :=
  match op with
  | Gte x | Gt x => encode_f64 x ≤ encode_f64 y
  | Lte x | Lt x => encode_f64 y < encode_f64 x
  | _ => False
  end.

(** No overflow of [val + 1]. *)
Definition no_overflow (op : CompareOp N) : Prop :=
  match op with Gt x | Lte x => f_to_i64 x < 2 ^ 63 - 1 | _ => True end.

Lemma f_to_i64_range x : - 2 ^ 63 ≤ f_to_i64 x < 2 ^ 63.
Proof. unfold f_to_i64. destruct (f_is_nan x); lia. Qed.

Lemma i64_add_ok a : - 2 ^ 63 ≤ a < 2 ^ 63 - 1 → i64_add debug a 1 = Some (a + 1).
Proof.
  intros. unfold i64_add. destruct debug.
  - by rewrite (proj2 (Z.ltb_lt _ _)) by lia.
  - rewrite Z.mod_small by lia. f_equal. lia.
Qed.

Lemma hex_nil_ltb k : bytes_ltb k [] = false.
Proof. by destruct k. Qed.

Lemma integer_bounds field op : is_range_op op = true → no_overflow op →
  ∃ a b, get_integer_range_bounds debug field op =
      Some (key_prefix field TYPE_PREFIX_INTEGER ++ a, key_prefix field TYPE_PREFIX_INTEGER ++ b) ∧
    ∀ i, - 2 ^ 63 ≤ i < 2 ^ 63 →
      (bytes_ltb (value_text (AInteger i)) a = false ∧ bytes_ltb (value_text (AInteger i)) b = true) ↔
      int_matches op i.
Proof.
  assert (∀ a i, - 2 ^ 63 ≤ a < 2 ^ 63 → - 2 ^ 63 ≤ i < 2 ^ 63 →
    bytes_ltb (value_text (AInteger i)) (hex 16 (encode_i64 a)) = (i <? a)) as Hlt.
  { intros a i Ha Hi. cbn [value_text]. rewrite hex16_ltb by (by apply encode_i64_range).
    rewrite !encode_i64_eq by done. apply eq_true_iff_eq. rewrite !Z.ltb_lt. lia. }
  intros Hop Hno. unfold get_integer_range_bounds.
  destruct op as [v|v|x|x|x|x]; try done; cbn [get_compare_value no_overflow] in *;
    pose proof (f_to_i64_range x) as Hx; rewrite ?i64_add_ok by lia; cbn [mbind option_bind];
    rewrite encode_eq;
    [exists [], (hex 16 (encode_i64 (f_to_i64 x)))
    |exists [], (hex 16 (encode_i64 (f_to_i64 x + 1)))
    |exists (hex 16 (encode_i64 (f_to_i64 x + 1))), max_char
    |exists (hex 16 (encode_i64 (f_to_i64 x))), max_char];
    (split; [by rewrite ?app_nil_r|]); intros i Hi; cbn [int_matches];
    rewrite Hlt by lia; rewrite ?hex_nil_ltb, ?hex_below_max, ?Z.ltb_lt, ?Z.ltb_ge;
    try (split; [intros [? ?]|split]; done || lia).
  all: cbn [value_text]; rewrite hex_below_max; split; [intros [? ?]|split]; done || lia.
Qed.

Lemma float_bounds field op : is_range_op op = true → op_ok op →
  ∃ a b, get_float_range_bounds field op =
      (key_prefix field TYPE_PREFIX_FLOAT ++ a, key_prefix field TYPE_PREFIX_FLOAT ++ b) ∧
    ∀ y, 0 ≤ y < 2 ^ 64 →
      (bytes_ltb (value_text (AReal y)) a = false ∧ bytes_ltb (value_text (AReal y)) b = true) ↔
      float_matches op y.
Proof.
  assert (∀ x y, 0 ≤ x < 2 ^ 64 → 0 ≤ y < 2 ^ 64 →
    bytes_ltb (value_text (AReal y)) (hex 16 (encode_f64 x)) = (encode_f64 y <? encode_f64 x)) as Hlt.
  { intros x y Hx Hy. cbn [value_text]. by rewrite hex16_ltb by (by apply encode_f64_range). }
  intros Hop Hok. unfold get_float_range_bounds.
  destruct op as [v|v|x|x|x|x]; try done; cbn [get_compare_value op_ok] in *;
    destruct Hok as [Hx Hfin]; destruct (from_f64_some x Hx Hfin) as (n & -> & _);
    rewrite encode_eq;
    [exists [], (hex 16 (encode_f64 x))
    |exists [], (hex 16 (encode_f64 x))
    |exists (hex 16 (encode_f64 x)), max_char
    |exists (hex 16 (encode_f64 x)), max_char];
    (split; [by rewrite ?app_nil_r|]); intros y Hy; cbn [float_matches];
    rewrite Hlt by done; rewrite ?hex_nil_ltb, ?Z.ltb_lt, ?Z.ltb_ge.
  1,2: by split; [intros [? ?]|].
  all: cbn [value_text]; rewrite hex_below_max; by split; [intros [? ?]|].
Qed.

(** ** Where the index agrees with the evaluator *)

(** On integers of at most 53 bits and integral bounds. *)
Lemma int_matches_exact op (n : N) i x : get_compare_value op = Some x → is_range_op op = true →
  as_i64 n = Some i → Z.abs i ≤ 2 ^ 53 → f_is_nan x = false →
  f_is_int x (f_to_i64 x) →
  int_matches op i ↔ eval_compare op (VNumber n) = true.
Proof.
  intros Ho Hop Hi Hb Hnan Hint. destruct (as_i64_f64 n i Hi Hb) as (y & Ey & Hy).
  pose proof (as_f64_finite n y Ey) as [Hr Hfin].
  assert (f_is_nan y = false) as Hny.
  { unfold f_is_nan, f_is_finite in *. apply Z.ltb_lt in Hfin. apply Z.ltb_ge. lia. }
  unfold f_is_int in *. assert (0 < 2 ^ 1074) as Hpow by done.
  destruct op; try done; cbn in Ho; simplify_eq; cbn [eval_compare value_as_f64 int_matches];
    rewrite Ey; unfold f_lt, f_le; rewrite Hnan, Hny; cbn [negb andb];
    rewrite ?Z.ltb_lt, ?Z.leb_le; generalize dependent (2 ^ 1074); intros; nia.
Qed.

(** On floats; a strict lower bound and an inclusive upper bound are wrong at equality. *)
Lemma float_matches_exact op (n : N) x y : get_compare_value op = Some x → is_range_op op = true →
  op_ok op → as_f64 n = Some y → x ≠ f_neg_zero → y ≠ f_neg_zero →
  (match op with Gt _ | Lte _ => x ≠ y | _ => True end) →
  float_matches op y ↔ eval_compare op (VNumber n) = true.
Proof.
  intros Ho Hop Hok Ey Hnx Hny Hne.
  pose proof (as_f64_finite n y Ey) as [Hry Hfy].
  assert ((0 ≤ x < 2 ^ 64) ∧ f_is_finite x = true) as [Hrx Hfx]
    by (destruct op; cbn in *; simplify_eq; done).
  assert (∀ z, f_is_finite z = true → f_is_nan z = false) as Hnan.
  { unfold f_is_nan, f_is_finite. intros z ?%Z.ltb_lt. apply Z.ltb_ge. lia. }
  pose proof (encode_f64_lt x y Hrx Hry Hnx Hny). pose proof (encode_f64_lt y x Hry Hrx Hny Hnx).
  pose proof (f_value_inj x y Hrx Hry Hnx Hny).
  destruct op; try done; cbn in Ho; simplify_eq; cbn [eval_compare value_as_f64 float_matches];
    rewrite Ey; unfold f_lt, f_le; rewrite !Hnan by done; cbn [negb andb];
    rewrite ?Z.ltb_lt, ?Z.leb_le; lia.
Qed.

End bounds_theory.
