(* ===== verification/LabelIndex.v ===== *)
(** * Label filters: the inverted index

    Models [GenericIndex] of [diskann-label-filter/src/kv_index/] ([generic_index.rs],
    [inverted_index_provider_impl.rs], [posting_list_accessor_impl.rs], [error.rs]) over the traits
    [KvStore] and [PostingList] ([traits/kv_store_traits.rs], [traits/posting_list_trait.rs]).

    - Class [Roaring] with [RoaringLaws]: the bitmaps of the [roaring] crate, sets of numbers;
    - Class [PostingList] with [PostingListLaws], and its instance [RoaringPostingList], which
      stores ids as 32-bit numbers;
    - Class [KvStore] with [KvStoreLaws]: an ordered map of byte strings whose operations succeed;
    - Section [index]: the operations, with the errors of the store passed on;
    - Section [refinement]: the store of an index represents a map from documents to attributes,
      and insertion, deletion and update act on this map.

    The codec is [DefaultKeyCodec].  The order in which the attributes of a document are iterated
    (a hash map) is a parameter.  The text of an error source is the error itself. *)

From Stdlib Require Import Ascii.
From stdpp Require Import strings pretty.
From S2P Require Import Prelude Strings Bytes LabelJson LabelFlatten LabelKeys.

(** ** Bitmaps *)

Class Roaring (B : Type) := {
  rb_new : B;
  rb_contains : B → N → bool;
  rb_insert : B → N → B * bool;
  rb_remove : B → N → B * bool;
  rb_union : B → B → B;
  rb_intersection : B → B → B;
  rb_difference : B → B → B;
  rb_len : B → N;
  rb_iter : B → list N;
  rb_serialize : B → list Z;
  rb_deserialize : list Z → option B;
}.

Class RoaringLaws (B : Type) `{Roaring B} := {
  rb_set : B → gset N;
  rb_new_law : rb_set rb_new = ∅;
  rb_contains_law : ∀ b x, rb_contains b x = bool_decide (x ∈ rb_set b);
  rb_insert_law : ∀ b x, rb_set (rb_insert b x).1 = {[x]} ∪ rb_set b ∧
    (rb_insert b x).2 = bool_decide (x ∉ rb_set b);
  rb_remove_law : ∀ b x, rb_set (rb_remove b x).1 = rb_set b ∖ {[x]} ∧
    (rb_remove b x).2 = bool_decide (x ∈ rb_set b);
  rb_union_law : ∀ a b, rb_set (rb_union a b) = rb_set a ∪ rb_set b;
  rb_intersection_law : ∀ a b, rb_set (rb_intersection a b) = rb_set a ∩ rb_set b;
  rb_difference_law : ∀ a b, rb_set (rb_difference a b) = rb_set a ∖ rb_set b;
  rb_len_law : ∀ b, rb_len b = N.of_nat (size (rb_set b));
  rb_iter_law : ∀ b, NoDup (rb_iter b) ∧ ∀ x, x ∈ rb_iter b ↔ x ∈ rb_set b;
  rb_serialize_law : ∀ b, ∃ b', rb_deserialize (rb_serialize b) = Some b' ∧ rb_set b' = rb_set b;
}.

(** The reference implementation. *)
#[global] Instance set_roaring : Roaring (gset N) := {
  rb_new := ∅;
  rb_contains b x := bool_decide (x ∈ b);
  rb_insert b x := ({[x]} ∪ b, bool_decide (x ∉ b));
  rb_remove b x := (b ∖ {[x]}, bool_decide (x ∈ b));
  rb_union a b := a ∪ b;
  rb_intersection a b := a ∩ b;
  rb_difference a b := a ∖ b;
  rb_len b := N.of_nat (size b);
  rb_iter b := elements b;
  rb_serialize b := Z.of_N <$> elements b;
  rb_deserialize l := Some (list_to_set (Z.to_N <$> l));
}.

#[global] Instance set_roaring_laws : RoaringLaws (gset N).
Proof.
  refine {| rb_set b := b |}; try done.
  - intros b. cbn. split; [apply NoDup_elements|]. intros. apply elem_of_elements.
  - intros b. eexists. split; [done|].
    transitivity (list_to_set (elements b) : gset N); [|apply list_to_set_elements_L].
    apply (f_equal (list_to_set (C := gset N))). unfold rb_serialize, set_roaring.
    induction (elements b) as [|x l IH]; [done|]. cbn. by rewrite N2Z.id; f_equal.
Defined.

(** ** Posting lists *)

Class PostingList (PL : Type) := {
  pl_len : PL → N;
  pl_contains : PL → N → bool;
  pl_serialize : PL → list Z;
  pl_deserialize : list Z → option PL;
  pl_empty : PL;
  pl_is_empty : PL → bool;
  pl_insert : PL → N → PL * bool;
  pl_remove : PL → N → PL * bool;
  pl_union : PL → PL → PL;
  pl_intersect : PL → PL → PL;
  pl_difference : PL → PL → PL;
}.

(** A posting list is a set of ids; ids below [pl_bound] are kept apart. *)
Class PostingListLaws (PL : Type) `{PostingList PL} (pl_bound : N) := {
  pl_set : PL → gset N;
  pl_len_law : ∀ pl, pl_len pl = N.of_nat (size (pl_set pl));
  pl_contains_law : ∀ pl id, (id < pl_bound)%N → pl_contains pl id = bool_decide (id ∈ pl_set pl);
  pl_serialize_law : ∀ pl, ∃ pl', pl_deserialize (pl_serialize pl) = Some pl' ∧
    pl_set pl' = pl_set pl;
  pl_empty_law : pl_set pl_empty = ∅;
  pl_is_empty_law : ∀ pl, pl_is_empty pl = bool_decide (pl_set pl = ∅);
  pl_insert_law : ∀ pl id, (id < pl_bound)%N → pl_set (pl_insert pl id).1 = {[id]} ∪ pl_set pl ∧
    (pl_insert pl id).2 = bool_decide (id ∉ pl_set pl);
  pl_remove_law : ∀ pl id, (id < pl_bound)%N → pl_set (pl_remove pl id).1 = pl_set pl ∖ {[id]} ∧
    (pl_remove pl id).2 = bool_decide (id ∈ pl_set pl);
  pl_union_law : ∀ a b, pl_set (pl_union a b) = pl_set a ∪ pl_set b;
  pl_intersect_law : ∀ a b, pl_set (pl_intersect a b) = pl_set a ∩ pl_set b;
  pl_difference_law : ∀ a b, pl_set (pl_difference a b) = pl_set a ∖ pl_set b;
}.

Record RoaringPostingList (B : Type) := mkPostingList { rb : B }.
Arguments mkPostingList {B} _.
Arguments rb {B} _.

(** [id as u32] *)
Definition id_as_u32 (id : N) : N := (id mod 2 ^ 32)%N.

#[global] Instance roaring_posting_list {B} `{Roaring B} : PostingList (RoaringPostingList B) := {
  pl_len pl := rb_len (rb pl);
  pl_contains pl id := rb_contains (rb pl) (id_as_u32 id);
  pl_serialize pl := rb_serialize (rb pl);
  pl_deserialize bytes := b ← rb_deserialize bytes; Some (mkPostingList b);
  pl_empty := mkPostingList rb_new;
  pl_insert pl id :=
    let before := rb_contains (rb pl) (id_as_u32 id) in
    (mkPostingList (rb_insert (rb pl) (id_as_u32 id)).1, negb before);
  pl_remove pl id :=
    let '(b, r) := rb_remove (rb pl) (id_as_u32 id) in (mkPostingList b, r);
  pl_union a b := mkPostingList (rb_union (rb a) (rb b));
  pl_intersect a b := mkPostingList (rb_intersection (rb a) (rb b));
  pl_difference a b := mkPostingList (rb_difference (rb a) (rb b));
  pl_is_empty pl := (rb_len (rb pl) =? 0)%N;
}.

Lemma id_as_u32_small id : (id < 2 ^ 32)%N → id_as_u32 id = id.
Proof. apply N.mod_small. Qed.

#[global] Instance roaring_posting_list_laws {B} `{RoaringLaws B} :
  PostingListLaws (RoaringPostingList B) (2 ^ 32).
Proof.
  refine {| pl_set pl := rb_set (rb pl) |}.
  - intros. apply rb_len_law.
  - intros pl id Hid. cbn -[id_as_u32]. rewrite id_as_u32_small by done. apply rb_contains_law.
  - intros pl. destruct (rb_serialize_law (rb pl)) as (b' & E & Hs).
    exists (mkPostingList b'). cbn. by rewrite E.
  - apply rb_new_law.
  - intros pl. cbn. rewrite rb_len_law. apply eq_true_iff_eq.
    rewrite N.eqb_eq, bool_decide_eq_true, <-leibniz_equiv_iff, <-size_empty_iff. lia.
  - intros pl id Hid. cbn -[id_as_u32]. rewrite id_as_u32_small, rb_contains_law by done.
    split; [apply rb_insert_law|]. by rewrite bool_decide_not.
  - intros pl id Hid. cbn -[id_as_u32]. rewrite id_as_u32_small by done.
    pose proof (rb_remove_law (rb pl) id) as Hr. by destruct (rb_remove (rb pl) id).
  - intros. apply rb_union_law.
  - intros. apply rb_intersection_law.
  - intros. apply rb_difference_law.
Defined.

(** Ids are cut to 32 bits: a larger id is taken for a smaller one. *)
Lemma posting_list_aliases {B} `{RoaringLaws B} :
  pl_contains (pl_insert (mkPostingList (B := B) rb_new) (2 ^ 32)).1 0 = true.
Proof.
  cbn. change (id_as_u32 0) with 0%N. change (id_as_u32 (2 ^ 32)) with 0%N.
  rewrite rb_contains_law, (proj1 (rb_insert_law _ _)). apply bool_decide_eq_true. set_solver.
Qed.

(** ** Key-value stores *)

Class KvStore (St E : Type) := {
  kv_get : St → list Z → result E (option (list Z));
  kv_set : St → list Z → list Z → St * result E unit;
  kv_del : St → list Z → St * result E unit;
  kv_range : St → KeyRange → result E (list (result E (list Z * list Z)));
}.

(** A store whose operations succeed. *)
Class KvStoreLaws (St E : Type) `{KvStore St E} := {
  kv_map : St → gmap (list Z) (list Z);
  kv_get_law : ∀ s k, kv_get s k = Ok (kv_map s !! k);
  kv_set_law : ∀ s k v, ∃ s', kv_set s k v = (s', Ok tt) ∧ kv_map s' = <[k := v]> (kv_map s);
  kv_del_law : ∀ s k, ∃ s', kv_del s k = (s', Ok tt) ∧ kv_map s' = delete k (kv_map s);
  kv_range_law : ∀ s r, ∃ l, kv_range s r = Ok (Ok <$> l) ∧
    ∀ k v, (k, v) ∈ l ↔ kv_map s !! k = Some v ∧ range_contains r k = true;
}.

(** ** The index *)

Inductive IndexError (E : Type) : Type :=
| IKvStore (operation : string) (key : option (list Z)) (source : E)
| ISerialization (data_type : string)
| ICorruptData (location reason : string)
| IOverflow (operation : string)
| IInvalidValue (field reason : string)
| IUnsupported (operation reason : string)
| IDocumentNotFound (doc_id : N).
Arguments IKvStore {E} _ _ _.
Arguments ISerialization {E} _.
Arguments ICorruptData {E} _ _.
Arguments IOverflow {E} _.
Arguments IInvalidValue {E} _ _.
Arguments IUnsupported {E} _ _.
Arguments IDocumentNotFound {E} _.

Record GenericIndex (St : Type) := mkIndex {
  gi_store : St;
  field_normalizer : option (string → string);
}.
Arguments mkIndex {St} _ _.
Arguments gi_store {St} _.
Arguments field_normalizer {St} _.

Section index.
Context {St E PL : Type} `{KvStore St E} `{PostingList PL}.

(** [GenericIndex::new] and [with_field_normalizer] *)
Definition index_new (store : St) : GenericIndex St := mkIndex store None.
Definition with_field_normalizer (g : GenericIndex St) (f : string → string) : GenericIndex St :=
  mkIndex (gi_store g) (Some f).

Definition normalize_field (g : GenericIndex St) (field : string) : string :=
  match field_normalizer g with Some f => f field | None => field end.

(** ["@R:{doc_id}"] *)
Definition reverse_key (doc_id : N) : list Z := into_bytes ("@R:" +:+ pretty doc_id).

(** [checked_add] of [usize]s *)
Definition checked_add (a b : Z) : option Z := if (a + b <? 2 ^ 64)%Z then Some (a + b)%Z else None.

Fixpoint key_list_size (acc : Z) (keys : list (list Z)) : option Z :=
  match keys with
  | [] => Some acc
  | k :: keys =>
      with_len ← checked_add acc 4;
      acc ← checked_add with_len (Z.of_nat (length k));
      key_list_size acc keys
  end.

(** [len as u32] and its bytes. *)
Definition u32_bytes (n : nat) : list Z := to_le 4 (Z.of_nat n).

Definition serialize_key_list (keys : list (list Z)) : result (IndexError E) (list Z) :=
  match key_list_size 4 keys with
  | None => Err (IOverflow "serialize_key_list")
  | Some _ => Ok (u32_bytes (length keys) ++ concat ((λ k, u32_bytes (length k) ++ k) <$> keys))
  end.

Fixpoint deserialize_keys (bytes : list Z) (count pos : nat) : result (IndexError E) (list (list Z)) :=
  match count with
  | 0 => Ok []
  | S count =>
      if length bytes <? pos + 4 then Err (ICorruptData "reverse_key_list" "length header overflow")
      else
        let len := Z.to_nat (le (take 4 (drop pos bytes))) in
        let pos := pos + 4 in
        if length bytes <? pos + len then Err (ICorruptData "reverse_key_list" "data overflow")
        else (let? keys := deserialize_keys bytes count (pos + len) in
              Ok (take len (drop pos bytes) :: keys))%rust
  end.

Definition deserialize_key_list (bytes : list Z) : result (IndexError E) (list (list Z)) :=
  if length bytes <? 4 then Err (ICorruptData "reverse_key_list" "buffer too short for header")
  else deserialize_keys bytes (Z.to_nat (le (take 4 bytes))) 4.

(** A read of a posting list, with the error of the store or of the format. *)
Definition read_posting_list (op : string) (key : option (list Z)) (s : St) (k : list Z) :
    result (IndexError E) (option PL) :=
  match kv_get s k with
  | Err e => Err (IKvStore op key e)
  | Ok None => Ok None
  | Ok (Some bytes) =>
      match pl_deserialize bytes with
      | Some pl => Ok (Some pl)
      | None => Err (ISerialization "posting_list")
      end
  end.

Definition get_or_empty_posting_list (s : St) (key : list Z) : result (IndexError E) PL :=
  (let? r := read_posting_list "get" None s key in Ok (default pl_empty r))%rust.

(** [PostingListAccessor::get_posting_list] *)
Definition get_posting_list (g : GenericIndex St) (field : string) (value : AttributeValue) :
    result (IndexError E) (option PL) :=
  let key := encode_field_value_key field value in
  read_posting_list "get" (Some key) (gi_store g) key.

Variable (attrs_iter : gmap string AttributeValue → list (string * AttributeValue)).

(** The loop of [insert] over the attributes. *)
Fixpoint insert_attributes (s : St) (doc_id : N) (attributes : list (string * AttributeValue)) :
    St * result (IndexError E) unit :=
  match attributes with
  | [] => (s, Ok tt)
  | (field, value) :: attributes =>
      let key := encode_field_value_key field value in
      match get_or_empty_posting_list s key with
      | Err e => (s, Err e)
      | Ok posting_list =>
          match kv_set s key (pl_serialize (pl_insert posting_list doc_id).1) with
          | (s, Err e) => (s, Err (IKvStore "set" (Some key) e))
          | (s, Ok _) => insert_attributes s doc_id attributes
          end
      end
  end.

(** [InvertedIndexProvider::insert] *)
Definition index_insert (s : St) (doc_id : N) (attributes : gmap string AttributeValue) :
    St * result (IndexError E) unit :=
  let entries := attrs_iter attributes in
  let keys := (λ e, encode_field_value_key e.1 e.2) <$> entries in
  match insert_attributes s doc_id entries with
  | (s, Err e) => (s, Err e)
  | (s, Ok _) =>
      match serialize_key_list keys with
      | Err e => (s, Err e)
      | Ok reverse_value =>
          match kv_set s (reverse_key doc_id) reverse_value with
          | (s, Err e) => (s, Err (IKvStore "set" None e))
          | (s, Ok _) => (s, Ok tt)
          end
      end
  end.

(** The loop of [delete] over the keys of the document. *)
Fixpoint delete_keys (s : St) (doc_id : N) (keys : list (list Z)) : St * result (IndexError E) unit :=
  match keys with
  | [] => (s, Ok tt)
  | key :: keys =>
      match read_posting_list "get" (Some key) s key with
      | Err e => (s, Err e)
      | Ok None => delete_keys s doc_id keys
      | Ok (Some posting_list) =>
          let posting_list := (pl_remove posting_list doc_id).1 in
          if pl_is_empty posting_list then
            match kv_del s key with
            | (s, Err e) => (s, Err (IKvStore "delete" (Some key) e))
            | (s, Ok _) => delete_keys s doc_id keys
            end
          else
            match kv_set s key (pl_serialize posting_list) with
            | (s, Err e) => (s, Err (IKvStore "set" (Some key) e))
            | (s, Ok _) => delete_keys s doc_id keys
            end
      end
  end.

(** [InvertedIndexProvider::delete] *)
Definition index_delete (s : St) (doc_id : N) : St * result (IndexError E) unit :=
  match kv_get s (reverse_key doc_id) with
  | Err e => (s, Err (IKvStore "get" None e))
  | Ok None => (s, Ok tt)
  | Ok (Some bytes) =>
      match deserialize_key_list bytes with
      | Err e => (s, Err e)
      | Ok keys =>
          match delete_keys s doc_id keys with
          | (s, Err e) => (s, Err e)
          | (s, Ok _) =>
              match kv_del s (reverse_key doc_id) with
              | (s, Err e) => (s, Err (IKvStore "delete" None e))
              | (s, Ok _) => (s, Ok tt)
              end
          end
      end
  end.

(** [InvertedIndexProvider::update] *)
Definition index_update (s : St) (doc_id : N) (attributes : gmap string AttributeValue) :
    St * result (IndexError E) unit :=
  match index_delete s doc_id with
  | (s, Err e) => (s, Err e)
  | (s, Ok _) => index_insert s doc_id attributes
  end.

(** [batch_insert], [batch_delete] and [batch_update]: one after the other until one fails. *)
Fixpoint batch {A} (op : St → A → St * result (IndexError E) unit) (s : St) (items : list A) :
    St * result (IndexError E) unit :=
  match items with
  | [] => (s, Ok tt)
  | item :: items =>
      match op s item with
      | (s, Err e) => (s, Err e)
      | (s, Ok _) => batch op s items
      end
  end.

Definition batch_insert (s : St) (pairs : list (N * gmap string AttributeValue)) :=
  batch (λ s p, index_insert s p.1 p.2) s pairs.
Definition batch_delete (s : St) (doc_ids : list N) := batch index_delete s doc_ids.
Definition batch_update (s : St) (pairs : list (N * gmap string AttributeValue)) :=
  batch (λ s p, index_update s p.1 p.2) s pairs.

End index.

(** ** The list of keys, written and read *)

Section key_list.
Context {E : Type}.

(** Sizes within the 32-bit counts and the address space. *)
Definition key_list_ok (keys : list (list Z)) : Prop :=
  (Z.of_nat (length keys) < 2 ^ 32)%Z ∧
  Forall (λ k, (Z.of_nat (length k) < 2 ^ 32)%Z) keys ∧
  is_Some (key_list_size 4 keys).

Lemma length_u32_bytes n : length (u32_bytes n) = 4.
Proof. apply length_to_le. Qed.

Lemma read_u32 n rest : (Z.of_nat n < 2 ^ 32)%Z →
  Z.to_nat (le (take 4 (u32_bytes n ++ rest))) = n ∧ drop 4 (u32_bytes n ++ rest) = rest.
Proof.
  intros Hn. rewrite take_app_le, take_ge by (by rewrite length_u32_bytes). split.
  - unfold u32_bytes. rewrite le_to_le. change (2 ^ (8 * Z.of_nat 4))%Z with (2 ^ 32)%Z.
    rewrite Z.mod_small by lia. lia.
  - apply (drop_app_length' _ _ 4). by rewrite length_u32_bytes.
Qed.

Lemma deserialize_keys_ok keys pre :
  Forall (λ k, (Z.of_nat (length k) < 2 ^ 32)%Z) keys →
  deserialize_keys (E := E) (pre ++ concat ((λ k, u32_bytes (length k) ++ k) <$> keys))
    (length keys) (length pre) = Ok keys.
Proof.
  intros Hk. revert pre. induction Hk as [|k keys Hk _ IH]; intros pre; [done|].
  cbn [fmap list_fmap concat length deserialize_keys].
  set (rest := concat _). set (bytes := pre ++ _).
  assert (drop (length pre) bytes = u32_bytes (length k) ++ k ++ rest) as Hd.
  { unfold bytes. rewrite drop_app_length. by rewrite <-app_assoc. }
  destruct (read_u32 (length k) (k ++ rest) Hk) as [Hlen Hdrop].
  assert (length bytes = length pre + 4 + length k + length rest) as Hl.
  { unfold bytes. rewrite !length_app, length_u32_bytes. lia. }
  rewrite Hd, Hlen. case_nat; [lia|]. case_nat; [lia|].
  assert (drop (length pre + 4) bytes = k ++ rest) as Hd'.
  { by rewrite <-drop_drop, Hd, Hdrop. }
  rewrite Hd', take_app_length.
  specialize (IH (pre ++ u32_bytes (length k) ++ k)). rewrite !length_app, length_u32_bytes in IH.
  fold rest in IH. replace (length pre + 4 + length k) with (length pre + (4 + length k)) by lia.
  rewrite <-app_assoc in IH. unfold bytes. by rewrite IH.
Qed.

(** A serialized list of keys is read back. *)
Lemma key_list_roundtrip keys : key_list_ok keys →
  ∃ bytes, serialize_key_list (E := E) keys = Ok bytes ∧
    deserialize_key_list (E := E) bytes = Ok keys.
Proof.
  intros (Hc & Hk & [n Hn]). unfold serialize_key_list. rewrite Hn.
  eexists. split; [reflexivity|]. unfold deserialize_key_list.
  destruct (read_u32 (length keys) (concat ((λ k, u32_bytes (length k) ++ k) <$> keys)) Hc)
    as [-> _].
  rewrite length_app, length_u32_bytes.
  case_nat; [lia|]. apply (deserialize_keys_ok keys (u32_bytes (length keys)) Hk).
Qed.

End key_list.

(** ** Reverse keys *)

Lemma pretty_N_go_nul_free x s : nul_free s → nul_free (pretty_N_go x s).
Proof.
  revert s. induction (N.lt_wf_0 x) as [x _ IH]; intros s Hs.
  destruct (decide (x = 0)%N) as [->|Hx]; [done|]. rewrite pretty_N_go_step by lia.
  apply IH; [apply N.div_lt; lia|]. unfold nul_free in *. cbn. rewrite Hs, orb_false_r.
  unfold pretty_N_char. by repeat case_match.
Qed.

Lemma reverse_key_nul_free id : (0 ∉ reverse_key id)%Z.
Proof.
  apply nul_free_bytes. unfold nul_free. rewrite str_has_app. cbn.
  unfold pretty, pretty_N. case_decide; [done|]. by apply pretty_N_go_nul_free.
Qed.

Lemma reverse_key_inj id id' : reverse_key id = reverse_key id' → id = id'.
Proof.
  unfold reverse_key. intros E%into_bytes_inj%str_app_inj. by apply (inj pretty) in E.
Qed.

Lemma encode_not_reverse field v id : encode_field_value_key field v ≠ reverse_key id.
Proof.
  intros E. apply (reverse_key_nul_free id). rewrite <-E. apply encode_has_nul.
Qed.

(** ** Refinement *)

Section refinement.
Context {St E PL : Type} `{KvStoreLaws St E} `{PostingListLaws PL pl_bound}.
Variable (attrs_iter : gmap string AttributeValue → list (string * AttributeValue)).
Hypothesis (attrs_iter_perm : ∀ m, attrs_iter m ≡ₚ map_to_list m).

Implicit Types (m : gmap (list Z) (list Z)) (docs : gmap N (gmap string AttributeValue)).

(** The posting lists of a store: the ids related to each attribute. *)
Definition posting m field v (X : gset N) : Prop :=
  match m !! encode_field_value_key field v with
  | Some bytes => ∃ pl, pl_deserialize bytes = Some pl ∧ pl_set pl = X
  | None => X = ∅
  end.

Record postings m (R : N → string → AttributeValue → Prop) : Prop := {
  po_list : ∀ field v, nul_free field → value_ok v →
    ∃ X, posting m field v X ∧ ∀ id, id ∈ X ↔ R id field v;
  po_keys : ∀ k bytes, m !! k = Some bytes →
    (∃ field v, nul_free field ∧ value_ok v ∧ k = encode_field_value_key field v) ∨
    (∃ id, k = reverse_key id);
}.

(** A write at the key of one attribute. *)
Lemma postings_write m R R' field v m' :
  postings m R → nul_free field → value_ok v →
  (∀ k, k ≠ encode_field_value_key field v → m' !! k = m !! k) →
  (∃ X, posting m' field v X ∧ ∀ id, id ∈ X ↔ R' id field v) →
  (∀ id f w, (f, w) ≠ (field, v) → R' id f w ↔ R id f w) →
  postings m' R'.
Proof.
  intros [Hl Hk] Hf Hv Hsame Hnew HR. split.
  - intros f w Hf' Hw. destruct (decide ((f, w) = (field, v))) as [|Hne]; [by simplify_eq|].
    destruct (Hl f w Hf' Hw) as (X & Hp & HX). exists X. split.
    + unfold posting. rewrite Hsame; [done|]. intros Ek%encode_inj; [|done..]. naive_solver.
    + intros id. by rewrite HX, HR.
  - intros k bytes Hm. destruct (decide (k = encode_field_value_key field v)) as [->|Hne].
    + left. eauto.
    + rewrite Hsame in Hm by done. eauto.
Qed.

(** The effect of the two loops on other keys. *)
Definition same_reverse m m' : Prop := ∀ id, m' !! reverse_key id = m !! reverse_key id.

Lemma same_reverse_write m m' field v :
  (∀ k, k ≠ encode_field_value_key field v → m' !! k = m !! k) → same_reverse m m'.
Proof. intros Hs id. apply Hs. intros Hk. by apply (encode_not_reverse field v id). Qed.

Definition attr_ok (e : string * AttributeValue) : Prop := nul_free e.1 ∧ value_ok e.2.

Lemma insert_attributes_ok s R id entries :
  postings (kv_map s) R → (id < pl_bound)%N → Forall attr_ok entries →
  ∃ s', insert_attributes (PL := PL) s id entries = (s', Ok tt) ∧
    same_reverse (kv_map s) (kv_map s') ∧
    postings (kv_map s') (λ i f v, R i f v ∨ i = id ∧ (f, v) ∈ entries).
Proof.
  intros Hp Hid He. revert s R Hp. induction He as [|[field v] entries [Hf Hv] He IH]; intros s R Hp.
  { exists s. split_and!; [done..|]. destruct Hp as [Hl Hk]. split; [|done].
    intros f w Hf Hw. destruct (Hl f w Hf Hw) as (X & ? & HX). exists X. split; [done|].
    intros i. rewrite HX. split; [by left|]. by intros [?|[_ ?%not_elem_of_nil]]. }
  cbn [insert_attributes fst snd] in *.
  destruct (po_list _ _ Hp field v Hf Hv) as (X & HpX & HX).
  assert (∃ pl, get_or_empty_posting_list s (encode_field_value_key field v) = Ok pl ∧
    pl_set pl = X) as (pl & -> & Hpl).
  { unfold get_or_empty_posting_list, read_posting_list. rewrite kv_get_law. unfold posting in HpX.
    destruct (kv_map s !! _) as [bytes|].
    - destruct HpX as (pl & -> & <-). by exists pl.
    - exists pl_empty. split; [done|]. rewrite HpX. apply pl_empty_law. }
  destruct (kv_set_law s (encode_field_value_key field v) (pl_serialize (pl_insert pl id).1))
    as (s1 & -> & Hs1).
  assert (∀ k, k ≠ encode_field_value_key field v → kv_map s1 !! k = kv_map s !! k) as Hsame.
  { intros k Hk. rewrite Hs1. by apply lookup_insert_ne. }
  destruct (IH s1 (λ i f w, R i f w ∨ i = id ∧ (f, w) = (field, v))) as (s' & -> & Hrev & Hp').
  { eapply (postings_write (kv_map s) R _ field v); [done..| |].
    - exists ({[id]} ∪ X). split.
      + unfold posting. rewrite Hs1, lookup_insert_eq.
        destruct (pl_serialize_law (pl_insert pl id).1) as (pl' & -> & Hset). exists pl'.
        split; [done|]. rewrite Hset, (proj1 (pl_insert_law pl id Hid)). by rewrite Hpl.
      + intros i. rewrite elem_of_union, elem_of_singleton, HX. naive_solver.
    - intros i f w Hne. naive_solver. }
  exists s'. split_and!; [done| |].
  - intros i. rewrite Hrev. by apply (same_reverse_write _ _ field v).
  - destruct Hp' as [Hl Hk]. split; [|done]. intros f w Hf' Hw.
    destruct (Hl f w Hf' Hw) as (Y & ? & HY). exists Y. split; [done|].
    intros i. rewrite HY, elem_of_cons. naive_solver.
Qed.

Lemma delete_keys_ok s R id entries :
  postings (kv_map s) R → (id < pl_bound)%N → Forall attr_ok entries →
  ∃ s', delete_keys (PL := PL) s id ((λ e, encode_field_value_key e.1 e.2) <$> entries) =
      (s', Ok tt) ∧
    same_reverse (kv_map s) (kv_map s') ∧
    postings (kv_map s') (λ i f v, R i f v ∧ ¬ (i = id ∧ (f, v) ∈ entries)).
Proof.
  intros Hp Hid He. revert s R Hp. induction He as [|[field v] entries [Hf Hv] He IH]; intros s R Hp.
  { exists s. split_and!; [done..|]. destruct Hp as [Hl Hk]. split; [|done].
    intros f w Hf Hw. destruct (Hl f w Hf Hw) as (X & ? & HX). exists X. split; [done|].
    intros i. rewrite HX. split; [|by intros []]. intros ?. split; [done|].
    by intros [_ ?%not_elem_of_nil]. }
  cbn [delete_keys fmap list_fmap fst snd] in *. unfold read_posting_list. rewrite kv_get_law.
  destruct (po_list _ _ Hp field v Hf Hv) as (X & HpX & HX).
  set (R1 := λ i f w, R i f w ∧ ¬ (i = id ∧ (f, w) = (field, v))).
  assert (∀ s1, (∀ k, k ≠ encode_field_value_key field v → kv_map s1 !! k = kv_map s !! k) →
    posting (kv_map s1) field v (X ∖ {[id]}) →
    ∃ s', delete_keys (PL := PL) s1 id ((λ e, encode_field_value_key e.1 e.2) <$> entries) =
        (s', Ok tt) ∧ same_reverse (kv_map s) (kv_map s') ∧
      postings (kv_map s') (λ i f w, R i f w ∧ ¬ (i = id ∧ (f, w) ∈ (field, v) :: entries)))
    as Hcont.
  { intros s1 Hsame Hpost. destruct (IH s1 R1) as (s' & Es & Hrev & Hl & Hk).
    { eapply (postings_write (kv_map s) R _ field v); [done..| |].
      - exists (X ∖ {[id]}). split; [done|]. intros i.
        rewrite elem_of_difference, elem_of_singleton, HX. unfold R1. naive_solver.
      - intros i f w Hne. unfold R1. naive_solver. }
    exists s'. split_and!; [done| |].
    - intros i. rewrite Hrev. by apply (same_reverse_write _ _ field v).
    - split; [|done]. intros f w Hf' Hw. destruct (Hl f w Hf' Hw) as (Y & ? & HY).
      exists Y. split; [done|]. intros i. rewrite HY, elem_of_cons. unfold R1. naive_solver. }
  unfold posting in HpX. destruct (kv_map s !! _) as [bytes|] eqn:Em.
  - destruct HpX as (pl & -> & <-). pose proof (proj1 (pl_remove_law pl id Hid)) as Hr.
    rewrite pl_is_empty_law, Hr. destruct (bool_decide_reflect (pl_set pl ∖ {[id]} = ∅)) as [He'|He'].
    + destruct (kv_del_law s (encode_field_value_key field v)) as (s1 & -> & Hs1). apply Hcont.
      * intros k Hk. rewrite Hs1. by apply lookup_delete_ne.
      * unfold posting. by rewrite Hs1, lookup_delete_eq.
    + destruct (kv_set_law s (encode_field_value_key field v) (pl_serialize (pl_remove pl id).1))
        as (s1 & -> & Hs1). apply Hcont.
      * intros k Hk. rewrite Hs1. by apply lookup_insert_ne.
      * unfold posting. rewrite Hs1, lookup_insert_eq.
        destruct (pl_serialize_law (pl_remove pl id).1) as (pl' & -> & Hset). exists pl'.
        split; [done|]. by rewrite Hset.
  - subst X. apply Hcont; [done|]. unfold posting. rewrite Em. set_solver.
Qed.

(** A document whose attributes can be indexed. *)
Record doc_ok (id : N) (attrs : gmap string AttributeValue) : Prop := {
  do_id : (id < pl_bound)%N;
  do_attrs : map_Forall (λ field v, nul_free field ∧ value_ok v) attrs;
  do_keys : key_list_ok ((λ e, encode_field_value_key e.1 e.2) <$> attrs_iter attrs);
}.

Definition has_attr docs (id : N) (field : string) (v : AttributeValue) : Prop :=
  ∃ attrs, docs !! id = Some attrs ∧ attrs !! field = Some v.

(** The store represents the documents [docs]. *)
Record index_rep docs m : Prop := {
  ir_docs : map_Forall doc_ok docs;
  ir_postings : postings m (has_attr docs);
  ir_reverse : ∀ id,
    match docs !! id with
    | None => m !! reverse_key id = None
    | Some attrs => ∃ bytes, m !! reverse_key id = Some bytes ∧
        deserialize_key_list (E := E) bytes =
          Ok ((λ e, encode_field_value_key e.1 e.2) <$> attrs_iter attrs)
    end;
}.

Lemma elem_of_attrs_iter attrs field v : (field, v) ∈ attrs_iter attrs ↔ attrs !! field = Some v.
Proof. rewrite attrs_iter_perm. apply elem_of_map_to_list. Qed.

Lemma attrs_iter_ok id attrs : doc_ok id attrs → Forall attr_ok (attrs_iter attrs).
Proof.
  intros Hd. apply Forall_forall. intros [field v] Hin%elem_of_attrs_iter.
  by apply (do_attrs _ _ Hd) in Hin.
Qed.

(** A write at the reverse key of a document. *)
Lemma postings_reverse m R R' id m' :
  postings m R → (∀ k, k ≠ reverse_key id → m' !! k = m !! k) →
  (∀ i f v, R' i f v ↔ R i f v) → postings m' R'.
Proof.
  intros [Hl Hk] Hsame HR. split.
  - intros field v Hf Hv. destruct (Hl field v Hf Hv) as (X & Hp & HX). exists X. split.
    + unfold posting. rewrite Hsame; [done|]. apply encode_not_reverse.
    + intros i. by rewrite HX, HR.
  - intros k bytes Hm. destruct (decide (k = reverse_key id)) as [->|Hne]; [by eauto|].
    rewrite Hsame in Hm by done. eauto.
Qed.

Lemma index_insert_ok docs s id attrs :
  index_rep docs (kv_map s) → docs !! id = None → doc_ok id attrs →
  ∃ s', index_insert (PL := PL) attrs_iter s id attrs = (s', Ok tt) ∧
    index_rep (<[id := attrs]> docs) (kv_map s').
Proof.
  intros [Hdocs Hp Hrev] Hnew Hdoc. unfold index_insert.
  destruct (insert_attributes_ok s (has_attr docs) id (attrs_iter attrs) Hp (do_id _ _ Hdoc)
    (attrs_iter_ok _ _ Hdoc)) as (s1 & -> & Hsame & Hp1).
  destruct (key_list_roundtrip (E := E) _ (do_keys _ _ Hdoc)) as (bytes & -> & Hbytes).
  destruct (kv_set_law s1 (reverse_key id) bytes) as (s2 & -> & Hs2).
  exists s2. split; [done|]. split.
  - by apply map_Forall_insert_2.
  - eapply (postings_reverse _ _ _ id); [exact Hp1| |].
    + intros k Hk. rewrite Hs2. by apply lookup_insert_ne.
    + intros i f v. unfold has_attr. rewrite elem_of_attrs_iter.
      destruct (decide (i = id)) as [->|Hne].
      * rewrite lookup_insert_eq. naive_solver.
      * rewrite lookup_insert_ne by done. naive_solver.
  - intros i. rewrite Hs2. destruct (decide (i = id)) as [->|Hne].
    + rewrite !lookup_insert_eq. eauto.
    + rewrite !lookup_insert_ne by (done || by intros ?%reverse_key_inj).
      rewrite Hsame. apply Hrev.
Qed.

Lemma index_delete_ok docs s id :
  index_rep docs (kv_map s) →
  ∃ s', index_delete (PL := PL) s id = (s', Ok tt) ∧ index_rep (delete id docs) (kv_map s').
Proof.
  intros [Hdocs Hp Hrev]. unfold index_delete. rewrite kv_get_law.
  pose proof (Hrev id) as Hid. destruct (docs !! id) as [attrs|] eqn:Ed.
  - destruct Hid as (bytes & -> & ->). pose proof (Hdocs _ _ Ed) as Hdoc.
    destruct (delete_keys_ok s (has_attr docs) id (attrs_iter attrs) Hp (do_id _ _ Hdoc)
      (attrs_iter_ok _ _ Hdoc)) as (s1 & -> & Hsame & Hp1).
    destruct (kv_del_law s1 (reverse_key id)) as (s2 & -> & Hs2). exists s2. split; [done|]. split.
    + by apply map_Forall_delete.
    + eapply (postings_reverse _ _ _ id); [exact Hp1| |].
      * intros k Hk. rewrite Hs2. by apply lookup_delete_ne.
      * intros i f v. unfold has_attr. rewrite elem_of_attrs_iter.
        destruct (decide (i = id)) as [->|Hne].
        -- rewrite lookup_delete_eq, Ed. naive_solver.
        -- rewrite lookup_delete_ne by done. naive_solver.
    + intros i. rewrite Hs2. destruct (decide (i = id)) as [->|Hne].
      * by rewrite !lookup_delete_eq.
      * rewrite !lookup_delete_ne by (done || by intros ?%reverse_key_inj).
        rewrite Hsame. apply Hrev.
  - rewrite Hid. exists s. split; [done|]. by rewrite delete_id.
Qed.

Lemma index_update_ok docs s id attrs :
  index_rep docs (kv_map s) → doc_ok id attrs →
  ∃ s', index_update (PL := PL) attrs_iter s id attrs = (s', Ok tt) ∧
    index_rep (<[id := attrs]> docs) (kv_map s').
Proof.
  intros Hr Hdoc. unfold index_update. destruct (index_delete_ok docs s id Hr) as (s1 & -> & Hr1).
  destruct (index_insert_ok _ s1 id attrs Hr1) as (s2 & -> & Hr2);
    [apply lookup_delete_eq|done|]. exists s2. split; [done|].
  by rewrite insert_delete_eq in Hr2.
Qed.

Lemma index_rep_empty s : kv_map s = ∅ → index_rep ∅ (kv_map s).
Proof.
  clear attrs_iter_perm. intros ->. split.
  - apply map_Forall_empty.
  - split; [|intros k bytes; by rewrite lookup_empty].
    intros field v _ _. exists ∅. unfold posting. rewrite lookup_empty. split; [done|].
    intros id. unfold has_attr. rewrite lookup_empty. set_solver.
  - intros id. by rewrite !lookup_empty.
Qed.

(** ** Histories of the index *)

Inductive index_op :=
| OpInsert (id : N) (attrs : gmap string AttributeValue)
| OpDelete (id : N)
| OpUpdate (id : N) (attrs : gmap string AttributeValue).

Definition index_step (s : St) (op : index_op) : St * result (IndexError E) unit :=
  match op with
  | OpInsert id attrs => index_insert (PL := PL) attrs_iter s id attrs
  | OpDelete id => index_delete (PL := PL) s id
  | OpUpdate id attrs => index_update (PL := PL) attrs_iter s id attrs
  end.

(** The same on the map of documents; only new documents are inserted. *)
Definition spec_step docs (op : index_op) : option (gmap N (gmap string AttributeValue)) :=
  match op with
  | OpInsert id attrs => match docs !! id with None => Some (<[id := attrs]> docs) | _ => None end
  | OpDelete id => Some (delete id docs)
  | OpUpdate id attrs => Some (<[id := attrs]> docs)
  end.

Fixpoint spec_run docs (ops : list index_op) : option (gmap N (gmap string AttributeValue)) :=
  match ops with
  | [] => Some docs
  | op :: ops => docs ← spec_step docs op; spec_run docs ops
  end.

Definition op_docs_ok (op : index_op) : Prop :=
  match op with OpInsert id attrs | OpUpdate id attrs => doc_ok id attrs | OpDelete _ => True end.

Lemma index_run_ok docs docs' s ops :
  index_rep docs (kv_map s) → Forall op_docs_ok ops → spec_run docs ops = Some docs' →
  ∃ s', batch index_step s ops = (s', Ok tt) ∧ index_rep docs' (kv_map s').
Proof.
  intros Hr Hops. revert docs s Hr. induction Hops as [|op ops Hop _ IH]; intros docs s Hr Hrun.
  { simplify_eq/=. by exists s. }
  cbn [spec_run] in Hrun. apply bind_Some in Hrun as (docs1 & Hstep & Hrun).
  assert (∃ s1, index_step s op = (s1, Ok tt) ∧ index_rep docs1 (kv_map s1)) as (s1 & E1 & Hr1).
  { destruct op as [id attrs|id|id attrs]; cbn in Hstep, Hop |- *.
    - destruct (docs !! id) eqn:Ed; simplify_eq. by eapply index_insert_ok.
    - simplify_eq. by apply index_delete_ok.
    - simplify_eq. by apply index_update_ok. }
  cbn [batch]. rewrite E1. by apply (IH docs1).
Qed.

End refinement.
