(* ===== verification/LabelQuery.v ===== *)
(** * Label filters: queries on the inverted index

    Models [diskann-label-filter/src/kv_index/query_evaluator_impl.rs] and the trait
    [QueryEvaluator] ([traits/query_evaluator.rs]).

    - Section [query]: [evaluate_query], [is_match] and [count_matches]; a computation panics
      ([None]), fails with an error, or succeeds;
    - Section [attributes]: the result is the set of documents whose attributes match;
    - Section [labels]: for labels that were flattened into the index, and comparisons within the
      precision of the index, these are the documents whose label the evaluator
      ([eval_query_expr]) accepts;
    - the end: where the index and the evaluator differ. *)

From Stdlib Require Import Ascii.
From stdpp Require Import strings pretty.
From S2P Require Import Prelude Strings Bytes LabelJson LabelFlatten LabelKeys LabelIndex.

Inductive QueryError (J E : Type) : Type :=
| QUnsupportedOperation (operation : string)
| QInvalidQuery (context : string) (reason : JsonConversionError J)
| QIndex (e : IndexError E).
Arguments QUnsupportedOperation {J E} _.
Arguments QInvalidQuery {J E} _ _.
Arguments QIndex {J E} _.

(** Panic, error or result. *)
Definition qbind {E A B} (m : option (result E A)) (f : A → option (result E B)) :
    option (result E B) :=
  match m with
  | None => None
  | Some (Err e) => Some (Err e)
  | Some (Ok a) => f a
  end.

Notation "'let!' x := m 'in' k" := (qbind m (λ x, k))
  (at level 10, x pattern, m at level 200, k at level 200) : rust_scope.

Section query.
Local Open Scope rust_scope.
Context {J St E PL : Type} `{JsonNumber J} `{KvStore St E} `{PostingList PL}.
Variable (debug : bool).

(** The loop over the items of a range. *)
Fixpoint union_items (items : list (result E (list Z * list Z))) (acc : PL) :
    result (QueryError J E) PL :=
  match items with
  | [] => Ok acc
  | Err e :: _ => Err (QIndex (IKvStore "range_next" None e))
  | Ok (_, value) :: items =>
      match pl_deserialize value with
      | None => Err (QIndex (ISerialization "posting_list"))
      | Some pl => union_items items (pl_union acc pl)
      end
  end.

(** The scan of one range of keys; no start key means no scan. *)
Definition scan_range (s : St) (bounds : list Z * list Z) (acc : PL) :
    result (QueryError J E) PL :=
  match bounds.1 with
  | [] => Ok acc
  | _ =>
      match kv_range s (key_range bounds.1 bounds.2) with
      | Err e => Err (QIndex (IKvStore "range" None e))
      | Ok items => union_items items acc
      end
  end.

Definition evaluate_range (g : GenericIndex St) (field : string) (op : CompareOp J) :
    option (result (QueryError J E) PL) :=
  let normalized_field := normalize_field g field in
  bounds ← get_integer_range_bounds debug normalized_field op;
  let! acc := Some (scan_range (gi_store g) bounds pl_empty) in
  Some (scan_range (gi_store g) (get_float_range_bounds normalized_field op) acc).

Definition evaluate_compare (g : GenericIndex St) (field : string) (op : CompareOp J) :
    option (result (QueryError J E) PL) :=
  match op with
  | Eq v =>
      match attribute_try_from v with
      | Err e => Some (Err (QInvalidQuery field e))
      | Ok attr_value =>
          match get_posting_list (PL := PL) g (normalize_field g field) attr_value with
          | Err e => Some (Err (QIndex e))
          | Ok r => Some (Ok (default pl_empty r))
          end
      end
  | Ne _ => Some (Err (QUnsupportedOperation "NE"))
  | _ => evaluate_range g field op
  end.

(** The loops of a conjunction, which ends early when nothing is left, and of a disjunction. *)
Definition and_loop (eval : ASTExpr J → option (result (QueryError J E) PL)) :
    list (ASTExpr J) → PL → option (result (QueryError J E) PL) :=
  fix go subs acc :=
    match subs with
    | [] => Some (Ok acc)
    | sub :: subs =>
        let! result := eval sub in
        let acc := pl_intersect acc result in
        if pl_is_empty acc then Some (Ok acc) else go subs acc
    end.

Definition or_loop (eval : ASTExpr J → option (result (QueryError J E) PL)) :
    list (ASTExpr J) → PL → option (result (QueryError J E) PL) :=
  fix go subs acc :=
    match subs with
    | [] => Some (Ok acc)
    | sub :: subs => let! result := eval sub in go subs (pl_union acc result)
    end.

Fixpoint evaluate_query (g : GenericIndex St) (expr : ASTExpr J) :
    option (result (QueryError J E) PL) :=
  match expr with
  | And subs =>
      match subs with
      | [] => Some (Ok pl_empty)
      | sub :: subs =>
          let! acc := evaluate_query g sub in and_loop (evaluate_query g) subs acc
      end
  | Or subs => or_loop (evaluate_query g) subs pl_empty
  | Not _ => Some (Err (QUnsupportedOperation "NOT"))
  | Compare field op => evaluate_compare g field op
  end.

(** [QueryEvaluator::is_match] and [count_matches] *)
Definition is_match (g : GenericIndex St) (doc_id : N) (expr : ASTExpr J) :
    option (result (QueryError J E) bool) :=
  let! bs := evaluate_query g expr in Some (Ok (pl_contains bs doc_id)).

Definition count_matches (g : GenericIndex St) (expr : ASTExpr J) :
    option (result (QueryError J E) N) :=
  let! bs := evaluate_query g expr in Some (Ok (pl_len bs)).

End query.

(** ** Documents whose attributes match *)

Section attributes.
Context {J St E PL : Type} `{JsonNumberLaws J} `{KvStoreLaws St E} `{PostingListLaws PL pl_bound}.
Variable (debug : bool).
Variable (attrs_iter : gmap string AttributeValue → list (string * AttributeValue)).
Variables (g : GenericIndex St) (docs : gmap N (gmap string AttributeValue)).
Hypothesis (Hrep : index_rep (E := E) (PL := PL) (pl_bound := pl_bound) attrs_iter docs
  (kv_map (gi_store g))).

(** A comparison with the value of an attribute, as the index makes it. *)
Definition value_matches (op : CompareOp J) (av : AttributeValue) : Prop :=
  match op with
  | Eq v => attribute_try_from v = Ok av
  | Ne _ => False
  | _ =>
      match av with
      | AInteger i => int_matches op i
      | AReal y => float_matches op y
      | _ => False
      end
  end.

(** All, or some, of a list. *)
Definition all_of {A} (P : A → Prop) : list A → Prop := foldr (λ x Q, P x ∧ Q) True.
Definition some_of {A} (P : A → Prop) : list A → Prop := foldr (λ x Q, P x ∨ Q) False.

Fixpoint attrs_match (expr : ASTExpr J) (attrs : gmap string AttributeValue) : Prop :=
  match expr with
  | And subs => all_of (λ e, attrs_match e attrs) subs
  | Or subs => some_of (λ e, attrs_match e attrs) subs
  | Not e => ¬ attrs_match e attrs
  | Compare field op => ∃ av, attrs !! normalize_field g field = Some av ∧ value_matches op av
  end.

(** What the index can evaluate: no negation, no empty conjunction, scalar values, bounds that do
    not overflow. *)
Definition op_supported (op : CompareOp J) : Prop :=
  match op with
  | Eq v => ∃ av, attribute_try_from v = Ok av
  | Ne _ => False
  | _ => no_overflow op ∧ op_ok op
  end.

Fixpoint supported (expr : ASTExpr J) : Prop :=
  match expr with
  | And subs => subs ≠ [] ∧ all_of supported subs
  | Or subs => all_of supported subs
  | Not _ => False
  | Compare field op => nul_free (normalize_field g field) ∧ op_supported op
  end.

(** The documents that satisfy a predicate on attributes. *)
Definition result_is (r : option (result (QueryError J E) PL))
    (P : gmap string AttributeValue → Prop) : Prop :=
  ∃ pl, r = Some (Ok pl) ∧ ∀ id, id ∈ pl_set pl ↔ ∃ attrs, docs !! id = Some attrs ∧ P attrs.

Lemma try_from_ok (v : Value J) av : attribute_try_from v = Ok av → value_ok av.
Proof.
  destruct v as [|b|n|str|l|m]; cbn; intros; simplify_eq; try done.
  destruct (as_i64 n) as [i|] eqn:Ei; simplify_eq; [by eapply as_i64_range|].
  destruct (as_f64 n) as [x|] eqn:Ex; simplify_eq. by eapply as_f64_finite.
Qed.

Lemma posting_read field v : nul_free field → value_ok v →
  ∃ r, get_posting_list (PL := PL) g field v = Ok r ∧
    ∀ id, id ∈ pl_set (default pl_empty r) ↔ has_attr docs id field v.
Proof.
  intros Hf Hv. unfold get_posting_list, read_posting_list. rewrite kv_get_law.
  destruct (po_list _ _ (ir_postings _ _ _ Hrep) field v Hf Hv) as (X & Hp & HX).
  unfold posting in Hp. destruct (kv_map (gi_store g) !! _) as [bytes|].
  - destruct Hp as (pl & -> & <-). by exists (Some pl).
  - exists None. split; [done|]. intros id. cbn. rewrite pl_empty_law, <-HX. by subst X.
Qed.

Lemma has_attr_value id field v : has_attr docs id field v → value_ok v.
Proof.
  intros (attrs & Hd & Ha). apply (ir_docs _ _ _ Hrep) in Hd. by apply (do_attrs _ _ _ Hd) in Ha as [_ ?].
Qed.

Lemma union_items_ok (l : list (list Z * list Z)) acc :
  (∀ k value, (k, value) ∈ l → ∃ pl, pl_deserialize value = Some pl) →
  ∃ pl, union_items (J := J) (E := E) (PL := PL) (Ok <$> l) acc = Ok pl ∧
    ∀ id, id ∈ pl_set pl ↔ id ∈ pl_set acc ∨
      ∃ k value pl', (k, value) ∈ l ∧ pl_deserialize value = Some pl' ∧ id ∈ pl_set pl'.
Proof.
  revert acc. induction l as [|[k value] l IH]; intros acc Hl.
  - exists acc. split; [done|]. intros id. split; [by left|].
    intros [?|(? & ? & ? & ?%not_elem_of_nil & _)]; done.
  - destruct (Hl k value) as [pl Hpl]; [by left|]. cbn. rewrite Hpl.
    destruct (IH (pl_union acc pl)) as (pl' & -> & HX); [intros; eapply Hl; by right|].
    exists pl'. split; [done|]. intros id. rewrite HX, pl_union_law, elem_of_union. split.
    + intros [[?|?]|(k' & w & q & Hin & ? & ?)]; [by left| |].
      * right. exists k, value, pl. split_and!; [by left|done..].
      * right. exists k', w, q. split_and!; [by right|done..].
    + intros [?|(k' & w & q & [?|Hin]%elem_of_cons & Hq & ?)]; [by left; left| |].
      * simplify_eq. by left; right.
      * right. by exists k', w, q.
Qed.

(** The scan of a range of one field and type adds the documents with a value in the range. *)
Lemma scan_range_ok field type a b acc : nul_free field → String.length type = 1 →
  ∃ pl, scan_range (J := J) (PL := PL) (gi_store g)
      (key_prefix field type ++ a, key_prefix field type ++ b) acc = Ok pl ∧
    ∀ id, id ∈ pl_set pl ↔ id ∈ pl_set acc ∨
      ∃ v, has_attr docs id field v ∧ value_type v = type ∧
        bytes_ltb (value_text v) a = false ∧ bytes_ltb (value_text v) b = true.
Proof.
  intros Hf Ht. unfold scan_range. cbn [fst snd].
  destruct (key_prefix field type ++ a) as [|z l0] eqn:Ea.
  { rewrite key_prefix_eq in Ea. by destruct (into_bytes field). }
  rewrite <-Ea. set (r := key_range _ _).
  destruct (kv_range_law (gi_store g) r) as (l & -> & Hl).
  pose proof (ir_postings _ _ _ Hrep) as Hp.
  assert (∀ k value, (k, value) ∈ l → ∃ f v pl, nul_free f ∧ value_ok v ∧
    k = encode_field_value_key f v ∧ pl_deserialize value = Some pl ∧
    ∀ id, id ∈ pl_set pl ↔ has_attr docs id f v) as Hitem.
  { intros k value [Hk Hin]%Hl. destruct (po_keys _ _ Hp k value Hk) as [(f & v & Hf' & Hv & ->)|[i ->]].
    - destruct (po_list _ _ Hp f v Hf' Hv) as (X & Hpo & HX). unfold posting in Hpo.
      rewrite Hk in Hpo. destruct Hpo as (pl & Hpl & <-). by exists f, v, pl.
    - unfold r in Hin. by rewrite range_nul_free in Hin by apply reverse_key_nul_free. }
  destruct (union_items_ok l acc) as (pl & -> & HX).
  { intros k value Hin. destruct (Hitem k value Hin) as (f & v & pl & _ & _ & _ & ? & _). eauto. }
  exists pl. split; [done|]. intros id. rewrite HX. apply or_iff_compat_l. split.
  - intros (k & value & pl' & Hin & Hpl' & Hid).
    destruct (Hitem k value Hin) as (f & v & q & Hf' & Hv & -> & Hq & Hset). simplify_eq.
    apply Hl in Hin as [_ Hin]. apply range_keys in Hin as (-> & ? & ? & ?); [|done..].
    exists v. by rewrite <-Hset.
  - intros (v & Hhas & <- & Ha & Hb).
    pose proof (has_attr_value _ _ _ Hhas) as Hv.
    destruct (po_list _ _ Hp field v Hf Hv) as (X & Hpo & HX'). unfold posting in Hpo.
    destruct (kv_map (gi_store g) !! _) as [value|] eqn:Ek.
    + destruct Hpo as (q & Hq & Hset). exists (encode_field_value_key field v), value, q.
      split_and!; [|done|by rewrite Hset, HX']. apply Hl. split; [done|]. by apply range_keys.
    + apply HX' in Hhas. set_solver.
Qed.

Lemma evaluate_range_ok field op :
  nul_free (normalize_field g field) → is_range_op op = true → no_overflow op → op_ok op →
  result_is (evaluate_range debug g field op)
    (λ attrs, ∃ av, attrs !! normalize_field g field = Some av ∧ value_matches op av).
Proof.
  intros Hf Hop Hno Hok. unfold evaluate_range.
  destruct (integer_bounds debug (normalize_field g field) op Hop Hno) as (a & b & -> & Hint).
  destruct (float_bounds (normalize_field g field) op Hop Hok) as (c & d & -> & Hfloat).
  cbn [mbind option_bind].
  destruct (scan_range_ok (normalize_field g field) TYPE_PREFIX_INTEGER a b pl_empty Hf)
    as (pl1 & -> & H1'); [done|]. cbn [qbind].
  destruct (scan_range_ok (normalize_field g field) TYPE_PREFIX_FLOAT c d pl1 Hf)
    as (pl2 & -> & H2'); [done|].
  exists pl2. split; [done|]. intros id. rewrite H2', H1', pl_empty_law.
  assert (∀ v, has_attr docs id (normalize_field g field) v →
    value_matches op v ↔
    (value_type v = TYPE_PREFIX_INTEGER ∧ bytes_ltb (value_text v) a = false ∧
       bytes_ltb (value_text v) b = true) ∨
    (value_type v = TYPE_PREFIX_FLOAT ∧ bytes_ltb (value_text v) c = false ∧
       bytes_ltb (value_text v) d = true)) as Hv.
  { intros v Hhas%has_attr_value.
    assert (value_matches op v ↔ match v with AInteger i => int_matches op i
      | AReal y => float_matches op y | _ => False end) as -> by (by destruct op).
    destruct v; cbn [value_type value_ok] in *;
      try (by split; [|intros [[? _]|[? _]]]).
    - rewrite <-Hint by done. split; [by left|]. intros [[_ ?]|[? _]]; done.
    - rewrite <-Hfloat by done. split; [by right|]. intros [[? _]|[_ ?]]; done. }
  split.
  - intros [[He|(v & Hhas & Ht)]|(v & Hhas & Ht)]; [by apply not_elem_of_empty in He|..];
      destruct (Hhas) as (attrs & Hd & Ha); exists attrs; (split; [done|]); exists v;
      (split; [done|]); apply Hv; [done|by left|done|by right].
  - intros (attrs & Hd & v & Ha & Hm).
    assert (has_attr docs id (normalize_field g field) v) as Hhas by (by exists attrs).
    apply Hv in Hm as [?|?]; [|by right; exists v|done]. left. right. by exists v.
Qed.

Lemma evaluate_compare_ok field op :
  nul_free (normalize_field g field) → op_supported op →
  result_is (evaluate_compare debug g field op)
    (λ attrs, ∃ av, attrs !! normalize_field g field = Some av ∧ value_matches op av).
Proof.
  intros Hf Hop. destruct op as [v|v|x|x|x|x]; [|done|by apply evaluate_range_ok; destruct Hop..].
  destruct Hop as [av Hav]. cbn [evaluate_compare value_matches]. rewrite Hav.
  destruct (posting_read (normalize_field g field) av Hf (try_from_ok _ _ Hav)) as (r & -> & Hr).
  eexists. split; [done|]. intros id. rewrite Hr. unfold has_attr. split.
  - intros (attrs & ? & ?). eauto.
  - intros (attrs & ? & av' & ? & ?). simplify_eq. eauto.
Qed.

Lemma and_loop_ok eval subs acc P :
  all_of (λ e, result_is (eval e) (attrs_match e)) subs →
  (∀ id, id ∈ pl_set acc ↔ ∃ attrs, docs !! id = Some attrs ∧ P attrs) →
  result_is (and_loop eval subs acc) (λ attrs, P attrs ∧ all_of (λ e, attrs_match e attrs) subs).
Proof.
  revert acc P. induction subs as [|sub subs IH]; intros acc P Heval Hacc; cbn [all_of foldr] in *.
  { exists acc. split; [done|]. intros id. rewrite Hacc. naive_solver. }
  destruct Heval as [(r & Hr & HX) Heval]. cbn [and_loop]. rewrite Hr. cbn [qbind].
  assert (∀ id, id ∈ pl_set (pl_intersect acc r) ↔
    ∃ attrs, docs !! id = Some attrs ∧ (P attrs ∧ attrs_match sub attrs)) as Hi.
  { intros id. rewrite pl_intersect_law, elem_of_intersection, Hacc, HX. naive_solver. }
  rewrite pl_is_empty_law. case_bool_decide as He.
  - eexists. split; [done|]. intros id. rewrite Hi. split; [|naive_solver].
    intros Hid%Hi. rewrite He in Hid. set_solver.
  - destruct (IH _ _ Heval Hi) as (pl & Hpl & HX'). exists pl. split; [done|].
    intros id. rewrite HX'. naive_solver.
Qed.

Lemma or_loop_ok eval subs acc P :
  all_of (λ e, result_is (eval e) (attrs_match e)) subs →
  (∀ id, id ∈ pl_set acc ↔ ∃ attrs, docs !! id = Some attrs ∧ P attrs) →
  result_is (or_loop eval subs acc) (λ attrs, P attrs ∨ some_of (λ e, attrs_match e attrs) subs).
Proof.
  revert acc P. induction subs as [|sub subs IH]; intros acc P Heval Hacc;
    cbn [all_of some_of foldr] in *.
  { exists acc. split; [done|]. intros id. rewrite Hacc. naive_solver. }
  destruct Heval as [(r & Hr & HX) Heval]. cbn [or_loop]. rewrite Hr. cbn [qbind].
  destruct (IH (pl_union acc r) (λ attrs, P attrs ∨ attrs_match sub attrs) Heval)
    as (pl & Hpl & HX').
  { intros id. rewrite pl_union_law, elem_of_union, Hacc, HX. naive_solver. }
  exists pl. split; [done|]. intros id. rewrite HX'. naive_solver.
Qed.

Lemma all_of_impl {A} (P Q : A → Prop) l :
  Forall (λ x, P x → Q x) l → all_of P l → all_of Q l.
Proof. induction 1; cbn; naive_solver. Qed.

(** The result of a supported query. *)
Lemma evaluate_query_ok expr : supported expr →
  result_is (evaluate_query debug g expr) (attrs_match expr).
Proof.
  induction expr as [subs IH|subs IH|e IH|field op] using ASTExpr_nested_ind; [| |done|].
  - intros [Hne Hsup]. apply (all_of_impl _ _ _ IH) in Hsup. destruct subs as [|sub subs]; [done|].
    destruct Hsup as [(acc & Hacc & HX) Hsup]. cbn [evaluate_query]. rewrite Hacc. cbn [qbind].
    exact (and_loop_ok _ subs acc (attrs_match sub) Hsup HX).
  - intros Hsup. apply (all_of_impl _ _ _ IH) in Hsup. cbn [evaluate_query].
    destruct (or_loop_ok _ subs pl_empty (λ _, False) Hsup) as (pl & Hpl & HX).
    { intros id. rewrite pl_empty_law. set_solver. }
    exists pl. split; [done|]. intros id. rewrite HX. naive_solver.
  - intros [Hf Hop]. by apply evaluate_compare_ok.
Qed.

End attributes.

(** ** Flattened labels *)

Section labels.
Context {J St E PL : Type} `{JsonNumberLaws J} `{KvStoreLaws St E} `{PostingListLaws PL pl_bound}.
Variable (debug : bool).
Variable (attrs_iter : gmap string AttributeValue → list (string * AttributeValue)).
Hypothesis (attrs_iter_perm : ∀ m, attrs_iter m ≡ₚ map_to_list m).
Variable (labels : gmap N (Value J)).

(** A number that the index stores exactly: an integer of at most 53 bits, or a float other than
    the negative zero. *)
Definition num_exact (n : J) : Prop :=
  (∃ i, as_i64 n = Some i ∧ (Z.abs i ≤ 2 ^ 53)%Z) ∨
  (is_f64 n = true ∧ as_f64 n ≠ Some f_neg_zero).

(** A comparison that the index makes exactly: with integers the bound must be integral; with
    floats it must not be the negative zero, and a strict lower or inclusive upper bound must not
    be hit. *)
Definition bound_exact (op : CompareOp J) (x : binary64) (n : J) : Prop :=
  (∀ i, as_i64 n = Some i → f_is_int x (f_to_i64 x)) ∧
  (is_f64 n = true → x ≠ f_neg_zero ∧
     match op with Gt _ | Lte _ => as_f64 n ≠ Some x | _ => True end).

Definition leaf_exact (op : CompareOp J) (leaf : Value J) : Prop :=
  match leaf with
  | VNumber n => num_exact n ∧
      match op with
      | Eq (VNumber m) | Ne (VNumber m) => num_exact m
      | Eq _ | Ne _ => True
      | Lt x | Lte x | Gt x | Gte x => bound_exact op x n
      end
  | _ => True
  end.

Fixpoint expr_exact (expr : ASTExpr J) : Prop :=
  match expr with
  | And subs => subs ≠ [] ∧ all_of expr_exact subs
  | Or subs => all_of expr_exact subs
  | Not _ => False
  | Compare field op =>
      str_has "/" field = false ∧ nul_free field ∧ op_supported op ∧
      ∀ id label leaf, labels !! id = Some label → get_value_by_path label field = Some leaf →
        leaf_exact op leaf
  end.

Lemma finite_not_nan x : f_is_finite x = true → f_is_nan x = false.
Proof. unfold f_is_nan, f_is_finite. intros ?%Z.ltb_lt. apply Z.ltb_ge. lia. Qed.

Lemma num_eqb_exact n m a b : num_exact n → num_exact m →
  attribute_try_from (VNumber n) = Ok a → attribute_try_from (VNumber m) = Ok b →
  num_eqb n m = true ↔ a = b.
Proof.
  intros Hn Hm. cbn. destruct Hn as [(i & Ei & _)|[Fn Zn]].
  - rewrite Ei. intros [= <-]. rewrite (as_i64_eqb n m i Ei), bool_decide_eq_true.
    destruct (as_i64 m) as [j|]; [naive_solver|]. destruct (as_f64 m); naive_solver.
  - rewrite (is_f64_not_i64 n Fn). destruct (as_f64 n) as [x|] eqn:Ex; [|done]. intros [= <-].
    destruct Hm as [(j & Ej & _)|[Fm Zm]].
    + rewrite Ej. intros [= <-].
      rewrite num_eqb_comm, (as_i64_eqb m n j Ej), bool_decide_eq_true, (is_f64_not_i64 n Fn). done.
    + rewrite (is_f64_not_i64 m Fm). destruct (as_f64 m) as [y|] eqn:Ey; [|done]. intros [= <-].
      rewrite (is_f64_eqb n m x y Fn Fm Ex Ey). unfold f_eq.
      destruct (as_f64_finite n x Ex) as [Rx Kx], (as_f64_finite m y Ey) as [Ry Ky].
      rewrite !finite_not_nan by done. cbn. rewrite Z.eqb_eq. split; [|by intros [= ->]].
      intros Ev. f_equal. apply f_value_inj; [done..| | |done]; congruence.
Qed.

Lemma eq_exact leaf v b : leaf_exact (Eq v) leaf → attribute_try_from v = Ok b →
  value_eqb leaf v = true ↔ attribute_try_from leaf = Ok b.
Proof.
  intros Hex Hv. destruct leaf as [|x|n|x|l|l], v as [|y|m|y|k|k]; cbn -[attribute_try_from] in *;
    try done;
    try (by cbn in Hv; simplify_eq; cbn; split; [done|]; repeat case_match; congruence).
  - cbn in *. simplify_eq. rewrite eqb_true_iff. naive_solver.
  - destruct Hex as [Hn Hm]. destruct (attribute_try_from (VNumber n)) as [a|e] eqn:Ea.
    + rewrite (num_eqb_exact n m a b Hn Hm Ea Hv). naive_solver.
    + exfalso. cbn in Ea. destruct Hn as [(i & Ei & _)|[Fn _]]; [by rewrite Ei in Ea|].
      rewrite (is_f64_not_i64 n Fn) in Ea. by destruct (is_f64_some n Fn) as [x Ex]; rewrite Ex in Ea.
  - cbn in *. simplify_eq. rewrite String.eqb_eq. naive_solver.
Qed.

Lemma range_exact op leaf x : get_compare_value op = Some x → is_range_op op = true → op_ok op →
  leaf_exact op leaf →
  eval_compare op leaf = true ↔ ∃ av, attribute_try_from leaf = Ok av ∧ value_matches op av.
Proof.
  intros Hx Hop Hok Hex.
  assert (∀ av, value_matches op av ↔ match av with AInteger i => int_matches op i
    | AReal y => float_matches op y | _ => False end) as Hvm by (intros; by destruct op).
  assert ((∀ n, leaf ≠ VNumber n) → eval_compare op leaf = false) as Hnon.
  { intros Hn. destruct leaf; [..|by destruct (Hn n)| | |]; by destruct op. }
  destruct leaf as [|b|n|str|l|m];
    try (rewrite Hnon by done; split; [done|]; intros (av & Ha & Hm); apply Hvm in Hm; cbn in Ha;
         by simplify_eq).
  clear Hnon. destruct Hex as [Hn Hb].
  assert (bound_exact op x n) as [Hi Hf] by (destruct op; cbn in Hx; simplify_eq; done).
  assert (f_is_nan x = false) as Hnan
    by (apply finite_not_nan; destruct op; cbn in Hx, Hok; simplify_eq; apply Hok).
  destruct Hn as [(i & Ei & Hsmall)|[Fn Zn]]; cbn [attribute_try_from].
  - rewrite Ei, <-(int_matches_exact op n i x Hx Hop Ei Hsmall Hnan (Hi i Ei)). split.
    + intros Hm. exists (AInteger i). split; [done|]. by apply Hvm.
    + intros (av & [= <-] & Hm). by apply Hvm in Hm.
  - destruct (is_f64_some n Fn) as [y Ey]. destruct (Hf Fn) as [Hzx Hne].
    rewrite (is_f64_not_i64 n Fn), Ey.
    rewrite <-(float_matches_exact op n x y Hx Hop Hok Ey Hzx);
      [|congruence|destruct op; try done; cbn in Hx; congruence]. split.
    + intros Hm. exists (AReal y). split; [done|]. by apply Hvm.
    + intros (av & [= <-] & Hm). by apply Hvm in Hm.
Qed.

(** A comparison with a field, by the evaluator and by the index. *)
Lemma eval_leaf op leaf : op_supported op → leaf_exact op leaf →
  eval_compare op leaf = true ↔ ∃ av, attribute_try_from leaf = Ok av ∧ value_matches op av.
Proof.
  intros Hop Hex. destruct op as [v|v|x|x|x|x]; [|done|destruct Hop as [_ Hok]; by eapply range_exact..].
  destruct Hop as [b Hb]. cbn [eval_compare value_matches]. rewrite (eq_exact leaf v b Hex Hb).
  split; [by exists b|]. intros (av & Ha & Hv). congruence.
Qed.

Definition flattened (docs : gmap N (gmap string AttributeValue)) : Prop :=
  map_Forall (λ _, plain) labels ∧
  ∀ id, docs !! id = labels !! id ≫= flatten_json_pointers_map.

Lemma nul_free_pointer field : nul_free field → nul_free (pointer_normalizer field).
Proof.
  unfold nul_free, pointer_normalizer. cbn. induction field as [|a s IH]; [done|]. cbn.
  intros [Ha Hs]%orb_false_iff. rewrite IH, orb_false_r by done. by destruct (Ascii.eqb a ".").
Qed.

Lemma expr_exact_supported (g : GenericIndex St) expr :
  field_normalizer g = Some pointer_normalizer → expr_exact expr → supported g expr.
Proof.
  intros Hg. assert (∀ f, normalize_field g f = pointer_normalizer f) as Hn
    by (intros f; unfold normalize_field; by rewrite Hg).
  induction expr as [subs IH|subs IH|e IH|field op] using ASTExpr_nested_ind.
  - intros [Hne Hs]. split; [done|]. by eapply all_of_impl.
  - intros Hs. by eapply all_of_impl.
  - done.
  - intros (Hf & Hz & Hop & _). cbn. rewrite Hn. split; [by apply nul_free_pointer|done].
Qed.

(** On the flattened label the index decides as the evaluator does on the label. *)
Lemma attrs_match_eval (g : GenericIndex St) expr id label attrs :
  field_normalizer g = Some pointer_normalizer → expr_exact expr →
  labels !! id = Some label → plain label → flatten_json_pointers_map label = Some attrs →
  attrs_match g expr attrs ↔ eval_query_expr expr label = true.
Proof.
  intros Hg Hex Hl Hp Hfl. assert (∀ f, normalize_field g f = pointer_normalizer f) as Hn
    by (intros f; unfold normalize_field; by rewrite Hg).
  revert Hex. induction expr as [subs IH|subs IH|e IH|field op] using ASTExpr_nested_ind; cbn.
  - intros [_ Hs]. induction IH as [|e subs He _ IHs]; [done|]. destruct Hs as [H1' H2'].
    cbn. rewrite andb_true_iff, (He H1'), <-(IHs H2'). done.
  - intros Hs. induction IH as [|e subs He _ IHs]; [done|]. destruct Hs as [H1' H2'].
    cbn. rewrite orb_true_iff, (He H1'), <-(IHs H2'). done.
  - done.
  - intros (Hf & Hz & Hop & Hleaf). rewrite Hn.
    destruct (flatten_agrees label Hp) as (attrs' & Hfl' & Hag). simplify_eq.
    destruct (get_value_by_path label field) as [leaf|] eqn:El.
    + rewrite (eval_leaf op leaf Hop) by (by eapply Hleaf). setoid_rewrite (Hag field Hf).
      rewrite El. naive_solver.
    + setoid_rewrite (Hag field Hf). rewrite El. split; [|done]. by intros (av & (leaf & ? & _) & _).
Qed.

(** C26: The inverted index refines a map from documents to attributes: after every history of
    insertions of new documents, deletions and updates, starting from an empty store whose
    operations succeed, every operation has succeeded and the posting list of every attribute
    holds exactly the documents that have this attribute in the map. *)
Theorem inverted_index_refines (s : St) ops docs :
  kv_map s = ∅ → Forall (op_docs_ok (pl_bound := pl_bound) attrs_iter) ops →
  spec_run ∅ ops = Some docs →
  ∃ s', batch (index_step (PL := PL) attrs_iter) s ops = (s', Ok tt) ∧
    ∀ field v, nul_free field → value_ok v →
      ∃ r, get_posting_list (PL := PL) (index_new s') field v = Ok r ∧
        ∀ id, id ∈ pl_set (default pl_empty r) ↔
          ∃ attrs, docs !! id = Some attrs ∧ attrs !! field = Some v.
Proof.
  intros Hs Hops Hrun. destruct (index_run_ok attrs_iter attrs_iter_perm ∅ docs s ops
    (index_rep_empty attrs_iter s Hs) Hops Hrun) as (s' & E' & Hrep).
  exists s'. split; [done|]. intros field v Hf Hv. by eapply (posting_read attrs_iter).
Qed.

(** C12: For labels that are flattened into the index (objects without nulls and arrays), the
    query evaluation of the index agrees with the evaluator on JSON labels: for every expression
    without negation whose comparisons are within the precision of the index, the result is
    exactly the set of documents whose label satisfies the expression, [is_match] decides it for
    each document, and [count_matches] is their number; no overflow panics. *)
Theorem label_query_exact (s : St) ops docs expr :
  kv_map s = ∅ → Forall (op_docs_ok (pl_bound := pl_bound) attrs_iter) ops →
  spec_run ∅ ops = Some docs → flattened docs → expr_exact expr →
  ∃ s' pl, batch (index_step (PL := PL) attrs_iter) s ops = (s', Ok tt) ∧
    let g := with_field_normalizer (index_new s') pointer_normalizer in
    evaluate_query debug g expr = Some (Ok pl) ∧
    (∀ id, id ∈ pl_set pl ↔
       ∃ label, labels !! id = Some label ∧ eval_query_expr expr label = true) ∧
    (∀ id, (id < pl_bound)%N → is_match (PL := PL) debug g id expr =
       Some (Ok match labels !! id with Some label => eval_query_expr expr label | None => false end)) ∧
    count_matches (PL := PL) debug g expr = Some (Ok (N.of_nat (size (pl_set pl)))).
Proof.
  intros Hs Hops Hrun [Hplain Hfl] Hex. destruct (index_run_ok attrs_iter attrs_iter_perm ∅ docs s
    ops (index_rep_empty attrs_iter s Hs) Hops Hrun) as (s' & E' & Hrep).
  set (g := with_field_normalizer (index_new s') pointer_normalizer).
  destruct (evaluate_query_ok debug attrs_iter g docs Hrep expr) as (pl & Epl & HX);
    [by apply expr_exact_supported|].
  assert (∀ id, id ∈ pl_set pl ↔
    ∃ label, labels !! id = Some label ∧ eval_query_expr expr label = true) as Hset.
  { intros id. rewrite HX, Hfl. destruct (labels !! id) as [label|] eqn:El; cbn; [|naive_solver].
    destruct (flatten_agrees label (Hplain _ _ El)) as (attrs & Ha & _). rewrite Ha.
    pose proof (attrs_match_eval g expr id label attrs eq_refl Hex El (Hplain _ _ El) Ha) as Hm.
    split.
    - intros (? & [= <-] & ?). exists label. by rewrite <-Hm.
    - intros (? & [= <-] & ?). exists attrs. by rewrite Hm. }
  exists s', pl. split; [done|]. cbv zeta. fold g. split; [done|]. split; [exact Hset|]. split.
  - intros id Hid. unfold is_match. rewrite Epl. cbn [qbind].
    rewrite pl_contains_law by done. do 2 f_equal. apply eq_true_iff_eq.
    rewrite bool_decide_eq_true, Hset. destruct (labels !! id) as [label|]; [|naive_solver].
    split; [by intros (? & [= <-] & ?)|by exists label].
  - unfold count_matches. rewrite Epl. cbn [qbind]. by rewrite pl_len_law.
Qed.

End labels.

(** ** Reference implementations and examples *)

#[global] Instance map_store : KvStore (gmap (list Z) (list Z)) Empty_set := {
  kv_get m k := Ok (m !! k);
  kv_set m k v := (<[k := v]> m, Ok tt);
  kv_del m k := (delete k m, Ok tt);
  kv_range m r := Ok (Ok <$> List.filter (λ e, range_contains r e.1) (map_to_list m));
}.

#[global] Instance map_store_laws : KvStoreLaws (gmap (list Z) (list Z)) Empty_set.
Proof.
  refine {| kv_map m := m |}.
  - done.
  - intros m k v. by eexists.
  - intros m k. by eexists.
  - intros m r. eexists. split; [done|]. intros k v.
    rewrite elem_of_List_filter, elem_of_map_to_list. cbn. tauto.
Defined.

(** Two labels, flattened, indexed, one of them updated, and a third one deleted again. *)
Definition example_labels : gmap N (Value json_number) :=
  <[1%N := VObject [("age", VNumber (JInt 30)); ("specs", VObject [("cpu", VString "i7")])]]>
    {[2%N := VObject [("age", VNumber (JInt 17)); ("score", VNumber (JFloat (f_of_Z 2)))]]}.

Definition example_attrs1 : gmap string AttributeValue :=
  <["/age" := AInteger 30]> {["/specs/cpu" := AString "i7"]}.
Definition example_attrs2 : gmap string AttributeValue :=
  <["/age" := AInteger 17]> {["/score" := AReal (f_of_Z 2)]}.

Definition example_history : list index_op :=
  [OpInsert 1 ∅; OpInsert 2 example_attrs2; OpUpdate 1 example_attrs1; OpInsert 3 example_attrs1;
   OpDelete 3].

Definition example_docs : gmap N (gmap string AttributeValue) :=
  <[1%N := example_attrs1]> {[2%N := example_attrs2]}.

Definition example_keys (attrs : gmap string AttributeValue) : list (list Z) :=
  (λ e, encode_field_value_key e.1 e.2) <$> map_to_list attrs.

Lemma example_keys_ok attrs :
  forallb (λ k, (Z.of_nat (length k) <? 2 ^ 32)%Z) (example_keys attrs) &&
  (Z.of_nat (length (example_keys attrs)) <? 2 ^ 32)%Z &&
  bool_decide (is_Some (key_list_size 4 (example_keys attrs))) = true →
  key_list_ok (example_keys attrs).
Proof.
  rewrite !andb_true_iff, Z.ltb_lt, forallb_forall. intros [[Hk Hc] Hs]. split_and!; [done| |].
  - apply Forall_forall. intros k Hin%list_elem_of_In. by apply Z.ltb_lt, Hk.
  - by apply bool_decide_eq_true in Hs.
Qed.

Lemma example_ops_ok :
  Forall (op_docs_ok (pl_bound := 2 ^ 32) map_to_list) example_history.
Proof.
  assert (∀ id attrs, (id < 2 ^ 32)%N → map_Forall (λ f v, nul_free f ∧ value_ok v) attrs →
    key_list_ok (example_keys attrs) →
    doc_ok (pl_bound := 2 ^ 32) map_to_list id attrs) as Hdoc by (by constructor).
  assert (∀ id, (id < 2 ^ 32)%N → doc_ok (pl_bound := 2 ^ 32) map_to_list id example_attrs1) as H1.
  { intros id Hid. apply Hdoc; [done| |by apply example_keys_ok; vm_compute].
    apply map_Forall_insert_2; [done|]. by apply map_Forall_singleton. }
  repeat apply Forall_cons_2; [|..|apply Forall_nil_2]; cbn [op_docs_ok];
    [apply Hdoc; [done|apply map_Forall_empty|by apply example_keys_ok; vm_compute]
    |apply Hdoc; [done| |by apply example_keys_ok; vm_compute]
    |by apply H1|by apply H1|done].
  apply map_Forall_insert_2; [done|]. apply map_Forall_singleton. split; [done|]. by vm_compute.
Qed.

Lemma example_run : spec_run ∅ example_history = Some example_docs.
Proof. apply (bool_decide_unpack _). by vm_compute. Qed.

Lemma inverted_index_refines_witness :
  ∃ s', batch (index_step (PL := RoaringPostingList (gset N)) map_to_list) (∅ : gmap (list Z) (list Z))
      example_history = (s', Ok tt) ∧
    ∃ r, get_posting_list (PL := RoaringPostingList (gset N)) (index_new s') "/specs/cpu"
        (AString "i7") = Ok r ∧ pl_set (default pl_empty r) = {[1%N]}.
Proof.
  destruct (inverted_index_refines (E := Empty_set) (PL := RoaringPostingList (gset N)) map_to_list
    (λ m, Permutation_refl (map_to_list m)) (∅ : gmap (list Z) (list Z)) example_history
    example_docs) as (s' & Es & Hs); [reflexivity|exact example_ops_ok|exact example_run|].
  destruct (Hs "/specs/cpu" (AString "i7")) as (r & Er & Hr); [done..|].
  exists s'. split; [exact Es|]. exists r. split; [exact Er|].
  apply set_eq. intros id. rewrite Hr, elem_of_singleton. unfold example_docs. split.
  - intros (attrs & Hd & Ha). apply lookup_insert_Some in Hd as [[<- _]|[_ Hd]]; [done|].
    apply lookup_singleton_Some in Hd as [<- <-]. by vm_compute in Ha.
  - intros ->. exists example_attrs1. split; [apply lookup_insert_eq|by vm_compute].
Defined.

Definition example_query : ASTExpr json_number :=
  Or [And [Compare "age" (Gte (f_of_Z 18)); Compare "specs.cpu" (Eq (VString "i7"))];
      Compare "score" (Lt (f_of_Z 1))].

Lemma example_flattened : flattened example_labels example_docs.
Proof.
  split.
  - apply map_Forall_insert_2; [|apply map_Forall_singleton]; cbn;
      (split_and!; [by repeat constructor; set_solver|by repeat constructor|..]); try done; eauto;
      by repeat constructor; set_solver.
  - intros id. unfold example_docs, example_labels.
    destruct (decide (id = 1%N)) as [->|H1]; [by rewrite !lookup_insert_eq|].
    rewrite !lookup_insert_ne by done. destruct (decide (id = 2%N)) as [->|H2].
    + by rewrite !lookup_singleton_eq.
    + by rewrite !lookup_singleton_ne.
Qed.


Lemma example_labels_Forall (P : Value json_number → Prop) :
  P (VObject [("age", VNumber (JInt 30)); ("specs", VObject [("cpu", VString "i7")])]) →
  P (VObject [("age", VNumber (JInt 17)); ("score", VNumber (JFloat (f_of_Z 2)))]) →
  ∀ id label, example_labels !! id = Some label → P label.
Proof.
  intros H1 H2 id label. unfold example_labels. rewrite lookup_insert_Some, lookup_singleton_Some.
  by intros [[_ <-]|[_ [_ <-]]].
Qed.

Lemma example_exact : expr_exact example_labels example_query.
Proof.
  assert (∀ field op, str_has "/" field = false → nul_free field → op_supported op →
    (∀ id label, example_labels !! id = Some label →
       ∀ leaf, get_value_by_path label field = Some leaf → leaf_exact op leaf) →
    expr_exact example_labels (Compare field op)) as Hc.
  { intros field op H1 H2 H3 H4. split_and!; [done..|]. intros. by eapply H4. }
  assert (∀ i, (Z.abs i ≤ 2 ^ 53)%Z → leaf_exact (Gte (f_of_Z 18)) (VNumber (JInt i))) as Hint.
  { intros i Hi. assert (as_i64 (JInt i) = Some i) as Ei.
    { cbn. rewrite (proj2 (Z.leb_le _ _)), (proj2 (Z.ltb_lt _ _)) by lia. done. }
    split; [by left; exists i|]. split; [|done]. intros _ _. by vm_compute. }
  split; [split; [done|]; split; [|split; [|done]]|split; [|done]]; apply Hc; try done.
  - apply (example_labels_Forall (λ label, ∀ leaf, get_value_by_path label "age" = Some leaf →
      leaf_exact (Gte (f_of_Z 18)) leaf)); intros leaf [= <-]; by apply Hint.
  - by eexists.
  - by apply (example_labels_Forall (λ label, ∀ leaf, get_value_by_path label "specs.cpu" = Some leaf →
      leaf_exact (Eq (VString "i7")) leaf)); intros leaf [= <-].
  - apply (example_labels_Forall (λ label, ∀ leaf, get_value_by_path label "score" = Some leaf →
      leaf_exact (Lt (f_of_Z 1)) leaf)); intros leaf; [done|]. intros [= <-]. split.
    + right. split; [done|]. by vm_compute.
    + split; [done|]. intros _. split; [|done]. by vm_compute.
Qed.

Lemma label_query_exact_witness :
  ∃ s' pl, batch (index_step (PL := RoaringPostingList (gset N)) map_to_list)
      (∅ : gmap (list Z) (list Z)) example_history = (s', Ok tt) ∧
    let g := with_field_normalizer (index_new s') pointer_normalizer in
    evaluate_query (PL := RoaringPostingList (gset N)) true g example_query = Some (Ok pl) ∧
    is_match (PL := RoaringPostingList (gset N)) true g 1 example_query = Some (Ok true) ∧
    is_match (PL := RoaringPostingList (gset N)) true g 2 example_query = Some (Ok false).
Proof.
  destruct (label_query_exact (E := Empty_set) (PL := RoaringPostingList (gset N)) true map_to_list
    (λ m, Permutation_refl (map_to_list m)) example_labels (∅ : gmap (list Z) (list Z))
    example_history example_docs example_query) as (s' & pl & Es & Eq & _ & Hm & _);
    [reflexivity|exact example_ops_ok|exact example_run|exact example_flattened|exact example_exact|].
  exists s', pl. split; [exact Es|]. split; [exact Eq|].
  split; (etrans; [apply Hm; done|]); by vm_compute.
Defined.

(** ** Where the index and the evaluator differ *)

(** The index of one document with one field, and a query on it. *)
Definition one_doc_match (debug : bool) (v : AttributeValue) (op : CompareOp json_number) :
    option (result (QueryError json_number Empty_set) bool) :=
  is_match (PL := RoaringPostingList (gset N)) debug
    (index_new (index_insert (PL := RoaringPostingList (gset N)) map_to_list
      (∅ : gmap (list Z) (list Z)) 7 {["x" := v]}).1) 7 (Compare "x" op).

(** 10.5 *)
Definition f_10_5 : binary64 := (f_of_Z 10 + 2 ^ 48)%Z.

(** A fractional bound is truncated for integers: 10 matches [x >= 10.5] and does not match
    [x < 10.5].  A float that equals the bound matches [x > 2] and does not match [x <= 2].  The
    negative zero matches [x < 0].  A bound beyond [i64] panics in a debug build; in a release
    build every integer is greater than it. *)
Lemma index_differs :
  one_doc_match true (AInteger 10) (Gte f_10_5) = Some (Ok true) ∧
  eval_compare (Gte f_10_5) (VNumber (JInt 10)) = false ∧
  one_doc_match true (AInteger 10) (Lt f_10_5) = Some (Ok false) ∧
  eval_compare (Lt f_10_5) (VNumber (JInt 10)) = true ∧
  one_doc_match true (AReal (f_of_Z 2)) (Gt (f_of_Z 2)) = Some (Ok true) ∧
  eval_compare (Gt (f_of_Z 2)) (VNumber (JFloat (f_of_Z 2))) = false ∧
  one_doc_match true (AReal (f_of_Z 2)) (Lte (f_of_Z 2)) = Some (Ok false) ∧
  eval_compare (Lte (f_of_Z 2)) (VNumber (JFloat (f_of_Z 2))) = true ∧
  one_doc_match true (AReal f_neg_zero) (Lt 0%Z) = Some (Ok true) ∧
  eval_compare (Lt 0%Z) (VNumber (JFloat f_neg_zero)) = false ∧
  one_doc_match true (AInteger 10) (Gt (f_of_Z (2 ^ 64))) = None ∧
  one_doc_match false (AInteger 10) (Gt (f_of_Z (2 ^ 64))) = Some (Ok true).
Proof. by vm_compute. Qed.

(** An empty conjunction matches nothing in the index and everything in the evaluator (the parser
    returns none). *)
Lemma empty_and_differs (g : GenericIndex (gmap (list Z) (list Z))) (label : Value json_number) :
  evaluate_query (PL := RoaringPostingList (gset N)) true g (And []) = Some (Ok pl_empty) ∧
  eval_query_expr (And []) label = true.
Proof. done. Qed.

(** Inserting a document that is in the index leaves its old attributes in the posting lists. *)
Lemma reinsertion_keeps_old :
  let PL := RoaringPostingList (gset N) in
  let s1 := (index_insert (PL := PL) map_to_list (∅ : gmap (list Z) (list Z)) 7
    {["x" := AInteger 1]}).1 in
  let s2 := (index_insert (PL := PL) map_to_list s1 7 {["x" := AInteger 2]}).1 in
  let s3 := (index_delete (PL := PL) s2 7).1 in
  is_match (J := json_number) (PL := PL) true (index_new s3) 7
    (Compare "x" (Eq (VNumber (JInt 1)))) = Some (Ok true).
Proof. by vm_compute. Qed.
