(* ===== verification/LabelEncoded.v ===== *)
(** * Label filters: encoded attributes

    Models [diskann-label-filter/src/encoded_attribute_provider/] ([attribute_encoder.rs],
    [ast_id_expr.rs], [ast_label_id_mapper.rs], [encoded_filter_expr.rs],
    [roaring_attribute_store.rs], [encoded_attribute_accessor.rs]), the set provider
    [set/roaring_set_provider.rs] and the predicate evaluator
    [inline_beta_search/predicate_evaluator.rs].

    - attributes are numbered ([AttributeEncoder]); a filter is translated into an expression over
      these numbers once, and evaluated on the set of numbers of a point;
    - [RoaringAttributeStore] keeps the numbers of each vector and the inverse relation;
    - Section [refinement]: the store represents a map from vectors to sets of attributes, and the
      translated filter decides on the numbers what the filter says about the attributes, also
      after later changes of the store.

    The locks of the source are held for a whole operation and the operations do not panic, so
    that they are atomic and never poisoned.  Ids of vectors are their 64-bit numbers.  The
    numbers of attributes do not overflow (each takes memory). *)

From Stdlib Require Import Ascii.
From stdpp Require Import strings.
From S2P Require Import Prelude Strings LabelJson LabelIndex.

(** ** Numbers for attributes *)

(** The key of the hash map [InternalAttribute]: equality of attribute values is equality of the
    values with their floats normalized. *)
Definition normal_value (v : AttributeValue) : AttributeValue :=
  match v with AReal x => AReal (to_bits_helper x) | _ => v end.

Definition InternalAttribute : Type := string * AttributeValue.

Definition internal_attribute (a : Attribute) : InternalAttribute :=
  (flattened_field_name a, normal_value (attr_value a)).

Record AttributeEncoder := mkEncoder {
  attribute_index : gmap InternalAttribute N;
  running_index : N;
}.

Definition encoder_new : AttributeEncoder := mkEncoder ∅ 0.

(** [AttributeEncoder::insert] *)
Definition encoder_insert (e : AttributeEncoder) (a : Attribute) : AttributeEncoder * N :=
  match attribute_index e !! internal_attribute a with
  | Some id => (e, id)
  | None =>
      (mkEncoder (<[internal_attribute a := running_index e]> (attribute_index e))
         (running_index e + 1), running_index e)
  end.

(** [AttributeEncoder::get] *)
Definition encoder_get (e : AttributeEncoder) (a : Attribute) : option N :=
  attribute_index e !! internal_attribute a.

(** ** Expressions over numbers *)

#[warnings="-register-all"]
Inductive ASTIdExpr : Type :=
| IdAnd (l : list ASTIdExpr)
| IdOr (l : list ASTIdExpr)
| IdNot (e : ASTIdExpr)
| IdTerminal (id : N).

Inductive MapError (J : Type) : Type :=
| UnknownAttribute (field : string) (op : CompareOp J)
| UnsupportedOp (op : CompareOp J)
| JsonError (e : JsonConversionError J).
Arguments UnknownAttribute {J} _ _.
Arguments UnsupportedOp {J} _.
Arguments JsonError {J} _.

Section mapper.
Context {J : Type} `{JsonNumber J}.

(** [ASTLabelIdMapper::visit_compare] with [_lookup] *)
Definition visit_compare (encoder : AttributeEncoder) (field : string) (op : CompareOp J) :
    result (MapError J) ASTIdExpr :=
  match op with
  | Eq value =>
      match from_json_value field value with
      | Err e => Err (JsonError e)
      | Ok attribute =>
          match encoder_get encoder attribute with
          | Some attribute_id => Ok (IdTerminal attribute_id)
          | None => Err (UnknownAttribute field op)
          end
      end
  | _ => Err (UnsupportedOp op)
  end.

(** [ASTLabelIdMapper::visit]; [EncodedFilterExpr::new] is its result. *)
Fixpoint map_expr (encoder : AttributeEncoder) (expr : ASTExpr J) : result (MapError J) ASTIdExpr :=
  match expr with
  | And exprs => (let? es := parse_all (map_expr encoder) exprs in Ok (IdAnd es))%rust
  | Or exprs => (let? es := parse_all (map_expr encoder) exprs in Ok (IdOr es))%rust
  | Not expr => (let? e := map_expr encoder expr in Ok (IdNot e))%rust
  | Compare field op => visit_compare encoder field op
  end.
End mapper.

(** [PredicateEvaluator] over a set whose membership test may fail. *)
Section evaluator.
Context {E : Type}.
Variable (contains : N → result E bool).

Fixpoint predicate_visit (expr : ASTIdExpr) : result E bool :=
  match expr with
  | IdAnd exprs =>
      (fix go exprs :=
         match exprs with
         | [] => Ok true
         | expr :: exprs =>
             match predicate_visit expr with
             | Ok true => go exprs
             | Ok false => Ok false
             | Err e => Err e
             end
         end) exprs
  | IdOr exprs =>
      (fix go exprs :=
         match exprs with
         | [] => Ok false
         | expr :: exprs =>
             match predicate_visit expr with
             | Ok true => Ok true
             | Ok false => go exprs
             | Err e => Err e
             end
         end) exprs
  | IdNot expr =>
      match predicate_visit expr with
      | Ok result => Ok (negb result)
      | Err e => Err e
      end
  | IdTerminal label_id => contains label_id
  end.
End evaluator.

(** ** Sets by key ([set/roaring_set_provider.rs]) *)

Section provider.
Context {K B : Type} `{Countable K} `{Roaring B}.
Implicit Types (m : gmap K B).

Definition sp_get m (id : K) : option B := m !! id.
Definition sp_count m : nat := size m.
Definition sp_exists m (id : K) : bool := bool_decide (is_Some (m !! id)).

(** [entry(id).or_insert_with(empty_set)] *)
Definition sp_entry m (id : K) : B := default rb_new (m !! id).

Definition sp_insert m (id : K) (value : N) : gmap K B * bool :=
  let '(set, r) := rb_insert (sp_entry m id) value in (<[id := set]> m, r).

(** The loop of [insert_values]: [&&] does not evaluate the insertion after a failed one. *)
Fixpoint insert_loop (set : B) (all_inserted : bool) (values : list N) : B * bool :=
  match values with
  | [] => (set, all_inserted)
  | v :: values =>
      if all_inserted then
        let '(set, r) := rb_insert set v in insert_loop set r values
      else insert_loop set false values
  end.

Definition sp_insert_values m (id : K) (values : list N) : gmap K B * bool :=
  let '(set, r) := insert_loop (sp_entry m id) true values in (<[id := set]> m, r).

Definition sp_delete m (key : K) : gmap K B * bool := (delete key m, bool_decide (is_Some (m !! key))).

Definition sp_delete_from_set m (key : K) (value : N) : gmap K B * bool :=
  match m !! key with
  | Some set => let '(set, r) := rb_remove set value in (<[key := set]> m, r)
  | None => (m, false)
  end.

Definition sp_clear m : gmap K B := ∅.
End provider.

(** ** The store *)

Inductive StoreError := NoAttributes | InvIndexDelete | IndexDelete.

Section store.
Context {B : Type} `{Roaring B}.

Record RoaringAttributeStore := mkStore {
  attribute_map : AttributeEncoder;
  index : gmap N B;
  inv_index : gmap N B;
}.

Definition store_new : RoaringAttributeStore := mkStore encoder_new ∅ ∅.

(** [deleted = deleted && inv_index.delete_from_set(attr_id, vec_id)], for each attribute *)
Fixpoint delete_loop (inv : gmap N B) (vec_id : N) (deleted : bool) (attrs : list N) : gmap N B * bool :=
  match attrs with
  | [] => (inv, deleted)
  | attr_id :: attrs =>
      if deleted then
        let '(inv, r) := sp_delete_from_set inv attr_id vec_id in delete_loop inv vec_id r attrs
      else delete_loop inv vec_id false attrs
  end.

(** [AttributeStore::delete] *)
Definition store_delete (st : RoaringAttributeStore) (vec_id : N) :
    RoaringAttributeStore * result StoreError bool :=
  match sp_get (index st) vec_id with
  | None => (st, Ok false)
  | Some existing_set =>
      let '(inv, deleted) := delete_loop (inv_index st) vec_id true (rb_iter existing_set) in
      if deleted then
        let '(idx, deleted) := sp_delete (index st) vec_id in
        (mkStore (attribute_map st) idx inv, if deleted then Ok true else Err IndexDelete)
      else (mkStore (attribute_map st) (index st) inv, Err InvIndexDelete)
  end.

(** [AttributeStore::id_exists] *)
Definition store_id_exists (st : RoaringAttributeStore) (vec_id : N) : result StoreError bool :=
  Ok (sp_exists (index st) vec_id).

(** The removal of the old attributes in [set_element]. *)
Fixpoint forget_loop (inv : gmap N B) (vec_id : N) (attrs : list N) : gmap N B :=
  match attrs with
  | [] => inv
  | attr_id :: attrs => forget_loop (sp_delete_from_set inv attr_id vec_id).1 vec_id attrs
  end.

(** The insertion of the new attributes. *)
Fixpoint insert_attrs (st : RoaringAttributeStore) (vec_id : N) (attributes : list Attribute) :
    RoaringAttributeStore :=
  match attributes with
  | [] => st
  | attr :: attributes =>
      let '(enc, attr_id) := encoder_insert (attribute_map st) attr in
      insert_attrs (mkStore enc (sp_insert (index st) vec_id attr_id).1
        (sp_insert (inv_index st) attr_id vec_id).1) vec_id attributes
  end.

(** [AttributeStore::set_element] *)
Definition store_set_element (st : RoaringAttributeStore) (vec_id : N) (attributes : list Attribute) :
    RoaringAttributeStore * result StoreError bool :=
  match attributes with
  | [] => (st, Err NoAttributes)
  | _ =>
      let inv :=
        match sp_get (index st) vec_id with
        | Some set => forget_loop (inv_index st) vec_id (rb_iter set)
        | None => inv_index st
        end in
      let idx := (sp_delete (index st) vec_id).1 in
      (insert_attrs (mkStore (attribute_map st) idx inv) vec_id attributes, Ok true)
  end.

(** [EncodedAttributeAccessor::visit_labels_of_point] *)
Definition visit_labels_of_point {R} (st : RoaringAttributeStore) (vec_id : N)
    (visitor : N → option B → R) : R :=
  visitor vec_id (sp_get (index st) vec_id).

End store.
Arguments RoaringAttributeStore B : clear implicits.

(** ** Equality of attribute values *)

Lemma attribute_value_eqb_spec v w :
  attribute_value_eqb v w = true ↔ normal_value v = normal_value w.
Proof.
  destruct v, w; cbn; rewrite ?eqb_true_iff, ?Z.eqb_eq, ?String.eqb_eq; split; congruence.
Qed.

(** ** Refinement *)

Record encoder_ok (e : AttributeEncoder) : Prop := {
  eo_inj : ∀ k k' id, attribute_index e !! k = Some id → attribute_index e !! k' = Some id → k = k';
  eo_below : ∀ k id, attribute_index e !! k = Some id → (id < running_index e)%N;
}.

Lemma encoder_insert_ok e a : encoder_ok e →
  encoder_ok (encoder_insert e a).1 ∧
  attribute_index e ⊆ attribute_index (encoder_insert e a).1 ∧
  attribute_index (encoder_insert e a).1 !! internal_attribute a = Some (encoder_insert e a).2.
Proof.
  intros [Hinj Hlt]. unfold encoder_insert.
  destruct (attribute_index e !! internal_attribute a) as [id|] eqn:E; cbn; [by split|].
  split_and!; [|by apply insert_subseteq|apply lookup_insert_eq].
  split; cbn.
  - intros k k' id Hk Hk'. apply lookup_insert_Some in Hk as [[<- <-]|[_ Hk]], Hk' as [[<- Hk']|[_ Hk']];
      [done|..]; [apply Hlt in Hk'; lia|subst id; apply Hlt in Hk; lia|by eapply Hinj].
  - intros k id Hk. apply lookup_insert_Some in Hk as [[_ <-]|[_ Hk]]; [lia|]. apply Hlt in Hk. lia.
Qed.

Section refinement.
Context {B : Type} `{RoaringLaws B}.

(** The elements of the set of a key. *)
Definition related {K} `{Countable K} (m : gmap K B) (k : K) (x : N) : Prop :=
  x ∈ rb_set (sp_entry m k).

Lemma related_none {K} `{Countable K} (m : gmap K B) k x : m !! k = None → ¬ related m k x.
Proof. unfold related, sp_entry. intros ->. cbn. rewrite rb_new_law. set_solver. Qed.

Lemma related_insert {K} `{Countable K} (m : gmap K B) id v k x :
  related (sp_insert m id v).1 k x ↔ related m k x ∨ (k = id ∧ x = v).
Proof.
  unfold sp_insert. pose proof (proj1 (rb_insert_law (sp_entry m id) v)) as Hi.
  destruct (rb_insert (sp_entry m id) v) as [set r]. cbn in *. unfold related, sp_entry at 1.
  destruct (decide (k = id)) as [->|Hne].
  - rewrite lookup_insert_eq. cbn. rewrite Hi. set_solver.
  - rewrite lookup_insert_ne by done. naive_solver.
Qed.

Lemma related_delete_from {K} `{Countable K} (m : gmap K B) key v k x :
  related (sp_delete_from_set m key v).1 k x ↔ related m k x ∧ ¬ (k = key ∧ x = v).
Proof.
  unfold sp_delete_from_set. destruct (m !! key) as [set|] eqn:E.
  - pose proof (proj1 (rb_remove_law set v)) as Hr. destruct (rb_remove set v) as [set' r].
    cbn in *. unfold related, sp_entry. destruct (decide (k = key)) as [->|Hne].
    + rewrite lookup_insert_eq, E. cbn. rewrite Hr. set_solver.
    + rewrite lookup_insert_ne by done. naive_solver.
  - cbn. split; [|by intros []]. intros Hx. split; [done|]. intros [-> ->].
    by apply (related_none m key v E).
Qed.

Lemma delete_from_result {K} `{Countable K} (m : gmap K B) key v :
  related m key v → (sp_delete_from_set m key v).2 = true.
Proof.
  intros Hv. unfold sp_delete_from_set. destruct (m !! key) as [set|] eqn:E;
    [|by destruct (related_none m key v E)].
  pose proof (proj2 (rb_remove_law set v)) as Hr. destruct (rb_remove set v) as [set' r].
  cbn in *. rewrite Hr. apply bool_decide_eq_true. unfold related, sp_entry in Hv.
  by rewrite E in Hv.
Qed.

Lemma related_delete {K} `{Countable K} (m : gmap K B) key k x :
  related (sp_delete m key).1 k x ↔ related m k x ∧ k ≠ key.
Proof.
  unfold sp_delete. cbn. destruct (decide (k = key)) as [->|Hne].
  - split; [|by intros []]. intros Hx. exfalso. by apply (related_none _ _ _ (lookup_delete_eq m key)) in Hx.
  - unfold related, sp_entry. rewrite lookup_delete_ne by done. naive_solver.
Qed.

Lemma related_forget (inv : gmap N B) vec attrs a v :
  related (forget_loop inv vec attrs) a v ↔ related inv a v ∧ ¬ (v = vec ∧ a ∈ attrs).
Proof.
  revert inv. induction attrs as [|x attrs IH]; intros inv; cbn.
  - split; [|by intros []]. intros ?. split; [done|]. by intros [_ ?%not_elem_of_nil].
  - rewrite IH, related_delete_from, elem_of_cons. naive_solver.
Qed.

(** Every entry that a deletion looks for is there. *)
Lemma delete_loop_ok (inv : gmap N B) vec attrs :
  NoDup attrs → (∀ a, a ∈ attrs → related inv a vec) →
  delete_loop inv vec true attrs = (forget_loop inv vec attrs, true).
Proof.
  intros Hnd. revert inv. induction Hnd as [|x attrs Hx _ IH]; intros inv Hin; [done|]. cbn.
  pose proof (delete_from_result inv x vec (Hin x (list_elem_of_here _ _))) as Hr.
  destruct (sp_delete_from_set inv x vec) as [inv' r] eqn:E. cbn in Hr |- *. subst r.
  apply IH. intros a Ha. replace inv' with (sp_delete_from_set inv x vec).1 by (by rewrite E).
  apply related_delete_from. split; [apply Hin; by right|]. by intros [-> _].
Qed.

(** A set of numbers encodes a set of attributes. *)
Definition encodes (enc : gmap InternalAttribute N) (A : gset InternalAttribute) (X : N → Prop) :
    Prop :=
  (∀ a, X a ↔ ∃ k, k ∈ A ∧ enc !! k = Some a) ∧ ∀ k, k ∈ A → is_Some (enc !! k).

Lemma encodes_mono enc enc' A X : enc ⊆ enc' → encodes enc A X → encodes enc' A X.
Proof.
  intros Hsub [HX HA]. split.
  - intros a. rewrite HX. split; intros (k & Hk & Ha); exists k; (split; [done|]).
    + by eapply lookup_weaken.
    + destruct (HA k Hk) as [a' Ha']. pose proof (lookup_weaken _ _ _ _ Ha' Hsub). congruence.
  - intros k Hk. destruct (HA k Hk) as [a Ha]. exists a. by eapply lookup_weaken.
Qed.

Lemma encodes_add enc A X k a : enc !! k = Some a → encodes enc A X →
  encodes enc ({[k]} ∪ A) (λ x, X x ∨ x = a).
Proof.
  intros Hk [HX HA]. split.
  - intros x. rewrite HX. setoid_rewrite elem_of_union. setoid_rewrite elem_of_singleton.
    split.
    + intros [(k' & ? & ?)| ->]; [by exists k'; eauto|]. exists k. eauto.
    + intros (k' & [->|?] & ?); [right; congruence|left; eauto].
  - intros k' [->%elem_of_singleton|Hk']%elem_of_union; [by exists a|by apply HA].
Qed.

Lemma encodes_ext enc A X Y : (∀ a, X a ↔ Y a) → encodes enc A X → encodes enc A Y.
Proof. intros HXY [HX HA]. split; [|done]. intros a. by rewrite <-HXY. Qed.

(** The store represents the attributes [labels] of the vectors. *)
Record store_core (labels : gmap N (gset InternalAttribute)) (st : RoaringAttributeStore B) : Prop := {
  sr_encoder : encoder_ok (attribute_map st);
  sr_inverse : ∀ a v, related (inv_index st) a v ↔ related (index st) v a;
  sr_labels : ∀ v A, labels !! v = Some A →
    encodes (attribute_index (attribute_map st)) A (related (index st) v);
}.

Definition store_rep labels (st : RoaringAttributeStore B) : Prop :=
  store_core labels st ∧ ∀ v, is_Some (index st !! v) ↔ is_Some (labels !! v).

Definition attribute_set (attrs : list Attribute) : gset InternalAttribute :=
  list_to_set (internal_attribute <$> attrs).

(** The encoder only grows. *)
Definition grows (st st' : RoaringAttributeStore B) : Prop :=
  attribute_index (attribute_map st) ⊆ attribute_index (attribute_map st').

Lemma insert_attr_core labels A vec attr st enc a :
  store_core (<[vec := A]> labels) st → encoder_insert (attribute_map st) attr = (enc, a) →
  store_core (<[vec := {[internal_attribute attr]} ∪ A]> labels)
    (mkStore enc (sp_insert (index st) vec a).1 (sp_insert (inv_index st) a vec).1) ∧
  attribute_index (attribute_map st) ⊆ attribute_index enc.
Proof.
  intros [He Hinv Hl] E. destruct (encoder_insert_ok _ attr He) as (Henc & Hsub & Hget).
  rewrite E in Henc, Hsub, Hget. cbn [fst snd] in *. split; [|done]. split; cbn.
  - done.
  - intros x v. rewrite !related_insert, Hinv. naive_solver.
  - intros v A' HA'. destruct (decide (v = vec)) as [->|Hne].
    + rewrite lookup_insert_eq in HA'. injection HA' as <-.
      pose proof (Hl vec A (lookup_insert_eq _ _ _)) as Hv.
      apply (encodes_mono _ _ _ _ Hsub), (encodes_add _ _ _ _ _ Hget) in Hv.
      eapply encodes_ext, Hv. intros x. rewrite related_insert. naive_solver.
    + pose proof (Hl v A') as Hv. rewrite lookup_insert_ne in Hv, HA' by done.
      specialize (Hv HA'). apply (encodes_mono _ _ _ _ Hsub) in Hv.
      eapply encodes_ext, Hv. intros x. rewrite related_insert. naive_solver.
Qed.

(** The loop of [set_element]: [A] are the attributes of [vec] so far. *)
Lemma insert_attrs_ok labels A vec attrs st :
  store_core (<[vec := A]> labels) st →
  store_core (<[vec := attribute_set attrs ∪ A]> labels) (insert_attrs st vec attrs) ∧
  grows st (insert_attrs st vec attrs) ∧
  ∀ v, is_Some (index (insert_attrs st vec attrs) !! v) ↔
    is_Some (index st !! v) ∨ (v = vec ∧ attrs ≠ []).
Proof.
  revert A st. induction attrs as [|attr attrs IH]; intros A st Hrep; cbn [insert_attrs].
  { unfold attribute_set. cbn. rewrite union_empty_l_L. split; [done|]. split; [by unfold grows|].
    intros v. split; [by left|]. by intros [?|[_ ?]]. }
  destruct (encoder_insert (attribute_map st) attr) as [enc a] eqn:E.
  destruct (insert_attr_core _ _ _ _ _ _ _ Hrep E) as [Hrep1 Hsub].
  destruct (IH _ _ Hrep1) as (Hrep' & Hsub' & Hids). split_and!.
  - replace (attribute_set (attr :: attrs) ∪ A) with
      (attribute_set attrs ∪ ({[internal_attribute attr]} ∪ A)); [done|].
    unfold attribute_set. cbn. set_solver.
  - unfold grows in *. by etrans.
  - intros v. rewrite Hids. cbn [index]. unfold sp_insert. destruct (rb_insert _ _) as [set r]. cbn.
    destruct (decide (v = vec)) as [->|Hne].
    + rewrite lookup_insert_eq. split; [by right|]. intros _. left. by eexists.
    + rewrite lookup_insert_ne by done. naive_solver.
Qed.

(** Removing a vector. *)
Lemma forget_core labels st vec attrs :
  store_core labels st → (∀ a, a ∈ attrs ↔ related (index st) vec a) →
  store_core (delete vec labels)
    (mkStore (attribute_map st) (sp_delete (index st) vec).1 (forget_loop (inv_index st) vec attrs)).
Proof.
  intros [He Hinv Hl] Hattrs. split; cbn -[sp_delete].
  - done.
  - intros a v. rewrite related_forget, related_delete, Hinv, Hattrs.
    destruct (decide (v = vec)) as [->|Hne]; naive_solver.
  - intros v A [Hne HA]%lookup_delete_Some. eapply encodes_ext; [|by apply Hl].
    intros a. rewrite related_delete. naive_solver.
Qed.

Lemma iter_related st vec (set : B) : index st !! vec = Some set →
  NoDup (rb_iter set) ∧ ∀ a, a ∈ rb_iter set ↔ related (index st) vec a.
Proof.
  intros E. destruct (rb_iter_law set) as [Hnd Hin]. split; [done|].
  intros a. rewrite Hin. unfold related, sp_entry. by rewrite E.
Qed.

Lemma store_delete_ok labels st vec : store_rep labels st →
  ∃ st', store_delete st vec = (st', Ok (bool_decide (is_Some (labels !! vec)))) ∧
    store_rep (delete vec labels) st' ∧ grows st st'.
Proof.
  intros [Hc Hids]. unfold store_delete, sp_get.
  destruct (index st !! vec) as [set|] eqn:E.
  - destruct (iter_related st vec set E) as [Hnd Hin].
    rewrite delete_loop_ok; [|done|intros a Ha; by apply (sr_inverse _ _ Hc), Hin].
    pose proof (forget_core labels st vec _ Hc Hin) as Hc'. unfold sp_delete in *. cbn [fst] in *.
    rewrite (bool_decide_true (is_Some (index st !! vec))) by (by rewrite E; eexists).
    rewrite (bool_decide_true (is_Some (labels !! vec))) by (by apply Hids; rewrite E; eexists).
    eexists. split; [done|]. split; [|unfold grows; done]. split; [exact Hc'|]. cbn. intros v.
    destruct (decide (v = vec)) as [->|Hne].
    + rewrite !lookup_delete_eq. done.
    + rewrite !lookup_delete_ne by done. apply Hids.
  - assert (labels !! vec = None) as El.
    { apply eq_None_not_Some. rewrite <-Hids, E. by intros [? ?]. }
    exists st. rewrite El. split; [done|]. rewrite delete_id by done.
    split; [by split|by unfold grows].
Qed.

Lemma store_set_element_ok labels st vec attrs : store_rep labels st → attrs ≠ [] →
  ∃ st', store_set_element st vec attrs = (st', Ok true) ∧
    store_rep (<[vec := attribute_set attrs]> labels) st' ∧ grows st st'.
Proof.
  intros [Hc Hids] Hne. unfold store_set_element. destruct attrs as [|attr attrs0] eqn:Ea; [done|].
  rewrite <-Ea in *. clear Ea. set (st1 := mkStore _ _ _).
  assert (store_core (delete vec labels) st1 ∧ grows st st1) as [Hc1 Hg1].
  { split; [|by unfold grows]. unfold st1, sp_get. destruct (index st !! vec) as [set|] eqn:E.
    - apply forget_core; [done|]. by apply iter_related.
    - apply (forget_core labels st vec []); [done|]. intros a. split; [by intros ?%not_elem_of_nil|].
      intros Hr. by destruct (related_none _ _ _ E Hr). }
  assert (store_core (<[vec := ∅]> labels) st1) as Hc0.
  { rewrite <-insert_delete_eq. destruct Hc1 as [He Hinv Hl]. split; [done..|].
    intros v A [[<- <-]|[_ HA]]%lookup_insert_Some; [|by apply Hl].
    split; [|set_solver]. intros a. unfold st1. cbn -[sp_delete]. rewrite related_delete. set_solver. }
  destruct (insert_attrs_ok labels ∅ vec attrs st1 Hc0) as (Hc2 & Hg2 & Hids2).
  eexists. split; [done|]. split; [split|].
  - by rewrite union_empty_r_L in Hc2.
  - intros v. rewrite Hids2. unfold st1, sp_delete. cbn. destruct (decide (v = vec)) as [->|Hnv].
    + rewrite lookup_insert_eq, lookup_delete_eq. split; [by eexists|]. intros _. by right.
    + rewrite lookup_insert_ne, lookup_delete_ne by done. rewrite Hids. naive_solver.
  - unfold grows in *. by etrans.
Qed.

(** ** Filters *)

Section filters.
Context {J : Type} `{JsonNumber J}.

(** What a filter says about a set of attributes. *)
Fixpoint attrs_satisfy (A : gset InternalAttribute) (expr : ASTExpr J) : bool :=
  match expr with
  | And exprs => forallb (attrs_satisfy A) exprs
  | Or exprs => existsb (attrs_satisfy A) exprs
  | Not expr => negb (attrs_satisfy A expr)
  | Compare field (Eq value) =>
      match from_json_value field value with
      | Ok a => bool_decide (internal_attribute a ∈ A)
      | Err _ => false
      end
  | Compare _ _ => false
  end.

(** The filters that can be translated: equalities with attributes that have a number. *)
Fixpoint encodable (encoder : AttributeEncoder) (expr : ASTExpr J) : bool :=
  match expr with
  | And exprs | Or exprs => forallb (encodable encoder) exprs
  | Not expr => encodable encoder expr
  | Compare field (Eq value) =>
      match from_json_value field value with
      | Ok a => bool_decide (is_Some (encoder_get encoder a))
      | Err _ => false
      end
  | Compare _ _ => false
  end.

Lemma parse_all_is_ok {X Y Z'} (f : X → result Z' Y) (p : X → bool) l :
  Forall (λ x, is_ok (f x) = p x) l → is_ok (parse_all f l) = forallb p l.
Proof.
  induction 1 as [|x l Hx _ IH]; [done|]. cbn. rewrite <-Hx, <-IH.
  destruct (f x); [|done]. cbn. by destruct (parse_all f l).
Qed.

Lemma map_expr_is_ok encoder expr : is_ok (map_expr encoder expr) = encodable encoder expr.
Proof.
  induction expr as [l IH|l IH|e IH|field op] using ASTExpr_nested_ind; cbn -[encoder_get].
  - rewrite <-(parse_all_is_ok _ _ _ IH). by destruct (parse_all _ l).
  - rewrite <-(parse_all_is_ok _ _ _ IH). by destruct (parse_all _ l).
  - rewrite <-IH. by destruct (map_expr encoder e).
  - unfold visit_compare. destruct op as [v| | | | |]; try done.
    destruct (from_json_value field v) as [a|]; [|done].
    destruct (encoder_get encoder a) as [id|]; symmetry.
    + by apply bool_decide_eq_true.
    + apply bool_decide_eq_false. by intros [? ?].
Qed.

(** The numbers of a point, as the evaluator sees them. *)
Definition contains_in (set : B) (x : N) : result Empty_set bool := Ok (rb_contains set x).

(** A translated filter decides on the numbers what the filter says about the attributes, for
    every encoder that extends the one of the translation. *)
Lemma map_expr_eval encoder encoder' A set expr e :
  map_expr encoder expr = Ok e →
  attribute_index encoder ⊆ attribute_index encoder' → encoder_ok encoder' →
  encodes (attribute_index encoder') A (λ a, a ∈ rb_set set) →
  predicate_visit (contains_in set) e = Ok (attrs_satisfy A expr).
Proof.
  intros He Hsub Hok [HX HA]. revert e He.
  induction expr as [l IH|l IH|expr IH|field op] using ASTExpr_nested_ind; intros e He; cbn in He.
  - destruct (parse_all (map_expr encoder) l) as [es|] eqn:El; cbn in He; simplify_eq. cbn.
    revert es El. induction IH as [|x l Hx _ IHl]; intros es El; cbn in El; simplify_eq; [done|].
    destruct (map_expr encoder x) as [e1|]; [|done]. cbn in El.
    destruct (parse_all (map_expr encoder) l) as [es'|]; [|done]. cbn in El. simplify_eq. cbn.
    rewrite (Hx e1 eq_refl). destruct (attrs_satisfy A x); [|done]. by apply IHl.
  - destruct (parse_all (map_expr encoder) l) as [es|] eqn:El; cbn in He; simplify_eq. cbn.
    revert es El. induction IH as [|x l Hx _ IHl]; intros es El; cbn in El; simplify_eq; [done|].
    destruct (map_expr encoder x) as [e1|]; [|done]. cbn in El.
    destruct (parse_all (map_expr encoder) l) as [es'|]; [|done]. cbn in El. simplify_eq. cbn.
    rewrite (Hx e1 eq_refl). destruct (attrs_satisfy A x); [done|]. by apply IHl.
  - destruct (map_expr encoder expr) as [e1|]; cbn in He; simplify_eq. cbn.
    by rewrite (IH e1 eq_refl).
  - unfold visit_compare in He. destruct op as [v| | | | |]; simplify_eq. cbn.
    destruct (from_json_value field v) as [a|]; [|done].
    destruct (encoder_get encoder a) as [id|] eqn:Eg; simplify_eq. cbn. unfold contains_in.
    rewrite rb_contains_law. f_equal. apply bool_decide_ext. rewrite HX.
    pose proof (lookup_weaken _ _ _ _ Eg Hsub) as Hid. split.
    + intros (k & Hk & Ek). by rewrite <-(eo_inj _ Hok _ _ _ Ek Hid).
    + intros Hin. by exists (internal_attribute a).
Qed.
End filters.

(** On the set of a vector a translated filter gives what it says about the attributes. *)
Lemma rep_eval {J} `{JsonNumber J} labels st encoder (expr : ASTExpr J) e v A :
  store_rep labels st → map_expr encoder expr = Ok e →
  attribute_index encoder ⊆ attribute_index (attribute_map st) → labels !! v = Some A →
  ∃ set, sp_get (index st) v = Some set ∧
    predicate_visit (contains_in set) e = Ok (attrs_satisfy A expr).
Proof.
  intros [Hc Hids] He Hg Hv. destruct (proj2 (Hids v)) as [set Hset]; [by eexists|].
  exists set. split; [done|].
  eapply (map_expr_eval _ _ A); [exact He|exact Hg|apply (sr_encoder _ _ Hc)|].
  eapply encodes_ext; [|by apply (sr_labels _ _ Hc)]. intros a. unfold related, sp_entry.
  by rewrite Hset.
Qed.

(** ** Histories of the store *)

Inductive store_op := OpSet (vec : N) (attrs : list Attribute) | OpRemove (vec : N).

Definition store_step (st : RoaringAttributeStore B) (op : store_op) :
    RoaringAttributeStore B * result StoreError bool :=
  match op with
  | OpSet vec attrs => store_set_element st vec attrs
  | OpRemove vec => store_delete st vec
  end.

(** The same on the map of attribute sets, with the results that the trait documents: an
    assignment tells whether the vector is new.  A vector without attributes is refused. *)
Definition labels_step (labels : gmap N (gset InternalAttribute)) (op : store_op) :
    gmap N (gset InternalAttribute) * result StoreError bool :=
  match op with
  | OpSet vec [] => (labels, Err NoAttributes)
  | OpSet vec attrs => (<[vec := attribute_set attrs]> labels, Ok (bool_decide (labels !! vec = None)))
  | OpRemove vec => (delete vec labels, Ok (bool_decide (is_Some (labels !! vec))))
  end.

(** An assignment to a vector that is present. *)
Definition overwrites (labels : gmap N (gset InternalAttribute)) (op : store_op) : bool :=
  match op with
  | OpSet vec (_ :: _) => bool_decide (is_Some (labels !! vec))
  | _ => false
  end.

(** The results of a run, with the state at its end. *)
Fixpoint run_ops {S} (step : S → store_op → S * result StoreError bool) (s : S) (ops : list store_op) :
    S * list (result StoreError bool) :=
  match ops with
  | [] => (s, [])
  | op :: ops =>
      let '(s, r) := step s op in
      let '(s, rs) := run_ops step s ops in (s, r :: rs)
  end.

Lemma store_step_ok labels st op : store_rep labels st →
  (store_step st op).2 =
    (if overwrites labels op then Ok true else (labels_step labels op).2) ∧
  store_rep (labels_step labels op).1 (store_step st op).1 ∧ grows st (store_step st op).1.
Proof.
  intros Hrep. destruct op as [vec [|attr attrs]|vec]; cbn [store_step labels_step overwrites].
  - cbn. split_and!; [done..|by unfold grows].
  - destruct (store_set_element_ok labels st vec (attr :: attrs) Hrep) as (st' & -> & ? & ?); [done|].
    split_and!; [|done..]. cbn [snd]. case_bool_decide as Hv; [done|].
    by rewrite bool_decide_true by (by apply eq_None_not_Some).
  - destruct (store_delete_ok labels st vec Hrep) as (st' & -> & ? & ?). done.
Qed.

Lemma run_ops_ok labels st ops : store_rep labels st →
  store_rep (run_ops labels_step labels ops).1 (run_ops store_step st ops).1 ∧
  grows st (run_ops store_step st ops).1.
Proof.
  revert labels st. induction ops as [|op ops IH]; intros labels st Hrep;
    [split; [done|by unfold grows]|].
  cbn. destruct (store_step_ok labels st op Hrep) as (_ & Hrep1 & Hg1).
  destruct (store_step st op) as [st1 r], (labels_step labels op) as [labels1 r'].
  cbn [fst snd] in *. destruct (IH labels1 st1 Hrep1) as (Hrep2 & Hg2).
  destruct (run_ops store_step st1 ops), (run_ops labels_step labels1 ops). cbn in *.
  split; [done|]. unfold grows in *. by etrans.
Qed.

Lemma store_rep_new : store_rep ∅ store_new.
Proof.
  split.
  - split; [by split| |done]. intros a v. unfold store_new. cbn.
    split; intros Hr; by apply related_none in Hr.
  - intros v. cbn. by rewrite !lookup_empty.
Qed.

(** C32: The attribute store refines a map from vectors to sets of attributes.  After every
    history of assignments and deletions each operation returns what the trait documents of
    the same operation on the map (a deletion tells whether the vector was there, an
    assignment of no attributes is refused, a new vector gives true), with one exception: an
    assignment that overwrites returns true where the documentation promises false.  A
    deletion never finds the two indexes inconsistent.  Afterwards a vector is known exactly if
    it is in the map, and a filter that was translated at any time during the history (it can be
    exactly if it consists of equalities with known attributes) gives at the end, on the numbers
    of any vector, what the filter says about the attributes of that vector. *)
Theorem attribute_store_refines {J} `{JsonNumber J} (ops1 ops2 : list store_op) (expr : ASTExpr J) :
  let st1 := (run_ops store_step store_new ops1).1 in
  let st2 := (run_ops store_step st1 ops2).1 in
  let labels1 := (run_ops labels_step ∅ ops1).1 in
  let labels2 := (run_ops labels_step labels1 ops2).1 in
  (∀ op, (store_step st1 op).2 =
    (if overwrites labels1 op then Ok true else (labels_step labels1 op).2)) ∧
  (∀ v, store_id_exists st2 v = Ok (bool_decide (is_Some (labels2 !! v)))) ∧
  is_ok (map_expr (attribute_map st1) expr) = encodable (attribute_map st1) expr ∧
  ∀ e v A, map_expr (attribute_map st1) expr = Ok e → labels2 !! v = Some A →
    ∃ set, sp_get (index st2) v = Some set ∧
      predicate_visit (contains_in set) e = Ok (attrs_satisfy A expr).
Proof.
  intros st1 st2 labels1 labels2.
  destruct (run_ops_ok ∅ store_new ops1 store_rep_new) as (Hrep1 & _).
  destruct (run_ops_ok labels1 st1 ops2 Hrep1) as (Hrep2 & Hg).
  split_and!; [intros op; by apply store_step_ok| |apply map_expr_is_ok|].
  - intros v. unfold store_id_exists, sp_exists. f_equal. by apply bool_decide_ext, Hrep2.
  - intros e v A He Hv. by eapply rep_eval.
Qed.

End refinement.

(** ** Example *)

Definition red : Attribute := mkAttribute "color" (AString "red").
Definition large : Attribute := mkAttribute "size" (AInteger 9).

Definition red_not_large : ASTExpr json_number :=
  And [Compare "color" (Eq (VString "red")); Not (Compare "size" (Eq (VNumber (JInt 9))))].

Lemma attribute_store_refines_witness :
  let ops1 := [OpSet 1 [red; large]; OpSet 2 [large]; OpRemove 2] in
  let st1 := (run_ops store_step (store_new (B := gset N)) ops1).1 in
  let st2 := (run_ops store_step st1 [OpSet 3 [red]; OpRemove 5]).1 in
  (store_step st1 (OpSet 1 [large])).2 = Ok true ∧ (store_step st1 (OpRemove 2)).2 = Ok false ∧
  ∃ e set, map_expr (attribute_map st1) red_not_large = Ok e ∧
    sp_get (index st2) 3%N = Some set ∧ predicate_visit (contains_in set) e = Ok true.
Proof.
  destruct (attribute_store_refines (B := gset N) [OpSet 1 [red; large]; OpSet 2 [large]; OpRemove 2]
    [OpSet 3 [red]; OpRemove 5] red_not_large) as (H1 & _ & _ & H5).
  cbv zeta. split; [rewrite H1; by vm_compute|]. split; [rewrite H1; by vm_compute|].
  eexists. destruct (H5 (IdAnd [IdTerminal 0; IdNot (IdTerminal 1)]) 3%N (attribute_set [red]))
    as (set & Hs & Hp).
  - by vm_compute.
  - cbn [run_ops labels_step fst]. rewrite lookup_delete_ne by done. apply lookup_insert_eq.
  - exists set. split; [by vm_compute|]. split; [exact Hs|]. rewrite Hp. by vm_compute.
Defined.

(** The documentation of [set_element] promises false for a vector that is overwritten. *)
Lemma overwrite_returns_true :
  let st := (run_ops store_step (store_new (B := gset N)) [OpSet 1 [red]]).1 in
  (store_step st (OpSet 1 [large])).2 = Ok true ∧
  (labels_step {[1%N := attribute_set [red]]} (OpSet 1 [large])).2 = Ok false.
Proof. split; by vm_compute. Qed.

(** The provider's [insert_values] stops inserting at the first value that is present. *)
Lemma insert_values_stops :
  rb_set (sp_entry (sp_insert_values (∅ : gmap N (gset N)) 7%N [1; 1; 2]%N).1 7%N) = {[1%N]}.
Proof. by vm_compute. Qed.
