(* ===== verification/LabelSearch.v ===== *)
(** * Label filters: search with an inline filter

    Models [diskann-label-filter/src/inline_beta_search/] ([encoded_document_accessor.rs],
    [inline_beta_filter.rs]): a graph search whose distances are multiplied by a factor [beta] for
    points that satisfy the filter, and whose results are filtered at the end.

    - the wrapped accessor is an instance of [SearchAccessor] ([Search]) over any accessor; the
      attributes of the points and the translated filter do not change during a search;
    - [filter_results] is a step before the post-processing of the wrapped accessor ([Knn]);
    - the wrapped accessor satisfies the laws of an accessor for the modified distances, so that
      k-NN search over it ends, and its results satisfy the filter. *)

From Stdlib Require Import String.
From S2P Require Import Prelude Strings F32 Neighbor NeighborQueue QueueInterface Search OutputBuffer Knn.
From S2P Require Import LabelJson LabelIndex LabelEncoded.

Inductive DocError (E : Type) : Type := Inner (e : E) | NoLabels.
Arguments Inner {E} _.
Arguments NoLabels {E}.

Record InlineBetaComputer := mkComputer { beta_value : f32; filter_expr : ASTIdExpr }.

Section accessor.
Context {I A E B : Type} `{Acc : SearchAccessor I A E} `{Roaring B}.
(** The number of an id, the sets of the attribute accessor, and the computer. *)
Variables (to_id : I → N) (sets : gmap N B) (computer : InlineBetaComputer).

(** [InlineBetaComputer::apply] *)
Definition beta_apply (distance : f32) (attributes : B) : f32 :=
  match predicate_visit (contains_in attributes) (filter_expr computer) with
  | Ok matched => if matched then f32_mul distance (beta_value computer) else distance
  | Err _ => distance
  end.

(** [EncodedDocumentAccessor::attributes_for] *)
Definition attributes_for {R} (id : I) (f : B → R) : result (DocError E) R :=
  match sp_get sets (to_id id) with
  | Some set => Ok (f set)
  | None => Err NoLabels
  end.

(** The loop that passes the pairs of the inner accessor on, until one has no attributes. *)
Fixpoint apply_pairs (pairs : list (I * f32)) : list (I * f32) * result (DocError E) unit :=
  match pairs with
  | [] => ([], Ok tt)
  | (id, distance) :: pairs =>
      match attributes_for id (beta_apply distance) with
      | Err e => ([], Err e)
      | Ok filtered => let '(calls, r) := apply_pairs pairs in ((id, filtered) :: calls, r)
      end
  end.

(** [SearchAccessor for EncodedDocumentAccessor]; the state is that of the inner accessor. *)
Definition encoded_accessor : SearchAccessor I A (DocError E) := {|
  starting_points a := map_err Inner (starting_points a);
  start_point_distances a :=
    let '(a, pairs, r) := start_point_distances a in
    match r with
    | Err e => (a, [], Err (Inner e))
    | Ok _ => let '(calls, r) := apply_pairs pairs in (a, calls, r)
    end;
  expand_beam a ids vis :=
    let '(a, vis, pairs, r) := expand_beam a ids vis in
    match r with
    | Err e => (a, vis, [], Err (Inner e))
    | Ok _ => let '(calls, r) := apply_pairs pairs in (a, vis, calls, r)
    end;
  terminate_early a := terminate_early a;
|}.

(** The loop of [FilterResults::post_process] over the candidates. *)
Fixpoint matching_candidates (candidates : list (Neighbor I)) :
    result (DocError E) (list (Neighbor I)) :=
  match candidates with
  | [] => Ok []
  | candidate :: candidates =>
      match attributes_for (nbr_id candidate)
        (λ attributes, predicate_visit (contains_in attributes) (filter_expr computer)) with
      | Err e => Err e
      | Ok (Err e) => match e with end
      | Ok (Ok matched) =>
          (let? rest := matching_candidates candidates in
           Ok (if matched then candidate :: rest else rest))%rust
      end
  end.

(** [FilterResults::post_process] before the processor of the inner strategy *)
Definition filter_results {O} (inner : PostProcess (I := I) (A := A) (E := E) (B := O)) :
    PostProcess (I := I) (A := A) (E := DocError E) (B := O) :=
  λ a candidates output,
  match matching_candidates candidates with
  | Err e => Some (a, output, Err e)
  | Ok filtered => '(a, output, r) ← inner a filtered output; Some (a, output, map_err Inner r)
  end.

End accessor.

Section theory.
Context {I A E B R O : Type} `{Countable I} `{RoaringLaws B}.
Context `{Acc : !SearchAccessor I A E} `{OB : !SearchOutputBuffer I O}.
Context {dist : I → f32} {adj : I → list I} {nodes : gset I} {starts : list I}.
Context `{AL : !SearchAccessorLaws I A E dist adj nodes starts}.
Context `{OL : !SearchOutputBufferLaws I O}.
Variables (to_id : I → N) (sets : gmap N B) (computer : InlineBetaComputer).

(** The distances that the search sees. *)
Definition beta_dist (i : I) : f32 :=
  match sp_get sets (to_id i) with
  | Some set => beta_apply computer (dist i) set
  | None => dist i
  end.

Lemma apply_pairs_ok pairs calls r :
  apply_pairs (E := E) to_id sets computer pairs = (calls, r) → pairs.*2 = dist <$> pairs.*1 →
  calls.*2 = beta_dist <$> calls.*1 ∧ calls.*1 `prefix_of` pairs.*1 ∧
  (r = Ok tt → calls.*1 = pairs.*1).
Proof.
  revert calls r. induction pairs as [|[i d] pairs IH]; intros calls r; cbn.
  - intros [= <- <-] _. split_and!; [done|apply prefix_nil|done].
  - unfold attributes_for, beta_dist. destruct (sp_get sets (to_id i)) as [set|] eqn:Es.
    + destruct (apply_pairs to_id sets computer pairs) as [calls' r'] eqn:Ep.
      intros [= <- <-] Hd. cbn in Hd. injection Hd as -> Hd.
      destruct (IH _ _ eq_refl Hd) as (H1' & H2' & H3'). cbn. rewrite Es. split_and!.
      * by f_equal.
      * by apply prefix_cons.
      * intros ->. by rewrite H3'.
    + intros [= <- <-] _. split_and!; [done|apply prefix_nil|done].
Qed.

Lemma prefix_NoDup {X} (l k : list X) : l `prefix_of` k → NoDup k → NoDup l.
Proof. intros [r ->] [? _]%NoDup_app. done. Qed.

#[local] Instance encoded_laws :
  SearchAccessorLaws I A (DocError E) (Acc := encoded_accessor to_id sets computer)
    beta_dist adj nodes starts.
Proof.
  split; cbn.
  - intros a ps. destruct (starting_points a) as [ps'|] eqn:Es; [|done]. intros [= <-].
    by eapply starting_points_law.
  - intros a a' calls r. destruct (start_point_distances a) as [[a1 pairs] r1] eqn:Es.
    destruct (start_law _ _ _ _ Es) as (Hd & Hnd & Hin & Hall).
    destruct r1 as [[]|e]; [|by intros [= <- <- <-]; split_and!; [done|constructor|intros ? ?%not_elem_of_nil|]].
    destruct (apply_pairs to_id sets computer pairs) as [calls' r'] eqn:Ep. intros [= <- <- <-].
    destruct (apply_pairs_ok pairs calls' r' Ep Hd) as (H1' & H2' & H3'). split_and!.
    + done.
    + by eapply prefix_NoDup.
    + intros i Hi. apply Hin. by eapply elem_of_prefix.
    + intros ->. rewrite H3' by done. by apply Hall.
  - apply starts_nodes.
  - apply adj_nodes.
  - intros a ids vis a' vis' calls r.
    destruct (expand_beam a ids vis) as [[[a1 vis1] pairs] r1] eqn:Es.
    destruct (expand_law _ _ _ _ _ _ _ Es) as (Hd & Hnd & Hin & Hsub & Hvis).
    destruct r1 as [[]|e];
      [|by intros [= <- <- <- <-]; split_and!; [done|constructor|intros ? ?%not_elem_of_nil|done|done]].
    destruct (apply_pairs to_id sets computer pairs) as [calls' r'] eqn:Ep. intros [= <- <- <- <-].
    destruct (apply_pairs_ok pairs calls' r' Ep Hd) as (H1' & H2' & H3'). split_and!.
    + done.
    + by eapply prefix_NoDup.
    + intros i Hi. apply Hin. by eapply elem_of_prefix.
    + done.
    + done.
Qed.

(** The candidates that satisfy the filter, when all have attributes. *)
Definition point_matches (n : Neighbor I) : bool :=
  match sp_get sets (to_id (nbr_id n)) with
  | Some set => match predicate_visit (contains_in set) (filter_expr computer) with
                | Ok matched => matched | Err e => match e with end end
  | None => false
  end.

Lemma matching_candidates_ok candidates :
  (∀ n, n ∈ candidates → is_Some (sp_get sets (to_id (nbr_id n)))) →
  matching_candidates (E := E) to_id sets computer candidates =
    Ok (List.filter point_matches candidates).
Proof.
  induction candidates as [|n candidates IH]; intros Hall; [done|]. cbn.
  destruct (Hall n) as [set Hset]; [by left|]. unfold attributes_for, point_matches. rewrite Hset.
  destruct (predicate_visit _ _) as [matched|[]]. rewrite IH by (intros; apply Hall; by right).
  cbn. by destruct matched.
Qed.

Variables (record : R → Neighbor I → Z → Z → R) (context : E → E).

Lemma inner_error e : accessor_error I A E e →
  accessor_error I A (DocError E) (Acc := encoded_accessor to_id sets computer) (Inner e).
Proof.
  intros [a Ee|a a' calls Ee|a ids vis a' vis' calls Ee].
  - apply (error_starting_points _ _ _ _ a). cbn. by rewrite Ee.
  - apply (error_start_distances _ _ _ _ a a' []). cbn. by rewrite Ee.
  - apply (error_expand _ _ _ _ a ids vis a' vis' []). cbn. by rewrite Ee.
Qed.

(** The results of a search over the wrapped accessor. *)
Lemma beta_knn_ok (debug : bool) (fuel max_degree : nat) (params : Knn) (l : nat)
    (bw : option nat) (a : A) pooled (rec : R) (output : O) :
  (∀ i, i ∈ nodes → is_Some (sp_get sets (to_id i))) →
  knn_new l bw = Ok params → ob_ok output → (Z.of_nat (size nodes) < 2 ^ 32)%Z →
  size nodes ≤ fuel →
  ∃ output' rec' r,
    knn_search (Acc := encoded_accessor to_id sets computer) record debug fuel max_degree params
      (Ok a) (filter_results to_id sets computer
        (pipeline (filter_start_points context) copy_ids)) pooled rec output =
      Some (output', rec', r) ∧
    match r with
    | Err e => accessor_error I A (DocError E) (Acc := encoded_accessor to_id sets computer) e ∧
        ob_view output' = ob_view output
    | Ok stats => ∃ results,
        let new := take_opt (room (ob_capacity output) (length (ob_view output))) results in
        ob_view output' = ob_view output ++ new ∧
        StronglySorted nbr_le results ∧ NoDup (nbr_id <$> results) ∧
        (∀ n, n ∈ results → nbr_id n ∉ starts ∧ nbr_id n ∈ nodes ∧
           nbr_distance n = beta_dist (nbr_id n) ∧ point_matches n = true) ∧
        ss_result_count stats = as_u32 (length new)
    end.
Proof.
  intros Hlab Hk Hout Hn Hf. unfold knn_search, num_starting_points, search_scratch, pipeline.
  destruct (knn_new_pos l bw params Hk) as [Hl Hb].
  destruct (starting_points (SearchAccessor := encoded_accessor to_id sets computer) a)
    as [ps|e] eqn:Es; [|eexists _, _, _; split; [done|]; split; [by eauto with rust|done]].
  rewrite get_scratch_eq. set (s := scratch_create _).
  assert (scratch_fresh (NQ := priority_queue_ops debug) (QL := priority_queue_laws debug) s)
    as Hs by (apply scratch_create_fresh; simpl; lia).
  destruct (search_internal_total (AL := encoded_laws) (NQ := priority_queue_ops debug)
    (QL := priority_queue_laws debug) record fuel (Some (k_beam_width params)) a s rec Hs)
    as (a' & s' & rec' & r & -> & Hpost); [intros ?; simplify_eq; lia|done|done|].
  cbn [mbind option_bind]. destruct r as [st|e];
    [|eexists _, _, _; split; [done|]; split; done].
  destruct Hpost as (Hok & _ & Hnd & Hin & _).
  destruct (candidates_ok debug (s_best s') _ Hok Hnd Hin) as (cands & -> & Hsort & Hnd' & Hc).
  cbn [mbind option_bind]. unfold filter_results.
  rewrite matching_candidates_ok by (intros n Hn'; by apply Hlab, Hc).
  set (kept := List.filter point_matches cands).
  assert (sublist (not_starts (starts := starts) kept) cands) as Hsub
    by (etrans; apply List_filter_sublist).
  destruct (filter_copy_ok context a' kept output Hout) as [(e & -> & He)|(output' & -> & Hv)];
    cbn [mbind option_bind map_err]; eexists _, _, _; (split; [done|]).
  { split; [by apply inner_error|done]. }
  exists (not_starts (starts := starts) kept). split_and!.
  - done.
  - by eapply StronglySorted_sublist.
  - by eapply sublist_NoDup; [|apply sublist_fmap].
  - intros n [[Hc' Hm]%elem_of_List_filter Hns]%elem_of_List_filter.
    apply negb_true_iff, bool_decide_eq_false in Hns. by destruct (Hc n Hc').
  - done.
Qed.

End theory.

(** ** Search over a document store *)

Section documents.
Context {I A E B R O J : Type} `{Countable I} `{RoaringLaws B} `{JsonNumber J}.
Context `{Acc : !SearchAccessor I A E} `{OB : !SearchOutputBuffer I O}.
Context {dist : I → f32} {adj : I → list I} {nodes : gset I} {starts : list I}.
Context `{AL : !SearchAccessorLaws I A E dist adj nodes starts}.
Context `{OL : !SearchOutputBufferLaws I O}.
Variables (to_id : I → N) (record : R → Neighbor I → Z → Z → R) (context : E → E).

(** C27: K-NN search with an inline filter, over an attribute store that went through any history
    of assignments and deletions and in which every node of the graph has attributes: when the
    filter can be translated, the search ends and writes only points whose attributes satisfy
    the filter, none of them twice and none a start point, in order of their distance, which is
    multiplied by [beta] (all results satisfy the filter).  It fails only with an error of the
    accessor, and has then written nothing. *)
Theorem inline_beta_search_correct (ops : list store_op) (expr : ASTExpr J) (e : ASTIdExpr)
    (beta : f32) (debug : bool) (fuel max_degree : nat) (params : Knn) (l : nat) (bw : option nat)
    (a : A) pooled (rec : R) (output : O) :
  let st := (run_ops store_step (store_new (B := B)) ops).1 in
  let labels := (run_ops labels_step ∅ ops).1 in
  let computer := mkComputer beta e in
  map_expr (attribute_map st) expr = Ok e →
  (∀ i, i ∈ nodes → is_Some (labels !! to_id i)) →
  knn_new l bw = Ok params → ob_ok output → (Z.of_nat (size nodes) < 2 ^ 32)%Z →
  size nodes ≤ fuel →
  ∃ output' rec' r,
    knn_search (Acc := encoded_accessor to_id (index st) computer) record debug fuel max_degree
      params (Ok a) (filter_results to_id (index st) computer
        (pipeline (filter_start_points context) copy_ids)) pooled rec output =
      Some (output', rec', r) ∧
    match r with
    | Err e => ob_view output' = ob_view output ∧
        accessor_error I A (DocError E) (Acc := encoded_accessor to_id (index st) computer) e
    | Ok stats => ∃ results,
        let new := take_opt (room (ob_capacity output) (length (ob_view output))) results in
        ob_view output' = ob_view output ++ new ∧
        StronglySorted nbr_le results ∧ NoDup (nbr_id <$> results) ∧
        (∀ n, n ∈ results → nbr_id n ∉ starts ∧ nbr_id n ∈ nodes ∧
           nbr_distance n = f32_mul (dist (nbr_id n)) beta ∧
           ∃ A, labels !! to_id (nbr_id n) = Some A ∧ attrs_satisfy A expr = true) ∧
        ss_result_count stats = as_u32 (length new)
    end.
Proof.
  intros st labels computer He Hlab Hk Hout Hn Hf.
  destruct (run_ops_ok (B := B) ∅ store_new ops store_rep_new) as (Hrep & _).
  fold st labels in Hrep.
  destruct (beta_knn_ok (AL := AL) (OL := OL) to_id (index st) computer record context debug fuel
    max_degree params l bw a pooled rec output) as (output' & rec' & r & Hrun & Hr); [|done..|].
  { intros i Hi. by apply (proj2 Hrep), Hlab. }
  exists output', rec', r. split; [done|]. destruct r as [stats|e']; [|naive_solver].
  destruct Hr as (results & H1' & H2' & H3' & H4' & H5'). exists results. split_and!; [done..| |done].
  intros n Hn'. destruct (H4' n Hn') as (Hs & Hnode & Hd & Hm). split_and!; [done|done| |].
  - rewrite Hd. unfold beta_dist, beta_apply, point_matches in *.
    destruct (sp_get (index st) (to_id (nbr_id n))); [|done]. cbn in *.
    destruct (predicate_visit _ _) as [[]|[]]; done.
  - destruct (Hlab _ Hnode) as [A0 HA]. exists A0. split; [done|].
    destruct (rep_eval _ _ _ _ _ _ _ Hrep He (reflexivity _) HA) as (set & Hg & Hp). unfold point_matches in Hm. rewrite Hg in Hm.
    cbn in Hm. by rewrite Hp in Hm.
Qed.

End documents.

(** ** Example: the path graph, every other node red *)

Definition path_ops : list store_op :=
  [OpSet 0 [large]; OpSet 1 [red]; OpSet 2 [large]; OpSet 3 [red; large]; OpSet 4 [red]].

(** 0.5 *)
Definition f32_half : f32 := f32_div f32_one (f32_of_Z 2).

Lemma path_labelled i : i ∈ path_nodes → is_Some ((run_ops labels_step ∅ path_ops).1 !! Z.to_N i).
Proof.
  intros Hi%path_nodes_spec.
  assert (i = 0 ∨ i = 1 ∨ i = 2 ∨ i = 3 ∨ i = 4)%Z as [->|[->|[->|[->| ->]]]] by lia;
    cbn [run_ops labels_step path_ops fst]; rewrite ?lookup_insert_ne by done;
    rewrite lookup_insert_eq; by eexists.
Qed.

Lemma inline_beta_search_correct_witness :
  let st := (run_ops store_step (store_new (B := gset N)) path_ops).1 in
  let computer := mkComputer f32_half (IdAnd [IdTerminal 1; IdNot (IdTerminal 0)]) in
  ∃ output' rec' r,
    knn_search (Acc := encoded_accessor (Acc := path_accessor) Z.to_N (index st) computer)
      noop_record true 5 8 (mkKnn 4 1) (Ok tt) (filter_results Z.to_N (index st) computer
        (pipeline (filter_start_points (Acc := path_accessor) (λ e, e)) copy_ids)) None tt
      (mkIdDistance [7; 7; 7]%Z (replicate 3 f32_zero) 0) = Some (output', rec', r) ∧
    r = Ok (mkSearchStats 5 5 1 false) ∧ id_ids output' = [1; 7; 7]%Z.
Proof.
  destruct (inline_beta_search_correct (B := gset N) (AL := path_laws) Z.to_N noop_record (λ e, e)
    path_ops red_not_large (IdAnd [IdTerminal 1; IdNot (IdTerminal 0)]) f32_half true 5 8
    (mkKnn 4 1) 4 None tt None tt (mkIdDistance [7; 7; 7]%Z (replicate 3 f32_zero) 0))
    as (output' & rec' & r & Hrun & _);
    [by vm_compute|exact path_labelled|reflexivity|split; simpl; lia|vm_compute; reflexivity
    |vm_compute; lia|].
  exists output', rec', r. split; [exact Hrun|].
  vm_compute in Hrun. injection Hrun as <- _ <-. split; reflexivity.
Defined.
