(* ===== verification/LabelDocument.v ===== *)
(** * Label filters: documents

    Models [diskann-label-filter/src/encoded_attribute_provider/document_provider.rs]: a provider of
    documents, which are vectors with attributes, over a data provider and an attribute store.

    - the data provider is a class with the contract of the traits [DataProvider], [SetElement] and
      [Delete] of [diskann/src/provider.rs]; a guard is the id that it carries, and dropping it
      before its completion is an operation of its own;
    - Section [documents]: the two stores stay consistent, and what this means for the status of a
      document: the attributes of a deleted document are kept until its release, and in between its
      status cannot be read. *)

From S2P Require Import Prelude GraphUpdate LabelJson LabelIndex LabelEncoded.

(** ** The data provider *)

Class InnerProvider (D X V I E : Type) := {
  dp_to_internal_id : D → X → result E I;
  dp_to_external_id : D → I → result E X;
  dp_set_element : D → X → V → D * result E I;
  dp_guard_drop : D → I → D;
  dp_delete : D → X → D * result E unit;
  dp_release : D → I → D * result E unit;
  dp_status_by_internal_id : D → I → result E ElementStatus;
}.

(** The ids in use with their status. *)
Class InnerProviderLaws (D X V I E : Type) `{InnerProvider D X V I E} `{Countable I} := {
  dp_statuses : D → gmap I ElementStatus;
  dp_set_law d x v d' i : dp_set_element d x v = (d', Ok i) →
    dp_statuses d' = <[i := Valid]> (dp_statuses d);
  dp_delete_law d x d' : dp_delete d x = (d', Ok tt) → ∃ i, dp_to_internal_id d x = Ok i ∧
    dp_to_internal_id d' x = Ok i ∧ is_Some (dp_statuses d !! i) ∧
    dp_statuses d' = <[i := Deleted]> (dp_statuses d);
  dp_release_law d i d' : dp_release d i = (d', Ok tt) →
    dp_statuses d' = delete i (dp_statuses d);
  dp_status_law d i s : dp_statuses d !! i = Some s → dp_status_by_internal_id d i = Ok s;
}.

Definition is_valid (s : ElementStatus) : bool :=
  match s with Valid => true | Deleted => false end.

Inductive DocumentError (E : Type) :=
| DataError (e : E)
| AttributeError (e : StoreError)
| OnlyInAttributeStore
| OnlyInDataStore.
Arguments DataError {E} e.
Arguments AttributeError {E} e.
Arguments OnlyInAttributeStore {E}.
Arguments OnlyInDataStore {E}.

(** ** Documents *)

Record Document (V : Type) := mkDocument { doc_vector : V; doc_attributes : list Attribute }.
Arguments mkDocument {V} _ _.
Arguments doc_vector {V} _.
Arguments doc_attributes {V} _.

Record DocumentProvider (D B : Type) := mkProvider {
  inner_provider : D;
  attribute_store : RoaringAttributeStore B;
}.
Arguments mkProvider {D B} _ _.
Arguments inner_provider {D B} _.
Arguments attribute_store {D B} _.

Section provider.
Context {D X V I E B : Type} `{DP : !InnerProvider D X V I E} `{Roaring B}.
Variable (to_id : I → N).
Implicit Types p : DocumentProvider D B.

Definition doc_to_internal_id p (gid : X) : result (DocumentError E) I :=
  map_err DataError (dp_to_internal_id (inner_provider p) gid).

Definition doc_to_external_id p (id : I) : result (DocumentError E) X :=
  map_err DataError (dp_to_external_id (inner_provider p) id).

(** [SetElement::set_element]: the guard is dropped when the attributes are refused. *)
Definition doc_set_element p (id : X) (element : Document V) :
    DocumentProvider D B * result (DocumentError E) I :=
  match dp_set_element (inner_provider p) id (doc_vector element) with
  | (d, Err e) => (mkProvider d (attribute_store p), Err (DataError e))
  | (d, Ok guard) =>
      match store_set_element (attribute_store p) (to_id guard) (doc_attributes element) with
      | (st, Err e) => (mkProvider (dp_guard_drop d guard) st, Err (AttributeError e))
      | (st, Ok _) => (mkProvider d st, Ok guard)
      end
  end.

(** [Delete::delete]: the attributes stay. *)
Definition doc_delete p (gid : X) : DocumentProvider D B * result (DocumentError E) unit :=
  let '(d, r) := dp_delete (inner_provider p) gid in
  (mkProvider d (attribute_store p), map_err DataError r).

(** [Delete::release]: the result of the attribute store is ignored. *)
Definition doc_release p (id : I) : DocumentProvider D B * result (DocumentError E) unit :=
  let '(st, _) := store_delete (attribute_store p) (to_id id) in
  let '(d, r) := dp_release (inner_provider p) id in
  (mkProvider d st, map_err DataError r).

(** [Delete::status_by_internal_id] *)
Definition doc_status_by_internal_id p (id : I) : result (DocumentError E) ElementStatus :=
  (let? in_attr_store := map_err AttributeError (store_id_exists (attribute_store p) (to_id id)) in
   let? in_data_store := map_err DataError (dp_status_by_internal_id (inner_provider p) id) in
   if in_attr_store && is_deleted in_data_store then Err OnlyInAttributeStore
   else if negb in_attr_store && is_valid in_data_store then Err OnlyInDataStore
   else Ok in_data_store)%rust.

Definition doc_status_by_external_id p (gid : X) : result (DocumentError E) ElementStatus :=
  (let? internal_id := doc_to_internal_id p gid in doc_status_by_internal_id p internal_id)%rust.

End provider.

(** ** Consistency of the two stores *)

Section documents.
Context {D X V I E B : Type} `{Countable I} `{DP : !InnerProvider D X V I E} `{RoaringLaws B}.
Context `{DL : !InnerProviderLaws D X V I E} (to_id : I → N) `{!Inj (=) (=) to_id}.
Implicit Types (p : DocumentProvider D B) (docs : gmap I (ElementStatus * gset InternalAttribute)).

(** The provider holds the documents [docs]: the data provider their status, the attribute store
    their attributes, and neither holds anything else. *)
Record provider_rep docs p : Prop := {
  pr_data : dp_statuses (inner_provider p) = fst <$> docs;
  pr_attributes : store_rep (kmap to_id (snd <$> docs)) (attribute_store p);
}.

Lemma attributes_known docs p id : provider_rep docs p →
  sp_exists (index (attribute_store p)) (to_id id) = bool_decide (is_Some (docs !! id)).
Proof.
  intros [_ [_ Hids]]. apply bool_decide_ext. rewrite Hids, lookup_kmap, lookup_fmap by done.
  by rewrite fmap_is_Some.
Qed.

Lemma doc_set_element_ok docs p x v attrs p' i : provider_rep docs p →
  doc_set_element to_id p x (mkDocument v attrs) = (p', Ok i) →
  attrs ≠ [] ∧ provider_rep (<[i := (Valid, attribute_set attrs)]> docs) p'.
Proof.
  intros [Hd Ha] Hs. unfold doc_set_element in Hs. cbn in Hs.
  destruct (dp_set_element _ _ _) as [d [g|]] eqn:Ed; [|done].
  assert (attrs ≠ []) as Hne by (intros ->; done).
  destruct (store_set_element_ok _ _ (to_id g) attrs Ha Hne) as (st & Est & Hrep & _).
  rewrite Est in Hs. simplify_eq. split; [done|]. split; cbn.
  - by rewrite (dp_set_law _ _ _ _ _ Ed), Hd, fmap_insert.
  - by rewrite fmap_insert, kmap_insert.
Qed.

Lemma doc_release_ok docs p i p' : provider_rep docs p →
  doc_release to_id p i = (p', Ok tt) → provider_rep (delete i docs) p'.
Proof.
  intros [Hd Ha] Hs. unfold doc_release in Hs.
  destruct (store_delete_ok _ _ (to_id i) Ha) as (st & Est & Hrep & _). rewrite Est in Hs.
  destruct (dp_release _ _) as [d [[]|]] eqn:Ed; [|done]. cbn in Hs. simplify_eq. split; cbn.
  - by rewrite (dp_release_law _ _ _ Ed), Hd, fmap_delete.
  - by rewrite fmap_delete, kmap_delete.
Qed.

(** The status of a document: it is read while the document is valid, an error from its deletion
    to its release. *)
Lemma doc_status_ok docs p i s A : provider_rep docs p → docs !! i = Some (s, A) →
  doc_status_by_internal_id to_id p i =
    match s with Valid => Ok Valid | Deleted => Err OnlyInAttributeStore end.
Proof.
  intros Hp Hi. unfold doc_status_by_internal_id, store_id_exists. cbn.
  rewrite (attributes_known docs p i Hp), Hi, bool_decide_true by (by eexists).
  rewrite (dp_status_law _ i s) by (by rewrite (pr_data _ _ Hp), lookup_fmap, Hi).
  by destruct s.
Qed.

Lemma doc_delete_ok docs p x p' : provider_rep docs p → doc_delete p x = (p', Ok tt) →
  ∃ i s A, dp_to_internal_id (inner_provider p') x = Ok i ∧ docs !! i = Some (s, A) ∧
    provider_rep (<[i := (Deleted, A)]> docs) p'.
Proof.
  intros [Hd Ha] Hs. unfold doc_delete in Hs.
  destruct (dp_delete _ _) as [d [[]|]] eqn:Ed; [|done]. cbn in Hs. simplify_eq.
  destruct (dp_delete_law _ _ _ Ed) as (i & _ & Hi & Hin & Hst).
  rewrite Hd, lookup_fmap, fmap_is_Some in Hin. destruct Hin as [[s A] Hin].
  exists i, s, A. split_and!; [done|done|]. split; cbn.
  - by rewrite Hst, Hd, fmap_insert.
  - rewrite fmap_insert, kmap_insert by done. cbn. rewrite insert_id; [done|].
    by rewrite lookup_kmap, lookup_fmap, Hin by done.
Qed.

(** *** Histories *)

Inductive doc_op :=
| DSet (gid : X) (v : V) (attrs : list Attribute)
| DDelete (gid : X)
| DRelease (id : I).

Definition doc_step p (op : doc_op) : DocumentProvider D B * result (DocumentError E) unit :=
  match op with
  | DSet gid v attrs =>
      let '(p, r) := doc_set_element to_id p gid (mkDocument v attrs) in
      (p, (let? _ := r in Ok tt)%rust)
  | DDelete gid => doc_delete p gid
  | DRelease id => doc_release to_id p id
  end.

(** The operations of a history, all of which succeed. *)
Inductive doc_run : DocumentProvider D B → list doc_op → DocumentProvider D B → Prop :=
| doc_run_nil p : doc_run p [] p
| doc_run_cons p op p1 ops p2 : doc_step p op = (p1, Ok tt) → doc_run p1 ops p2 →
    doc_run p (op :: ops) p2.

Lemma doc_step_ok docs p op p' : provider_rep docs p → doc_step p op = (p', Ok tt) →
  ∃ docs', provider_rep docs' p'.
Proof.
  intros Hp. destruct op as [gid v attrs|gid|id]; cbn [doc_step].
  - destruct (doc_set_element _ _ _ _) as [p1 [i|]] eqn:Es; cbn; intros; simplify_eq.
    destruct (doc_set_element_ok _ _ _ _ _ _ _ Hp Es) as [_ ?]. by eexists.
  - intros Hs. destruct (doc_delete_ok _ _ _ _ Hp Hs) as (? & ? & ? & _ & _ & ?). by eexists.
  - intros Hs. eexists. by eapply doc_release_ok.
Qed.

Lemma doc_run_ok docs p ops p' : provider_rep docs p → doc_run p ops p' →
  ∃ docs', provider_rep docs' p'.
Proof.
  intros Hp Hr. revert docs Hp. induction Hr as [|???? p2 Hs Hr IH]; intros docs Hp; [by eexists|].
  destruct (doc_step_ok _ _ _ _ Hp Hs) as [docs1 Hp1]. by apply (IH docs1).
Qed.

(** The data provider and the attribute store agree after every history of successful operations
    on documents: the provider represents a map of documents; the status of a valid document is
    read as such; and a document that is deleted and not yet released cannot be asked for its
    status, by its own id or by the one of its owner: the answer is an error. *)
Theorem document_provider_consistent (d : D) (ops : list doc_op) p :
  dp_statuses d = ∅ → doc_run (mkProvider d store_new) ops p →
  ∃ docs, provider_rep docs p ∧
    (∀ i A, docs !! i = Some (Valid, A) → doc_status_by_internal_id to_id p i = Ok Valid) ∧
    (∀ i A, docs !! i = Some (Deleted, A) →
       doc_status_by_internal_id to_id p i = Err OnlyInAttributeStore) ∧
    (∀ x p', doc_delete p x = (p', Ok tt) →
       doc_status_by_external_id to_id p' x = Err OnlyInAttributeStore).
Proof.
  intros Hd Hr. assert (provider_rep ∅ (mkProvider d store_new)) as Hnew.
  { split; cbn; [by rewrite Hd, fmap_empty|]. rewrite fmap_empty, kmap_empty. apply store_rep_new. }
  destruct (doc_run_ok _ _ _ _ Hnew Hr) as [docs Hp]. exists docs. split_and!; [done| | |].
  - intros i A Hi. by rewrite (doc_status_ok docs p i Valid A).
  - intros i A Hi. by rewrite (doc_status_ok docs p i Deleted A).
  - intros x p' Hx. destruct (doc_delete_ok _ _ _ _ Hp Hx) as (i & s & A & Hi & _ & Hp').
    unfold doc_status_by_external_id, doc_to_internal_id. rewrite Hi. cbn [map_err result_bind].
    by rewrite (doc_status_ok _ p' i Deleted A Hp' (lookup_insert_eq _ _ _)).
Qed.

End documents.

(** ** A data provider for examples: owners and the provider use the same ids *)

#[global] Instance map_provider : InnerProvider (gmap N ElementStatus) N unit N unit := {
  dp_to_internal_id d x := if decide (is_Some (d !! x)) then Ok x else Err tt;
  dp_to_external_id d i := if decide (is_Some (d !! i)) then Ok i else Err tt;
  dp_set_element d x v := (<[x := Valid]> d, Ok x);
  dp_guard_drop d i := d;
  dp_delete d x :=
    if decide (is_Some (d !! x)) then (<[x := Deleted]> d, Ok tt) else (d, Err tt);
  dp_release d i := (delete i d, Ok tt);
  dp_status_by_internal_id d i := match d !! i with Some s => Ok s | None => Err tt end;
}.

#[global] Instance map_provider_laws : InnerProviderLaws (gmap N ElementStatus) N unit N unit.
Proof.
  refine {| dp_statuses d := d |}; cbn.
  - intros. by simplify_eq.
  - intros d x d'. case_decide; intros; simplify_eq. exists x.
    rewrite decide_True by (rewrite lookup_insert_eq; by eexists).
    by split_and!.
  - intros. by simplify_eq.
  - by intros d i s ->.
Defined.

(** A document that is inserted and deleted: its status is an error until it is released. *)
Lemma document_provider_consistent_witness :
  let p0 := mkProvider (B := gset N) (∅ : gmap N ElementStatus) store_new in
  let p1 := (doc_step id p0 (DSet 7%N () [red])).1 in
  doc_status_by_internal_id id p1 7%N = Ok Valid ∧
  doc_status_by_external_id id (doc_delete p1 7%N).1 7%N = Err OnlyInAttributeStore.
Proof.
  intros p0 p1.
  assert (doc_run (V := unit) id p0 [DSet 7%N () [red]] p1) as Hr
    by (repeat econstructor; by vm_compute).
  destruct (document_provider_consistent (DL := map_provider_laws) id (inner_provider p0) _ p1
    eq_refl Hr) as (docs & _ & _ & _ & Hdel).
  split; [by vm_compute|]. by apply (Hdel 7%N).
Defined.
