(* ===== verification/RecordValue.v ===== *)
(** * Versioned records: values and their JSON form

    Models [diskann-record/src/] ([number.rs], [version.rs], [value.rs]): the values of a manifest
    and how they are written to JSON and read back.

    - [Number] with its narrowing accessors, [Version] with its text;
    - [Value]: a record is a finite map ([HashMap]); [serialize] and [deserialize] are the
      implementations of the traits of [serde], over trees of the data model of [serde];
    - Class [JsonText]: the text layer ([serde_json]), with what is documented of it: a
      non-negative integer is read as unsigned, nesting is limited, and a finite float is read as a
      finite float, which need not be the same one (the feature [float_roundtrip] is not enabled);
    - [deserialize_reread]: what is read back is the value with its numbers as the text layer gives
      them and with the three strings that stand for the special floats turned into these. *)

From Stdlib Require Import Ascii SpecFloat.
From stdpp Require Import strings pretty.
From S2P Require Import Prelude F32 Strings.

(** ** Numbers ([number.rs]) *)

Section numbers.
Local Open Scope Z_scope.

Inductive Number := U64 (v : Z) | I64 (v : Z) | F64 (v : f64).

(** [v as f64] and [v as f32] of an integer: to the nearest, ties to even *)
Definition int_as_f64 (v : Z) : f64 :=
  match v with
  | Z0 => S754_zero false
  | Zpos p => binary_round f64_prec f64_emax false p 0
  | Zneg p => binary_round f64_prec f64_emax true p 0
  end.

(** [x as T] for an integer type with the given bounds: truncates and saturates, NaN is 0. *)
Definition float_as_int (lo hi : Z) (x : spec_float) : Z :=
  match x with
  | S754_nan | S754_zero _ => 0
  | S754_infinity s => if s then lo else hi
  | S754_finite s m e =>
      let v := magnitude_floor m e in Z.max lo (Z.min hi (if s then - v else v))
  end.

(** [x as f32] and [x as f64] between the two formats *)
Definition f64_as_f32 (x : f64) : f32 :=
  match x with S754_finite s m e => binary_round f32_prec f32_emax s m e | _ => x end.
Definition f32_as_f64 (x : f32) : f64 :=
  match x with S754_finite s m e => binary_round f64_prec f64_emax s m e | _ => x end.

(** The accessors [as_u8] to [as_isize], for the integer type with the bounds [lo] and [hi] *)
Definition as_int (lo hi : Z) (n : Number) : option Z :=
  match n with
  | U64 v | I64 v => if (lo <=? v) && (v <=? hi) then Some v else None
  | F64 v => let c := float_as_int lo hi v in if SFeqb (int_as_f64 c) v then Some c else None
  end.

Definition u64_max : Z := 2 ^ 64 - 1.
Definition i64_min : Z := - 2 ^ 63.
Definition i64_max : Z := 2 ^ 63 - 1.

Definition as_f64 (n : Number) : option f64 :=
  match n with
  | U64 v => let c := int_as_f64 v in if float_as_int 0 u64_max c =? v then Some c else None
  | I64 v => let c := int_as_f64 v in if float_as_int i64_min i64_max c =? v then Some c else None
  | F64 v => if is_nan v then Some v else if SFeqb v v then Some v else None
  end.

Definition as_f32 (n : Number) : option f32 :=
  match n with
  | U64 v => let c := f32_of_Z v in if float_as_int 0 u64_max c =? v then Some c else None
  | I64 v => let c := f32_of_Z v in if float_as_int i64_min i64_max c =? v then Some c else None
  | F64 v =>
      if is_nan v then Some (f64_as_f32 v)
      else let c := f64_as_f32 v in if SFeqb (f32_as_f64 c) v then Some c else None
  end.

(** [Number::sentinel] and [Number::from_sentinel] *)
Definition sentinel (n : Number) : option string :=
  match n with
  | F64 S754_nan => Some "nan"
  | F64 (S754_infinity false) => Some "inf"
  | F64 (S754_infinity true) => Some "neg_inf"
  | _ => None
  end.

Definition from_sentinel (s : string) : option Number :=
  if String.eqb s "nan" then Some (F64 S754_nan)
  else if String.eqb s "inf" then Some (F64 (S754_infinity false))
  else if String.eqb s "neg_inf" then Some (F64 (S754_infinity true))
  else None.

End numbers.

(** ** Versions ([version.rs]) *)

Record Version := mkVersion { major : N; minor : N }.

#[global] Instance Version_eq_dec : EqDecision Version.
Proof. solve_decision. Defined.

Definition u32_bound : N := 2 ^ 32.
Definition version_ok (v : Version) : Prop := (major v < u32_bound)%N ∧ (minor v < u32_bound)%N.

(** [Display for Version] and [FromStr for Version] *)
Definition version_display (v : Version) : string :=
  pretty (major v) +:+ String "." (pretty (minor v)).

Definition version_from_str (s : string) : option Version :=
  let parts := str_split "." s in
  let major := head parts ≫= parse_unsigned u32_bound in
  let minor := parts !! 1 ≫= parse_unsigned u32_bound in
  match major, minor, parts !! 2 with
  | Some major, Some minor, None => Some (mkVersion major minor)
  | _, _, _ => None
  end.

Lemma version_text_roundtrip v : version_ok v → version_from_str (version_display v) = Some v.
Proof.
  intros [H1 H2]. unfold version_from_str, version_display.
  rewrite str_split_app, str_split_none by (apply all_digits_has; [done|apply pretty_digits]).
  cbn -[parse_unsigned]. rewrite !parse_pretty by done. by destruct v.
Qed.

(** ** Values ([value.rs]) *)

Inductive Value : Type :=
| Null
| Bool (b : bool)
| Num (n : Number)
| Str (s : string)
| Arr (values : list Value)
| Obj (record : gmap string Value) (version : Version)
| Hdl (name : string).

(** [is_reserved] ([lib.rs]) *)
Definition is_reserved (s : string) : bool :=
  match s with String c _ => Ascii.eqb c "$" | EmptyString => false end.

Inductive SaveError := ReservedKey (key : string) | NameCollision (name : string)
| NeverFinished (name : string) | FileExists (name : string) | CreateFailed (name : string)
| TempExists.

(** [Record::insert], which returns the value it replaces, and [Record::from_iter] *)
Definition record_insert (r : gmap string Value) (key : string) (v : Value) :
    gmap string Value * result SaveError (option Value) :=
  if is_reserved key then (r, Err (ReservedKey key)) else (<[key := v]> r, Ok (r !! key)).

Definition record_from_iter (l : list (string * Value)) : gmap string Value :=
  foldl (λ r e, <[e.1 := e.2]> r) ∅ l.

(** [Record::into_value] *)
Definition into_value (r : gmap string Value) (version : Version) : Value := Obj r version.

Fixpoint value_size (v : Value) : nat :=
  match v with
  | Arr l => S (foldr (λ v n, value_size v + n) 0 l)
  | Obj r _ => S (map_fold (λ _ v n, value_size v + n) 0 r)
  | _ => 1
  end.

Lemma value_size_map (r : gmap string Value) k v : r !! k = Some v →
  value_size v ≤ map_fold (λ _ v n, value_size v + n) 0 r.
Proof.
  intros Hk. rewrite (map_fold_delete_L _ 0 k v r); [lia| |done].
  intros. lia.
Qed.

(** Induction over the elements of arrays and the fields of records. *)
Lemma Value_nested (P : Value → Prop) :
  P Null → (∀ b, P (Bool b)) → (∀ n, P (Num n)) → (∀ s, P (Str s)) →
  (∀ l, Forall P l → P (Arr l)) → (∀ r v, map_Forall (λ _, P) r → P (Obj r v)) →
  (∀ h, P (Hdl h)) → ∀ v, P v.
Proof.
  intros HN HB Hn Hs HA HO HH v. remember (value_size v) as n eqn:En.
  revert v En. induction (lt_wf n) as [n _ IH]. intros v ->.
  assert (∀ w, value_size w < value_size v → P w) as IHv by eauto. clear IH.
  destruct v as [| | | |l|r ver|]; [done|done|done|done| | |done].
  - apply HA, Forall_forall. intros w Hw. apply IHv. cbn. clear -Hw.
    induction Hw as [w l|w x l _ IH]; cbn in *; lia.
  - apply HO. intros k w Hk. apply IHv. cbn. pose proof (value_size_map _ _ _ Hk). lia.
Qed.

(** ** JSON *)

(** A tree of the data model of [serde], as a serializer is called and as a visitor is. *)
Inductive json : Type :=
| JNull
| JBool (b : bool)
| JU64 (v : Z)
| JI64 (v : Z)
| JF64 (v : f64)
| JStr (s : string)
| JArr (l : list json)
| JObj (l : list (string * json)).

(** Nesting of arrays and objects, and the floats of a tree. *)
Fixpoint json_depth (j : json) : nat :=
  match j with
  | JArr l => S (foldr (λ j n, Nat.max (json_depth j) n) 0 l)
  | JObj l => S (foldr (λ e n, Nat.max (json_depth e.2) n) 0 l)
  | _ => 0
  end.

Fixpoint json_finite (j : json) : Prop :=
  match j with
  | JF64 v => is_finite v = true
  | JArr l => foldr (λ j P, json_finite j ∧ P) True l
  | JObj l => foldr (λ e P, json_finite e.2 ∧ P) True l
  | _ => True
  end.

(** What a reader makes of the text of a tree: integers without a sign are unsigned. *)
Fixpoint json_reread (read_f64 : f64 → f64) (j : json) : json :=
  match j with
  | JI64 v => if (v <? 0)%Z then JI64 v else JU64 v
  | JF64 v => JF64 (read_f64 v)
  | JArr l => JArr (json_reread read_f64 <$> l)
  | JObj l => JObj ((λ e, (e.1, json_reread read_f64 e.2)) <$> l)
  | _ => j
  end.

(** The text layer. *)
Class JsonText (T : Type) := {
  to_text : json → T;
  from_text : T → option json;
  read_f64 : f64 → f64;
}.

(** The recursion limit of the reader is 128. *)
Definition max_depth : nat := 127.

Class JsonTextLaws (T : Type) `{JsonText T} := {
  from_to_text j : json_finite j → json_depth j ≤ max_depth →
    from_text (to_text j) = Some (json_reread read_f64 j);
  read_f64_finite x : is_finite x = true → is_finite (read_f64 x) = true;
}.

Section codec.
Variable (map_iter : ∀ {A}, gmap string A → list (string * A)).

(** [Serialize for Number] *)
Definition serialize_number (n : Number) : json :=
  match sentinel n with
  | Some s => JStr s
  | None => match n with U64 v => JU64 v | I64 v => JI64 v | F64 v => JF64 v end
  end.

(** [Serialize for Value]; an object is its record, flattened, and the version. *)
Fixpoint serialize (v : Value) : json :=
  match v with
  | Null => JNull
  | Bool b => JBool b
  | Num n => serialize_number n
  | Str s => JStr s
  | Arr values => JArr (serialize <$> values)
  | Obj record version =>
      JObj (map_iter (serialize <$> record) ++ [("$version", JStr (version_display version))])
  | Hdl name => JObj [("$handle", JStr name)]
  end.

(** [Deserialize for Value]: [None] is an error.  The loop of [visit_map] collects the version,
    the handle and the fields. *)
Definition visit_str (s : string) : Value :=
  match from_sentinel s with Some n => Num n | None => Str s end.

Definition visit_map (de : json → option Value) :
    list (string * json) → option Version → option string → gmap string Value → option Value :=
  fix go entries version handle fields :=
    match entries with
    | [] =>
        match handle, version with
        | Some name, None => if decide (fields = ∅) then Some (Hdl name) else None
        | Some _, Some _ => None
        | None, Some version => Some (Obj fields version)
        | None, None => None
        end
    | (key, j) :: entries =>
        if String.eqb key "$version" then
          match j with
          | JStr s => v ← version_from_str s; go entries (Some v) handle fields
          | _ => None
          end
        else if String.eqb key "$handle" then
          match j with JStr s => go entries version (Some s) fields | _ => None end
        else v ← de j; go entries version handle (<[key := v]> fields)
    end.

Fixpoint deserialize (j : json) : option Value :=
  match j with
  | JNull => Some Null
  | JBool b => Some (Bool b)
  | JU64 v => Some (Num (U64 v))
  | JI64 v => Some (Num (I64 v))
  | JF64 v => Some (Num (F64 v))
  | JStr s => Some (visit_str s)
  | JArr l => values ← mapM deserialize l; Some (Arr values)
  | JObj l => visit_map deserialize l None None ∅
  end.
End codec.

(** ** What is read back *)

(** Keys that are not reserved and versions of 32 bits, throughout. *)
Inductive value_ok : Value → Prop :=
| ok_null : value_ok Null
| ok_bool b : value_ok (Bool b)
| ok_num n : value_ok (Num n)
| ok_str s : value_ok (Str s)
| ok_arr l : Forall value_ok l → value_ok (Arr l)
| ok_obj r v : version_ok v →
    (∀ k w, r !! k = Some w → is_reserved k = false ∧ value_ok w) → value_ok (Obj r v)
| ok_hdl h : value_ok (Hdl h).

Section reread.
Context {T : Type} `{JsonTextLaws T}.
Variable (map_iter : ∀ {A}, gmap string A → list (string * A)).
Hypothesis (map_iter_perm : ∀ A (m : gmap string A), map_iter m ≡ₚ map_to_list m).

Definition renumber (n : Number) : Number :=
  match n with
  | U64 v => U64 v
  | I64 v => if (v <? 0)%Z then I64 v else U64 v
  | F64 v => F64 (if is_finite v then read_f64 v else v)
  end.

(** A value after it went through the text: numbers as they are read, and the strings that stand
    for the special floats as these. *)
Fixpoint reread (v : Value) : Value :=
  match v with
  | Num n => Num (renumber n)
  | Str s => visit_str s
  | Arr l => Arr (reread <$> l)
  | Obj r version => Obj (reread <$> r) version
  | _ => v
  end.

Lemma elem_of_map_iter {A} (m : gmap string A) k x : (k, x) ∈ map_iter m ↔ m !! k = Some x.
Proof. rewrite map_iter_perm. apply elem_of_map_to_list. Qed.

Lemma serialize_number_reread n :
  deserialize (json_reread read_f64 (serialize_number n)) = Some (Num (renumber n)).
Proof.
  destruct n as [v|v|v]; cbn; [done|by destruct (v <? 0)%Z|].
  by destruct v as [s|[]| |].
Qed.

(** The loop over the fields of a record. *)
Lemma visit_map_fields de E rest version fields (M : gmap string Value) :
  (∀ k j, (k, j) ∈ E → is_reserved k = false ∧ ∃ w, M !! k = Some w ∧ de j = Some w) →
  ∃ fields', visit_map de (E ++ rest) version None fields = visit_map de rest version None fields' ∧
    ∀ k, fields' !! k = if decide (k ∈ E.*1) then M !! k else fields !! k.
Proof.
  revert fields. induction E as [|[k j] E IH]; intros fields HE.
  - exists fields. split; [done|]. intros k. cbn. by rewrite decide_False by apply not_elem_of_nil.
  - destruct (HE k j) as (Hk & w & Hw & Hj); [apply list_elem_of_here|].
    destruct (IH (<[k := w]> fields)) as (fields' & E1 & Hf).
    { intros k' j' Hin. apply HE. by apply list_elem_of_further. }
    exists fields'. split.
    + rewrite <-E1. cbn. rewrite Hj. cbn.
      destruct (String.eqb_spec k "$version") as [->|]; [done|].
      by destruct (String.eqb_spec k "$handle") as [->|].
    + intros k'. rewrite Hf. cbn [fmap list_fmap fst]. destruct (decide (k' ∈ E.*1)) as [Hin|Hin].
      * by rewrite decide_True by (by apply list_elem_of_further).
      * destruct (decide (k' = k)) as [->|Hne].
        -- by rewrite lookup_insert_eq, decide_True by apply list_elem_of_here.
        -- rewrite lookup_insert_ne by done. rewrite decide_False; [done|].
           by intros [?|?]%elem_of_cons.
Qed.

Lemma deserialize_reread v : value_ok v →
  deserialize (json_reread read_f64 (serialize (@map_iter) v)) = Some (reread v).
Proof.
  induction v as [|b|n|s|l IH|r ver IH|h] using Value_nested; intros Hok; try done.
  - apply serialize_number_reread.
  - inversion Hok as [| | | |? Hl| |]; subst. cbn [serialize json_reread deserialize reread].
    assert (mapM deserialize (json_reread read_f64 <$> (serialize (@map_iter) <$> l)) =
      Some (reread <$> l)) as ->; [|done].
    apply mapM_Some. clear Hok. induction IH as [|v l Hv _ IHl]; [constructor|].
    inversion Hl; subst. cbn. constructor; [by apply Hv|by apply IHl].
  - inversion Hok as [| | | | |? ? Hver Hr|]; subst. cbn [serialize json_reread deserialize reread].
    rewrite fmap_app. set (E := (λ e, _) <$> map_iter _).
    assert (∀ k j, (k, j) ∈ E ↔ ∃ w, r !! k = Some w ∧
      j = json_reread read_f64 (serialize (@map_iter) w)) as HE.
    { intros k j. unfold E. rewrite list_elem_of_fmap. split.
      - intros ([k' j'] & [= -> ->] & Hin%elem_of_map_iter). rewrite lookup_fmap in Hin.
        destruct (r !! k') as [w|]; [|done]. injection Hin as <-. by exists w.
      - intros (w & Hw & ->). exists (k, serialize (@map_iter) w). split; [done|].
        apply elem_of_map_iter. by rewrite lookup_fmap, Hw. }
    destruct (visit_map_fields deserialize E (((λ e, (e.1, json_reread read_f64 e.2)) <$>
      [("$version", JStr (version_display ver))])) None ∅ (reread <$> r)) as (fields & -> & Hf).
    { intros k j (w & Hw & ->)%HE. destruct (Hr k w Hw) as [Hk Hwok]. split; [done|].
      exists (reread w). rewrite lookup_fmap, Hw. split; [done|]. by apply (IH k). }
    assert (fields = reread <$> r) as ->.
    { apply map_eq. intros k. rewrite Hf. case_decide as Hin; [done|]. rewrite lookup_empty, lookup_fmap.
      destruct (r !! k) as [w|] eqn:Ew; [|done]. exfalso. apply Hin, list_elem_of_fmap.
      exists (k, json_reread read_f64 (serialize (@map_iter) w)). split; [done|]. apply HE. by exists w. }
    cbn -[version_from_str version_display]. by rewrite version_text_roundtrip.
Qed.

Lemma foldr_and {A} (P : A → Prop) l : (∀ x, x ∈ l → P x) → foldr (λ x Q, P x ∧ Q) True l.
Proof.
  induction l as [|x l IH]; intros Hl; [done|]. split; [apply Hl, list_elem_of_here|].
  apply IH. intros y Hy. apply Hl. by apply list_elem_of_further.
Qed.

Lemma serialize_finite v : json_finite (serialize (@map_iter) v).
Proof.
  induction v as [|b|n|s|l IH|r ver IH|h] using Value_nested; try done.
  - by destruct n as [v|v|[s|[]| |s m e]].
  - cbn. apply foldr_and. intros j (w & -> & Hw)%list_elem_of_fmap.
    rewrite Forall_forall in IH. by apply IH.
  - cbn. apply (foldr_and (λ e, json_finite e.2)). intros [k j] [Hin|Hin]%elem_of_app.
    + apply elem_of_map_iter in Hin. rewrite lookup_fmap in Hin.
      destruct (r !! k) as [w|] eqn:Ew; [|done]. injection Hin as <-. by apply (IH k).
    + by apply list_elem_of_singleton in Hin as [= -> ->].
Qed.

End reread.
