(* ===== verification/RecordTraits.v ===== *)
(** * Versioned records: the traits [Saveable] and [Loadable]

    Models [diskann-record/src/save/mod.rs] and [load/] ([mod.rs], [context.rs], [error.rs]): how
    values of Rust types become values of a manifest and come back.

    - [RecordContext]: what the traits use of the two contexts, [Context::write] with
      [Writer::finish] and [Object::read]; [ContextLaws] is what the contexts of [RecordStore]
      promise;
    - [Codec]: an implementation of [Saveable] and [Loadable] for one type; there is one for each
      implementation of the source (booleans, strings, integers, floats, handles, options, vectors,
      and types with the traits [Save] and [Load]); [Fields] is what the macros [save_fields!] and
      [load_fields!] expand to, and [add_artifact] a field whose bytes go to an artifact;
    - [lawful]: saving succeeds and only adds artifacts, and what was saved is loaded again in
      every context that holds the artifacts, from memory and after it went through the text.
      All codecs above are shown to be lawful but that of [f32].

    Saving passes the state of the save context; loading has the load context as an argument. *)

From Stdlib Require Import SpecFloat.
From stdpp Require Import strings.
From S2P Require Import Prelude F32 Strings RecordValue.

(** ** Errors ([load/error.rs]) *)

Inductive Kind := VersionMismatch | MissingField | TypeMismatch | UnknownVersion | UnknownVariant
| NumberOutOfRange | MissingFile.

Definition is_recoverable (k : Kind) : bool :=
  match k with
  | VersionMismatch | MissingField | TypeMismatch => true
  | UnknownVersion | UnknownVariant | NumberOutOfRange | MissingFile => false
  end.

(** An error of loading has a kind, or is another one, which is critical ([Error::new]). *)
Inductive LoadError := KindError (k : Kind) | OtherError.

Definition error_is_recoverable (e : LoadError) : bool :=
  match e with KindError k => is_recoverable k | OtherError => false end.

(** ** Contexts *)

(** [Context::write] gives the name of a writer, [Writer::finish] takes the bytes that were
    written to it and gives a handle; [Object::read] gives the bytes of a handle. *)
Class RecordContext (S L : Type) := {
  ctx_write : S → option string → S * result SaveError string;
  ctx_writer_finish : S → string → list Z → S * string;
  ctx_read : L → string → result LoadError (list Z);
}.

Section codecs.
Context {S L : Type}.

Record Codec (A : Type) := mkCodec {
  c_save : A → S → S * result SaveError Value;
  c_load : L → Value → result LoadError A;
}.
#[global] Arguments mkCodec {A} _ _.
#[global] Arguments c_save {A} _ _ _.
#[global] Arguments c_load {A} _ _ _.

(** ** Primitive types *)

Definition bool_codec : Codec bool := mkCodec (λ b s, (s, Ok (Bool b)))
  (λ _ v, match v with Bool b => Ok b | _ => Err (KindError TypeMismatch) end).

Definition string_codec : Codec string := mkCodec (λ x s, (s, Ok (Str x)))
  (λ _ v, match v with Str x => Ok x | _ => Err (KindError TypeMismatch) end).

(** A handle is the name of an artifact. *)
Definition handle_codec : Codec string := mkCodec (λ x s, (s, Ok (Hdl x)))
  (λ _ v, match v with Hdl x => Ok x | _ => Err (KindError TypeMismatch) end).

(** [load_number!] *)
Definition load_number {A} (as_type : Number → option A) (v : Value) : result LoadError A :=
  match v with
  | Num n => match as_type n with Some x => Ok x | None => Err (KindError NumberOutOfRange) end
  | _ => Err (KindError TypeMismatch)
  end.

(** [u8] to [u64] and [usize]; [i8] to [i64] *)
Definition unsigned_codec (hi : Z) : Codec Z :=
  mkCodec (λ x s, (s, Ok (Num (U64 x)))) (λ _, load_number (as_int 0 hi)).
Definition signed_codec (lo hi : Z) : Codec Z :=
  mkCodec (λ x s, (s, Ok (Num (I64 x)))) (λ _, load_number (as_int lo hi)).
Definition f64_codec : Codec f64 :=
  mkCodec (λ x s, (s, Ok (Num (F64 x)))) (λ _, load_number as_f64).
Definition f32_codec : Codec f32 :=
  mkCodec (λ x s, (s, Ok (Num (F64 (f32_as_f64 x))))) (λ _, load_number as_f32).

(** [NonZeroU32], [NonZeroU64], [NonZeroUsize] *)
Definition nonzero_codec (hi : Z) : Codec Z :=
  mkCodec (c_save (unsigned_codec hi))
    (λ l v, (let? x := c_load (unsigned_codec hi) l v in
             if (x =? 0)%Z then Err (KindError NumberOutOfRange) else Ok x)%rust).

(** ** Options and vectors *)

Definition option_codec {A} (c : Codec A) : Codec (option A) :=
  mkCodec (λ x s, match x with None => (s, Ok Null) | Some x => c_save c x s end)
    (λ l v, match v with
            | Null => Ok None
            | _ => (let? x := c_load c l v in Ok (Some x))%rust
            end).

Fixpoint save_all {A} (c : Codec A) (xs : list A) (s : S) : S * result SaveError (list Value) :=
  match xs with
  | [] => (s, Ok [])
  | x :: xs =>
      match c_save c x s with
      | (s, Err e) => (s, Err e)
      | (s, Ok v) =>
          let '(s, r) := save_all c xs s in (s, (let? vs := r in Ok (v :: vs))%rust)
      end
  end.

Fixpoint load_all {A} (c : Codec A) (l : L) (vs : list Value) : result LoadError (list A) :=
  match vs with
  | [] => Ok []
  | v :: vs => (let? x := c_load c l v in let? xs := load_all c l vs in Ok (x :: xs))%rust
  end.

Definition vec_codec {A} (c : Codec A) : Codec (list A) :=
  mkCodec (λ xs s, let '(s, r) := save_all c xs s in (s, (let? vs := r in Ok (Arr vs))%rust))
    (λ l v, match v with Arr vs => load_all c l vs | _ => Err (KindError TypeMismatch) end).

(** ** Records: [save_fields!], [load_fields!] and the blanket implementations *)

Record Fields (A : Type) := mkFields {
  f_names : list string;
  f_save : A → S → S * result SaveError (list (string * Value));
  f_load : L → gmap string Value → result LoadError A;
}.
#[global] Arguments mkFields {A} _ _ _.
#[global] Arguments f_names {A} _.
#[global] Arguments f_save {A} _ _ _.
#[global] Arguments f_load {A} _ _ _.

(** [Object::field] *)
Definition object_field {A} (c : Codec A) (l : L) (r : gmap string Value) (key : string) :
    result LoadError A :=
  match r !! key with Some v => c_load c l v | None => Err (KindError MissingField) end.

Definition no_fields : Fields unit := mkFields [] (λ _ s, (s, Ok [])) (λ _ _, Ok tt).

Definition add_field {A B} (name : string) (c : Codec A) (fs : Fields B) : Fields (A * B) :=
  mkFields (name :: f_names fs)
    (λ x s, match c_save c x.1 s with
            | (s, Err e) => (s, Err e)
            | (s, Ok v) =>
                let '(s, r) := f_save fs x.2 s in (s, (let? l := r in Ok ((name, v) :: l))%rust)
            end)
    (λ l r, (let? a := object_field c l r name in let? b := f_load fs l r in Ok (a, b))%rust).

(** A field that is written to an artifact, as a [Save] implementation does it: a writer is
    opened with a hint, the other fields are saved, the writer is finished and its handle
    inserted into the record; loading reads the handle, then the artifact. *)
Definition add_artifact `{RecordContext S L} {B} (name : string) (hint : option string)
    (fs : Fields B) : Fields (list Z * B) :=
  mkFields (f_names fs ++ [name])
    (λ x s, match ctx_write s hint with
            | (s, Err e) => (s, Err e)
            | (s, Ok file) =>
                match f_save fs x.2 s with
                | (s, Err e) => (s, Err e)
                | (s, Ok l) =>
                    let '(s, h) := ctx_writer_finish s file x.1 in
                    (s, if is_reserved name then Err (ReservedKey name) else Ok (l ++ [(name, Hdl h)]))
                end
            end)
    (λ l r, (let? b := f_load fs l r in
             let? h := object_field handle_codec l r name in
             let? bytes := ctx_read l h in Ok (bytes, b))%rust).

(** A type with [Save] and [Load]: [VERSION], the fields, [load_legacy]; the blanket
    implementations of [Saveable] and [Loadable]. *)
Definition record_codec {A F} (VERSION : Version) (fs : Fields F) (fields_of : A → F)
    (of_fields : F → A) (load_legacy : L → gmap string Value → Version → result LoadError A) : Codec A :=
  mkCodec
    (λ x s, let '(s, r) := f_save fs (fields_of x) s in
            (s, (let? l := r in Ok (into_value (record_from_iter l) VERSION))%rust))
    (λ l v, match v with
            | Obj r version =>
                if decide (version = VERSION) then (let? f := f_load fs l r in Ok (of_fields f))%rust
                else load_legacy l r version
            | _ => Err (KindError TypeMismatch)
            end).

(** [Object::single_key]: the tag of an enumeration *)
Definition single_key (r : gmap string Value) (keys : gmap string Value → list string) :
    result LoadError string :=
  match keys r with [first] => Ok first | _ => Err (KindError TypeMismatch) end.

End codecs.
#[global] Arguments Codec : clear implicits.
#[global] Arguments Fields : clear implicits.

(** ** The artifacts of a context *)

(** Artifacts by name: reserved ones have no bytes yet. *)
Abbreviation artifacts := (gmap string (option (list Z))).

(** [F'] has the artifacts of [F], and none that was left unfinished in between. *)
Definition extends (F F' : artifacts) : Prop :=
  F ⊆ F' ∧ ∀ n, F' !! n = Some None → F !! n = Some None.

#[export] Instance extends_preorder : PreOrder extends.
Proof.
  split; [by split|]. intros F1 F2 F3 [H1 H2] [H3 H4]. split; [by etrans|auto].
Qed.

(** What a save context promises: under the invariant [inv], with the artifacts [files], a
    writer gets a new name, which it keeps reserved until it finishes. *)
Class ContextLaws (S L : Type) `{RecordContext S L} (inv : S → Prop) (files : S → artifacts)
    (hint_ok : option string → Prop) := {
  write_law : ∀ s k, inv s → hint_ok k →
    ∃ s' name, ctx_write s k = (s', Ok name) ∧ inv s' ∧ files s !! name = None ∧
      files s' = <[name := None]> (files s);
  finish_law : ∀ s name bytes, inv s → files s !! name = Some None →
    ∃ s', ctx_writer_finish s name bytes = (s', name) ∧ inv s' ∧
      files s' = <[name := Some bytes]> (files s);
}.

(** The load context [l] holds the finished artifacts of [F]. *)
Definition holds {S L : Type} `{RecordContext S L} (l : L) (F : artifacts) : Prop :=
  ∀ name bytes, F !! name = Some (Some bytes) → ctx_read l name = Ok bytes.

Lemma holds_extends {S L : Type} `{RecordContext S L} (l : L) F F' : extends F F' → holds l F' → holds l F.
Proof. intros [Hs _] Hl n b Hn. apply Hl. by eapply lookup_weaken. Qed.

(** ** What is saved is loaded again *)

Section laws.
Context {S L T : Type} `{JsonText T} `{RC : !RecordContext S L}.
Context {inv : S → Prop} {files : S → artifacts} {hint_ok : option string → Prop}.
Context `{CL : !ContextLaws S L inv files hint_ok}.
Variable (map_iter : ∀ {A}, gmap string A → list (string * A)).
Hypothesis (map_iter_perm : ∀ A (m : gmap string A), map_iter m ≡ₚ map_to_list m).

Local Abbreviation depth_of v := (json_depth (serialize (@map_iter) v)).

(** [x] is saved as [v]: the invariant is kept, artifacts are only added, the manifest is not
    nested deeper than [depth], and wherever the artifacts are held, [x] is loaded from [v], and
    if [wire] holds also from what is read of the text of [v]. *)
Record saved_as {A} (c : Codec S L A) (x : A) (wire : Prop) (depth : nat) (s s' : S) (v : Value) :
    Prop := {
  sv_save : c_save c x s = (s', Ok v);
  sv_inv : inv s';
  sv_extends : extends (files s) (files s');
  sv_value : value_ok v;
  sv_depth : depth_of v ≤ depth;
  sv_load : ∀ l, holds l (files s') → c_load c l v = Ok x;
  sv_reread : wire → ∀ l, holds l (files s') → c_load c l (reread v) = Ok x;
}.

Definition lawful {A} (c : Codec S L A) (ok wire : A → Prop) (depth : nat) : Prop :=
  ∀ x s, inv s → ok x → ∃ s' v, saved_as c x (wire x) depth s s' v.

(** A value that is saved without artifacts. *)
Lemma saved_plain {A} (c : Codec S L A) x wire depth s v :
  c_save c x s = (s, Ok v) → inv s → value_ok v → depth_of v ≤ depth →
  (∀ l, c_load c l v = Ok x) → (wire → ∀ l, c_load c l (reread v) = Ok x) →
  ∃ s' v, saved_as c x wire depth s s' v.
Proof. intros Hs Hi Hv Hd Hl Hr. exists s, v. split; auto. reflexivity. Qed.

Lemma bool_lawful : lawful bool_codec (λ _, True) (λ _, True) 0.
Proof. intros b s Hi _. eapply saved_plain; try done. constructor. Qed.

Lemma string_lawful : lawful string_codec (λ _, True) (λ x, from_sentinel x = None) 0.
Proof.
  intros x s Hi _. eapply saved_plain; try done; [constructor|].
  intros Hx l. cbn. unfold visit_str. by rewrite Hx.
Qed.

Lemma handle_lawful : lawful handle_codec (λ _, True) (λ _, True) 1.
Proof. intros x s Hi _. eapply saved_plain; try done. constructor. Qed.

Lemma as_int_range lo hi n x : (lo ≤ x ≤ hi)%Z → n = U64 x ∨ n = I64 x → as_int lo hi n = Some x.
Proof.
  intros Hx [-> | ->]; cbn; by rewrite (proj2 (Z.leb_le lo x)), (proj2 (Z.leb_le x hi)) by lia.
Qed.

Lemma number_depth n : depth_of (Num n) ≤ 0.
Proof. by destruct n as [v|v|[s|[]| |s m e]]. Qed.

Lemma unsigned_lawful hi : lawful (unsigned_codec hi) (λ x, 0 ≤ x ≤ hi)%Z (λ _, True) 0.
Proof.
  intros x s Hi Hx. eapply saved_plain; [done|done|apply ok_num|apply number_depth| |]; intros;
    cbn -[as_int]; by rewrite (as_int_range 0 hi _ x) by auto.
Qed.

Lemma signed_lawful lo hi : lawful (signed_codec lo hi) (λ x, lo ≤ x ≤ hi)%Z (λ _, True) 0.
Proof.
  intros x s Hi Hx. eapply saved_plain; [done|done|apply ok_num|apply number_depth| |]; intros;
    cbn -[as_int].
  - by rewrite (as_int_range lo hi _ x) by auto.
  - destruct (x <? 0)%Z; by rewrite (as_int_range lo hi _ x) by auto.
Qed.

Lemma nonzero_lawful hi : lawful (nonzero_codec hi) (λ x, 0 < x ≤ hi)%Z (λ _, True) 0.
Proof.
  intros x s Hi Hx. destruct (unsigned_lawful hi x s Hi) as (s' & v & [Es ? ? ? ? Hl Hw]); [lia|].
  exists s', v. split; [exact Es|done..| |]; intros; unfold nonzero_codec; cbn [c_load];
    rewrite ?Hl, ?Hw by done; cbn; by rewrite (proj2 (Z.eqb_neq x 0)) by lia.
Qed.

Lemma as_f64_id x : as_f64 (F64 x) = Some x.
Proof.
  unfold as_f64. destruct (is_nan x) eqn:E; [done|].
  change (SFeqb x x) with (f32_eq x x). by rewrite (proj2 (f32_eq_key x x E E)).
Qed.

Lemma f64_lawful : lawful f64_codec (λ _, True) (λ x, is_finite x = true → read_f64 x = x) 0.
Proof.
  intros x s Hi _. eapply saved_plain; [done|done|apply ok_num|apply number_depth| |]; intros;
    cbn -[as_f64].
  - by rewrite as_f64_id.
  - destruct (is_finite x); [rewrite H0 by done|]; by rewrite as_f64_id.
Qed.

(** An option of a type whose values are never saved as null. *)
Lemma option_lawful {A} (c : Codec S L A) ok wire depth : lawful c ok wire depth →
  (∀ x s s', c_save c x s ≠ (s', Ok Null)) → (∀ x l, c_load c l Null ≠ Ok x) →
  lawful (option_codec c) (λ o, ∀ x, o = Some x → ok x) (λ o, ∀ x, o = Some x → wire x) depth.
Proof.
  intros Hc Hnull Hload [x|] s Hi Hx.
  - destruct (Hc x s Hi (Hx x eq_refl)) as (s' & v & [Es ? ? ? ? Hl Hw]). exists s', v.
    pose proof (Hnull x s s') as Hn. rewrite Es in Hn. split; [exact Es|done..| |]; cbn.
    + intros l Hh. specialize (Hl l Hh). by destruct v; [done|rewrite Hl..].
    + intros Hwx l Hh. specialize (Hw (Hwx x eq_refl) l Hh).
      destruct (reread v); [by destruct (Hload x l)|rewrite Hw..]; done.
  - eapply saved_plain; try done; [constructor|cbn; lia].
Qed.

Lemma foldr_max_le {A} (f : A → nat) d l : Forall (λ x, f x ≤ d) l →
  foldr (λ x n, Nat.max (f x) n) 0 l ≤ d.
Proof. induction 1; cbn; lia. Qed.

Lemma save_all_ok {A} (c : Codec S L A) ok wire depth xs : lawful c ok wire depth → Forall ok xs →
  ∀ s, inv s → ∃ s' vs, save_all c xs s = (s', Ok vs) ∧ inv s' ∧ extends (files s) (files s') ∧
    Forall (λ v, value_ok v ∧ depth_of v ≤ depth) vs ∧
    (∀ l, holds l (files s') → load_all c l vs = Ok xs) ∧
    (Forall wire xs → ∀ l, holds l (files s') → load_all c l (reread <$> vs) = Ok xs).
Proof.
  intros Hc. induction 1 as [|x xs Hx _ IH]; intros s Hi.
  { exists s, []. split_and!; [done|done|reflexivity|constructor|done|done]. }
  destruct (Hc x s Hi Hx) as (s1 & v & [E1 I1 X1 Hv Hd Hl Hw]).
  destruct (IH s1 I1) as (s2 & vs & E2 & I2 & X2 & Hvs & Hls & Hws).
  exists s2, (v :: vs). cbn. rewrite E1, E2. split_and!; [done|done|by etrans|by constructor| |].
  - intros l Hh. rewrite Hl, Hls by (done || by eapply holds_extends). done.
  - intros [Hx1 Hx2]%Forall_cons l Hh. rewrite Hw, Hws by (done || by eapply holds_extends). done.
Qed.

Lemma vec_lawful {A} (c : Codec S L A) ok wire depth : lawful c ok wire depth →
  lawful (vec_codec c) (Forall ok) (Forall wire) (1 + depth).
Proof.
  intros Hc xs s Hi Hxs.
  destruct (save_all_ok c ok wire depth xs Hc Hxs s Hi) as (s' & vs & Es & I & X & Hv & Hl & Hw).
  apply Forall_and in Hv as [Hv Hd]. exists s', (Arr vs).
  split; [cbn; by rewrite Es|done|done|by constructor| |done|done].
  cbn. apply le_n_S, foldr_max_le, Forall_fmap, Hd.
Qed.

(** *** Records *)

Definition fields_lawful {F} (fs : Fields S L F) (ok wire : F → Prop) (depth : nat) : Prop :=
  ∀ x s, inv s → ok x → ∃ s' l, f_save fs x s = (s', Ok l) ∧ inv s' ∧ extends (files s) (files s') ∧
    l.*1 = f_names fs ∧ Forall (λ e, value_ok e.2 ∧ depth_of e.2 ≤ depth) l ∧
    (∀ lc r, holds lc (files s') → (∀ k v, (k, v) ∈ l → r !! k = Some v) → f_load fs lc r = Ok x) ∧
    (wire x → ∀ lc r, holds lc (files s') → (∀ k v, (k, v) ∈ l → r !! k = Some (reread v)) →
       f_load fs lc r = Ok x).

Lemma no_fields_lawful depth : fields_lawful no_fields (λ _, True) (λ _, True) depth.
Proof.
  intros [] s Hi _. exists s, [].
  split_and!; [done|done|reflexivity|done|constructor|done|done].
Qed.

Lemma add_field_lawful {A B} name (c : Codec S L A) (fs : Fields S L B) ok wire fok fwire d d' :
  lawful c ok wire d → fields_lawful fs fok fwire d' →
  fields_lawful (add_field name c fs) (λ x, ok x.1 ∧ fok x.2) (λ x, wire x.1 ∧ fwire x.2)
    (Nat.max d d').
Proof.
  intros Hc Hf [a b] s Hi [Ha Hb]. destruct (Hc a s Hi Ha) as (s1 & v & [E1 I1 X1 Hv Hd Hl Hw]).
  destruct (Hf b s1 I1 Hb) as (s2 & l & E2 & I2 & X2 & Hn & Hvs & Hls & Hws).
  exists s2, ((name, v) :: l). cbn. rewrite E1, E2.
  split_and!; [done|done|by etrans|by rewrite Hn| | |].
  - constructor; [split; [done|cbn; lia]|]. eapply Forall_impl; [exact Hvs|]. intros e [? ?].
    split; [done|lia].
  - intros lc r Hh Hr. unfold object_field. rewrite (Hr name v) by apply list_elem_of_here.
    rewrite Hl by (by eapply holds_extends). cbn.
    rewrite Hls; [done..|]. intros. by apply Hr, list_elem_of_further.
  - intros [Hwa Hwb] lc r Hh Hr. unfold object_field. rewrite (Hr name v) by apply list_elem_of_here.
    rewrite Hw by (done || by eapply holds_extends). cbn.
    rewrite Hws; [done..|]. intros. by apply Hr, list_elem_of_further.
Qed.

(** The writer is open while the other fields are saved. *)
Lemma add_artifact_lawful {B} name hint (fs : Fields S L B) fok fwire d :
  hint_ok hint → is_reserved name = false → fields_lawful fs fok fwire d →
  fields_lawful (add_artifact name hint fs) (λ x, fok x.2) (λ x, fwire x.2) (Nat.max 1 d).
Proof.
  intros Hh Hres Hf [bytes b] s Hi Hb.
  destruct (write_law s hint Hi Hh) as (s1 & file & E1 & I1 & Hnew & F1).
  destruct (Hf b s1 I1 Hb) as (s2 & l & E2 & I2 & [X2 U2] & Hn & Hvs & Hls & Hws).
  assert (files s2 !! file = Some None) as Hopen.
  { eapply lookup_weaken; [|exact X2]. rewrite F1. apply lookup_insert_eq. }
  destruct (finish_law s2 file bytes I2 Hopen) as (s3 & E3 & I3 & F3).
  exists s3, (l ++ [(name, Hdl file)]). cbn. rewrite E1, E2, E3, Hres.
  assert (∀ lc, holds lc (files s3) → holds lc (files s2)) as Hold.
  { intros lc Hl n c Hc. apply Hl. rewrite F3, lookup_insert_ne; [done|]. congruence. }
  assert (∀ lc, holds lc (files s3) → ctx_read lc file = Ok bytes) as Hread.
  { intros lc Hl. apply Hl. rewrite F3. apply lookup_insert_eq. }
  split_and!; [done|done| |by rewrite fmap_app, Hn| | |].
  - split.
    + apply map_subseteq_spec. intros n c Hc. assert (n ≠ file) by congruence.
      rewrite F3, lookup_insert_ne by done. eapply lookup_weaken; [|exact X2].
      by rewrite F1, lookup_insert_ne.
    + intros n. rewrite F3. intros [[_ ?]|[Hne Hn']]%lookup_insert_Some; [done|].
      apply U2 in Hn'. by rewrite F1, lookup_insert_ne in Hn'.
  - apply Forall_app. split; [|apply Forall_singleton; split; [constructor|cbn; lia]].
    eapply Forall_impl; [exact Hvs|]. intros e [? ?]. split; [done|lia].
  - intros lc r Hl Hr. rewrite Hls; [|by auto|by intros; apply Hr, elem_of_app; left]. cbn.
    unfold object_field. rewrite (Hr name (Hdl file)) by (apply elem_of_app; right; left). cbn.
    by rewrite Hread.
  - intros Hw lc r Hl Hr. rewrite Hws; [|done|by auto|by intros; apply Hr, elem_of_app; left]. cbn.
    unfold object_field. rewrite (Hr name (Hdl file)) by (apply elem_of_app; right; left). cbn.
    by rewrite Hread.
Qed.

Lemma record_inserts_lookup l (r : gmap string Value) k v : NoDup l.*1 →
  foldl (λ r e, <[e.1 := e.2]> r) r l !! k = Some v ↔ (k, v) ∈ l ∨ k ∉ l.*1 ∧ r !! k = Some v.
Proof.
  revert r. induction l as [|[k' v'] l IH]; intros r; cbn.
  - intros _. rewrite !elem_of_nil. naive_solver.
  - intros [Hk Hl]%NoDup_cons. rewrite IH by done. rewrite !elem_of_cons, lookup_insert_Some.
    assert ((k, v) ∈ l → k ∈ l.*1) as Hin by (intros; apply list_elem_of_fmap; by exists (k, v)).
    destruct (decide (k = k')) as [->|]; naive_solver.
Qed.

Lemma record_from_iter_lookup l k v : NoDup l.*1 →
  record_from_iter l !! k = Some v ↔ (k, v) ∈ l.
Proof.
  intros Hnd. unfold record_from_iter. rewrite record_inserts_lookup, lookup_empty by done.
  naive_solver.
Qed.

Lemma object_depth (r : gmap string Value) version d :
  (∀ k v, r !! k = Some v → depth_of v ≤ d) → depth_of (Obj r version) ≤ 1 + d.
Proof using map_iter_perm.
  intros Hr. cbn. apply le_n_S, (foldr_max_le (λ e, json_depth e.2)), Forall_app. split.
  - apply Forall_forall. intros [k j] Hin. rewrite map_iter_perm in Hin.
    apply elem_of_map_to_list in Hin. rewrite lookup_fmap in Hin.
    destruct (r !! k) as [v|] eqn:Ev; [|done]. injection Hin as <-. by eapply Hr.
  - apply Forall_singleton. cbn. lia.
Qed.

(** A type with [Save] and [Load] whose field names are distinct and not reserved. *)
Lemma record_lawful {A F} VERSION (fs : Fields S L F) (fields_of : A → F) of_fields legacy ok wire d :
  fields_lawful fs ok wire d → (∀ x, of_fields (fields_of x) = x) → version_ok VERSION →
  NoDup (f_names fs) → Forall (λ k, is_reserved k = false) (f_names fs) →
  lawful (record_codec VERSION fs fields_of of_fields legacy) (λ x, ok (fields_of x))
    (λ x, wire (fields_of x)) (1 + d).
Proof using map_iter_perm.
  intros Hf Hinv Hver Hnd Hres x s Hi Hx.
  destruct (Hf _ s Hi Hx) as (s' & l & Es & I & X & Hn & Hvs & Hl & Hw).
  rewrite <-Hn in Hnd, Hres. exists s', (Obj (record_from_iter l) VERSION).
  assert (∀ k w, record_from_iter l !! k = Some w → value_ok w ∧ depth_of w ≤ d) as Hok.
  { intros k w Hk%record_from_iter_lookup; [|done]. rewrite Forall_forall in Hvs. by apply (Hvs (k, w)). }
  split; [cbn -[record_from_iter]; by rewrite Es|done|done| | | |]; cbn -[record_from_iter].
  - constructor; [done|]. intros k w Hk. split; [|by apply (Hok k w)].
    apply record_from_iter_lookup in Hk; [|done]. rewrite Forall_forall in Hres.
    apply Hres, list_elem_of_fmap. by exists (k, w).
  - apply object_depth. intros k w Hk. by apply (Hok k w).
  - intros lc Hh. rewrite decide_True, (Hl lc) by (done || by intros; apply record_from_iter_lookup).
    cbn. by rewrite Hinv.
  - intros Hwx lc Hh. rewrite decide_True, (Hw Hwx lc); [cbn; by rewrite Hinv|done| |done].
    intros k v Hin. rewrite lookup_fmap.
    by rewrite (proj2 (record_from_iter_lookup l k v Hnd)).
Qed.

End laws.
