(* ===== verification/RecordTypes.v ===== *)
(** * Versioned records: the types that can be saved

    The traits [Saveable] and [Loadable] of [diskann-record] are implemented for a fixed set of
    types and for the structures that users build of them with [save_fields!], [load_fields!] and
    [Context::write].  [RType] is the syntax of these types, [RFields] that of the fields of a
    structure; [codec_of] gives the implementation that the source has for a type, so that the
    round trip of [RecordStore] is about all of them.

    - [value_of]: the values of a type; a structure is the tuple of its fields;
    - [fits], [wire]: the values that a type has, and those that survive the text;
    - [type_ok]: a structure has a version of two [u32], distinct names that are not reserved,
      and no option directly inside an option, which the source cannot tell apart;
    - [codec_of_lawful]: all implementations save and load.

    [f32] is left out: its codec is in [RecordTraits], and no law is shown for it. *)

From stdpp Require Import strings.
From S2P Require Import Prelude F32 Strings RecordValue RecordTraits.

(** [usize] is [TUnsigned 64]; [TNonZero] is for 32 and 64 bits. *)
Inductive RType : Type :=
| TBool
| TString
| THandle
| TUnsigned (bits : Z)
| TSigned (bits : Z)
| TNonZero (bits : Z)
| TF64
| TOption (t : RType)
| TVec (t : RType)
| TRecord (version : Version) (fs : RFields)
with RFields : Type :=
| NoFields
| Field (name : string) (t : RType) (fs : RFields)
| Artifact (name : string) (hint : option string) (fs : RFields).

Scheme RType_mut := Induction for RType Sort Prop
  with RFields_mut := Induction for RFields Sort Prop.
Combined Scheme RType_RFields_ind from RType_mut, RFields_mut.

(** An artifact is a byte string. *)
Fixpoint value_of (t : RType) : Type :=
  match t with
  | TBool => bool
  | TString | THandle => string
  | TUnsigned _ | TSigned _ | TNonZero _ => Z
  | TF64 => f64
  | TOption t => option (value_of t)
  | TVec t => list (value_of t)
  | TRecord _ fs => values_of fs
  end
with values_of (fs : RFields) : Type :=
  match fs with
  | NoFields => unit
  | Field _ t fs => value_of t * values_of fs
  | Artifact _ _ fs => list Z * values_of fs
  end.

(** ** The implementations *)

Section codec_of.
Context {S L : Type} `{RecordContext S L}.

Fixpoint codec_of (t : RType) : Codec S L (value_of t) :=
  match t with
  | TBool => bool_codec
  | TString => string_codec
  | THandle => handle_codec
  | TUnsigned bits => unsigned_codec (2 ^ bits - 1)
  | TSigned bits => signed_codec (- 2 ^ (bits - 1)) (2 ^ (bits - 1) - 1)
  | TNonZero bits => nonzero_codec (2 ^ bits - 1)
  | TF64 => f64_codec
  | TOption t => option_codec (codec_of t)
  | TVec t => vec_codec (codec_of t)
  | TRecord version fs =>
      record_codec version (fields_codec fs) id id (λ _ _ _, Err (KindError UnknownVersion))
  end
with fields_codec (fs : RFields) : Fields S L (values_of fs) :=
  match fs with
  | NoFields => no_fields
  | Field name t fs => add_field name (codec_of t) (fields_codec fs)
  | Artifact name hint fs => add_artifact name hint (fields_codec fs)
  end.

End codec_of.

(** ** Well-formed types and values *)

Fixpoint field_names (fs : RFields) : list string :=
  match fs with
  | NoFields => []
  | Field name _ fs => name :: field_names fs
  | Artifact name _ fs => field_names fs ++ [name]
  end.

Definition is_option (t : RType) : bool := match t with TOption _ => true | _ => false end.

Fixpoint type_ok (t : RType) : Prop :=
  match t with
  | TOption t => is_option t = false ∧ type_ok t
  | TVec t => type_ok t
  | TRecord version fs => version_ok version ∧ NoDup (field_names fs) ∧ fields_ok fs
  | _ => True
  end
with fields_ok (fs : RFields) : Prop :=
  match fs with
  | NoFields => True
  | Field name t fs => is_reserved name = false ∧ type_ok t ∧ fields_ok fs
  | Artifact name _ fs => is_reserved name = false ∧ fields_ok fs
  end.

(** Do all hints of artifacts satisfy [P]? *)
Fixpoint hints_ok (P : option string → Prop) (t : RType) : Prop :=
  match t with
  | TOption t | TVec t => hints_ok P t
  | TRecord _ fs => field_hints_ok P fs
  | _ => True
  end
with field_hints_ok (P : option string → Prop) (fs : RFields) : Prop :=
  match fs with
  | NoFields => True
  | Field _ t fs => hints_ok P t ∧ field_hints_ok P fs
  | Artifact _ hint fs => P hint ∧ field_hints_ok P fs
  end.

Lemma hints_ok_true :
  (∀ t, hints_ok (λ _, True) t) ∧ (∀ fs, field_hints_ok (λ _, True) fs).
Proof. by apply RType_RFields_ind; cbn. Qed.

(** The nesting of the manifest. *)
Fixpoint type_depth (t : RType) : nat :=
  match t with
  | THandle => 1
  | TOption t => type_depth t
  | TVec t => 1 + type_depth t
  | TRecord _ fs => 1 + fields_depth fs
  | _ => 0
  end
with fields_depth (fs : RFields) : nat :=
  match fs with
  | NoFields => 0
  | Field _ t fs => Nat.max (type_depth t) (fields_depth fs)
  | Artifact _ _ fs => Nat.max 1 (fields_depth fs)
  end.

(** Integers are in the range of their type. *)
Fixpoint fits (t : RType) : value_of t → Prop :=
  match t with
  | TUnsigned bits => λ x, (0 ≤ x ≤ 2 ^ bits - 1)%Z
  | TSigned bits => λ x, (- 2 ^ (bits - 1) ≤ x ≤ 2 ^ (bits - 1) - 1)%Z
  | TNonZero bits => λ x, (0 < x ≤ 2 ^ bits - 1)%Z
  | TOption t => λ o, ∀ x, o = Some x → fits t x
  | TVec t => Forall (fits t)
  | TRecord _ fs => fields_fit fs
  | _ => λ _, True
  end
with fields_fit (fs : RFields) : values_of fs → Prop :=
  match fs with
  | NoFields => λ _, True
  | Field _ t fs => λ x, fits t x.1 ∧ fields_fit fs x.2
  | Artifact _ _ fs => λ x, fields_fit fs x.2
  end.

(** No string is one that stands for a float, and the text layer keeps the finite floats. *)
Section wire.
Context {T : Type} `{JsonText T}.

Fixpoint wire (t : RType) : value_of t → Prop :=
  match t with
  | TString => λ x, from_sentinel x = None
  | TF64 => λ x, is_finite x = true → read_f64 x = x
  | TOption t => λ o, ∀ x, o = Some x → wire t x
  | TVec t => Forall (wire t)
  | TRecord _ fs => fields_wire fs
  | _ => λ _, True
  end
with fields_wire (fs : RFields) : values_of fs → Prop :=
  match fs with
  | NoFields => λ _, True
  | Field _ t fs => λ x, wire t x.1 ∧ fields_wire fs x.2
  | Artifact _ _ fs => λ x, fields_wire fs x.2
  end.

End wire.

(** ** All of them are lawful *)

Section laws.
Context {S L T : Type} `{JsonText T} `{RC : !RecordContext S L}.
Context {inv : S → Prop} {files : S → artifacts} {hint_ok : option string → Prop}.
Context `{CL : !ContextLaws S L inv files hint_ok}.
Variable (map_iter : ∀ {A}, gmap string A → list (string * A)).
Hypothesis (map_iter_perm : ∀ A (m : gmap string A), map_iter m ≡ₚ map_to_list m).

(** Only [None] is saved as null, and null is loaded only as [None]. *)
Lemma codec_not_null t : is_option t = false →
  (∀ x (s s' : S), c_save (codec_of (L := L) t) x s ≠ (s', Ok Null)) ∧
  (∀ x (l : L), c_load (codec_of (S := S) t) l Null ≠ Ok x).
Proof.
  destruct t as [| | |bits|bits|bits| |t|t|v fs]; intros Ht; try done; split; try (by intros ? ? ? [=]);
    try (by intros ? ? [=]).
  - intros xs s s'. cbn. by destruct (save_all _ _ _) as [? [|]].
  - intros x s s'. cbn. by destruct (f_save _ _ _) as [? [|]].
Qed.

Lemma fields_codec_names fs : f_names (fields_codec (S := S) (L := L) fs) = field_names fs.
Proof. induction fs as [|name t fs IH|name hint fs IH]; cbn; by rewrite ?IH. Qed.

Lemma fields_ok_reserved fs : fields_ok fs → Forall (λ k, is_reserved k = false) (field_names fs).
Proof.
  induction fs as [|name t fs IH|name hint fs IH]; cbn; [constructor| |].
  - intros (? & _ & ?). by constructor; [|apply IH].
  - intros (? & ?). apply Forall_app. split; [by apply IH|by apply Forall_singleton].
Qed.

Lemma codecs_lawful :
  (∀ t, type_ok t → hints_ok hint_ok t →
     lawful (inv := inv) (files := files) (T := T) (@map_iter) (codec_of t) (fits t)
       (wire (T := T) t) (type_depth t)) ∧
  (∀ fs, fields_ok fs → field_hints_ok hint_ok fs →
     fields_lawful (inv := inv) (files := files) (T := T) (@map_iter) (fields_codec fs)
       (fields_fit fs) (fields_wire (T := T) fs) (fields_depth fs)).
Proof using All.
  apply RType_RFields_ind; cbn [type_ok hints_ok fields_ok field_hints_ok].
  - intros _ _. apply bool_lawful.
  - intros _ _. apply string_lawful.
  - intros _ _. apply handle_lawful.
  - intros bits _ _. apply unsigned_lawful.
  - intros bits _ _. apply signed_lawful.
  - intros bits _ _. apply nonzero_lawful.
  - intros _ _. apply f64_lawful.
  - intros t IH [Ho Ht] Hh. destruct (codec_not_null t Ho). by apply option_lawful; [apply IH|..].
  - intros t IH Ht Hh. by apply vec_lawful, IH.
  - intros version fs IH (Hv & Hnd & Hfs) Hh.
    apply (record_lawful (@map_iter) map_iter_perm version (fields_codec fs) id id); [by apply IH|done|done|..];
      rewrite fields_codec_names; [done|by apply fields_ok_reserved].
  - intros _ _. apply no_fields_lawful.
  - intros name t IHt fs IH (_ & Ht & Hfs) [Hh Hhs]. by apply add_field_lawful; [apply IHt|apply IH].
  - intros name hint fs IH (Hr & Hfs) [Hh Hhs]. by apply add_artifact_lawful; [..|apply IH].
Qed.

Lemma codec_of_lawful t : type_ok t → hints_ok hint_ok t →
  lawful (inv := inv) (files := files) (T := T) (@map_iter) (codec_of t) (fits t)
    (wire (T := T) t) (type_depth t).
Proof using All. apply codecs_lawful. Qed.

End laws.
