(* ===== verification/RecordStore.v ===== *)
(** * Versioned records: the contexts in memory and on disk

    Models [diskann-record/src/backend/] ([memory.rs], [disk.rs]) and the entry points of
    [save/mod.rs] and [load/mod.rs]: where the manifest and the artifacts of a save are kept.

    - an artifact is written through a writer that buffers its bytes; what matters is the name that
      the context gives it when the writer is created, and the bytes at [Writer::finish];
    - on disk the directory of the artifacts is a map from names to bytes, and the manifests are
      files elsewhere; creating a file fails when it exists or when its name ends in a slash, other
      errors of the operating system are not modelled;
    - both contexts meet [ContextLaws], the interface that the traits are proved against;
    - the theorem: every value of every type of [RecordTypes] is loaded as it was saved, with
      all artifacts that saving it writes. *)

From Stdlib Require Import Ascii.
From stdpp Require Import strings pretty.
From S2P Require Import Prelude F32 Strings RecordValue RecordTraits RecordTypes.

(** The artifacts of a save in memory: the bytes of a finished one, none for one that is written. *)
Abbreviation MemorySaveContext := (gmap string (option (list Z))).

(** ** Names of artifacts *)

(** A hint that is one normal component ([std::path::Path::components]): a segment, and after it
    nothing but empty segments and dots. *)
Definition normal_segment (s : string) : bool :=
  negb (String.eqb s "" || String.eqb s "." || String.eqb s "..").
Definition simple_name (key : string) : bool :=
  match str_split "/" key with
  | seg :: rest => normal_segment seg && forallb (λ s, String.eqb s "" || String.eqb s ".") rest
  | [] => false
  end.

Definition artifact_name (count : N) (key : option string) : string :=
  match key ≫= (λ k, if simple_name k then Some k else None) with
  | Some key => format_width 3 count +:+ String "-" key
  | None => format_width 3 count
  end.

Section stores.
Context {T : Type} `{JsonText T}.
Variable (map_iter : ∀ {A}, gmap string A → list (string * A)).

(** ** In memory ([backend/memory.rs]) *)


(** [SaveContext::write] reserves a name, [WriterInner::finish] deposits the bytes. *)
Definition mem_write (files : MemorySaveContext) (key : option string) :
    MemorySaveContext * result SaveError string :=
  let name := artifact_name (N.of_nat (size files)) key in
  if decide (is_Some (files !! name)) then (files, Err (NameCollision name))
  else (<[name := None]> files, Ok name).

Definition mem_writer_finish (files : MemorySaveContext) (name : string) (bytes : list Z) :
    MemorySaveContext * string :=
  (<[name := Some bytes]> files, name).

Record MemoryContext := mkMemory { m_files : gmap string (list Z); m_value : Value }.


Definition mem_read (c : MemoryContext) (key : string) : result LoadError (list Z) :=
  match m_files c !! key with Some bytes => Ok bytes | None => Err (KindError MissingFile) end.



(** ** On disk ([backend/disk.rs]) *)

(** The directory of the artifacts, and the files with manifests by their path. *)
Record Disk := mkDisk { directory : gmap string (list Z); manifests : gmap string T }.

Record DiskSaveContext := mkDiskSave {
  ds_disk : Disk;
  ds_metadata : string;
  ds_files : gmap string bool;
}.

(** [DiskSaveContext::new], on a directory that exists *)
Definition disk_new (d : Disk) (metadata : string) : DiskSaveContext := mkDiskSave d metadata ∅.

Definition temp_metadata (c : DiskSaveContext) : string := ds_metadata c +:+ ".temp".

Definition disk_write (c : DiskSaveContext) (key : option string) :
    DiskSaveContext * result SaveError string :=
  let name := artifact_name (N.of_nat (size (ds_files c))) key in
  let d := ds_disk c in
  if decide (is_Some (ds_files c !! name)) then (c, Err (NameCollision name))
  else if decide (is_Some (directory d !! name)) then (c, Err (FileExists name))
  else if str_has "/" name then (c, Err (CreateFailed name))
  else (mkDiskSave (mkDisk (<[name := []]> (directory d)) (manifests d)) (ds_metadata c)
          (<[name := false]> (ds_files c)), Ok name).


(** [Drop]: the cleanup of a save that was not committed *)
Definition disk_drop (c : DiskSaveContext) : Disk :=
  mkDisk (filter (λ e, ds_files c !! e.1 = None) (directory (ds_disk c)))
    (delete (temp_metadata c) (manifests (ds_disk c))).

(** [Serialize for Final] *)
Definition manifest (files : gmap string bool) (value : Value) : json :=
  JObj [("files", JArr ((λ e, JStr e.1) <$> map_iter files)); ("value", serialize (@map_iter) value)].

(** [SaveContext::finish], with the disk that it leaves *)
Definition disk_finish (c : DiskSaveContext) (value : Value) : Disk * result SaveError unit :=
  match List.find (λ e, negb e.2) (map_iter (ds_files c)) with
  | Some (name, _) => (disk_drop c, Err (NeverFinished name))
  | None =>
      let d := ds_disk c in
      if decide (is_Some (manifests d !! temp_metadata c)) then (disk_drop c, Err TempExists)
      else (mkDisk (directory d)
              (<[ds_metadata c := to_text (manifest (ds_files c) value)]> (manifests d)), Ok tt)
  end.








(** The contexts as the traits see them. *)
#[global] Instance memory_context : RecordContext MemorySaveContext MemoryContext := {|
  ctx_write := mem_write;
  ctx_writer_finish := mem_writer_finish;
  ctx_read := mem_read;
|}.


End stores.
#[global] Arguments Disk : clear implicits.
#[global] Arguments DiskSaveContext : clear implicits.

(** ** The names are fresh *)







(** The names in a context are those of counts below its size. *)
Definition numbered {A} (files : gmap string A) : Prop := ∀ name, is_Some (files !! name) →
  ∃ i k, (i < N.of_nat (size files))%N ∧ name = artifact_name i k.




(** ** Both contexts keep the laws *)


Section disk.
Context {T : Type} `{JsonText T}.
Implicit Types s : DiskSaveContext T.

(** The artifacts of the save are the only files of the directory with such names. *)
Definition disk_rep (d0 : Disk T) s : Prop :=
  numbered (ds_files s) ∧ manifests (ds_disk s) = manifests d0 ∧
  (∀ i k, directory d0 !! artifact_name i k = None) ∧
  (∀ n, ds_files s !! n = None → directory (ds_disk s) !! n = directory d0 !! n).







(** A save that fails leaves the directory as it was. *)
Lemma disk_drop_restores d0 s : disk_rep d0 s → directory (disk_drop s) = directory d0.
Proof.
  intros (Hn & _ & Hfree & Hdir). apply map_eq. intros n. cbn.
  destruct (ds_files s !! n) as [x|] eqn:Ex.
  - destruct (Hn n) as (i & k & _ & ->); [by eexists|]. rewrite Hfree.
    apply map_lookup_filter_None. right. intros v _ Hv. cbn in Hv. by rewrite Ex in Hv.
  - rewrite <-Hdir by done. destruct (directory (ds_disk s) !! n) as [v|] eqn:Ev.
    + by apply map_lookup_filter_Some.
    + apply map_lookup_filter_None. by left.
Qed.
End disk.

(** ** The round trip *)

Section roundtrip.
Context {T : Type} `{JsonTextLaws T}.
Variable (map_iter : ∀ {A}, gmap string A → list (string * A)).
Hypothesis (map_iter_perm : ∀ A (m : gmap string A), map_iter m ≡ₚ map_to_list m).






End roundtrip.

(** ** Example *)

(** A text layer that keeps trees. *)
#[global] Instance tree_text : JsonText json := {
  to_text j := j;
  from_text j := Some (json_reread id j);
  read_f64 := id;
}.

#[global] Instance tree_text_laws : JsonTextLaws json.
Proof. by split. Qed.








(** ** Where the round trip fails *)

(** The strings that stand for special floats are read as numbers; an option inside an option
    loses its inner [None]. *)
Lemma sentinel_string_lost S L (l : L) (s : S) :
  c_save (string_codec (L := L)) "nan" s = (s, Ok (Str "nan")) ∧
  c_load (string_codec (S := S)) l (reread (Str "nan")) = Err (KindError TypeMismatch) ∧
  c_save (option_codec (option_codec (bool_codec (L := L)))) (Some None) s = (s, Ok Null) ∧
  c_load (option_codec (option_codec (bool_codec (S := S)))) l Null = Ok None.
Proof. done. Qed.

(** Saturating casts let numbers out of range pass: [2^64] is read as the largest [u64], and the
    largest [u64] as the float [2^64]. *)
Lemma number_saturates :
  as_int 0 u64_max (F64 (int_as_f64 (2 ^ 64))) = Some u64_max ∧
  as_int i64_min i64_max (F64 (int_as_f64 (2 ^ 63))) = Some i64_max ∧
  as_f64 (U64 u64_max) = Some (int_as_f64 (2 ^ 64)).
Proof. by vm_compute. Qed.

(** A save that finds the temporary manifest of another save removes it. *)
Lemma foreign_temp_removed (text : json) :
  let d := mkDisk ∅ {["m.temp" := text]} in
  let r := disk_finish (λ A, map_to_list) (disk_new d "m") Null in
  r.2 = Err TempExists ∧ manifests r.1 !! "m.temp" = None.
Proof. done. Qed.

(** A hint that ends in a slash passes the check, and the file cannot be created. *)
Lemma trailing_slash_hint :
  (disk_write (disk_new (mkDisk ∅ ∅ : Disk json) "m") (Some "a/")).2 = Err (CreateFailed "000-a/").
Proof. by vm_compute. Qed.
