(* ===== verification/Fsm.v ===== *)
(** * The free-space map of the Garnet backend ([diskann-garnet/src/fsm.rs])

    - Sections [setters], [perform], [operations] and [visit]: the operations, written as
      programs over the atomic actions of the source: one action per access of an atomic
      variable, of the queue, of a lock or of the Garnet store (whose single operations are
      atomic, [diskann-garnet/src/garnet.rs]).
      The same programs are run alone ([run]) and interleaved ([FsmSafety]).
    - The store is a parameter: the class [GarnetStore] has its operations, [GarnetLaws] what
      is documented of them, [GarnetReliable] that they do not fail.

    A panic drops the guards that are held: a write guard or a mutex is poisoned, and so every
    later [unwrap] of that lock panics too ([unwind]).  Under [debug] arithmetic that overflows
    panics, otherwise it wraps around.  The retry loop of [next_id] has fuel. *)

From S2P Require Import Prelude.
Local Open Scope Z_scope.

(** ** Bits and blocks *)

Abbreviation bytes := (list Z) (only parsing).
Definition u32_MAX : Z := 2 ^ 32 - 1.
Definition BLOCK_SIZE_IDS : Z := 65536.
Definition BLOCK_SIZE_BYTES : Z := BLOCK_SIZE_IDS / 8.
Definition FAST_SIZE : nat := 1024.
(** [u32::from_be_bytes( *b"_fsm")]. *)
Definition FSM_KEY_PREFIX : Z := 0x5f66736d.

Definition bit_used (byte bidx : Z) : bool := Z.land (Z.shiftr byte (7 - bidx)) 1 =? 1.

Definition update_status (used : bool) (byte bidx : Z) : bool * Z :=
  let mask := Z.shiftl 1 (7 - bidx) in
  let value := Z.shiftl (Z.b2z used) (7 - bidx) in
  let changed := (used && (Z.land byte mask =? 0)) || (negb used && negb (Z.land byte mask =? 0)) in
  (changed, Z.lor (Z.land byte (Z.lxor mask 255)) value).

Definition indexes_for_id (id : Z) : Z * Z * Z :=
  let block_id := id / BLOCK_SIZE_IDS in
  let block_idx := id mod BLOCK_SIZE_IDS in
  (block_id, block_idx / 8, block_idx mod 8).

Definition block_key (block_id : Z) : Z := Z.lor (Z.shiftl block_id 32) FSM_KEY_PREFIX.

Inductive GarnetError := GarnetRead | GarnetWrite.
Inductive FsmError := Garnet (e : GarnetError) | IdOutOfRange (id : Z).

(** Arithmetic on [u32] and on the [usize] counter: a debug build panics on overflow. *)
Definition u32_add (debug : bool) (x y : Z) : option Z :=
  if x + y <? 2 ^ 32 then Some (x + y) else if debug then None else Some ((x + y) mod 2 ^ 32).
Definition u32_mul (debug : bool) (x y : Z) : option Z :=
  if x * y <? 2 ^ 32 then Some (x * y) else if debug then None else Some ((x * y) mod 2 ^ 32).
Definition u32_sub (debug : bool) (x y : Z) : option Z :=
  if y <=? x then Some (x - y) else if debug then None else Some ((x - y) mod 2 ^ 32).

(** ** The Garnet store *)

(** The answer of a read-modify-write: the closure did not return (its panic aborts the process),
    the operation failed, or it is done and the closure returned [b]. *)
Inductive rmw_answer := RmwAborted | RmwFailed | RmwDone (b : bool).

Class GarnetStore (G : Type) := {
  g_read : G → Z → option bytes * G;
  g_write : G → Z → bytes → bool * G;
  g_rmw : G → Z → nat → (bytes → option (bool * bytes)) → rmw_answer * G;
  contents : G → gmap Z bytes;
}.

(** What the callbacks promise: a read delivers the value of the key, a write or a
    read-modify-write takes effect as a whole or, when it fails, not at all; a missing value is
    modified from zeros. *)
Class GarnetLaws (G : Type) `{GarnetStore G} : Prop := {
  read_contents g k r g' : g_read g k = (r, g') →
    contents g' = contents g ∧ ∀ v, r = Some v → contents g !! k = Some v;
  write_contents g k v ok g' : g_write g k v = (ok, g') →
    contents g' = if ok then <[k:=v]> (contents g) else contents g;
  rmw_contents g k len f a g' : g_rmw g k len f = (a, g') →
    match a, f (default (replicate len 0) (contents g !! k)) with
    | RmwDone b, Some (b', v) => b = b' ∧ contents g' = <[k:=v]> (contents g)
    | RmwFailed, _ | RmwAborted, None => contents g' = contents g
    | _, _ => False
    end;
}.

Class GarnetReliable (G : Type) `{GarnetStore G} : Prop := {
  read_ok g k v : contents g !! k = Some v → (g_read g k).1 = Some v;
  write_ok g k v : (g_write g k v).1 = true;
  rmw_ok g k len f r : f (default (replicate len 0) (contents g !! k)) = Some r →
    (g_rmw g k len f).1 = RmwDone r.1;
}.

(** ** State *)

Record Barrier := mkBarrier { max_id_for_backfill : Z; quantization_enabled : bool }.
Record IdMinter := mkMinter { next_id : Z; max_block : Z; buffer : bytes }.

Inductive lock := Unlocked | Locked | Poisoned.

(** [fast_free_list] is crossbeam's [ArrayQueue]; [readers] counts the read guards of
    [barrier]; the read guards of [id_minter] live for one access. *)
Record FreeSpaceMap (G : Type) := mkFsm {
  callbacks : G;
  has_free_ids : bool;
  fast_free_list : list Z;
  id_minter : IdMinter;
  minter_lock : lock;
  total_used : Z;
  reuse_enabled : bool;
  barrier : Barrier;
  readers : nat;
  barrier_lock : lock;
  refill_lock : lock;
}.
Arguments mkFsm {G}. Arguments callbacks {G}. Arguments has_free_ids {G}.
Arguments fast_free_list {G}. Arguments id_minter {G}. Arguments minter_lock {G}.
Arguments total_used {G}. Arguments reuse_enabled {G}. Arguments barrier {G}.
Arguments readers {G}. Arguments barrier_lock {G}. Arguments refill_lock {G}.

Section setters.
Context {G : Type}.

Definition set_callbacks (x : G) (s : FreeSpaceMap G) : FreeSpaceMap G :=
  mkFsm x (has_free_ids s) (fast_free_list s) (id_minter s) (minter_lock s) (total_used s)
    (reuse_enabled s) (barrier s) (readers s) (barrier_lock s) (refill_lock s).
Definition set_free (x : bool) (s : FreeSpaceMap G) : FreeSpaceMap G :=
  mkFsm (callbacks s) x (fast_free_list s) (id_minter s) (minter_lock s) (total_used s)
    (reuse_enabled s) (barrier s) (readers s) (barrier_lock s) (refill_lock s).
Definition set_list (x : list Z) (s : FreeSpaceMap G) : FreeSpaceMap G :=
  mkFsm (callbacks s) (has_free_ids s) x (id_minter s) (minter_lock s) (total_used s)
    (reuse_enabled s) (barrier s) (readers s) (barrier_lock s) (refill_lock s).
Definition set_minter (x : IdMinter) (s : FreeSpaceMap G) : FreeSpaceMap G :=
  mkFsm (callbacks s) (has_free_ids s) (fast_free_list s) x (minter_lock s) (total_used s)
    (reuse_enabled s) (barrier s) (readers s) (barrier_lock s) (refill_lock s).
Definition set_minter_lock (x : lock) (s : FreeSpaceMap G) : FreeSpaceMap G :=
  mkFsm (callbacks s) (has_free_ids s) (fast_free_list s) (id_minter s) x (total_used s)
    (reuse_enabled s) (barrier s) (readers s) (barrier_lock s) (refill_lock s).
Definition set_used (x : Z) (s : FreeSpaceMap G) : FreeSpaceMap G :=
  mkFsm (callbacks s) (has_free_ids s) (fast_free_list s) (id_minter s) (minter_lock s) x
    (reuse_enabled s) (barrier s) (readers s) (barrier_lock s) (refill_lock s).
Definition set_reuse (x : bool) (s : FreeSpaceMap G) : FreeSpaceMap G :=
  mkFsm (callbacks s) (has_free_ids s) (fast_free_list s) (id_minter s) (minter_lock s)
    (total_used s) x (barrier s) (readers s) (barrier_lock s) (refill_lock s).
Definition set_barrier (x : Barrier) (s : FreeSpaceMap G) : FreeSpaceMap G :=
  mkFsm (callbacks s) (has_free_ids s) (fast_free_list s) (id_minter s) (minter_lock s)
    (total_used s) (reuse_enabled s) x (readers s) (barrier_lock s) (refill_lock s).
Definition set_readers (x : nat) (s : FreeSpaceMap G) : FreeSpaceMap G :=
  mkFsm (callbacks s) (has_free_ids s) (fast_free_list s) (id_minter s) (minter_lock s)
    (total_used s) (reuse_enabled s) (barrier s) x (barrier_lock s) (refill_lock s).
Definition set_barrier_lock (x : lock) (s : FreeSpaceMap G) : FreeSpaceMap G :=
  mkFsm (callbacks s) (has_free_ids s) (fast_free_list s) (id_minter s) (minter_lock s)
    (total_used s) (reuse_enabled s) (barrier s) (readers s) x (refill_lock s).
Definition set_refill_lock (x : lock) (s : FreeSpaceMap G) : FreeSpaceMap G :=
  mkFsm (callbacks s) (has_free_ids s) (fast_free_list s) (id_minter s) (minter_lock s)
    (total_used s) (reuse_enabled s) (barrier s) (readers s) (barrier_lock s) x.
End setters.

(** ** Atomic actions *)

Inductive call :=
| LoadReuse | StoreReuse (b : bool)
| LoadFree | StoreFree (b : bool)
| Push (id : Z) | Pop | ListEmpty
| FetchAddUsed | FetchSubUsed | LoadUsed | StoreUsed (n : Z)
| ReadMinter | LockMinter | SetMinter (m : IdMinter) | UnlockMinter | PoisonMinter
| ReadBarrier | UnreadBarrier | LockBarrier | SetBarrier (b : Barrier) | UnlockBarrier | PoisonBarrier
| LockRefill | UnlockRefill | PoisonRefill
| GRead (key : Z) | GWrite (key : Z) (value : bytes)
| GRmw (key : Z) (len : nat) (f : bytes → option (bool * bytes)).

(** What an action returns.  The acquisition of a lock returns [None] when it is poisoned. *)
Definition answer (c : call) : Type :=
  match c with
  | LoadReuse | LoadFree | Push _ | ListEmpty | GWrite _ _ | LockBarrier | LockRefill => bool
  | Pop => option Z
  | LoadUsed => Z
  | ReadMinter | LockMinter => option IdMinter
  | ReadBarrier => option Barrier
  | GRead _ => option bytes
  | GRmw _ _ _ => rmw_answer
  | _ => unit
  end.

Definition usize_wrap (n : Z) : Z := n mod 2 ^ 64.

Section perform.
Context {G : Type} `{GarnetStore G}.

(** Takes a lock that is free, or reports that it is poisoned; [None] when the caller waits. *)
Definition acquire {A} (l : lock) (poisoned taken : A) : option A :=
  match l with Unlocked => Some taken | Poisoned => Some poisoned | Locked => None end.

(** One action on the shared state; [None] when it has to wait for a lock. *)
Definition perform (c : call) (s : FreeSpaceMap G) : option (answer c * FreeSpaceMap G) :=
  match c with
  | LoadReuse => Some (reuse_enabled s, s)
  | StoreReuse b => Some (tt, set_reuse b s)
  | LoadFree => Some (has_free_ids s, s)
  | StoreFree b => Some (tt, set_free b s)
  | Push id =>
      if (length (fast_free_list s) <? FAST_SIZE)%nat
      then Some (true, set_list (fast_free_list s ++ [id]) s)
      else Some (false, s)
  | Pop =>
      match fast_free_list s with
      | [] => Some (None, s)
      | id :: l => Some (Some id, set_list l s)
      end
  | ListEmpty => Some (match fast_free_list s with [] => true | _ => false end, s)
  | FetchAddUsed => Some (tt, set_used (usize_wrap (total_used s + 1)) s)
  | FetchSubUsed => Some (tt, set_used (usize_wrap (total_used s - 1)) s)
  | LoadUsed => Some (total_used s, s)
  | StoreUsed n => Some (tt, set_used n s)
  | ReadMinter => acquire (minter_lock s) (None, s) (Some (id_minter s), s)
  | LockMinter => acquire (minter_lock s) (None, s) (Some (id_minter s), set_minter_lock Locked s)
  | SetMinter m => Some (tt, set_minter m s)
  | UnlockMinter => Some (tt, set_minter_lock Unlocked s)
  | PoisonMinter => Some (tt, set_minter_lock Poisoned s)
  | ReadBarrier =>
      acquire (barrier_lock s) (None, s) (Some (barrier s), set_readers (S (readers s)) s)
  | UnreadBarrier => Some (tt, set_readers (pred (readers s)) s)
  | LockBarrier =>
      if (readers s =? 0)%nat then acquire (barrier_lock s) (false, s) (true, set_barrier_lock Locked s)
      else None
  | SetBarrier b => Some (tt, set_barrier b s)
  | UnlockBarrier => Some (tt, set_barrier_lock Unlocked s)
  | PoisonBarrier => Some (tt, set_barrier_lock Poisoned s)
  | LockRefill => acquire (refill_lock s) (false, s) (true, set_refill_lock Locked s)
  | UnlockRefill => Some (tt, set_refill_lock Unlocked s)
  | PoisonRefill => Some (tt, set_refill_lock Poisoned s)
  | GRead key => let '(r, g) := g_read (callbacks s) key in Some (r, set_callbacks g s)
  | GWrite key v => let '(ok, g) := g_write (callbacks s) key v in Some (ok, set_callbacks g s)
  | GRmw key len f => let '(a, g) := g_rmw (callbacks s) key len f in Some (a, set_callbacks g s)
  end.
End perform.

(** ** Programs *)

(** A program performs actions and continues with their answers, until it returns or panics;
    [Spin] marks a loop that has used up its fuel. *)
Inductive prog (A : Type) :=
| Ret (a : A)
| Panic
| Spin
| Act (c : call) (k : answer c → prog A).
Arguments Ret {A}. Arguments Panic {A}. Arguments Spin {A}. Arguments Act {A}.

Fixpoint prog_bind {A B} (f : A → prog B) (p : prog A) : prog B :=
  match p with
  | Ret a => f a
  | Panic => Panic
  | Spin => Spin
  | Act c k => Act c (λ r, prog_bind f (k r))
  end.
#[export] Instance prog_mbind : MBind prog := λ A B, @prog_bind A B.

Definition act (c : call) : prog (answer c) := Act c Ret.

(** [unwrap] of a value that panics when it is missing. *)
Definition unwrap {A} (o : option A) : prog A := match o with Some a => Ret a | None => Panic end.

(** Runs [cleanup] when [p] panics: the drop of the guards in scope. *)
Fixpoint unwind {A} (cleanup : call) (p : prog A) : prog A :=
  match p with
  | Ret a => Ret a
  | Panic => Act cleanup (λ _, Panic)
  | Spin => Spin
  | Act c k => Act c (λ r, unwind cleanup (k r))
  end.

(** The operator [?]. *)
Definition try_bind {A B} (p : prog (result FsmError A)) (f : A → prog (result FsmError B)) :
    prog (result FsmError B) :=
  r ← p; match r with Ok a => f a | Err e => Ret (Err e) end.
Declare Scope prog_scope.
Notation "'let?' x := m 'in' k" := (try_bind m (λ x, k))
  (at level 10, x pattern, m at level 200, k at level 200) : prog_scope.
Local Open Scope prog_scope.

(** The fate of a program that runs alone. *)
Inductive outcome (A : Type) := Returned (a : A) | Panicked | Spinning | Deadlock.
Arguments Returned {A}. Arguments Panicked {A}. Arguments Spinning {A}. Arguments Deadlock {A}.

Fixpoint run {G A} `{GarnetStore G} (p : prog A) (s : FreeSpaceMap G) : outcome A * FreeSpaceMap G :=
  match p with
  | Ret a => (Returned a, s)
  | Panic => (Panicked, s)
  | Spin => (Spinning, s)
  | Act c k => match perform c s with
               | Some (r, s') => run (k r) s'
               | None => (Deadlock, s)
               end
  end.

(** ** Operations *)
Section operations.
Context (debug : bool).

(** [ReuseGuard]: the id, and what [should_quantize] reads under the read guard it holds. *)
Record ReuseGuard := mkGuard { guard_id : Z; should_quantize : bool }.

Definition read_minter : prog IdMinter := m ← act ReadMinter; unwrap m.

(** [id_minter.write().unwrap()] with the guard dropped after [body]. *)
Definition with_minter {A} (body : IdMinter → prog A) : prog A :=
  m ← act LockMinter;
  m ← unwrap m;
  r ← unwind PoisonMinter (body m);
  _ ← act UnlockMinter;
  Ret r.

(** [Callbacks::exists_wid] and [Callbacks::read_single_wid]; the copy of the value panics when
    it has another length than the block. *)
Definition exists_wid (key : Z) : prog bool :=
  r ← act (GRead key); Ret (match r with Some _ => true | None => false end).
Definition read_single_wid (key : Z) : prog (option bytes) :=
  r ← act (GRead key);
  match r with
  | None => Ret None
  | Some v => if Z.of_nat (length v) =? BLOCK_SIZE_BYTES then Ret (Some v) else Panic
  end.

(** The closure that [mark_id_unchecked] passes to the store. *)
Definition update_block (used : bool) (byte_idx bit_idx : Z) (data : bytes) : option (bool * bytes) :=
  byte ← data !! Z.to_nat byte_idx;
  let '(changed, byte') := update_status used byte bit_idx in
  Some (changed, <[Z.to_nat byte_idx := byte']> data).

Definition mark_id_unchecked (id : Z) (used : bool) : prog (result FsmError bool) :=
  let '(block_id, byte_idx, bit_idx) := indexes_for_id id in
  a ← act (GRmw (block_key block_id) (Z.to_nat BLOCK_SIZE_BYTES) (update_block used byte_idx bit_idx));
  match a with
  | RmwAborted => Panic
  | RmwFailed => Ret (Err (Garnet GarnetWrite))
  | RmwDone changed =>
      _ ← (if changed then if used then act FetchAddUsed else act FetchSubUsed else Ret tt);
      _ ← (if negb used && changed then _ ← act (Push id); act (StoreFree true) else Ret tt);
      Ret (Ok changed)
  end.

Definition mark_id (id : Z) (used : bool) : prog (result FsmError bool) :=
  m ← read_minter;
  if next_id m <=? id then Ret (Err (IdOutOfRange id)) else mark_id_unchecked id used.

Definition mark_used (id : Z) : prog (result FsmError bool) := mark_id id true.
Definition mark_free (id : Z) : prog (result FsmError unit) :=
  let? _ := mark_id id false in Ret (Ok tt).

Definition is_free (id : Z) : prog (result FsmError bool) :=
  m ← read_minter;
  if next_id m <=? id then Ret (Err (IdOutOfRange id))
  else
    let '(block_id, byte_idx, bit_idx) := indexes_for_id id in
    if (max_block m <? block_id) || (max_block m =? u32_MAX) then Ret (Err (Garnet GarnetRead))
    else
      block ← read_single_wid (block_key block_id);
      match block with
      | None => Ret (Err (Garnet GarnetRead))
      | Some block =>
          byte ← unwrap (block !! Z.to_nat byte_idx);
          Ret (Ok (negb (bit_used byte bit_idx)))
      end.

(** *** Refilling the list *)

(** How a scan goes on after some bits: with the next id, or not at all; and whether a free id
    was found. *)
Inductive scan := Next (id : Z) (found : bool) | Stop (found : bool).
Definition scan_found (x : scan) : bool := match x with Next _ f | Stop f => f end.

Fixpoint refill_bits (next byte : Z) (bidxs : list Z) (id : Z) (found : bool) : prog scan :=
  match bidxs with
  | [] => Ret (Next id found)
  | bidx :: bidxs =>
      if next <=? id then Ret (Stop found)
      else if bit_used byte bidx then
        id ← unwrap (u32_add debug id 1);
        refill_bits next byte bidxs id found
      else
        _ ← act (StoreFree true);
        pushed ← act (Push id);
        if pushed : bool then
          id ← unwrap (u32_add debug id 1);
          refill_bits next byte bidxs id true
        else Ret (Stop true)
  end.

Definition bit_indexes : list Z := seqZ 0 8.

Fixpoint refill_bytes (next : Z) (block : bytes) (id : Z) (found : bool) : prog scan :=
  match block with
  | [] => Ret (Next id found)
  | byte :: block =>
      if next <=? id then Ret (Stop found)
      else if byte =? 255 then
        id ← unwrap (u32_add debug id 8);
        refill_bytes next block id found
      else
        r ← refill_bits next byte bit_indexes id found;
        match r with
        | Next id found => refill_bytes next block id found
        | Stop found => Ret (Stop found)
        end
  end.

Fixpoint refill_blocks (next : Z) (blocks : list Z) (id : Z) (found : bool) :
    prog (result FsmError scan) :=
  match blocks with
  | [] => Ret (Ok (Next id found))
  | block_id :: blocks =>
      if next <=? id then Ret (Ok (Stop found))
      else
        block ← read_single_wid (block_key block_id);
        match block with
        | None => Ret (Err (Garnet GarnetRead))
        | Some block =>
            r ← refill_bytes next block id found;
            match r with
            | Next id found => refill_blocks next blocks id found
            | Stop found => Ret (Ok (Stop found))
            end
        end
  end.

(** The body of [refill_fast_free_list] under its lock. *)
Definition refill_locked : prog (result FsmError bool) :=
  empty ← act ListEmpty;
  if negb empty then Ret (Ok true)
  else
    m ← read_minter;
    let? r := refill_blocks (next_id m) (seqZ 0 (max_block m + 1)) 0 false in
    if scan_found r then Ret (Ok true)
    else _ ← act (StoreFree false); Ret (Ok false).

Definition refill_fast_free_list : prog (result FsmError bool) :=
  ok ← act LockRefill;
  if ok : bool then
    r ← unwind PoisonRefill refill_locked;
    _ ← act UnlockRefill;
    Ret r
  else Panic.

(** *** Issuing ids *)

Definition expand_to (m : IdMinter) (id : Z) : prog (result FsmError unit) :=
  let '(block_id, _, _) := indexes_for_id id in
  if (max_block m =? u32_MAX) || (block_id =? max_block m + 1) then
    ok ← act (GWrite (block_key block_id) (buffer m));
    if ok : bool then
      let top := if max_block m =? u32_MAX then 0 else max_block m + 1 in
      _ ← act (SetMinter (mkMinter (next_id m) top (buffer m)));
      Ret (Ok tt)
    else Ret (Err (Garnet GarnetWrite))
  else if max_block m + 1 <? block_id then Ret (Err (IdOutOfRange id))
  else Ret (Ok tt).

(** The loop of [next_id] over freed ids: [None] when it ends without one. *)
Fixpoint reuse_loop (fuel : nat) : prog (result FsmError (option Z)) :=
  match fuel with
  | O => Spin
  | S fuel =>
      id ← act Pop;
      match id : option Z with
      | Some id =>
          let? changed := mark_used id in
          if changed : bool then Ret (Ok (Some id)) else reuse_loop fuel
      | None =>
          let? refilled := refill_fast_free_list in
          if refilled : bool then
            id ← act Pop;
            match id : option Z with
            | Some id =>
                let? changed := mark_used id in
                if changed : bool then Ret (Ok (Some id)) else reuse_loop fuel
            | None => Ret (Ok None)
            end
          else Ret (Ok None)
      end
  end.

(** The end of [next_id]: a new id, marked used. *)
Definition mint : prog (result FsmError Z) :=
  with_minter (λ m,
    let id := next_id m in
    n ← unwrap (u32_add debug id 1);
    let m := mkMinter n (max_block m) (buffer m) in
    _ ← act (SetMinter m);
    let? _ := expand_to m id in
    let? _ := mark_id_unchecked id true in
    Ret (Ok id)).

Definition reuse_or_mint (fuel : nat) : prog (result FsmError Z) :=
  reuse ← act LoadReuse;
  free ← (if reuse : bool then act LoadFree else Ret false);
  let? reused := (if free : bool then reuse_loop fuel else Ret (Ok None)) in
  match reused with
  | Some id => Ret (Ok id)
  | None => mint
  end.

(** [FreeSpaceMap::next_id]: the read guard of the barrier moves into the [ReuseGuard]. *)
Definition next_id_op (fuel : nat) : prog (result FsmError ReuseGuard) :=
  b ← act ReadBarrier;
  b ← unwrap b;
  r ← unwind UnreadBarrier (reuse_or_mint fuel);
  match r with
  | Ok id => Ret (Ok (mkGuard id (quantization_enabled b)))
  | Err e => _ ← act UnreadBarrier; Ret (Err e)
  end.

(** The drop of a [ReuseGuard]. *)
Definition drop_guard : prog unit := act UnreadBarrier.

Definition max_id : prog Z := m ← read_minter; Ret (Z.max 0 (next_id m - 1)).
Definition total_used_op : prog Z := act LoadUsed.

(** *** Quantization phases *)

Definition enable_quantization : prog unit :=
  ok ← act LockBarrier;
  if ok : bool then
    _ ← unwind PoisonBarrier (id ← max_id; act (SetBarrier (mkBarrier id true)));
    act UnlockBarrier
  else Panic.

Definition enable_reuse : prog unit := act (StoreReuse true).

Definition max_id_for_backfill_op : prog Z :=
  b ← act ReadBarrier;
  b ← unwrap b;
  _ ← act UnreadBarrier;
  Ret (max_id_for_backfill b).

(** *** Visiting the used ids *)
Section visit.
Context {B : Type} (f : B → Z → bool * B).

(** [None]: the closure asked to stop. *)
Fixpoint visit_bits (byte : Z) (bidxs : list Z) (id : Z) (b : B) : prog (option Z * B) :=
  match bidxs with
  | [] => Ret (Some id, b)
  | bidx :: bidxs =>
      let '(keep_going, b) := if bit_used byte bidx then f b id else (true, b) in
      if keep_going then id ← unwrap (u32_add debug id 1); visit_bits byte bidxs id b
      else Ret (None, b)
  end.

Fixpoint visit_bytes (block : bytes) (id : Z) (b : B) : prog (option Z * B) :=
  match block with
  | [] => Ret (Some id, b)
  | byte :: block =>
      if byte =? 0 then id ← unwrap (u32_add debug id 8); visit_bytes block id b
      else
        '(next, b) ← visit_bits byte bit_indexes id b;
        match next with Some id => visit_bytes block id b | None => Ret (None, b) end
  end.

Fixpoint visit_blocks (blocks : list Z) (id : Z) (b : B) : prog (result FsmError unit * B) :=
  match blocks with
  | [] => Ret (Ok tt, b)
  | block_id :: blocks =>
      block ← read_single_wid (block_key block_id);
      match block with
      | None => Ret (Err (Garnet GarnetRead), b)
      | Some block =>
          '(next, b) ← visit_bytes block id b;
          match next with Some id => visit_blocks blocks id b | None => Ret (Ok tt, b) end
      end
  end.

Definition visit_used (b : B) : prog (result FsmError unit * B) :=
  m ← read_minter;
  stop ← unwrap (u32_add debug (max_block m) 1);
  visit_blocks (seqZ 0 stop) 0 b.
End visit.

(** *** Construction and recovery *)

(** The search for the first block that does not exist. *)
Fixpoint count_blocks (fuel : nat) (max_block_id : Z) : prog Z :=
  match fuel with
  | O => Spin
  | S fuel =>
      there ← exists_wid (block_key max_block_id);
      if there : bool then n ← unwrap (u32_add debug max_block_id 1); count_blocks fuel n
      else Ret max_block_id
  end.

(** The variables of the scan: [last_used_id], [total_used] and [id]. *)
Record loading := mkLoading { last_used_id : Z; loaded_used : Z; load_id : Z }.

Fixpoint load_bits (byte : Z) (bidxs : list Z) (l : loading) : prog loading :=
  match bidxs with
  | [] => Ret l
  | bidx :: bidxs =>
      let id := load_id l in
      let prev := Z.max 0 (id - 1) in
      if bit_used byte bidx then
        load_bits byte bidxs (mkLoading (Z.max (last_used_id l) id) (loaded_used l + 1) prev)
      else
        _ ← (if id <? last_used_id l then _ ← act (Push id); Ret tt else Ret tt);
        load_bits byte bidxs (mkLoading (last_used_id l) (loaded_used l) prev)
  end.

Fixpoint load_bytes (block : bytes) (l : loading) : prog loading :=
  match block with
  | [] => Ret l
  | byte :: block => l ← load_bits byte (reverse bit_indexes) l; load_bytes block l
  end.

Fixpoint load_blocks (blocks : list Z) (l : loading) : prog loading :=
  match blocks with
  | [] => Ret l
  | block_id :: blocks =>
      block ← read_single_wid (block_key block_id);
      match block with
      | None => Ret l
      | Some block =>
          base ← unwrap (u32_mul debug block_id BLOCK_SIZE_IDS);
          top ← unwrap (u32_add debug base BLOCK_SIZE_IDS);
          id ← unwrap (u32_sub debug top 1);
          l ← load_bytes (reverse block) (mkLoading (last_used_id l) (loaded_used l) id);
          load_blocks blocks l
      end
  end.

Definition load_state (fuel : nat) : prog (result FsmError unit) :=
  max_block_id ← count_blocks fuel 0;
  l ← load_blocks (reverse (seqZ 0 max_block_id)) (mkLoading (-1) 0 0);
  with_minter (λ m,
    top ← unwrap (u32_sub debug max_block_id 1);
    _ ← act (SetMinter (mkMinter ((last_used_id l + 1) mod 2 ^ 32) top (buffer m)));
    _ ← act (StoreUsed (loaded_used l));
    empty ← act ListEmpty;
    _ ← (if empty : bool then Ret tt else act (StoreFree true));
    Ret (Ok tt)).

Definition init (fuel : nat) : prog (result FsmError unit) :=
  there ← exists_wid (block_key 0);
  if there : bool then load_state fuel
  else with_minter (λ m, expand_to m (indexes_for_id 0).1.1).
End operations.

(** [FreeSpaceMap::new]: the map before the state is loaded, and with it. *)
Definition fresh {G} (callbacks : G) (quantization_enabled reuse_enabled : bool) : FreeSpaceMap G :=
  mkFsm callbacks false [] (mkMinter 0 u32_MAX (replicate (Z.to_nat BLOCK_SIZE_BYTES) 0)) Unlocked 0
    reuse_enabled (mkBarrier u32_MAX quantization_enabled) 0 Unlocked Unlocked.

Definition new {G} `{GarnetStore G} (debug : bool) (fuel : nat) (callbacks : G)
    (quantization_enabled reuse_enabled : bool) :=
  run (init debug fuel) (fresh callbacks quantization_enabled reuse_enabled).

(** ** A store in memory *)

#[export] Instance memory_store : GarnetStore (gmap Z bytes) := {
  g_read g k := (g !! k, g);
  g_write g k v := (true, <[k:=v]> g);
  g_rmw g k len f :=
    match f (default (replicate len 0) (g !! k)) with
    | None => (RmwAborted, g)
    | Some (b, v) => (RmwDone b, <[k:=v]> g)
    end;
  contents g := g;
}.

#[export] Instance memory_store_laws : GarnetLaws (gmap Z bytes).
Proof.
  split; simpl; intros; simplify_eq; [by split|done|].
  repeat case_match; by simplify_eq.
Qed.

#[export] Instance memory_store_reliable : GarnetReliable (gmap Z bytes).
Proof. split; simpl; [done..|]. intros g k len f [b v] E. by rewrite E. Qed.
