(* ===== verification/FsmBlocks.v ===== *)
(** * The blocks of the free-space map as a set of ids

    [used] reads the status of an id in the contents of the store; [blocks_ok] says that every
    block has its size.  The lemmas give the effect on [used] of the two writes of [Fsm]: the
    update of one status bit and the addition of an empty block. *)

From S2P Require Import Prelude Bytes Fsm.
Local Open Scope Z_scope.

#[global] Arguments indexes_for_id : simpl never.
#[global] Arguments block_key : simpl never.
#[global] Arguments update_block : simpl never.

(** ** Status bits *)

Lemma bit_used_testbit byte i : 0 ≤ i < 8 → bit_used byte i = Z.testbit byte (7 - i).
Proof.
  intros Hi. unfold bit_used. rewrite Z.shiftr_div_pow2 by lia.
  change 1 with (Z.ones 1) at 1. rewrite Z.land_ones, <-Z.testbit_spec' by lia.
  by destruct (Z.testbit byte (7 - i)).
Qed.

Lemma land_mask byte n : 0 ≤ n → (Z.land byte (Z.shiftl 1 n) =? 0) = negb (Z.testbit byte n).
Proof.
  intros Hn. rewrite Z.shiftl_1_l. destruct (Z.testbit byte n) eqn:E; simpl.
  - apply Z.eqb_neq. intros E0. assert (Z.testbit (Z.land byte (2 ^ n)) n = false) as Hf.
    { by rewrite E0, Z.bits_0. }
    rewrite Z.land_spec, E, Z.pow2_bits_true in Hf by lia. done.
  - apply Z.eqb_eq, Z.bits_inj'. intros k Hk. rewrite Z.land_spec, Z.bits_0, Z.pow2_bits_eqb by lia.
    destruct (Z.eqb_spec n k) as [->|]; [by rewrite E|apply andb_false_r].
Qed.

Lemma update_status_changed u byte i : 0 ≤ i < 8 →
  (update_status u byte i).1 = negb (eqb (bit_used byte i) u).
Proof.
  intros Hi. unfold update_status. simpl. rewrite land_mask, bit_used_testbit by lia.
  by destruct u, (Z.testbit byte (7 - i)).
Qed.

Lemma testbit_b2z u d : Z.testbit (Z.b2z u) d = if decide (d = 0) then u else false.
Proof.
  case_decide as E; [subst d; by destruct u|].
  destruct (decide (d < 0)); [by apply Z.testbit_neg_r|].
  apply Z.bits_above_log2; [by destruct u|destruct u; simpl; lia].
Qed.

Lemma update_status_bit u byte i j : 0 ≤ i < 8 → 0 ≤ j < 8 →
  bit_used (update_status u byte i).2 j = if decide (j = i) then u else bit_used byte j.
Proof.
  intros Hi Hj. unfold update_status. simpl. rewrite !bit_used_testbit by lia.
  rewrite Z.lor_spec, Z.land_spec, Z.lxor_spec, !Z.shiftl_spec by lia.
  change 255 with (Z.ones 8). rewrite Z.ones_spec_low by lia.
  change 1 with (Z.b2z true). rewrite !testbit_b2z. repeat case_decide; try lia.
  - by rewrite andb_false_r.
  - by rewrite orb_false_r, andb_true_r.
Qed.

Lemma update_status_byte u byte i : 0 ≤ i < 8 → byte_ok byte → byte_ok (update_status u byte i).2.
Proof.
  intros Hi Hb. unfold update_status, byte_ok. simpl. change 256 with (2 ^ 8). apply lor_bound; [lia|..].
  - rewrite Z.land_comm. by apply land_bound.
  - rewrite Z.shiftl_mul_pow2 by lia.
    assert (2 ^ (7 - i) ≤ 2 ^ 7) by (apply Z.pow_le_mono_r; lia).
    assert (0 < 2 ^ (7 - i)) by (apply Z.pow_pos_nonneg; lia).
    destruct u; simpl Z.b2z; lia.
Qed.

(** ** The ids in use *)

(** The status of [id] in the contents [c] of the store; a missing block has no used ids. *)
Definition used (c : gmap Z (list Z)) (id : Z) : bool :=
  let '(block_id, byte_idx, bit_idx) := indexes_for_id id in
  match c !! block_key block_id ≫= (.!! Z.to_nat byte_idx) with
  | Some byte => bit_used byte bit_idx
  | None => false
  end.

Definition block_ok (v : list Z) : Prop := Z.of_nat (length v) = BLOCK_SIZE_BYTES ∧ bytes_ok v.
Definition blocks_ok (c : gmap Z (list Z)) : Prop :=
  ∀ b v, c !! block_key b = Some v → block_ok v.
Definition empty_block : list Z := replicate (Z.to_nat BLOCK_SIZE_BYTES) 0.

Lemma empty_block_ok : block_ok empty_block.
Proof.
  split; [unfold empty_block; rewrite length_replicate; unfold BLOCK_SIZE_BYTES, BLOCK_SIZE_IDS; dlia|].
  apply Forall_replicate. unfold byte_ok. lia.
Qed.

Lemma block_key_inj b b' : 0 ≤ b → 0 ≤ b' → block_key b = block_key b' → b = b'.
Proof.
  intros Hb Hb' E%(f_equal (λ z, Z.shiftr z 32)). unfold block_key in E.
  by rewrite !Z.shiftr_lor, !Z.shiftr_shiftl_l, !Z.sub_diag, !Z.shiftl_0_r, !Z.lor_0_r in E by lia.
Qed.

(** The id at a place of a block. *)
Definition id_at (b y t : Z) : Z := BLOCK_SIZE_IDS * b + 8 * y + t.

Lemma indexes_id_at b y t : 0 ≤ y < BLOCK_SIZE_BYTES → 0 ≤ t < 8 →
  indexes_for_id (id_at b y t) = (b, y, t).
Proof.
  unfold id_at, indexes_for_id, BLOCK_SIZE_BYTES, BLOCK_SIZE_IDS. intros Hy Ht.
  repeat f_equal; dlia.
Qed.

Lemma indexes_bounds id b y t : 0 ≤ id → indexes_for_id id = (b, y, t) →
  id = id_at b y t ∧ 0 ≤ b ∧ 0 ≤ y < BLOCK_SIZE_BYTES ∧ 0 ≤ t < 8.
Proof.
  unfold id_at, indexes_for_id, BLOCK_SIZE_BYTES, BLOCK_SIZE_IDS. intros Hid E. simplify_eq.
  split_and!; dlia.
Qed.

(** The byte that holds the status of an id, zero when its block is missing. *)
Definition status_byte (c : gmap Z (list Z)) (b y : Z) : Z :=
  default 0 (c !! block_key b ≫= (.!! Z.to_nat y)).

Lemma used_status c id b y t : indexes_for_id id = (b, y, t) → 0 ≤ t < 8 →
  used c id = bit_used (status_byte c b y) t.
Proof.
  intros E Ht. unfold used, status_byte. rewrite E.
  destruct (c !! block_key b ≫= _) as [byte|]; [done|].
  simpl. by rewrite bit_used_testbit, Z.bits_0.
Qed.

Lemma block_byte c b y : blocks_ok c → 0 ≤ y < BLOCK_SIZE_BYTES →
  default empty_block (c !! block_key b) !! Z.to_nat y = Some (status_byte c b y) ∧
  byte_ok (status_byte c b y).
Proof.
  intros Hc Hy. unfold status_byte. destruct (c !! block_key b) as [v|] eqn:E; simpl.
  - destruct (Hc b v E) as [Hl Hv]. destruct (lookup_lt_is_Some_2 v (Z.to_nat y)) as [x Hx]; [lia|].
    rewrite Hx. split; [done|]. by eapply Forall_lookup_1 in Hx.
  - split; [|unfold byte_ok; lia]. apply lookup_replicate. lia.
Qed.

Section update.
Context (c : gmap Z (list Z)) (Hc : blocks_ok c) (id b y t : Z) (u : bool).
Context (Hid : 0 ≤ id) (Hi : indexes_for_id id = (b, y, t)).

Let v := <[Z.to_nat y := (update_status u (status_byte c b y) t).2]>
           (default empty_block (c !! block_key b)).

(** The closure of [mark_id_unchecked] finds the byte and reports whether the bit changes. *)
Lemma update_block_eq : update_block u y t (default empty_block (c !! block_key b)) =
  Some (negb (eqb (used c id) u), v).
Proof using Hc Hid Hi.
  destruct (indexes_bounds id b y t Hid Hi) as (_ & _ & Hy & Ht).
  unfold update_block. destruct (block_byte c b y Hc Hy) as [-> _]. cbn [mbind option_bind].
  rewrite (used_status c id b y t Hi Ht), <-update_status_changed by done.
  subst v. by destruct (update_status u (status_byte c b y) t).
Qed.

Lemma blocks_ok_update : blocks_ok (<[block_key b:=v]> c).
Proof using Hc Hid Hi.
  destruct (indexes_bounds id b y t Hid Hi) as (_ & _ & Hy & Ht).
  destruct (block_byte c b y Hc Hy) as [Hl Hb].
  intros b' v' [[_ <-]|[_ H']]%lookup_insert_Some; [|by eapply Hc].
  assert (block_ok (default empty_block (c !! block_key b))) as [Hlen Hbytes].
  { destruct (c !! block_key b) eqn:E; [by eapply Hc|apply empty_block_ok]. }
  split; subst v; [by rewrite length_insert|].
  by apply Forall_insert, update_status_byte.
Qed.

Lemma used_update j : 0 ≤ j →
  used (<[block_key b:=v]> c) j = if decide (j = id) then u else used c j.
Proof using Hc Hid Hi.
  intros Hj. destruct (indexes_bounds id b y t Hid Hi) as (Eid & Hb & Hy & Ht).
  destruct (indexes_for_id j) as [[b' y'] t'] eqn:Ej.
  destruct (indexes_bounds j b' y' t' Hj Ej) as (Eid' & Hb' & Hy' & Ht').
  rewrite !(used_status _ j b' y' t') by done.
  assert (status_byte (<[block_key b:=v]> c) b' y' =
          if decide (b' = b ∧ y' = y) then (update_status u (status_byte c b y) t).2
          else status_byte c b' y') as ->.
  { unfold status_byte at 1. destruct (decide (b' = b)) as [->|].
    - rewrite lookup_insert_eq. simpl. subst v. destruct (block_byte c b y' Hc Hy') as [Hl _].
      destruct (decide (y' = y)) as [->|].
      + rewrite decide_True, list_lookup_insert_eq; [done| |done].
        by eapply lookup_lt_Some.
      + rewrite decide_False by naive_solver. rewrite list_lookup_insert_ne by lia. by rewrite Hl.
    - rewrite decide_False by naive_solver. rewrite lookup_insert_ne; [done|].
      intros E. by apply block_key_inj in E. }
  case_decide as E1.
  - destruct E1 as [-> ->]. rewrite update_status_bit by done. unfold id_at in *.
    repeat case_decide; (done || lia).
  - rewrite decide_False; [done|]. intros ->. rewrite Ej in Hi. naive_solver.
Qed.
End update.

(** A new block has no used ids; the rest is as before. *)
Lemma used_new_block c b j : 0 ≤ b → 0 ≤ j →
  used (<[block_key b:=empty_block]> c) j = if decide (j / BLOCK_SIZE_IDS = b) then false else used c j.
Proof.
  intros Hb Hj. destruct (indexes_for_id j) as [[b' y'] t'] eqn:Ej.
  destruct (indexes_bounds j b' y' t' Hj Ej) as (_ & Hb' & Hy' & Ht').
  assert (j / BLOCK_SIZE_IDS = b') as -> by (unfold indexes_for_id in Ej; congruence).
  rewrite !(used_status _ j b' y' t') by done. unfold status_byte.
  case_decide as E.
  - subst b'. rewrite lookup_insert_eq. simpl. unfold empty_block.
    rewrite lookup_replicate_2 by lia. simpl. by rewrite bit_used_testbit, Z.bits_0.
  - rewrite lookup_insert_ne; [done|]. intros E'. by apply block_key_inj in E'.
Qed.

Lemma blocks_ok_new_block c b : blocks_ok c → blocks_ok (<[block_key b:=empty_block]> c).
Proof.
  intros Hc b' v [[_ <-]|[_ H']]%lookup_insert_Some; [apply empty_block_ok|by eapply Hc].
Qed.
