(* ===== verification/FsmProtocol.v ===== *)
(** * The protocol of the operations of the free-space map

    What one operation of [Fsm] may rely on, and must guarantee, when others run at the same time.
    - [tokens]: what the operation owns and knows between its actions: ids, locks, lower bounds
      of counters.
    - [wp_call] gives the rule of each action, [safe] extends them to programs; the lemmas
      [safe_next_thread], [safe_free_thread] and [safe_other_op] show that every operation
      respects the protocol, whatever the answers of the store.
    [FsmSafety] draws the consequences for any number of operations. *)

From S2P Require Import Prelude Bytes Fsm FsmBlocks.
Local Open Scope Z_scope.

(** ** The operations as threads *)

(** What an operation hands to its client in the end. *)
Inductive done := Issued (g : ReuseGuard) | FreeFailed (id : Z) | Over.

Definition next_thread (debug : bool) (fuel : nat) : prog done :=
  r ← next_id_op debug fuel; Ret (match r with Ok g => Issued g | Err _ => Over end).
Definition free_thread (id : Z) : prog done :=
  r ← mark_free id; Ret (match r with Ok _ => Over | Err _ => FreeFailed id end).
Definition other_thread {A} (p : prog A) : prog done := _ ← p; Ret Over.

(** The operations that neither issue nor free ids. *)
Inductive other_op (debug : bool) : prog done → Prop :=
| op_is_free id : other_op debug (other_thread (is_free id))
| op_max_id : other_op debug (other_thread max_id)
| op_total_used : other_op debug (other_thread total_used_op)
| op_visit {B} (f : B → Z → bool * B) b : other_op debug (other_thread (visit_used debug f b))
| op_quantization : other_op debug (other_thread enable_quantization)
| op_reuse : other_op debug (other_thread enable_reuse)
| op_backfill : other_op debug (other_thread max_id_for_backfill_op).

(** ** Tokens *)

(** What an operation holds of the barrier: a read guard and the flag it read, or the write
    guard and the largest id it read. *)
Inductive barrier_token := NoBarrier | ReadGuard (q : bool) | WriteGuard (largest : option Z).

(** - [own]: ids that are marked used on behalf of the operation;
    - [pending]: what it has yet to add to [total_used];
    - [minting]: the value behind the write guard of [id_minter], and whether the id below
      [next_id] is new and not yet marked;
    - [known_next], [known_block]: lower bounds of [next_id] and of [max_block]. *)
Record tokens := mkTokens {
  own : list Z;
  pending : Z;
  minting : option (IdMinter * bool);
  barrier_of : barrier_token;
  known_next : Z;
  known_block : Z;
}.

Definition no_tokens : tokens := mkTokens [] 0 None NoBarrier (-1) 0.

Definition set_own l t := mkTokens l (pending t) (minting t) (barrier_of t) (known_next t) (known_block t).
Definition set_pending n t := mkTokens (own t) n (minting t) (barrier_of t) (known_next t) (known_block t).
Definition set_minting m t := mkTokens (own t) (pending t) m (barrier_of t) (known_next t) (known_block t).
Definition set_barrier_of b t := mkTokens (own t) (pending t) (minting t) b (known_next t) (known_block t).
Definition learn n b t :=
  mkTokens (own t) (pending t) (minting t) (barrier_of t) (Z.max n (known_next t)) (Z.max b (known_block t)).

(** An id that other operations can know: issued before, in an existing block. *)
Definition known (t : tokens) (id : Z) : Prop :=
  0 ≤ id < known_next t ∧ id / BLOCK_SIZE_IDS ≤ known_block t.

Definition minter_ok (m : IdMinter) : Prop :=
  0 ≤ next_id m ≤ u32_MAX ∧ 0 ≤ max_block m < 65536 ∧ buffer m = empty_block.

(** The action of [mark_id_unchecked]. *)
Definition mark_call (id : Z) (u : bool) : call :=
  let '(block_id, byte_idx, bit_idx) := indexes_for_id id in
  GRmw (block_key block_id) (Z.to_nat BLOCK_SIZE_BYTES) (update_block u byte_idx bit_idx).
#[global] Arguments mark_call : simpl never.

(** ** The protocol *)
Section protocol.
Context (debug : bool).

Definition gain (id : Z) (t : tokens) : tokens := set_own (id :: own t) (set_pending (pending t + 1) t).

(** A known id may be marked used; it is owned when that changes its status.  The new id of a
    minter always changes.  Only the owner of an id marks it free. *)
Definition mark_wp (id : Z) (u : bool) (t : tokens) (K : rmw_answer → tokens → Prop) : Prop :=
  0 ≤ id ∧ K RmwFailed t ∧
  if u then
    (known t id ∧ K (RmwDone false) t ∧ K (RmwDone true) (gain id t)) ∨
    (∃ m, minting t = Some (m, true) ∧ id = next_id m - 1 ∧ id / BLOCK_SIZE_IDS ≤ max_block m ∧
       K (RmwDone true) (gain id (set_minting (Some (m, false)) t)))
  else own t = [id] ∧ K (RmwDone true) (set_own [] (set_pending (pending t - 1) t)).

(** What a reader of [id_minter] learns. *)
Definition observe (m : IdMinter) (t : tokens) : tokens :=
  learn (next_id m) (max_block m)
    match barrier_of t with
    | WriteGuard _ => set_barrier_of (WriteGuard (Some (Z.max 0 (next_id m - 1)))) t
    | _ => t
    end.

(** When an operation with tokens [t] may perform an action, and what holds afterwards. *)
Definition wp_call (c : call) (t : tokens) : (answer c → tokens → Prop) → Prop :=
  match c with
  | LoadReuse | LoadFree | ListEmpty | LockRefill => λ K, ∀ r, K r t
  | LoadUsed => λ K, ∀ r, K r t
  | GRead _ => λ K, ∀ r, K r t
  | StoreReuse _ | StoreFree _ | UnlockRefill | PoisonRefill => λ K, K tt t
  | Push id => λ K, known t id ∧ ∀ r, K r t
  | Pop => λ K, K None t ∧ ∀ id, 0 ≤ id → K (Some id) (learn (id + 1) (id / BLOCK_SIZE_IDS) t)
  | FetchAddUsed => λ K, K tt (set_pending (pending t - 1) t)
  | FetchSubUsed => λ K, K tt (set_pending (pending t + 1) t)
  | StoreUsed _ => λ _, False
  | ReadMinter => λ K, K None t ∧ ∀ m, minter_ok m → K (Some m) (observe m t)
  | LockMinter => λ K, minting t = None ∧ K None t ∧
      ∀ m, minter_ok m → (debug = false → next_id m < u32_MAX) →
        K (Some m) (set_minting (Some (m, false)) t)
  | SetMinter m' => λ K, ∃ m new, minting t = Some (m, new) ∧ buffer m' = buffer m ∧
      ((new = false ∧ max_block m' = max_block m ∧ next_id m' = next_id m + 1 ∧
        next_id m < u32_MAX ∧ K tt (set_minting (Some (m', true)) t)) ∨
       (next_id m' = next_id m ∧ max_block m' = max_block m + 1 ∧ max_block m + 1 < 65536 ∧
        K tt (set_minting (Some (m', new)) t)))
  | UnlockMinter | PoisonMinter => λ K, minting t ≠ None ∧ K tt (set_minting None t)
  | ReadBarrier => λ K, barrier_of t = NoBarrier ∧ K None t ∧
      ∀ b, K (Some b) (set_barrier_of (ReadGuard (quantization_enabled b)) t)
  | UnreadBarrier => λ K, (∃ q, barrier_of t = ReadGuard q) ∧ K tt (set_barrier_of NoBarrier t)
  | LockBarrier => λ K, barrier_of t = NoBarrier ∧ K false t ∧
      K true (set_barrier_of (WriteGuard None) t)
  | SetBarrier b => λ K, (∃ n, barrier_of t = WriteGuard (Some n) ∧ b = mkBarrier n true) ∧ K tt t
  | UnlockBarrier | PoisonBarrier => λ K, (∃ n, barrier_of t = WriteGuard n) ∧
      K tt (set_barrier_of NoBarrier t)
  | GWrite key v => λ K, (∃ m new, minting t = Some (m, new) ∧ key = block_key (max_block m + 1) ∧
      v = empty_block) ∧ ∀ r, K r t
  | GRmw key len f => λ K, ∃ id u, GRmw key len f = mark_call id u ∧ mark_wp id u t K
  end.

(** The program respects the protocol: it ends in [Q], or panics in [X]. *)
Fixpoint safe {A} (Q : A → tokens → Prop) (X : tokens → Prop) (p : prog A) (t : tokens) : Prop :=
  match p with
  | Ret a => Q a t
  | Panic => X t
  | Spin => True
  | Act c k => wp_call c t (λ r t', safe Q X (k r) t')
  end.

Lemma mark_wp_mono id u t K K' :
  (∀ r t', K r t' → K' r t') → mark_wp id u t K → mark_wp id u t K'.
Proof. unfold mark_wp. destruct u; naive_solver. Qed.

Lemma wp_call_mono c t K K' : (∀ r t', K r t' → K' r t') → wp_call c t K → wp_call c t K'.
Proof.
  intros HK. destruct c; cbn; intros; try (naive_solver eauto using mark_wp_mono).
Qed.

Lemma safe_mono {A} (Q Q' : A → tokens → Prop) (X X' : tokens → Prop) p t :
  (∀ a t', Q a t' → Q' a t') → (∀ t', X t' → X' t') → safe Q X p t → safe Q' X' p t.
Proof.
  intros HQ HX. revert t. induction p as [a| | |c k IH]; intros t; cbn; auto.
  apply wp_call_mono. intros r t'. apply IH.
Qed.

Lemma safe_bind {A B} (Q : B → tokens → Prop) X (p : prog A) (f : A → prog B) t :
  safe (λ a, safe Q X (f a)) X p t → safe Q X (p ≫= f) t.
Proof.
  revert t. induction p as [a| | |c k IH]; intros t; cbn; auto.
  apply wp_call_mono. intros r t'. apply IH.
Qed.

Lemma safe_unwind {A} (Q : A → tokens → Prop) X c (p : prog A) t :
  safe Q (λ t, wp_call c t (λ _, X)) p t → safe Q X (unwind c p) t.
Proof.
  revert t. induction p as [a| | |c' k IH]; intros t; cbn; auto.
  apply wp_call_mono. intros r t'. apply IH.
Qed.

Lemma safe_act {A} (Q : A → tokens → Prop) X c (f : answer c → prog A) t :
  wp_call c t (λ r, safe Q X (f r)) → safe Q X (act c ≫= f) t.
Proof. done. Qed.

Lemma safe_unwrap {A} (Q : A → tokens → Prop) X (o : option A) t :
  match o with Some a => Q a t | None => X t end → safe Q X (unwrap o) t.
Proof. by destruct o. Qed.

Lemma safe_try {A B} Q X (p : prog (result FsmError A)) (f : A → prog (result FsmError B)) t :
  safe (λ r, match r with Ok a => safe Q X (f a) | Err e => Q (Err e) end) X p t →
  safe Q X (try_bind p f) t.
Proof. intros Hp. apply safe_bind. eapply safe_mono, Hp; [|done]. intros [] ?; auto. Qed.

(** *** The programs respect the protocol *)

(** An operation outside the critical section of the minter, with nothing to add to the
    counter. *)
Definition shape (o : list Z) (b : barrier_token) (t : tokens) : Prop :=
  own t = o ∧ pending t = 0 ∧ minting t = None ∧ barrier_of t = b.

Definition not_writing (b : barrier_token) : Prop :=
  match b with WriteGuard _ => False | _ => True end.

Lemma shape_learn o b n k t : shape o b t → shape o b (learn n k t).
Proof. done. Qed.

Lemma shape_observe o b m t : not_writing b → shape o b t →
  shape o b (observe m t) ∧ next_id m ≤ known_next (observe m t) ∧ max_block m ≤ known_block (observe m t) ∧
  (∀ id, known t id → known (observe m t) id).
Proof.
  intros Hb (Ho & Hp & Hm & Hbt). unfold observe. rewrite Hbt.
  destruct b; [..|done]; (split; [done|]); unfold known; cbn; repeat split; intros; lia.
Qed.

Lemma known_learn id t : 0 ≤ id → known (learn (id + 1) (id / BLOCK_SIZE_IDS) t) id.
Proof. intros. unfold known. cbn. lia. Qed.

Lemma tokens_eq t t' : own t = own t' → pending t = pending t' → minting t = minting t' →
  barrier_of t = barrier_of t' → known_next t = known_next t' → known_block t = known_block t' → t = t'.
Proof. destruct t, t'; cbn; congruence. Qed.

Lemma safe_mark_known Q X id t : known t id →
  Q (Err (Garnet GarnetWrite)) t → Q (Ok false) t → Q (Ok true) (set_own (id :: own t) t) →
  safe Q X (mark_id_unchecked id true) t.
Proof.
  intros Hk He Hf Ht. unfold mark_id_unchecked.
  destruct (indexes_for_id id) as [[b y] i] eqn:E. cbn.
  exists id, true. split; [unfold mark_call; by rewrite E|]. split; [apply Hk|]. split; [done|].
  left. split; [done|]. cbn. split; [done|].
  replace (set_pending _ _) with (set_own (id :: own t) t); [done|].
  apply tokens_eq; cbn; try done. lia.
Qed.

Lemma safe_mark_new Q X id m t : minting t = Some (m, true) → 0 ≤ id → id = next_id m - 1 →
  id / BLOCK_SIZE_IDS ≤ max_block m → Q (Err (Garnet GarnetWrite)) t →
  Q (Ok true) (set_own (id :: own t) (set_minting (Some (m, false)) t)) →
  safe Q X (mark_id_unchecked id true) t.
Proof.
  intros Hm Hid Hn Hb He Ht. unfold mark_id_unchecked.
  destruct (indexes_for_id id) as [[b y] i] eqn:E. cbn.
  exists id, true. split; [unfold mark_call; by rewrite E|]. split; [done|]. split; [done|].
  right. exists m. split_and!; try done. cbn.
  match goal with |- Q _ ?t' =>
    replace t' with (set_own (id :: own t) (set_minting (Some (m, false)) t)); [done|] end.
  apply tokens_eq; cbn; try done. lia.
Qed.

Lemma safe_mark_free Q X id t : own t = [id] → known t id →
  Q (Err (Garnet GarnetWrite)) t → Q (Ok true) (set_own [] t) →
  safe Q X (mark_id_unchecked id false) t.
Proof.
  intros Ho Hk He Ht. unfold mark_id_unchecked.
  destruct (indexes_for_id id) as [[b y] i] eqn:E. cbn.
  exists id, false. split; [unfold mark_call; by rewrite E|]. split; [apply Hk|]. split; [done|].
  split; [done|]. cbn. split; [done|]. intros _.
  match goal with |- Q _ ?t' => replace t' with (set_own [] t); [done|] end.
  apply tokens_eq; cbn; try done. lia.
Qed.

Lemma safe_read_minter (Q : IdMinter → tokens → Prop) X t : X t →
  (∀ m, minter_ok m → Q m (observe m t)) → safe Q X read_minter t.
Proof. intros. by split. Qed.

Lemma safe_mark_used b id t : not_writing b → shape [] b t → known t id →
  safe (λ r, shape (match r with Ok true => [id] | _ => [] end) b) (shape [] b) (mark_used id) t.
Proof.
  intros Hb Ht Hk. apply safe_bind, safe_read_minter; [done|]. intros m Hm.
  destruct (shape_observe [] b m t Hb Ht) as (Ht' & _ & _ & Hk').
  case_match; [done|]. apply safe_mark_known; auto.
  destruct Ht' as (Ho & Hp). by rewrite Ho.
Qed.

Lemma u32_add_safe (Q : Z → tokens → Prop) (X : tokens → Prop) x y t : 0 ≤ x → 0 ≤ y → X t →
  (∀ z, 0 ≤ z ≤ x + y → Q z t) → safe Q X (unwrap (u32_add debug x y)) t.
Proof.
  intros Hx Hy HX HQ. unfold u32_add. destruct (_ <? _); [apply (HQ (x + y)); lia|].
  destruct debug; [done|]. apply (HQ ((x + y) mod 2 ^ 32)). pose proof (Z.mod_le (x + y) (2 ^ 32)).
  pose proof (Z.mod_pos_bound (x + y) (2 ^ 32)). lia.
Qed.

Section scanning.
Context (next : Z) (X : tokens → Prop) (t : tokens) (HX : X t) (Hnext : next ≤ known_next t).

(** The scan stays below an id, within the known blocks, and leaves the tokens alone. *)
Let post (top : Z) (r : scan) (t' : tokens) : Prop :=
  t' = t ∧ match r with Next id _ => 0 ≤ id ≤ top | Stop _ => True end.

Lemma safe_refill_bits byte bidxs : ∀ id found,
  0 ≤ id → id + Z.of_nat (length bidxs) ≤ BLOCK_SIZE_IDS * (known_block t + 1) →
  safe (post (id + Z.of_nat (length bidxs))) X (refill_bits debug next byte bidxs id found) t.
Proof using HX Hnext.
  induction bidxs as [|i bidxs IH]; intros id found Hid Htop; [split; [done|cbn; lia]|].
  assert (∀ id' f, 0 ≤ id' ≤ id + 1 →
    safe (post (id + Z.of_nat (length (i :: bidxs)))) X (refill_bits debug next byte bidxs id' f) t) as HIH.
  { intros id' f Hid'. rewrite length_cons in *. eapply safe_mono, IH; try done; [|lia..].
    intros [id''|] t'; intros [??]; (split; [done|]); [cbn in *; lia|done]. }
  cbn [refill_bits]. case_match eqn:En; [done|]. rewrite length_cons in *.
  case_match.
  { apply safe_bind, u32_add_safe; [lia..|done|]. intros z Hz. by apply HIH. }
  cbn. split.
  { split; [lia|]. unfold BLOCK_SIZE_IDS in *. dlia. }
  intros []; [|done]. apply safe_bind, u32_add_safe; [lia..|done|]. intros z Hz. by apply HIH.
Qed.

Lemma safe_refill_bytes block : ∀ id found,
  0 ≤ id → id + 8 * Z.of_nat (length block) ≤ BLOCK_SIZE_IDS * (known_block t + 1) →
  safe (post (id + 8 * Z.of_nat (length block))) X (refill_bytes debug next block id found) t.
Proof using HX Hnext.
  induction block as [|byte block IH]; intros id found Hid Htop; [split; [done|cbn; lia]|].
  assert (∀ id' f, 0 ≤ id' ≤ id + 8 →
    safe (post (id + 8 * Z.of_nat (length (byte :: block)))) X (refill_bytes debug next block id' f) t) as HIH.
  { intros id' f Hid'. rewrite length_cons in *. eapply safe_mono, IH; try done; [|lia..].
    intros [id''|] t'; intros [??]; (split; [done|]); [cbn in *; lia|done]. }
  cbn [refill_bytes]. rewrite length_cons in *. case_match; [done|]. case_match.
  { apply safe_bind, u32_add_safe; [lia..|done|]. intros z Hz. by apply HIH. }
  assert (Z.of_nat (length bit_indexes) = 8) as E8 by done.
  apply safe_bind. eapply safe_mono, safe_refill_bits; [|done|done|rewrite E8; lia].
  rewrite E8. intros [id'|] t' [-> Hr]; [|done]. by apply HIH.
Qed.

Lemma safe_refill_blocks n : ∀ b id found,
  0 ≤ b → b + Z.of_nat n ≤ known_block t + 1 → 0 ≤ id ≤ BLOCK_SIZE_IDS * b →
  safe (λ _ t', t' = t) X (refill_blocks debug next (seqZ b (Z.of_nat n)) id found) t.
Proof using HX Hnext.
  induction n as [|n IH]; intros b id found Hb Hn Hid; [done|].
  rewrite seqZ_cons by lia. cbn [refill_blocks]. case_match; [done|].
  intros [v|]; [|done]. cbn. case_match eqn:El; [|done]. apply Z.eqb_eq in El.
  change BLOCK_SIZE_BYTES with 8192 in El. unfold BLOCK_SIZE_IDS in *. cbn. apply safe_bind.
  eapply safe_mono, safe_refill_bytes; [|done|lia|unfold BLOCK_SIZE_IDS; lia].
  intros [id'|] t' [-> Hr]; [|done]. replace (Z.pred (Z.of_nat (S n))) with (Z.of_nat n) by lia.
  apply IH; lia.
Qed.
End scanning.

Lemma safe_refill_locked o b t : not_writing b → shape o b t →
  safe (λ _, shape o b) (shape o b) (refill_locked debug) t.
Proof.
  intros Hb Ht. apply safe_act. intros []; [|done]. cbn [negb].
  apply safe_bind, safe_read_minter; [done|]. intros m (Hm1 & Hm2 & _).
  destruct (shape_observe o b m t Hb Ht) as (Ht' & Hk1 & Hk2 & _).
  apply safe_try. replace (max_block m + 1) with (Z.of_nat (Z.to_nat (max_block m + 1))) by lia.
  eapply safe_mono, (safe_refill_blocks _ (shape o b)); [..|done|lia|lia|lia|lia]; [|done].
  intros [r|] t' ->; [|done]. by case_match.
Qed.

Lemma safe_refill o b t : not_writing b → shape o b t →
  safe (λ _, shape o b) (shape o b) (refill_fast_free_list debug) t.
Proof.
  intros Hb Ht. apply safe_act. intros []; [|done]. apply safe_bind, safe_unwind.
  eapply safe_mono, (safe_refill_locked o b); done.
Qed.

Lemma safe_reuse_loop b fuel : ∀ t, not_writing b → shape [] b t →
  safe (λ r, shape (match r with Ok (Some id) => [id] | _ => [] end) b) (shape [] b)
    (reuse_loop debug fuel) t.
Proof.
  induction fuel as [|fuel IH]; intros t Hb Ht; [done|].
  assert (∀ t id, 0 ≤ id → shape [] b t →
    safe (λ r, shape (match r with Ok (Some id) => [id] | _ => [] end) b) (shape [] b)
      (try_bind (mark_used id)
         (λ changed, if changed : bool then Ret (Ok (Some id)) else reuse_loop debug fuel))
      (learn (id + 1) (id / BLOCK_SIZE_IDS) t)) as Htry.
  { intros t' id Hid Ht'. apply safe_try. eapply safe_mono, safe_mark_used; [..|done| |];
      [|done|done|by apply known_learn].
    intros [[]|] t'' Ht''; [done| |done]. by apply IH. }
  apply safe_act. split; [|by intros id Hid; apply Htry].
  apply safe_try. eapply safe_mono, safe_refill; [|done|done|done].
  intros [[]|] t' Ht'; [|done|done]. apply safe_act.
  split; [done|]. intros id Hid. by apply Htry.
Qed.

Lemma indexes_block id : (indexes_for_id id).1.1 = id / BLOCK_SIZE_IDS.
Proof. done. Qed.

Lemma safe_expand_to X m id t : minting t = Some (m, true) → 0 ≤ id ≤ u32_MAX →
  0 ≤ max_block m < 65536 → buffer m = empty_block →
  safe (λ r t', match r with
                | Ok _ => ∃ m', t' = set_minting (Some (m', true)) t ∧ next_id m' = next_id m ∧
                                id / BLOCK_SIZE_IDS ≤ max_block m'
                | Err _ => t' = t
                end) X (expand_to m id) t.
Proof.
  intros Hm Hid Hb Hbuf. unfold expand_to. pose proof (indexes_block id) as Hblock.
  destruct (indexes_for_id id) as [[block y] i]. cbn in Hblock. subst block.
  assert (id / BLOCK_SIZE_IDS < 65536) by (unfold BLOCK_SIZE_IDS, u32_MAX in *; dlia).
  destruct (Z.eqb_spec (max_block m) u32_MAX); [unfold u32_MAX in *; lia|]. cbn [orb].
  destruct (Z.eqb_spec (id / BLOCK_SIZE_IDS) (max_block m + 1)) as [E|E].
  - apply safe_act. split; [exists m, true; by rewrite E|].
    intros []; [|done]. apply safe_act. exists m, true. split; [done|]. split; [done|]. right.
    cbn. split_and!; [done|done|lia|]. eexists. split; [done|]. cbn. lia.
  - destruct (Z.ltb_spec (max_block m + 1) (id / BLOCK_SIZE_IDS)); [done|].
    exists m. split; [apply tokens_eq; by rewrite ?Hm|]. split; [done|lia].
Qed.

Lemma safe_mint b t : shape [] b t →
  safe (λ r, shape (match r with Ok id => [id] | Err _ => [] end) b) (shape [] b) (mint debug) t.
Proof.
  intros (Ho & Hp & Hm & Hb). apply safe_act. split; [done|]. split; [done|].
  intros m (Hn & Hk & Hbuf) Hrel. apply safe_bind, safe_unwrap, safe_bind, safe_unwind, safe_bind.
  apply safe_unwrap. unfold u32_add.
  destruct (Z.ltb_spec (next_id m + 1) (2 ^ 32)) as [Hlt|Hge].
  2: { destruct debug; [by repeat split|]. unfold u32_MAX in *. specialize (Hrel eq_refl). lia. }
  apply safe_act. exists m, false. split; [done|]. split; [done|]. left. cbn.
  split_and!; [done..|unfold u32_MAX; lia|]. apply safe_try.
  eapply safe_mono, safe_expand_to; [|intros ? HX; exact HX|done|unfold u32_MAX; lia|done|done].
  intros [[]|e] t'; [intros (m' & -> & Hn' & Hb')|intros ->; by repeat split].
  apply safe_try. eapply safe_mark_new; [done|lia|cbn in Hn'; lia|done|by repeat split|].
  split; [done|]. split; [cbn; by rewrite Ho|done].
Qed.

Lemma safe_next_id_op fuel t : shape [] NoBarrier t →
  safe (λ r, match r with
             | Ok g => shape [guard_id g] (ReadGuard (should_quantize g))
             | Err _ => shape [] NoBarrier
             end) (λ _, True) (next_id_op debug fuel) t.
Proof.
  intros (Ho & Hp & Hm & Hb). apply safe_act. split; [done|]. split; [done|]. intros b.
  set (b' := ReadGuard (quantization_enabled b)).
  apply safe_bind, safe_unwrap, safe_bind, safe_unwind.
  assert (∀ t, shape [] b' t → wp_call UnreadBarrier t (λ _ _, True)) as HX.
  { intros t' (_ & _ & _ & Hb'). split; [by eexists|done]. }
  eapply (safe_mono (λ r, shape (match r with Ok id => [id] | Err _ => [] end) b') _ (shape [] b'));
    [|done|].
  { intros [id|e] t'; [done|]. intros (Ho' & Hp' & Hm' & Hb'). apply safe_act.
    split; [by eexists|done]. }
  assert (shape [] b' (set_barrier_of b' t)) as Hs by done.
  generalize dependent (set_barrier_of b' t). intros t1 Hs.
  apply safe_act. intros reuse. apply safe_bind.
  apply (safe_mono (λ _ t', t' = t1) _ (shape [] b')); [|done|by destruct reuse; [intros r|]].
  intros free t' ->. apply safe_try. destruct free; [|by apply safe_mint].
  eapply safe_mono, safe_reuse_loop; [|done|done|done].
  intros [[id|]|e] t' Ht'; [done|by apply safe_mint|done].
Qed.

(** What the tokens of a finished operation are. *)
Definition finished (d : done) (t : tokens) : Prop :=
  match d with
  | Issued g => shape [guard_id g] (ReadGuard (should_quantize g)) t
  | FreeFailed id => shape [id] NoBarrier t
  | Over => shape [] NoBarrier t
  end.

Definition safe_thread (p : prog done) (t : tokens) : Prop := safe finished (λ _, True) p t.

Lemma safe_next_thread fuel : safe_thread (next_thread debug fuel) no_tokens.
Proof. apply safe_bind. eapply safe_mono, safe_next_id_op; [|done|done]. by intros [] ?. Qed.

Lemma safe_free_thread id t : shape [id] NoBarrier t → known t id → safe_thread (free_thread id) t.
Proof.
  intros Ht Hk. apply safe_bind, safe_try, safe_bind, safe_read_minter; [done|]. intros m Hm.
  destruct (shape_observe [id] NoBarrier m t I Ht) as (Ht' & _ & _ & Hk').
  case_match; [done|]. apply safe_mark_free; [apply Ht'|auto|done|].
  destruct Ht' as (_ & Hp & Hmt & Hbt). by repeat split.
Qed.

Lemma safe_same_u32_add x y t :
  safe (λ _ t', t' = t) (λ _, True) (unwrap (u32_add debug x y)) t.
Proof. apply safe_unwrap. by destruct (u32_add debug x y). Qed.

Lemma safe_visit_bits {B} (f : B → Z → bool * B) byte bidxs t : ∀ id b,
  safe (λ _ t', t' = t) (λ _, True) (visit_bits debug f byte bidxs id b) t.
Proof.
  induction bidxs as [|i bidxs IH]; intros id b; [done|]. cbn [visit_bits].
  destruct (if bit_used byte i then f b id else (true, b)) as [[] b']; [|done].
  apply safe_bind. eapply safe_mono, safe_same_u32_add; [|done]. intros id' ? ->. apply IH.
Qed.

Lemma safe_visit_bytes {B} (f : B → Z → bool * B) block t : ∀ id b,
  safe (λ _ t', t' = t) (λ _, True) (visit_bytes debug f block id b) t.
Proof.
  induction block as [|byte block IH]; intros id b; [done|]. cbn [visit_bytes].
  case_match; apply safe_bind.
  - eapply safe_mono, safe_same_u32_add; [|done]. intros id' ? ->. apply IH.
  - eapply safe_mono, safe_visit_bits; [|done]. intros [[id'|] b'] ? ->; [apply IH|done].
Qed.

Lemma safe_visit_blocks {B} (f : B → Z → bool * B) blocks t : ∀ id b,
  safe (λ _ t', t' = t) (λ _, True) (visit_blocks debug f blocks id b) t.
Proof.
  induction blocks as [|block_id blocks IH]; intros id b; [done|]. cbn [visit_blocks].
  apply safe_bind, safe_act. intros [v|]; [|done]. case_match; [|done].
  apply safe_bind. eapply safe_mono, safe_visit_bytes; [|done].
  intros [[id'|] b'] ? ->; [apply IH|done].
Qed.

Lemma safe_enable_quantization t : shape [] NoBarrier t →
  safe (λ _, shape [] NoBarrier) (λ _, True) enable_quantization t.
Proof.
  intros (Ho & Hp & Hm & Hb). apply safe_act. split; [done|]. split; [done|].
  apply safe_bind, safe_unwind, safe_bind, safe_bind.
  apply safe_read_minter; [split; [by eexists|done]|]. intros m Hok. cbn. split; [by eexists|].
  split; [by eexists|]. by repeat split.
Qed.

Lemma safe_other_op p : other_op debug p → safe_thread p no_tokens.
Proof.
  assert (shape [] NoBarrier no_tokens) as H0 by done.
  assert (∀ m, shape [] NoBarrier (observe m no_tokens)) as Hobs by done.
  destruct 1 as [id| | |B f b| | |]; apply safe_bind.
  - apply safe_bind, safe_read_minter; [done|]. intros m Hm. case_match; [apply Hobs|].
    destruct (indexes_for_id id) as [[b y] i]. case_match; [apply Hobs|].
    apply safe_bind, safe_act. intros [v|]; [|apply Hobs]. case_match; [|done].
    apply safe_bind, safe_unwrap. by destruct (v !! _).
  - apply safe_bind, safe_read_minter; [done|]. intros m Hm. apply Hobs.
  - done.
  - apply safe_bind, safe_read_minter; [done|]. intros m Hm.
    apply safe_bind. eapply safe_mono, safe_same_u32_add; [|done]. intros stop ? ->.
    eapply safe_mono, safe_visit_blocks; [|done]. intros ? ? ->. apply Hobs.
  - by apply safe_enable_quantization.
  - done.
  - apply safe_act. split; [done|]. split; [done|]. intros b. apply safe_act.
    split; [by eexists|done].
Qed.
End protocol.
