(* ===== verification/FsmSafety.v ===== *)
(** * Safety of the free-space map under concurrency

    Any number of operations of [Fsm] run at the same time, one atomic action per step.
    - [config] and [step]: the clients start operations, hold ids and guards, and drop guards.
      A client frees only ids that it holds.
    - [inv]: the invariant that ties the tokens of all operations ([FsmProtocol]) to the shared
      state; [action_sound] shows that every action of the protocol preserves it.
    The theorems are about all reachable configurations, with a store that may fail at any time. *)

From S2P Require Import Prelude Bytes Fsm FsmBlocks FsmProtocol.
Local Open Scope Z_scope.

(** ** Interleavings *)

(** [held]: the ids of the clients; [guards]: the guards not yet dropped; [issued]: all guards
    returned so far. *)
Record config (G : Type) := mkConfig {
  fsm : FreeSpaceMap G;
  threads : list (prog done);
  held : list Z;
  guards : list ReuseGuard;
  issued : list ReuseGuard;
}.
Arguments mkConfig {G}. Arguments fsm {G}. Arguments threads {G}. Arguments held {G}.
Arguments guards {G}. Arguments issued {G}.

Section interleaving.
Context (debug : bool) {G : Type} `{GarnetStore G}.

Inductive step : config G → config G → Prop :=
| step_next fuel s ts h g l :
    step (mkConfig s ts h g l) (mkConfig s (ts ++ [next_thread debug fuel]) h g l)
| step_free id s ts h h' g l : h ≡ₚ id :: h' →
    step (mkConfig s ts h g l) (mkConfig s (ts ++ [free_thread id]) h' g l)
| step_other p s ts h g l : other_op debug p →
    step (mkConfig s ts h g l) (mkConfig s (ts ++ [p]) h g l)
| step_act i c k r s s' ts h g l :
    ts !! i = Some (Act c k) → perform c s = Some (r, s') →
    step (mkConfig s ts h g l) (mkConfig s' (<[i:=k r]> ts) h g l)
| step_issued i x s ts h g l : ts !! i = Some (Ret (Issued x)) →
    step (mkConfig s ts h g l)
         (mkConfig s (<[i:=Ret Over]> ts) (guard_id x :: h) (x :: g) (x :: l))
| step_free_failed i id s ts h g l : ts !! i = Some (Ret (FreeFailed id)) →
    step (mkConfig s ts h g l) (mkConfig s (<[i:=Ret Over]> ts) (id :: h) g l)
| step_drop x s s' ts h g g' l r : g ≡ₚ x :: g' → perform UnreadBarrier s = Some (r, s') →
    step (mkConfig s ts h g l) (mkConfig s' ts h g' l).

Inductive steps : nat → config G → config G → Prop :=
| steps_O c : steps 0 c c
| steps_S n c c' c'' : steps n c c' → step c' c'' → steps (S n) c c''.

(** Some steps as a function: an operation starts, acts or ends, the last guard is dropped. *)
Inductive move := MNext (fuel : nat) | MFree (i : nat) | MQuantize | MAct (i : nat) | MDrop.

Definition exec (c : config G) (m : move) : option (config G) :=
  let '(mkConfig s ts h g l) := c in
  match m with
  | MNext fuel => Some (mkConfig s (ts ++ [next_thread debug fuel]) h g l)
  | MFree i => id ← h !! i; Some (mkConfig s (ts ++ [free_thread id]) (delete i h) g l)
  | MQuantize => Some (mkConfig s (ts ++ [other_thread enable_quantization]) h g l)
  | MAct i =>
      match ts !! i with
      | Some (Act a k) => '(r, s') ← perform a s; Some (mkConfig s' (<[i:=k r]> ts) h g l)
      | Some (Ret (Issued x)) =>
          Some (mkConfig s (<[i:=Ret Over]> ts) (guard_id x :: h) (x :: g) (x :: l))
      | Some (Ret (FreeFailed id)) => Some (mkConfig s (<[i:=Ret Over]> ts) (id :: h) g l)
      | _ => None
      end
  | MDrop =>
      match g with
      | [] => None
      | x :: g => '(_, s') ← perform UnreadBarrier s; Some (mkConfig s' ts h g l)
      end
  end.

Lemma exec_step c m c' : exec c m = Some c' → step c c'.
Proof.
  destruct c as [s ts h g l]. destruct m as [fuel|i| |i|]; cbn.
  - intros [= <-]. apply step_next.
  - destruct (h !! i) as [id|] eqn:E; [|done]. cbn. intros [= <-].
    by apply step_free, delete_Permutation.
  - intros [= <-]. apply step_other. constructor.
  - destruct (ts !! i) as [[[x|id|]| | |a k]|] eqn:Ei; try done.
    + intros [= <-]. by apply step_issued.
    + intros [= <-]. by apply step_free_failed.
    + destruct (perform a s) as [[r s']|] eqn:Ep; [|done]. cbn. intros [= <-]. by eapply step_act.
  - destruct g as [|x g]; [done|]. intros [= <-]. by eapply step_drop.
Qed.

Fixpoint exec_all (c : config G) (ms : list move) : option (config G) :=
  match ms with [] => Some c | m :: ms => c ← exec c m; exec_all c ms end.

Lemma exec_all_steps ms : ∀ n c0 c c', steps n c0 c → exec_all c ms = Some c' →
  steps (n + length ms) c0 c'.
Proof.
  induction ms as [|m ms IH]; intros n c0 c c' Hs; cbn [exec_all].
  - intros [= <-]. by rewrite Nat.add_0_r.
  - destruct (exec c m) as [c1|] eqn:E; [|done]. cbn [mbind option_bind length]. intros Hc'.
    rewrite <-Nat.add_succ_comm. eapply IH, Hc'. econstructor; [exact Hs|by apply exec_step with m].
Qed.
End interleaving.

(** ** Sums over the operations *)

Definition total {A} (f : A → Z) (l : list A) : Z := foldr (λ x n, f x + n) 0 l.

#[export] Instance total_perm {A} (f : A → Z) : Proper ((≡ₚ) ==> (=)) (total f).
Proof. intros l l' Hl. unfold total. induction Hl; simpl; lia. Qed.

Lemma total_nonneg {A} (f : A → Z) l : (∀ x, 0 ≤ f x) → 0 ≤ total f l.
Proof. intros Hf. unfold total. induction l as [|x l IH]; simpl; [lia|]. specialize (Hf x). lia. Qed.

Lemma total_zero {A} (f : A → Z) l : (∀ x, 0 ≤ f x) → total f l = 0 → Forall (λ x, f x = 0) l.
Proof.
  intros Hf. unfold total. induction l as [|x l IH]; [done|]. simpl. intros E.
  pose proof (total_nonneg f l Hf) as Hl. unfold total in Hl. specialize (Hf x).
  constructor; [lia|]. apply IH. lia.
Qed.

(** The ids marked used: those of the clients and those of the operations. *)
Definition owned (ts : list tokens) (h : list Z) : list Z := h ++ (ts ≫= own).

Definition new_id (t : tokens) : Z := match minting t with Some (_, true) => 1 | _ => 0 end.
Definition reading (t : tokens) : Z := match barrier_of t with ReadGuard _ => 1 | _ => 0 end.
Definition writing (t : tokens) : Z := match barrier_of t with WriteGuard _ => 1 | _ => 0 end.

Lemma new_id_nonneg t : 0 ≤ new_id t.
Proof. unfold new_id. destruct (minting t) as [[? []]|]; lia. Qed.
Lemma reading_nonneg t : 0 ≤ reading t.
Proof. unfold reading. destruct (barrier_of t); lia. Qed.
Lemma writing_nonneg t : 0 ≤ writing t.
Proof. unfold writing. destruct (barrier_of t); lia. Qed.

Lemma new_id_minters ts : total new_id ts ≤ Z.of_nat (length (omap minting ts)).
Proof.
  unfold total. induction ts as [|t ts IH]; cbn; [lia|]. unfold new_id at 1.
  destruct (minting t) as [[? []]|]; cbn; lia.
Qed.

Lemma no_minters ts : omap minting ts = [] → total new_id ts = 0.
Proof.
  unfold total. induction ts as [|t ts IH]; [done|]. cbn. unfold new_id at 1.
  destruct (minting t); [done|]. intros. by rewrite IH.
Qed.

(** A fact about all elements that follows from another by arithmetic. *)
Ltac grow :=
  match goal with
  | H : Forall _ ?l |- Forall _ ?l => apply (Forall_impl _ _ _ H); cbn; intros; lia
  end.

(** A fact that the first operation keeps. *)
Ltac same_head :=
  match goal with
  | H : Forall _ (?x :: ?xs) |- Forall _ (_ :: ?xs) =>
      apply Forall_cons in H as [? ?]; apply Forall_cons; by split
  end.

Section invariant.
Context (debug : bool) {G : Type} `{GarnetLaws G}.
Implicit Types (ts : list tokens) (h : list Z) (g l : list ReuseGuard).

(** The ids below [published] can be known to every operation: a new id that its minter has not
    marked yet is not. *)
Definition published (s : FreeSpaceMap G) ts : Z := next_id (id_minter s) - total new_id ts.
Definition available (s : FreeSpaceMap G) ts (id : Z) : Prop :=
  0 ≤ id < published s ts ∧ id / BLOCK_SIZE_IDS ≤ max_block (id_minter s).

(** [budget] is a number of steps in which a release build cannot exhaust the ids. *)
Record inv (budget : Z) (s : FreeSpaceMap G) ts h g l : Prop := {
  inv_blocks : blocks_ok (contents (callbacks s));
  inv_nodup : NoDup (owned ts h);
  inv_used id : 0 ≤ id → used (contents (callbacks s)) id = true ↔ id ∈ owned ts h;
  inv_owned : Forall (available s ts) (owned ts h);
  inv_list : Forall (available s ts) (fast_free_list s);
  inv_known : Forall (λ t, known_next t ≤ published s ts ∧
                           known_block t ≤ max_block (id_minter s)) ts;
  inv_count : total_used s = usize_wrap (Z.of_nat (length (owned ts h)) - total pending ts);
  inv_minter : minter_ok (id_minter s);
  inv_budget : debug = false → next_id (id_minter s) + budget ≤ u32_MAX;
  inv_minting : match minter_lock s with
                | Locked => ∃ b, omap minting ts = [(id_minter s, b)]
                | _ => omap minting ts = []
                end;
  inv_readers : Z.of_nat (readers s) = Z.of_nat (length g) + total reading ts;
  inv_writers : total writing ts = match barrier_lock s with Locked => 1 | _ => 0 end;
  inv_exclusive : barrier_lock s = Locked → readers s = 0%nat;
  inv_flags : Forall (λ t, ∀ q, barrier_of t = ReadGuard q →
                                q = quantization_enabled (barrier s)) ts;
  inv_guards : Forall (λ x, should_quantize x = quantization_enabled (barrier s)) g;
  inv_issued : Forall (λ x, guard_id x < published s ts) l;
  inv_backfill : quantization_enabled (barrier s) = true →
    Forall (λ x, should_quantize x = false → guard_id x ≤ max_id_for_backfill (barrier s)) l;
  inv_largest : Forall (λ t, ∀ n, barrier_of t = WriteGuard (Some n) →
                                  Forall (λ x, guard_id x ≤ n) l) ts;
}.

(** The order of the operations, of the ids and of the guards does not matter. *)
Lemma inv_perm n s ts ts' h h' g g' l : ts ≡ₚ ts' → h ≡ₚ h' → g ≡ₚ g' →
  inv n s ts h g l → inv n s ts' h' g' l.
Proof.
  intros Hp Hh Hg [H1 H2 H3 H4 H5 H6 H7 H8 H9 H10 H11 H12 H13 H14 H15 H16 H17 H18].
  assert (owned ts h ≡ₚ owned ts' h') as Ho by (unfold owned; by rewrite Hp, Hh).
  assert (published s ts = published s ts') as Hpub by (unfold published; by rewrite Hp).
  assert (available s ts = available s ts') as Hav by (unfold available; by rewrite Hpub).
  assert (total pending ts = total pending ts') as Hpend by by rewrite Hp.
  split; rewrite <-?Hpend, <-?Hp, <-?Hg, <-?Ho, <-?Hpub, <-?Hav; try done.
  - intros id Hid. rewrite <-Ho. auto.
  - destruct (minter_lock s); [|destruct H10 as [b H10]; exists b|];
      apply Permutation_nil_r || apply Permutation_singleton_r; by rewrite <-Hp, H10.
Qed.

Lemma inv_weaken n s ts h g l : inv n s ts h g l → inv (n - 1) s ts h g l.
Proof. intros []. split; try done. intros Hd. specialize (inv_budget0 Hd). lia. Qed.

(** The invariant does not see the flags, the lock of the refill and failures of the store. *)
Definition same (s s' : FreeSpaceMap G) : Prop :=
  contents (callbacks s') = contents (callbacks s) ∧ fast_free_list s' = fast_free_list s ∧
  id_minter s' = id_minter s ∧ minter_lock s' = minter_lock s ∧ total_used s' = total_used s ∧
  barrier s' = barrier s ∧ readers s' = readers s ∧ barrier_lock s' = barrier_lock s.

Lemma inv_same n s s' ts h g l : same s s' → inv n s ts h g l → inv n s' ts h g l.
Proof.
  intros (E1 & E2 & E3 & E4 & E5 & E6 & E7 & E8) [].
  split; unfold available, published in *; rewrite ?E1, ?E2, ?E3, ?E4, ?E5, ?E6, ?E7, ?E8; done.
Qed.

Lemma inv_store n s gs ts h g l : blocks_ok (contents gs) →
  (∀ id, 0 ≤ id → used (contents gs) id = used (contents (callbacks s)) id) →
  inv n s ts h g l → inv n (set_callbacks gs s) ts h g l.
Proof. intros Hb Hu []. split; try done. intros id Hid. cbn. rewrite Hu by done. auto. Qed.

Section action.
Context (n : Z) (s : FreeSpaceMap G) (t : tokens) (ts : list tokens) (h : list Z).
Context (g l : list ReuseGuard) (Hinv : inv n s (t :: ts) h g l).

Lemma known_available id : known t id → available s (t :: ts) id.
Proof using Hinv.
  intros [Hid Hb]. destruct Hinv. apply Forall_cons in inv_known0 as [[Hn Hk] _]. split; lia.
Qed.

(** The minter of the operation is the current one, and it is the only minter. *)
Lemma minting_current m b : minting t = Some (m, b) →
  id_minter s = m ∧ minter_lock s = Locked ∧ omap minting ts = [] ∧ total new_id ts = 0.
Proof using Hinv.
  intros Hm. destruct Hinv. cbn in inv_minting0. rewrite Hm in inv_minting0.
  destruct (minter_lock s); try done. destruct inv_minting0 as [b' E]. simplify_eq.
  split_and!; [done..|by apply no_minters].
Qed.

Lemma not_minting : minter_lock s ≠ Locked → published s (t :: ts) = next_id (id_minter s).
Proof using Hinv.
  intros Hl. destruct Hinv. assert (omap minting (t :: ts) = []) as E by by destruct (minter_lock s).
  unfold published. rewrite no_minters by done. lia.
Qed.

(** Opens the invariant and the facts about the first operation. *)
Ltac open_inv :=
  destruct Hinv; unfold available, published, owned, total in *; cbn in *;
  repeat match goal with H : Forall _ (t :: ts) |- _ => apply Forall_cons in H as [? ?] end.
Ltac close_inv :=
  split; unfold available, published, owned, total in *; cbn in *;
  try lazymatch goal with |- Forall _ (_ :: ts) => apply Forall_cons; split end; cbn; try done.

Lemma inv_learn id b : id ≤ published s (t :: ts) → b ≤ max_block (id_minter s) →
  inv n s (learn id b t :: ts) h g l.
Proof using Hinv.
  intros Hn Hb. open_inv. close_inv. unfold new_id in *. cbn in *. lia.
Qed.

Lemma inv_push id : known t id → inv n (set_list (fast_free_list s ++ [id]) s) (t :: ts) h g l.
Proof using Hinv.
  intros Hk%known_available. destruct Hinv. split; try done. cbn. by apply Forall_app_2, Forall_singleton.
Qed.

Lemma inv_pop_id id q : fast_free_list s = id :: q →
  0 ≤ id ∧ inv n (set_list q s) (learn (id + 1) (id / BLOCK_SIZE_IDS) t :: ts) h g l.
Proof using Hinv.
  intros E. pose proof (inv_list _ _ _ _ _ _ Hinv) as Hl. rewrite E in Hl.
  apply Forall_cons in Hl as [[Hid Hb] Hq]. split; [lia|].
  pose proof (inv_learn (id + 1) (id / BLOCK_SIZE_IDS) ltac:(lia) ltac:(lia)) as [].
  by split.
Qed.

Lemma inv_count_add d : inv n (set_used (usize_wrap (total_used s + d)) s)
  (set_pending (pending t - d) t :: ts) h g l.
Proof using Hinv.
  open_inv. close_inv. rewrite inv_count0. unfold usize_wrap.
  rewrite Zplus_mod_idemp_l. f_equal. lia.
Qed.

Lemma inv_read_largest largest : minter_lock s ≠ Locked → barrier_of t = WriteGuard largest →
  inv n s (set_barrier_of (WriteGuard (Some (Z.max 0 (next_id (id_minter s) - 1)))) t :: ts) h g l.
Proof using Hinv.
  intros Hl%not_minting Eb. open_inv. close_inv.
  - unfold reading in *. cbn. by rewrite Eb in inv_readers0.
  - unfold writing in *. cbn. by rewrite Eb in inv_writers0.
  - intros k [= <-]. grow.
Qed.

Lemma inv_lock_minter : minting t = None → minter_lock s = Unlocked →
  inv n (set_minter_lock Locked s) (set_minting (Some (id_minter s, false)) t :: ts) h g l.
Proof using Hinv.
  intros Hm Hl. open_inv. rewrite Hl, Hm in inv_minting0. unfold new_id in *. rewrite Hm in *.
  close_inv. exists false. by rewrite inv_minting0.
Qed.

Lemma inv_unlock_minter lk : minting t ≠ None → lk ≠ Locked →
  inv n (set_minter_lock lk s) (set_minting None t :: ts) h g l.
Proof using Hinv.
  intros Hm Hlk. destruct (minting t) as [[m b]|] eqn:E; [|done].
  destruct (minting_current m b E) as (_ & _ & Ho & _). pose proof (new_id_nonneg t).
  open_inv. close_inv; try grow.
  - cbn. lia.
  - by destruct lk.
Qed.

(** The minter counts a new id. *)
Lemma inv_next_id m m' : minting t = Some (m, false) → buffer m' = buffer m →
  max_block m' = max_block m → next_id m' = next_id m + 1 → next_id m < u32_MAX →
  inv (n - 1) (set_minter m' s) (set_minting (Some (m', true)) t :: ts) h g l.
Proof using Hinv.
  intros E Hbuf Hb Hn Hmax. destruct (minting_current m false E) as (Em & El & Ho & Hnew).
  assert (new_id t = 0) as Ht by (unfold new_id; by rewrite E).
  unfold total in Hnew. open_inv. unfold minter_ok in *. rewrite Em in *.
  destruct inv_minter0 as (? & ? & ?).
  close_inv; try grow.
  - cbn. lia.
  - split_and!; try lia. congruence.
  - intros Hd. specialize (inv_budget0 Hd). lia.
  - rewrite El. exists true. by rewrite Ho.
Qed.

(** The minter adds a block. *)
Lemma inv_new_block m m' b : minting t = Some (m, b) → buffer m' = buffer m →
  next_id m' = next_id m → max_block m' = max_block m + 1 → max_block m + 1 < 65536 →
  inv n (set_minter m' s) (set_minting (Some (m', b)) t :: ts) h g l.
Proof using Hinv.
  intros E Hbuf Hn Hb Hmax. destruct (minting_current m b E) as (Em & El & Ho & Hnew).
  assert (new_id (set_minting (Some (m', b)) t) = new_id t) as Ht by (unfold new_id; by rewrite E).
  unfold total in Hnew. open_inv. unfold minter_ok in *. rewrite Em in *.
  destruct inv_minter0 as (? & ? & ?).
  close_inv; try grow.
  - lia.
  - split_and!; try lia. congruence.
  - intros Hd. specialize (inv_budget0 Hd). lia.
  - rewrite El. exists b. by rewrite Ho.
Qed.

Ltac barrier_counts Hb :=
  assert (reading t = match barrier_of t with ReadGuard _ => 1 | _ => 0 end) as Rt by done;
  assert (writing t = match barrier_of t with WriteGuard _ => 1 | _ => 0 end) as Wt by done;
  rewrite Hb in Rt, Wt.

Lemma inv_read_barrier : barrier_of t = NoBarrier → barrier_lock s = Unlocked →
  inv n (set_readers (S (readers s)) s)
    (set_barrier_of (ReadGuard (quantization_enabled (barrier s))) t :: ts) h g l.
Proof using Hinv.
  intros Hb Hl. barrier_counts Hb. open_inv. rewrite Hb in *. close_inv.
  - change (reading (set_barrier_of _ t)) with 1. lia.
  - change (writing (set_barrier_of _ t)) with 0. lia.
  - by rewrite Hl.
  - by intros q [= <-].
Qed.

Lemma inv_unread_barrier q : barrier_of t = ReadGuard q →
  inv n (set_readers (pred (readers s)) s) (set_barrier_of NoBarrier t :: ts) h g l.
Proof using Hinv.
  intros Hb. pose proof (total_nonneg reading ts reading_nonneg) as Hr. barrier_counts Hb. open_inv. close_inv.
  - change (reading (set_barrier_of _ t)) with 0. lia.
  - change (writing (set_barrier_of _ t)) with 0. lia.
  - intros Hl%inv_exclusive0. lia.
Qed.

Lemma inv_lock_barrier : barrier_of t = NoBarrier → barrier_lock s = Unlocked → readers s = 0%nat →
  inv n (set_barrier_lock Locked s) (set_barrier_of (WriteGuard None) t :: ts) h g l.
Proof using Hinv.
  intros Hb Hl Hr. barrier_counts Hb. open_inv. rewrite Hl in *. close_inv.
  - change (reading (set_barrier_of _ t)) with 0. lia.
  - change (writing (set_barrier_of _ t)) with 1. lia.
Qed.

(** The holder of the write guard is alone. *)
Lemma writer_alone k : barrier_of t = WriteGuard k →
  barrier_lock s = Locked ∧ readers s = 0%nat ∧ g = [] ∧ total writing ts = 0 ∧
  Forall (λ t', reading t' = 0) ts.
Proof using Hinv.
  intros Hb. pose proof (total_nonneg writing ts writing_nonneg) as Hw.
  pose proof (total_nonneg reading ts reading_nonneg) as Hr. barrier_counts Hb. open_inv.
  destruct (barrier_lock s); [lia| |lia]. rewrite inv_exclusive0 in inv_readers0 by done.
  split_and!; [done|by apply inv_exclusive0|apply nil_length_inv; lia|unfold total; lia|].
  apply total_zero; [apply reading_nonneg|unfold total; lia].
Qed.

Lemma inv_set_barrier k : barrier_of t = WriteGuard (Some k) →
  inv n (set_barrier (mkBarrier k true) s) (t :: ts) h g l.
Proof using Hinv.
  intros Hb. destruct (writer_alone _ Hb) as (_ & _ & Hg & _ & Hr).
  pose proof (inv_largest _ _ _ _ _ _ Hinv) as [Hl _]%Forall_cons. specialize (Hl k Hb).
  open_inv. subst g. close_inv.
  - by rewrite Hb.
  - apply (Forall_impl _ _ _ Hr). intros t' Ht' q Hq. unfold reading in Ht'. by rewrite Hq in Ht'.
  - intros _. by apply (Forall_impl _ _ _ Hl).
Qed.

Lemma inv_unlock_barrier k lk : barrier_of t = WriteGuard k → lk ≠ Locked →
  inv n (set_barrier_lock lk s) (set_barrier_of NoBarrier t :: ts) h g l.
Proof using Hinv.
  intros Hb Hlk. destruct (writer_alone _ Hb) as (_ & Hz & _ & Hw & _). unfold total in Hw.
  barrier_counts Hb. open_inv.
  close_inv.
  - change (reading (set_barrier_of _ t)) with 0. lia.
  - change (writing (set_barrier_of _ t)) with 0. by destruct lk; rewrite ?Hw.
Qed.

(** The store gets an empty block above the last one. *)
Lemma inv_write_block gs m b : minting t = Some (m, b) →
  contents gs = <[block_key (max_block m + 1):=empty_block]> (contents (callbacks s)) →
  inv n (set_callbacks gs s) (t :: ts) h g l.
Proof using Hinv.
  intros E Hc. destruct (minting_current m b E) as (Em & _). pose proof Hinv as Hinv'. destruct Hinv.
  destruct inv_minter0 as (_ & Hmb & _). rewrite Em in Hmb.
  apply inv_store; [|intros id Hid|done]; rewrite Hc; [by apply blocks_ok_new_block|].
  rewrite used_new_block by lia. case_decide as Eb; [|done].
  destruct (used (contents (callbacks s)) id) eqn:Eu; [|done]. apply inv_used0 in Eu; [|done].
  rewrite Forall_forall in inv_owned0. destruct (inv_owned0 id Eu) as [_ Hle]. rewrite Em in Hle. lia.
Qed.

(** The new id becomes known, before it is marked. *)
Lemma inv_publish m : minting t = Some (m, true) →
  inv n s (set_minting (Some (m, false)) t :: ts) h g l ∧
  id_minter s = m ∧ published s (t :: ts) = next_id m - 1 ∧
  published s (set_minting (Some (m, false)) t :: ts) = next_id m.
Proof using Hinv.
  intros E. destruct (minting_current m true E) as (Em & El & Ho & Hnew).
  assert (new_id t = 1) as Ht by (unfold new_id; by rewrite E).
  unfold total in Hnew. split.
  - open_inv. close_inv; try grow; rewrite ?El; eauto.
    + cbn. lia.
    + exists false. by rewrite Ho, Em.
  - split; [done|]. unfold published, total. cbn. rewrite Em. cbn. lia.
Qed.

(** An id that was free belongs to the operation. *)
Lemma inv_gain id b y i gs : available s (t :: ts) id → indexes_for_id id = (b, y, i) →
  used (contents (callbacks s)) id = false →
  contents gs = <[block_key b := <[Z.to_nat y := (update_status true (status_byte (contents (callbacks s)) b y) i).2]>
                    (default empty_block (contents (callbacks s) !! block_key b))]> (contents (callbacks s)) →
  inv n (set_callbacks gs s) (gain id t :: ts) h g l.
Proof using Hinv.
  intros Hav Ei Hf Hc. destruct Hinv.
  assert (id ∉ owned (t :: ts) h) as Hno by (intros Ho%inv_used0; [congruence|apply Hav]).
  assert (owned (gain id t :: ts) h ≡ₚ id :: owned (t :: ts) h) as Hperm.
  { unfold owned. cbn. by rewrite <-Permutation_middle. }
  split; try done; cbn; rewrite ?Hc, ?Hperm; try same_head; try done.
  - apply (blocks_ok_update _ inv_blocks0 id b y i true); [apply Hav|done].
  - by constructor.
  - intros j Hj. rewrite (used_update _ inv_blocks0 id b y i true) by (done || apply Hav).
    rewrite Hperm, elem_of_cons. case_decide; [naive_solver|]. rewrite inv_used0 by done. naive_solver.
  - by constructor.
  - rewrite inv_count0. f_equal. unfold total. cbn. lia.
Qed.

(** The owner gives its id up. *)
Lemma inv_lose id b y i gs : own t = [id] → 0 ≤ id → indexes_for_id id = (b, y, i) →
  contents gs = <[block_key b := <[Z.to_nat y := (update_status false (status_byte (contents (callbacks s)) b y) i).2]>
                    (default empty_block (contents (callbacks s) !! block_key b))]> (contents (callbacks s)) →
  used (contents (callbacks s)) id = true ∧
  inv n (set_callbacks gs s) (set_own [] (set_pending (pending t - 1) t) :: ts) h g l.
Proof using Hinv.
  intros Ho Hid Ei Hc. destruct Hinv.
  set (t' := set_own [] (set_pending (pending t - 1) t)).
  assert (owned (t :: ts) h ≡ₚ id :: owned (t' :: ts) h) as Hperm.
  { unfold owned. cbn. rewrite Ho. cbn. by rewrite Permutation_middle. }
  rewrite Hperm in inv_nodup0, inv_owned0, inv_count0.
  apply NoDup_cons in inv_nodup0 as [Hno Hnd]. apply Forall_cons in inv_owned0 as [Hav Hall].
  split; [apply inv_used0; [done|]; rewrite Hperm; by left|].
  split; try done; cbn; rewrite ?Hc; try same_head; try done.
  - by apply (blocks_ok_update _ inv_blocks0 id b y i false).
  - intros j Hj. rewrite (used_update _ inv_blocks0 id b y i false) by done.
    case_decide; [naive_solver|]. rewrite inv_used0, Hperm, elem_of_cons by done. naive_solver.
  - rewrite inv_count0. f_equal. unfold total. cbn. lia.
Qed.
End action.

Lemma inv_observe n s t ts h g l : inv n s (t :: ts) h g l → minter_lock s ≠ Locked →
  inv n s (observe (id_minter s) t :: ts) h g l.
Proof.
  intros Hinv Hl. unfold observe.
  destruct (barrier_of t) eqn:Eb; apply inv_learn; try (by eapply inv_read_largest || lia); try done;
    by rewrite (not_minting n s _ ts h g l) by (by eapply inv_read_largest || done).
Qed.

Lemma store_sound n s t ts h g l id u K a gs :
  inv n s (t :: ts) h g l → mark_wp id u t K →
  (let '(b, y, i) := indexes_for_id id in
   g_rmw (callbacks s) (block_key b) (Z.to_nat BLOCK_SIZE_BYTES) (update_block u y i)) = (a, gs) →
  ∃ t', K a t' ∧ inv n (set_callbacks gs s) (t' :: ts) h g l.
Proof.
  intros Hinv (Hid & Hfail & Hu) Ha. destruct (indexes_for_id id) as [[b y] i] eqn:Ei.
  apply rmw_contents in Ha. fold empty_block in Ha.
  pose proof (inv_blocks _ _ _ _ _ _ Hinv) as Hblocks.
  rewrite (update_block_eq _ Hblocks id b y i u Hid Ei) in Ha.
  destruct a as [| |changed]; [done| |].
  { exists t. split; [done|]. by eapply inv_same, Hinv. }
  destruct Ha as [-> Hc]. destruct u.
  - destruct Hu as [(Hk & Hold & Hnew)|(m & Em & En & Eb & Hnew)].
    + destruct (used (contents (callbacks s)) id) eqn:Eu; cbn [eqb negb].
      * exists t. split; [done|]. apply inv_store; [|intros j Hj|done]; rewrite Hc.
        { by apply (blocks_ok_update _ Hblocks id b y i true). }
        rewrite (used_update _ Hblocks id b y i true) by done. case_decide; congruence.
      * exists (gain id t). split; [done|]. eapply inv_gain; eauto using known_available.
    + destruct (inv_publish _ _ _ _ _ _ _ Hinv m Em) as (Hinv' & Es & Hp & Hp').
      assert (used (contents (callbacks s)) id = false) as Eu.
      { destruct (used (contents (callbacks s)) id) eqn:Eu; [|done].
        apply (inv_used _ _ _ _ _ _ Hinv) in Eu; [|done].
        pose proof (inv_owned _ _ _ _ _ _ Hinv) as Ho. rewrite Forall_forall in Ho.
        destruct (Ho id Eu) as [Hlt _]. lia. }
      rewrite Eu in *. cbn [eqb negb]. eexists. split; [done|]. eapply inv_gain; eauto.
      split; [lia|by rewrite Es].
  - destruct Hu as [Ho Hnew]. destruct (inv_lose _ _ _ _ _ _ _ Hinv id b y i gs Ho Hid Ei Hc) as [Eu Hinv'].
    rewrite Eu. cbn [eqb negb]. by eexists.
Qed.

(** Every action that the protocol allows keeps the invariant. *)
Lemma action_sound n s t ts h g l c K r s' :
  inv n s (t :: ts) h g l → (debug = false → 1 ≤ n) → wp_call debug c t K →
  perform c s = Some (r, s') → ∃ t', K r t' ∧ inv (n - 1) s' (t' :: ts) h g l.
Proof.
  intros Hinv Hn Hwp Hs. pose proof (inv_minter _ _ _ _ _ _ Hinv) as Hm.
  assert (∀ s' t', K r t' → inv n s' (t' :: ts) h g l → ∃ t', K r t' ∧ inv (n - 1) s' (t' :: ts) h g l)
    as Hkeep by eauto using inv_weaken.
  assert (∀ s', same s s' → K r t → ∃ t', K r t' ∧ inv (n - 1) s' (t' :: ts) h g l) as Hsame
    by eauto using inv_same.
  destruct c; cbn in *; unfold acquire in Hs;
    try (simplify_eq; by apply Hsame).
  - destruct Hwp as [Hk HK]. case_match; simplify_eq; [|by apply Hsame].
    eapply Hkeep; [done|]. by apply inv_push.
  - destruct Hwp as [Hnone HK]. destruct (fast_free_list s) as [|id q] eqn:El; simplify_eq; [by apply Hsame|].
    destruct (inv_pop_id _ _ _ _ _ _ _ Hinv id q El) as [Hid Hinv']. eapply Hkeep; [by apply HK|done].
  - simplify_eq. eapply Hkeep; [done|]. by apply (inv_count_add _ _ _ _ _ _ _ Hinv 1).
  - simplify_eq. eapply Hkeep; [done|]. by apply (inv_count_add _ _ _ _ _ _ _ Hinv (-1)).
  - destruct Hwp as [Hnone HK]. destruct (minter_lock s) eqn:El; simplify_eq; [|by apply Hsame].
    eapply Hkeep; [by apply HK|]. apply inv_observe; congruence.
  - destruct Hwp as (Hno & Hnone & HK). destruct (minter_lock s) eqn:El; simplify_eq; [|by apply Hsame].
    eapply Hkeep; [|by eapply inv_lock_minter]. apply HK; [done|]. intros Hd.
    pose proof (inv_budget _ _ _ _ _ _ Hinv Hd). specialize (Hn Hd). lia.
  - destruct Hwp as (m0 & b & Em & Hbuf & [(-> & Hb & Hnext & Hmax & HK)|(Hnext & Hb & Hmax & HK)]); simplify_eq.
    + eexists. split; [done|]. by eapply inv_next_id.
    + eapply Hkeep; [done|]. by eapply inv_new_block.
  - simplify_eq. eapply Hkeep; [apply Hwp|]. by apply inv_unlock_minter; [|apply Hwp|].
  - simplify_eq. eapply Hkeep; [apply Hwp|]. by apply inv_unlock_minter; [|apply Hwp|].
  - destruct Hwp as (Hno & Hnone & HK). destruct (barrier_lock s) eqn:El; simplify_eq; [|by apply Hsame].
    eapply Hkeep; [by apply HK|]. by apply inv_read_barrier.
  - simplify_eq. destruct Hwp as [[q Hq] HK]. eapply Hkeep; [done|]. by eapply inv_unread_barrier.
  - destruct Hwp as (Hno & Hnone & HK). destruct (Nat.eqb_spec (readers s) 0); [|done].
    destruct (barrier_lock s) eqn:El; simplify_eq; [|by apply Hsame].
    eapply Hkeep; [done|]. by apply inv_lock_barrier.
  - simplify_eq. destruct Hwp as [(k & Hk & ->) HK]. eapply Hkeep; [done|]. by apply inv_set_barrier.
  - simplify_eq. destruct Hwp as [[k Hk] HK]. eapply Hkeep; [done|]. by eapply inv_unlock_barrier.
  - simplify_eq. destruct Hwp as [[k Hk] HK]. eapply Hkeep; [done|]. by eapply inv_unlock_barrier.
  - destruct (refill_lock s); simplify_eq; by apply Hsame.
  - destruct (g_read (callbacks s) key) as [v gs] eqn:Eg. simplify_eq. apply read_contents in Eg as [Eg _].
    by apply Hsame.
  - destruct (g_write (callbacks s) key value) as [ok gs] eqn:Eg. simplify_eq.
    apply write_contents in Eg. destruct Hwp as [(m & b & Em & -> & ->) HK].
    destruct r; [|by apply Hsame]. eapply Hkeep; [done|]. by eapply inv_write_block.
  - destruct Hwp as (id & u & Ec & Hwp). destruct (g_rmw _ _ _ _) as [a gs] eqn:Eg. simplify_eq.
    unfold mark_call in Ec. destruct (indexes_for_id id) as [[b y] i] eqn:Ei. simplify_eq.
    edestruct (store_sound n s t ts h g l id u K) as (t' & HK & Hinv'); [done|done|by rewrite Ei|].
    by eapply Hkeep.
Qed.

(** *** Operations start and end *)

Lemma published_bound n s ts h g l : inv n s ts h g l → -1 ≤ published s ts.
Proof.
  intros []. pose proof (new_id_minters ts) as Hl. destruct inv_minter0 as [? _].
  assert (length (omap minting ts) ≤ 1)%nat.
  { destruct (minter_lock s); [rewrite inv_minting0|destruct inv_minting0 as [? ->]|rewrite inv_minting0];
      cbn; lia. }
  unfold published. lia.
Qed.

Lemma inv_start n s ts h g l : inv n s ts h g l → inv n s (no_tokens :: ts) h g l.
Proof.
  intros Hinv. pose proof (published_bound _ _ _ _ _ _ Hinv). destruct Hinv.
  destruct inv_minter0 as (? & ? & ?).
  split; try done; apply Forall_cons; split; try done.
  change (published s (no_tokens :: ts)) with (published s ts). cbn. lia.
Qed.

(** An operation takes an id of a client over, to free it. *)
Lemma inv_start_free n s ts id h g l : inv n s ts (id :: h) g l →
  ∃ t, shape [id] NoBarrier t ∧ known t id ∧ inv n s (t :: ts) h g l.
Proof.
  intros Hinv. pose proof (inv_owned _ _ _ _ _ _ Hinv) as [[Hid Hb] _]%Forall_cons.
  exists (learn (id + 1) (id / BLOCK_SIZE_IDS) (set_own [id] no_tokens)).
  split; [done|]. split; [apply known_learn; lia|].
  apply inv_start in Hinv.
  apply inv_learn; [|change (id + 1 ≤ published s ts); lia|done].
  assert (owned (no_tokens :: ts) (id :: h) ≡ₚ owned (set_own [id] no_tokens :: ts) h) as Hperm.
  { unfold owned. cbn. by rewrite Permutation_middle. }
  destruct Hinv. split; try same_head; try done; rewrite <-?Hperm; try done.
  intros j Hj. rewrite <-Hperm. auto.
Qed.

(** A client takes over the id of a finished operation. *)
Lemma inv_take_id n s ts t id h g l : shape [id] NoBarrier t → inv n s (t :: ts) h g l →
  inv n s (set_own [] t :: ts) (id :: h) g l.
Proof.
  intros (Ho & Hp & Hm & Hb) Hinv.
  assert (owned (t :: ts) h ≡ₚ owned (set_own [] t :: ts) (id :: h)) as Hperm.
  { unfold owned. cbn. rewrite Ho. cbn. by rewrite Permutation_middle. }
  destruct Hinv. split; try same_head; try done; rewrite <-?Hperm; try done.
  intros j Hj. rewrite <-Hperm. auto.
Qed.

(** A client takes over the guard. *)
Lemma inv_take_guard n s ts t x h g l :
  shape [guard_id x] (ReadGuard (should_quantize x)) t → inv n s (t :: ts) h g l →
  inv n s (set_barrier_of NoBarrier t :: ts) h (x :: g) (x :: l).
Proof.
  intros (Ho & Hp & Hm & Hb) Hinv. pose proof (inv_owned _ _ _ _ _ _ Hinv) as Hav.
  pose proof (total_nonneg reading ts reading_nonneg) as Hr.
  assert (readers s ≠ 0%nat ∧ barrier_lock s ≠ Locked) as [Hr0 Hl].
  { destruct Hinv. assert (reading t = 1) by (unfold reading; by rewrite Hb).
    unfold total in *. cbn in inv_readers0. split; [lia|]. intros E%inv_exclusive0. lia. }
  destruct Hinv.
  assert (reading t = 1 ∧ writing t = 0) as [Rt Wt] by (unfold reading, writing; by rewrite Hb).
  pose proof inv_flags0 as [Hq _]%Forall_cons. specialize (Hq _ Hb).
  assert (total writing (t :: ts) = 0) as Hw by (by destruct (barrier_lock s)).
  split; try same_head; try done.
  - unfold total in *. cbn in *. change (reading (set_barrier_of NoBarrier t)) with 0. lia.
  - unfold total in *. cbn in *. change (writing (set_barrier_of NoBarrier t)) with 0. lia.
  - by constructor.
  - constructor; [|done]. rewrite Forall_forall in Hav. apply (Hav (guard_id x)).
    unfold owned. cbn. rewrite Ho. set_solver.
  - intros Hqe. specialize (inv_backfill0 Hqe). constructor; [congruence|done].
  - apply (total_zero writing) in Hw; [|apply writing_nonneg]. apply Forall_cons in Hw as [_ Hw].
    apply Forall_cons. split; [done|]. apply (Forall_impl _ _ _ Hw). intros t' Ht' k Hk.
    unfold writing in Ht'. by rewrite Hk in Ht'.
Qed.

Lemma inv_drop_guard n s ts x h g l : inv n s ts h (x :: g) l →
  inv n (set_readers (pred (readers s)) s) ts h g l.
Proof.
  intros Hinv. pose proof (total_nonneg reading ts reading_nonneg). destruct Hinv.
  split; try done; cbn in *.
  - lia.
  - intros E%inv_exclusive0. lia.
  - by apply Forall_cons in inv_guards0 as [_ ?].
Qed.
End invariant.

(** ** Reachable configurations *)
Section reachable.
Context (debug : bool) {G : Type} `{GarnetLaws G}.

(** The ids [h] are marked used, and no operation is in the middle of changing that. *)
Record settled (s : FreeSpaceMap G) (h : list Z) : Prop := {
  rest_blocks : blocks_ok (contents (callbacks s));
  rest_nodup : NoDup h;
  rest_used id : 0 ≤ id → used (contents (callbacks s)) id = true ↔ id ∈ h;
  rest_held : Forall (available s []) h;
  rest_list : Forall (available s []) (fast_free_list s);
  rest_count : total_used s = usize_wrap (Z.of_nat (length h));
  rest_minter : minter_ok (id_minter s);
  rest_minter_lock : minter_lock s = Unlocked;
}.

(** A map that no operation is using. *)
Record at_rest (s : FreeSpaceMap G) (h : list Z) : Prop := {
  rest_settled :> settled s h;
  rest_barrier_lock : barrier_lock s = Unlocked;
  rest_readers : readers s = 0%nat;
}.

Definition start (s : FreeSpaceMap G) (h : list Z) : config G := mkConfig s [] h [] [].

Definition cinv (n : Z) (c : config G) : Prop :=
  ∃ ts, inv debug n (fsm c) ts (held c) (guards c) (issued c) ∧
        Forall2 (safe_thread debug) (threads c) ts.

Lemma cinv_start n s h : at_rest s h → (debug = false → next_id (id_minter s) + n ≤ u32_MAX) →
  cinv n (start s h).
Proof.
  intros [[] ? ?] Hn. exists []. split; [|constructor].
  split; unfold owned; cbn; rewrite ?app_nil_r, ?rest_minter_lock0, ?rest_barrier_lock0, ?rest_readers0;
    try done.
  by rewrite Z.sub_0_r.
Qed.

Lemma delete_insert_perm {A} i (x y : A) (l : list A) : l !! i = Some x →
  l ≡ₚ x :: delete i l ∧ <[i:=y]> l ≡ₚ y :: delete i l.
Proof.
  intros Hl. split; [by apply delete_Permutation|].
  rewrite insert_take_drop, delete_take_drop by (by eapply lookup_lt_Some).
  by rewrite Permutation_middle.
Qed.

(** Replaces the operation [i], whose tokens are [t]. *)
Lemma cinv_replace n s s' ps ts i p p' h h' g g' l l' :
  inv debug n s ts h g l → Forall2 (safe_thread debug) ps ts → ps !! i = Some p →
  (∀ t ts', safe_thread debug p t → inv debug n s (t :: ts') h g l →
    ∃ t', safe_thread debug p' t' ∧ inv debug (n - 1) s' (t' :: ts') h' g' l') →
  cinv (n - 1) (mkConfig s' (<[i:=p']> ps) h' g' l').
Proof.
  intros Hinv Hsafe Hi Hstep. destruct (Forall2_lookup_l _ _ _ _ _ Hsafe Hi) as (t & Ht & Hp).
  destruct (delete_insert_perm i t t ts Ht) as [Hperm _].
  destruct (Hstep t (delete i ts) Hp) as (t' & Hp' & Hinv'); [by eapply inv_perm|].
  destruct (delete_insert_perm i t t' ts Ht) as [_ Hperm'].
  exists (<[i:=t']> ts). split; [by eapply inv_perm|]. by apply Forall2_insert.
Qed.

Lemma cinv_spawn n s ps ts t p h g l :
  inv debug n s (t :: ts) h g l → Forall2 (safe_thread debug) ps ts → safe_thread debug p t →
  cinv (n - 1) (mkConfig s (ps ++ [p]) h g l).
Proof.
  intros Hinv Hsafe Hp. exists (ts ++ [t]). split.
  - apply inv_weaken. eapply inv_perm, Hinv; try done. apply Permutation_cons_append.
  - by apply Forall2_app; [|constructor].
Qed.

Lemma cinv_step n c c' : cinv n c → (debug = false → 1 ≤ n) → step debug c c' → cinv (n - 1) c'.
Proof.
  intros (ts & Hinv & Hsafe) Hn Hstep.
  destruct Hstep as [fuel|id s ps h h' g l Hh|p s ps h g l Hop|i a k r s s' ps h g l Hi Hs
                    |i x s ps h g l Hi|i id s ps h g l Hi|x s s' ps h g g' l r Hg Hs]; cbn in *.
  - eapply cinv_spawn; [by apply inv_start|done|apply safe_next_thread].
  - destruct (inv_start_free debug n s ts id h' g l) as (t & Ht & Hk & Hinv');
      [by eapply inv_perm, Hinv|].
    eapply cinv_spawn; [done..|by apply safe_free_thread].
  - eapply cinv_spawn; [by apply inv_start|done|by apply safe_other_op].
  - eapply cinv_replace; [done..|]. intros t ts' Hp Hinv'.
    by eapply (action_sound debug n s t ts' h g l a (λ r t', safe_thread debug (k r) t')).
  - eapply cinv_replace; [done..|]. intros t ts' Hp Hinv'. pose proof Hp as (Ho & Hpe & Hm & _).
    eexists. split; [|apply inv_weaken, inv_take_id; [|by eapply inv_take_guard]]; done.
  - eapply cinv_replace; [done..|]. intros t ts' Hp Hinv'. pose proof Hp as (Ho & Hpe & Hm & Hb).
    eexists. split; [|by apply inv_weaken, inv_take_id]. done.
  - simplify_eq. exists ts. split; [|done]. eapply inv_weaken, inv_drop_guard, inv_perm, Hinv; done.
Qed.

Lemma cinv_steps n m c c' : steps debug m c c' → cinv n c → (debug = false → Z.of_nat m ≤ n) →
  cinv (n - Z.of_nat m) c'.
Proof.
  induction 1 as [c|m c c' c'' Hs IH Hstep]; intros Hc Hm; [by rewrite Z.sub_0_r|].
  replace (n - Z.of_nat (S m)) with (n - Z.of_nat m - 1) by lia.
  eapply cinv_step; [apply IH; [done|intros Hd; specialize (Hm Hd); lia]| |done].
  intros Hd. specialize (Hm Hd). lia.
Qed.

Lemma cinv_reachable s h n c : at_rest s h →
  (debug = false → next_id (id_minter s) + Z.of_nat n ≤ u32_MAX) → steps debug n (start s h) c →
  ∃ b, cinv b c.
Proof.
  intros Hr Hn Hs. eexists. eapply cinv_steps; [done|by apply cinv_start|done].
Qed.

(** The map of a store with one empty block. *)
Definition fresh_map (gs : G) (quantization reuse : bool) : FreeSpaceMap G :=
  mkFsm gs false [] (mkMinter 0 0 empty_block) Unlocked 0 reuse (mkBarrier u32_MAX quantization)
    0 Unlocked Unlocked.

Lemma fresh_map_at_rest gs c quantization reuse :
  (∀ b, 0 ≤ b → c !! block_key b = None) → blocks_ok c →
  contents gs = <[block_key 0:=empty_block]> c → at_rest (fresh_map gs quantization reuse) [].
Proof.
  intros Hnone Hb Hc. split; [|done..]. split; cbn; try done.
  - rewrite Hc. by apply blocks_ok_new_block.
  - constructor.
  - intros id Hid. rewrite Hc, used_new_block by lia. split; [|by intros ?%not_elem_of_nil].
    case_decide; [done|]. unfold used. destruct (indexes_for_id id) as [[b y] i] eqn:Ei.
    destruct (indexes_bounds id b y i Hid Ei) as (_ & Hb0 & _). by rewrite Hnone.
Qed.

(** C7: However the operations interleave, and whatever fails in the store, no id is issued to two
    clients: the ids that clients hold are distinct, marked used in the store and below [next_id];
    an id that [next_id] is about to return is none of them; and when no operation is in progress
    the used ids of the store are exactly those held, counted by [total_used].  A release build
    must not run out of 32-bit ids; a debug build panics before it does. *)
Theorem fsm_ids_exclusive s h n c : at_rest s h →
  (debug = false → next_id (id_minter s) + Z.of_nat n ≤ u32_MAX) → steps debug n (start s h) c →
  NoDup (held c) ∧
  (∀ id, id ∈ held c → used (contents (callbacks (fsm c))) id = true ∧
                       id < next_id (id_minter (fsm c))) ∧
  (∀ i x, threads c !! i = Some (Ret (Issued x)) →
     guard_id x ∉ held c ∧ used (contents (callbacks (fsm c))) (guard_id x) = true) ∧
  (Forall (λ p, p = Ret Over) (threads c) →
     (∀ id, 0 ≤ id → used (contents (callbacks (fsm c))) id = true ↔ id ∈ held c) ∧
     total_used (fsm c) = usize_wrap (Z.of_nat (length (held c)))).
Proof.
  intros Hr Hn Hs. destruct (cinv_reachable s h n c Hr Hn Hs) as (b & ts & Hinv & Hsafe).
  pose proof (inv_nodup _ _ _ _ _ _ _ Hinv) as Hnd.
  pose proof (inv_owned _ _ _ _ _ _ _ Hinv) as Hav. rewrite Forall_forall in Hav.
  assert (∀ id, id ∈ owned ts (held c) → used (contents (callbacks (fsm c))) id = true) as Hused.
  { intros id Hid. apply (inv_used _ _ _ _ _ _ _ Hinv); [by apply Hav|done]. }
  assert (0 ≤ total new_id ts) by apply total_nonneg, new_id_nonneg.
  apply NoDup_app in Hnd as (Hnd & Hdisj & _). split_and!; [done|..].
  - intros id Hid. assert (id ∈ owned ts (held c)) as Ho by (apply elem_of_app; by left).
    split; [by apply Hused|]. destruct (Hav id Ho) as [Hlt _]. unfold published in Hlt. lia.
  - intros i x Hi. destruct (Forall2_lookup_l _ _ _ _ _ Hsafe Hi) as (t & Ht & Hp & _).
    assert (guard_id x ∈ (ts ≫= own)) as Hx.
    { apply list_elem_of_bind. exists t. rewrite Hp. split; [by left|by eapply list_elem_of_lookup_2]. }
    split; [intros Hh; by apply (Hdisj _ Hh)|]. apply Hused, elem_of_app. by right.
  - intros Hall. assert ((ts ≫= own) = [] ∧ total pending ts = 0) as [E1 E2].
    { clear -Hall Hsafe. induction Hsafe as [|p t ps ts Hp Hps IH]; [done|].
      apply Forall_cons in Hall as [-> Hall]. destruct Hp as (Ho & Hpe & _).
      destruct (IH Hall) as [E1 E2]. unfold total in *. cbn. rewrite Ho, Hpe, E1. done. }
    destruct Hinv. unfold owned in *. rewrite E1, app_nil_r in *. rewrite E2, Z.sub_0_r in *. done.
Qed.

(** The phases of quantization are separated, however the operations interleave: once
    quantization is enabled, every guard that is still alive tells its holder to quantize, and
    every id that was ever issued with the instruction not to quantize is at most
    [max_id_for_backfill], so that the backfill reaches it. *)
Theorem fsm_backfill_covers s h n c : at_rest s h →
  (debug = false → next_id (id_minter s) + Z.of_nat n ≤ u32_MAX) → steps debug n (start s h) c →
  quantization_enabled (barrier (fsm c)) = true →
  Forall (λ x, should_quantize x = true) (guards c) ∧
  Forall (λ x, should_quantize x = false → guard_id x ≤ max_id_for_backfill (barrier (fsm c))) (issued c).
Proof.
  intros Hr Hn Hs Hq. destruct (cinv_reachable s h n c Hr Hn Hs) as (b & ts & Hinv & Hsafe).
  destruct Hinv. split; [|by apply inv_backfill0].
  apply (Forall_impl _ _ _ inv_guards0). intros x ->. done.
Qed.
End reachable.

(** ** Witnesses *)

Definition one_block : gmap Z (list Z) := <[block_key 0:=empty_block]> ∅.
Definition empty_map : FreeSpaceMap (gmap Z (list Z)) := fresh_map one_block false true.

Lemma empty_map_at_rest : at_rest empty_map [].
Proof. by apply (fresh_map_at_rest one_block ∅). Qed.

(** Two clients ask for an id at the same time; the second one waits for the minter of the
    first.  Then both guards are dropped and quantization is enabled. *)
Definition moves : list move :=
  [MNext 1; MNext 1; MAct 1; MAct 0; MAct 0; MAct 0; MAct 0; MAct 1; MAct 0; MAct 0; MAct 0;
   MAct 0; MAct 0; MAct 1; MAct 1; MAct 1; MAct 1; MAct 1; MAct 1; MAct 1].
Definition moves_quantize : list move :=
  moves ++ [MDrop; MDrop; MQuantize; MAct 2; MAct 2; MAct 2; MAct 2].

Lemma exec_moves ms c : exec_all true (start empty_map []) ms = Some c →
  steps true (length ms) (start empty_map []) c.
Proof. by apply (exec_all_steps true ms 0), steps_O. Qed.

Definition after (ms : list move) : config (gmap Z (list Z)) :=
  default (start empty_map []) (exec_all true (start empty_map []) ms).

Lemma after_moves ms : (if exec_all true (start empty_map []) ms is Some _ then true else false) = true →
  exec_all true (start empty_map []) ms = Some (after ms).
Proof. unfold after. by destruct (exec_all true (start empty_map []) ms). Qed.

Lemma fsm_ids_exclusive_witness :
  held (after moves) = [1; 0] ∧ NoDup (held (after moves)) ∧ total_used (fsm (after moves)) = 2.
Proof.
  destruct (fsm_ids_exclusive true empty_map [] (length moves) (after moves)) as (Hnd & _ & _ & Hdone);
    [exact empty_map_at_rest|done|apply exec_moves, after_moves; vm_compute; reflexivity|].
  split; [vm_compute; reflexivity|]. split; [exact Hnd|].
  destruct Hdone as [_ Ht]; [|rewrite Ht; vm_compute; reflexivity].
  replace (threads (after moves)) with [Ret Over; Ret Over] by (vm_compute; reflexivity).
  by repeat constructor.
Defined.

Lemma fsm_backfill_covers_witness :
  issued (after moves_quantize) = [mkGuard 1 false; mkGuard 0 false] ∧
  Forall (λ x, should_quantize x = false → guard_id x ≤ 1) (issued (after moves_quantize)).
Proof.
  destruct (fsm_backfill_covers true empty_map [] (length moves_quantize) (after moves_quantize)) as [_ H];
    [exact empty_map_at_rest|done|apply exec_moves, after_moves; vm_compute; reflexivity
    |vm_compute; reflexivity|].
  split; [vm_compute; reflexivity|].
  replace (max_id_for_backfill (barrier (fsm (after moves_quantize)))) with 1 in H by (vm_compute; reflexivity).
  exact H.
Defined.
