(* ===== verification/FsmScan.v ===== *)
(** * The scans of the free-space map

    Operations of [Fsm] that run alone on a store that does not fail.
    - Section [visit]: [visit_used] calls its closure on the used ids, in order.
    - Section [refill]: [refill_fast_free_list] finds the smallest free ids.
    - Section [load]: [load_state] recovers the map from the blocks.
    Each is compared with a definition by list functions over the ids ([visit_ids], [free_ids],
    [used_ids]), without blocks, bytes and the shortcuts for bytes that are full or empty. *)

From S2P Require Import Prelude Bytes Fsm FsmBlocks.
Local Open Scope Z_scope.

(** ** Programs that run alone *)
Section run.
Context {G : Type} `{GarnetStore G}.

Lemma run_bind {A B} (p : prog A) (f : A → prog B) (s : FreeSpaceMap G) :
  run (p ≫= f) s = match run p s with
                   | (Returned a, s') => run (f a) s'
                   | (Panicked, s') => (Panicked, s')
                   | (Spinning, s') => (Spinning, s')
                   | (Deadlock, s') => (Deadlock, s')
                   end.
Proof.
  revert s. induction p as [a| | |c k IH]; intros s; try done. cbn.
  destruct (perform c s) as [[r s']|]; [apply IH|done].
Qed.

Lemma run_act {A} c (f : answer c → prog A) (s s' : FreeSpaceMap G) r :
  perform c s = Some (r, s') → run (act c ≫= f) s = run (f r) s'.
Proof. intros E. cbn. by rewrite E. Qed.

Lemma run_bind_ret {A B} (p : prog A) (f : A → prog B) (s s' : FreeSpaceMap G) a :
  run p s = (Returned a, s') → run (p ≫= f) s = run (f a) s'.
Proof. intros E. by rewrite run_bind, E. Qed.

Lemma run_try_ok {A B} (p : prog (result FsmError A)) (f : A → prog (result FsmError B))
    (s s' : FreeSpaceMap G) a :
  run p s = (Returned (Ok a), s') → run (try_bind p f) s = run (f a) s'.
Proof. intros E. unfold try_bind. by rewrite run_bind, E. Qed.

Lemma run_unwind {A} c (p : prog A) (s s' : FreeSpaceMap G) a :
  run p s = (Returned a, s') → run (unwind c p) s = (Returned a, s').
Proof.
  revert s. induction p as [a'| | |c' k IH]; intros s; cbn; try done.
  destruct (perform c' s) as [[r s'']|]; [apply IH|done].
Qed.
End run.

Lemma u32_add_small debug x y : x + y < 2 ^ 32 → u32_add debug x y = Some (x + y).
Proof. intros. unfold u32_add. by rewrite (proj2 (Z.ltb_lt _ _)). Qed.

(** ** Ids and their places *)

(** The number of ids of the first [n] blocks. *)
Definition ids_of_blocks (n : Z) : Z := BLOCK_SIZE_IDS * n.
#[global] Arguments ids_of_blocks : simpl never.

Lemma used_byte c b y i : 0 ≤ y < BLOCK_SIZE_BYTES → 0 ≤ i < 8 →
  used c (id_at b y i) = bit_used (status_byte c b y) i.
Proof. intros Hy Hi. apply used_status; [by apply indexes_id_at|done]. Qed.

Lemma full_byte i : 0 ≤ i < 8 → bit_used 255 i = true.
Proof.
  intros Hi. rewrite bit_used_testbit by done. change 255 with (Z.ones 8).
  apply Z.ones_spec_low. lia.
Qed.
Lemma zero_byte i : 0 ≤ i < 8 → bit_used 0 i = false.
Proof. intros Hi. by rewrite bit_used_testbit, Z.bits_0. Qed.

(** The bits of a list of bytes are the statuses [u] of the ids from [id] on. *)
Definition reads_as (u : Z → bool) (vs : list Z) (id : Z) : Prop :=
  ∀ k byte i, vs !! k = Some byte → 0 ≤ i < 8 → bit_used byte i = u (id + 8 * Z.of_nat k + i).

Lemma reads_as_cons u byte vs id : reads_as u (byte :: vs) id →
  (∀ i, 0 ≤ i < 8 → bit_used byte i = u (id + i)) ∧ reads_as u vs (id + 8).
Proof.
  intros Hr. split.
  - intros i Hi. rewrite (Hr 0%nat byte i) by done. f_equal. lia.
  - intros k byte' i Hk Hi. rewrite (Hr (S k) byte' i) by done. f_equal. lia.
Qed.

Lemma block_reads_as c b v : c !! block_key b = Some v → block_ok v →
  reads_as (used c) v (ids_of_blocks b).
Proof.
  intros Hv [Hl _] k byte i Hk Hi. pose proof (lookup_lt_Some _ _ _ Hk).
  replace (ids_of_blocks b + 8 * Z.of_nat k + i) with (id_at b (Z.of_nat k) i) by done.
  rewrite used_byte by lia. unfold status_byte. rewrite Hv. cbn. by rewrite Nat2Z.id, Hk.
Qed.

(** The blocks [0..n] of the store are there. *)
Definition has_blocks (c : gmap Z (list Z)) (n : Z) : Prop :=
  ∀ b, 0 ≤ b < n → ∃ v, c !! block_key b = Some v ∧ block_ok v.

Section reading.
Context {G : Type} `{GarnetReliable G} `{!GarnetLaws G}.

Lemma run_read (s : FreeSpaceMap G) key v :
  contents (callbacks s) !! key = Some v → block_ok v →
  ∃ gs, contents gs = contents (callbacks s) ∧
        run (read_single_wid key) s = (Returned (Some v), set_callbacks gs s).
Proof.
  intros Hv [Hl _]. unfold read_single_wid, act. cbn.
  pose proof (read_ok (callbacks s) key v Hv) as Hr.
  destruct (g_read (callbacks s) key) as [r gs] eqn:E. cbn in Hr. subst r.
  exists gs. split; [by apply read_contents in E as [? _]|].
  cbn. by rewrite (proj2 (Z.eqb_eq _ _)).
Qed.
End reading.

(** ** Visiting *)
Section visit.
Context (debug : bool) {B : Type} (f : B → Z → bool * B) (u : Z → bool).

(** The closure is called on the ids in use, until it returns [false]. *)
Fixpoint visit_ids (ids : list Z) (b : B) : bool * B :=
  match ids with
  | [] => (true, b)
  | id :: ids =>
      let '(keep_going, b) := if u id then f b id else (true, b) in
      if keep_going then visit_ids ids b else (false, b)
  end.

Lemma visit_ids_app ids ids' b :
  visit_ids (ids ++ ids') b =
    let '(keep_going, b) := visit_ids ids b in
    if keep_going then visit_ids ids' b else (false, b).
Proof.
  revert b. induction ids as [|id ids IH]; intros b; [done|]. cbn.
  destruct (if u id then f b id else (true, b)) as [[] b']; [apply IH|done].
Qed.

Lemma visit_ids_none ids b : (∀ id, id ∈ ids → u id = false) → visit_ids ids b = (true, b).
Proof.
  induction ids as [|id ids IH]; intros Hu; [done|]. cbn. rewrite Hu by (by left).
  apply IH. intros id' Hid'. apply Hu. by right.
Qed.

(** What a part of the scan returns: the next id, or [None] after a stop. *)
Definition visited (top : Z) (r : bool * B) : option Z * B := (if r.1 then Some top else None, r.2).

Context {G : Type} `{GarnetReliable G} `{!GarnetLaws G}.
Implicit Types s : FreeSpaceMap G.

Lemma run_visit_bits byte s n : ∀ k id b, 0 ≤ id → id + Z.of_nat n < 2 ^ 32 →
  (∀ j, 0 ≤ j < Z.of_nat n → bit_used byte (k + j) = u (id + j)) →
  run (visit_bits debug f byte (seqZ k (Z.of_nat n)) id b) s =
    (Returned (visited (id + Z.of_nat n) (visit_ids (seqZ id (Z.of_nat n)) b)), s).
Proof.
  induction n as [|n IH]; intros k id b Hid Htop Hu; [cbn; by rewrite Z.add_0_r|].
  rewrite !(seqZ_cons _ (Z.of_nat (S n))) by lia. cbn [visit_bits visit_ids].
  rewrite <-(Z.add_0_r k), <-(Z.add_0_r id) at 1. rewrite (Hu 0) by lia. rewrite !Z.add_0_r.
  destruct (if u id then f b id else (true, b)) as [[] b']; [|done].
  rewrite u32_add_small by lia. cbn [unwrap mbind prog_mbind prog_bind].
  replace (Z.pred (Z.of_nat (S n))) with (Z.of_nat n) by lia. unfold Z.succ.
  rewrite IH; [|lia..|].
  - by replace (id + 1 + Z.of_nat n) with (id + Z.of_nat (S n)) by lia.
  - intros j Hj. rewrite <-!Z.add_assoc, (Hu (1 + j)) by lia. done.
Qed.

Lemma run_visit_bytes s vs : ∀ id b, 0 ≤ id → id + 8 * Z.of_nat (length vs) < 2 ^ 32 →
  reads_as u vs id →
  run (visit_bytes debug f vs id b) s =
    (Returned (visited (id + 8 * Z.of_nat (length vs)) (visit_ids (seqZ id (8 * Z.of_nat (length vs))) b)), s).
Proof.
  induction vs as [|byte vs IH]; intros id b Hid Htop Hr; [cbn; by rewrite Z.add_0_r|].
  apply reads_as_cons in Hr as [Hbyte Hvs]. rewrite length_cons in *. cbn [visit_bytes].
  assert (seqZ id (8 * Z.of_nat (S (length vs))) =
          seqZ id 8 ++ seqZ (id + 8) (8 * Z.of_nat (length vs))) as ->.
  { rewrite <-seqZ_app by lia. f_equal. lia. }
  rewrite visit_ids_app.
  assert (∀ b, run (visit_bytes debug f vs (id + 8) b) s =
    (Returned (visited (id + 8 * Z.of_nat (S (length vs)))
       (visit_ids (seqZ (id + 8) (8 * Z.of_nat (length vs))) b)), s)) as HIH.
  { intros b'. replace (id + 8 * Z.of_nat (S (length vs))) with (id + 8 + 8 * Z.of_nat (length vs)) by lia.
    apply IH; done || lia. }
  destruct (Z.eqb_spec byte 0) as [->|].
  - rewrite u32_add_small by lia. cbn [unwrap mbind prog_mbind prog_bind].
    rewrite visit_ids_none; [apply HIH|]. intros id' Hid'%elem_of_seqZ.
    replace id' with (id + (id' - id)) by lia. rewrite <-Hbyte by lia. apply zero_byte. lia.
  - erewrite run_bind_ret; [|apply (run_visit_bits byte s 8); [lia..|]].
    + cbn [Z.of_nat Pos.of_succ_nat]. change (Z.of_nat 8) with 8.
      destruct (visit_ids (seqZ id 8) b) as [[] b']; cbn; [apply HIH|done].
    + intros j Hj. apply Hbyte. lia.
Qed.
End visit.

Section visit_blocks.
Context (debug : bool) {B : Type} (f : B → Z → bool * B).
Context {G : Type} `{GarnetReliable G} `{!GarnetLaws G}.

Lemma run_visit_blocks c n : ∀ (s : FreeSpaceMap G) k b,
  contents (callbacks s) = c → has_blocks c (k + Z.of_nat n) → 0 ≤ k →
  ids_of_blocks (k + Z.of_nat n) < 2 ^ 32 →
  ∃ gs, contents gs = c ∧
    run (visit_blocks debug f (seqZ k (Z.of_nat n)) (ids_of_blocks k) b) s =
      (Returned (Ok tt, (visit_ids f (used c) (seqZ (ids_of_blocks k) (ids_of_blocks (Z.of_nat n))) b).2),
       set_callbacks gs s).
Proof.
  induction n as [|n IH]; intros s k b Hc Hb Hk Htop.
  { exists (callbacks s). split; [done|]. cbn. by destruct s. }
  destruct (Hb k) as (v & Hv & Hok); [lia|]. pose proof Hok as [Hl _].
  change BLOCK_SIZE_BYTES with 8192 in Hl. unfold ids_of_blocks, BLOCK_SIZE_IDS in Htop.
  destruct (run_read s (block_key k) v) as (gs & Egs & Erun); [by rewrite Hc|done|].
  rewrite (seqZ_cons k) by lia. cbn [visit_blocks]. rewrite (run_bind_ret _ _ _ _ _ Erun).
  erewrite run_bind_ret; [|eapply (run_visit_bytes debug f (used c))].
  2-4: rewrite ?Hl; unfold ids_of_blocks, BLOCK_SIZE_IDS; try lia; by apply block_reads_as.
  replace (8 * Z.of_nat (length v)) with (ids_of_blocks 1) by (rewrite Hl; done).
  replace (ids_of_blocks (Z.of_nat (S n))) with (ids_of_blocks 1 + ids_of_blocks (Z.of_nat n))
    by (unfold ids_of_blocks; lia).
  rewrite seqZ_app by (unfold ids_of_blocks, BLOCK_SIZE_IDS; lia). rewrite visit_ids_app.
  replace (ids_of_blocks k + ids_of_blocks 1) with (ids_of_blocks (k + 1)) by (unfold ids_of_blocks; lia).
  destruct (visit_ids f (used c) (seqZ (ids_of_blocks k) (ids_of_blocks 1)) b) as [[] b'].
  2: { exists gs. split; [congruence|done]. }
  cbn [visited fst snd].
  replace (Z.pred (Z.of_nat (S n))) with (Z.of_nat n) by lia. unfold Z.succ.
  destruct (IH (set_callbacks gs s) (k + 1) b') as (gs' & Egs' & Erun').
  - cbn. congruence.
  - by replace (k + 1 + Z.of_nat n) with (k + Z.of_nat (S n)) by lia.
  - lia.
  - unfold ids_of_blocks, BLOCK_SIZE_IDS. lia.
  - exists gs'. split; [done|]. by rewrite Erun'.
Qed.

(** [visit_used] calls its closure on exactly the ids that are marked used, each once and in
    increasing order, until the closure asks to stop; it changes nothing.  (The last block must
    not be the last of the 32-bit ids, where the running id overflows.) *)
Theorem visit_used_correct (s : FreeSpaceMap G) b :
  minter_lock s = Unlocked → 0 ≤ max_block (id_minter s) →
  has_blocks (contents (callbacks s)) (max_block (id_minter s) + 1) →
  ids_of_blocks (max_block (id_minter s) + 1) < 2 ^ 32 →
  ∃ gs, contents gs = contents (callbacks s) ∧
    run (visit_used debug f b) s =
      (Returned (Ok tt, (visit_ids f (used (contents (callbacks s)))
                           (seqZ 0 (ids_of_blocks (max_block (id_minter s) + 1))) b).2),
       set_callbacks gs s).
Proof.
  intros Hl Hm Hb Htop. unfold visit_used.
  assert (run read_minter s = (Returned (id_minter s), s)) as E.
  { unfold read_minter, act. cbn. by rewrite Hl. }
  rewrite (run_bind_ret _ _ _ _ _ E).
  rewrite u32_add_small by (unfold ids_of_blocks, BLOCK_SIZE_IDS in Htop; lia).
  cbn [unwrap mbind prog_mbind prog_bind].
  rewrite <-(Z2Nat.id (max_block (id_minter s) + 1)) in * by lia.
  apply (run_visit_blocks _ _ s 0 b); try done.
Qed.
End visit_blocks.

(** ** Refilling *)

Definition nonempty {A} (l : list A) : bool := match l with [] => false | _ => true end.

Section refill.
Context (debug : bool) (u : Z → bool) (next : Z).

(** The scan over a list of ids: whether it goes on, whether it found a free id, and the queue. *)
Fixpoint refill_ids (ids : list Z) (found : bool) (q : list Z) : bool * bool * list Z :=
  match ids with
  | [] => (true, found, q)
  | id :: ids =>
      if next <=? id then (false, found, q)
      else if u id then refill_ids ids found q
      else if (length q <? FAST_SIZE)%nat then refill_ids ids true (q ++ [id])
      else (false, true, q)
  end.

Lemma refill_ids_app ids ids' found q :
  refill_ids (ids ++ ids') found q =
    let '(cont, found', q') := refill_ids ids found q in
    if cont then refill_ids ids' found' q' else (false, found', q').
Proof.
  revert found q. induction ids as [|id ids IH]; intros found q; [done|]. cbn.
  destruct (next <=? id); [done|]. destruct (u id); [apply IH|].
  case_nat; [apply IH|done].
Qed.

Lemma refill_ids_used ids found q : (∀ id, id ∈ ids → u id = true ∧ id < next) →
  refill_ids ids found q = (true, found, q).
Proof.
  induction ids as [|id ids IH]; intros Hu; [done|]. cbn.
  destruct (Hu id) as [-> Hlt]; [by left|]. rewrite (proj2 (Z.leb_gt _ _)) by done.
  apply IH. intros id' Hid'. apply Hu. by right.
Qed.

(** The free ids below [next], in order. *)
Definition free_ids (ids : list Z) : list Z := List.filter (λ id, (id <? next) && negb (u id)) ids.

(** A scan in increasing order keeps the smallest free ids that fit. *)
Lemma refill_ids_eq ids found q : StronglySorted Z.lt ids → (length q ≤ FAST_SIZE)%nat →
  (refill_ids ids found q).1.2 = (found || nonempty (free_ids ids)) ∧
  (refill_ids ids found q).2 = q ++ take (FAST_SIZE - length q) (free_ids ids).
Proof.
  intros Hs. revert found q. induction Hs as [|id ids Hs IH Hid]; intros found q Hq.
  { cbn. by rewrite orb_false_r, take_nil, app_nil_r. }
  cbn [refill_ids free_ids List.filter]. fold (free_ids ids).
  destruct (Z.leb_spec next id) as [Hle|Hlt].
  - rewrite (proj2 (Z.ltb_ge _ _)) by done. cbn [andb].
    replace (free_ids ids) with (@nil Z); [cbn; by rewrite orb_false_r, take_nil, app_nil_r|].
    symmetry. clear IH Hs. unfold free_ids. induction Hid as [|id' ids' Hlt' _ IH']; [done|]. cbn.
    by rewrite (proj2 (Z.ltb_ge _ _)) by lia.
  - rewrite (proj2 (Z.ltb_lt _ _)) by done. cbn [andb]. destruct (u id); [by apply IH|].
    cbn [negb]. rewrite orb_true_r. case_nat.
    + destruct (IH true (q ++ [id])) as [E1 E2]; [rewrite length_app; cbn; lia|].
      rewrite E1, E2. split; [done|]. rewrite length_app, <-app_assoc. cbn [app length].
      replace (FAST_SIZE - length q)%nat with (S (FAST_SIZE - (length q + 1))) by lia. done.
    + cbn [fst snd]. replace (FAST_SIZE - length q)%nat with 0%nat by lia. by rewrite app_nil_r.
Qed.

Context {G : Type} `{GarnetReliable G} `{!GarnetLaws G}.
Context (Hnext : next ≤ u32_MAX) (Hu : ∀ id, u id = true → id < next).

(** The map during the scan. *)
Definition refilling (s : FreeSpaceMap G) (found : bool) (q : list Z) : FreeSpaceMap G :=
  set_list q (if found then set_free true s else s).

(** What a part of the scan leaves behind. *)
Definition refilled (s : FreeSpaceMap G) (top : Z) (r : bool * bool * list Z) :=
  (Returned (if r.1.1 then Next top r.1.2 else Stop r.1.2), refilling s r.1.2 r.2).

Lemma run_push (s : FreeSpaceMap G) found q id {A} (k : bool → prog A) :
  run (_ ← act (StoreFree true); pushed ← act (Push id); k pushed) (refilling s found q) =
    if (length q <? FAST_SIZE)%nat then run (k true) (refilling s true (q ++ [id]))
    else run (k false) (refilling s true q).
Proof. cbn. destruct found; cbn; by case_nat. Qed.

Lemma run_refill_bits (s : FreeSpaceMap G) byte n : ∀ k id found q,
  (∀ j, 0 ≤ j < Z.of_nat n → bit_used byte (k + j) = u (id + j)) →
  run (refill_bits debug next byte (seqZ k (Z.of_nat n)) id found) (refilling s found q) =
    refilled s (id + Z.of_nat n) (refill_ids (seqZ id (Z.of_nat n)) found q).
Proof using Hnext.
  induction n as [|n IH]; intros k id found q Hb; [unfold refilled; cbn; by rewrite Z.add_0_r|].
  assert (∀ found q, run (refill_bits debug next byte (seqZ (Z.succ k) (Z.of_nat n)) (id + 1) found)
            (refilling s found q) =
          refilled s (id + Z.of_nat (S n)) (refill_ids (seqZ (Z.succ id) (Z.of_nat n)) found q)) as HIH.
  { intros found' q'. replace (id + Z.of_nat (S n)) with (Z.succ id + Z.of_nat n) by lia.
    apply IH. intros j Hj. replace (Z.succ k + j) with (k + (1 + j)) by lia.
    rewrite Hb by lia. f_equal. lia. }
  rewrite !(seqZ_cons _ (Z.of_nat (S n))) by lia.
  replace (Z.pred (Z.of_nat (S n))) with (Z.of_nat n) by lia. cbn [refill_bits refill_ids].
  assert (bit_used byte k = u id) as ->.
  { rewrite <-(Z.add_0_r k), Hb by lia. f_equal. lia. }
  destruct (Z.leb_spec next id); [done|].
  assert (u32_add debug id 1 = Some (id + 1)) as Eadd by (apply u32_add_small; unfold u32_MAX in *; lia).
  destruct (u id); rewrite Eadd; [apply HIH|]. rewrite run_push. case_nat; [apply HIH|done].
Qed.

Lemma run_refill_bytes (s : FreeSpaceMap G) vs : ∀ id found q, reads_as u vs id →
  run (refill_bytes debug next vs id found) (refilling s found q) =
    refilled s (id + 8 * Z.of_nat (length vs)) (refill_ids (seqZ id (8 * Z.of_nat (length vs))) found q).
Proof using Hnext Hu.
  induction vs as [|byte vs IH]; intros id found q Hr; [unfold refilled; cbn; by rewrite Z.add_0_r|].
  apply reads_as_cons in Hr as [Hbyte Hvs]. rewrite length_cons in *. cbn [refill_bytes].
  replace (8 * Z.of_nat (S (length vs))) with (8 + 8 * Z.of_nat (length vs)) by lia.
  assert (∀ found q, run (refill_bytes debug next vs (id + 8) found) (refilling s found q) =
    refilled s (id + (8 + 8 * Z.of_nat (length vs)))
      (refill_ids (seqZ (id + 8) (8 * Z.of_nat (length vs))) found q)) as HIH.
  { intros found' q'. rewrite Z.add_assoc. by apply IH. }
  rewrite seqZ_app, refill_ids_app by lia.
  destruct (Z.leb_spec next id) as [Hle|Hlt].
  { rewrite seqZ_cons by lia. cbn. by rewrite (proj2 (Z.leb_le _ _)). }
  destruct (Z.eqb_spec byte 255) as [->|].
  - assert (∀ i, 0 ≤ i < 8 → u (id + i) = true ∧ id + i < next) as Hfull.
    { intros i Hi. rewrite <-Hbyte, full_byte by done. split; [done|]. apply Hu.
      by rewrite <-Hbyte, full_byte. }
    rewrite u32_add_small by (destruct (Hfull 7); unfold u32_MAX in *; lia).
    cbn [unwrap mbind prog_mbind prog_bind]. rewrite refill_ids_used; [apply HIH|].
    intros id' Hid'%elem_of_seqZ. replace id' with (id + (id' - id)) by lia. apply Hfull. lia.
  - rewrite run_bind. change bit_indexes with (seqZ 0 (Z.of_nat 8)). rewrite (run_refill_bits s byte 8).
    + change (Z.of_nat 8) with 8. unfold refilled at 1.
      destruct (refill_ids (seqZ id 8) found q) as [[[] found'] q']; [apply HIH|done].
    + intros j Hj. apply Hbyte. lia.
Qed.
End refill.

Section refill_list.
Context (debug : bool) {G : Type} `{GarnetReliable G} `{!GarnetLaws G}.

Lemma run_refill_blocks c next n : next ≤ u32_MAX → (∀ id, used c id = true → id < next) →
  ∀ (s : FreeSpaceMap G) k found q,
  contents (callbacks s) = c → has_blocks c (k + Z.of_nat n) → 0 ≤ k →
  ∃ gs, contents gs = c ∧
    let r := refill_ids (used c) next (seqZ (ids_of_blocks k) (ids_of_blocks (Z.of_nat n))) found q in
    run (refill_blocks debug next (seqZ k (Z.of_nat n)) (ids_of_blocks k) found) (refilling s found q) =
      (Returned (Ok (if r.1.1 then Next (ids_of_blocks (k + Z.of_nat n)) r.1.2 else Stop r.1.2)),
       refilling (set_callbacks gs s) r.1.2 r.2).
Proof.
  intros Hnext Hu. induction n as [|n IH]; intros s k found q Hc Hb Hk.
  { exists (callbacks s). split; [done|]. cbn. rewrite Z.add_0_r. by destruct s. }
  rewrite (seqZ_cons k) by lia. cbn [refill_blocks].
  replace (ids_of_blocks (Z.of_nat (S n))) with (ids_of_blocks 1 + ids_of_blocks (Z.of_nat n))
    by (unfold ids_of_blocks; lia).
  rewrite seqZ_app, refill_ids_app by (unfold ids_of_blocks, BLOCK_SIZE_IDS; lia).
  destruct (Z.leb_spec next (ids_of_blocks k)) as [Hle|Hlt].
  { exists (callbacks s). split; [done|].
    rewrite (seqZ_cons (ids_of_blocks k)) by (unfold ids_of_blocks, BLOCK_SIZE_IDS; lia).
    cbn [refill_ids]. rewrite (proj2 (Z.leb_le _ _)) by done. cbn [fst snd]. by destruct s. }
  destruct (Hb k) as (v & Hv & Hok); [lia|]. pose proof Hok as [Hl _].
  change BLOCK_SIZE_BYTES with 8192 in Hl.
  destruct (run_read (refilling s found q) (block_key k) v) as (gs & Egs & Erun).
  { by destruct found; rewrite <-Hc in Hv. }
  { done. }
  rewrite (run_bind_ret _ _ _ _ _ Erun).
  replace (set_callbacks gs (refilling s found q)) with (refilling (set_callbacks gs s) found q)
    by (by destruct found).
  assert (contents gs = c) as Egs' by (rewrite Egs; by destruct found).
  rewrite run_bind, (run_refill_bytes debug (used c)); [|done|done|by apply block_reads_as].
  replace (8 * Z.of_nat (length v)) with (ids_of_blocks 1) by (rewrite Hl; done).
  replace (ids_of_blocks k + ids_of_blocks 1) with (ids_of_blocks (k + 1)) by (unfold ids_of_blocks; lia).
  unfold refilled.
  destruct (refill_ids (used c) next (seqZ (ids_of_blocks k) (ids_of_blocks 1)) found q) as [[[] found'] q'].
  2: { by exists gs. }
  cbn [fst snd]. replace (Z.pred (Z.of_nat (S n))) with (Z.of_nat n) by lia. unfold Z.succ.
  destruct (IH (set_callbacks gs s) (k + 1) found' q') as (gs' & Egs'' & Erun'); [done| |lia|].
  { by replace (k + 1 + Z.of_nat n) with (k + Z.of_nat (S n)) by lia. }
  exists gs'. split; [done|]. cbn in Erun'. rewrite Erun'.
  by replace (k + 1 + Z.of_nat n) with (k + Z.of_nat (S n)) by lia.
Qed.

Lemma seqZ_sorted m n : StronglySorted Z.lt (seqZ m n).
Proof.
  apply StronglySorted_of_lookup. intros i j x y Hij.
  rewrite !lookup_seqZ. intros [-> ?] [-> ?]. lia.
Qed.

Lemma run_read_minter (s : FreeSpaceMap G) : minter_lock s = Unlocked →
  run read_minter s = (Returned (id_minter s), s).
Proof. intros Hl. unfold read_minter, act. cbn. by rewrite Hl. Qed.

(** The free ids that a scan can find. *)
Definition scan_ids (s : FreeSpaceMap G) : list Z :=
  free_ids (used (contents (callbacks s))) (next_id (id_minter s))
    (seqZ 0 (ids_of_blocks (max_block (id_minter s) + 1))).

(** What [refill_fast_free_list] does to the map. *)
Definition refill_result (s : FreeSpaceMap G) (gs : G) : FreeSpaceMap G :=
  set_callbacks gs (set_free (nonempty (scan_ids s)) (set_list (take FAST_SIZE (scan_ids s)) s)).

Lemma run_refill (s : FreeSpaceMap G) : minter_lock s = Unlocked → refill_lock s = Unlocked →
  next_id (id_minter s) ≤ u32_MAX → 0 ≤ max_block (id_minter s) →
  has_blocks (contents (callbacks s)) (max_block (id_minter s) + 1) →
  (∀ id, used (contents (callbacks s)) id = true → id < next_id (id_minter s)) →
  fast_free_list s = [] →
  ∃ gs, contents gs = contents (callbacks s) ∧
    run (refill_fast_free_list debug) s = (Returned (Ok (nonempty (scan_ids s))), refill_result s gs).
Proof.
  intros Hm Hr Hnext Hmax Hb Hu Hq. set (N := Z.to_nat (max_block (id_minter s) + 1)).
  destruct (run_refill_blocks (contents (callbacks s)) (next_id (id_minter s)) N Hnext Hu
              (set_refill_lock Locked s) 0 false []) as (gs & Egs & Erun); [done| |lia|].
  { subst N. by rewrite Z2Nat.id by lia. }
  exists gs. split; [done|]. set (L := seqZ 0 (ids_of_blocks (max_block (id_minter s) + 1))).
  assert (ids_of_blocks (Z.of_nat N) = ids_of_blocks (max_block (id_minter s) + 1)) as EN
    by (subst N; by rewrite Z2Nat.id by lia).
  change (ids_of_blocks 0) with 0 in Erun. rewrite EN in Erun. fold L in Erun.
  destruct (refill_ids_eq (used (contents (callbacks s))) (next_id (id_minter s)) L false []
              (seqZ_sorted _ _)) as [Ef Eq]; [cbn; lia|].
  cbn [orb app length] in Ef, Eq. rewrite Nat.sub_0_r in Eq.
  change (free_ids _ _ L) with (scan_ids s) in Ef, Eq.
  assert (refilling (set_refill_lock Locked s) false [] = set_refill_lock Locked s) as Es.
  { unfold refilling. destruct s. cbn in *. by subst. }
  rewrite Es in Erun.
  assert (run (refill_locked debug) (set_refill_lock Locked s) =
          (Returned (Ok (nonempty (scan_ids s))), set_refill_lock Locked (refill_result s gs))) as E.
  { unfold refill_locked. rewrite (run_act ListEmpty _ _ (set_refill_lock Locked s) true) by (cbn; by rewrite Hq).
    cbn [negb]. rewrite (run_bind_ret _ _ _ _ _ (run_read_minter (set_refill_lock Locked s) Hm)).
    cbn [id_minter set_refill_lock]. rewrite <-(Z2Nat.id (max_block (id_minter s) + 1)) by lia. fold N.
    erewrite run_try_ok; [|exact Erun]. cbn zeta.
    replace (scan_found _) with (nonempty (scan_ids s)).
    2: { rewrite <-Ef. by destruct (refill_ids _ _ L false []) as [[[] ?] ?]. }
    rewrite Eq, Ef. unfold refill_result. by destruct (nonempty (scan_ids s)). }
  unfold refill_fast_free_list. rewrite (run_act LockRefill _ _ (set_refill_lock Locked s) true) by (cbn; by rewrite Hr).
  rewrite (run_bind_ret _ _ _ _ _ (run_unwind _ _ _ _ _ E)). cbn. unfold refill_result. by destruct s; cbn in *; subst.
Qed.
End refill_list.

(** ** Witness *)

(** A store with one block in which the ids 2 and 3 are used. *)
Definition two_used : gmap Z (list Z) := <[block_key 0:=<[0%nat:=48]> empty_block]> ∅.
Definition two_used_map : FreeSpaceMap (gmap Z (list Z)) :=
  set_minter (mkMinter 4 0 empty_block) (fresh two_used false true).

Lemma two_used_blocks : has_blocks two_used 1.
Proof.
  intros b Hb. replace b with 0 by lia. exists (<[0%nat:=48]> empty_block). split; [done|].
  destruct empty_block_ok as [Hl Hv]. split; [by rewrite length_insert|].
  apply Forall_insert; [done|]. unfold byte_ok. lia.
Qed.

(** The closure remembers the first used id and stops. *)
Lemma visit_used_correct_witness :
  ∃ gs, run (visit_used true (λ _ id, (false, Some id)) None) two_used_map =
    (Returned (Ok tt, Some 2), set_callbacks gs two_used_map).
Proof.
  destruct (visit_used_correct true (λ _ id, (false, Some id)) two_used_map None) as (gs & _ & E);
    [reflexivity|done|exact two_used_blocks|reflexivity|].
  exists gs. rewrite E. change (contents (callbacks two_used_map)) with two_used.
  rewrite (seqZ_cons 0), (seqZ_cons (Z.succ 0)), (seqZ_cons (Z.succ (Z.succ 0))) by reflexivity.
  cbn [visit_ids].
  assert (used two_used 0 = false ∧ used two_used (Z.succ 0) = false ∧ used two_used (Z.succ (Z.succ 0)) = true)
    as (-> & -> & ->) by (vm_compute; repeat split).
  reflexivity.
Defined.
