(* ===== verification/FsmNext.v ===== *)
(** * Issuing and freeing ids, one operation at a time

    Operations of [Fsm] that run alone on a store that does not fail: [mark_free] and [is_free]
    change and read one status; [next_id] always returns, with a freed id whenever one is known to
    exist and with the next new id otherwise. *)

From S2P Require Import Prelude Bytes Fsm FsmBlocks FsmProtocol FsmSafety FsmScan.
Local Open Scope Z_scope.

Section operations.
Context (debug : bool) {G : Type} `{GarnetReliable G} `{!GarnetLaws G}.

(** ** Marking an id *)

(** Where a full queue drops an id. *)
Definition pushed (id : Z) (q : list Z) : list Z :=
  if (length q <? FAST_SIZE)%nat then q ++ [id] else q.

(** What [mark_id_unchecked] does to the map, besides the store. *)
Definition marked (u changed : bool) (id : Z) (gs : G) (s : FreeSpaceMap G) : FreeSpaceMap G :=
  let s := set_callbacks gs s in
  if negb changed then s
  else if u then set_used (usize_wrap (total_used s + 1)) s
  else set_free true (set_list (pushed id (fast_free_list s))
         (set_used (usize_wrap (total_used s - 1)) s)).

Lemma has_blocks_update c b v n : has_blocks c n → block_ok v → has_blocks (<[block_key b:=v]> c) n.
Proof.
  intros Hc Hv b' Hb'. destruct (decide (block_key b = block_key b')) as [E|].
  - exists v. by rewrite E, lookup_insert_eq.
  - rewrite lookup_insert_ne by done. by apply Hc.
Qed.

Lemma run_mark_unchecked (s : FreeSpaceMap G) id u n :
  blocks_ok (contents (callbacks s)) → has_blocks (contents (callbacks s)) n → 0 ≤ id →
  let changed := negb (eqb (used (contents (callbacks s)) id) u) in
  ∃ gs, blocks_ok (contents gs) ∧ has_blocks (contents gs) n ∧
    (∀ j, 0 ≤ j → used (contents gs) j =
       if decide (j = id) then u else used (contents (callbacks s)) j) ∧
    run (mark_id_unchecked id u) s = (Returned (Ok changed), marked u changed id gs s).
Proof.
  intros Hb Hn Hid changed. destruct (indexes_for_id id) as [[b y] i] eqn:Ei.
  pose proof (update_block_eq _ Hb id b y i u Hid Ei) as Ef.
  pose proof (blocks_ok_update _ Hb id b y i u Hid Ei) as Hb'.
  pose proof (used_update _ Hb id b y i u Hid Ei) as Hu.
  unfold mark_id_unchecked. rewrite Ei.
  destruct (g_rmw (callbacks s) (block_key b) (Z.to_nat BLOCK_SIZE_BYTES) (update_block u y i))
    as [a gs] eqn:Eg.
  pose proof (rmw_ok (callbacks s) (block_key b) _ _ _ Ef) as Ea. fold empty_block in Ea.
  rewrite Eg in Ea. cbn in Ea. subst a.
  pose proof (rmw_contents _ _ _ _ _ _ Eg) as Hc. fold empty_block in Hc. rewrite Ef in Hc.
  destruct Hc as [_ Hc]. exists gs. rewrite Hc. split_and!; [done| |done|].
  { apply has_blocks_update; [done|]. apply (Hb' b). by rewrite lookup_insert_eq. }
  rewrite (run_act (GRmw _ _ _) _ _ (set_callbacks gs s) (RmwDone changed)) by (cbn; by rewrite Eg).
  unfold marked, pushed. destruct changed, u; cbn; try done. by case_nat.
Qed.

Lemma usize_wrap_add n k : usize_wrap (usize_wrap n + k) = usize_wrap (n + k).
Proof. apply Zplus_mod_idemp_l. Qed.
Lemma usize_wrap_sub n k : usize_wrap (usize_wrap n - k) = usize_wrap (n - k).
Proof. apply Zminus_mod_idemp_l. Qed.

(** An available id that is free becomes used. *)
Lemma settled_gain (s : FreeSpaceMap G) h id gs : settled s h → available s [] id →
  used (contents (callbacks s)) id = false → blocks_ok (contents gs) →
  (∀ j, 0 ≤ j → used (contents gs) j = if decide (j = id) then true else used (contents (callbacks s)) j) →
  settled (marked true true id gs s) (id :: h).
Proof.
  intros [Rb Rn Ru Rh Rl Rc Rm Rk] Hav Hf Hb Hu. split; cbn; try done.
  - constructor; [|done]. intros Hin%Ru; [congruence|apply Hav].
  - intros j Hj. rewrite Hu by done. case_decide; [set_solver|]. rewrite Ru by done. set_solver.
  - by constructor.
  - rewrite Rc, usize_wrap_add. f_equal. lia.
Qed.

(** A used id becomes free, and known to be free. *)
Lemma settled_lose (s : FreeSpaceMap G) h h' id gs : settled s h → h ≡ₚ id :: h' →
  blocks_ok (contents gs) →
  (∀ j, 0 ≤ j → used (contents gs) j = if decide (j = id) then false else used (contents (callbacks s)) j) →
  settled (marked false true id gs s) h'.
Proof.
  intros [Rb Rn Ru Rh Rl Rc Rm Rk] Hh Hb Hu. rewrite Hh in Rn, Rh, Rc. apply NoDup_cons in Rn as [Hno Hnd].
  apply Forall_cons in Rh as [Hav Hall]. split; cbn; try done.
  - intros j Hj. rewrite Hu by done. case_decide; [naive_solver|].
    rewrite Ru, Hh, elem_of_cons by done. naive_solver.
  - unfold pushed. case_nat; [|done]. apply Forall_app_2; [done|]. by apply Forall_singleton.
  - rewrite Rc, usize_wrap_sub. f_equal. cbn. lia.
Qed.

Lemma settled_same (s : FreeSpaceMap G) h gs : settled s h → blocks_ok (contents gs) →
  (∀ j, 0 ≤ j → used (contents gs) j = used (contents (callbacks s)) j) → settled (set_callbacks gs s) h.
Proof. intros [Rb Rn Ru Rh Rl Rc Rm Rk] Hb Hu. split; try done. intros j Hj. cbn. rewrite Hu by done. auto. Qed.

Lemma run_mark (s : FreeSpaceMap G) h id u n : settled s h →
  has_blocks (contents (callbacks s)) n → 0 ≤ id < next_id (id_minter s) →
  let changed := negb (eqb (used (contents (callbacks s)) id) u) in
  ∃ gs, blocks_ok (contents gs) ∧ has_blocks (contents gs) n ∧
    (∀ j, 0 ≤ j → used (contents gs) j =
       if decide (j = id) then u else used (contents (callbacks s)) j) ∧
    run (mark_id id u) s = (Returned (Ok changed), marked u changed id gs s).
Proof.
  intros Hs Hn Hid changed.
  destruct (run_mark_unchecked s id u n (rest_blocks _ _ Hs) Hn ltac:(lia)) as (gs & Hb & Hn' & Hu & Erun).
  exists gs. split_and!; [done..|]. unfold mark_id.
  rewrite (run_bind_ret _ _ _ _ _ (run_read_minter s (rest_minter_lock _ _ Hs))).
  by rewrite (proj2 (Z.leb_gt _ _)) by lia.
Qed.

(** ** Freeing and asking *)

(** [mark_free] of a used id makes it free, puts it in the queue if there is room, and announces
    that there are free ids; of an id that is free already it changes nothing; beyond the issued
    ids it is an error.  Nothing else changes. *)
Theorem mark_free_correct (s : FreeSpaceMap G) h id n : settled s h →
  has_blocks (contents (callbacks s)) n → 0 ≤ id →
  (∀ h', h ≡ₚ id :: h' → ∃ gs, run (mark_free id) s = (Returned (Ok tt), marked false true id gs s) ∧
     has_blocks (contents gs) n ∧ settled (marked false true id gs s) h') ∧
  (id ∉ h → id < next_id (id_minter s) →
     ∃ gs, run (mark_free id) s = (Returned (Ok tt), set_callbacks gs s) ∧
       has_blocks (contents gs) n ∧ settled (set_callbacks gs s) h) ∧
  (next_id (id_minter s) ≤ id → run (mark_free id) s = (Returned (Err (IdOutOfRange id)), s)).
Proof.
  intros Hs Hn Hid. unfold mark_free. split_and!.
  - intros h' Hh. pose proof (rest_held _ _ Hs) as Hh'. rewrite Hh in Hh'.
    apply Forall_cons in Hh' as [[Hlt _] _]. unfold published in Hlt. cbn in Hlt.
    assert (used (contents (callbacks s)) id = true) as Hu by (apply (rest_used _ _ Hs); [done|rewrite Hh; by left]).
    destruct (run_mark s h id false n Hs Hn ltac:(lia)) as (gs & Hb & Hn' & Hu' & Erun).
    rewrite Hu in Erun. exists gs. split; [|split; [done|by eapply settled_lose]].
    by rewrite (run_try_ok _ _ _ _ _ Erun).
  - intros Hno Hlt. destruct (used (contents (callbacks s)) id) eqn:Hu; [by apply (rest_used _ _ Hs) in Hu|].
    destruct (run_mark s h id false n Hs Hn ltac:(lia)) as (gs & Hb & Hn' & Hu' & Erun).
    rewrite Hu in Erun. exists gs. split; [|split; [done|apply settled_same; try done]].
    + by rewrite (run_try_ok _ _ _ _ _ Erun).
    + intros j Hj. rewrite Hu' by done. case_decide; congruence.
  - intros Hle. unfold try_bind, mark_id. rewrite run_bind, run_bind, (run_read_minter s (rest_minter_lock _ _ Hs)).
    by rewrite (proj2 (Z.leb_le _ _)).
Qed.

Lemma run_is_free (s : FreeSpaceMap G) h id : settled s h →
  has_blocks (contents (callbacks s)) (max_block (id_minter s) + 1) → available s [] id →
  ∃ gs, contents gs = contents (callbacks s) ∧
    run (is_free id) s = (Returned (Ok (negb (used (contents (callbacks s)) id))), set_callbacks gs s).
Proof.
  intros Hs Hn [Hid Hblock]. unfold published in Hid. cbn in Hid. pose proof (rest_minter _ _ Hs) as (_ & Hm & _).
  unfold is_free. rewrite (run_bind_ret _ _ _ _ _ (run_read_minter s (rest_minter_lock _ _ Hs))).
  rewrite (proj2 (Z.leb_gt _ _)) by lia. pose proof (indexes_block id) as Eb.
  destruct (indexes_for_id id) as [[b y] i] eqn:Ei. cbn in Eb. subst b.
  destruct (indexes_bounds id _ _ _ ltac:(lia) Ei) as (_ & Hb0 & Hy & Hi).
  rewrite (proj2 (Z.ltb_ge _ _)) by lia.
  rewrite (proj2 (Z.eqb_neq _ _)) by (unfold u32_MAX; lia). cbn [orb].
  destruct (Hn (id / BLOCK_SIZE_IDS)) as (v & Hv & Hok); [lia|].
  destruct (run_read s _ v Hv Hok) as (gs & Egs & Erun). exists gs. split; [done|].
  rewrite (run_bind_ret _ _ _ _ _ Erun), (used_status _ _ _ _ _ Ei Hi).
  destruct (block_byte _ (id / BLOCK_SIZE_IDS) y (rest_blocks _ _ Hs) Hy) as [Hbyte _].
  rewrite Hv in Hbyte. cbn in Hbyte. by rewrite Hbyte.
Qed.

(** ** Issuing *)

(** What the search for a freed id does not touch. *)
Definition frame (s s' : FreeSpaceMap G) : Prop :=
  id_minter s' = id_minter s ∧ minter_lock s' = minter_lock s ∧ reuse_enabled s' = reuse_enabled s ∧
  barrier s' = barrier s ∧ readers s' = readers s ∧ barrier_lock s' = barrier_lock s ∧
  refill_lock s' = refill_lock s.

(** An id that is free and can be found by a scan. *)
Definition reusable (s : FreeSpaceMap G) (id : Z) : Prop :=
  available s [] id ∧ used (contents (callbacks s)) id = false.

Lemma elem_of_scan_ids (s : FreeSpaceMap G) id : id ∈ scan_ids s ↔ reusable s id.
Proof.
  unfold scan_ids, free_ids, reusable, available, published.
  rewrite elem_of_List_filter, elem_of_seqZ, andb_true_iff, negb_true_iff, Z.ltb_lt. cbn.
  unfold ids_of_blocks, BLOCK_SIZE_IDS. split.
  - intros (? & ? & ?). split_and!; [lia|lia|dlia|done].
  - intros ((? & ?) & ?). split_and!; [lia|dlia|lia|done].
Qed.

Lemma settled_list (s : FreeSpaceMap G) h q : settled s h → Forall (available s []) q →
  settled (set_list q s) h.
Proof. intros [] Hq. by split. Qed.

Lemma run_mark_reusable (s : FreeSpaceMap G) h id n : settled s h →
  has_blocks (contents (callbacks s)) n → reusable s id →
  ∃ s', run (mark_used id) s = (Returned (Ok true), s') ∧ frame s s' ∧
    has_blocks (contents (callbacks s')) n ∧ settled s' (id :: h) ∧ id ∉ h ∧
    has_free_ids s' = has_free_ids s.
Proof.
  intros Hs Hn [Hav Hf]. destruct (run_mark s h id true n Hs Hn) as (gs & Hb & Hn' & Hu & Erun).
  { destruct Hav as [Hid _]. unfold published in Hid. cbn in Hid. lia. }
  rewrite Hf in Erun. eexists. split_and!; [exact Erun|done|done|by apply settled_gain| |done].
  intros Hin. apply (rest_used _ _ Hs) in Hin; [congruence|apply Hav].
Qed.

(** What the loop over freed ids achieves. *)
Definition reuse_post (s : FreeSpaceMap G) (h : list Z) (n : Z) (r : option Z) (s' : FreeSpaceMap G) : Prop :=
  frame s s' ∧ has_blocks (contents (callbacks s')) n ∧
  match r with
  | Some id => settled s' (id :: h) ∧ reusable s id ∧ id ∉ h ∧
               (has_free_ids s = true → has_free_ids s' = true)
  | None => settled s' h ∧ (∀ id, ¬ reusable s id) ∧ has_free_ids s' = false
  end.

Lemma run_reuse_empty (s : FreeSpaceMap G) h fuel : settled s h → refill_lock s = Unlocked →
  has_blocks (contents (callbacks s)) (max_block (id_minter s) + 1) → fast_free_list s = [] →
  ∃ r s', run (reuse_loop debug (S fuel)) s = (Returned (Ok r), s') ∧
    reuse_post s h (max_block (id_minter s) + 1) r s'.
Proof.
  intros Hs Hr Hn Hq. pose proof (rest_minter _ _ Hs) as (Hm1 & Hm2 & _).
  destruct (run_refill debug s (rest_minter_lock _ _ Hs) Hr) as (gs & Egs & Erun); [lia|lia|done| |done|].
  { intros id Hu. destruct (decide (0 ≤ id)); [|lia]. apply (rest_used _ _ Hs) in Hu; [|done].
    pose proof (rest_held _ _ Hs) as Hh. rewrite Forall_forall in Hh. destruct (Hh id Hu) as [Hlt _].
    unfold published in Hlt. cbn in Hlt. lia. }
  cbn [reuse_loop]. rewrite (run_act Pop _ _ s None) by (cbn; by rewrite Hq).
  rewrite (run_try_ok _ _ _ _ _ Erun).
  assert (Forall (available s []) (scan_ids s)) as Hav.
  { apply Forall_forall. intros id Hid. by apply elem_of_scan_ids. }
  assert (settled (refill_result s gs) h) as Hs'.
  { unfold refill_result. destruct Hs as [Rb Rn Ru Rh Rl Rc Rm Rk].
    split; cbn; rewrite ?Egs; try done. by apply Forall_take. }
  destruct (scan_ids s) as [|id ids] eqn:Escan; cbn [nonempty].
  - exists None, (refill_result s gs). split; [done|]. split; [done|]. split; [cbn; by rewrite Egs|].
    split; [done|]. split; [|unfold refill_result; by rewrite Escan].
    intros id Hid. apply elem_of_scan_ids in Hid. rewrite Escan in Hid. by apply not_elem_of_nil in Hid.
  - set (s1 := set_list (take (pred FAST_SIZE) ids) (refill_result s gs)).
    assert (fast_free_list (refill_result s gs) = id :: take (pred FAST_SIZE) ids) as El.
    { unfold refill_result. by rewrite Escan. }
    rewrite (run_act Pop _ _ s1 (Some id)) by (unfold perform; by rewrite El).
    assert (reusable s id) as Hid by (apply elem_of_scan_ids; rewrite Escan; by left).
    apply Forall_cons in Hav as [_ Hav].
    destruct (run_mark_reusable s1 h id (max_block (id_minter s) + 1)) as (s' & Erun' & Hfr & Hn' & Hs'' & Hno & Hflag).
    + apply settled_list; [done|]. by apply Forall_take.
    + cbn. by rewrite Egs.
    + split; [apply Hid|]. cbn. rewrite Egs. apply Hid.
    + exists (Some id), s'. rewrite (run_try_ok _ _ _ _ _ Erun').
      split; [done|]. split; [exact Hfr|]. split; [exact Hn'|]. split_and!; [done..|].
      intros _. rewrite Hflag. unfold s1, refill_result. by rewrite Escan.
Qed.

Lemma reusable_same (s s' : FreeSpaceMap G) id : id_minter s' = id_minter s →
  (∀ j, 0 ≤ j → used (contents (callbacks s')) j = used (contents (callbacks s)) j) →
  reusable s' id ↔ reusable s id.
Proof.
  intros Em Hu. unfold reusable, available, published. rewrite Em.
  split; intros [[? ?] E]; (split; [done|]); [rewrite <-Hu by lia|rewrite Hu by lia]; done.
Qed.

(** The loop ends after at most one round per queued id and one more. *)
Lemma run_reuse_loop q : ∀ fuel (s : FreeSpaceMap G) h, fast_free_list s = q →
  settled s h → refill_lock s = Unlocked →
  has_blocks (contents (callbacks s)) (max_block (id_minter s) + 1) → (length q < fuel)%nat →
  ∃ r s', run (reuse_loop debug fuel) s = (Returned (Ok r), s') ∧
    reuse_post s h (max_block (id_minter s) + 1) r s'.
Proof.
  induction q as [|id q IH]; intros [|fuel] s h Hq Hs Hr Hn Hf; try (cbn in Hf; lia).
  { by apply run_reuse_empty. }
  pose proof (rest_list _ _ Hs) as Hl. rewrite Hq in Hl. apply Forall_cons in Hl as [Hav Hav'].
  pose proof (settled_list s h q Hs Hav') as Hs1.
  set (s1 := set_list q s) in *. cbn [reuse_loop].
  rewrite (run_act Pop _ _ s1 (Some id)) by (unfold perform; by rewrite Hq).
  destruct (used (contents (callbacks s)) id) eqn:Eu.
  - destruct (run_mark s1 h id true (max_block (id_minter s) + 1) Hs1 Hn) as (gs & Hb & Hn' & Hu & Erun).
    { destruct Hav as [Hid _]. unfold published in Hid. cbn in *. lia. }
    change (contents (callbacks s1)) with (contents (callbacks s)) in *. rewrite Eu in Erun.
    cbn [eqb negb marked] in Erun. rewrite (run_try_ok _ _ _ _ _ Erun).
    assert (∀ j, 0 ≤ j → used (contents gs) j = used (contents (callbacks s)) j) as Hsame.
    { intros j Hj. rewrite Hu by done. case_decide; congruence. }
    destruct (IH fuel (set_callbacks gs s1) h) as (r & s' & Erun' & Hfr & Hn'' & Hpost);
      [done|by apply settled_same|done|done|cbn in Hf; lia|].
    exists r, s'. split; [exact Erun'|]. split; [exact Hfr|]. split; [exact Hn''|].
    pose proof (reusable_same s (set_callbacks gs s1)) as Hre. destruct r as [x|].
    + destruct Hpost as (? & ? & ? & ?). split_and!; [done| |done|done]. by apply Hre.
    + destruct Hpost as (? & Hnone & ?). split_and!; [done| |done]. intros x Hx. by apply (Hnone x), Hre.
  - destruct (run_mark_reusable s1 h id (max_block (id_minter s) + 1) Hs1 Hn) as (s' & Erun & Hfr & Hn' & Hs' & Hno & Hflag);
      [by split|].
    exists (Some id), s'. rewrite (run_try_ok _ _ _ _ _ Erun).
    split; [done|]. split; [exact Hfr|]. split; [exact Hn'|]. 
    split_and!; [done|by split|done|by rewrite Hflag].
Qed.

(** The block of the new id exists or is the next one. *)
Lemma run_expand_to (s : FreeSpaceMap G) m id : id_minter s = m → blocks_ok (contents (callbacks s)) →
  has_blocks (contents (callbacks s)) (max_block m + 1) →
  (∀ j, 0 ≤ j → used (contents (callbacks s)) j = true → j / BLOCK_SIZE_IDS ≤ max_block m) →
  0 ≤ max_block m < 65536 → buffer m = empty_block → 0 ≤ id → id / BLOCK_SIZE_IDS ≤ max_block m + 1 →
  ∃ gs top, run (expand_to m id) s =
      (Returned (Ok tt), set_minter (mkMinter (next_id m) top (buffer m)) (set_callbacks gs s)) ∧
    max_block m ≤ top ∧ top ≤ Z.max (max_block m) (id / BLOCK_SIZE_IDS) ∧ id / BLOCK_SIZE_IDS ≤ top ∧
    blocks_ok (contents gs) ∧ has_blocks (contents gs) (top + 1) ∧
    (∀ j, 0 ≤ j → used (contents gs) j = used (contents (callbacks s)) j).
Proof.
  intros Em Hb Hn Hu Hm Hbuf Hid Hblock. unfold expand_to. pose proof (indexes_block id) as Eb.
  destruct (indexes_for_id id) as [[b y] i]. cbn in Eb. subst b.
  rewrite (proj2 (Z.eqb_neq (max_block m) _)) by (unfold u32_MAX; lia). cbn [orb].
  destruct (Z.eqb_spec (id / BLOCK_SIZE_IDS) (max_block m + 1)) as [E|E].
  - destruct (g_write (callbacks s) (block_key (id / BLOCK_SIZE_IDS)) (buffer m)) as [ok gs] eqn:Eg.
    pose proof (write_ok (callbacks s) (block_key (id / BLOCK_SIZE_IDS)) (buffer m)) as Hok.
    rewrite Eg in Hok. cbn in Hok. subst ok. pose proof (write_contents _ _ _ _ _ Eg) as Hc.
    rewrite Hbuf, E in Hc. exists gs, (max_block m + 1).
    rewrite (run_act (GWrite _ _) _ _ (set_callbacks gs s) true) by (cbn; by rewrite Eg).
    split_and!; [done|lia..| | |]; rewrite Hc.
    + by apply blocks_ok_new_block.
    + intros b Hlt. destruct (decide (b = max_block m + 1)) as [->|].
      * exists empty_block. rewrite lookup_insert_eq. split; [done|apply empty_block_ok].
      * rewrite lookup_insert_ne by (intros Ek%block_key_inj; lia). apply Hn. lia.
    + intros j Hj. rewrite used_new_block by lia. case_decide as Ej; [|done].
      destruct (used _ j) eqn:Eu; [|done]. apply Hu in Eu; [lia|done].
  - rewrite (proj2 (Z.ltb_ge _ _)) by lia. exists (callbacks s), (max_block m).
    split_and!; [|lia..|done|done|done]. subst m. cbn. by destruct s as [? ? ? [? ? ?] ? ? ? ? ? ? ?].
Qed.

(** The map after minting. *)
Lemma settled_mint (s s' : FreeSpaceMap G) h top : settled s h → next_id (id_minter s) < u32_MAX →
  id_minter s' = mkMinter (next_id (id_minter s) + 1) top (buffer (id_minter s)) →
  max_block (id_minter s) ≤ top → next_id (id_minter s) / BLOCK_SIZE_IDS ≤ top →
  top ≤ Z.max (max_block (id_minter s)) (next_id (id_minter s) / BLOCK_SIZE_IDS) →
  blocks_ok (contents (callbacks s')) →
  (∀ j, 0 ≤ j → used (contents (callbacks s')) j =
     if decide (j = next_id (id_minter s)) then true else used (contents (callbacks s)) j) →
  fast_free_list s' = fast_free_list s → total_used s' = usize_wrap (total_used s + 1) →
  minter_lock s' = Unlocked → settled s' (next_id (id_minter s) :: h).
Proof.
  intros Hs Hmax Em Htop1 Htop2 Htop3 Hb Hu El Et Ek.
  pose proof (rest_minter _ _ Hs) as (Hm1 & Hm2 & Hbuf).
  assert (next_id (id_minter s) / BLOCK_SIZE_IDS < 65536) by (unfold BLOCK_SIZE_IDS, u32_MAX in *; dlia).
  assert (∀ j, available s [] j → available s' [] j) as Hgrow.
  { intros j [Hj Hjb]. unfold available, published in *. rewrite Em. cbn in *. lia. }
  destruct Hs as [Rb Rn Ru Rh Rl Rc Rm Rk]. split; rewrite ?El, ?Et, ?Em; try done.
  - constructor; [|done]. intros Hin. rewrite Forall_forall in Rh. destruct (Rh _ Hin) as [Hlt _].
    unfold published in Hlt. cbn in Hlt. lia.
  - intros j Hj. rewrite Hu by done. rewrite elem_of_cons. case_decide; [naive_solver|].
    rewrite Ru by done. naive_solver.
  - constructor; [|by apply (Forall_impl _ _ _ Rh)]. unfold available, published. rewrite Em. cbn. lia.
  - by apply (Forall_impl _ _ _ Rl).
  - rewrite Rc, usize_wrap_add, length_cons. f_equal. lia.
  - unfold minter_ok. cbn. split_and!; [lia..|done].
Qed.

(** Minting returns the next id. *)
Lemma run_mint (s : FreeSpaceMap G) h : settled s h → next_id (id_minter s) < u32_MAX →
  next_id (id_minter s) / BLOCK_SIZE_IDS ≤ max_block (id_minter s) + 1 →
  has_blocks (contents (callbacks s)) (max_block (id_minter s) + 1) →
  ∃ s', run (mint debug) s = (Returned (Ok (next_id (id_minter s))), s') ∧
    settled s' (next_id (id_minter s) :: h) ∧ next_id (id_minter s') = next_id (id_minter s) + 1 ∧
    has_blocks (contents (callbacks s')) (max_block (id_minter s') + 1) ∧
    next_id (id_minter s) / BLOCK_SIZE_IDS ≤ max_block (id_minter s') ∧
    has_free_ids s' = has_free_ids s ∧ readers s' = readers s ∧ barrier_lock s' = barrier_lock s ∧ barrier s' = barrier s ∧
    refill_lock s' = refill_lock s.
Proof.
  intros Hs Hmax Hblock Hn. pose proof (rest_minter _ _ Hs) as (Hm1 & Hm2 & Hbuf).
  pose proof (rest_held _ _ Hs) as Hh. rewrite Forall_forall in Hh.
  set (m := id_minter s) in *. set (id := next_id m) in *.
  set (m1 := mkMinter (id + 1) (max_block m) (buffer m)).
  set (s2 := set_minter m1 (set_minter_lock Locked s)).
  assert (∀ j, 0 ≤ j → used (contents (callbacks s)) j = true → j < id ∧ j / BLOCK_SIZE_IDS ≤ max_block m) as Hu.
  { intros j Hj Ej. apply (rest_used _ _ Hs) in Ej; [|done]. destruct (Hh j Ej) as [Hlt ?].
    unfold published in Hlt. cbn in Hlt. split; [unfold id, m; lia|done]. }
  assert (used (contents (callbacks s)) id = false) as Hfree.
  { destruct (used _ id) eqn:E; [|done]. apply Hu in E; lia. }
  destruct (run_expand_to s2 m1 id) as (gs & top & Erun & Htop1 & Htop2 & Htop3 & Hb & Hn' & Hsame); try done.
  { apply (rest_blocks _ _ Hs). }
  { intros j Hj Ej. by apply Hu. }
  { lia. }
  set (s3 := set_minter (mkMinter (next_id m1) top (buffer m1)) (set_callbacks gs s2)) in *.
  destruct (run_mark_unchecked s3 id true (top + 1) Hb Hn' ltac:(lia)) as (gs' & Hb' & Hn'' & Hu' & Erun').
  cbn [callbacks s3 set_minter set_callbacks] in Erun', Hu'. rewrite Hsame in Erun' by lia.
  cbn [callbacks s2 set_minter set_minter_lock] in Erun', Hsame. rewrite Hfree in Erun'. cbn [eqb negb] in Erun'.
  set (s' := set_minter_lock Unlocked (marked true true id gs' s3)). exists s'. split.
  { unfold mint, with_minter.
    rewrite (run_act LockMinter _ _ (set_minter_lock Locked s) (Some m))
      by (unfold perform; by rewrite (rest_minter_lock _ _ Hs)).
    cbn [unwrap mbind prog_mbind prog_bind].
    erewrite run_bind_ret; [|apply run_unwind].
    2: { fold id. rewrite u32_add_small by (unfold u32_MAX in *; lia). cbn [unwrap mbind prog_mbind prog_bind].
         fold m1. rewrite (run_act (SetMinter m1) _ _ s2 tt) by done.
         rewrite (run_try_ok _ _ _ _ _ Erun), (run_try_ok _ _ _ _ _ Erun'). reflexivity. }
    by rewrite (run_act UnlockMinter _ _ s' tt). }
  split_and!; try done.
  eapply (settled_mint s s' h top); try done.
  intros j Hj. by rewrite <-Hsame by done; apply Hu'.
Qed.

(** ** The invariant of sequential use *)

(** The blocks of all issued ids exist, and the map knows when no id is free. *)
Record ready (s : FreeSpaceMap G) (h : list Z) : Prop := {
  ready_settled :> settled s h;
  ready_blocks : has_blocks (contents (callbacks s)) (max_block (id_minter s) + 1);
  ready_next : next_id (id_minter s) ≤ ids_of_blocks (max_block (id_minter s) + 1);
  ready_refill : refill_lock s = Unlocked;
  ready_flag : has_free_ids s = false → ∀ id, ¬ reusable s id;
}.


Lemma ready_mint (s s' : FreeSpaceMap G) h : ready s h →
  (has_free_ids s' = false → ∀ id, ¬ reusable s id) → settled s' (next_id (id_minter s) :: h) → next_id (id_minter s') = next_id (id_minter s) + 1 →
  has_blocks (contents (callbacks s')) (max_block (id_minter s') + 1) →
  next_id (id_minter s) / BLOCK_SIZE_IDS ≤ max_block (id_minter s') →
  refill_lock s' = Unlocked → ready s' (next_id (id_minter s) :: h).
Proof.
  intros Hr Hnone Hs' Hn Hb Hblk Hk. pose proof (ready_next _ _ Hr) as Hlt.
  unfold ids_of_blocks, BLOCK_SIZE_IDS in Hlt, Hblk. split; try done.
  - unfold ids_of_blocks, BLOCK_SIZE_IDS. dlia.
  - intros Hflag id [[Hid _] Hu]. unfold published in Hid. cbn in Hid.
    assert (id ∉ next_id (id_minter s) :: h) as [Hne Hno]%not_elem_of_cons.
    { intros Hin. apply (rest_used _ _ Hs') in Hin; [congruence|lia]. }
    apply (Hnone Hflag id). split; [split; [unfold published; cbn; lia|]|].
    + unfold BLOCK_SIZE_IDS. dlia.
    + destruct (used (contents (callbacks s)) id) eqn:E; [|done].
      by apply (rest_used _ _ Hr) in E; [|lia].
Qed.

Lemma fresh_map_ready gs c quantization reuse :
  (∀ b, 0 ≤ b → c !! block_key b = None) → blocks_ok c →
  contents gs = <[block_key 0:=empty_block]> c → ready (fresh_map gs quantization reuse) [].
Proof.
  intros Hnone Hb Hc. split; cbn; try done.
  - by eapply fresh_map_at_rest.
  - rewrite Hc. intros b Hlt. replace b with 0 by lia. exists empty_block.
    rewrite lookup_insert_eq. split; [done|apply empty_block_ok].
  - intros _ id [[Hid _] _]. unfold published in Hid. cbn in Hid. lia.
Qed.

Lemma ready_readers (s : FreeSpaceMap G) h n : ready s h → ready (set_readers n s) h.
Proof. intros [[] ? ? ? ?]. split; [by split|done..]. Qed.

(** The id comes from the freed ones when reuse is enabled and there is one. *)
Definition next_id_post (s : FreeSpaceMap G) (h : list Z) (id : Z) (s' : FreeSpaceMap G) : Prop :=
  id ∉ h ∧ ready s' (id :: h) ∧ barrier_lock s' = barrier_lock s ∧ readers s' = readers s ∧
  (reuse_enabled s = true → (∃ x, reusable s x) →
     reusable s id ∧ next_id (id_minter s') = next_id (id_minter s)) ∧
  (reuse_enabled s = false ∨ (∀ x, ¬ reusable s x) →
     id = next_id (id_minter s) ∧ next_id (id_minter s') = next_id (id_minter s) + 1).

(** Minting, after a search that found nothing or was not made. *)
Lemma run_mint_post (s s1 : FreeSpaceMap G) h : ready s h → ready s1 h → frame s s1 →
  next_id (id_minter s) < u32_MAX → (reuse_enabled s = false ∨ ∀ id, ¬ reusable s id) →
  ∃ s', run (mint debug) s1 = (Returned (Ok (next_id (id_minter s))), s') ∧
    next_id_post s h (next_id (id_minter s)) s'.
Proof.
  intros Hr Hr1 (Em & _ & _ & _ & Er & Ebl & Erf) Hmax Hno. pose proof (ready_next _ _ Hr1) as Hlt.
  destruct (run_mint s1 h Hr1) as (s' & Erun & Hs' & Hn & Hb & Hblk & Hflag & Hrd & Hbl & _ & Hrf).
  { by rewrite Em. }
  { unfold ids_of_blocks, BLOCK_SIZE_IDS in *. dlia. }
  { apply (ready_blocks _ _ Hr1). }
  rewrite Em in Erun, Hs', Hn, Hblk. exists s'. split; [done|]. split_and!.
  - intros Hin. pose proof (rest_held _ _ Hr) as Hh. rewrite Forall_forall in Hh.
    destruct (Hh _ Hin) as [Hl _]. unfold published in Hl. cbn in Hl. lia.
  - pose proof (ready_mint s1 s' h Hr1) as Hm. rewrite Em in Hm. apply Hm; try done.
    + rewrite Hflag. apply (ready_flag _ _ Hr1).
    + rewrite Hrf. apply (ready_refill _ _ Hr1).
  - congruence.
  - congruence.
  - intros Hre [x Hx]. destruct Hno as [|Hno]; [congruence|]. by apply Hno in Hx.
  - done.
Qed.

Lemma run_reuse_or_mint (s : FreeSpaceMap G) h fuel : ready s h →
  next_id (id_minter s) < u32_MAX → (length (fast_free_list s) < fuel)%nat →
  ∃ id s', run (reuse_or_mint debug fuel) s = (Returned (Ok id), s') ∧ next_id_post s h id s'.
Proof.
  intros Hr Hmax Hf. unfold reuse_or_mint. rewrite (run_act LoadReuse _ _ s (reuse_enabled s)) by done.
  destruct (reuse_enabled s && has_free_ids s) eqn:E.
  - apply andb_true_iff in E as [E1 E2]. rewrite E1.
    rewrite (run_bind_ret (act LoadFree) _ _ s true) by (cbn; by rewrite E2).
    destruct (run_reuse_loop _ fuel s h eq_refl Hr (ready_refill _ _ Hr) (ready_blocks _ _ Hr) Hf)
      as (r & s1 & Erun & Hfr & Hb & Hpost).
    rewrite (run_try_ok _ _ _ _ _ Erun). pose proof Hfr as (Em & _ & Ere & _ & Er & Ebl & Erf).
    destruct r as [id|].
    + destruct Hpost as (Hs1 & Hid & Hno & Hflag). exists id, s1. split; [done|]. split_and!; try done.
      * split; try done; [by rewrite Em|rewrite Em; apply (ready_next _ _ Hr)| |].
        { rewrite Erf. apply (ready_refill _ _ Hr). }
        { rewrite Hflag by done. done. }
      * rewrite Em. done.
      * intros [|Hnone]; [congruence|]. by apply Hnone in Hid.
    + destruct Hpost as (Hs1 & Hnone & Hflag). exists (next_id (id_minter s)).
      apply (run_mint_post s s1 h); auto.
      split; try done; [by rewrite Em|rewrite Em; apply (ready_next _ _ Hr)| |].
      { rewrite Erf. apply (ready_refill _ _ Hr). }
      intros _ id [[Hid Hblk] Hu]. apply (Hnone id). split; [split|].
      * unfold published in *. by rewrite Em in Hid.
      * by rewrite Em in Hblk.
      * destruct (used (contents (callbacks s)) id) eqn:Eu; [|done].
        apply (rest_used _ _ Hr) in Eu; [|lia]. apply (rest_used _ _ Hs1) in Eu; [congruence|lia].
  - exists (next_id (id_minter s)).
    assert (run (if reuse_enabled s then act LoadFree else Ret false) s = (Returned false, s)) as Efree.
    { destruct (reuse_enabled s); [|done]. cbn in *. by rewrite E. }
    rewrite (run_bind_ret _ _ _ _ _ Efree). apply (run_mint_post s s h); try done.
    apply andb_false_iff in E as [E|E]; [by left|right]. by apply (ready_flag _ _ Hr).
Qed.

(** [next_id] of a map that is used by one client at a time returns, within as many rounds as
    there are queued ids and one more: the id was free before and is used afterwards, nothing else
    changes its status, and the map stays ready.  If reuse is enabled and any issued id is free, a
    free one is returned; otherwise the id is the next new one. *)
Theorem next_id_correct (s : FreeSpaceMap G) h fuel : ready s h → barrier_lock s = Unlocked →
  next_id (id_minter s) < u32_MAX → (length (fast_free_list s) < fuel)%nat →
  ∃ id s', run (next_id_op debug fuel) s =
      (Returned (Ok (mkGuard id (quantization_enabled (barrier s)))), s') ∧
    id ∉ h ∧ ready s' (id :: h) ∧ barrier_lock s' = Unlocked ∧ readers s' = S (readers s) ∧
    (reuse_enabled s = true → (∃ x, reusable s x) →
       reusable s id ∧ next_id (id_minter s') = next_id (id_minter s)) ∧
    (reuse_enabled s = false ∨ (∀ x, ¬ reusable s x) →
       id = next_id (id_minter s) ∧ next_id (id_minter s') = next_id (id_minter s) + 1).
Proof.
  intros Hr Hbl Hmax Hf. set (s1 := set_readers (S (readers s)) s).
  destruct (run_reuse_or_mint s1 h fuel) as (id & s' & Erun & Hno & Hr' & Hbl' & Hrd & Hpost);
    [by apply ready_readers|done|done|].
  exists id, s'. split; [|split; [done|]; split; [done|]; split; [by etrans; [exact Hbl'|]|by split]].
  unfold next_id_op. rewrite (run_act ReadBarrier _ _ s1 (Some (barrier s))) by (unfold perform; by rewrite Hbl).
  cbn [unwrap mbind prog_mbind prog_bind].
  by rewrite (run_bind_ret _ _ _ _ _ (run_unwind _ _ _ _ _ Erun)).
Qed.
End operations.

(** ** Witnesses *)

Lemma empty_map_ready : ready empty_map [].
Proof. by apply (fresh_map_ready one_block ∅). Qed.

(** The map after one id was issued. *)
Definition one_id_map : FreeSpaceMap (gmap Z (list Z)) := (run (reuse_or_mint true 1) empty_map).2.

Lemma one_id_ready : ready one_id_map [0].
Proof.
  destruct (run_reuse_or_mint true empty_map [] 1) as (id & s' & E & _ & Hr & _ & _ & _ & Hnew);
    [exact empty_map_ready|done|cbn; lia|].
  destruct Hnew as [-> _].
  { right. apply (ready_flag _ _ empty_map_ready). done. }
  unfold one_id_map. rewrite E. exact Hr.
Qed.

Lemma mark_free_correct_witness :
  ∃ s', run (mark_free 0) one_id_map = (Returned (Ok tt), s') ∧ settled s' [] ∧
    run (mark_free 7) one_id_map = (Returned (Err (IdOutOfRange 7)), one_id_map).
Proof.
  destruct (mark_free_correct one_id_map [0] 0 1 one_id_ready (ready_blocks _ _ one_id_ready)) as (H1 & _ & _);
    [done|]. destruct (H1 [] ltac:(done)) as (gs & E & _ & Hs).
  destruct (mark_free_correct one_id_map [0] 7 1 one_id_ready (ready_blocks _ _ one_id_ready)) as (_ & _ & H3);
    [done|].
  eexists. split; [exact E|]. split; [exact Hs|]. apply H3. vm_compute. discriminate.
Defined.

Lemma next_id_correct_witness :
  ∃ s', run (next_id_op true 1) one_id_map = (Returned (Ok (mkGuard 1 false)), s') ∧ ready s' [1; 0].
Proof.
  destruct (next_id_correct true one_id_map [0] 1 one_id_ready) as (id & s' & E & _ & Hr & _ & _ & _ & Hnew);
    [reflexivity|reflexivity|vm_compute; lia|].
  destruct Hnew as [Hid _]; [right; apply (ready_flag _ _ one_id_ready); reflexivity|].
  replace (next_id (id_minter one_id_map)) with 1 in Hid by (vm_compute; reflexivity). subst id.
  exists s'. split; [exact E|exact Hr].
Defined.
