(* ===== verification/FsmRecovery.v ===== *)
(** * Recovery of the free-space map from its blocks

    The constructor of [Fsm] on a store that does not fail: [load_state] scans all blocks
    backwards.  It is compared with the used and free ids as lists ([used_ids], [gap_ids]), and
    the recovered map is [at_rest] with the ids that were used before. *)

From S2P Require Import Prelude Bytes Fsm FsmBlocks FsmProtocol FsmSafety FsmScan FsmNext.
Local Open Scope Z_scope.

Section load.
Context (debug : bool) (u : Z → bool).

(** The scan over a list of ids: the largest used id, the number of used ids, and the queue. *)
Fixpoint load_ids (ids : list Z) (last n : Z) (q : list Z) : Z * Z * list Z :=
  match ids with
  | [] => (last, n, q)
  | id :: ids =>
      if u id then load_ids ids (Z.max last id) (n + 1) q
      else load_ids ids last n
             (if (id <? last) && (length q <? FAST_SIZE)%nat then q ++ [id] else q)
  end.

Lemma load_ids_app ids ids' last n q :
  load_ids (ids ++ ids') last n q =
    let '(last', n', q') := load_ids ids last n q in load_ids ids' last' n' q'.
Proof.
  revert last n q. induction ids as [|id ids IH]; intros last n q; [done|]. cbn.
  destruct (u id); apply IH.
Qed.

Context {G : Type} `{GarnetReliable G} `{!GarnetLaws G}.

(** What a part of the scan that ends below [id] leaves behind. *)
Definition loaded (s : FreeSpaceMap G) (id : Z) (r : Z * Z * list Z) :=
  (Returned (mkLoading r.1.1 r.1.2 (Z.max 0 (id - 1))), set_list r.2 s).

Lemma reverse_seqZ_S m n : reverse (seqZ m (Z.of_nat (S n))) = (m + Z.of_nat n) :: reverse (seqZ m (Z.of_nat n)).
Proof.
  replace (Z.of_nat (S n)) with (Z.of_nat n + 1) by lia.
  rewrite seqZ_app, reverse_app by lia. done.
Qed.

Lemma run_load_bits (s : FreeSpaceMap G) byte base n : ∀ last k q, 0 ≤ base →
  (∀ j, 0 ≤ j < Z.of_nat n → bit_used byte j = u (base + j)) →
  run (load_bits byte (reverse (seqZ 0 (Z.of_nat n))) (mkLoading last k (Z.max 0 (base + Z.of_nat n - 1))))
      (set_list q s) =
    loaded s base (load_ids (reverse (seqZ base (Z.of_nat n))) last k q).
Proof.
  induction n as [|n IH]; intros last k q Hbase Hb; [unfold loaded; cbn; by rewrite Z.add_0_r|].
  rewrite !reverse_seqZ_S. cbn [load_bits load_ids load_id last_used_id loaded_used].
  replace (Z.max 0 (base + Z.of_nat (S n) - 1)) with (base + Z.of_nat n) by lia.
  rewrite (Hb (0 + Z.of_nat n)) by lia. rewrite Z.add_0_l.
  assert (∀ last k q, run (load_bits byte (reverse (seqZ 0 (Z.of_nat n)))
             (mkLoading last k (Z.max 0 (base + Z.of_nat n - 1)))) (set_list q s) =
           loaded s base (load_ids (reverse (seqZ base (Z.of_nat n))) last k q)) as HIH.
  { intros last' k' q'. apply IH; [done|]. intros j Hj. apply Hb. lia. }
  destruct (u (base + Z.of_nat n)); [apply HIH|].
  destruct (Z.ltb_spec (base + Z.of_nat n) last); [|apply HIH]. cbn. case_nat; apply HIH.
Qed.

Lemma run_load_bytes (s : FreeSpaceMap G) base vs : ∀ last k q, 0 ≤ base → reads_as u vs base →
  run (load_bytes (reverse vs) (mkLoading last k (Z.max 0 (base + 8 * Z.of_nat (length vs) - 1)))) (set_list q s) =
    loaded s base (load_ids (reverse (seqZ base (8 * Z.of_nat (length vs)))) last k q).
Proof.
  induction vs as [|byte vs IH] using rev_ind; intros last k q Hbase Hr;
    [unfold loaded; cbn; by rewrite Z.add_0_r|].
  rewrite length_app. cbn [length].
  replace (8 * Z.of_nat (length vs + 1)) with (8 * Z.of_nat (length vs) + 8) by lia.
  rewrite seqZ_app, !reverse_app, load_ids_app by lia. cbn [reverse app load_bytes].
  change (reverse [byte]) with [byte]. cbn [app load_bytes].
  erewrite run_bind_ret.
  2: { rewrite Z.add_assoc. apply (run_load_bits s byte (base + 8 * Z.of_nat (length vs)) 8); [lia|].
       intros j Hj. rewrite (Hr (length vs) byte j); [done| |lia]. by rewrite lookup_app_r, Nat.sub_diag. }
  change (Z.of_nat 8) with 8.
  destruct (load_ids _ last k q) as [[last' k'] q']. apply IH; [done|].
  intros j byte' i Hj. apply Hr. by apply lookup_app_l_Some.
Qed.
End load.

(** ** The recovered ids *)
Section ids.
Context (u : Z → bool).

Definition used_ids (ids : list Z) : list Z := List.filter u ids.
(** The first used id of a decreasing list. *)
Definition last_used (ids : list Z) : Z := match used_ids ids with [] => -1 | id :: _ => id end.
(** The free ids below it. *)
Definition gap_ids (ids : list Z) : list Z :=
  List.filter (λ id, negb (u id) && (id <? last_used ids)) ids.

Lemma load_ids_below ids last n : ∀ q, Forall (λ id, id < last) ids → (length q ≤ FAST_SIZE)%nat →
  load_ids u ids last n q =
    (last, n + Z.of_nat (length (used_ids ids)),
     q ++ take (FAST_SIZE - length q) (List.filter (λ id, negb (u id)) ids)).
Proof.
  revert n. induction ids as [|id ids IH]; intros n q Hlt Hq.
  { cbn. by rewrite take_nil, app_nil_r, Z.add_0_r. }
  apply Forall_cons in Hlt as [Hid Hlt]. unfold used_ids in *. cbn [load_ids List.filter].
  destruct (u id); cbn [negb].
  { rewrite Z.max_l, IH by (done || lia). cbn [length]. do 2 f_equal. lia. }
  rewrite (proj2 (Z.ltb_lt _ _)) by done. cbn [andb]. case_nat.
  - rewrite IH by (rewrite ?length_app; cbn; done || lia). f_equal.
    rewrite length_app, <-app_assoc. cbn [app length].
    replace (FAST_SIZE - length q)%nat with (S (FAST_SIZE - (length q + 1))) by lia. done.
  - rewrite IH by done. replace (FAST_SIZE - length q)%nat with 0%nat by lia. done.
Qed.

Lemma load_ids_eq ids : StronglySorted Z.gt ids → Forall (λ id, 0 ≤ id) ids →
  load_ids u ids (-1) 0 [] =
    (last_used ids, Z.of_nat (length (used_ids ids)), take FAST_SIZE (gap_ids ids)).
Proof.
  induction 1 as [|id ids Hs IH Hid]; intros Hpos; [done|].
  apply Forall_cons in Hpos as [H0 Hpos].
  assert (Forall (λ id', id' < id) ids) as Hlt by (apply (Forall_impl _ _ _ Hid); intros; lia).
  unfold gap_ids, last_used, used_ids in *. cbn [load_ids List.filter]. destruct (u id) eqn:Eu.
  - rewrite Z.max_r, load_ids_below by (done || cbn; lia). cbn [length negb andb app].
    unfold used_ids. f_equal; [f_equal; lia|]. rewrite Nat.sub_0_r. f_equal.
    apply List_filter_ext. intros id' Hid'. rewrite Forall_forall in Hlt.
    specialize (Hlt id' Hid'). rewrite (proj2 (Z.ltb_lt _ _)) by done. by rewrite andb_true_r.
  - rewrite (proj2 (Z.ltb_ge _ _)) by lia. cbn [andb]. rewrite IH by done. cbn [negb andb].
    rewrite (proj2 (Z.ltb_ge id _)); [done|].
    destruct (List.filter u ids) as [|x xs] eqn:E; [lia|].
    assert (x ∈ ids) as Hx by (apply (elem_of_List_filter u); rewrite E; by left).
    rewrite Forall_forall in Hlt. specialize (Hlt x Hx). lia.
Qed.

Lemma last_used_max ids id : StronglySorted Z.gt ids → id ∈ ids → u id = true → id ≤ last_used ids.
Proof.
  unfold last_used, used_ids. induction 1 as [|id' ids Hs IH Hid']; [by intros ?%not_elem_of_nil|].
  cbn [List.filter]. rewrite elem_of_cons. rewrite Forall_forall in Hid'.
  destruct (u id') eqn:Eu; intros [->|Hin] Hu; [lia|specialize (Hid' id Hin); lia|congruence|auto].
Qed.

Lemma last_used_in ids : last_used ids = -1 ∧ used_ids ids = [] ∨
  last_used ids ∈ ids ∧ u (last_used ids) = true.
Proof.
  unfold last_used. destruct (used_ids ids) as [|x xs] eqn:E; [by left|right].
  apply (elem_of_List_filter u). unfold used_ids in E. rewrite E. by left.
Qed.

Lemma gap_nonempty ids : nonempty (take FAST_SIZE (gap_ids ids)) = true ↔
  ∃ id, id ∈ ids ∧ u id = false ∧ id < last_used ids.
Proof.
  assert (nonempty (take FAST_SIZE (gap_ids ids)) = nonempty (gap_ids ids)) as -> by by destruct (gap_ids ids).
  assert (∀ id, id ∈ gap_ids ids ↔ id ∈ ids ∧ u id = false ∧ id < last_used ids) as Hin.
  { intros id. unfold gap_ids. rewrite elem_of_List_filter, andb_true_iff, negb_true_iff, Z.ltb_lt. done. }
  destruct (gap_ids ids) as [|x xs]; split; try done.
  - intros (id & ?%Hin). by apply not_elem_of_nil in H.
  - intros _. exists x. apply Hin. by left.
Qed.
End ids.

Lemma reverse_seqZ_sorted m n : StronglySorted Z.gt (reverse (seqZ m n)).
Proof.
  apply StronglySorted_of_lookup. intros i j x y Hij Hx Hy.
  pose proof (lookup_lt_Some _ _ _ Hy) as Hj. rewrite length_reverse in Hj.
  rewrite reverse_lookup in Hx, Hy by lia. apply lookup_seqZ in Hx as [-> ?], Hy as [-> ?]. lia.
Qed.

(** ** The constructor *)
Section recovery.
Context (debug : bool) {G : Type} `{GarnetReliable G} `{!GarnetLaws G}.

Lemma u32_mul_small x y : x * y < 2 ^ 32 → u32_mul debug x y = Some (x * y).
Proof. intros. unfold u32_mul. by rewrite (proj2 (Z.ltb_lt _ _)). Qed.
Lemma u32_sub_small x y : y ≤ x → u32_sub debug x y = Some (x - y).
Proof. intros. unfold u32_sub. by rewrite (proj2 (Z.leb_le _ _)). Qed.

Lemma run_load_blocks c n : ids_of_blocks (Z.of_nat n) < 2 ^ 32 → has_blocks c (Z.of_nat n) →
  ∀ (s : FreeSpaceMap G) last k id q, contents (callbacks s) = c →
  ∃ gs id', contents gs = c ∧
    let r := load_ids (used c) (reverse (seqZ 0 (ids_of_blocks (Z.of_nat n)))) last k q in
    run (load_blocks debug (reverse (seqZ 0 (Z.of_nat n))) (mkLoading last k id)) (set_list q s) =
      (Returned (mkLoading r.1.1 r.1.2 id'), set_list r.2 (set_callbacks gs s)).
Proof.
  induction n as [|n IH]; intros Htop Hb s last k id q Hc.
  { exists (callbacks s), id. split; [done|]. cbn. by destruct s. }
  assert (ids_of_blocks (Z.of_nat (S n)) = ids_of_blocks (Z.of_nat n) + ids_of_blocks 1) as Eids
    by (unfold ids_of_blocks; lia).
  assert (0 ≤ ids_of_blocks (Z.of_nat n) ∧ ids_of_blocks 1 = BLOCK_SIZE_IDS) as [Hpos H1]
    by (unfold ids_of_blocks, BLOCK_SIZE_IDS; lia).
  destruct (Hb (Z.of_nat n)) as (v & Hv & Hok); [lia|]. pose proof Hok as [Hl _].
  change BLOCK_SIZE_BYTES with 8192 in Hl.
  destruct (run_read (set_list q s) (block_key (Z.of_nat n)) v) as (gs & Egs & Erun);
    [cbn; by rewrite Hc|done|].
  rewrite reverse_seqZ_S, Z.add_0_l. cbn [load_blocks]. rewrite (run_bind_ret _ _ _ _ _ Erun).
  rewrite Eids in Htop. unfold BLOCK_SIZE_IDS in H1.
  rewrite u32_mul_small by (unfold ids_of_blocks, BLOCK_SIZE_IDS in *; lia).
  cbn [unwrap mbind prog_mbind prog_bind].
  rewrite u32_add_small by (unfold ids_of_blocks, BLOCK_SIZE_IDS in *; lia).
  cbn [unwrap mbind prog_mbind prog_bind].
  rewrite u32_sub_small by (unfold ids_of_blocks, BLOCK_SIZE_IDS in *; lia).
  cbn [unwrap mbind prog_mbind prog_bind last_used_id loaded_used].
  erewrite run_bind_ret.
  2: { pose proof (run_load_bytes (used c) (set_callbacks gs s) (ids_of_blocks (Z.of_nat n)) v
                     last k q Hpos (block_reads_as c _ v Hv Hok)) as E.
       replace (Z.max 0 _) with (Z.of_nat n * BLOCK_SIZE_IDS + BLOCK_SIZE_IDS - 1) in E
         by (unfold ids_of_blocks, BLOCK_SIZE_IDS in *; lia).
       exact E. }
  replace (8 * Z.of_nat (length v)) with (ids_of_blocks 1) by (rewrite Hl; done).
  rewrite Eids, seqZ_app, reverse_app, load_ids_app, Z.add_0_l by lia.
  destruct (load_ids _ (reverse (seqZ (ids_of_blocks (Z.of_nat n)) _)) last k q) as [[last' k'] q'].
  cbn [fst snd]. destruct (IH ltac:(lia) ltac:(intros b ?; apply Hb; lia) (set_callbacks gs s) last' k'
    (Z.max 0 (ids_of_blocks (Z.of_nat n) - 1)) q') as (gs' & id' & Egs' & Erun'); [cbn; cbn in Egs; congruence|].
  by exists gs', id'.
Qed.

Lemma run_exists (s : FreeSpaceMap G) key :
  ∃ gs, contents gs = contents (callbacks s) ∧
    run (exists_wid key) s =
      (Returned (match contents (callbacks s) !! key with Some _ => true | None => false end), set_callbacks gs s).
Proof.
  unfold exists_wid, act. cbn. destruct (g_read (callbacks s) key) as [r gs] eqn:E.
  pose proof (read_contents _ _ _ _ E) as [Egs Hr]. exists gs. split; [done|].
  destruct (contents (callbacks s) !! key) as [v|] eqn:Ev.
  - pose proof (read_ok (callbacks s) key v Ev) as Hok. rewrite E in Hok. cbn in Hok. by subst r.
  - destruct r as [v|]; [|done]. by specialize (Hr v eq_refl).
Qed.

Lemma run_count_blocks c n : has_blocks c (Z.of_nat n) → c !! block_key (Z.of_nat n) = None →
  Z.of_nat n < 2 ^ 32 → ∀ fuel k (s : FreeSpaceMap G), (k ≤ n)%nat → (n - k < fuel)%nat →
  contents (callbacks s) = c →
  ∃ gs, contents gs = c ∧
    run (count_blocks debug fuel (Z.of_nat k)) s = (Returned (Z.of_nat n), set_callbacks gs s).
Proof.
  intros Hb Hn Hmax fuel. induction fuel as [|fuel IH]; intros k s Hk Hf Hc; [lia|]. cbn [count_blocks].
  destruct (run_exists s (block_key (Z.of_nat k))) as (gs & Egs & Erun).
  rewrite (run_bind_ret _ _ _ _ _ Erun), Hc. destruct (decide (k = n)) as [->|].
  { rewrite Hn. exists gs. split; [congruence|done]. }
  destruct (Hb (Z.of_nat k)) as (v & -> & _); [lia|].
  rewrite u32_add_small by lia. cbn [unwrap mbind prog_mbind prog_bind].
  replace (Z.of_nat k + 1) with (Z.of_nat (S k)) by lia.
  destruct (IH (S k) (set_callbacks gs s)) as (gs' & Egs' & Erun'); [lia|lia|cbn; congruence|].
  by exists gs'.
Qed.

(** The map that the constructor makes of [n] blocks with contents [c]. *)
Definition recovered (gs : G) (c : gmap Z (list Z)) (n : Z) (quantization reuse : bool) : FreeSpaceMap G :=
  let ids := reverse (seqZ 0 (ids_of_blocks n)) in
  let q := take FAST_SIZE (gap_ids (used c) ids) in
  mkFsm gs (nonempty q) q (mkMinter (last_used (used c) ids + 1) (n - 1) empty_block) Unlocked
    (Z.of_nat (length (used_ids (used c) ids))) reuse (mkBarrier u32_MAX quantization) 0 Unlocked Unlocked.

Lemma run_new_blocks (g : G) n fuel quantization reuse :
  has_blocks (contents g) (Z.of_nat (S n)) → contents g !! block_key (Z.of_nat (S n)) = None →
  ids_of_blocks (Z.of_nat (S n)) < 2 ^ 32 → (S n < fuel)%nat →
  ∃ gs, contents gs = contents g ∧
    new debug fuel g quantization reuse =
      (Returned (Ok tt), recovered gs (contents g) (Z.of_nat (S n)) quantization reuse).
Proof.
  intros Hb Hn Htop Hf. set (c := contents g) in *. set (s := fresh g quantization reuse). unfold new, init.
  destruct (run_exists s (block_key 0)) as (g1 & E1 & R1). rewrite (run_bind_ret _ _ _ _ _ R1).
  assert (Z.of_nat (S n) < 2 ^ 32) as Hn32 by (unfold ids_of_blocks, BLOCK_SIZE_IDS in Htop; lia).
  destruct (Hb 0) as (v & Hv & _); [lia|]. change (contents (callbacks s)) with c. rewrite Hv. unfold load_state.
  destruct (run_count_blocks c (S n) Hb Hn Hn32 fuel 0
              (set_callbacks g1 s)) as (g2 & E2 & R2); [lia|lia|done|].
  change (Z.of_nat 0) with 0 in R2. rewrite (run_bind_ret _ _ _ _ _ R2).
  destruct (run_load_blocks c (S n) Htop Hb (set_callbacks g2 s) (-1) 0 0 []) as (g3 & id & E3 & R3); [done|].
  change (set_callbacks g2 (set_callbacks g1 s)) with (set_list [] (set_callbacks g2 s)).
  rewrite (run_bind_ret _ _ _ _ _ R3).
  rewrite load_ids_eq; [|apply reverse_seqZ_sorted|].
  2: { apply Forall_forall. intros x. rewrite elem_of_reverse, elem_of_seqZ. lia. }
  exists g3. split; [done|]. cbn [fst snd].
  set (ids := reverse (seqZ 0 (ids_of_blocks (Z.of_nat (S n))))).
  assert (-1 ≤ last_used (used c) ids < u32_MAX) as Hlast.
  { destruct (last_used_in (used c) ids) as [[-> _]|[Hin _]]; [unfold u32_MAX; lia|].
    unfold ids in Hin at 2. apply elem_of_reverse, elem_of_seqZ in Hin. unfold u32_MAX. lia. }
  unfold recovered. fold ids. generalize (take FAST_SIZE (gap_ids (used c) ids)). intros q.
  unfold with_minter. rewrite u32_sub_small by lia. cbn.
  rewrite Z.mod_small by (unfold u32_MAX in *; lia). by destruct q.
Qed.

Lemma recovered_at_rest gs c n quantization reuse : contents gs = c → blocks_ok c →
  0 < n → ids_of_blocks n < 2 ^ 32 → (∀ id, used c id = true → 0 ≤ id → id < ids_of_blocks n) →
  at_rest (recovered gs c n quantization reuse)
    (used_ids (used c) (reverse (seqZ 0 (ids_of_blocks n)))).
Proof.
  intros Hc Hb Hn Htop Hu. set (ids := reverse (seqZ 0 (ids_of_blocks n))).
  assert (∀ id, id ∈ ids ↔ 0 ≤ id < ids_of_blocks n) as Hids.
  { intros id. unfold ids. rewrite elem_of_reverse, elem_of_seqZ. lia. }
  assert (-1 ≤ last_used (used c) ids < u32_MAX) as Hlast.
  { destruct (last_used_in (used c) ids) as [[-> _]|[Hin _]]; [unfold u32_MAX; lia|].
    apply Hids in Hin. unfold u32_MAX. lia. }
  assert (∀ id, id ∈ ids → id / BLOCK_SIZE_IDS ≤ n - 1) as Hblock.
  { intros id Hid%Hids. unfold ids_of_blocks, BLOCK_SIZE_IDS in *. dlia. }
  split; [|done..]. split; cbn; rewrite ?Hc; fold ids; try done.
  - apply NoDup_List_filter. unfold ids. rewrite (reverse_Permutation _). apply NoDup_seqZ.
  - intros id Hid. unfold used_ids. rewrite elem_of_List_filter, Hids. naive_solver.
  - apply Forall_forall. intros id [Hin Hid]%elem_of_List_filter.
    pose proof (last_used_max (used c) ids id (reverse_seqZ_sorted _ _) Hin Hid).
    pose proof (proj1 (Hids id) Hin). split; [change (0 ≤ id < last_used (used c) ids + 1 - 0); lia|by apply Hblock].
  - apply Forall_take, Forall_forall. intros id [Hin Hid]%elem_of_List_filter.
    apply andb_true_iff in Hid as [_ Hid%Z.ltb_lt].
    pose proof (proj1 (Hids id) Hin). split; [change (0 ≤ id < last_used (used c) ids + 1 - 0); lia|by apply Hblock].
  - unfold usize_wrap. rewrite Z.mod_small; [done|]. split; [lia|].
    assert (length (used_ids (used c) ids) ≤ length ids)%nat as Hl by apply sublist_length, List_filter_sublist.
    assert (length ids = Z.to_nat (ids_of_blocks n)) as El
      by (unfold ids; by rewrite length_reverse, length_seqZ).
    lia.
  - unfold minter_ok. cbn. unfold ids_of_blocks, BLOCK_SIZE_IDS in *. split_and!; [lia..|done].
Qed.

(** The used ids are determined by the store. *)
Lemma settled_unique (s s' : FreeSpaceMap G) h h' : settled s h → settled s' h' →
  contents (callbacks s) = contents (callbacks s') → h ≡ₚ h'.
Proof.
  intros Hr Hr' E. apply NoDup_Permutation; [apply Hr|apply Hr'|]. intros id.
  assert (∀ (s : FreeSpaceMap G) h, settled s h → id ∈ h → 0 ≤ id) as Hpos.
  { intros s1 h1 Hr1. pose proof (rest_held _ _ Hr1) as Hh. rewrite Forall_forall in Hh.
    intros Hid. apply (Hh id Hid). }
  split; intros Hid.
  - apply (rest_used _ _ Hr'); [by eapply (Hpos s)|]. rewrite <-E. apply (rest_used _ _ Hr); [by eapply (Hpos s)|done].
  - apply (rest_used _ _ Hr); [by eapply (Hpos s')|]. rewrite E. apply (rest_used _ _ Hr'); [by eapply (Hpos s')|done].
Qed.

Lemma recovered_flag gs c n quantization reuse :
  let s := recovered gs c n quantization reuse in
  has_free_ids s = true ↔ ∃ id, 0 ≤ id < next_id (id_minter s) ∧ used c id = false.
Proof.
  cbn. set (ids := reverse (seqZ 0 (ids_of_blocks n))).
  assert (∀ id, id ∈ ids ↔ 0 ≤ id < ids_of_blocks n) as Hids.
  { intros id. unfold ids. rewrite elem_of_reverse, elem_of_seqZ. lia. }
  rewrite (gap_nonempty (used c) ids). split.
  - intros (id & Hin%Hids & Hid & Hlt). exists id. split; [lia|done].
  - intros (id & Hin & Hid). assert (id ≠ last_used (used c) ids) as Hne.
    { destruct (last_used_in (used c) ids) as [[-> _]|[_ Hl]]; [lia|]. congruence. }
    exists id. split; [|split; [done|lia]]. apply Hids.
    destruct (last_used_in (used c) ids) as [[E _]|[Hl%Hids _]]; lia.
Qed.

Lemma recovered_ready gs c n quantization reuse : contents gs = c → blocks_ok c →
  0 < n → ids_of_blocks n < 2 ^ 32 → (∀ id, used c id = true → 0 ≤ id → id < ids_of_blocks n) →
  has_blocks c n →
  ready (recovered gs c n quantization reuse) (used_ids (used c) (reverse (seqZ 0 (ids_of_blocks n)))).
Proof.
  intros Hc Hb Hn Htop Hu Hblocks. set (ids := reverse (seqZ 0 (ids_of_blocks n))).
  assert (∀ id, id ∈ ids ↔ 0 ≤ id < ids_of_blocks n) as Hids.
  { intros id. unfold ids. rewrite elem_of_reverse, elem_of_seqZ. lia. }
  split; [by apply recovered_at_rest|..].
  - cbn. rewrite Hc. by replace (n - 1 + 1) with n by lia.
  - cbn. replace (n - 1 + 1) with n by lia. fold ids.
    destruct (last_used_in (used c) ids) as [[-> _]|[Hin%Hids _]]; [unfold ids_of_blocks, BLOCK_SIZE_IDS|]; lia.
  - done.
  - intros Hflag id [[Hid _] Hf]. unfold published in Hid. rewrite Z.sub_0_r in Hid.
    cbn [callbacks recovered] in Hf. rewrite Hc in Hf.
    assert (has_free_ids (recovered gs c n quantization reuse) = true) as E by (apply recovered_flag; eauto).
    congruence.
Qed.

(** C31: A map that is constructed from the blocks of another recovers its state: the same ids are
    used and counted, the map is ready for operations, concurrent ([at_rest]) or not ([ready]), no
    used id can be minted again, and it knows of free ids exactly when there is one below the
    largest used id. *)
Theorem fsm_recovery (s : FreeSpaceMap G) h fuel quantization reuse : ready s h →
  contents (callbacks s) !! block_key (max_block (id_minter s) + 1) = None →
  max_block (id_minter s) < 65535 → max_block (id_minter s) + 1 < Z.of_nat fuel →
  ∃ s' h', new debug fuel (callbacks s) quantization reuse = (Returned (Ok tt), s') ∧
    contents (callbacks s') = contents (callbacks s) ∧ h' ≡ₚ h ∧ at_rest s' h' ∧ ready s' h' ∧
    total_used s' = total_used s ∧ max_block (id_minter s') = max_block (id_minter s) ∧
    next_id (id_minter s') ≤ next_id (id_minter s) ∧
    (has_free_ids s' = true ↔
       ∃ id, 0 ≤ id < next_id (id_minter s') ∧ used (contents (callbacks s)) id = false).
Proof.
  intros Hr Hnone Hmax Hf. pose proof (ready_blocks _ _ Hr) as Hb. pose proof (rest_minter _ _ Hr) as (Hm1 & Hm2 & _).
  set (n := Z.to_nat (max_block (id_minter s))).
  assert (Z.of_nat (S n) = max_block (id_minter s) + 1) as En by lia. rewrite <-En in *.
  assert (ids_of_blocks (Z.of_nat (S n)) < 2 ^ 32) as Htop by (unfold ids_of_blocks, BLOCK_SIZE_IDS; lia).
  destruct (run_new_blocks (callbacks s) n fuel quantization reuse) as (gs & Egs & Erun); [done..|lia|].
  set (c := contents (callbacks s)) in *.
  set (ids := reverse (seqZ 0 (ids_of_blocks (Z.of_nat (S n))))).
  assert (∀ id, used c id = true → 0 ≤ id → id < ids_of_blocks (Z.of_nat (S n)) ∧ id < next_id (id_minter s)) as Hu.
  { intros id Hid Hpos. apply (rest_used _ _ Hr) in Hid; [|done].
    pose proof (rest_held _ _ Hr) as Hh. rewrite Forall_forall in Hh. destruct (Hh id Hid) as [Hlt Hblk].
    unfold published in Hlt. cbn in Hlt. unfold ids_of_blocks, BLOCK_SIZE_IDS in *. split; [dlia|lia]. }
  set (s' := recovered gs c (Z.of_nat (S n)) quantization reuse) in *.
  assert (at_rest s' (used_ids (used c) ids)) as Hr'.
  { apply recovered_at_rest; [done|by apply (rest_blocks _ _ Hr)|lia|done|]. intros id Hid Hpos. by apply Hu. }
  assert (ready s' (used_ids (used c) ids)) as Hready.
  { apply recovered_ready; [done|by apply (rest_blocks _ _ Hr)|lia|done| |done]. intros id Hid Hpos. by apply Hu. }
  assert (used_ids (used c) ids ≡ₚ h) as Hperm by (eapply settled_unique; [exact Hr'|exact Hr|done]).
  exists s', (used_ids (used c) ids). split_and!; [exact Erun|done|exact Hperm|exact Hr'|exact Hready| | | |].
  - rewrite (rest_count _ _ Hr'), (rest_count _ _ Hr). by rewrite Hperm.
  - cbn. lia.
  - cbn. fold ids. destruct (last_used_in (used c) ids) as [[-> _]|[Hin Hl]]; [lia|].
    apply Hu in Hl as [_ ?]; [lia|]. unfold ids in Hin at 2. apply elem_of_reverse, elem_of_seqZ in Hin. lia.
  - apply recovered_flag.
Qed.

(** On a store without blocks the constructor makes the first block and an empty map. *)
Lemma run_new_fresh (g : G) fuel quantization reuse : contents g !! block_key 0 = None →
  ∃ gs, contents gs = <[block_key 0:=empty_block]> (contents g) ∧
    new debug fuel g quantization reuse = (Returned (Ok tt), fresh_map gs quantization reuse).
Proof.
  intros Hnone. set (s := fresh g quantization reuse). unfold new, init.
  destruct (run_exists s (block_key 0)) as (g1 & E1 & R1). rewrite (run_bind_ret _ _ _ _ _ R1).
  change (contents (callbacks s)) with (contents g). rewrite Hnone.
  destruct (g_write g1 (block_key 0) empty_block) as [ok g2] eqn:E2.
  pose proof (write_ok g1 (block_key 0) empty_block) as Hok. rewrite E2 in Hok. cbn in Hok. subst ok.
  pose proof (write_contents _ _ _ _ _ E2) as Hc. exists g2. split; [by rewrite Hc, E1|].
  unfold with_minter. rewrite (run_act LockMinter _ _ (set_minter_lock Locked (set_callbacks g1 s)) (Some (id_minter s))) by done.
  cbn [unwrap mbind prog_mbind prog_bind]. unfold expand_to.
  change (indexes_for_id 0) with (0, 0, 0). cbn [fst snd]. change (indexes_for_id 0) with (0, 0, 0).
  change (max_block (id_minter s)) with u32_MAX. rewrite Z.eqb_refl. cbn [orb].
  change (buffer (id_minter s)) with empty_block. cbn. by rewrite E2.
Qed.
End recovery.

(** ** Witness *)

Lemma fsm_recovery_witness :
  ∃ s', new true 3 (callbacks one_id_map) false true = (Returned (Ok tt), s') ∧
    ready s' [0] ∧ total_used s' = 1.
Proof.
  destruct (fsm_recovery true one_id_map [0] 3 false true one_id_ready)
    as (s' & h' & E & _ & Hp & _ & Hr & Ht & _); [vm_compute; reflexivity|vm_compute; reflexivity
    |vm_compute; reflexivity|].
  apply Permutation_singleton_r in Hp as ->. exists s'. split; [exact E|]. split; [exact Hr|].
  rewrite Ht. vm_compute. reflexivity.
Defined.

(** ** Where recovery and minting go wrong *)

(** A store whose reads fail as the list says, and otherwise succeed. *)
Record flaky := mkFlaky { flaky_blocks : gmap Z (list Z); read_fails : list bool }.

#[export] Instance flaky_store : GarnetStore flaky := {
  g_read g k :=
    let g' := mkFlaky (flaky_blocks g) (tail (read_fails g)) in
    (if default false (head (read_fails g)) then None else flaky_blocks g !! k, g');
  g_write g k v := (true, mkFlaky (<[k:=v]> (flaky_blocks g)) (read_fails g));
  g_rmw g k len f :=
    match f (default (replicate len 0) (flaky_blocks g !! k)) with
    | None => (RmwAborted, g)
    | Some (b, v) => (RmwDone b, mkFlaky (<[k:=v]> (flaky_blocks g)) (read_fails g))
    end;
  contents := flaky_blocks;
}.

#[export] Instance flaky_store_laws : GarnetLaws flaky.
Proof.
  split; simpl.
  - intros g k r g' [= <- <-]. split; [done|]. intros v. by destruct (default false _).
  - intros; by simplify_eq.
  - intros. repeat case_match; by simplify_eq.
Qed.

(** [load_state] takes a failed read for the end of the blocks: the constructor succeeds, and the
    next id it issues is one that is in use. *)
Lemma failed_recovery_reissues :
  let g := mkFlaky (callbacks one_id_map) [false; false; false; true] in
  let '(r, s) := new true 3 g false true in
  r = Returned (Ok tt) ∧ used (contents (callbacks s)) 0 = true ∧
  (run (next_id_op true 1) s).1 = Returned (Ok (mkGuard 0 false)).
Proof. vm_compute. repeat split. Qed.

(** In a release build the counter wraps around after the last id, and ids in use are issued. *)
Lemma release_wraps_around :
  let s := set_minter (mkMinter u32_MAX 65535 empty_block) one_id_map in
  let '(r, s') := run (mint false) s in
  r = Returned (Ok u32_MAX) ∧ used (contents (callbacks s')) 0 = true ∧
  (run (mint false) s').1 = Returned (Ok 0).
Proof. vm_compute. repeat split. Qed.

(** In a debug build the scan of the last block overflows. *)
Lemma visit_last_block_panics (s : FreeSpaceMap (gmap Z (list Z))) :
  (run (visit_bytes true (λ (b : unit) _, (true, b)) [0] (2 ^ 32 - 8) tt) s).1 = Panicked.
Proof. reflexivity. Qed.
